(* ===== verification/_CoqProject ===== *)
-Q . S2P
Prelude.v
Lists.v
Bits.v
RowAddress.v
Bitmap.v
EncodedArray.v
HoleRuns.v
Segment.v
SegmentBuild.v
SegmentRuns.v
SegmentCursor.v
Sequence.v
SequenceCursor.v
ChunkEncoder.v
Rechunk.v
Prost.v
Serde.v
Version.v
VersionCursor.v
VersionMeta.v
Itertools.v
Roaring.v
TreeMap.v
TreeMapAlgebra.v
TreeMapBuild.v
TreeMapCodec.v
RowMask.v
RowIdMask.v
NullableMask.v
IndexResult.v
Deletion.v
SequenceMap.v
OffsetRanges.v
RowIdIndex.v
RowIdLookup.v
RowIdProbe.v
RowIdMerged.v
RowIdBatch.v
RankedOffsets.v
Remap.v
RemapChain.v
RemapBatch.v
FragmentReuse.v
StablePartition.v
Ledger.v
LedgerOrder.v
LedgerDecode.v
Lineage.v
SchemaFields.v
IndexCoverage.v
RewriteCommit.v
RewriteIndices.v
IndexRetention.v
FeatureFlags.v
WriteGate.v
FlagCommit.v
Backoff.v
