(* ===== verification/Prelude.v ===== *)
(** * Row identity and fragment history in Lance

    Lance gives every row of a table a 64-bit identity.  A row _address_ is the
    place of a row, its fragment and its offset there; a _stable row id_ stays
    with the row when compaction moves it.  Each fragment carries the sequence
    of its row ids and the dataset versions at which its rows were created and
    last updated; an index maps ids to addresses; selection masks and deletion
    vectors say which rows a query sees; remaps and the fragment reuse history
    say where a compaction moved them, and index maintenance keeps the indices
    honest about it.  All of this is compressed and read through stateful
    cursors.  This development models that part of the program and proves that
    none of the compression and none of the state is observable: every
    operation agrees with the plain list, set or map it stands for.

    ** Parts

    Sequences of row ids and versions ([lance-table/src/rowids*]):
    - Row addresses ([lance-core/src/utils/address.rs]): [RowAddress].
    - The containers a segment is made of ([rowids/bitmap.rs],
      [rowids/encoded_array.rs], [rowids/runs.rs]): [Bitmap], [EncodedArray],
      [HoleRuns].
    - One segment of ids in six encodings ([rowids/segment.rs]): [Segment] has
      the type, the queries and the cursor for single reads, [SegmentBuild] the
      choice of encoding and the operations that make segments, [SegmentRuns]
      the runs of consecutive ids, [SegmentCursor] the two batch decoders.
    - A fragment's sequence of segments ([rowids.rs]): [Sequence] has the
      queries, [extend], [delete], [mask] and [slice]; [SequenceCursor] the
      reader that streams keep; [ChunkEncoder] re-encoding; [Rechunk] the
      distribution of ids over new fragments and the selection of a batch.
    - The protobuf form ([rowids/serde.rs], [protos/rowids.proto]): [Prost] is
      the interface of the codec, [Serde] the code.
    - Row versions ([rowids/version.rs]): [Version] has the sequences,
      [VersionCursor] their reader, [VersionMeta] the bytes in a fragment's
      metadata and the functions that keep them up to date.

    Sets of rows ([lance-select/src], [lance-core/src/utils/deletion.rs]):
    - [TreeMap] has [RowAddrTreeMap] of [mask.rs], [TreeMapAlgebra] its set
      algebra, [TreeMapBuild] its construction from sorted rows and ranges,
      [TreeMapCodec] its bytes.
    - [RowMask] has the allow and block lists of addresses, [RowIdMask] the
      trait [RowSetOps] and the masks of stable ids, [NullableMask] the masks
      with nulls ([mask/nullable.rs]), [IndexResult] the intervals an index
      search returns ([result.rs]).
    - [Deletion] has the deletion vectors and the mapper of offsets.
    - [SequenceMap] and [OffsetRanges] turn sequences into sets and masks into
      the offset ranges of a scan ([rowids.rs]).

    The row-id index ([lance-table/src/rowids/index.rs], [index/batch.rs]):
    - [RowIdIndex] is the model of both representations and of what a lookup
      means; [RowIdLookup] is about positions within a segment, [RowIdProbe]
      about the tree of pieces, [RowIdMerged] about the range map and the choice
      between the two, [RowIdBatch] about batched lookups.

    Moved rows ([lance-core/src/utils/row_addr_remap.rs], [fragment_reuse.rs],
    [stable_partition.rs], [lance-table/src/system_index/frag_reuse]):
    - [RankedOffsets], [Remap], [RemapChain] and [RemapBatch] have the remaps of
      compactions, alone, chained and applied to a batch; [FragmentReuse] the
      reader trait over them; [StablePartition] the mapping of a rewrite that
      distributes rows by label.
    - [Ledger] is the model of the fragment reuse history ([ledger.rs],
      [protos/table.proto]); [LedgerOrder] is about the order of its
      transitions, [LedgerDecode] about decoding; [Lineage] has the walk from a
      fragment to where its rows went ([lineage.rs]).

    Commits ([lance-table/src/transaction], [feature_flags.rs], [gate.rs]):
    - [SchemaFields] has the walks over a schema that index maintenance needs,
      [IndexCoverage] the withdrawal and recalculation of coverage,
      [RewriteCommit] the fragment list after a rewrite, [RewriteIndices] the
      swap of the index segments it rewrote and [IndexRetention] the choice of
      the indices a commit keeps ([index_maintenance.rs], [manifest_build.rs]).
    - [FeatureFlags] has the flag words of a manifest, [WriteGate] the operations
      a table with a history admits, and [FlagCommit] the way of the words through
      a commit, a restore or a clone to the published manifest
      ([manifest_build.rs], [format/manifest.rs], [lance/src/dataset.rs],
      [lance/src/io/commit.rs], [lance/src/dataset/versions/mod.rs]).
    - [Backoff] has the delays between retries ([utils/backoff.rs]).

    [Lists] and [Bits] hold the standard-library code that is used throughout
    (binary search, partition point, sorting, popcounts, little-endian bytes)
    with its specification; this file the integers, results and tactics.

    The layers build on each other in this order.  A segment owns its
    containers, a sequence its segments; the version code reuses segments as
    spans and the re-chunking loop of the sequences; masks are made of tree
    maps, the row-id index of sequences and deletion vectors; a ledger builds
    remaps, the lineage walks a ledger, and coverage is withdrawn along the
    lineage.  Decoding goes through constructors that re-establish every
    invariant, so a well-formedness predicate ([wf], [ledger_ok] and the like)
    holds for everything that is decoded or built, and every operation
    preserves it.

    ** How the code is modelled

    Each function of the source is a definition of the same name; a loop is a
    [Fixpoint] of its own with the loop's variables as arguments, and a method
    name that several types share has the type in front ([chain_get],
    [slot_with_unit]).  Unsigned integers are values of [Z]; additions,
    subtractions and casts that can leave their type are written with the
    wrap-around they have in release builds ([+w], [-w] for [u64] and [usize],
    [+d], [-d] for [u32]), and [usize] has 64 bits.  A result is [Ok], [Err]
    with the kind of error, or [Panic]: indexing out of range, [unwrap] of
    nothing, a failed assertion and an allocation over [isize::MAX] bytes are
    panics, so "never panics" is part of every theorem that says [Ok].  Code
    that mutates [&mut self] returns the new state; where it may fail half-way
    ([VersionCursor], [FeatureFlags]) it returns its result together with the
    state it leaves behind.  A hash map is a [gmap]; where the code iterates
    over one and the order could show, the order is a parameter ([HashOrder]).
    Error messages and log lines are not modelled.

    Loops without a structural argument take fuel, and the theorems include that
    it suffices; running out of it is [Panic], so it cannot hide in a theorem
    about [Ok].  The bounds: a cursor advances at most once per segment or run;
    the re-chunking loop consumes one item or finishes a chunk; the re-encoder's
    clipping loop crosses one chunk boundary per step; bitmap scans one byte,
    word or run edge per step; wire decoding takes one byte at least per field
    or record; range insertion and bucketing one fragment or row per step; the
    searches ([map_offset_loop], the lanes of a batch) halve or shrink their
    interval; a probe visits every node of the tree of pieces at most once; a
    lookup through a chain moves to a later step each time; [drain] places one
    transition per round; the lineage walk expands each destination once; the
    walks over a schema visit each field once.

    Crates that are not part of the repository are type classes with their
    documented behaviour as laws, and each has an instance that satisfies them:
    roaring bitmaps ([Roaring], [RoaringRanks]) and treemaps ([Treemap],
    [TreemapParts]), protobuf ([Prost], [VersionProst], [ReuseCodec], which also
    has the hash and the parsing of uuids), Arrow arrays and buffers ([Arrow],
    [ArrowBatch], [BooleanBuffers], [NullBuffers]), iterator adaptors
    ([Itertools]), range maps ([RangeMaps]) and random numbers ([RandomRange]).
    Theorems hold for every instance; their witnesses use the given ones.

    ** What is proved

    - Containers and segments: all queries agree with the list of values for
      every encoding, including byte-wise counting, run extraction, searches on
      narrowed offsets and both batch decoders; the operations that build
      segments produce the intended list whatever encoding is selected.
    - Sequences: the same for whole sequences; a cursor in any reachable state
      reads what indexing reads; re-encoding, re-chunking and selection keep,
      cut and pick exactly, with their errors.
    - Serialization: writing and reading back keeps the ids; arbitrary bytes give
      an error or a well-formed sequence with a length that does not overflow.
    - Versions: run-length encoding round-trips; lookups, iteration, masking,
      re-chunking and the indexed cursor agree with one version per row; a
      refresh changes exactly the updated rows.
    - Selection: the operations on tree maps and masks are the set operations on
      rows, those on nullable masks three-valued logic; an index expression
      keeps a sound interval; serialized forms read back.
    - Deletion vectors and scans: the offset mapper finds the row at an offset;
      offset ranges list exactly the selected offsets, on every path.
    - The row-id index: both representations answer what the live rows of the
      fragments say, alone and in batches, or report an id that is live twice.
    - Remaps: a compaction maps the k-th surviving row to the k-th new row;
      chains are composition, with or without the index by fragment; a batch is
      its rows one by one; bad groups are refused.  A stable partition sends a
      row to the number of earlier rows with its label, its counts round-trip.
    - History: any bytes decode to a well-formed, ordered ledger or an error; the
      lineage walk ends with exactly the fragments reached.
    - Commits: coverage is withdrawn from everything stale and nothing that is
      left is served unfiltered; compaction moves coverage group by group; a
      rewrite loses and repeats no fragment, and makes no coverage of a fragment
      outside the new list; rewritten segments are swapped in place, with the coverage of all
      their sources, or the plan is refused; no index name and no live coverage
      is lost; the flag words have exactly the bits of the features in use, a
      build can open what it publishes, sticky flags stay over any number of
      commits, restores and clones; the gate admits exactly the listed shapes, an
      admitted bare rewrite changes no coverage, and a tagged entry comes only
      from the commit path.
    - Retries: delays stay in their bounds at every saturation.

    Where the code departs from what it means to do, a lemma shows it; among
    them [rechunk_trailing_empty], the open-range case of [select_row_ids_spec],
    the spurious version of [versions_iteration], the bit order of
    [serde_bitmap_bit_order], [treemap_insert_range_diverges],
    [empty_range_selects_row_zero], [odd_fragment_carry_lost],
    [repeated_id_differs], [tagged_rewrite_keeps_containers] and
    [drained_table_admits_untagged_entry].

    ** Not modelled

    Of the files above: debug assertions, memory accounting ([DeepSizeOf]), the
    cache codecs, the integer hasher, equality of remap chains, the conversion
    from a whole [RoaringTreemap] and the JSON form of the metadata.  Of index
    maintenance: the registration of pure rewrites, overlay staleness and the
    columns a merge rewrote, which need the data files of a fragment.  Of the
    feature flags: the checks of the cleanup configuration.  Of the building,
    restoring and writing of manifests: everything but the assignment of fragment
    ids and the flag words; in [FlagCommit] the contents this code leaves in a
    manifest, the outcome of its other checks, the flags its seed writers require
    and the registry of index types are arguments, over which the theorems
    quantify.  Not at all: conflict resolution, which combines all table
    metadata; rate control, whose rates are floating-point numbers; the array
    encodings and the file format; object-store I/O; the indexes themselves;
    query integration; namespaces and the language bindings. *)

From Stdlib Require Import ZArith Lia.
From stdpp Require Import base option list numbers sorting sets gmap.

#[global] Open Scope Z_scope.

(** ** Machine integers *)

(** Unsigned integers are values of [Z]; every Rust operation that can leave
    the range of its type is written with the wrap-around of the release
    profile ([.cargo/config.toml] sets no overflow checks). *)
Abbreviation U8_MAX := 255 (only parsing).
Abbreviation U16_MAX := 65535 (only parsing).
Abbreviation U32_MAX := 4294967295 (only parsing).
Abbreviation U64_MAX := 18446744073709551615 (only parsing).
(** No Rust allocation exceeds [isize::MAX] bytes, so no vector or slice has
    more elements than that. *)
Abbreviation ISIZE_MAX := 9223372036854775807 (only parsing).
(** The most elements a [Vec<u64>] can hold. *)
Abbreviation VEC64_MAX := 1152921504606846975 (only parsing).

Definition wrap8 (x : Z) : Z := x mod 256.
Definition wrap16 (x : Z) : Z := x mod 65536.
Definition wrap32 (x : Z) : Z := x mod 4294967296.
Definition wrap64 (x : Z) : Z := x mod 18446744073709551616.

Declare Scope rust_scope.
Delimit Scope rust_scope with rust.
#[global] Open Scope rust_scope.

(** [a +w b] and [a -w b] are the wrapping [u64]/[usize] operations. *)
Notation "a +w b" := (wrap64 (a + b)) (at level 50, left associativity) : rust_scope.
Notation "a -w b" := (wrap64 (a - b)) (at level 50, left associativity) : rust_scope.
Notation "a +d b" := (wrap32 (a + b)) (at level 50, left associativity) : rust_scope.
Notation "a -d b" := (wrap32 (a - b)) (at level 50, left associativity) : rust_scope.

Definition u8_ok (x : Z) : Prop := 0 <= x <= U8_MAX.
Definition u16_ok (x : Z) : Prop := 0 <= x <= U16_MAX.
Definition u32_ok (x : Z) : Prop := 0 <= x <= U32_MAX.
Definition u64_ok (x : Z) : Prop := 0 <= x <= U64_MAX.

Definition checked_add (a b : Z) : option Z :=
  if a + b <=? U64_MAX then Some (a + b) else None.
Definition checked_sub (a b : Z) : option Z :=
  if b <=? a then Some (a - b) else None.
Definition checked_mul (a b : Z) : option Z :=
  if a * b <=? U64_MAX then Some (a * b) else None.
Definition saturating_add (a b : Z) : Z := Z.min (a + b) U64_MAX.
Definition saturating_sub (a b : Z) : Z := Z.max (a - b) 0.
Definition div_ceil (a b : Z) : Z := (a + b - 1) `div` b.

Lemma checked_mul_small a b : a * b <= U64_MAX -> checked_mul a b = Some (a * b).
Proof. intros H. unfold checked_mul. by rewrite (proj2 (Z.leb_le _ _)). Qed.

Lemma wrap8_small x : u8_ok x -> wrap8 x = x.
Proof. unfold u8_ok, wrap8. intros. apply Z.mod_small. lia. Qed.

Lemma wrap16_small x : u16_ok x -> wrap16 x = x.
Proof. unfold u16_ok, wrap16. intros. apply Z.mod_small. lia. Qed.

Lemma wrap32_small x : u32_ok x -> wrap32 x = x.
Proof. unfold u32_ok, wrap32. intros. apply Z.mod_small. lia. Qed.

Lemma wrap64_small x : u64_ok x -> wrap64 x = x.
Proof. unfold u64_ok, wrap64. intros. apply Z.mod_small. lia. Qed.

Lemma wrap32_ok x : u32_ok (wrap32 x).
Proof. unfold u32_ok, wrap32. pose proof (Z.mod_pos_bound x 4294967296). lia. Qed.

Lemma wrap64_ok x : u64_ok (wrap64 x).
Proof. unfold u64_ok, wrap64. pose proof (Z.mod_pos_bound x 18446744073709551616). lia. Qed.

(** [unwrap] removes every wrap-around whose argument [lia] shows in range. *)
Ltac uok := unfold u8_ok, u16_ok, u32_ok, u64_ok in *.
Ltac unwrap :=
  repeat match goal with
    | |- context [wrap64 ?x] => rewrite (wrap64_small x) by (uok; lia)
    | |- context [wrap32 ?x] => rewrite (wrap32_small x) by (uok; lia)
    | |- context [wrap16 ?x] => rewrite (wrap16_small x) by (uok; lia)
    | |- context [wrap8 ?x] => rewrite (wrap8_small x) by (uok; lia)
    end.
Ltac unwrap_in H :=
  repeat match type of H with
    | context [wrap64 ?x] => rewrite (wrap64_small x) in H by (uok; lia)
    | context [wrap32 ?x] => rewrite (wrap32_small x) in H by (uok; lia)
    | context [wrap16 ?x] => rewrite (wrap16_small x) in H by (uok; lia)
    | context [wrap8 ?x] => rewrite (wrap8_small x) in H by (uok; lia)
    end.

(** ** Results and panics *)

(** The kinds of [lance_core::Error] the modelled code raises. *)
Inductive Error :=
| InvalidInput
| CorruptFile
| Internal
| NotSupported
| CommitConflict
| IO.

#[global] Instance Error_eq_dec : EqDecision Error.
Proof. solve_decision. Defined.

(** A computation returns a value, returns an error or panics (an index out of
    range, an [unwrap] of [None], a failed [assert!]). *)
Inductive res (A : Type) :=
| Ok (a : A)
| Err (e : Error)
| Panic.
Arguments Ok {A} a.
Arguments Err {A} e.
Arguments Panic {A}.

#[global] Instance res_ret : MRet res := fun A a => Ok a.
#[global] Instance res_bind : MBind res := fun A B f m =>
  match m with Ok a => f a | Err e => Err e | Panic => Panic end.
#[global] Instance res_fmap : FMap res := fun A B f m =>
  match m with Ok a => Ok (f a) | Err e => Err e | Panic => Panic end.

Definition unwrap_opt {A} (o : option A) : res A :=
  match o with Some a => Ok a | None => Panic end.
Definition ok_or {A} (o : option A) (e : Error) : res A :=
  match o with Some a => Ok a | None => Err e end.
(** [Result::unwrap] *)
Definition unwrap_res {A} (r : res A) : res A :=
  match r with Err _ => Panic | r => r end.

Lemma bind_ok {A B} (a : A) (f : A -> res B) : (Ok a ≫= f) = f a.
Proof. reflexivity. Qed.

(** [mon] runs the binds on returned values, and nothing else. *)
Lemma bind_Ok {A B} (m : res A) (f : A -> res B) b : (m ≫= f) = Ok b -> exists a, m = Ok a /\ f a = Ok b.
Proof. destruct m; cbn; try done. eauto. Qed.

(** Splits [H : (x ← m; k x) = Ok b] into its steps. *)
Ltac inv_ok H := repeat (let a := fresh "a" in let E := fresh "E" in apply bind_Ok in H as (a & E & H)).

Ltac mon := cbn [mbind res_bind mret res_ret fmap res_fmap unwrap_opt unwrap_res].

(** Iterators whose closure can panic, run to completion. *)
Fixpoint filter_res {A} (f : A -> res bool) (l : list A) : res (list A) :=
  match l with
  | [] => Ok []
  | x :: l' =>
      b ← f x;
      rest ← filter_res f l';
      Ok (if b : bool then x :: rest else rest)
  end.

Fixpoint filter_map_res {A B} (f : A -> res (option B)) (l : list A) : res (list B) :=
  match l with
  | [] => Ok []
  | x :: l' =>
      o ← f x;
      rest ← filter_map_res f l';
      Ok (match o with Some y => y :: rest | None => rest end)
  end.

Fixpoint map_res {A B} (f : A -> res B) (l : list A) : res (list B) :=
  match l with
  | [] => Ok []
  | x :: l' => y ← f x; rest ← map_res f l'; Ok (y :: rest)
  end.

Fixpoint fold_res {A S} (f : S -> A -> res S) (s : S) (l : list A) : res S :=
  match l with
  | [] => Ok s
  | x :: l' => s' ← f s x; fold_res f s' l'
  end.

Lemma filter_res_ok {A} (f : A -> res bool) (g : A -> bool) l :
  Forall (fun x => f x = Ok (g x)) l -> filter_res f l = Ok (List.filter g l).
Proof.
  induction 1 as [|x l Hx _ IH]; [done|]. simpl. rewrite Hx, IH. simpl. by destruct (g x).
Qed.

Lemma map_res_ok {A B} (f : A -> res B) (g : A -> B) l :
  Forall (fun x => f x = Ok (g x)) l -> map_res f l = Ok (map g l).
Proof. induction 1 as [|x l Hx _ IH]; [done|]. simpl. by rewrite Hx, IH. Qed.

Lemma filter_map_res_ok {A B} (f : A -> res (option B)) (g : A -> option B) l :
  Forall (fun x => f x = Ok (g x)) l -> filter_map_res f l = Ok (omap g l).
Proof.
  induction 1 as [|x l Hx _ IH]; [done|]. simpl. rewrite Hx, IH. simpl. by destruct (g x).
Qed.

Lemma map_res_app {A B} (f : A -> res B) l1 l2 r1 r2 :
  map_res f l1 = Ok r1 -> map_res f l2 = Ok r2 -> map_res f (l1 ++ l2) = Ok (r1 ++ r2).
Proof.
  revert r1. induction l1 as [|x l1 IH]; simpl; intros r1 H1 H2.
  - by inversion H1.
  - destruct (f x) as [y| |]; simpl in *; try done.
    destruct (map_res f l1) as [r| |]; simpl in *; try done. inversion H1; subst.
    by rewrite (IH r).
Qed.

Lemma fold_res_ext {A S} (f g : S -> A -> res S) s l : Forall (fun x => forall s, f s x = g s x) l -> fold_res f s l = fold_res g s l.
Proof. intros H. revert s. induction H as [|x l Hx _ IH]; intros s; simpl; [done|]. rewrite Hx. destruct (g s x); simpl; auto. Qed.

Lemma fold_res_app {A S} (f : S -> A -> res S) s l1 l2 :
  fold_res f s (l1 ++ l2) = s' ← fold_res f s l1; fold_res f s' l2.
Proof.
  revert s. induction l1 as [|x l1 IH]; intros s; simpl; [done|]. destruct (f s x); simpl; auto.
Qed.

(** ** Vectors and slices *)

Definition zlen {A} (l : list A) : Z := Z.of_nat (length l).

(** [slice.get(i)] *)
Definition get_opt {A} (l : list A) (i : Z) : option A :=
  if 0 <=? i then l !! Z.to_nat i else None.

(** [v[i]] and [v[i] = x], which panic out of range. *)
Definition idx {A} (l : list A) (i : Z) : res A := unwrap_opt (get_opt l i).
Definition idx_set {A} (l : list A) (i : Z) (x : A) : res (list A) :=
  if (0 <=? i) && (i <? zlen l) then Ok (<[Z.to_nat i := x]> l) else Panic.

(** [&v[a..b]], which panics unless [a <= b <= v.len()]. *)
Definition idx_range {A} (l : list A) (a b : Z) : res (list A) :=
  if (0 <=? a) && (a <=? b) && (b <=? zlen l)
  then Ok (take (Z.to_nat (b - a)) (drop (Z.to_nat a) l)) else Panic.

Definition zskip {A} (n : Z) (l : list A) : list A := drop (Z.to_nat n) l.
Definition ztake {A} (n : Z) (l : list A) : list A := take (Z.to_nat n) l.

(** [iter().enumerate()] *)
Definition enumerate {A} (l : list A) : list (Z * A) := zip (seqZ 0 (zlen l)) l.

(** [windows(2)] *)
Fixpoint windows2 {A} (l : list A) : list (A * A) :=
  match l with
  | x :: ((y :: _) as l') => (x, y) :: windows2 l'
  | _ => []
  end.

Lemma zlen_nonneg {A} (l : list A) : 0 <= zlen l.
Proof. unfold zlen. lia. Qed.

Lemma zlen_nil {A} : zlen (@nil A) = 0.
Proof. reflexivity. Qed.

Lemma zlen_cons {A} (x : A) l : zlen (x :: l) = 1 + zlen l.
Proof. unfold zlen. simpl. lia. Qed.

Lemma zlen_app {A} (l1 l2 : list A) : zlen (l1 ++ l2) = zlen l1 + zlen l2.
Proof. unfold zlen. rewrite length_app. lia. Qed.

Lemma zlen_map {A B} (f : A -> B) l : zlen (map f l) = zlen l.
Proof. unfold zlen. by rewrite length_map. Qed.

Lemma zlen_fmap {A B} (f : A -> B) (l : list A) : zlen (f <$> l) = zlen l.
Proof. unfold zlen. by rewrite length_fmap. Qed.

Lemma zlen_seqZ a n : 0 <= n -> zlen (seqZ a n) = n.
Proof. unfold zlen. rewrite length_seqZ. lia. Qed.

Lemma zlen_insert {A} (l : list A) i x : zlen (<[i:=x]> l) = zlen l.
Proof. unfold zlen. by rewrite length_insert. Qed.

Lemma get_opt_Some {A} (l : list A) i x : get_opt l i = Some x -> 0 <= i < zlen l.
Proof.
  unfold get_opt, zlen. destruct (Z.leb_spec 0 i); [|done].
  intros Hx%lookup_lt_Some. lia.
Qed.

Lemma get_opt_lt {A} (l : list A) i : 0 <= i < zlen l -> exists x, get_opt l i = Some x.
Proof.
  unfold get_opt, zlen. intros. destruct (Z.leb_spec 0 i); [|lia].
  destruct (lookup_lt_is_Some_2 l (Z.to_nat i)); [lia|]. eauto.
Qed.

Lemma get_opt_None {A} (l : list A) i : get_opt l i = None <-> i < 0 \/ zlen l <= i.
Proof.
  unfold get_opt, zlen. destruct (Z.leb_spec 0 i).
  - rewrite lookup_ge_None. lia.
  - split; [lia|done].
Qed.

Lemma get_opt_nat {A} (l : list A) (i : nat) : get_opt l (Z.of_nat i) = l !! i.
Proof. unfold get_opt. rewrite (proj2 (Z.leb_le 0 _)) by lia. by rewrite Nat2Z.id. Qed.

Lemma get_opt_app {A} (l1 l2 : list A) i :
  get_opt (l1 ++ l2) i = if i <? zlen l1 then get_opt l1 i else get_opt l2 (i - zlen l1).
Proof.
  unfold get_opt, zlen. destruct (Z.ltb_spec i (Z.of_nat (length l1))).
  - destruct (Z.leb_spec 0 i); [|done]. rewrite lookup_app_l; [done|lia].
  - rewrite (proj2 (Z.leb_le 0 i)) by lia. rewrite (proj2 (Z.leb_le 0 _)) by lia.
    rewrite lookup_app_r by lia. f_equal. lia.
Qed.

Lemma get_opt_cons {A} (x : A) l i :
  get_opt (x :: l) i = if i =? 0 then Some x else get_opt l (i - 1).
Proof.
  unfold get_opt. destruct (Z.eqb_spec i 0); subst; [done|].
  destruct (Z.leb_spec 0 i).
  - rewrite (proj2 (Z.leb_le 0 _)) by lia.
    by replace (Z.to_nat i) with (S (Z.to_nat (i - 1))) by lia.
  - by rewrite (proj2 (Z.leb_gt 0 (i - 1))) by lia.
Qed.

Lemma get_opt_map {A B} (f : A -> B) l i : get_opt (map f l) i = f <$> get_opt l i.
Proof. unfold get_opt. destruct (0 <=? i); [apply list_lookup_fmap|done]. Qed.

Lemma get_opt_seqZ a n i : 0 <= i < n -> get_opt (seqZ a n) i = Some (a + i).
Proof.
  intros. unfold get_opt. rewrite (proj2 (Z.leb_le 0 i)) by lia.
  apply lookup_seqZ. lia.
Qed.

Lemma get_opt_insert {A} (l : list A) k x i : 0 <= k < zlen l ->
  get_opt (<[Z.to_nat k := x]> l) i = if i =? k then Some x else get_opt l i.
Proof.
  unfold get_opt, zlen. intros. destruct (Z.leb_spec 0 i).
  - destruct (Z.eqb_spec i k) as [->|].
    + apply list_lookup_insert_eq. lia.
    + apply list_lookup_insert_ne. lia.
  - destruct (Z.eqb_spec i k); [lia|done].
Qed.

Lemma idx_set_ok {A} (l : list A) k x : 0 <= k < zlen l -> idx_set l k x = Ok (<[Z.to_nat k := x]> l).
Proof. intros. unfold idx_set. by rewrite (proj2 (Z.leb_le _ _)), (proj2 (Z.ltb_lt _ _)) by lia. Qed.

Lemma Forall_get_opt {A} (P : A -> Prop) (l : list A) i x : Forall P l -> get_opt l i = Some x -> P x.
Proof. unfold get_opt. destruct (0 <=? i); [|done]. apply Forall_lookup_1. Qed.

Lemma Forall2_get_opt_r {A B} (R : A -> B -> Prop) l1 l2 i y : Forall2 R l1 l2 -> get_opt l2 i = Some y ->
  exists x, get_opt l1 i = Some x /\ R x y.
Proof. intros H. unfold get_opt. destruct (0 <=? i); [|done]. intros Hy. by apply (Forall2_lookup_r _ _ _ _ _ H). Qed.

Lemma Forall2_get_opt_l {A B} (R : A -> B -> Prop) l1 l2 i x : Forall2 R l1 l2 -> get_opt l1 i = Some x ->
  exists y, get_opt l2 i = Some y /\ R x y.
Proof. intros H. unfold get_opt. destruct (0 <=? i); [|done]. intros Hx. by apply (Forall2_lookup_l _ _ _ _ _ H). Qed.

Lemma idx_ok {A} (l : list A) i x : get_opt l i = Some x -> idx l i = Ok x.
Proof. unfold idx. by intros ->. Qed.

Lemma zlen_replicate {A} n (x : A) : 0 <= n -> zlen (replicate (Z.to_nat n) x) = n.
Proof. intros. unfold zlen. rewrite length_replicate. lia. Qed.

Lemma get_opt_replicate {A} n (x : A) i : get_opt (replicate n x) i = if (0 <=? i) && (i <? Z.of_nat n) then Some x else None.
Proof.
  unfold get_opt. destruct (Z.leb_spec 0 i); simpl; [|done].
  destruct (Z.ltb_spec i (Z.of_nat n)); [apply lookup_replicate_2; lia|apply lookup_replicate_None; lia].
Qed.

Lemma enumerate_lookup {A} (l : list A) i x : (i, x) ∈ enumerate l <-> get_opt l i = Some x.
Proof.
  unfold enumerate. rewrite list_elem_of_lookup. split.
  - intros [k Hk]. apply lookup_zip_Some in Hk as [Hk1 Hk2]. apply lookup_seqZ in Hk1 as [-> Hk].
    rewrite Z.add_0_l. by rewrite get_opt_nat.
  - intros Hx. apply get_opt_Some in Hx as Hr. exists (Z.to_nat i). apply lookup_zip_Some. split.
    + apply lookup_seqZ. lia.
    + unfold get_opt in Hx. rewrite (proj2 (Z.leb_le 0 i)) in Hx by lia. done.
Qed.

Lemma get_opt_sub {A} (l : list A) a n i : 0 <= a -> 0 <= i < n ->
  get_opt (take (Z.to_nat n) (drop (Z.to_nat a) l)) i = get_opt l (a + i).
Proof.
  intros. unfold get_opt. rewrite (proj2 (Z.leb_le 0 i)), (proj2 (Z.leb_le 0 (a + i))) by lia.
  rewrite lookup_take_lt by lia. rewrite lookup_drop. f_equal. lia.
Qed.

(** The elements at positions [a..b]. *)
Definition zsub {A} (l : list A) (a b : Z) : list A := ztake (b - a) (zskip a l).

Lemma zskip_app {A} (l1 l2 : list A) n : 0 <= n <= zlen l1 -> zskip n (l1 ++ l2) = zskip n l1 ++ l2.
Proof. intros. unfold zskip, zlen in *. apply drop_app_le. lia. Qed.

Lemma ztake_ge {A} (l : list A) n : zlen l <= n -> ztake n l = l.
Proof. intros. unfold ztake, zlen in *. apply take_ge. lia. Qed.

Lemma zskip_ge {A} (l : list A) n : zlen l <= n -> zskip n l = [].
Proof. intros. unfold zskip, zlen in *. apply drop_ge. lia. Qed.

Lemma zlen_zskip {A} (l : list A) n : 0 <= n <= zlen l -> zlen (zskip n l) = zlen l - n.
Proof. intros. unfold zskip, zlen in *. rewrite length_drop. lia. Qed.

Lemma zskip_zskip {A} (l : list A) a b : 0 <= a -> 0 <= b -> zskip b (zskip a l) = zskip (a + b) l.
Proof. intros. unfold zskip. rewrite drop_drop. f_equal. lia. Qed.

Lemma ztake_split {A} (l1 l2 : list A) n : zlen l1 <= n -> ztake n (l1 ++ l2) = l1 ++ ztake (n - zlen l1) l2.
Proof. intros. unfold ztake, zlen in *. rewrite take_app_ge by lia. do 2 f_equal. lia. Qed.

Lemma zskip_split {A} (l1 l2 : list A) n : zlen l1 <= n -> zskip n (l1 ++ l2) = zskip (n - zlen l1) l2.
Proof. intros. unfold zskip, zlen in *. rewrite drop_app_ge by lia. f_equal. lia. Qed.

Lemma ztake_app_l {A} (l1 l2 : list A) n : n <= zlen l1 -> ztake n (l1 ++ l2) = ztake n l1.
Proof. intros. unfold ztake, zlen in *. apply take_app_le. lia. Qed.

Lemma zsub_step {A} (l : list A) a b c : 0 <= a <= b -> b <= c -> zsub l a c = ztake (b - a) (zskip a l) ++ zsub l b c.
Proof.
  intros. unfold zsub, ztake, zskip. replace (Z.to_nat b) with (Z.to_nat a + Z.to_nat (b - a))%nat by lia.
  rewrite <- drop_drop. replace (Z.to_nat (c - a)) with (Z.to_nat (b - a) + Z.to_nat (c - b))%nat by lia.
  symmetry. apply take_take_drop.
Qed.

Lemma get_opt_split {A} (l : list A) i x : get_opt l i = Some x -> exists pre post, l = pre ++ x :: post /\ zlen pre = i.
Proof.
  intros Hx. apply get_opt_Some in Hx as Hi. unfold get_opt in Hx. rewrite (proj2 (Z.leb_le 0 i)) in Hx by lia.
  exists (take (Z.to_nat i) l), (drop (S (Z.to_nat i)) l). split; [by rewrite take_drop_middle|].
  unfold zlen in *. rewrite length_take. lia.
Qed.

Lemma zsub_nil {A} (l : list A) a b : b <= a -> zsub l a b = [].
Proof. intros. unfold zsub, ztake. by replace (Z.to_nat (b - a)) with 0%nat by lia. Qed.

Lemma get_opt_zsub {A} (l : list A) a b i : 0 <= a -> 0 <= i < b - a -> get_opt (zsub l a b) i = get_opt l (a + i).
Proof. apply get_opt_sub. Qed.

Lemma zlen_zsub {A} (l : list A) a b : 0 <= a <= b -> b <= zlen l -> zlen (zsub l a b) = b - a.
Proof. intros. unfold zsub, ztake, zskip, zlen in *. rewrite length_take, length_drop. lia. Qed.

Lemma zsub_single {A} (l : list A) i x : get_opt l i = Some x -> zsub l i (i + 1) = [x].
Proof.
  intros (pre & post & -> & <-)%get_opt_split. unfold zsub, ztake, zskip, zlen. replace (Z.to_nat (_ + 1 - _)) with 1%nat by lia.
  by rewrite Nat2Z.id, drop_app_length.
Qed.

Lemma zsub_app {A} (l : list A) a b c : 0 <= a -> a <= b -> b <= c -> zsub l a c = zsub l a b ++ zsub l b c.
Proof.
  intros. unfold zsub, ztake, zskip. replace (Z.to_nat (c - a)) with (Z.to_nat (b - a) + Z.to_nat (c - b))%nat by lia.
  rewrite <- take_take_drop, drop_drop. do 3 f_equal. lia.
Qed.

(** ** Ranges *)

(** [std::ops::Range<T>] *)
Record Range := mkRange { start : Z; end_ : Z }.

#[global] Instance Range_eq_dec : EqDecision Range.
Proof. solve_decision. Defined.

Notation "a ..< b" := (mkRange a b) (at level 60, no associativity) : rust_scope.

Definition range_is_empty (r : Range) : bool := negb (start r <? end_ r).
Definition range_contains (r : Range) (v : Z) : bool := (start r <=? v) && (v <? end_ r).
(** The values a [Range] iterates over: none when it is reversed. *)
Definition range_list (r : Range) : list Z := seqZ (start r) (end_ r - start r).

(** [std::ops::RangeInclusive<T>], kept as its two bounds. *)
Definition RangeInclusive : Type := Z * Z.
Definition incl_contains (r : RangeInclusive) (v : Z) : bool := (fst r <=? v) && (v <=? snd r).

Definition range_ok (r : Range) : Prop := 0 <= start r /\ start r <= end_ r /\ end_ r <= U64_MAX.

Lemma range_contains_spec r v : range_contains r v = true <-> start r <= v < end_ r.
Proof. unfold range_contains. rewrite andb_true_iff, Z.leb_le, Z.ltb_lt. done. Qed.

Lemma elem_of_range_list r v : v ∈ range_list r <-> start r <= v < end_ r.
Proof. unfold range_list. rewrite elem_of_seqZ. lia. Qed.

Lemma zlen_range_list r : start r <= end_ r -> zlen (range_list r) = end_ r - start r.
Proof. intros. unfold range_list. rewrite zlen_seqZ; lia. Qed.

Lemma range_list_app a b c : a <= b -> b <= c ->
  range_list (a ..< c) = range_list (a ..< b) ++ range_list (b ..< c).
Proof.
  intros. unfold range_list. simpl.
  replace (c - a) with ((b - a) + (c - b)) by lia.
  rewrite seqZ_app by lia. do 2 f_equal. lia.
Qed.

Lemma range_list_nil a b : b <= a -> range_list (a ..< b) = [].
Proof. intros. unfold range_list. apply seqZ_nil. simpl. lia. Qed.

Lemma range_list_cons a b : a < b -> range_list (a ..< b) = a :: range_list (a + 1 ..< b).
Proof.
  intros. unfold range_list. simpl. rewrite seqZ_cons by lia. f_equal.
  f_equal; lia.
Qed.

Lemma range_list_snoc a b : a <= b -> range_list (a ..< b + 1) = range_list (a ..< b) ++ [b].
Proof.
  intros. rewrite (range_list_app a b (b + 1)) by lia. f_equal.
  rewrite range_list_cons by lia. rewrite range_list_nil by lia. done.
Qed.

(** ** Strict sortedness *)

Definition ssorted (l : list Z) : Prop := StronglySorted Z.lt l.

Lemma ssorted_cons_inv x l : ssorted (x :: l) -> ssorted l /\ Forall (Z.lt x) l.
Proof. apply StronglySorted_inv. Qed.

Lemma ssorted_NoDup l : ssorted l -> NoDup l.
Proof.
  induction 1 as [|x l _ IH Hx]; constructor; [|done].
  intros Hin. rewrite Forall_forall in Hx. specialize (Hx x Hin). lia.
Qed.

Lemma ssorted_app l1 l2 :
  ssorted (l1 ++ l2) <-> ssorted l1 /\ ssorted l2 /\ (forall x y, x ∈ l1 -> y ∈ l2 -> x < y).
Proof.
  unfold ssorted. induction l1 as [|x l1 IH]; simpl.
  - split; [|tauto]. intros H. split; [constructor|]. split; [done|].
    intros ? ? Hx. by apply elem_of_nil in Hx.
  - split.
    + intros [H1 H2]%StronglySorted_inv. apply IH in H1 as (H3 & H4 & H5).
      rewrite Forall_app in H2. destruct H2 as [H6 H7].
      split; [by constructor|]. split; [done|].
      intros a b [->|Ha]%elem_of_cons Hb; [|by auto].
      rewrite Forall_forall in H7. auto.
    + intros ([H1 H2]%StronglySorted_inv & H3 & H4). constructor.
      * apply IH. split; [done|]. split; [done|]. intros. apply H4; [by right|done].
      * rewrite Forall_app. split; [done|]. apply Forall_forall. intros. apply H4; [by left|done].
Qed.

Lemma ssorted_seqZ a n : ssorted (seqZ a n).
Proof.
  destruct (Z.le_gt_cases n 0) as [Hn|Hn]; [rewrite seqZ_nil by done; constructor|].
  revert a. pattern n. apply Z.lt_ind with (n := 0); [solve_proper| | |done].
  - intros a. rewrite seqZ_cons by lia. rewrite seqZ_nil by lia. repeat constructor.
  - intros m Hm IH a. rewrite seqZ_cons by lia. constructor.
    + replace (Z.pred (Z.succ m)) with m by lia. apply IH.
    + apply Forall_forall. intros x Hx%elem_of_seqZ. lia.
Qed.

Lemma ssorted_range_list r : ssorted (range_list r).
Proof. apply ssorted_seqZ. Qed.

Lemma ssorted_filter (f : Z -> bool) l : ssorted l -> ssorted (List.filter f l).
Proof.
  induction 1 as [|x l Hl IH Hx]; simpl; [constructor|].
  destruct (f x); [|done]. constructor; [done|].
  apply Forall_forall. intros y Hy. apply list_elem_of_In, filter_In in Hy as [Hy _].
  rewrite Forall_forall in Hx. apply Hx. by apply list_elem_of_In.
Qed.

Lemma sorted_lookup {A} (R : relation A) l (i j : nat) x y :
  StronglySorted R l -> l !! i = Some x -> l !! j = Some y -> (i < j)%nat -> R x y.
Proof.
  intros Hs. revert i j. induction Hs as [|a l Hl IH Ha]; intros i j Hi Hj Hij; [done|].
  destruct j as [|j]; [lia|]. simpl in Hj. destruct i as [|i]; simpl in Hi.
  - inversion Hi; subst. rewrite Forall_forall in Ha. apply Ha.
    apply list_elem_of_lookup. eauto.
  - apply (IH i j); [done|done|lia].
Qed.

Lemma ssorted_lookup l (i j : nat) x y :
  ssorted l -> l !! i = Some x -> l !! j = Some y -> (i < j)%nat -> x < y.
Proof. apply (sorted_lookup Z.lt). Qed.

Lemma filter_all {A} (f : A -> bool) l : Forall (fun x => f x = true) l -> List.filter f l = l.
Proof. induction 1 as [|x l Hx _ IH]; simpl; [done|]. by rewrite Hx, IH. Qed.

Lemma filter_none {A} (f : A -> bool) l : Forall (fun x => f x = false) l -> List.filter f l = [].
Proof. induction 1 as [|x l Hx _ IH]; simpl; [done|]. by rewrite Hx. Qed.

Lemma filter_ext_Forall {A} (f g : A -> bool) l :
  Forall (fun x => f x = g x) l -> List.filter f l = List.filter g l.
Proof. induction 1 as [|x l Hx _ IH]; simpl; [done|]. by rewrite Hx, IH. Qed.

Lemma filter_map_length {A B} (f : B -> bool) (g : A -> B) l :
  zlen (List.filter f (map g l)) = zlen (List.filter (fun x => f (g x)) l).
Proof.
  induction l as [|x l IH]; simpl; [done|]. destruct (f (g x)); rewrite ?zlen_cons, IH; done.
Qed.

Lemma elem_of_filterb {A} (f : A -> bool) l x : x ∈ List.filter f l <-> x ∈ l /\ f x = true.
Proof. rewrite !list_elem_of_In. apply filter_In. Qed.

Create HintDb lance.
Create Rewrite HintDb lance.
#[export] Hint Resolve zlen_nonneg ssorted_range_list ssorted_seqZ ssorted_filter
  ssorted_NoDup : lance.
#[export] Hint Rewrite @zlen_nil @zlen_cons @zlen_app @zlen_map @zlen_fmap @zlen_insert : lance.
