(* ===== verification/Lists.v ===== *)
(** * Standard-library algorithms used by the row-id code

    The parts of Rust's [std] the sources call on slices and vectors: binary
    search, [partition_point], sorting, minima and maxima, and the [peekable]
    filter that drops an ordered selection of values.  Each comes with the
    specification the components rely on. *)

From Stdlib Require Import ZArith Lia.
From stdpp Require Import base option list numbers sorting sets.
From S2P Require Import Prelude.

(** ** [slice::binary_search_by] *)

Section BinarySearch.
Context {A : Type}.

(** The halving loop of [core::slice::binary_search_by]: [base] and [size]
    delimit the candidates.  [fuel] bounds the iterations; the length of the
    slice is enough, since [size] decreases. *)
Fixpoint bsearch_loop (fuel : nat) (cmp : A -> comparison) (l : list A) (base size : nat) : nat :=
  match fuel with
  | O => base
  | S fuel' =>
      if (size <=? 1)%nat then base else
      let half := (size / 2)%nat in
      let mid := (base + half)%nat in
      let base' := match cmp <$> l !! mid with Some Gt => base | _ => mid end in
      bsearch_loop fuel' cmp l base' (size - half)
  end.

(** [Ok(i)] is [inl i], [Err(i)] is [inr i]. *)
Definition binary_search_by (cmp : A -> comparison) (l : list A) : Z + Z :=
  match l with
  | [] => inr 0
  | _ =>
      let base := bsearch_loop (length l) cmp l 0 (length l) in
      match cmp <$> l !! base with
      | Some Eq => inl (Z.of_nat base)
      | Some Lt => inr (Z.of_nat base + 1)
      | _ => inr (Z.of_nat base)
      end
  end.

(** [slice::partition_point] *)
Definition partition_point (pred : A -> bool) (l : list A) : Z :=
  match binary_search_by (fun x => if pred x then Lt else Gt) l with inl i | inr i => i end.

(** The order the search needs: everything before an element below the target
    is below it, everything after one above it is above it. *)
Definition cmp_sorted (cmp : A -> comparison) (l : list A) : Prop :=
  forall (i j : nat) x y, (i < j)%nat -> l !! i = Some x -> l !! j = Some y ->
    (cmp y = Lt -> cmp x = Lt) /\ (cmp x = Gt -> cmp y = Gt).

Lemma bsearch_loop_spec fuel cmp l base size :
  cmp_sorted cmp l -> (size <= S fuel)%nat -> (1 <= size)%nat -> (base + size <= length l)%nat ->
  (forall j x, (base + size <= j)%nat -> l !! j = Some x -> cmp x = Gt) ->
  (base = 0%nat \/ exists x, l !! base = Some x /\ cmp x <> Gt) ->
  let b := bsearch_loop fuel cmp l base size in
  (b < length l)%nat /\ (forall j x, (b < j)%nat -> l !! j = Some x -> cmp x = Gt) /\
  (b = 0%nat \/ exists x, l !! b = Some x /\ cmp x <> Gt).
Proof.
  intros Hs. revert base size.
  induction fuel as [|fuel IH]; intros base size Hf H1 Hle Hhi Hlo; cbn [bsearch_loop].
  - split; [lia|]. split; [|done]. intros j x Hj. apply Hhi. lia.
  - destruct (Nat.leb_spec size 1) as [Hsz|Hsz].
    + split; [lia|]. split; [|done]. intros j x Hj. apply Hhi. lia.
    + assert (size / 2 < size)%nat by (apply Nat.div_lt; lia).
      assert (1 <= size / 2)%nat by (apply (Nat.div_le_lower_bound size 2 1); lia).
      assert (2 * (size / 2) <= size)%nat by (apply Nat.Div0.mul_div_le).
      generalize dependent (size / 2)%nat. intros half Hhalf Hhalf1 Hhalf2.
      destruct (lookup_lt_is_Some_2 l (base + half)) as [m Hm]; [lia|]. rewrite Hm. simpl.
      destruct (cmp m) eqn:Hc.
      1, 2: apply IH; [lia|lia|lia| |];
        [intros j x Hj; apply Hhi; lia|right; exists m; split; [done|congruence]].
      apply IH; [lia|lia|lia| |done].
      intros j x Hj Hx. destruct (decide (j = (base + half)%nat)) as [->|Hne]; [congruence|].
      eapply (Hs (base + half)%nat j m x); [|done|done|done]. lia.
Qed.

Lemma binary_search_by_spec cmp l :
  cmp_sorted cmp l ->
  match binary_search_by cmp l with
  | inl i => exists x, get_opt l i = Some x /\ cmp x = Eq
  | inr i => 0 <= i <= zlen l /\
      (forall j x, j < i -> get_opt l j = Some x -> cmp x = Lt) /\
      (forall j x, i <= j -> get_opt l j = Some x -> cmp x = Gt)
  end.
Proof.
  intros Hs. unfold binary_search_by. destruct l as [|a l0].
  { split; [unfold zlen; simpl; lia|]. split; intros j x _ Hj%get_opt_Some; unfold zlen in Hj; simpl in Hj; lia. }
  set (l := a :: l0) in *. set (b := bsearch_loop _ _ _ _ _).
  assert (1 <= length l)%nat by (unfold l; simpl; lia).
  destruct (bsearch_loop_spec (length l) cmp l 0 (length l)) as (Hb & Hhi & Hlo);
    [done|lia|done|lia| |by left|].
  { intros j x Hj Hx%lookup_lt_Some. lia. }
  fold b in Hb, Hhi, Hlo.
  destruct (lookup_lt_is_Some_2 l b Hb) as [x Hx]. rewrite Hx. simpl.
  assert (Hget : forall j y, get_opt l j = Some y -> 0 <= j /\ l !! Z.to_nat j = Some y).
  { intros j y. unfold get_opt. destruct (Z.leb_spec 0 j); [done|done]. }
  destruct (cmp x) eqn:Hc.
  - exists x. by rewrite get_opt_nat.
  - split; [unfold zlen; lia|]. split.
    + intros j y Hj [? Hy]%Hget. destruct (decide (Z.to_nat j = b)) as [E|]; [congruence|].
      eapply (Hs (Z.to_nat j) b y x); [lia|done|done|congruence].
    + intros j y Hj [? Hy]%Hget. eapply Hhi; [|done]. lia.
  - destruct Hlo as [Hb0|(x' & Hx' & Hne)]; [|congruence].
    split; [unfold zlen; lia|]. split.
    + intros j y Hj [? Hy]%Hget. lia.
    + intros j y Hj [? Hy]%Hget. destruct (decide (Z.to_nat j = b)) as [E|]; [congruence|].
      eapply Hhi; [|done]. lia.
Qed.

Lemma partition_point_spec pred l :
  (forall (i j : nat) x y, (i < j)%nat -> l !! i = Some x -> l !! j = Some y ->
     pred y = true -> pred x = true) ->
  let p := partition_point pred l in
  0 <= p <= zlen l /\
  (forall j x, j < p -> get_opt l j = Some x -> pred x = true) /\
  (forall j x, p <= j -> get_opt l j = Some x -> pred x = false).
Proof.
  intros Hmono. unfold partition_point.
  set (cmp := fun x => if pred x then Lt else Gt).
  assert (Hs : cmp_sorted cmp l).
  { intros i j x y Hij Hx Hy. specialize (Hmono i j x y Hij Hx Hy). unfold cmp.
    destruct (pred x), (pred y); split; try done; intros; by discriminate Hmono. }
  pose proof (binary_search_by_spec cmp l Hs) as H.
  destruct (binary_search_by cmp l) as [i|i].
  - destruct H as (x & _ & Hx). unfold cmp in Hx. by destruct (pred x).
  - destruct H as (Hi & Hlt & Hge). split; [done|]. split; intros j x Hj Hx.
    + specialize (Hlt j x Hj Hx). unfold cmp in Hlt. by destruct (pred x).
    + specialize (Hge j x Hj Hx). unfold cmp in Hge. by destruct (pred x).
Qed.

End BinarySearch.

(** [slice::binary_search] on integers. *)
Definition binary_search (l : list Z) (v : Z) : Z + Z :=
  binary_search_by (fun x => x ?= v) l.

Definition nondecreasing_list (l : list Z) : Prop :=
  forall (i j : nat) x y, (i < j)%nat -> l !! i = Some x -> l !! j = Some y -> x <= y.

Lemma cmp_sorted_nondecreasing l v : nondecreasing_list l -> cmp_sorted (fun x => x ?= v) l.
Proof.
  intros Hs i j x y Hij Hx Hy. pose proof (Hs i j x y Hij Hx Hy).
  split; [rewrite !Z.compare_lt_iff|rewrite !Z.compare_gt_iff]; lia.
Qed.

Lemma binary_search_le_spec l v :
  nondecreasing_list l ->
  match binary_search l v with
  | inl i => get_opt l i = Some v
  | inr i => 0 <= i <= zlen l /\
      (forall j x, j < i -> get_opt l j = Some x -> x < v) /\
      (forall j x, i <= j -> get_opt l j = Some x -> v < x)
  end.
Proof.
  intros Hs. pose proof (binary_search_by_spec _ _ (cmp_sorted_nondecreasing l v Hs)) as H.
  unfold binary_search. destruct (binary_search_by _ l) as [i|i].
  - destruct H as (x & Hx & ->%Z.compare_eq). done.
  - destruct H as (Hi & Hlt & Hge). split; [done|].
    split; intros j x Hj Hx;
      [apply Z.compare_lt_iff; exact (Hlt j x Hj Hx)|apply Z.compare_gt_iff; exact (Hge j x Hj Hx)].
Qed.

Lemma binary_search_spec l v :
  ssorted l ->
  match binary_search l v with
  | inl i => get_opt l i = Some v
  | inr i => 0 <= i <= zlen l /\
      (forall j x, j < i -> get_opt l j = Some x -> x < v) /\
      (forall j x, i <= j -> get_opt l j = Some x -> v < x)
  end.
Proof.
  intros Hs. apply binary_search_le_spec. intros i j x y Hij Hx Hy. pose proof (ssorted_lookup l i j x y Hs Hx Hy Hij). lia.
Qed.

Lemma binary_search_found l v i : ssorted l ->
  binary_search l v = inl i <-> get_opt l i = Some v.
Proof.
  intros Hs. pose proof (binary_search_spec l v Hs) as H.
  assert (Hinj : forall j k, get_opt l j = Some v -> get_opt l k = Some v -> j = k).
  { intros j k Hj Hk. pose proof (get_opt_Some _ _ _ Hj). pose proof (get_opt_Some _ _ _ Hk).
    unfold get_opt in Hj, Hk. destruct (0 <=? j), (0 <=? k); try done.
    assert (Z.to_nat j = Z.to_nat k) by (by eapply NoDup_lookup; [apply ssorted_NoDup|..]). lia. }
  destruct (binary_search l v) as [k|k]; split; intros Hi.
  - by inversion Hi; subst.
  - f_equal. by apply Hinj.
  - done.
  - destruct H as (_ & Hlt & Hge). destruct (Z.lt_ge_cases i k) as [Hik|Hik].
    + specialize (Hlt i v Hik Hi). lia.
    + specialize (Hge i v Hik Hi). lia.
Qed.

Lemma binary_search_is_ok l v : ssorted l ->
  (exists i, binary_search l v = inl i) <-> v ∈ l.
Proof.
  intros Hs. rewrite list_elem_of_lookup. split.
  - intros [i Hi%binary_search_found]; [|done]. pose proof (get_opt_Some _ _ _ Hi).
    unfold get_opt in Hi. destruct (0 <=? i); [eauto|done].
  - intros [i Hi]. exists (Z.of_nat i). apply binary_search_found; [done|]. by rewrite get_opt_nat.
Qed.

(** [Err(i)] counts the elements below the value. *)
Lemma binary_search_rank l v i : ssorted l ->
  binary_search l v = inr i -> i = zlen (List.filter (fun x => x <? v) l).
Proof.
  intros Hs Hb. pose proof (binary_search_spec l v Hs) as H. rewrite Hb in H.
  destruct H as (Hi & Hlt & Hge).
  rewrite <- (take_drop (Z.to_nat i) l). rewrite List.filter_app.
  rewrite filter_all, filter_none.
  - rewrite app_nil_r. unfold zlen in *. rewrite length_take. lia.
  - apply Forall_lookup. intros j x Hx. rewrite lookup_drop in Hx.
    apply Z.ltb_ge. specialize (Hge (i + Z.of_nat j) x).
    assert (v < x); [apply Hge; [lia|]|lia].
    unfold get_opt. rewrite (proj2 (Z.leb_le _ _)) by lia.
    by replace (Z.to_nat (i + Z.of_nat j)) with (Z.to_nat i + j)%nat by lia.
  - apply Forall_lookup. intros j x Hx. apply lookup_take_Some in Hx as [Hx Hj].
    apply Z.ltb_lt. apply (Hlt (Z.of_nat j)); [lia|by rewrite get_opt_nat].
Qed.

(** ** Minimum and maximum of an iterator *)

Definition iter_min (l : list Z) : option Z :=
  match l with [] => None | x :: l' => Some (foldl Z.min x l') end.
Definition iter_max (l : list Z) : option Z :=
  match l with [] => None | x :: l' => Some (foldl Z.max x l') end.

Lemma foldl_min_spec x l :
  foldl Z.min x l <= x /\ Forall (Z.le (foldl Z.min x l)) l /\ foldl Z.min x l ∈ x :: l.
Proof.
  revert x. induction l as [|y l IH]; intros x; simpl; [split; [lia|]; split; [constructor|by left]|].
  destruct (IH (Z.min x y)) as (H1 & H2 & H3). split; [lia|]. split; [constructor; [lia|done]|].
  rewrite elem_of_cons in H3. rewrite !elem_of_cons.
  destruct (Z.min_spec x y) as [[_ E]|[_ E]]; rewrite E in *; tauto.
Qed.

Lemma foldl_max_spec x l :
  x <= foldl Z.max x l /\ Forall (fun y => y <= foldl Z.max x l) l /\ foldl Z.max x l ∈ x :: l.
Proof.
  revert x. induction l as [|y l IH]; intros x; simpl; [split; [lia|]; split; [constructor|by left]|].
  destruct (IH (Z.max x y)) as (H1 & H2 & H3). split; [lia|]. split; [constructor; [lia|done]|].
  rewrite elem_of_cons in H3. rewrite !elem_of_cons.
  destruct (Z.max_spec x y) as [[_ E]|[_ E]]; rewrite E in *; tauto.
Qed.

Lemma iter_min_spec l m : iter_min l = Some m -> m ∈ l /\ Forall (Z.le m) l.
Proof.
  destruct l as [|x l]; simpl; [done|]. intros [= <-].
  destruct (foldl_min_spec x l) as (H1 & H2 & H3). split; [done|]. by constructor.
Qed.

Lemma iter_max_spec l m : iter_max l = Some m -> m ∈ l /\ Forall (fun x => x <= m) l.
Proof.
  destruct l as [|x l]; simpl; [done|]. intros [= <-].
  destruct (foldl_max_spec x l) as (H1 & H2 & H3). split; [done|]. by constructor.
Qed.

(** ** Sorting *)

Section SortByKey.
Context {A : Type} (key : A -> Z).

Fixpoint insert_by_key (x : A) (l : list A) : list A :=
  match l with
  | [] => [x]
  | y :: l' => if key x <=? key y then x :: y :: l' else y :: insert_by_key x l'
  end.

(** [slice::sort_by_key]: stable.  Where the source calls an unstable sort the
    order of equal keys is unspecified and this is one of the results. *)
Definition sort_by_key (l : list A) : list A := foldr insert_by_key [] l.

Lemma insert_by_key_perm x l : insert_by_key x l ≡ₚ x :: l.
Proof.
  induction l as [|y l IH]; simpl; [done|].
  destruct (key x <=? key y); [done|]. rewrite IH. apply Permutation_swap.
Qed.

Lemma sort_by_key_perm l : sort_by_key l ≡ₚ l.
Proof. induction l as [|x l IH]; simpl; [done|]. by rewrite insert_by_key_perm, IH. Qed.

Lemma insert_by_key_sorted x l :
  StronglySorted (fun a b => key a <= key b) l ->
  StronglySorted (fun a b => key a <= key b) (insert_by_key x l).
Proof.
  induction 1 as [|y l Hl IH Hy]; simpl; [repeat constructor|].
  destruct (Z.leb_spec (key x) (key y)).
  - constructor; [by constructor|]. constructor; [done|].
    eapply Forall_impl; [done|]. simpl. lia.
  - constructor; [done|]. rewrite insert_by_key_perm. constructor; [lia|done].
Qed.

Lemma sort_by_key_sorted l : StronglySorted (fun a b => key a <= key b) (sort_by_key l).
Proof. induction l as [|x l IH]; simpl; [constructor|]. by apply insert_by_key_sorted. Qed.

Lemma sort_by_key_id l : StronglySorted (fun a b => key a <= key b) l -> sort_by_key l = l.
Proof.
  induction 1 as [|x l Hl IH Hx]; simpl; [done|]. rewrite IH.
  destruct Hx as [|y l Hxy _]; simpl; [done|]. by rewrite (proj2 (Z.leb_le _ _)).
Qed.

(** Stability: elements of equal keys keep the order they had. *)
Lemma sort_by_key_stable (R : A -> A -> Prop) l : StronglySorted R l -> StronglySorted (fun a b => key a < key b \/ (key a = key b /\ R a b)) (sort_by_key l).
Proof.
  induction 1 as [|x l Hl IH Hx]; [constructor|]. change (sort_by_key (x :: l)) with (insert_by_key x (sort_by_key l)).
  assert (Hx' : Forall (R x) (sort_by_key l)) by (by rewrite sort_by_key_perm). revert IH Hx'. generalize (sort_by_key l) as m. clear Hl Hx.
  induction m as [|y m IHm]; intros Hs Hx; [repeat constructor|]. apply StronglySorted_inv in Hs as [Hs Hy]. apply Forall_cons in Hx as [Hxy Hx]. cbn [insert_by_key].
  destruct (Z.leb_spec (key x) (key y)) as [Hle|Hlt].
  - constructor; [by constructor|]. constructor; [destruct (decide (key x = key y)); [right|left; lia]; done|].
    apply Forall_forall. intros z Hz. rewrite Forall_forall in Hx, Hy. specialize (Hy z Hz). specialize (Hx z Hz). cbn in Hy.
    destruct (decide (key x = key z)); [by right|left; lia].
  - constructor; [by apply IHm|]. rewrite insert_by_key_perm. constructor; [left; lia|done].
Qed.

End SortByKey.

(** [sort_unstable] on integers. *)
Definition sort_unstable (l : list Z) : list Z := sort_by_key (fun x => x) l.

Lemma sort_unstable_ssorted l : NoDup l -> ssorted (sort_unstable l).
Proof.
  intros Hnd. pose proof (sort_by_key_sorted (fun x => x) l) as Hs.
  assert (Hnd' : NoDup (sort_by_key (fun x => x) l)) by (by rewrite sort_by_key_perm).
  unfold sort_unstable, ssorted. induction Hs as [|x m Hm IH Hx]; [constructor|].
  apply NoDup_cons in Hnd' as [Hn Hnd']. constructor; [by apply IH|].
  apply Forall_forall. intros y Hy. rewrite Forall_forall in Hx. specialize (Hx y Hy).
  destruct (decide (x = y)); [by subst|lia].
Qed.

Lemma ssorted_le l : ssorted l -> StronglySorted Z.le l.
Proof.
  induction 1 as [|x l Hl IH Hx]; constructor; [done|]. eapply Forall_impl; [done|]. simpl. lia.
Qed.

Lemma sort_unstable_id l : ssorted l -> sort_unstable l = l.
Proof. intros Hs. apply sort_by_key_id. by apply ssorted_le. Qed.

(** Two strictly sorted lists with the same elements are equal. *)
Lemma ssorted_ext l1 l2 : ssorted l1 -> ssorted l2 -> (forall x, x ∈ l1 <-> x ∈ l2) -> l1 = l2.
Proof.
  intros H1 H2 Hext. apply (StronglySorted_unique_strong Z.le); [|by apply ssorted_le..|].
  - intros; lia.
  - apply NoDup_Permutation; auto with lance.
Qed.

(** ** Dropping an ordered selection *)

(** [iter.filter(|v| if peek == v { next(); false } else { true })] over a
    [peekable] selection: each selected value removes its next occurrence. *)
Fixpoint drop_ordered (sel l : list Z) : list Z :=
  match l with
  | [] => []
  | v :: l' =>
      match sel with
      | s :: sel' => if s =? v then drop_ordered sel' l' else v :: drop_ordered sel l'
      | [] => v :: drop_ordered [] l'
      end
  end.

Lemma drop_ordered_nil l : drop_ordered [] l = l.
Proof. induction l as [|v l IH]; simpl; [done|]. by rewrite IH. Qed.

Definition not_in (sel : list Z) (v : Z) : bool := negb (bool_decide (v ∈ sel)).

Lemma not_in_true sel v : not_in sel v = true <-> v ∉ sel.
Proof. unfold not_in. rewrite negb_true_iff, bool_decide_eq_false. done. Qed.

Lemma not_in_false sel v : not_in sel v = false <-> v ∈ sel.
Proof. unfold not_in. rewrite negb_false_iff, bool_decide_eq_true. done. Qed.

(** For a subsequence of distinct values it is set difference. *)
Lemma drop_ordered_filter sel l :
  sel `sublist_of` l -> NoDup l -> drop_ordered sel l = List.filter (not_in sel) l.
Proof.
  intros Hsub. induction Hsub as [|x sel l Hsub IH|x sel l Hsub IH]; intros Hnd; simpl; [done| |].
  - apply NoDup_cons in Hnd as [Hx Hnd].
    rewrite (proj2 (not_in_false _ _)) by (by left). rewrite Z.eqb_refl, IH by done.
    apply filter_ext_Forall, Forall_forall. intros y Hy. unfold not_in. f_equal.
    apply bool_decide_ext. rewrite elem_of_cons. naive_solver.
  - apply NoDup_cons in Hnd as [Hx Hnd].
    assert (x ∉ sel) by (intros Hin; apply Hx; by eapply elem_of_sublist).
    rewrite (proj2 (not_in_true _ _)) by done. rewrite <- IH by done.
    destruct sel as [|s sel]; [done|]. destruct (Z.eqb_spec s x); [|done]. subst. set_solver.
Qed.

Lemma sublist_ssorted l1 l2 :
  ssorted l1 -> ssorted l2 -> (forall x, x ∈ l1 -> x ∈ l2) -> l1 `sublist_of` l2.
Proof.
  intros H1 H2. revert l1 H1. induction H2 as [|y l2 Hl2 IH Hy]; intros l1 H1 Hsub.
  - destruct l1 as [|x l1]; [constructor|]. exfalso. specialize (Hsub x). set_solver.
  - destruct l1 as [|x l1]; [apply sublist_nil_l|].
    apply ssorted_cons_inv in H1 as [H1 Hx]. rewrite Forall_forall in Hx, Hy.
    destruct (decide (x = y)) as [->|Hne].
    + apply sublist_skip, IH; [done|]. intros z Hz. specialize (Hx z Hz).
      assert (z ∈ y :: l2) as [->|]%elem_of_cons by (apply Hsub; by right); [lia|done].
    + apply sublist_cons, IH; [by constructor; [|apply Forall_forall]|].
      assert (x ∈ l2) by (destruct (proj1 (elem_of_cons l2 x y) (Hsub x ltac:(by left))); [congruence|done]).
      intros z [->|Hz]%elem_of_cons; [done|].
      specialize (Hx z Hz). specialize (Hy x H).
      assert (z ∈ y :: l2) as [->|]%elem_of_cons by (apply Hsub; by right); [lia|done].
Qed.

#[export] Hint Resolve sort_unstable_ssorted ssorted_le : lance.

(** ** [Iterator::position] *)

Fixpoint iter_position {A} (f : A -> bool) (l : list A) : option Z :=
  match l with
  | [] => None
  | x :: l' => if f x then Some 0 else Z.succ <$> iter_position f l'
  end.

Lemma iter_position_Some {A} (f : A -> bool) l i :
  iter_position f l = Some i <->
  (exists x, get_opt l i = Some x /\ f x = true) /\
  (forall j x, j < i -> get_opt l j = Some x -> f x = false).
Proof.
  revert i. induction l as [|x l IH]; intros i; simpl.
  - split; [done|]. intros [(x & Hx & _) _]. by apply get_opt_Some in Hx; unfold zlen in Hx; simpl in Hx; lia.
  - destruct (f x) eqn:Ex.
    + split.
      * intros [= <-]. split; [by exists x|]. intros j y Hj Hy%get_opt_Some. lia.
      * intros [(y & Hy & Hfy) Hlt]. apply get_opt_Some in Hy as Hr. f_equal.
        destruct (decide (0 < i)); [|lia]. specialize (Hlt 0 x ltac:(lia) eq_refl). congruence.
    + rewrite fmap_Some. split.
      * intros (k & [(y & Hy & Hfy) Hlt]%IH & ->). apply get_opt_Some in Hy as Hr. split.
        -- exists y. rewrite get_opt_cons. destruct (Z.eqb_spec (Z.succ k) 0); [lia|].
           by replace (Z.succ k - 1) with k by lia.
        -- intros j z Hj Hz. rewrite get_opt_cons in Hz. destruct (Z.eqb_spec j 0); [congruence|].
           apply (Hlt (j - 1)); [lia|done].
      * intros [(y & Hy & Hfy) Hlt]. rewrite get_opt_cons in Hy. destruct (Z.eqb_spec i 0); [congruence|].
        exists (i - 1). split; [|lia]. apply IH. split; [by exists y|].
        intros j z Hj Hz. apply (Hlt (j + 1)); [lia|]. apply get_opt_Some in Hz as Hr. rewrite get_opt_cons.
        destruct (Z.eqb_spec (j + 1) 0); [lia|]. by replace (j + 1 - 1) with j by lia.
Qed.

Lemma iter_position_None {A} (f : A -> bool) l :
  iter_position f l = None <-> Forall (fun x => f x = false) l.
Proof.
  induction l as [|x l IH]; simpl; [split; done|]. rewrite Forall_cons.
  destruct (f x); [split; [done|intros [? _]; done]|]. rewrite fmap_None, IH. tauto.
Qed.

(** The index of a value. *)
Lemma iter_position_app {A} (f : A -> bool) l1 l2 :
  iter_position f (l1 ++ l2) =
    match iter_position f l1 with Some i => Some i | None => option_map (Z.add (zlen l1)) (iter_position f l2) end.
Proof.
  induction l1 as [|x l1 IH]; [cbn; by destruct (iter_position f l2)|]. cbn [app iter_position].
  destruct (f x); [done|]. rewrite IH. destruct (iter_position f l1); [done|].
  destruct (iter_position f l2); [|done]. rewrite zlen_cons. cbn. f_equal. lia.
Qed.

Definition index_of (v : Z) (l : list Z) : option Z := iter_position (Z.eqb v) l.

Lemma get_opt_inj (l : list Z) i j v : NoDup l -> get_opt l i = Some v -> get_opt l j = Some v -> i = j.
Proof.
  intros Hnd Hi Hj. apply get_opt_Some in Hi as Hi'. apply get_opt_Some in Hj as Hj'.
  unfold get_opt in *. rewrite (proj2 (Z.leb_le 0 i)) in Hi by lia. rewrite (proj2 (Z.leb_le 0 j)) in Hj by lia.
  pose proof (NoDup_lookup _ _ _ _ Hnd Hi Hj). lia.
Qed.

Lemma index_of_Some v l i : NoDup l -> index_of v l = Some i <-> get_opt l i = Some v.
Proof.
  intros Hnd. unfold index_of. rewrite iter_position_Some. split.
  - intros [(x & Hx & ->%Z.eqb_eq) _]. done.
  - intros Hi. split; [exists v; split; [done|apply Z.eqb_refl]|].
    intros j x Hj Hx. apply Z.eqb_neq. intros <-. pose proof (get_opt_inj _ _ _ _ Hnd Hi Hx). lia.
Qed.

Lemma index_of_None v l : index_of v l = None <-> v ∉ l.
Proof.
  unfold index_of. rewrite iter_position_None, Forall_forall. split.
  - intros H Hin. specialize (H v Hin). rewrite Z.eqb_refl in H. done.
  - intros H x Hx. apply Z.eqb_neq. congruence.
Qed.

Lemma elem_of_get_opt {A} (l : list A) x : x ∈ l <-> exists i, get_opt l i = Some x.
Proof.
  rewrite list_elem_of_lookup. split.
  - intros [i Hi]. exists (Z.of_nat i). by rewrite get_opt_nat.
  - intros [i Hi]. unfold get_opt in Hi. destruct (0 <=? i); [eauto|done].
Qed.

Lemma filter_split {A} (f : A -> bool) l :
  zlen (List.filter f l) + zlen (List.filter (fun x => negb (f x)) l) = zlen l.
Proof. induction l as [|x l IH]; simpl; [done|]. destruct (f x); simpl; rewrite !zlen_cons; lia. Qed.

Lemma filter_filter {A} (f g : A -> bool) l :
  List.filter f (List.filter g l) = List.filter (fun x => g x && f x) l.
Proof.
  induction l as [|x l IH]; simpl; [done|]. destruct (g x); simpl; [|done]. by rewrite IH.
Qed.

(** In a strictly sorted list a member sits at its rank. *)
Lemma get_opt_rank l v : ssorted l -> v ∈ l -> get_opt l (zlen (List.filter (fun x => x <? v) l)) = Some v.
Proof.
  intros Hs (l1 & l2 & ->)%list_elem_of_split. apply ssorted_app in Hs as (H1 & H2 & H3).
  apply ssorted_cons_inv in H2 as [H2 H4]. rewrite List.filter_app. simpl. rewrite Z.ltb_irrefl.
  rewrite (filter_all _ l1), (filter_none _ l2), app_nil_r.
  - by rewrite get_opt_app, Z.ltb_irrefl, Z.sub_diag.
  - eapply Forall_impl; [exact H4|]. simpl. intros. apply Z.ltb_ge. lia.
  - apply Forall_forall. intros x Hx. apply Z.ltb_lt. apply H3; [done|by left].
Qed.

Lemma index_of_rank l v : ssorted l -> v ∈ l -> index_of v l = Some (zlen (List.filter (fun x => x <? v) l)).
Proof. intros Hs Hv. apply index_of_Some; [auto with lance|]. by apply get_opt_rank. Qed.

Lemma filter_lt_range s e v : s <= v <= e -> List.filter (fun x => x <? v) (range_list (s ..< e)) = range_list (s ..< v).
Proof.
  intros. rewrite (range_list_app s v e), List.filter_app by lia. rewrite filter_all, filter_none, app_nil_r; [done|..];
    apply Forall_forall; intros x Hx%elem_of_range_list; simpl in Hx; [apply Z.ltb_ge|apply Z.ltb_lt]; lia.
Qed.

(** Values of a range outside a strictly sorted set of holes, below [v]. *)
Lemma holes_rank hs s e v : ssorted hs -> Forall (fun h => s <= h < e) hs -> s <= v <= e ->
  zlen (List.filter (fun x => x <? v) (List.filter (not_in hs) (range_list (s ..< e)))) =
  (v - s) - zlen (List.filter (fun x => x <? v) hs).
Proof.
  intros Hs Hr Hv. rewrite filter_filter. rewrite (filter_ext _ (fun x => (x <? v) && not_in hs x)) by (intros; apply andb_comm).
  rewrite <- (filter_filter (not_in hs) (fun x => x <? v)), filter_lt_range by done.
  pose proof (filter_split (not_in hs) (range_list (s ..< v))) as Hsp. rewrite zlen_range_list in Hsp by (simpl; lia).
  simpl in Hsp. replace (List.filter (fun x => x <? v) hs) with
    (List.filter (fun x => negb (not_in hs x)) (range_list (s ..< v))); [lia|].
  apply ssorted_ext; [auto with lance..|]. intros x. rewrite !elem_of_filterb, elem_of_range_list, Z.ltb_lt, negb_true_iff, not_in_false.
  simpl. split; [intros [? ?]; split; [done|lia]|]. intros [Hx ?]. rewrite Forall_forall in Hr. specialize (Hr x Hx).
  split; [lia|done].
Qed.

(** Distinct integers in increasing order are at least their distance apart. *)
Lemma ssorted_gap l (i j : nat) x y : ssorted l -> l !! i = Some x -> l !! j = Some y -> (i <= j)%nat ->
  Z.of_nat j - Z.of_nat i <= y - x.
Proof.
  intros Hs Hx Hy Hij. revert y Hy. induction Hij as [|j Hij IH]; intros y Hy; [simplify_eq; lia|].
  destruct (lookup_lt_is_Some_2 l j) as [z Hz]; [apply lookup_lt_Some in Hy; lia|]. specialize (IH z Hz).
  pose proof (ssorted_lookup l j (S j) z y Hs Hz Hy). lia.
Qed.

Lemma ssorted_get_opt_gap l i j x y : ssorted l -> get_opt l i = Some x -> get_opt l j = Some y -> i <= j -> j - i <= y - x.
Proof.
  intros Hs Hx Hy Hij. apply get_opt_Some in Hx as ?. apply get_opt_Some in Hy as ?. unfold get_opt in Hx, Hy.
  rewrite (proj2 (Z.leb_le 0 i)) in Hx by lia. rewrite (proj2 (Z.leb_le 0 j)) in Hy by lia.
  pose proof (ssorted_gap _ _ _ _ _ Hs Hx Hy). lia.
Qed.

(** Members strictly between two neighbours have the rank of the upper one. *)
Lemma rank_between l k v : ssorted l -> 0 <= k <= zlen l ->
  (forall x, get_opt l (k - 1) = Some x -> x < v) -> (forall x, get_opt l k = Some x -> v <= x) ->
  zlen (List.filter (fun x => x <? v) l) = k.
Proof.
  intros Hs Hk Hlo Hhi. rewrite <- (take_drop (Z.to_nat k) l) at 1. rewrite List.filter_app, zlen_app.
  rewrite filter_all, filter_none; [unfold zlen in *; rewrite length_take; simpl; lia|..]; apply Forall_forall; intros x Hx.
  - apply list_elem_of_lookup in Hx as [i Hi]. rewrite lookup_drop in Hi. apply Z.ltb_ge.
    destruct (get_opt_lt l k) as [y Hy]; [apply lookup_lt_Some in Hi; unfold zlen; lia|].
    assert (Hx : get_opt l (k + Z.of_nat i) = Some x).
    { unfold get_opt. rewrite (proj2 (Z.leb_le 0 _)) by lia. rewrite <- Hi. f_equal. lia. }
    pose proof (ssorted_get_opt_gap _ _ _ _ _ Hs Hy Hx ltac:(lia)). specialize (Hhi y Hy). lia.
  - apply list_elem_of_lookup in Hx as [i Hi]. apply lookup_take_Some in Hi as [Hi Hik]. apply Z.ltb_lt.
    destruct (get_opt_lt l (k - 1)) as [y Hy]; [lia|].
    assert (Hx : get_opt l (Z.of_nat i) = Some x) by (by rewrite get_opt_nat).
    pose proof (ssorted_get_opt_gap _ _ _ _ _ Hs Hx Hy ltac:(lia)). specialize (Hlo y Hy). lia.
Qed.

Lemma sublist_sorted_Z l1 l2 : ssorted l2 -> l1 `sublist_of` l2 -> ssorted l1.
Proof.
  intros Hs Hsub. induction Hsub as [|x l1 l2 Hsub IH|x l1 l2 Hsub IH]; [constructor|..];
    apply ssorted_cons_inv in Hs as [Hs Hx]; [|auto].
  constructor; [by apply IH|]. apply Forall_forall. intros y Hy. rewrite Forall_forall in Hx. apply Hx.
  by eapply elem_of_submseteq, sublist_submseteq.
Qed.

Lemma last_split {A} (l : list A) x : list.last l = Some x -> l = removelast l ++ [x].
Proof.
  intros Hl. apply last_Some in Hl as [l' ->]. by rewrite removelast_last.
Qed.

Lemma windows_sorted l : forallb (fun pair => fst pair <? snd pair) (windows2 l) = true -> ssorted l.
Proof.
  induction l as [|x [|y l] IH]; intros H; [constructor|by repeat constructor|].
  cbn [windows2 forallb fst snd] in H. apply andb_true_iff in H as [Hxy%Z.ltb_lt H].
  specialize (IH H). constructor; [done|]. constructor; [done|].
  apply ssorted_cons_inv in IH as [_ IH]. eapply Forall_impl; [done|]. intros. lia.
Qed.

Lemma sort_unstable_perm l : sort_unstable l ≡ₚ l.
Proof. apply sort_by_key_perm. Qed.

Lemma NoDup_filterb {A} (f : A -> bool) l : NoDup l -> NoDup (List.filter f l).
Proof.
  induction 1 as [|x l Hx _ IH]; simpl; [constructor|]. destruct (f x); [|done]. constructor; [|done]. by intros [? _]%elem_of_filterb.
Qed.

Lemma forallb_false {A} (f : A -> bool) l : forallb f l = false -> exists x, x ∈ l /\ f x = false.
Proof.
  induction l as [|x l IH]; [done|]. cbn [forallb]. destruct (f x) eqn:E; [|exists x; split; [left|done]].
  cbn [andb]. intros (y & Hy & Hf)%IH. exists y. split; [by right|done].
Qed.

Definition sortedb (l : list Z) : bool := forallb (fun p => fst p <? snd p) (windows2 l).

Lemma sortedb_spec l : sortedb l = true <-> ssorted l.
Proof.
  unfold sortedb. split; [apply windows_sorted|]. induction l as [|x [|y l] IH]; intros Hs; [done|done|].
  apply ssorted_cons_inv in Hs as [Hs Hx]. change (windows2 (x :: y :: l)) with ((x, y) :: windows2 (y :: l)). cbn [forallb fst snd].
  rewrite IH by done. apply Forall_inv in Hx. by rewrite (proj2 (Z.ltb_lt _ _)).
Qed.

(** [Vec::dedup] *)
Fixpoint dedup (l : list Z) : list Z :=
  match l with
  | x :: ((y :: _) as l') => if x =? y then dedup l' else x :: dedup l'
  | _ => l
  end.

Lemma dedup_elem l v : v ∈ dedup l <-> v ∈ l.
Proof.
  induction l as [|x [|y l] IH]; [done..|]. change (dedup (x :: y :: l)) with (if x =? y then dedup (y :: l) else x :: dedup (y :: l)).
  destruct (Z.eqb_spec x y) as [->|]; [rewrite IH, !elem_of_cons; tauto|]. by rewrite elem_of_cons, IH, (elem_of_cons (y :: l)).
Qed.

Lemma dedup_sorted l : StronglySorted Z.le l -> ssorted (dedup l).
Proof.
  induction 1 as [|x l Hl IH Hx]; [constructor|]. destruct l as [|y l]; [repeat constructor|].
  change (dedup (x :: y :: l)) with (if x =? y then dedup (y :: l) else x :: dedup (y :: l)).
  destruct (Z.eqb_spec x y) as [|Hn]; [done|]. constructor; [done|]. apply Forall_forall. intros v Hv. rewrite dedup_elem in Hv.
  apply StronglySorted_inv in Hl as [_ Hy]. apply Forall_cons in Hx as [Hxy _]. rewrite Forall_forall in Hy.
  apply elem_of_cons in Hv as [->|Hv]; [lia|]. specialize (Hy v Hv). lia.
Qed.

Lemma sort_unstable_le l : StronglySorted Z.le (sort_unstable l).
Proof. apply (sort_by_key_sorted (fun x => x)). Qed.

(** *** Sorted lists and thresholds *)

Lemma ssorted_split l v : ssorted l -> l = List.filter (fun x => x <? v) l ++ List.filter (fun x => negb (x <? v)) l.
Proof.
  induction 1 as [|x l _ IH Hx]; [done|]. cbn [List.filter]. destruct (Z.ltb_spec x v) as [Hv|Hv]; cbn [negb app]; [by f_equal|].
  rewrite (filter_none (fun x => x <? v)), (filter_all (fun x => negb (x <? v))); [done|..];
    (eapply Forall_impl; [exact Hx|]); cbn; intros y Hy; [apply negb_true_iff|]; apply Z.ltb_ge; lia.
Qed.

(** The position of a value is the number of smaller ones. *)
Lemma ssorted_index l i v : ssorted l -> get_opt l i = Some v -> i = zlen (List.filter (fun x => x <? v) l).
Proof.
  intros Hs Hi. apply (get_opt_inj l _ _ v); [by apply ssorted_NoDup|done|]. apply get_opt_rank; [done|]. apply elem_of_get_opt. eauto.
Qed.

Lemma partition_point_lt l v : ssorted l -> partition_point (fun x => x <? v) l = zlen (List.filter (fun x => x <? v) l).
Proof.
  intros Hs. destruct (partition_point_spec (fun x => x <? v) l) as (Hp & Hlt & Hge).
  { intros i j x y Hij Hx Hy Hv. rewrite Z.ltb_lt in *. pose proof (ssorted_lookup _ _ _ _ _ Hs Hx Hy Hij). lia. }
  set (p := partition_point _ _) in *. pose proof (ssorted_split l v Hs) as E. set (l1 := List.filter (fun x => x <? v) l) in *.
  set (l2 := List.filter (fun x => negb (x <? v)) l) in *. pose proof (f_equal zlen E) as El. rewrite zlen_app in El.
  assert (forall x, x ∈ l1 -> (x <? v) = true) as H1 by (intros x [_ ?]%elem_of_filterb; done).
  assert (forall x, x ∈ l2 -> (x <? v) = false) as H2 by (intros x [_ ?%negb_true_iff]%elem_of_filterb; done).
  destruct (Z.lt_trichotomy p (zlen l1)) as [Hc|[Hc|Hc]]; [|done|].
  - destruct (get_opt_lt l1 p ltac:(lia)) as [x Hx]. assert (get_opt l p = Some x) as Hl by (rewrite E, get_opt_app, (proj2 (Z.ltb_lt _ _)) by lia; done).
    pose proof (Hge p x ltac:(lia) Hl). rewrite H1 in *; [done|]. apply elem_of_get_opt. eauto.
  - destruct (get_opt_lt l2 0 ltac:(lia)) as [x Hx].
    assert (get_opt l (zlen l1) = Some x) as Hl by (rewrite E, get_opt_app, (proj2 (Z.ltb_ge _ _)), Z.sub_diag by lia; done).
    pose proof (Hlt _ x Hc Hl). rewrite H2 in *; [done|]. apply elem_of_get_opt. eauto.
Qed.

(** [l[a..b]] between two partition points. *)
Lemma idx_range_partition l s e : ssorted l -> s <= e ->
  idx_range l (partition_point (fun x => x <? s) l) (partition_point (fun x => x <? e) l) = Ok (List.filter (range_contains (s ..< e)) l).
Proof.
  intros Hs Hse. rewrite !partition_point_lt by done.
  assert (List.filter (fun x => x <? e) l = List.filter (fun x => x <? s) l ++ List.filter (range_contains (s ..< e)) l) as E.
  { rewrite (ssorted_split (List.filter (fun x => x <? e) l) s) by by apply ssorted_filter. rewrite !filter_filter. f_equal; apply filter_ext; intros x;
      unfold range_contains; cbn [start end_]; destruct (Z.ltb_spec x e), (Z.ltb_spec x s), (Z.leb_spec s x); cbn; try done; lia. }
  pose proof (ssorted_split l e Hs) as El. rewrite E in El. rewrite E, zlen_app. unfold idx_range.
  set (l1 := List.filter (fun x => x <? s) l) in *. set (l2 := List.filter (range_contains (s ..< e)) l) in *.
  set (l3 := List.filter _ l) in El. pose proof (f_equal zlen El) as Hz. rewrite !zlen_app in Hz.
  pose proof (zlen_nonneg l1). pose proof (zlen_nonneg l2). pose proof (zlen_nonneg l3).
  rewrite !(proj2 (Z.leb_le _ _)) by lia. cbn [andb]. f_equal. rewrite El, <- app_assoc. unfold zlen.
  rewrite drop_app_length' by lia. rewrite take_app_length' by lia. done.
Qed.

(** ** Neighbouring elements and index ranges *)

Lemma windows2_zip {A} (l : list A) : windows2 l = zip l (tail l).
Proof. induction l as [|x [|y l] IH]; [done..|]. change (windows2 (x :: y :: l)) with ((x, y) :: windows2 (y :: l)). by rewrite IH. Qed.

Lemma zlen_windows2 {A} (l : list A) : l <> [] -> zlen (windows2 l) = zlen l - 1.
Proof.
  intros Hl. rewrite windows2_zip. unfold zlen. rewrite length_zip_with. destruct l; [done|]. cbn [length tail]. lia.
Qed.

Lemma idx_range_zsub {A} (l : list A) a b : 0 <= a <= b -> b <= zlen l -> idx_range l a b = Ok (zsub l a b).
Proof. intros. unfold idx_range. by rewrite !(proj2 (Z.leb_le _ _)) by lia. Qed.

Lemma Forall_sublist_of {A} (P : A -> Prop) l1 l2 : l1 `sublist_of` l2 -> Forall P l2 -> Forall P l1.
Proof. intros Hs. rewrite !Forall_forall. intros H x Hx. apply H. by eapply elem_of_sublist. Qed.

Lemma elem_of_zsub {A} (l : list A) a b x : 0 <= a -> x ∈ zsub l a b -> exists i, a <= i < b /\ get_opt l i = Some x.
Proof.
  intros Ha Hx. apply elem_of_get_opt in Hx as [i Hi]. apply get_opt_Some in Hi as Hr. exists (a + i).
  assert (i < b - a) as Hib by (unfold zsub, ztake, zlen in Hr; rewrite length_take in Hr; lia). rewrite get_opt_zsub in Hi by lia. split; [lia|done].
Qed.

Lemma sorted_get_opt {A} (R : relation A) l i j x y : StronglySorted R l -> get_opt l i = Some x -> get_opt l j = Some y -> i < j -> R x y.
Proof.
  intros Hs Hx Hy Hij. apply get_opt_Some in Hx as Hi. apply get_opt_Some in Hy as Hj. unfold get_opt in Hx, Hy.
  rewrite (proj2 (Z.leb_le 0 i)) in Hx by lia. rewrite (proj2 (Z.leb_le 0 j)) in Hy by lia.
  apply (sorted_lookup _ _ _ _ _ _ Hs Hx Hy). lia.
Qed.

Lemma zlen_omap_le {A B} (f : A -> option B) l : zlen (omap f l) <= zlen l.
Proof. unfold zlen. induction l as [|x l IH]; cbn; [done|]. destruct (f x); cbn; lia. Qed.
