(* ===== verification/Bits.v ===== *)
(** * Bits of machine words

    The integer intrinsics the sources use ([count_ones], [trailing_zeros],
    [from_le_bytes], bitwise complement) and their meaning on lists of bits. *)

From Stdlib Require Import ZArith Lia.
From stdpp Require Import base option list numbers.
From S2P Require Import Prelude Lists.

(** ** Bit lists *)

(** Bits [0..n] of [z], least significant first. *)
Definition bits_of (n : Z) (z : Z) : list bool := map (Z.testbit z) (seqZ 0 n).

(** The bits of a byte buffer in [Bitmap] order. *)
Definition allbits (data : list Z) : list bool := flat_map (bits_of 8) data.

(** Number of set bits of a bit list. *)
Definition ones (l : list bool) : Z := zlen (List.filter (fun b => b) l).

(** [u8::count_ones], [u64::count_ones] *)
Definition count_ones_w (w : Z) (z : Z) : Z := ones (bits_of w z).

Fixpoint trailing_zeros_nat (w : nat) (z : Z) : Z :=
  match w with
  | O => 0
  | S w' => if Z.odd z then 0 else 1 + trailing_zeros_nat w' (Z.div2 z)
  end.
Definition trailing_zeros (w : Z) (z : Z) : Z := trailing_zeros_nat (Z.to_nat w) z.

Fixpoint trailing_ones_nat (w : nat) (z : Z) : Z :=
  match w with
  | O => 0
  | S w' => if Z.odd z then 1 + trailing_ones_nat w' (Z.div2 z) else 0
  end.
Definition trailing_ones (w : Z) (z : Z) : Z := trailing_ones_nat (Z.to_nat w) z.

(** [!x] on [u8] and [u64]. *)
Definition not8 (x : Z) : Z := Z.lxor 255 x.
Definition not64 (x : Z) : Z := Z.lxor 18446744073709551615 x.

(** [uN::from_le_bytes], [uN::to_le_bytes] *)
Fixpoint from_le_bytes (l : list Z) : Z :=
  match l with [] => 0 | b :: l' => b + 256 * from_le_bytes l' end.
Fixpoint to_le_bytes (n : nat) (z : Z) : list Z :=
  match n with O => [] | S n' => z mod 256 :: to_le_bytes n' (z / 256) end.

(** [slice::as_chunks::<N>]: the full chunks and the remainder. *)
Fixpoint as_chunks_fuel {A} (fuel n : nat) (l : list A) : list (list A) * list A :=
  match fuel with
  | O => ([], l)
  | S fuel' =>
      if (length l <? n)%nat then ([], l) else
      let '(chunks, tail) := as_chunks_fuel fuel' n (drop n l) in
      (take n l :: chunks, tail)
  end.
Definition as_chunks {A} (n : nat) (l : list A) : list (list A) * list A :=
  as_chunks_fuel (length l) n l.

Definition zsum (l : list Z) : Z := foldr Z.add 0 l.

#[global] Arguments bits_of : simpl never.
#[global] Arguments allbits : simpl never.
#[global] Arguments count_ones_w : simpl never.

(** ** Lemmas *)

Lemma allbits_cons b data : allbits (b :: data) = bits_of 8 b ++ allbits data.
Proof. reflexivity. Qed.

Lemma zlen_bits_of n z : 0 <= n -> zlen (bits_of n z) = n.
Proof. intros. unfold bits_of. by rewrite zlen_map, zlen_seqZ. Qed.

Lemma get_opt_bits_of n z i : 0 <= i < n -> get_opt (bits_of n z) i = Some (Z.testbit z i).
Proof. intros. unfold bits_of. rewrite get_opt_map, get_opt_seqZ by done. done. Qed.

Lemma zlen_allbits data : zlen (allbits data) = 8 * zlen data.
Proof.
  induction data as [|b data IH]; [done|].
  rewrite allbits_cons, zlen_app, zlen_cons, IH, zlen_bits_of by lia. lia.
Qed.

Lemma allbits_app l1 l2 : allbits (l1 ++ l2) = allbits l1 ++ allbits l2.
Proof. apply flat_map_app. Qed.

Lemma get_opt_ext {A} (l1 l2 : list A) :
  zlen l1 = zlen l2 -> (forall i, 0 <= i < zlen l1 -> get_opt l1 i = get_opt l2 i) -> l1 = l2.
Proof.
  intros Hl H. apply list_eq. intros i. destruct (decide (i < length l1)%nat) as [Hi|Hi].
  - specialize (H (Z.of_nat i)). rewrite !get_opt_nat in H. apply H. unfold zlen. lia.
  - unfold zlen in Hl. rewrite !lookup_ge_None_2 by lia. done.
Qed.

Lemma get_opt_allbits data i b :
  get_opt data (i / 8) = Some b -> get_opt (allbits data) i = Some (Z.testbit b (i mod 8)).
Proof.
  revert i. induction data as [|a data IH]; intros i Hb.
  - unfold get_opt in Hb. by destruct (0 <=? i / 8).
  - change (allbits (a :: data)) with (bits_of 8 a ++ allbits data).
    rewrite get_opt_app, zlen_bits_of by lia. rewrite get_opt_cons in Hb.
    pose proof (Z.div_mod i 8). pose proof (Z.mod_pos_bound i 8).
    destruct (Z.eqb_spec (i / 8) 0) as [E|E].
    + inversion Hb; subst. rewrite (proj2 (Z.ltb_lt i 8)) by lia.
      rewrite Z.mod_small by lia. apply get_opt_bits_of. lia.
    + apply get_opt_Some in Hb as Hr. rewrite (proj2 (Z.ltb_ge i 8)) by lia.
      replace (i mod 8) with ((i - 8) mod 8) by (rewrite <- (Z.mod_add (i - 8) 1 8) by lia; f_equal; lia).
      apply IH. replace ((i - 8) / 8) with (i / 8 - 1); [done|].
      replace i with ((i - 8) + 1 * 8) at 1 by lia. rewrite Z.div_add by lia. lia.
Qed.

Lemma ones_app l1 l2 : ones (l1 ++ l2) = ones l1 + ones l2.
Proof. unfold ones. by rewrite List.filter_app, zlen_app. Qed.

Lemma ones_nonneg l : 0 <= ones l.
Proof. apply zlen_nonneg. Qed.

Lemma ones_le l : ones l <= zlen l.
Proof. unfold ones, zlen. pose proof (List.filter_length_le (fun b => b) l). lia. Qed.

Lemma ones_cons b l : ones (b :: l) = (if b : bool then 1 else 0) + ones l.
Proof. unfold ones. simpl. destruct b; [|done]. by rewrite zlen_cons. Qed.

Lemma ones_false l : Forall (fun b => b = false) l -> ones l = 0.
Proof. intros H. unfold ones. by rewrite filter_none. Qed.

Lemma zsum_app l1 l2 : zsum (l1 ++ l2) = zsum l1 + zsum l2.
Proof. induction l1 as [|x l1 IH]; simpl; [done|]. unfold zsum in *. simpl. lia. Qed.

Lemma ones_allbits data : ones (allbits data) = zsum (map (count_ones_w 8) data).
Proof.
  induction data as [|b data IH]; [done|]. by rewrite allbits_cons, ones_app, IH.
Qed.

Lemma as_chunks_fuel_spec {A} fuel n (l : list A) : (1 <= n)%nat -> (length l <= fuel)%nat ->
  let '(chunks, tail) := as_chunks_fuel fuel n l in
  l = concat chunks ++ tail /\ Forall (fun c => length c = n) chunks /\ (length tail < n)%nat.
Proof.
  intros Hn. revert l. induction fuel as [|fuel IH]; intros l Hl; simpl.
  - destruct l; simpl in *; [|lia]. split; [done|]. split; [constructor|lia].
  - destruct (Nat.ltb_spec (length l) n) as [H|H]; [split; [done|]; split; [constructor|done]|].
    specialize (IH (drop n l)). rewrite length_drop in IH.
    destruct (as_chunks_fuel fuel n (drop n l)) as [chunks tail].
    destruct IH as (H1 & H2 & H3); [lia|]. split; [|split; [|done]].
    + simpl. rewrite <- app_assoc, <- H1. by rewrite take_drop.
    + constructor; [|done]. rewrite length_take. lia.
Qed.

Lemma as_chunks_spec {A} n (l : list A) : (1 <= n)%nat ->
  let '(chunks, tail) := as_chunks n l in
  l = concat chunks ++ tail /\ Forall (fun c => length c = n) chunks /\ (length tail < n)%nat.
Proof. intros. by apply as_chunks_fuel_spec. Qed.

Lemma bits_of_add8 b x n : u8_ok b -> 0 <= n ->
  bits_of (8 + n) (b + 256 * x) = bits_of 8 b ++ bits_of n x.
Proof.
  intros Hb Hn. unfold u8_ok in Hb. apply get_opt_ext.
  { rewrite zlen_app, !zlen_bits_of by lia. done. }
  intros i. rewrite zlen_bits_of by lia. intros Hi. rewrite get_opt_bits_of by lia.
  rewrite get_opt_app, zlen_bits_of by lia. destruct (Z.ltb_spec i 8).
  - rewrite get_opt_bits_of by lia. f_equal.
    rewrite <- (Z.mod_pow2_bits_low _ 8 i) by lia. change (2 ^ 8) with 256.
    replace (b + 256 * x) with (b + x * 256) by lia. rewrite Z.mod_add by lia.
    by rewrite Z.mod_small by lia.
  - rewrite get_opt_bits_of by lia. f_equal.
    replace i with ((i - 8) + 8) at 1 by lia. rewrite <- Z.div_pow2_bits by lia.
    change (2 ^ 8) with 256. f_equal. replace (b + 256 * x) with (b + x * 256) by lia.
    rewrite Z.div_add by lia. rewrite Z.div_small by lia. lia.
Qed.

(** A little-endian word has the bits of its bytes. *)
Lemma bits_of_le_bytes l : Forall u8_ok l -> bits_of (8 * zlen l) (from_le_bytes l) = allbits l.
Proof.
  induction 1 as [|b l Hb _ IH]; [done|]. rewrite zlen_cons. simpl from_le_bytes.
  replace (8 * (1 + zlen l)) with (8 + 8 * zlen l) by lia.
  rewrite bits_of_add8 by (try apply zlen_nonneg; try done; pose proof (zlen_nonneg l); lia).
  by rewrite IH.
Qed.

Lemma testbit_land_pow2 b k : 0 <= k ->
  negb (Z.land b (Z.shiftl 1 k) =? 0) = Z.testbit b k.
Proof.
  intros Hk. rewrite Z.shiftl_1_l.
  assert (E : Z.land b (2 ^ k) = if Z.testbit b k then 2 ^ k else 0).
  { apply Z.bits_inj'. intros n Hn. rewrite Z.land_spec, Z.pow2_bits_eqb by done.
    destruct (Z.eqb_spec k n) as [->|].
    - destruct (Z.testbit b n) eqn:E; [by rewrite Z.pow2_bits_true|by rewrite Z.bits_0].
    - rewrite andb_false_r. destruct (Z.testbit b k); [|by rewrite Z.bits_0].
      rewrite Z.pow2_bits_eqb by done. by destruct (Z.eqb_spec k n). }
  rewrite E. destruct (Z.testbit b k); [|done].
  pose proof (Z.pow_pos_nonneg 2 k). destruct (Z.eqb_spec (2 ^ k) 0); [lia|done].
Qed.

Lemma testbit_255 n : 0 <= n -> Z.testbit 255 n = (n <? 8).
Proof. intros. change 255 with (Z.ones 8). rewrite Z.testbit_ones by lia.
  destruct (Z.leb_spec 0 n); [done|lia]. Qed.

(** A value is a byte exactly when its bits from 8 on are clear. *)
Lemma u8_ok_bits b : 0 <= b -> (u8_ok b <-> forall n, 8 <= n -> Z.testbit b n = false).
Proof.
  intros H0. split.
  - intros [_ Hb] n Hn. destruct (Z.eq_dec b 0) as [->|]; [apply Z.bits_0|].
    apply Z.bits_above_log2; [lia|]. assert (Z.log2 b < 8); [|lia].
    apply Z.log2_lt_pow2; lia.
  - intros Hb. split; [done|]. destruct (Z.eq_dec b 0) as [->|]; [lia|].
    assert (Z.log2 b < 8).
    { destruct (Z.lt_ge_cases (Z.log2 b) 8) as [|Hge]; [done|].
      specialize (Hb _ Hge). by rewrite Z.bit_log2 in Hb by lia. }
    apply Z.log2_lt_pow2 in H; lia.
Qed.

Lemma u8_ok_land a b : u8_ok a -> 0 <= b -> u8_ok (Z.land a b).
Proof.
  intros Ha Hb. assert (0 <= a) by (unfold u8_ok in Ha; lia).
  apply u8_ok_bits; [by apply Z.land_nonneg; left|].
  intros n Hn. rewrite Z.land_spec. by rewrite (proj1 (u8_ok_bits a H) Ha).
Qed.

Lemma u8_ok_lor a b : u8_ok a -> u8_ok b -> u8_ok (Z.lor a b).
Proof.
  intros Ha Hb. assert (0 <= a) by (unfold u8_ok in Ha; lia).
  assert (0 <= b) by (unfold u8_ok in Hb; lia).
  apply u8_ok_bits; [by apply Z.lor_nonneg|].
  intros n Hn. rewrite Z.lor_spec.
  rewrite (proj1 (u8_ok_bits a H) Ha), (proj1 (u8_ok_bits b H0) Hb); done.
Qed.

Lemma u8_ok_pow2 k : 0 <= k < 8 -> u8_ok (Z.shiftl 1 k).
Proof.
  intros. rewrite Z.shiftl_1_l. split; [apply Z.pow_nonneg; lia|].
  pose proof (Z.pow_le_mono_r 2 k 7). lia.
Qed.

Lemma u8_ok_not8 a : u8_ok a -> u8_ok (not8 a).
Proof.
  intros Ha. assert (0 <= a) by (unfold u8_ok in Ha; lia). unfold not8.
  apply u8_ok_bits; [by apply Z.lxor_nonneg|].
  intros n Hn. rewrite Z.lxor_spec, testbit_255 by lia.
  rewrite (proj1 (u8_ok_bits a H) Ha) by done. rewrite (proj2 (Z.ltb_ge n 8)) by done. done.
Qed.

Lemma testbit_not8 a n : 0 <= n < 8 -> Z.testbit (not8 a) n = negb (Z.testbit a n).
Proof.
  intros. unfold not8. rewrite Z.lxor_spec, testbit_255 by lia.
  by rewrite (proj2 (Z.ltb_lt n 8)) by lia.
Qed.

Lemma to_le_bytes_length n z : length (to_le_bytes n z) = n.
Proof. revert z. induction n; intros; simpl; auto. Qed.

Lemma to_le_bytes_u8 n z : Forall u8_ok (to_le_bytes n z).
Proof.
  revert z. induction n; intros; simpl; constructor; [|auto].
  unfold u8_ok. pose proof (Z.mod_pos_bound z 256). lia.
Qed.

(** [from_le_bytes] inverts [to_le_bytes] on values of the width. *)
Lemma from_to_le_bytes n z : 0 <= z < 256 ^ Z.of_nat n -> from_le_bytes (to_le_bytes n z) = z.
Proof.
  revert z. induction n as [|n IH]; intros z Hz.
  - change (256 ^ Z.of_nat 0) with 1 in Hz. simpl. lia.
  - simpl to_le_bytes. simpl from_le_bytes. rewrite IH.
    + pose proof (Z.div_mod z 256). lia.
    + rewrite Nat2Z.inj_succ, Z.pow_succ_r in Hz by lia.
      split; [apply Z.div_pos; lia|]. apply Z.div_lt_upper_bound; lia.
Qed.

#[export] Hint Resolve u8_ok_land u8_ok_lor u8_ok_pow2 u8_ok_not8 ones_nonneg : lance.

(** ** Scanning the bits of a byte *)

(** Statements about every byte, by evaluation. *)
Lemma byte_forall (P : Z -> bool) : forallb P (seqZ 0 256) = true -> forall b, u8_ok b -> P b = true.
Proof.
  intros H b Hb. rewrite forallb_forall in H. apply H, list_elem_of_In, elem_of_seqZ. unfold u8_ok in Hb. lia.
Qed.

(** The positions of the set bits, lowest first. *)
Definition byte_ones (b : Z) : list Z := List.filter (Z.testbit b) (seqZ 0 8).

Lemma byte_ones_step b : u8_ok b -> b <> 0 ->
  byte_ones b = trailing_zeros 8 b :: byte_ones (Z.land b (wrap8 (b - 1))) /\ u8_ok (Z.land b (wrap8 (b - 1))).
Proof.
  intros Hb Hne.
  pose proof (byte_forall (fun b => (b =? 0) || (bool_decide (byte_ones b = trailing_zeros 8 b :: byte_ones (Z.land b (wrap8 (b - 1)))) &&
    (0 <=? Z.land b (wrap8 (b - 1))) && (Z.land b (wrap8 (b - 1)) <=? 255)))) as H.
  specialize (H ltac:(vm_compute; reflexivity) b Hb). apply orb_prop in H as [H%Z.eqb_eq|H]; [done|].
  apply andb_prop in H as [H ?%Z.leb_le]. apply andb_prop in H as [H%bool_decide_eq_true ?%Z.leb_le].
  split; [exact H|by split].
Qed.

#[global] Arguments byte_ones : simpl never.

Lemma byte_ones_0 : byte_ones 0 = [].
Proof. reflexivity. Qed.

Lemma count_byte_ones b : u8_ok b -> count_ones_w 8 b = zlen (byte_ones b).
Proof.
  intros Hb. apply Z.eqb_eq. apply (byte_forall (fun b => count_ones_w 8 b =? zlen (byte_ones b))); [|done].
  vm_compute. reflexivity.
Qed.

Lemma from_le_bytes_bound l : Forall u8_ok l -> 0 <= from_le_bytes l < 256 ^ zlen l.
Proof.
  induction 1 as [|b l Hb _ IH]; [change (256 ^ zlen (@nil Z)) with 1; simpl; lia|].
  simpl. rewrite zlen_cons, Z.pow_add_r by (pose proof (zlen_nonneg l); lia). unfold u8_ok in Hb. lia.
Qed.

Lemma testbit_div2 z k : 0 <= k -> Z.testbit (Z.div2 z) k = Z.testbit z (k + 1).
Proof. intros. by rewrite Z.div2_spec, Z.shiftr_spec. Qed.

(** [trailing_zeros] finds the lowest set bit. *)
Lemma trailing_zeros_nat_spec w z : 0 <= z < 2 ^ Z.of_nat w -> z <> 0 ->
  let t := trailing_zeros_nat w z in
  0 <= t < Z.of_nat w /\ Z.testbit z t = true /\ forall k, 0 <= k < t -> Z.testbit z k = false.
Proof.
  revert z. induction w as [|w IH]; intros z Hz Hne; [simpl in Hz; lia|].
  rewrite Nat2Z.inj_succ, Z.pow_succ_r in Hz by lia. simpl. destruct (Z.odd z) eqn:E.
  - split; [lia|]. split; [by rewrite Z.bit0_odd|lia].
  - assert (Hdiv : z = 2 * Z.div2 z) by (pose proof (Z.div2_odd z) as H; rewrite E in H; simpl in H; lia).
    destruct (IH (Z.div2 z)) as (H1 & H2 & H3); [lia|lia|]. split; [lia|]. split.
    + rewrite testbit_div2 in H2 by lia. rewrite <- H2. f_equal. lia.
    + intros k Hk. destruct (decide (k = 0)) as [->|]; [by rewrite Z.bit0_odd|].
      replace k with (k - 1 + 1) by lia. rewrite <- testbit_div2 by lia. apply H3. lia.
Qed.

Lemma zero_bits z w : 0 <= z < 2 ^ w -> (forall k, 0 <= k < w -> Z.testbit z k = false) -> z = 0.
Proof.
  intros Hz H. apply Z.bits_inj'. intros n Hn. rewrite Z.bits_0. destruct (decide (n < w)); [apply H; lia|].
  destruct (decide (z = 0)) as [->|]; [apply Z.bits_0|]. apply Z.bits_above_log2; [lia|].
  assert (Z.log2 z < w); [|lia]. apply Z.log2_lt_pow2; lia.
Qed.
