(* ===== verification/RowAddress.v ===== *)
(** * Row addresses

    [lance-core/src/utils/address.rs]: a [u64] whose upper half is the
    fragment id and whose lower half is the row offset in the fragment. *)

From Stdlib Require Import ZArith Lia.
From stdpp Require Import base option list numbers.
From S2P Require Import Prelude.

(** [RowAddress(u64)] *)
Definition RowAddress : Type := Z.

Definition FRAGMENT_SIZE : Z := Z.shiftl 1 32.
Definition TOMBSTONE_FRAG : Z := 4294967295.
Definition TOMBSTONE_ROW : Z := 18446744073709551615.

Definition new_from_u64 (row_addr : Z) : RowAddress := row_addr.

Definition new_from_parts (fragment_id row_offset : Z) : RowAddress :=
  Z.lor (wrap64 (Z.shiftl fragment_id 32)) row_offset.

Definition first_row (fragment_id : Z) : RowAddress := new_from_parts fragment_id 0.

(** [fragment_id + 1] is [u32] arithmetic. *)
Definition address_range (fragment_id : Z) : Range :=
  first_row fragment_id ..< first_row (fragment_id +d 1).

Definition fragment_id (addr : RowAddress) : Z := wrap32 (Z.shiftr addr 32).
Definition row_offset (addr : RowAddress) : Z := wrap32 addr.

Lemma lor_low a n r : 0 <= n -> 0 <= r < 2 ^ n -> Z.lor (a * 2 ^ n) r = a * 2 ^ n + r.
Proof.
  intros Hn Hr. pose proof (Z.add_lor_land (a * 2 ^ n) r). assert (Z.land (a * 2 ^ n) r = 0); [|lia].
  apply Z.bits_inj'. intros i Hi. rewrite Z.land_spec, Z.bits_0. destruct (Z.lt_ge_cases i n).
  - by rewrite Z.mul_pow2_bits_low.
  - destruct (Z.eq_dec r 0) as [->|]; [by rewrite Z.bits_0, andb_false_r|].
    rewrite (Z.bits_above_log2 r i); [apply andb_false_r|lia|]. assert (Z.log2 r < n); [|lia]. apply Z.log2_lt_pow2; lia.
Qed.

(** The address as a number. *)
Lemma new_from_parts_eq f r : u32_ok f -> u32_ok r ->
  new_from_parts f r = f * 4294967296 + r.
Proof.
  intros Hf Hr. unfold u32_ok in *. unfold new_from_parts. rewrite Z.shiftl_mul_pow2 by lia. rewrite wrap64_small by (uok; lia).
  rewrite lor_low by lia. done.
Qed.

Lemma fragment_id_parts f r : u32_ok f -> u32_ok r -> fragment_id (new_from_parts f r) = f.
Proof.
  intros Hf Hr. rewrite new_from_parts_eq by done. unfold fragment_id.
  rewrite Z.shiftr_div_pow2 by lia. change (2 ^ 32) with 4294967296.
  rewrite Z.add_comm, Z.div_add by lia. unfold u32_ok in *.
  rewrite Z.div_small by lia. unwrap. lia.
Qed.

Lemma row_offset_parts f r : u32_ok f -> u32_ok r -> row_offset (new_from_parts f r) = r.
Proof.
  intros Hf Hr. rewrite new_from_parts_eq by done. unfold row_offset, wrap32.
  rewrite Z.add_comm, Z.mod_add by lia. unfold u32_ok in *. by rewrite Z.mod_small by lia.
Qed.

Lemma parts_of_address a : u64_ok a -> new_from_parts (fragment_id a) (row_offset a) = a.
Proof.
  intros Ha. unfold u64_ok in Ha. assert (Hf : fragment_id a = a / 4294967296).
  { unfold fragment_id. rewrite Z.shiftr_div_pow2 by lia. change (2 ^ 32) with 4294967296.
    apply wrap32_small. split; [apply Z.div_pos; lia|].
    apply Z.lt_succ_r, Z.div_lt_upper_bound; lia. }
  rewrite new_from_parts_eq.
  - rewrite Hf. unfold row_offset, wrap32. pose proof (Z.div_mod a 4294967296). lia.
  - unfold fragment_id. apply wrap32_ok.
  - apply wrap32_ok.
Qed.

Lemma fragment_id_ok a : u32_ok (fragment_id a).
Proof. apply wrap32_ok. Qed.

Lemma row_offset_ok a : u32_ok (row_offset a).
Proof. apply wrap32_ok. Qed.

#[export] Hint Resolve fragment_id_ok row_offset_ok : lance.
