(* ===== verification/Bitmap.v ===== *)
(** * Packed bitmaps of row-id segments

    [lance-table/src/rowids/bitmap.rs]: the bit buffer of a
    [U64Segment::RangeWithBitmap], least significant bit first, with the
    byte-wise and word-wise counting routines.  The specification is the
    function [bitat] from positions to bits and the counter [ones_in]. *)

From Stdlib Require Import ZArith Lia.
From stdpp Require Import base option list numbers sorting sets gmap.
From S2P Require Import Prelude Lists Bits.

(** ** Model *)

Record Bitmap := mkBitmap { data : list Z; len : Z }.

#[global] Instance Bitmap_eq_dec : EqDecision Bitmap.
Proof. solve_decision. Defined.

(** [count_ones(data)]: eight bytes at a time, then the tail. *)
Definition count_ones_bytes (data : list Z) : Z :=
  let '(words, tail) := as_chunks 8 data in
  let full := zsum (map (fun word => count_ones_w 64 (from_le_bytes word)) words) in
  let tail := zsum (map (count_ones_w 8) tail) in
  full +w tail.

Definition from_parts (data : list Z) (len : Z) : Bitmap := mkBitmap data len.

Definition new_empty (len : Z) : Bitmap :=
  from_parts (replicate (Z.to_nat (div_ceil len 8)) 0) len.

Definition new_full (len : Z) : res Bitmap :=
  let data := replicate (Z.to_nat (div_ceil len 8)) 255 in
  let remainder := len mod 8 in
  if negb (remainder =? 0) then
    last_byte ← unwrap_opt (list.last data);
    let bits_to_clear := 8 - remainder in
    let last_byte := foldl (fun b offset_from_end => Z.land b (not8 (Z.shiftl 1 (7 - offset_from_end))))
      last_byte (range_list (0 ..< bits_to_clear)) in
    Ok (from_parts (<[Nat.pred (length data) := last_byte]> data) len)
  else Ok (from_parts data len).

Definition bytes (b : Bitmap) : list Z := data b.
Definition into_bytes (b : Bitmap) : list Z := data b.

Definition set (b : Bitmap) (i : Z) : res Bitmap :=
  byte ← idx (data b) (i / 8);
  d ← idx_set (data b) (i / 8) (Z.lor byte (Z.shiftl 1 (i mod 8)));
  Ok (mkBitmap d (len b)).

Definition clear (b : Bitmap) (i : Z) : res Bitmap :=
  byte ← idx (data b) (i / 8);
  d ← idx_set (data b) (i / 8) (Z.land byte (not8 (Z.shiftl 1 (i mod 8))));
  Ok (mkBitmap d (len b)).

(** [data[k] &= !mask] *)
Definition mask_byte (d : list Z) (k mask : Z) : res (list Z) :=
  byte ← idx d k;
  idx_set d k (Z.land byte (not8 mask)).

(** [data[a..b].fill(0)] *)
Definition fill_zero (d : list Z) (a b : Z) : res (list Z) :=
  if (0 <=? a) && (a <=? b) && (b <=? zlen d)
  then Ok (ztake a d ++ replicate (Z.to_nat (b - a)) 0 ++ zskip b d) else Panic.

Definition clear_range (b : Bitmap) (range : Range) : res Bitmap :=
  if range_is_empty range then Ok b else
  let first := start range / 8 in
  let last := (end_ range - 1) / 8 in
  let head := wrap8 (Z.shiftl 255 (start range mod 8)) in
  let tail := wrap8 (Z.shiftr 255 (7 - (end_ range - 1) mod 8)) in
  if first =? last then
    d ← mask_byte (data b) first (Z.land head tail);
    Ok (mkBitmap d (len b))
  else
    d ← mask_byte (data b) first head;
    d ← fill_zero d (first + 1) last;
    d ← mask_byte d last tail;
    Ok (mkBitmap d (len b)).

Definition get (b : Bitmap) (i : Z) : res bool :=
  byte ← idx (data b) (i / 8);
  Ok (negb (Z.land byte (Z.shiftl 1 (i mod 8)) =? 0)).

Definition count_ones (b : Bitmap) : Z := count_ones_bytes (data b).
Definition count_zeros (b : Bitmap) : Z := len b -w count_ones b.

Definition iter (b : Bitmap) : list bool :=
  ztake (len b)
    (flat_map (fun x => map (fun i => negb (Z.land x (Z.shiftl 1 i) =? 0)) (seqZ 0 8)) (data b)).

Fixpoint set_positions (b : Bitmap) (l : list (Z * bool)) : res Bitmap :=
  match l with
  | [] => Ok b
  | (i, x) :: l' => b' ← (if x : bool then set b i else Ok b); set_positions b' l'
  end.

(** [impl From<&[bool]> for Bitmap] *)
Definition from_bools (slice : list bool) : res Bitmap :=
  set_positions (new_empty (zlen slice)) (enumerate slice).

Record BitmapSlice := mkBitmapSlice { sl_bitmap : Bitmap; sl_start : Z; sl_len : Z }.

Definition slice (b : Bitmap) (start len : Z) : BitmapSlice := mkBitmapSlice b start len.

(** [for i in a..b { if byte & (1 << i) != 0 { count += 1 } }] *)
Definition count_bits (byte a b : Z) : Z :=
  zlen (List.filter (fun i => negb (Z.land byte (Z.shiftl 1 i) =? 0)) (range_list (a ..< b))).

Definition slice_count_ones (s : BitmapSlice) : res Z :=
  if sl_len s =? 0 then Ok 0 else
  let d := data (sl_bitmap s) in
  let last := (sl_start s +w sl_len s) -w 1 in
  let first_byte := sl_start s / 8 in
  let last_byte := last / 8 in
  if first_byte =? last_byte then
    byte ← idx d first_byte;
    Ok (count_bits byte (sl_start s mod 8) (last mod 8 + 1))
  else
    b0 ← idx d first_byte;
    let count := count_bits b0 (sl_start s mod 8) 8 in
    b1 ← idx d last_byte;
    let count := count + count_bits b1 0 (last mod 8 + 1) in
    mid ← idx_range d (first_byte + 1) last_byte;
    Ok (count +w count_ones_bytes mid).

Definition slice_count_zeros (s : BitmapSlice) : res Z :=
  c ← slice_count_ones s; Ok (sl_len s -w c).

(** [impl From<BitmapSlice> for Bitmap] *)
Definition from_slice (s : BitmapSlice) : res Bitmap :=
  fold_res (fun b i =>
      x ← get (sl_bitmap s) (sl_start s +w i);
      if x : bool then set b i else Ok b)
    (new_empty (sl_len s)) (range_list (0 ..< sl_len s)).

(** ** Specification *)

(** The bit at a position, [false] past the buffer. *)
Definition bitat (d : list Z) (i : Z) : bool := default false (get_opt (allbits d) i).

(** Set bits at positions [a..b]. *)
Definition ones_in (d : list Z) (a b : Z) : Z :=
  zlen (List.filter (bitat d) (range_list (a ..< b))).

(** The representation invariant: the buffer has just the bytes its length
    needs and every bit past the length is clear. *)
Record wf (b : Bitmap) : Prop := mk_wf {
  wf_len : 0 <= len b <= U64_MAX - 8;
  wf_bytes : Forall u8_ok (data b);
  wf_data : zlen (data b) = div_ceil (len b) 8;
  wf_padding : forall i, len b <= i -> bitat (data b) i = false }.

(** ** Bits and bytes *)

Lemma bitat_byte d i b : get_opt d (i / 8) = Some b -> bitat d i = Z.testbit b (i mod 8).
Proof. intros Hb. unfold bitat. by rewrite (get_opt_allbits _ _ _ Hb). Qed.

Lemma bitat_out d i : i < 0 \/ 8 * zlen d <= i -> bitat d i = false.
Proof. intros H. unfold bitat. rewrite (proj2 (get_opt_None _ _)); [done|]. rewrite zlen_allbits. lia. Qed.

Lemma byte_in (d : list Z) i : 0 <= i < 8 * zlen d -> exists b, get_opt d (i / 8) = Some b.
Proof.
  intros Hi. apply get_opt_lt. split; [apply Z.div_pos; lia|]. apply Z.div_lt_upper_bound; lia.
Qed.

Lemma allbits_bitat d : allbits d = map (bitat d) (range_list (0 ..< 8 * zlen d)).
Proof.
  pose proof (zlen_nonneg d). apply get_opt_ext.
  - rewrite zlen_map, zlen_range_list, zlen_allbits; simpl; lia.
  - intros i. rewrite zlen_allbits. intros Hi. rewrite get_opt_map. unfold range_list. simpl.
    rewrite get_opt_seqZ by lia. simpl fmap. rewrite Z.add_0_l. destruct (byte_in d i Hi) as [b Hb].
    by rewrite (get_opt_allbits _ _ _ Hb), (bitat_byte _ _ _ Hb).
Qed.

Lemma ones_map {A} (f : A -> bool) l : ones (map f l) = zlen (List.filter f l).
Proof.
  induction l as [|x l IH]; [done|]. simpl map. rewrite ones_cons, IH. simpl.
  destruct (f x); [by rewrite zlen_cons|done].
Qed.

Lemma ones_in_all d : ones (allbits d) = ones_in d 0 (8 * zlen d).
Proof. by rewrite allbits_bitat, ones_map. Qed.

Lemma ones_in_app d a b c : a <= b -> b <= c -> ones_in d a c = ones_in d a b + ones_in d b c.
Proof. intros. unfold ones_in. by rewrite (range_list_app a b c), List.filter_app, zlen_app by done. Qed.

Lemma ones_in_nil d a b : b <= a -> ones_in d a b = 0.
Proof. intros. unfold ones_in. by rewrite range_list_nil by done. Qed.

Lemma ones_in_bound d a b : 0 <= ones_in d a b <= Z.max 0 (b - a).
Proof.
  unfold ones_in, zlen. pose proof (List.filter_length_le (bitat d) (range_list (a ..< b))).
  unfold range_list in *. rewrite length_seqZ in H. simpl in *. lia.
Qed.

Lemma ones_in_false d a b : (forall i, a <= i < b -> bitat d i = false) -> ones_in d a b = 0.
Proof.
  intros H. unfold ones_in. rewrite filter_none; [done|].
  apply Forall_forall. intros i Hi%elem_of_range_list. by apply H.
Qed.

(** Counting the bits [a..b] of byte [k] counts positions [8k+a..8k+b]. *)
Lemma count_bits_spec d k byte a b : get_opt d k = Some byte -> 0 <= a -> b <= 8 ->
  count_bits byte a b = ones_in d (8 * k + a) (8 * k + b).
Proof.
  intros Hk Ha Hb. unfold count_bits, ones_in, range_list. simpl.
  replace (8 * k + b - (8 * k + a)) with (b - a) by lia.
  rewrite <- (fmap_add_seqZ (8 * k) a). change (Z.add (8 * k) <$> seqZ a (b - a)) with (map (Z.add (8 * k)) (seqZ a (b - a))).
  rewrite filter_map_length. f_equal. apply filter_ext_Forall, Forall_forall.
  intros i Hi%elem_of_seqZ. rewrite testbit_land_pow2 by lia.
  assert ((8 * k + i) / 8 = k) as E by (rewrite Z.add_comm, Z.mul_comm, Z.div_add, Z.div_small; lia).
  rewrite (bitat_byte _ _ byte) by (by rewrite E). f_equal.
  rewrite Z.add_comm, Z.mul_comm, Z.mod_add, Z.mod_small; lia.
Qed.

Lemma zlen_concat_words words : Forall (fun c => length c = 8%nat) words ->
  zsum (map (fun w => count_ones_w 64 (from_le_bytes w)) words) =
  zsum (map (fun w => count_ones_w (8 * zlen w) (from_le_bytes w)) words).
Proof.
  induction 1 as [|w words Hw _ IH]; simpl; [done|]. rewrite IH.
  by replace (zlen w) with 8 by (unfold zlen; lia).
Qed.

Lemma word_count_spec words : Forall (Forall u8_ok) words ->
  zsum (map (fun w => count_ones_w (8 * zlen w) (from_le_bytes w)) words) = ones (allbits (concat words)).
Proof.
  induction 1 as [|w words Hw _ IH]; [done|]. simpl concat. rewrite allbits_app, ones_app, <- IH.
  unfold zsum. simpl. unfold count_ones_w at 1. by rewrite bits_of_le_bytes.
Qed.

(** The word-wise count equals the number of set bits. *)
Lemma count_ones_bytes_spec d : Forall u8_ok d -> 8 * zlen d <= U64_MAX ->
  count_ones_bytes d = ones_in d 0 (8 * zlen d).
Proof.
  intros Hd Hlen. unfold count_ones_bytes. pose proof (as_chunks_spec 8 d) as Hc.
  destruct (as_chunks 8 d) as [words tail]. destruct Hc as (E & Hw & _); [lia|].
  rewrite zlen_concat_words by done. rewrite word_count_spec.
  - rewrite <- ones_allbits, <- ones_app, <- allbits_app, <- E, ones_in_all. apply wrap64_small.
    pose proof (ones_in_bound d 0 (8 * zlen d)). pose proof (zlen_nonneg d). uok. lia.
  - rewrite E, Forall_app in Hd. destruct Hd as [Hd _].
    clear -Hd. induction words as [|w words IH]; simpl in *; constructor; rewrite Forall_app in Hd; tauto.
Qed.

(** ** Reading *)

Lemma bm_get_ok b i : 0 <= i < 8 * zlen (data b) -> get b i = Ok (bitat (data b) i).
Proof.
  intros Hi. destruct (byte_in _ _ Hi) as [byte Hb]. unfold get. rewrite (idx_ok _ _ _ Hb). simpl.
  rewrite testbit_land_pow2 by (apply Z.mod_pos_bound; lia). by rewrite (bitat_byte _ _ _ Hb).
Qed.

Lemma wf_data_len b : wf b -> len b <= 8 * zlen (data b) < len b + 8.
Proof.
  intros [H1 H2 H3 H4]. rewrite H3. unfold div_ceil.
  pose proof (Z.div_mod (len b + 8 - 1) 8). pose proof (Z.mod_pos_bound (len b + 8 - 1) 8). lia.
Qed.

Lemma get_wf b i : wf b -> 0 <= i < len b -> get b i = Ok (bitat (data b) i).
Proof. intros Hwf Hi. pose proof (wf_data_len b Hwf). apply bm_get_ok. lia. Qed.

Lemma count_ones_wf b : wf b -> count_ones b = ones_in (data b) 0 (len b).
Proof.
  intros Hwf. pose proof (wf_data_len b Hwf). destruct Hwf as [H1 H2 H3 H4].
  unfold count_ones. rewrite count_ones_bytes_spec by (done || lia).
  rewrite (ones_in_app _ 0 (len b)) by lia.
  rewrite (ones_in_false _ (len b)); [lia|]. intros. apply H4. lia.
Qed.

Lemma count_zeros_wf b : wf b -> count_zeros b = len b - ones_in (data b) 0 (len b).
Proof.
  intros Hwf. unfold count_zeros. rewrite count_ones_wf by done.
  pose proof (ones_in_bound (data b) 0 (len b)). destruct Hwf. apply wrap64_small. uok. lia.
Qed.

Lemma iter_wf b : wf b -> iter b = map (bitat (data b)) (range_list (0 ..< len b)).
Proof.
  intros Hwf. pose proof (wf_data_len b Hwf). destruct Hwf as [Hl _ _ _]. unfold iter.
  replace (flat_map _ (data b)) with (allbits (data b)).
  - rewrite allbits_bitat. unfold ztake. rewrite (range_list_app 0 (len b)) by lia.
    rewrite map_app. apply take_app_length'. rewrite length_map. unfold range_list. simpl.
    rewrite length_seqZ. f_equal. lia.
  - unfold allbits. apply flat_map_ext. intros x. unfold bits_of. apply map_ext_in.
    intros i Hi%list_elem_of_In%elem_of_seqZ. symmetry. apply testbit_land_pow2. lia.
Qed.

(** ** Slices *)

Lemma ones_in_shift d1 d2 a b k :
  (forall i, a <= i < b -> bitat d1 i = bitat d2 (k + i)) -> ones_in d1 a b = ones_in d2 (k + a) (k + b).
Proof.
  intros H. unfold ones_in, range_list. simpl. replace (k + b - (k + a)) with (b - a) by lia.
  rewrite <- (fmap_add_seqZ k a). change (Z.add k <$> seqZ a (b - a)) with (map (Z.add k) (seqZ a (b - a))).
  rewrite filter_map_length. f_equal. apply filter_ext_Forall, Forall_forall.
  intros i Hi%elem_of_seqZ. apply H. lia.
Qed.

Lemma ones_in_sub d a b : 0 <= a -> a <= b -> b <= zlen d ->
  let m := take (Z.to_nat (b - a)) (drop (Z.to_nat a) d) in
  ones_in m 0 (8 * zlen m) = ones_in d (8 * a) (8 * b).
Proof.
  intros Ha Hab Hb m. assert (Hm : zlen m = b - a).
  { unfold m, zlen in *. rewrite length_take, length_drop. lia. }
  rewrite (ones_in_shift m d 0 _ (8 * a)).
  - f_equal; lia.
  - intros i Hi. pose proof (Z.div_mod i 8). pose proof (Z.mod_pos_bound i 8).
    destruct (byte_in m i) as [byte Hbyte]; [lia|]. rewrite (bitat_byte _ _ _ Hbyte).
    apply get_opt_Some in Hbyte as Hr.
    assert ((8 * a + i) / 8 = a + i / 8) as E by (rewrite Z.add_comm, Z.mul_comm, Z.div_add; lia).
    rewrite (bitat_byte d (8 * a + i) byte).
    + f_equal. by rewrite Z.add_comm, Z.mul_comm, Z.mod_add by lia.
    + rewrite E, <- Hbyte. symmetry. apply get_opt_sub; lia.
Qed.

Lemma slice_count_ones_ok b s n : Forall u8_ok (data b) -> 8 * zlen (data b) <= U64_MAX ->
  0 <= s -> 0 <= n -> s + n <= 8 * zlen (data b) ->
  slice_count_ones (slice b s n) = Ok (ones_in (data b) s (s + n)).
Proof.
  intros Hd Hmax Hs Hn Hsn. unfold slice_count_ones. simpl.
  destruct (Z.eqb_spec n 0) as [->|Hn0]; [by rewrite ones_in_nil by lia|].
  unwrap. remember (s + n - 1) as last eqn:Hlast.
  pose proof (Z.div_mod s 8). pose proof (Z.mod_pos_bound s 8).
  pose proof (Z.div_mod last 8). pose proof (Z.mod_pos_bound last 8).
  destruct (byte_in (data b) s) as [b0 Hb0]; [lia|].
  destruct (byte_in (data b) last) as [b1 Hb1]; [lia|].
  destruct (Z.eqb_spec (s / 8) (last / 8)) as [E|E].
  - rewrite (idx_ok _ _ _ Hb0). simpl. f_equal. rewrite (count_bits_spec _ _ _ _ _ Hb0) by lia.
    f_equal; lia.
  - apply get_opt_Some in Hb1 as Hr.
    rewrite (idx_ok _ _ _ Hb0), (idx_ok _ _ _ Hb1). simpl. unfold idx_range.
    rewrite (proj2 (Z.leb_le 0 _)), (proj2 (Z.leb_le _ (last / 8))), (proj2 (Z.leb_le _ (zlen _)))
      by lia. simpl. f_equal.
    rewrite (count_bits_spec _ _ _ _ _ Hb0), (count_bits_spec _ _ _ _ _ Hb1) by lia.
    rewrite count_ones_bytes_spec.
    + rewrite ones_in_sub by lia.
      replace (8 * (s / 8) + s mod 8) with s by lia. replace (8 * (last / 8) + (last mod 8 + 1)) with (s + n) by lia.
      rewrite (ones_in_app _ s (8 * (s / 8) + 8) (s + n)) by lia.
      rewrite (ones_in_app _ (8 * (s / 8) + 8) (8 * (last / 8)) (s + n)) by lia.
      replace (8 * (s / 8 + 1)) with (8 * (s / 8) + 8) by lia.
      replace (8 * (last / 8) + 0) with (8 * (last / 8)) by lia.
      pose proof (ones_in_bound (data b) s (8 * (s / 8) + 8)).
      pose proof (ones_in_bound (data b) (8 * (s / 8) + 8) (8 * (last / 8))).
      pose proof (ones_in_bound (data b) (8 * (last / 8)) (s + n)).
      unwrap. lia.
    + by apply Forall_take, Forall_drop.
    + unfold zlen in *. rewrite length_take, length_drop. lia.
Qed.

(** ** Updates *)

Lemma bitat_eq d i :
  bitat d i = match get_opt d (i / 8) with Some b => Z.testbit b (i mod 8) | None => false end.
Proof.
  destruct (get_opt d (i / 8)) as [b|] eqn:E; [by apply bitat_byte|].
  apply get_opt_None in E. apply bitat_out.
  pose proof (Z.div_mod i 8). pose proof (Z.mod_pos_bound i 8). lia.
Qed.

(** [update d k f]: byte [k] replaced by [f] of itself. *)
Lemma mask_update d k (f : Z -> Z) : Forall u8_ok d -> 0 <= k < zlen d -> (forall b, u8_ok b -> u8_ok (f b)) ->
  exists d', (b ← idx d k; idx_set d k (f b)) = Ok d' /\ zlen d' = zlen d /\ Forall u8_ok d' /\
    forall i, bitat d' i =
      if i / 8 =? k then match get_opt d k with Some b => Z.testbit (f b) (i mod 8) | None => false end
      else bitat d i.
Proof.
  intros Hd Hk Hf. destruct (get_opt_lt d k Hk) as [b Hb]. rewrite (idx_ok _ _ _ Hb). simpl.
  rewrite idx_set_ok by done. eexists. split; [done|]. rewrite zlen_insert. split; [done|]. split.
  - apply Forall_insert; [done|]. by apply Hf, (Forall_get_opt _ _ _ _ Hd Hb).
  - intros i. rewrite !bitat_eq, get_opt_insert, Hb by done. by destruct (i / 8 =? k).
Qed.

Lemma bit_of_byte i j : i / 8 = j / 8 -> (i mod 8 =? j mod 8) = (i =? j).
Proof.
  intros. pose proof (Z.div_mod i 8). pose proof (Z.div_mod j 8).
  destruct (Z.eqb_spec (i mod 8) (j mod 8)), (Z.eqb_spec i j); try done; lia || congruence.
Qed.

Lemma byte_bound d i : 0 <= i < 8 * zlen d -> 0 <= i / 8 < zlen (A:=Z) d.
Proof. intros. destruct (byte_in d i) as [b Hb]; [done|]. by apply get_opt_Some in Hb. Qed.

Lemma set_bits b i : Forall u8_ok (data b) -> 0 <= i < 8 * zlen (data b) ->
  exists d', set b i = Ok (mkBitmap d' (len b)) /\ zlen d' = zlen (data b) /\ Forall u8_ok d' /\
    forall j, bitat d' j = (j =? i) || bitat (data b) j.
Proof.
  intros Hd Hi. pose proof (byte_bound _ _ Hi) as Hk. pose proof (Z.mod_pos_bound i 8).
  destruct (mask_update (data b) (i / 8) (fun x => Z.lor x (Z.shiftl 1 (i mod 8)))) as (d' & E & Hl & Hu & Hbit);
    [done..| |].
  { intros x Hx. apply u8_ok_lor; [done|]. apply u8_ok_pow2. lia. }
  exists d'. split; [|split; [done|split; [done|]]].
  - unfold set. destruct (get_opt_lt _ _ Hk) as [x Hx]. rewrite (idx_ok _ _ _ Hx) in *. simpl in *. by rewrite E.
  - intros j. rewrite Hbit. destruct (get_opt_lt _ _ Hk) as [x Hx]. pose proof (Z.mod_pos_bound j 8).
    destruct (Z.eqb_spec (j / 8) (i / 8)) as [Ej|Ej].
    + rewrite Hx, Z.lor_spec, Z.shiftl_1_l, Z.pow2_bits_eqb, Z.eqb_sym, (bit_of_byte _ _ Ej) by lia.
      rewrite (bitat_byte _ j x) by (by rewrite Ej). apply orb_comm.
    + destruct (Z.eqb_spec j i); [congruence|done].
Qed.

Lemma clear_bits b i : Forall u8_ok (data b) -> 0 <= i < 8 * zlen (data b) ->
  exists d', clear b i = Ok (mkBitmap d' (len b)) /\ zlen d' = zlen (data b) /\ Forall u8_ok d' /\
    forall j, bitat d' j = negb (j =? i) && bitat (data b) j.
Proof.
  intros Hd Hi. pose proof (byte_bound _ _ Hi) as Hk. pose proof (Z.mod_pos_bound i 8).
  destruct (mask_update (data b) (i / 8) (fun x => Z.land x (not8 (Z.shiftl 1 (i mod 8))))) as (d' & E & Hl & Hu & Hbit);
    [done..| |].
  { intros x Hx. apply u8_ok_land; [done|]. apply u8_ok_not8, u8_ok_pow2. lia. }
  exists d'. split; [|split; [done|split; [done|]]].
  - unfold clear. destruct (get_opt_lt _ _ Hk) as [x Hx]. rewrite (idx_ok _ _ _ Hx) in *. simpl in *. by rewrite E.
  - intros j. rewrite Hbit. destruct (get_opt_lt _ _ Hk) as [x Hx]. pose proof (Z.mod_pos_bound j 8).
    destruct (Z.eqb_spec (j / 8) (i / 8)) as [Ej|Ej].
    + rewrite Hx, Z.land_spec, testbit_not8, Z.shiftl_1_l, Z.pow2_bits_eqb, Z.eqb_sym, (bit_of_byte _ _ Ej) by lia.
      rewrite (bitat_byte _ j x) by (by rewrite Ej). apply andb_comm.
    + destruct (Z.eqb_spec j i); [congruence|done].
Qed.

Lemma head_mask s n : 0 <= s -> 0 <= n < 8 -> Z.testbit (wrap8 (Z.shiftl 255 s)) n = (s <=? n).
Proof.
  intros Hs Hn. unfold wrap8. change 256 with (2 ^ 8). rewrite Z.mod_pow2_bits_low by lia.
  rewrite Z.shiftl_spec by lia. destruct (Z.leb_spec s n).
  - rewrite testbit_255 by lia. apply Z.ltb_lt. lia.
  - apply Z.testbit_neg_r. lia.
Qed.

Lemma tail_mask e n : 0 <= e < 8 -> 0 <= n < 8 -> Z.testbit (wrap8 (Z.shiftr 255 (7 - e))) n = (n <=? e).
Proof.
  intros He Hn. unfold wrap8. change 256 with (2 ^ 8). rewrite Z.mod_pow2_bits_low by lia.
  rewrite Z.shiftr_spec, testbit_255 by lia. destruct (Z.leb_spec n e), (Z.ltb_spec (n + (7 - e)) 8); done || lia.
Qed.

Lemma wrap8_u8 x : u8_ok (wrap8 x).
Proof. unfold u8_ok, wrap8. pose proof (Z.mod_pos_bound x 256). lia. Qed.

Lemma mask_byte_bits d k m : Forall u8_ok d -> 0 <= k < zlen d -> u8_ok m ->
  exists d', mask_byte d k m = Ok d' /\ zlen d' = zlen d /\ Forall u8_ok d' /\
    forall i, bitat d' i = negb ((i / 8 =? k) && Z.testbit m (i mod 8)) && bitat d i.
Proof.
  intros Hd Hk Hm. destruct (mask_update d k (fun b => Z.land b (not8 m))) as (d' & E & Hl & Hu & Hbit); [done..| |].
  { intros x Hx. apply u8_ok_land; [done|]. by apply u8_ok_not8. }
  exists d'. split; [done|]. split; [done|]. split; [done|]. intros i. rewrite Hbit.
  destruct (Z.eqb_spec (i / 8) k) as [Ei|]; [|done]. simpl.
  destruct (get_opt_lt _ _ Hk) as [x Hx]. pose proof (Z.mod_pos_bound i 8).
  rewrite Hx, Z.land_spec, testbit_not8 by lia. rewrite (bitat_byte _ i x) by (by rewrite Ei). apply andb_comm.
Qed.

Lemma fill_zero_bits d a b : Forall u8_ok d -> 0 <= a <= b -> b <= zlen d ->
  exists d', fill_zero d a b = Ok d' /\ zlen d' = zlen d /\ Forall u8_ok d' /\
    forall i, bitat d' i = negb ((a <=? i / 8) && (i / 8 <? b)) && bitat d i.
Proof.
  intros Hd Hab Hb. unfold fill_zero.
  rewrite (proj2 (Z.leb_le 0 a)), (proj2 (Z.leb_le a b)), (proj2 (Z.leb_le b _)) by lia. simpl.
  eexists. split; [done|]. unfold ztake, zskip.
  assert (Hta : zlen (take (Z.to_nat a) d) = a) by (unfold zlen in *; rewrite length_take; lia).
  assert (Hrep : zlen (replicate (Z.to_nat (b - a)) 0) = b - a) by (unfold zlen; rewrite length_replicate; lia).
  split; [unfold zlen in *; rewrite !length_app, length_take, length_replicate, length_drop; lia|].
  split; [apply Forall_app; split; [by apply Forall_take|]; apply Forall_app; split;
    [apply Forall_replicate; unfold u8_ok; lia|by apply Forall_drop]|].
  intros i. rewrite !bitat_eq. rewrite !get_opt_app, Hta, Hrep.
  destruct (Z.ltb_spec (i / 8) a); destruct (Z.leb_spec a (i / 8)); try lia; simpl.
  - f_equal. unfold get_opt. destruct (0 <=? i / 8) eqn:E; [|done].
    apply Z.leb_le in E. by rewrite lookup_take_lt by lia.
  - destruct (Z.ltb_spec (i / 8 - a) (b - a)); destruct (Z.ltb_spec (i / 8) b); try lia; simpl.
    + destruct (get_opt _ (i / 8 - a)) as [x|] eqn:E; [|done].
      unfold get_opt in E. destruct (0 <=? i / 8 - a); [|done].
      apply lookup_replicate in E as [-> _]. apply Z.bits_0.
    + unfold get_opt. rewrite (proj2 (Z.leb_le 0 (i / 8 - a - (b - a)))), (proj2 (Z.leb_le 0 (i / 8))) by lia.
      rewrite lookup_drop. by replace (Z.to_nat b + Z.to_nat (i / 8 - a - (b - a)))%nat with (Z.to_nat (i / 8)) by lia.
Qed.

Lemma clear_range_bits b r : Forall u8_ok (data b) -> 0 <= start r -> end_ r <= 8 * zlen (data b) ->
  exists d', clear_range b r = Ok (mkBitmap d' (len b)) /\ zlen d' = zlen (data b) /\ Forall u8_ok d' /\
    forall j, bitat d' j = negb (range_contains r j) && bitat (data b) j.
Proof.
  intros Hd Hs He. destruct r as [s e]. simpl in *. unfold clear_range, range_is_empty, range_contains. simpl.
  destruct (Z.ltb_spec s e) as [Hse|Hse]; simpl.
  2:{ destruct b as [d n]. exists d. simpl. do 3 (split; [done|]). intros j.
      destruct (Z.leb_spec s j), (Z.ltb_spec j e); try done. lia. }
  assert (0 <= s / 8 < zlen (data b)) by (apply byte_bound; lia).
  assert (0 <= (e - 1) / 8 < zlen (data b)) by (apply byte_bound; lia).
  pose proof (Z.div_mod s 8). pose proof (Z.mod_pos_bound s 8).
  pose proof (Z.div_mod (e - 1) 8). pose proof (Z.mod_pos_bound (e - 1) 8).
  destruct (Z.eqb_spec (s / 8) ((e - 1) / 8)) as [E|E].
  - destruct (mask_byte_bits (data b) (s / 8) (Z.land (wrap8 (Z.shiftl 255 (s mod 8)))
      (wrap8 (Z.shiftr 255 (7 - (e - 1) mod 8))))) as (d' & -> & Hl & Hu & Hbit);
      [done..|apply u8_ok_land; [apply wrap8_u8|apply wrap8_u8]|].
    exists d'. do 3 (split; [done|]). intros j. rewrite Hbit. do 2 f_equal.
    pose proof (Z.div_mod j 8). pose proof (Z.mod_pos_bound j 8).
    rewrite Z.land_spec, head_mask, tail_mask by lia.
    destruct (Z.eqb_spec (j / 8) (s / 8)), (Z.leb_spec (s mod 8) (j mod 8)),
      (Z.leb_spec (j mod 8) ((e - 1) mod 8)), (Z.leb_spec s j), (Z.ltb_spec j e); simpl; done || lia.
  - destruct (mask_byte_bits (data b) (s / 8) (wrap8 (Z.shiftl 255 (s mod 8)))) as (d1 & -> & Hl1 & Hu1 & Hb1);
      [done..|apply wrap8_u8|]. simpl.
    destruct (fill_zero_bits d1 (s / 8 + 1) ((e - 1) / 8)) as (d2 & -> & Hl2 & Hu2 & Hb2); [done|lia..|]. simpl.
    destruct (mask_byte_bits d2 ((e - 1) / 8) (wrap8 (Z.shiftr 255 (7 - (e - 1) mod 8))))
      as (d3 & -> & Hl3 & Hu3 & Hb3); [done|lia|apply wrap8_u8|].
    exists d3. split; [done|]. split; [lia|]. split; [done|]. intros j. rewrite Hb3, Hb2, Hb1.
    pose proof (Z.div_mod j 8). pose proof (Z.mod_pos_bound j 8). rewrite head_mask, tail_mask by lia.
    rewrite !andb_assoc, <- !negb_orb. do 2 f_equal.
    destruct (Z.eqb_spec (j / 8) (s / 8)), (Z.eqb_spec (j / 8) ((e - 1) / 8)), (Z.leb_spec (s mod 8) (j mod 8)),
      (Z.leb_spec (j mod 8) ((e - 1) mod 8)), (Z.leb_spec (s / 8 + 1) (j / 8)), (Z.ltb_spec (j / 8) ((e - 1) / 8)),
      (Z.leb_spec s j), (Z.ltb_spec j e); simpl; done || lia.
Qed.

(** ** Well-formed bitmaps *)

Lemma wf_update b d : wf b -> zlen d = zlen (data b) -> Forall u8_ok d ->
  (forall i, len b <= i -> bitat d i = false) -> wf (mkBitmap d (len b)).
Proof. intros [H1 H2 H3 H4] Hl Hu Hp. constructor; simpl; [done..| |done]. by rewrite Hl, H3. Qed.

Lemma set_wf b i : wf b -> 0 <= i < len b ->
  exists b', set b i = Ok b' /\ wf b' /\ len b' = len b /\
    forall j, bitat (data b') j = (j =? i) || bitat (data b) j.
Proof.
  intros Hwf Hi. pose proof (wf_data_len b Hwf).
  destruct (set_bits b i (wf_bytes b Hwf)) as (d' & E & Hl & Hu & Hb); [lia|].
  eexists. split; [done|]. split; [|done]. apply wf_update; [done..|]. intros j Hj. rewrite Hb.
  rewrite (wf_padding b Hwf) by done. destruct (Z.eqb_spec j i); [lia|done].
Qed.

Lemma clear_wf b i : wf b -> 0 <= i < len b ->
  exists b', clear b i = Ok b' /\ wf b' /\ len b' = len b /\
    forall j, bitat (data b') j = negb (j =? i) && bitat (data b) j.
Proof.
  intros Hwf Hi. pose proof (wf_data_len b Hwf).
  destruct (clear_bits b i (wf_bytes b Hwf)) as (d' & E & Hl & Hu & Hb); [lia|].
  eexists. split; [done|]. split; [|done]. apply wf_update; [done..|]. intros j Hj. rewrite Hb.
  rewrite (wf_padding b Hwf) by done. apply andb_false_r.
Qed.

Lemma clear_range_wf b r : wf b -> 0 <= start r -> end_ r <= len b ->
  exists b', clear_range b r = Ok b' /\ wf b' /\ len b' = len b /\
    forall j, bitat (data b') j = negb (range_contains r j) && bitat (data b) j.
Proof.
  intros Hwf Hs He. pose proof (wf_data_len b Hwf).
  destruct (clear_range_bits b r (wf_bytes b Hwf)) as (d' & E & Hl & Hu & Hb); [lia..|].
  eexists. split; [done|]. split; [|done]. apply wf_update; [done..|]. intros j Hj. rewrite Hb.
  rewrite (wf_padding b Hwf) by done. apply andb_false_r.
Qed.

Lemma div_ceil_8 n : 0 <= n -> n <= 8 * div_ceil n 8 < n + 8 /\ 0 <= div_ceil n 8.
Proof.
  intros. unfold div_ceil. pose proof (Z.div_mod (n + 8 - 1) 8). pose proof (Z.mod_pos_bound (n + 8 - 1) 8). lia.
Qed.

Lemma new_empty_bits n i : bitat (data (new_empty n)) i = false.
Proof.
  rewrite bitat_eq. simpl. rewrite get_opt_replicate. case_match; [|done].
  case_match; simplify_eq. apply Z.bits_0.
Qed.

Lemma new_empty_wf n : 0 <= n <= U64_MAX - 8 -> wf (new_empty n).
Proof.
  intros Hn. constructor; simpl; [done|apply Forall_replicate; unfold u8_ok; lia| |].
  - apply zlen_replicate. pose proof (div_ceil_8 n). lia.
  - intros. apply new_empty_bits.
Qed.

Lemma clear_top_bits r : 0 < r < 8 ->
  foldl (fun b offset_from_end => Z.land b (not8 (Z.shiftl 1 (7 - offset_from_end)))) 255
    (range_list (0 ..< 8 - r)) = Z.ones r.
Proof.
  intros. assert (r = 1 \/ r = 2 \/ r = 3 \/ r = 4 \/ r = 5 \/ r = 6 \/ r = 7) as Hr by lia.
  destruct Hr as [->|[->|[->|[->|[->|[->| ->]]]]]]; reflexivity.
Qed.

Lemma bitat_replicate m i : bitat (replicate m 255) i = range_contains (0 ..< 8 * Z.of_nat m) i.
Proof.
  pose proof (Z.div_mod i 8). pose proof (Z.mod_pos_bound i 8).
  rewrite bitat_eq, get_opt_replicate. unfold range_contains. simpl.
  destruct (Z.leb_spec 0 (i / 8)), (Z.ltb_spec (i / 8) (Z.of_nat m)),
    (Z.leb_spec 0 i), (Z.ltb_spec i (8 * Z.of_nat m)); simpl; try lia; try done.
  rewrite testbit_255 by lia. apply Z.ltb_lt. lia.
Qed.

Lemma bitat_snoc d x i : u8_ok x ->
  bitat (d ++ [x]) i = if i <? 8 * zlen d then bitat d i else Z.testbit x (i - 8 * zlen d).
Proof.
  intros Hx. pose proof (Z.div_mod i 8). pose proof (Z.mod_pos_bound i 8).
  rewrite !bitat_eq, get_opt_app, get_opt_cons.
  destruct (Z.ltb_spec (i / 8) (zlen d)), (Z.ltb_spec i (8 * zlen d)); try lia; [done|].
  destruct (Z.eqb_spec (i / 8 - zlen d) 0).
  - f_equal. lia.
  - rewrite (proj1 (u8_ok_bits x (proj1 Hx)) Hx) by lia. unfold get_opt.
    by destruct (0 <=? i / 8 - zlen d - 1).
Qed.

Lemma u8_ok_ones r : 0 <= r < 8 -> u8_ok (Z.ones r).
Proof.
  intros. rewrite Z.ones_equiv. pose proof (Z.pow_le_mono_r 2 r 7). pose proof (Z.pow_pos_nonneg 2 r).
  unfold u8_ok. lia.
Qed.

Lemma wf_prefix d n : 0 <= n <= U64_MAX - 8 -> Forall u8_ok d -> zlen d = div_ceil n 8 ->
  (forall i, bitat d i = range_contains (0 ..< n) i) -> wf (mkBitmap d n).
Proof.
  intros Hn Hu Hl Hb. constructor; simpl; [done..|]. intros i Hi. rewrite Hb.
  unfold range_contains. simpl. destruct (Z.ltb_spec i n); [lia|apply andb_false_r].
Qed.

Lemma new_full_wf n : 0 <= n <= U64_MAX - 8 ->
  exists b, new_full n = Ok b /\ wf b /\ len b = n /\ forall i, bitat (data b) i = range_contains (0 ..< n) i.
Proof.
  intros Hn. destruct (div_ceil_8 n) as [Hc Hc0]; [lia|].
  pose proof (Z.div_mod n 8). pose proof (Z.mod_pos_bound n 8). unfold new_full.
  assert (H255 : forall k, Forall u8_ok (replicate k 255)) by (intros; apply Forall_replicate; unfold u8_ok; lia).
  remember (Z.to_nat (div_ceil n 8)) as m eqn:Em.
  destruct (Z.eqb_spec (n mod 8) 0) as [E|E]; simpl.
  - assert (Hbit : forall i, bitat (replicate m 255) i = range_contains (0 ..< n) i).
    { intros i. rewrite bitat_replicate. do 2 f_equal. lia. }
    eexists. split; [done|]. split; [|done]. apply wf_prefix; [done..| |done]. subst. by apply zlen_replicate.
  - destruct m as [|m']; [lia|].
    replace (S m') with (m' + 1)%nat by lia. rewrite replicate_add. simpl. rewrite list.last_snoc. simpl.
    rewrite clear_top_bits by lia. rewrite length_app, length_replicate. simpl.
    rewrite insert_app_r_alt by (rewrite length_replicate; lia). rewrite length_replicate.
    replace (Nat.pred (m' + 1) - m')%nat with 0%nat by lia. simpl.
    assert (Hbit : forall i, bitat (replicate m' 255 ++ [Z.ones (n mod 8)]) i = range_contains (0 ..< n) i).
    { intros i. rewrite bitat_snoc, bitat_replicate by (apply u8_ok_ones; lia). unfold zlen, range_contains. simpl.
      rewrite length_replicate. destruct (Z.ltb_spec i (8 * Z.of_nat m')).
      - rewrite (proj2 (Z.ltb_lt i n)) by lia. done.
      - rewrite Z.testbit_ones_nonneg by lia.
        destruct (Z.ltb_spec (i - 8 * Z.of_nat m') (n mod 8)), (Z.leb_spec 0 i), (Z.ltb_spec i n); done || lia. }
    eexists. split; [done|]. split; [|done]. apply wf_prefix; [done| | |done].
    + apply Forall_app. split; [done|]. constructor; [apply u8_ok_ones; lia|done].
    + rewrite zlen_app, zlen_cons, zlen_nil. unfold zlen. rewrite length_replicate. lia.
Qed.

Lemma set_positions_wf b l : wf b -> Forall (fun p => 0 <= fst p < len b) l ->
  exists b', set_positions b l = Ok b' /\ wf b' /\ len b' = len b /\
    forall j, bitat (data b') j = existsb (fun p => snd p && (j =? fst p)) l || bitat (data b) j.
Proof.
  intros Hwf Hl. revert b Hwf Hl. induction l as [|[i x] l IH]; intros b Hwf Hl; simpl.
  - exists b. done.
  - apply Forall_cons in Hl as [Hi Hl]. simpl in Hi. destruct x; simpl.
    + destruct (set_wf b i Hwf Hi) as (b1 & -> & Hwf1 & Hl1 & Hb1). simpl.
      destruct (IH b1) as (b2 & -> & Hwf2 & Hl2 & Hb2); [done|by rewrite Hl1|].
      exists b2. do 2 (split; [done|]). split; [congruence|]. intros j. rewrite Hb2, Hb1.
      rewrite orb_assoc. f_equal. apply orb_comm.
    + apply IH; done.
Qed.

(** [Bitmap::from(slice)] holds the bits of the slice. *)
Lemma from_bools_wf l : zlen l <= U64_MAX - 8 ->
  exists b, from_bools l = Ok b /\ wf b /\ len b = zlen l /\ forall i, bitat (data b) i = default false (get_opt l i).
Proof.
  intros Hl. unfold from_bools. pose proof (zlen_nonneg l).
  destruct (set_positions_wf (new_empty (zlen l)) (enumerate l)) as (b & E & Hwf & Hlen & Hb).
  - by apply new_empty_wf.
  - apply Forall_forall. intros [i x] Hx%enumerate_lookup%get_opt_Some. done.
  - exists b. do 3 (split; [done|]). intros i. rewrite Hb, new_empty_bits, orb_false_r.
    destruct (get_opt l i) as [x|] eqn:Ex; simpl.
    + apply enumerate_lookup in Ex as Hin. destruct x.
      * apply existsb_exists. exists (i, true). split; [by apply list_elem_of_In|]. simpl. apply Z.eqb_refl.
      * apply not_true_is_false. intros ([k y] & Hk & Hy)%existsb_exists. simpl in Hy.
        apply list_elem_of_In, enumerate_lookup in Hk.
        apply andb_prop in Hy as [-> ->%Z.eqb_eq]. congruence.
    + apply not_true_is_false. intros ([k y] & Hk & Hy)%existsb_exists. simpl in Hy.
      apply list_elem_of_In, enumerate_lookup in Hk. apply andb_prop in Hy as [-> ->%Z.eqb_eq]. congruence.
Qed.

(** Copying a slice of a bitmap. *)
Lemma from_slice_wf b s n : wf b -> 0 <= s -> 0 <= n -> s + n <= len b ->
  exists b', from_slice (slice b s n) = Ok b' /\ wf b' /\ len b' = n /\
    forall i, bitat (data b') i = range_contains (0 ..< n) i && bitat (data b) (s + i).
Proof.
  intros Hwf Hs Hn Hsn. pose proof (wf_data_len b Hwf). pose proof (wf_len b Hwf).
  assert (Hloop : forall k, 0 <= k <= n ->
    exists b', fold_res (fun b' i => x ← get b (s +w i); if x : bool then set b' i else Ok b')
        (new_empty n) (range_list (0 ..< k)) = Ok b' /\ wf b' /\ len b' = n /\
      forall i, bitat (data b') i = range_contains (0 ..< k) i && bitat (data b) (s + i)).
  { intros k Hk. destruct Hk as [Hk0 Hk]. revert Hk. pattern k. apply natlike_ind; [| |done].
    - intros _. exists (new_empty n). split; [done|]. split; [apply new_empty_wf; lia|]. split; [done|].
      intros i. rewrite new_empty_bits. unfold range_contains. simpl. destruct (Z.leb_spec 0 i), (Z.ltb_spec i 0); done || lia.
    - intros j Hj IH Hjn. destruct IH as (b1 & E1 & Hwf1 & Hl1 & Hb1); [lia|].
      rewrite <- Z.add_1_r, range_list_snoc by lia.
      rewrite fold_res_app, E1. simpl. unwrap. rewrite get_wf by (done || lia). simpl.
      assert (Hstep : forall i, range_contains (0 ..< j + 1) i = (i =? j) || range_contains (0 ..< j) i).
      { intros i. unfold range_contains. simpl. destruct (Z.leb_spec 0 i), (Z.ltb_spec i (j + 1)), (Z.ltb_spec i j),
          (Z.eqb_spec i j); done || lia. }
      destruct (bitat (data b) (s + j)) eqn:Ebit.
      + destruct (set_wf b1 j Hwf1) as (b2 & -> & Hwf2 & Hl2 & Hb2); [lia|].
        exists b2. do 2 (split; [done|]). split; [lia|]. intros i. rewrite Hb2, Hb1, Hstep.
        destruct (Z.eqb_spec i j) as [->|]; [by rewrite Ebit|done].
      + exists b1. do 3 (split; [done|]). intros i. rewrite Hb1, Hstep.
        destruct (Z.eqb_spec i j) as [->|]; [by rewrite Ebit, !andb_false_r|done]. }
  apply (Hloop n). lia.
Qed.

(** ** Set positions *)

(** The set positions of [a..b]. *)
Definition setpos (d : list Z) (a b : Z) : list Z := List.filter (bitat d) (range_list (a ..< b)).

Lemma setpos_app d a b c : a <= b -> b <= c -> setpos d a c = setpos d a b ++ setpos d b c.
Proof. intros. unfold setpos. by rewrite (range_list_app a b c), List.filter_app by done. Qed.

Lemma setpos_nil d a b : b <= a -> setpos d a b = [].
Proof. intros. unfold setpos. by rewrite range_list_nil by done. Qed.

Lemma zlen_setpos d a b : zlen (setpos d a b) = ones_in d a b.
Proof. reflexivity. Qed.

Lemma filter_map_comm {A B} (f : B -> bool) (g : A -> B) l :
  List.filter f (map g l) = map g (List.filter (fun x => f (g x)) l).
Proof. induction l as [|x l IH]; simpl; [done|]. destruct (f (g x)); simpl; by rewrite IH. Qed.

Lemma setpos_byte d k byte : get_opt d k = Some byte ->
  setpos d (8 * k) (8 * k + 8) = map (Z.add (8 * k)) (byte_ones byte).
Proof.
  intros Hk. unfold setpos, byte_ones, range_list. cbn [start end_]. replace (8 * k + 8 - 8 * k) with 8 by lia.
  replace (seqZ (8 * k) 8) with (map (Z.add (8 * k)) (seqZ 0 8)) by (rewrite <- (Z.add_0_r (8 * k)) at 2; apply fmap_add_seqZ).
  rewrite filter_map_comm. f_equal. apply filter_ext_Forall, Forall_forall. intros i Hi%elem_of_seqZ.
  assert ((8 * k + i) / 8 = k) as E by (rewrite Z.add_comm, Z.mul_comm, Z.div_add, Z.div_small; lia).
  rewrite (bitat_byte _ _ byte) by (by rewrite E). f_equal. rewrite Z.add_comm, Z.mul_comm, Z.mod_add, Z.mod_small; lia.
Qed.

(** ** Properties *)

(** Clearing a range of positions of a well-formed bitmap never panics,
    keeps it well formed, clears exactly the positions of the range (whole
    bytes, head and tail masks included) and leaves every other bit. *)
Theorem bitmap_clear_range b r : wf b -> 0 <= start r -> end_ r <= len b ->
  exists b', clear_range b r = Ok b' /\ wf b' /\ len b' = len b /\
    forall j, 0 <= j < len b -> get b' j = Ok (negb (range_contains r j) && bitat (data b) j).
Proof.
  intros Hwf Hs He. destruct (clear_range_wf b r Hwf Hs He) as (b' & E & Hwf' & Hl & Hb).
  exists b'. do 3 (split; [done|]). intros j Hj. rewrite get_wf by (done || lia). by rewrite Hb.
Qed.

Lemma new_full_20 : exists b, new_full 20 = Ok b /\ wf b /\ len b = 20.
Proof. destruct (new_full_wf 20) as (b & ? & ? & ? & _); [lia|]. eauto. Qed.

Lemma bitmap_clear_range_witness : exists b b', new_full 20 = Ok b /\ clear_range b (3 ..< 17) = Ok b' /\
  get b' 2 = Ok true /\ get b' 9 = Ok false /\ get b' 17 = Ok true.
Proof.
  destruct new_full_20 as (b & E & Hwf & Hl).
  destruct (bitmap_clear_range b (3 ..< 17) Hwf) as (b' & Eb & _ & _ & Hg); [simpl; lia..|].
  exists b, b'. split; [done|]. split; [done|]. vm_compute in E. injection E as <-.
  rewrite !Hg by (simpl; lia). vm_compute. done.
Defined.

(** Counting the set bits of a slice byte-wise, with partial first and last
    bytes and a word-wise middle, gives the number of set positions in the
    slice, and never panics for a slice inside the bitmap. *)
Theorem bitmap_slice_count b s n : wf b -> 0 <= s -> 0 <= n -> s + n <= len b ->
  slice_count_ones (slice b s n) = Ok (ones_in (data b) s (s + n)) /\
  slice_count_zeros (slice b s n) = Ok (n - ones_in (data b) s (s + n)).
Proof.
  intros Hwf Hs Hn Hsn. pose proof (wf_data_len b Hwf). pose proof (wf_len b Hwf).
  pose proof (ones_in_bound (data b) s (s + n)).
  assert (E : slice_count_ones (slice b s n) = Ok (ones_in (data b) s (s + n))).
  { apply slice_count_ones_ok; [apply Hwf|lia..]. }
  split; [done|]. unfold slice_count_zeros. rewrite E. simpl. by unwrap.
Qed.

Lemma bitmap_slice_count_witness : exists b, new_full 20 = Ok b /\ slice_count_ones (slice b 3 15) = Ok 15.
Proof.
  destruct new_full_20 as (b & E & Hwf & Hl). exists b. split; [done|].
  destruct (bitmap_slice_count b 3 15 Hwf) as [-> _]; [lia..|].
  vm_compute in E. injection E as <-. vm_compute. done.
Defined.
