(* ===== verification/EncodedArray.v ===== *)
(** * Encoded arrays of [u64] values

    [lance-table/src/rowids/encoded_array.rs]: a vector of [u64] stored as
    16-bit or 32-bit offsets from a base, or plainly.  The specification of an
    array is its list of values [elems]; every operation is related to it. *)

From Stdlib Require Import ZArith Lia.
From stdpp Require Import base option list numbers sorting sets gmap.
From S2P Require Import Prelude Lists.

(** ** Model *)

Inductive EncodedU64Array :=
| U16 (base : Z) (offsets : list Z)
| U32 (base : Z) (offsets : list Z)
| U64 (values : list Z).

#[global] Instance EncodedU64Array_eq_dec : EqDecision EncodedU64Array.
Proof. solve_decision. Defined.

Definition len (a : EncodedU64Array) : Z :=
  match a with U16 _ offsets | U32 _ offsets => zlen offsets | U64 values => zlen values end.

Definition iter (a : EncodedU64Array) : list Z :=
  match a with
  | U16 base offsets | U32 base offsets => map (fun o => base +w o) offsets
  | U64 values => values
  end.

Definition get (a : EncodedU64Array) (i : Z) : res (option Z) :=
  match a with
  | U16 base offsets | U32 base offsets =>
      if i <? zlen offsets then o ← idx offsets i; Ok (Some (base +w o)) else Ok None
  | U64 values => Ok (get_opt values i)
  end.

Definition min (a : EncodedU64Array) : option Z :=
  match a with
  | U16 base offsets | U32 base offsets => match offsets with [] => None | _ => Some base end
  | U64 values => iter_min values
  end.

Definition max (a : EncodedU64Array) : option Z :=
  match a with
  | U16 base offsets | U32 base offsets => m ← iter_max offsets; Some (base +w m)
  | U64 values => iter_max values
  end.

Definition first (a : EncodedU64Array) : option Z :=
  match a with
  | U16 base offsets | U32 base offsets => o ← head offsets; Some (base +w o)
  | U64 values => head values
  end.

Definition last (a : EncodedU64Array) : option Z :=
  match a with
  | U16 base offsets | U32 base offsets => o ← list.last offsets; Some (base +w o)
  | U64 values => list.last values
  end.

(** [inl] is Rust's [Ok], [inr] its [Err]. *)
Definition binary_search (a : EncodedU64Array) (val : Z) : Z + Z :=
  match a with
  | U16 base offsets =>
      match checked_sub val base with
      | None => inr 0
      | Some v => if v >? U16_MAX then inr (zlen offsets) else Lists.binary_search offsets (wrap16 v)
      end
  | U32 base offsets =>
      match checked_sub val base with
      | None => inr 0
      | Some v => if v >? U32_MAX then inr (zlen offsets) else Lists.binary_search offsets (wrap32 v)
      end
  | U64 values => Lists.binary_search values val
  end.

(** [impl From<Vec<u64>>] *)
Definition from_vec (values : list Z) : EncodedU64Array :=
  let min := default 0 (iter_min values) in
  let max := default 0 (iter_max values) in
  let range := max -w min in
  if zlen values =? 0 then U64 []
  else if range <=? U16_MAX then U16 min (map (fun v => wrap16 (v -w min)) values)
  else if range <=? U32_MAX then U32 min (map (fun v => wrap32 (v -w min)) values)
  else U64 values.

(** [impl From<Range<u64>>] *)
Definition from_range (r : Range) : EncodedU64Array :=
  let min := start r in
  let max := end_ r in
  let range := max -w min in
  if range <? U16_MAX then U16 min (range_list (0 ..< wrap16 range))
  else if range <? U32_MAX then U32 min (range_list (0 ..< wrap32 range))
  else U64 (range_list (min ..< max)).

(** [impl FromIterator<u64>] *)
Definition from_iter (values : list Z) : EncodedU64Array := from_vec values.

(** [impl IntoIterator] *)
Definition into_iter (a : EncodedU64Array) : list Z := iter a.

Definition slice (a : EncodedU64Array) (offset len : Z) : res EncodedU64Array :=
  match a with
  | U16 base offsets | U32 base offsets =>
      s ← idx_range offsets offset (offset +w len);
      Ok (from_iter (map (fun o => base +w o) s))
  | U64 values =>
      s ← idx_range values offset (offset +w len);
      Ok (U64 s)
  end.

(** ** Specification *)

Definition elems (a : EncodedU64Array) : list Z :=
  match a with
  | U16 base offsets | U32 base offsets => map (Z.add base) offsets
  | U64 values => values
  end.

(** The machine types hold: offsets are of the width of the variant and no
    value overflows. *)
Definition offset_max (a : EncodedU64Array) : Z :=
  match a with U16 _ _ => U16_MAX | U32 _ _ => U32_MAX | U64 _ => U64_MAX end.

Definition wf (a : EncodedU64Array) : Prop :=
  match a with
  | U16 base offsets => u64_ok base /\ Forall (fun o => u16_ok o /\ base + o <= U64_MAX) offsets
  | U32 base offsets => u64_ok base /\ Forall (fun o => u32_ok o /\ base + o <= U64_MAX) offsets
  | U64 values => Forall u64_ok values
  end /\ zlen (elems a) <= ISIZE_MAX.

(** The base of an offset encoding is one of its values. *)
Definition tight (a : EncodedU64Array) : Prop :=
  match a with
  | U16 base offsets | U32 base offsets => base ∈ elems a
  | U64 _ => True
  end.

(** ** Lemmas *)

Lemma add_map_wrap base l : 0 <= base -> Forall (fun o => 0 <= o /\ base + o <= U64_MAX) l ->
  map (fun o => base +w o) l = map (Z.add base) l.
Proof.
  intros Hb Hl. apply map_ext_in. intros o Ho%list_elem_of_In.
  rewrite Forall_forall in Hl. destruct (Hl o Ho). unwrap. done.
Qed.

(** Both offset encodings satisfy the same bounds. *)
Lemma wf_offsets a base offsets : wf a -> a = U16 base offsets \/ a = U32 base offsets ->
  u64_ok base /\ Forall (fun o => 0 <= o <= U32_MAX /\ base + o <= U64_MAX) offsets /\ zlen offsets <= ISIZE_MAX.
Proof.
  intros [H Hl] [-> | ->]; simpl in *; destruct H as [Hb Ho]; rewrite zlen_map in Hl; (split; [done|]);
    (split; [|done]); (eapply Forall_impl; [done|]); uok; simpl; lia.
Qed.

Lemma wf_offsets_le base offsets a : wf a -> a = U16 base offsets \/ a = U32 base offsets ->
  0 <= base /\ Forall (fun o => 0 <= o /\ base + o <= U64_MAX) offsets.
Proof.
  intros Hwf Ha. destruct (wf_offsets _ _ _ Hwf Ha) as (Hb & Ho & _). split; [by destruct Hb|].
  eapply Forall_impl; [done|]. simpl. lia.
Qed.

Lemma iter_elems a : wf a -> iter a = elems a.
Proof.
  intros Hwf. destruct a as [base o|base o|v]; simpl; [| |done];
    (destruct (wf_offsets_le base o _ Hwf) as [??]; [by auto|]); by apply add_map_wrap.
Qed.

Lemma len_elems a : len a = zlen (elems a).
Proof. destruct a; simpl; by rewrite ?zlen_map. Qed.

Lemma elems_ok a : wf a -> Forall u64_ok (elems a).
Proof.
  intros Hwf. destruct a as [base o|base o|v]; simpl; [| |by destruct Hwf];
    (destruct (wf_offsets_le base o _ Hwf) as [? Ho]; [by auto|]);
    (apply Forall_map, Forall_forall; intros x Hx; rewrite Forall_forall in Ho; destruct (Ho x Hx); uok; lia).
Qed.

Lemma get_elems a i : wf a -> 0 <= i -> get a i = Ok (get_opt (elems a) i).
Proof.
  intros Hwf Hi. destruct a as [base o|base o|v]; simpl; [| |done];
    (destruct (wf_offsets_le base o _ Hwf) as [? Ho]; [by auto|]);
    rewrite get_opt_map; (destruct (Z.ltb_spec i (zlen o));
      [|by rewrite (proj2 (get_opt_None o i)) by lia]);
    (destruct (get_opt_lt o i) as [x Hx]; [done|]);
    rewrite (idx_ok _ _ _ Hx), Hx; simpl;
    destruct (Forall_get_opt _ _ _ _ Ho Hx); by unwrap.
Qed.

Lemma head_map {A B} (f : A -> B) l : head (map f l) = f <$> head l.
Proof. by destruct l. Qed.

Lemma last_map {A B} (f : A -> B) l : list.last (map f l) = f <$> list.last l.
Proof. apply fmap_last. Qed.

Lemma first_elems a : wf a -> first a = head (elems a).
Proof.
  intros Hwf. destruct a as [base o|base o|v]; simpl; [| |done];
    (destruct (wf_offsets_le base o _ Hwf) as [? Ho]; [by auto|]);
    (destruct o as [|x o]; simpl; [done|]); apply Forall_cons in Ho as [[??] _]; by unwrap.
Qed.

Lemma last_elems a : wf a -> last a = list.last (elems a).
Proof.
  intros Hwf. destruct a as [base o|base o|v]; simpl; [| |done];
    (destruct (wf_offsets_le base o _ Hwf) as [? Ho]; [by auto|]);
    rewrite last_map; (destruct (list.last o) as [x|] eqn:E; simpl; [|done]);
    apply last_Some_elem_of in E; rewrite Forall_forall in Ho; destruct (Ho x E); by unwrap.
Qed.

Lemma foldl_max_map base l x :
  foldl Z.max (base + x) (map (Z.add base) l) = base + foldl Z.max x l.
Proof. revert x. induction l as [|y l IH]; intros x; simpl; [done|]. rewrite <- IH. f_equal. lia. Qed.

Lemma max_elems a : wf a -> max a = iter_max (elems a).
Proof.
  intros Hwf. destruct a as [base o|base o|v]; simpl; [| |done];
    (destruct (wf_offsets_le base o _ Hwf) as [? Ho]; [by auto|]);
    (destruct o as [|x o]; [done|]); simpl; rewrite foldl_max_map;
    destruct (foldl_max_spec x o) as (_ & _ & Hin); rewrite Forall_forall in Ho; destruct (Ho _ Hin);
    by unwrap.
Qed.

Lemma foldl_min_map base l x :
  foldl Z.min (base + x) (map (Z.add base) l) = base + foldl Z.min x l.
Proof. revert x. induction l as [|y l IH]; intros x; simpl; [done|]. rewrite <- IH. f_equal. lia. Qed.

(** [min] is the least value of an array whose base is one of its values. *)
Lemma min_elems a : wf a -> tight a \/ elems a = [] -> min a = iter_min (elems a).
Proof.
  intros Hwf Ht. destruct a as [base o|base o|v]; simpl in *; [| |done];
    (destruct (wf_offsets_le base o _ Hwf) as [? Ho]; [by auto|]);
    (destruct o as [|x o]; [done|]); destruct Ht as [Ht|]; try done; simpl;
    rewrite foldl_min_map; f_equal;
    destruct (foldl_min_spec x o) as (H1 & H2 & H3);
    (apply list_elem_of_fmap in Ht as (y & Hy & Hin));
    (assert (foldl Z.min x o <= y) by (apply elem_of_cons in Hin as [->|Hin]; [done|];
      rewrite Forall_forall in H2; by apply H2));
    rewrite Forall_forall in Ho; destruct (Ho _ H3); lia.
Qed.

(** [min] is a lower bound of any array, and [None] for an empty one. *)
Lemma min_lower a : wf a ->
  match min a with Some m => Forall (Z.le m) (elems a) /\ u64_ok m | None => elems a = [] end.
Proof.
  intros Hwf. pose proof (elems_ok a Hwf) as Hok. destruct a as [base o|base o|v]; simpl in *.
  3:{ destruct (iter_min v) as [m|] eqn:E; [|by destruct v].
      destruct (iter_min_spec _ _ E) as [Hin ?]. rewrite Forall_forall in Hok. auto. }
  all: destruct (wf_offsets _ base o Hwf) as (? & Ho & _); [by auto|]; (destruct o as [|x o]; [done|]);
    (split; [|done]); apply Forall_fmap; (eapply Forall_impl; [exact Ho|]); simpl; lia.
Qed.

(** Searching a strictly sorted list has one possible result. *)
Lemma search_unique l v r : ssorted l ->
  match r with inl i => get_opt l i = Some v
  | inr i => (v ∉ l) /\ i = zlen (List.filter (fun x => x <? v) l) end ->
  Lists.binary_search l v = r.
Proof.
  intros Hs Hr. destruct r as [i|i].
  - by apply binary_search_found.
  - destruct Hr as [Hn ->]. destruct (Lists.binary_search l v) as [j|j] eqn:E.
    + destruct Hn. apply binary_search_is_ok; [done|eauto].
    + f_equal. by apply binary_search_rank.
Qed.

Lemma ssorted_map_add base l : ssorted (map (Z.add base) l) <-> ssorted l.
Proof.
  unfold ssorted. induction l as [|x l IH]; simpl; [split; constructor|].
  split; intros [H1 H2]%StronglySorted_inv; constructor; try tauto.
  - apply (proj1 (Forall_fmap _ _ _)) in H2. eapply Forall_impl; [exact H2|]. simpl. lia.
  - apply Forall_fmap. eapply Forall_impl; [exact H2|]. simpl. lia.
Qed.

Lemma offsets_search base offsets v : ssorted offsets ->
  Lists.binary_search offsets v = Lists.binary_search (map (Z.add base) offsets) (base + v).
Proof.
  intros Hs. symmetry. apply search_unique; [by apply ssorted_map_add|].
  pose proof (binary_search_found offsets v) as Hf. pose proof (binary_search_is_ok offsets v Hs) as Hok.
  destruct (Lists.binary_search offsets v) as [i|i] eqn:E.
  - rewrite get_opt_map. by rewrite (proj1 (Hf i Hs)).
  - split.
    + intros (y & Hy & Hin)%list_elem_of_fmap. assert (y = v) as -> by lia. apply Hok in Hin as [j Hj]. done.
    + rewrite filter_map_length. rewrite (binary_search_rank _ _ _ Hs E). f_equal.
      apply filter_ext_Forall, Forall_forall. intros x _.
      destruct (Z.ltb_spec x v), (Z.ltb_spec (base + x) (base + v)); done || lia.
Qed.

(** Everything above (below) the target: the search fails at an end. *)
Lemma search_below l v : ssorted l -> Forall (Z.lt v) l -> Lists.binary_search l v = inr 0.
Proof.
  intros Hs Hl. apply search_unique; [done|]. split.
  - intros Hin. rewrite Forall_forall in Hl. specialize (Hl v Hin). lia.
  - rewrite filter_none; [done|]. eapply Forall_impl; [done|]. simpl. intros. apply Z.ltb_ge. lia.
Qed.

Lemma search_above l v : ssorted l -> Forall (fun x => x < v) l -> Lists.binary_search l v = inr (zlen l).
Proof.
  intros Hs Hl. apply search_unique; [done|]. split.
  - intros Hin. rewrite Forall_forall in Hl. specialize (Hl v Hin). lia.
  - rewrite filter_all; [done|]. eapply Forall_impl; [done|]. simpl. intros. by apply Z.ltb_lt.
Qed.

(** Searching the encoding is searching the values. *)
Lemma binary_search_elems a v : wf a -> ssorted (elems a) -> u64_ok v ->
  binary_search a v = Lists.binary_search (elems a) v.
Proof.
  intros Hwf Hs Hv. destruct a as [base o|base o|l]; simpl in *; [| |done];
    destruct Hwf as [[Hb Ho] _]; unfold checked_sub;
    (destruct (Z.leb_spec base v);
     [|symmetry; apply search_below; [done|]; apply Forall_fmap; eapply Forall_impl; [exact Ho|]; uok; simpl; lia]);
    match goal with |- context [?x >? ?y] => destruct (Z.gtb_spec x y) end.
  all: try (symmetry; rewrite <- (zlen_map (Z.add base)); apply search_above; [done|]; apply Forall_fmap;
    eapply Forall_impl; [exact Ho|]; uok; simpl; lia).
  all: unwrap; rewrite (offsets_search base) by (by apply ssorted_map_add in Hs); f_equal; lia.
Qed.

(** Encoding a vector loses nothing. *)
Lemma from_vec_wf values : Forall u64_ok values -> zlen values <= ISIZE_MAX ->
  wf (from_vec values) /\ elems (from_vec values) = values /\ (tight (from_vec values) \/ values = []).
Proof.
  intros Hv Hl. unfold from_vec. destruct values as [|x l]; [split; [|by auto]; split; [constructor|simpl; lia]|].
  destruct (foldl_min_spec x l) as (Hm1 & Hm2 & Hm3). destruct (foldl_max_spec x l) as (HM1 & HM2 & HM3).
  simpl iter_min. simpl iter_max. simpl default.
  set (mn := foldl Z.min x l) in *. set (mx := foldl Z.max x l) in *.
  assert (Hall : forall v, v ∈ x :: l -> mn <= v <= mx /\ u64_ok v).
  { intros v Hin. rewrite !Forall_forall in *. split; [|by apply Hv].
    apply elem_of_cons in Hin as [->|Hin]; [lia|]. split; auto. }
  destruct (Hall _ Hm3) as [Hmn Hmn']. destruct (Hall _ HM3) as [_ Hmx'].
  rewrite (wrap64_small (mx - mn)) by (uok; lia).
  destruct (Z.eqb_spec (zlen (x :: l)) 0) as [E|_]; [rewrite zlen_cons in E; pose proof (zlen_nonneg l); lia|].
  set (vs := x :: l) in *. clearbody vs mn mx.
  assert (Henc : forall w wm, (forall y, 0 <= y <= wm -> w y = y) -> mx - mn <= wm ->
     map (fun v => w (v -w mn)) vs = map (fun v => v - mn) vs).
  { intros w wm Hw Hr. apply map_ext_in. intros v Hin%list_elem_of_In. destruct (Hall v Hin) as [? ?].
    rewrite wrap64_small by (uok; lia). apply Hw. lia. }
  assert (Hdec : map (Z.add mn) (map (fun v => v - mn) vs) = vs).
  { rewrite map_map. rewrite <- (map_id vs) at 2. apply map_ext. intros; lia. }
  assert (Hoff : forall P : Z -> Prop, (forall v, v ∈ vs -> P (v - mn)) -> Forall P (map (fun v => v - mn) vs)).
  { intros P HP. apply Forall_fmap, Forall_forall. intros v Hin. simpl. auto. }
  destruct (Z.leb_spec (mx - mn) U16_MAX) as [Hr|Hr]; [|destruct (Z.leb_spec (mx - mn) U32_MAX) as [Hr'|Hr']].
  - rewrite (Henc wrap16 U16_MAX) by (done || (intros; by apply wrap16_small)). unfold wf. simpl. rewrite Hdec.
    split; [|split; [done|by left]]. split; [|done]. split; [done|].
    apply Hoff. intros v Hin. destruct (Hall v Hin). uok. lia.
  - rewrite (Henc wrap32 U32_MAX) by (done || (intros; by apply wrap32_small)). unfold wf. simpl. rewrite Hdec.
    split; [|split; [done|by left]]. split; [|done]. split; [done|].
    apply Hoff. intros v Hin. destruct (Hall v Hin). uok. lia.
  - split; [split; done|]. split; [done|by left].
Qed.

Lemma range_list_shift a n : map (Z.add a) (range_list (0 ..< n)) = range_list (a ..< a + n).
Proof.
  unfold range_list. simpl. rewrite Z.sub_0_r. replace (a + n - a) with n by lia.
  rewrite <- (Z.add_0_r a) at 2. apply fmap_add_seqZ.
Qed.

Lemma from_range_wf r : range_ok r -> end_ r - start r <= ISIZE_MAX -> wf (from_range r) /\ elems (from_range r) = range_list r.
Proof.
  intros (H0 & Hse & He) Hcap. destruct r as [s e]. simpl in *. unfold from_range. simpl. unwrap.
  assert (Hlen : zlen (range_list (s ..< e)) <= ISIZE_MAX) by (rewrite zlen_range_list by done; simpl; lia).
  assert (Hshift : map (Z.add s) (range_list (0 ..< e - s)) = range_list (s ..< e)).
  { rewrite range_list_shift. do 2 f_equal. lia. }
  destruct (Z.ltb_spec (e - s) U16_MAX); [|destruct (Z.ltb_spec (e - s) U32_MAX)]; unwrap; simpl;
    unfold wf; simpl; rewrite ?Hshift; (split; [|done]); (split; [|done]).
  - split; [uok; lia|]. apply Forall_forall. intros x Hx%elem_of_range_list. simpl in Hx. uok. lia.
  - split; [uok; lia|]. apply Forall_forall. intros x Hx%elem_of_range_list. simpl in Hx. uok. lia.
  - apply Forall_forall. intros x Hx%elem_of_range_list. simpl in Hx. uok. lia.
Qed.

Lemma idx_range_ok {A} (l : list A) a n : 0 <= a -> 0 <= n -> a + n <= zlen l ->
  idx_range l a (a + n) = Ok (ztake n (zskip a l)).
Proof.
  intros. unfold idx_range. rewrite !(proj2 (Z.leb_le _ _)) by lia. simpl. by replace (a + n - a) with n by lia.
Qed.

Lemma map_sub {A B} (f : A -> B) a n l : map f (ztake n (zskip a l)) = ztake n (zskip a (map f l)).
Proof. unfold ztake, zskip. by rewrite skipn_map, firstn_map. Qed.

Lemma Forall_sub {A} (P : A -> Prop) a n l : Forall P l -> Forall P (ztake n (zskip a l)).
Proof. intros. by apply Forall_take, Forall_drop. Qed.

Lemma zlen_sub_le {A} a n (l : list A) : zlen (ztake n (zskip a l)) <= zlen l.
Proof. unfold zlen, ztake, zskip. rewrite length_take, length_drop. lia. Qed.

Lemma slice_wf a offset n : wf a -> 0 <= offset -> 0 <= n -> offset + n <= len a ->
  exists a', slice a offset n = Ok a' /\ wf a' /\ elems a' = ztake n (zskip offset (elems a)).
Proof.
  intros Hwf Ho Hn Hlen. pose proof (elems_ok a Hwf) as Hok. pose proof (zlen_sub_le offset n (elems a)) as Hsub.
  assert (Hcap : zlen (elems a) <= ISIZE_MAX) by (by destruct Hwf).
  rewrite len_elems in Hlen.
  destruct a as [base o|base o|v]; simpl in *; rewrite ?zlen_map in *; unwrap; rewrite idx_range_ok by lia; simpl;
    eexists; (split; [done|]).
  3:{ split; [|done]. split; [by apply Forall_sub|simpl; lia]. }
  all: destruct (wf_offsets_le base o _ Hwf) as [? Hoff]; [by auto|];
    rewrite map_sub, add_map_wrap by done;
    destruct (from_vec_wf (ztake n (zskip offset (map (Z.add base) o)))) as (H1 & H2 & _);
    [by apply Forall_sub|lia|done].
Qed.

(** ** Properties *)

(** Encoding a vector of [u64] and reading it back is the identity, for
    each of the three encodings: iteration, length, indexing in and out of
    range, first, last, minimum and maximum are those of the vector. *)
Theorem encoded_roundtrip values : Forall u64_ok values -> zlen values <= ISIZE_MAX ->
  let a := from_vec values in
  iter a = values /\ len a = zlen values /\ (forall i, 0 <= i -> get a i = Ok (get_opt values i)) /\
  first a = head values /\ last a = list.last values /\
  min a = iter_min values /\ max a = iter_max values.
Proof.
  intros Hv Hl a. destruct (from_vec_wf values Hv Hl) as (Hwf & E & Ht). fold a in Hwf, E, Ht.
  rewrite iter_elems, len_elems, first_elems, last_elems, max_elems, E by done.
  do 2 (split; [done|]). split; [intros i Hi; by rewrite get_elems, E|]. do 2 (split; [done|]).
  split; [|done]. rewrite min_elems, E; [done|done|]. rewrite E. tauto.
Qed.

Lemma encoded_roundtrip_witness : iter (from_vec [70000; 5; 12]) = [70000; 5; 12].
Proof. apply (encoded_roundtrip [70000; 5; 12]); [repeat constructor; uok; lia|vm_compute; done]. Defined.

(** Binary search on the narrowed offsets of a strictly sorted array gives
    the same answer as binary search on its values, for every [u64] target,
    including targets below the base and above the reach of the offsets. *)
Theorem encoded_binary_search a v : wf a -> ssorted (elems a) -> u64_ok v ->
  binary_search a v = Lists.binary_search (elems a) v /\
  (forall i, binary_search a v = inl i <-> get a i = Ok (Some v) /\ 0 <= i) /\
  (forall i, binary_search a v = inr i -> (v ∉ elems a) /\ i = zlen (List.filter (fun x => x <? v) (elems a))).
Proof.
  intros Hwf Hs Hv. rewrite (binary_search_elems a v Hwf Hs Hv). split; [done|]. split.
  - intros i. rewrite binary_search_found by done. split.
    + intros Hi. apply get_opt_Some in Hi as Hr. rewrite get_elems by (done || lia). split; [by rewrite Hi|lia].
    + intros [Hg Hi]. rewrite get_elems in Hg by done. by injection Hg.
  - intros i Hi. split; [|by apply binary_search_rank].
    intros Hin. apply (binary_search_is_ok _ _ Hs) in Hin as [j Hj]. congruence.
Qed.

Lemma encoded_binary_search_witness : binary_search (U16 100 [0; 4; 9]) 104 = inl 1 /\
  binary_search (U16 100 [0; 4; 9]) 90000 = inr 3.
Proof.
  assert (Hwf : wf (U16 100 [0; 4; 9])).
  { split; [split; [uok; lia|repeat constructor; uok; lia]|vm_compute; done]. }
  assert (Hs : ssorted (elems (U16 100 [0; 4; 9]))) by (simpl; repeat constructor).
  destruct (encoded_binary_search _ 104 Hwf Hs) as [-> _]; [uok; lia|].
  destruct (encoded_binary_search _ 90000 Hwf Hs) as [-> _]; [uok; lia|]. split; reflexivity.
Defined.
