(* ===== verification/HoleRuns.v ===== *)
(** * Run-length encoded holes

    [lance-table/src/rowids/runs.rs]: the missing offsets of a range as maximal
    runs, with prefix counts of the present offsets.  The specification of a
    value is the list [present] of the offsets that no run covers, in order. *)

From Stdlib Require Import ZArith Lia.
From stdpp Require Import base option list numbers sorting sets gmap.
From S2P Require Import Prelude Lists Bits Bitmap.

(** ** Model *)

Record HoleRuns := mkHoleRuns { span : Z; starts : list Z; present_before : list Z }.

#[global] Instance HoleRuns_eq_dec : EqDecision HoleRuns.
Proof. solve_decision. Defined.

(** The loop of [try_new] over the zipped bounds. *)
Fixpoint try_new_loop (span : Z) (runs : list (Z * Z)) (present_before : list Z) (missing : Z)
    (previous_end : option Z) : res (list Z * Z) :=
  match runs with
  | [] => Ok (present_before, missing)
  | (start, end_) :: runs' =>
      if start >=? end_ then Err CorruptFile
      else if end_ >? span then Err CorruptFile
      else if match previous_end with Some p => p >=? start | None => false end then Err CorruptFile
      else try_new_loop span runs' (present_before ++ [start -d missing])
             (missing +d (end_ -d start)) (Some end_)
  end.

Definition try_new (span : Z) (starts ends : list Z) : res HoleRuns :=
  if negb (zlen starts =? zlen ends) then Err CorruptFile else
  '(present_before, missing) ← try_new_loop span (zip starts ends) [] 0 None;
  Ok (mkHoleRuns span starts (present_before ++ [span -d missing])).

(** The run lists under construction and the start of the open run. *)
Record Scan := mkScan { sc_starts : list Z; sc_ends : list Z; open_run : option Z }.

(** [match (is_present, open_run)] at offset [here]. *)
Definition scan_bit (s : Scan) (is_present : bool) (here : Z) : Scan :=
  match is_present, open_run s with
  | false, None => mkScan (sc_starts s) (sc_ends s) (Some here)
  | true, Some start => mkScan (sc_starts s ++ [start]) (sc_ends s ++ [here]) None
  | _, _ => s
  end.

(** [for bit in 0..valid_bits] *)
Fixpoint scan_bits (n : nat) (s : Scan) (present offset bit : Z) : Scan :=
  match n with
  | O => s
  | S n' =>
      let is_present := negb (Z.land present 1 =? 0) in
      scan_bits n' (scan_bit s is_present (wrap32 (offset +w bit))) (Z.shiftr present 1) offset (bit + 1)
  end.

(** [u8::MAX.checked_shl(valid_bits).unwrap_or(0)] *)
Definition padding_mask (valid_bits : Z) : Z :=
  if valid_bits <? 8 then wrap8 (Z.shiftl 255 valid_bits) else 0.

Fixpoint scan_bytes (bytes : list Z) (span : Z) (s : Scan) (offset : Z) : Scan :=
  match bytes with
  | [] => s
  | byte :: bytes' =>
      let valid_bits := Z.min (span -w offset) 8 in
      let present := Z.lor byte (padding_mask valid_bits) in
      let s' :=
        if present =? U8_MAX then
          match open_run s with
          | Some start => mkScan (sc_starts s ++ [start]) (sc_ends s ++ [wrap32 offset]) None
          | None => s
          end
        else if present =? 0 then
          match open_run s with
          | Some _ => s
          | None => mkScan (sc_starts s) (sc_ends s) (Some (wrap32 offset))
          end
        else scan_bits (Z.to_nat valid_bits) s present offset 0 in
      let offset := offset +w 8 in
      if offset >=? span then s' else scan_bytes bytes' span s' offset
  end.

(** [try_new(..).expect(..)]: an error is a panic. *)
Definition expect {A} (r : res A) : res A :=
  match r with Ok a => Ok a | _ => Panic end.

Definition from_bitmap (bitmap : Bitmap) : res HoleRuns :=
  let span := Bitmap.len bitmap in
  let s := scan_bytes (Bitmap.bytes bitmap) span (mkScan [] [] None) 0 in
  let s := match open_run s with
           | Some start => mkScan (sc_starts s ++ [start]) (sc_ends s ++ [wrap32 span]) None
           | None => s
           end in
  expect (try_new (wrap32 span) (sc_starts s) (sc_ends s)).

Definition num_runs (h : HoleRuns) : Z := zlen (starts h).

Definition present_len (h : HoleRuns) : res Z := idx (present_before h) (zlen (starts h)).

Definition start_or_span (h : HoleRuns) (k : Z) : Z := default (span h) (get_opt (starts h) k).

Definition missing_before (h : HoleRuns) (k : Z) : res Z :=
  p ← idx (present_before h) k; Ok (start_or_span h k -d p).

Definition run_end (h : HoleRuns) (k : Z) : res Z :=
  s ← idx (starts h) k;
  m1 ← missing_before h (k + 1);
  m0 ← missing_before h k;
  Ok (s +d (m1 -d m0)).

Definition position (h : HoleRuns) (offset : Z) : res (option Z) :=
  if offset >=? span h then Ok None else
  let k := partition_point (fun start => start <=? offset) (starts h) in
  hole ← (if k >? 0 then e ← run_end h (k - 1); Ok (offset <? e) else Ok false);
  if hole : bool then Ok None else
  m ← missing_before h k;
  Ok (Some (offset -d m)).

Definition runs_before_position (h : HoleRuns) (position : Z) : res Z :=
  p ← idx_range (present_before h) 0 (zlen (starts h));
  Ok (partition_point (fun present => present <=? position) p).

Definition offset_at (h : HoleRuns) (position : Z) : res (option Z) :=
  n ← present_len h;
  if position >=? n then Ok None else
  k ← runs_before_position h position;
  m ← missing_before h k;
  Ok (Some (position +d m)).

(** [if k == 0 { 0 } else { self.end(k - 1) }] *)
Definition gap_start (h : HoleRuns) (k : Z) : res Z :=
  if k =? 0 then Ok 0 else run_end h (k - 1).

Definition present_ranges (h : HoleRuns) : res (list Range) :=
  rs ← map_res (fun k => s ← gap_start h k; Ok (s ..< start_or_span h k))
         (seqZ 0 (zlen (starts h) + 1));
  Ok (List.filter (fun r => negb (range_is_empty r)) rs).

(** The [while] of [extend_values]: [k] runs from the first gap that can
    contribute up to [starts.len()], which bounds the iterations. *)
Fixpoint extend_loop (fuel : nat) (h : HoleRuns) (base position end_ k : Z) (values : list Z)
    : res (list Z) :=
  match fuel with
  | O => Ok values
  | S fuel' =>
      if (position <? end_) && (k <=? zlen (starts h)) then
        gs ← gap_start h k;
        let ge := start_or_span h k in
        m ← missing_before h k;
        let first_position := gs -d m in
        let gap_positions := first_position ..< first_position +d (ge -d gs) in
        let take := Z.max position (start gap_positions) ..< Z.min end_ (Prelude.end_ gap_positions) in
        if range_is_empty take then extend_loop fuel' h base position end_ (k + 1) values
        else
          let offset := gs +d (start take -d start gap_positions) in
          let len := Prelude.end_ take - start take in
          extend_loop fuel' h base (Prelude.end_ take) end_ (k + 1)
            (values ++ range_list (base +w offset ..< (base +w offset) +w len))
      else Ok values
  end.

Definition extend_values (h : HoleRuns) (base : Z) (positions : Range) (values : list Z) : res (list Z) :=
  n ← present_len h;
  let end_ := Z.min (Prelude.end_ positions) n in
  let position := start positions in
  k ← runs_before_position h position;
  extend_loop (S (length (starts h))) h base position end_ k values.

(** ** Specification *)

Definition run_len (r : Z * Z) : Z := snd r - fst r.

(** Offsets missing in a list of runs. *)
Definition missing (rs : list (Z * Z)) : Z := zsum (map run_len rs).

(** Non-empty, sorted, disjoint and non-adjacent runs from [lo] up to [span]. *)
Fixpoint runs_ok (lo span : Z) (rs : list (Z * Z)) : Prop :=
  match rs with
  | [] => True
  | (s, e) :: rs' => lo <= s < e /\ e <= span /\ runs_ok (e + 1) span rs'
  end.

(** The gaps between the runs, from [lo]. *)
Fixpoint gaps (lo span : Z) (rs : list (Z * Z)) : list Range :=
  match rs with
  | [] => [lo ..< span]
  | (s, e) :: rs' => (lo ..< s) :: gaps e span rs'
  end.

Definition present_of (span : Z) (rs : list (Z * Z)) : list Z := flat_map range_list (gaps 0 span rs).

(** The prefix counts of the present offsets. *)
Fixpoint counts (span m : Z) (rs : list (Z * Z)) : list Z :=
  match rs with
  | [] => [span - m]
  | (s, e) :: rs' => (s - m) :: counts span (m + (e - s)) rs'
  end.

(** [h] represents the runs [rs]. *)
Record repr (h : HoleRuns) (rs : list (Z * Z)) : Prop := mk_repr {
  repr_span : u32_ok (span h);
  repr_ok : runs_ok 0 (span h) rs;
  repr_starts : starts h = map fst rs;
  repr_counts : present_before h = counts (span h) 0 rs }.

Definition wf (h : HoleRuns) : Prop := exists rs, repr h rs.

(** The end of the last run, [lo] before the first. *)
Definition end_of (lo : Z) (rs : list (Z * Z)) : Z := default lo (snd <$> list.last rs).

(** The start of the first run, [span] when there is none. *)
Definition start_of (span : Z) (rs : list (Z * Z)) : Z := default span (fst <$> head rs).

(** The runs a value stores, recomputed from its fields. *)
Definition runs_list (h : HoleRuns) : list (Z * Z) :=
  omap (fun k => match idx (starts h) k, run_end h k with Ok s, Ok e => Some (s, e) | _, _ => None end)
    (seqZ 0 (zlen (starts h))).

Definition present (h : HoleRuns) : list Z := present_of (span h) (runs_list h).

(** ** Splitting the runs *)

Fixpoint gaps_before (lo : Z) (rs : list (Z * Z)) : list Z :=
  match rs with
  | [] => []
  | (s, e) :: rs' => range_list (lo ..< s) ++ gaps_before e rs'
  end.

Definition gaps_after (span : Z) (rs : list (Z * Z)) : list Z :=
  match rs with
  | [] => []
  | (_, e) :: rs' => flat_map range_list (gaps e span rs')
  end.

Lemma end_of_cons lo s e rs : end_of lo ((s, e) :: rs) = end_of e rs.
Proof. unfold end_of. rewrite list.last_cons. by destruct (list.last rs). Qed.

Lemma end_of_snoc lo rs s e : end_of lo (rs ++ [(s, e)]) = e.
Proof. unfold end_of. by rewrite list.last_snoc. Qed.

Lemma missing_cons s e rs : missing ((s, e) :: rs) = (e - s) + missing rs.
Proof. reflexivity. Qed.

Lemma missing_snoc rs s e : missing (rs ++ [(s, e)]) = missing rs + (e - s).
Proof. unfold missing. rewrite map_app, zsum_app. unfold zsum, run_len. simpl. lia. Qed.

Lemma runs_ok_weaken lo lo' span rs : lo' <= lo -> runs_ok lo span rs -> runs_ok lo' span rs.
Proof. intros. destruct rs as [|[s e] rs]; simpl in *; [done|]. intuition lia. Qed.

Lemma hr_runs_bounds lo span rs : lo <= span -> runs_ok lo span rs ->
  0 <= missing rs /\ lo + missing rs <= end_of lo rs <= span.
Proof.
  revert lo. induction rs as [|[s e] rs IH]; intros lo Hlo H; simpl in H.
  - unfold missing, end_of. simpl. lia.
  - destruct H as (H1 & H2 & H3). rewrite end_of_cons, missing_cons.
    destruct (IH e) as (H4 & H5); [lia|by eapply runs_ok_weaken; [|done]; lia|]. lia.
Qed.

Lemma runs_ok_app lo span rs1 rs2 : runs_ok lo span (rs1 ++ rs2) <->
  runs_ok lo span rs1 /\ runs_ok (match rs1 with [] => lo | _ => end_of lo rs1 + 1 end) span rs2.
Proof.
  revert lo. induction rs1 as [|[s e] rs1 IH]; intros lo; simpl; [tauto|].
  rewrite IH, end_of_cons. destruct rs1 as [|[s' e'] rs1]; [unfold end_of; simpl; tauto|].
  rewrite !end_of_cons. tauto.
Qed.

Lemma gaps_app lo span rs1 rs2 : flat_map range_list (gaps lo span (rs1 ++ rs2)) =
  gaps_before lo rs1 ++ range_list (end_of lo rs1 ..< start_of span rs2) ++ gaps_after span rs2.
Proof.
  revert lo. induction rs1 as [|[s e] rs1 IH]; intros lo; simpl.
  - destruct rs2 as [|[s e] rs2]; simpl; [done|]. done.
  - by rewrite IH, end_of_cons, app_assoc.
Qed.

Lemma zlen_gaps_before lo span rs : runs_ok lo span rs ->
  zlen (gaps_before lo rs) = end_of lo rs - lo - missing rs.
Proof.
  revert lo. induction rs as [|[s e] rs IH]; intros lo; simpl.
  - intros _. unfold end_of, missing, zlen. simpl. lia.
  - intros (H1 & H2 & H3). rewrite zlen_app, zlen_range_list by (simpl; lia).
    rewrite IH by (by eapply runs_ok_weaken; [|done]; lia).
    rewrite end_of_cons, missing_cons. simpl. lia.
Qed.

Lemma counts_app span m rs1 rs2 : get_opt (counts span m (rs1 ++ rs2)) (zlen rs1) =
  Some (start_of span rs2 - (m + missing rs1)).
Proof.
  revert m. induction rs1 as [|[s e] rs1 IH]; intros m.
  - change (missing []) with 0. rewrite Z.add_0_r. by destruct rs2 as [|[s e] rs2].
  - simpl. rewrite zlen_cons, get_opt_cons, missing_cons. pose proof (zlen_nonneg rs1).
    destruct (Z.eqb_spec (1 + zlen rs1) 0); [lia|].
    replace (1 + zlen rs1 - 1) with (zlen rs1) by lia. rewrite IH. f_equal. lia.
Qed.

Lemma zlen_counts span m rs : zlen (counts span m rs) = zlen rs + 1.
Proof.
  revert m. induction rs as [|[s e] rs IH]; intros m; simpl; [done|]. rewrite !zlen_cons, IH. lia.
Qed.

Lemma get_opt_app_head {A} (l1 l2 : list A) : get_opt (l1 ++ l2) (zlen l1) = head l2.
Proof. rewrite get_opt_app, Z.ltb_irrefl, Z.sub_diag. by destruct l2. Qed.

(** What the accessors return at the boundary of run [zlen rs1]. *)
Record at_run (h : HoleRuns) (rs1 rs2 : list (Z * Z)) : Prop := mk_at_run {
  at_start : start_or_span h (zlen rs1) = start_of (span h) rs2;
  at_count : idx (present_before h) (zlen rs1) = Ok (start_of (span h) rs2 - missing rs1);
  at_missing : missing_before h (zlen rs1) = Ok (missing rs1);
  at_bounds : 0 <= missing rs1 <= end_of 0 rs1 /\ end_of 0 rs1 <= start_of (span h) rs2 <= span h;
  at_gap : rs1 <> [] -> rs2 <> [] -> end_of 0 rs1 < start_of (span h) rs2 }.

Lemma repr_at h rs1 rs2 : repr h (rs1 ++ rs2) -> at_run h rs1 rs2.
Proof.
  intros [Hspan Hok Hst Hc]. uok.
  assert (Hstart : start_or_span h (zlen rs1) = start_of (span h) rs2).
  { unfold start_or_span, start_of. rewrite Hst, map_app. rewrite <- (zlen_map fst rs1).
    rewrite get_opt_app_head. by destruct rs2. }
  assert (Hcnt : idx (present_before h) (zlen rs1) = Ok (start_of (span h) rs2 - missing rs1)).
  { rewrite Hc. apply idx_ok. apply counts_app. }
  apply runs_ok_app in Hok as [Hok1 Hok2]. destruct (hr_runs_bounds 0 (span h) rs1) as [Hm Hb]; [lia|done|].
  assert (Hs : end_of 0 rs1 <= start_of (span h) rs2 <= span h).
  { destruct rs2 as [|[s e] rs2]; [unfold start_of; simpl; lia|]. unfold start_of. simpl in *.
    destruct rs1; [unfold end_of in *; simpl in *; lia|lia]. }
  constructor; [done..| |lia|].
  - unfold missing_before. rewrite Hcnt, Hstart. simpl. f_equal. unwrap. lia.
  - intros H1 H2. destruct rs2 as [|[s e] rs2]; [done|]. unfold start_of. simpl in *. destruct rs1; [done|lia].
Qed.

Lemma repr_run_end h rs1 s e rs2 : repr h (rs1 ++ (s, e) :: rs2) -> run_end h (zlen rs1) = Ok e.
Proof.
  intros Hr. pose proof (repr_at _ _ _ Hr) as A1. assert (Hr' := Hr).
  replace (rs1 ++ (s, e) :: rs2) with ((rs1 ++ [(s, e)]) ++ rs2) in Hr' by (by rewrite <- app_assoc).
  pose proof (repr_at _ _ _ Hr') as A2. pose proof (repr_span _ _ Hr) as Hspan.
  unfold run_end. rewrite (repr_starts _ _ Hr), map_app. rewrite <- (zlen_map fst rs1) at 1.
  rewrite (idx_ok _ _ s) by (by rewrite get_opt_app_head). simpl.
  pose proof (at_missing _ _ _ A2) as E2. rewrite zlen_app, zlen_cons, zlen_nil in E2.
  replace (zlen rs1 + (1 + 0)) with (zlen rs1 + 1) in E2 by lia. rewrite E2.
  rewrite (at_missing _ _ _ A1). simpl. f_equal.
  pose proof (at_bounds _ _ _ A1). pose proof (at_bounds _ _ _ A2). rewrite missing_snoc, end_of_snoc in *.
  apply repr_ok in Hr. apply runs_ok_app in Hr as [_ Hr]. simpl in Hr. uok.
  unfold start_of in *. simpl in *. unwrap. lia.
Qed.

Lemma repr_gap_start h rs1 rs2 : repr h (rs1 ++ rs2) -> gap_start h (zlen rs1) = Ok (end_of 0 rs1).
Proof.
  intros Hr. unfold gap_start. destruct rs1 as [|x rs1 _] using rev_ind; [done|].
  destruct x as [s e]. rewrite zlen_app, zlen_cons, zlen_nil, end_of_snoc. pose proof (zlen_nonneg rs1).
  destruct (Z.eqb_spec (zlen rs1 + (1 + 0)) 0); [lia|].
  replace (zlen rs1 + (1 + 0) - 1) with (zlen rs1) by lia.
  rewrite <- app_assoc in Hr. by apply (repr_run_end _ _ s e rs2).
Qed.

Lemma omap_ext_Forall {A B} (f g : A -> option B) l : Forall (fun x => f x = g x) l -> omap f l = omap g l.
Proof. induction 1 as [|x l Hx _ IH]; [done|]. unfold omap in *. simpl. by rewrite Hx, IH. Qed.

Lemma omap_get_opt {A} (l : list A) : omap (get_opt l) (seqZ 0 (zlen l)) = l.
Proof.
  induction l as [|x l IH] using rev_ind; [done|].
  rewrite zlen_app. rewrite seqZ_app by (apply zlen_nonneg || done). rewrite omap_app, Z.add_0_l.
  change (zlen [x]) with 1. rewrite (seqZ_cons (zlen l)) by lia. rewrite (seqZ_nil (Z.succ _)) by lia.
  unfold omap at 2. simpl. rewrite get_opt_app_head. simpl. f_equal. etransitivity; [|exact IH].
  apply omap_ext_Forall, Forall_forall. intros i Hi%elem_of_seqZ. rewrite get_opt_app.
  by rewrite (proj2 (Z.ltb_lt i (zlen l))) by lia.
Qed.

Lemma split_at_Z {A} (l : list A) k : 0 <= k <= zlen l -> exists l1 l2, l = l1 ++ l2 /\ zlen l1 = k.
Proof.
  intros. exists (take (Z.to_nat k) l), (drop (Z.to_nat k) l). rewrite take_drop. split; [done|].
  unfold zlen in *. rewrite length_take. lia.
Qed.

Lemma runs_list_repr h rs : repr h rs -> runs_list h = rs.
Proof.
  intros Hr. unfold runs_list. rewrite (repr_starts _ _ Hr), zlen_map.
  etransitivity; [|apply (omap_get_opt rs)]. apply omap_ext_Forall, Forall_forall. intros k Hk%elem_of_seqZ.
  destruct (split_at_Z rs k) as (rs1 & rs2 & -> & <-); [lia|]. rewrite get_opt_app_head.
  destruct rs2 as [|[s e] rs2]; [rewrite app_nil_r in Hk; lia|].
  rewrite (repr_run_end _ _ _ _ _ Hr). rewrite map_app. rewrite <- (zlen_map fst rs1).
  by rewrite (idx_ok _ _ s) by (by rewrite get_opt_app_head).
Qed.

(** The present offsets around gap [zlen rs1]. *)
Lemma present_split h rs1 rs2 : repr h (rs1 ++ rs2) ->
  present h = gaps_before 0 rs1 ++ range_list (end_of 0 rs1 ..< start_of (span h) rs2) ++ gaps_after (span h) rs2 /\
  zlen (gaps_before 0 rs1) = end_of 0 rs1 - missing rs1.
Proof.
  intros Hr. unfold present. rewrite (runs_list_repr _ _ Hr). split; [apply gaps_app|].
  apply repr_ok, runs_ok_app in Hr as [Hr _]. rewrite (zlen_gaps_before _ _ _ Hr). lia.
Qed.

(** Present value at a position of gap [zlen rs1]. *)
Lemma present_in_gap h rs1 rs2 p : repr h (rs1 ++ rs2) ->
  end_of 0 rs1 - missing rs1 <= p < start_of (span h) rs2 - missing rs1 ->
  get_opt (present h) p = Some (p + missing rs1).
Proof.
  intros Hr Hp. destruct (present_split _ _ _ Hr) as [-> Hl]. pose proof (zlen_nonneg (gaps_before 0 rs1)).
  pose proof (at_bounds _ _ _ (repr_at _ _ _ Hr)) as Hb.
  rewrite get_opt_app, Hl. destruct (Z.ltb_spec p (end_of 0 rs1 - missing rs1)); [lia|].
  rewrite get_opt_app, zlen_range_list by (simpl; lia). simpl.
  rewrite (proj2 (Z.ltb_lt _ _)) by lia. unfold range_list. simpl. rewrite get_opt_seqZ by lia. f_equal. lia.
Qed.

(** ** Which offsets are present *)

Definition in_runs (rs : list (Z * Z)) (o : Z) : Prop := exists s e, (s, e) ∈ rs /\ s <= o < e.

Lemma gaps_elem lo span rs o : lo <= span -> runs_ok lo span rs ->
  o ∈ flat_map range_list (gaps lo span rs) <-> lo <= o < span /\ ~ in_runs rs o.
Proof.
  revert lo. induction rs as [|[s e] rs IH]; intros lo Hlo; simpl.
  - intros _. rewrite app_nil_r, elem_of_range_list. simpl. split; [|tauto].
    intros H. split; [done|]. intros (s & e & Hin & _). by apply elem_of_nil in Hin.
  - intros (H1 & H2 & H3). rewrite elem_of_app, elem_of_range_list. simpl.
    rewrite IH by (lia || (eapply runs_ok_weaken; [|done]; lia)).
    assert (Hlo' : forall s' e', (s', e') ∈ rs -> e < s' /\ s' < e' <= span).
    { clear -H3. revert e H3. induction rs as [|[a b] rs IH]; intros e H3 s' e' Hin; [by apply elem_of_nil in Hin|].
      simpl in H3. destruct H3 as (? & ? & H4). apply elem_of_cons in Hin as [[= -> ->]|Hin]; [lia|].
      specialize (IH b H4 s' e' Hin). lia. }
    split.
    + intros [Ho|[Ho Hn]]; (split; [lia|]); intros (a & b & [[= -> ->]|Hin]%elem_of_cons & Hab); try lia.
      * specialize (Hlo' a b Hin). lia.
      * apply Hn. exists a, b. done.
    + intros [Ho Hn]. destruct (decide (o < s)) as [|Hs]; [left; lia|right].
      destruct (decide (o < e)) as [|He]; [destruct Hn; exists s, e; split; [by left|lia]|].
      split; [lia|]. intros (a & b & Hin & Hab). apply Hn. exists a, b. split; [by right|done].
Qed.

Lemma gaps_ssorted lo span rs : lo <= span -> runs_ok lo span rs -> ssorted (flat_map range_list (gaps lo span rs)).
Proof.
  revert lo. induction rs as [|[s e] rs IH]; intros lo Hlo; simpl.
  - intros _. rewrite app_nil_r. apply ssorted_range_list.
  - intros (H1 & H2 & H3). assert (H4 : runs_ok e span rs) by (by eapply runs_ok_weaken; [|done]; lia).
    apply ssorted_app. split; [apply ssorted_range_list|]. split; [by apply IH|].
    intros x y Hx%elem_of_range_list Hy. simpl in Hx. apply gaps_elem in Hy; [lia|done..].
Qed.

Lemma present_elem h rs o : repr h rs -> o ∈ present h <-> 0 <= o < span h /\ ~ in_runs rs o.
Proof.
  intros Hr. unfold present. rewrite (runs_list_repr _ _ Hr). pose proof (repr_span _ _ Hr). uok.
  apply gaps_elem; [lia|by apply repr_ok].
Qed.

Lemma present_ssorted h : wf h -> ssorted (present h).
Proof.
  intros [rs Hr]. unfold present. rewrite (runs_list_repr _ _ Hr). pose proof (repr_span _ _ Hr). uok.
  apply gaps_ssorted; [lia|by apply repr_ok].
Qed.

(** ** Operations *)

Lemma present_len_ok h : wf h -> present_len h = Ok (zlen (present h)).
Proof.
  intros [rs Hr]. assert (Hr' := Hr). rewrite <- (app_nil_r rs) in Hr'.
  pose proof (repr_at _ _ _ Hr') as A. destruct (present_split _ _ _ Hr') as [Hp Hl].
  unfold present_len. rewrite (repr_starts _ _ Hr), zlen_map, (at_count _ _ _ A), Hp. f_equal.
  pose proof (at_bounds _ _ _ A). rewrite !zlen_app, Hl, zlen_range_list by (unfold start_of in *; simpl in *; lia).
  unfold start_of in *. simpl in *. change (zlen (@nil Z)) with 0. lia.
Qed.

Lemma ssorted_lookup_le l (i j : nat) x y : ssorted l -> l !! i = Some x -> l !! j = Some y -> (i <= j)%nat -> x <= y.
Proof.
  intros Hs Hi Hj Hij. destruct (decide (i = j)) as [->|]; [simplify_eq; lia|].
  pose proof (ssorted_lookup l i j x y Hs Hi Hj). lia.
Qed.

(** A threshold splits a strictly sorted list. *)
Lemma partition_point_split l v : ssorted l ->
  exists l1 l2, l = l1 ++ l2 /\ partition_point (fun x => x <=? v) l = zlen l1 /\
    Forall (fun x => x <= v) l1 /\ Forall (fun x => v < x) l2.
Proof.
  intros Hs. destruct (partition_point_spec (fun x => x <=? v) l) as (Hp & Hlt & Hge).
  { intros i j x y Hij Hx Hy Hv. rewrite Z.leb_le in *. pose proof (ssorted_lookup _ _ _ _ _ Hs Hx Hy Hij). lia. }
  destruct (split_at_Z l _ Hp) as (l1 & l2 & E & Hl). exists l1, l2. split; [done|]. split; [done|]. subst l. split.
  - apply Forall_forall. intros x [i Hi]%elem_of_get_opt. apply get_opt_Some in Hi as Hr. apply Z.leb_le.
    apply (Hlt i); [lia|]. rewrite get_opt_app. by rewrite (proj2 (Z.ltb_lt _ _)) by lia.
  - apply Forall_forall. intros x [i Hi]%elem_of_get_opt. apply get_opt_Some in Hi as Hr. apply Z.leb_gt.
    apply (Hge (zlen l1 + i)); [lia|]. rewrite get_opt_app. rewrite (proj2 (Z.ltb_ge _ _)) by lia.
    by replace (zlen l1 + i - zlen l1) with i by lia.
Qed.

Lemma starts_ssorted lo span rs : runs_ok lo span rs -> ssorted (map fst rs) /\ Forall (Z.le lo) (map fst rs).
Proof.
  revert lo. induction rs as [|[s e] rs IH]; intros lo H; [split; constructor|].
  simpl in *. destruct H as (H1 & H2 & H3). destruct (IH _ H3) as [H4 H5]. split.
  - constructor; [done|]. eapply Forall_impl; [done|]. simpl. lia.
  - constructor; [lia|]. eapply Forall_impl; [done|]. simpl. lia.
Qed.

Lemma map_app_split {A B} (f : A -> B) l m1 m2 : map f l = m1 ++ m2 ->
  exists l1 l2, l = l1 ++ l2 /\ m1 = map f l1 /\ m2 = map f l2.
Proof. intros H. apply map_eq_app in H as (l1 & l2 & -> & <- & <-). eauto. Qed.

(** [position] is the index among the present offsets. *)
Lemma hr_position_ok h o : wf h -> 0 <= o -> position h o = Ok (index_of o (present h)).
Proof.
  intros Hwf Ho. pose proof (present_ssorted h Hwf) as Hs. destruct Hwf as [rs Hr].
  pose proof (repr_span _ _ Hr) as Hspan. unfold position. rewrite Z.geb_leb. destruct (Z.leb_spec (span h) o).
  { rewrite (proj2 (index_of_None o _)); [done|]. rewrite (present_elem _ _ _ Hr). lia. }
  destruct (starts_ssorted _ _ _ (repr_ok _ _ Hr)) as [Hst _].
  destruct (partition_point_split (map fst rs) o Hst) as (m1 & m2 & E & Hk & Hle & Hgt).
  apply map_app_split in E as (rs1 & rs2 & -> & -> & ->). rewrite zlen_map in Hk.
  rewrite (repr_starts _ _ Hr), Hk. pose proof (repr_at _ _ _ Hr) as A. pose proof (at_bounds _ _ _ A) as Hb.
  assert (Hhole : (if zlen rs1 >? 0 then e ← run_end h (zlen rs1 - 1); Ok (o <? e) else Ok false) = Ok (o <? end_of 0 rs1)).
  { pose proof (repr_gap_start _ _ _ Hr) as Hg. unfold gap_start in Hg. pose proof (zlen_nonneg rs1).
    destruct (Z.gtb_spec (zlen rs1) 0), (Z.eqb_spec (zlen rs1) 0); try lia; [by rewrite Hg|].
    injection Hg as <-. by rewrite (proj2 (Z.ltb_ge o 0)) by lia. }
  rewrite Hhole. simpl. destruct (Z.ltb_spec o (end_of 0 rs1)) as [Hin|Hin].
  - f_equal. symmetry. apply index_of_None. rewrite (present_elem _ _ _ Hr). intros [_ Hn]. apply Hn.
    destruct rs1 as [|[s e] rs1 _] using rev_ind; [unfold end_of in Hin; simpl in Hin; lia|].
    rewrite end_of_snoc in Hin. exists s, e. split; [rewrite !elem_of_app, list_elem_of_singleton; tauto|]. split; [|done].
    rewrite map_app, Forall_app in Hle. destruct Hle as [_ Hle]. simpl in Hle. by inversion Hle.
  - rewrite (at_missing _ _ _ A). simpl. f_equal. symmetry. apply index_of_Some; [auto with lance|].
    assert (o < start_of (span h) rs2).
    { destruct rs2 as [|[s e] rs2]; unfold start_of; simpl; [done|]. by inversion Hgt. }
    uok. unwrap. rewrite (present_in_gap _ _ _ _ Hr) by lia. f_equal. lia.
Qed.

Lemma counts_lookup_lt span m rs (i j : nat) x y : (exists lo, runs_ok lo span rs) ->
  (i < j < length rs)%nat -> counts span m rs !! i = Some x -> counts span m rs !! j = Some y -> x < y.
Proof.
  revert m i j x y. induction rs as [|[s e] rs IH]; intros m i j x y [lo Hok] Hij Hx Hy; simpl in *; [lia|].
  destruct Hok as (H1 & H2 & H3). destruct j as [|j]; [lia|]. simpl in Hy. destruct i as [|i]; simpl in Hx.
  - injection Hx as <-. destruct rs as [|[s' e'] rs]; simpl in Hij; [lia|]. simpl in H3.
    assert (s' - (m + (e - s)) <= y); [|lia]. destruct j as [|j].
    + simpl in Hy. injection Hy as <-. lia.
    + assert (s' - (m + (e - s)) < y); [|lia].
      apply (IH (m + (e - s)) 0%nat (S j)); [by exists (e + 1)|simpl in *; lia|done|done].
  - apply (IH (m + (e - s)) i j); [by exists (e + 1)|lia|done|done].
Qed.

(** The gap a position falls in. *)
Lemma runs_before_position_ok h rs p : repr h rs ->
  exists rs1 rs2, rs = rs1 ++ rs2 /\ runs_before_position h p = Ok (zlen rs1) /\
    (0 <= p -> end_of 0 rs1 - missing rs1 <= p) /\ (rs2 <> [] -> p < start_of (span h) rs2 - missing rs1).
Proof.
  intros Hr. unfold runs_before_position. rewrite (repr_starts _ _ Hr), (repr_counts _ _ Hr), zlen_map.
  pose proof (zlen_nonneg rs). pose proof (zlen_counts (span h) 0 rs) as Hcl.
  unfold idx_range. rewrite !(proj2 (Z.leb_le _ _)) by lia. simpl.
  replace (Z.to_nat (zlen rs - 0)) with (length rs) by (unfold zlen; lia). rewrite drop_0.
  set (cs := take (length rs) (counts (span h) 0 rs)).
  assert (Hcs : forall j, j < zlen rs -> get_opt cs j = get_opt (counts (span h) 0 rs) j).
  { intros j Hj. unfold get_opt, cs. destruct (0 <=? j) eqn:E; [|done]. apply Z.leb_le in E.
    unfold zlen in Hj. by rewrite lookup_take_lt by lia. }
  assert (Hlen : zlen cs = zlen rs) by (unfold zlen, cs in *; rewrite length_take; lia).
  destruct (partition_point_spec (fun x => x <=? p) cs) as (Hk & Hlt & Hge).
  { intros i j x y Hij Hx Hy Hv. rewrite Z.leb_le in *. unfold cs in Hx, Hy.
    apply lookup_take_Some in Hx as [Hx _]. apply lookup_take_Some in Hy as [Hy Hj].
    pose proof (counts_lookup_lt (span h) 0 rs i j x y (ex_intro _ 0 (repr_ok _ _ Hr)) ltac:(lia) Hx Hy). lia. }
  set (k := partition_point (fun x => x <=? p) cs) in *. rewrite Hlen in Hk.
  destruct (split_at_Z rs k Hk) as (rs1 & rs2 & -> & Hk1). exists rs1, rs2. split; [done|]. rewrite Hk1.
  split; [done|]. split.
  - intros Hp. destruct rs1 as [|[s e] rs1 _] using rev_ind; [done|].
    rewrite zlen_app in Hk1. change (zlen [(s, e)]) with 1 in Hk1.
    rewrite end_of_snoc, missing_snoc. assert (s - missing rs1 <= p); [|lia]. apply Z.leb_le.
    apply (Hlt (zlen rs1)); [lia|]. rewrite Hcs by lia. rewrite <- app_assoc, counts_app. done.
  - intros Hne. destruct rs2 as [|[s e] rs2]; [done|]. apply Z.leb_gt.
    rewrite zlen_app, zlen_cons in Hcs, Hk. pose proof (zlen_nonneg rs2).
    apply (Hge (zlen rs1)); [lia|]. rewrite Hcs by lia. by rewrite counts_app.
Qed.

Lemma present_len_split h rs1 rs2 : repr h (rs1 ++ rs2) -> start_of (span h) rs2 - missing rs1 <= zlen (present h).
Proof.
  intros Hr. destruct (present_split _ _ _ Hr) as [-> Hl]. pose proof (at_bounds _ _ _ (repr_at _ _ _ Hr)).
  rewrite !zlen_app, Hl, zlen_range_list by (simpl; lia). simpl. pose proof (zlen_nonneg (gaps_after (span h) rs2)). lia.
Qed.

Lemma present_len_nil h rs : repr h rs -> zlen (present h) = span h - missing rs /\ 0 <= missing rs <= span h.
Proof.
  intros Hr. assert (Hr' := Hr). rewrite <- (app_nil_r rs) in Hr'. destruct (present_split _ _ _ Hr') as [-> Hl].
  pose proof (at_bounds _ _ _ (repr_at _ _ _ Hr')). unfold start_of in *. simpl in *.
  rewrite !zlen_app, Hl, zlen_range_list by (simpl; lia). simpl. change (zlen (@nil Z)) with 0. lia.
Qed.

Lemma present_ok h : wf h -> Forall (fun o => 0 <= o < span h) (present h) /\ u32_ok (span h) /\ zlen (present h) <= span h.
Proof.
  intros [rs Hr]. split; [|split; [by apply (repr_span _ _ Hr)|]].
  - apply Forall_forall. intros o Ho. apply (present_elem _ _ _ Hr) in Ho. tauto.
  - destruct (present_len_nil _ _ Hr). lia.
Qed.

(** [offset_at] indexes the present offsets. *)
Lemma offset_at_ok h p : wf h -> 0 <= p -> offset_at h p = Ok (get_opt (present h) p).
Proof.
  intros Hwf Hp. unfold offset_at. rewrite present_len_ok by done. simpl. rewrite Z.geb_leb.
  destruct (Z.leb_spec (zlen (present h)) p); [by rewrite (proj2 (get_opt_None _ _)) by lia|].
  destruct Hwf as [rs Hr]. destruct (present_len_nil _ _ Hr) as [Hn Hm].
  destruct (runs_before_position_ok h rs p Hr) as (rs1 & rs2 & -> & -> & Hlo & Hhi). simpl.
  pose proof (repr_at _ _ _ Hr) as A. pose proof (at_bounds _ _ _ A). pose proof (repr_span _ _ Hr).
  rewrite (at_missing _ _ _ A). simpl. f_equal.
  assert (p < start_of (span h) rs2 - missing rs1).
  { destruct rs2 as [|r rs2]; [|by apply Hhi]. rewrite app_nil_r in Hn. unfold start_of. simpl. lia. }
  uok. unwrap. rewrite (present_in_gap _ _ _ _ Hr); [done|lia].
Qed.

Lemma gaps_length lo span rs : length (gaps lo span rs) = S (length rs).
Proof. revert lo. induction rs as [|[s e] rs IH]; intros; simpl; auto. Qed.

Lemma gaps_lookup lo span rs1 rs2 : get_opt (gaps lo span (rs1 ++ rs2)) (zlen rs1) =
  Some (end_of lo rs1 ..< start_of span rs2).
Proof.
  revert lo. induction rs1 as [|[s e] rs1 IH]; intros lo.
  - by destruct rs2 as [|[s e] rs2].
  - simpl. rewrite zlen_cons, get_opt_cons, end_of_cons. pose proof (zlen_nonneg rs1).
    destruct (Z.eqb_spec (1 + zlen rs1) 0); [lia|]. replace (1 + zlen rs1 - 1) with (zlen rs1) by lia. apply IH.
Qed.

Lemma map_res_get_opt {A B} (f : A -> res B) l l' : zlen l = zlen l' ->
  (forall i x, get_opt l i = Some x -> exists y, f x = Ok y /\ get_opt l' i = Some y) -> map_res f l = Ok l'.
Proof.
  revert l'. induction l as [|x l IH]; intros l' Hl Hf; destruct l' as [|y l'];
    rewrite ?zlen_cons, ?zlen_nil in Hl; [done| | |].
  - pose proof (zlen_nonneg l'). lia.
  - pose proof (zlen_nonneg l). lia.
  - simpl. destruct (Hf 0 x eq_refl) as (y' & -> & [= <-]). simpl. rewrite (IH l'); [done|lia|].
    intros i z Hz. apply get_opt_Some in Hz as Hr. specialize (Hf (i + 1) z). rewrite !get_opt_cons in Hf.
    destruct (Z.eqb_spec (i + 1) 0); [lia|]. replace (i + 1 - 1) with i in Hf by lia. auto.
Qed.

(** [present_ranges] lists the non-empty gaps. *)
Lemma present_ranges_gaps h rs : repr h rs ->
  present_ranges h = Ok (List.filter (fun r => negb (range_is_empty r)) (gaps 0 (span h) rs)).
Proof.
  intros Hr. unfold present_ranges. rewrite (repr_starts _ _ Hr), zlen_map. pose proof (zlen_nonneg rs).
  rewrite (map_res_get_opt _ _ (gaps 0 (span h) rs)); [done|..].
  - rewrite zlen_seqZ by lia. unfold zlen. rewrite gaps_length. lia.
  - intros i k Hk. apply get_opt_Some in Hk as Hi. rewrite zlen_seqZ in Hi by lia.
    rewrite get_opt_seqZ in Hk by lia. injection Hk as <-. rewrite Z.add_0_l.
    destruct (split_at_Z rs i) as (rs1 & rs2 & -> & <-); [lia|].
    rewrite (repr_gap_start _ _ _ Hr), (at_start _ _ _ (repr_at _ _ _ Hr)), gaps_lookup. eauto.
Qed.

Lemma flat_map_nonempty l :
  flat_map range_list (List.filter (fun r => negb (range_is_empty r)) l) = flat_map range_list l.
Proof.
  induction l as [|[a b] l IH]; simpl; [done|].
  destruct (range_is_empty (a ..< b)) eqn:E; simpl; rewrite IH; [|done].
  rewrite range_list_nil; [done|]. unfold range_is_empty in E. simpl in E. destruct (Z.ltb_spec a b); [done|lia].
Qed.

Lemma gaps_bounds h rs : repr h rs -> Forall (fun r => 0 <= start r /\ end_ r <= span h) (gaps 0 (span h) rs).
Proof.
  intros Hr. apply Forall_forall. intros r [k Hk]%elem_of_get_opt. apply get_opt_Some in Hk as Hkr.
  unfold zlen in Hkr. rewrite gaps_length in Hkr.
  destruct (split_at_Z rs k) as (rs1 & rs2 & -> & <-); [unfold zlen; lia|].
  rewrite gaps_lookup in Hk. injection Hk as <-. simpl. pose proof (at_bounds _ _ _ (repr_at _ _ _ Hr)). lia.
Qed.

(** They cover the present offsets. *)
Lemma present_ranges_ok h : wf h -> exists rs, present_ranges h = Ok rs /\
  flat_map range_list rs = present h /\ Forall (fun r => 0 <= start r < end_ r /\ end_ r <= span h) rs.
Proof.
  intros [rs Hr]. eexists. split; [by apply present_ranges_gaps|]. rewrite flat_map_nonempty.
  split; [unfold present; by rewrite (runs_list_repr _ _ Hr)|].
  apply Forall_forall. intros r [Hin Hne]%elem_of_filterb. pose proof (gaps_bounds h rs Hr) as Hg. rewrite Forall_forall in Hg.
  destruct (Hg r Hin). unfold range_is_empty in Hne. rewrite negb_involutive in Hne. apply Z.ltb_lt in Hne. lia.
Qed.

Lemma present_zsub_gap h rs1 rs2 p q : repr h (rs1 ++ rs2) ->
  end_of 0 rs1 - missing rs1 <= p -> p <= q -> q <= start_of (span h) rs2 - missing rs1 ->
  zsub (present h) p q = range_list (p + missing rs1 ..< q + missing rs1).
Proof.
  intros Hr Hp Hpq Hq. pose proof (at_bounds _ _ _ (repr_at _ _ _ Hr)). pose proof (present_len_split _ _ _ Hr).
  apply get_opt_ext.
  - rewrite zlen_zsub, zlen_range_list by (simpl; lia). simpl. lia.
  - intros i. rewrite zlen_zsub by lia. intros Hi. rewrite get_opt_zsub by lia.
    rewrite (present_in_gap _ _ _ _ Hr) by lia. unfold range_list. simpl. rewrite get_opt_seqZ by lia. f_equal. lia.
Qed.

Lemma extend_loop_done fuel h base p e k values : e <= p -> extend_loop fuel h base p e k values = Ok values.
Proof. intros. destruct fuel; simpl; [done|]. by rewrite (proj2 (Z.ltb_ge p e)) by done. Qed.

Lemma hr_extend_loop_ok fuel h base rs1 rs2 p e values : repr h (rs1 ++ rs2) -> 0 <= base -> base + span h <= U64_MAX ->
  (length rs2 < fuel)%nat -> 0 <= p -> end_of 0 rs1 - missing rs1 <= p -> e <= zlen (present h) ->
  extend_loop fuel h base p e (zlen rs1) values = Ok (values ++ map (Z.add base) (zsub (present h) p e)).
Proof.
  intros Hr Hb0 Hbase. revert rs1 rs2 p values Hr.
  induction fuel as [|fuel IH]; intros rs1 rs2 p values Hr Hfuel Hp Hlo He; [lia|].
  destruct (Z.leb_spec e p) as [Hpe|Hpe].
  { rewrite extend_loop_done, zsub_nil by done. simpl. by rewrite app_nil_r. }
  pose proof (repr_at _ _ _ Hr) as A. pose proof (at_bounds _ _ _ A) as Hb. pose proof (repr_span _ _ Hr) as Hspan.
  pose proof (zlen_nonneg rs2). simpl. rewrite (proj2 (Z.ltb_lt p e)) by done.
  rewrite (repr_starts _ _ Hr), zlen_map, zlen_app, (proj2 (Z.leb_le (zlen rs1) _)) by lia. simpl.
  rewrite (repr_gap_start _ _ _ Hr), (at_missing _ _ _ A), (at_start _ _ _ A). simpl. uok. unwrap.
  replace (end_of 0 rs1 - missing rs1 + (start_of (span h) rs2 - end_of 0 rs1)) with (start_of (span h) rs2 - missing rs1) by lia.
  rewrite (Z.max_l p) by lia. unfold range_is_empty. simpl.
  assert (Hend : rs2 = [] -> e <= start_of (span h) rs2 - missing rs1).
  { intros ->. rewrite app_nil_r in Hr. destruct (present_len_nil _ _ Hr). unfold start_of. simpl. lia. }
  assert (Hnext : forall p' v', start_of (span h) rs2 - missing rs1 <= p' -> 0 <= p' -> rs2 <> [] ->
    extend_loop fuel h base p' e (zlen rs1 + 1) v' = Ok (v' ++ map (Z.add base) (zsub (present h) p' e))).
  { intros p' v' Hp' Hp0 Hne. destruct rs2 as [|[a b] rs2]; [done|].
    replace (zlen rs1 + 1) with (zlen (rs1 ++ [(a, b)])) by (by rewrite zlen_app).
    apply (IH _ rs2); [by rewrite <- app_assoc|simpl in Hfuel; lia|done| |done].
    rewrite end_of_snoc, missing_snoc. unfold start_of in Hp'. simpl in Hp'. lia. }
  destruct (Z.ltb_spec p (Z.min e (start_of (span h) rs2 - missing rs1))) as [Hlt|Hlt]; simpl.
  - unwrap. replace (end_of 0 rs1 + (p - (end_of 0 rs1 - missing rs1))) with (p + missing rs1) by lia.
    set (q := Z.min e (start_of (span h) rs2 - missing rs1)) in *.
    assert (Hseg : range_list (base + (p + missing rs1) ..< base + (p + missing rs1) + (q - p)) =
                   map (Z.add base) (zsub (present h) p q)).
    { rewrite (present_zsub_gap _ _ _ _ _ Hr) by lia. unfold range_list. simpl.
      replace (q + missing rs1 - (p + missing rs1)) with (q - p) by lia.
      replace (base + (p + missing rs1) + (q - p) - (base + (p + missing rs1))) with (q - p) by lia.
      symmetry. apply fmap_add_seqZ. }
    rewrite Hseg. rewrite (zsub_app _ p q e), map_app, app_assoc by lia.
    destruct (Z.leb_spec e q).
    + rewrite extend_loop_done by done. by rewrite (zsub_nil _ q) by done; rewrite app_nil_r.
    + apply Hnext; [lia..|]. intros ->. specialize (Hend eq_refl). lia.
  - apply Hnext; [lia..|]. intros ->. specialize (Hend eq_refl). lia.
Qed.

(** [extend_values] appends the values at the positions of the range. *)
Lemma extend_values_ok h base positions values : wf h -> 0 <= base -> base + span h <= U64_MAX -> 0 <= start positions ->
  extend_values h base positions values =
    Ok (values ++ map (Z.add base) (zsub (present h) (start positions) (Z.min (end_ positions) (zlen (present h))))).
Proof.
  intros Hwf Hb0 Hb Hs. unfold extend_values. rewrite present_len_ok by done. mon. destruct Hwf as [rs Hr].
  destruct (runs_before_position_ok h rs (start positions) Hr) as (rs1 & rs2 & -> & -> & Hlo & _). mon.
  apply (hr_extend_loop_ok _ _ _ _ rs2); [done..| |done|by apply Hlo|lia].
  rewrite (repr_starts _ _ Hr), length_map, length_app. lia.
Qed.

(** ** Construction *)

Lemma try_new_loop_ok span rs pb m prev lo : u32_ok span -> runs_ok lo span rs -> 0 <= m <= lo ->
  match prev with Some p => p < lo | None => True end ->
  try_new_loop span rs pb m prev = Ok (pb ++ take (length rs) (counts span m rs), m + missing rs) /\
  0 <= m + missing rs <= Z.max span m.
Proof.
  intros Hspan. revert pb m prev lo. induction rs as [|[s e] rs IH]; intros pb m prev lo Hok Hm Hp.
  - simpl. change (missing []) with 0. rewrite app_nil_r, Z.add_0_r. split; [done|lia].
  - simpl in Hok. destruct Hok as (H1 & H2 & H3). simpl try_new_loop. uok. rewrite Z.geb_leb, Z.gtb_ltb.
    destruct (Z.leb_spec e s); [lia|]. destruct (Z.ltb_spec span e); [lia|].
    assert ((match prev with Some p => p >=? s | None => false end) = false) as ->.
    { destruct prev as [p|]; [|done]. rewrite Z.geb_leb. apply Z.leb_gt. lia. }
    unwrap. destruct (IH (pb ++ [s - m]) (m + (e - s)) (Some e) (e + 1)) as [-> Hb]; [done|lia|lia|].
    rewrite missing_cons. split; [|lia]. simpl. rewrite <- app_assoc. simpl. do 2 f_equal. lia.
Qed.

Lemma counts_snoc span m rs : counts span m rs = take (length rs) (counts span m rs) ++ [span - (m + missing rs)].
Proof.
  revert m. induction rs as [|[s e] rs IH]; intros m; simpl.
  - change (missing []) with 0. by rewrite Z.add_0_r.
  - rewrite missing_cons. f_equal. rewrite IH at 1. do 2 f_equal. f_equal. lia.
Qed.

(** Valid runs are accepted and represented. *)
Lemma try_new_ok sp rs : u32_ok sp -> runs_ok 0 sp rs ->
  exists h, try_new sp (map fst rs) (map snd rs) = Ok h /\ repr h rs /\ span h = sp.
Proof.
  intros Hs Hok. unfold try_new. rewrite !zlen_map, Z.eqb_refl. simpl negb. cbv iota.
  replace (zip (map fst rs) (map snd rs)) with rs by (symmetry; apply zip_fst_snd).
  destruct (try_new_loop_ok sp rs [] 0 None 0) as [-> Hb]; [done..|]. mon. eexists. split; [done|].
  split; [|done]. constructor; [done..|]. simpl. uok. unwrap. by rewrite <- counts_snoc.
Qed.

(** Only valid runs are accepted. *)
Lemma try_new_loop_inv span rs pb m prev r : Forall (fun p => u32_ok (fst p)) rs ->
  match prev with Some p => -1 <= p | None => True end ->
  try_new_loop span rs pb m prev = Ok r -> runs_ok (match prev with Some p => p + 1 | None => 0 end) span rs.
Proof.
  revert pb m prev. induction rs as [|[s e] rs IH]; intros pb m prev Hu Hp; simpl; [done|].
  apply Forall_cons in Hu as [Hs Hu]. simpl in Hs. uok. rewrite Z.geb_leb, Z.gtb_ltb.
  destruct (Z.leb_spec e s); [done|]. destruct (Z.ltb_spec span e); [done|].
  destruct prev as [p|]; [rewrite Z.geb_leb; destruct (Z.leb_spec s p); [done|]|];
    intros Hok; (apply IH in Hok; [split; [lia|done]|done|lia]).
Qed.

Lemma try_new_inv sp starts_ ends h : u32_ok sp -> Forall u32_ok starts_ -> try_new sp starts_ ends = Ok h ->
  zlen starts_ = zlen ends /\ runs_ok 0 sp (zip starts_ ends).
Proof.
  intros Hs Hu. unfold try_new. destruct (Z.eqb_spec (zlen starts_) (zlen ends)) as [E|]; simpl; [|done].
  destruct (try_new_loop sp (zip starts_ ends) [] 0 None) eqn:El; [|done..]. intros _. split; [done|].
  eapply (try_new_loop_inv sp _ [] 0 None); [|done|done].
  clear -Hu. revert ends. induction Hu; intros [|]; constructor; auto.
Qed.

(** The bounds a caller passes come back as the missing offsets. *)
Lemma try_new_spec sp starts_ ends h : u32_ok sp -> Forall u32_ok starts_ -> try_new sp starts_ ends = Ok h ->
  repr h (zip starts_ ends) /\ span h = sp.
Proof.
  intros Hs Hu Ht. destruct (try_new_inv _ _ _ _ Hs Hu Ht) as [Hl Hok].
  destruct (try_new_ok sp (zip starts_ ends) Hs Hok) as (h' & Ht' & Hr & Hsp).
  unfold zlen in Hl. rewrite fst_zip, snd_zip in Ht' by lia.
  rewrite Ht in Ht'. by injection Ht' as <-.
Qed.

(** ** Runs of a bitmap *)

(** The bit-by-bit scan of the positions [lo..hi]. *)
Definition scan_range (bits : Z -> bool) (s : Scan) (lo hi : Z) : Scan :=
  foldl (fun s i => scan_bit s (bits i) i) s (range_list (lo ..< hi)).

Lemma scan_range_app bits s a b c : a <= b -> b <= c ->
  scan_range bits s a c = scan_range bits (scan_range bits s a b) b c.
Proof. intros. unfold scan_range. by rewrite (range_list_app a b c), foldl_app by done. Qed.

Lemma scan_range_ext bits bits' s a b : (forall i, a <= i < b -> bits i = bits' i) ->
  scan_range bits s a b = scan_range bits' s a b.
Proof.
  intros H. unfold scan_range. assert (Hl : Forall (fun i => bits i = bits' i) (range_list (a ..< b))).
  { apply Forall_forall. intros i Hi%elem_of_range_list. by apply H. }
  revert s. induction Hl as [|i l Hi _ IH]; intros s; simpl; [done|]. by rewrite Hi, IH.
Qed.

(** A stretch of equal bits acts like its first. *)
Lemma scan_range_const bits s a b x : a < b -> (forall i, a <= i < b -> bits i = x) ->
  scan_range bits s a b = scan_bit s x a.
Proof.
  intros Hab H. rewrite (scan_range_ext bits (fun _ => x)) by done. unfold scan_range.
  rewrite range_list_cons by done. simpl.
  assert (Hidem : forall l, foldl (fun s i => scan_bit s x i) (scan_bit s x a) l = scan_bit s x a).
  { induction l as [|i l IH]; simpl; [done|]. rewrite <- IH at 2. f_equal.
    unfold scan_bit. destruct x, (open_run s) eqn:E; simpl; rewrite ?E; done. }
  apply Hidem.
Qed.

Lemma scan_bits_range n s present offset bit : 0 <= offset -> 0 <= bit -> offset + bit + Z.of_nat n <= U32_MAX ->
  scan_bits n s present offset bit =
  scan_range (fun i => Z.testbit present (i - (offset + bit))) s (offset + bit) (offset + bit + Z.of_nat n).
Proof.
  revert s present bit. induction n as [|n IH]; intros s present bit Ho Hb Hn; simpl scan_bits.
  - unfold scan_range. by rewrite range_list_nil by lia.
  - rewrite IH by lia. unwrap. unfold scan_range. rewrite (range_list_cons (offset + bit)) by lia. simpl foldl.
    rewrite Z.sub_diag. replace (negb (Z.land present 1 =? 0)) with (Z.testbit present 0)
      by (symmetry; apply (testbit_land_pow2 present 0); lia).
    replace (offset + (bit + 1)) with (offset + bit + 1) by lia.
    replace (offset + bit + Z.of_nat (S n)) with (offset + bit + 1 + Z.of_nat n) by lia.
    apply (scan_range_ext _ (fun i => Z.testbit present (i - (offset + bit)))).
    intros i Hi. rewrite Z.shiftr_spec by lia. f_equal. lia.
Qed.

Lemma padding_mask_bit v j : 1 <= v <= 8 -> 0 <= j < 8 -> Z.testbit (padding_mask v) j = (v <=? j).
Proof.
  intros Hv Hj. unfold padding_mask. destruct (Z.ltb_spec v 8).
  - by apply Bitmap.head_mask; lia.
  - rewrite Z.bits_0. symmetry. apply Z.leb_gt. lia.
Qed.

Lemma scan_bytes_range d span bytes k s : Forall u8_ok d -> zlen d = div_ceil span 8 -> 0 <= span <= U32_MAX ->
  drop k d = bytes ->
  scan_bytes bytes span s (8 * Z.of_nat k) = scan_range (Bitmap.bitat d) s (8 * Z.of_nat k) span.
Proof.
  intros Hd Hl Hspan. pose proof (Bitmap.div_ceil_8 span (proj1 Hspan)) as [Hc _].
  revert k s. induction bytes as [|byte bytes IH]; intros k s Hk.
  - simpl. apply (f_equal length) in Hk. rewrite length_drop in Hk. simpl in Hk. unfold zlen in Hl.
    unfold scan_range. rewrite range_list_nil by lia. done.
  - assert (Hbyte : get_opt d (Z.of_nat k) = Some byte).
    { rewrite get_opt_nat. rewrite <- (Nat.add_0_r k), <- lookup_drop, Hk. done. }
    apply get_opt_Some in Hbyte as Hkr. simpl. set (off := 8 * Z.of_nat k). unwrap.
    set (v := Z.min (span - off) 8). assert (Hv : 1 <= v <= 8) by lia.
    assert (Hbit : forall j, 0 <= j < 8 -> Z.testbit (Z.lor byte (padding_mask v)) j = (v <=? j) || Bitmap.bitat d (off + j)).
    { intros j Hj. rewrite Z.lor_spec, padding_mask_bit, orb_comm by lia. f_equal.
      assert ((off + j) / 8 = Z.of_nat k) as E by (unfold off; rewrite Z.add_comm, Z.mul_comm, Z.div_add, Z.div_small; lia).
      rewrite (Bitmap.bitat_byte _ _ byte) by (by rewrite E). f_equal.
      unfold off. rewrite Z.add_comm, Z.mul_comm, Z.mod_add, Z.mod_small; lia. }
    remember (Z.lor byte (padding_mask v)) as present eqn:Ep.
    assert (Hnext : forall s', s' = scan_range (Bitmap.bitat d) s off (off + v) ->
      (if off + 8 >=? span then s' else scan_bytes bytes span s' (off + 8)) = scan_range (Bitmap.bitat d) s off span).
    { intros s' ->. rewrite (scan_range_app _ s off (off + v) span) by lia. rewrite Z.geb_leb.
      destruct (Z.leb_spec span (off + 8)).
      - unfold scan_range at 2. by rewrite range_list_nil by lia.
      - replace (off + 8) with (8 * Z.of_nat (S k)) by lia. rewrite IH.
        + by replace (8 * Z.of_nat (S k)) with (off + v) by lia.
        + by rewrite <- (Nat.add_1_r k), <- drop_drop, Hk. }
    assert (Hmid : (if present =? U8_MAX then
       match open_run s with Some start => mkScan (sc_starts s ++ [start]) (sc_ends s ++ [off]) None | None => s end
       else if present =? 0 then
         match open_run s with Some _ => s | None => mkScan (sc_starts s) (sc_ends s) (Some off) end
       else scan_bits (Z.to_nat v) s present off 0) = scan_range (Bitmap.bitat d) s off (off + v)).
    { destruct (Z.eqb_spec present U8_MAX) as [E1|E1]; [|destruct (Z.eqb_spec present 0) as [E0|E0]].
      - rewrite (scan_range_const _ _ _ _ true) by (lia || (intros i Hi; specialize (Hbit (i - off));
          rewrite E1, testbit_255 in Hbit by lia; replace (off + (i - off)) with i in Hbit by lia;
          rewrite (proj2 (Z.leb_gt v _)), (proj2 (Z.ltb_lt _ 8)) in Hbit by lia; symmetry; apply Hbit; lia)).
        unfold scan_bit. by destruct (open_run s).
      - rewrite (scan_range_const _ _ _ _ false) by (lia || (intros i Hi; specialize (Hbit (i - off));
          rewrite E0, Z.bits_0 in Hbit; replace (off + (i - off)) with i in Hbit by lia;
          rewrite (proj2 (Z.leb_gt v _)) in Hbit by lia; symmetry; apply Hbit; lia)).
        unfold scan_bit. by destruct (open_run s).
      - rewrite scan_bits_range by lia. rewrite Z.add_0_r, Z2Nat.id by lia. apply scan_range_ext. intros i Hi.
        rewrite Hbit by lia. replace (off + (i - off)) with i by lia. by rewrite (proj2 (Z.leb_gt v _)) by lia. }
    by apply Hnext.
Qed.

(** After scanning [0..p]: the closed runs are valid and, with the open one,
    cover exactly the clear positions. *)
Record scan_inv (bits : Z -> bool) (p : Z) (s : Scan) (rs : list (Z * Z)) : Prop := mk_scan_inv {
  inv_starts : sc_starts s = map fst rs;
  inv_ends : sc_ends s = map snd rs;
  inv_ok : runs_ok 0 p rs;
  inv_open : end_of (-1) rs < match open_run s with Some st => st | None => p end;
  inv_open_pos : match open_run s with Some st => 0 <= st < p | None => True end;
  inv_bits : forall i, 0 <= i < p -> bits i = false <->
    in_runs rs i \/ (exists st, open_run s = Some st /\ st <= i) }.

Lemma runs_ok_span lo sp sp' rs : sp <= sp' -> runs_ok lo sp rs -> runs_ok lo sp' rs.
Proof.
  intros H. revert lo. induction rs as [|[s e] rs IH]; intros lo; simpl; [done|].
  intros (? & ? & ?). split; [done|]. split; [lia|]. by apply IH.
Qed.

Lemma runs_ok_snoc sp rs s e : runs_ok 0 sp rs -> end_of (-1) rs < s -> 0 <= s < e -> e <= sp -> runs_ok 0 sp (rs ++ [(s, e)]).
Proof.
  intros Hok Hlt Hs He. apply runs_ok_app. split; [done|]. simpl.
  destruct rs as [|[a b] rs]; [lia|]. rewrite !end_of_cons in *. lia.
Qed.

Lemma in_runs_snoc rs s e i : in_runs (rs ++ [(s, e)]) i <-> in_runs rs i \/ s <= i < e.
Proof.
  unfold in_runs. split.
  - intros (a & b & [Hin|Hin]%elem_of_app & Hi); [left; eauto|].
    apply list_elem_of_singleton in Hin. injection Hin as -> ->. by right.
  - intros [(a & b & Hin & Hi)|Hi]; [exists a, b|exists s, e]; (split; [|done]); apply elem_of_app; [by left|right].
    by apply list_elem_of_singleton.
Qed.

Lemma in_runs_lt lo sp rs i : runs_ok lo sp rs -> in_runs rs i -> i < end_of lo rs.
Proof.
  revert lo. induction rs as [|[s e] rs IH]; intros lo Hok (a & b & Hin & Hi); [by apply elem_of_nil in Hin|].
  simpl in Hok. destruct Hok as (H1 & H2 & H3). rewrite end_of_cons.
  assert (H3' : runs_ok e sp rs) by (by eapply runs_ok_weaken; [|done]; lia).
  apply elem_of_cons in Hin as [[= -> ->]|Hin].
  - pose proof (hr_runs_bounds e sp rs ltac:(lia) H3'). lia.
  - apply IH; [done|]. by exists a, b.
Qed.

Lemma scan_step bits p s rs : 0 <= p -> scan_inv bits p s rs ->
  exists rs', scan_inv bits (p + 1) (scan_bit s (bits p) p) rs'.
Proof.
  intros Hp [Hs He Hok Ho Hop Hb]. unfold scan_bit.
  assert (Hnot : forall i, in_runs rs i -> i < p).
  { intros i Hi. pose proof (in_runs_lt _ _ _ _ Hok Hi). destruct (hr_runs_bounds 0 p rs) as [_ ?]; [done..|]. lia. }
  destruct (bits p) eqn:E, (open_run s) as [st|] eqn:Eo.
  - exists (rs ++ [(st, p)]). constructor; simpl; rewrite ?Eo.
    + by rewrite Hs, map_app.
    + by rewrite He, map_app.
    + apply runs_ok_snoc; [by eapply runs_ok_span; [|done]; lia|lia..].
    + rewrite end_of_snoc. lia.
    + done.
    + intros i Hi. rewrite in_runs_snoc. destruct (decide (i = p)) as [->|].
      * rewrite E. split; [done|]. intros [[?%Hnot|?]|(? & ? & ?)]; [lia|lia|done].
      * rewrite Hb by lia. split; [intros [?|(x & [= <-] & ?)]; [tauto|left; right; lia]|].
        intros [[?|?]|(? & ? & ?)]; [tauto| |done]. right. exists st. split; [done|lia].
  - exists rs. constructor; rewrite ?Eo; [done|done|by eapply runs_ok_span; [|done]; lia|lia|done|].
    intros i Hi. destruct (decide (i = p)) as [->|]; [|apply Hb; lia].
    rewrite E. split; [done|]. intros [?%Hnot|(? & ? & ?)]; [lia|done].
  - exists rs. constructor; rewrite ?Eo; [done|done|by eapply runs_ok_span; [|done]; lia|lia|lia|].
    intros i Hi. destruct (decide (i = p)) as [->|]; [|apply Hb; lia].
    rewrite E. split; [|done]. intros _. right. exists st. split; [done|lia].
  - exists rs. constructor; simpl; rewrite ?Eo; [done|done|by eapply runs_ok_span; [|done]; lia|lia|lia|].
    intros i Hi. destruct (decide (i = p)) as [->|].
    + rewrite E. split; [|done]. intros _. right. by exists p.
    + rewrite Hb by lia. split; [intros [?|(? & ? & ?)]; [tauto|done]|].
      intros [?|(x & [= <-] & ?)]; [tauto|lia].
Qed.

Lemma scan_all bits p : 0 <= p -> exists rs, scan_inv bits p (scan_range bits (mkScan [] [] None) 0 p) rs.
Proof.
  intros Hp. pattern p. apply natlike_ind; [| |done].
  - exists []. constructor; [done|done|done|unfold end_of; simpl; lia|done|]. intros i Hi. lia.
  - intros q Hq [rs Hinv]. rewrite <- Z.add_1_r. rewrite (scan_range_app _ _ 0 q (q + 1)) by lia.
    unfold scan_range at 1. rewrite (range_list_cons q) by lia. rewrite range_list_nil by lia. simpl.
    by apply (scan_step _ _ _ rs).
Qed.

(** [from_bitmap] never fails and its present offsets are the set bits. *)
Lemma from_bitmap_ok b : Bitmap.wf b -> Bitmap.len b <= U32_MAX ->
  exists h, from_bitmap b = Ok h /\ wf h /\ span h = Bitmap.len b /\
    present h = List.filter (Bitmap.bitat (Bitmap.data b)) (range_list (0 ..< Bitmap.len b)).
Proof.
  intros Hwf Hmax. destruct Hwf as [Hlen Hby Hd _]. unfold from_bitmap, Bitmap.bytes.
  set (n := Bitmap.len b) in *. set (bits := Bitmap.bitat (Bitmap.data b)).
  rewrite (scan_bytes_range (Bitmap.data b) n _ 0) by (done || lia). change (8 * Z.of_nat 0) with 0.
  destruct (scan_all bits n ltac:(lia)) as [rs [Hs He Hok Ho Hop Hb]]. fold bits. unwrap.
  set (s := scan_range bits (mkScan [] [] None) 0 n) in *.
  set (s' := match open_run s with Some st => _ | None => _ end).
  assert (Hfin : exists rs', sc_starts s' = map fst rs' /\ sc_ends s' = map snd rs' /\ runs_ok 0 n rs' /\
            forall i, 0 <= i < n -> bits i = false <-> in_runs rs' i).
  { unfold s'. destruct (open_run s) as [st|] eqn:Eo.
    - exists (rs ++ [(st, n)]). simpl. rewrite Hs, He, !map_app. do 2 (split; [done|]).
      split; [apply runs_ok_snoc; (done || lia)|]. intros i Hi. rewrite Hb, in_runs_snoc by done.
      split; [intros [?|(x & [= <-] & ?)]; [tauto|right; lia]|]. intros [?|?]; [tauto|]. right. exists st. split; [done|lia].
    - exists rs. do 3 (split; [done|]). intros i Hi. rewrite Hb by done.
      split; [intros [?|(? & ? & ?)]; [done|done]|tauto]. }
  destruct Hfin as (rs' & -> & -> & Hok' & Hb').
  destruct (try_new_ok n rs') as (h & -> & Hr & Hsp); [uok; lia|done|]. exists h. split; [done|].
  split; [by exists rs'|]. split; [done|]. apply ssorted_ext.
  - apply present_ssorted. by exists rs'.
  - apply ssorted_filter, ssorted_range_list.
  - intros i. rewrite (present_elem _ _ _ Hr), elem_of_filterb, elem_of_range_list, Hsp. simpl.
    destruct (decide (0 <= i < n)) as [Hi|]; [|tauto]. rewrite <- (Hb' i Hi), not_false_iff_true. done.
Qed.

(** ** Properties *)

(** On a well-formed value every query agrees with the list of present
    offsets: the length, the position of an offset (none for a hole or beyond
    the span), the offset at a position, the ranges between the runs, and the
    batch expansion of a range of positions; [position] and [offset_at] are
    inverse to each other. *)
Theorem hole_runs_queries h : wf h ->
  present_len h = Ok (zlen (present h)) /\
  (forall o, 0 <= o -> position h o = Ok (index_of o (present h))) /\
  (forall p, 0 <= p -> offset_at h p = Ok (get_opt (present h) p)) /\
  (forall o p, 0 <= o -> 0 <= p -> position h o = Ok (Some p) <-> offset_at h p = Ok (Some o)) /\
  (exists rs, present_ranges h = Ok rs /\ flat_map range_list rs = present h) /\
  (forall base r values, 0 <= base -> base + span h <= U64_MAX -> 0 <= start r ->
     extend_values h base r values =
       Ok (values ++ map (Z.add base) (zsub (present h) (start r) (Z.min (end_ r) (zlen (present h)))))).
Proof.
  intros Hwf. split; [by apply present_len_ok|]. split; [intros; by apply hr_position_ok|].
  split; [intros; by apply offset_at_ok|]. split.
  - intros o p Ho Hp. rewrite hr_position_ok, offset_at_ok by done.
    pose proof (index_of_Some o (present h) p (ssorted_NoDup _ (present_ssorted h Hwf))) as H.
    split; intros [= E]; f_equal; by apply H.
  - split; [destruct (present_ranges_ok h Hwf) as (rs & ? & ? & _); eauto|].
    intros. by apply extend_values_ok.
Qed.

Lemma hole_runs_queries_witness : exists h, try_new 20 [3; 8] [7; 15] = Ok h /\
  position h 7 = Ok (Some 3) /\ offset_at h 3 = Ok (Some 7).
Proof.
  destruct (try_new_ok 20 [(3, 7); (8, 15)]) as (h & E & Hr & _); [uok; lia|simpl; lia|].
  exists h. split; [exact E|]. destruct (hole_runs_queries h) as (_ & H1 & _ & H2 & _); [by eexists|].
  assert (P : position h 7 = Ok (Some 3)) by (rewrite H1 by lia; vm_compute in E; injection E as <-; vm_compute; done).
  split; [done|]. by apply H2; [lia..|].
Defined.

(** [try_new] accepts exactly the run bounds that are non-empty, in order,
    disjoint, non-adjacent and within the span; what it builds misses exactly
    the offsets of those runs. *)
Theorem hole_runs_try_new sp sts ends : u32_ok sp -> Forall u32_ok sts ->
  (zlen sts = zlen ends /\ runs_ok 0 sp (zip sts ends) <-> exists h, try_new sp sts ends = Ok h) /\
  (forall h, try_new sp sts ends = Ok h -> wf h /\ span h = sp /\
     forall o, o ∈ present h <-> 0 <= o < sp /\ ~ in_runs (zip sts ends) o).
Proof.
  intros Hs Hu. split; [split|].
  - intros [Hl Hok]. destruct (try_new_ok sp _ Hs Hok) as (h & E & _). unfold zlen in Hl.
    rewrite fst_zip, snd_zip in E by lia. eauto.
  - intros [h Hh]. by apply try_new_inv in Hh.
  - intros h Hh. destruct (try_new_spec _ _ _ _ Hs Hu Hh) as [Hr Hsp]. split; [by eexists|]. split; [done|].
    intros o. rewrite (present_elem _ _ _ Hr), Hsp. done.
Qed.

Lemma hole_runs_try_new_witness : exists h, try_new 20 [3; 8] [7; 15] = Ok h /\ 4 ∉ present h.
Proof.
  destruct (hole_runs_try_new 20 [3; 8] [7; 15]) as [[H1 _] H2]; [uok; lia|repeat constructor; uok; lia|].
  destruct H1 as [h Hh]; [split; [done|simpl; lia]|]. exists h. split; [done|].
  destruct (H2 h Hh) as (_ & _ & H3). rewrite H3. intros [_ Hn]. apply Hn. exists 3, 7. split; [by left|lia].
Defined.

(** The byte-wise extraction of runs from a bitmap never fails and yields
    the maximal runs of its clear bits: the present offsets are exactly the
    set bits. *)
Theorem hole_runs_from_bitmap b : Bitmap.wf b -> Bitmap.len b <= U32_MAX ->
  exists h, from_bitmap b = Ok h /\ wf h /\ span h = Bitmap.len b /\
    present h = List.filter (Bitmap.bitat (Bitmap.data b)) (range_list (0 ..< Bitmap.len b)).
Proof. apply from_bitmap_ok. Qed.

Lemma hole_runs_from_bitmap_witness : exists b h, Bitmap.new_full 20 = Ok b /\ from_bitmap b = Ok h /\
  zlen (present h) = 20.
Proof.
  destruct Bitmap.new_full_20 as (b & E & Hwf & Hl).
  destruct (hole_runs_from_bitmap b Hwf) as (h & Eh & _ & _ & Hp); [lia|].
  exists b, h. do 2 (split; [done|]). rewrite Hp. vm_compute in E. injection E as <-. vm_compute. done.
Defined.
