(* ===== verification/Segment.v ===== *)
(** * Row-id segments: representation and queries

    [lance-table/src/rowids/segment.rs]: a sequence of [u64] row ids in one of
    six encodings.  The specification of a segment is the list [elems] of its
    values; this file models the readers ([iter], [len], [range], [position],
    [get], [contains] and the resumable bitmap scan behind [get]) and proves
    that each of them is the list operation on [elems]. *)

From Stdlib Require Import ZArith Lia.
From stdpp Require Import base option list numbers sorting sets gmap.
From S2P Require Import Prelude Lists Bits Bitmap EncodedArray HoleRuns.

(** ** Model *)

Inductive U64Segment :=
| Range_ (range : Range)
| RangeWithHoles (range : Range) (holes : EncodedU64Array)
| RangeWithBitmap (range : Range) (bitmap : Bitmap)
| Ranges (range : Range) (runs : HoleRuns)
| SortedArray (array : EncodedU64Array)
| Array (array : EncodedU64Array).

#[global] Instance U64Segment_eq_dec : EqDecision U64Segment.
Proof. solve_decision. Defined.

Definition is_err {A B} (r : A + B) : bool := match r with inl _ => false | inr _ => true end.
Definition is_ok {A B} (r : A + B) : bool := negb (is_err r).
Definition ok {A B} (r : A + B) : option A := match r with inl a => Some a | inr _ => None end.

Definition iter (s : U64Segment) : res (list Z) :=
  match s with
  | Range_ range => Ok (range_list range)
  | RangeWithHoles range holes =>
      Ok (List.filter (fun val => is_err (EncodedArray.binary_search holes val)) (range_list range))
  | RangeWithBitmap range bitmap =>
      filter_res (fun val => Bitmap.get bitmap (val -w start range)) (range_list range)
  | Ranges range runs =>
      rs ← HoleRuns.present_ranges runs;
      Ok (flat_map (fun offsets => range_list (start range +w start offsets ..< start range +w end_ offsets)) rs)
  | SortedArray array | Array array => Ok (EncodedArray.iter array)
  end.

Definition len (s : U64Segment) : res Z :=
  match s with
  | Range_ range => Ok (end_ range -w start range)
  | RangeWithHoles range holes => Ok ((end_ range -w start range) -w EncodedArray.len holes)
  | RangeWithBitmap range bitmap =>
      let holes := Bitmap.count_zeros bitmap in
      Ok ((end_ range -w start range) -w holes)
  | Ranges _ runs => HoleRuns.present_len runs
  | SortedArray array | Array array => Ok (EncodedArray.len array)
  end.

Definition is_empty (s : U64Segment) : res bool := n ← len s; Ok (n =? 0).

Definition use_dense_range_expansion (s : U64Segment) (segment_len : Z) : bool :=
  match s with
  | RangeWithBitmap _ bitmap =>
      let dense_threshold := saturating_sub (Bitmap.len bitmap) (Bitmap.len bitmap / 4) in
      dense_threshold <=? segment_len
  | _ => false
  end.

Definition range (s : U64Segment) : option RangeInclusive :=
  match s with
  | Range_ r | RangeWithBitmap r _ | Ranges r _ | RangeWithHoles r _ =>
      if negb (range_is_empty r) then Some (start r, end_ r -w 1) else None
  | SortedArray array => f ← EncodedArray.first array; l ← EncodedArray.last array; Some (f, l)
  | Array array => f ← EncodedArray.min array; l ← EncodedArray.max array; Some (f, l)
  end.

Definition position (s : U64Segment) (val : Z) : res (option Z) :=
  match s with
  | Range_ r => Ok (if range_contains r val then Some (val -w start r) else None)
  | RangeWithHoles r holes =>
      if negb (range_contains r val) then Ok None else
      match EncodedArray.binary_search holes val with
      | inl _ => Ok None
      | inr num_holes_before => Ok (Some ((val -w start r) -w num_holes_before))
      end
  | Ranges r runs =>
      if negb (range_contains r val) then Ok None else
      HoleRuns.position runs (wrap32 (val -w start r))
  | RangeWithBitmap r bitmap =>
      hit ← (if range_contains r val then Bitmap.get bitmap (val -w start r) else Ok false);
      if hit : bool then
        let offset := val -w start r in
        num_zeros ← Bitmap.slice_count_zeros (Bitmap.slice bitmap 0 offset);
        Ok (Some (offset -w num_zeros))
      else Ok None
  | SortedArray array => Ok (ok (EncodedArray.binary_search array val))
  | Array array => Ok (iter_position (fun v => v =? val) (EncodedArray.iter array))
  end.

(** The scan position a [SegmentCursor] keeps between calls. *)
Record SegmentCursorState := mkCursor { byte_idx : Z; ones_before : Z }.

Definition cursor_default : SegmentCursorState := mkCursor 0 0.

(** [for _ in 0..remaining { b &= b - 1 }] *)
Fixpoint clear_lowest (n : nat) (b : Z) : Z :=
  match n with O => b | S n' => clear_lowest n' (Z.land b (wrap8 (b - 1))) end.

(** The [while let Some(&byte)] loop of [SegmentCursorState::get]. *)
Fixpoint select_loop (fuel : nat) (st : SegmentCursorState) (range_start : Z) (bitmap_bytes : list Z)
    (remaining : Z) : option Z * SegmentCursorState :=
  match fuel with
  | O => (None, st)
  | S fuel' =>
      match get_opt bitmap_bytes (byte_idx st) with
      | None => (None, st)
      | Some byte =>
          let ones := count_ones_w 8 byte in
          if remaining <? ones then
            let b := clear_lowest (Z.to_nat remaining) byte in
            let bit := trailing_zeros 8 b in
            (Some (range_start +w (byte_idx st * 8 +w bit)), st)
          else
            select_loop fuel' (mkCursor (byte_idx st +w 1) (ones_before st +w ones)) range_start
              bitmap_bytes (remaining -w ones)
      end
  end.

(** The loop of [U64Segment::get] on a range with holes. *)
Fixpoint holes_loop (fuel : nat) (holes : EncodedU64Array) (target lo hi : Z) : res Z :=
  match fuel with
  | O => Ok lo
  | S fuel' =>
      if lo <? hi then
        let mid := (lo +w hi) / 2 in
        o ← EncodedArray.get holes mid;
        h ← unwrap_opt o;
        if saturating_sub h mid >? target then holes_loop fuel' holes target lo mid
        else holes_loop fuel' holes target (mid +w 1) hi
      else Ok lo
  end.

(** [SegmentCursorState::get] on a range with a bitmap. *)
Definition cursor_get_bitmap (st : SegmentCursorState) (r : Range) (bitmap : Bitmap) (i : Z)
    : option Z * SegmentCursorState :=
  let st := if i <? ones_before st then mkCursor 0 0 else st in
  let remaining := i -w ones_before st in
  select_loop (S (length (Bitmap.bytes bitmap))) st (start r) (Bitmap.bytes bitmap) remaining.

Definition get (s : U64Segment) (i : Z) : res (option Z) :=
  match s with
  | Range_ r =>
      Ok (match checked_add (start r) i with
          | Some val => if val <? end_ r then Some val else None
          | None => None
          end)
  | RangeWithHoles r holes =>
      let len := (end_ r -w start r) -w EncodedArray.len holes in
      if i >=? len then Ok None else
      let target := start r +w i in
      lo ← holes_loop (S (Z.to_nat (EncodedArray.len holes))) holes target 0 (EncodedArray.len holes);
      Ok (Some ((start r +w i) +w lo))
  | RangeWithBitmap r bitmap => Ok (fst (cursor_get_bitmap cursor_default r bitmap i))
  | Ranges r runs =>
      if i <=? U32_MAX then
        o ← HoleRuns.offset_at runs i;
        Ok (option_map (fun offset => start r +w offset) o)
      else Ok None
  | SortedArray array | Array array => EncodedArray.get array i
  end.

(** [SegmentCursorState::get] *)
Definition cursor_get (st : SegmentCursorState) (s : U64Segment) (i : Z)
    : res (option Z * SegmentCursorState) :=
  match s with
  | RangeWithBitmap r bitmap => Ok (cursor_get_bitmap st r bitmap i)
  | _ => o ← get s i; Ok (o, st)
  end.

Definition contains (s : U64Segment) (val : Z) : res bool :=
  match s with
  | Range_ r => Ok (range_contains r val)
  | RangeWithHoles r holes =>
      if negb (range_contains r val) then Ok false else
      Ok (negb (existsb (fun hole => hole =? val) (EncodedArray.iter holes)))
  | RangeWithBitmap r bitmap =>
      if negb (range_contains r val) then Ok false else
      Bitmap.get bitmap (val -w start r)
  | Ranges r runs =>
      if range_contains r val then
        o ← HoleRuns.position runs (wrap32 (val -w start r)); Ok (bool_decide (is_Some o))
      else Ok false
  | SortedArray array => Ok (is_ok (EncodedArray.binary_search array val))
  | Array array => Ok (existsb (fun v => v =? val) (EncodedArray.iter array))
  end.

(** ** Specification *)

Definition elems (s : U64Segment) : list Z :=
  match s with
  | Range_ r => range_list r
  | RangeWithHoles r holes => List.filter (not_in (EncodedArray.elems holes)) (range_list r)
  | RangeWithBitmap r bitmap =>
      List.filter (fun v => Bitmap.bitat (Bitmap.data bitmap) (v - start r)) (range_list r)
  | Ranges r runs => map (Z.add (start r)) (HoleRuns.present runs)
  | SortedArray array | Array array => EncodedArray.elems array
  end.

(** What decoding and every constructor establish. *)
Definition wf (s : U64Segment) : Prop :=
  match s with
  | Range_ r => range_ok r
  | RangeWithHoles r holes =>
      range_ok r /\ EncodedArray.wf holes /\ ssorted (EncodedArray.elems holes) /\
      Forall (fun h => start r <= h < end_ r) (EncodedArray.elems holes)
  | RangeWithBitmap r bitmap => range_ok r /\ Bitmap.wf bitmap /\ Bitmap.len bitmap = end_ r - start r
  | Ranges r runs => range_ok r /\ HoleRuns.wf runs /\ HoleRuns.span runs = end_ r - start r
  | SortedArray array => EncodedArray.wf array /\ ssorted (EncodedArray.elems array)
  | Array array => EncodedArray.wf array
  end.

(** Encodings whose values are in increasing order. *)
Definition sorted_kind (s : U64Segment) : bool :=
  match s with Array _ => false | _ => true end.

(** ** The values of a segment *)

Lemma elems_bitmap r bm : start r <= end_ r ->
  elems (RangeWithBitmap r bm) = map (Z.add (start r)) (Bitmap.setpos (Bitmap.data bm) 0 (end_ r - start r)).
Proof.
  intros Hr. destruct r as [s e]. simpl in *. unfold Bitmap.setpos.
  replace (range_list (s ..< e)) with (map (Z.add s) (range_list (0 ..< e - s))).
  - rewrite Bitmap.filter_map_comm. f_equal. apply filter_ext. intros x. f_equal. lia.
  - rewrite EncodedArray.range_list_shift. do 2 f_equal. lia.
Qed.

Lemma elems_ssorted s : wf s -> sorted_kind s = true -> ssorted (elems s).
Proof.
  destruct s as [r|r h|r b|r rs|a|a]; simpl; intros Hwf Hk; auto with lance; try done.
  - apply EncodedArray.ssorted_map_add. apply HoleRuns.present_ssorted; tauto.
  - tauto.
Qed.

Lemma elems_range r s : wf s ->
  (s = Range_ r \/ (exists h, s = RangeWithHoles r h) \/ (exists b, s = RangeWithBitmap r b) \/ (exists rs, s = Ranges r rs)) ->
  range_ok r /\ Forall (fun v => start r <= v < end_ r) (elems s).
Proof.
  intros Hwf [->|[[h ->]|[[b ->]|[rs ->]]]]; simpl in *.
  - split; [done|]. apply Forall_forall. intros v ?%elem_of_range_list. done.
  - split; [tauto|]. apply Forall_forall. intros v [?%elem_of_range_list _]%elem_of_filterb. done.
  - split; [tauto|]. apply Forall_forall. intros v [?%elem_of_range_list _]%elem_of_filterb. done.
  - destruct Hwf as (H1 & H2 & H3). split; [done|]. apply Forall_fmap.
    destruct (HoleRuns.present_ok rs H2) as [H4 _]. eapply Forall_impl; [exact H4|]. simpl. lia.
Qed.

Lemma seg_elems_u64 s : wf s -> Forall u64_ok (elems s).
Proof.
  intros Hwf. destruct s as [r|r h|r b|r rs|a|a].
  5: by destruct Hwf as [? _]; apply EncodedArray.elems_ok.
  5: by apply EncodedArray.elems_ok.
  all: destruct (elems_range r _ Hwf) as [(? & ? & ?) H]; [eauto 6|]; eapply Forall_impl; [exact H|]; uok; simpl; lia.
Qed.

Lemma zlen_holes r h : wf (RangeWithHoles r h) ->
  zlen (elems (RangeWithHoles r h)) = end_ r - start r - zlen (EncodedArray.elems h).
Proof.
  intros ((? & ? & ?) & Hh & Hs & Hr). destruct r as [s e]. simpl in *.
  pose proof (holes_rank _ s e e Hs Hr ltac:(lia)) as H2. rewrite !(filter_all (fun x => x <? e)) in H2; [done|..].
  - eapply Forall_impl; [exact Hr|]. simpl. intros. apply Z.ltb_lt. lia.
  - apply Forall_forall. intros x [Hx%elem_of_range_list _]%elem_of_filterb. simpl in Hx. apply Z.ltb_lt. lia.
Qed.

Lemma zlen_bitmap r b : wf (RangeWithBitmap r b) ->
  zlen (elems (RangeWithBitmap r b)) = Bitmap.ones_in (Bitmap.data b) 0 (Bitmap.len b).
Proof.
  intros ((? & ? & ?) & Hb & Hl). rewrite elems_bitmap by done. by rewrite zlen_map, Bitmap.zlen_setpos, Hl.
Qed.

Lemma zlen_elems_le s : wf s -> zlen (elems s) <= U64_MAX.
Proof.
  intros Hwf. destruct s as [r|r h|r b|r rs|a|a]; simpl in Hwf.
  - destruct Hwf as (? & ? & ?). simpl. rewrite zlen_range_list by done. lia.
  - rewrite zlen_holes by done. destruct Hwf as ((? & ? & ?) & _). pose proof (zlen_nonneg (EncodedArray.elems h)). lia.
  - rewrite zlen_bitmap by done. destruct Hwf as ((? & ? & ?) & _ & ->).
    pose proof (Bitmap.ones_in_bound (Bitmap.data b) 0 (end_ r - start r)). lia.
  - destruct Hwf as ((? & ? & ?) & Hr & ?). simpl. rewrite zlen_map. destruct (HoleRuns.present_ok rs Hr) as (_ & ? & ?). uok. lia.
  - destruct Hwf as [[_ ?] _]. simpl. lia.
  - destruct Hwf as [_ ?]. simpl. lia.
Qed.

(** The rank of a set bit is its position in the segment. *)
Lemma bitmap_index r b i v : wf (RangeWithBitmap r b) -> get_opt (elems (RangeWithBitmap r b)) i = Some v ->
  Bitmap.ones_in (Bitmap.data b) 0 (v - start r) = i.
Proof.
  intros Hwf Hi. pose proof Hwf as ((? & ? & ?) & _ & _). rewrite elems_bitmap, get_opt_map in Hi by done.
  destruct (get_opt _ i) as [p|] eqn:E; [|done]. injection Hi as <-. replace (start r + p - start r) with p by lia.
  assert (p ∈ range_list (0 ..< end_ r - start r)) as Hp%elem_of_range_list.
  { apply (elem_of_filterb (Bitmap.bitat (Bitmap.data b))), elem_of_get_opt. eauto. }
  cbn in Hp. apply ssorted_index in E as ->; [|apply ssorted_filter, ssorted_range_list]. symmetry. unfold Bitmap.setpos, Bitmap.ones_in. f_equal.
  rewrite filter_filter. rewrite (filter_ext _ (fun x => (x <? p) && Bitmap.bitat (Bitmap.data b) x)) by (intros; apply andb_comm).
  rewrite <- (filter_filter (Bitmap.bitat (Bitmap.data b)) (fun x => x <? p)), filter_lt_range by lia. done.
Qed.

(** ** Iteration and length *)

Lemma holes_search_err h v : EncodedArray.wf h -> ssorted (EncodedArray.elems h) -> u64_ok v ->
  is_err (EncodedArray.binary_search h v) = not_in (EncodedArray.elems h) v.
Proof.
  intros Hh Hs Hv. rewrite EncodedArray.binary_search_elems by done.
  pose proof (binary_search_is_ok _ v Hs) as H. destruct (Lists.binary_search _ v) as [i|i]; simpl.
  - symmetry. apply not_in_false, H. eauto.
  - symmetry. apply not_in_true. intros [j ?]%H. done.
Qed.

Lemma flat_map_map {A B C} (f : B -> list C) (g : C -> C) (h : A -> list C) l (k : A -> B) :
  Forall (fun a => f (k a) = map g (h a)) l -> flat_map f (map k l) = map g (flat_map h l).
Proof. induction 1 as [|a l Ha _ IH]; simpl; [done|]. by rewrite Ha, IH, map_app. Qed.

Lemma seg_iter_ok s : wf s -> iter s = Ok (elems s).
Proof.
  intros Hwf. destruct s as [r|r h|r b|r rs|a|a]; simpl in *.
  - done.
  - destruct Hwf as ((? & ? & ?) & Hh & Hs & _). f_equal. apply filter_ext_Forall, Forall_forall.
    intros v Hv%elem_of_range_list. apply holes_search_err; [done..|uok; lia].
  - destruct Hwf as ((? & ? & ?) & Hb & Hl). apply filter_res_ok, Forall_forall. intros v Hv%elem_of_range_list.
    unwrap. apply Bitmap.get_wf; [done|lia].
  - destruct Hwf as ((? & ? & ?) & Hr & Hsp). destruct (HoleRuns.present_ranges_ok rs Hr) as (l & -> & <- & Hl). mon.
    f_equal. rewrite <- (map_id l) at 1. apply flat_map_map. eapply Forall_impl; [exact Hl|].
    intros [a b] Hab. simpl in *. unwrap. unfold range_list. simpl.
    replace (start r + b - (start r + a)) with (b - a) by lia. symmetry. apply fmap_add_seqZ.
  - f_equal. apply EncodedArray.iter_elems. tauto.
  - f_equal. by apply EncodedArray.iter_elems.
Qed.

Lemma seg_len_ok s : wf s -> len s = Ok (zlen (elems s)).
Proof.
  intros Hwf. destruct s as [r|r h|r b|r rs|a|a].
  - destruct Hwf as (? & ? & ?). simpl. rewrite zlen_range_list by done. by unwrap.
  - rewrite zlen_holes by done. pose proof (zlen_nonneg (elems (RangeWithHoles r h))) as Hn. rewrite zlen_holes in Hn by done.
    destruct Hwf as ((? & ? & ?) & _). simpl. rewrite EncodedArray.len_elems in *.
    pose proof (zlen_nonneg (EncodedArray.elems h)). by unwrap.
  - rewrite zlen_bitmap by done. destruct Hwf as ((? & ? & ?) & Hb & Hl). simpl. rewrite Bitmap.count_zeros_wf by done.
    pose proof (Bitmap.ones_in_bound (Bitmap.data b) 0 (Bitmap.len b)). unwrap. f_equal. lia.
  - destruct Hwf as (_ & Hr & _). simpl. by rewrite HoleRuns.present_len_ok, zlen_map.
  - simpl. by rewrite EncodedArray.len_elems.
  - simpl. by rewrite EncodedArray.len_elems.
Qed.

(** ** Membership and position *)

Lemma existsb_eq l v : existsb (fun x => x =? v) l = bool_decide (v ∈ l).
Proof.
  apply eq_true_iff_eq. rewrite existsb_exists, bool_decide_eq_true. split.
  - intros (x & Hx & ->%Z.eqb_eq). by apply list_elem_of_In.
  - intros Hv. exists v. split; [by apply list_elem_of_In|apply Z.eqb_refl].
Qed.

Lemma elems_Ranges_iff r rs v : wf (Ranges r rs) -> start r <= v < end_ r ->
  wrap32 (v -w start r) = v - start r /\ (v ∈ elems (Ranges r rs) <-> v - start r ∈ HoleRuns.present rs).
Proof.
  intros ((? & ? & ?) & Hr & Hsp) Hv. destruct (HoleRuns.present_ok rs Hr) as (_ & ? & _). uok. split; [by unwrap|].
  simpl. rewrite list_elem_of_fmap. split; [intros (y & -> & Hy); by replace (start r + y - start r) with y by lia|].
  intros Hin. exists (v - start r). split; [lia|done].
Qed.

Lemma bool_decide_is_Some_index v l : bool_decide (is_Some (index_of v l)) = bool_decide (v ∈ l).
Proof.
  apply bool_decide_ext. destruct (index_of v l) as [i|] eqn:E.
  - split; [|eauto]. intros _. destruct (decide (v ∈ l)) as [|Hn]; [done|]. apply index_of_None in Hn. congruence.
  - apply index_of_None in E. split; [intros [? ?]; done|done].
Qed.

Lemma not_in_range s r v : wf s -> Forall (fun v => start r <= v < end_ r) (elems s) ->
  range_contains r v = false -> v ∉ elems s.
Proof.
  intros _ Hf Hc Hin. rewrite Forall_forall in Hf. specialize (Hf v Hin).
  apply range_contains_spec in Hf. congruence.
Qed.

Lemma contains_ok s v : wf s -> u64_ok v -> contains s v = Ok (bool_decide (v ∈ elems s)).
Proof.
  intros Hwf Hv. assert (Hout : forall r, Forall (fun v => start r <= v < end_ r) (elems s) ->
    range_contains r v = false -> Ok false = Ok (bool_decide (v ∈ elems s))).
  { intros r Hf Hc. f_equal. symmetry. apply bool_decide_eq_false. by eapply not_in_range. }
  destruct s as [r|r h|r b|r rs|a|a]; simpl contains;
    (try (destruct (elems_range r _ Hwf) as [(? & ? & ?) Hf]; [eauto 6|]));
    (try (destruct (range_contains r v) eqn:Hc; simpl negb; cbv iota; [|by eapply Hout]; apply range_contains_spec in Hc)).
  - f_equal. symmetry. apply bool_decide_eq_true. simpl. by apply elem_of_range_list.
  - destruct Hwf as (_ & Hh & Hs & _). rewrite EncodedArray.iter_elems, existsb_eq by done. f_equal. simpl.
    rewrite <- bool_decide_not. apply bool_decide_ext. rewrite elem_of_filterb, elem_of_range_list, not_in_true. tauto.
  - destruct Hwf as (_ & Hb & Hl). unwrap. rewrite Bitmap.get_wf by (done || lia). f_equal. simpl.
    apply eq_true_iff_eq. rewrite bool_decide_eq_true, elem_of_filterb, elem_of_range_list. tauto.
  - destruct (elems_Ranges_iff _ _ _ Hwf Hc) as [-> Hiff]. destruct Hwf as (_ & Hr & _).
    rewrite HoleRuns.hr_position_ok by (done || lia). mon. f_equal. rewrite bool_decide_is_Some_index. by apply bool_decide_ext.
  - destruct Hwf as [Ha Hs]. f_equal. unfold is_ok. rewrite holes_search_err by done. unfold not_in. by rewrite negb_involutive.
  - rewrite EncodedArray.iter_elems, existsb_eq by done. done.
Qed.

Lemma iter_position_index l v : iter_position (fun x => x =? v) l = index_of v l.
Proof.
  unfold index_of. induction l as [|x l IH]; simpl; [done|]. by rewrite IH, Z.eqb_sym.
Qed.

Lemma index_of_map_add base l v : index_of (base + v) (map (Z.add base) l) = index_of v l.
Proof.
  unfold index_of. induction l as [|x l IH]; simpl; [done|]. rewrite IH.
  destruct (Z.eqb_spec (base + v) (base + x)), (Z.eqb_spec v x); done || lia.
Qed.

Lemma seg_position_ok s v : wf s -> u64_ok v -> position s v = Ok (index_of v (elems s)).
Proof.
  intros Hwf Hv. pose proof (elems_ssorted s Hwf) as Hsort. assert (Hout : v ∉ elems s -> Ok None = Ok (index_of v (elems s))).
  { intros Hn. f_equal. symmetry. by apply index_of_None. }
  destruct s as [r|r h|r b|r rs|a|a]; simpl position;
    (try (destruct (elems_range r _ Hwf) as [(? & ? & ?) Hf]; [eauto 6|]));
    (try (destruct (range_contains r v) eqn:Hc; simpl negb; cbv iota;
          [|apply Hout; by eapply not_in_range]; apply range_contains_spec in Hc)).
  - f_equal. unwrap. symmetry. apply index_of_Some; [apply ssorted_NoDup, Hsort; done|]. simpl. unfold range_list.
    rewrite get_opt_seqZ by lia. f_equal. lia.
  - pose proof Hwf as (_ & Hh & Hs & Hr). pose proof (holes_search_err h v Hh Hs Hv) as He.
    destruct (EncodedArray.binary_search h v) as [i|i] eqn:E; simpl in He.
    + apply Hout. simpl. rewrite elem_of_filterb. intros [_ ?]. congruence.
    + rewrite EncodedArray.binary_search_elems in E by done. apply binary_search_rank in E; [|done].
      rewrite index_of_rank; [|by apply Hsort|simpl; rewrite elem_of_filterb, elem_of_range_list; done].
      destruct r as [s0 e0]. simpl in *. rewrite holes_rank by (done || lia). rewrite <- E. f_equal. f_equal.
      pose proof (zlen_nonneg (List.filter (fun x => x <? v) (EncodedArray.elems h))).
      pose proof (holes_rank _ s0 e0 v Hs Hr ltac:(lia)) as Hrank.
      match type of Hrank with zlen ?l = _ => pose proof (zlen_nonneg l) end. by unwrap.
  - pose proof Hwf as (_ & Hb & Hl). unwrap. rewrite Bitmap.get_wf by (done || lia). mon.
    destruct (Bitmap.bitat (Bitmap.data b) (v - start r)) eqn:Eb.
    2:{ apply Hout. simpl. rewrite elem_of_filterb. intros [_ ?]. congruence. }
    unfold Bitmap.slice_count_zeros. pose proof (Bitmap.wf_data_len b Hb). pose proof (Bitmap.wf_len b Hb).
    rewrite Bitmap.slice_count_ones_ok by (apply Hb || lia). mon. rewrite Z.add_0_l.
    pose proof (Bitmap.ones_in_bound (Bitmap.data b) 0 (v - start r)). f_equal. simpl Bitmap.sl_len. unwrap.
    symmetry. rewrite elems_bitmap by done. replace v with (start r + (v - start r)) at 1 by lia.
    rewrite index_of_map_add. apply index_of_Some; [by apply ssorted_NoDup, ssorted_filter, ssorted_range_list|].
    rewrite (Bitmap.setpos_app _ 0 (v - start r)) by lia.
    replace (v - start r - (v - start r - Bitmap.ones_in (Bitmap.data b) 0 (v - start r))) with
      (zlen (Bitmap.setpos (Bitmap.data b) 0 (v - start r))) by (rewrite Bitmap.zlen_setpos; lia).
    rewrite HoleRuns.get_opt_app_head. unfold Bitmap.setpos. rewrite range_list_cons by lia. simpl. by rewrite Eb.
  - destruct (elems_Ranges_iff _ _ _ Hwf Hc) as [-> Hiff]. destruct Hwf as (_ & Hr & _).
    rewrite HoleRuns.hr_position_ok by (done || lia). f_equal. simpl. replace v with (start r + (v - start r)) at 2 by lia.
    by rewrite index_of_map_add.
  - destruct Hwf as [Ha Hs]. f_equal. rewrite EncodedArray.binary_search_elems by done.
    pose proof (binary_search_found (EncodedArray.elems a) v) as Hb. pose proof (binary_search_is_ok (EncodedArray.elems a) v Hs) as Hok.
    destruct (Lists.binary_search _ v) as [i|i]; simpl; symmetry.
    + apply index_of_Some; [auto with lance|]. by apply Hb.
    + apply index_of_None. intros [j ?]%Hok. done.
  - rewrite EncodedArray.iter_elems by done. by rewrite iter_position_index.
Qed.

(** ** The resumable bitmap scan *)

(** The cursor counts the set bits of the bytes it has passed. *)
Definition cursor_inv (st : SegmentCursorState) (d : list Z) : Prop :=
  0 <= byte_idx st <= zlen d /\ ones_before st = Bitmap.ones_in d 0 (8 * byte_idx st).

Definition cursor_ok (st : SegmentCursorState) (s : U64Segment) : Prop :=
  match s with RangeWithBitmap _ b => cursor_inv st (Bitmap.data b) | _ => True end.

Lemma cursor_inv_default d : cursor_inv cursor_default d.
Proof. split; simpl; [pose proof (zlen_nonneg d); lia|done]. Qed.

Lemma clear_lowest_nth n b : u8_ok b -> (n < length (byte_ones b))%nat ->
  byte_ones b !! n = Some (trailing_zeros 8 (clear_lowest n b)).
Proof.
  revert b. induction n as [|n IH]; intros b Hb Hn; (destruct (decide (b = 0)) as [->|Hne]; [rewrite byte_ones_0 in Hn; simpl in Hn; lia|]);
    destruct (byte_ones_step b Hb Hne) as [E Hu]; rewrite E in *; simpl in *; [done|].
  apply IH; [done|lia].
Qed.

Lemma setpos_split d k byte : get_opt d k = Some byte ->
  Bitmap.setpos d 0 (8 * zlen d) =
  Bitmap.setpos d 0 (8 * k) ++ map (Z.add (8 * k)) (byte_ones byte) ++ Bitmap.setpos d (8 * k + 8) (8 * zlen d).
Proof.
  intros Hk. apply get_opt_Some in Hk as Hr. rewrite (Bitmap.setpos_app _ 0 (8 * k)) by lia.
  rewrite (Bitmap.setpos_app _ (8 * k) (8 * k + 8)) by lia. by rewrite (Bitmap.setpos_byte _ _ _ Hk).
Qed.

Lemma ones_in_byte d k byte : get_opt d k = Some byte -> u8_ok byte ->
  Bitmap.ones_in d 0 (8 * (k + 1)) = Bitmap.ones_in d 0 (8 * k) + count_ones_w 8 byte /\ 0 <= count_ones_w 8 byte <= 8.
Proof.
  intros Hk Hb. apply get_opt_Some in Hk as Hr. rewrite (Bitmap.ones_in_app _ 0 (8 * k)) by lia.
  replace (8 * (k + 1)) with (8 * k + 8) by lia.
  pose proof (f_equal zlen (Bitmap.setpos_byte _ _ _ Hk)) as Hz. rewrite Bitmap.zlen_setpos, zlen_map, <- count_byte_ones in Hz by done.
  rewrite Hz. split; [done|]. rewrite <- Hz. pose proof (Bitmap.ones_in_bound d (8 * k) (8 * k + 8)). lia.
Qed.

(** A set position of a well-formed bitmap is below its length. *)
Lemma setpos_wf b : Bitmap.wf b -> Bitmap.setpos (Bitmap.data b) 0 (8 * zlen (Bitmap.data b)) =
  Bitmap.setpos (Bitmap.data b) 0 (Bitmap.len b).
Proof.
  intros Hwf. pose proof (Bitmap.wf_data_len b Hwf). pose proof (Bitmap.wf_len b Hwf).
  rewrite (Bitmap.setpos_app _ 0 (Bitmap.len b)) by lia. unfold Bitmap.setpos at 2.
  rewrite filter_none, app_nil_r; [done|]. apply Forall_forall. intros i Hi%elem_of_range_list. simpl in Hi.
  apply (Bitmap.wf_padding b Hwf). lia.
Qed.

Lemma byte_value b range_start k byte j bit : Bitmap.wf b -> 0 <= range_start -> range_start + Bitmap.len b <= U64_MAX ->
  get_opt (Bitmap.data b) k = Some byte -> get_opt (byte_ones byte) j = Some bit ->
  range_start +w (k * 8 +w bit) = range_start + (8 * k + bit).
Proof.
  intros Hwf H0 Hle Hk Hj. pose proof (Bitmap.wf_len b Hwf).
  assert (Hin : 8 * k + bit ∈ Bitmap.setpos (Bitmap.data b) 0 (Bitmap.len b)).
  { rewrite <- setpos_wf by done. rewrite (setpos_split _ _ _ Hk), !elem_of_app. right. left.
    apply list_elem_of_fmap. exists bit. split; [done|]. apply elem_of_get_opt. eauto. }
  apply elem_of_filterb in Hin as [Hin%elem_of_range_list _]. simpl in Hin. unwrap. lia.
Qed.

Lemma seg_select_loop_ok fuel st b range_start remaining : Bitmap.wf b -> cursor_inv st (Bitmap.data b) ->
  0 <= range_start -> range_start + Bitmap.len b <= U64_MAX -> (Z.to_nat (zlen (Bitmap.data b) - byte_idx st) < fuel)%nat ->
  0 <= remaining <= U64_MAX ->
  exists st', select_loop fuel st range_start (Bitmap.data b) remaining =
    (Z.add range_start <$> get_opt (Bitmap.setpos (Bitmap.data b) 0 (Bitmap.len b)) (ones_before st + remaining), st') /\
    cursor_inv st' (Bitmap.data b).
Proof.
  intros Hwf Hinv H0 Hle. pose proof (Bitmap.wf_len b Hwf). pose proof (Bitmap.wf_data_len b Hwf).
  revert st remaining Hinv. induction fuel as [|fuel IH]; intros st remaining Hinv Hfuel Hrem; [lia|].
  pose proof Hinv as [Hidx Hones]. simpl.
  destruct (get_opt (Bitmap.data b) (byte_idx st)) as [byte|] eqn:Hbyte.
  - pose proof (Forall_get_opt _ _ _ _ (Bitmap.wf_bytes b Hwf) Hbyte) as Hu.
    destruct (ones_in_byte _ _ _ Hbyte Hu) as [Hstep Hcnt].
    pose proof (Bitmap.ones_in_bound (Bitmap.data b) 0 (8 * byte_idx st)). apply get_opt_Some in Hbyte as Hlt.
    destruct (Z.ltb_spec remaining (count_ones_w 8 byte)) as [Hr|Hr].
    + exists st. split; [|done]. f_equal. rewrite count_byte_ones in Hr by done.
      assert (Hbit : get_opt (byte_ones byte) remaining = Some (trailing_zeros 8 (clear_lowest (Z.to_nat remaining) byte))).
      { unfold get_opt. rewrite (proj2 (Z.leb_le 0 remaining)) by lia. apply clear_lowest_nth; [done|]. unfold zlen in Hr. lia. }
      rewrite (byte_value b _ _ _ _ _ Hwf H0 Hle Hbyte Hbit). rewrite <- setpos_wf by done. rewrite (setpos_split _ _ _ Hbyte).
      rewrite get_opt_app, Bitmap.zlen_setpos, <- Hones. destruct (Z.ltb_spec (ones_before st + remaining) (ones_before st)); [lia|].
      replace (ones_before st + remaining - ones_before st) with remaining by lia.
      rewrite get_opt_app, zlen_map, (proj2 (Z.ltb_lt _ _)) by lia. by rewrite get_opt_map, Hbit.
    + unwrap. destruct (IH (mkCursor (byte_idx st + 1) (ones_before st + count_ones_w 8 byte)) (remaining - count_ones_w 8 byte))
        as (st' & E & Hinv'); [split; simpl; [lia|by rewrite Hones, Hstep]|simpl; lia|lia|].
      exists st'. rewrite E. simpl. split; [|done]. do 3 f_equal. lia.
  - exists st. split; [|done]. f_equal. apply get_opt_None in Hbyte. rewrite (proj2 (get_opt_None _ _)); [done|].
    right. rewrite <- setpos_wf, Bitmap.zlen_setpos by done. replace (byte_idx st) with (zlen (Bitmap.data b)) in Hones by lia. lia.
Qed.

Lemma cursor_get_bitmap_ok st r b i : wf (RangeWithBitmap r b) -> cursor_inv st (Bitmap.data b) -> u64_ok i ->
  exists st', cursor_get_bitmap st r b i = (get_opt (elems (RangeWithBitmap r b)) i, st') /\ cursor_inv st' (Bitmap.data b).
Proof.
  intros ((? & ? & ?) & Hb & Hl) Hinv Hi. rewrite elems_bitmap by done. unfold cursor_get_bitmap, Bitmap.bytes.
  assert (Hst : exists st1, (if i <? ones_before st then mkCursor 0 0 else st) = st1 /\ cursor_inv st1 (Bitmap.data b) /\ 0 <= ones_before st1 <= i).
  { destruct (Z.ltb_spec i (ones_before st)); eexists; (split; [done|]).
    - split; [apply cursor_inv_default|simpl; uok; lia].
    - split; [done|]. destruct Hinv as [_ Ho]. pose proof (Bitmap.ones_in_bound (Bitmap.data b) 0 (8 * byte_idx st)). lia. }
  destruct Hst as (st1 & -> & Hinv1 & Hones). uok. unwrap.
  destruct (seg_select_loop_ok (S (length (Bitmap.data b))) st1 b (start r) (i - ones_before st1)) as (st' & E & Hinv');
    [done..|lia|lia| |lia|].
  { destruct Hinv1. unfold zlen in *. lia. }
  exists st'. split; [|done]. rewrite E, get_opt_map, Hl. do 3 f_equal. lia.
Qed.

(** ** Indexing *)

(** The search in a range with holes stops at the least [k] with
    [holes[k] - k > target]. *)
Lemma holes_loop_ok fuel h target lo hi : EncodedArray.wf h -> ssorted (EncodedArray.elems h) ->
  (forall j x, get_opt (EncodedArray.elems h) j = Some x -> j <= x) ->
  0 <= lo <= hi -> hi <= zlen (EncodedArray.elems h) -> hi - lo < Z.of_nat fuel ->
  (forall j x, j < lo -> get_opt (EncodedArray.elems h) j = Some x -> x - j <= target) ->
  (forall j x, hi <= j -> get_opt (EncodedArray.elems h) j = Some x -> target < x - j) ->
  exists k, holes_loop fuel h target lo hi = Ok k /\ lo <= k <= hi /\
    (forall j x, j < k -> get_opt (EncodedArray.elems h) j = Some x -> x - j <= target) /\
    (forall j x, k <= j -> get_opt (EncodedArray.elems h) j = Some x -> target < x - j).
Proof.
  intros Hh Hs Hge. assert (Hcap : zlen (EncodedArray.elems h) <= ISIZE_MAX) by (by destruct Hh).
  revert lo hi. induction fuel as [|fuel IH]; intros lo hi Hlo Hhi Hfuel H1 H2; [lia|].
  simpl. destruct (Z.ltb_spec lo hi) as [Hlt|Hlt].
  2:{ assert (hi = lo) as -> by lia. exists lo. split; [done|]. split; [lia|done]. }
  unwrap. pose proof (Z.div_mod (lo + hi) 2). pose proof (Z.mod_pos_bound (lo + hi) 2).
  remember ((lo + hi) / 2) as mid eqn:Em. clear Em.
  rewrite EncodedArray.get_elems by (done || lia). mon.
  destruct (get_opt_lt (EncodedArray.elems h) mid) as [x Hx]; [lia|]. rewrite Hx. mon.
  specialize (Hge mid x Hx) as Hmx. unfold saturating_sub. rewrite Z.gtb_ltb.
  destruct (Z.ltb_spec target (Z.max (x - mid) 0)) as [Ht|Ht].
  - destruct (IH lo mid) as (k & -> & Hk & H3 & H4); [lia..|done| |].
    + intros j y Hj Hy. pose proof (ssorted_get_opt_gap _ _ _ _ _ Hs Hx Hy Hj). lia.
    + exists k. split; [done|]. split; [lia|done].
  - unwrap. destruct (IH (mid + 1) hi) as (k & -> & Hk & H3 & H4); [lia..| |done|].
    + intros j y Hj Hy. pose proof (ssorted_get_opt_gap _ _ _ _ _ Hs Hy Hx ltac:(lia)). lia.
    + exists k. split; [done|]. split; [lia|done].
Qed.

Lemma get_holes_ok r h i : wf (RangeWithHoles r h) -> u64_ok i ->
  get (RangeWithHoles r h) i = Ok (get_opt (elems (RangeWithHoles r h)) i).
Proof.
  intros Hwf Hi. pose proof (zlen_holes r h Hwf) as Hn. pose proof (zlen_nonneg (elems (RangeWithHoles r h))) as Hn0.
  pose proof (elems_ssorted _ Hwf eq_refl) as Hsort. destruct Hwf as ((? & ? & ?) & Hh & Hs & Hr). unfold get.
  rewrite EncodedArray.len_elems. pose proof (zlen_nonneg (EncodedArray.elems h)). unwrap. rewrite Z.geb_leb, <- Hn.
  destruct (Z.leb_spec (zlen (elems (RangeWithHoles r h))) i).
  { by rewrite (proj2 (get_opt_None _ _)) by lia. }
  assert (Hge : forall j x, get_opt (EncodedArray.elems h) j = Some x -> start r + j <= x).
  { intros j x Hx. apply get_opt_Some in Hx as ?. destruct (get_opt_lt (EncodedArray.elems h) 0) as [y Hy]; [lia|].
    pose proof (ssorted_get_opt_gap _ _ _ _ _ Hs Hy Hx ltac:(lia)).
    pose proof (Forall_get_opt _ _ _ _ Hr Hy). simpl in *. lia. }
  uok. unwrap. destruct (holes_loop_ok (S (Z.to_nat (zlen (EncodedArray.elems h)))) h (start r + i) 0 (zlen (EncodedArray.elems h)))
    as (k & -> & Hk & Hbelow & Habove); [done|done| |lia..| | |].
  { intros j x Hx. specialize (Hge j x Hx). lia. }
  { intros j x Hj Hx%get_opt_Some. lia. }
  { intros j x Hj Hx%get_opt_Some. lia. }
  mon. set (v := start r + i + k).
  assert (Hlo : forall x, get_opt (EncodedArray.elems h) (k - 1) = Some x -> x < v).
  { intros x Hx. specialize (Hbelow (k - 1) x ltac:(lia) Hx). lia. }
  assert (Hhi : forall x, get_opt (EncodedArray.elems h) k = Some x -> v < x).
  { intros x Hx. specialize (Habove k x ltac:(lia) Hx). lia. }
  assert (Hve : v < end_ r).
  { destruct (get_opt (EncodedArray.elems h) k) as [x|] eqn:Ex.
    - specialize (Hhi x eq_refl). pose proof (Forall_get_opt _ _ _ _ Hr Ex). simpl in *. lia.
    - apply get_opt_None in Ex. lia. }
  assert (Hrank : zlen (List.filter (fun x => x <? v) (EncodedArray.elems h)) = k).
  { apply rank_between; [done|lia|done|]. intros x Hx. specialize (Hhi x Hx). lia. }
  assert (Hnot : v ∉ EncodedArray.elems h).
  { intros Hin. pose proof (get_opt_rank _ _ Hs Hin) as Hg. rewrite Hrank in Hg. specialize (Hhi v Hg). lia. }
  unwrap. f_equal. symmetry. fold v.
  assert (Hin : v ∈ elems (RangeWithHoles r h)).
  { simpl. rewrite elem_of_filterb, elem_of_range_list, not_in_true. split; [lia|done]. }
  rewrite <- (get_opt_rank _ _ Hsort Hin). f_equal. destruct r as [s e]. simpl in *.
  rewrite holes_rank by (done || lia). lia.
Qed.

Lemma seg_get_ok s i : wf s -> u64_ok i -> get s i = Ok (get_opt (elems s) i).
Proof.
  intros Hwf Hi. destruct s as [r|r h|r b|r rs|a|a].
  - destruct Hwf as (? & ? & ?). simpl. f_equal. unfold checked_add. uok.
    destruct (Z.leb_spec (start r + i) U64_MAX).
    + destruct (Z.ltb_spec (start r + i) (end_ r)).
      * unfold range_list. by rewrite get_opt_seqZ by lia.
      * rewrite (proj2 (get_opt_None _ _)); [done|]. rewrite zlen_range_list by done. lia.
    + rewrite (proj2 (get_opt_None _ _)); [done|]. rewrite zlen_range_list by done. lia.
  - by apply get_holes_ok.
  - simpl. destruct (cursor_get_bitmap_ok cursor_default r b i Hwf (cursor_inv_default _) Hi) as (st' & -> & _). done.
  - destruct Hwf as ((? & ? & ?) & Hr & Hsp). destruct (HoleRuns.present_ok rs Hr) as (Hp & Hs & Hn). simpl. uok.
    rewrite get_opt_map. destruct (Z.leb_spec i U32_MAX).
    + rewrite HoleRuns.offset_at_ok by (done || lia). mon. f_equal.
      destruct (get_opt (HoleRuns.present rs) i) as [o|] eqn:Eo; simpl; [|done].
      pose proof (Forall_get_opt _ _ _ _ Hp Eo). simpl in *. by unwrap.
    + by rewrite (proj2 (get_opt_None _ _)) by lia.
  - destruct Hwf. simpl. apply EncodedArray.get_elems; [done|uok; lia].
  - simpl. apply EncodedArray.get_elems; [done|uok; lia].
Qed.

Lemma cursor_get_ok st s i : wf s -> cursor_ok st s -> u64_ok i ->
  exists st', cursor_get st s i = Ok (get_opt (elems s) i, st') /\ cursor_ok st' s.
Proof.
  intros Hwf Hst Hi. destruct s as [r|r h|r b|r rs|a|a]; unfold cursor_get;
    try (rewrite (seg_get_ok _ i) by done; mon; by eexists).
  destruct (cursor_get_bitmap_ok st r b i Hwf Hst Hi) as (st' & -> & ?). eauto.
Qed.

(** ** Bounds *)

(** [range] bounds the values; it is [None] only for a segment without values. *)
Lemma range_bounds s : wf s ->
  match range s with
  | Some (lo, hi) => Forall (fun v => lo <= v <= hi) (elems s) /\ u64_ok hi
  | None => elems s = []
  end.
Proof.
  intros Hwf. assert (Hrange : forall r, range_ok r -> Forall (fun v => start r <= v < end_ r) (elems s) ->
    match (if negb (range_is_empty r) then Some (start r, end_ r -w 1) else None) with
    | Some (lo, hi) => Forall (fun v => lo <= v <= hi) (elems s) /\ u64_ok hi | None => elems s = [] end).
  { intros r (? & ? & ?) Hf. unfold range_is_empty. destruct (Z.ltb_spec (start r) (end_ r)); simpl.
    - unwrap. split; [|uok; lia]. eapply Forall_impl; [exact Hf|]. simpl. lia.
    - destruct (elems s) as [|x l]; [done|]. apply Forall_cons in Hf as [? _]. lia. }
  destruct s as [r|r h|r b|r rs|a|a]; try (by apply Hrange; eapply elems_range; eauto 6); simpl.
  - destruct Hwf as [Ha Hs]. rewrite EncodedArray.first_elems, EncodedArray.last_elems by done.
    pose proof (EncodedArray.elems_ok a Ha) as Hok. destruct (EncodedArray.elems a) as [|x l] eqn:E; [done|]. simpl.
    destruct (list.last (x :: l)) as [y|] eqn:El; [|by apply last_None in El]. simpl.
    apply last_Some_elem_of in El as Hy. rewrite Forall_forall in Hok. split; [|by apply Hok].
    rewrite last_lookup in El. apply Forall_forall. intros v Hv. apply list_elem_of_lookup in Hv as [i Hv].
    split; [apply (HoleRuns.ssorted_lookup_le (x :: l) 0 i); [done..|lia]|].
    apply (HoleRuns.ssorted_lookup_le (x :: l) i (pred (length (x :: l)))); [done..|]. apply lookup_lt_Some in Hv. lia.
  - rewrite EncodedArray.max_elems by done. pose proof (EncodedArray.elems_ok a Hwf) as Hok.
    pose proof (EncodedArray.min_lower a Hwf) as Hmin. destruct (EncodedArray.min a) as [m|]; simpl; [|done].
    destruct (iter_max (EncodedArray.elems a)) as [x|] eqn:E; simpl; [|by destruct (EncodedArray.elems a)].
    destruct (iter_max_spec _ _ E) as [Hin Hmax]. rewrite !Forall_forall in *. split; [|auto]. destruct Hmin. auto.
Qed.

(** ** Properties *)

(** C37: on every encoding, a well-formed segment answers its queries as its
    list of values does, without panicking: iteration, length, membership, the
    index of a value (the first one, or none) and the value at an index (none
    out of range); on distinct values [position] and [get] are inverse. *)
Theorem segment_queries s : wf s ->
  iter s = Ok (elems s) /\ len s = Ok (zlen (elems s)) /\
  (forall v, u64_ok v -> contains s v = Ok (bool_decide (v ∈ elems s))) /\
  (forall v, u64_ok v -> position s v = Ok (index_of v (elems s))) /\
  (forall i, u64_ok i -> get s i = Ok (get_opt (elems s) i)) /\
  (NoDup (elems s) -> forall v i, u64_ok v -> u64_ok i ->
     position s v = Ok (Some i) <-> get s i = Ok (Some v)).
Proof.
  intros Hwf. split; [by apply seg_iter_ok|]. split; [by apply seg_len_ok|].
  split; [intros; by apply contains_ok|]. split; [intros; by apply seg_position_ok|].
  split; [intros; by apply seg_get_ok|]. intros Hnd v i Hv Hi. rewrite seg_position_ok, seg_get_ok by done.
  pose proof (index_of_Some v (elems s) i Hnd) as H. split; intros [= E]; f_equal; by apply H.
Qed.

Lemma segment_queries_witness :
  let s := RangeWithHoles (10 ..< 20) (U64 [12; 15]) in
  get s 3 = Ok (Some 14) /\ position s 14 = Ok (Some 3) /\ contains s 15 = Ok false.
Proof.
  intros s. assert (Hwf : wf s).
  { split; [unfold range_ok; simpl; lia|]. split; [split; [repeat constructor; uok; lia|vm_compute; done]|].
    split; repeat constructor; simpl; lia. }
  destruct (segment_queries s Hwf) as (_ & _ & Hc & Hp & Hg & _).
  rewrite Hg, Hp, Hc by (uok; lia). vm_compute. done.
Defined.

(** Reading through a cursor that keeps its bitmap scan position between
    calls returns the value at the index whatever was read before (a decreasing
    index rewinds), and leaves the cursor consistent for the next call. *)
Theorem segment_cursor st s i : wf s -> cursor_ok st s -> u64_ok i ->
  exists st', cursor_get st s i = Ok (get_opt (elems s) i, st') /\ cursor_ok st' s.
Proof. apply cursor_get_ok. Qed.

Lemma segment_cursor_witness : exists b st1 st2,
  cursor_get cursor_default (RangeWithBitmap (100 ..< 120) b) 17 = Ok (Some 117, st1) /\
  cursor_get st1 (RangeWithBitmap (100 ..< 120) b) 2 = Ok (Some 102, st2).
Proof.
  destruct Bitmap.new_full_20 as (b & E & Hwb & Hl).
  assert (Hwf : wf (RangeWithBitmap (100 ..< 120) b)).
  { split; [unfold range_ok; simpl; lia|]. split; [done|]. simpl. lia. }
  destruct (segment_cursor cursor_default _ 17 Hwf) as (st1 & E1 & H1); [apply cursor_inv_default|uok; lia|].
  destruct (segment_cursor st1 _ 2 Hwf H1) as (st2 & E2 & _); [uok; lia|].
  exists b, st1, st2. rewrite E1, E2. vm_compute in E. injection E as <-. vm_compute. done.
Defined.
