(* ===== verification/SegmentBuild.v ===== *)
(** * Row-id segments: construction and updates

    [lance-table/src/rowids/segment.rs]: the choice of an encoding from the
    statistics of a sequence ([from_stats_and_sequence]), and the operations
    that build a segment out of another: [slice], [with_new_high], [delete] and
    [mask].  Every constructor yields a well-formed segment with the values the
    list specification says. *)

From Stdlib Require Import ZArith Lia.
From stdpp Require Import base option list numbers sorting sets gmap.
From S2P Require Import Prelude Lists Bits Bitmap EncodedArray HoleRuns Segment.

(** ** Model *)

Record SegmentStats := mkStats { st_min : Z; st_max : Z; count : Z; sorted : bool }.

Abbreviation U128_MAX := 340282366920938463463374607431768211455 (only parsing).
Definition wrap128 (x : Z) : Z := x mod 340282366920938463463374607431768211456.
Definition saturating_add128 (a b : Z) : Z := Z.min (a + b) U128_MAX.
Definition saturating_mul128 (a b : Z) : Z := Z.min (a * b) U128_MAX.

Definition n_holes (st : SegmentStats) : Z :=
  if count st =? 0 then 0
  else
    let total_slots := wrap128 (wrap128 (st_max st - st_min st) + 1) in
    wrap128 (total_slots - count st).

(** [holes_in_slice(range, existing)]: the values of the inclusive range that
    the peeked values do not match. *)
Definition holes_in_slice (range : RangeInclusive) (existing : list Z) : list Z :=
  drop_ordered existing (range_list (fst range ..< snd range + 1)).

Definition stats_step (st : SegmentStats) (val : Z) : SegmentStats :=
  let count := count st +w 1 in
  let min := if val <? st_min st then val else st_min st in
  let max := if val >? st_max st then val else st_max st in
  mkStats min max count (if sorted st && (count >? 1) && (val <? max) then false else sorted st).

Definition compute_stats (values : list Z) : SegmentStats :=
  let st := foldl stats_step (mkStats U64_MAX 0 0 true) values in
  if count st =? 0 then mkStats 0 0 (count st) (sorted st) else st.

Definition u128_byte_cost_to_usize (v : Z) : Z := if v <=? U64_MAX then v else U64_MAX.

(** The sizes of a hole list, a bitmap and a sorted array. *)
Definition sorted_sequence_sizes (st : SegmentStats) : Z * Z * Z :=
  let n_holes := n_holes st in
  let total_slots := wrap128 (wrap128 (st_max st - st_min st) + 1) in
  let range_with_holes := saturating_add128 24 (saturating_mul128 4 n_holes) in
  let range_with_bitmap := saturating_add128 24 (div_ceil total_slots 8) in
  let sorted_array := saturating_add128 24 (saturating_mul128 2 (count st)) in
  (u128_byte_cost_to_usize range_with_holes, u128_byte_cost_to_usize range_with_bitmap,
   u128_byte_cost_to_usize sorted_array).

(** [for hole in .. { bitmap.clear((hole - min) as usize) }] *)
Definition clear_holes (bitmap : Bitmap) (min : Z) (holes : list Z) : res Bitmap :=
  fold_res (fun b hole => Bitmap.clear b (hole -w min)) bitmap holes.

Definition from_stats_and_sequence (st : SegmentStats) (sequence : list Z) : res U64Segment :=
  if sorted st then
    let n := n_holes st in
    let exclusive_end := checked_add (st_max st) 1 in
    if count st =? 0 then Ok (Range_ (0 ..< 0))
    else match exclusive_end with
    | Some end_ =>
        if n =? 0 then Ok (Range_ (st_min st ..< end_))
        else
          let '(s0, s1, s2) := sorted_sequence_sizes st in
          let min_size := Z.min s0 (Z.min s1 s2) in
          if min_size =? s0 then
            let holes := sort_unstable (holes_in_slice (st_min st, st_max st) sequence) in
            Ok (RangeWithHoles (st_min st ..< end_) (EncodedArray.from_vec holes))
          else if min_size =? s1 then
            bitmap ← Bitmap.new_full ((st_max st -w st_min st) +w 1);
            bitmap ← clear_holes bitmap (st_min st) (holes_in_slice (st_min st, st_max st) sequence);
            Ok (RangeWithBitmap (st_min st ..< end_) bitmap)
          else Ok (SortedArray (EncodedArray.from_iter sequence))
    | None => Ok (SortedArray (EncodedArray.from_iter sequence))
    end
  else Ok (Array (EncodedArray.from_iter sequence)).

Definition from_iter (values : list Z) : res U64Segment :=
  from_stats_and_sequence (compute_stats values) values.

Definition from_slice (slice : list Z) : res U64Segment := from_iter slice.

Definition from_sorted_ranges (ranges : list Range) : option U64Segment :=
  match ranges, list.last ranges with
  | first :: _ :: _, Some last =>
      let base := start first in
      let span := end_ last -w base in
      if span <=? U32_MAX then
        let hole_starts := map (fun r => wrap32 (end_ r -w base)) (take (Nat.pred (length ranges)) ranges) in
        let hole_ends := map (fun r => wrap32 (start r -w base)) (tail ranges) in
        match HoleRuns.try_new span hole_starts hole_ends with
        | Ok runs => Some (Ranges (base ..< end_ last) runs)
        | _ => None
        end
      else None
  | _, _ => None
  end.

Definition slice (s : U64Segment) (offset len : Z) : res U64Segment :=
  if len =? 0 then Ok (Range_ (0 ..< 0)) else
  let generic :=
    values ← iter s;
    from_slice (ztake len (zskip offset values)) in
  match s with
  | Range_ r =>
      match checked_add offset len with
      | Some e =>
          if e <=? end_ r -w start r then
            let st := start r +w offset in Ok (Range_ (st ..< st +w len))
          else generic
      | None => generic
      end
  | _ => generic
  end.

(** The push of [val] onto an encoded array, shared by the two array kinds. *)
Definition push_array (array : EncodedU64Array) (val : Z) : EncodedU64Array :=
  match array with
  | U64 vec => U64 (vec ++ [val])
  | U16 base offsets =>
      let rebuilt := EncodedArray.from_vec (map (fun o => base +w o) offsets ++ [val]) in
      match checked_sub val base with
      | Some offset =>
          if offset <=? U16_MAX then U16 base (offsets ++ [wrap16 offset])
          else if offset <=? U32_MAX then U32 base (offsets ++ [wrap32 offset])
          else rebuilt
      | None => rebuilt
      end
  | U32 base offsets =>
      let rebuilt := EncodedArray.from_vec (map (fun o => base +w o) offsets ++ [val]) in
      match checked_sub val base with
      | Some offset => if offset <=? U32_MAX then U32 base (offsets ++ [wrap32 offset]) else rebuilt
      | None => rebuilt
      end
  end.

Definition with_new_high (s : U64Segment) (val : Z) : res U64Segment :=
  if match range s with Some (_, hi) => val <=? hi | None => false end then Err InvalidInput else
  match s with
  | Range_ r =>
      if start r =? end_ r then Ok (Range_ (val ..< val +w 1))
      else if val =? end_ r then Ok (Range_ (start r ..< val +w 1))
      else Ok (RangeWithHoles (start r ..< val +w 1) (U64 (range_list (end_ r ..< val))))
  | RangeWithHoles r holes =>
      if val =? end_ r then Ok (RangeWithHoles (start r ..< val +w 1) holes)
      else
        let new_holes := EncodedArray.iter holes ++ range_list (end_ r ..< val) in
        Ok (RangeWithHoles (start r ..< val +w 1) (U64 new_holes))
  | RangeWithBitmap r bitmap =>
      let new_range := start r ..< val +w 1 in
      let gap_size := val -w end_ r in
      let new_bitmap := Bitmap.iter bitmap ++ replicate (Z.to_nat gap_size) false ++ [true] in
      b ← Bitmap.from_bools new_bitmap;
      Ok (RangeWithBitmap new_range b)
  | Ranges r runs =>
      values ← iter (Ranges r runs);
      from_slice (values ++ [val])
  | SortedArray array => Ok (SortedArray (push_array array val))
  | Array array => Ok (Array (push_array array val))
  end.

Definition delete (s : U64Segment) (vals : list Z) : res U64Segment :=
  values ← iter s;
  let new_iter := drop_ordered vals values in
  from_stats_and_sequence (compute_stats new_iter) new_iter.

(** [(0..len).zip(positions.iter().cycle()).find(|(i, p)| *p != i as u32)] over
    the given indices; [cycled i] is the element the cycle pairs with step [i]. *)
Definition cycled {A} (l : list A) (i : Z) : option A := get_opt l (i mod zlen l).

Definition first_unmasked (n : Z) (positions : list Z) : option Z :=
  find (fun i => match cycled positions i with Some p => negb (p =? wrap32 i) | None => false end)
    (range_list (0 ..< n)).

Definition last_unmasked (n : Z) (positions : list Z) : option Z :=
  (fun j => n - 1 - j) <$>
  find (fun j => match cycled (rev positions) j with Some p => negb (p =? wrap32 (n - 1 - j)) | None => false end)
    (range_list (0 ..< n)).

(** The peeking [filter_map] of [mask]. *)
Fixpoint mask_sequence (positions : list Z) (l : list (Z * Z)) : list Z :=
  match l with
  | [] => []
  | (i, val) :: l' =>
      match positions with
      | p :: positions' =>
          if p =? wrap32 i then mask_sequence positions' l' else val :: mask_sequence positions l'
      | [] => val :: mask_sequence positions l'
      end
  end.

Definition mask (s : U64Segment) (positions : list Z) : res U64Segment :=
  match positions with
  | [] => Ok s
  | _ =>
      n ← len s;
      if zlen positions =? n then Ok (Range_ (0 ..< 0)) else
      let count := n -w zlen positions in
      first ← unwrap_opt (first_unmasked n positions);
      min ← get s first;
      min ← unwrap_opt min;
      last ← unwrap_opt (last_unmasked n positions);
      max ← get s last;
      max ← unwrap_opt max;
      values ← iter s;
      from_stats_and_sequence (mkStats min max count (sorted_kind s))
        (mask_sequence positions (enumerate values))
  end.

(** ** Statistics *)

Lemma le_sorted_snoc l x : StronglySorted Z.le (l ++ [x]) <-> StronglySorted Z.le l /\ Forall (fun y => y <= x) l.
Proof.
  induction l as [|y l IH]; simpl.
  - split; [split; constructor|repeat constructor].
  - split.
    + intros [H1 H2]%StronglySorted_inv. apply IH in H1 as [H1 H3]. rewrite Forall_app in H2. destruct H2 as [H2 H4].
      split; constructor; try done. by inversion H4.
    + intros [[H1 H2]%StronglySorted_inv [H3 H4]%Forall_cons]. constructor; [by apply IH|].
      rewrite Forall_app. split; [done|]. by constructor.
Qed.

Record stats_of (st : SegmentStats) (vs : list Z) : Prop := mk_stats_of {
  so_count : count st = zlen vs;
  so_max : vs <> [] -> st_max st ∈ vs /\ Forall (fun v => v <= st_max st) vs;
  so_min : vs <> [] -> st_min st ∈ vs /\ Forall (fun v => st_min st <= v) vs;
  so_sorted : sorted st = true <-> StronglySorted Z.le vs }.

Lemma stats_fold vs : Forall u64_ok vs -> zlen vs <= VEC64_MAX ->
  let st := foldl stats_step (mkStats U64_MAX 0 0 true) vs in
  stats_of st vs /\ (vs = [] -> st = mkStats U64_MAX 0 0 true).
Proof.
  induction vs as [|x vs IH] using rev_ind; intros Hu Hl; simpl.
  - split; [|done]. constructor; [done..|]. split; [constructor|done].
  - rewrite Forall_app in Hu. destruct Hu as [Hu Hx]. rewrite zlen_app in Hl. change (zlen [x]) with 1 in Hl.
    destruct IH as [[Hc Hmax Hmin Hs] Hnil]; [done|lia|]. rewrite foldl_app. simpl.
    set (st := foldl stats_step (mkStats U64_MAX 0 0 true) vs) in *. pose proof (zlen_nonneg vs).
    split; [|intros E; by apply app_nil in E as [_ ?]].
    inversion Hx as [|? ? Hux _]; subst. unfold stats_step. rewrite Hc. unwrap. rewrite !Z.gtb_ltb.
    destruct (decide (vs = [])) as [->|Hne].
    { rewrite (Hnil eq_refl). change (zlen (@nil Z)) with 0. simpl. uok. constructor; simpl.
      - done.
      - intros _. assert ((if 0 <? x then x else 0) = x) as -> by (destruct (Z.ltb_spec 0 x); lia).
        split; [by left|by repeat constructor].
      - intros _. assert ((if x <? U64_MAX then x else U64_MAX) = x) as -> by (destruct (Z.ltb_spec x U64_MAX); lia).
        split; [by left|by repeat constructor].
      - split; [repeat constructor|done]. }
    destruct (Hmax Hne) as [HM1 HM2]. destruct (Hmin Hne) as [Hm1 Hm2].
    assert (Hlen : 0 < zlen vs) by (destruct vs; [done|rewrite zlen_cons; pose proof (zlen_nonneg vs); lia]).
    rewrite Forall_forall in HM2, Hm2. constructor; simpl.
    + by rewrite zlen_app.
    + intros _. split; [destruct (Z.ltb_spec (st_max st) x); apply elem_of_app; [right; by left|by left]|].
      apply Forall_forall. intros v [Hv|Hv%list_elem_of_singleton]%elem_of_app; [specialize (HM2 v Hv)|subst];
        destruct (Z.ltb_spec (st_max st) x); lia.
    + intros _. split; [destruct (Z.ltb_spec x (st_min st)); apply elem_of_app; [right; by left|by left]|].
      apply Forall_forall. intros v [Hv|Hv%list_elem_of_singleton]%elem_of_app; [specialize (Hm2 v Hv)|subst];
        destruct (Z.ltb_spec x (st_min st)); lia.
    + rewrite le_sorted_snoc, <- Hs. rewrite (proj2 (Z.ltb_lt 1 _)), andb_true_r by lia.
      assert (Hsplit : Forall (fun y => y <= x) vs <-> st_max st <= x).
      { rewrite Forall_forall. split; [auto|]. intros ? y Hy. specialize (HM2 y Hy). lia. }
      rewrite Hsplit. destruct (sorted st); simpl; [|split; [done|intros [? _]; done]].
      destruct (Z.ltb_spec (st_max st) x); [rewrite Z.ltb_irrefl; split; [lia|done]|].
      destruct (Z.ltb_spec x (st_max st)); (split; [done || lia|]); [intros [_ ?]; lia|done].
Qed.

Lemma compute_stats_ok vs : Forall u64_ok vs -> zlen vs <= VEC64_MAX -> stats_of (compute_stats vs) vs.
Proof.
  intros Hu Hl. destruct (stats_fold vs Hu Hl) as [[Hc Hmax Hmin Hs] _]. unfold compute_stats. rewrite Hc.
  destruct (Z.eqb_spec (zlen vs) 0) as [E|E]; [|by constructor].
  destruct vs as [|x vs]; [|rewrite zlen_cons in E; pose proof (zlen_nonneg vs); lia]. by constructor.
Qed.

(** ** The holes of a sorted sequence *)

Section Holes.
Context (vs : list Z) (lo hi : Z).
Hypothesis Hs : ssorted vs.
Hypothesis Hlo : head vs = Some lo.
Hypothesis Hhi : list.last vs = Some hi.

Lemma seq_bounds : Forall (fun v => lo <= v <= hi) vs.
Proof using Hs Hlo Hhi.
  apply Forall_forall. intros v Hv. apply list_elem_of_lookup in Hv as [i Hv]. destruct vs as [|x l]; [done|].
  injection Hlo as ->. rewrite last_lookup in Hhi.
  split; [apply (HoleRuns.ssorted_lookup_le (lo :: l) 0 i); [done..|lia]|].
  apply (HoleRuns.ssorted_lookup_le (lo :: l) i (pred (length (lo :: l)))); [done..|]. apply lookup_lt_Some in Hv. lia.
Qed.

Lemma seq_lo_hi : lo <= hi.
Proof using Hs Hlo Hhi.
  pose proof seq_bounds as H. apply last_Some_elem_of in Hhi. rewrite Forall_forall in H. specialize (H hi Hhi). lia.
Qed.

Lemma seq_holes_filter : holes_in_slice (lo, hi) vs = List.filter (not_in vs) (range_list (lo ..< hi + 1)).
Proof using Hs Hlo Hhi.
  unfold holes_in_slice. simpl. apply drop_ordered_filter; [|auto with lance].
  apply sublist_ssorted; [done|auto with lance|]. intros x Hx. apply elem_of_range_list. simpl.
  pose proof seq_bounds as H. rewrite Forall_forall in H. specialize (H x Hx). lia.
Qed.

Lemma seq_in_range : List.filter (fun x => negb (not_in vs x)) (range_list (lo ..< hi + 1)) = vs.
Proof using Hs Hlo Hhi.
  apply ssorted_ext; [auto with lance..|]. intros x. rewrite elem_of_filterb, elem_of_range_list, negb_true_iff, not_in_false.
  simpl. split; [tauto|]. intros Hx. split; [|done]. pose proof seq_bounds as H. rewrite Forall_forall in H.
  specialize (H x Hx). lia.
Qed.

Lemma seq_holes_count : zlen (holes_in_slice (lo, hi) vs) = hi + 1 - lo - zlen vs.
Proof using Hs Hlo Hhi.
  rewrite seq_holes_filter. pose proof (filter_split (not_in vs) (range_list (lo ..< hi + 1))) as H.
  rewrite seq_in_range, zlen_range_list in H by (simpl; pose proof seq_lo_hi; lia). simpl in H. lia.
Qed.

Lemma seq_not_holes : List.filter (not_in (holes_in_slice (lo, hi) vs)) (range_list (lo ..< hi + 1)) = vs.
Proof using Hs Hlo Hhi.
  rewrite <- seq_in_range at 2. apply filter_ext_Forall, Forall_forall. intros x Hx. rewrite seq_holes_filter.
  apply eq_true_iff_eq. rewrite not_in_true, elem_of_filterb, negb_true_iff, not_in_false, not_in_true.
  split; [|tauto]. intros H. destruct (decide (x ∈ vs)); tauto.
Qed.

Lemma seq_holes_ok : ssorted (holes_in_slice (lo, hi) vs) /\
  Forall (fun h => lo <= h < hi + 1) (holes_in_slice (lo, hi) vs).
Proof using Hs Hlo Hhi.
  rewrite seq_holes_filter. split; [auto with lance|]. apply Forall_forall.
  intros x [Hx%elem_of_range_list _]%elem_of_filterb. done.
Qed.

End Holes.

Lemma clear_holes_wf b min holes : Bitmap.wf b -> 0 <= min ->
  Forall (fun h => min <= h < min + Bitmap.len b /\ h <= U64_MAX) holes ->
  exists b', clear_holes b min holes = Ok b' /\ Bitmap.wf b' /\ Bitmap.len b' = Bitmap.len b /\
    forall j, Bitmap.bitat (Bitmap.data b') j = not_in holes (min + j) && Bitmap.bitat (Bitmap.data b) j.
Proof.
  intros Hwf Hmin Hh. unfold clear_holes. revert b Hwf Hh. induction holes as [|h holes IH]; intros b Hwf Hh; simpl.
  - exists b. done.
  - apply Forall_cons in Hh as [Hh0 Hh]. unwrap.
    destruct (Bitmap.clear_wf b (h - min) Hwf) as (b1 & -> & Hwf1 & Hl1 & Hb1); [lia|]. mon.
    destruct (IH b1) as (b2 & -> & Hwf2 & Hl2 & Hb2); [done|by rewrite Hl1|].
    exists b2. split; [done|]. split; [done|]. split; [congruence|]. intros j. rewrite Hb2, Hb1, andb_assoc. f_equal.
    apply eq_true_iff_eq. rewrite andb_true_iff, !not_in_true, negb_true_iff, Z.eqb_neq, not_elem_of_cons.
    split; intros [? ?]; split; done || lia.
Qed.

(** ** Choosing an encoding *)

Definition exact (st : SegmentStats) (vs : list Z) : Prop :=
  count st = zlen vs /\
  (sorted st = true -> ssorted vs /\ (vs <> [] -> head vs = Some (st_min st) /\ list.last vs = Some (st_max st))).

Lemma wrap128_small x : 0 <= x <= U128_MAX -> wrap128 x = x.
Proof. intros. unfold wrap128. apply Z.mod_small. lia. Qed.

Lemma n_holes_exact st vs : exact st vs -> sorted st = true -> vs <> [] -> Forall u64_ok vs ->
  n_holes st = zlen (holes_in_slice (st_min st, st_max st) vs) /\
  wrap128 (wrap128 (st_max st - st_min st) + 1) = st_max st - st_min st + 1.
Proof.
  intros [Hc Hst] Hsort Hne Hu. destruct (Hst Hsort) as [Hs Hends]. destruct (Hends Hne) as [Hlo Hhi].
  pose proof (seq_lo_hi _ _ _ Hs Hlo Hhi). pose proof (seq_holes_count _ _ _ Hs Hlo Hhi) as Hn.
  pose proof (zlen_nonneg (holes_in_slice (st_min st, st_max st) vs)).
  assert (u64_ok (st_min st) /\ u64_ok (st_max st)) as [??].
  { rewrite Forall_forall in Hu. split; apply Hu; [by apply head_Some_elem_of|by apply last_Some_elem_of]. }
  uok. unfold n_holes. rewrite Hc. pose proof (zlen_nonneg vs).
  rewrite (wrap128_small (st_max st - st_min st)), (wrap128_small (st_max st - st_min st + 1)) by lia.
  split; [|done]. destruct (Z.eqb_spec (zlen vs) 0) as [E|E]; [by destruct vs|].
  rewrite wrap128_small by lia. lia.
Qed.

Lemma from_stats_ok st vs : exact st vs -> Forall u64_ok vs -> zlen vs <= VEC64_MAX ->
  exists s, from_stats_and_sequence st vs = Ok s /\ wf s /\ elems s = vs.
Proof.
  intros Hex Hu Hl. assert (Harr : EncodedArray.wf (EncodedArray.from_iter vs) /\ EncodedArray.elems (EncodedArray.from_iter vs) = vs).
  { destruct (EncodedArray.from_vec_wf vs Hu) as (? & ? & _); [lia|]. done. }
  destruct Harr as [Ha Ea]. unfold from_stats_and_sequence. destruct (sorted st) eqn:Esort; [|eexists; split; done].
  pose proof Hex as [Hc Hst]. destruct (Hst Esort) as [Hs Hends]. rewrite Hc.
  destruct (Z.eqb_spec (zlen vs) 0) as [E0|E0].
  { eexists. split; [done|]. destruct vs; [|rewrite zlen_cons in E0; pose proof (zlen_nonneg vs); lia].
    split; [unfold wf, range_ok; simpl; lia|done]. }
  assert (Hne : vs <> []) by (by intros ->). destruct (Hends Hne) as [Hlo Hhi].
  destruct (n_holes_exact st vs Hex Esort Hne Hu) as [Hn Htot].
  pose proof (seq_lo_hi _ _ _ Hs Hlo Hhi) as Hlohi. pose proof (seq_holes_count _ _ _ Hs Hlo Hhi) as Hcnt.
  pose proof (seq_holes_ok _ _ _ Hs Hlo Hhi) as [Hhs Hhr]. pose proof (seq_not_holes _ _ _ Hs Hlo Hhi) as Hnot.
  assert (0 <= st_min st) by (apply head_Some_elem_of in Hlo; rewrite Forall_forall in Hu; apply Hu in Hlo; uok; lia).
  unfold checked_add. destruct (Z.leb_spec (st_max st + 1) U64_MAX) as [Hmax|Hmax]; [|eexists; split; [done|by split; [split|]; rewrite ?Ea]].
  assert (Hrange : range_ok (st_min st ..< st_max st + 1)) by (unfold range_ok; simpl; lia).
  destruct (Z.eqb_spec (n_holes st) 0) as [En|En].
  { eexists. split; [done|]. split; [done|]. simpl. rewrite Hn in En. etransitivity; [|exact Hnot].
    destruct (holes_in_slice _ _); [|rewrite zlen_cons in En; pose proof (zlen_nonneg l); lia].
    symmetry. apply filter_all, Forall_forall. intros x _. apply not_in_true. by intros ?%elem_of_nil. }
  unfold sorted_sequence_sizes. rewrite Htot, Hc. cbv zeta.
  assert (Hs2 : u128_byte_cost_to_usize (saturating_add128 24 (saturating_mul128 2 (zlen vs))) = 24 + 2 * zlen vs).
  { pose proof (zlen_nonneg vs). unfold u128_byte_cost_to_usize, saturating_add128, saturating_mul128.
    rewrite !Z.min_l by lia. by rewrite (proj2 (Z.leb_le _ _)) by lia. }
  rewrite Hs2. set (s0 := u128_byte_cost_to_usize (saturating_add128 24 (saturating_mul128 4 (n_holes st)))).
  set (s1 := u128_byte_cost_to_usize _).
  destruct (Z.eqb_spec (Z.min s0 (Z.min s1 (24 + 2 * zlen vs))) s0) as [Em|Em].
  - assert (Hfew : zlen (holes_in_slice (st_min st, st_max st) vs) <= ISIZE_MAX).
    { rewrite <- Hn. assert (Hle : s0 <= 24 + 2 * zlen vs) by lia. unfold s0, u128_byte_cost_to_usize, saturating_add128, saturating_mul128 in Hle.
      destruct (Z.leb_spec (Z.min (24 + Z.min (4 * n_holes st) U128_MAX) U128_MAX) U64_MAX); lia. }
    rewrite sort_unstable_id by done. eexists. split; [done|].
    destruct (EncodedArray.from_vec_wf (holes_in_slice (st_min st, st_max st) vs)) as (Hw & He & _).
    { eapply Forall_impl; [exact Hhr|]. uok. simpl. lia. } { lia. }
    unfold wf, elems. rewrite He. split; [|exact Hnot]. do 3 (split; [done|]). exact Hhr.
  - destruct (Z.eqb_spec (Z.min s0 (Z.min s1 (24 + 2 * zlen vs))) s1) as [Em1|Em1]; [|eexists; split; [done|by split; [split|]; rewrite ?Ea]].
    assert (Hspan : st_max st - st_min st + 1 <= U64_MAX - 8).
    { assert (Hle : s1 <= 24 + 2 * zlen vs) by lia. unfold s1, u128_byte_cost_to_usize, saturating_add128 in Hle.
      pose proof (Bitmap.div_ceil_8 (st_max st - st_min st + 1) ltac:(lia)).
      destruct (Z.leb_spec (Z.min (24 + div_ceil (st_max st - st_min st + 1) 8) U128_MAX) U64_MAX); lia. }
    unwrap. destruct (Bitmap.new_full_wf (st_max st - st_min st + 1)) as (b & -> & Hwb & Hlb & Hbb); [lia|]. mon.
    destruct (clear_holes_wf b (st_min st) (holes_in_slice (st_min st, st_max st) vs)) as (b' & -> & Hwb' & Hlb' & Hbb');
      [done|done|eapply Forall_impl; [exact Hhr|]; simpl; lia|]. mon. eexists. split; [done|].
    split; [split; [done|]; split; [done|]; simpl; lia|]. simpl. etransitivity; [|exact Hnot].
    apply filter_ext_Forall, Forall_forall. intros x Hx%elem_of_range_list. simpl in Hx. rewrite Hbb', Hbb.
    replace (st_min st + (x - st_min st)) with x by lia.
    rewrite (proj2 (range_contains_spec _ _)) by (simpl; lia). by rewrite andb_true_r.
Qed.

Lemma ssorted_of_le l : StronglySorted Z.le l -> NoDup l -> ssorted l.
Proof.
  intros Hs Hnd. rewrite <- (sort_by_key_id (fun x => x) l) by done. by apply sort_unstable_ssorted.
Qed.

Lemma head_min l lo : ssorted l -> lo ∈ l -> Forall (Z.le lo) l -> head l = Some lo.
Proof.
  intros Hs Hin Hall. destruct l as [|x l]; [by apply elem_of_nil in Hin|]. simpl. f_equal.
  apply ssorted_cons_inv in Hs as [_ Hs]. apply Forall_cons in Hall as [Hx _].
  apply elem_of_cons in Hin as [->|Hin]; [done|]. rewrite Forall_forall in Hs. specialize (Hs _ Hin). lia.
Qed.

Lemma last_max l hi : ssorted l -> hi ∈ l -> Forall (fun v => v <= hi) l -> list.last l = Some hi.
Proof.
  intros Hs Hin Hall. destruct l as [|y l _] using rev_ind; [by apply elem_of_nil in Hin|]. rewrite list.last_snoc. f_equal.
  apply ssorted_app in Hs as (_ & _ & Hs). apply Forall_app in Hall as [_ Hy]. inversion Hy; subst.
  apply elem_of_app in Hin as [Hin|Hin%list_elem_of_singleton]; [|done].
  specialize (Hs hi y Hin ltac:(by left)). lia.
Qed.

Lemma stats_exact vs : Forall u64_ok vs -> zlen vs <= VEC64_MAX -> NoDup vs -> exact (compute_stats vs) vs.
Proof.
  intros Hu Hl Hnd. destruct (compute_stats_ok vs Hu Hl) as [Hc Hmax Hmin Hs]. split; [done|]. intros Hsort.
  apply Hs in Hsort. apply ssorted_of_le in Hsort; [|done]. split; [done|]. intros Hne.
  destruct (Hmax Hne), (Hmin Hne). split; [by apply head_min|by apply last_max].
Qed.

(** Building a segment from distinct values keeps them in order. *)
Lemma from_slice_ok vs : Forall u64_ok vs -> zlen vs <= VEC64_MAX -> NoDup vs ->
  exists s, from_slice vs = Ok s /\ wf s /\ elems s = vs.
Proof. intros Hu Hl Hnd. apply from_stats_ok; [by apply stats_exact|done..]. Qed.

(** ** Slices *)

Lemma zsub_range s e a b : s <= e -> 0 <= a <= b -> b <= e - s -> zsub (range_list (s ..< e)) a b = range_list (s + a ..< s + b).
Proof.
  intros. apply get_opt_ext.
  - rewrite zlen_zsub, zlen_range_list by (rewrite ?zlen_range_list; simpl; lia). simpl. lia.
  - intros i. rewrite zlen_zsub by (rewrite ?zlen_range_list; simpl; lia). intros Hi. rewrite get_opt_zsub by lia.
    unfold range_list. simpl. rewrite !get_opt_seqZ by lia. f_equal. lia.
Qed.

Lemma NoDup_zsub {A} (l : list A) a b : NoDup l -> NoDup (zsub l a b).
Proof.
  intros. unfold zsub, ztake, zskip. eapply sublist_NoDup; [|apply sublist_take].
  by eapply sublist_NoDup; [|apply sublist_drop].
Qed.

Lemma zsub_len {A} (l : list A) offset n : 0 <= n -> ztake n (zskip offset l) = zsub l offset (offset + n).
Proof. intros. unfold zsub. by replace (offset + n - offset) with n by lia. Qed.

Lemma zlen_zsub_le {A} (l : list A) a b : zlen (zsub l a b) <= Z.max 0 (b - a).
Proof. unfold zsub, ztake, zskip, zlen. rewrite length_take. lia. Qed.

(** [slice] takes the values at [offset..offset + n], silently truncated. *)
Lemma seg_slice_ok s offset n : wf s -> NoDup (elems s) -> 0 <= offset -> 0 <= n <= VEC64_MAX ->
  exists s', slice s offset n = Ok s' /\ wf s' /\ elems s' = zsub (elems s) offset (offset + n).
Proof.
  intros Hwf Hnd Ho Hn. unfold slice. destruct (Z.eqb_spec n 0) as [->|Hn0].
  { eexists. split; [done|]. split; [unfold wf, range_ok; simpl; lia|]. by rewrite zsub_nil by lia. }
  assert (Hgen : exists s', (values ← iter s; from_slice (ztake n (zskip offset values))) = Ok s' /\ wf s' /\
    elems s' = zsub (elems s) offset (offset + n)).
  { rewrite seg_iter_ok by done. mon. rewrite zsub_len by lia. apply from_slice_ok.
    - apply EncodedArray.Forall_sub. by apply seg_elems_u64.
    - pose proof (zlen_zsub_le (elems s) offset (offset + n)). lia.
    - by apply NoDup_zsub. }
  destruct s as [r| | | | |]; try exact Hgen. unfold checked_add.
  destruct (Z.leb_spec (offset + n) U64_MAX); [|exact Hgen]. destruct Hwf as (H0 & H1 & H2). unwrap.
  destruct (Z.leb_spec (offset + n) (end_ r - start r)); [|exact Hgen]. unwrap.
  eexists. split; [done|]. split; [unfold wf, range_ok; simpl; lia|]. destruct r as [a b]. simpl in *.
  rewrite zsub_range by lia. do 2 f_equal. lia.
Qed.

(** ** Deletion *)

Lemma delete_ok s vals : wf s -> NoDup (elems s) -> zlen (elems s) <= VEC64_MAX -> vals `sublist_of` elems s ->
  exists s', delete s vals = Ok s' /\ wf s' /\ elems s' = List.filter (not_in vals) (elems s).
Proof.
  intros Hwf Hnd Hl Hsub. unfold delete. rewrite seg_iter_ok by done. mon. rewrite drop_ordered_filter by done.
  assert (Hf : List.filter (not_in vals) (elems s) `sublist_of` elems s).
  { clear. induction (elems s) as [|x l IH]; simpl; [done|]. destruct (not_in vals x); by constructor. }
  assert (Hu : Forall u64_ok (List.filter (not_in vals) (elems s))).
  { apply Forall_forall. intros x [Hx _]%elem_of_filterb. pose proof (seg_elems_u64 s Hwf) as H. rewrite Forall_forall in H. auto. }
  assert (Hz : zlen (List.filter (not_in vals) (elems s)) <= VEC64_MAX).
  { unfold zlen in *. apply sublist_length in Hf. lia. }
  apply from_stats_ok; [apply stats_exact; [done..|by eapply sublist_NoDup]|done..].
Qed.

(** ** Runs of ranges *)

(** Non-empty, sorted, disjoint and non-adjacent ranges from [lo]. *)
Fixpoint ranges_ok (lo : Z) (rs : list Range) : Prop :=
  match rs with
  | [] => True
  | r :: rs' => lo <= start r < end_ r /\ end_ r <= U64_MAX /\ ranges_ok (end_ r + 1) rs'
  end.

(** The holes between consecutive ranges, relative to [base]. *)
Fixpoint between (base prev_end : Z) (rs : list Range) : list (Z * Z) :=
  match rs with
  | [] => []
  | r :: rs' => (prev_end - base, start r - base) :: between base (end_ r) rs'
  end.

Lemma ranges_last lo rs r : ranges_ok lo rs -> list.last rs = Some r ->
  lo <= start r < end_ r /\ end_ r <= U64_MAX /\ Forall (fun q => lo <= start q < end_ q /\ end_ q <= end_ r) rs.
Proof.
  revert lo. induction rs as [|q rs IH]; intros lo H Hl; [done|]. destruct H as (H1 & H2 & H3).
  rewrite list.last_cons in Hl. destruct (list.last rs) as [r'|] eqn:E.
  - injection Hl as ->. destruct (IH _ H3 eq_refl) as (? & ? & Hf). split; [lia|]. split; [lia|].
    constructor; [lia|]. eapply Forall_impl; [exact Hf|]. simpl. lia.
  - injection Hl as ->. apply last_None in E as ->. split; [lia|]. split; [lia|]. constructor; [lia|constructor].
Qed.

Lemma between_ok base sp prev_end rs lo : base <= lo <= prev_end -> ranges_ok (prev_end + 1) rs ->
  Forall (fun q => end_ q <= base + sp) rs -> HoleRuns.runs_ok (lo - base) sp (between base prev_end rs).
Proof.
  revert prev_end lo. induction rs as [|r rs IH]; intros prev_end lo Hlo H Hf; simpl; [done|].
  destruct H as (H1 & H2 & H3). apply Forall_cons in Hf as [? Hf]. split; [lia|]. split; [lia|].
  replace (start r - base + 1) with (start r + 1 - base) by lia. apply IH; [lia|done|done].
Qed.

Lemma between_gaps base sp r0 rs last : list.last (r0 :: rs) = Some last -> end_ last = base + sp ->
  HoleRuns.gaps (start r0 - base) sp (between base (end_ r0) rs) = map (fun r => start r - base ..< end_ r - base) (r0 :: rs).
Proof.
  intros Hl He. revert r0 Hl. induction rs as [|r1 rs IH]; intros r0 Hl; simpl.
  - simpl in Hl. injection Hl as ->. do 2 f_equal. lia.
  - f_equal. apply IH. by rewrite list.last_cons_cons in Hl.
Qed.

Lemma zip_between base r0 rs : (forall q, q ∈ r0 :: rs -> wrap32 (start q -w base) = start q - base /\ wrap32 (end_ q -w base) = end_ q - base) ->
  zip (map (fun r => wrap32 (end_ r -w base)) (take (length rs) (r0 :: rs))) (map (fun r => wrap32 (start r -w base)) rs) =
  between base (end_ r0) rs.
Proof.
  revert r0. induction rs as [|r rs IH]; intros r0 Hq; [done|]. simpl length. rewrite firstn_cons. simpl map. simpl zip. simpl between.
  rewrite (proj2 (Hq r0 ltac:(by left))), (proj1 (Hq r ltac:(right; by left))). f_equal. apply IH. intros q Hin. apply Hq. by right.
Qed.

Lemma from_sorted_ranges_ok r0 r1 rs last : ranges_ok 0 (r0 :: r1 :: rs) -> list.last (r0 :: r1 :: rs) = Some last ->
  end_ last - start r0 <= U32_MAX ->
  exists s, from_sorted_ranges (r0 :: r1 :: rs) = Some s /\ wf s /\ elems s = flat_map range_list (r0 :: r1 :: rs).
Proof.
  intros Hok Hl Hspan. unfold from_sorted_ranges. rewrite Hl. set (rest := r1 :: rs) in *.
  destruct (ranges_last _ _ _ Hok Hl) as (? & ? & Hf). destruct Hok as (H1 & H2 & H3).
  set (base := start r0) in *. set (sp := end_ last - base) in *.
  assert (Hsp : end_ last = base + sp) by lia.
  apply Forall_cons in Hf as Hf2. destruct Hf2 as [Hr0 _]. unwrap. fold sp. rewrite (proj2 (Z.leb_le sp U32_MAX)) by done.
  assert (Hstart : Forall (fun q => base <= start q < end_ q) rest).
  { clear -H1 H3. unfold base. assert (Hge : start r0 <= end_ r0 + 1) by lia. revert Hge H3. generalize (end_ r0 + 1) as lo.
    induction rest as [|q l IH]; intros lo Hge H3; constructor; destruct H3 as (? & ? & H4); [lia|]. by apply (IH (end_ q + 1)); [lia|]. }
  rewrite Forall_forall in Hf, Hstart.
  assert (Hw : forall q, q ∈ r0 :: rest -> wrap32 (start q -w base) = start q - base /\ wrap32 (end_ q -w base) = end_ q - base).
  { intros q Hq. specialize (Hf q Hq). assert (base <= start q < end_ q).
    { apply elem_of_cons in Hq as [->|Hq]; [unfold base; lia|by apply Hstart]. }
    split; unwrap; done. }
  assert (Hzip : HoleRuns.runs_ok 0 sp (between base (end_ r0) rest)).
  { replace 0 with (base - base) by lia. apply between_ok; [lia|done|]. apply Forall_forall. intros q Hq.
    specialize (Hf q ltac:(by right)). lia. }
  destruct (HoleRuns.try_new_ok sp _ ltac:(uok; lia) Hzip) as (h & Ht & Hr & Hhs).
  assert (E : HoleRuns.try_new sp (map (fun r => wrap32 (end_ r -w base)) (take (Nat.pred (length (r0 :: rest))) (r0 :: rest)))
     (map (fun r => wrap32 (start r -w base)) (tail (r0 :: rest))) = Ok h).
  { rewrite <- Ht. pose proof (zip_between base r0 rest Hw) as Hz. simpl length. simpl Nat.pred. simpl tail. f_equal.
    - rewrite <- Hz. symmetry. apply fst_zip. rewrite !length_map, length_take. simpl. lia.
    - rewrite <- Hz. symmetry. apply snd_zip. rewrite !length_map, length_take. simpl. lia. }
  rewrite E. eexists. split; [done|]. split; [split; [unfold range_ok; simpl; lia|split; [by eexists|by rewrite Hhs]]|].
  simpl elems. unfold HoleRuns.present. rewrite (HoleRuns.runs_list_repr _ _ Hr), Hhs. unfold HoleRuns.present_of.
  assert (Hg : HoleRuns.gaps 0 sp (between base (end_ r0) rest) = map (fun r => start r - base ..< end_ r - base) (r0 :: rest)).
  { rewrite <- (between_gaps base sp r0 rest last Hl Hsp). f_equal. unfold base. lia. }
  rewrite Hg. symmetry.
  transitivity (flat_map (fun r => map (Z.add base) (range_list (start r - base ..< end_ r - base))) (r0 :: rest)).
  - apply flat_map_ext. intros q. unfold range_list. simpl.
    replace (end_ q - base - (start q - base)) with (end_ q - start q) by lia.
    replace (start q) with (base + (start q - base)) at 1 by lia. symmetry. apply fmap_add_seqZ.
  - rewrite !flat_map_concat_map, concat_map, !map_map. done.
Qed.

(** ** A new highest value *)

Lemma push_array_ok a v : EncodedArray.wf a -> u64_ok v -> zlen (EncodedArray.elems a) < ISIZE_MAX ->
  EncodedArray.wf (push_array a v) /\ EncodedArray.elems (push_array a v) = EncodedArray.elems a ++ [v].
Proof.
  intros Hwf Hv Hl. pose proof (EncodedArray.elems_ok a Hwf) as Hok.
  assert (Hlen : zlen (EncodedArray.elems a ++ [v]) <= ISIZE_MAX) by (rewrite zlen_app; change (zlen [v]) with 1; lia).
  assert (Hall : Forall u64_ok (EncodedArray.elems a ++ [v])) by (apply Forall_app; split; [done|by constructor]).
  destruct (EncodedArray.from_vec_wf _ Hall Hlen) as (Hw & He & _).
  destruct a as [base o|base o|l]; simpl in *; [| |by split].
  all: destruct (EncodedArray.wf_offsets_le base o _ Hwf) as [? ?]; [by auto|];
    rewrite EncodedArray.add_map_wrap by done; unfold checked_sub; (destruct (Z.leb_spec base v); [|done]);
    destruct Hwf as [[Hb Ho] _]; repeat match goal with |- context [?x <=? ?y] => destruct (Z.leb_spec x y) end; try done;
    unwrap; unfold EncodedArray.wf; simpl; rewrite map_app; simpl; replace (base + (v - base)) with v by lia;
    (split; [|done]); (split; [|done]); (split; [done|]); apply Forall_app; split; try (repeat constructor; uok; lia).
  - done.
  - eapply Forall_impl; [exact Ho|]. uok. simpl. lia.
  - done.
Qed.

Lemma filter_app_tail (f g : Z -> bool) s e v : s <= e <= v -> (forall x, s <= x < e -> f x = g x) ->
  (forall x, e <= x < v -> f x = false) -> f v = true ->
  List.filter f (range_list (s ..< v + 1)) = List.filter g (range_list (s ..< e)) ++ [v].
Proof.
  intros Hsev H1 H2 H3. rewrite range_list_snoc by lia. rewrite List.filter_app. simpl. rewrite H3. f_equal.
  rewrite (range_list_app s e v) by lia. rewrite List.filter_app, (filter_none f (range_list (e ..< v))), app_nil_r.
  - apply filter_ext_Forall, Forall_forall. intros x Hx%elem_of_range_list. by apply H1.
  - apply Forall_forall. intros x Hx%elem_of_range_list. by apply H2.
Qed.

(** Extending a range with holes up to [v]: the gap becomes holes. *)
Lemma holes_extend hs s e v : Forall (fun h => s <= h < e) hs -> s <= e <= v ->
  List.filter (not_in (hs ++ range_list (e ..< v))) (range_list (s ..< v + 1)) =
  List.filter (not_in hs) (range_list (s ..< e)) ++ [v].
Proof.
  intros Hh Hsev. rewrite Forall_forall in Hh. apply filter_app_tail; [done|..].
  - intros x Hx. apply eq_true_iff_eq. rewrite !not_in_true, elem_of_app, elem_of_range_list. simpl.
    split; [tauto|]. intros Hn [?|?]; [done|lia].
  - intros x Hx. apply not_in_false, elem_of_app. right. by apply elem_of_range_list.
  - apply not_in_true. rewrite elem_of_app, elem_of_range_list. simpl. intros [Hv%Hh|?]; lia.
Qed.

Lemma holes_extend_wf hs s e v : EncodedArray.wf hs -> ssorted (EncodedArray.elems hs) ->
  Forall (fun h => s <= h < e) (EncodedArray.elems hs) -> 0 <= s -> s <= e <= v -> v < U64_MAX -> v + 1 - s <= VEC64_MAX ->
  zlen (EncodedArray.elems hs) <= e - s ->
  wf (RangeWithHoles (s ..< v + 1) (U64 (EncodedArray.elems hs ++ range_list (e ..< v)))).
Proof.
  intros Hw Hs Hf H0 Hsev Hv Hcap Hn. split; [unfold range_ok; simpl; lia|]. rewrite Forall_forall in Hf.
  assert (Hall : forall x, x ∈ EncodedArray.elems hs ++ range_list (e ..< v) -> s <= x < v + 1).
  { intros x [Hx%Hf|Hx%elem_of_range_list]%elem_of_app; simpl in *; lia. }
  split; [split; simpl|split; simpl].
  - apply Forall_forall. intros x Hx%Hall. uok. lia.
  - rewrite zlen_app, zlen_range_list by (simpl; lia). simpl. lia.
  - apply ssorted_app. split; [done|]. split; [auto with lance|]. intros x y Hx%Hf Hy%elem_of_range_list. simpl in Hy. lia.
  - by apply Forall_forall.
Qed.

Lemma get_opt_filter_true l i (f : Z -> bool) : get_opt (map f (range_list (0 ..< l))) i = if range_contains (0 ..< l) i then Some (f i) else None.
Proof.
  rewrite get_opt_map. unfold range_list. simpl. destruct (range_contains (0 ..< l) i) eqn:E.
  - apply range_contains_spec in E. simpl in E. by rewrite get_opt_seqZ by lia.
  - rewrite (proj2 (get_opt_None _ _)); [done|]. unfold range_contains in E. simpl in E.
    destruct (Z.leb_spec 0 i); [|by left]. right. unfold zlen. rewrite length_seqZ.
    destruct (Z.ltb_spec i l); [done|lia].
Qed.

Lemma bitmap_extend_ok r b v : wf (RangeWithBitmap r b) -> end_ r <= v < U64_MAX -> v + 1 - start r <= VEC64_MAX ->
  exists b', Bitmap.from_bools (Bitmap.iter b ++ replicate (Z.to_nat (v - end_ r)) false ++ [true]) = Ok b' /\
    wf (RangeWithBitmap (start r ..< v + 1) b') /\
    elems (RangeWithBitmap (start r ..< v + 1) b') = elems (RangeWithBitmap r b) ++ [v].
Proof.
  intros ((H0 & H1 & H2) & Hb & Hl) Hv Hcap. rewrite Bitmap.iter_wf by done.
  pose proof (Bitmap.wf_len b Hb). set (old := map _ _).
  assert (Hold : zlen old = Bitmap.len b) by (unfold old; rewrite zlen_map, zlen_range_list; simpl; lia).
  assert (Hz : zlen (old ++ replicate (Z.to_nat (v - end_ r)) false ++ [true]) = v + 1 - start r).
  { rewrite !zlen_app, Hold, zlen_replicate, zlen_cons, zlen_nil by lia. lia. }
  destruct (Bitmap.from_bools_wf (old ++ replicate (Z.to_nat (v - end_ r)) false ++ [true])) as (b' & -> & Hb' & Hl' & Hbits); [lia|].
  exists b'. split; [done|]. split; [split; [unfold range_ok; simpl; lia|]; split; [done|]; simpl; lia|].
  destruct r as [s e]. simpl in *. apply filter_app_tail; [lia|..].
  - intros x Hx. rewrite Hbits, get_opt_app, Hold, (proj2 (Z.ltb_lt _ _)) by lia. unfold old.
    rewrite get_opt_filter_true, (proj2 (range_contains_spec _ _)) by (simpl; lia). done.
  - intros x Hx. rewrite Hbits, get_opt_app, Hold, (proj2 (Z.ltb_ge _ _)) by lia.
    rewrite get_opt_app, zlen_replicate, (proj2 (Z.ltb_lt _ _)), get_opt_replicate by lia. by case_match.
  - rewrite Hbits, get_opt_app, Hold, (proj2 (Z.ltb_ge _ _)) by lia.
    rewrite get_opt_app, zlen_replicate, (proj2 (Z.ltb_ge _ _)), get_opt_cons by lia.
    by rewrite (proj2 (Z.eqb_eq _ _)) by lia.
Qed.

(** The span of the extended segment can be stored. *)
Definition high_fits (s : U64Segment) (v : Z) : Prop :=
  v < U64_MAX /\ zlen (elems s) < VEC64_MAX /\
  match range s with Some (lo, _) => v + 1 - lo <= VEC64_MAX | None => True end.

(** A holey range has at least one slot. *)
Definition slots (s : U64Segment) : Prop :=
  match s with RangeWithHoles r _ | RangeWithBitmap r _ => start r < end_ r | _ => True end.

Lemma with_new_high_ok s v : wf s -> slots s -> u64_ok v -> high_fits s v ->
  match range s with Some (_, hi) => hi < v | None => True end ->
  exists s', with_new_high s v = Ok s' /\ wf s' /\ elems s' = elems s ++ [v].
Proof.
  intros Hwf Hsl Hv (Hmax & Hlen & Hspan) Hhi. unfold with_new_high.
  assert ((match range s with Some (_, hi) => v <=? hi | None => false end) = false) as ->.
  { destruct (range s) as [[lo hi]|]; [apply Z.leb_gt; lia|done]. }
  assert (Hend : forall r, (range s = if negb (range_is_empty r) then Some (start r, end_ r -w 1) else None) -> start r < end_ r ->
    range_ok r -> end_ r <= v /\ v + 1 - start r <= VEC64_MAX).
  { intros r Er Hr (? & ? & ?). rewrite Er in *. unfold range_is_empty in *. rewrite (proj2 (Z.ltb_lt _ _)) in * by done.
    simpl in *. unwrap_in Hhi. lia. }
  uok. destruct s as [r|r h|r b|r rs|a|a]; simpl in Hsl.
  - pose proof Hwf as (? & ? & ?). destruct (Z.eqb_spec (start r) (end_ r)) as [E|E].
    { unwrap. eexists. split; [done|]. split; [unfold wf, range_ok; simpl; lia|]. destruct r as [a b]. simpl in *.
      rewrite range_list_cons, !range_list_nil by lia. done. }
    destruct (Hend r eq_refl) as [He Hc]; [lia|done|]. unwrap. destruct r as [a b]. simpl in *.
    destruct (Z.eqb_spec v b) as [->|]; (eexists; split; [done|]).
    + split; [unfold wf, range_ok; simpl; lia|]. simpl. rewrite range_list_snoc by lia. done.
    + change (range_list (b ..< v)) with (EncodedArray.elems (U64 []) ++ range_list (b ..< v)). split.
      * assert (Hnil : EncodedArray.wf (U64 [])) by (split; [apply Forall_nil; done|unfold zlen; simpl; lia]).
        apply holes_extend_wf; [done|apply SSorted_nil|apply Forall_nil; done|lia..|unfold zlen; simpl; lia].
      * etransitivity; [apply (holes_extend [] a b v); [by apply Forall_nil|lia]|]. simpl. f_equal.
        apply filter_all, Forall_forall. intros x _. apply not_in_true. by intros ?%elem_of_nil.
  - pose proof Hwf as ((? & ? & ?) & Hh & Hs & Hf). destruct (Hend r eq_refl) as [He Hc]; [done..|]. unwrap.
    pose proof (zlen_holes r h Hwf) as Hz. pose proof (zlen_nonneg (elems (RangeWithHoles r h))). destruct r as [a b]. simpl start in *. simpl end_ in *.
    destruct (Z.eqb_spec v b) as [->|]; (eexists; split; [done|]).
    + pose proof (holes_extend (EncodedArray.elems h) a b b Hf) as Hx. rewrite range_list_nil, app_nil_r in Hx by lia.
      split; [|apply Hx; lia]. split; [unfold range_ok; simpl; lia|]. do 2 (split; [done|]).
      eapply Forall_impl; [exact Hf|]. simpl. lia.
    + rewrite EncodedArray.iter_elems by done. split; [apply holes_extend_wf; done || lia|]. by apply holes_extend.
  - destruct (Hend r eq_refl) as [He Hc]; [done|apply Hwf|]. pose proof Hwf as ((? & ? & ?) & _). unwrap.
    destruct (bitmap_extend_ok r b v Hwf) as (b' & -> & ? & ?); [lia|done|]. mon. eauto.
  - rewrite seg_iter_ok by done. mon. apply from_slice_ok.
    + apply Forall_app. split; [by apply seg_elems_u64|]. constructor; [uok; lia|done].
    + rewrite zlen_app. change (zlen [v]) with 1. lia.
    + pose proof (range_bounds _ Hwf) as Hb. apply ssorted_NoDup, ssorted_app. split; [by apply elems_ssorted|].
      split; [repeat constructor|]. intros x y Hx Hy%list_elem_of_singleton. subst y.
      destruct (range (Ranges r rs)) as [[lo hi]|]; [|rewrite Hb in Hx; by apply elem_of_nil in Hx].
      destruct Hb as [Hb _]. rewrite Forall_forall in Hb. specialize (Hb x Hx). lia.
  - pose proof (range_bounds _ Hwf) as Hb. destruct Hwf as [Ha Hs]. destruct (push_array_ok a v Ha) as [Hw He]; [done|simpl in Hlen; lia|].
    eexists. split; [done|]. split; [|done]. split; [done|]. rewrite He. apply ssorted_app. split; [done|].
    split; [repeat constructor|]. intros x y Hx Hy%list_elem_of_singleton. subst y.
    destruct (range (SortedArray a)) as [[lo hi]|]; [|simpl in Hb; rewrite Hb in Hx; by apply elem_of_nil in Hx].
    destruct Hb as [Hb _]. rewrite Forall_forall in Hb. specialize (Hb x Hx). lia.
  - destruct (push_array_ok a v Hwf) as [Hw He]; [done|simpl in Hlen; lia|]. eexists. split; [done|]. by split.
Qed.

Lemma with_new_high_err s v lo hi : range s = Some (lo, hi) -> v <= hi -> with_new_high s v = Err InvalidInput.
Proof. intros Hr Hv. unfold with_new_high. by rewrite Hr, (proj2 (Z.leb_le v hi)). Qed.

(** ** Masking positions *)

(** The values whose index is not masked. *)
Definition unmasked (positions l : list Z) : list Z :=
  map snd (List.filter (fun p => not_in positions (fst p)) (enumerate l)).

Lemma map_fst_enumerate {A} (l : list A) : map fst (enumerate l) = seqZ 0 (zlen l).
Proof. unfold enumerate. apply fst_zip. rewrite length_seqZ. unfold zlen. lia. Qed.

Lemma map_snd_enumerate {A} (l : list A) : map snd (enumerate l) = l.
Proof. unfold enumerate. apply snd_zip. rewrite length_seqZ. unfold zlen. lia. Qed.

Lemma flat_map_enumerate {A B} (f : A -> list B) l : flat_map (fun p => f (snd p)) (enumerate l) = flat_map f l.
Proof. rewrite <- (map_snd_enumerate l) at 2. induction (enumerate l) as [|p ps IH]; [done|]. cbn. by rewrite IH. Qed.

Lemma filter_sublist {A} (f : A -> bool) l : List.filter f l `sublist_of` l.
Proof. induction l as [|x l IH]; simpl; [done|]. destruct (f x); by constructor. Qed.

Lemma unmasked_sublist positions l : unmasked positions l `sublist_of` l.
Proof. unfold unmasked. rewrite <- (map_snd_enumerate l) at 2. apply fmap_sublist, filter_sublist. Qed.

Lemma unmasked_elem positions l x : x ∈ unmasked positions l <-> exists i, get_opt l i = Some x /\ i ∉ positions.
Proof.
  unfold unmasked. rewrite list_elem_of_fmap. split.
  - intros ([i y] & -> & [Hin Hn%not_in_true]%elem_of_filterb). exists i. by rewrite <- enumerate_lookup.
  - intros (i & Hi & Hn). exists (i, x). split; [done|]. rewrite elem_of_filterb, enumerate_lookup, not_in_true. done.
Qed.

Lemma zlen_unmasked positions l : ssorted positions -> Forall (fun p => 0 <= p < zlen l) positions ->
  zlen (unmasked positions l) = zlen l - zlen positions.
Proof.
  intros Hs Hp. unfold unmasked. rewrite zlen_map.
  pose proof (filter_split (fun i => not_in positions i) (seqZ 0 (zlen l))) as H.
  rewrite <- map_fst_enumerate, filter_map_length, map_fst_enumerate in H. rewrite zlen_seqZ in H by apply zlen_nonneg.
  replace (List.filter (fun x => negb (not_in positions x)) (seqZ 0 (zlen l))) with positions in H; [lia|].
  apply ssorted_ext; [done|auto with lance|]. intros x. rewrite elem_of_filterb, elem_of_seqZ, negb_true_iff, not_in_false.
  rewrite Forall_forall in Hp. split; [|tauto]. intros Hx. specialize (Hp x Hx). split; [lia|done].
Qed.

Lemma mask_sequence_filter positions l : positions `sublist_of` map fst l -> NoDup (map fst l) ->
  Forall (fun p => u32_ok (fst p)) l ->
  mask_sequence positions l = map snd (List.filter (fun p => not_in positions (fst p)) l).
Proof.
  revert positions. induction l as [|[i v] l IH]; intros positions Hsub Hnd Hu; [done|].
  simpl in *. apply NoDup_cons in Hnd as [Hi Hnd]. apply Forall_cons in Hu as [Hu0 Hu]. simpl in Hu0. rewrite wrap32_small by done.
  assert (Hskip : forall ps, ps `sublist_of` map fst l -> not_in ps i = true).
  { intros ps Hps. apply not_in_true. intros Hin. apply Hi. by eapply elem_of_submseteq, sublist_submseteq. }
  destruct positions as [|p positions].
  - rewrite IH by (done || apply sublist_nil_l). done.
  - destruct (Z.eqb_spec p i) as [->|Hne].
    + rewrite (proj2 (not_in_false _ i)) by (by left). apply sublist_cons_r in Hsub as [Hsub|(ps & [= <-] & Hsub)].
      { specialize (Hskip _ Hsub). rewrite not_in_true in Hskip. destruct Hskip. by left. }
      rewrite IH by done. f_equal. apply filter_ext_Forall, Forall_forall. intros [j w] Hin. simpl.
      apply eq_true_iff_eq. rewrite !not_in_true, not_elem_of_cons. split; [|tauto]. intros Hn. split; [|done].
      intros ->. apply Hi. apply list_elem_of_fmap. by exists (i, w).
    + apply sublist_cons_r in Hsub as [Hsub|(ps & [= -> <-] & Hsub)]; [|done].
      rewrite Hskip by done. simpl. f_equal. by apply IH.
Qed.

Lemma find_range (f : Z -> bool) n i : 0 <= i < n -> f i = true -> (forall j, 0 <= j < i -> f j = false) ->
  find f (range_list (0 ..< n)) = Some i.
Proof.
  intros Hi Hf Hlt. rewrite (range_list_app 0 i n) by lia. rewrite (range_list_cons i) by lia.
  assert (Hl : Forall (fun j => f j = false) (range_list (0 ..< i))).
  { apply Forall_forall. intros j Hj%elem_of_range_list. by apply Hlt. }
  induction Hl as [|j l Hj _ IH]; simpl; [by rewrite Hf|]. by rewrite Hj.
Qed.

(** The least index that is not masked. *)
Lemma least_unmasked n positions : ssorted positions -> Forall (fun p => 0 <= p < n) positions -> positions <> [] ->
  zlen positions < n -> exists i, 0 <= i < n /\ (i ∉ positions) /\ (forall j, 0 <= j < i -> j ∈ positions) /\
    (forall j, 0 <= j < i -> cycled positions j = Some j) /\ (exists p, cycled positions i = Some p /\ p <> i).
Proof.
  intros Hs Hp Hne Hn. set (m := zlen positions) in *.
  assert (Hm : 0 < m) by (unfold m; destruct positions; [done|rewrite zlen_cons; pose proof (zlen_nonneg positions); lia]).
  destruct (get_opt_lt positions 0) as [p0 Hp0]; [lia|].
  assert (Hge : forall j x, get_opt positions j = Some x -> j <= x).
  { intros j x Hx. apply get_opt_Some in Hx as ?. pose proof (ssorted_get_opt_gap _ _ _ _ _ Hs Hp0 Hx ltac:(lia)).
    pose proof (Forall_get_opt _ _ _ _ Hp Hp0). simpl in *. lia. }
  assert (Hcyc : forall j, 0 <= j < m -> cycled positions j = get_opt positions j).
  { intros j Hj. unfold cycled. fold m. by rewrite Z.mod_small. }
  assert (Hex : forall k, 0 <= k <= m -> (forall j, 0 <= j < k -> get_opt positions j = Some j) \/
    exists i, 0 <= i < k /\ (forall j, 0 <= j < i -> get_opt positions j = Some j) /\ get_opt positions i <> Some i).
  { intros k [Hk0 Hk]. revert Hk. pattern k. apply natlike_ind; [left; lia| |done].
    intros q Hq IH Hqm. destruct IH as [Hall|(i & ? & ? & ?)]; [lia| |right; exists i; split; [lia|done]].
    destruct (decide (get_opt positions q = Some q)) as [E|E].
    - left. intros j Hj. destruct (decide (j = q)) as [->|]; [done|apply Hall; lia].
    - right. exists q. split; [lia|done]. }
  destruct (Hex m) as [Hall|(i & Hi & Hbelow & Hat)]; [lia| |].
  - exists m. split; [lia|]. split.
    { intros [k Hk]%elem_of_get_opt. apply get_opt_Some in Hk as ?. rewrite Hall in Hk by (unfold m in *; lia).
      injection Hk as ->. unfold m in *. lia. }
    split; [intros j Hj; apply elem_of_get_opt; exists j; by apply Hall|].
    split; [intros j Hj; rewrite Hcyc by done; by apply Hall|]. exists p0. unfold cycled. fold m.
    rewrite Z.mod_same by lia. split; [done|]. rewrite Hall in Hp0 by lia. injection Hp0 as <-. lia.
  - destruct (get_opt_lt positions i) as [x Hx]; [unfold m in *; lia|]. assert (i < x).
    { specialize (Hge i x Hx). destruct (decide (x = i)) as [->|]; [done|lia]. }
    exists i. split; [lia|]. split.
    { intros [k Hk]%elem_of_get_opt. apply get_opt_Some in Hk as ?. destruct (decide (k < i)).
      - rewrite Hbelow in Hk by lia. injection Hk as ->. lia.
      - pose proof (ssorted_get_opt_gap _ _ _ _ _ Hs Hx Hk ltac:(lia)). lia. }
    split; [intros j Hj; apply elem_of_get_opt; exists j; by apply Hbelow|].
    split; [intros j Hj; rewrite Hcyc by lia; by apply Hbelow|]. exists x. rewrite Hcyc by lia. split; [done|lia].
Qed.

Lemma first_unmasked_ok n positions : ssorted positions -> Forall (fun p => 0 <= p < n) positions -> positions <> [] ->
  zlen positions < n -> n <= U32_MAX ->
  exists i, first_unmasked n positions = Some i /\ 0 <= i < n /\ (i ∉ positions) /\ (forall j, 0 <= j < i -> j ∈ positions).
Proof.
  intros Hs Hp Hne Hn Hmax. destruct (least_unmasked n positions Hs Hp Hne Hn) as (i & Hi & Hni & Hlt & Hc & p & Hcp & Hpi).
  exists i. split; [|done]. apply find_range; [done|..].
  - rewrite Hcp. unwrap. apply negb_true_iff. by apply Z.eqb_neq.
  - intros j Hj. rewrite Hc by done. unwrap. by rewrite Z.eqb_refl.
Qed.

Lemma cycled_map {A B} (f : A -> B) l i : cycled (map f l) i = f <$> cycled l i.
Proof. unfold cycled. rewrite zlen_map. apply get_opt_map. Qed.

Lemma ssorted_rev_flip n l : ssorted l -> ssorted (map (fun p => n - 1 - p) (rev l)).
Proof.
  induction 1 as [|x l Hl IH Hx]; simpl; [constructor|]. rewrite map_app. apply ssorted_app. split; [done|].
  split; [repeat constructor|]. intros a b (y & -> & Hy)%list_elem_of_fmap Hb%list_elem_of_singleton. simpl in Hb. subst b.
  rewrite list_elem_of_In, <- in_rev, <- list_elem_of_In in Hy. rewrite Forall_forall in Hx. specialize (Hx y Hy). lia.
Qed.

Lemma elem_of_rev_flip n l x : x ∈ map (fun p => n - 1 - p) (rev l) <-> n - 1 - x ∈ l.
Proof.
  rewrite list_elem_of_fmap. split.
  - intros (y & -> & Hy). rewrite list_elem_of_In, <- in_rev, <- list_elem_of_In in Hy.
    by replace (n - 1 - (n - 1 - y)) with y by lia.
  - intros Hx. exists (n - 1 - x). split; [lia|]. by rewrite list_elem_of_In, <- in_rev, <- list_elem_of_In.
Qed.

Lemma last_unmasked_ok n positions : ssorted positions -> Forall (fun p => 0 <= p < n) positions -> positions <> [] ->
  zlen positions < n -> n <= U32_MAX ->
  exists i, last_unmasked n positions = Some i /\ 0 <= i < n /\ (i ∉ positions) /\ (forall j, i < j < n -> j ∈ positions).
Proof.
  intros Hs Hp Hne Hn Hmax. set (ps := map (fun p => n - 1 - p) (rev positions)).
  assert (Hlen : zlen ps = zlen positions) by (unfold ps, zlen; by rewrite length_map, length_rev).
  destruct (least_unmasked n ps) as (i & Hi & Hni & Hlt & Hc & p & Hcp & Hpi).
  - by apply ssorted_rev_flip.
  - apply Forall_forall. intros x Hx%elem_of_rev_flip. rewrite Forall_forall in Hp. specialize (Hp _ Hx). lia.
  - intros E. rewrite E in Hlen. destruct positions; [done|]. rewrite zlen_cons in Hlen. pose proof (zlen_nonneg positions).
    change (zlen (@nil Z)) with 0 in Hlen. lia.
  - lia.
  - unfold ps in Hc, Hcp. setoid_rewrite cycled_map in Hc. rewrite cycled_map in Hcp.
    exists (n - 1 - i). unfold last_unmasked. rewrite (find_range _ n i); [|lia|..].
    + split; [done|]. split; [lia|]. split; [by rewrite <- elem_of_rev_flip|].
      intros j Hj. replace j with (n - 1 - (n - 1 - j)) by lia. apply elem_of_rev_flip. apply Hlt. lia.
    + destruct (cycled (rev positions) i) as [q|]; [|done]. injection Hcp as <-. unwrap. apply negb_true_iff, Z.eqb_neq. lia.
    + intros j Hj. specialize (Hc j Hj). destruct (cycled (rev positions) j) as [q|]; [|done]. injection Hc as Hq. unwrap.
      apply negb_false_iff, Z.eqb_eq. lia.
Qed.

(** Masking removes exactly the values at the given positions. *)
Lemma mask_ok s positions : wf s -> NoDup (elems s) -> zlen (elems s) <= U32_MAX -> ssorted positions ->
  Forall (fun p => 0 <= p < zlen (elems s)) positions ->
  exists s', mask s positions = Ok s' /\ wf s' /\ elems s' = unmasked positions (elems s).
Proof.
  intros Hwf Hnd Hmax Hs Hp. pose proof (zlen_unmasked positions (elems s) Hs Hp) as Hcount.
  pose proof (unmasked_sublist positions (elems s)) as Hsub. unfold mask. destruct positions as [|p0 ps] eqn:Eps.
  { exists s. split; [done|]. split; [done|]. unfold unmasked. rewrite filter_all; [by rewrite map_snd_enumerate|].
    apply Forall_forall. intros x _. apply not_in_true. by intros ?%elem_of_nil. }
  rewrite <- Eps in *. assert (Hne : positions <> []) by (by rewrite Eps). clear Eps.
  rewrite seg_len_ok by done. mon. set (n := zlen (elems s)) in *. pose proof (zlen_nonneg (unmasked positions (elems s))).
  destruct (Z.eqb_spec (zlen positions) n) as [E|E].
  { eexists. split; [done|]. split; [unfold wf, range_ok; simpl; lia|].
    destruct (unmasked positions (elems s)) as [|x l]; [done|]. rewrite zlen_cons in *. pose proof (zlen_nonneg l). lia. }
  destruct (first_unmasked_ok n positions) as (i & -> & Hi & Hni & Hlt); [done..|lia|done|]. mon.
  destruct (last_unmasked_ok n positions) as (j & -> & Hj & Hnj & Hgt); [done..|lia|done|].
  destruct (get_opt_lt (elems s) i) as [mn Hmn]; [done|]. destruct (get_opt_lt (elems s) j) as [mx Hmx]; [done|].
  rewrite seg_get_ok by (done || uok; lia). mon. rewrite Hmn. mon. rewrite seg_get_ok by (done || uok; lia). mon. rewrite Hmx. mon.
  rewrite seg_iter_ok by done. mon. pose proof (zlen_nonneg positions). unwrap.
  assert (Hseq : mask_sequence positions (enumerate (elems s)) = unmasked positions (elems s)).
  { apply mask_sequence_filter.
    - rewrite map_fst_enumerate. apply sublist_ssorted; [done|auto with lance|]. intros x Hx.
      rewrite Forall_forall in Hp. specialize (Hp x Hx). apply elem_of_seqZ. unfold n in *. lia.
    - rewrite map_fst_enumerate. auto with lance.
    - apply Forall_forall. intros [k v] Hk%enumerate_lookup%get_opt_Some. simpl. unfold n in *. uok. lia. }
  rewrite Hseq. apply from_stats_ok.
  - split; [done|]. simpl. intros Hk. pose proof (elems_ssorted s Hwf Hk) as Hss.
    assert (Hsu : ssorted (unmasked positions (elems s))) by (by eapply sublist_sorted_Z).
    split; [done|]. intros _. split; [apply head_min|apply last_max]; try done.
    + apply unmasked_elem. eauto.
    + apply Forall_forall. intros x (k & Hk' & Hnk)%unmasked_elem. apply get_opt_Some in Hk' as ?.
      destruct (decide (k < i)); [destruct Hnk; apply Hlt; lia|].
      pose proof (ssorted_get_opt_gap _ _ _ _ _ Hss Hmn Hk' ltac:(lia)). lia.
    + apply unmasked_elem. eauto.
    + apply Forall_forall. intros x (k & Hk' & Hnk)%unmasked_elem. apply get_opt_Some in Hk' as ?.
      destruct (decide (j < k)); [destruct Hnk; apply Hgt; unfold n; lia|].
      pose proof (ssorted_get_opt_gap _ _ _ _ _ Hss Hk' Hmx ltac:(lia)). lia.
  - apply Forall_forall. intros x (k & Hk & _)%unmasked_elem. by eapply Forall_get_opt; [apply seg_elems_u64|].
  - unfold n in *. lia.
Qed.

(** ** Properties *)

(** Building a segment from distinct values, in any order, never panics,
    yields a well-formed segment whichever encoding the size estimate picks,
    and iterating over it gives back the values in their order. *)
Theorem segment_from_slice vs : Forall u64_ok vs -> zlen vs <= VEC64_MAX -> NoDup vs ->
  exists s, from_slice vs = Ok s /\ wf s /\ iter s = Ok vs /\ len s = Ok (zlen vs).
Proof.
  intros Hu Hl Hnd. destruct (from_slice_ok vs Hu Hl Hnd) as (s & E & Hwf & He). exists s.
  rewrite seg_iter_ok, seg_len_ok, He by done. done.
Qed.

Lemma segment_from_slice_witness : exists s, from_slice [3; 4; 6; 7; 9] = Ok s /\ iter s = Ok [3; 4; 6; 7; 9].
Proof.
  destruct (segment_from_slice [3; 4; 6; 7; 9]) as (s & ? & _ & ? & _);
    [repeat constructor; uok; lia|vm_compute; done|apply (bool_decide_unpack _); vm_compute; done|]. eauto.
Defined.

(** A slice of a segment holds the values at the positions of the slice;
    positions past the end are silently dropped, and the constant-time path
    for a contiguous range agrees with the generic one. *)
Theorem segment_slice s offset n : wf s -> NoDup (elems s) -> 0 <= offset -> 0 <= n <= VEC64_MAX ->
  exists s', slice s offset n = Ok s' /\ wf s' /\ iter s' = Ok (zsub (elems s) offset (offset + n)).
Proof.
  intros Hwf Hnd Ho Hn. destruct (seg_slice_ok s offset n Hwf Hnd Ho Hn) as (s' & E & Hwf' & He).
  exists s'. by rewrite seg_iter_ok, He.
Qed.

Lemma segment_slice_witness : exists s', slice (Range_ (10 ..< 20)) 7 5 = Ok s' /\ iter s' = Ok [17; 18; 19].
Proof.
  destruct (segment_slice (Range_ (10 ..< 20)) 7 5) as (s' & ? & _ & E);
    [unfold wf, range_ok; simpl; lia|apply ssorted_NoDup, ssorted_range_list|lia..|]. exists s'. split; [done|exact E].
Defined.

(** Appending a new highest value either reports an invalid input, exactly
    when the value is not above the current maximum, or yields a well-formed
    segment with the value added at the end, for each of the six encodings. *)
Theorem segment_with_new_high s v : wf s -> slots s -> u64_ok v -> high_fits s v ->
  (match range s with Some (_, hi) => v <= hi | None => False end -> with_new_high s v = Err InvalidInput) /\
  (match range s with Some (_, hi) => hi < v | None => True end ->
     exists s', with_new_high s v = Ok s' /\ wf s' /\ iter s' = Ok (elems s ++ [v])).
Proof.
  intros Hwf Hsl Hv Hfit. split.
  - destruct (range s) as [[lo hi]|] eqn:E; [|done]. intros ?. by eapply with_new_high_err.
  - intros Hhi. destruct (with_new_high_ok s v Hwf Hsl Hv Hfit Hhi) as (s' & E & Hwf' & He). exists s'. by rewrite seg_iter_ok, He.
Qed.

Lemma segment_with_new_high_witness :
  with_new_high (Range_ (10 ..< 20)) 15 = Err InvalidInput /\
  exists s', with_new_high (Range_ (10 ..< 13)) 15 = Ok s' /\ iter s' = Ok [10; 11; 12; 15].
Proof.
  split.
  - apply (segment_with_new_high (Range_ (10 ..< 20)) 15); [unfold wf, range_ok; simpl; lia|done|uok; lia|vm_compute; done|vm_compute; done].
  - destruct (segment_with_new_high (Range_ (10 ..< 13)) 15) as [_ H];
      [unfold wf, range_ok; simpl; lia|done|uok; lia|vm_compute; done|].
    destruct H as (s' & ? & _ & E); [vm_compute; done|]. exists s'. split; [done|exact E].
Defined.

(** Deleting ids that occur in a segment, listed in the order of their
    appearance, removes exactly those ids and keeps the others in order. *)
Theorem segment_delete s vals : wf s -> NoDup (elems s) -> zlen (elems s) <= VEC64_MAX -> vals `sublist_of` elems s ->
  exists s', delete s vals = Ok s' /\ wf s' /\ iter s' = Ok (List.filter (not_in vals) (elems s)).
Proof.
  intros Hwf Hnd Hl Hsub. destruct (delete_ok s vals Hwf Hnd Hl Hsub) as (s' & E & Hwf' & He). exists s'. by rewrite seg_iter_ok, He.
Qed.

Lemma segment_delete_witness : exists s', delete (Range_ (10 ..< 16)) [11; 14] = Ok s' /\ iter s' = Ok [10; 12; 13; 15].
Proof.
  destruct (segment_delete (Range_ (10 ..< 16)) [11; 14]) as (s' & ? & _ & E);
    [unfold wf, range_ok; simpl; lia|apply ssorted_NoDup, ssorted_range_list|vm_compute; done| |exists s'; split; [done|exact E]].
  change ([11; 14] `sublist_of` [10; 11; 12; 13; 14; 15]). repeat constructor.
Defined.

(** Masking a sorted list of positions removes exactly the values at those
    positions, on every encoding, including the two shortcuts (nothing masked,
    everything masked) and the statistics read off the first and last unmasked
    positions. *)
Theorem segment_mask s positions : wf s -> NoDup (elems s) -> zlen (elems s) <= U32_MAX -> ssorted positions ->
  Forall (fun p => 0 <= p < zlen (elems s)) positions ->
  exists s', mask s positions = Ok s' /\ wf s' /\ iter s' = Ok (unmasked positions (elems s)).
Proof.
  intros Hwf Hnd Hmax Hs Hp. destruct (mask_ok s positions Hwf Hnd Hmax Hs Hp) as (s' & E & Hwf' & He).
  exists s'. by rewrite seg_iter_ok, He.
Qed.

Lemma segment_mask_witness : exists s', mask (Range_ (10 ..< 16)) [0; 3; 5] = Ok s' /\ iter s' = Ok [11; 12; 14].
Proof.
  destruct (segment_mask (Range_ (10 ..< 16)) [0; 3; 5]) as (s' & ? & _ & E);
    [unfold wf, range_ok; simpl; lia|apply ssorted_NoDup, ssorted_range_list|vm_compute; done|repeat constructor| |exists s'; split; [done|exact E]].
  repeat constructor; vm_compute; done.
Defined.
