(* ===== verification/SegmentRuns.v ===== *)
(** * Runs of consecutive row ids

    [lance-table/src/rowids/segment.rs], [U64Segment::runs]: the maximal runs of
    consecutive ids of a segment, read off each encoding without expanding it:
    from the holes, from the bitmap a 64-bit word at a time, or from a packed
    array.  The specification is that the runs concatenate to the values and
    that no two neighbouring runs could be joined. *)

From Stdlib Require Import ZArith Lia.
From stdpp Require Import base option list numbers sorting sets gmap.
From S2P Require Import Prelude Lists Bits Bitmap EncodedArray HoleRuns Segment SegmentBuild.

(** ** Model *)

(** The closure over [start] of the holes iterator. *)
Fixpoint holes_runs (start : Z) (bounds : list Z) : list Range :=
  match bounds with
  | [] => []
  | bound :: bounds' =>
      let run := start ..< bound in
      let rest := holes_runs (saturating_add bound 1) bounds' in
      if range_is_empty run then rest else run :: rest
  end.

(** [word(i)]: eight bytes, zero-padded at the tail. *)
Definition word (bytes : list Z) (i : Z) : res Z :=
  let start := i * 8 in
  if start <=? zlen bytes then
    let tail := zskip start bytes in
    Ok (if 8 <=? zlen tail then from_le_bytes (ztake 8 tail)
        else from_le_bytes (tail ++ replicate (Z.to_nat (8 - zlen tail)) 0))
  else Panic.

(** [next_edge(bit, wanted)]: each step ends the loop or moves to the next word. *)
Fixpoint next_edge (fuel : nat) (bytes : list Z) (len bit : Z) (wanted : Z -> Z) : res Z :=
  match fuel with
  | O => Ok len
  | S fuel' =>
      if bit <? len then
        w ← word bytes (bit / 64);
        let rest := Z.shiftr (wanted w) (bit mod 64) in
        if rest =? 0 then next_edge fuel' bytes len (wrap64 ((bit / 64 + 1) * 64)) wanted
        else Ok (Z.min (bit +w trailing_zeros 64 rest) len)
      else Ok len
  end.

(** The words left to visit bound the loop. *)
Definition edge_fuel (len bit : Z) : nat := S (Z.to_nat (len / 64 + 1 - bit / 64)).

Fixpoint bitmap_runs_loop (fuel : nat) (base len : Z) (bytes : list Z) (bit : Z) : res (list Range) :=
  match fuel with
  | O => Ok []
  | S fuel' =>
      start ← next_edge (edge_fuel len bit) bytes len bit (fun byte => byte);
      if start >=? len then Ok []
      else
        bit ← next_edge (edge_fuel len start) bytes len start not64;
        rest ← bitmap_runs_loop fuel' base len bytes bit;
        Ok ((base +w start ..< base +w bit) :: rest)
  end.

Definition bitmap_runs (base : Z) (bitmap : Bitmap) : res (list Range) :=
  let len := Bitmap.len bitmap in
  bitmap_runs_loop (S (Z.to_nat len)) base len (Bitmap.bytes bitmap) 0.

(** Grouping consecutive values, from a run [start..end] under construction. *)
Fixpoint group_from (start end_ : Z) (l : list Z) : list Range :=
  match l with
  | [] => [start ..< end_]
  | v :: l' =>
      if v =? end_ then group_from start (end_ +w 1) l'
      else (start ..< end_) :: group_from v (saturating_add v 1) l'
  end.

Definition group_runs (l : list Z) : list Range :=
  match l with [] => [] | v :: l' => group_from v (saturating_add v 1) l' end.

Definition sorted_runs (base : Z) (offsets : list Z) : list Range :=
  group_runs (map (fun o => base +w o) offsets).

Definition runs (s : U64Segment) : res (list Range) :=
  match s with
  | Range_ r => Ok [r]
  | Ranges r rs =>
      l ← HoleRuns.present_ranges rs;
      Ok (map (fun run => start r +w start run ..< start r +w end_ run) l)
  | RangeWithHoles r holes => Ok (holes_runs (start r) (EncodedArray.iter holes ++ [end_ r]))
  | RangeWithBitmap r bitmap => bitmap_runs (start r) bitmap
  | SortedArray (U16 base offsets) | SortedArray (U32 base offsets) => Ok (sorted_runs base offsets)
  | SortedArray (U64 values) => Ok (sorted_runs 0 values)
  | Array _ => values ← iter s; Ok (group_runs values)
  end.

(** ** Specification *)

(** Neighbouring runs do not touch. *)
Definition maximal (rs : list Range) : Prop :=
  forall i r1 r2, get_opt rs i = Some r1 -> get_opt rs (i + 1) = Some r2 -> end_ r1 <> start r2.

Definition expand (rs : list Range) : list Z := flat_map range_list rs.

(** Sorted, non-empty, pairwise separated runs. *)
Fixpoint separated (lo : Z) (rs : list Range) : Prop :=
  match rs with
  | [] => True
  | r :: rs' => lo <= start r < end_ r /\ separated (end_ r + 1) rs'
  end.

Lemma maximal_nil : maximal [].
Proof. intros i r1 r2 H. by apply get_opt_Some in H; unfold zlen in H; simpl in H; lia. Qed.

Lemma maximal_cons r rs : (match rs with [] => True | r' :: _ => end_ r <> start r' end) -> maximal rs -> maximal (r :: rs).
Proof.
  intros Hh Hm i r1 r2 H1 H2. apply get_opt_Some in H1 as Hc. rewrite get_opt_cons in H1, H2.
  destruct (Z.eqb_spec i 0) as [->|Hi].
  - injection H1 as <-. destruct rs as [|r' rs]; [done|]. simpl in H2. injection H2 as <-. done.
  - destruct (Z.eqb_spec (i + 1) 0); [lia|].
    apply (Hm (i - 1) r1 r2); [done|]. by replace (i - 1 + 1) with (i + 1 - 1) by lia.
Qed.

Lemma separated_maximal lo rs : separated lo rs -> maximal rs /\ Forall (fun r => start r < end_ r) rs.
Proof.
  revert lo. induction rs as [|r rs IH]; intros lo; [split; [apply maximal_nil|constructor]|].
  intros [H1 H2]. destruct (IH _ H2) as [H3 H4]. split; [|constructor; [lia|done]].
  apply maximal_cons; [|done]. destruct rs as [|r' rs]; [done|]. simpl in H2. lia.
Qed.

(** ** Runs of a list *)

Lemma saturating_add_1 v : v < U64_MAX -> saturating_add v 1 = v + 1.
Proof. intros. unfold saturating_add. lia. Qed.

Lemma group_from_ok s e l : 0 <= s < e -> e <= U64_MAX -> Forall (fun v => 0 <= v < U64_MAX) l ->
  expand (group_from s e l) = range_list (s ..< e) ++ l /\ maximal (group_from s e l) /\
  Forall (fun r => start r < end_ r) (group_from s e l) /\ (exists e' rest, group_from s e l = (s ..< e') :: rest).
Proof.
  revert s e. induction l as [|v l IH]; intros s e Hs He Hl; simpl.
  - split; [done|]. split; [by apply maximal_cons; [|apply maximal_nil]|]. split; [by repeat constructor; simpl; lia|eauto].
  - apply Forall_cons in Hl as [Hv Hl]. destruct (Z.eqb_spec v e) as [->|Hne].
    + unwrap. destruct (IH s (e + 1)) as (H1 & H2 & H3 & H4); [lia|lia|done|]. split; [|done].
      rewrite H1, range_list_snoc, <- app_assoc by lia. done.
    + rewrite saturating_add_1 by lia. destruct (IH v (v + 1)) as (H1 & H2 & H3 & e' & rest & E); [lia|lia|done|].
      split; [|split; [|split; [|eauto]]].
      * unfold expand in *. simpl. rewrite H1. f_equal. rewrite range_list_cons, range_list_nil by lia. done.
      * apply maximal_cons; [|done]. rewrite E. simpl. lia.
      * constructor; [simpl; lia|done].
Qed.

Lemma group_runs_ok l : Forall (fun v => 0 <= v < U64_MAX) l ->
  expand (group_runs l) = l /\ maximal (group_runs l) /\ Forall (fun r => start r < end_ r) (group_runs l).
Proof.
  intros Hl. destruct l as [|v l]; [split; [done|]; split; [apply maximal_nil|constructor]|]. simpl.
  apply Forall_cons in Hl as [Hv Hl]. rewrite saturating_add_1 by lia.
  destruct (group_from_ok v (v + 1) l) as (H1 & H2 & H3 & _); [lia|lia|done|]. split; [|done].
  rewrite H1, range_list_cons, range_list_nil by lia. done.
Qed.

(** ** Runs between holes *)

Lemma holes_runs_ok lo e hs : 0 <= lo <= e -> e <= U64_MAX -> ssorted hs -> Forall (fun h => lo <= h < e) hs ->
  expand (holes_runs lo (hs ++ [e])) = List.filter (not_in hs) (range_list (lo ..< e)) /\
  separated lo (holes_runs lo (hs ++ [e])).
Proof.
  revert lo. induction hs as [|h hs IH]; intros lo Hlo He Hs Hf; simpl.
  - unfold range_is_empty. simpl. rewrite (filter_all _ (range_list (lo ..< e))).
    + destruct (Z.ltb_spec lo e); simpl; [by rewrite app_nil_r; split; [|lia]|by rewrite range_list_nil].
    + apply Forall_forall. intros x _. apply not_in_true. by intros ?%elem_of_nil.
  - apply ssorted_cons_inv in Hs as [Hs Hh]. apply Forall_cons in Hf as [Hh0 Hf]. rewrite saturating_add_1 by lia.
    destruct (IH (h + 1)) as [IH1 IH2]; [lia|done|done| |].
    { rewrite Forall_forall in Hf, Hh. apply Forall_forall. intros x Hx. specialize (Hf x Hx). specialize (Hh x Hx). simpl in *. lia. }
    assert (Hfil : List.filter (not_in (h :: hs)) (range_list (lo ..< e)) =
                   range_list (lo ..< h) ++ expand (holes_runs (h + 1) (hs ++ [e]))).
    { rewrite IH1, (range_list_app lo h e), (range_list_cons h) by lia. rewrite List.filter_app. simpl.
      rewrite (proj2 (not_in_false _ h)) by (by left). f_equal.
      - apply filter_all, Forall_forall. intros x Hx%elem_of_range_list. simpl in Hx. apply not_in_true.
        intros [->|Hin]%elem_of_cons; [lia|]. rewrite Forall_forall in Hh. specialize (Hh x Hin). lia.
      - apply filter_ext_Forall, Forall_forall. intros x Hx%elem_of_range_list. simpl in Hx. apply eq_true_iff_eq.
        rewrite !not_in_true, not_elem_of_cons. split; [tauto|]. intros Hn. split; [lia|done]. }
    rewrite Hfil. unfold range_is_empty. simpl. destruct (Z.ltb_spec lo h); simpl.
    + split; [done|]. split; [lia|done].
    + rewrite range_list_nil by lia. simpl. split; [done|]. assert (lo = h) as -> by lia.
      clear -IH2. destruct (holes_runs (h + 1) (hs ++ [e])) as [|r rs]; simpl in *; [done|]. intuition lia.
Qed.

(** ** Runs of a bitmap *)

Lemma word_ok d i : Forall u8_ok d -> 0 <= i -> i * 8 <= zlen d ->
  exists w, word d i = Ok w /\ 0 <= w < 2 ^ 64 /\ forall j, 0 <= j < 64 -> Z.testbit w j = Bitmap.bitat d (64 * i + j).
Proof.
  intros Hd Hi Hle. unfold word. rewrite (proj2 (Z.leb_le _ _)) by done. cbv zeta.
  assert (Hcore : forall l, Forall u8_ok l -> zlen l = 8 ->
    (forall k, 0 <= k < 8 -> get_opt l k = match get_opt d (i * 8 + k) with Some b => Some b | None => Some 0 end) ->
    0 <= from_le_bytes l < 2 ^ 64 /\ forall j, 0 <= j < 64 -> Z.testbit (from_le_bytes l) j = Bitmap.bitat d (64 * i + j)).
  { intros l Hl Hz Hk. pose proof (from_le_bytes_bound l Hl) as Hb. rewrite Hz in Hb. change (256 ^ 8) with (2 ^ 64) in Hb.
    split; [done|]. intros j Hj. pose proof (bits_of_le_bytes l Hl) as E. rewrite Hz in E. change (8 * 8) with 64 in E.
    assert (0 <= j / 8 < 8) by (split; [apply Z.div_pos; lia|apply Z.div_lt_upper_bound; lia]).
    pose proof (get_opt_bits_of 64 (from_le_bytes l) j Hj) as Hg. rewrite E in Hg.
    rewrite Bitmap.bitat_eq. replace ((64 * i + j) / 8) with (i * 8 + j / 8)
      by (replace (64 * i + j) with (j + (i * 8) * 8) by lia; rewrite Z.div_add; lia).
    replace ((64 * i + j) mod 8) with (j mod 8)
      by (replace (64 * i + j) with (j + (i * 8) * 8) by lia; by rewrite Z.mod_add by lia).
    specialize (Hk (j / 8) ltac:(lia)). destruct (get_opt d (i * 8 + j / 8)) as [b|];
      rewrite (get_opt_allbits _ _ _ Hk) in Hg; [congruence|]. rewrite Z.bits_0 in Hg. congruence. }
  unfold zskip, ztake. set (tail := drop (Z.to_nat (i * 8)) d).
  assert (Htail : forall k, 0 <= k -> get_opt tail k = get_opt d (i * 8 + k)).
  { intros k Hk. unfold tail, get_opt. rewrite (proj2 (Z.leb_le 0 k)), (proj2 (Z.leb_le 0 (i * 8 + k))) by lia.
    rewrite lookup_drop. f_equal. lia. }
  assert (Htl : zlen tail = zlen d - i * 8) by (unfold tail, zlen in *; rewrite length_drop; lia).
  assert (Hut : Forall u8_ok tail) by (by apply Forall_drop).
  destruct (Z.leb_spec 8 (zlen tail)) as [H8|H8]; eexists; (split; [done|]); apply Hcore.
  - by apply Forall_take.
  - unfold zlen in *. rewrite length_take. lia.
  - intros k Hk. unfold get_opt at 1. rewrite (proj2 (Z.leb_le 0 k)) by lia. rewrite lookup_take_lt by lia.
    destruct (get_opt_lt tail k) as [b Hb]; [lia|]. rewrite <- Htail, Hb by lia.
    unfold get_opt in Hb. by rewrite (proj2 (Z.leb_le 0 k)) in Hb by lia.
  - apply Forall_app. split; [done|]. apply Forall_replicate. unfold u8_ok. lia.
  - rewrite zlen_app, zlen_replicate by lia. lia.
  - intros k Hk. rewrite get_opt_app. destruct (Z.ltb_spec k (zlen tail)).
    + rewrite <- Htail by lia. by destruct (get_opt_lt tail k) as [b ->]; [lia|].
    + rewrite <- Htail by lia. rewrite (proj2 (get_opt_None tail k)) by lia. rewrite get_opt_replicate.
      rewrite (proj2 (Z.leb_le _ _)), (proj2 (Z.ltb_lt _ _)) by lia. done.
Qed.

(** A selector of the bits equal to [x]. *)
Definition selects (wanted : Z -> Z) (x : bool) : Prop :=
  forall w, 0 <= w < 2 ^ 64 -> 0 <= wanted w < 2 ^ 64 /\
    forall j, 0 <= j < 64 -> Z.testbit (wanted w) j = Bool.eqb (Z.testbit w j) x.

Lemma selects_id : selects (fun byte => byte) true.
Proof. intros w Hw. split; [done|]. intros j _. by destruct (Z.testbit w j). Qed.

Lemma selects_not : selects not64 false.
Proof.
  intros w Hw. unfold not64. change 18446744073709551615 with (Z.ones 64).
  assert (Hbit : forall j, 0 <= j -> Z.testbit (Z.lxor (Z.ones 64) w) j = if j <? 64 then negb (Z.testbit w j) else false).
  { intros j Hj. rewrite Z.lxor_spec, Z.testbit_ones_nonneg by lia. destruct (Z.ltb_spec j 64); [done|].
    rewrite xorb_false_l. destruct (decide (w = 0)) as [->|]; [apply Z.bits_0|]. apply Z.bits_above_log2; [lia|].
    assert (Z.log2 w < 64); [|lia]. apply Z.log2_lt_pow2; lia. }
  split.
  - assert (H0 : 0 <= Z.lxor (Z.ones 64) w) by (apply Z.lxor_nonneg; split; intros; [lia|done]). split; [done|].
    destruct (decide (Z.lxor (Z.ones 64) w = 0)) as [->|Hne]; [done|]. apply Z.log2_lt_pow2; [lia|].
    destruct (Z.lt_ge_cases (Z.log2 (Z.lxor (Z.ones 64) w)) 64) as [|Hge]; [done|].
    pose proof (Z.bit_log2 (Z.lxor (Z.ones 64) w) ltac:(lia)) as Hb. rewrite Hbit in Hb by lia.
    by rewrite (proj2 (Z.ltb_ge _ _)) in Hb.
  - intros j Hj. rewrite Hbit by lia. rewrite (proj2 (Z.ltb_lt _ _)) by lia. by destruct (Z.testbit w j).
Qed.

(** [next_edge] stops at the first bit from [bit] on that equals [x]. *)
Lemma next_edge_ok fuel d len bit wanted x : Forall u8_ok d -> selects wanted x -> len <= 8 * zlen d -> len <= U64_MAX - 64 ->
  0 <= bit <= len + 63 -> len / 64 + 1 - bit / 64 < Z.of_nat fuel ->
  exists p, next_edge fuel d len bit wanted = Ok p /\ Z.min bit len <= p <= len /\
    (forall q, bit <= q < p -> Bitmap.bitat d q = negb x) /\ (p < len -> Bitmap.bitat d p = x).
Proof.
  intros Hd Hsel Hlen Hmax. revert bit. induction fuel as [|fuel IH]; intros bit Hbit Hfuel.
  { assert (bit / 64 <= len / 64 + 1); [|lia]. apply Z.lt_succ_r. apply Z.div_lt_upper_bound; [lia|].
    pose proof (Z.div_mod len 64). pose proof (Z.mod_pos_bound len 64). lia. }
  simpl. destruct (Z.ltb_spec bit len) as [Hlt|Hge]; [|exists len; split; [done|]; split; [lia|]; split; [intros; lia|lia]].
  pose proof (Z.div_mod bit 64). pose proof (Z.mod_pos_bound bit 64).
  destruct (word_ok d (bit / 64)) as (w & -> & Hw & Hbits); [done|apply Z.div_pos; lia|lia|]. mon.
  destruct (Hsel w Hw) as [Hww Hwb]. set (k := bit mod 64) in *. set (rest := Z.shiftr (wanted w) k).
  assert (Hrest : forall j, 0 <= j < 64 - k -> Z.testbit rest j = Bool.eqb (Bitmap.bitat d (bit + j)) x).
  { intros j Hj. unfold rest. rewrite Z.shiftr_spec, Hwb, Hbits by lia. do 2 f_equal. lia. }
  assert (Hrb : 0 <= rest < 2 ^ (64 - k)).
  { unfold rest. rewrite Z.shiftr_div_pow2 by lia. split; [apply Z.div_pos; lia|].
    apply Z.div_lt_upper_bound; [lia|]. rewrite <- Z.pow_add_r by lia. replace (k + (64 - k)) with 64 by lia. lia. }
  destruct (Z.eqb_spec rest 0) as [E|E].
  - assert (Hskip : forall q, bit <= q < (bit / 64 + 1) * 64 -> Bitmap.bitat d q = negb x).
    { intros q Hq. specialize (Hrest (q - bit) ltac:(lia)). rewrite E, Z.bits_0 in Hrest.
      replace (bit + (q - bit)) with q in Hrest by lia. by destruct (Bitmap.bitat d q), x. }
    unwrap. destruct (IH ((bit / 64 + 1) * 64)) as (p & -> & Hp & Hq & He); [lia|rewrite Z.div_mul by lia; lia|].
    exists p. split; [done|]. split; [lia|]. split; [|done]. intros q Hq'.
    destruct (decide (q < (bit / 64 + 1) * 64)); [apply Hskip; lia|apply Hq; lia].
  - destruct (trailing_zeros_nat_spec 64 rest) as (Ht & Htt & Htl); [|done|].
    { split; [lia|]. eapply Z.lt_le_trans; [apply Hrb|]. apply Z.pow_le_mono_r; lia. }
    unfold trailing_zeros. change (Z.to_nat 64) with 64%nat. set (t := trailing_zeros_nat 64 rest) in *.
    assert (t < 64 - k).
    { destruct (Z.lt_ge_cases t (64 - k)) as [|Hge]; [done|]. rewrite Z.bits_above_log2 in Htt; [done|lia|].
      assert (Z.log2 rest < 64 - k); [|lia]. apply Z.log2_lt_pow2; lia. }
    unwrap. eexists. split; [done|]. split; [lia|]. split.
    + intros q Hq. specialize (Htl (q - bit) ltac:(lia)). rewrite Hrest in Htl by lia.
      replace (bit + (q - bit)) with q in Htl by lia. by destruct (Bitmap.bitat d q), x.
    + intros Hp. rewrite Z.min_l in * by lia. rewrite Hrest in Htt by lia. by apply eqb_prop.
Qed.

Lemma edge_fuel_ok len bit : len / 64 + 1 - bit / 64 < Z.of_nat (edge_fuel len bit).
Proof. unfold edge_fuel. lia. Qed.

Lemma setpos_false d a b : (forall q, a <= q < b -> Bitmap.bitat d q = false) -> Bitmap.setpos d a b = [].
Proof. intros H. apply filter_none, Forall_forall. intros q Hq%elem_of_range_list. by apply H. Qed.

Lemma setpos_true d a b : (forall q, a <= q < b -> Bitmap.bitat d q = true) -> Bitmap.setpos d a b = range_list (a ..< b).
Proof. intros H. apply filter_all, Forall_forall. intros q Hq%elem_of_range_list. by apply H. Qed.

Lemma bitmap_runs_loop_ok fuel base d len bit : Forall u8_ok d -> len <= 8 * zlen d -> len <= U64_MAX - 64 -> 0 <= base ->
  base + len <= U64_MAX -> 0 <= bit <= len -> len - bit < Z.of_nat fuel ->
  exists rs, bitmap_runs_loop fuel base len d bit = Ok rs /\
    expand rs = map (Z.add base) (Bitmap.setpos d bit len) /\ separated (base + bit) rs.
Proof.
  intros Hd Hlen Hmax Hb0 Hbase. revert bit. induction fuel as [|fuel IH]; intros bit Hbit Hfuel; [lia|]. cbn [bitmap_runs_loop].
  destruct (next_edge_ok (edge_fuel len bit) d len bit _ true Hd selects_id) as (p & -> & Hp & Hpq & Hpe);
    [lia..|apply edge_fuel_ok|]. mon. rewrite Z.geb_leb. destruct (Z.leb_spec len p) as [Hlp|Hlp].
  { exists []. split; [done|]. rewrite setpos_false; [done|]. intros q Hq. apply Hpq. lia. }
  destruct (next_edge_ok (edge_fuel len p) d len p _ false Hd selects_not) as (e & -> & He & Heq & Hee);
    [lia..|apply edge_fuel_ok|]. mon.
  assert (Hpe' : p < e).
  { destruct (decide (p = e)) as [->|]; [|lia]. rewrite Hee in Hpe by lia. specialize (Hpe ltac:(lia)). done. }
  destruct (IH e) as (rs & -> & Hrs & Hsep); [lia|lia|]. mon. eexists. split; [done|]. unwrap. split.
  - unfold expand in *. simpl. rewrite Hrs. rewrite (Bitmap.setpos_app _ bit p), (Bitmap.setpos_app _ p e), !map_app by lia.
    rewrite (setpos_false _ bit p) by (intros; apply Hpq; lia). simpl.
    rewrite (setpos_true _ p e) by (intros q Hq; rewrite Heq by lia; done). f_equal. unfold range_list. simpl.
    replace (base + e - (base + p)) with (e - p) by lia. symmetry. apply fmap_add_seqZ.
  - simpl. split; [lia|]. destruct (decide (e < len)) as [Hel|Hel].
    + clear -Hsep Hrs Hee Hel Hd Hbase. destruct rs as [|r rs]; [done|]. simpl in *. destruct Hsep as [H1 H2].
      split; [|done]. destruct (decide (start r = base + e)) as [E|]; [|lia]. exfalso.
      assert (Hin : start r ∈ map (Z.add base) (Bitmap.setpos d e len)).
      { rewrite <- Hrs, elem_of_app. left. apply elem_of_range_list. lia. }
      apply list_elem_of_fmap in Hin as (y & Hy & [_ Hbit]%elem_of_filterb). assert (y = e) as -> by lia.
      rewrite Hee in Hbit by done. done.
    + rewrite Bitmap.setpos_nil in Hrs by lia. destruct rs as [|[a0 b0] rs]; [done|]. unfold expand in Hrs. simpl in *.
      destruct Hsep as [H1 _]. rewrite range_list_cons in Hrs by lia. done.
Qed.

Lemma bitmap_runs_ok base b : Bitmap.wf b -> Bitmap.len b <= U64_MAX - 64 -> 0 <= base -> base + Bitmap.len b <= U64_MAX ->
  exists rs, bitmap_runs base b = Ok rs /\ expand rs = map (Z.add base) (Bitmap.setpos (Bitmap.data b) 0 (Bitmap.len b)) /\
    separated base rs.
Proof.
  intros Hwf Hmax H0 Hb. pose proof (Bitmap.wf_data_len b Hwf). pose proof (Bitmap.wf_len b Hwf).
  destruct (bitmap_runs_loop_ok (S (Z.to_nat (Bitmap.len b))) base (Bitmap.data b) (Bitmap.len b) 0) as (rs & E & ? & Hs);
    [apply Hwf|lia..|]. exists rs. rewrite Z.add_0_r in Hs. done.
Qed.

(** ** Runs of a segment *)

(** What [runs] asks of a segment beyond well-formedness: no id of [u64::MAX],
    and a bitmap that leaves room for one more word. *)
Definition runs_pre (s : U64Segment) : Prop :=
  Forall (fun v => v < U64_MAX) (elems s) /\
  match s with RangeWithBitmap _ b => Bitmap.len b <= U64_MAX - 64 | _ => True end.

Lemma separated_weaken lo lo' rs : lo' <= lo -> separated lo rs -> separated lo' rs.
Proof. destruct rs as [|r rs]; simpl; [done|]. intuition lia. Qed.

Lemma gaps_separated lo sp rs : HoleRuns.runs_ok lo sp rs ->
  separated lo (List.filter (fun r => negb (range_is_empty r)) (HoleRuns.gaps lo sp rs)).
Proof.
  revert lo. induction rs as [|[s e] rs IH]; intros lo; simpl; unfold range_is_empty at 1; simpl.
  - intros _. destruct (Z.ltb_spec lo sp); simpl; [lia|done].
  - intros (H1 & H2 & H3). assert (H4 : HoleRuns.runs_ok e sp rs) by (by eapply HoleRuns.runs_ok_weaken; [|done]; lia).
    specialize (IH e H4). destruct (Z.ltb_spec lo s); simpl.
    + split; [lia|]. eapply separated_weaken; [|exact IH]. lia.
    + eapply separated_weaken; [|exact IH]. lia.
Qed.

Lemma separated_shift base lo rs : separated lo rs ->
  separated (base + lo) (map (fun r => base + start r ..< base + end_ r) rs).
Proof.
  revert lo. induction rs as [|r rs IH]; intros lo; simpl; [done|]. intros [H1 H2]. split; [lia|].
  replace (base + end_ r + 1) with (base + (end_ r + 1)) by lia. by apply IH.
Qed.

Lemma runs_values_ok a : EncodedArray.wf a -> Forall (fun v => v < U64_MAX) (EncodedArray.elems a) ->
  let l := EncodedArray.elems a in
  expand (group_runs l) = l /\ maximal (group_runs l) /\ Forall (fun r => start r < end_ r) (group_runs l).
Proof.
  intros Hwf Hlt l. apply group_runs_ok. pose proof (EncodedArray.elems_ok a Hwf) as Hok.
  rewrite Forall_forall in *. intros v Hv. specialize (Hok v Hv). specialize (Hlt v Hv). uok. lia.
Qed.

Lemma sorted_runs_elems base offsets a : EncodedArray.wf a -> a = U16 base offsets \/ a = U32 base offsets ->
  sorted_runs base offsets = group_runs (EncodedArray.elems a).
Proof.
  intros Hwf Ha. destruct (EncodedArray.wf_offsets_le base offsets a Hwf Ha) as [? ?]. unfold sorted_runs.
  rewrite EncodedArray.add_map_wrap by done. by destruct Ha as [-> | ->].
Qed.

Lemma sorted_runs_u64 l : Forall u64_ok l -> sorted_runs 0 l = group_runs l.
Proof.
  intros Hl. unfold sorted_runs. f_equal. rewrite <- (map_id l) at 2. apply map_ext_in. intros x Hx%list_elem_of_In.
  rewrite Forall_forall in Hl. specialize (Hl x Hx). rewrite Z.add_0_l. by apply wrap64_small.
Qed.

(** The runs concatenate to the values, are not empty (a bare range apart) and
    do not touch. *)
Lemma runs_ok s : wf s -> runs_pre s ->
  exists rs, runs s = Ok rs /\ expand rs = elems s /\ maximal rs /\
    (match s with Range_ _ => True | _ => Forall (fun r => start r < end_ r) rs end).
Proof.
  intros Hwf [Hlt Hbm].
  assert (Hsep : forall lo rs, separated lo rs -> maximal rs /\ Forall (fun r => start r < end_ r) rs) by apply separated_maximal.
  destruct s as [r|r h|r b|r rs|a|a].
  - eexists. split; [done|]. split; [unfold expand; simpl; by rewrite app_nil_r|].
    split; [by apply maximal_cons; [|apply maximal_nil]|done].
  - destruct Hwf as ((? & ? & ?) & Hh & Hs & Hf). eexists. split; [done|]. rewrite EncodedArray.iter_elems by done.
    destruct (holes_runs_ok (start r) (end_ r) (EncodedArray.elems h)) as [E Hsp]; [lia|lia|done|done|].
    split; [by destruct r|]. by eapply Hsep.
  - pose proof Hwf as ((? & ? & ?) & Hb & Hl). destruct (bitmap_runs_ok (start r) b) as (rs & E & Hrs & Hsp); [done|done|lia|lia|].
    exists rs. split; [done|]. split; [by rewrite elems_bitmap, <- Hl|]. by eapply Hsep.
  - destruct Hwf as ((? & ? & ?) & Hr & Hsp). simpl. destruct (HoleRuns.present_ranges_ok rs Hr) as (l & El & Hexp & Hl).
    pose proof Hr as [q Hq]. rewrite (HoleRuns.present_ranges_gaps _ _ Hq) in *. injection El as <-. mon. eexists. split; [done|].
    set (l := List.filter _ _) in *.
    assert (E : map (fun run => start r +w start run ..< start r +w end_ run) l = map (fun run => start r + start run ..< start r + end_ run) l).
    { apply map_ext_in. intros x Hx%list_elem_of_In. rewrite Forall_forall in Hl. specialize (Hl x Hx). unwrap. done. }
    rewrite E. split.
    + rewrite <- Hexp. unfold expand. rewrite !flat_map_concat_map, concat_map, !map_map. f_equal. apply map_ext. intros x.
      unfold range_list. simpl. replace (start r + end_ x - (start r + start x)) with (end_ x - start x) by lia.
      symmetry. apply fmap_add_seqZ.
    + eapply Hsep, separated_shift, gaps_separated. by apply HoleRuns.repr_ok.
  - destruct Hwf as [Ha Hs]. destruct (runs_values_ok a Ha Hlt) as (H1 & H2 & H3). exists (group_runs (EncodedArray.elems a)).
    split; [|done]. destruct a as [base o|base o|l]; simpl; f_equal.
    + by apply (sorted_runs_elems base o (U16 base o)); [|left].
    + by apply (sorted_runs_elems base o (U32 base o)); [|right].
    + apply sorted_runs_u64. by destruct Ha.
  - destruct (runs_values_ok a Hwf Hlt) as (H1 & H2 & H3). exists (group_runs (EncodedArray.elems a)). split; [|done].
    unfold runs. rewrite seg_iter_ok by done. done.
Qed.

(** ** Sorted ranges *)

Lemma ranges_ok_weaken lo lo' rs : lo' <= lo -> ranges_ok lo rs -> ranges_ok lo' rs.
Proof. destruct rs as [|r rs]; simpl; [done|]. intuition lia. Qed.

Lemma ranges_ok_separated lo rs : ranges_ok lo rs -> separated lo rs.
Proof. revert lo. induction rs as [|r rs IH]; intros lo; simpl; [done|]. intros (? & ? & ?). split; [lia|auto]. Qed.

Lemma expand_bounds lo rs : ranges_ok lo rs -> Forall (fun v => lo <= v < U64_MAX) (expand rs).
Proof.
  revert lo. induction rs as [|r rs IH]; intros lo H; [constructor|]. destruct H as (H1 & H2 & H3). simpl.
  apply Forall_app. split.
  - apply Forall_forall. intros v Hv%elem_of_range_list. lia.
  - eapply Forall_impl; [apply (IH _ H3)|]. simpl. intros. lia.
Qed.

Lemma expand_ssorted lo rs : ranges_ok lo rs -> ssorted (expand rs).
Proof.
  revert lo. induction rs as [|r rs IH]; intros lo H; [constructor|]. destruct H as (H1 & H2 & H3). simpl.
  apply ssorted_app. split; [apply ssorted_range_list|]. split; [by eapply IH|].
  intros x y Hx%elem_of_range_list Hy. pose proof (expand_bounds _ _ H3) as Hb. rewrite Forall_forall in Hb.
  specialize (Hb y Hy). simpl in Hb. lia.
Qed.

Lemma last_end_bounds lo rs last : ranges_ok lo rs -> list.last rs = Some last ->
  lo <= start last < end_ last /\ end_ last <= U64_MAX /\ Forall (fun v => v < end_ last) (expand rs).
Proof.
  intros Hr Hl. pose proof (ranges_last lo rs last Hr Hl) as (H1 & H2 & H3). split; [done|]. split; [done|].
  apply Forall_forall. intros v (r & Hin & Hv)%list_elem_of_In%in_flat_map.
  apply list_elem_of_In in Hin. apply list_elem_of_In, elem_of_range_list in Hv.
  rewrite Forall_forall in H3. specialize (H3 r Hin). simpl in H3. lia.
Qed.

Lemma ranges_ok_snoc lo rs r : ranges_ok lo rs -> lo <= start r < end_ r -> end_ r <= U64_MAX ->
  match list.last rs with Some last => end_ last < start r | None => True end -> ranges_ok lo (rs ++ [r]).
Proof.
  revert lo. induction rs as [|r0 rs IH]; intros lo Hr H1 H2 Hl; [simpl; intuition lia|].
  destruct Hr as (H3 & H4 & H5). simpl. split; [done|]. split; [done|].
  destruct rs as [|r1 rs]; [simpl in *; intuition lia|]. rewrite list.last_cons_cons in Hl.
  destruct (list.last (r1 :: rs)) as [la|] eqn:El; [|by apply last_None in El].
  destruct (last_end_bounds _ _ _ H5 El) as (? & ? & _). apply IH; [done|lia|done|done].
Qed.

Lemma ranges_ok_init lo rs r : ranges_ok lo (rs ++ [r]) ->
  ranges_ok lo rs /\ match list.last rs with Some last => end_ last < start r | None => lo <= start r end /\ start r < end_ r.
Proof.
  revert lo. induction rs as [|r0 rs IH]; intros lo Hr; [simpl in *; intuition lia|].
  destruct Hr as (H3 & H4 & H5). destruct (IH _ H5) as (H6 & H7 & H8). split; [done|]. split; [|done].
  rewrite list.last_cons. destruct (list.last rs); [done|]. lia.
Qed.

Lemma expand_app rs1 rs2 : expand (rs1 ++ rs2) = expand rs1 ++ expand rs2.
Proof. apply flat_map_app. Qed.

(** Appending a range behind the others, fused with the last one where they
    touch. *)
Definition grow (rs : list Range) (run : Range) : list Range :=
  match list.last rs with
  | Some last => if end_ last =? start run then removelast rs ++ [start last ..< end_ run] else rs ++ [run]
  | None => rs ++ [run]
  end.

Lemma grow_ranges_ok lo rs run : ranges_ok lo rs -> lo <= start run < end_ run -> end_ run <= U64_MAX ->
  match list.last rs with Some last => end_ last <= start run | None => True end ->
  ranges_ok lo (grow rs run) /\ expand (grow rs run) = expand rs ++ range_list run /\
  (exists last, list.last (grow rs run) = Some last /\ end_ last = end_ run) /\
  exists first rest, grow rs run = first :: rest /\ start first = match rs with r :: _ => start r | [] => start run end.
Proof.
  intros Hr H1 H3 Hl. unfold grow. assert (expand [run] = range_list run) as E1 by (simpl; by rewrite app_nil_r).
  destruct (list.last rs) as [[a b]|] eqn:El.
  2: { apply last_None in El. subst rs. cbn [app]. split; [simpl; intuition lia|].
       split; [done|]. split; [by exists run|by exists run, []]. }
  cbn [start end_] in *. destruct (Z.eqb_spec b (start run)) as [E|Hne].
  - pose proof (last_split _ _ El) as Es. pose proof Hr as Hr'. rewrite Es in Hr'.
    apply ranges_ok_init in Hr' as (Hr1 & Hr2 & Hr3). cbn [start end_] in *. split; [|split; [|split]].
    + apply ranges_ok_snoc; cbn [start end_]; [done| |lia|by destruct (list.last (removelast rs))].
      destruct (list.last (removelast rs)) eqn:E2; [destruct (last_end_bounds _ _ _ Hr1 E2) as (? & _)|]; lia.
    + rewrite Es at 2. rewrite !expand_app. cbn [expand flat_map]. rewrite !app_nil_r, <- app_assoc. f_equal.
      destruct run as [c d]. cbn [start end_] in *. subst b. apply range_list_app; lia.
    + exists (a ..< end_ run). by rewrite list.last_snoc.
    + clear -Es. destruct (removelast rs) as [|r0 rs']; rewrite Es; simpl; [by eexists _, []|by eexists _, _].
  - split; [apply ranges_ok_snoc; [done|lia|done|rewrite El; simpl; lia]|].
    split; [by rewrite expand_app, E1|]. split; [exists run; by rewrite list.last_snoc|].
    destruct rs as [|r0 rs]; [done|]. by exists r0, (rs ++ [run]).
Qed.

(** ** Properties *)

(** The runs a segment reports are the maximal runs of consecutive ids in
    sequence order: expanding them gives the values back, and no run ends where
    the next one starts, for every encoding (word-wise scan of a bitmap, gaps
    between holes, packed arrays). *)
Theorem segment_runs s : wf s -> runs_pre s ->
  exists rs, runs s = Ok rs /\ expand rs = elems s /\ maximal rs /\
    (match s with Range_ _ => True | _ => Forall (fun r => start r < end_ r) rs end).
Proof. apply runs_ok. Qed.

Lemma segment_runs_witness : exists rs, runs (RangeWithHoles (10 ..< 20) (U64 [12; 13; 17])) = Ok rs /\
  expand rs = [10; 11; 14; 15; 16; 18; 19].
Proof.
  destruct (segment_runs (RangeWithHoles (10 ..< 20) (U64 [12; 13; 17]))) as (rs & ? & E & _).
  - split; [unfold range_ok; simpl; lia|]. split; [split; [repeat constructor; uok; lia|vm_compute; done]|].
    split; repeat constructor; simpl; lia.
  - split; [apply (bool_decide_unpack _); vm_compute; done|done].
  - exists rs. split; [done|]. rewrite E. vm_compute. done.
Defined.
