(* ===== verification/SegmentCursor.v ===== *)
(** * Batch reads through a segment cursor

    [lance-table/src/rowids/segment.rs], [SegmentCursorState::extend_range] and
    [extend_dense_range]: append a range of the values of a segment, resuming
    the bitmap scan where the previous call stopped.  The per-bit decoder and
    the run-expanding decoder for dense bytes are both shown to append exactly
    the requested sublist of the values. *)

From Stdlib Require Import ZArith Lia.
From stdpp Require Import base option list numbers sorting sets gmap.
From S2P Require Import Prelude Lists Bits Bitmap EncodedArray HoleRuns Segment SegmentBuild.

(** ** Model *)

(** [while remaining_bits != 0]: the values and whether the function returned. *)
Fixpoint bits_loop (fuel : nat) (remaining_bits rank : Z) (selection : Range) (range_start byte_idx : Z)
    (values : list Z) : list Z * bool :=
  match fuel with
  | O => (values, false)
  | S fuel' =>
      if remaining_bits =? 0 then (values, false)
      else if rank >=? end_ selection then (values, true)
      else
        let bit := trailing_zeros 8 remaining_bits in
        let values :=
          if rank >=? start selection then values ++ [range_start +w (byte_idx * 8 +w bit)] else values in
        bits_loop fuel' (Z.land remaining_bits (wrap8 (remaining_bits - 1))) (rank +w 1) selection
          range_start byte_idx values
  end.

(** A byte has at most eight set bits. *)
Abbreviation BYTE_FUEL := 9%nat.

(** The loop over the bitmap bytes of [extend_range]. *)
Fixpoint extend_bytes (fuel : nat) (st : SegmentCursorState) (range_start : Z) (data : list Z)
    (selection : Range) (values : list Z) : list Z * SegmentCursorState :=
  match fuel with
  | O => (values, st)
  | S fuel' =>
      match get_opt data (byte_idx st) with
      | None => (values, st)
      | Some byte =>
          let ones := count_ones_w 8 byte in
          let ones_after_byte := ones_before st +w ones in
          let next := mkCursor (byte_idx st +w 1) ones_after_byte in
          if start selection >=? ones_after_byte then
            extend_bytes fuel' next range_start data selection values
          else
            let '(values, returned) :=
              bits_loop BYTE_FUEL byte (ones_before st) selection range_start (byte_idx st) values in
            if returned : bool then (values, st)
            else if ones_before next >=? end_ selection then (values, next)
            else extend_bytes fuel' next range_start data selection values
      end
  end.

Definition rewind (st : SegmentCursorState) (selection : Range) : SegmentCursorState :=
  if start selection <? ones_before st then mkCursor 0 0 else st.

Definition clamp (position : Z) : Z := wrap32 (Z.min position U32_MAX).

Definition extend_range (st : SegmentCursorState) (segment : U64Segment) (selection : Range) (values : list Z)
    : res (list Z * SegmentCursorState) :=
  match segment with
  | RangeWithBitmap r bitmap =>
      let st := rewind st selection in
      Ok (extend_bytes (S (length (Bitmap.data bitmap))) st (start r) (Bitmap.data bitmap) selection values)
  | Range_ r =>
      let segment_len := end_ r -w start r in
      let e := Z.min (end_ selection) segment_len in
      Ok (if start selection <? e
          then values ++ range_list (start r +w start selection ..< start r +w e) else values, st)
  | Ranges r runs =>
      vs ← HoleRuns.extend_values runs (start r) (clamp (start selection) ..< clamp (end_ selection)) values;
      Ok (vs, st)
  | _ =>
      vs ← filter_map_res (get segment) (range_list selection);
      Ok (values ++ vs, st)
  end.

(** The run expansion of a dense byte. *)
Fixpoint dense_loop (fuel : nat) (remaining_bits bit_offset byte_start : Z) (values : list Z) : list Z :=
  match fuel with
  | O => values
  | S fuel' =>
      if remaining_bits =? 0 then values
      else
        let zeros := trailing_zeros 8 remaining_bits in
        let remaining_bits := Z.shiftr remaining_bits zeros in
        let bit_offset := bit_offset +w zeros in
        let run := trailing_ones 8 remaining_bits in
        let values := values ++ range_list (byte_start +w bit_offset ..< (byte_start +w bit_offset) +w run) in
        dense_loop fuel' (Z.shiftr remaining_bits run) (bit_offset +w run) byte_start values
  end.

(** [extend_dense_bitmap_range] *)
Fixpoint extend_dense_bytes (fuel : nat) (st : SegmentCursorState) (range_start : Z) (data : list Z)
    (selection : Range) (values : list Z) : list Z * SegmentCursorState :=
  match fuel with
  | O => (values, st)
  | S fuel' =>
      match get_opt data (byte_idx st) with
      | None => (values, st)
      | Some byte =>
          let ones := count_ones_w 8 byte in
          let ones_after_byte := ones_before st +w ones in
          let next := mkCursor (byte_idx st +w 1) ones_after_byte in
          if start selection >=? ones_after_byte then
            extend_dense_bytes fuel' next range_start data selection values
          else
            let includes_entire_byte :=
              (start selection <=? ones_before st) && (end_ selection >=? ones_after_byte) in
            if includes_entire_byte && (ones >=? 6) then
              let byte_start := range_start +w byte_idx st * 8 in
              let values :=
                if byte =? U8_MAX then values ++ range_list (byte_start ..< byte_start +w 8)
                else dense_loop BYTE_FUEL byte 0 byte_start values in
              if ones_before next >=? end_ selection then (values, next)
              else extend_dense_bytes fuel' next range_start data selection values
            else
              let '(values, returned) :=
                bits_loop BYTE_FUEL byte (ones_before st) selection range_start (byte_idx st) values in
              if returned : bool then (values, st)
              else if ones_before next >=? end_ selection then (values, next)
              else extend_dense_bytes fuel' next range_start data selection values
      end
  end.

Definition extend_dense_range (st : SegmentCursorState) (segment : U64Segment) (selection : Range)
    (values : list Z) : res (list Z * SegmentCursorState) :=
  match segment with
  | RangeWithBitmap r bitmap =>
      let st := rewind st selection in
      Ok (extend_dense_bytes (S (length (Bitmap.bytes bitmap))) st (start r) (Bitmap.bytes bitmap) selection values)
  | _ => extend_range st segment selection values
  end.

(** ** One byte *)

Lemma zsub_cons {A} (x : A) l a c : 0 <= a -> zsub (x :: l) a c =
  if a <? c then (if a =? 0 then x :: zsub l 0 (c - 1) else zsub l (a - 1) (c - 1)) else [].
Proof.
  intros Ha. destruct (Z.ltb_spec a c); [|by apply zsub_nil]. unfold zsub, ztake, zskip.
  destruct (Z.eqb_spec a 0) as [->|].
  - simpl. replace (Z.to_nat (c - 0)) with (S (Z.to_nat (c - 1 - 0))) by lia. done.
  - replace (Z.to_nat a) with (S (Z.to_nat (a - 1))) by lia. simpl. f_equal. lia.
Qed.

Lemma zlen_eqb_0 {A} (l : list A) : (zlen l =? 0) = match l with [] => true | _ => false end.
Proof. destruct l as [|x l]; [done|]. rewrite zlen_cons. pose proof (zlen_nonneg l). apply Z.eqb_neq. lia. Qed.

(** The per-bit loop appends the set bits whose rank is selected; it returns
    early when a set bit lies past the selection. *)
Lemma bits_loop_ok fuel byte rank sel range_start k values : u8_ok byte -> (length (byte_ones byte) < fuel)%nat ->
  0 <= rank -> rank + zlen (byte_ones byte) <= U64_MAX ->
  bits_loop fuel byte rank sel range_start k values =
    (values ++ map (fun bit => range_start +w (k * 8 +w bit))
       (zsub (byte_ones byte) (Z.max 0 (start sel - rank)) (Z.min (zlen (byte_ones byte)) (end_ sel - rank))),
     negb (zlen (byte_ones byte) =? 0) && (end_ sel - rank <? zlen (byte_ones byte))).
Proof.
  revert byte rank values. induction fuel as [|fuel IH]; intros byte rank values Hb Hf Hr Hmax; [lia|]. simpl.
  destruct (Z.eqb_spec byte 0) as [->|Hne].
  { rewrite byte_ones_0. change (zlen (@nil Z)) with 0. simpl. rewrite zsub_nil by lia. simpl. by rewrite app_nil_r. }
  destruct (byte_ones_step byte Hb Hne) as [E Hu]. set (byte' := Z.land byte (wrap8 (byte - 1))) in *.
  rewrite E in *. simpl in Hf. rewrite zlen_cons in *. pose proof (zlen_nonneg (byte_ones byte')).
  rewrite (proj2 (Z.eqb_neq (1 + zlen (byte_ones byte')) 0)) by lia. simpl negb. rewrite andb_true_l, !Z.geb_leb.
  destruct (Z.leb_spec (end_ sel) rank) as [He|He].
  { rewrite zsub_nil by lia. simpl. rewrite app_nil_r. f_equal. symmetry. apply Z.ltb_lt. lia. }
  rewrite wrap64_small by (uok; lia). rewrite IH by (done || lia). rewrite zsub_cons by lia. f_equal.
  - destruct (Z.leb_spec (start sel) rank).
    + rewrite (Z.max_l 0 (start sel - rank)), (Z.max_l 0 (start sel - (rank + 1))) by lia.
      rewrite (proj2 (Z.ltb_lt 0 _)), Z.eqb_refl by lia. simpl. rewrite <- app_assoc. simpl. do 3 f_equal. f_equal. lia.
    + rewrite (Z.max_r 0 (start sel - rank)), (Z.max_r 0 (start sel - (rank + 1))) by lia.
      rewrite (proj2 (Z.eqb_neq _ 0)) by lia. destruct (Z.ltb_spec (start sel - rank) (Z.min (1 + zlen (byte_ones byte')) (end_ sel - rank))).
      * do 3 f_equal; lia.
      * by rewrite zsub_nil by lia.
  - rewrite zlen_eqb_0. destruct (byte_ones byte') as [|y l] eqn:Ey.
    + change (zlen (@nil Z)) with 0. simpl. symmetry. apply Z.ltb_ge. lia.
    + simpl negb. rewrite andb_true_l. destruct (Z.ltb_spec (end_ sel - (rank + 1)) (zlen (y :: l))), (Z.ltb_spec (end_ sel - rank) (1 + zlen (y :: l))); done || lia.
Qed.

Lemma byte_ones_short b : u8_ok b -> (length (byte_ones b) < BYTE_FUEL)%nat.
Proof.
  intros _. unfold byte_ones. pose proof (List.filter_length_le (Z.testbit b) (seqZ 0 8)) as H.
  rewrite length_seqZ in H. lia.
Qed.

(** The runs the dense decoder reads off a byte. *)
Fixpoint dense_ranges (fuel : nat) (remaining_bits bit_offset : Z) : list Range :=
  match fuel with
  | O => []
  | S fuel' =>
      if remaining_bits =? 0 then []
      else
        let zeros := trailing_zeros 8 remaining_bits in
        let rest := Z.shiftr remaining_bits zeros in
        let run := trailing_ones 8 rest in
        (bit_offset + zeros ..< bit_offset + zeros + run) ::
          dense_ranges fuel' (Z.shiftr rest run) (bit_offset + zeros + run)
  end.

Lemma dense_loop_ranges fuel bits off byte_start values : 0 <= byte_start -> 0 <= off ->
  Forall (fun r => 0 <= start r <= end_ r /\ byte_start + end_ r <= U64_MAX) (dense_ranges fuel bits off) ->
  dense_loop fuel bits off byte_start values =
  values ++ map (Z.add byte_start) (flat_map range_list (dense_ranges fuel bits off)).
Proof.
  intros Hb. revert bits off values. induction fuel as [|fuel IH]; intros bits off values Ho Hf; simpl in *; [by rewrite app_nil_r|].
  destruct (bits =? 0); [by rewrite app_nil_r|]. apply Forall_cons in Hf as [Hr Hf]. simpl in Hr. unwrap.
  rewrite IH by (lia || done). cbn [flat_map]. rewrite <- app_assoc, map_app. do 2 f_equal. unfold range_list. simpl.
  set (a := off + trailing_zeros 8 bits) in *. set (n := trailing_ones _ _) in *.
  replace (byte_start + a + n - (byte_start + a)) with n by lia. replace (a + n - a) with n by lia. symmetry. apply fmap_add_seqZ.
Qed.

(** By evaluation on every byte: the runs expand to the set bits, and a run
    ends after a set bit. *)
Lemma dense_ranges_byte b : u8_ok b ->
  flat_map range_list (dense_ranges BYTE_FUEL b 0) = byte_ones b /\
  Forall (fun r => 0 <= start r <= end_ r /\ end_ r - 1 ∈ byte_ones b) (dense_ranges BYTE_FUEL b 0).
Proof.
  intros Hb. pose proof (byte_forall (fun b => bool_decide (flat_map range_list (dense_ranges BYTE_FUEL b 0) = byte_ones b) &&
    forallb (fun r => (0 <=? start r) && (start r <=? end_ r) && bool_decide (end_ r - 1 ∈ byte_ones b)) (dense_ranges BYTE_FUEL b 0))) as H.
  specialize (H ltac:(vm_compute; reflexivity) b Hb). apply andb_prop in H as [H1%bool_decide_eq_true H2].
  split; [exact H1|]. rewrite forallb_forall in H2. apply Forall_forall. intros r Hr%list_elem_of_In. specialize (H2 r Hr).
  apply andb_prop in H2 as [H2 H3%bool_decide_eq_true]. apply andb_prop in H2 as [?%Z.leb_le ?%Z.leb_le]. done.
Qed.

(** ** The scan over the bytes *)

Section Scan.
Context (b : Bitmap) (range_start : Z).
Hypothesis Hwf : Bitmap.wf b.
Hypothesis Hstart : 0 <= range_start.
Hypothesis Hfit : range_start + Bitmap.len b <= U64_MAX.

Let d := Bitmap.data b.
Let P := Bitmap.setpos d 0 (Bitmap.len b).

Lemma scan_P : P = Bitmap.setpos d 0 (8 * zlen d).
Proof using Hwf. symmetry. by apply setpos_wf. Qed.

Lemma scan_step_facts st byte : cursor_inv st d -> get_opt d (byte_idx st) = Some byte ->
  u8_ok byte /\ 0 <= ones_before st /\ ones_before st + zlen (byte_ones byte) <= zlen P /\
  zlen P <= U64_MAX - 8 /\ count_ones_w 8 byte = zlen (byte_ones byte) /\ byte_idx st + 1 <= zlen d <= U64_MAX /\
  cursor_inv (mkCursor (byte_idx st + 1) (ones_before st + zlen (byte_ones byte))) d.
Proof using Hwf.
  intros [Hidx Ho] Hbyte. pose proof (Bitmap.wf_len b Hwf). pose proof (Bitmap.wf_data_len b Hwf) as Hdl. fold d in Hdl.
  pose proof (Forall_get_opt _ _ _ _ (Bitmap.wf_bytes b Hwf) Hbyte) as Hu. apply get_opt_Some in Hbyte as Hk.
  destruct (ones_in_byte _ _ _ Hbyte Hu) as [Hstep Hc]. rewrite count_byte_ones in * by done.
  pose proof (Bitmap.ones_in_bound d 0 (8 * byte_idx st)). pose proof (Bitmap.ones_in_bound d 0 (Bitmap.len b)).
  split; [done|]. split; [lia|]. split.
  { rewrite scan_P, Bitmap.zlen_setpos, Ho, <- Hstep. rewrite (Bitmap.ones_in_app d 0 (8 * (byte_idx st + 1)) (8 * zlen d)) by lia.
    pose proof (Bitmap.ones_in_bound d (8 * (byte_idx st + 1)) (8 * zlen d)). lia. }
  split; [unfold P; rewrite Bitmap.zlen_setpos; lia|]. split; [done|]. split; [lia|].
  split; simpl; [lia|]. by rewrite Hstep, Ho.
Qed.

(** The selected set bits of a byte are a sublist of the set positions. *)
Lemma scan_byte st byte a c : cursor_inv st d -> get_opt d (byte_idx st) = Some byte -> 0 <= a -> c <= zlen (byte_ones byte) ->
  map (fun bit => range_start +w (byte_idx st * 8 +w bit)) (zsub (byte_ones byte) a c) =
  map (Z.add range_start) (zsub P (ones_before st + a) (ones_before st + c)).
Proof using Hwf Hstart Hfit.
  intros Hinv Hbyte Ha Hc. destruct (scan_step_facts st byte Hinv Hbyte) as (Hu & Ho & Hle & _ & _ & _ & _).
  destruct (Z.le_gt_cases c a) as [Hca|Hca]; [by rewrite !zsub_nil by lia|].
  assert (Hmid : zsub P (ones_before st + a) (ones_before st + c) = map (Z.add (8 * byte_idx st)) (zsub (byte_ones byte) a c)).
  { apply get_opt_ext.
    - rewrite zlen_map, !zlen_zsub by lia. lia.
    - intros i. rewrite zlen_zsub by lia. intros Hi. rewrite get_opt_map, !get_opt_zsub by lia. rewrite scan_P.
      rewrite (setpos_split _ _ _ Hbyte). rewrite get_opt_app, Bitmap.zlen_setpos. destruct Hinv as [_ Hone]. rewrite <- Hone.
      rewrite (proj2 (Z.ltb_ge _ _)) by lia. rewrite get_opt_app, zlen_map, (proj2 (Z.ltb_lt _ _)) by lia. rewrite get_opt_map.
      do 2 f_equal. lia. }
  rewrite Hmid, map_map. apply map_ext_in. intros bit Hbit%list_elem_of_In%elem_of_get_opt. destruct Hbit as [j Hj].
  apply get_opt_Some in Hj as Hjr. rewrite zlen_zsub in Hjr by lia. rewrite get_opt_zsub in Hj by lia.
  by apply (byte_value b _ _ byte (a + j)).
Qed.

Context (sel : Range) (v0 : list Z).
Hypothesis Hsel : 0 <= start sel.

(** What has been appended once [n] set bits have been passed. *)
Definition upto (n : Z) : list Z := v0 ++ map (Z.add range_start) (zsub P (start sel) (Z.min (end_ sel) n)).

Lemma upto_step n m : 0 <= n <= m ->
  upto m = upto n ++ map (Z.add range_start) (zsub P (Z.max (start sel) n) (Z.min (end_ sel) m)).
Proof using Hsel.
  intros Hn. unfold upto. rewrite <- app_assoc, <- map_app. do 2 f_equal.
  destruct (Z.le_gt_cases n (start sel)) as [H1|H1].
  - rewrite (zsub_nil _ (start sel) (Z.min (end_ sel) n)), Z.max_l by lia. done.
  - rewrite Z.max_r by lia. destruct (Z.le_gt_cases (end_ sel) n).
    + rewrite (zsub_nil _ n), app_nil_r by lia. f_equal. lia.
    + rewrite (Z.min_r (end_ sel) n) by lia. apply zsub_app; lia.
Qed.

Lemma upto_end n m : n <= m -> end_ sel <= n -> upto n = upto m.
Proof using. intros. unfold upto. do 3 f_equal. lia. Qed.

Lemma upto_skip n m : m <= start sel -> n <= m -> upto n = upto m.
Proof using. intros. unfold upto. by rewrite !zsub_nil by lia. Qed.

Lemma scan_bits_step st byte : cursor_inv st d -> get_opt d (byte_idx st) = Some byte ->
  start sel < ones_before st + zlen (byte_ones byte) ->
  bits_loop BYTE_FUEL byte (ones_before st) sel range_start (byte_idx st) (upto (ones_before st)) =
    (upto (ones_before st + zlen (byte_ones byte)),
     negb (zlen (byte_ones byte) =? 0) && (end_ sel - ones_before st <? zlen (byte_ones byte))).
Proof using Hwf Hstart Hfit Hsel.
  intros Hinv Hbyte Hs. destruct (scan_step_facts st byte Hinv Hbyte) as (Hu & Ho & Hle & Hmax & _).
  rewrite bits_loop_ok by (try apply byte_ones_short; done || lia). f_equal.
  rewrite (scan_byte st byte) by (done || lia). rewrite (upto_step (ones_before st) (ones_before st + zlen (byte_ones byte))) by (pose proof (zlen_nonneg (byte_ones byte)); lia).
  do 3 f_equal; lia.
Qed.

Lemma scan_finish n : n <= zlen P -> (end_ sel <= n \/ n = zlen P) -> upto n = upto (zlen P).
Proof using. intros Hn [He| ->]; [by apply upto_end|done]. Qed.

Lemma extend_bytes_ok fuel st : cursor_inv st d -> (Z.to_nat (zlen d - byte_idx st) < fuel)%nat ->
  exists st', extend_bytes fuel st range_start d sel (upto (ones_before st)) = (upto (zlen P), st') /\ cursor_inv st' d.
Proof using Hwf Hstart Hfit Hsel.
  revert st. induction fuel as [|fuel IH]; intros st Hinv Hfuel; [lia|]. cbn [extend_bytes].
  destruct (get_opt d (byte_idx st)) as [byte|] eqn:Hbyte.
  - destruct (scan_step_facts st byte Hinv Hbyte) as (Hu & Ho & Hle & Hmax & -> & Hk & Hnext).
    pose proof (zlen_nonneg (byte_ones byte)). destruct Hinv as [Hidx Hone]. unwrap. rewrite !Z.geb_leb. cbn [ones_before].
    specialize (IH (mkCursor (byte_idx st + 1) (ones_before st + zlen (byte_ones byte))) Hnext ltac:(simpl; lia)).
    simpl in IH. destruct (Z.leb_spec (ones_before st + zlen (byte_ones byte)) (start sel)) as [Hsk|Hsk].
    + rewrite (upto_skip _ (ones_before st + zlen (byte_ones byte))) by lia. done.
    + rewrite scan_bits_step by (done || split; done). destruct (_ && _) eqn:Eret.
      * apply andb_prop in Eret as [_ He%Z.ltb_lt]. exists st. split; [|by split]. f_equal. apply scan_finish; [done|left; lia].
      * destruct (Z.leb_spec (end_ sel) (ones_before st + zlen (byte_ones byte))); [|done].
        eexists. split; [|exact Hnext]. f_equal. apply scan_finish; [done|by left].
  - exists st. split; [|done]. f_equal. apply get_opt_None in Hbyte. destruct Hinv as [Hidx Ho].
    assert (E : ones_before st = zlen P); [|by rewrite E]. rewrite scan_P, Bitmap.zlen_setpos, Ho. do 2 f_equal. lia.
Qed.

(** A whole byte decoded by runs. *)
Lemma scan_dense_step st byte : cursor_inv st d -> get_opt d (byte_idx st) = Some byte ->
  start sel <= ones_before st -> ones_before st + zlen (byte_ones byte) <= end_ sel ->
  (if byte =? U8_MAX then upto (ones_before st) ++ range_list (range_start +w byte_idx st * 8 ..< (range_start +w byte_idx st * 8) +w 8)
   else dense_loop BYTE_FUEL byte 0 (range_start +w byte_idx st * 8) (upto (ones_before st))) =
  upto (ones_before st + zlen (byte_ones byte)) \/ byte = 0.
Proof using Hwf Hstart Hfit Hsel.
  intros Hinv Hbyte Hs He. destruct (scan_step_facts st byte Hinv Hbyte) as (Hu & Ho & Hle & Hmax & _ & Hk & _).
  destruct (decide (byte = 0)) as [|Hne]; [by right|left]. pose proof (zlen_nonneg (byte_ones byte)).
  assert (Hpos : forall bit, bit ∈ byte_ones byte -> 0 <= bit /\ 8 * byte_idx st + bit < Bitmap.len b).
  { intros bit Hbit. assert (Hin : 8 * byte_idx st + bit ∈ P).
    { rewrite scan_P, (setpos_split _ _ _ Hbyte), !elem_of_app. right; left. apply list_elem_of_fmap. eauto. }
    apply elem_of_filterb in Hin as [Hin%elem_of_range_list _]. apply elem_of_filterb in Hbit as [Hbit%elem_of_seqZ _]. simpl in Hin. lia. }
  destruct (byte_ones_step byte Hu Hne) as [Eb _]. destruct Hinv as [Hidx Hone].
  assert (Hbs : range_start +w byte_idx st * 8 = range_start + 8 * byte_idx st).
  { destruct (Hpos (trailing_zeros 8 byte)) as [? ?]; [rewrite Eb; by left|]. unwrap. lia. }
  rewrite (upto_step (ones_before st) (ones_before st + zlen (byte_ones byte))), Z.max_r, Z.min_r by lia.
  pose proof (scan_byte st byte 0 (zlen (byte_ones byte)) (conj Hidx Hone) Hbyte ltac:(lia) ltac:(lia)) as Hsb.
  rewrite Z.add_0_r in Hsb. rewrite <- Hsb.
  assert (Hall : map (fun bit => range_start +w (byte_idx st * 8 +w bit)) (zsub (byte_ones byte) 0 (zlen (byte_ones byte))) =
     map (Z.add (range_start + 8 * byte_idx st)) (byte_ones byte)).
  { unfold zsub, ztake, zskip, zlen. rewrite drop_0, take_ge by lia. apply map_ext_in. intros bit Hbit%list_elem_of_In.
    apply elem_of_get_opt in Hbit as [j Hj]. rewrite (byte_value b _ _ byte j) by done. lia. }
  rewrite Hall, Hbs. destruct (dense_ranges_byte byte Hu) as [Hexp Hrs].
  destruct (Z.eqb_spec byte U8_MAX) as [->|Hn255].
  - f_equal. destruct (Hpos 7) as [? ?]; [vm_compute; repeat constructor|]. unwrap. change (byte_ones 255) with (range_list (0 ..< 8)).
    symmetry. apply EncodedArray.range_list_shift.
  - rewrite dense_loop_ranges, Hexp; [done|lia|lia|]. eapply Forall_impl; [exact Hrs|]. simpl. intros r [? Hend].
    destruct (Hpos _ Hend). lia.
Qed.

Lemma extend_dense_bytes_ok fuel st : cursor_inv st d -> (Z.to_nat (zlen d - byte_idx st) < fuel)%nat ->
  exists st', extend_dense_bytes fuel st range_start d sel (upto (ones_before st)) = (upto (zlen P), st') /\ cursor_inv st' d.
Proof using Hwf Hstart Hfit Hsel.
  revert st. induction fuel as [|fuel IH]; intros st Hinv Hfuel; [lia|]. cbn [extend_dense_bytes].
  destruct (get_opt d (byte_idx st)) as [byte|] eqn:Hbyte.
  - destruct (scan_step_facts st byte Hinv Hbyte) as (Hu & Ho & Hle & Hmax & -> & Hk & Hnext).
    pose proof (zlen_nonneg (byte_ones byte)). pose proof Hinv as [Hidx Hone]. cbv zeta.
    rewrite (wrap64_small (ones_before st + zlen (byte_ones byte))), (wrap64_small (byte_idx st + 1)) by (uok; lia).
    rewrite !Z.geb_leb. cbn [ones_before].
    specialize (IH (mkCursor (byte_idx st + 1) (ones_before st + zlen (byte_ones byte))) Hnext ltac:(simpl; lia)).
    simpl in IH. destruct (Z.leb_spec (ones_before st + zlen (byte_ones byte)) (start sel)) as [Hsk|Hsk].
    { rewrite (upto_skip _ (ones_before st + zlen (byte_ones byte))) by lia. done. }
    assert (Htail : exists st', (if end_ sel <=? ones_before st + zlen (byte_ones byte)
      then (upto (ones_before st + zlen (byte_ones byte)), mkCursor (byte_idx st + 1) (ones_before st + zlen (byte_ones byte)))
      else extend_dense_bytes fuel (mkCursor (byte_idx st + 1) (ones_before st + zlen (byte_ones byte))) range_start d sel
             (upto (ones_before st + zlen (byte_ones byte)))) = (upto (zlen P), st') /\ cursor_inv st' d).
    { destruct (Z.leb_spec (end_ sel) (ones_before st + zlen (byte_ones byte))); [|done].
      eexists. split; [|exact Hnext]. f_equal. apply scan_finish; [done|by left]. }
    destruct (_ && (6 <=? _)) eqn:Edense.
    + apply andb_prop in Edense as [Hin H6%Z.leb_le]. apply andb_prop in Hin as [Hin1%Z.leb_le Hin2].
      rewrite Z.leb_le in Hin2.
      destruct (scan_dense_step st byte Hinv Hbyte Hin1 Hin2) as [->| ->]; [exact Htail|].
      rewrite byte_ones_0 in H6. change (zlen (@nil Z)) with 0 in H6. lia.
    + rewrite scan_bits_step by done. destruct (negb _ && _) eqn:Eret; [|exact Htail].
      apply andb_prop in Eret as [_ He%Z.ltb_lt]. exists st. split; [|done]. f_equal. apply scan_finish; [done|left; lia].
  - exists st. split; [|done]. f_equal. apply get_opt_None in Hbyte. destruct Hinv as [Hidx Ho].
    assert (E : ones_before st = zlen P); [|by rewrite E]. rewrite scan_P, Bitmap.zlen_setpos, Ho. do 2 f_equal. lia.
Qed.

End Scan.

(** ** Any segment *)

Lemma omap_get_range {A} (l : list A) a b : 0 <= a ->
  omap (get_opt l) (range_list (a ..< b)) = zsub l a (Z.min b (zlen l)).
Proof.
  intros Ha. destruct (Z.le_gt_cases b a) as [Hba|Hab]; [by rewrite range_list_nil, zsub_nil by lia|].
  replace b with (a + (b - a)) by lia. assert (Hn : 0 <= b - a) by lia. revert Hn. generalize (b - a) as n. intros n Hn.
  pattern n. apply natlike_ind; [rewrite range_list_nil, zsub_nil by lia; done| |done].
  intros k Hk IH. replace (a + Z.succ k) with (a + k + 1) by lia. rewrite range_list_snoc, omap_app, IH by lia.
  unfold omap at 1. simpl. destruct (Z.ltb_spec (a + k) (zlen l)).
  - destruct (get_opt_lt l (a + k)) as [x Hx]; [lia|]. rewrite Hx. rewrite !Z.min_l by lia.
    rewrite (zsub_app l a (a + k) (a + k + 1)) by lia. f_equal. apply get_opt_ext.
    + rewrite zlen_zsub by lia. change (zlen [x]) with 1. lia.
    + intros i Hi. change (zlen [x]) with 1 in Hi. rewrite get_opt_zsub by lia. assert (i = 0) as -> by lia. by rewrite Z.add_0_r, Hx.
  - rewrite (proj2 (get_opt_None l (a + k))), app_nil_r by lia. f_equal. lia.
Qed.

Lemma zsub_map {A B} (f : A -> B) l a b : zsub (map f l) a b = map f (zsub l a b).
Proof. unfold zsub. by rewrite EncodedArray.map_sub. Qed.

Definition selection_ok (sel : Range) : Prop := u64_ok (start sel) /\ u64_ok (end_ sel).

(** The batch read appends the selected values. *)
Definition appended (s : U64Segment) (sel : Range) (values : list Z) : list Z :=
  values ++ zsub (elems s) (start sel) (Z.min (end_ sel) (zlen (elems s))).

Lemma rewind_ok st sel r b : wf (RangeWithBitmap r b) -> cursor_inv st (Bitmap.data b) -> 0 <= start sel ->
  cursor_inv (rewind st sel) (Bitmap.data b) /\ ones_before (rewind st sel) <= start sel.
Proof.
  intros Hwf Hst Hs. unfold rewind. destruct (Z.ltb_spec (start sel) (ones_before st)); [|by split].
  split; [apply cursor_inv_default|simpl; lia].
Qed.

Lemma upto_appended r b sel values : wf (RangeWithBitmap r b) ->
  upto b (start r) sel values (zlen (Bitmap.setpos (Bitmap.data b) 0 (Bitmap.len b))) = appended (RangeWithBitmap r b) sel values.
Proof.
  intros ((? & ? & ?) & Hb & Hl). unfold upto, appended. f_equal. rewrite elems_bitmap by done.
  by rewrite zlen_map, zsub_map, Hl.
Qed.

Lemma get_segments_ok s sel : wf s -> selection_ok sel ->
  filter_map_res (get s) (range_list sel) = Ok (zsub (elems s) (start sel) (Z.min (end_ sel) (zlen (elems s)))).
Proof.
  intros Hwf [Hs He]. uok. rewrite (filter_map_res_ok _ (get_opt (elems s))).
  - f_equal. destruct sel as [a b]. apply omap_get_range. simpl in *. lia.
  - apply Forall_forall. intros i Hi%elem_of_range_list. apply seg_get_ok; [done|]. uok. lia.
Qed.

Lemma extend_range_ok st s sel values : wf s -> cursor_ok st s -> selection_ok sel ->
  exists st', extend_range st s sel values = Ok (appended s sel values, st') /\ cursor_ok st' s.
Proof.
  intros Hwf Hst Hsel. pose proof Hsel as [Hs He]. uok.
  destruct s as [r|r h|r b|r rs|a|a]; unfold extend_range;
    try (rewrite get_segments_ok by done; mon; by eexists).
  - pose proof Hwf as (? & ? & ?). exists st. split; [|done]. f_equal. f_equal. unwrap. unfold appended. simpl.
    rewrite zlen_range_list by done. destruct (Z.ltb_spec (start sel) (Z.min (end_ sel) (end_ r - start r))).
    + unwrap. f_equal. destruct r as [x y]. simpl in *. by rewrite zsub_range by lia.
    + by rewrite zsub_nil, app_nil_r by lia.
  - pose proof Hwf as ((? & ? & ?) & Hb & Hl). destruct (rewind_ok st sel r b Hwf Hst) as [Hinv Hle]; [lia|].
    destruct (extend_bytes_ok b (start r) Hb ltac:(lia) ltac:(lia) sel values ltac:(lia)
      (S (length (Bitmap.data b))) (rewind st sel) Hinv) as (st' & E & Hst').
    { destruct Hinv. unfold zlen. lia. }
    exists st'. split; [|done]. f_equal. rewrite <- upto_appended by done. rewrite <- E. f_equal.
    unfold upto. rewrite zsub_nil by lia. simpl. by rewrite app_nil_r.
  - destruct Hwf as ((? & ? & ?) & Hr & Hsp). destruct (HoleRuns.present_ok rs Hr) as (Hp & Hu & Hn). uok. unfold clamp. unwrap.
    rewrite HoleRuns.extend_values_ok by (done || simpl; lia). mon. eexists. split; [|done]. f_equal. f_equal. unfold appended. f_equal.
    cbn [start end_]. simpl elems. rewrite zlen_map, zsub_map. f_equal. destruct (Z.le_gt_cases (start sel) U32_MAX).
    + f_equal; lia.
    + by rewrite !zsub_nil by lia.
Qed.

Lemma extend_dense_range_ok st s sel values : wf s -> cursor_ok st s -> selection_ok sel ->
  exists st', extend_dense_range st s sel values = Ok (appended s sel values, st') /\ cursor_ok st' s.
Proof.
  intros Hwf Hst Hsel. destruct s as [r|r h|r b|r rs|a|a]; unfold extend_dense_range; try by apply extend_range_ok.
  pose proof Hsel as [Hs He]. uok. pose proof Hwf as ((? & ? & ?) & Hb & Hl). destruct (rewind_ok st sel r b Hwf Hst) as [Hinv Hle]; [lia|].
  destruct (extend_dense_bytes_ok b (start r) Hb ltac:(lia) ltac:(lia) sel values ltac:(lia)
    (S (length (Bitmap.data b))) (rewind st sel) Hinv) as (st' & E & Hst').
  { destruct Hinv. unfold zlen. lia. }
  exists st'. split; [|done]. f_equal. rewrite <- upto_appended by done. rewrite <- E. unfold Bitmap.bytes. f_equal.
  unfold upto. rewrite zsub_nil by lia. simpl. by rewrite app_nil_r.
Qed.

(** ** Properties *)

(** The two batch decoders, the per-bit one and the one that expands runs
    of dense bytes, append exactly the values at the selected positions (those
    past the end are dropped), from any cursor position left by earlier reads,
    and leave a consistent cursor; in particular they agree. *)
Theorem segment_batch_read st s sel values : wf s -> cursor_ok st s -> selection_ok sel ->
  (exists st', extend_range st s sel values = Ok (appended s sel values, st') /\ cursor_ok st' s) /\
  (exists st', extend_dense_range st s sel values = Ok (appended s sel values, st') /\ cursor_ok st' s).
Proof. intros. split; [by apply extend_range_ok|by apply extend_dense_range_ok]. Qed.

Lemma segment_batch_read_witness : exists b st',
  extend_dense_range cursor_default (RangeWithBitmap (100 ..< 120) b) (5 ..< 9) [1] = Ok ([1; 105; 106; 107; 108], st').
Proof.
  destruct Bitmap.new_full_20 as (b & E & Hwb & Hl).
  destruct (segment_batch_read cursor_default (RangeWithBitmap (100 ..< 120) b) (5 ..< 9) [1]) as [_ (st' & Ed & _)].
  - split; [unfold range_ok; simpl; lia|]. split; [done|]. simpl. lia.
  - apply cursor_inv_default.
  - split; uok; simpl; lia.
  - exists b, st'. rewrite Ed. vm_compute in E. injection E as <-. vm_compute. done.
Defined.
