(* ===== verification/Sequence.v ===== *)
(** * Row-id sequences

    [lance-table/src/rowids.rs]: the row ids of a fragment as a vector of
    segments.  The specification of a sequence is the concatenation [elems] of
    the values of its segments; construction, indexing, slicing, extension,
    deletion by id and masking by position are related to it. *)

From Stdlib Require Import ZArith Lia.
From stdpp Require Import base option list numbers sorting sets gmap.
From S2P Require Import Prelude Lists Bits Bitmap EncodedArray HoleRuns Segment SegmentBuild SegmentRuns.

(** ** Model *)

Definition RowIdSequence : Type := list U64Segment.

Definition new : RowIdSequence := [].

(** [impl From<Range<u64>>] and [impl From<&[u64]>] *)
Definition from_range (range : Range) : RowIdSequence := [Range_ range].
Definition from_ids (row_ids : list Z) : res RowIdSequence :=
  s ← SegmentBuild.from_slice row_ids; Ok [s].

Definition find_duplicate (row_ids : list Z) : option Z :=
  if forallb (fun pair => fst pair <? snd pair) (windows2 row_ids) then None
  else fst <$> find (fun pair => fst pair =? snd pair) (windows2 (sort_unstable row_ids)).

Definition try_from_iter (row_ids : list Z) : res RowIdSequence :=
  match row_ids with
  | [] => Ok new
  | _ =>
      match find_duplicate row_ids with
      | Some _ => Err InvalidInput
      | None => s ← SegmentBuild.from_iter row_ids; Ok [s]
      end
  end.

Definition iter (q : RowIdSequence) : res (list Z) :=
  ls ← map_res Segment.iter q; Ok (concat ls).

(** [.sum()] of [u64] *)
Definition sum64 (l : list Z) : Z := foldl (fun acc x => acc +w x) 0 l.

Definition len (q : RowIdSequence) : res Z :=
  ls ← map_res Segment.len q; Ok (sum64 ls).

Definition is_empty (q : RowIdSequence) : bool := match q with [] => true | _ => false end.

Definition row_id_range (q : RowIdSequence) : option RangeInclusive :=
  let ranges := omap Segment.range q in
  min ← iter_min (map fst ranges);
  max ← iter_max (map snd ranges);
  Some (min, max).

(** [self.extend(other)] *)
Definition extend (q other : RowIdSequence) : RowIdSequence :=
  match list.last q, other with
  | Some (Range_ range1), Range_ range2 :: rest =>
      if end_ range1 =? start range2
      then removelast q ++ [Range_ (start range1 ..< end_ range2)] ++ rest
      else q ++ other
  | _, _ => q ++ other
  end.

Definition REENCODE_CHUNK_IDS : Z := 65536.

(** One run of [range_runs_span_a_gap]: [None] once the answer is known. *)
Fixpoint gap_runs (previous_end : option Z) (runs : list Range) : option (option Z) :=
  match runs with
  | [] => Some previous_end
  | run :: runs' =>
      if match previous_end with
         | Some e => (start run >? e) && (start run - e >? REENCODE_CHUNK_IDS)
         | None => false
         end
      then None else gap_runs (Some (end_ run)) runs'
  end.

Fixpoint span_gap_loop (previous_end : option Z) (segments : list U64Segment) : res bool :=
  match segments with
  | [] => Ok false
  | s :: rest =>
      match s with
      | Range_ _ | Ranges _ _ =>
          rs ← SegmentRuns.runs s;
          match gap_runs previous_end rs with
          | None => Ok true
          | Some previous_end => span_gap_loop previous_end rest
          end
      | _ => span_gap_loop None rest
      end
  end.

Definition range_runs_span_a_gap (q : RowIdSequence) : res bool := span_gap_loop None q.

(** [find_ids]: every row id visits each segment once, from where the cycling
    iterator stands. *)
Definition cycle_indices (n c : Z) : list Z := map (fun i => (c + i) mod n) (seqZ 0 n).

Definition find_in_segment (q : RowIdSequence) (row_id : Z) (matches : list (list Z)) (segment_idx : Z)
    : res (list (list Z)) :=
  segment ← idx q segment_idx;
  if match Segment.range segment with Some r => incl_contains r row_id | None => false end then
    o ← Segment.position segment row_id;
    match o with
    | Some offset => ms ← idx matches segment_idx; idx_set matches segment_idx (ms ++ [offset])
    | None => Ok matches
    end
  else Ok matches.

Definition find_one (q : RowIdSequence) (st : list (list Z) * Z) (row_id : Z) : res (list (list Z) * Z) :=
  let '(matches, c) := st in
  ms ← fold_res (find_in_segment q row_id) matches (cycle_indices (zlen q) c);
  Ok (ms, c + zlen q).

(** The ranges of the non-empty match lists in the concatenation. *)
Fixpoint match_ranges (segment_idx offset : Z) (matches : list (list Z)) : list (Z * Range) :=
  match matches with
  | [] => []
  | m :: rest =>
      match m with
      | [] => match_ranges (segment_idx + 1) offset rest
      | _ => (segment_idx, offset ..< offset +w zlen m) ::
               match_ranges (segment_idx + 1) (offset +w zlen m) rest
      end
  end.

Definition get_unwrap (s : U64Segment) (offset : Z) : res Z :=
  o ← Segment.get s offset; unwrap_opt o.

Definition find_ids (q : RowIdSequence) (row_ids : list Z) : res (list Z * list (Z * Range)) :=
  st ← fold_res (find_one q) (replicate (length q) [], 0) row_ids;
  let matches := map sort_unstable (fst st) in
  let segment_ranges := match_ranges 0 0 matches in
  ids ← map_res (fun p => s ← idx q (fst p); map_res (get_unwrap s) (snd p)) (enumerate matches);
  Ok (concat ids, segment_ranges).

(** The loop of [delete] over the matched segments. *)
Fixpoint delete_loop (old_len : Z) (row_ids : list Z) (offsets : list (Z * Range))
    (out remaining : list U64Segment) : res (list U64Segment * list U64Segment) :=
  match offsets with
  | [] => Ok (out, remaining)
  | (segment_idx, range) :: rest =>
      let segments_handled := old_len -w zlen remaining in
      let segments_to_add := segment_idx -w segments_handled in
      prefix ← idx_range remaining 0 segments_to_add;
      let out := out ++ prefix in
      let remaining := zskip segments_to_add remaining in
      match remaining with
      | [] => Panic
      | segment :: remaining =>
          segment_ids ← idx_range row_ids (start range) (end_ range);
          s ← SegmentBuild.delete segment segment_ids;
          delete_loop old_len row_ids rest (out ++ [s]) remaining
      end
  end.

Definition delete (q : RowIdSequence) (row_ids : list Z) : res RowIdSequence :=
  '(ids, offsets) ← find_ids q row_ids;
  '(out, remaining) ← delete_loop (zlen q) ids offsets [] q;
  Ok (out ++ remaining).

(** Positions below the cutoff, relative to [offset], and the rest. *)
Fixpoint take_positions (cutoff offset : Z) (positions : list Z) : list Z * list Z :=
  match positions with
  | [] => ([], [])
  | p :: rest =>
      if p >=? cutoff then ([], positions)
      else let '(local, rest') := take_positions cutoff offset rest in ((p -d offset) :: local, rest')
  end.

Fixpoint mask_loop (offset cutoff : Z) (positions : list Z) (segments : list U64Segment) : res (list U64Segment) :=
  match segments with
  | [] => Ok []
  | s :: rest =>
      n ← Segment.len s;
      let cutoff := cutoff +d wrap32 n in
      let '(local, positions) := take_positions cutoff offset positions in
      s' ← (match local with [] => Ok s | _ => SegmentBuild.mask s local end);
      rest' ← mask_loop cutoff cutoff positions rest;
      Ok (s' :: rest')
  end.

Definition mask (q : RowIdSequence) (positions : list Z) : res RowIdSequence :=
  segments ← mask_loop 0 0 positions q;
  filter_res (fun s => e ← Segment.is_empty s; Ok (negb e)) segments.

Record RowIdSeqSlice := mkSlice { segments : list U64Segment; offset_start : Z; offset_last : Z }.

(** The first loop of [slice]: skip whole segments. *)
Fixpoint skip_segments (segs : list U64Segment) (offset_start segment_offset : Z) : res (Z * Z) :=
  match segs with
  | [] => Ok (offset_start, segment_offset)
  | s :: rest =>
      n ← Segment.len s;
      if offset_start <? n then Ok (offset_start, segment_offset)
      else skip_segments rest (offset_start -w n) (segment_offset + 1)
  end.

(** The second loop, which stops at the segment holding the last value. *)
Fixpoint last_segment (segs : list U64Segment) (offset_last segment_offset_last : Z) : res (Z * Z) :=
  match segs with
  | [] => Ok (offset_last, segment_offset_last)
  | s :: rest =>
      n ← Segment.len s;
      if offset_last <=? n then Ok (offset_last, segment_offset_last)
      else last_segment rest (offset_last -w n) (segment_offset_last + 1)
  end.

Definition slice (q : RowIdSequence) (offset len : Z) : res RowIdSeqSlice :=
  if len =? 0 then Ok (mkSlice [] 0 0) else
  '(offset_start, segment_offset) ← skip_segments q offset 0;
  '(offset_last, segment_offset_last) ←
     last_segment (zskip segment_offset q) (offset_start +w len) segment_offset;
  segs ← idx_range q segment_offset (segment_offset_last + 1);
  Ok (mkSlice segs offset_start offset_last).

(** The arm of [RowIdSeqSlice::iter] for segment [i]. *)
Definition slice_arm (s : RowIdSeqSlice) (i : Z) (values : list Z) : list Z :=
  let n := zlen (segments s) in
  if i =? 0 then
    if n =? 1 then ztake (offset_last s -w offset_start s) (zskip (offset_start s) values)
    else zskip (offset_start s) values
  else if i =? saturating_sub n 1 then ztake (offset_last s) values
  else values.

Definition slice_iter (s : RowIdSeqSlice) : res (list Z) :=
  ls ← map_res (fun p => vs ← Segment.iter (snd p); Ok (slice_arm s (fst p) vs)) (enumerate (segments s));
  Ok (concat ls).

(** The size announced to the consumer of the iterator. *)
Definition known_size (s : RowIdSeqSlice) : res Z :=
  ls ← map_res Segment.len (segments s);
  let last := match list.last ls with Some n => n | None => 0 end in
  Ok ((sum64 ls -w offset_start s) -w (last -w offset_last s)).

Fixpoint get_loop (segs : list U64Segment) (offset index : Z) : res (option Z) :=
  match segs with
  | [] => Ok None
  | s :: rest =>
      n ← Segment.len s;
      if index <? offset +w n then Segment.get s (index -w offset)
      else get_loop rest (offset +w n) index
  end.

Definition get (q : RowIdSequence) (index : Z) : res (option Z) := get_loop q 0 index.

(** ** Specification *)

Definition elems (q : RowIdSequence) : list Z := concat (map Segment.elems q).

Definition wf (q : RowIdSequence) : Prop := Forall Segment.wf q /\ zlen (elems q) <= U64_MAX.

(** No id occurs twice within one segment. *)
Definition distinct (q : RowIdSequence) : Prop := Forall (fun s => NoDup (Segment.elems s)) q.

(** ** Indexing *)

Lemma elems_cons s q : elems (s :: q) = Segment.elems s ++ elems q.
Proof. done. Qed.

Lemma elems_app q1 q2 : elems (q1 ++ q2) = elems q1 ++ elems q2.
Proof. unfold elems. by rewrite map_app, concat_app. Qed.

Lemma zlen_elems_cons s q : zlen (elems (s :: q)) = zlen (Segment.elems s) + zlen (elems q).
Proof. by rewrite elems_cons, zlen_app. Qed.

Lemma NoDup_distinct q : NoDup (elems q) -> distinct q.
Proof.
  induction q as [|s q IH]; intros Hd; constructor; rewrite elems_cons in Hd;
    apply NoDup_app in Hd as (? & _ & ?); [done|by apply IH].
Qed.

Lemma seq_elems_u64 q : Forall Segment.wf q -> Forall u64_ok (elems q).
Proof.
  induction 1; [constructor|]. rewrite elems_cons. apply Forall_app. by split; [apply Segment.seg_elems_u64|].
Qed.

Lemma seq_iter_ok q : Forall Segment.wf q -> iter q = Ok (elems q).
Proof.
  intros Hw. unfold iter. erewrite map_res_ok; [done|].
  eapply Forall_impl; [done|]. intros. by apply Segment.seg_iter_ok.
Qed.

Lemma lens_ok q : Forall Segment.wf q -> map_res Segment.len q = Ok (map (fun s => zlen (Segment.elems s)) q).
Proof. intros. apply map_res_ok. eapply Forall_impl; [done|]. intros. by apply Segment.seg_len_ok. Qed.

Lemma sum64_ok q : zlen (elems q) <= U64_MAX -> sum64 (map (fun s => zlen (Segment.elems s)) q) = zlen (elems q).
Proof.
  unfold sum64. enough (forall acc, 0 <= acc -> acc + zlen (elems q) <= U64_MAX ->
    foldl (fun acc x => acc +w x) acc (map (fun s => zlen (Segment.elems s)) q) = acc + zlen (elems q)) as Hs
    by (intros; rewrite Hs; lia).
  induction q as [|s q IH]; intros acc Ha Hl; [change (zlen (elems [])) with 0; simpl; lia|].
  rewrite zlen_elems_cons in *. pose proof (zlen_nonneg (Segment.elems s)). pose proof (zlen_nonneg (elems q)).
  cbn [map foldl]. unwrap. rewrite IH; lia.
Qed.

Lemma seq_len_ok q : wf q -> len q = Ok (zlen (elems q)).
Proof. intros [Hw Hl]. unfold len. rewrite lens_ok by done. mon. by rewrite sum64_ok. Qed.

Lemma seq_get_loop_ok q offset index : Forall Segment.wf q -> 0 <= offset <= index -> u64_ok index ->
  offset + zlen (elems q) <= U64_MAX -> get_loop q offset index = Ok (get_opt (elems q) (index - offset)).
Proof.
  intros Hw. revert offset. induction Hw as [|s q Hs _ IH]; intros offset Ho Hi Hl.
  { cbn [get_loop]. f_equal. symmetry. apply get_opt_None. right. change (zlen (elems [])) with 0. lia. }
  rewrite zlen_elems_cons in Hl. pose proof (zlen_nonneg (Segment.elems s)). pose proof (zlen_nonneg (elems q)).
  cbn [get_loop]. rewrite Segment.seg_len_ok by done. mon. unwrap.
  rewrite elems_cons, get_opt_app.
  destruct (Z.ltb_spec index (offset + zlen (Segment.elems s))), (Z.ltb_spec (index - offset) (zlen (Segment.elems s))); try lia.
  - apply Segment.seg_get_ok; [done|uok; lia].
  - rewrite IH; [|lia|done|lia]. do 2 f_equal. lia.
Qed.

Lemma seq_get_ok q index : wf q -> u64_ok index -> get q index = Ok (get_opt (elems q) index).
Proof.
  intros [Hw Hl] Hi. unfold get. rewrite seq_get_loop_ok; [|done|uok; lia|done|lia]. by rewrite Z.sub_0_r.
Qed.

Lemma row_id_range_bounds q : Forall Segment.wf q ->
  match row_id_range q with
  | Some (lo, hi) => Forall (fun v => lo <= v <= hi) (elems q)
  | None => elems q = []
  end.
Proof.
  intros Hw. unfold row_id_range. set (rs := omap Segment.range q).
  assert (Forall (fun v => exists r, r ∈ rs /\ fst r <= v <= snd r) (elems q)) as Hin.
  { subst rs. induction Hw as [|s q Hs _ IH]; [constructor|]. rewrite elems_cons. apply Forall_app. split.
    - pose proof (range_bounds s Hs) as Hb. simpl. destruct (range s) as [[lo hi]|]; [|by rewrite Hb].
      eapply Forall_impl; [apply Hb|]. simpl. intros v ?. exists (lo, hi). split; [by left|done].
    - eapply Forall_impl; [apply IH|]. intros v (r & Hr & ?). exists r. split; [|done].
      simpl. destruct (range s); [by right|done]. }
  destruct (iter_min (map fst rs)) as [lo|] eqn:El, (iter_max (map snd rs)) as [hi|] eqn:Eh; simpl;
    try (destruct rs; [|done]; destruct (elems q) as [|v l]; [done|];
         apply Forall_inv in Hin as (r & Hr & _); by apply elem_of_nil in Hr).
  apply iter_min_spec in El as [_ El]. apply iter_max_spec in Eh as [_ Eh].
  rewrite Forall_forall in El, Eh. eapply Forall_impl; [apply Hin|]. intros v (r & Hr & ?). simpl.
  assert (lo <= fst r) by (apply El, list_elem_of_fmap; eauto).
  assert (snd r <= hi) by (apply Eh, list_elem_of_fmap; eauto). lia.
Qed.

Lemma row_id_range_u64 q lo hi : Forall Segment.wf q -> row_id_range q = Some (lo, hi) -> u64_ok hi.
Proof.
  intros Hw. unfold row_id_range. destruct (iter_min _) as [a|]; [|done]. simpl.
  destruct (iter_max _) as [b|] eqn:E; [|done]. simpl. intros [= <- <-].
  apply iter_max_spec in E as [E _]. apply list_elem_of_fmap in E as ([x y] & -> & E).
  apply list_elem_of_omap in E as (s & Hs & Er). rewrite Forall_forall in Hw.
  pose proof (range_bounds s (Hw s Hs)) as Hb. rewrite Er in Hb. apply Hb.
Qed.

(** ** Extension *)

Lemma extend_ok q o : Forall Segment.wf q -> Forall Segment.wf o ->
  Forall Segment.wf (extend q o) /\ elems (extend q o) = elems q ++ elems o.
Proof.
  intros Hq Ho. assert (Forall Segment.wf (q ++ o) /\ elems (q ++ o) = elems q ++ elems o) as Happ
    by (split; [by apply Forall_app|apply elems_app]).
  unfold extend. destruct (list.last q) as [[r1| | | | | ]|] eqn:El; try done.
  destruct o as [|[r2| | | | | ] rest]; try done.
  destruct (Z.eqb_spec (end_ r1) (start r2)) as [E|]; [|done].
  apply last_split in El. rewrite El in Hq |- *. apply Forall_app in Hq as [Hq Hr1].
  apply Forall_inv in Hr1. inversion Ho as [|? ? Hr2 Hrest]; subst. rewrite removelast_last.
  simpl in Hr1, Hr2. unfold range_ok in Hr1, Hr2. split.
  - rewrite !Forall_app. repeat split; try done. constructor; [|constructor].
    unfold Segment.wf, range_ok. simpl. lia.
  - rewrite !elems_app, <- app_assoc. f_equal. rewrite !elems_cons. cbn [elems map concat].
    rewrite app_nil_r, app_assoc. f_equal. destruct r1 as [a b], r2 as [c d]. simpl in *. subst c.
    rewrite app_nil_r. apply range_list_app; lia.
Qed.

(** ** Slices *)

Lemma zsub_app_r {A} (l1 l2 : list A) a b : 0 <= a -> zsub (l1 ++ l2) (zlen l1 + a) (zlen l1 + b) = zsub l2 a b.
Proof.
  intros. unfold zsub, ztake, zskip, zlen.
  replace (Z.to_nat (Z.of_nat (length l1) + a)) with (length l1 + Z.to_nat a)%nat by lia.
  rewrite <- drop_drop, drop_app_length. do 2 f_equal. lia.
Qed.

Lemma zsub_app_l {A} (l1 l2 : list A) a b : 0 <= a -> b <= zlen l1 -> zsub (l1 ++ l2) a b = zsub l1 a b.
Proof.
  intros. destruct (Z.le_gt_cases b a); [by rewrite !zsub_nil by lia|].
  unfold zsub, ztake, zskip, zlen in *. rewrite drop_app_le by lia. rewrite take_app_le; [done|]. rewrite length_drop. lia.
Qed.

(** A window over a concatenation: the tail of the first part, the middle and
    the head of the last part. *)
Lemma zsub_app_mid {A} (l1 l2 l3 : list A) a b : 0 <= a <= zlen l1 -> 0 <= b ->
  zsub (l1 ++ l2 ++ l3) a (zlen l1 + zlen l2 + b) = zskip a l1 ++ l2 ++ ztake b l3.
Proof.
  intros. pose proof (zlen_nonneg l2).
  rewrite (zsub_app _ a (zlen l1)) by lia. rewrite zsub_app_l by lia. f_equal.
  { unfold zsub, ztake, zskip, zlen in *. apply take_ge. rewrite length_drop. lia. }
  replace (zlen l1) with (zlen l1 + 0) at 1 by lia. rewrite <- Z.add_assoc, zsub_app_r by lia.
  unfold zsub, ztake, zskip. rewrite drop_0, Z.sub_0_r.
  replace (Z.to_nat (zlen l2 + b)) with (length l2 + Z.to_nat b)%nat by (unfold zlen; lia).
  by rewrite take_app_add.
Qed.

Lemma skip_segments_ok q o k : Forall Segment.wf q -> u64_ok o ->
  exists pre post o', q = pre ++ post /\ skip_segments q o k = Ok (o', k + zlen pre) /\
    o = zlen (elems pre) + o' /\ 0 <= o' /\
    match post with [] => True | s :: _ => o' < zlen (Segment.elems s) end.
Proof.
  intros Hw. revert o k. induction Hw as [|s q Hs _ IH]; intros o k Ho.
  { exists [], [], o. cbn [skip_segments]. rewrite zlen_nil, Z.add_0_r. change (zlen (elems [])) with 0. repeat split; uok; lia. }
  cbn [skip_segments]. rewrite Segment.seg_len_ok by done. mon. pose proof (zlen_nonneg (Segment.elems s)).
  destruct (Z.ltb_spec o (zlen (Segment.elems s))).
  - exists [], (s :: q), o. rewrite zlen_nil, Z.add_0_r. repeat split; [uok; lia|done].
  - unwrap. destruct (IH (o - zlen (Segment.elems s)) (k + 1)) as (pre & post & o' & -> & E & Eo & Hp & Hlt); [uok; lia|].
    exists (s :: pre), post, o'. rewrite E, zlen_elems_cons. autorewrite with lance. repeat split; [|lia|done|done].
    do 2 f_equal. lia.
Qed.

(** The last segment of a window that ends inside [q]. *)
Lemma last_segment_ok q o k : Forall Segment.wf q -> 0 < o <= zlen (elems q) -> u64_ok o ->
  exists pre s post o', q = pre ++ s :: post /\ last_segment q o k = Ok (o', k + zlen pre) /\
    o = zlen (elems pre) + o' /\ 0 < o' <= zlen (Segment.elems s).
Proof.
  intros Hw. revert o k. induction Hw as [|s q Hs _ IH]; intros o k Ho Hu.
  { change (zlen (elems [])) with 0 in Ho. lia. }
  cbn [last_segment]. rewrite Segment.seg_len_ok by done. mon. rewrite zlen_elems_cons in Ho.
  destruct (Z.leb_spec o (zlen (Segment.elems s))).
  - exists [], s, q, o. rewrite zlen_nil, Z.add_0_r. repeat split; lia.
  - pose proof (zlen_nonneg (Segment.elems s)). unwrap.
    destruct (IH (o - zlen (Segment.elems s)) (k + 1)) as (pre & s' & post & o' & -> & E & Eo & Hp); [lia|uok; lia|].
    exists (s :: pre), s', post, o'. rewrite E, zlen_elems_cons. autorewrite with lance. repeat split; [|lia|lia|lia].
    do 2 f_equal. lia.
Qed.

(** A window that ends past [q] runs through every segment. *)
Lemma last_segment_past q o k : Forall Segment.wf q -> zlen (elems q) < o -> u64_ok o ->
  exists o', last_segment q o k = Ok (o', k + zlen q).
Proof.
  intros Hw. revert o k. induction Hw as [|s q Hs _ IH]; intros o k Ho Hu.
  { exists o. cbn [last_segment]. by rewrite zlen_nil, Z.add_0_r. }
  cbn [last_segment]. rewrite Segment.seg_len_ok by done. mon. rewrite zlen_elems_cons in Ho.
  pose proof (zlen_nonneg (elems q)). pose proof (zlen_nonneg (Segment.elems s)).
  rewrite (proj2 (Z.leb_gt _ _)) by lia. unwrap.
  destruct (IH (o - zlen (Segment.elems s)) (k + 1)) as [o' E]; [lia|uok; lia|].
  exists o'. rewrite E. autorewrite with lance. do 2 f_equal. lia.
Qed.

Lemma enumerate_app {A} (l1 l2 : list A) :
  enumerate (l1 ++ l2) = enumerate l1 ++ map (fun p => (zlen l1 + fst p, snd p)) (enumerate l2).
Proof.
  unfold enumerate. pose proof (zlen_nonneg l1). pose proof (zlen_nonneg l2).
  rewrite zlen_app, seqZ_app by lia. rewrite zip_with_app by (rewrite length_seqZ; unfold zlen; lia).
  f_equal. replace (0 + zlen l1) with (zlen l1 + 0) by lia. rewrite <- fmap_add_seqZ, zip_with_fmap_l.
  rewrite zip_with_zip. apply map_ext. by intros [].
Qed.

Lemma enumerate_cons {A} (x : A) l : enumerate (x :: l) = (0, x) :: map (fun p => (1 + fst p, snd p)) (enumerate l).
Proof. apply (enumerate_app [x] l). Qed.

Lemma enumerate_bounds {A} (l : list A) : Forall (fun p => 0 <= fst p < zlen l) (enumerate l).
Proof. apply Forall_forall. intros [i x] Hx%enumerate_lookup%get_opt_Some. done. Qed.

Lemma slice_iter_one s a b : Segment.wf s -> 0 <= a <= b -> b <= U64_MAX ->
  slice_iter (mkSlice [s] a b) = Ok (zsub (Segment.elems s) a b).
Proof.
  intros Hs Ha Hb. unfold slice_iter. cbn [segments]. change (enumerate [s]) with [(0, s)]. cbn [map_res fst snd].
  rewrite Segment.seg_iter_ok by done. mon. unfold slice_arm. cbn. unwrap. by rewrite app_nil_r.
Qed.

Lemma map_concat_same {A B} (f g : A -> list B) l : Forall (fun x => f x = g x) l -> concat (map f l) = concat (map g l).
Proof. induction 1 as [|x l Hx _ IH]; [done|]. simpl. by rewrite Hx, IH. Qed.

Lemma slice_iter_many s0 mid sl a b : Segment.wf s0 -> Forall Segment.wf mid -> Segment.wf sl ->
  slice_iter (mkSlice (s0 :: mid ++ [sl]) a b) =
    Ok (zskip a (Segment.elems s0) ++ elems mid ++ ztake b (Segment.elems sl)).
Proof.
  intros H0 Hm Hl. unfold slice_iter. cbn [segments].
  set (sc := mkSlice (s0 :: mid ++ [sl]) a b).
  assert (zlen (segments sc) = zlen mid + 2) as Hn by (cbn; autorewrite with lance; lia).
  pose proof (zlen_nonneg mid).
  rewrite (map_res_ok _ (fun p => slice_arm sc (fst p) (Segment.elems (snd p)))).
  2: { apply Forall_forall. intros [i s] Hs%enumerate_lookup. cbn [fst snd].
       rewrite Segment.seg_iter_ok; [done|]. eapply Forall_get_opt; [|exact Hs].
       constructor; [done|]. apply Forall_app. by repeat constructor. }
  mon. f_equal. rewrite enumerate_cons, enumerate_app. change (enumerate [sl]) with [(0, sl)].
  rewrite map_app. cbn [map fst snd]. rewrite map_app, concat_cons, concat_app. cbn [map fst snd concat].
  unfold slice_arm at 1. rewrite Hn. cbn [Z.eqb]. rewrite (proj2 (Z.eqb_neq (zlen mid + 2) 1)) by lia.
  f_equal. f_equal.
  - rewrite map_map. cbn [fst snd]. rewrite (map_concat_same _ (fun p => Segment.elems (snd p))).
    + rewrite <- map_map, map_snd_enumerate. done.
    + eapply Forall_impl; [apply enumerate_bounds|]. intros [i s]. cbn [fst snd]. intros Hi. unfold slice_arm.
      rewrite Hn. unfold saturating_sub. rewrite !(proj2 (Z.eqb_neq _ _)) by lia. done.
  - unfold slice_arm. rewrite Hn. unfold saturating_sub. rewrite (proj2 (Z.eqb_neq _ 0)) by lia.
    rewrite (proj2 (Z.eqb_eq _ _)) by lia. by rewrite app_nil_r.
Qed.

Lemma known_size_ok pre s a b : Forall Segment.wf (pre ++ [s]) -> zlen (elems (pre ++ [s])) <= U64_MAX ->
  0 <= a <= zlen (elems pre) + b -> 0 <= b <= zlen (Segment.elems s) ->
  known_size (mkSlice (pre ++ [s]) a b) = Ok (zlen (elems pre) + b - a).
Proof.
  intros Hw Hl Ha Hb. unfold known_size. cbn [segments offset_start offset_last].
  rewrite lens_ok by done. mon. rewrite sum64_ok by done. rewrite map_app. cbn [map].
  rewrite list.last_snoc. rewrite elems_app, zlen_app in *. change (elems [s]) with (Segment.elems s ++ []) in *.
  rewrite app_nil_r in *. pose proof (zlen_nonneg (elems pre)). f_equal.
  unwrap. lia.
Qed.

(** The two loops on a window inside the sequence. *)
Lemma slice_split q offset n : wf q -> 0 <= offset -> 0 < n -> offset + n <= zlen (elems q) ->
  exists pre seg post a b, q = pre ++ seg ++ post /\ slice q offset n = Ok (mkSlice seg a b) /\
    offset = zlen (elems pre) + a /\ 0 <= a /\
    ((exists s, seg = [s] /\ b = a + n /\ b <= zlen (Segment.elems s)) \/
     (exists s0 mid sl, seg = s0 :: mid ++ [sl] /\ a < zlen (Segment.elems s0) /\
        a + n = zlen (Segment.elems s0) + zlen (elems mid) + b /\ 0 < b <= zlen (Segment.elems sl))).
Proof.
  intros [Hw Hl] Ho Hn Hin. unfold slice. rewrite (proj2 (Z.eqb_neq _ _)) by lia.
  destruct (skip_segments_ok q offset 0) as (pre & post & a & -> & -> & Ea & Ha & Hlt); [done|uok; lia|]. mon.
  rewrite Z.add_0_l. apply Forall_app in Hw as [Hwp Hw]. rewrite elems_app, zlen_app in Hin, Hl.
  pose proof (zlen_nonneg (elems pre)). unwrap.
  replace (zskip (zlen pre) (pre ++ post)) with post
    by (unfold zskip, zlen; by rewrite Nat2Z.id, drop_app_length).
  destruct (last_segment_ok post (a + n) (zlen pre)) as (mid & sl & rest & b & -> & -> & Eb & Hb); [done|lia|uok; lia|].
  mon. unfold idx_range. pose proof (zlen_nonneg mid). pose proof (zlen_nonneg rest). pose proof (zlen_nonneg pre).
  rewrite (proj2 (Z.leb_le 0 _)), !(proj2 (Z.leb_le _ _)) by (autorewrite with lance; lia). cbn [andb]. mon.
  exists pre, (mid ++ [sl]), rest, a, b. split; [by rewrite <- app_assoc|].
  replace (take _ _) with (mid ++ [sl]).
  2: { unfold zlen. rewrite Nat2Z.id, drop_app_length.
       replace (mid ++ sl :: rest) with ((mid ++ [sl]) ++ rest) by (by rewrite <- app_assoc).
       rewrite take_app_le by (rewrite length_app; simpl; lia). symmetry. apply take_ge. rewrite length_app. simpl. lia. }
  split; [done|]. split; [done|]. split; [done|].
  destruct mid as [|s0 mid].
  - left. exists sl. change (zlen (elems [])) with 0 in Eb. repeat split; lia.
  - right. exists s0, mid, sl. rewrite zlen_elems_cons in Eb. cbn in Hlt. repeat split; lia.
Qed.

Lemma seq_slice_ok q offset n : wf q -> 0 <= offset -> 0 <= n -> offset + n <= zlen (elems q) ->
  exists sl, slice q offset n = Ok sl /\ slice_iter sl = Ok (zsub (elems q) offset (offset + n)) /\
    known_size sl = Ok n.
Proof.
  intros Hq Ho Hn Hin. destruct (Z.eq_dec n 0) as [->|].
  { exists (mkSlice [] 0 0). rewrite zsub_nil by lia. done. }
  destruct (slice_split q offset n) as (pre & seg & post & a & b & -> & -> & -> & Ha & Hc); [done|lia..|].
  destruct Hq as [Hw Hl]. rewrite !elems_app, !zlen_app in Hl, Hin. rewrite !Forall_app in Hw.
  destruct Hw as (_ & Hws & _). pose proof (zlen_nonneg (elems pre)). pose proof (zlen_nonneg (elems post)).
  exists (mkSlice seg a b). split; [done|].
  rewrite !elems_app, <- Z.add_assoc, zsub_app_r by lia.
  destruct Hc as [(s & -> & -> & Hb)|(s0 & mid & sl & -> & Hlt & E & Hb)].
  - inversion Hws; subst. change (elems [s]) with (Segment.elems s ++ []) in *. rewrite app_nil_r in *. split.
    + rewrite slice_iter_one by (done || lia). by rewrite zsub_app_l by lia.
    + rewrite (known_size_ok [] s); [f_equal; change (zlen (elems [])) with 0; lia|done|..].
      all: change (elems ([] ++ [s])) with (Segment.elems s ++ []); rewrite ?app_nil_r;
        change (zlen (elems [])) with 0; lia.
  - inversion Hws as [|? ? Hs0 Hws']; subst. apply Forall_app in Hws' as [Hm Hsl]. apply Forall_inv in Hsl.
    rewrite elems_cons, elems_app in *. change (elems [sl]) with (Segment.elems sl ++ []) in *.
    rewrite app_nil_r, !zlen_app in *. pose proof (zlen_nonneg (elems mid)). split.
    + rewrite slice_iter_many by done. rewrite E, <- !app_assoc.
      replace (Segment.elems s0 ++ elems mid ++ Segment.elems sl ++ elems post)
        with ((Segment.elems s0 ++ elems mid ++ Segment.elems sl) ++ elems post) by (by rewrite <- !app_assoc).
      rewrite zsub_app_l by (rewrite ?zlen_app; lia). by rewrite zsub_app_mid by lia.
    + change (s0 :: mid ++ [sl]) with ((s0 :: mid) ++ [sl]).
      assert (zlen (elems ((s0 :: mid) ++ [sl])) = zlen (Segment.elems s0) + zlen (elems mid) + zlen (Segment.elems sl)) as El.
      { rewrite elems_app, zlen_app, zlen_elems_cons. change (elems [sl]) with (Segment.elems sl ++ []). by rewrite app_nil_r. }
      rewrite known_size_ok; rewrite ?El, ?zlen_elems_cons; try lia; [f_equal; lia|].
      apply (Forall_app _ (s0 :: mid)). split; by constructor.
Qed.

(** A non-empty window that reaches past the end panics. *)
Lemma slice_past q offset n : wf q -> 0 <= offset -> 0 < n -> offset + n <= U64_MAX -> zlen (elems q) < offset + n ->
  slice q offset n = Panic.
Proof.
  intros [Hw Hl] Ho Hn Hu Hin. unfold slice. rewrite (proj2 (Z.eqb_neq _ _)) by lia.
  destruct (skip_segments_ok q offset 0) as (pre & post & a & -> & -> & Ea & Ha & Hlt); [done|uok; lia|]. mon.
  rewrite Z.add_0_l. apply Forall_app in Hw as [Hwp Hw]. rewrite elems_app, zlen_app in Hin, Hl.
  pose proof (zlen_nonneg (elems pre)). unwrap.
  replace (zskip (zlen pre) (pre ++ post)) with post
    by (unfold zskip, zlen; by rewrite Nat2Z.id, drop_app_length).
  destruct (last_segment_past post (a + n) (zlen pre)) as [b ->]; [done|lia|uok; lia|]. mon.
  unfold idx_range. rewrite (proj2 (Z.leb_gt _ (zlen (pre ++ post)))) by (rewrite zlen_app; lia).
  by rewrite andb_false_r.
Qed.

(** ** Construction *)

Lemma windows_equal l : StronglySorted Z.le l ->
  find (fun pair => fst pair =? snd pair) (windows2 l) = None <-> NoDup l.
Proof.
  induction 1 as [|x [|y l] Hl IH Hx]; cbn [windows2 find fst snd].
  - split; [constructor|done].
  - split; [repeat constructor; by apply not_elem_of_nil|done].
  - destruct (Z.eqb_spec x y) as [->|Hne].
    + split; [done|]. intros [Hn _]%NoDup_cons. by destruct Hn; left.
    + rewrite IH, (NoDup_cons x). split; [|by intros []]. intros Hd. split; [|done].
      apply StronglySorted_inv in Hl as [_ Hl]. apply Forall_inv in Hx.
      intros [->|Hin]%elem_of_cons; [done|]. rewrite Forall_forall in Hl. specialize (Hl x Hin). lia.
Qed.

Lemma find_duplicate_None l : find_duplicate l = None <-> NoDup l.
Proof.
  unfold find_duplicate. destruct (forallb _ _) eqn:E.
  - split; [|done]. intros _. by apply ssorted_NoDup, windows_sorted.
  - rewrite fmap_None, windows_equal by apply sort_by_key_sorted. by rewrite sort_unstable_perm.
Qed.

Lemma try_from_iter_ok ids : Forall u64_ok ids -> zlen ids <= VEC64_MAX -> NoDup ids ->
  exists q, try_from_iter ids = Ok q /\ wf q /\ elems q = ids.
Proof.
  intros Hu Hl Hd. unfold try_from_iter. destruct ids as [|x ids].
  { exists []. repeat split; [constructor|]. change (zlen (elems [])) with 0. lia. }
  rewrite (proj2 (find_duplicate_None _)) by done.
  destruct (from_slice_ok (x :: ids)) as (s & Es & Hs & Ei); [done..|].
  unfold SegmentBuild.from_slice in Es. rewrite Es. mon.
  exists [s]. rewrite elems_cons, app_nil_r, Ei. repeat split; [by repeat constructor|].
  rewrite elems_cons, app_nil_r, Ei. lia.
Qed.

Lemma try_from_iter_err ids : ~ NoDup ids -> try_from_iter ids = Err InvalidInput.
Proof.
  intros Hd. unfold try_from_iter. destruct ids; [destruct Hd; constructor|].
  destruct (find_duplicate _) eqn:E; [done|]. by apply find_duplicate_None in E.
Qed.

(** ** Finding and deleting row ids *)

(** The positions in [l] of the values of [ids], in the order of [ids]. *)
Definition hits (ids l : list Z) : list Z := omap (fun v => index_of v l) ids.

(** The values of [l] that are in [ids], in the order of [l]. *)
Definition kept (ids l : list Z) : list Z := List.filter (fun v => bool_decide (v ∈ ids)) l.

Lemma elem_of_hits ids l i : NoDup l -> i ∈ hits ids l <-> exists v, v ∈ ids /\ get_opt l i = Some v.
Proof.
  intros Hd. unfold hits. rewrite list_elem_of_omap.
  split; intros (v & Hv & Hi); exists v; (split; [done|]); by apply index_of_Some.
Qed.

Lemma NoDup_hits ids l : NoDup ids -> NoDup l -> NoDup (hits ids l).
Proof.
  intros Hi Hl. induction Hi as [|v ids Hv _ IH]; [constructor|]. cbn [hits omap list_omap].
  destruct (index_of v l) as [i|] eqn:E; [|done]. constructor; [|done].
  intros (w & Hw & Ew)%elem_of_hits; [|done]. apply index_of_Some in E; [|done]. by simplify_eq.
Qed.

Lemma zip_filter_snd {A B} (f : B -> bool) (l : list (A * B)) :
  map snd (List.filter (fun p => f (snd p)) l) = List.filter f (map snd l).
Proof. induction l as [|[a b] l IH]; [done|]. simpl. destruct (f b); simpl; by rewrite IH. Qed.

Lemma ssorted_enumerate_filter {A} (f : Z * A -> bool) (l : list A) : ssorted (map fst (List.filter f (enumerate l))).
Proof.
  eapply sublist_sorted_Z; [|apply fmap_sublist, filter_sublist]. unfold enumerate.
  rewrite fst_zip by (rewrite length_seqZ; unfold zlen; lia). apply ssorted_seqZ.
Qed.

(** The sorted hits are the positions of the kept values. *)
Lemma sorted_hits ids l : NoDup ids -> NoDup l ->
  sort_unstable (hits ids l) = map fst (List.filter (fun p => bool_decide (snd p ∈ ids)) (enumerate l)).
Proof.
  intros Hi Hl. apply ssorted_ext; [by apply sort_unstable_ssorted, NoDup_hits|apply ssorted_enumerate_filter|].
  intros i. rewrite sort_unstable_perm, elem_of_hits by done. rewrite list_elem_of_fmap. split.
  - intros (v & Hv & E). exists (i, v). split; [done|]. apply elem_of_filterb.
    split; [by apply enumerate_lookup|]. by apply bool_decide_eq_true.
  - intros ([j v] & -> & [Hj Hv]%elem_of_filterb). apply enumerate_lookup in Hj.
    apply bool_decide_eq_true in Hv. eauto.
Qed.

Lemma get_sorted_hits s ids : Segment.wf s -> NoDup ids -> NoDup (Segment.elems s) ->
  map_res (get_unwrap s) (sort_unstable (hits ids (Segment.elems s))) = Ok (kept ids (Segment.elems s)).
Proof.
  intros Hs Hi Hl. rewrite sorted_hits by done. unfold kept. rewrite <- (map_snd_enumerate (Segment.elems s)) at 2.
  rewrite <- zip_filter_snd. set (f := fun p : Z * Z => bool_decide (snd p ∈ ids)).
  assert (Forall (fun p => get_opt (Segment.elems s) (fst p) = Some (snd p)) (List.filter f (enumerate (Segment.elems s)))) as Hf.
  { apply Forall_forall. intros [i v] [Hp _]%elem_of_filterb. by apply enumerate_lookup. }
  induction Hf as [|[i v] l Hp _ IH]; [done|]. cbn [map fst snd map_res]. cbn [fst snd] in Hp.
  assert (get_unwrap s i = Ok v) as ->.
  { unfold get_unwrap. pose proof (zlen_elems_le s Hs). rewrite Segment.seg_get_ok; [by rewrite Hp|done|].
    apply get_opt_Some in Hp. uok. lia. }
  mon. by rewrite IH.
Qed.

(** One row id visits every segment once, whatever the cycling iterator's
    position, which stays a multiple of the number of segments. *)
Lemma cycle_indices_full n c : 0 <= n -> c mod n = 0 -> cycle_indices n c = seqZ 0 n.
Proof.
  intros Hn Hc. unfold cycle_indices. rewrite <- (map_id (seqZ 0 n)) at 2. apply map_ext_in.
  intros i Hi%list_elem_of_In%elem_of_seqZ. rewrite <- Z.add_mod_idemp_l by lia. rewrite Hc. apply Z.mod_small. lia.
Qed.

Lemma idx_at {A} (l1 : list A) x l2 : idx (l1 ++ x :: l2) (zlen l1) = Ok x.
Proof. apply idx_ok. rewrite get_opt_app, Z.ltb_irrefl, Z.sub_diag. done. Qed.

Lemma idx_set_at {A} (l1 : list A) x y l2 : idx_set (l1 ++ x :: l2) (zlen l1) y = Ok (l1 ++ y :: l2).
Proof.
  rewrite idx_set_ok by (rewrite zlen_app, zlen_cons; pose proof (zlen_nonneg l1); pose proof (zlen_nonneg l2); lia).
  unfold zlen. rewrite Nat2Z.id, insert_app_r_alt by lia. by rewrite Nat.sub_diag.
Qed.

Definition hit (v : Z) (l : list Z) : list Z := option_list (index_of v l).

Lemma hits_snoc ids v l : hits (ids ++ [v]) l = hits ids l ++ hit v l.
Proof. unfold hits, hit. rewrite omap_app. simpl. by destruct (index_of v l). Qed.

Lemma find_in_segment_ok pre s post v ms1 m ms2 : Segment.wf s -> u64_ok v -> length ms1 = length pre ->
  find_in_segment (pre ++ s :: post) v (ms1 ++ m :: ms2) (zlen pre) = Ok (ms1 ++ (m ++ hit v (Segment.elems s)) :: ms2).
Proof.
  intros Hs Hv Hlen. unfold find_in_segment. rewrite idx_at. mon. unfold hit.
  assert (zlen pre = zlen ms1) as El by (unfold zlen; lia).
  pose proof (range_bounds s Hs) as Hb. destruct (match Segment.range s with Some _ => _ | None => _ end) eqn:Er.
  - rewrite Segment.seg_position_ok by done. mon. destruct (index_of v (Segment.elems s)); simpl; [|by rewrite app_nil_r].
    rewrite El, idx_at. mon. by rewrite idx_set_at.
  - assert (index_of v (Segment.elems s) = None) as ->; [|simpl; by rewrite app_nil_r].
    apply index_of_None. destruct (Segment.range s) as [[lo hi]|]; [|rewrite Hb; apply not_elem_of_nil].
    destruct Hb as [Hb _]. rewrite Forall_forall in Hb. intros Hin. specialize (Hb v Hin).
    unfold incl_contains in Er. simpl in Er. apply andb_false_iff in Er. rewrite !Z.leb_gt in Er. lia.
Qed.

Lemma find_round q v (M : U64Segment -> list Z) : Forall Segment.wf q -> u64_ok v ->
  fold_res (find_in_segment q v) (map M q) (seqZ 0 (zlen q)) = Ok (map (fun s => M s ++ hit v (Segment.elems s)) q).
Proof.
  intros Hw Hv. enough (forall pre post, q = pre ++ post ->
    fold_res (find_in_segment q v) (map (fun s => M s ++ hit v (Segment.elems s)) pre ++ map M post) (seqZ (zlen pre) (zlen post)) =
    Ok (map (fun s => M s ++ hit v (Segment.elems s)) q)) as Hg by (by apply (Hg [] q)).
  intros pre post. revert pre. induction post as [|s post IH]; intros pre Eq.
  - rewrite zlen_nil, seqZ_nil by lia. simpl. rewrite !app_nil_r in *. by subst.
  - rewrite zlen_cons, seqZ_cons by (pose proof (zlen_nonneg post); lia). cbn [fold_res map].
    rewrite Eq at 1. rewrite find_in_segment_ok; [|by subst q; apply Forall_app in Hw as [_ Hw]; inversion Hw|done|by rewrite length_map].
    mon. specialize (IH (pre ++ [s])). rewrite map_app, <- !app_assoc in IH. cbn [map app] in IH.
    replace (Z.succ (zlen pre)) with (zlen (pre ++ [s])) by (rewrite zlen_app, zlen_cons, zlen_nil; lia).
    replace (Z.pred (1 + zlen post)) with (zlen post) by lia. by apply IH.
Qed.

Lemma find_all q ids c pre : Forall Segment.wf q -> Forall u64_ok ids -> c mod zlen q = 0 ->
  exists c', fold_res (find_one q) (map (fun s => hits pre (Segment.elems s)) q, c) ids =
    Ok (map (fun s => hits (pre ++ ids) (Segment.elems s)) q, c').
Proof.
  intros Hw Hi. revert c pre. induction Hi as [|v ids Hv _ IH]; intros c pre Hc.
  { exists c. rewrite app_nil_r. done. }
  assert (find_one q (map (fun s => hits pre (Segment.elems s)) q, c) v =
    Ok (map (fun s => hits pre (Segment.elems s) ++ hit v (Segment.elems s)) q, c + zlen q)) as E1.
  { unfold find_one. rewrite cycle_indices_full by (done || apply zlen_nonneg). by rewrite find_round. }
  cbn [fold_res]. rewrite E1. mon.
  destruct (IH (c + zlen q) (pre ++ [v])) as [c' E].
  { rewrite <- (Z.mul_1_l (zlen q)) at 1. by rewrite Z_mod_plus_full. }
  exists c'. rewrite <- app_assoc in E. cbn [app] in E. rewrite <- E. do 2 f_equal. apply map_ext. intros. by rewrite hits_snoc.
Qed.

(** Reading [q[i]] beside the [i]-th item of a vector built from [q]. *)
Lemma map_res_enumerate {A B C} (q : list A) (g : A -> B) (F : A -> B -> res C) (h : A -> C) :
  Forall (fun s => F s (g s) = Ok (h s)) q ->
  map_res (fun p => s ← idx q (fst p); F s (snd p)) (enumerate (map g q)) = Ok (map h q).
Proof.
  intros Hq. enough (forall pre post, q = pre ++ post ->
    map_res (fun p => s ← idx q (fst p); F s (snd p)) (zip (seqZ (zlen pre) (zlen post)) (map g post)) = Ok (map h post)) as Hg.
  { unfold enumerate. rewrite zlen_map. by apply (Hg []). }
  intros pre post. revert pre. induction post as [|s post IH]; intros pre Eq; [done|].
  rewrite zlen_cons, seqZ_cons by (pose proof (zlen_nonneg post); lia). cbn [map zip zip_with map_res fst snd].
  assert (F s (g s) = Ok (h s)) as Es by (subst q; apply Forall_app in Hq as [_ Hq]; by inversion Hq).
  rewrite Eq at 1. rewrite idx_at. mon. rewrite Es. mon.
  replace (Z.succ (zlen pre)) with (zlen (pre ++ [s])) by (rewrite zlen_app, zlen_cons, zlen_nil; lia).
  replace (Z.pred (1 + zlen post)) with (zlen post) by lia. rewrite IH; [done|]. by rewrite <- app_assoc.
Qed.

Lemma kept_concat ids q : concat (map (fun s => kept ids (Segment.elems s)) q) = kept ids (elems q).
Proof. induction q as [|s q IH]; [done|]. rewrite elems_cons. unfold kept in *. rewrite List.filter_app. simpl. by rewrite IH. Qed.

Lemma find_ids_ok q ids : Forall Segment.wf q -> distinct q -> Forall u64_ok ids -> NoDup ids ->
  find_ids q ids = Ok (kept ids (elems q), match_ranges 0 0 (map (fun s => sort_unstable (hits ids (Segment.elems s))) q)).
Proof.
  intros Hw Hd Hi Hn. unfold find_ids.
  destruct (find_all q ids 0 [] Hw Hi) as [c E]; [apply Zmod_0_l|]. cbn [app] in E.
  replace (map (fun s => hits [] (Segment.elems s)) q) with (replicate (length q) (@nil Z)) in E
    by (clear; induction q; simpl; by f_equal).
  rewrite E. mon. cbn [fst]. rewrite map_map.
  rewrite (map_res_enumerate q _ (fun s => map_res (get_unwrap s)) (fun s => kept ids (Segment.elems s))).
  - mon. by rewrite kept_concat.
  - unfold distinct in Hd. rewrite Forall_forall in Hw, Hd. apply Forall_forall. intros s Hs. apply get_sorted_hits; auto.
Qed.

Lemma hits_kept_len ids l : NoDup ids -> NoDup l -> zlen (sort_unstable (hits ids l)) = zlen (kept ids l).
Proof.
  intros. rewrite sorted_hits by done. unfold kept. rewrite zlen_map.
  rewrite <- (map_snd_enumerate l) at 2. rewrite <- zip_filter_snd, zlen_map. done.
Qed.

Lemma kept_not_in ids l : List.filter (not_in (kept ids l)) l = List.filter (not_in ids) l.
Proof.
  apply filter_ext_Forall, Forall_forall. intros v Hv. unfold not_in. f_equal. apply bool_decide_ext.
  unfold kept. rewrite elem_of_filterb, bool_decide_eq_true. tauto.
Qed.

Lemma kept_nil ids l : kept ids l = [] -> List.filter (not_in ids) l = l.
Proof.
  intros Hk. rewrite <- kept_not_in, Hk. apply filter_all, Forall_forall. intros v _.
  apply not_in_true, not_elem_of_nil.
Qed.

Lemma filter_elems_cons f s q : List.filter f (elems (s :: q)) = List.filter f (Segment.elems s) ++ List.filter f (elems q).
Proof. rewrite elems_cons. apply List.filter_app. Qed.

Lemma kept_le ids l : zlen (kept ids l) <= zlen l.
Proof. unfold kept, zlen. pose proof (filter_length_le (fun v => bool_decide (v ∈ ids)) l). lia. Qed.

Lemma idx_range_at {A} (l1 l2 l3 : list A) : idx_range (l1 ++ l2 ++ l3) (zlen l1) (zlen l1 + zlen l2) = Ok l2.
Proof.
  unfold idx_range. pose proof (zlen_nonneg l1). pose proof (zlen_nonneg l2). pose proof (zlen_nonneg l3).
  rewrite !(proj2 (Z.leb_le _ _)) by (autorewrite with lance; lia). cbn [andb]. f_equal.
  rewrite Z.add_simpl_l. unfold zlen. rewrite !Nat2Z.id, drop_app_length, take_app_length. done.
Qed.

Lemma delete_step pre skipped s rest out idsp seg idsq offs :
  zlen (pre ++ skipped ++ s :: rest) <= U64_MAX ->
  delete_loop (zlen (pre ++ skipped ++ s :: rest)) (idsp ++ seg ++ idsq)
    ((zlen (pre ++ skipped), zlen idsp ..< zlen idsp + zlen seg) :: offs) out (skipped ++ s :: rest) =
  s' ← SegmentBuild.delete s seg;
  delete_loop (zlen (pre ++ skipped ++ s :: rest)) (idsp ++ seg ++ idsq) offs ((out ++ skipped) ++ [s']) rest.
Proof.
  intros Hl. cbn [delete_loop start end_].
  assert (zlen (pre ++ skipped) -w (zlen (pre ++ skipped ++ s :: rest) -w zlen (skipped ++ s :: rest)) = zlen skipped) as ->.
  { autorewrite with lance in *. pose proof (zlen_nonneg pre). pose proof (zlen_nonneg skipped). pose proof (zlen_nonneg rest).
    unwrap. lia. }
  assert (idx_range (skipped ++ s :: rest) 0 (zlen skipped) = Ok skipped) as -> by apply (idx_range_at [] skipped (s :: rest)).
  mon.
  replace (zskip (zlen skipped) (skipped ++ s :: rest)) with (s :: rest)
    by (unfold zskip, zlen; by rewrite Nat2Z.id, drop_app_length).
  rewrite idx_range_at. done.
Qed.

(** The loop of [delete]: [skipped] are segments passed over since the last
    matched one, [rest] the segments still to match. *)
Lemma delete_loop_ok ids : NoDup ids ->
  forall rest pre skipped out idsp idsq,
    let row_ids := idsp ++ kept ids (elems rest) ++ idsq in
    Forall Segment.wf (out ++ skipped ++ rest) -> distinct rest ->
    Forall (fun s => zlen (Segment.elems s) <= VEC64_MAX) rest ->
    zlen row_ids <= U64_MAX -> zlen (pre ++ skipped ++ rest) <= U64_MAX ->
  exists out' remaining, delete_loop (zlen (pre ++ skipped ++ rest)) row_ids
      (match_ranges (zlen (pre ++ skipped)) (zlen idsp) (map (fun s => sort_unstable (hits ids (Segment.elems s))) rest))
      out (skipped ++ rest) = Ok (out', remaining) /\
    Forall Segment.wf (out' ++ remaining) /\
    elems (out' ++ remaining) = elems (out ++ skipped) ++ List.filter (not_in ids) (elems rest).
Proof.
  intros Hn. induction rest as [|s rest IH]; intros pre skipped out idsp idsq row_ids Hw Hd Hv Hr Hq.
  { exists out, skipped. cbn. rewrite !app_nil_r in *. done. }
  inversion Hd as [|? ? Hds Hdr]; subst. inversion Hv as [|? ? Hvs Hvr]; subst.
  pose proof (hits_kept_len ids (Segment.elems s) Hn Hds) as Hlen. subst row_ids.
  assert (kept ids (elems (s :: rest)) = kept ids (Segment.elems s) ++ kept ids (elems rest)) as Ek by (apply filter_elems_cons).
  rewrite Ek, <- app_assoc in Hr |- *. cbn [map match_ranges].
  destruct (sort_unstable (hits ids (Segment.elems s))) as [|h hs] eqn:Eh.
  - assert (kept ids (Segment.elems s) = []) as E0 by (apply nil_length_inv; rewrite zlen_nil in Hlen; unfold zlen in Hlen; lia).
    specialize (IH pre (skipped ++ [s]) out idsp idsq). rewrite E0 in *.
    replace (zlen (pre ++ skipped) + 1) with (zlen (pre ++ skipped ++ [s])) by (autorewrite with lance; lia).
    rewrite <- !app_assoc in IH. cbn [app] in IH, Hr |- *.
    destruct IH as (out' & rem & E & Hw' & Ee); [done..|]. exists out', rem. split; [done|]. split; [done|].
    rewrite Ee, !elems_app, filter_elems_cons, (kept_nil ids (Segment.elems s)), elems_cons by done.
    cbn [elems map concat]. by rewrite !app_nil_r, <- !app_assoc.
  - set (off := zlen idsp) in *. assert (0 <= off) by apply zlen_nonneg.
    destruct (delete_ok s (kept ids (Segment.elems s))) as (s' & Es' & Hws' & Ees').
    { rewrite !Forall_app in Hw. destruct Hw as (_ & _ & Hw). by inversion Hw. }
    { done. } { done. } { apply filter_sublist. }
    rewrite kept_not_in in Ees'.
    rewrite Hlen. pose proof (zlen_nonneg (kept ids (Segment.elems s))).
    pose proof (zlen_nonneg (kept ids (elems rest))). pose proof (zlen_nonneg idsq).
    autorewrite with lance in Hr. unwrap. subst off.
    rewrite delete_step, Es' by done. mon.
    specialize (IH (pre ++ skipped ++ [s]) [] ((out ++ skipped) ++ [s']) (idsp ++ kept ids (Segment.elems s)) idsq).
    rewrite !app_nil_r, <- !app_assoc in IH. cbn [app] in IH. rewrite <- !app_assoc.
    replace (zlen (pre ++ skipped) + 1) with (zlen (pre ++ skipped ++ [s])) by (autorewrite with lance; lia).
    rewrite <- zlen_app. destruct IH as (out' & rem & E & Hw' & Ee); [| |done|autorewrite with lance; lia|done|].
    + rewrite !Forall_app in Hw |- *. destruct Hw as (? & ? & Hw). inversion Hw; subst. by repeat constructor.
    + done.
    + exists out', rem. split; [done|]. split; [done|].
      rewrite Ee, !elems_app, elems_cons, filter_elems_cons, Ees'. by rewrite !app_nil_r, <- !app_assoc.
Qed.

Lemma segment_len_le q : Forall (fun s => zlen (Segment.elems s) <= zlen (elems q)) q.
Proof.
  induction q as [|s q IH]; [constructor|]. rewrite zlen_elems_cons. pose proof (zlen_nonneg (Segment.elems s)).
  pose proof (zlen_nonneg (elems q)). constructor; [lia|]. eapply Forall_impl; [done|]. intros. simpl in *. lia.
Qed.

Lemma zlen_filter_le {A} (f : A -> bool) l : zlen (List.filter f l) <= zlen l.
Proof. unfold zlen. pose proof (filter_length_le f l). lia. Qed.

Lemma seq_delete_ok q ids : wf q -> distinct q -> zlen (elems q) <= VEC64_MAX -> zlen q <= ISIZE_MAX ->
  Forall u64_ok ids -> NoDup ids ->
  exists q', delete q ids = Ok q' /\ wf q' /\ elems q' = List.filter (not_in ids) (elems q).
Proof.
  intros [Hw Hl] Hd Hv Hq Hi Hn. unfold delete. rewrite find_ids_ok by done. mon.
  destruct (delete_loop_ok ids Hn q [] [] [] [] []) as (out & rem & E & Hw' & Ee); [done|done|..].
  - eapply Forall_impl; [apply segment_len_le|]. simpl. intros. lia.
  - rewrite app_nil_r. cbn [app]. pose proof (kept_le ids (elems q)). lia.
  - cbn [app]. lia.
  - rewrite app_nil_r in E. cbn [app] in E. change (zlen (@nil Z)) with 0 in E. change (zlen (@nil U64Segment)) with 0 in E. rewrite E. mon.
    exists (out ++ rem). cbn [app] in Ee. split; [done|]. split; [|done]. split; [done|].
    rewrite Ee. cbn. pose proof (zlen_filter_le (not_in ids) (elems q)). lia.
Qed.

(** ** Masking by position *)

Lemma unmasked_app ps l1 l2 :
  unmasked ps (l1 ++ l2) = unmasked ps l1 ++ unmasked (map (fun p => p - zlen l1) ps) l2.
Proof.
  unfold unmasked. rewrite enumerate_app, List.filter_app, map_app. f_equal.
  induction (enumerate l2) as [|[i x] l IH]; [done|]. cbn [map List.filter fst snd].
  assert (not_in ps (zlen l1 + i) = not_in (map (fun p => p - zlen l1) ps) i) as ->.
  { unfold not_in. f_equal. apply bool_decide_ext. rewrite list_elem_of_fmap. split.
    - intros Hi. exists (zlen l1 + i). split; [lia|done].
    - intros (p & -> & Hp). by replace (zlen l1 + (p - zlen l1)) with p by lia. }
  destruct (not_in _ i); cbn [map snd]; by rewrite IH.
Qed.

(** Only the positions below the length matter. *)
Lemma unmasked_ext ps ps' l : (forall i, 0 <= i < zlen l -> i ∈ ps <-> i ∈ ps') -> unmasked ps l = unmasked ps' l.
Proof.
  intros He. unfold unmasked. f_equal. apply filter_ext_Forall. eapply Forall_impl; [apply enumerate_bounds|].
  intros [i x] Hi. cbn [fst] in *. unfold not_in. f_equal. by apply bool_decide_ext, He.
Qed.

Lemma take_positions_ok cutoff offset ps : ssorted ps -> Forall (fun p => offset <= p <= U32_MAX) ps -> 0 <= offset ->
  take_positions cutoff offset ps =
    (map (fun p => p - offset) (List.filter (fun p => p <? cutoff) ps), List.filter (fun p => negb (p <? cutoff)) ps).
Proof.
  intros Hs Hp Ho. induction ps as [|p ps IH]; [done|]. cbn [take_positions List.filter].
  apply ssorted_cons_inv in Hs as [Hs Hlt]. inversion Hp as [|? ? Hp1 Hp2]; subst.
  rewrite Z.geb_leb. destruct (Z.leb_spec cutoff p), (Z.ltb_spec p cutoff); try lia; cbn [negb].
  - rewrite filter_none, filter_all; [done|..]; (eapply Forall_impl; [apply Hlt|]); intros x Hx; simpl in *;
      destruct (Z.ltb_spec x cutoff); simpl; (done || lia).
  - rewrite IH by done. unwrap. done.
Qed.

Lemma ssorted_map_sub k l : ssorted l -> ssorted (map (fun p => p - k) l).
Proof.
  induction 1 as [|x l _ IH Hx]; simpl; constructor; [done|]. apply Forall_map. eapply Forall_impl; [done|]. intros. simpl. lia.
Qed.

Lemma masked_segment s ps : Segment.wf s -> NoDup (Segment.elems s) -> zlen (Segment.elems s) <= U32_MAX -> ssorted ps ->
  Forall (fun p => 0 <= p < zlen (Segment.elems s)) ps ->
  exists s', (match ps with [] => Ok s | _ => SegmentBuild.mask s ps end) = Ok s' /\ Segment.wf s' /\
    Segment.elems s' = unmasked ps (Segment.elems s).
Proof.
  intros Hs Hd Hl Hp Hb. destruct ps as [|p ps]; [|by apply mask_ok].
  exists s. split; [done|]. split; [done|]. unfold unmasked. rewrite filter_all; [by rewrite map_snd_enumerate|].
  apply Forall_forall. intros. apply not_in_true, not_elem_of_nil.
Qed.

(** The positions that fall in the first [n] values after [offset], relative to it, and the later ones. *)
Definition local_positions (offset n : Z) (ps : list Z) : list Z := map (fun p => p - offset) (List.filter (fun p => p <? offset + n) ps).
Definition later_positions (cutoff : Z) (ps : list Z) : list Z := List.filter (fun p => negb (p <? cutoff)) ps.

Lemma later_positions_ok offset cutoff ps : Forall (fun p => offset <= p <= U32_MAX) ps ->
  Forall (fun p => cutoff <= p <= U32_MAX) (later_positions cutoff ps).
Proof.
  intros Hp. apply Forall_forall. intros p [Hin Hge]%elem_of_filterb. rewrite Forall_forall in Hp. specialize (Hp p Hin).
  destruct (Z.ltb_spec p cutoff); [done|lia].
Qed.

Lemma unmasked_local offset ps l1 l2 : unmasked (map (fun p => p - offset) ps) (l1 ++ l2) =
  unmasked (local_positions offset (zlen l1) ps) l1 ++
  unmasked (map (fun p => p - (offset + zlen l1)) (later_positions (offset + zlen l1) ps)) l2.
Proof.
  rewrite unmasked_app, map_map. f_equal; apply unmasked_ext; intros i Hi; unfold local_positions, later_positions.
  - rewrite !list_elem_of_fmap. split; intros (p & -> & Hin); exists p; (split; [done|]).
    + apply elem_of_filterb. split; [done|]. apply Z.ltb_lt. lia.
    + by apply elem_of_filterb in Hin as [].
  - rewrite !list_elem_of_fmap. split; intros (p & -> & Hin); exists p; (split; [lia|]).
    + apply elem_of_filterb. split; [done|]. apply negb_true_iff, Z.ltb_ge. lia.
    + by apply elem_of_filterb in Hin as [].
Qed.

Lemma masked_local s offset ps : Segment.wf s -> NoDup (Segment.elems s) -> zlen (Segment.elems s) <= U32_MAX -> ssorted ps ->
  Forall (fun p => offset <= p <= U32_MAX) ps ->
  exists s', (match local_positions offset (zlen (Segment.elems s)) ps with
              | [] => Ok s
              | _ => SegmentBuild.mask s (local_positions offset (zlen (Segment.elems s)) ps) end) = Ok s' /\ Segment.wf s' /\
    Segment.elems s' = unmasked (local_positions offset (zlen (Segment.elems s)) ps) (Segment.elems s).
Proof.
  intros Hs Hd Hl Hsp Hp.
  destruct (masked_segment s (local_positions offset (zlen (Segment.elems s)) ps)) as (s' & Es & Hr);
    [done|done|done|by apply ssorted_map_sub, ssorted_filter| |exists s'; by destruct local_positions].
  apply Forall_map, Forall_forall. intros p [Hin Hlt%Z.ltb_lt]%elem_of_filterb. rewrite Forall_forall in Hp.
  specialize (Hp p Hin). lia.
Qed.

Lemma mask_loop_ok q offset ps : Forall Segment.wf q -> distinct q -> 0 <= offset ->
  offset + zlen (elems q) <= U32_MAX -> ssorted ps -> Forall (fun p => offset <= p <= U32_MAX) ps ->
  exists q', mask_loop offset offset ps q = Ok q' /\ Forall Segment.wf q' /\
    elems q' = unmasked (map (fun p => p - offset) ps) (elems q).
Proof.
  intros Hw. revert offset ps. induction Hw as [|s q Hs _ IH]; intros offset ps Hd Ho Hl Hsp Hp; [by exists []|].
  inversion Hd as [|? ? Hds Hdq]; subst. rewrite zlen_elems_cons in Hl. set (n := zlen (Segment.elems s)) in *.
  assert (0 <= n) by apply zlen_nonneg. pose proof (zlen_nonneg (elems q)).
  cbn [mask_loop]. rewrite Segment.seg_len_ok by done. mon. fold n. unwrap. rewrite take_positions_ok by done.
  destruct (masked_local s offset ps) as (s' & Es & Hws & Ees); [done|done|fold n; lia|done|done|]. fold n in Es, Ees.
  fold (local_positions offset n ps). rewrite Es. mon.
  destruct (IH (offset + n) (later_positions (offset + n) ps)) as (q' & Eq & Hwq & Eeq);
    [done|lia|lia|by apply ssorted_filter|by eapply later_positions_ok|].
  fold (later_positions (offset + n) ps). rewrite Eq. mon. exists (s' :: q'). split; [done|]. split; [by constructor|].
  by rewrite !elems_cons, unmasked_local, Ees, Eeq.
Qed.

Lemma elems_retain q : elems (List.filter (fun s => negb (zlen (Segment.elems s) =? 0)) q) = elems q.
Proof.
  induction q as [|s q IH]; [done|]. cbn [List.filter]. destruct (Z.eqb_spec (zlen (Segment.elems s)) 0) as [E|]; cbn [negb].
  - rewrite IH, elems_cons. apply (f_equal Z.to_nat) in E. unfold zlen in E. rewrite Nat2Z.id in E. apply nil_length_inv in E. by rewrite E.
  - by rewrite !elems_cons, IH.
Qed.

Lemma seq_mask_ok q ps : wf q -> distinct q -> zlen (elems q) <= U32_MAX -> ssorted ps -> Forall u32_ok ps ->
  exists q', mask q ps = Ok q' /\ wf q' /\ Forall (fun s => Segment.elems s <> []) q' /\
    elems q' = unmasked ps (elems q).
Proof.
  intros [Hw Hl] Hd Hu Hs Hp. unfold mask.
  destruct (mask_loop_ok q 0 ps) as (q' & -> & Hw' & Ee); [done|done|lia|lia|done|by eapply Forall_impl|]. mon.
  rewrite (filter_res_ok _ (fun s => negb (zlen (Segment.elems s) =? 0))).
  2: { eapply Forall_impl; [done|]. intros s Hs'. simpl. unfold Segment.is_empty. by rewrite Segment.seg_len_ok. }
  rewrite (map_ext _ (fun p => p)), map_id in Ee by (intros; lia).
  eexists. split; [done|]. rewrite elems_retain. split; [split|split; [|done]].
  - apply Forall_forall. intros s [Hin _]%elem_of_filterb. rewrite Forall_forall in Hw'. auto.
  - rewrite elems_retain, Ee. pose proof (sublist_length _ _ (unmasked_sublist ps (elems q))). unfold zlen in *. lia.
  - apply Forall_forall. intros s [_ Hne]%elem_of_filterb E. by rewrite E in Hne.
Qed.

(** ** Properties *)

(** C1: the queries of a sequence agree with the list of its ids: [iter] yields
    it, [len] is its length, [get] its element at an index or [None] past the
    end, and [row_id_range] bounds every id and is [None] only when there are
    none. *)
Theorem sequence_queries q : wf q ->
  iter q = Ok (elems q) /\ len q = Ok (zlen (elems q)) /\
  (forall i, u64_ok i -> get q i = Ok (get_opt (elems q) i)) /\
  match row_id_range q with
  | Some (lo, hi) => Forall (fun v => lo <= v <= hi) (elems q)
  | None => elems q = []
  end.
Proof.
  intros Hq. split; [apply seq_iter_ok, Hq|]. split; [by apply seq_len_ok|].
  split; [intros; by apply seq_get_ok|apply row_id_range_bounds, Hq].
Qed.

Lemma sequence_queries_witness : exists q,
  q = [Range_ (10 ..< 13); RangeWithHoles (20 ..< 25) (U64 [21; 22]); Array (U64 [9; 3])] /\
  iter q = Ok [10; 11; 12; 20; 23; 24; 9; 3] /\ get q 6 = Ok (Some 9) /\ row_id_range q = Some (3, 24).
Proof.
  eexists. split; [done|].
  edestruct (sequence_queries [Range_ (10 ..< 13); RangeWithHoles (20 ..< 25) (U64 [21; 22]); Array (U64 [9; 3])])
    as (Hi & _ & Hg & _).
  - split; [|vm_compute; done].
    constructor; [vm_compute; done|]. constructor; [|constructor; [|constructor]].
    + split; [vm_compute; done|]. split; [|split; [repeat constructor; lia|repeat constructor; simpl; lia]].
      split; [repeat constructor; uok; lia|vm_compute; done].
    + split; [repeat constructor; uok; lia|vm_compute; done].
  - split; [rewrite Hi; reflexivity|]. split; [rewrite Hg by (uok; lia); reflexivity|reflexivity].
Defined.

(** [slice(offset, len)] inside the sequence iterates over exactly the ids
    at those positions and announces their number; a non-empty slice that
    reaches past the end panics. *)
Theorem sequence_slice q offset n : wf q -> 0 <= offset -> 0 <= n -> offset + n <= U64_MAX ->
  (offset + n <= zlen (elems q) -> exists sl, slice q offset n = Ok sl /\
     slice_iter sl = Ok (zsub (elems q) offset (offset + n)) /\ known_size sl = Ok n) /\
  (zlen (elems q) < offset + n -> 0 < n -> slice q offset n = Panic).
Proof. intros. split; intros; [by apply seq_slice_ok|by apply slice_past]. Qed.

Lemma sequence_slice_witness :
  (exists sl, slice [Range_ (10 ..< 13); Range_ (20 ..< 22); Range_ (5 ..< 9)] 2 5 = Ok sl /\
     slice_iter sl = Ok [12; 20; 21; 5; 6] /\ known_size sl = Ok 5) /\
  slice [Range_ (10 ..< 13); Range_ (20 ..< 22); Range_ (5 ..< 9)] 7 3 = Panic.
Proof.
  assert (wf [Range_ (10 ..< 13); Range_ (20 ..< 22); Range_ (5 ..< 9)]) as Hq.
  { split; [repeat constructor; vm_compute; done|vm_compute; done]. }
  split.
  - destruct (sequence_slice _ 2 5 Hq) as [Hs _]; [lia..|]. apply Hs. vm_compute. done.
  - apply (sequence_slice _ 7 3 Hq); [lia..|vm_compute; done|lia].
Defined.

(** [extend] appends the ids of the other sequence, also where it fuses two
    adjoining ranges into one segment. *)
Theorem sequence_extend q o : wf q -> wf o -> zlen (elems q) + zlen (elems o) <= U64_MAX ->
  wf (extend q o) /\ iter (extend q o) = Ok (elems q ++ elems o).
Proof.
  intros [Hq _] [Ho _] Hl. destruct (extend_ok q o) as [Hw He]; [done..|].
  split; [split; [done|]; rewrite He, zlen_app; lia|]. by rewrite seq_iter_ok, He.
Qed.

Lemma sequence_extend_witness :
  extend [Range_ (10 ..< 13)] [Range_ (13 ..< 15); Range_ (3 ..< 4)] = [Range_ (10 ..< 15); Range_ (3 ..< 4)] /\
  iter (extend [Range_ (10 ..< 13)] [Range_ (13 ..< 15); Range_ (3 ..< 4)]) = Ok [10; 11; 12; 13; 14; 3].
Proof.
  split; [reflexivity|]. apply sequence_extend; [| |vm_compute; done];
    (split; [repeat constructor; vm_compute; done|vm_compute; done]).
Defined.

(** [try_from_iter] accepts exactly the duplicate-free vectors: those are
    encoded without loss and in their order, the others are rejected. *)
Theorem sequence_try_from_iter ids : Forall u64_ok ids -> zlen ids <= VEC64_MAX ->
  (NoDup ids -> exists q, try_from_iter ids = Ok q /\ wf q /\ iter q = Ok ids) /\
  (~ NoDup ids -> try_from_iter ids = Err InvalidInput).
Proof.
  intros Hu Hl. split; [|apply try_from_iter_err]. intros Hd.
  destruct (try_from_iter_ok ids) as (q & -> & [Hw ?] & He); [done..|]. exists q. by rewrite seq_iter_ok, He.
Qed.

Lemma sequence_try_from_iter_witness :
  (exists q, try_from_iter [7; 3; 5] = Ok q /\ iter q = Ok [7; 3; 5]) /\
  try_from_iter [7; 3; 7] = Err InvalidInput.
Proof.
  split.
  - destruct (sequence_try_from_iter [7; 3; 5]) as [(q & ? & _ & ?) _]; [..|by exists q].
    + repeat constructor; uok; lia.
    + vm_compute. done.
    + apply (bool_decide_unpack _). vm_compute. done.
  - apply sequence_try_from_iter; [repeat constructor; uok; lia|vm_compute; done|].
    apply (bool_decide_unpack _). vm_compute. done.
Defined.

(** C34: [delete] of a set of ids keeps exactly the other ids, in their order,
    whatever the order of the set and whether or not its ids are present. *)
Theorem sequence_delete q ids : wf q -> NoDup (elems q) -> zlen (elems q) <= VEC64_MAX -> zlen q <= ISIZE_MAX ->
  Forall u64_ok ids -> NoDup ids ->
  exists q', delete q ids = Ok q' /\ wf q' /\ iter q' = Ok (List.filter (not_in ids) (elems q)).
Proof.
  intros. destruct (seq_delete_ok q ids) as (q' & -> & [Hw ?] & He); try done; [by apply NoDup_distinct|].
  exists q'. by rewrite seq_iter_ok, He.
Qed.

Lemma sequence_delete_witness : exists q',
  delete [Range_ (10 ..< 13); Range_ (20 ..< 22); Range_ (5 ..< 9)] [6; 99; 12; 10; 8] = Ok q' /\
  iter q' = Ok [11; 20; 21; 5; 7].
Proof.
  destruct (sequence_delete [Range_ (10 ..< 13); Range_ (20 ..< 22); Range_ (5 ..< 9)] [6; 99; 12; 10; 8])
    as (q' & ? & _ & ?); [..|by exists q'].
  - split; [repeat constructor; vm_compute; done|vm_compute; done].
  - apply (bool_decide_unpack _). vm_compute. done.
  - vm_compute. done.
  - vm_compute. done.
  - repeat constructor; uok; lia.
  - apply (bool_decide_unpack _). vm_compute. done.
Defined.

(** [mask] drops the ids at the given increasing positions, ignores
    positions past the end, and leaves no empty segment behind. *)
Theorem sequence_mask q ps : wf q -> NoDup (elems q) -> zlen (elems q) <= U32_MAX -> ssorted ps -> Forall u32_ok ps ->
  exists q', mask q ps = Ok q' /\ wf q' /\ Forall (fun s => Segment.elems s <> []) q' /\
    iter q' = Ok (unmasked ps (elems q)).
Proof.
  intros. destruct (seq_mask_ok q ps) as (q' & -> & [Hw ?] & ? & He); try done; [by apply NoDup_distinct|].
  exists q'. by rewrite seq_iter_ok, He.
Qed.

Lemma sequence_mask_witness : exists q',
  mask [Range_ (10 ..< 13); Range_ (20 ..< 22); Range_ (5 ..< 9)] [1; 3; 4; 8; 30] = Ok q' /\
  iter q' = Ok [10; 12; 5; 6; 7].
Proof.
  destruct (sequence_mask [Range_ (10 ..< 13); Range_ (20 ..< 22); Range_ (5 ..< 9)] [1; 3; 4; 8; 30])
    as (q' & ? & _ & _ & ?); [..|by exists q'].
  - split; [repeat constructor; vm_compute; done|vm_compute; done].
  - apply (bool_decide_unpack _). vm_compute. done.
  - vm_compute. done.
  - repeat constructor.
  - repeat constructor; uok; lia.
Defined.
