(* ===== verification/SequenceCursor.v ===== *)
(** * Cursors over row-id sequences

    [RowIdSequenceCursor] of [lance-table/src/rowids.rs]: the reader a stream
    keeps across batches.  It remembers the segment it stands in, the rows
    before it and the bitmap position inside it, and rewinds when a selection
    moves backwards.  The theorems show that this state never changes an
    answer: every read agrees with indexing the list of ids. *)

From Stdlib Require Import ZArith Lia.
From stdpp Require Import base option list numbers sorting sets gmap.
From S2P Require Import Prelude Lists Bits Bitmap EncodedArray HoleRuns Segment SegmentBuild SegmentCursor Sequence.

(** ** Model *)

Record RowIdSequenceCursor := mkSeqCursor {
  segment_idx : Z;
  rows_passed : Z;
  segment_len : option Z;
  segment_cursor : SegmentCursorState;
  last_index : option Z
}.

Definition default : RowIdSequenceCursor := mkSeqCursor 0 0 None cursor_default None.

Definition advance_segment (c : RowIdSequenceCursor) : RowIdSequenceCursor :=
  mkSeqCursor (segment_idx c + 1)
    (rows_passed c +w match segment_len c with Some n => n | None => 0 end)
    None cursor_default (last_index c).

(** [self.segment_len.get_or_insert_with(|| segment.len())] *)
Definition get_or_insert_len (c : RowIdSequenceCursor) (s : U64Segment) : res (Z * RowIdSequenceCursor) :=
  match segment_len c with
  | Some n => Ok (n, c)
  | None =>
      n ← Segment.len s;
      Ok (n, mkSeqCursor (segment_idx c) (rows_passed c) (Some n) (segment_cursor c) (last_index c))
  end.

Definition with_segment_cursor (c : RowIdSequenceCursor) (st : SegmentCursorState) : RowIdSequenceCursor :=
  mkSeqCursor (segment_idx c) (rows_passed c) (segment_len c) st (last_index c).

Definition with_last_index (c : RowIdSequenceCursor) (index : Z) : RowIdSequenceCursor :=
  mkSeqCursor (segment_idx c) (rows_passed c) (segment_len c) (segment_cursor c) (Some index).

(** The test that resets the cursor when a read moves backwards. *)
Definition rewound (c : RowIdSequenceCursor) (index : Z) : RowIdSequenceCursor :=
  if (index <? rows_passed c) || match last_index c with Some last => index <? last | None => false end
  then default else c.

Fixpoint get_loop (fuel : nat) (c : RowIdSequenceCursor) (q : RowIdSequence) (index : Z)
    : res (option Z * RowIdSequenceCursor) :=
  match fuel with
  | O => Panic
  | S fuel =>
      match get_opt q (segment_idx c) with
      | None => Ok (None, c)
      | Some segment =>
          '(n, c) ← get_or_insert_len c segment;
          let local_index := index -w rows_passed c in
          if local_index <? n then
            '(v, st) ← Segment.cursor_get (segment_cursor c) segment local_index;
            Ok (v, with_segment_cursor c st)
          else get_loop fuel (advance_segment c) q index
      end
  end.

Definition get (c : RowIdSequenceCursor) (q : RowIdSequence) (index : Z) : res (option Z * RowIdSequenceCursor) :=
  get_loop (S (length q)) (with_last_index (rewound c index) index) q index.

(** The loop of [extend_range] and [extend_dense_range], which differ in the
    decoder of a segment. *)
Fixpoint extend_loop
    (decode : SegmentCursorState -> U64Segment -> Range -> list Z -> res (list Z * SegmentCursorState))
    (fuel : nat) (c : RowIdSequenceCursor) (q : RowIdSequence) (index selection_end : Z) (row_ids : list Z)
    : res (list Z * RowIdSequenceCursor) :=
  match fuel with
  | O => Panic
  | S fuel =>
      if negb (index <? selection_end) then Ok (row_ids, c) else
      match get_opt q (segment_idx c) with
      | None => Ok (row_ids, c)
      | Some segment =>
          '(n, c) ← get_or_insert_len c segment;
          let local_start := index -w rows_passed c in
          if local_start >=? n then extend_loop decode fuel (advance_segment c) q index selection_end row_ids
          else
            let count := Z.min (selection_end -w index) (n -w local_start) in
            let local_end := local_start +w count in
            '(row_ids, st) ← decode (segment_cursor c) segment (local_start ..< local_end) row_ids;
            let c := with_segment_cursor c st in
            let c := if local_end =? n then advance_segment c else c in
            extend_loop decode fuel c q (index +w count) selection_end row_ids
      end
  end.

Definition extend_with
    (decode : SegmentCursorState -> U64Segment -> Range -> list Z -> res (list Z * SegmentCursorState))
    (c : RowIdSequenceCursor) (q : RowIdSequence) (selection : Range) (row_ids : list Z)
    : res (list Z * RowIdSequenceCursor) :=
  if range_is_empty selection then Ok (row_ids, c) else
  extend_loop decode (S (S (length q)))
    (with_last_index (rewound c (start selection)) (end_ selection -w 1)) q (start selection) (end_ selection) row_ids.

Definition extend_range := extend_with SegmentCursor.extend_range.
Definition extend_dense_range := extend_with SegmentCursor.extend_dense_range.

(** [RowIdSequence::select], its iterator run to the end. *)
Fixpoint select_loop (q : RowIdSequence) (c : RowIdSequenceCursor) (last : option Z) (selection : list Z) : res (list Z) :=
  match selection with
  | [] => Ok []
  | index :: rest =>
      if match last with Some l => index <? l | None => false end then Panic else
      '(v, c) ← get c q index;
      vs ← select_loop q c (Some index) rest;
      Ok (match v with Some v => v :: vs | None => vs end)
  end.

Definition select (q : RowIdSequence) (selection : list Z) : res (list Z) := select_loop q default None selection.

Fixpoint select_with_cursor (q : RowIdSequence) (c : RowIdSequenceCursor) (selection : list Z)
    : res (list Z * RowIdSequenceCursor) :=
  match selection with
  | [] => Ok ([], c)
  | index :: rest =>
      '(v, c) ← get c q index;
      '(vs, c) ← select_with_cursor q c rest;
      Ok (match v with Some v => v :: vs | None => vs end, c)
  end.

Definition cursor_with_dense_range_expansion (q : RowIdSequence) : res (RowIdSequenceCursor * bool) :=
  match q with
  | [RangeWithBitmap _ _ as segment] =>
      n ← Segment.len segment;
      Ok (mkSeqCursor 0 0 (Some n) cursor_default None, Segment.use_dense_range_expansion segment n)
  | _ => Ok (default, false)
  end.

Definition select_range_with_cursor (q : RowIdSequence) (c : RowIdSequenceCursor) (selection : Range) :=
  extend_range c q selection [].

Definition select_dense_range_with_cursor (q : RowIdSequence) (c : RowIdSequenceCursor) (selection : Range) :=
  extend_dense_range c q selection [].

(** ** Invariant *)

(** The cursor stands at segment [segment_idx], after the rows of the segments
    before it; what it caches about that segment is true of it. *)
Definition cursor_at (q : RowIdSequence) (c : RowIdSequenceCursor) (pre post : list U64Segment) : Prop :=
  q = pre ++ post /\ segment_idx c = zlen pre /\ rows_passed c = zlen (elems pre) /\
  match post with
  | [] => segment_len c = None
  | s :: _ => match segment_len c with Some n => n = zlen (Segment.elems s) | None => True end /\
              Segment.cursor_ok (segment_cursor c) s
  end.

Definition cursor_inv (q : RowIdSequence) (c : RowIdSequenceCursor) : Prop := exists pre post, cursor_at q c pre post.

Lemma cursor_ok_default s : Segment.cursor_ok cursor_default s.
Proof. destruct s; try done. apply cursor_inv_default. Qed.

Lemma default_at q last : cursor_at q (mkSeqCursor 0 0 None cursor_default last) [] q.
Proof. repeat split. destruct q; [done|]. split; [done|apply cursor_ok_default]. Qed.

Lemma advance_at q c pre s post : wf q -> cursor_at q c pre (s :: post) -> segment_len c = Some (zlen (Segment.elems s)) ->
  cursor_at q (advance_segment c) (pre ++ [s]) post.
Proof.
  intros [_ Hl] (-> & Hi & Hr & _ & _) Hn. rewrite elems_app, zlen_app, zlen_elems_cons in Hl.
  pose proof (zlen_nonneg (elems pre)). pose proof (zlen_nonneg (elems post)). pose proof (zlen_nonneg (Segment.elems s)).
  unfold cursor_at, advance_segment. cbn [segment_idx rows_passed segment_len segment_cursor].
  rewrite Hn, Hi, Hr, <- app_assoc, elems_app, elems_cons, app_nil_r, !zlen_app, zlen_cons, zlen_nil. unwrap.
  repeat split. destruct post; [done|]. split; [done|apply cursor_ok_default].
Qed.

(** The length of the current segment, cached or computed. *)
Lemma get_or_insert_len_ok q c pre s post : wf q -> cursor_at q c pre (s :: post) ->
  exists c', get_or_insert_len c s = Ok (zlen (Segment.elems s), c') /\ cursor_at q c' pre (s :: post) /\
    segment_len c' = Some (zlen (Segment.elems s)) /\ rows_passed c' = rows_passed c /\ last_index c' = last_index c.
Proof.
  intros [Hw _] (-> & Hi & Hr & Hn & Hc). unfold get_or_insert_len. destruct (segment_len c) as [n|] eqn:E.
  - subst n. exists c. unfold cursor_at. rewrite E. done.
  - apply Forall_app in Hw as [_ Hw]. inversion Hw; subst. rewrite Segment.seg_len_ok by done. mon.
    eexists. split; [done|]. done.
Qed.

Lemma with_segment_cursor_at q c pre s post st : cursor_at q c pre (s :: post) -> Segment.cursor_ok st s ->
  cursor_at q (with_segment_cursor c st) pre (s :: post).
Proof. intros (? & ? & ? & ? & ?) Hst. done. Qed.

(** The rewind leaves the cursor at or before the row it is asked for. *)
Lemma rewound_at q c index last : cursor_inv q c -> 0 <= index ->
  exists pre post, cursor_at q (with_last_index (rewound c index) last) pre post /\ zlen (elems pre) <= index.
Proof.
  intros (pre & post & Hc) Hi. unfold rewound. destruct (Z.ltb_spec index (rows_passed c)) as [|Hge]; cbn [orb].
  - exists [], q. split; [apply default_at|change (zlen (elems [])) with 0; lia].
  - destruct (last_index c) as [l|]; [destruct (index <? l)|].
    1: exists [], q; split; [apply default_at|change (zlen (elems [])) with 0; lia].
    all: exists pre, post; split; [done|]; destruct Hc as (_ & _ & Hr & _); lia.
Qed.

Lemma get_opt_current q c pre post : cursor_at q c pre post -> get_opt q (segment_idx c) = head post.
Proof.
  intros (-> & -> & _). rewrite get_opt_app, Z.ltb_irrefl, Z.sub_diag. by destruct post.
Qed.

Lemma get_past (l1 l2 : list Z) i : zlen l1 <= i -> get_opt (l1 ++ l2) i = get_opt l2 (i - zlen l1).
Proof. intros. rewrite get_opt_app. by rewrite (proj2 (Z.ltb_ge _ _)). Qed.

Lemma zlen_elems_snoc pre s : zlen (elems (pre ++ [s])) = zlen (elems pre) + zlen (Segment.elems s).
Proof. by rewrite elems_app, elems_cons, app_nil_r, zlen_app. Qed.

Lemma scur_get_loop_ok q fuel c pre post index : wf q -> cursor_at q c pre post -> zlen (elems pre) <= index -> u64_ok index ->
  (length post < fuel)%nat ->
  exists c', get_loop fuel c q index = Ok (get_opt (elems q) index, c') /\ cursor_inv q c'.
Proof.
  intros Hq. revert c pre post. induction fuel as [|fuel IH]; intros c pre post Hc Hi Hu Hf; [lia|].
  cbn [get_loop]. rewrite (get_opt_current q c pre post Hc). destruct post as [|s post]; cbn [head].
  { exists c. split; [|by exists pre, []]. destruct Hc as (-> & _). rewrite app_nil_r.
    by rewrite (proj2 (get_opt_None _ _)) by lia. }
  destruct (get_or_insert_len_ok q c pre s post Hq Hc) as (c' & -> & Hc' & Hn & Hr & _). mon.
  pose proof Hc as (Eq & _ & Ep & _). pose proof Hc' as (_ & _ & _ & _ & Hst). rewrite Hr, Ep.
  pose proof (zlen_nonneg (elems pre)). pose proof (zlen_nonneg (Segment.elems s)). unwrap.
  destruct (Z.ltb_spec (index - zlen (elems pre)) (zlen (Segment.elems s))).
  - destruct (Segment.cursor_get_ok (segment_cursor c') s (index - zlen (elems pre))) as (st & -> & Hst'); [|done|uok; lia|].
    { destruct Hq as [Hw _]. rewrite Eq in Hw. apply Forall_app in Hw as [_ Hw]. by inversion Hw. }
    mon. eexists. split; [|exists pre, (s :: post); by apply with_segment_cursor_at].
    do 2 f_equal. rewrite Eq, elems_app, get_past, elems_cons, get_opt_app by done.
    by rewrite (proj2 (Z.ltb_lt _ _)).
  - apply (IH _ (pre ++ [s]) post); [by apply advance_at| |done|simpl in Hf; lia].
    rewrite zlen_elems_snoc. lia.
Qed.

Lemma scur_get_ok q c index : wf q -> cursor_inv q c -> u64_ok index ->
  exists c', get c q index = Ok (get_opt (elems q) index, c') /\ cursor_inv q c'.
Proof.
  intros Hq Hc Hi. destruct (rewound_at q c index index Hc) as (pre & post & Hc' & Hp); [uok; lia|].
  apply (scur_get_loop_ok q _ _ pre post); try done. destruct Hc' as (-> & _). rewrite length_app. lia.
Qed.

(** ** Ranges *)

Section Extend.
Context (decode : SegmentCursorState -> U64Segment -> Range -> list Z -> res (list Z * SegmentCursorState)).
(** The decoder appends the selected ids of a segment. *)
Context (decode_ok : forall st s sel values, Segment.wf s -> Segment.cursor_ok st s -> selection_ok sel ->
  exists st', decode st s sel values = Ok (appended s sel values, st') /\ Segment.cursor_ok st' s).

(** The ids of rows [a..b] that exist. *)
Definition rows (q : RowIdSequence) (a b : Z) : list Z := zsub (elems q) a (Z.min b (zlen (elems q))).

Lemma rows_nil q a b : b <= a \/ zlen (elems q) <= a -> rows q a b = [].
Proof. intros. apply zsub_nil. lia. Qed.

(** Reading inside one segment. *)
Lemma rows_segment pre s post a b : zlen (elems pre) <= a <= b -> b <= zlen (elems pre) + zlen (Segment.elems s) ->
  rows (pre ++ s :: post) a b = zsub (Segment.elems s) (a - zlen (elems pre)) (b - zlen (elems pre)).
Proof.
  intros Ha Hb. unfold rows. rewrite elems_app, elems_cons, !zlen_app.
  pose proof (zlen_nonneg (elems post)). pose proof (zlen_nonneg (elems pre)). rewrite Z.min_l by lia.
  rewrite <- (zsub_app_l (Segment.elems s) (elems post)) by lia. rewrite <- (zsub_app_r (elems pre) (Segment.elems s ++ elems post) (a - zlen (elems pre))) by lia.
  f_equal; lia.
Qed.

Lemma rows_app q a b c : 0 <= a <= b -> b <= c -> rows q a c = rows q a b ++ rows q b c.
Proof.
  intros. unfold rows. destruct (Z.le_gt_cases (zlen (elems q)) a).
  { by rewrite !zsub_nil by lia. }
  destruct (Z.le_gt_cases b (zlen (elems q))).
  - rewrite (Z.min_l b) by lia. apply zsub_app; lia.
  - rewrite !Z.min_r by lia. by rewrite (zsub_nil _ b), app_nil_r by lia.
Qed.

Lemma extend_exit fuel c q index e values : e <= index ->
  extend_loop decode (S fuel) c q index e values = Ok (values, c).
Proof. intros. cbn [extend_loop]. by rewrite (proj2 (Z.ltb_ge _ _)). Qed.

Lemma scur_extend_loop_ok q fuel c pre post index e values : wf q -> cursor_at q c pre post ->
  zlen (elems pre) <= index -> u64_ok index -> u64_ok e -> (S (length post) < fuel)%nat ->
  exists c', extend_loop decode fuel c q index e values = Ok (values ++ rows q index e, c') /\ cursor_inv q c'.
Proof.
  intros Hq. revert c pre post index values. induction fuel as [|fuel IH]; intros c pre post index values Hc Hp Hi He Hf; [lia|].
  cbn [extend_loop]. destruct (Z.ltb_spec index e); cbn [negb].
  2: { exists c. rewrite rows_nil, app_nil_r by lia. split; [done|by exists pre, post]. }
  rewrite (get_opt_current q c pre post Hc). destruct post as [|s post]; cbn [head].
  { exists c. split; [|by exists pre, []]. destruct Hc as (-> & _). rewrite app_nil_r in *. by rewrite rows_nil, app_nil_r by lia. }
  destruct (get_or_insert_len_ok q c pre s post Hq Hc) as (c' & -> & Hc' & Hn & Hr & _). mon.
  pose proof Hc as (Eq & _ & Ep & _). pose proof Hc' as (_ & _ & _ & _ & Hst). rewrite Hr, Ep.
  pose proof (zlen_nonneg (elems pre)). pose proof (zlen_nonneg (Segment.elems s)).
  assert (zlen (elems pre) + zlen (Segment.elems s) <= U64_MAX) as Hlen.
  { destruct Hq as [_ Hl]. rewrite Eq, elems_app, elems_cons, !zlen_app in Hl. pose proof (zlen_nonneg (elems post)). lia. }
  unwrap. rewrite Z.geb_leb. set (ls := index - zlen (elems pre)).
  assert (cursor_at q (advance_segment c') (pre ++ [s]) post) as Hadv by (by apply advance_at).
  destruct (Z.leb_spec (zlen (Segment.elems s)) ls).
  { apply (IH _ (pre ++ [s]) post); [done|rewrite zlen_elems_snoc; lia|done|done|simpl in Hf; lia]. }
  unwrap. set (count := Z.min (e - index) (zlen (Segment.elems s) - ls)).
  assert (0 < count <= zlen (Segment.elems s) - ls /\ (count = e - index \/ ls + count = zlen (Segment.elems s) /\ count <= e - index))
    as Hcount by lia.
  clearbody count. uok. unwrap.
  destruct (decode_ok (segment_cursor c') s (ls ..< ls + count) values) as (st & -> & Hst'); [|done|split; uok; simpl; lia|].
  { destruct Hq as [Hw _]. rewrite Eq in Hw. apply Forall_app in Hw as [_ Hw]. by inversion Hw. }
  mon. unfold appended. cbn [start end_]. rewrite Z.min_l by lia.
  assert (rows q index (index + count) = zsub (Segment.elems s) ls (ls + count)) as <-.
  { rewrite Eq, rows_segment by lia. f_equal. lia. }
  rewrite (rows_app q index (index + count) e), app_assoc by lia.
  destruct (Z.eqb_spec (ls + count) (zlen (Segment.elems s))).
  - apply (IH _ (pre ++ [s]) post); [|rewrite zlen_elems_snoc; lia|lia|lia|simpl in Hf; lia].
    apply advance_at; [done|by apply with_segment_cursor_at|done].
  - destruct fuel; [simpl in Hf; lia|]. rewrite extend_exit by lia. eexists.
    rewrite (rows_nil q (index + count)), app_nil_r by lia. split; [done|].
    exists pre, (s :: post). by apply with_segment_cursor_at.
Qed.

Lemma extend_with_ok q c sel values : wf q -> cursor_inv q c -> selection_ok sel ->
  exists c', extend_with decode c q sel values = Ok (values ++ rows q (start sel) (end_ sel), c') /\ cursor_inv q c'.
Proof.
  intros Hq Hc [Hs He]. unfold extend_with, range_is_empty. destruct (Z.ltb_spec (start sel) (end_ sel)); cbn [negb].
  - destruct (rewound_at q c (start sel) (end_ sel -w 1) Hc) as (pre & post & Hc' & Hp); [uok; lia|].
    apply (scur_extend_loop_ok q _ _ pre post); try done. destruct Hc' as (-> & _). rewrite length_app. lia.
  - exists c. rewrite rows_nil, app_nil_r by lia. done.
Qed.
End Extend.

(** ** Selections *)

Lemma select_with_cursor_ok q c sel : wf q -> cursor_inv q c -> Forall u64_ok sel ->
  exists c', select_with_cursor q c sel = Ok (omap (get_opt (elems q)) sel, c') /\ cursor_inv q c'.
Proof.
  intros Hq Hc Hs. revert c Hc. induction Hs as [|i sel Hi _ IH]; intros c Hc; [by exists c|].
  cbn [select_with_cursor]. destruct (scur_get_ok q c i Hq Hc Hi) as (c1 & -> & Hc1). mon.
  destruct (IH c1 Hc1) as (c2 & -> & Hc2). mon. exists c2. split; [|done]. simpl. by destruct (get_opt (elems q) i).
Qed.

(** A selection is accepted when it never decreases. *)
Fixpoint nondecreasing (last : option Z) (sel : list Z) : bool :=
  match sel with
  | [] => true
  | i :: sel => match last with Some l => l <=? i | None => true end && nondecreasing (Some i) sel
  end.

Lemma scur_select_loop_ok q c last sel : wf q -> cursor_inv q c -> Forall u64_ok sel ->
  select_loop q c last sel = if nondecreasing last sel then Ok (omap (get_opt (elems q)) sel) else Panic.
Proof.
  intros Hq Hc Hs. revert c last Hc. induction Hs as [|i sel Hi _ IH]; intros c last Hc; [done|].
  cbn [select_loop nondecreasing]. destruct (scur_get_ok q c i Hq Hc Hi) as (c1 & E & Hc1).
  replace (match last with Some l => i <? l | None => false end) with (negb (match last with Some l => l <=? i | None => true end))
    by (destruct last; [rewrite Z.ltb_antisym|]; done).
  destruct (match last with Some l => l <=? i | None => true end); cbn [negb andb]; [|done].
  rewrite E. mon. rewrite IH by done. destruct (nondecreasing (Some i) sel); mon; [|done].
  simpl. by destruct (get_opt (elems q) i).
Qed.

Lemma dense_cursor_inv q : wf q ->
  exists c dense, cursor_with_dense_range_expansion q = Ok (c, dense) /\ cursor_inv q c.
Proof.
  intros [Hw _]. assert (cursor_inv q default) as Hd by (exists [], q; apply default_at).
  destruct q as [|[r|r h|r b|r rs|a|a] [|s q]]; try (do 2 eexists; split; [done|exact Hd]).
  unfold cursor_with_dense_range_expansion. apply Forall_inv in Hw as Hs. rewrite Segment.seg_len_ok by done. mon.
  do 2 eexists. split; [done|]. exists [], [RangeWithBitmap r b]. repeat split; [|apply cursor_inv_default..].
  done.
Qed.

(** ** Properties *)

(** C35: a cursor never changes what is read.  From any state it can be in,
    starting with the fresh cursor and the one seeded for dense expansion, a
    single read, a batch read through the sparse decoder and one through the
    dense decoder return exactly the ids at those rows, ignoring rows past the
    end, and leave the cursor in such a state again. *)
Theorem sequence_cursor q : wf q ->
  cursor_inv q default /\
  (exists c dense, cursor_with_dense_range_expansion q = Ok (c, dense) /\ cursor_inv q c) /\
  (forall c, cursor_inv q c ->
     (forall i, u64_ok i -> exists c', get c q i = Ok (get_opt (elems q) i, c') /\ cursor_inv q c') /\
     (forall sel values, selection_ok sel ->
        (exists c', extend_range c q sel values = Ok (values ++ rows q (start sel) (end_ sel), c') /\ cursor_inv q c') /\
        (exists c', extend_dense_range c q sel values = Ok (values ++ rows q (start sel) (end_ sel), c') /\ cursor_inv q c'))).
Proof.
  intros Hq. split; [exists [], q; apply default_at|]. split; [by apply dense_cursor_inv|].
  intros c Hc. split; [intros; by apply scur_get_ok|]. intros sel values Hs.
  split; apply extend_with_ok; try done; intros; [by apply SegmentCursor.extend_range_ok|by apply SegmentCursor.extend_dense_range_ok].
Qed.

Lemma sequence_cursor_witness : exists c1 c2,
  extend_range default [Range_ (10 ..< 13); Range_ (20 ..< 22); Range_ (5 ..< 9)] (2 ..< 6) [] = Ok ([12; 20; 21; 5], c1) /\
  get c1 [Range_ (10 ..< 13); Range_ (20 ..< 22); Range_ (5 ..< 9)] 1 = Ok (Some 11, c2).
Proof.
  destruct (sequence_cursor [Range_ (10 ..< 13); Range_ (20 ..< 22); Range_ (5 ..< 9)]) as (Hd & _ & Hc).
  { split; [repeat constructor; vm_compute; done|vm_compute; done]. }
  destruct (Hc default Hd) as [_ He]. destruct (He (2 ..< 6) []) as [(c1 & E1 & Hc1) _]; [split; uok; simpl; lia|].
  destruct (Hc c1 Hc1) as [Hg _]. destruct (Hg 1) as (c2 & E2 & _); [uok; lia|].
  exists c1, c2. split; [exact E1|exact E2].
Defined.

(** [select] returns the ids at a non-decreasing selection, skipping the
    offsets past the end, and panics on a selection that decreases;
    [select_with_cursor] accepts any order. *)
Theorem sequence_select q sel : wf q -> Forall u64_ok sel ->
  (select q sel = if nondecreasing None sel then Ok (omap (get_opt (elems q)) sel) else Panic) /\
  (forall c, cursor_inv q c ->
     exists c', select_with_cursor q c sel = Ok (omap (get_opt (elems q)) sel, c') /\ cursor_inv q c').
Proof.
  intros Hq Hs. split; [|intros; by apply select_with_cursor_ok].
  apply scur_select_loop_ok; try done. exists [], q. apply default_at.
Qed.

Lemma sequence_select_witness :
  select [Range_ (10 ..< 13); Range_ (20 ..< 22)] [0; 0; 3; 9] = Ok [10; 10; 20] /\
  select [Range_ (10 ..< 13); Range_ (20 ..< 22)] [3; 1] = Panic.
Proof.
  assert (wf [Range_ (10 ..< 13); Range_ (20 ..< 22)]) as Hq
    by (split; [repeat constructor; vm_compute; done|vm_compute; done]).
  split.
  - destruct (sequence_select [Range_ (10 ..< 13); Range_ (20 ..< 22)] [0; 0; 3; 9] Hq) as [E _];
      [repeat constructor; uok; lia|exact E].
  - destruct (sequence_select [Range_ (10 ..< 13); Range_ (20 ..< 22)] [3; 1] Hq) as [E _];
      [repeat constructor; uok; lia|exact E].
Defined.
