(* ===== verification/ChunkEncoder.v ===== *)
(** * Re-encoding a row-id sequence

    [RowIdSequence::reencode] and its [ChunkEncoder]
    ([lance-table/src/rowids.rs]): a sequence is cut into runs of consecutive
    ids, and each 64K chunk with holes is written in the cheapest wire kind.
    The theorems show that the ids and their order never change, and that the
    output never lets a reader fold [Range] runs across a gap. *)

From Stdlib Require Import ZArith Lia.
From stdpp Require Import base option list numbers sorting sets gmap.
From S2P Require Import Prelude Lists Bits Bitmap EncodedArray HoleRuns Segment SegmentBuild SegmentRuns Sequence.

(** ** Model *)

Record ChunkEncoder := mkEncoder {
  segments : list U64Segment;
  pending : option (Range * bool);
  chunk : list Range;
  last_end : option Z;
  new_piece : bool
}.

Definition default : ChunkEncoder := mkEncoder [] None [] None false.

Definition piece_breaker (start : Z) : U64Segment :=
  RangeWithHoles (start ..< start +w 1) (EncodedArray.from_vec []).

Definition flush_pending (e : ChunkEncoder) : ChunkEncoder :=
  match pending e with
  | None => e
  | Some (range, opens_piece) =>
      let segs := if opens_piece : bool then segments e ++ [piece_breaker (start range)] else segments e in
      let range := if opens_piece then start range +w 1 ..< end_ range else range in
      let segs := if range_is_empty range then segs else segs ++ [Range_ range] in
      mkEncoder segs None (chunk e) (last_end e) (new_piece e)
  end.

Definition push_range (e : ChunkEncoder) (run : Range) : ChunkEncoder :=
  let fresh :=
    let e := flush_pending e in
    mkEncoder (segments e) (Some (run, new_piece e)) (chunk e) (last_end e) false in
  match pending e with
  | Some (p, o) =>
      if end_ p =? start run
      then mkEncoder (segments e) (Some (start p ..< end_ run, o)) (chunk e) (last_end e) (new_piece e)
      else fresh
  | None => fresh
  end.

(** The ids between consecutive runs. *)
Definition chunk_holes (runs : list Range) : list Z :=
  flat_map (fun pair => range_list (end_ (fst pair) ..< start (snd pair))) (windows2 runs).

(** What is left of a chunk after its breaker. *)
Definition rest_segment (rest : list Range) : res U64Segment :=
  match rest with
  | [only] => Ok (Range_ only)
  | _ => unwrap_opt (from_sorted_ranges rest)
  end.

(** The plain [Range] segments of a chunk. *)
Definition chunk_ranges (first : Range) (runs : list Range) (opens_piece : bool) : res (list U64Segment) :=
  if opens_piece then
    let head := start first +w 1 ..< end_ first in
    let rest := if range_is_empty head then tail runs else head :: tail runs in
    s ← rest_segment rest;
    Ok [piece_breaker (start first); s]
  else s ← unwrap_opt (from_sorted_ranges runs); Ok [s].

(** The cheapest wire kind for the runs of a chunk with holes. *)
Definition chunk_segments (first last : Range) (runs : list Range) (opens_piece : bool) : res (list U64Segment) :=
  let range := start first ..< end_ last in
  let span := end_ last -w start first in
  let count := Sequence.sum64 (map (fun run => end_ run -w start run) runs) in
  let range_bytes := wrap64 (16 * zlen runs) +w (if opens_piece then 24 else 0) in
  let holes_bytes := 24 +w wrap64 (2 * (span -w count)) in
  let bitmap_bytes := 24 +w div_ceil span 8 in
  let array_bytes := 24 +w wrap64 (2 * count) in
  let smallest := Z.min (Z.min (Z.min range_bytes holes_bytes) bitmap_bytes) array_bytes in
  if smallest =? holes_bytes then Ok [RangeWithHoles range (EncodedArray.from_vec (chunk_holes runs))]
  else if smallest =? bitmap_bytes then
    full ← Bitmap.new_full span;
    bitmap ← fold_res (fun b pair =>
        Bitmap.clear_range b (end_ (fst pair) -w start first ..< start (snd pair) -w start first))
      full (windows2 runs);
    Ok [RangeWithBitmap range bitmap]
  else if smallest =? range_bytes then chunk_ranges first runs opens_piece
  else Ok [SortedArray (EncodedArray.from_vec (flat_map range_list runs))].

Definition flush_chunk (e : ChunkEncoder) : res ChunkEncoder :=
  let runs := chunk e in
  let e := mkEncoder (segments e) (pending e) [] (last_end e) (new_piece e) in
  match runs, list.last runs with
  | [], _ | _, None => Ok e
  | [only], _ => Ok (push_range e only)
  | first :: _, Some last =>
      let e := flush_pending e in
      segs ← chunk_segments first last runs (new_piece e);
      Ok (mkEncoder (segments e ++ segs) (pending e) (chunk e) (last_end e) false)
  end.

(** The chunk is written before a run of another chunk, or one behind it. *)
Definition flush_before (e : ChunkEncoder) (run : Range) : res ChunkEncoder :=
  match chunk e, list.last (chunk e) with
  | first :: _, Some last =>
      let same_chunk := start first / REENCODE_CHUNK_IDS =? start run / REENCODE_CHUNK_IDS in
      if negb same_chunk || (start run <? end_ last) then flush_chunk e else Ok e
  | _, _ => Ok e
  end.

(** A run that lies within one chunk. *)
Definition push_clipped (e : ChunkEncoder) (run : Range) : res ChunkEncoder :=
  e ← flush_before e run;
  let opens := match last_end e with
               | Some e => (start run >? e) && (start run -w e >? REENCODE_CHUNK_IDS)
               | None => false
               end in
  let new_piece := if opens then true else new_piece e in
  let chunk :=
    match list.last (chunk e) with
    | Some last =>
        if end_ last =? start run then removelast (chunk e) ++ [start last ..< end_ run]
        else chunk e ++ [run]
    | None => chunk e ++ [run]
    end in
  Ok (mkEncoder (segments e) (pending e) chunk (Some (end_ run)) new_piece).

Fixpoint push_run_loop (fuel : nat) (e : ChunkEncoder) (start run_end : Z) : res ChunkEncoder :=
  match fuel with
  | O => Panic
  | S fuel =>
      if start <? run_end then
        let chunk_end := saturating_add (Z.lor start (REENCODE_CHUNK_IDS - 1)) 1 in
        let stop := Z.min run_end chunk_end in
        e ← push_clipped e (start ..< stop);
        push_run_loop fuel e stop run_end
      else Ok e
  end.

(** One iteration per chunk the run meets. *)
Definition push_fuel (run : Range) : nat := Z.to_nat (Z.max 0 (end_ run - start run) / REENCODE_CHUNK_IDS + 3).

Definition push_run (e : ChunkEncoder) (run : Range) : res ChunkEncoder :=
  push_run_loop (push_fuel run) e (start run) (end_ run).

Definition push_verbatim (e : ChunkEncoder) (segment : U64Segment) : res ChunkEncoder :=
  e ← flush_chunk e;
  let e := flush_pending e in
  Ok (mkEncoder (segments e ++ [segment]) (pending e) (chunk e) None false).

Definition finish (e : ChunkEncoder) : res (list U64Segment) :=
  e ← flush_chunk e; Ok (segments (flush_pending e)).

(** One segment of the sequence [reencode] walks. *)
Definition push_segment (e : ChunkEncoder) (s : U64Segment) : res ChunkEncoder :=
  match s with
  | Array _ => push_verbatim e s
  | _ => rs ← SegmentRuns.runs s; fold_res push_run e rs
  end.

Definition reencode (q : RowIdSequence) : res RowIdSequence :=
  if match row_id_range q with Some range => snd range =? U64_MAX | None => false end then Ok q
  else e ← fold_res push_segment default q; finish e.

(** ** The runs of a chunk *)

(** Sorted, non-adjacent runs inside the [k]-th chunk. *)
Definition chunk_ok (k : Z) (rs : list Range) : Prop :=
  0 <= k /\ ranges_ok (REENCODE_CHUNK_IDS * k) rs /\ Forall (fun r => end_ r <= REENCODE_CHUNK_IDS * (k + 1)) rs.

(** Between the first and the last run, an id is in a run or in a hole. *)
Lemma chunk_holes_spec lo r rs last : ranges_ok lo (r :: rs) -> list.last (r :: rs) = Some last ->
  ssorted (chunk_holes (r :: rs)) /\ Forall (fun h => end_ r <= h < start last) (chunk_holes (r :: rs)) /\
  forall v, start r <= v < end_ last -> v ∈ expand (r :: rs) <-> v ∉ chunk_holes (r :: rs).
Proof.
  revert lo r. induction rs as [|r' rs IH]; intros lo r Hr Hl.
  - simpl in Hl. injection Hl as <-. split; [constructor|]. split; [constructor|]. intros v Hv. simpl.
    rewrite app_nil_r, elem_of_range_list. split; [intros _; apply not_elem_of_nil|done].
  - destruct Hr as (H1 & H2 & H3). rewrite list.last_cons_cons in Hl. destruct (IH _ _ H3 Hl) as (Hs & Hb & Hm).
    destruct H3 as (H3 & H4 & H5). assert (ranges_ok (start r') (r' :: rs)) as H3' by (simpl; split; [lia|done]).
    pose proof (ranges_last _ _ _ H3' Hl) as (Hl1 & _).
    assert (forall h, h ∈ chunk_holes (r' :: rs) -> end_ r' <= h) as Hb'.
    { intros h Hh. rewrite Forall_forall in Hb. specialize (Hb h Hh). simpl in Hb. lia. }
    assert (forall v, v ∈ expand (r' :: rs) -> start r' <= v) as He.
    { pose proof (expand_bounds _ _ H3') as He. rewrite Forall_forall in He. apply He. }
    change (chunk_holes (r :: r' :: rs)) with (range_list (end_ r ..< start r') ++ chunk_holes (r' :: rs)).
    change (expand (r :: r' :: rs)) with (range_list r ++ expand (r' :: rs)). split; [|split].
    + apply ssorted_app. split; [apply ssorted_range_list|]. split; [done|].
      intros x y Hx%elem_of_range_list Hy%Hb'. simpl in *. lia.
    + apply Forall_app. split.
      * apply Forall_forall. intros x Hx%elem_of_range_list. simpl in *. lia.
      * eapply Forall_impl; [done|]. simpl. intros. lia.
    + intros v Hv. rewrite !elem_of_app, !elem_of_range_list. cbn [start end_].
      destruct (Z.le_gt_cases (start r') v) as [Hle|Hgt].
      * specialize (Hm v). intuition lia.
      * split.
        -- intros [?|Hin%He] [?|Hh%Hb']; lia.
        -- intros Hn. left. destruct (Z.lt_ge_cases v (end_ r)); [lia|]. destruct Hn. left. lia.
Qed.

(** ** Segments for a chunk *)

Lemma bounded_length l a b : ssorted l -> Forall (fun v => a <= v < b) l -> a <= b -> zlen l <= b - a.
Proof.
  intros Hs Hb Hab. change (b - a) with (end_ (a ..< b) - start (a ..< b)). rewrite <- zlen_range_list by done. unfold zlen. apply inj_le.
  apply submseteq_length, NoDup_submseteq; [by apply ssorted_NoDup|]. intros v Hv.
  rewrite Forall_forall in Hb. apply elem_of_range_list. auto.
Qed.

Section Chunk.
Context (r last : Range) (rs : list Range).
Context (Hr : ranges_ok (start r) (r :: rs)) (H0 : 0 <= start r).
Context (Hl : list.last (r :: rs) = Some last) (Hspan : end_ last - start r <= REENCODE_CHUNK_IDS).

Lemma chunk_member v : v ∈ expand (r :: rs) <-> start r <= v < end_ last /\ (v ∉ chunk_holes (r :: rs)).
Proof using Hr Hl.
  destruct (chunk_holes_spec _ r rs last Hr Hl) as (_ & _ & Hm).
  destruct (last_end_bounds _ _ last Hr Hl) as (_ & _ & He). pose proof (expand_bounds _ _ Hr) as Hb.
  rewrite Forall_forall in He, Hb. split; [|intros []; by apply Hm].
  intros Hv. specialize (He v Hv). specialize (Hb v Hv). simpl in *. split; [lia|]. apply Hm; [lia|done].
Qed.

Lemma chunk_bounds : start r < end_ last <= U64_MAX /\ Forall (fun h => start r <= h < end_ last) (chunk_holes (r :: rs)).
Proof using Hr Hl.
  destruct (chunk_holes_spec _ r rs last Hr Hl) as (_ & Hb & _). destruct (last_end_bounds _ _ last Hr Hl) as (H1 & H2 & _).
  split; [lia|]. destruct Hr as (H3 & _). eapply Forall_impl; [done|]. simpl. intros. lia.
Qed.

Lemma encode_holes :
  let s := RangeWithHoles (start r ..< end_ last) (EncodedArray.from_vec (chunk_holes (r :: rs))) in
  Segment.wf s /\ Segment.elems s = expand (r :: rs).
Proof using Hr H0 Hl Hspan.
  intros s. destruct (chunk_holes_spec _ r rs last Hr Hl) as (Hs & _ & _). destruct chunk_bounds as (H1 & Hb).
  pose proof (bounded_length _ _ _ Hs Hb ltac:(lia)) as Hlen. unfold REENCODE_CHUNK_IDS in *.
  destruct (EncodedArray.from_vec_wf (chunk_holes (r :: rs))) as (Hw & Ee & _).
  { eapply Forall_impl; [apply Hb|]. simpl. intros. uok. lia. }
  { lia. }
  split.
  - unfold s, Segment.wf, range_ok. rewrite Ee. cbn [start end_]. split; [lia|done].
  - apply ssorted_ext; [apply ssorted_filter, ssorted_range_list|by eapply expand_ssorted|]. intros v. subst s.
    cbn [Segment.elems]. by rewrite Ee, elem_of_filterb, elem_of_range_list, not_in_true, chunk_member.
Qed.

Lemma encode_array :
  let s := SortedArray (EncodedArray.from_vec (flat_map range_list (r :: rs))) in
  Segment.wf s /\ Segment.elems s = expand (r :: rs).
Proof using Hr H0 Hl Hspan.
  intros s. pose proof (expand_ssorted _ _ Hr) as Hs. destruct chunk_bounds as (H1 & _).
  assert (Forall (fun v => start r <= v < end_ last) (expand (r :: rs))) as Hb.
  { apply Forall_forall. intros v Hv%chunk_member. apply Hv. }
  pose proof (bounded_length _ _ _ Hs Hb ltac:(lia)) as Hlen. unfold REENCODE_CHUNK_IDS in *.
  destruct (EncodedArray.from_vec_wf (expand (r :: rs))) as (Hw & Ee & _); [|lia|].
  { eapply Forall_impl; [apply Hb|]. simpl. intros. uok. lia. }
  subst s. cbn [Segment.wf Segment.elems]. unfold expand in *. rewrite Ee. done.
Qed.

(** Clearing the holes of the runs from a bitmap. *)
Lemma clear_windows b lo r' rs' : ranges_ok lo (r' :: rs') -> start r <= lo -> list.last (r' :: rs') = Some last ->
  Bitmap.wf b -> Bitmap.len b = end_ last - start r ->
  exists b', fold_res (fun b pair =>
      Bitmap.clear_range b (end_ (fst pair) -w start r ..< start (snd pair) -w start r)) b (windows2 (r' :: rs')) = Ok b' /\
    Bitmap.wf b' /\ Bitmap.len b' = end_ last - start r /\
    forall j, Bitmap.bitat (Bitmap.data b') j =
      not_in (chunk_holes (r' :: rs')) (start r + j) && Bitmap.bitat (Bitmap.data b) j.
Proof using H0.
  revert b lo r'. induction rs' as [|r2 rs' IH]; intros b lo r' Hok Hlo Hla Hb Hlen.
  { exists b. do 3 (split; [done|]). intros j. by rewrite (proj2 (not_in_true _ _)) by apply not_elem_of_nil. }
  destruct Hok as (H1 & H2 & H3). rewrite list.last_cons_cons in Hla.
  destruct (last_end_bounds _ _ last H3 Hla) as (H5 & H6 & H7). pose proof H3 as (H4 & _).
  assert (start r2 < end_ last) as H8.
  { rewrite Forall_forall in H7. apply H7. apply elem_of_app. left. apply elem_of_range_list. lia. }
  cbn [windows2 fold_res fst snd]. unwrap.
  destruct (Bitmap.clear_range_wf b (end_ r' - start r ..< start r2 - start r) Hb) as (b1 & -> & Hb1 & Hl1 & Hd1); [simpl; lia..|].
  mon. destruct (IH b1 (end_ r' + 1) r2 H3) as (b2 & E & Hb2 & Hl2 & Hd2); [lia|done|done|lia|].
  exists b2. split; [exact E|]. split; [done|]. split; [done|]. intros j. rewrite Hd2, Hd1.
  change (chunk_holes (r' :: r2 :: rs')) with (range_list (end_ r' ..< start r2) ++ chunk_holes (r2 :: rs')).
  rewrite andb_assoc. f_equal. apply eq_true_iff_eq.
  rewrite andb_true_iff, negb_true_iff, <- not_true_iff_false, range_contains_spec, !not_in_true, elem_of_app, elem_of_range_list.
  cbn [start end_]. intuition lia.
Qed.

Lemma encode_bitmap : exists bitmap,
  (full ← Bitmap.new_full (end_ last - start r);
   fold_res (fun b pair =>
      Bitmap.clear_range b (end_ (fst pair) -w start r ..< start (snd pair) -w start r)) full (windows2 (r :: rs))) = Ok bitmap /\
  let s := RangeWithBitmap (start r ..< end_ last) bitmap in Segment.wf s /\ Segment.elems s = expand (r :: rs).
Proof using Hr H0 Hl Hspan.
  destruct chunk_bounds as (H1 & _). unfold REENCODE_CHUNK_IDS in *.
  destruct (Bitmap.new_full_wf (end_ last - start r)) as (full & -> & Hf & Hlf & Hd); [lia|]. mon.
  destruct (clear_windows full _ r rs Hr (Z.le_refl _) Hl Hf Hlf) as (b & -> & Hb & Hlb & Hdb). exists b. split; [done|]. split.
  - unfold Segment.wf, range_ok. cbn [start end_]. split; [lia|done].
  - apply ssorted_ext; [apply ssorted_filter, ssorted_range_list|by eapply expand_ssorted|]. intros v.
    cbn [Segment.elems]. rewrite elem_of_filterb, elem_of_range_list, chunk_member, Hdb, Hd. cbn [start end_].
    rewrite andb_true_iff, not_in_true, range_contains_spec. cbn [start end_].
    replace (start r + (v - start r)) with v by lia. intuition lia.
Qed.

End Chunk.

(** ** Gaps between range runs *)

Definition range_kind (s : U64Segment) : bool :=
  match s with Range_ _ | Ranges _ _ => true | _ => false end.

(** [x] starts no new piece after a run that ended at [prev]. *)
Definition near (prev : option Z) (x : Z) : Prop :=
  match prev with Some e => x <= e \/ x - e <= REENCODE_CHUNK_IDS | None => True end.

(** Scanning [segs] from [prev] meets no gap and ends in [prev']. *)
Inductive quiet : option Z -> list U64Segment -> option Z -> Prop :=
| quiet_nil prev : quiet prev [] prev
| quiet_range prev s segs rs p p' : range_kind s = true -> SegmentRuns.runs s = Ok rs ->
    gap_runs prev rs = Some p -> quiet p segs p' -> quiet prev (s :: segs) p'
| quiet_other prev s segs p' : range_kind s = false -> quiet None segs p' -> quiet prev (s :: segs) p'.

Lemma quiet_sound prev segs p : quiet prev segs p -> span_gap_loop prev segs = Ok false.
Proof.
  induction 1 as [|prev s segs rs p p' Hk Hr Hg _ IH|prev s segs p' Hk _ IH]; [done| |].
  - destruct s; try discriminate Hk; cbn [span_gap_loop]; rewrite Hr; mon; by rewrite Hg.
  - destruct s; try discriminate Hk; exact IH.
Qed.

Lemma quiet_app prev segs1 p segs2 p' : quiet prev segs1 p -> quiet p segs2 p' -> quiet prev (segs1 ++ segs2) p'.
Proof. induction 1; intros; simpl; [done|eapply quiet_range; eauto|apply quiet_other; auto]. Qed.

Lemma quiet_one_other prev s : range_kind s = false -> quiet prev [s] None.
Proof. intros. apply quiet_other; [done|constructor]. Qed.

Lemma gap_step prev r rs : near prev (start r) -> gap_runs prev (r :: rs) = gap_runs (Some (end_ r)) rs.
Proof.
  intros Hn. cbn [gap_runs]. destruct prev as [e|]; [|done]. simpl in Hn. rewrite !Z.gtb_ltb.
  destruct (Z.ltb_spec e (start r)), (Z.ltb_spec REENCODE_CHUNK_IDS (start r - e)); simpl; (done || lia).
Qed.

Lemma quiet_one_range prev r : near prev (start r) -> quiet prev [Range_ r] (Some (end_ r)).
Proof. intros. eapply quiet_range; [done|done|by rewrite gap_step|constructor]. Qed.

Lemma gap_runs_chunk prev lo r rs last : ranges_ok lo (r :: rs) -> list.last (r :: rs) = Some last ->
  end_ last - lo <= REENCODE_CHUNK_IDS -> near prev (start r) -> gap_runs prev (r :: rs) = Some (Some (end_ last)).
Proof.
  revert prev lo r. induction rs as [|r' rs IH]; intros prev lo r Hr Hl Hs Hn; rewrite gap_step by done.
  - simpl in Hl. by injection Hl as <-.
  - rewrite list.last_cons_cons in Hl. destruct Hr as (H1 & H2 & H3).
    destruct (last_end_bounds _ _ last H3 Hl) as (H4 & H5 & H6).
    apply (IH _ (end_ r + 1)); [done|done|lia|]. right.
    destruct H3 as (H7 & _). assert (start r' < end_ last); [|lia].
    rewrite Forall_forall in H6. apply H6. simpl. apply elem_of_app. left. apply elem_of_range_list. lia.
Qed.

Lemma maximal_inv r rs : maximal (r :: rs) -> maximal rs /\ match rs with [] => True | r' :: _ => end_ r <> start r' end.
Proof.
  intros Hm. split.
  - intros i r1 r2 H1 H2. pose proof (get_opt_Some _ _ _ H1). apply (Hm (i + 1)).
    + rewrite get_opt_cons, (proj2 (Z.eqb_neq _ _)) by lia. by replace (i + 1 - 1) with i by lia.
    + rewrite get_opt_cons, (proj2 (Z.eqb_neq _ _)) by lia. by replace (i + 1 + 1 - 1) with (i + 1) by lia.
  - destruct rs as [|r' rs]; [done|]. by apply (Hm 0).
Qed.

(** The first run of [l] cannot be shorter than [b - a]. *)
Lemma first_run_le a b b' l rs : range_list (a ..< b) ++ l = range_list (a ..< b') ++ expand rs ->
  a < b' -> Forall (fun r => start r < end_ r) rs -> match rs with [] => True | r' :: _ => b' <> start r' end -> b <= b'.
Proof.
  intros E Hb Hf Hm. destruct (Z.le_gt_cases b b') as [|Hgt]; [done|]. exfalso.
  rewrite (range_list_app a b' b), <- app_assoc in E by lia. apply app_inv_head in E.
  rewrite range_list_cons in E by lia. destruct rs as [|r' rs]; [done|]. apply Forall_inv in Hf. simpl in E.
  destruct r' as [s e]. simpl in *. rewrite (range_list_cons s e) in E by lia. injection E as E _. congruence.
Qed.

Lemma maximal_unique rs1 rs2 : maximal rs1 -> maximal rs2 -> Forall (fun r => start r < end_ r) rs1 ->
  Forall (fun r => start r < end_ r) rs2 -> expand rs1 = expand rs2 -> rs1 = rs2.
Proof.
  revert rs2. induction rs1 as [|[s1 e1] rs1 IH]; intros [|[s2 e2] rs2] M1 M2 F1 F2 E; [done|..].
  - apply Forall_inv in F2. simpl in *. by rewrite range_list_cons in E.
  - apply Forall_inv in F1. simpl in *. by rewrite range_list_cons in E.
  - inversion F1 as [|? ? Hr1 Hf1]; inversion F2 as [|? ? Hr2 Hf2]; subst. simpl in Hr1, Hr2.
    apply maximal_inv in M1 as [M1 N1]. apply maximal_inv in M2 as [M2 N2]. simpl in E, N1, N2.
    assert (s1 = s2) as <-.
    { pose proof E as E'. rewrite (range_list_cons s1), (range_list_cons s2) in E' by lia. by injection E'. }
    assert (e1 = e2) as <-.
    { apply Z.le_antisymm; [by eapply first_run_le|]. by eapply first_run_le; [symmetry; exact E|..]. }
    apply app_inv_head in E. f_equal. by apply IH.
Qed.

(** What writing the runs of a chunk yields: the same ids, and no gap when the
    chunk opens a piece or starts near the previous run. *)
Definition writes (segs : list U64Segment) (rs : list Range) (opens : bool) (x e : Z) : Prop :=
  Forall Segment.wf segs /\ elems segs = expand rs /\
  forall prev, opens = true \/ near prev x -> exists p, quiet prev segs p /\ (p = None \/ p = Some e).

Lemma sorted_ranges_ok r r' rs last : ranges_ok 0 (r :: r' :: rs) -> list.last (r :: r' :: rs) = Some last ->
  end_ last - start r <= REENCODE_CHUNK_IDS ->
  exists s, from_sorted_ranges (r :: r' :: rs) = Some s /\ Segment.wf s /\ Segment.elems s = expand (r :: r' :: rs) /\
    range_kind s = true /\ SegmentRuns.runs s = Ok (r :: r' :: rs).
Proof.
  intros Hr Hl Hs. unfold REENCODE_CHUNK_IDS in Hs.
  destruct (from_sorted_ranges_ok r r' rs last Hr Hl) as (s & E & Hw & Ee); [lia|].
  exists s. split; [done|]. split; [done|]. split; [done|].
  assert (exists rg hr, s = Ranges rg hr) as (rg & hr & ->).
  { unfold from_sorted_ranges in E. rewrite Hl in E. repeat case_match; simplify_eq; eauto. }
  split; [done|]. destruct (runs_ok (Ranges rg hr)) as (rs' & -> & He & Hm & Hf); [done| |].
  { split; [|done]. rewrite Ee. eapply Forall_impl; [apply (expand_bounds _ _ Hr)|]. simpl. intros. lia. }
  f_equal. destruct (separated_maximal 0 (r :: r' :: rs)) as [Hm' Hf']; [by apply ranges_ok_separated|].
  apply maximal_unique; try done. by rewrite He, Ee.
Qed.

Lemma breaker_ok x : 0 <= x < U64_MAX -> Segment.wf (piece_breaker x) /\ Segment.elems (piece_breaker x) = [x].
Proof.
  intros Hx. unfold piece_breaker. unwrap. split.
  - unfold Segment.wf, range_ok. cbn. repeat split; try lia; try done; constructor.
  - cbn [Segment.elems]. rewrite filter_all; [rewrite range_list_cons, range_list_nil by lia; done|].
    apply Forall_forall. intros. apply not_in_true, not_elem_of_nil.
Qed.

Lemma chunk_ranges_ok r r' rs last opens : ranges_ok (start r) (r :: r' :: rs) -> 0 <= start r ->
  list.last (r :: r' :: rs) = Some last -> end_ last - start r <= REENCODE_CHUNK_IDS ->
  exists segs, chunk_ranges r (r :: r' :: rs) opens = Ok segs /\ writes segs (r :: r' :: rs) opens (start r) (end_ last).
Proof.
  intros Hr H0 Hl Hs. unfold chunk_ranges. destruct opens.
  2: { destruct (sorted_ranges_ok r r' rs last) as (s & -> & Hw & He & Hk & Hru); [by eapply ranges_ok_weaken|done|done|].
       mon. exists [s]. split; [done|]. split; [by constructor|]. split; [by rewrite elems_cons, app_nil_r|].
       intros prev [|Hn]; [done|]. exists (Some (end_ last)). split; [|by right].
       eapply quiet_range; [done|done| |constructor]. by eapply gap_runs_chunk. }
  destruct Hr as (H1 & H2 & H3). destruct r as [a b]. cbn [start end_ tail] in *. unwrap.
  destruct (breaker_ok a) as [Hbw Hbe]; [lia|].
  assert (exists s, rest_segment (if range_is_empty (a + 1 ..< b) then r' :: rs else (a + 1 ..< b) :: r' :: rs) = Ok s /\
    Segment.wf s /\ Segment.elems s = expand ((a + 1 ..< b) :: r' :: rs) /\ quiet None [s] (Some (end_ last)))
    as (s & -> & Hw & He & Hq).
  { unfold range_is_empty, rest_segment. cbn [start end_]. destruct (Z.ltb_spec (a + 1) b); cbn [negb].
    - destruct (sorted_ranges_ok (a + 1 ..< b) r' rs last) as (s & -> & Hw & He & Hk & Hru);
        [simpl; split; [lia|done]|by rewrite list.last_cons_cons in Hl |- *|simpl; lia|].
      exists s. do 3 (split; [done|]). eapply quiet_range; [done|done| |constructor].
      eapply (gap_runs_chunk _ (a + 1)); [simpl; split; [lia|done]|by rewrite list.last_cons_cons in Hl |- *|lia|done].
    - assert (expand ((a + 1 ..< b) :: r' :: rs) = expand (r' :: rs)) as -> by (cbn [expand flat_map]; by rewrite range_list_nil by lia).
      rewrite list.last_cons_cons in Hl. destruct rs as [|r2 rs].
      + injection Hl as <-. exists (Range_ r'). destruct H3 as (H3 & H4 & _). split; [done|].
        split; [unfold Segment.wf, range_ok; lia|]. split; [cbn; by rewrite app_nil_r|by apply quiet_one_range].
      + destruct (sorted_ranges_ok r' r2 rs last) as (s & -> & Hw & He & Hk & Hru);
          [eapply ranges_ok_weaken; [|done]; lia|done|destruct H3; lia|].
        exists s. do 3 (split; [done|]). eapply quiet_range; [done|done| |constructor].
        eapply gap_runs_chunk; [done|done|lia|done]. }
  mon. exists [piece_breaker a; s]. split; [done|]. split; [constructor; [done|by constructor]|]. split.
  - rewrite !elems_cons, Hbe, He, app_nil_r. cbn [expand flat_map]. by rewrite (range_list_cons a b) by lia.
  - intros prev _. exists (Some (end_ last)). split; [|by right]. by apply quiet_other.
Qed.

Lemma writes_other s rs opens x e : range_kind s = false -> Segment.wf s -> Segment.elems s = expand rs -> writes [s] rs opens x e.
Proof.
  intros Hk Hw He. split; [by constructor|]. split; [by rewrite elems_cons, app_nil_r|].
  intros prev _. exists None. split; [by apply quiet_one_other|by left].
Qed.

Lemma chunk_segments_ok r r' rs last opens : ranges_ok (start r) (r :: r' :: rs) -> 0 <= start r ->
  list.last (r :: r' :: rs) = Some last -> end_ last - start r <= REENCODE_CHUNK_IDS ->
  exists segs, chunk_segments r last (r :: r' :: rs) opens = Ok segs /\ writes segs (r :: r' :: rs) opens (start r) (end_ last).
Proof.
  intros Hr H0 Hl Hs. unfold chunk_segments. destruct (chunk_bounds r last (r' :: rs) Hr Hl) as ([H1 H2] & _).
  assert (end_ last -w start r = end_ last - start r) as Espan by (unwrap; done). rewrite Espan.
  set (z1 := Z.min _ _). clearbody z1.
  destruct (z1 =? _); [|destruct (z1 =? _); [|destruct (z1 =? _)]].
  - eexists. split; [done|]. by apply writes_other; [done|apply encode_holes..].
  - destruct (encode_bitmap r last (r' :: rs) Hr H0 Hl Hs) as (b & E & Hw & He).
    destruct (Bitmap.new_full _) as [full| |]; [|done|done]. cbn [mbind res_bind] in E |- *. rewrite E. mon.
    eexists. split; [done|]. by apply writes_other.
  - by apply chunk_ranges_ok.
  - eexists. split; [done|]. by apply writes_other; [done|eapply encode_array..].
Qed.

(** ** The encoder's state *)

(** The end of what precedes the chunk, for a reader that folds runs. *)
Definition tail_end (p : option Z) (e : ChunkEncoder) : option Z :=
  match pending e with Some (r, _) => Some (end_ r) | None => p end.

Definition pending_ids (e : ChunkEncoder) : list Z :=
  match pending e with Some (r, _) => range_list r | None => [] end.

(** The ids handed to the encoder, in order. *)
Definition ids (e : ChunkEncoder) : list Z := elems (segments e) ++ pending_ids e ++ expand (chunk e).

(** What is written and pending: well formed, and [p] is the state of a scan
    of the written segments, which meets no gap. *)
Definition written_ok (p : option Z) (e : ChunkEncoder) : Prop :=
  Forall Segment.wf (segments e) /\ quiet None (segments e) p /\
  match pending e with
  | Some (r, opens) => 0 <= start r < end_ r /\ end_ r <= U64_MAX /\ (opens = true \/ near p (start r))
  | None => True
  end.

Definition encoder_ok (e : ChunkEncoder) : Prop :=
  (exists k, chunk_ok k (chunk e)) /\
  match list.last (chunk e) with Some last => last_end e = Some (end_ last) | None => True end /\
  match last_end e with Some l => 0 <= l | None => True end /\
  exists p, written_ok p e /\
    match chunk e with
    | first :: _ => new_piece e = true \/ near (tail_end p e) (start first)
    | [] => tail_end p e = None \/ tail_end p e = last_end e
    end.

Lemma default_ok : encoder_ok default /\ ids default = [].
Proof.
  split; [|done]. split; [exists 0; split; [lia|split; [done|constructor]]|].
  split; [done|]. split; [done|]. exists None. split; [|by left]. split; [constructor|]. split; [constructor|done].
Qed.

Lemma flush_pending_ok e p : written_ok p e ->
  let e' := flush_pending e in
  pending e' = None /\ chunk e' = chunk e /\ last_end e' = last_end e /\ new_piece e' = new_piece e /\
  elems (segments e') = elems (segments e) ++ pending_ids e /\
  exists p', written_ok p' e' /\ (p' = None \/ p' = tail_end p e).
Proof.
  intros (Hw & Hq & Hp) e'. subst e'. unfold flush_pending, pending_ids, tail_end. destruct (pending e) as [[[a b] opens]|] eqn:Ep.
  2: { rewrite app_nil_r. repeat split; try done. exists p. split; [|by right]. split; [done|]. split; [done|]. by rewrite Ep. }
  cbn [pending chunk last_end new_piece segments start end_] in *. do 4 (split; [done|]).
  destruct Hp as (H1 & H2 & Hn). unwrap. unfold range_is_empty. destruct opens; cbn [start end_].
  - destruct (breaker_ok a) as [Hbw Hbe]; [lia|].
    assert (quiet None (segments e ++ [piece_breaker a]) None) as Hq1 by (eapply quiet_app; [done|by apply quiet_one_other]).
    rewrite (range_list_cons a b) by lia. destruct (Z.ltb_spec (a + 1) b); cbn [negb].
    + split.
      * rewrite !elems_app, !elems_cons, !app_nil_r, <- app_assoc, Hbe. done.
      * exists (Some b). split; [|by right]. unfold written_ok. cbn [segments pending]. split; [|split; [|done]].
        -- rewrite !Forall_app. repeat split; try done; constructor; try done. unfold Segment.wf, range_ok. simpl. lia.
        -- eapply quiet_app; [exact Hq1|]. by apply quiet_one_range.
    + split; [rewrite elems_app, elems_cons, range_list_nil, !app_nil_r, Hbe by lia; done|].
      exists None. split; [|by left]. unfold written_ok. cbn [segments pending]. split; [|done]. apply Forall_app. split; [done|by constructor].
  - rewrite (proj2 (Z.ltb_lt a b)) by lia. cbn [negb]. split; [by rewrite elems_app, elems_cons, app_nil_r|].
    destruct Hn as [|Hn]; [done|]. exists (Some b). split; [|by right]. unfold written_ok. cbn [segments pending]. split; [|split; [|done]].
    + apply Forall_app. split; [done|]. constructor; [|done]. unfold Segment.wf, range_ok. simpl. lia.
    + eapply quiet_app; [done|]. by apply quiet_one_range.
Qed.

Lemma push_range_ok e p run : written_ok p e -> 0 <= start run < end_ run -> end_ run <= U64_MAX ->
  new_piece e = true \/ near (tail_end p e) (start run) ->
  let e' := push_range e run in
  chunk e' = chunk e /\ last_end e' = last_end e /\
  elems (segments e') ++ pending_ids e' = elems (segments e) ++ pending_ids e ++ range_list run /\
  exists p', written_ok p' e' /\ tail_end p' e' = Some (end_ run).
Proof.
  intros Hw Hr He Hn e'.
  assert (forall e', e' = (let e := flush_pending e in mkEncoder (segments e) (Some (run, new_piece e)) (chunk e) (last_end e) false) ->
    chunk e' = chunk e /\ last_end e' = last_end e /\
    elems (segments e') ++ pending_ids e' = elems (segments e) ++ pending_ids e ++ range_list run /\
    exists p', written_ok p' e' /\ tail_end p' e' = Some (end_ run)) as Hfresh.
  { intros e1 ->. destruct (flush_pending_ok e p Hw) as (Hp & Hc & Hl & Hnp & Hi & p' & (Hw1 & Hw2 & _) & Ht).
    cbn [segments chunk last_end pending_ids pending]. rewrite Hi, app_assoc. do 3 (split; [done|]).
    exists p'. split; [|done]. split; [done|]. split; [done|]. cbn [pending]. split; [done|]. split; [done|].
    rewrite Hnp. destruct Hn as [?|Hn]; [by left|right]. destruct Ht as [->| ->]; done. }
  subst e'. unfold push_range. destruct (pending e) as [[[a b] o]|] eqn:Ep; [|by apply Hfresh].
  cbn [start end_]. destruct (Z.eqb_spec b (start run)) as [->|]; [|by apply Hfresh].
  destruct Hw as (Hw1 & Hw2 & Hw3). rewrite Ep in Hw3. cbn [start end_] in Hw3. cbn [chunk last_end segments]. do 2 (split; [done|]).
  unfold pending_ids. rewrite Ep. cbn [pending]. split.
  - f_equal. destruct run as [c d]. cbn [start end_] in *. apply range_list_app; lia.
  - exists p. split; [|done]. split; [done|]. split; [done|]. cbn [pending start end_]. intuition lia.
Qed.

Lemma chunk_span k r rs last : chunk_ok k (r :: rs) -> list.last (r :: rs) = Some last ->
  0 <= start r < end_ r /\ end_ r <= U64_MAX /\ end_ last - start r <= REENCODE_CHUNK_IDS /\ ranges_ok (start r) (r :: rs).
Proof.
  intros (Hk & Hr & He) Hl. unfold REENCODE_CHUNK_IDS in *. destruct Hr as (H1 & H2 & H3).
  apply last_Some_elem_of in Hl. rewrite Forall_forall in He. specialize (He last Hl). simpl in He |- *.
  repeat split; try lia; done.
Qed.

Lemma flush_chunk_ok e : encoder_ok e ->
  exists e', flush_chunk e = Ok e' /\ encoder_ok e' /\ ids e' = ids e /\ chunk e' = [] /\ last_end e' = last_end e.
Proof.
  intros ((k & Hk) & Hl & Hnn & p & Hw & Hp). unfold flush_chunk, ids.
  assert (forall e', chunk e' = [] -> last_end e' = last_end e -> (exists p', written_ok p' e' /\ (tail_end p' e' = None \/ tail_end p' e' = last_end e')) -> encoder_ok e') as Hok.
  { intros e' Hc Hle (p' & ? & ?). split; [exists k; rewrite Hc; by destruct Hk as [Hk _]|].
    rewrite Hc. split; [done|]. rewrite Hle in *. split; [done|]. by exists p'. }
  set (e0 := mkEncoder (segments e) (pending e) [] (last_end e) (new_piece e)).
  assert (written_ok p e0) as Hw0 by exact Hw.
  destruct (chunk e) as [|r [|r' rs]] eqn:Ec.
  - exists e0. split; [done|]. split; [|done]. apply Hok; [done..|]. by exists p.
  - destruct (chunk_span k r [] r Hk) as (H1 & H2 & _); [done|].
    destruct (push_range_ok e0 p r Hw0 H1 H2 Hp) as (Hc & Hle & Hi & p' & Hw' & Ht).
    exists (push_range e0 r). split; [done|]. split; [apply Hok; [done..|]|].
    + exists p'. split; [done|]. right. rewrite Ht, Hle. symmetry. exact Hl.
    + split; [|done]. rewrite Hc. cbn [expand flat_map]. rewrite !app_nil_r, Hi. done.
  - destruct (list.last (r :: r' :: rs)) as [last|] eqn:El; [|by apply last_None in El].
    destruct (chunk_span k r (r' :: rs) last Hk El) as (H1 & H2 & H3 & H4).
    destruct (flush_pending_ok e0 p Hw0) as (Hfp & Hfc & Hfl & Hfn & Hfi & p' & (Hw1 & Hw2 & _) & Ht).
    destruct (chunk_segments_ok r r' rs last (new_piece (flush_pending e0)) H4) as (segs & -> & Hws & Hes & Hq); [lia|done|done|].
    mon. eexists. split; [done|]. destruct (Hq p') as (p2 & Hq2 & Hp2).
    { rewrite Hfn. destruct Hp as [?|Hp]; [by left|right]. by destruct Ht as [->| ->]. }
    split; [apply Hok; [done..|]|].
    + exists p2. unfold written_ok, tail_end. cbn [segments pending last_end]. rewrite Hfp, Hfl.
      split; [split; [by apply Forall_app|split; [by eapply quiet_app|done]]|]. cbn [last_end e0]. by rewrite Hl.
    + unfold pending_ids at 1. cbn [segments chunk pending last_end]. rewrite Hfp, Hfc, Hfl. split; [|done].
      rewrite elems_app, Hfi, Hes. cbn [app expand flat_map]. by rewrite !app_nil_r, <- !app_assoc.
Qed.

Lemma lor_chunk s : 0 <= s -> Z.lor s (REENCODE_CHUNK_IDS - 1) = REENCODE_CHUNK_IDS * (s / REENCODE_CHUNK_IDS) + (REENCODE_CHUNK_IDS - 1).
Proof.
  intros Hs. change (REENCODE_CHUNK_IDS - 1) with (Z.ones 16). change REENCODE_CHUNK_IDS with (2 ^ 16).
  pose proof (Z.div_mod s (2 ^ 16) ltac:(done)) as E. pose proof (Z.land_ones s 16 ltac:(lia)) as El.
  pose proof (Z.add_lor_land s (Z.ones 16)). lia.
Qed.

Lemma grow_ok k rs run : chunk_ok k rs -> REENCODE_CHUNK_IDS * k <= start run < end_ run ->
  end_ run <= REENCODE_CHUNK_IDS * (k + 1) -> end_ run <= U64_MAX ->
  match list.last rs with Some last => end_ last <= start run | None => True end -> chunk_ok k (grow rs run).
Proof.
  intros (Hk & Hr & He) H1 H2 H3 Hl. split; [done|]. split; [by apply grow_ranges_ok|].
  unfold grow. destruct (list.last rs) as [[a b]|] eqn:El; [|apply Forall_app; split; [done|by constructor]].
  destruct (end_ _ =? start run); apply Forall_app; (split; [|by constructor]); [|done].
  apply last_split in El. rewrite El in He. by apply Forall_app in He as [He _].
Qed.

Lemma flush_before_ok e k run : encoder_ok e -> 0 <= k -> REENCODE_CHUNK_IDS * k <= start run < REENCODE_CHUNK_IDS * (k + 1) ->
  exists e1, flush_before e run = Ok e1 /\ encoder_ok e1 /\ ids e1 = ids e /\ chunk_ok k (chunk e1) /\
    match list.last (chunk e1) with Some last => end_ last <= start run | None => True end.
Proof.
  intros He Hk H1. unfold flush_before.
  assert (forall e1, chunk e1 = [] -> chunk_ok k (chunk e1) /\
     match list.last (chunk e1) with Some last => end_ last <= start run | None => True end) as Hnil.
  { intros e1 ->. split; [|done]. split; [done|split; [done|constructor]]. }
  destruct (flush_chunk_ok e He) as (e2 & E2 & He2 & Hi2 & Hc2 & _).
  destruct (chunk e) as [|r rs] eqn:Ec; [exists e; split; [done|]; split; [done|]; split; [done|by apply Hnil]|].
  destruct (list.last (r :: rs)) as [last|] eqn:El; [|by apply last_None in El]. cbv zeta.
  destruct (negb _ || _) eqn:Eb; [exists e2; split; [done|]; split; [done|]; split; [done|by apply Hnil]|].
  apply orb_false_iff in Eb as [Eb%negb_false_iff%Z.eqb_eq Eb2%Z.ltb_ge]. exists e. do 3 (split; [done|]).
  rewrite Ec, El. split; [|done]. destruct He as ((k' & Hk') & _). rewrite Ec in Hk'. replace k with k'; [done|].
  pose proof (chunk_span k' r rs last Hk' El) as (H4 & _). destruct Hk' as (H5 & H6 & H7).
  apply Forall_inv in H7. destruct H6 as (H6 & _). unfold REENCODE_CHUNK_IDS in *.
  rewrite <- (Z.div_unique_pos (start r) 65536 k' (start r - 65536 * k')) in Eb by lia.
  rewrite <- (Z.div_unique_pos (start run) 65536 k (start run - 65536 * k)) in Eb by lia. done.
Qed.

Lemma push_clipped_ok e k run : encoder_ok e -> 0 <= k -> REENCODE_CHUNK_IDS * k <= start run < end_ run ->
  end_ run <= REENCODE_CHUNK_IDS * (k + 1) -> end_ run <= U64_MAX ->
  exists e', push_clipped e run = Ok e' /\ encoder_ok e' /\ ids e' = ids e ++ range_list run.
Proof.
  intros He Hk H1 H2 H3. unfold push_clipped.
  destruct (flush_before_ok e k run He Hk) as (e1 & -> & He1 & <- & Hc & Hle); [lia|]. mon.
  pose proof (grow_ok k (chunk e1) run Hc H1 H2 H3 Hle) as Hc'.
  destruct (grow_ranges_ok _ (chunk e1) run (proj1 (proj2 Hc)) H1 H3 Hle) as (_ & Hx & (la & Ela & Hla) & first & rest & Eg & Hf).
  eexists. split; [done|]. fold (grow (chunk e1) run). split.
  - destruct He1 as (_ & _ & Hnn & p & Hw & Hp). split; [by exists k|]. cbn [chunk last_end]. rewrite Ela, Hla.
    unfold REENCODE_CHUNK_IDS in *. split; [done|]. split; [lia|].
    exists p. split; [exact Hw|]. rewrite Eg, Hf. unfold tail_end in *. cbn [pending new_piece].
    destruct (match last_end e1 with Some _ => _ | None => _ end) eqn:Eo; [by left|].
    destruct (chunk e1) as [|r0 rs0]; [|done]. right. destruct Hp as [->| ->]; [done|].
    destruct (last_end e1) as [l|]; [|done]. simpl. destruct (Z.le_gt_cases (start run) l); [by left|right].
    rewrite !Z.gtb_ltb in Eo. unwrap_in Eo. apply andb_false_iff in Eo. rewrite !Z.ltb_ge in Eo.
    unfold REENCODE_CHUNK_IDS. lia.
  - unfold ids, pending_ids. cbn [segments pending chunk]. by rewrite Hx, <- !app_assoc.
Qed.

Lemma push_run_loop_ok fuel e s t : encoder_ok e -> 0 <= s -> t <= U64_MAX ->
  t <= s \/ (t - 1) / REENCODE_CHUNK_IDS - s / REENCODE_CHUNK_IDS + 1 < Z.of_nat fuel -> (0 < fuel)%nat ->
  exists e', push_run_loop fuel e s t = Ok e' /\ encoder_ok e' /\ ids e' = ids e ++ range_list (s ..< t).
Proof.
  revert e s. induction fuel as [|fuel IH]; intros e s He Hs Ht Hf Hf0; [lia|]. cbn [push_run_loop].
  destruct (Z.ltb_spec s t).
  2: { exists e. rewrite range_list_nil, app_nil_r by lia. done. }
  rewrite lor_chunk by done. unfold saturating_add. set (k := s / REENCODE_CHUNK_IDS) in *.
  assert (REENCODE_CHUNK_IDS * k <= s < REENCODE_CHUNK_IDS * (k + 1)) as Hk.
  { unfold REENCODE_CHUNK_IDS in *. pose proof (Z.div_mod s 65536). pose proof (Z.mod_pos_bound s 65536). lia. }
  remember (Z.min t _) as stop eqn:Est. assert (stop = Z.min t (REENCODE_CHUNK_IDS * (k + 1))) as Est'
    by (unfold REENCODE_CHUNK_IDS in *; lia).
  clear Est.
  destruct (push_clipped_ok e k (s ..< stop) He) as (e1 & -> & He1 & Hi1); cbn [start end_]; [|lia..|].
  { unfold REENCODE_CHUNK_IDS in *. lia. }
  mon. destruct (IH e1 stop He1) as (e2 & -> & He2 & Hi2); [lia|done|..].
  - unfold REENCODE_CHUNK_IDS in *. pose proof (Z.div_mod stop 65536). pose proof (Z.mod_pos_bound stop 65536).
    pose proof (Z.div_mod (t - 1) 65536). pose proof (Z.mod_pos_bound (t - 1) 65536). lia.
  - unfold REENCODE_CHUNK_IDS in *. pose proof (Z.div_mod (t - 1) 65536). pose proof (Z.mod_pos_bound (t - 1) 65536). lia.
  - exists e2. split; [done|]. split; [done|]. by rewrite Hi2, Hi1, <- app_assoc, <- range_list_app by lia.
Qed.

Lemma push_run_ok e run : encoder_ok e -> 0 <= start run -> end_ run <= U64_MAX ->
  exists e', push_run e run = Ok e' /\ encoder_ok e' /\ ids e' = ids e ++ range_list run.
Proof.
  intros He Hs Ht. destruct run as [s t]. cbn [start end_] in *. unfold push_run, push_fuel. cbn [start end_].
  pose proof (Z.div_mod (Z.max 0 (t - s)) 65536). pose proof (Z.mod_pos_bound (Z.max 0 (t - s)) 65536).
  apply push_run_loop_ok; try done; unfold REENCODE_CHUNK_IDS; [|lia].
  destruct (Z.le_gt_cases t s); [by left|right].
  pose proof (Z.div_mod s 65536). pose proof (Z.mod_pos_bound s 65536). pose proof (Z.div_mod (t - 1) 65536).
  pose proof (Z.mod_pos_bound (t - 1) 65536). lia.
Qed.

Lemma push_runs_ok e rs : encoder_ok e -> Forall (fun r => 0 <= start r /\ end_ r <= U64_MAX) rs ->
  exists e', fold_res push_run e rs = Ok e' /\ encoder_ok e' /\ ids e' = ids e ++ expand rs.
Proof.
  intros He Hr. revert e He. induction Hr as [|r rs [H1 H2] _ IH]; intros e He.
  { exists e. by rewrite app_nil_r. }
  cbn [fold_res]. destruct (push_run_ok e r He H1 H2) as (e1 & -> & He1 & Hi1). mon.
  destruct (IH e1 He1) as (e2 & -> & He2 & Hi2). exists e2. split; [done|]. split; [done|].
  by rewrite Hi2, Hi1, <- app_assoc.
Qed.

Lemma push_verbatim_ok e s : encoder_ok e -> Segment.wf s -> range_kind s = false ->
  exists e', push_verbatim e s = Ok e' /\ encoder_ok e' /\ ids e' = ids e ++ Segment.elems s.
Proof.
  intros He Hs Hk. unfold push_verbatim. destruct (flush_chunk_ok e He) as (e1 & -> & He1 & <- & Hc & _). mon.
  destruct He1 as ((k & Hk0 & _) & _ & _ & p & Hw & _).
  destruct (flush_pending_ok e1 p Hw) as (Hp & Hc' & _ & _ & Hi & p' & (Hw1 & Hw2 & _) & _).
  eexists. split; [done|]. split.
  - split; [exists k; cbn [chunk]; rewrite Hc', Hc; split; [done|split; [done|constructor]]|].
    cbn [chunk last_end]. rewrite Hc', Hc. split; [done|]. split; [done|]. exists None. unfold written_ok, tail_end.
    cbn [segments pending last_end]. rewrite Hp. split; [|by left].
    split; [apply Forall_app; split; [done|by constructor]|]. split; [|done]. eapply quiet_app; [done|by apply quiet_one_other].
  - unfold ids. unfold pending_ids at 1. cbn [segments pending chunk]. rewrite Hp, Hc', Hc, elems_app, Hi, elems_cons.
    cbn [expand flat_map app elems map concat]. by rewrite !app_nil_r.
Qed.

(** Every run lies inside the values it expands to, or is an empty range. *)
Lemma enc_runs_bounds s rs : Segment.wf s -> Forall (fun v => v < U64_MAX) (Segment.elems s) -> expand rs = Segment.elems s ->
  (match s with Range_ _ => rs = [match s with Range_ r => r | _ => 0 ..< 0 end] | _ => Forall (fun r => start r < end_ r) rs end) ->
  Forall (fun r => 0 <= start r /\ end_ r <= U64_MAX) rs.
Proof.
  intros Hw Hu He Hf. pose proof (Segment.seg_elems_u64 s Hw) as Hp.
  assert (Forall (fun r => start r < end_ r) rs -> Forall (fun r => 0 <= start r /\ end_ r <= U64_MAX) rs) as Hgen.
  { intros Hlt. rewrite <- He in Hu, Hp. clear -Hlt Hu Hp. induction Hlt as [|[a b] rs Hr _ IH]; [constructor|].
    simpl in Hu, Hp, Hr. apply Forall_app in Hu as [Hu1 Hu2]. apply Forall_app in Hp as [Hp1 Hp2].
    constructor; [|by apply IH]. rewrite Forall_forall in Hu1, Hp1. simpl.
    assert (a ∈ range_list (a ..< b)) as Ha by (apply elem_of_range_list; simpl; lia).
    assert (b - 1 ∈ range_list (a ..< b)) as Hb by (apply elem_of_range_list; simpl; lia).
    specialize (Hp1 a Ha). specialize (Hu1 _ Hb). uok. simpl in *. lia. }
  destruct s; try by apply Hgen. rewrite Hf. simpl in Hw. destruct Hw as (? & ? & ?). by repeat constructor.
Qed.

Lemma push_segment_ok e s : encoder_ok e -> Segment.wf s -> runs_pre s ->
  exists e', push_segment e s = Ok e' /\ encoder_ok e' /\ ids e' = ids e ++ Segment.elems s.
Proof.
  intros He Hs Hpre. destruct (runs_ok s Hs Hpre) as (rs & E & Hx & _ & Hf).
  assert (match s with Range_ _ => rs = [match s with Range_ r => r | _ => 0 ..< 0 end] | _ => Forall (fun r => start r < end_ r) rs end) as Hf'.
  { destruct s; try done. simpl in E. by injection E as <-. }
  pose proof (enc_runs_bounds s rs Hs (proj1 Hpre) Hx Hf') as Hb. rewrite <- Hx.
  destruct s as [r|r h|r b|r hr|a|a]; unfold push_segment.
  6: { rewrite Hx. by apply push_verbatim_ok. }
  all: rewrite E; mon; by apply push_runs_ok.
Qed.

Lemma push_segments_ok e q : encoder_ok e -> Forall Segment.wf q -> Forall runs_pre q ->
  exists e', fold_res push_segment e q = Ok e' /\ encoder_ok e' /\ ids e' = ids e ++ elems q.
Proof.
  intros He Hw. revert e He. induction Hw as [|s q Hs _ IH]; intros e He Hp.
  { exists e. by rewrite app_nil_r. }
  inversion Hp as [|? ? Hp1 Hp2]; subst. cbn [fold_res].
  destruct (push_segment_ok e s He Hs Hp1) as (e1 & -> & He1 & Hi1). mon.
  destruct (IH e1 He1 Hp2) as (e2 & -> & He2 & Hi2). exists e2. split; [done|]. split; [done|].
  by rewrite Hi2, Hi1, elems_cons, <- app_assoc.
Qed.

Lemma finish_ok e : encoder_ok e ->
  exists q, finish e = Ok q /\ Forall Segment.wf q /\ elems q = ids e /\ range_runs_span_a_gap q = Ok false.
Proof.
  intros He. unfold finish. destruct (flush_chunk_ok e He) as (e1 & -> & He1 & <- & Hc & _). mon.
  destruct He1 as (_ & _ & _ & p & Hw & _).
  destruct (flush_pending_ok e1 p Hw) as (Hp & Hc' & _ & _ & Hi & p' & (Hw1 & Hw2 & _) & _).
  eexists. split; [done|]. split; [done|]. split; [|by eapply quiet_sound].
  unfold ids. rewrite Hi, Hc. cbn [expand flat_map]. by rewrite app_nil_r.
Qed.

(** ** Properties *)

(** No segment's bitmap is so long that reading past it by a word overflows. *)
Definition bitmaps_fit (q : RowIdSequence) : Prop :=
  Forall (fun s => match s with RangeWithBitmap _ b => Bitmap.len b <= U64_MAX - 64 | _ => True end) q.

(** C36: [reencode] keeps every id and their order, never fails, and unless the
    sequence ends at [u64::MAX] its output never has [Range] runs a reader
    would fold across a gap of more than a chunk. *)
Theorem sequence_reencode q : wf q -> bitmaps_fit q ->
  exists q', reencode q = Ok q' /\ wf q' /\ iter q' = Ok (elems q) /\
    (match row_id_range q with Some (_, hi) => hi <> U64_MAX | None => True end -> range_runs_span_a_gap q' = Ok false).
Proof.
  intros [Hw Hl] Hb. unfold reencode. pose proof (row_id_range_bounds q Hw) as Hr.
  destruct (match row_id_range q with Some range => snd range =? U64_MAX | None => false end) eqn:Em.
  { exists q. split; [done|]. split; [done|]. split; [by apply seq_iter_ok|].
    destruct (row_id_range q) as [[lo hi]|]; [|done]. apply Z.eqb_eq in Em. done. }
  assert (Forall runs_pre q) as Hp.
  { assert (Forall (fun v => v < U64_MAX) (elems q)) as Hu.
    { destruct (row_id_range q) as [[lo hi]|] eqn:Er; [|rewrite Hr; constructor].
      pose proof (row_id_range_u64 q lo hi Hw Er) as Hhi. uok.
      apply Z.eqb_neq in Em. simpl in Em. rewrite Forall_forall in Hr |- *. intros v Hv.
      specialize (Hr v Hv). lia. }
    clear -Hu Hb. unfold bitmaps_fit in Hb. induction Hb as [|s q Hs _ IH]; [constructor|].
    rewrite elems_cons in Hu. apply Forall_app in Hu as [Hu1 Hu2]. constructor; [by split|by apply IH]. }
  destruct default_ok as [Hd Ed]. destruct (push_segments_ok default q Hd Hw Hp) as (e & -> & He & Hi). mon.
  destruct (finish_ok e He) as (q' & -> & Hw' & Hi' & Hg). rewrite Ed in Hi. cbn [app] in Hi.
  exists q'. split; [done|]. split; [split; [done|by rewrite Hi', Hi]|]. split; [by rewrite seq_iter_ok, Hi', Hi|done].
Qed.

Lemma sequence_reencode_witness : exists q',
  reencode [RangeWithHoles (10 ..< 20) (U64 [12; 13; 17]); Range_ (200000 ..< 200003); Array (U64 [9; 3])] = Ok q' /\
  iter q' = Ok [10; 11; 14; 15; 16; 18; 19; 200000; 200001; 200002; 9; 3] /\ range_runs_span_a_gap q' = Ok false.
Proof.
  destruct (sequence_reencode [RangeWithHoles (10 ..< 20) (U64 [12; 13; 17]); Range_ (200000 ..< 200003); Array (U64 [9; 3])])
    as (q' & E & _ & Hi & Hg).
  - split; [|vm_compute; done].
    constructor; [|constructor; [vm_compute; done|constructor; [|constructor]]].
    + split; [vm_compute; done|]. split; [|split; [repeat constructor; lia|repeat constructor; simpl; lia]].
      split; [repeat constructor; uok; lia|vm_compute; done].
    + split; [repeat constructor; uok; lia|vm_compute; done].
  - repeat constructor.
  - exists q'. split; [exact E|]. split; [rewrite Hi; reflexivity|]. apply Hg. vm_compute. done.
Defined.
