(* ===== verification/Rechunk.v ===== *)
(** * Re-chunking and selecting row ids

    [rechunk_sequences] and [select_row_ids] of [lance-table/src/rowids.rs]:
    distributing the ids of several sequences over fragments of given sizes,
    and reading the ids a batch request asks for. *)

From Stdlib Require Import ZArith Lia.
From stdpp Require Import base option list numbers sorting sets gmap.
From S2P Require Import Prelude Lists Bits Bitmap EncodedArray HoleRuns Segment SegmentBuild Sequence SequenceCursor.

(** ** Model *)

(** [rechunk_sequences] cuts segments and [rechunk_version_sequences] cuts
    version runs with the same loop; it is written once here, over the type of
    the items, their length and slice, and the chunk they are added to. *)
Section Loop.
Context {Item Chunk : Type}.
Context (item_len : Item -> res Z) (item_slice : Item -> Z -> Z -> res Item).
Context (empty : Chunk) (push : Chunk -> Item -> Chunk).

(** The [while remaining > 0] loop: the state is the peekable iterator over
    the items, the offset into its first item and the chunk being built. *)
Fixpoint chunk_loop (fuel : nat) (items : list Item) (segment_offset remaining : Z) (sequence : Chunk)
    (allow_incomplete : bool) : res (list Item * Z * Chunk) :=
  match fuel with
  | O => Panic
  | S fuel =>
      if remaining =? 0 then Ok (items, segment_offset, sequence) else
      match items with
      | [] => if allow_incomplete then Ok (items, segment_offset, sequence) else Err InvalidInput
      | item :: rest =>
          n ← item_len item;
          let remaining_in_segment := n -w segment_offset in
          if remaining_in_segment =? 0 then chunk_loop fuel rest 0 remaining sequence allow_incomplete
          else if remaining_in_segment >? remaining then
            segment ← item_slice item segment_offset remaining;
            chunk_loop fuel items (segment_offset +w remaining) 0 (push sequence segment) allow_incomplete
          else
            segment ← item_slice item segment_offset remaining_in_segment;
            chunk_loop fuel rest 0 (remaining -w remaining_in_segment) (push sequence segment) allow_incomplete
      end
  end.

Fixpoint chunks_loop (items : list Item) (segment_offset : Z) (chunk_sizes : list Z) (allow_incomplete : bool)
    : res (list Item * list Chunk) :=
  match chunk_sizes with
  | [] => Ok (items, [])
  | chunk_size :: rest =>
      '(items, segment_offset, sequence) ←
        chunk_loop (S (S (length items))) items segment_offset chunk_size empty allow_incomplete;
      '(items, sequences) ← chunks_loop items segment_offset rest allow_incomplete;
      Ok (items, sequence :: sequences)
  end.

Definition rechunk (items : list Item) (chunk_sizes : list Z) (allow_incomplete : bool) : res (list Chunk) :=
  '(items, chunked) ← chunks_loop items 0 chunk_sizes allow_incomplete;
  match items with [] => Ok chunked | _ => Err InvalidInput end.

End Loop.

Definition rechunk_sequences (sequences : list RowIdSequence) (chunk_sizes : list Z) (allow_incomplete : bool)
    : res (list RowIdSequence) :=
  rechunk Segment.len SegmentBuild.slice Sequence.new (fun sequence segment => Sequence.extend sequence [segment])
    (concat sequences) chunk_sizes allow_incomplete.

(** [lance_io::ReadBatchParams] *)
Inductive ReadBatchParams :=
| PRange (range : Range)
| PRanges (ranges : list Range)
| RangeFull
| RangeTo (end_ : Z)
| RangeFrom (start : Z)
| Indices (indices : list Z).

(** [Vec::<u64>::with_capacity], which panics past [isize::MAX] bytes. *)
Definition with_capacity (n : Z) : res unit := if n >? VEC64_MAX then Panic else Ok tt.

Definition read_slice (q : RowIdSequence) (offset n : Z) : res (list Z) :=
  sl ← Sequence.slice q offset n; slice_iter sl.

Fixpoint read_ranges (q : RowIdSequence) (ranges : list Range) (result : list Z) : res (list Z) :=
  match ranges with
  | [] => Ok result
  | range :: rest =>
      n ← Sequence.len q;
      if end_ range >? n then Err InvalidInput else
      ids ← read_slice q (start range) (end_ range -w start range);
      read_ranges q rest (result ++ ids)
  end.

Definition select_row_ids (q : RowIdSequence) (offsets : ReadBatchParams) : res (list Z) :=
  match offsets with
  | Indices indices =>
      if forallb (fun pair => fst pair <=? snd pair) (windows2 indices) then
        n ← Sequence.len q;
        if match list.last indices with Some last => last >=? n | None => false end then Err InvalidInput
        else SequenceCursor.select q indices
      else map_res (fun index => o ← Sequence.get q index; ok_or o InvalidInput) indices
  | PRange range =>
      n ← Sequence.len q;
      if end_ range >? n then Err InvalidInput
      else read_slice q (start range) (end_ range -w start range)
  | PRanges ranges =>
      _ ← with_capacity (Sequence.sum64 (map (fun r => end_ r -w start r) ranges));
      read_ranges q ranges []
  | RangeFull => Sequence.iter q
  | RangeTo to =>
      n ← Sequence.len q;
      if to >? n then Err InvalidInput else read_slice q 0 to
  | RangeFrom from =>
      n ← Sequence.len q;
      read_slice q from (n -w from)
  end.

(** ** Re-chunking *)

(** Consecutive pieces of [l] of the given sizes, short where [l] runs out. *)
Fixpoint split_by (sizes : list Z) (l : list Z) : list (list Z) :=
  match sizes with
  | [] => []
  | n :: sizes => ztake n l :: split_by sizes (zskip n l)
  end.

Definition total (sizes : list Z) : Z := foldr Z.add 0 sizes.

Lemma total_nonneg sizes : Forall u64_ok sizes -> 0 <= total sizes.
Proof. induction 1; simpl; [lia|uok; lia]. Qed.

Section LoopProof.
Context {Item Chunk : Type}.
Context (item_len : Item -> res Z) (item_slice : Item -> Z -> Z -> res Item).
Context (empty : Chunk) (push : Chunk -> Item -> Chunk).
(** What the items and chunks stand for. *)
Context (item_ok : Item -> Prop) (vals : Item -> list Z) (chunk_wf : Chunk -> Prop) (chunk_vals : Chunk -> list Z).
Context (item_len_ok : forall i, item_ok i -> item_len i = Ok (zlen (vals i)) /\ zlen (vals i) <= VEC64_MAX).
Context (item_slice_ok : forall i a n, item_ok i -> 0 <= a -> 0 <= n -> a + n <= zlen (vals i) -> exists i',
  item_slice i a n = Ok i' /\ item_ok i' /\ vals i' = zsub (vals i) a (a + n)).
Context (empty_ok : chunk_wf empty /\ chunk_vals empty = []).
Context (push_ok : forall c i, chunk_wf c -> item_ok i -> chunk_wf (push c i) /\ chunk_vals (push c i) = chunk_vals c ++ vals i).

Definition all_vals (items : list Item) : list Z := concat (map vals items).

(** The values not yet handed out. *)
Definition remaining_vals (items : list Item) (offset : Z) : list Z := zskip offset (all_vals items).

Definition nonempty (items : list Item) : Prop := Forall (fun i => vals i <> []) items.

(** The offset lies in the first item, before its end if none is empty. *)
Definition at_offset (items : list Item) (offset : Z) : Prop :=
  0 <= offset /\
  match items with
  | [] => offset = 0
  | i :: _ => offset <= zlen (vals i) /\ (nonempty items -> offset < zlen (vals i))
  end.

Lemma at_offset_0 items : at_offset items 0.
Proof.
  split; [lia|]. destruct items as [|i items]; [done|]. split; [apply zlen_nonneg|]. intros Hn%Forall_inv.
  destruct (vals i); [done|]. rewrite zlen_cons. pose proof (zlen_nonneg l). lia.
Qed.

Lemma remaining_cons i items off : at_offset (i :: items) off -> remaining_vals (i :: items) off = zskip off (vals i) ++ all_vals items.
Proof. intros (? & ? & _). unfold remaining_vals. by apply zskip_app. Qed.

(** One chunk takes the next [remaining] values, or fails for lack of them. *)
Definition takes (items : list Item) (off remaining : Z) (c : Chunk) (allow : bool) (r : res (list Item * Z * Chunk)) : Prop :=
  let l := remaining_vals items off in
  (remaining <= zlen l \/ allow = true -> exists items' off' c', r = Ok (items', off', c') /\
     Forall item_ok items' /\ at_offset items' off' /\ chunk_wf c' /\ chunk_vals c' = chunk_vals c ++ ztake remaining l /\
     remaining_vals items' off' = zskip remaining l /\ (nonempty items -> nonempty items')) /\
  (zlen l < remaining -> allow = false -> r = Err InvalidInput).

(** Passing to the next item once the first [n] values are taken. *)
Lemma takes_next i rest off n remaining c c' allow r : at_offset (i :: rest) off ->
  n = zlen (vals i) - off -> n <= remaining -> chunk_vals c' = chunk_vals c ++ zskip off (vals i) ->
  takes rest 0 (remaining - n) c' allow r -> takes (i :: rest) off remaining c allow r.
Proof.
  intros Ha Hn Hle Hseq [Hok Herr]. clear - Ha Hn Hle Hseq Hok Herr. unfold takes. pose proof Ha as (H0 & H1 & _).
  pose proof (zlen_zskip (vals i) off ltac:(lia)) as Hz.
  rewrite remaining_cons, zlen_app by done. change (remaining_vals rest 0) with (all_vals rest) in *. split.
  - intros Hc. destruct Hok as (items' & off' & c2 & -> & H3 & H4 & H5 & H6 & H7 & H8); [intuition lia|].
    exists items', off', c2. do 4 (split; [done|]). rewrite ztake_split, zskip_split, H6, H7, Hseq, <- app_assoc by lia.
    replace (remaining - zlen (zskip off (vals i))) with (remaining - n) by lia.
    do 2 (split; [done|]). intros Hne. apply H8. by inversion Hne.
  - intros Hlt Hal. apply Herr; [lia|done].
Qed.

Local Abbreviation loop := (chunk_loop item_len item_slice push).

Lemma chunk_loop_ok fuel items off remaining c allow : Forall item_ok items -> at_offset items off -> u64_ok remaining ->
  chunk_wf c -> (length items < fuel)%nat -> takes items off remaining c allow (loop fuel items off remaining c allow).
Proof.
  revert items off remaining c. induction fuel as [|fuel IH]; intros items off remaining c Hi Ha Hr Hc Hf; [lia|].
  destruct (Z.eq_dec remaining 0) as [->|Hnz].
  { cbn [chunk_loop]. split; [|intros Hlt; pose proof (zlen_nonneg (remaining_vals items off)); lia].
    intros _. exists items, off, c. unfold ztake, zskip. rewrite take_0, drop_0, app_nil_r. done. }
  cbn [chunk_loop]. rewrite (proj2 (Z.eqb_neq _ _)) by done. destruct items as [|i rest]; mon.
  { destruct Ha as [_ ->]. split; change (remaining_vals [] 0) with (@nil Z); rewrite zlen_nil.
    - intros [?| ->]; [uok; lia|]. exists [], 0, c. unfold ztake, zskip. rewrite take_nil, drop_nil, app_nil_r. done.
    - by intros _ ->. }
  inversion Hi as [|? ? Hi1 Hi2]; subst. pose proof Ha as (H0 & H1 & H1'). simpl in Hf.
  destruct (item_len_ok i Hi1) as [-> Hl]. mon. unwrap. set (n := zlen (vals i) - off).
  destruct (Z.eqb_spec n 0) as [Hn|Hn].
  { apply (takes_next i rest off n remaining c c); [done|done|uok; lia| |].
    - rewrite zskip_ge, app_nil_r by lia. done.
    - rewrite Hn, Z.sub_0_r. apply IH; try done; [apply at_offset_0|lia]. }
  rewrite Z.gtb_ltb. uok. destruct (Z.ltb_spec remaining n).
  - destruct (item_slice_ok i off remaining Hi1) as (g & -> & Hg & Eg); [lia..|]. mon. unwrap.
    destruct fuel; [lia|]. cbn [chunk_loop Z.eqb]. destruct (push_ok c g Hc Hg) as [Hw' He'].
    pose proof (zlen_zskip (vals i) off ltac:(lia)) as Hz.
    split; [|rewrite remaining_cons, zlen_app by done; pose proof (zlen_nonneg (all_vals rest)); lia].
    intros _. eexists _, _, _. split; [done|]. split; [done|]. split; [split; [lia|split; [lia|intros; lia]]|]. split; [done|].
    rewrite He', Eg, remaining_cons by done. rewrite ztake_app_l by lia.
    split; [unfold zsub; do 2 f_equal; lia|]. split; [|done].
    rewrite zskip_app by lia. rewrite zskip_zskip by lia. rewrite <- zskip_app by lia. done.
  - destruct (item_slice_ok i off n Hi1) as (g & -> & Hg & Eg); [lia..|]. mon. unwrap.
    destruct (push_ok c g Hc Hg) as [Hw' He'].
    apply (takes_next i rest off n remaining c (push c g)); [done|done|lia| |].
    + rewrite He', Eg. f_equal. unfold zsub. apply ztake_ge. rewrite zlen_zskip by lia. lia.
    + apply IH; try done; [apply at_offset_0|uok; lia|lia].
Qed.

Lemma chunks_loop_ok items off sizes allow : Forall item_ok items -> at_offset items off -> Forall u64_ok sizes ->
  let l := remaining_vals items off in
  (total sizes <= zlen l \/ allow = true -> exists items' off' chunked,
     chunks_loop item_len item_slice empty push items off sizes allow = Ok (items', chunked) /\
     Forall chunk_wf chunked /\ map chunk_vals chunked = split_by sizes l /\ at_offset items' off' /\
     remaining_vals items' off' = zskip (total sizes) l /\ (nonempty items -> nonempty items')) /\
  (zlen l < total sizes -> allow = false -> chunks_loop item_len item_slice empty push items off sizes allow = Err InvalidInput).
Proof.
  intros Hi Ha Hz. revert items off Hi Ha. induction Hz as [|n sizes Hn Hz IH]; intros items off Hi Ha l.
  { cbn [total foldr chunks_loop split_by]. split; [|pose proof (zlen_nonneg l); lia].
    intros _. exists items, off, []. done. }
  pose proof (total_nonneg sizes Hz) as Ht. destruct empty_ok as [He0 Ev0].
  change (total (n :: sizes)) with (n + total sizes). cbn [chunks_loop split_by]. uok.
  destruct (chunk_loop_ok (S (S (length items))) items off n empty allow) as [Hok Herr]; [done|done|uok; lia|done|lia|].
  fold l in Hok, Herr. rewrite Ev0 in Hok. cbn [app] in Hok.
  destruct (Z.le_gt_cases n (zlen l)) as [Hle|Hgt].
  - destruct Hok as (items1 & off1 & c & -> & Hi1 & Ha1 & Hw1 & He1 & Hr1 & Hn1); [by left|]. mon.
    destruct (IH items1 off1 Hi1 Ha1) as [Hok' Herr']. rewrite Hr1, zlen_zskip in * by lia. split.
    + intros Hc. destruct Hok' as (items2 & off2 & cs & -> & Hw2 & He2 & Ha2 & Hr2 & Hn2); [intuition lia|]. mon.
      exists items2, off2, (c :: cs). split; [done|]. split; [by constructor|]. split; [cbn [map]; by rewrite He1, He2|].
      split; [done|]. rewrite zskip_zskip in Hr2 by lia. split; [done|auto].
    + intros Hlt Hal. rewrite Herr'; [done|lia|done].
  - split; [|intros _ Hal; by rewrite Herr by (done || lia)]. intros [?| ->]; [lia|].
    destruct Hok as (items1 & off1 & c & -> & Hi1 & Ha1 & Hw1 & He1 & Hr1 & Hn1); [by right|]. mon.
    destruct (IH items1 off1 Hi1 Ha1) as [Hok' _]. rewrite Hr1 in Hok'.
    destruct Hok' as (items2 & off2 & cs & -> & Hw2 & He2 & Ha2 & Hr2 & Hn2); [by right|]. mon.
    exists items2, off2, (c :: cs). split; [done|]. split; [by constructor|]. split; [cbn [map]; by rewrite He1, He2|].
    split; [done|]. rewrite zskip_zskip in Hr2 by lia. split; [done|auto].
Qed.

Lemma rechunk_ok items sizes allow : Forall item_ok items -> nonempty items -> Forall u64_ok sizes ->
  (total sizes = zlen (all_vals items) \/ (allow = true /\ zlen (all_vals items) <= total sizes) ->
     exists chunked, rechunk item_len item_slice empty push items sizes allow = Ok chunked /\
       Forall chunk_wf chunked /\ map chunk_vals chunked = split_by sizes (all_vals items)) /\
  (total sizes < zlen (all_vals items) \/ (allow = false /\ zlen (all_vals items) < total sizes) ->
     rechunk item_len item_slice empty push items sizes allow = Err InvalidInput).
Proof.
  intros Hi Hn Hz. unfold rechunk. destruct (chunks_loop_ok items 0 sizes allow Hi (at_offset_0 _) Hz) as [Hok Herr].
  change (remaining_vals items 0) with (all_vals items) in *. set (l := all_vals items) in *. split.
  - intros Hc. destruct Hok as (items' & off & cs & -> & Hw & He & (H0 & Ha) & Hr & Hn'); [intuition lia|]. mon.
    assert (items' = []) as ->; [|by exists cs].
    rewrite zskip_ge in Hr by (intuition lia). destruct items' as [|i items']; [done|]. exfalso.
    destruct Ha as [H1 H2]. specialize (H2 (Hn' Hn)). rewrite remaining_cons in Hr by done.
    apply (f_equal zlen) in Hr. rewrite zlen_app, zlen_zskip in Hr by lia. pose proof (zlen_nonneg (all_vals items')).
    rewrite zlen_nil in Hr. lia.
  - intros Hc. destruct (Z.le_gt_cases (total sizes) (zlen l)).
    + destruct Hok as (items' & off & cs & -> & _ & _ & _ & Hr & _); [by left|]. mon.
      destruct items' as [|i items']; [|done]. exfalso. apply (f_equal zlen) in Hr. pose proof (total_nonneg sizes Hz).
      rewrite zlen_zskip in Hr by lia. change (remaining_vals [] off) with (zskip off (@nil Z)) in Hr.
      unfold zskip in Hr. rewrite drop_nil, zlen_nil in Hr. lia.
    + rewrite Herr; [done|lia|intuition lia].
Qed.

End LoopProof.

Definition seg_item_ok (s : U64Segment) : Prop :=
  Segment.wf s /\ NoDup (Segment.elems s) /\ zlen (Segment.elems s) <= VEC64_MAX.

Lemma elems_concat qs : elems (concat qs) = concat (map elems qs).
Proof. induction qs as [|q qs IH]; [done|]. simpl. by rewrite elems_app, IH. Qed.

(** ** Selecting *)

Lemma read_slice_ok q offset n : wf q -> 0 <= offset -> 0 <= n -> offset + n <= zlen (elems q) ->
  read_slice q offset n = Ok (zsub (elems q) offset (offset + n)).
Proof.
  intros. unfold read_slice. destruct (Sequence.seq_slice_ok q offset n) as (sl & -> & Hi & _); [done..|]. mon. done.
Qed.

Lemma windows_nondecreasing l last : forallb (fun pair => fst pair <=? snd pair) (windows2 l) = true ->
  match last, l with Some x, y :: _ => x <= y | _, _ => True end -> nondecreasing last l = true.
Proof.
  revert last. induction l as [|x l IH]; intros last Hw Hl; [done|]. cbn [nondecreasing].
  replace (match last with Some l => l <=? x | None => true end) with true
    by (destruct last; [symmetry; by apply Z.leb_le|done]).
  cbn [andb]. apply IH; destruct l as [|y l]; try done;
    cbn [windows2 forallb fst snd] in Hw; apply andb_true_iff in Hw as [H1 H2]; [done|by apply Z.leb_le].
Qed.

Lemma windows_last_max l m : forallb (fun pair => fst pair <=? snd pair) (windows2 l) = true -> list.last l = Some m ->
  Forall (fun x => x <= m) l.
Proof.
  induction l as [|x [|y l] IH]; intros Hw Hl; [done|injection Hl as <-; by repeat constructor|].
  cbn [windows2 forallb fst snd] in Hw. apply andb_true_iff in Hw as [H1%Z.leb_le H2].
  rewrite list.last_cons_cons in Hl. specialize (IH H2 Hl). constructor; [|done]. apply Forall_inv in IH. lia.
Qed.

Lemma omap_in_bounds q l : Forall (fun i => 0 <= i < zlen (elems q)) l ->
  map Some (omap (get_opt (elems q)) l) = map (get_opt (elems q)) l.
Proof.
  induction 1 as [|i l Hi _ IH]; [done|]. simpl. destruct (get_opt_lt (elems q) i Hi) as [x ->]. simpl. f_equal. exact IH.
Qed.

Lemma indices_ok q l : wf q -> Forall u32_ok l ->
  select_row_ids q (Indices l) =
    if forallb (fun i => i <? zlen (elems q)) l then Ok (omap (get_opt (elems q)) l) else Err InvalidInput.
Proof.
  intros Hq Hl. cbn [select_row_ids]. assert (Forall u64_ok l) as Hu by (eapply Forall_impl; [done|]; intros; uok; lia).
  destruct (forallb (fun pair => fst pair <=? snd pair) _) eqn:Ew.
  - rewrite Sequence.seq_len_ok by done. mon. destruct (list.last l) as [m|] eqn:Em.
    + pose proof (windows_last_max l m Ew Em) as Hm. rewrite Z.geb_leb. destruct (Z.leb_spec (zlen (elems q)) m).
      * destruct (forallb (fun i => i <? zlen (elems q)) l) eqn:Hf; [|done]. rewrite forallb_forall in Hf.
        apply last_Some_elem_of, list_elem_of_In in Em. specialize (Hf m Em). apply Z.ltb_lt in Hf. lia.
      * replace (forallb (fun i => i <? zlen (elems q)) l) with true.
        -- unfold SequenceCursor.select. rewrite scur_select_loop_ok; [by rewrite windows_nondecreasing|done| |done].
           exists [], q. apply default_at.
        -- symmetry. apply forallb_forall. intros x Hx%list_elem_of_In. rewrite Forall_forall in Hm. specialize (Hm x Hx).
           apply Z.ltb_lt. simpl in Hm. lia.
    + apply last_None in Em. subst l. done.
  - clear Ew. induction Hu as [|i l Hi Hu IH]; [done|]. inversion Hl; subst. cbn [map_res forallb].
    rewrite Sequence.seq_get_ok by done. mon. specialize (IH ltac:(done)).
    destruct (Z.ltb_spec i (zlen (elems q))) as [Hlt|Hge].
    + destruct (get_opt_lt (elems q) i) as [x Ex]; [uok; lia|]. rewrite Ex. cbn [ok_or andb]. mon. rewrite IH.
      destruct (forallb _ l); mon; [|done]. simpl. by rewrite Ex.
    + rewrite (proj2 (get_opt_None _ _)) by lia. done.
Qed.

Definition in_bounds (q : RowIdSequence) (r : Range) : bool := end_ r <=? zlen (elems q).

Lemma read_ranges_ok q ranges result : wf q -> Forall range_ok ranges ->
  read_ranges q ranges result = if forallb (in_bounds q) ranges
    then Ok (result ++ flat_map (fun r => zsub (elems q) (start r) (end_ r)) ranges) else Err InvalidInput.
Proof.
  intros Hq Hr. revert result. induction Hr as [|[a b] rs (H1 & H2 & H3) _ IH]; intros result; [by rewrite app_nil_r|].
  cbn [read_ranges forallb flat_map start end_] in *. rewrite Sequence.seq_len_ok by done. mon. unfold in_bounds at 1. cbn [end_].
  rewrite Z.gtb_ltb. destruct (Z.ltb_spec (zlen (elems q)) b), (Z.leb_spec b (zlen (elems q))); try lia; [done|].
  unwrap. rewrite read_slice_ok by (done || lia). mon. rewrite IH. replace (a + (b - a)) with b by lia.
  cbn [andb]. destruct (forallb (in_bounds q) rs); [by rewrite app_assoc|done].
Qed.

(** Reading from past the end: the remaining length wraps and the slice is out
    of range. *)
Lemma range_from_past q from : wf q -> u64_ok from -> zlen (elems q) < from -> select_row_ids q (RangeFrom from) = Panic.
Proof.
  intros [Hw Hl] Hf Hlt. cbn [select_row_ids]. rewrite Sequence.seq_len_ok by done. mon. unfold read_slice, Sequence.slice.
  pose proof (zlen_nonneg (elems q)). uok.
  assert (zlen (elems q) -w from = 18446744073709551616 + zlen (elems q) - from) as E.
  { unfold wrap64. symmetry. apply (Z.mod_unique_pos _ _ (-1)); lia. }
  rewrite E, (proj2 (Z.eqb_neq _ _)) by lia.
  destruct (skip_segments_ok q from 0) as (pre & post & a & -> & -> & Ea & Ha & Hp); [done|uok; lia|].
  mon. rewrite Z.add_0_l. rewrite elems_app, zlen_app in *.
  assert (post = []) as ->.
  { destruct post as [|s post]; [done|]. rewrite zlen_elems_cons in *. pose proof (zlen_nonneg (elems post)). lia. }
  change (zlen (elems [])) with 0 in *. rewrite app_nil_r, Z.add_0_r in *.
  unfold zskip, zlen. rewrite Nat2Z.id, drop_all. cbn [last_segment]. mon. unfold idx_range.
  rewrite (proj2 (Z.leb_gt (Z.of_nat (length pre) + 1) _)) by (unfold zlen; lia). by rewrite andb_false_r.
Qed.

(** ** Properties *)

(** C38: [rechunk_sequences] over non-empty segments, each without repeated ids,
    hands out the ids of all sequences, in order, in chunks of the requested sizes.  It succeeds exactly
    when the sizes sum to the number of ids, or with [allow_incomplete] when
    they sum to at least that, the last chunks then being short; otherwise it
    returns an error.  An empty segment at the end makes it fail although the
    sizes match ([rechunk_trailing_empty]). *)
Theorem rechunk_spec qs sizes allow : Forall seg_item_ok (concat qs) -> nonempty Segment.elems (concat qs) -> Forall u64_ok sizes ->
  let l := concat (map elems qs) in
  (total sizes = zlen l \/ (allow = true /\ zlen l <= total sizes) ->
     exists chunked, rechunk_sequences qs sizes allow = Ok chunked /\
       map_res Sequence.iter chunked = Ok (split_by sizes l)) /\
  (total sizes < zlen l \/ (allow = false /\ zlen l < total sizes) -> rechunk_sequences qs sizes allow = Err InvalidInput).
Proof.
  intros Hs Hn Hz l. assert (all_vals Segment.elems (concat qs) = l) as El by apply elems_concat.
  destruct (rechunk_ok Segment.len SegmentBuild.slice Sequence.new (fun q s => Sequence.extend q [s])
    seg_item_ok Segment.elems (Forall Segment.wf) elems) with (items := concat qs) (sizes := sizes) (allow := allow) as [Hok Herr];
    try done; [..|rewrite El in *; split; [|done]].
  - intros s (Hw & _ & Hl). split; [by apply Segment.seg_len_ok|done].
  - intros s a n (Hw & Hd & Hl) Ha H0 Hle. destruct (SegmentBuild.seg_slice_ok s a n Hw Hd Ha) as (g & E & Hg & Eg); [lia|].
    exists g. split; [done|]. split; [|done]. split; [done|]. rewrite Eg. split; [by apply NoDup_zsub|].
    rewrite zlen_zsub by lia. lia.
  - intros q s Hq (Hs' & _). destruct (extend_ok q [s] Hq) as [Hw He]; [by constructor|]. split; [done|].
    by rewrite He, elems_cons, app_nil_r.
  - intros Hc. destruct (Hok Hc) as (cs & E & Hw & He). exists cs. split; [done|]. rewrite <- He.
    apply map_res_ok. eapply Forall_impl; [done|]. intros. by apply seq_iter_ok.
Qed.

Lemma rechunk_spec_witness :
  (exists chunked, rechunk_sequences [[Range_ (10 ..< 13)]; [Range_ (20 ..< 22); Range_ (5 ..< 9)]] [2; 4; 3] false = Ok chunked /\
     map_res Sequence.iter chunked = Ok [[10; 11]; [12; 20; 21; 5]; [6; 7; 8]]) /\
  rechunk_sequences [[Range_ (10 ..< 13)]; [Range_ (20 ..< 22); Range_ (5 ..< 9)]] [2; 4] true = Err InvalidInput.
Proof.
  assert (Forall seg_item_ok (concat [[Range_ (10 ..< 13)]; [Range_ (20 ..< 22); Range_ (5 ..< 9)]])) as Hs.
  { repeat constructor; try (vm_compute; done); apply (bool_decide_unpack _); vm_compute; done. }
  assert (nonempty Segment.elems (concat [[Range_ (10 ..< 13)]; [Range_ (20 ..< 22); Range_ (5 ..< 9)]])) as Hn by (repeat constructor; done).
  split.
  - apply (rechunk_spec _ [2; 4; 3] false Hs Hn); [repeat constructor; uok; lia|left; vm_compute; done].
  - apply (rechunk_spec _ [2; 4] true Hs Hn); [repeat constructor; uok; lia|left; vm_compute; done].
Defined.

(** An empty segment left at the end of the input, as deletion leaves them,
    makes [rechunk_sequences] report too many segments even though the sizes
    sum to exactly the number of ids. *)
Theorem rechunk_trailing_empty allow :
  (q ← Sequence.delete [Range_ (0 ..< 3); Range_ (10 ..< 11)] [10]; ids ← Sequence.iter q; Ok (q, ids)) =
    Ok ([Range_ (0 ..< 3); Range_ (0 ..< 0)], [0; 1; 2]) /\
  rechunk_sequences [[Range_ (0 ..< 3); Range_ (0 ..< 0)]] [3] allow = Err InvalidInput /\
  rechunk_sequences [[Range_ (0 ..< 0); Range_ (0 ..< 3)]] [3] allow = Ok [[Range_ (0 ..< 3)]].
Proof. destruct allow; vm_compute; done. Qed.

(** What a request selects: the ids, or [None] when it reaches out of bounds. *)
Definition selected (q : RowIdSequence) (offsets : ReadBatchParams) : option (list Z) :=
  let ids := elems q in
  match offsets with
  | Indices l => if forallb (fun i => i <? zlen ids) l then Some (omap (get_opt ids) l) else None
  | PRange r => if in_bounds q r then Some (zsub ids (start r) (end_ r)) else None
  | PRanges rs => if forallb (in_bounds q) rs then Some (flat_map (fun r => zsub ids (start r) (end_ r)) rs) else None
  | RangeFull => Some ids
  | RangeTo to => if to <=? zlen ids then Some (zsub ids 0 to) else None
  | RangeFrom from => if from <=? zlen ids then Some (zsub ids from (zlen ids)) else None
  end.

(** Requests a caller can form: ranges are not reversed, and the ranges of one
    request fit a vector. *)
Definition request_ok (offsets : ReadBatchParams) : Prop :=
  match offsets with
  | Indices l => Forall u32_ok l
  | PRange r => range_ok r
  | PRanges rs => Forall range_ok rs /\ Sequence.sum64 (map (fun r => end_ r -w start r) rs) <= VEC64_MAX
  | RangeFull => True
  | RangeTo n | RangeFrom n => u64_ok n
  end.

(** [select_row_ids] returns exactly the ids a request selects; a request
    out of bounds is an [InvalidInput] error, except that an open range
    starting past the end panics. *)
Theorem select_row_ids_spec q offsets : wf q -> request_ok offsets ->
  select_row_ids q offsets =
    match selected q offsets with
    | Some ids => Ok ids
    | None => match offsets with RangeFrom _ => Panic | _ => Err InvalidInput end
    end.
Proof.
  intros Hq Hr. destruct offsets as [r|rs| |to|from|l]; cbn [request_ok selected] in *.
  - cbn [select_row_ids]. rewrite Sequence.seq_len_ok by done. mon. destruct Hr as (H1 & H2 & H3). unfold in_bounds.
    rewrite Z.gtb_ltb. destruct (Z.ltb_spec (zlen (elems q)) (end_ r)), (Z.leb_spec (end_ r) (zlen (elems q))); try lia; [done|].
    unwrap. rewrite read_slice_ok by (done || lia). do 2 f_equal. lia.
  - cbn [select_row_ids]. destruct Hr as [Hr Hs]. unfold with_capacity. rewrite Z.gtb_ltb, (proj2 (Z.ltb_ge _ _)) by lia. mon.
    rewrite read_ranges_ok by done. by destruct (forallb _ rs).
  - cbn [select_row_ids]. apply Sequence.seq_iter_ok, Hq.
  - cbn [select_row_ids]. rewrite Sequence.seq_len_ok by done. mon. uok.
    rewrite Z.gtb_ltb. destruct (Z.ltb_spec (zlen (elems q)) to), (Z.leb_spec to (zlen (elems q))); try lia; [done|].
    by rewrite read_slice_ok by (done || lia).
  - destruct (Z.leb_spec from (zlen (elems q))); [|by apply range_from_past].
    cbn [select_row_ids]. rewrite Sequence.seq_len_ok by done. mon. pose proof Hq as [_ Hl]. uok. unwrap.
    rewrite read_slice_ok by (done || lia). do 2 f_equal. lia.
  - rewrite indices_ok by done. by destruct (forallb _ l).
Qed.

Lemma select_row_ids_spec_witness :
  select_row_ids [Range_ (10 ..< 13); Range_ (20 ..< 22)] (PRanges [0 ..< 1; 2 ..< 4]) = Ok [10; 12; 20] /\
  select_row_ids [Range_ (10 ..< 13); Range_ (20 ..< 22)] (Indices [4; 0; 5]) = Err InvalidInput /\
  select_row_ids [Range_ (10 ..< 13); Range_ (20 ..< 22)] (RangeFrom 6) = Panic.
Proof.
  assert (wf [Range_ (10 ..< 13); Range_ (20 ..< 22)]) as Hq
    by (split; [repeat constructor; vm_compute; done|vm_compute; done]).
  split; [|split].
  - rewrite (select_row_ids_spec _ _ Hq); [reflexivity|]. split; [repeat constructor; vm_compute; done|vm_compute; done].
  - rewrite (select_row_ids_spec _ _ Hq); [reflexivity|]. repeat constructor; uok; lia.
  - rewrite (select_row_ids_spec _ _ Hq); [reflexivity|]. cbn. uok. lia.
Defined.
