(* ===== verification/Prost.v ===== *)
(** * The protobuf codec interface

    The row-id metadata is written with the [prost] crate, which is not part of
    the repository.  This file states, as a type class, the operations the
    code calls and the documented wire-format facts it relies on, and gives an
    instance that implements the canonical protobuf encoding of these messages,
    so the facts are known to hold together.  The messages are those of
    [protos/rowids.proto]. *)

From Stdlib Require Import ZArith Lia.
From stdpp Require Import base option list numbers sorting sets gmap.
From S2P Require Import Prelude Lists Bits.

(** ** Messages *)

Inductive WireType := Varint | SixtyFourBit | LengthDelimited | StartGroup | EndGroup | ThirtyTwoBit.

#[global] Instance WireType_eq_dec : EqDecision WireType.
Proof. solve_decision. Defined.

(** [pb::EncodedU64Array] and its [oneof] *)
Inductive pb_array :=
| U16Array (base : Z) (offsets : list Z)
| U32Array (base : Z) (offsets : list Z)
| U64Array (values : list Z).
Definition pb_EncodedU64Array : Type := option pb_array.

(** [pb::U64Segment] and its [oneof] *)
Inductive pb_segment :=
| PbRange (start end_ : Z)
| PbRangeWithHoles (start end_ : Z) (holes : option pb_EncodedU64Array)
| PbRangeWithBitmap (start end_ : Z) (bitmap : list Z)
| PbSortedArray (array : pb_EncodedU64Array)
| PbArray (array : pb_EncodedU64Array).
Definition pb_U64Segment : Type := option pb_segment.

(** What the types of the messages guarantee: scalars are [u64], byte fields
    are bytes, and none is longer than [n]. *)
Definition bytes_ok (n : Z) (b : list Z) : Prop := Forall u8_ok b /\ zlen b <= n.

Definition pb_array_ok (n : Z) (a : pb_EncodedU64Array) : Prop :=
  match a with
  | Some (U16Array base b) | Some (U32Array base b) => u64_ok base /\ bytes_ok n b
  | Some (U64Array b) => bytes_ok n b
  | None => True
  end.

Definition pb_segment_ok (n : Z) (s : pb_U64Segment) : Prop :=
  match s with
  | Some (PbRange a b) => u64_ok a /\ u64_ok b
  | Some (PbRangeWithHoles a b h) => u64_ok a /\ u64_ok b /\ match h with Some h => pb_array_ok n h | None => True end
  | Some (PbRangeWithBitmap a b bm) => u64_ok a /\ u64_ok b /\ bytes_ok n bm
  | Some (PbSortedArray a) | Some (PbArray a) => pb_array_ok n a
  | None => True
  end.

(** ** The interface *)

Class Prost := {
  decode_key : list Z -> option (Z * WireType * list Z);
  decode_varint : list Z -> option (Z * list Z);
  (** [pb::U64Segment::decode] *)
  decode_segment : list Z -> option pb_U64Segment;
  (** [pb::RowIdSequence::encode_to_vec] *)
  encode_to_vec : list pb_U64Segment -> list Z;
  encode_key : Z -> WireType -> list Z;
  encode_varint : Z -> list Z;
  encode_segment : pb_U64Segment -> list Z
}.

(** A scalar field, left out when it has its default value. *)
Definition scalar_field `{Prost} (f v : Z) : list Z :=
  if v =? 0 then [] else encode_key f Varint ++ encode_varint v.

(** A message field, preceded by its length. *)
Definition message_field `{Prost} (f : Z) (body : list Z) : list Z :=
  encode_key f LengthDelimited ++ encode_varint (zlen body) ++ body.

Class ProstLaws `{Prost} : Prop := {
  (** Reading consumes input, and a varint is a [u64]. *)
  decode_key_consumes b k rest : decode_key b = Some (k, rest) -> exists p, p <> [] /\ b = p ++ rest;
  decode_varint_consumes b v rest : decode_varint b = Some (v, rest) -> u64_ok v /\ exists p, p <> [] /\ b = p ++ rest;
  (** A decoded message has values of its types, taken from the input. *)
  decode_segment_typed b s : Forall u8_ok b -> decode_segment b = Some s -> pb_segment_ok (zlen b) s;
  (** What was written is read back. *)
  decode_encode_key f w rest : 1 <= f <= 5 -> decode_key (encode_key f w ++ rest) = Some (f, w, rest);
  decode_encode_varint v rest : u64_ok v -> decode_varint (encode_varint v ++ rest) = Some (v, rest);
  decode_encode_segment n s : n <= VEC64_MAX -> pb_segment_ok n s -> decode_segment (encode_segment s) = Some s;
  encode_key_nonempty f w : encode_key f w <> [];
  (** The encoding of the messages. *)
  encode_to_vec_nil : encode_to_vec [] = [];
  encode_to_vec_cons s l : encode_to_vec (s :: l) = message_field 1 (encode_segment s) ++ encode_to_vec l;
  encode_segment_range a b :
    encode_segment (Some (PbRange a b)) = message_field 1 (scalar_field 1 a ++ scalar_field 2 b);
  encode_segment_other s : (forall a b, s <> PbRange a b) ->
    exists f body, 2 <= f <= 5 /\ encode_segment (Some s) = message_field f body;
  encode_segment_length n s : n <= VEC64_MAX -> pb_segment_ok n s -> zlen (encode_segment s) <= U64_MAX
}.

(** ** The canonical encoding *)

Module Wire.

Definition wire_code (w : WireType) : Z :=
  match w with Varint => 0 | SixtyFourBit => 1 | LengthDelimited => 2 | StartGroup => 3 | EndGroup => 4 | ThirtyTwoBit => 5 end.
Definition wire_of (z : Z) : option WireType :=
  match z with
  | 0 => Some Varint | 1 => Some SixtyFourBit | 2 => Some LengthDelimited | 3 => Some StartGroup | 4 => Some EndGroup
  | 5 => Some ThirtyTwoBit | _ => None
  end.

(** Base-128 groups, least significant first, at most ten. *)
Fixpoint enc (fuel : nat) (v : Z) : list Z :=
  match fuel with
  | O => []
  | S fuel => if v <? 128 then [v] else (v mod 128 + 128) :: enc fuel (v / 128)
  end.
Fixpoint dec (fuel : nat) (b : list Z) : option (Z * list Z) :=
  match fuel, b with
  | S fuel, x :: rest =>
      if x <? 128 then Some (x, rest)
      else '(v, rest) ← dec fuel rest; Some (x - 128 + 128 * v, rest)
  | _, _ => None
  end.

Definition varint (v : Z) : list Z := enc 10 v.
Definition get_varint (b : list Z) : option (Z * list Z) :=
  '(v, rest) ← dec 10 b; if (0 <=? v) && (v <=? U64_MAX) then Some (v, rest) else None.
Definition key (f : Z) (w : WireType) : list Z := varint (8 * f + wire_code w).
Definition get_key (b : list Z) : option (Z * WireType * list Z) :=
  '(v, rest) ← get_varint b; w ← wire_of (v mod 8); Some (v / 8, w, rest).

Definition scalar (f v : Z) : list Z := if v =? 0 then [] else key f Varint ++ varint v.
Definition message (f : Z) (body : list Z) : list Z := key f LengthDelimited ++ varint (zlen body) ++ body.
Definition bytes (f : Z) (b : list Z) : list Z := match b with [] => [] | _ => message f b end.

(** A field that may be left out. *)
Definition get_scalar (f : Z) (b : list Z) : option (Z * list Z) :=
  match get_key b with
  | Some (f', Varint, rest) => if f' =? f then get_varint rest else Some (0, b)
  | _ => Some (0, b)
  end.
Definition get_message (f : Z) (b : list Z) : option (option (list Z) * list Z) :=
  match get_key b with
  | Some (f', LengthDelimited, rest) =>
      if f' =? f then
        '(n, rest) ← get_varint rest;
        if n <=? zlen rest then Some (Some (ztake n rest), zskip n rest) else None
      else Some (None, b)
  | _ => Some (None, b)
  end.
Definition get_bytes (f : Z) (b : list Z) : option (list Z * list Z) :=
  '(m, rest) ← get_message f b; Some (match m with Some x => x | None => [] end, rest).

Definition array_body (a : pb_array) : list Z :=
  match a with
  | U16Array base b | U32Array base b => scalar 1 base ++ bytes 2 b
  | U64Array b => bytes 2 b
  end.
Definition array_tag (a : pb_array) : Z := match a with U16Array _ _ => 1 | U32Array _ _ => 2 | U64Array _ => 3 end.
Definition array (a : pb_EncodedU64Array) : list Z :=
  match a with Some a => message (array_tag a) (array_body a) | None => [] end.

Definition segment_body (s : pb_segment) : list Z :=
  match s with
  | PbRange a b => scalar 1 a ++ scalar 2 b
  | PbRangeWithHoles a b h => scalar 1 a ++ scalar 2 b ++ match h with Some h => message 3 (array h) | None => [] end
  | PbRangeWithBitmap a b bm => scalar 1 a ++ scalar 2 b ++ bytes 3 bm
  | PbSortedArray a | PbArray a => array a
  end.
Definition segment_tag (s : pb_segment) : Z :=
  match s with
  | PbRange _ _ => 1 | PbRangeWithHoles _ _ _ => 2 | PbRangeWithBitmap _ _ _ => 3 | PbSortedArray _ => 4 | PbArray _ => 5
  end.
Definition segment (s : pb_U64Segment) : list Z :=
  match s with Some s => message (segment_tag s) (segment_body s) | None => [] end.

(** One length-delimited field making up a whole message. *)
Definition get_oneof (b : list Z) : option (Z * list Z) :=
  '(k, rest) ← get_key b;
  match k with
  | (f, LengthDelimited) =>
      '(n, rest) ← get_varint rest; if n =? zlen rest then Some (f, rest) else None
  | _ => None
  end.

Definition done {A} (r : option (A * list Z)) : option A :=
  match r with Some (a, []) => Some a | _ => None end.

Definition get_packed (b : list Z) : option (Z * list Z * list Z) :=
  '(base, b) ← get_scalar 1 b; '(x, b) ← get_bytes 2 b; Some (base, x, b).

Definition get_array (b : list Z) : option pb_EncodedU64Array :=
  match b with
  | [] => Some None
  | _ =>
      '(f, body) ← get_oneof b;
      match f with
      | 1 => '(base, x) ← done (get_packed body); Some (Some (U16Array base x))
      | 2 => '(base, x) ← done (get_packed body); Some (Some (U32Array base x))
      | 3 => x ← done (get_bytes 2 body); Some (Some (U64Array x))
      | _ => None
      end
  end.

Definition get_bounds (b : list Z) : option (Z * Z * list Z) :=
  '(x, b) ← get_scalar 1 b; '(y, b) ← get_scalar 2 b; Some (x, y, b).

Definition get_segment (b : list Z) : option pb_U64Segment :=
  match b with
  | [] => Some None
  | _ =>
      '(f, body) ← get_oneof b;
      match f with
      | 1 => '(x, y) ← done (get_bounds body); Some (Some (PbRange x y))
      | 2 => '(x, y, body) ← get_bounds body;
             m ← done (get_message 3 body);
             match m with
             | Some h => a ← get_array h; Some (Some (PbRangeWithHoles x y (Some a)))
             | None => Some (Some (PbRangeWithHoles x y None))
             end
      | 3 => '(x, y, body) ← get_bounds body; bm ← done (get_bytes 3 body); Some (Some (PbRangeWithBitmap x y bm))
      | 4 => a ← get_array body; Some (Some (PbSortedArray a))
      | 5 => a ← get_array body; Some (Some (PbArray a))
      | _ => None
      end
  end.

(** *** Varints and keys *)

Lemma dec_enc fuel v rest : 0 <= v < 128 ^ Z.of_nat fuel -> (0 < fuel)%nat -> dec fuel (enc fuel v ++ rest) = Some (v, rest).
Proof.
  revert v. induction fuel as [|fuel IH]; intros v Hv Hf; [lia|]. cbn [enc].
  destruct (Z.ltb_spec v 128).
  - cbn [app dec]. by rewrite (proj2 (Z.ltb_lt _ _)).
  - pose proof (Z.div_mod v 128). pose proof (Z.mod_pos_bound v 128). cbn [app dec].
    rewrite (proj2 (Z.ltb_ge _ _)) by lia. rewrite Nat2Z.inj_succ, Z.pow_succ_r in Hv by lia.
    rewrite IH; [simpl; do 2 f_equal; lia|split; [apply Z.div_pos; lia|apply Z.div_lt_upper_bound; lia]|].
    destruct fuel; [cbn in Hv; lia|lia].
Qed.

Lemma get_varint_varint v rest : u64_ok v -> get_varint (varint v ++ rest) = Some (v, rest).
Proof.
  intros Hv. uok. unfold get_varint, varint. rewrite dec_enc by (cbn; lia). simpl.
  by rewrite (proj2 (Z.leb_le 0 v)), (proj2 (Z.leb_le v _)) by lia.
Qed.

Lemma varint_small v : v < 128 -> varint v = [v].
Proof. intros. unfold varint. cbn [enc]. by rewrite (proj2 (Z.ltb_lt _ _)). Qed.

Lemma wire_code_ok w : 0 <= wire_code w < 8 /\ wire_of (wire_code w) = Some w.
Proof. destruct w; cbn; split; (done || lia). Qed.

Lemma get_key_key f w rest : 1 <= f <= 5 -> get_key (key f w ++ rest) = Some (f, w, rest).
Proof.
  intros Hf. destruct (wire_code_ok w) as [Hw Ew]. unfold get_key, key. rewrite get_varint_varint by (uok; lia). simpl.
  rewrite Z.add_comm, Z.mul_comm, Z_mod_plus_full, Z.mod_small, Ew, Z.div_add, Z.div_small by lia. done.
Qed.

Lemma dec_consumes fuel b v rest : dec fuel b = Some (v, rest) -> exists p, p <> [] /\ b = p ++ rest.
Proof.
  revert b v. induction fuel as [|fuel IH]; intros [|x b] v; cbn [dec]; try done.
  destruct (x <? 128); [intros [= <- <-]; by exists [x]|].
  destruct (dec fuel b) as [[v' r]|] eqn:E; [|done]. simpl. intros [= <- <-].
  destruct (IH _ _ E) as (p & _ & ->). by exists (x :: p).
Qed.

Lemma get_varint_consumes b v rest : get_varint b = Some (v, rest) -> u64_ok v /\ exists p, p <> [] /\ b = p ++ rest.
Proof.
  unfold get_varint. destruct (dec 10 b) as [[v' r]|] eqn:E; [|done]. simpl.
  destruct ((0 <=? v') && (v' <=? U64_MAX)) eqn:Eb; [|done]. intros [= <- <-].
  apply andb_true_iff in Eb as [H1%Z.leb_le H2%Z.leb_le]. split; [uok; lia|by eapply dec_consumes].
Qed.

Lemma get_key_consumes b k rest : get_key b = Some (k, rest) -> exists p, p <> [] /\ b = p ++ rest.
Proof.
  unfold get_key. destruct (get_varint b) as [[v r]|] eqn:E; [|done]. simpl.
  destruct (wire_of _); [|done]. simpl. intros [= <- <-]. by eapply get_varint_consumes.
Qed.

(** *** Fields *)

(** The input does not go on with field [f]. *)
Definition other (f : Z) (b : list Z) : Prop := match get_key b with Some (f', _, _) => f' <> f | None => True end.

Lemma other_nil f : other f [].
Proof. done. Qed.

Lemma other_message f f' b rest : 1 <= f' <= 5 -> f <> f' -> other f (message f' b ++ rest).
Proof. intros. unfold other, message. rewrite <- app_assoc, get_key_key by done. lia. Qed.

Lemma other_scalar f f' v rest : 1 <= f' <= 5 -> f <> f' -> other f rest -> other f (scalar f' v ++ rest).
Proof.
  intros. unfold scalar. destruct (v =? 0); [done|]. unfold other. rewrite <- app_assoc, get_key_key by done. lia.
Qed.

Lemma other_bytes f f' b rest : 1 <= f' <= 5 -> f <> f' -> other f rest -> other f (bytes f' b ++ rest).
Proof. intros. destruct b; [done|]. by apply other_message. Qed.

Lemma get_scalar_scalar f v rest : 1 <= f <= 5 -> u64_ok v -> other f rest ->
  get_scalar f (scalar f v ++ rest) = Some (v, rest).
Proof.
  intros Hf Hv Ho. unfold get_scalar, scalar. destruct (Z.eqb_spec v 0) as [->|].
  - cbn [app]. unfold other in Ho. destruct (get_key rest) as [[[f' w] r]|]; [|done].
    destruct w; try done. by rewrite (proj2 (Z.eqb_neq _ _)).
  - rewrite <- app_assoc, get_key_key, Z.eqb_refl by done. by apply get_varint_varint.
Qed.

Lemma ztake_app_exact (b rest : list Z) : ztake (zlen b) (b ++ rest) = b /\ zskip (zlen b) (b ++ rest) = rest.
Proof. unfold ztake, zskip, zlen. rewrite Nat2Z.id. by rewrite take_app_length, drop_app_length. Qed.

Lemma get_message_message f b rest : 1 <= f <= 5 -> zlen b <= U64_MAX ->
  get_message f (message f b ++ rest) = Some (Some b, rest).
Proof.
  intros Hf Hb. unfold get_message, message. rewrite <- !app_assoc, get_key_key, Z.eqb_refl by done.
  pose proof (zlen_nonneg b). pose proof (zlen_nonneg rest). rewrite get_varint_varint by (uok; lia). simpl.
  rewrite (proj2 (Z.leb_le _ _)) by (rewrite zlen_app; lia). destruct (ztake_app_exact b rest) as [-> ->]. done.
Qed.

Lemma get_message_other f b : other f b -> get_message f b = Some (None, b).
Proof.
  unfold other, get_message. destruct (get_key b) as [[[f' w] r]|]; [|done]. destruct w; try done.
  intros. by rewrite (proj2 (Z.eqb_neq _ _)).
Qed.

Lemma get_bytes_bytes f b rest : 1 <= f <= 5 -> zlen b <= U64_MAX -> other f rest ->
  get_bytes f (bytes f b ++ rest) = Some (b, rest).
Proof.
  intros. unfold get_bytes. destruct b as [|x b]; [cbn [bytes app]; by rewrite get_message_other|].
  cbn [bytes]. by rewrite get_message_message.
Qed.

Lemma get_oneof_message f b : 1 <= f <= 5 -> zlen b <= U64_MAX -> get_oneof (message f b) = Some (f, b).
Proof.
  intros. unfold get_oneof, message. rewrite get_key_key by done. simpl. pose proof (zlen_nonneg b).
  rewrite get_varint_varint by (uok; lia). simpl. by rewrite Z.eqb_refl.
Qed.

Lemma message_nonempty f b : 1 <= f <= 5 -> message f b <> [].
Proof. intros. unfold message, key. rewrite varint_small by (cbn; lia). done. Qed.

(** *** Lengths *)

Lemma enc_length fuel v : zlen (enc fuel v) <= Z.of_nat fuel.
Proof.
  revert v. induction fuel as [|fuel IH]; intros v; [done|]. cbn [enc]. destruct (v <? 128); rewrite zlen_cons.
  - rewrite zlen_nil. lia.
  - specialize (IH (v / 128)). lia.
Qed.

Lemma varint_length v : zlen (varint v) <= 10.
Proof. apply enc_length. Qed.

Lemma scalar_length f v : zlen (scalar f v) <= 20.
Proof.
  unfold scalar. destruct (v =? 0); [rewrite zlen_nil; lia|]. rewrite zlen_app.
  pose proof (varint_length (8 * f + wire_code Varint)). pose proof (varint_length v). unfold key. lia.
Qed.

Lemma message_length f b : zlen (message f b) <= 20 + zlen b.
Proof.
  unfold message, key. rewrite !zlen_app. pose proof (varint_length (8 * f + wire_code LengthDelimited)).
  pose proof (varint_length (zlen b)). lia.
Qed.

Lemma bytes_length f b : zlen (bytes f b) <= 20 + zlen b.
Proof. destruct b; [cbn; lia|apply message_length]. Qed.

(** *** Messages *)

Lemma array_body_length n a : pb_array_ok n (Some a) -> 0 <= n -> zlen (array_body a) <= 40 + n.
Proof.
  intros Ha Hn. destruct a as [base b|base b|b]; cbn [pb_array_ok array_body] in *; rewrite ?zlen_app.
  1, 2: destruct Ha as (_ & _ & Hb); pose proof (scalar_length 1 base); pose proof (bytes_length 2 b); lia.
  destruct Ha as (_ & Hb). pose proof (bytes_length 2 b). lia.
Qed.

Lemma array_length n a : pb_array_ok n a -> 0 <= n -> zlen (array a) <= 60 + n.
Proof.
  intros Ha Hn. destruct a as [a|]; cbn [array]; [|rewrite zlen_nil; lia].
  pose proof (array_body_length n a Ha Hn). pose proof (message_length (array_tag a) (array_body a)). lia.
Qed.

Lemma segment_body_length n s : pb_segment_ok n (Some s) -> 0 <= n -> zlen (segment_body s) <= 120 + n.
Proof.
  intros Hs Hn. destruct s as [a b|a b h|a b bm|a|a]; cbn [pb_segment_ok segment_body] in *; rewrite ?zlen_app.
  - pose proof (scalar_length 1 a). pose proof (scalar_length 2 b). lia.
  - pose proof (scalar_length 1 a). pose proof (scalar_length 2 b). destruct h as [h|]; [|rewrite zlen_nil; lia].
    destruct Hs as (_ & _ & Hh). pose proof (array_length n h Hh Hn). pose proof (message_length 3 (array h)). lia.
  - pose proof (scalar_length 1 a). pose proof (scalar_length 2 b). pose proof (bytes_length 3 bm).
    destruct Hs as (_ & _ & _ & Hb). lia.
  - pose proof (array_length n a Hs Hn). lia.
  - pose proof (array_length n a Hs Hn). lia.
Qed.

Lemma get_packed_ok base b : u64_ok base -> zlen b <= U64_MAX -> done (get_packed (scalar 1 base ++ bytes 2 b)) = Some (base, b).
Proof.
  intros. unfold get_packed. rewrite get_scalar_scalar; [|lia|done|].
  - simpl. rewrite <- (app_nil_r (bytes 2 b)), get_bytes_bytes by (lia || apply other_nil). done.
  - rewrite <- (app_nil_r (bytes 2 b)). apply other_bytes; [lia|lia|apply other_nil].
Qed.

Lemma get_bytes_last f b : 1 <= f <= 5 -> zlen b <= U64_MAX -> done (get_bytes f (bytes f b)) = Some b.
Proof. intros. rewrite <- (app_nil_r (bytes f b)), get_bytes_bytes by (lia || apply other_nil). done. Qed.

Lemma get_bounds_ok a b rest : u64_ok a -> u64_ok b -> other 1 rest -> other 2 rest ->
  get_bounds (scalar 1 a ++ scalar 2 b ++ rest) = Some (a, b, rest).
Proof.
  intros. unfold get_bounds. rewrite get_scalar_scalar; [|lia|done|apply other_scalar; (lia || done)]. simpl.
  by rewrite get_scalar_scalar by (lia || done).
Qed.

Lemma array_ok_length n a : pb_array_ok n (Some a) -> zlen (match a with U16Array _ b | U32Array _ b | U64Array b => b end) <= n.
Proof. destruct a; cbn; intros Ha; apply Ha. Qed.

Lemma get_array_array n a : n <= VEC64_MAX -> pb_array_ok n a -> get_array (array a) = Some a.
Proof.
  intros Hn Ha. destruct a as [a|]; [|done]. pose proof (array_ok_length n a Ha) as Hb.
  assert (0 <= n) as H0 by (eapply Z.le_trans; [|exact Hb]; apply zlen_nonneg).
  pose proof (array_body_length n a Ha H0). unfold get_array, array.
  destruct (message (array_tag a) (array_body a)) as [|x l] eqn:E;
    [by apply message_nonempty in E; [|destruct a; cbn; lia]|rewrite <- E; clear E x l].
  rewrite get_oneof_message by (destruct a; cbn in *; lia). simpl.
  destruct a as [base b|base b|b]; cbn [array_tag array_body pb_array_ok] in *.
  - rewrite get_packed_ok by (lia || apply Ha). done.
  - rewrite get_packed_ok by (lia || apply Ha). done.
  - rewrite get_bytes_last by lia. done.
Qed.

Lemma segment_ok_nonneg n s : n <= VEC64_MAX -> pb_segment_ok n s -> exists m, 0 <= m <= VEC64_MAX /\ pb_segment_ok m s.
Proof.
  intros Hn Hs. exists (Z.max 0 n). split; [lia|].
  assert (forall b, bytes_ok n b -> bytes_ok (Z.max 0 n) b) as Hb by (intros b [? ?]; split; [done|lia]).
  assert (forall a, pb_array_ok n a -> pb_array_ok (Z.max 0 n) a) as Ha by (intros [[| |]|]; cbn; intuition).
  destruct s as [[| |? ? ?| |]|]; cbn in *; intuition. destruct holes; auto.
Qed.

Lemma get_segment_segment n s : n <= VEC64_MAX -> pb_segment_ok n s -> get_segment (segment s) = Some s.
Proof.
  intros Hn' Hs'. destruct (segment_ok_nonneg n s Hn' Hs') as (m & Hm & Hs). clear n Hn' Hs'. destruct s as [s|]; [|done].
  pose proof (segment_body_length m s Hs ltac:(lia)). unfold get_segment, segment.
  destruct (message (segment_tag s) (segment_body s)) as [|x l] eqn:E;
    [by apply message_nonempty in E; [|destruct s; cbn; lia]|rewrite <- E; clear E x l].
  rewrite get_oneof_message by (destruct s; cbn in *; lia). cbn [mbind option_bind].
  destruct s as [a b|a b h|a b bm|a|a]; cbn [segment_tag segment_body pb_segment_ok] in *.
  - rewrite <- (app_nil_r (scalar 2 b)), get_bounds_ok by (apply Hs || apply other_nil). done.
  - destruct h as [h|].
    + destruct Hs as (Ha & Hb & Hh). rewrite <- (app_nil_r (message 3 (array h))).
      rewrite get_bounds_ok by (done || (apply other_message; lia)). cbn [mbind option_bind].
      pose proof (array_length m h Hh ltac:(lia)). rewrite get_message_message by lia. cbn [mbind option_bind done].
      by rewrite (get_array_array m h) by (done || lia).
    + rewrite get_bounds_ok by (apply Hs || apply other_nil). done.
  - destruct Hs as (Ha & Hb & _ & Hbm). rewrite <- (app_nil_r (bytes 3 bm)).
    rewrite get_bounds_ok by (done || (apply other_bytes; (lia || apply other_nil))). cbn [mbind option_bind].
    rewrite app_nil_r, get_bytes_last by lia. done.
  - by rewrite (get_array_array m a) by (done || lia).
  - by rewrite (get_array_array m a) by (done || lia).
Qed.

(** *** Decoded values have their types *)

Definition suffix_of (rest b : list Z) : Prop := exists p, b = p ++ rest.

Lemma suffix_ok rest b : suffix_of rest b -> Forall u8_ok b -> Forall u8_ok rest /\ zlen rest <= zlen b.
Proof. intros [p ->] [_ ?]%Forall_app. split; [done|]. rewrite zlen_app. pose proof (zlen_nonneg p). lia. Qed.

Lemma get_scalar_typed f b v rest : get_scalar f b = Some (v, rest) -> u64_ok v /\ suffix_of rest b.
Proof.
  assert (Some (0, b) = Some (v, rest) -> u64_ok v /\ suffix_of rest b) as H0.
  { intros [= <- <-]. split; [uok; lia|by exists []]. }
  unfold get_scalar. destruct (get_key b) as [[[f' w] r]|] eqn:E; [|done]. destruct w; try done.
  destruct (f' =? f); [|done]. intros [Hv (p & _ & ->)]%get_varint_consumes. split; [done|].
  apply get_key_consumes in E as (p' & _ & ->). exists (p' ++ p). by rewrite <- app_assoc.
Qed.

Lemma get_message_typed f b m rest : get_message f b = Some (m, rest) -> Forall u8_ok b ->
  suffix_of rest b /\ match m with Some x => bytes_ok (zlen b) x | None => True end.
Proof.
  assert (Some (None, b) = Some (m, rest) -> suffix_of rest b /\ match m with Some x => bytes_ok (zlen b) x | None => True end) as H0.
  { intros [= <- <-]. split; [by exists []|done]. }
  intros Hm Hb. unfold get_message in Hm. destruct (get_key b) as [[[f' w] r]|] eqn:E; [|by apply H0].
  destruct w; try (by apply H0). destruct (f' =? f); [|by apply H0].
  destruct (get_varint r) as [[n r']|] eqn:En; [|done]. cbn [mbind option_bind] in Hm.
  destruct (n <=? zlen r'); [|done]. injection Hm as <- <-.
  apply get_key_consumes in E as (p & _ & ->). apply get_varint_consumes in En as (_ & p' & _ & ->).
  split; [exists (p ++ p' ++ ztake n r'); unfold ztake, zskip; by rewrite <- !app_assoc, take_drop|].
  rewrite !Forall_app in Hb. destruct Hb as (_ & _ & Hb). split; [by apply Forall_take|].
  rewrite !zlen_app. unfold ztake, zlen. rewrite length_take. lia.
Qed.

Lemma get_bytes_typed f b x rest : get_bytes f b = Some (x, rest) -> Forall u8_ok b -> suffix_of rest b /\ bytes_ok (zlen b) x.
Proof.
  unfold get_bytes. destruct (get_message f b) as [[m r]|] eqn:E; [|done]. cbn [mbind option_bind]. intros [= <- <-] Hb.
  destruct (get_message_typed _ _ _ _ E Hb) as [Hs Hm]. split; [done|]. destruct m; [done|].
  split; [constructor|rewrite zlen_nil; apply zlen_nonneg].
Qed.

Lemma get_oneof_typed b f body : get_oneof b = Some (f, body) -> suffix_of body b.
Proof.
  unfold get_oneof. destruct (get_key b) as [[[f' w] r]|] eqn:E; [|done]. cbn [mbind option_bind]. destruct w; try done.
  destruct (get_varint r) as [[n r']|] eqn:En; [|done]. cbn [mbind option_bind]. destruct (n =? zlen r'); [|done].
  intros [= <- <-]. apply get_key_consumes in E as (p & _ & ->). apply get_varint_consumes in En as (_ & p' & _ & ->).
  exists (p ++ p'). by rewrite <- app_assoc.
Qed.

Lemma bytes_ok_le n m b : bytes_ok n b -> n <= m -> bytes_ok m b.
Proof. intros [? ?] ?. split; [done|lia]. Qed.

Lemma get_packed_typed b base x : done (get_packed b) = Some (base, x) -> Forall u8_ok b -> u64_ok base /\ bytes_ok (zlen b) x.
Proof.
  unfold get_packed. destruct (get_scalar 1 b) as [[v r]|] eqn:E; [|done]. cbn [mbind option_bind].
  destruct (get_bytes 2 r) as [[y r']|] eqn:E2; [|done]. cbn [mbind option_bind done]. destruct r'; [|done]. intros [= <- <-] Hb.
  apply get_scalar_typed in E as [Hv Hs]. destruct (suffix_ok _ _ Hs Hb) as [Hr Hl].
  apply get_bytes_typed in E2 as [_ Hy]; [|done]. split; [done|by eapply bytes_ok_le].
Qed.

Lemma get_bounds_typed b x y rest : get_bounds b = Some (x, y, rest) -> Forall u8_ok b ->
  u64_ok x /\ u64_ok y /\ Forall u8_ok rest /\ zlen rest <= zlen b.
Proof.
  unfold get_bounds. destruct (get_scalar 1 b) as [[v r]|] eqn:E; [|done]. cbn [mbind option_bind].
  destruct (get_scalar 2 r) as [[w r']|] eqn:E2; [|done]. cbn [mbind option_bind]. intros [= <- <- <-] Hb.
  apply get_scalar_typed in E as [Hv Hs]. apply get_scalar_typed in E2 as [Hw Hs2].
  destruct (suffix_ok _ _ Hs Hb) as [Hr Hl]. destruct (suffix_ok _ _ Hs2 Hr) as [Hr2 Hl2].
  split; [done|]. split; [done|]. split; [done|lia].
Qed.

Lemma pb_array_ok_le n m a : pb_array_ok n a -> n <= m -> pb_array_ok m a.
Proof. destruct a as [[| |]|]; cbn; intuition; by eapply bytes_ok_le. Qed.

Lemma get_array_typed b a : get_array b = Some a -> Forall u8_ok b -> pb_array_ok (zlen b) a.
Proof.
  intros Ha Hb. assert (b = [] \/ exists f body, get_oneof b = Some (f, body) /\
    (match f with
      | 1 => '(base, x) ← done (get_packed body); Some (Some (U16Array base x))
      | 2 => '(base, x) ← done (get_packed body); Some (Some (U32Array base x))
      | 3 => x ← done (get_bytes 2 body); Some (Some (U64Array x))
      | _ => None
      end) = Some a) as [->|(f & body & E & Hf)].
  { unfold get_array in Ha. destruct b as [|z b]; [by left|right].
    destruct (get_oneof (z :: b)) as [[f body]|]; [|done]. eauto. }
  { by injection Ha as <-. }
  apply get_oneof_typed in E. destruct (suffix_ok _ _ E Hb) as [Hbody Hl]. eapply pb_array_ok_le; [|exact Hl].
  destruct f as [|[[p|p|]|[p|p|]|]|p]; try done; cbn [pb_array_ok].
  - destruct (get_bytes 2 body) as [[x r]|] eqn:E2; [|done]. cbn [done] in Hf. destruct r; [|done]. cbn in Hf. injection Hf as <-.
    by apply get_bytes_typed in E2 as [_ ?].
  - destruct (done (get_packed body)) as [[base x]|] eqn:E2; [|done]. cbn in Hf. injection Hf as <-. by apply get_packed_typed.
  - destruct (done (get_packed body)) as [[base x]|] eqn:E2; [|done]. cbn in Hf. injection Hf as <-. by apply get_packed_typed.
Qed.

Lemma get_holes_typed b m : done (get_message 3 b) = Some m -> Forall u8_ok b ->
  match m with Some h => Forall u8_ok h /\ zlen h <= zlen b | None => True end.
Proof.
  intros Hm Hb. destruct (get_message 3 b) as [[m' r]|] eqn:E; [|done]. cbn [done] in Hm. destruct r; [|done]. injection Hm as <-.
  apply get_message_typed in E as [_ E]; [|done]. by destruct m'.
Qed.

(** The body of a segment message. *)
Definition get_segment_body (f : Z) (body : list Z) : option pb_U64Segment :=
  match f with
  | 1 => '(x, y) ← done (get_bounds body); Some (Some (PbRange x y))
  | 2 => '(x, y, body) ← get_bounds body;
         m ← done (get_message 3 body);
         match m with
         | Some h => a ← get_array h; Some (Some (PbRangeWithHoles x y (Some a)))
         | None => Some (Some (PbRangeWithHoles x y None))
         end
  | 3 => '(x, y, body) ← get_bounds body; bm ← done (get_bytes 3 body); Some (Some (PbRangeWithBitmap x y bm))
  | 4 => a ← get_array body; Some (Some (PbSortedArray a))
  | 5 => a ← get_array body; Some (Some (PbArray a))
  | _ => None
  end.

Lemma get_segment_body_typed f b s : get_segment_body f b = Some s -> Forall u8_ok b -> pb_segment_ok (zlen b) s.
Proof.
  intros Hs Hb. destruct f as [|[[[| |]|[| |]|]|[[| |]|[| |]|]|]|]; try done; cbn [get_segment_body] in Hs.
  - destruct (get_array b) as [a|] eqn:E; [|done]. injection Hs as <-. by apply get_array_typed.
  - destruct (get_bounds b) as [[[x y] r]|] eqn:E; [|done]. cbn [mbind option_bind] in Hs.
    apply get_bounds_typed in E as (Hx & Hy & Hr & Hl); [|done].
    destruct (get_bytes 3 r) as [[bm r']|] eqn:E2; [|done]. cbn [done] in Hs. destruct r'; [|done]. injection Hs as <-.
    apply get_bytes_typed in E2 as [_ E2]; [|done]. cbn. split; [done|]. split; [done|by eapply bytes_ok_le].
  - destruct (get_array b) as [a|] eqn:E; [|done]. injection Hs as <-. by apply get_array_typed.
  - destruct (get_bounds b) as [[[x y] r]|] eqn:E; [|done]. cbn [mbind option_bind] in Hs.
    apply get_bounds_typed in E as (Hx & Hy & Hr & Hl); [|done].
    destruct (done (get_message 3 r)) as [m|] eqn:E2; [|done]. cbn [mbind option_bind] in Hs.
    apply get_holes_typed in E2; [|done]. destruct m as [h|]; [|injection Hs as <-; done].
    destruct (get_array h) as [a|] eqn:E3; [|done]. injection Hs as <-. destruct E2 as [Hh Hhl].
    apply get_array_typed in E3; [|done]. cbn. split; [done|]. split; [done|]. eapply pb_array_ok_le; [done|lia].
  - destruct (get_bounds b) as [[[x y] r]|] eqn:E; [|done]. cbn [done] in Hs. destruct r; [|done]. injection Hs as <-.
    apply get_bounds_typed in E as (Hx & Hy & _); [|done]. done.
Qed.

Lemma pb_segment_ok_le n m s : pb_segment_ok n s -> n <= m -> pb_segment_ok m s.
Proof.
  destruct s as [[| ? ? h | | |]|]; cbn; intuition; try (by eapply bytes_ok_le); try (by eapply pb_array_ok_le).
  destruct h; [by eapply pb_array_ok_le|done].
Qed.

Lemma get_segment_typed b s : Forall u8_ok b -> get_segment b = Some s -> pb_segment_ok (zlen b) s.
Proof.
  intros Hb Hs. unfold get_segment in Hs. destruct b as [|z b]; [by injection Hs as <-|].
  destruct (get_oneof (z :: b)) as [[f body]|] eqn:E; [|done]. cbn [mbind option_bind] in Hs.
  apply get_oneof_typed in E. destruct (suffix_ok _ _ E Hb) as [Hbody Hl].
  eapply pb_segment_ok_le; [|exact Hl]. by apply (get_segment_body_typed f).
Qed.

End Wire.

(** Not declared as an instance: the code is verified for any codec. *)
Definition WireProst : Prost := {|
  decode_key := Wire.get_key;
  decode_varint := Wire.get_varint;
  decode_segment := Wire.get_segment;
  encode_to_vec := fun l => concat (map (fun s => Wire.message 1 (Wire.segment s)) l);
  encode_key := Wire.key;
  encode_varint := Wire.varint;
  encode_segment := Wire.segment
|}.

Lemma WireProst_laws : @ProstLaws WireProst.
Proof.
  split.
  - intros b [f w] rest. apply Wire.get_key_consumes.
  - apply Wire.get_varint_consumes.
  - apply Wire.get_segment_typed.
  - apply Wire.get_key_key.
  - apply Wire.get_varint_varint.
  - apply Wire.get_segment_segment.
  - intros f w. unfold encode_key, WireProst, Wire.key, Wire.varint. cbn [Wire.enc]. by destruct (_ <? 128).
  - done.
  - done.
  - done.
  - intros s Hs. exists (Wire.segment_tag s), (Wire.segment_body s). split; [|done].
    destruct s; cbn; try lia. by destruct (Hs start end_).
  - intros n s Hn Hs. destruct (Wire.segment_ok_nonneg n s Hn Hs) as (m & Hm & Hs'). destruct s as [s|]; [|change (zlen (@encode_segment WireProst None)) with 0; lia].
    cbn [encode_segment WireProst Wire.segment]. pose proof (Wire.message_length (Wire.segment_tag s) (Wire.segment_body s)).
    pose proof (Wire.segment_body_length m s Hs' ltac:(lia)). lia.
Qed.
