(* ===== verification/Serde.v ===== *)
(** * Row-id metadata on the wire

    [lance-table/src/rowids/serde.rs]: the conversion of segments to and from
    their protobuf messages, the validation of what is read, and the reader
    that folds runs of [Range] segments back into one compact segment.  The
    theorems are proved for any codec that satisfies [ProstLaws]. *)

From Stdlib Require Import ZArith Lia.
From stdpp Require Import base option list numbers sorting sets gmap.
From S2P Require Import Prelude Lists Bits Bitmap EncodedArray HoleRuns Segment SegmentBuild SegmentRuns Sequence Prost.

(** ** Model *)

Definition validate_range (start end_ : Z) : res Z := ok_or (checked_sub end_ start) CorruptFile.

Definition validate_packed_array_length (byte_len width : Z) : res unit :=
  if byte_len mod width =? 0 then Ok tt else Err CorruptFile.

(** [find], the block-wise scan of [first_non_increasing_pair] *)
Definition BLOCK : Z := 64.

Definition block_pairs (values : list Z) (at_ end_ : Z) : res (list (Z * Z)) :=
  l ← idx_range values at_ end_;
  r ← idx_range values (at_ + 1) (end_ + 1);
  Ok (zip l r).

Fixpoint find_loop (fuel : nat) (values : list Z) (at_ : Z) : res (option Z) :=
  match fuel with
  | O => Panic
  | S fuel =>
      if at_ +w 1 <? zlen values then
        let stop := Z.min (at_ +w BLOCK) (zlen values -w 1) in
        pairs ← block_pairs values at_ stop;
        if negb (foldl (fun (sorted : bool) pair => sorted && (fst pair <? snd pair)) true pairs) then
          Ok (option_map (fun offset => at_ +w offset) (iter_position (fun pair => fst pair >=? snd pair) pairs))
        else find_loop fuel values stop
      else Ok None
  end.

Definition find_pair (values : list Z) : res (option Z) := find_loop (S (length values)) values 0.

Definition first_non_increasing_pair (array : EncodedU64Array) : res (option (Z * Z * Z)) :=
  index ← find_pair (match array with U16 _ offsets | U32 _ offsets => offsets | U64 values => values end);
  match index with
  | None => Ok None
  | Some index =>
      previous ← EncodedArray.get array index;
      match previous with
      | None => Ok None
      | Some previous =>
          next ← EncodedArray.get array (index +w 1);
          Ok (option_map (fun next => (index, previous, next)) next)
      end
  end.

Definition FOLD_GAP : Z := 65536.

Definition flush_ranges (pending : list Range) (out : list U64Segment) : list U64Segment :=
  match from_sorted_ranges pending with
  | Some segment => out ++ [segment]
  | None => out ++ map Range_ pending
  end.

Definition push_range (pending : list Range) (out : list U64Segment) (range : Range) : list Range * list U64Segment :=
  match list.last pending with
  | Some last =>
      if end_ last =? start range then (removelast pending ++ [start last ..< end_ range], out)
      else if (end_ last >? start range) || (start range -w end_ last >? FOLD_GAP)
      then ([range], flush_ranges pending out)
      else (pending ++ [range], out)
  | None => (pending ++ [range], out)
  end.

(** [offsets.as_chunks::<N>().0.iter().map(uM::from_le_bytes)] *)
Definition from_le_chunks (n : nat) (b : list Z) : list Z := map from_le_bytes (fst (as_chunks n b)).

(** [base.checked_add(u64::from(max_offset)).is_none()] *)
Definition max_overflows (base : Z) (offsets : list Z) : bool :=
  match iter_max offsets with
  | Some max_offset => match checked_add base max_offset with None => true | Some _ => false end
  | None => false
  end.

(** [TryFrom<pb::EncodedU64Array> for EncodedU64Array] *)
Definition try_from_array (pb : pb_EncodedU64Array) : res EncodedU64Array :=
  match pb with
  | Some (U16Array base offsets) =>
      _ ← validate_packed_array_length (zlen offsets) 2;
      let offsets := from_le_chunks 2 offsets in
      if max_overflows base offsets then Err CorruptFile else Ok (U16 base offsets)
  | Some (U32Array base offsets) =>
      _ ← validate_packed_array_length (zlen offsets) 4;
      let offsets := from_le_chunks 4 offsets in
      if max_overflows base offsets then Err CorruptFile else Ok (U32 base offsets)
  | Some (U64Array values) =>
      _ ← validate_packed_array_length (zlen values) 8;
      Ok (U64 (from_le_chunks 8 values))
  | None => Err CorruptFile
  end.

(** [TryFrom<pb::U64Segment> for U64Segment] *)
Definition try_from_segment (pb : pb_U64Segment) : res U64Segment :=
  match pb with
  | Some (PbRange start end_) =>
      _ ← validate_range start end_;
      Ok (Range_ (start ..< end_))
  | Some (PbRangeWithHoles start end_ holes) =>
      _ ← validate_range start end_;
      holes ← ok_or holes CorruptFile;
      holes ← try_from_array holes;
      pair ← first_non_increasing_pair holes;
      match pair with
      | Some _ => Err CorruptFile
      | None =>
          match find (fun hole => (hole <? start) || (hole >=? end_)) (EncodedArray.iter holes) with
          | Some _ => Err CorruptFile
          | None => Ok (RangeWithHoles (start ..< end_) holes)
          end
      end
  | Some (PbRangeWithBitmap start end_ bitmap) =>
      range_len ← validate_range start end_;
      let expected_bitmap_len := div_ceil range_len 8 in
      if negb (zlen bitmap =? expected_bitmap_len) then Err CorruptFile else
      let remainder := range_len mod 8 in
      if negb (remainder =? 0) then
        let padding_mask := not8 (wrap8 (wrap8 (Z.shiftl 1 remainder) - 1)) in
        last_byte ← idx bitmap (expected_bitmap_len - 1);
        if negb (Z.land last_byte padding_mask =? 0) then Err CorruptFile
        else Ok (RangeWithBitmap (start ..< end_) (Bitmap.from_parts bitmap range_len))
      else Ok (RangeWithBitmap (start ..< end_) (Bitmap.from_parts bitmap range_len))
  | Some (PbSortedArray array) =>
      array ← try_from_array array;
      pair ← first_non_increasing_pair array;
      match pair with Some _ => Err CorruptFile | None => Ok (SortedArray array) end
  | Some (PbArray array) => array ← try_from_array array; Ok (Array array)
  | None => Err CorruptFile
  end.

Definition le_bytes (width : nat) (values : list Z) : list Z := flat_map (to_le_bytes width) values.

(** [From<EncodedU64Array> for pb::EncodedU64Array] *)
Definition array_to_pb (array : EncodedU64Array) : pb_EncodedU64Array :=
  match array with
  | U16 base offsets => Some (U16Array base (le_bytes 2 offsets))
  | U32 base offsets => Some (U32Array base (le_bytes 4 offsets))
  | U64 values => Some (U64Array (le_bytes 8 values))
  end.

(** [From<U64Segment> for pb::U64Segment] *)
Definition segment_to_pb (segment : U64Segment) : res pb_U64Segment :=
  match segment with
  | Range_ r => Ok (Some (PbRange (start r) (end_ r)))
  | RangeWithHoles r holes => Ok (Some (PbRangeWithHoles (start r) (end_ r) (Some (array_to_pb holes))))
  | RangeWithBitmap r bitmap => Ok (Some (PbRangeWithBitmap (start r) (end_ r) (Bitmap.into_bytes bitmap)))
  | Ranges _ _ => Panic
  | SortedArray array => Ok (Some (PbSortedArray (array_to_pb array)))
  | Array array => Ok (Some (PbArray (array_to_pb array)))
  end.

(** The segments one in-memory segment is written as. *)
Definition wire_segments (segment : U64Segment) : res (list pb_U64Segment) :=
  match segment with
  | Ranges r runs =>
      present ← HoleRuns.present_ranges runs;
      map_res (fun p => segment_to_pb (Range_ (start r +w start p ..< start r +w end_ p))) present
  | other => pb ← segment_to_pb other; Ok [pb]
  end.

(** [From<RowIdSequence> for pb::RowIdSequence] *)
Definition sequence_to_pb (q : RowIdSequence) : res (list pb_U64Segment) :=
  l ← map_res wire_segments q; Ok (concat l).

Section Wire.
Context `{Prost}.

Definition write_row_ids (q : RowIdSequence) : res (list Z) :=
  pb ← sequence_to_pb q; Ok (encode_to_vec pb).

(** The fields of a [Range] message. *)
Fixpoint range_fields (fuel : nat) (bytes : list Z) (start end_ : Z) : option (Z * Z) :=
  match fuel with
  | O => None
  | S fuel =>
      match bytes with
      | [] => Some (start, end_)
      | _ =>
          '(k, bytes) ← decode_key bytes;
          let '(field, wire_type) := k : Z * WireType in
          if negb (bool_decide (wire_type = Varint)) then None else
          '(value, bytes) ← decode_varint bytes;
          if field =? 1 then range_fields fuel bytes value end_
          else if field =? 2 then range_fields fuel bytes start value
          else None
      end
  end.

Definition plain_range (bytes : list Z) : option Range :=
  '(k, bytes) ← decode_key bytes;
  let '(field, wire_type) := k : Z * WireType in
  if negb (field =? 1) || negb (bool_decide (wire_type = LengthDelimited)) then None else
  '(len, bytes) ← decode_varint bytes;
  if negb (len =? zlen bytes) then None else
  '(start, end_) ← range_fields (S (length bytes)) bytes 0 0;
  if start <? end_ then Some (start ..< end_) else None.

Fixpoint read_loop (fuel : nat) (buf : list Z) (pending : list Range) (segments : list U64Segment)
    : res (list Range * list U64Segment) :=
  match fuel with
  | O => Panic
  | S fuel =>
      match buf with
      | [] => Ok (pending, segments)
      | _ =>
          '(k, buf) ← ok_or (decode_key buf) CorruptFile;
          let '(field, wire_type) := k : Z * WireType in
          if negb (field =? 1) || negb (bool_decide (wire_type = LengthDelimited)) then Err CorruptFile else
          '(len, buf) ← ok_or (decode_varint buf) CorruptFile;
          if len >? zlen buf then Err CorruptFile else
          let segment := ztake len buf in
          let buf := zskip len buf in
          match plain_range segment with
          | Some range =>
              let '(pending, segments) := push_range pending segments range in
              read_loop fuel buf pending segments
          | None =>
              let segments := flush_ranges pending segments in
              pb ← ok_or (decode_segment segment) CorruptFile;
              s ← try_from_segment pb;
              read_loop fuel buf [] (segments ++ [s])
          end
      end
  end.

(** The sum of the lengths, [None] once it leaves [u64]. *)
Fixpoint checked_total (total : Z) (segments : list U64Segment) : res (option Z) :=
  match segments with
  | [] => Ok (Some total)
  | s :: rest =>
      n ← Segment.len s;
      match checked_add total n with
      | Some total => checked_total total rest
      | None => Ok None
      end
  end.

Definition read_row_ids (buf : list Z) : res RowIdSequence :=
  '(pending, segments) ← read_loop (S (length buf)) buf [] [];
  let segments := flush_ranges pending segments in
  total ← checked_total 0 segments;
  _ ← ok_or total CorruptFile;
  Ok segments.

(** [TryFrom<pb::RowIdSequence> for RowIdSequence] *)
Definition try_from_sequence (pb : list pb_U64Segment) : res RowIdSequence := read_row_ids (encode_to_vec pb).

End Wire.

(** ** The block-wise order check *)

(** The first adjacent pair that does not increase. *)
Definition descent (l : list Z) : option Z := iter_position (fun pair => fst pair >=? snd pair) (windows2 l).

Lemma block_pairs_ok l a b : 0 <= a <= b -> b < zlen l -> block_pairs l a b = Ok (zsub (windows2 l) a b).
Proof.
  intros. unfold block_pairs. rewrite !idx_range_zsub by lia. mon. f_equal. rewrite windows2_zip.
  unfold zsub, ztake, zskip. rewrite zip_with_drop, zip_with_take. f_equal.
  replace (b + 1 - (a + 1)) with (b - a) by lia. f_equal.
  destruct l as [|x l]; [cbn [tail]; by rewrite !(@drop_nil Z)|]. cbn [tail]. by replace (Z.to_nat (a + 1)) with (S (Z.to_nat a)) by lia.
Qed.

Lemma foldl_andb {A} (f : A -> bool) l acc : foldl (fun (sorted : bool) x => sorted && f x) acc l = acc && forallb f l.
Proof. revert acc. induction l as [|x l IH]; intros acc; simpl; [by rewrite andb_true_r|]. by rewrite IH, andb_assoc. Qed.

Lemma iter_position_forallb {A} (f : A -> bool) l : iter_position f l = None <-> forallb (fun x => negb (f x)) l = true.
Proof.
  rewrite iter_position_None, forallb_forall. rewrite Forall_forall. split.
  - intros Hf x Hx. rewrite Hf; [done|]. by apply list_elem_of_In.
  - intros Hf x Hx. apply negb_true_iff, Hf. by apply list_elem_of_In.
Qed.

Lemma forallb_same {A} (f g : A -> bool) l : (forall x, f x = g x) -> forallb f l = forallb g l.
Proof. intros Hfg. induction l as [|x l IH]; [done|]. simpl. by rewrite Hfg, IH. Qed.

Lemma find_loop_ok fuel l at_ : zlen l <= ISIZE_MAX -> 0 <= at_ -> zlen l <= at_ + Z.of_nat fuel -> (0 < fuel)%nat ->
  (at_ < zlen l \/ l = []) -> iter_position (fun pair => fst pair >=? snd pair) (ztake at_ (windows2 l)) = None ->
  find_loop fuel l at_ = Ok (descent l).
Proof.
  revert at_. induction fuel as [|fuel IH]; intros at_ Hl Ha Hf Hf0 Hb Hp; [lia|]. cbn [find_loop]. unfold BLOCK.
  assert (l = [] -> (at_ +w 1 <? zlen l) = false) as Hnil.
  { intros ->. rewrite zlen_nil. apply Z.ltb_ge. apply wrap64_ok. }
  destruct (decide (l = [])) as [->|Hne]; [by rewrite Hnil|]. destruct Hb as [Hb|]; [|done]. clear Hnil.
  unwrap. pose proof (zlen_windows2 l Hne) as Hw.
  destruct (Z.ltb_spec (at_ + 1) (zlen l)) as [Hlt|Hge].
  2: { unfold descent. unfold ztake in Hp. rewrite take_ge in Hp; [by rewrite Hp|]. unfold zlen in *. lia. }
  set (stop := Z.min (at_ + 64) (zlen l - 1)). assert (at_ < stop <= zlen l - 1) as Hst by lia. clearbody stop.
  rewrite block_pairs_ok by lia. mon. rewrite foldl_andb. cbn [andb].
  assert (windows2 l = ztake at_ (windows2 l) ++ zsub (windows2 l) at_ stop ++ zskip stop (windows2 l)) as Esplit.
  { unfold zsub, ztake, zskip. rewrite <- (take_drop (Z.to_nat at_) (windows2 l)) at 1. f_equal.
    rewrite <- (take_drop (Z.to_nat (stop - at_)) (drop (Z.to_nat at_) (windows2 l))) at 1. rewrite drop_drop.
    do 2 f_equal. lia. }
  assert (zlen (ztake at_ (windows2 l)) = at_) as Hta by (unfold ztake, zlen in *; rewrite length_take; lia).
  replace (forallb (fun x => fst x <? snd x) (zsub (windows2 l) at_ stop))
    with (forallb (fun x => negb (fst x >=? snd x)) (zsub (windows2 l) at_ stop))
    by (apply forallb_same; intros; rewrite Z.geb_leb, Z.leb_antisym; apply negb_involutive).
  destruct (forallb _ _) eqn:Ef; cbn [negb].
  - apply iter_position_forallb in Ef. apply IH; try lia; try done.
    replace (ztake stop (windows2 l)) with (ztake at_ (windows2 l) ++ zsub (windows2 l) at_ stop).
    + by rewrite iter_position_app, Hp, Ef.
    + unfold zsub, ztake, zskip. rewrite take_take_drop. f_equal. lia.
  - destruct (iter_position (fun pair => fst pair >=? snd pair) (zsub (windows2 l) at_ stop)) as [i|] eqn:Ei;
      [|apply iter_position_forallb in Ei; congruence].
    assert (descent l = Some (at_ + i)) as ->.
    { unfold descent. rewrite Esplit. by rewrite iter_position_app, Hp, iter_position_app, Hta, Ei. }
    apply iter_position_Some in Ei as [(x & Ei & _) _]. apply get_opt_Some in Ei.
    pose proof (zlen_zsub_le (windows2 l) at_ stop). cbn [option_map]. unwrap. done.
Qed.

Lemma find_pair_ok l : zlen l <= ISIZE_MAX -> find_pair l = Ok (descent l).
Proof.
  intros. apply find_loop_ok; try done; [unfold zlen in *; lia|lia|].
  destruct l; [by right|left]. rewrite zlen_cons. pose proof (zlen_nonneg l). lia.
Qed.

Lemma descent_None l : descent l = None <-> ssorted l.
Proof.
  unfold descent. rewrite iter_position_forallb. split.
  - intros Hf. apply windows_sorted. rewrite <- Hf. apply forallb_same. intros. rewrite Z.geb_leb, Z.leb_antisym. symmetry. apply negb_involutive.
  - induction 1 as [|x [|y l] Hl IH Hx]; [done..|]. cbn [windows2 forallb fst snd]. apply Forall_inv in Hx.
    rewrite Z.geb_leb, (proj2 (Z.leb_gt _ _)) by lia. exact IH.
Qed.

Definition array_values (a : EncodedU64Array) : list Z :=
  match a with U16 _ offsets | U32 _ offsets => offsets | U64 values => values end.

Lemma array_values_len a : zlen (array_values a) = zlen (EncodedArray.elems a).
Proof. destruct a; simpl; by rewrite ?zlen_map. Qed.

(** Offsets share one base, so their order is the order of the values. *)
Lemma array_values_sorted a : EncodedArray.wf a -> ssorted (array_values a) <-> ssorted (EncodedArray.elems a).
Proof.
  intros _. assert (forall base l, ssorted l <-> ssorted (map (Z.add base) l)) as Hm.
  { intros base l. split; [apply EncodedArray.ssorted_map_add|]. intros Hs. apply (EncodedArray.ssorted_map_add (- base)) in Hs.
    rewrite map_map, (map_ext _ (fun x => x)), map_id in Hs by (intros; lia). done. }
  destruct a; simpl; [apply Hm..|done].
Qed.

Lemma first_non_increasing_pair_ok a : EncodedArray.wf a ->
  exists r, first_non_increasing_pair a = Ok r /\ (r = None <-> ssorted (EncodedArray.elems a)).
Proof.
  intros Ha. pose proof Ha as [_ Hl]. unfold first_non_increasing_pair. fold (array_values a).
  rewrite find_pair_ok by (rewrite array_values_len; done). mon.
  assert (descent (array_values a) = None <-> ssorted (EncodedArray.elems a)) as Hs by (by rewrite descent_None, array_values_sorted).
  destruct (descent (array_values a)) as [i|] eqn:E; [|exists None; split; [done|]; split; [intros _; by apply Hs|done]].
  unfold descent in E. apply iter_position_Some in E as [(x & E & _) _]. apply get_opt_Some in E.
  assert (array_values a <> []) as Hne by (intros Hn; rewrite Hn in E; cbn in E; unfold zlen in E; simpl in E; lia).
  rewrite zlen_windows2, array_values_len in E by done. unwrap. rewrite !EncodedArray.get_elems by (done || lia). mon.
  destruct (get_opt_lt (EncodedArray.elems a) i) as [x1 ->]; [lia|]. mon. destruct (get_opt_lt (EncodedArray.elems a) (i + 1)) as [x2 ->]; [lia|].
  cbn [option_map]. mon. eexists. split; [done|]. split; [done|]. by intros ?%Hs.
Qed.

(** ** Packed arrays *)

Lemma from_le_chunks_bounds n b : (1 <= n)%nat -> Forall u8_ok b ->
  Forall (fun v => 0 <= v < 256 ^ Z.of_nat n) (from_le_chunks n b) /\ zlen (from_le_chunks n b) <= zlen b.
Proof.
  intros Hn Hb. unfold from_le_chunks. pose proof (as_chunks_spec n b Hn) as Hc.
  destruct (as_chunks n b) as [chunks tail]. destruct Hc as (E & Hc & _). cbn [fst]. split.
  - apply Forall_map. apply Forall_forall. intros c Hin. rewrite Forall_forall in Hc. specialize (Hc c Hin).
    assert (Forall u8_ok c) as Hu.
    { apply Forall_forall. intros x Hx. rewrite Forall_forall in Hb. apply Hb. rewrite E. apply elem_of_app. left.
      apply list_elem_of_In, in_concat. exists c. split; by apply list_elem_of_In. }
    pose proof (from_le_bytes_bound c Hu) as Hf. unfold zlen in Hf. rewrite Hc in Hf. simpl. lia.
  - rewrite zlen_map, E, zlen_app. pose proof (zlen_nonneg tail). enough (zlen chunks <= zlen (concat chunks)) by lia.
    clear -Hc Hn. induction Hc as [|c l Hl _ IH]; [done|]. cbn [concat]. rewrite zlen_cons, zlen_app.
    enough (zlen c = Z.of_nat n) by lia. unfold zlen. by rewrite Hl.
Qed.

Lemma max_overflows_false base offsets : Forall (fun o => 0 <= o) offsets ->
  max_overflows base offsets = false <-> Forall (fun o => base + o <= U64_MAX) offsets.
Proof.
  intros Hp. unfold max_overflows. destruct (iter_max offsets) as [m|] eqn:E.
  - apply iter_max_spec in E as [Hin Hm]. unfold checked_add. destruct (Z.leb_spec (base + m) U64_MAX).
    + split; [|done]. intros _. eapply Forall_impl; [done|]. simpl. intros. lia.
    + split; [done|]. intros Hf. rewrite Forall_forall in Hf. specialize (Hf m Hin). lia.
  - destruct offsets; [|done]. split; [constructor|done].
Qed.

Lemma try_from_array_safe n a : n <= VEC64_MAX -> pb_array_ok n a ->
  try_from_array a = Err CorruptFile \/ exists arr, try_from_array a = Ok arr /\ EncodedArray.wf arr.
Proof.
  intros Hn Ha. destruct a as [[base b|base b|b]|]; cbn [try_from_array pb_array_ok] in *; [| | |by left];
    unfold validate_packed_array_length; destruct (_ =? 0); mon; try (by left).
  - destruct Ha as (Hb & Hu & Hl). destruct (from_le_chunks_bounds 2 b ltac:(lia) Hu) as [Hv Hc]. change (256 ^ Z.of_nat 2) with 65536 in Hv.
    destruct (max_overflows base _) eqn:E; [by left|right]. eexists. split; [done|].
    apply max_overflows_false in E; [|eapply Forall_impl; [apply Hv|]; simpl; intros; lia].
    split; [|simpl; rewrite zlen_map; lia]. split; [done|]. rewrite Forall_forall in Hv, E |- *. intros o Ho.
    specialize (Hv o Ho). specialize (E o Ho). uok. simpl in *. lia.
  - destruct Ha as (Hb & Hu & Hl). destruct (from_le_chunks_bounds 4 b ltac:(lia) Hu) as [Hv Hc]. change (256 ^ Z.of_nat 4) with 4294967296 in Hv.
    destruct (max_overflows base _) eqn:E; [by left|right]. eexists. split; [done|].
    apply max_overflows_false in E; [|eapply Forall_impl; [apply Hv|]; simpl; intros; lia].
    split; [|simpl; rewrite zlen_map; lia]. split; [done|]. rewrite Forall_forall in Hv, E |- *. intros o Ho.
    specialize (Hv o Ho). specialize (E o Ho). uok. simpl in *. lia.
  - destruct Ha as (Hu & Hl). destruct (from_le_chunks_bounds 8 b ltac:(lia) Hu) as [Hv Hc]. right. eexists. split; [done|].
    split; [|simpl; lia]. eapply Forall_impl; [apply Hv|]. change (256 ^ Z.of_nat 8) with 18446744073709551616. simpl. intros. uok. lia.
Qed.

(** ** Segments *)

Lemma padding_bits r b : 0 < r < 8 -> u8_ok b -> Z.land b (not8 (wrap8 (wrap8 (Z.shiftl 1 r) - 1))) = 0 <->
  forall k, r <= k -> Z.testbit b k = false.
Proof.
  intros Hr Hb.
  assert (eqb (Z.land b (not8 (wrap8 (wrap8 (Z.shiftl 1 r) - 1))) =? 0) (forallb (fun k => negb (Z.testbit b k)) (seqZ r (8 - r))) = true) as E.
  { assert (r = 1 \/ r = 2 \/ r = 3 \/ r = 4 \/ r = 5 \/ r = 6 \/ r = 7) as Hc by lia. clear Hr.
    destruct Hc as [->|[->|[->|[->|[->|[->| ->]]]]]];
      match goal with |- ?G = true => let P := eval pattern b in G in
        match P with ?f b => apply (byte_forall f); [vm_compute; reflexivity|exact Hb] end end. }
  apply eqb_prop in E. rewrite <- Z.eqb_eq, E, forallb_forall. split.
  - intros Hf k Hk. destruct (Z.lt_ge_cases k 8).
    + apply negb_true_iff, Hf, list_elem_of_In, elem_of_seqZ. lia.
    + apply (u8_ok_bits b (proj1 Hb)); [done|lia].
  - intros Hf k Hk%list_elem_of_In%elem_of_seqZ. apply negb_true_iff, Hf. lia.
Qed.

Lemma decoded_bitmap_wf bm n : 0 <= n -> Forall u8_ok bm -> zlen bm = div_ceil n 8 -> zlen bm <= VEC64_MAX ->
  (n mod 8 = 0 \/ exists b, get_opt bm (div_ceil n 8 - 1) = Some b /\
     Z.land b (not8 (wrap8 (wrap8 (Z.shiftl 1 (n mod 8)) - 1))) = 0) ->
  Bitmap.wf (Bitmap.from_parts bm n).
Proof.
  intros Hn Hu Hl Hv Hp. unfold div_ceil in *. pose proof (Z.div_mod n 8). pose proof (Z.mod_pos_bound n 8).
  pose proof (Z.div_mod (n + 8 - 1) 8). pose proof (Z.mod_pos_bound (n + 8 - 1) 8).
  split; cbn [Bitmap.len Bitmap.data Bitmap.from_parts]; [lia|done|done|].
  intros i Hi. destruct (Z.le_gt_cases (8 * zlen bm) i); [by apply bitat_out; right|].
  destruct Hp as [|(b & Eb & Hb)]; [lia|]. pose proof (Z.div_mod i 8). pose proof (Z.mod_pos_bound i 8).
  rewrite (bitat_byte bm i b); [|by replace (i / 8) with ((n + 8 - 1) / 8 - 1) by lia].
  destruct (Z.eq_dec (n mod 8) 0); [lia|]. apply (padding_bits (n mod 8)); [lia|by eapply Forall_get_opt|done|lia].
Qed.

Lemma try_from_segment_safe n s : n <= VEC64_MAX -> pb_segment_ok n s ->
  try_from_segment s = Err CorruptFile \/ exists seg, try_from_segment s = Ok seg /\ Segment.wf seg.
Proof.
  intros Hn Hs. destruct s as [[a b|a b h|a b bm|arr|arr]|]; cbn [try_from_segment pb_segment_ok] in *; [| | | | |by left].
  - destruct Hs as [Ha Hb]. unfold validate_range, checked_sub. destruct (Z.leb_spec a b); cbn [ok_or]; mon; [|by left].
    right. eexists. split; [done|]. uok. unfold Segment.wf, range_ok. simpl. lia.
  - destruct Hs as (Ha & Hb & Hh). unfold validate_range, checked_sub. destruct (Z.leb_spec a b); cbn [ok_or]; mon; [|by left].
    destruct h as [h|]; cbn [ok_or]; mon; [|by left].
    destruct (try_from_array_safe n h Hn Hh) as [->|(arr & -> & Harr)]; mon; [by left|].
    destruct (first_non_increasing_pair_ok arr Harr) as (r & -> & Hr). mon. destruct r; [by left|].
    destruct (List.find _ _) eqn:Ef; [by left|right]. eexists. split; [done|]. uok.
    split; [unfold range_ok; simpl; lia|]. split; [done|]. split; [by apply Hr|].
    rewrite EncodedArray.iter_elems in Ef by done. apply Forall_forall. intros v Hv. cbn [start end_].
    pose proof (List.find_none _ _ Ef v) as Hx. apply list_elem_of_In in Hv. specialize (Hx Hv). cbn beta in Hx.
    rewrite Z.geb_leb in Hx. apply orb_false_iff in Hx. rewrite Z.ltb_ge, Z.leb_gt in Hx. lia.
  - destruct Hs as (Ha & Hb & Hbm & Hl). unfold validate_range, checked_sub. destruct (Z.leb_spec a b); cbn [ok_or]; mon; [|by left].
    destruct (Z.eqb_spec (zlen bm) (div_ceil (b - a) 8)) as [El|]; cbn [negb]; [|by left].
    destruct (Z.eqb_spec ((b - a) mod 8) 0) as [E0|Hne]; cbn [negb].
    + right. eexists. split; [done|]. uok. split; [unfold range_ok; simpl; lia|]. split; [|done].
      apply decoded_bitmap_wf; [lia|done|done|lia|by left].
    + assert (0 <= div_ceil (b - a) 8 - 1 < zlen bm) as Hi.
      { rewrite El. unfold div_ceil. pose proof (Z.div_mod (b - a + 8 - 1) 8). pose proof (Z.mod_pos_bound (b - a + 8 - 1) 8).
        pose proof (Z.div_mod (b - a) 8). pose proof (Z.mod_pos_bound (b - a) 8). lia. }
      destruct (get_opt_lt bm _ Hi) as [byte Eb]. rewrite (idx_ok _ _ byte) by done. mon.
      destruct (Z.eqb_spec (Z.land byte (not8 (wrap8 (wrap8 (Z.shiftl 1 ((b - a) mod 8)) - 1)))) 0); cbn [negb]; [|by left].
      right. eexists. split; [done|]. uok. split; [unfold range_ok; simpl; lia|]. split; [|done].
      apply decoded_bitmap_wf; [lia|done|done|lia|right; eauto].
  - destruct (try_from_array_safe n arr Hn Hs) as [->|(a & -> & Ha)]; mon; [by left|].
    destruct (first_non_increasing_pair_ok a Ha) as (r & -> & Hr). mon. destruct r; [by left|right].
    eexists. split; [done|]. split; [done|]. by apply Hr.
  - destruct (try_from_array_safe n arr Hn Hs) as [->|(a & -> & Ha)]; mon; [by left|right]. by eexists.
Qed.

(** ** Folding ranges *)

Lemma elems_ranges rs : elems (map Range_ rs) = expand rs.
Proof. induction rs as [|r rs IH]; [done|]. cbn [map]. by rewrite elems_cons, IH. Qed.

Lemma ranges_wf lo rs : 0 <= lo -> ranges_ok lo rs -> Forall Segment.wf (map Range_ rs).
Proof.
  revert lo. induction rs as [|r rs IH]; intros lo Hlo Hr; [constructor|]. destruct Hr as (H1 & H2 & H3). constructor.
  - unfold Segment.wf, range_ok. lia.
  - apply (IH (end_ r + 1)); [lia|done].
Qed.

Lemma flush_ranges_ok pending out : ranges_ok 0 pending -> Forall Segment.wf out ->
  Forall Segment.wf (flush_ranges pending out) /\ elems (flush_ranges pending out) = elems out ++ expand pending.
Proof.
  intros Hp Ho. unfold flush_ranges. destruct (from_sorted_ranges pending) as [s|] eqn:E.
  - destruct pending as [|r [|r' rs]]; [done..|]. unfold from_sorted_ranges in E.
    destruct (list.last (r :: r' :: rs)) as [last|] eqn:El; [|done].
    destruct (last_end_bounds _ _ _ Hp El) as (H1 & H2 & _).
    pose proof (ranges_last 0 _ last Hp El) as (_ & _ & H3). apply Forall_inv in H3. cbv zeta in E. unwrap_in E.
    destruct (Z.leb_spec (end_ last - start r) U32_MAX); [|done].
    destruct (from_sorted_ranges_ok r r' rs last Hp El) as (s' & E' & Hw & He); [done|].
    assert (Some s = Some s') as [= ->].
    { rewrite <- E', <- E. unfold from_sorted_ranges. rewrite El. cbv zeta. unwrap. by rewrite (proj2 (Z.leb_le _ _)). }
    split; [apply Forall_app; split; [done|by constructor]|]. by rewrite elems_app, elems_cons, app_nil_r, He.
  - split; [apply Forall_app; split; [done|by eapply ranges_wf]|]. by rewrite elems_app, elems_ranges.
Qed.

Lemma wire_push_range_ok pending out r : ranges_ok 0 pending -> Forall Segment.wf out -> 0 <= start r < end_ r -> end_ r <= U64_MAX ->
  let '(pending', out') := push_range pending out r in
  ranges_ok 0 pending' /\ Forall Segment.wf out' /\
  elems out' ++ expand pending' = elems out ++ expand pending ++ range_list r.
Proof.
  intros Hp Ho H1 H2. unfold push_range.
  assert (match list.last pending with Some last => end_ last <= start r | None => True end ->
    ranges_ok 0 (grow pending r) /\ Forall Segment.wf out /\
    elems out ++ expand (grow pending r) = elems out ++ expand pending ++ range_list r) as Hg.
  { intros Hl. destruct (grow_ranges_ok 0 pending r Hp) as (Hr & He & _); [lia|done|done|]. by rewrite He. }
  unfold grow in Hg. destruct (list.last pending) as [last|]; [|by apply Hg].
  destruct (Z.eqb_spec (end_ last) (start r)) as [E|Hne]; [apply Hg; lia|].
  rewrite !Z.gtb_ltb. destruct (Z.ltb_spec (start r) (end_ last)); [|destruct (_ <? _)]; cbn [orb]; [| |apply Hg; lia].
  all: destruct (flush_ranges_ok pending out Hp Ho) as [Hw He]; split; [simpl; intuition lia|]; split; [done|];
    rewrite He; cbn [expand flat_map]; by rewrite app_nil_r, <- app_assoc.
Qed.

(** ** Writing *)

Lemma chunks_unique {A} n (c1 c2 : list (list A)) t1 t2 : (1 <= n)%nat -> concat c1 ++ t1 = concat c2 ++ t2 ->
  Forall (fun c => length c = n) c1 -> Forall (fun c => length c = n) c2 -> (length t1 < n)%nat -> (length t2 < n)%nat ->
  c1 = c2.
Proof.
  intros Hn E H1. revert c2 E. induction H1 as [|c c1 Hc _ IH]; intros [|c' c2] E H2 Ht1 Ht2; [done|..].
  - apply Forall_inv in H2. apply (f_equal length) in E. rewrite !length_app in E. simpl in E. rewrite length_app in E. lia.
  - apply (f_equal length) in E. rewrite !length_app in E. simpl in E. rewrite length_app in E. lia.
  - inversion H2; subst. simpl in E. rewrite <- !app_assoc in E. apply app_inj_1 in E as [-> E]; [|done]. f_equal. by apply IH.
Qed.

Lemma from_le_chunks_le_bytes n l : (1 <= n)%nat -> Forall (fun v => 0 <= v < 256 ^ Z.of_nat n) l ->
  from_le_chunks n (le_bytes n l) = l.
Proof.
  intros Hn Hl. unfold from_le_chunks, le_bytes. pose proof (as_chunks_spec n (flat_map (to_le_bytes n) l) Hn) as Hc.
  destruct (as_chunks n (flat_map (to_le_bytes n) l)) as [chunks tail]. destruct Hc as (E & Hc & Ht). cbn [fst].
  replace chunks with (map (to_le_bytes n) l).
  - rewrite map_map. rewrite <- (map_id l) at 2. apply map_ext_in. intros v Hv%list_elem_of_In.
    rewrite Forall_forall in Hl. by apply from_to_le_bytes, Hl.
  - symmetry. apply (chunks_unique n _ _ tail []); try done.
    + by rewrite app_nil_r, <- flat_map_concat_map.
    + apply Forall_map, Forall_forall. intros. apply to_le_bytes_length.
Qed.

Lemma zlen_le_bytes n l : zlen (le_bytes n l) = Z.of_nat n * zlen l.
Proof.
  unfold le_bytes. induction l as [|x l IH]; [cbn [flat_map]; rewrite !zlen_nil; lia|]. cbn [flat_map]. rewrite zlen_app, IH, zlen_cons.
  unfold zlen at 1. rewrite to_le_bytes_length. lia.
Qed.

Lemma le_bytes_u8 n l : Forall u8_ok (le_bytes n l).
Proof. unfold le_bytes. induction l as [|x l IH]; [constructor|]. apply Forall_app. split; [apply to_le_bytes_u8|done]. Qed.

(** The arrays and bitmaps of a segment are small enough to be written. *)
Definition fits (s : U64Segment) : Prop :=
  match s with
  | RangeWithHoles _ a | SortedArray a | Array a => 8 * zlen (EncodedArray.elems a) <= VEC64_MAX
  | RangeWithBitmap _ b => zlen (Bitmap.data b) <= VEC64_MAX
  | _ => True
  end.

Lemma array_to_pb_ok a : EncodedArray.wf a -> 8 * zlen (EncodedArray.elems a) <= VEC64_MAX ->
  pb_array_ok VEC64_MAX (array_to_pb a) /\ try_from_array (array_to_pb a) = Ok a.
Proof.
  intros [Ha _] Hl. rewrite <- array_values_len in Hl. pose proof (zlen_nonneg (array_values a)).
  destruct a as [base o|base o|v]; cbn [array_to_pb pb_array_ok try_from_array array_values] in *;
    unfold validate_packed_array_length; rewrite zlen_le_bytes, Z.mul_comm, Z_mod_mult, Z.eqb_refl; mon.
  - destruct Ha as [Hb Ho]. split; [split; [done|]; split; [apply le_bytes_u8|rewrite zlen_le_bytes; lia]|].
    rewrite from_le_chunks_le_bytes; [|lia|eapply Forall_impl; [done|]; simpl; intros ? [? _]; uok; lia].
    assert (Forall (fun x => 0 <= x) o) as Hp0 by (eapply Forall_impl; [exact Ho|]; simpl; intros ? [? _]; uok; lia).
    rewrite (proj2 (max_overflows_false base o Hp0)); [done|]. eapply Forall_impl; [exact Ho|]. by intros ? [_ ?].
  - destruct Ha as [Hb Ho]. split; [split; [done|]; split; [apply le_bytes_u8|rewrite zlen_le_bytes; lia]|].
    rewrite from_le_chunks_le_bytes; [|lia|eapply Forall_impl; [done|]; simpl; intros ? [? _]; uok; lia].
    assert (Forall (fun x => 0 <= x) o) as Hp0 by (eapply Forall_impl; [exact Ho|]; simpl; intros ? [? _]; uok; lia).
    rewrite (proj2 (max_overflows_false base o Hp0)); [done|]. eapply Forall_impl; [exact Ho|]. by intros ? [_ ?].
  - split; [split; [apply le_bytes_u8|rewrite zlen_le_bytes; lia]|].
    rewrite from_le_chunks_le_bytes; [done|lia|eapply Forall_impl; [done|]; simpl; intros; uok; lia].
Qed.

Definition not_runs (s : U64Segment) : Prop := match s with Ranges _ _ => False | _ => True end.

Lemma segment_to_pb_ok s : Segment.wf s -> fits s -> not_runs s ->
  exists pb, segment_to_pb s = Ok (Some pb) /\ pb_segment_ok VEC64_MAX (Some pb) /\ try_from_segment (Some pb) = Ok s /\
    match s with Range_ r => pb = PbRange (start r) (end_ r) | _ => forall a b, pb <> PbRange a b end.
Proof.
  intros Hs Hf Hn. destruct s as [r|r h|r b|r hr|a|a]; [| | |done| |]; cbn [segment_to_pb fits] in *; eexists; (split; [done|]).
  - destruct Hs as (H1 & H2 & H3). split; [split; uok; lia|]. split; [|done]. cbn [try_from_segment].
    unfold validate_range, checked_sub. rewrite (proj2 (Z.leb_le _ _)) by lia. cbn [ok_or]. mon. by destruct r.
  - destruct Hs as ((H1 & H2 & H3) & Hh & Hso & Hb). destruct (array_to_pb_ok h Hh Hf) as [Hp Ht].
    split; [split; [uok; lia|]; split; [uok; lia|done]|]. split; [|done]. cbn [try_from_segment].
    unfold validate_range, checked_sub. rewrite (proj2 (Z.leb_le _ _)) by lia. cbn [ok_or]. mon. rewrite Ht. mon.
    destruct (first_non_increasing_pair_ok h Hh) as (x & -> & Hx). mon. rewrite (proj2 Hx Hso).
    destruct (List.find _ _) as [v|] eqn:Ef; [|by destruct r]. exfalso. rewrite EncodedArray.iter_elems in Ef by done.
    apply List.find_some in Ef as [Hin Hv]. apply list_elem_of_In in Hin. rewrite Forall_forall in Hb. specialize (Hb v Hin).
    apply orb_true_iff in Hv. rewrite Z.geb_leb, Z.ltb_lt, Z.leb_le in Hv. simpl in Hb. lia.
  - destruct Hs as ((H1 & H2 & H3) & Hb & Hl). pose proof Hb as [Hb1 Hb2 Hb3 Hb4].
    split; [split; [uok; lia|]; split; [uok; lia|done]|]. split; [|done]. cbn [try_from_segment].
    unfold validate_range, checked_sub. rewrite (proj2 (Z.leb_le _ _)) by lia. cbn [ok_or]. mon.
    unfold Bitmap.into_bytes. rewrite Hb3, Hl, Z.eqb_refl. cbn [negb]. rewrite <- Hl.
    assert (RangeWithBitmap (start r ..< end_ r) (Bitmap.from_parts (Bitmap.data b) (Bitmap.len b)) = RangeWithBitmap r b) as Eb
      by (by destruct r, b).
    destruct (Z.eqb_spec (Bitmap.len b mod 8) 0) as [|Hne]; cbn [negb]; [by rewrite Eb|].
    pose proof (Z.div_mod (Bitmap.len b) 8). pose proof (Z.mod_pos_bound (Bitmap.len b) 8).
    pose proof (Z.div_mod (Bitmap.len b + 8 - 1) 8). pose proof (Z.mod_pos_bound (Bitmap.len b + 8 - 1) 8).
    destruct (get_opt_lt (Bitmap.data b) (div_ceil (Bitmap.len b) 8 - 1)) as [byte Ebyte]; [rewrite Hb3; unfold div_ceil; lia|].
    assert (u8_ok byte) as Hu by (by eapply Forall_get_opt).
    rewrite (idx_ok _ _ byte) by done. mon. rewrite (proj2 (padding_bits (Bitmap.len b mod 8) byte ltac:(lia) Hu)); [by rewrite Eb|].
    intros k Hk. unfold div_ceil in *. destruct (Z.lt_ge_cases k 8).
    + specialize (Hb4 (8 * ((Bitmap.len b + 8 - 1) / 8 - 1) + k)). rewrite (bitat_byte _ _ byte) in Hb4.
      * rewrite Z.add_comm, Z.mul_comm, Z_mod_plus_full, Z.mod_small in Hb4 by lia. apply Hb4. lia.
      * rewrite Z.add_comm, Z.mul_comm, Z.div_add, Z.div_small by lia. done.
    + apply (u8_ok_bits byte (proj1 Hu)); [done|lia].
  - destruct Hs as [Ha Hso]. destruct (array_to_pb_ok a Ha Hf) as [Hp Ht]. split; [done|]. split; [|done].
    cbn [try_from_segment]. rewrite Ht. mon. destruct (first_non_increasing_pair_ok a Ha) as (x & -> & Hx). mon.
    by rewrite (proj2 Hx Hso).
  - destruct (array_to_pb_ok a Hs Hf) as [Hp Ht]. split; [done|]. split; [|done]. cbn [try_from_segment]. rewrite Ht. done.
Qed.

(** The segments written for one segment: a run of ranges is its ranges. *)
Lemma wire_segments_ok s : Segment.wf s -> fits s ->
  exists ws pbs, wire_segments s = Ok pbs /\ map_res segment_to_pb ws = Ok pbs /\ elems ws = Segment.elems s /\
    Forall Segment.wf ws /\ Forall fits ws /\ Forall not_runs ws.
Proof.
  intros Hs Hf. destruct s as [r|r h|r b|r hr|a|a].
  4: { assert (runs_pre (Ranges r hr)) as Hp.
       { split; [|done]. destruct (elems_range r (Ranges r hr) Hs) as [(_ & _ & ?) He]; [eauto 6|].
         eapply Forall_impl; [done|]. simpl. intros. lia. }
       destruct (runs_ok _ Hs Hp) as (rs & E & Hx & _ & Hne). cbn [SegmentRuns.runs] in E. cbn [wire_segments].
       destruct (HoleRuns.present_ranges hr) as [l| |]; [|done|done]. cbn [mbind res_bind] in E |- *. injection E as E.
       assert (Forall (fun r => 0 <= start r < end_ r /\ end_ r <= U64_MAX) rs) as Hb.
       { destruct Hp as [Hp _]. rewrite <- Hx in Hp. pose proof (Segment.seg_elems_u64 _ Hs) as Hu. rewrite <- Hx in Hu.
         clear -Hp Hu Hne. induction Hne as [|[a b] rs Hr _ IH]; [constructor|]. cbn [expand flat_map start end_] in *.
         apply Forall_app in Hp as [Hp1 Hp2]. apply Forall_app in Hu as [Hu1 Hu2]. constructor; [|by apply IH].
         rewrite Forall_forall in Hp1, Hu1. cbn [start end_].
         assert (a ∈ range_list (a ..< b)) as Ha by (apply elem_of_range_list; simpl; lia).
         assert (b - 1 ∈ range_list (a ..< b)) as Hb by (apply elem_of_range_list; simpl; lia).
         specialize (Hu1 a Ha). specialize (Hp1 _ Hb). uok. simpl in *. lia. }
       exists (map Range_ rs), (map (fun r => Some (PbRange (start r) (end_ r))) rs). subst rs.
       split; [|split; [|split; [by rewrite elems_ranges|]]].
       - rewrite map_map. apply map_res_ok, Forall_forall. done.
       - clear. induction l as [|x l IH]; [done|]. cbn [map map_res segment_to_pb start end_]. mon. by rewrite IH.
       - rewrite !Forall_map in *. repeat split; eapply Forall_impl; try exact Hb; try done.
         intros x Hx'. unfold Segment.wf, range_ok. simpl in *. lia. }
  all: match goal with |- exists _ _, wire_segments ?s = _ /\ _ =>
    destruct (segment_to_pb_ok s Hs Hf I) as (pb & E & _); exists [s], [Some pb];
    cbn [wire_segments map_res]; rewrite E; mon; split; [done|]; split; [done|];
    split; [by rewrite elems_cons, app_nil_r|]; split; [by constructor|]; split; constructor; done end.
Qed.

Lemma sequence_to_pb_ok q : Forall Segment.wf q -> Forall fits q ->
  exists ws pbs, sequence_to_pb q = Ok pbs /\ map_res segment_to_pb ws = Ok pbs /\ elems ws = elems q /\
    Forall Segment.wf ws /\ Forall fits ws /\ Forall not_runs ws.
Proof.
  intros Hw. unfold sequence_to_pb. induction Hw as [|s q Hs _ IH]; intros Hf.
  { by exists [], []. }
  inversion Hf as [|? ? Hf1 Hf2]; subst. destruct (IH Hf2) as (ws & pbs & E & Ew & He & H1 & H2 & H3).
  destruct (wire_segments_ok s Hs Hf1) as (ws1 & pbs1 & E1 & Ew1 & He1 & H4 & H5 & H6). cbn [map_res]. rewrite E1. mon.
  destruct (map_res wire_segments q) as [l| |]; [|done|done]. cbn [mbind res_bind] in E |- *. injection E as E.
  exists (ws1 ++ ws), (pbs1 ++ pbs). split; [cbn [concat]; by rewrite E|]. split; [by apply map_res_app|].
  rewrite elems_app, elems_cons, He, He1, !Forall_app. done.
Qed.

Section Codec.
Context `{ProstLaws}.

(** ** Reading *)

Lemma consumes_length (b p rest : list Z) : p <> [] -> b = p ++ rest -> (length rest < length b)%nat.
Proof. intros Hp ->. rewrite length_app. destruct p; [done|]. simpl. lia. Qed.

Lemma range_fields_ok fuel b x y s e : u64_ok x -> u64_ok y -> range_fields fuel b x y = Some (s, e) -> u64_ok s /\ u64_ok e.
Proof.
  revert b x y. induction fuel as [|fuel IH]; intros b x y Hx Hy Hr; [done|]. cbn [range_fields] in Hr.
  destruct b as [|z b]; [injection Hr as <- <-; done|].
  destruct (decode_key (z :: b)) as [[[f w] r]|]; [|done]. cbn [mbind option_bind] in Hr.
  destruct (negb _); [done|]. destruct (decode_varint r) as [[v r']|] eqn:Ev; [|done]. cbn [mbind option_bind] in Hr.
  apply decode_varint_consumes in Ev as [Hv _]. destruct (f =? 1); [by apply (IH r' v y)|].
  destruct (f =? 2); [by apply (IH r' x v)|done].
Qed.

Lemma plain_range_ok b r : plain_range b = Some r -> 0 <= start r < end_ r /\ end_ r <= U64_MAX.
Proof.
  unfold plain_range. destruct (decode_key b) as [[[f w] b1]|]; [|done]. cbn [mbind option_bind].
  destruct (_ || _); [done|]. destruct (decode_varint b1) as [[n b2]|]; [|done]. cbn [mbind option_bind].
  destruct (negb _); [done|]. destruct (range_fields _ b2 0 0) as [[s e]|] eqn:E; [|done]. cbn [mbind option_bind].
  destruct (Z.ltb_spec s e); [|done]. intros [= <-]. apply range_fields_ok in E as [Hs He]; [|uok; lia..]. uok. simpl. lia.
Qed.

Definition reading (pending : list Range) (segs : list U64Segment) : Prop := ranges_ok 0 pending /\ Forall Segment.wf segs.

Lemma read_loop_safe fuel buf pending segs : Forall u8_ok buf -> zlen buf <= VEC64_MAX -> (length buf < fuel)%nat ->
  reading pending segs ->
  read_loop fuel buf pending segs = Err CorruptFile \/
  exists pending' segs', read_loop fuel buf pending segs = Ok (pending', segs') /\ reading pending' segs'.
Proof.
  revert buf pending segs. induction fuel as [|fuel IH]; intros buf pending segs Hu Hl Hf Hr; [lia|]. cbn [read_loop].
  destruct buf as [|z buf]; [right; by eexists _, _|].
  destruct (decode_key (z :: buf)) as [[[f w] b1]|] eqn:Ek; cbn [ok_or]; mon; [|by left].
  destruct (_ || _); [by left|].
  destruct (decode_varint b1) as [[n b2]|] eqn:Ev; cbn [ok_or]; mon; [|by left].
  rewrite Z.gtb_ltb. destruct (Z.ltb_spec (zlen b2) n); [by left|].
  apply decode_key_consumes in Ek as (p1 & Hp1 & E1). apply decode_varint_consumes in Ev as (Hn & p2 & Hp2 & E2).
  pose proof (consumes_length _ _ _ Hp1 E1). pose proof (consumes_length _ _ _ Hp2 E2).
  assert (Forall u8_ok b2) as Hu2 by (rewrite E1, E2 in Hu; rewrite !Forall_app in Hu; apply Hu).
  assert (zlen b2 <= zlen (z :: buf)) as Hl2 by (unfold zlen; lia).
  assert (Forall u8_ok (ztake n b2) /\ Forall u8_ok (zskip n b2)) as [Hut Hus] by (split; [by apply Forall_take|by apply Forall_drop]).
  assert (zlen (ztake n b2) <= VEC64_MAX /\ zlen (zskip n b2) <= VEC64_MAX /\ (length (zskip n b2) < fuel)%nat) as (Ht & Hs & Hfs).
  { unfold ztake, zskip, zlen in *. rewrite length_take, length_drop. lia. }
  destruct (plain_range (ztake n b2)) as [r|] eqn:Er.
  - apply plain_range_ok in Er as [Hr1 Hr2]. destruct Hr as [Hp Hw]. pose proof (wire_push_range_ok pending segs r Hp Hw Hr1 Hr2) as Hpush.
    destruct (push_range pending segs r) as [pending' segs']. apply IH; try done. by destruct Hpush as (? & ? & _).
  - destruct (decode_segment (ztake n b2)) as [pb|] eqn:Ed; cbn [ok_or]; mon; [|by left].
    apply decode_segment_typed in Ed; [|done].
    destruct (try_from_segment_safe _ pb Ht Ed) as [->|(s & -> & Hws)]; mon; [by left|].
    destruct Hr as [Hp Hw]. destruct (flush_ranges_ok pending segs Hp Hw) as [Hfw _].
    apply IH; try done. split; [done|]. apply Forall_app. split; [done|by constructor].
Qed.

Lemma checked_total_ok t segs : Forall Segment.wf segs -> 0 <= t <= U64_MAX ->
  checked_total t segs = Ok (if t + zlen (elems segs) <=? U64_MAX then Some (t + zlen (elems segs)) else None).
Proof.
  intros Hw. revert t. induction Hw as [|s segs Hs _ IH]; intros t Ht.
  { cbn [checked_total]. change (zlen (elems [])) with 0. rewrite Z.add_0_r. by rewrite (proj2 (Z.leb_le _ _)) by lia. }
  cbn [checked_total]. rewrite Segment.seg_len_ok by done. mon. unfold checked_add. rewrite zlen_elems_cons.
  pose proof (zlen_nonneg (Segment.elems s)). pose proof (zlen_nonneg (elems segs)).
  destruct (Z.leb_spec (t + zlen (Segment.elems s)) U64_MAX).
  - rewrite IH by lia. by rewrite Z.add_assoc.
  - by rewrite (proj2 (Z.leb_gt _ _)) by lia.
Qed.

Lemma read_row_ids_safe buf : Forall u8_ok buf -> zlen buf <= VEC64_MAX ->
  read_row_ids buf = Err CorruptFile \/ exists q, read_row_ids buf = Ok q /\ wf q.
Proof.
  intros Hu Hl. unfold read_row_ids.
  destruct (read_loop_safe (S (length buf)) buf [] [] Hu Hl) as [->|(p & segs & -> & Hp & Hs)];
    [lia|split; [done|constructor]|by left|]. mon.
  destruct (flush_ranges_ok p segs Hp Hs) as [Hw _]. rewrite checked_total_ok by (done || lia). mon. rewrite Z.add_0_l.
  destruct (Z.leb_spec (zlen (elems (flush_ranges p segs))) U64_MAX); cbn [ok_or]; mon; [right|by left].
  eexists. split; [done|]. split; [done|lia].
Qed.

(** ** Round trip *)

Lemma key_app_nonempty f w (l : list Z) : exists z l', encode_key f w ++ l = z :: l'.
Proof. pose proof (encode_key_nonempty f w) as Hk. destruct (encode_key f w) as [|z k]; [done|]. by eexists _, _. Qed.

Lemma range_fields_scalar fuel f v rest x y : 1 <= f <= 2 -> u64_ok v -> v <> 0 ->
  range_fields (S fuel) (scalar_field f v ++ rest) x y =
    if f =? 1 then range_fields fuel rest v y else range_fields fuel rest x v.
Proof.
  intros Hf Hv Hne. unfold scalar_field. rewrite (proj2 (Z.eqb_neq _ _)) by done. rewrite <- app_assoc.
  cbn [range_fields]. destruct (key_app_nonempty f Varint (encode_varint v ++ rest)) as (z & l & E). rewrite E, <- E.
  rewrite decode_encode_key by lia. cbn [mbind option_bind]. rewrite bool_decide_true by done. cbn [negb].
  rewrite decode_encode_varint by done. cbn [mbind option_bind].
  destruct (Z.eqb_spec f 1); [done|]. by rewrite (proj2 (Z.eqb_eq f 2)) by lia.
Qed.

Lemma wire_scalar_length f v : 1 <= f <= 5 -> v <> 0 -> (1 <= length (scalar_field f v))%nat.
Proof.
  intros Hf Hv. unfold scalar_field. rewrite (proj2 (Z.eqb_neq _ _)) by done.
  destruct (key_app_nonempty f Varint (encode_varint v)) as (z & l & ->). simpl. lia.
Qed.

Lemma range_fields_range a b fuel : u64_ok a -> u64_ok b -> (length (scalar_field 1 a ++ scalar_field 2 b) < fuel)%nat ->
  range_fields fuel (scalar_field 1 a ++ scalar_field 2 b) 0 0 = Some (a, b).
Proof.
  intros Ha Hb Hf.
  assert (forall fuel x, (length (scalar_field 2 b) < fuel)%nat -> range_fields fuel (scalar_field 2 b) x 0 = Some (x, b)) as H2.
  { intros fuel' x Hf'. destruct (Z.eq_dec b 0) as [->|Hne]; [destruct fuel'; [lia|done]|].
    pose proof (wire_scalar_length 2 b ltac:(lia) Hne). destruct fuel' as [|[|fuel']]; [lia|lia|].
    rewrite <- (app_nil_r (scalar_field 2 b)), range_fields_scalar by (done || lia). done. }
  rewrite length_app in Hf. destruct (Z.eq_dec a 0) as [->|Hne]; [change (scalar_field 1 0) with (@nil Z) in *; cbn [app length] in *; apply H2; lia|].
  pose proof (wire_scalar_length 1 a ltac:(lia) Hne). destruct fuel as [|fuel]; [lia|].
  rewrite range_fields_scalar by (done || lia). cbn [Z.eqb]. apply H2. lia.
Qed.

Lemma message_field_length f body : zlen body <= zlen (message_field f body).
Proof.
  unfold message_field. rewrite !zlen_app. pose proof (zlen_nonneg (encode_key f LengthDelimited)).
  pose proof (zlen_nonneg (encode_varint (zlen body))). lia.
Qed.

Lemma plain_range_message f body : 1 <= f <= 5 -> zlen body <= U64_MAX ->
  plain_range (message_field f body) =
    if f =? 1 then '(s, e) ← range_fields (S (length body)) body 0 0; if s <? e then Some (s ..< e) else None else None.
Proof.
  intros Hf Hl. unfold plain_range, message_field. rewrite decode_encode_key by done. cbn [mbind option_bind].
  destruct (Z.eqb_spec f 1); cbn [negb orb]; [|done]. rewrite bool_decide_true by done. cbn [negb].
  pose proof (zlen_nonneg body). rewrite decode_encode_varint by (uok; lia). cbn [mbind option_bind].
  by rewrite Z.eqb_refl.
Qed.

Lemma plain_range_range a b : u64_ok a -> u64_ok b ->
  plain_range (encode_segment (Some (PbRange a b))) = if a <? b then Some (a ..< b) else None.
Proof.
  intros Ha Hb. rewrite encode_segment_range. rewrite plain_range_message; [|lia|].
  - cbn [Z.eqb]. rewrite range_fields_range by (done || lia). done.
  - pose proof (encode_segment_length 0 (Some (PbRange a b)) ltac:(lia) ltac:(done)) as Hl. rewrite encode_segment_range in Hl.
    pose proof (message_field_length 1 (scalar_field 1 a ++ scalar_field 2 b)). lia.
Qed.

Lemma plain_range_other pb : (forall a b, pb <> PbRange a b) -> pb_segment_ok VEC64_MAX (Some pb) ->
  plain_range (encode_segment (Some pb)) = None.
Proof.
  intros Hn Hp. pose proof (encode_segment_length VEC64_MAX (Some pb) ltac:(lia) Hp) as Hl.
  destruct (encode_segment_other pb Hn) as (f & body & Hf & E). rewrite E in *.
  pose proof (message_field_length f body).
  rewrite plain_range_message by lia. by rewrite (proj2 (Z.eqb_neq _ _)) by lia.
Qed.

Lemma read_loop_step fuel b rest pending segs : zlen b <= U64_MAX ->
  read_loop (S fuel) (message_field 1 b ++ rest) pending segs =
    match plain_range b with
    | Some range => let '(pending, segs) := push_range pending segs range in read_loop fuel rest pending segs
    | None => pb ← ok_or (decode_segment b) CorruptFile; s ← try_from_segment pb;
              read_loop fuel rest [] (flush_ranges pending segs ++ [s])
    end.
Proof.
  intros Hb. unfold message_field. rewrite <- !app_assoc. cbn [read_loop].
  destruct (key_app_nonempty 1 LengthDelimited (encode_varint (zlen b) ++ b ++ rest)) as (z & l & E). rewrite E, <- E.
  rewrite decode_encode_key by lia. cbn [ok_or]. mon. rewrite bool_decide_true by done. cbn [Z.eqb negb orb].
  pose proof (zlen_nonneg b). pose proof (zlen_nonneg rest). rewrite decode_encode_varint by (uok; lia). cbn [ok_or]. mon.
  rewrite Z.gtb_ltb, (proj2 (Z.ltb_ge _ _)) by (rewrite zlen_app; lia). cbv zeta.
  destruct (Wire.ztake_app_exact b rest) as [-> ->]. done.
Qed.

Lemma read_written fuel ws pbs pending segs : map_res segment_to_pb ws = Ok pbs -> Forall Segment.wf ws ->
  Forall fits ws -> Forall not_runs ws -> reading pending segs -> (length ws < fuel)%nat ->
  exists pending' segs', read_loop fuel (encode_to_vec pbs) pending segs = Ok (pending', segs') /\ reading pending' segs' /\
    elems segs' ++ expand pending' = elems segs ++ expand pending ++ elems ws.
Proof.
  intros E Hw. revert fuel pbs pending segs E. induction Hw as [|s ws Hs _ IH]; intros fuel pbs pending segs E Hf Hn Hr Hfu.
  { injection E as <-. rewrite encode_to_vec_nil. destruct fuel; [lia|]. exists pending, segs. rewrite app_nil_r. done. }
  inversion Hf as [|? ? Hf1 Hf2]; subst. inversion Hn as [|? ? Hn1 Hn2]; subst. cbn [map_res] in E.
  destruct (segment_to_pb_ok s Hs Hf1 Hn1) as (pb & Epb & Hpb & Ht & Hk). rewrite Epb in E. cbn [mbind res_bind] in E.
  destruct (map_res segment_to_pb ws) as [pbs'| |] eqn:E'; [|done|done]. cbn [mbind res_bind] in E. injection E as <-.
  destruct fuel as [|fuel]; [lia|]. cbn [length] in Hfu. rewrite encode_to_vec_cons.
  rewrite read_loop_step by (apply (encode_segment_length VEC64_MAX); [lia|done]).
  destruct Hr as [Hp Hwf].
  assert (plain_range (encode_segment (Some pb)) = None -> exists pending' segs',
    (match plain_range (encode_segment (Some pb)) with
     | Some range => let '(pending, segs) := push_range pending segs range in read_loop fuel (encode_to_vec pbs') pending segs
     | None => pb ← ok_or (decode_segment (encode_segment (Some pb))) CorruptFile; s ← try_from_segment pb;
               read_loop fuel (encode_to_vec pbs') [] (flush_ranges pending segs ++ [s])
     end) = Ok (pending', segs') /\ reading pending' segs' /\
    elems segs' ++ expand pending' = elems segs ++ expand pending ++ elems (s :: ws)) as Hother.
  { intros ->. rewrite (decode_encode_segment VEC64_MAX) by (done || lia). cbn [ok_or]. mon. rewrite Ht. mon.
    destruct (flush_ranges_ok pending segs Hp Hwf) as [Hfw Hfe].
    destruct (IH fuel pbs' [] (flush_ranges pending segs ++ [s])) as (p' & s' & -> & Hr' & He); try done; [|lia|].
    - split; [done|]. apply Forall_app. split; [done|by constructor].
    - exists p', s'. split; [done|]. split; [done|].
      rewrite He, elems_app, Hfe, !elems_cons. cbn [expand flat_map elems map concat app]. by rewrite !app_nil_r, <- !app_assoc. }
  destruct s as [r|r h|r b|r hr|a|a]; try (apply Hother, plain_range_other; [exact Hk|exact Hpb]). subst pb.
  destruct Hpb as [Ha Hb]. pose proof (plain_range_range _ _ Ha Hb) as Epr. destruct (Z.ltb_spec (start r) (end_ r)); [|by apply Hother].
  rewrite Epr. replace (start r ..< end_ r) with r by (by destruct r). uok.
  pose proof (wire_push_range_ok pending segs r Hp Hwf ltac:(lia) ltac:(lia)) as Hpush.
  destruct (push_range pending segs r) as [p1 s1]. destruct Hpush as (Hp1 & Hs1 & He1).
  destruct (IH fuel pbs' p1 s1) as (p' & s' & -> & Hr' & He); try done; [lia|].
  exists p', s'. split; [done|]. split; [done|]. rewrite He, app_assoc, He1, elems_cons. by rewrite <- !app_assoc.
Qed.

Lemma encode_to_vec_length pbs : (length pbs <= length (encode_to_vec pbs))%nat.
Proof.
  induction pbs as [|pb pbs IH]; [simpl; lia|]. rewrite encode_to_vec_cons. unfold message_field. rewrite <- app_assoc, length_app.
  pose proof (encode_key_nonempty 1 LengthDelimited). destruct (encode_key 1 LengthDelimited); [done|]. rewrite !length_app. simpl. lia.
Qed.

Lemma map_res_length {A B} (f : A -> res B) l r : map_res f l = Ok r -> length r = length l.
Proof.
  revert r. induction l as [|x l IH]; cbn [map_res]; intros r E; [by injection E as <-|].
  destruct (f x); [|done|done]. cbn [mbind res_bind] in E. destruct (map_res f l); [|done|done]. injection E as <-. simpl. by rewrite (IH a0).
Qed.

Lemma roundtrip_ok q : wf q -> Forall fits q ->
  exists buf q', write_row_ids q = Ok buf /\ read_row_ids buf = Ok q' /\ wf q' /\ elems q' = elems q.
Proof.
  intros [Hw Hl] Hf. destruct (sequence_to_pb_ok q Hw Hf) as (ws & pbs & E & Ew & He & H1 & H2 & H3).
  exists (encode_to_vec pbs). unfold write_row_ids. rewrite E. mon.
  pose proof (encode_to_vec_length pbs). pose proof (map_res_length _ _ _ Ew).
  destruct (read_written (S (length (encode_to_vec pbs))) ws pbs [] [] Ew H1 H2 H3) as (p & segs & Er & [Hp Hs] & Hx);
    [split; [done|constructor]|lia|].
  unfold read_row_ids. rewrite Er. mon. destruct (flush_ranges_ok p segs Hp Hs) as [Hfw Hfe].
  assert (elems (flush_ranges p segs) = elems q) as Eq by (rewrite Hfe, Hx; cbn [elems map concat expand flat_map app]; done).
  rewrite checked_total_ok, Eq, Z.add_0_l, (proj2 (Z.leb_le _ _)) by (done || lia). cbn [ok_or]. mon.
  eexists. split; [done|]. split; [done|]. split; [split; [done|by rewrite Eq]|done].
Qed.

End Codec.

(** ** Properties *)

(** C2: for any conforming codec, what [write_row_ids] writes [read_row_ids]
    reads back as the same ids in the same order, also where [Ranges] segments
    are written as [Range] segments and folded back together. *)
Theorem serde_roundtrip `{ProstLaws} q : wf q -> Forall fits q ->
  exists buf q', write_row_ids q = Ok buf /\ read_row_ids buf = Ok q' /\ wf q' /\ iter q' = Ok (elems q).
Proof.
  intros Hq Hf. destruct (roundtrip_ok q Hq Hf) as (buf & q' & ? & ? & Hq' & <-).
  exists buf, q'. split; [done|]. split; [done|]. split; [done|]. apply seq_iter_ok, Hq'.
Qed.

Lemma serde_roundtrip_witness : exists buf q',
  @write_row_ids WireProst [Range_ (10 ..< 13); Range_ (20 ..< 22); SortedArray (U16 500 [1; 3])] = Ok buf /\
  @read_row_ids WireProst buf = Ok q' /\ iter q' = Ok [10; 11; 12; 20; 21; 501; 503].
Proof.
  destruct (@serde_roundtrip WireProst WireProst_laws [Range_ (10 ..< 13); Range_ (20 ..< 22); SortedArray (U16 500 [1; 3])])
    as (buf & q' & H1 & H2 & _ & H3).
  - split; [|vm_compute; done]. constructor; [vm_compute; done|]. constructor; [vm_compute; done|]. constructor; [|constructor].
    split; [split; [split; [uok; lia|repeat constructor; uok; lia]|vm_compute; done]|repeat constructor; lia].
  - constructor; [done|]. constructor; [done|]. constructor; [vm_compute; done|constructor].
  - exists buf, q'. split; [exact H1|]. split; [exact H2|]. rewrite H3. reflexivity.
Defined.

(** C18: whatever the bytes, [read_row_ids] either reports a corrupt file or
    returns a well-formed sequence whose length fits a [u64]; it never panics
    and raises no other error. *)
Theorem serde_decode_safe `{ProstLaws} buf : Forall u8_ok buf -> zlen buf <= VEC64_MAX ->
  read_row_ids buf = Err CorruptFile \/
  exists q, read_row_ids buf = Ok q /\ wf q /\ Sequence.len q = Ok (zlen (elems q)).
Proof.
  intros Hu Hl. destruct (read_row_ids_safe buf Hu Hl) as [?|(q & ? & ?)]; [by left|right].
  exists q. split; [done|]. split; [done|]. by apply seq_len_ok.
Qed.

Lemma serde_decode_safe_witness :
  @read_row_ids WireProst [10; 6; 10; 4; 8; 5; 16; 3] = Err CorruptFile /\
  exists q, @read_row_ids WireProst [10; 6; 10; 4; 8; 3; 16; 5] = Ok q /\ wf q.
Proof.
  split; [vm_compute; reflexivity|].
  destruct (@serde_decode_safe WireProst WireProst_laws [10; 6; 10; 4; 8; 3; 16; 5]) as [E|(q & E & Hq & _)].
  - repeat constructor; uok; lia.
  - vm_compute. done.
  - exfalso. vm_compute in E. discriminate E.
  - exists q. split; [exact E|exact Hq].
Defined.

(** The block-wise scan for a pair out of order finds exactly the first
    pair the plain scan over all neighbours finds, and none exactly when the
    values are strictly increasing. *)
Theorem serde_order_check l : zlen l <= ISIZE_MAX ->
  find_pair l = Ok (iter_position (fun pair => fst pair >=? snd pair) (windows2 l)) /\
  (find_pair l = Ok None <-> ssorted l).
Proof.
  intros Hl. rewrite find_pair_ok by done. split; [done|]. rewrite <- descent_None. split; congruence.
Qed.

Lemma serde_order_check_witness : find_pair (seqZ 0 70 ++ [69; 80]) = Ok (Some 69).
Proof.
  destruct (serde_order_check (seqZ 0 70 ++ [69; 80])) as [E _]; [vm_compute; done|]. rewrite E. vm_compute. reflexivity.
Defined.

(** In a [RangeWithBitmap] message the least significant bit of a byte is
    the first value of its eight, not the last: byte [1] over [0..8] holds the
    value 0 and byte [128] the value 7. *)
Theorem serde_bitmap_bit_order :
  (s ← try_from_segment (Some (PbRangeWithBitmap 0 8 [1])); Segment.iter s) = Ok [0] /\
  (s ← try_from_segment (Some (PbRangeWithBitmap 0 8 [128])); Segment.iter s) = Ok [7].
Proof. split; vm_compute; reflexivity. Qed.
