(* ===== verification/Version.v ===== *)
(** * Row version sequences

    [lance-table/src/rowids/version.rs]: the dataset version at which each row
    of a fragment was created or last updated, run-length encoded.  The
    specification of a sequence is the list [expand_runs] of one version per
    row; lookups, iteration, the streaming cursor, masking, re-chunking and the
    refresh of a fragment's metadata are related to it. *)

From Stdlib Require Import ZArith Lia.
From stdpp Require Import base option list numbers sorting sets gmap.
From S2P Require Import Prelude Lists Bits Bitmap EncodedArray HoleRuns Segment SegmentBuild Sequence Rechunk.

(** ** Model *)

Record RowDatasetVersionRun := mkRun { span : U64Segment; version : Z }.

Definition RowDatasetVersionSequence : Type := list RowDatasetVersionRun.

Definition run_length (r : RowDatasetVersionRun) : res Z := Segment.len (span r).
Definition run_is_empty (r : RowDatasetVersionRun) : res bool := Segment.is_empty (span r).

Definition new : RowDatasetVersionSequence := [].

Definition from_uniform_row_count (row_count version : Z) : RowDatasetVersionSequence :=
  if row_count =? 0 then new else [mkRun (Range_ (0 ..< row_count)) version].

(** The loop of [from_versions] over the windows. *)
Fixpoint versions_runs (run_start : Z) (windows : list (Z * (Z * Z))) : list RowDatasetVersionRun * Z :=
  match windows with
  | [] => ([], run_start)
  | (i, (a, b)) :: rest =>
      if negb (a =? b) then
        let '(runs, last_start) := versions_runs (i +w 1) rest in
        (mkRun (Range_ (run_start ..< i +w 1)) a :: runs, last_start)
      else versions_runs run_start rest
  end.

Definition from_versions (versions : list Z) : RowDatasetVersionSequence :=
  let '(runs, run_start) := versions_runs 0 (enumerate (windows2 versions)) in
  match list.last versions with
  | Some last => runs ++ [mkRun (Range_ (run_start ..< zlen versions)) last]
  | None => runs
  end.

Definition len (q : RowDatasetVersionSequence) : res Z :=
  ls ← map_res run_length q; Ok (Sequence.sum64 ls).

Definition is_empty (q : RowDatasetVersionSequence) : res bool :=
  match q with [] => Ok true | _ => bs ← map_res run_is_empty q; Ok (forallb (fun b => b) bs) end.

Fixpoint version_at_loop (runs : RowDatasetVersionSequence) (offset index : Z) : res (option Z) :=
  match runs with
  | [] => Ok None
  | run :: rest =>
      n ← run_length run;
      if index <? offset +w n then Ok (Some (version run)) else version_at_loop rest (offset +w n) index
  end.

Definition version_at (q : RowDatasetVersionSequence) (index : Z) : res (option Z) := version_at_loop q 0 index.

Fixpoint row_version_loop (q : RowDatasetVersionSequence) (segs : list U64Segment) (offset row_id : Z) : res (option Z) :=
  match segs with
  | [] => Ok None
  | seg :: rest =>
      local ← (if match Segment.range seg with Some r => incl_contains r row_id | None => false end
               then Segment.position seg row_id else Ok None);
      match local with
      | Some local => version_at q (offset +w local)
      | None => n ← Segment.len seg; row_version_loop q rest (offset +w n) row_id
      end
  end.

Definition get_version_for_row_id (q : RowDatasetVersionSequence) (row_ids : RowIdSequence) (row_id : Z) : res (option Z) :=
  row_version_loop q row_ids 0 row_id.

(** [VersionsIter] *)
Record VersionsIter := mkIter { run_idx : Z; remaining_in_run : Z; current_version : Z }.

Definition advance_run (runs : RowDatasetVersionSequence) (it : VersionsIter) : res VersionsIter :=
  if run_idx it <? zlen runs then
    run ← idx runs (run_idx it);
    n ← run_length run;
    Ok (mkIter (run_idx it) n (version run))
  else Ok (mkIter (run_idx it) 0 (current_version it)).

Definition iter_new (runs : RowDatasetVersionSequence) : res VersionsIter := advance_run runs (mkIter 0 0 0).

Definition yield (it : VersionsIter) : option Z * VersionsIter :=
  (Some (current_version it), mkIter (run_idx it) (saturating_sub (remaining_in_run it) 1) (current_version it)).

Definition next (runs : RowDatasetVersionSequence) (it : VersionsIter) : res (option Z * VersionsIter) :=
  if remaining_in_run it =? 0 then
    let it := mkIter (run_idx it + 1) (remaining_in_run it) (current_version it) in
    if run_idx it >=? zlen runs then Ok (None, it)
    else it ← advance_run runs it; Ok (yield it)
  else Ok (yield it).

(** The iterator run to its end. *)
Fixpoint collect (fuel : nat) (runs : RowDatasetVersionSequence) (it : VersionsIter) : res (list Z) :=
  match fuel with
  | O => Panic
  | S fuel =>
      '(v, it) ← next runs it;
      match v with
      | None => Ok []
      | Some v => vs ← collect fuel runs it; Ok (v :: vs)
      end
  end.

Definition versions_fuel (runs : RowDatasetVersionSequence) : nat :=
  S (length runs + foldr Nat.add 0%nat (map (fun r => length (Segment.elems (span r))) runs)).

Definition versions (q : RowDatasetVersionSequence) : res (list Z) :=
  it ← iter_new q; collect (versions_fuel q) q it.

Definition rows_with_version_greater_than (q : RowDatasetVersionSequence) (row_ids : RowIdSequence) (threshold : Z)
    : res (list Z) :=
  ids ← Sequence.iter row_ids;
  vs ← versions q;
  Ok (map fst (List.filter (fun p => snd p >? threshold) (zip ids vs))).

Fixpoint mask_loop (offset cutoff : Z) (positions : list Z) (runs : RowDatasetVersionSequence)
    : res RowDatasetVersionSequence :=
  match runs with
  | [] => Ok []
  | run :: rest =>
      n ← Segment.len (span run);
      let cutoff := cutoff +w n in
      let '(local, positions) := Sequence.take_positions cutoff (wrap32 offset) positions in
      s' ← (match local with [] => Ok (span run) | _ => SegmentBuild.mask (span run) local end);
      rest' ← mask_loop cutoff cutoff positions rest;
      Ok (mkRun s' (version run) :: rest')
  end.

Definition mask (q : RowDatasetVersionSequence) (positions : list Z) : res RowDatasetVersionSequence :=
  runs ← mask_loop 0 0 positions q;
  filter_res (fun r => e ← Segment.is_empty (span r); Ok (negb e)) runs.

Definition slice_run (r : RowDatasetVersionRun) (offset n : Z) : res RowDatasetVersionRun :=
  s ← SegmentBuild.slice (span r) offset n; Ok (mkRun s (version r)).

Definition rechunk_version_sequences (sequences : list RowDatasetVersionSequence) (chunk_sizes : list Z)
    (allow_incomplete : bool) : res (list RowDatasetVersionSequence) :=
  rechunk run_length slice_run new (fun out run => out ++ [run]) (concat sequences) chunk_sizes allow_incomplete.

(** ** Specification *)

Definition run_versions (r : RowDatasetVersionRun) : list Z := replicate (length (Segment.elems (span r))) (version r).

(** One version per row. *)
Definition expand_runs (q : RowDatasetVersionSequence) : list Z := concat (map run_versions q).

Definition run_ok (r : RowDatasetVersionRun) : Prop := Segment.wf (span r) /\ u64_ok (version r).

Definition wf (q : RowDatasetVersionSequence) : Prop := Forall run_ok q /\ zlen (expand_runs q) <= U64_MAX.

Definition no_empty_run (q : RowDatasetVersionSequence) : Prop := Forall (fun r => Segment.elems (span r) <> []) q.

(** ** Lookups *)

Lemma zlen_run_versions r : zlen (run_versions r) = zlen (Segment.elems (span r)).
Proof. unfold run_versions, zlen. by rewrite length_replicate. Qed.

Lemma expand_runs_cons r q : expand_runs (r :: q) = run_versions r ++ expand_runs q.
Proof. done. Qed.

Lemma expand_runs_app q1 q2 : expand_runs (q1 ++ q2) = expand_runs q1 ++ expand_runs q2.
Proof. unfold expand_runs. by rewrite map_app, concat_app. Qed.

Lemma run_length_ok r : run_ok r -> run_length r = Ok (zlen (run_versions r)).
Proof. intros [Hw _]. rewrite zlen_run_versions. by apply Segment.seg_len_ok. Qed.

Lemma vlen_ok q : wf q -> len q = Ok (zlen (expand_runs q)).
Proof.
  intros [Hw Hl]. unfold len. rewrite (map_res_ok _ (fun r => zlen (Segment.elems (span r)))).
  2: { eapply Forall_impl; [done|]. intros r Hr. by rewrite run_length_ok, zlen_run_versions. }
  mon. f_equal. rewrite <- (map_map span (fun s => zlen (Segment.elems s))).
  assert (zlen (expand_runs q) = zlen (elems (map span q))) as ->.
  { clear. induction q as [|r q IH]; [done|]. cbn [map]. by rewrite expand_runs_cons, elems_cons, !zlen_app, IH, zlen_run_versions. }
  apply Sequence.sum64_ok. revert Hl. clear. intros Hl.
  enough (zlen (elems (map span q)) = zlen (expand_runs q)) by lia.
  clear. induction q as [|r q IH]; [done|]. cbn [map]. by rewrite expand_runs_cons, elems_cons, !zlen_app, IH, zlen_run_versions.
Qed.

Lemma is_empty_ok q : Forall run_ok q -> is_empty q = Ok (zlen (expand_runs q) =? 0).
Proof.
  intros Hw. assert (map_res run_is_empty q = Ok (map (fun r => zlen (run_versions r) =? 0) q)) as E.
  { apply map_res_ok. eapply Forall_impl; [done|]. intros r [Hr _]. unfold run_is_empty, Segment.is_empty.
    by rewrite Segment.seg_len_ok, zlen_run_versions. }
  assert (forallb (fun b => b) (map (fun r => zlen (run_versions r) =? 0) q) = (zlen (expand_runs q) =? 0)) as E'.
  { clear. induction q as [|r q IH]; [done|]. cbn [map forallb]. rewrite IH, expand_runs_cons, zlen_app.
    pose proof (zlen_nonneg (run_versions r)). pose proof (zlen_nonneg (expand_runs q)).
    destruct (Z.eqb_spec (zlen (run_versions r)) 0), (Z.eqb_spec (zlen (expand_runs q)) 0), (Z.eqb_spec (zlen (run_versions r) + zlen (expand_runs q)) 0); (done || lia). }
  unfold is_empty. destruct q; [done|]. rewrite E. mon. by rewrite E'.
Qed.

Lemma get_opt_run_versions r i : 0 <= i < zlen (run_versions r) -> get_opt (run_versions r) i = Some (version r).
Proof.
  intros Hi. unfold run_versions. rewrite get_opt_replicate. rewrite zlen_run_versions in Hi. unfold zlen in Hi.
  by rewrite (proj2 (Z.leb_le _ _)), (proj2 (Z.ltb_lt _ _)) by lia.
Qed.

Lemma version_at_loop_ok q offset index : Forall run_ok q -> 0 <= offset <= index ->
  offset + zlen (expand_runs q) <= U64_MAX -> version_at_loop q offset index = Ok (get_opt (expand_runs q) (index - offset)).
Proof.
  intros Hw. revert offset. induction Hw as [|r q Hr _ IH]; intros offset Ho Hl.
  { cbn [version_at_loop]. f_equal. symmetry. apply get_opt_None. right. change (zlen (expand_runs [])) with 0. lia. }
  rewrite expand_runs_cons, zlen_app in Hl. cbn [version_at_loop]. rewrite run_length_ok by done. mon.
  pose proof (zlen_nonneg (run_versions r)). pose proof (zlen_nonneg (expand_runs q)). unwrap.
  rewrite expand_runs_cons, get_opt_app.
  destruct (Z.ltb_spec index (offset + zlen (run_versions r))), (Z.ltb_spec (index - offset) (zlen (run_versions r))); try lia.
  - by rewrite get_opt_run_versions by lia.
  - rewrite IH by lia. do 2 f_equal. lia.
Qed.

Lemma version_at_ok q index : wf q -> 0 <= index -> version_at q index = Ok (get_opt (expand_runs q) index).
Proof. intros [Hw Hl] Hi. unfold version_at. rewrite version_at_loop_ok by (done || lia). by rewrite Z.sub_0_r. Qed.

Lemma index_of_app v l1 l2 :
  index_of v (l1 ++ l2) = match index_of v l1 with Some i => Some i | None => option_map (Z.add (zlen l1)) (index_of v l2) end.
Proof. apply iter_position_app. Qed.

Lemma row_version_loop_ok q segs offset row_id : wf q -> Forall Segment.wf segs -> u64_ok row_id -> 0 <= offset ->
  offset + zlen (elems segs) <= U64_MAX ->
  row_version_loop q segs offset row_id =
    Ok (match index_of row_id (elems segs) with Some i => get_opt (expand_runs q) (offset + i) | None => None end).
Proof.
  intros Hq Hs Hv. revert offset. induction Hs as [|s segs Hs _ IH]; intros offset Ho Hl; [done|].
  cbn [row_version_loop]. rewrite zlen_elems_cons in Hl. pose proof (zlen_nonneg (Segment.elems s)). pose proof (zlen_nonneg (elems segs)).
  assert ((if match Segment.range s with Some r => incl_contains r row_id | None => false end
    then Segment.position s row_id else Ok None) = Ok (index_of row_id (Segment.elems s))) as ->.
  { rewrite Segment.seg_position_ok by done. destruct (match Segment.range s with Some _ => _ | None => _ end) eqn:Er; [done|].
    f_equal. symmetry. apply index_of_None. pose proof (range_bounds s Hs) as Hb.
    destruct (Segment.range s) as [[lo hi]|]; [|rewrite Hb; apply not_elem_of_nil].
    destruct Hb as [Hb _]. rewrite Forall_forall in Hb. intros Hin. specialize (Hb _ Hin).
    unfold incl_contains in Er. simpl in *. apply andb_false_iff in Er. rewrite !Z.leb_gt in Er. lia. }
  mon. rewrite elems_cons, index_of_app. destruct (index_of row_id (Segment.elems s)) as [i|] eqn:Ei.
  - apply iter_position_Some in Ei as [(x & Ei & _) _]. apply get_opt_Some in Ei. unwrap. by apply version_at_ok; [|lia].
  - rewrite Segment.seg_len_ok by done. mon. unwrap. rewrite IH by lia.
    destruct (index_of row_id (elems segs)); [|done]. cbn [option_map]. by rewrite Z.add_assoc.
Qed.

(** ** Iteration *)

Lemma idx_next {A} (pre : list A) x y post : idx (pre ++ x :: y :: post) (zlen pre + 1) = Ok y.
Proof.
  replace (pre ++ x :: y :: post) with ((pre ++ [x]) ++ y :: post) by (by rewrite <- app_assoc).
  replace (zlen pre + 1) with (zlen (pre ++ [x])) by (rewrite zlen_app, zlen_cons, zlen_nil; lia). apply idx_at.
Qed.

Lemma collect_ok runs fuel pre run post n : Forall run_ok runs -> runs = pre ++ run :: post -> no_empty_run post ->
  Z.of_nat n <= U64_MAX -> (n + length (expand_runs post) < fuel)%nat ->
  collect fuel runs (mkIter (zlen pre) (Z.of_nat n) (version run)) = Ok (replicate n (version run) ++ expand_runs post).
Proof.
  intros Hw. revert pre run post n. induction fuel as [|fuel IH]; intros pre run post n E Hne Hn Hf; [lia|].
  cbn [collect]. unfold next. cbn [remaining_in_run run_idx]. destruct n as [|n].
  - rewrite Z.eqb_refl, Z.geb_leb. pose proof (zlen_nonneg pre). destruct post as [|run2 post].
    + rewrite (proj2 (Z.leb_le _ _)) by (rewrite E, zlen_app, zlen_cons, zlen_nil; lia). done.
    + pose proof (zlen_nonneg post). rewrite (proj2 (Z.leb_gt _ _)) by (rewrite E, zlen_app, !zlen_cons; lia).
      unfold advance_run. cbn [run_idx]. rewrite (proj2 (Z.ltb_lt _ _)) by (rewrite E, zlen_app, !zlen_cons; lia).
      rewrite E at 1. rewrite idx_next. mon. inversion Hne as [|? ? Hne1 Hne2]; subst.
      apply Forall_app in Hw as Hw'. destruct Hw' as [_ Hw']. inversion Hw' as [|? ? _ Hw2]; subst. inversion Hw2 as [|? ? Hr2 _]; subst.
      rewrite run_length_ok by done. mon. unfold yield. cbn [remaining_in_run current_version run_idx]. rewrite expand_runs_cons in Hf |- *.
      unfold run_versions in *. rewrite length_app, length_replicate in Hf. unfold zlen. rewrite length_replicate.
      destruct (Segment.elems (span run2)) as [|x l] eqn:Ex; [done|]. cbn [length] in *. unfold saturating_sub.
      replace (Z.max (Z.of_nat (S (length l)) - 1) 0) with (Z.of_nat (length l)) by lia.
      replace (Z.of_nat (length pre) + 1) with (zlen (pre ++ [run])) by (unfold zlen; rewrite length_app; simpl; lia).
      rewrite (IH (pre ++ [run]) run2 post (length l)); [|by rewrite <- app_assoc|done| |lia].
      * mon. done.
      * pose proof (zlen_elems_le _ (proj1 Hr2)) as Hz. unfold zlen in Hz. rewrite Ex in Hz. simpl in Hz. lia.
  - rewrite (proj2 (Z.eqb_neq _ _)) by lia. unfold yield. cbn [remaining_in_run current_version run_idx]. mon.
    unfold saturating_sub. replace (Z.max (Z.of_nat (S n) - 1) 0) with (Z.of_nat n) by lia.
    rewrite (IH pre run post n); [done|done|done|lia|lia].
Qed.

Lemma length_expand_runs q : length (expand_runs q) = foldr Nat.add 0%nat (map (fun r => length (Segment.elems (span r))) q).
Proof.
  induction q as [|r q IH]; [done|]. rewrite expand_runs_cons, length_app, IH. unfold run_versions. by rewrite length_replicate.
Qed.

Lemma versions_ok q : Forall run_ok q -> no_empty_run (tail q) -> versions q = Ok (expand_runs q).
Proof.
  intros Hw Hne. unfold versions. destruct q as [|r q]; [done|]. inversion Hw as [|? ? Hr _]; subst.
  unfold iter_new, advance_run. cbn [run_idx]. rewrite (proj2 (Z.ltb_lt _ _)) by (rewrite zlen_cons; pose proof (zlen_nonneg q); lia).
  rewrite (idx_at [] r q : idx (r :: q) 0 = _). mon. rewrite run_length_ok by done. mon.
  unfold zlen at 1, run_versions. rewrite length_replicate.
  change 0 with (zlen (@nil RowDatasetVersionRun)) at 1.
  rewrite (collect_ok (r :: q) _ [] r q); [done|done|done|done| |].
  - pose proof (zlen_elems_le _ (proj1 Hr)) as Hz. unfold zlen in Hz. lia.
  - unfold versions_fuel. rewrite length_expand_runs. cbn [map foldr length]. lia.
Qed.

(** ** Run-length encoding *)

(** No two neighbouring runs carry the same version. *)
Definition maximal_runs (q : RowDatasetVersionSequence) : Prop :=
  Forall (fun p => version (fst p) <> version (snd p)) (windows2 q).

Definition encodes (q : RowDatasetVersionSequence) (l : list Z) : Prop :=
  Forall run_ok q /\ no_empty_run q /\ maximal_runs q /\ expand_runs q = l.

Lemma run_versions_range a b v : a <= b -> run_versions (mkRun (Range_ (a ..< b)) v) = replicate (Z.to_nat (b - a)) v.
Proof. intros. unfold run_versions. simpl. unfold range_list. simpl. by rewrite length_seqZ. Qed.

Lemma range_run_ok a b v : 0 <= a < b -> b <= U64_MAX -> u64_ok v ->
  run_ok (mkRun (Range_ (a ..< b)) v) /\ Segment.elems (Range_ (a ..< b)) <> [].
Proof.
  intros. split; [split; [unfold Segment.wf, range_ok; simpl; lia|done]|]. simpl. unfold range_list. simpl.
  intros E. apply (f_equal length) in E. rewrite length_seqZ in E. simpl in E. lia.
Qed.

Lemma versions_runs_ok l : forall a b st, Forall u64_ok (a :: l) -> 0 <= st <= b -> b + zlen (a :: l) <= U64_MAX ->
  exists runs st' last, versions_runs st (map (fun p => (b + fst p, snd p)) (enumerate (windows2 (a :: l)))) = (runs, st') /\
    list.last (a :: l) = Some last /\
    exists r q, runs ++ [mkRun (Range_ (st' ..< b + zlen (a :: l))) last] = r :: q /\ version r = a /\
      encodes (r :: q) (replicate (Z.to_nat (b - st)) a ++ a :: l).
Proof.
  induction l as [|a' l IH]; intros a b st Hu Hs Hb.
  - exists [], st, a. split; [done|]. split; [done|]. eexists _, _. split; [done|]. split; [done|]. rewrite zlen_cons, zlen_nil in *.
    inversion Hu. destruct (range_run_ok st (b + (1 + 0)) a) as [H1' H2']; [lia..|done|].
    split; [by constructor|]. split; [by constructor|]. split; [constructor|].
    rewrite expand_runs_cons, app_nil_r, run_versions_range by lia.
    replace (Z.to_nat (b + (1 + 0) - st)) with (Z.to_nat (b - st) + 1)%nat by lia. by rewrite replicate_add.
  - change (windows2 (a :: a' :: l)) with ((a, a') :: windows2 (a' :: l)). rewrite enumerate_cons. cbn [map fst snd versions_runs]. rewrite map_map. cbn [fst snd].
    inversion Hu as [|? ? Hua Hu']; subst. rewrite zlen_cons in Hb. pose proof (zlen_nonneg l). pose proof Hb as Hb'. rewrite zlen_cons in Hb'.
    rewrite (map_ext _ (fun p => (b + 1 + fst p, snd p))) by (intros; f_equal; lia). rewrite Z.add_0_r. unwrap.
    replace (b + zlen (a :: a' :: l)) with (b + 1 + zlen (a' :: l)) by (rewrite (zlen_cons a); lia).
    rewrite list.last_cons_cons. destruct (Z.eqb_spec a a') as [->|Hne]; cbn [negb].
    + destruct (IH a' (b + 1) st) as (runs & st' & la & E & El & r & q & Eq & Ev & He); [done|lia|lia|].
      exists runs, st', la. split; [done|]. split; [done|]. exists r, q. split; [done|]. split; [done|].
      replace (Z.to_nat (b + 1 - st)) with (Z.to_nat (b - st) + 1)%nat in He by lia. by rewrite replicate_add, <- app_assoc in He.
    + destruct (IH a' (b + 1) (b + 1)) as (runs & st' & la & -> & El & r & q & Eq & Ev & H1 & H2 & H3 & H4); [done|lia|lia|].
      eexists _, st', la. split; [done|]. split; [done|]. cbn [app]. rewrite Eq. eexists _, _. split; [done|]. split; [done|].
      destruct (range_run_ok st (b + 1) a) as [H5 H6]; [lia..|done|].
      split; [by constructor|]. split; [by constructor|]. split; [constructor; [cbn; congruence|done]|].
      rewrite expand_runs_cons, H4, Z.sub_diag, run_versions_range by lia.
      replace (Z.to_nat (b + 1 - st)) with (Z.to_nat (b - st) + 1)%nat by lia. by rewrite replicate_add, <- app_assoc.
Qed.

Lemma from_versions_ok l : Forall u64_ok l -> zlen l <= U64_MAX -> encodes (from_versions l) l.
Proof.
  intros Hu Hl. unfold from_versions. destruct l as [|a l]; [repeat split; constructor|].
  destruct (versions_runs_ok l a 0 0) as (runs & st & la & E & -> & r & q & Eq & _ & He); [done|lia|lia|].
  rewrite (map_ext _ (fun p => p)), map_id in E by (by intros []). rewrite E. rewrite Z.add_0_l in Eq. by rewrite Eq.
Qed.

Lemma from_versions_ranges l : Forall (fun r => exists a b, span r = Range_ (a ..< b)) (from_versions l).
Proof.
  assert (forall w st runs st', versions_runs st w = (runs, st') -> Forall (fun r => exists a b, span r = Range_ (a ..< b)) runs) as Hr.
  { clear. induction w as [|[i [a b]] w IH]; intros st runs st'; cbn [versions_runs]; [by intros [= <- _]|].
    destruct (negb (a =? b)); [|apply IH]. destruct (versions_runs (i +w 1) w) as [rs x] eqn:E. intros [= <- _].
    constructor; [by eexists _, _|by eapply IH]. }
  unfold from_versions. destruct (versions_runs 0 _) as [runs st] eqn:E. apply Hr in E. destruct (list.last l); [|done].
  apply Forall_app. split; [done|]. constructor; [by eexists _, _|constructor].
Qed.

(** ** Masking *)

Lemma length_unmasked ps l : length (unmasked ps l) = length (List.filter (not_in ps) (seqZ 0 (zlen l))).
Proof.
  unfold unmasked. rewrite length_map, <- map_fst_enumerate. induction (enumerate l) as [|[i x] e IH]; [done|].
  cbn [List.filter map fst]. destruct (not_in ps i); simpl; by rewrite IH.
Qed.

Lemma unmasked_replicate ps l v : unmasked ps (replicate (length l) v) = replicate (length (unmasked ps l)) v.
Proof.
  symmetry. apply replicate_as_Forall. split.
  - rewrite !length_unmasked. unfold zlen. by rewrite length_replicate.
  - apply Forall_forall. intros x (i & Hi & _)%unmasked_elem. rewrite get_opt_replicate in Hi. by case_match; simplify_eq.
Qed.

Definition distinct_spans (q : RowDatasetVersionSequence) : Prop := Forall (fun r => NoDup (Segment.elems (span r))) q.

Lemma vmask_loop_ok q offset ps : Forall run_ok q -> distinct_spans q -> 0 <= offset ->
  offset + zlen (expand_runs q) <= U32_MAX -> ssorted ps -> Forall (fun p => offset <= p <= U32_MAX) ps ->
  exists q', mask_loop offset offset ps q = Ok q' /\ Forall run_ok q' /\
    expand_runs q' = unmasked (map (fun p => p - offset) ps) (expand_runs q).
Proof.
  intros Hw. revert offset ps. induction Hw as [|[s v] q [Hs Hv] _ IH]; intros offset ps Hd Ho Hl Hsp Hp; [by exists []|].
  inversion Hd as [|? ? Hds Hdq]; subst. rewrite expand_runs_cons, zlen_app, zlen_run_versions in Hl. cbn [span] in *.
  set (n := zlen (Segment.elems s)) in *. assert (0 <= n) by apply zlen_nonneg. pose proof (zlen_nonneg (expand_runs q)).
  cbn [mask_loop span version]. rewrite Segment.seg_len_ok by done. mon. fold n. unwrap. rewrite take_positions_ok by done.
  destruct (masked_local s offset ps) as (s' & Es & Hws & Ees); [done|done|fold n; lia|done|done|]. fold n in Es, Ees.
  fold (local_positions offset n ps). rewrite Es. mon.
  destruct (IH (offset + n) (later_positions (offset + n) ps)) as (q' & Eq & Hwq & Eeq);
    [done|lia|lia|by apply ssorted_filter|by eapply later_positions_ok|].
  fold (later_positions (offset + n) ps). rewrite Eq. mon. eexists. split; [done|]. split; [by constructor|].
  rewrite !expand_runs_cons, unmasked_local, Eeq, zlen_run_versions. cbn [span]. fold n. f_equal.
  unfold run_versions. cbn [span version]. by rewrite Ees, unmasked_replicate.
Qed.

Lemma expand_runs_retain q : expand_runs (List.filter (fun r => negb (zlen (Segment.elems (span r)) =? 0)) q) = expand_runs q.
Proof.
  induction q as [|r q IH]; [done|]. cbn [List.filter]. destruct (Z.eqb_spec (zlen (Segment.elems (span r))) 0) as [E|]; cbn [negb].
  - rewrite IH, expand_runs_cons. unfold run_versions. unfold zlen in E. by replace (length (Segment.elems (span r))) with 0%nat by lia.
  - by rewrite !expand_runs_cons, IH.
Qed.

Lemma vmask_ok q ps : wf q -> distinct_spans q -> zlen (expand_runs q) <= U32_MAX -> ssorted ps -> Forall u32_ok ps ->
  exists q', mask q ps = Ok q' /\ wf q' /\ no_empty_run q' /\ expand_runs q' = unmasked ps (expand_runs q).
Proof.
  intros [Hw _] Hd Hu Hs Hp. unfold mask.
  destruct (vmask_loop_ok q 0 ps) as (q' & -> & Hw' & Ee); [done|done|lia|lia|done|by eapply Forall_impl|]. mon.
  rewrite (filter_res_ok _ (fun r => negb (zlen (Segment.elems (span r)) =? 0))).
  2: { eapply Forall_impl; [done|]. intros r [Hr _]. simpl. unfold Segment.is_empty. by rewrite Segment.seg_len_ok. }
  rewrite (map_ext _ (fun p => p)), map_id in Ee by (intros; lia).
  eexists. split; [done|]. rewrite expand_runs_retain. split; [split|split; [|done]].
  - apply Forall_forall. intros r [Hin _]%elem_of_filterb. rewrite Forall_forall in Hw'. auto.
  - rewrite expand_runs_retain, Ee. pose proof (sublist_length _ _ (unmasked_sublist ps (expand_runs q))). unfold zlen in *. lia.
  - apply Forall_forall. intros s [_ Hne]%elem_of_filterb E. by rewrite E in Hne.
Qed.

(** ** Re-chunking *)

Definition run_item_ok (r : RowDatasetVersionRun) : Prop := seg_item_ok (span r) /\ u64_ok (version r).

Lemma expand_runs_concat qs : expand_runs (concat qs) = concat (map expand_runs qs).
Proof. induction qs as [|q qs IH]; [done|]. simpl. by rewrite expand_runs_app, IH. Qed.

Lemma slice_run_ok r a n : run_item_ok r -> 0 <= a -> 0 <= n -> a + n <= zlen (run_versions r) ->
  exists r', slice_run r a n = Ok r' /\ run_item_ok r' /\ run_versions r' = zsub (run_versions r) a (a + n).
Proof.
  intros ((Hw & Hd & Hl) & Hv) Ha H0 Hle. rewrite zlen_run_versions in Hle. unfold slice_run.
  destruct (SegmentBuild.seg_slice_ok (span r) a n Hw Hd Ha) as (g & -> & Hg & Eg); [lia|]. mon. eexists. split; [done|].
  assert (zlen (Segment.elems g) = n) as Hgn by (rewrite Eg, zlen_zsub by lia; lia). split.
  - split; [|done]. split; [done|]. cbn [span]. rewrite Hgn. split; [rewrite Eg; by apply NoDup_zsub|lia].
  - unfold run_versions, zsub, ztake, zskip. cbn [span version]. rewrite drop_replicate, take_replicate. f_equal.
    unfold zlen in *. lia.
Qed.

(** ** Properties *)

(** On a sequence of runs that encodes one version per row, [len],
    [is_empty], [version_at] and [get_version_for_row_id] answer what the list
    of versions says: the number of rows, whether there are none, the version
    at a position ([None] past the end), and the version of a row id through
    its position in the row-id sequence ([None] for an id that is not there). *)
Theorem version_queries q row_ids i row_id : wf q -> Sequence.wf row_ids -> u64_ok i -> u64_ok row_id ->
  len q = Ok (zlen (expand_runs q)) /\
  is_empty q = Ok (zlen (expand_runs q) =? 0) /\
  version_at q i = Ok (get_opt (expand_runs q) i) /\
  get_version_for_row_id q row_ids row_id =
    Ok (match index_of row_id (elems row_ids) with Some p => get_opt (expand_runs q) p | None => None end).
Proof.
  intros Hq [Hr Hl] Hi Hv. split; [by apply vlen_ok|]. split; [by apply is_empty_ok, Hq|].
  split; [apply version_at_ok; [done|uok; lia]|]. unfold get_version_for_row_id. by rewrite row_version_loop_ok by (done || lia).
Qed.

Lemma version_queries_witness :
  version_at [mkRun (Range_ (0 ..< 3)) 4; mkRun (Range_ (3 ..< 5)) 9] 3 = Ok (Some 9) /\
  get_version_for_row_id [mkRun (Range_ (0 ..< 3)) 4; mkRun (Range_ (3 ..< 5)) 9] [Range_ (100 ..< 102); Range_ (7 ..< 10)] 8 = Ok (Some 9).
Proof.
  destruct (version_queries [mkRun (Range_ (0 ..< 3)) 4; mkRun (Range_ (3 ..< 5)) 9] [Range_ (100 ..< 102); Range_ (7 ..< 10)] 3 8)
    as (_ & _ & -> & ->); [split; [repeat constructor; uok; vm_compute; done|vm_compute; done]..|uok; lia|uok; lia|]; done.
Defined.

(** Run-length encoding one version per row and iterating over the result
    gives the versions back, in runs that are not empty and maximal; and the
    row ids paired with a version above a threshold are those
    [rows_with_version_greater_than] returns. *)
Theorem from_versions_roundtrip l row_ids threshold : Forall u64_ok l -> zlen l <= U64_MAX -> Sequence.wf row_ids ->
  wf (from_versions l) /\ no_empty_run (from_versions l) /\ maximal_runs (from_versions l) /\
  versions (from_versions l) = Ok l /\
  rows_with_version_greater_than (from_versions l) row_ids threshold =
    Ok (map fst (List.filter (fun p => snd p >? threshold) (zip (elems row_ids) l))).
Proof.
  intros Hu Hl [Hr _]. destruct (from_versions_ok l Hu Hl) as (Hw & Hn & Hm & He).
  assert (versions (from_versions l) = Ok l) as Hv.
  { rewrite versions_ok, He; [done|done|]. destruct (from_versions l); [done|by inversion Hn]. }
  split; [split; [done|by rewrite He]|]. do 3 (split; [done|]).
  unfold rows_with_version_greater_than. rewrite seq_iter_ok, Hv by done. done.
Qed.

Lemma from_versions_roundtrip_witness : versions (from_versions [1; 1; 5; 5; 5; 2]) = Ok [1; 1; 5; 5; 5; 2].
Proof.
  apply (from_versions_roundtrip [1; 1; 5; 5; 5; 2] [Range_ (0 ..< 6)] 3); [repeat constructor; uok; lia|vm_compute; done|].
  split; [repeat constructor; uok; vm_compute; done|vm_compute; done].
Defined.

(** Iterating over a sequence whose runs after the first are not empty
    yields one version per row; an empty run after the first yields a version
    that belongs to no row. *)
Theorem versions_iteration q : Forall run_ok q -> no_empty_run (tail q) ->
  versions q = Ok (expand_runs q) /\
  (let q' := [mkRun (Range_ (0 ..< 2)) 1; mkRun (Range_ (2 ..< 2)) 5; mkRun (Range_ (2 ..< 3)) 2] in
   versions q' = Ok [1; 1; 5; 2] /\ len q' = Ok 3 /\ expand_runs q' = [1; 1; 2]).
Proof. intros Hq Hn. split; [by apply versions_ok|]. vm_compute. done. Qed.

Lemma versions_iteration_witness : versions [mkRun (Range_ (0 ..< 0)) 7; mkRun (Range_ (0 ..< 2)) 8] = Ok [8; 8].
Proof.
  destruct (versions_iteration [mkRun (Range_ (0 ..< 0)) 7; mkRun (Range_ (0 ..< 2)) 8]) as [-> _]; [|by repeat constructor|done].
  repeat constructor; uok; vm_compute; done.
Defined.

(** [mask] at increasing positions removes exactly the versions at those
    positions and leaves no empty run. *)
Theorem version_mask q ps : wf q -> distinct_spans q -> zlen (expand_runs q) <= U32_MAX -> ssorted ps -> Forall u32_ok ps ->
  exists q', mask q ps = Ok q' /\ wf q' /\ no_empty_run q' /\ versions q' = Ok (unmasked ps (expand_runs q)).
Proof.
  intros. destruct (vmask_ok q ps) as (q' & E & Hw & Hn & He); [done..|]. exists q'. do 3 (split; [done|]).
  rewrite <- He. apply versions_ok; [apply Hw|]. destruct q'; [done|by inversion Hn].
Qed.

Lemma version_mask_witness :
  exists q', mask [mkRun (Range_ (0 ..< 3)) 4; mkRun (Range_ (3 ..< 4)) 6; mkRun (Range_ (4 ..< 6)) 9] [1; 3; 5] = Ok q' /\ versions q' = Ok [4; 4; 9].
Proof.
  destruct (version_mask [mkRun (Range_ (0 ..< 3)) 4; mkRun (Range_ (3 ..< 4)) 6; mkRun (Range_ (4 ..< 6)) 9] [1; 3; 5]) as (q' & E & _ & _ & H).
  - split; [repeat constructor; uok; vm_compute; done|vm_compute; done].
  - repeat constructor; apply (bool_decide_unpack _); vm_compute; done.
  - vm_compute. done.
  - repeat constructor; lia.
  - repeat constructor; uok; lia.
  - exists q'. split; [exact E|exact H].
Defined.

(** [rechunk_version_sequences] cuts the versions of all the sequences,
    in order, into chunks of the requested sizes; sizes that do not sum to the
    number of rows are an error, unless they exceed it and an incomplete last
    chunk is allowed. *)
Theorem rechunk_versions_spec qs sizes allow : Forall run_item_ok (concat qs) -> no_empty_run (concat qs) -> Forall u64_ok sizes ->
  let l := concat (map expand_runs qs) in
  (total sizes = zlen l \/ (allow = true /\ zlen l <= total sizes) ->
     exists chunked, rechunk_version_sequences qs sizes allow = Ok chunked /\ map expand_runs chunked = split_by sizes l) /\
  (total sizes < zlen l \/ (allow = false /\ zlen l < total sizes) ->
     rechunk_version_sequences qs sizes allow = Err InvalidInput).
Proof.
  intros Hs Hn Hz l. assert (all_vals run_versions (concat qs) = l) as El by apply expand_runs_concat.
  destruct (rechunk_ok run_length slice_run new (fun q r => q ++ [r]) run_item_ok run_versions (Forall run_item_ok) expand_runs)
    with (items := concat qs) (sizes := sizes) (allow := allow) as [Hok Herr]; try done; [..|rewrite El in *; split; [|done]].
  - intros r ((Hw & _ & Hl) & Hv). split; [by apply run_length_ok|by rewrite zlen_run_versions].
  - by apply slice_run_ok.
  - intros q r Hq Hr. split; [by apply Forall_app; split; [|constructor]|]. by rewrite expand_runs_app, expand_runs_cons, app_nil_r.
  - eapply Forall_impl; [exact Hn|]. intros r Hr E. apply (f_equal zlen) in E. rewrite zlen_run_versions, zlen_nil in E.
    apply Hr. unfold zlen in E. destruct (Segment.elems (span r)); [done|simpl in E; lia].
  - intros Hc. destruct (Hok Hc) as (cs & E & _ & He). exists cs. done.
Qed.

Lemma rechunk_versions_spec_witness : exists chunked,
  rechunk_version_sequences [[mkRun (Range_ (0 ..< 3)) 4]; [mkRun (Range_ (0 ..< 2)) 6]] [2; 2; 1] false = Ok chunked /\
  map expand_runs chunked = [[4; 4]; [4; 6]; [6]].
Proof.
  destruct (rechunk_versions_spec [[mkRun (Range_ (0 ..< 3)) 4]; [mkRun (Range_ (0 ..< 2)) 6]] [2; 2; 1] false) as [H _].
  - repeat constructor; uok; try (vm_compute; done); apply (bool_decide_unpack _); vm_compute; done.
  - by repeat constructor.
  - repeat constructor; uok; lia.
  - apply H. left. vm_compute. done.
Defined.
