(* ===== verification/VersionCursor.v ===== *)
(** * Cursors over row version sequences

    [RowDatasetVersionCursor] of [lance-table/src/rowids/version.rs]: the reader
    a stream keeps across batches.  It remembers the run it stands in and, once
    a read moved backwards, an index of the runs' first positions.  A call takes
    [&mut self] and [&mut versions] and may fail, so an operation returns its
    [Result] together with the cursor and the output it leaves behind; the
    theorems cover the state after an error as well. *)

From Stdlib Require Import ZArith Lia.
From stdpp Require Import base option list numbers sorting sets gmap.
From S2P Require Import Prelude Lists Bits Bitmap EncodedArray HoleRuns Segment Sequence Version.

(** ** Model *)

Record RowDatasetVersionCursor := mkVersionCursor {
  run_index : Z;
  offset_in_run : Z;
  position : Z;
  run_len : option Z;
  run_offsets : option (list Z);
  indexed_total_len : Z
}.

Definition default : RowDatasetVersionCursor := mkVersionCursor 0 0 0 None None 0.

(** The closure that collects [run_offsets] while it sums [total_len]. *)
Fixpoint index_runs (total_len : Z) (runs : RowDatasetVersionSequence) : res (list Z * Z) :=
  match runs with
  | [] => Ok ([], total_len)
  | run :: rest =>
      n ← run_length run;
      '(offsets, total) ← index_runs (total_len +w n) rest;
      Ok (total_len :: offsets, total)
  end.

Definition ensure_index (c : RowDatasetVersionCursor) (sequence : RowDatasetVersionSequence) : res (list Z * RowDatasetVersionCursor) :=
  match run_offsets c with
  | Some offsets => Ok (offsets, c)
  | None =>
      '(offsets, total) ← index_runs 0 sequence;
      Ok (offsets, mkVersionCursor (run_index c) (offset_in_run c) (position c) (run_len c) (Some offsets) total)
  end.

(** [while run_index + 1 < run_offsets.len() && run_offsets[run_index + 1] <= position] *)
Fixpoint last_offset_loop (fuel : nat) (offsets : list Z) (run_index position : Z) : res Z :=
  match fuel with
  | O => Panic
  | S fuel =>
      if run_index +w 1 <? zlen offsets then
        o ← idx offsets (run_index +w 1);
        if o <=? position then last_offset_loop fuel offsets (run_index +w 1) position else Ok run_index
      else Ok run_index
  end.

Definition seek_indexed (c : RowDatasetVersionCursor) (sequence : RowDatasetVersionSequence) (position : Z)
    : res (res unit * RowDatasetVersionCursor) :=
  '(offsets, c) ← ensure_index c sequence;
  if position >=? indexed_total_len c then Ok (Err Internal, c) else
  let first := match Lists.binary_search offsets position with inl i => i | inr i => i -w 1 end in
  run_index ← last_offset_loop (S (length offsets)) offsets first position;
  o ← idx offsets run_index;
  Ok (Ok tt, mkVersionCursor run_index (position -w o) position None (run_offsets c) (indexed_total_len c)).

(** [self.run_len.get_or_insert_with(..)]: a range's length is computed in place. *)
Definition current_len (c : RowDatasetVersionCursor) (run : RowDatasetVersionRun) : res Z :=
  match run_len c with
  | Some n => Ok n
  | None => match span run with Range_ range => Ok (end_ range -w start range) | s => Segment.len s end
  end.

Fixpoint current_run_loop (fuel : nat) (c : RowDatasetVersionCursor) (sequence : RowDatasetVersionSequence)
    : res (option (RowDatasetVersionRun * Z) * RowDatasetVersionCursor) :=
  match fuel with
  | O => Panic
  | S fuel =>
      match get_opt sequence (run_index c) with
      | None => Ok (None, c)
      | Some run =>
          n ← current_len c run;
          if offset_in_run c <? n then
            Ok (Some (run, n), mkVersionCursor (run_index c) (offset_in_run c) (position c) (Some n) (run_offsets c) (indexed_total_len c))
          else
            current_run_loop fuel (mkVersionCursor (run_index c +w 1) 0 (position c) None (run_offsets c) (indexed_total_len c)) sequence
      end
  end.

Definition current_run (c : RowDatasetVersionCursor) (sequence : RowDatasetVersionSequence)
    : res (option (RowDatasetVersionRun * Z) * RowDatasetVersionCursor) :=
  current_run_loop (S (length sequence)) c sequence.

(** [self.offset_in_run += count; self.position += count] *)
Definition advance (c : RowDatasetVersionCursor) (count : Z) : RowDatasetVersionCursor :=
  mkVersionCursor (run_index c) (offset_in_run c +w count) (position c +w count) (run_len c) (run_offsets c) (indexed_total_len c).

(** [while self.position < selection.start] *)
Fixpoint skip_loop (fuel : nat) (c : RowDatasetVersionCursor) (sequence : RowDatasetVersionSequence) (target : Z)
    : res (res unit * RowDatasetVersionCursor) :=
  match fuel with
  | O => Panic
  | S fuel =>
      if position c <? target then
        '(run, c) ← current_run c sequence;
        match run with
        | None => Ok (Err Internal, c)
        | Some (_, n) =>
            let count := Z.min (target -w position c) (n -w offset_in_run c) in
            skip_loop fuel (advance c count) sequence target
        end
      else Ok (Ok tt, c)
  end.

(** [while self.position < selection.end] *)
Fixpoint read_loop (fuel : nat) (c : RowDatasetVersionCursor) (sequence : RowDatasetVersionSequence) (target : Z) (versions : list Z)
    : res (res unit * RowDatasetVersionCursor * list Z) :=
  match fuel with
  | O => Panic
  | S fuel =>
      if position c <? target then
        '(run, c) ← current_run c sequence;
        match run with
        | None => Ok (Err Internal, c, versions)
        | Some (run, n) =>
            let count := Z.min (target -w position c) (n -w offset_in_run c) in
            read_loop fuel (advance c count) sequence target (versions ++ replicate (Z.to_nat count) (version run))
        end
      else Ok (Ok tt, c, versions)
  end.

Definition extend_range (c : RowDatasetVersionCursor) (sequence : RowDatasetVersionSequence) (selection : Range) (versions : list Z)
    : res (res unit * RowDatasetVersionCursor * list Z) :=
  if range_is_empty selection then Ok (Ok tt, c, versions) else
  '(r, c) ← (if (start selection <? position c) ||
                (match run_offsets c with Some _ => true | None => false end && negb (start selection =? position c))
             then seek_indexed c sequence (start selection) else Ok (Ok tt, c));
  match r with
  | Ok tt =>
      '(r, c) ← skip_loop (S (S (length sequence))) c sequence (start selection);
      match r with
      | Ok tt => read_loop (S (S (length sequence))) c sequence (end_ selection) versions
      | r => Ok (r, c, versions)
      end
  | r => Ok (r, c, versions)
  end.

(** ** Specification *)

(** The position of the first row of each run. *)
Fixpoint run_starts (at_ : Z) (q : RowDatasetVersionSequence) : list Z :=
  match q with [] => [] | r :: q => at_ :: run_starts (at_ + zlen (run_versions r)) q end.

(** The cursor stands in the first run of [post], or at its end. *)
Definition at_run (q : RowDatasetVersionSequence) (c : RowDatasetVersionCursor) (pre post : RowDatasetVersionSequence) : Prop :=
  q = pre ++ post /\ run_index c = zlen pre /\ position c = zlen (expand_runs pre) + offset_in_run c /\ 0 <= offset_in_run c /\
  match post with
  | [] => offset_in_run c = 0 /\ run_len c = None
  | r :: _ => offset_in_run c <= zlen (run_versions r) /\
      match run_len c with Some n => n = zlen (run_versions r) | None => True end
  end.

Definition index_ok (q : RowDatasetVersionSequence) (c : RowDatasetVersionCursor) : Prop :=
  match run_offsets c with
  | Some l => l = run_starts 0 q /\ indexed_total_len c = zlen (expand_runs q)
  | None => True
  end.

Definition cursor_inv (q : RowDatasetVersionSequence) (c : RowDatasetVersionCursor) : Prop :=
  index_ok q c /\ exists pre post, at_run q c pre post.

(** ** Walking the runs *)

Lemma current_len_ok c r : run_ok r -> match run_len c with Some n => n = zlen (run_versions r) | None => True end ->
  current_len c r = Ok (zlen (run_versions r)).
Proof.
  intros [Hw Hv] Hn. unfold current_len. destruct (run_len c); [by subst|]. rewrite zlen_run_versions.
  pose proof (Segment.seg_len_ok _ Hw) as Hl. destruct (span r) as [[a b]| | | | |]; try done.
Qed.

(** Runs that may still be visited. *)
Definition runs_left (c : RowDatasetVersionCursor) (post : RowDatasetVersionSequence) : nat :=
  match post with
  | [] => 0
  | r :: post' => if offset_in_run c <? zlen (run_versions r) then length post else length post'
  end.

(** Same place and index. *)
Definition same_place (c c' : RowDatasetVersionCursor) : Prop :=
  position c' = position c /\ run_offsets c' = run_offsets c /\ indexed_total_len c' = indexed_total_len c.

Lemma current_run_loop_ok q fuel post : forall pre c, wf q -> at_run q c pre post -> zlen q < U64_MAX -> (length post < fuel)%nat ->
  exists o c' pre' post', current_run_loop fuel c q = Ok (o, c') /\ at_run q c' pre' post' /\ same_place c c' /\
    match o with
    | None => post' = []
    | Some (r, n) => n = zlen (run_versions r) /\ offset_in_run c' < n /\ (length post' <= runs_left c post)%nat /\
        exists post'', post' = r :: post''
    end.
Proof.
  revert fuel. induction post as [|r post IH]; intros fuel pre c Hq Hc Hz Hf; (destruct fuel as [|fuel]; [simpl in Hf; lia|]);
    pose proof Hc as (Eq & Ei & Ep & Ho & Hpost); cbn [current_run_loop].
  - rewrite app_nil_r in Eq. subst q. rewrite (proj2 (get_opt_None _ _)) by lia. eexists _, _, pre, []. split; [done|]. split; [exact Hc|]. by repeat split.
  - destruct Hpost as [Hle Hn].
    assert (get_opt q (run_index c) = Some r) as -> by (by rewrite Eq, Ei, get_opt_app, (proj2 (Z.ltb_ge _ _)), Z.sub_diag by lia).
    rewrite current_len_ok; [|rewrite Eq in Hq; destruct Hq as [[_ Hq]%Forall_app _]; by inversion Hq|done].
    mon. destruct (Z.ltb_spec (offset_in_run c) (zlen (run_versions r))) as [Hlt|Hge].
    + eexists _, _, pre, (r :: post). split; [done|]. split; [by repeat split|]. split; [by repeat split|]. cbn [offset_in_run].
      split; [done|]. split; [done|]. unfold runs_left. rewrite (proj2 (Z.ltb_lt _ _)) by done. split; [done|]. by exists post.
    + assert (zlen pre + 1 <= zlen q) by (rewrite Eq, zlen_app, zlen_cons; pose proof (zlen_nonneg post); lia). pose proof (zlen_nonneg pre).
      rewrite Ei. unwrap.
      edestruct (IH fuel (pre ++ [r])) as (o & c' & pre' & post' & -> & Hc' & Hs & Hr); [done| |done|simpl in Hf; lia|].
      * split; [by rewrite <- app_assoc|]. cbn [run_index position offset_in_run run_len].
        rewrite zlen_app, expand_runs_app, zlen_app, expand_runs_cons, app_nil_r, zlen_cons, zlen_nil.
        split; [lia|]. split; [lia|]. split; [lia|]. destruct post; [done|]. split; [apply zlen_nonneg|done].
      * exists o, c', pre', post'. split; [done|]. split; [done|]. split; [done|]. destruct o as [[r' n]|]; [|done].
        destruct Hr as (-> & Hlt & Hl & Hp). do 2 (split; [done|]). split; [|done]. etrans; [apply Hl|].
        unfold runs_left. rewrite (proj2 (Z.ltb_ge (offset_in_run c) _)) by lia. destruct post; [done|]. destruct (_ <? _); simpl; lia.
Qed.

Lemma current_run_ok q c pre post : wf q -> at_run q c pre post -> zlen q < U64_MAX ->
  exists o c' pre' post', current_run c q = Ok (o, c') /\ at_run q c' pre' post' /\ same_place c c' /\
    match o with
    | None => post' = []
    | Some (r, n) => n = zlen (run_versions r) /\ offset_in_run c' < n /\ (length post' <= runs_left c post)%nat /\
        exists post'', post' = r :: post''
    end.
Proof.
  intros Hq Hc Hz. eapply current_run_loop_ok; try done. destruct Hc as [-> _]. rewrite length_app. lia.
Qed.

(** What is left to read. *)
Lemma at_run_rest q c pre r post : at_run q c pre (r :: post) ->
  zskip (position c) (expand_runs q) = replicate (Z.to_nat (zlen (run_versions r) - offset_in_run c)) (version r) ++ expand_runs post.
Proof.
  intros (-> & _ & -> & Ho & Hle & _). rewrite expand_runs_app, expand_runs_cons. unfold zskip.
  rewrite drop_app_ge by (unfold zlen; lia). unfold zlen at 1.
  replace (Z.to_nat (Z.of_nat (length (expand_runs pre)) + offset_in_run c) - length (expand_runs pre))%nat with (Z.to_nat (offset_in_run c)) by lia.
  rewrite drop_app_le by (unfold zlen in Hle; lia). unfold run_versions, zlen. rewrite drop_replicate, length_replicate. do 2 f_equal. lia.
Qed.

Lemma at_run_bounds q c pre post : at_run q c pre post -> 0 <= position c <= zlen (expand_runs q).
Proof.
  intros (-> & _ & -> & Ho & Hp). rewrite expand_runs_app, zlen_app. pose proof (zlen_nonneg (expand_runs pre)). pose proof (zlen_nonneg (expand_runs post)).
  destruct post as [|r post]; [lia|]. rewrite expand_runs_cons, zlen_app in *. pose proof (zlen_nonneg (expand_runs post)). lia.
Qed.

Lemma at_run_len q c pre r post : at_run q c pre (r :: post) -> zlen (run_versions r) <= zlen (expand_runs q).
Proof.
  intros (-> & _). rewrite expand_runs_app, expand_runs_cons, !zlen_app.
  pose proof (zlen_nonneg (expand_runs pre)). pose proof (zlen_nonneg (expand_runs post)). lia.
Qed.

Lemma at_run_end q c pre : at_run q c pre [] -> position c = zlen (expand_runs q).
Proof. intros (-> & _ & -> & _ & -> & _). rewrite app_nil_r. lia. Qed.

Lemma advance_ok q c pre r post count : wf q -> at_run q c pre (r :: post) -> 0 <= count <= zlen (run_versions r) - offset_in_run c ->
  at_run q (advance c count) pre (r :: post) /\ position (advance c count) = position c + count /\
  offset_in_run (advance c count) = offset_in_run c + count.
Proof.
  intros [_ Hq] Hc Hn. pose proof Hc as (Eq & Ei & Ep & Ho & Hle & Hl). pose proof (at_run_bounds _ _ _ _ Hc).
  assert (position c + zlen (run_versions r) - offset_in_run c <= zlen (expand_runs q)).
  { rewrite Eq, Ep, expand_runs_app, expand_runs_cons, !zlen_app. pose proof (zlen_nonneg (expand_runs post)). lia. }
  pose proof (zlen_nonneg (expand_runs pre)).
  unfold advance, at_run. cbn [run_index offset_in_run position run_len]. unwrap.
  split; [|split; lia]. split; [done|]. split; [done|]. split; [lia|]. split; [lia|]. split; [lia|done].
Qed.

(** One step of either loop: the runs left decrease, or the target is reached. *)
Lemma step_ok q c pre post target : wf q -> zlen q < U64_MAX -> at_run q c pre post -> index_ok q c -> position c < target -> u64_ok target ->
  exists o c', current_run c q = Ok (o, c') /\ position c' = position c /\
  match o with
  | None => cursor_inv q c' /\ position c = zlen (expand_runs q)
  | Some (r, n) =>
      let count := Z.min (target -w position c') (n -w offset_in_run c') in
      0 <= count /\ position (advance c' count) = position c + count /\ position c + count <= target /\
      ztake count (zskip (position c) (expand_runs q)) = replicate (Z.to_nat count) (version r) /\
      index_ok q (advance c' count) /\ exists pre' post', at_run q (advance c' count) pre' post' /\
        (position c + count < target -> (runs_left (advance c' count) post' < runs_left c post)%nat)
  end.
Proof.
  intros Hq Hz Hc Hi Hlt Ht. destruct (current_run_ok q c pre post Hq Hc Hz) as (o & c' & pre' & post' & E & Hc' & (Sp & So & Sl) & Hr).
  assert (index_ok q c') as Hi' by (unfold index_ok in *; by rewrite So, Sl).
  exists o, c'. split; [done|]. split; [done|]. destruct o as [[r n]|].
  - destruct Hr as (-> & Hof & Hleft & post'' & ->). intros count. pose proof Hc' as (_ & _ & _ & Ho & Hle & _).
    pose proof (at_run_bounds _ _ _ _ Hc') as Hb. pose proof (proj2 Hq). unfold u64_ok in Ht.
    pose proof (at_run_len _ _ _ _ _ Hc').
    assert (count = Z.min (target - position c') (zlen (run_versions r) - offset_in_run c')) as Hcount by (unfold count; unwrap; done).
    clearbody count.
    destruct (advance_ok q c' pre' r post'' count) as (Ha & Hpos & Hoff); [done|done|lia|].
    split; [lia|]. split; [lia|]. split; [lia|]. split; [|split; [done|]].
    + rewrite <- Sp, (at_run_rest _ _ _ _ _ Hc'). unfold ztake. rewrite take_app_le by (rewrite length_replicate; lia).
      rewrite take_replicate. f_equal. lia.
    + exists pre', (r :: post''). split; [done|]. intros Hmore. unfold runs_left at 1. rewrite Hoff, (proj2 (Z.ltb_ge _ _)) by lia.
      simpl in Hleft. lia.
  - subst post'. split; [split; [done|by eexists _, _]|]. rewrite <- Sp. by eapply at_run_end.
Qed.

(** ** Seeking with the index *)

Lemma index_runs_ok q t : Forall run_ok q -> 0 <= t -> t + zlen (expand_runs q) <= U64_MAX ->
  index_runs t q = Ok (run_starts t q, t + zlen (expand_runs q)).
Proof.
  intros Hq. revert t. induction Hq as [|r q Hr _ IH]; intros t Ht Hl.
  { cbn [index_runs run_starts]. change (expand_runs []) with (@nil Z). by rewrite zlen_nil, Z.add_0_r. }
  rewrite expand_runs_cons, zlen_app in Hl. pose proof (zlen_nonneg (run_versions r)). pose proof (zlen_nonneg (expand_runs q)).
  cbn [index_runs run_starts]. rewrite run_length_ok by done. mon. unwrap. rewrite IH by lia. mon.
  rewrite expand_runs_cons, zlen_app. do 2 f_equal. lia.
Qed.

Lemma run_starts_at t pre r post : get_opt (run_starts t (pre ++ r :: post)) (zlen pre) = Some (t + zlen (expand_runs pre)).
Proof.
  revert t. induction pre as [|x pre IH]; intros t.
  { change (expand_runs []) with (@nil Z). rewrite zlen_nil, Z.add_0_r. done. }
  cbn [app run_starts]. rewrite zlen_cons, get_opt_cons.
  rewrite (proj2 (Z.eqb_neq _ _)) by (pose proof (zlen_nonneg pre); lia).
  replace (1 + zlen pre - 1) with (zlen pre) by lia. rewrite IH, expand_runs_cons, zlen_app. f_equal. lia.
Qed.

Lemma zlen_run_starts t q : zlen (run_starts t q) = zlen q.
Proof. revert t. induction q as [|r q IH]; intros t; [done|]. cbn [run_starts]. by rewrite !zlen_cons, IH. Qed.

Lemma run_starts_lookup q j o : get_opt (run_starts 0 q) j = Some o ->
  exists pre r post, q = pre ++ r :: post /\ zlen pre = j /\ o = zlen (expand_runs pre).
Proof.
  intros Ho. apply get_opt_Some in Ho as Hj. rewrite zlen_run_starts in Hj.
  destruct (get_opt_lt q j Hj) as [r Hr]. apply get_opt_split in Hr as (pre & post & -> & Hp). exists pre, r, post.
  split; [done|]. split; [done|]. subst j. rewrite run_starts_at in Ho. by injection Ho.
Qed.

Lemma run_starts_nondecreasing t q : nondecreasing_list (run_starts t q).
Proof.
  assert (forall q t, Forall (Z.le t) (run_starts t q)) as Hge.
  { clear. induction q as [|r q IH]; intros t; constructor; [lia|]. eapply Forall_impl; [apply IH|].
    intros x Hx. pose proof (zlen_nonneg (run_versions r)). simpl in *. lia. }
  revert t. induction q as [|r q IH]; intros t i j x y Hij Hx Hy; [done|]. destruct j as [|j]; [lia|]. destruct i as [|i].
  - injection Hx as <-. change (run_starts (t + zlen (run_versions r)) q !! j = Some y) in Hy.
    specialize (Hge q (t + zlen (run_versions r))). rewrite Forall_lookup in Hge. specialize (Hge _ _ Hy).
    pose proof (zlen_nonneg (run_versions r)). lia.
  - eapply (IH (t + zlen (run_versions r)) i j); [lia|done|done].
Qed.

Lemma last_offset_loop_ok l pos fuel j o : zlen l <= U64_MAX -> get_opt l j = Some o -> o <= pos -> zlen l - j < Z.of_nat fuel ->
  exists j' o', last_offset_loop fuel l j pos = Ok j' /\ get_opt l j' = Some o' /\ o' <= pos /\
    (forall o2, get_opt l (j' + 1) = Some o2 -> pos < o2).
Proof.
  intros Hz. revert j o. induction fuel as [|fuel IH]; intros j o Ho Hle Hf; [apply get_opt_Some in Ho; lia|].
  apply get_opt_Some in Ho as Hj. cbn [last_offset_loop]. unwrap. destruct (Z.ltb_spec (j + 1) (zlen l)) as [Hlt|Hge].
  - destruct (get_opt_lt l (j + 1)) as [o2 Ho2]; [lia|]. rewrite (idx_ok _ _ _ Ho2). mon.
    destruct (Z.leb_spec o2 pos); [eapply IH; [done|done|lia]|]. exists j, o. split; [done|]. split; [done|]. split; [done|].
    intros o3 Ho3. rewrite Ho2 in Ho3. injection Ho3 as <-. lia.
  - exists j, o. split; [done|]. split; [done|]. split; [done|]. intros o2 Ho2%get_opt_Some. lia.
Qed.

Lemma ensure_index_ok q c : wf q -> cursor_inv q c -> exists c', ensure_index c q = Ok (run_starts 0 q, c') /\
  cursor_inv q c' /\ indexed_total_len c' = zlen (expand_runs q) /\ run_offsets c' = Some (run_starts 0 q).
Proof.
  intros [Hq Hl] [Hi (pre & post & Hp)]. unfold ensure_index. unfold index_ok in Hi. destruct (run_offsets c) as [l|] eqn:El.
  - destruct Hi as [-> Ht]. exists c. split; [done|]. split; [|done]. split; [unfold index_ok; by rewrite El|]. by eexists _, _.
  - rewrite index_runs_ok by (done || lia). mon. eexists. split; [done|]. split; [|done].
    split; [done|]. exists pre, post. exact Hp.
Qed.

Lemma seek_indexed_ok q c pos : wf q -> zlen q < U64_MAX -> cursor_inv q c -> 0 <= pos ->
  exists r c', seek_indexed c q pos = Ok (r, c') /\ cursor_inv q c' /\
    (if pos <? zlen (expand_runs q) then r = Ok tt /\ position c' = pos else r = Err Internal).
Proof.
  intros Hq Hz Hc Hp. unfold seek_indexed. destruct (ensure_index_ok q c Hq Hc) as (c1 & -> & Hc1 & Ht & Eo). mon. rewrite Ht, Z.geb_leb.
  destruct (Z.leb_spec (zlen (expand_runs q)) pos) as [Hle|Hlt], (Z.ltb_spec pos (zlen (expand_runs q))); try lia.
  { eexists _, _. done. }
  set (first := match Lists.binary_search _ _ with inl i => i | inr i => i -w 1 end).
  assert (exists o, get_opt (run_starts 0 q) first = Some o /\ o <= pos) as (o & Ho & Hop).
  { pose proof (binary_search_le_spec _ pos (run_starts_nondecreasing 0 q)) as Hb. unfold first. clear first.
    destruct (Lists.binary_search _ _) as [i|i]; [exists pos; by split|]. destruct Hb as (Hi & Hb1 & Hb2).
    rewrite zlen_run_starts in Hi. destruct (Z.eq_dec i 0) as [->|].
    - destruct q as [|r q']; [change (zlen (expand_runs [])) with 0 in Hlt; lia|]. specialize (Hb2 0 0 ltac:(lia) eq_refl). lia.
    - unwrap. destruct (get_opt_lt (run_starts 0 q) (i - 1)) as [o Ho]; [rewrite zlen_run_starts; lia|].
      exists o. split; [done|]. specialize (Hb1 (i - 1) o ltac:(lia) Ho). lia. }
  destruct (last_offset_loop_ok (run_starts 0 q) pos (S (length (run_starts 0 q))) first o) as (j & o' & -> & Hj & Hjp & Hnext);
    [rewrite zlen_run_starts; lia|done|done|apply get_opt_Some in Ho; unfold zlen; lia|].
  mon. rewrite (idx_ok _ _ _ Hj). mon. eexists _, _. split; [done|]. split; [|done].
  apply run_starts_lookup in Hj as (pre & r & post & Eq & Ej & Eo'). destruct Hq as [_ Hl]. pose proof (zlen_nonneg (expand_runs pre)).
  split; [unfold index_ok; cbn; rewrite Eo; done|]. exists pre, (r :: post). unfold at_run. cbn [run_index position offset_in_run run_len].
  unwrap. split; [done|]. split; [done|]. split; [lia|]. split; [lia|]. split; [|done].
  assert (pos < zlen (expand_runs (pre ++ [r]))) as Hlast.
  { destruct post as [|r2 post]; [by rewrite <- Eq|]. apply Hnext.
    replace (j + 1) with (zlen (pre ++ [r])) by (rewrite zlen_app, zlen_cons, zlen_nil; lia).
    replace (pre ++ r :: r2 :: post) with ((pre ++ [r]) ++ r2 :: post) in Eq by (by rewrite <- app_assoc). by rewrite Eq, run_starts_at. }
  rewrite expand_runs_app, zlen_app, expand_runs_cons, app_nil_r in Hlast. lia.
Qed.

(** ** Reading *)

Lemma skip_loop_ok q target fuel : wf q -> zlen q < U64_MAX -> u64_ok target -> forall c pre post, at_run q c pre post -> index_ok q c ->
  position c <= target -> (0 < fuel)%nat -> (position c < target -> (S (runs_left c post) < fuel)%nat) ->
  exists r c', skip_loop fuel c q target = Ok (r, c') /\ cursor_inv q c' /\
    (if target <=? zlen (expand_runs q) then r = Ok tt /\ position c' = target else r = Err Internal).
Proof.
  intros Hq Hz Ht. induction fuel as [|fuel IH]; intros c pre post Hc Hi Hle Hf Hm; [lia|]. cbn [skip_loop].
  pose proof (at_run_bounds _ _ _ _ Hc) as Hb. destruct (Z.ltb_spec (position c) target) as [Hlt|Hge].
  - destruct (step_ok q c pre post target) as ([[r n]|] & c' & -> & Hp & Hs); [done..| |]; mon.
    + set (count := Z.min _ _) in *. destruct Hs as (H0 & Hpos & Hle' & _ & Hi' & pre' & post' & Hc' & Hm').
      apply (IH _ pre' post'); [done|done|lia|lia|]. rewrite Hpos. intros. specialize (Hm' ltac:(done)). specialize (Hm Hlt). lia.
    + destruct Hs as [Hs Hend]. rewrite (proj2 (Z.leb_gt _ _)) by lia. by eexists _, _.
  - rewrite (proj2 (Z.leb_le _ _)) by lia. eexists _, _. split; [done|]. split; [split; [done|by eexists _, _]|]. split; [done|lia].
Qed.

Lemma read_loop_ok q target fuel : wf q -> zlen q < U64_MAX -> u64_ok target -> forall c pre post vs, at_run q c pre post -> index_ok q c ->
  position c <= target -> (0 < fuel)%nat -> (position c < target -> (S (runs_left c post) < fuel)%nat) ->
  exists r c', read_loop fuel c q target vs = Ok (r, c', vs ++ zsub (expand_runs q) (position c) target) /\ cursor_inv q c' /\
    (if target <=? zlen (expand_runs q) then r = Ok tt /\ position c' = target else r = Err Internal).
Proof.
  intros Hq Hz Ht. induction fuel as [|fuel IH]; intros c pre post vs Hc Hi Hle Hf Hm; [lia|]. cbn [read_loop].
  pose proof (at_run_bounds _ _ _ _ Hc) as Hb. destruct (Z.ltb_spec (position c) target) as [Hlt|Hge].
  - destruct (step_ok q c pre post target) as ([[r n]|] & c' & -> & Hp & Hs); [done..| |]; mon.
    + set (count := Z.min _ _) in *. destruct Hs as (H0 & Hpos & Hle' & Hrep & Hi' & pre' & post' & Hc' & Hm').
      rewrite (zsub_step _ (position c) (position c + count)) by lia.
      replace (position c + count - position c) with count by lia. rewrite Hrep, app_assoc, <- Hpos.
      apply (IH _ pre' post'); [done|done|lia|lia|]. rewrite Hpos. intros. specialize (Hm' ltac:(done)). specialize (Hm Hlt). lia.
    + destruct Hs as [Hs Hend]. rewrite (proj2 (Z.leb_gt _ _)) by lia. unfold zsub. rewrite zskip_ge, Hend by lia.
      unfold ztake. rewrite take_nil, app_nil_r. by eexists _, _.
  - rewrite (proj2 (Z.leb_le _ _)), zsub_nil, app_nil_r by lia. eexists _, _. split; [done|].
    split; [split; [done|by eexists _, _]|]. split; [done|lia].
Qed.

Lemma runs_left_le q c pre post : at_run q c pre post -> (runs_left c post <= length q)%nat.
Proof. intros [-> _]. rewrite length_app. destruct post; simpl; [lia|]. case_match; lia. Qed.

(** ** Properties *)

Lemma default_inv q : cursor_inv q default.
Proof. split; [done|]. exists [], q. split; [done|]. split; [done|]. split; [done|]. split; [done|]. destruct q; [done|]. split; [apply zlen_nonneg|done]. Qed.

(** Whatever was read before, forwards or backwards, successfully or not,
    [extend_range] appends the versions of the requested rows: all of them and
    [Ok] when the range is in bounds, those that exist and an error when it is
    not; and the cursor it leaves behind can be read from again. *)
Theorem version_cursor q c a b vs : wf q -> zlen q < U64_MAX -> cursor_inv q c -> u64_ok a -> u64_ok b ->
  cursor_inv q default /\
  exists r c', extend_range c q (a ..< b) vs = Ok (r, c', vs ++ zsub (expand_runs q) a b) /\ cursor_inv q c' /\
    r = (if (b <=? a) || (b <=? zlen (expand_runs q)) then Ok tt else Err Internal).
Proof.
  intros Hq Hz Hc Ha Hb. split; [apply default_inv|]. unfold extend_range, range_is_empty. cbn [start end_].
  destruct (Z.ltb_spec a b) as [Hab|], (Z.leb_spec b a); try lia; cbn [negb orb].
  2: { rewrite zsub_nil, app_nil_r by done. by eexists _, _. }
  set (seek := (a <? position c) || _).
  assert (exists r c1, (if seek then seek_indexed c q a else Ok (Ok tt, c)) = Ok (r, c1) /\ cursor_inv q c1 /\
    ((r = Ok tt /\ position c1 <= a) \/ (r = Err Internal /\ zlen (expand_runs q) <= a))) as (r1 & c1 & -> & Hc1 & Hr1).
  { destruct seek eqn:Es.
    - destruct (seek_indexed_ok q c a) as (r & c1 & -> & Hc1 & Hr); [done|done|done|uok; lia|]. exists r, c1. split; [done|]. split; [done|].
      destruct (Z.ltb_spec a (zlen (expand_runs q))); [left; intuition lia|right; done].
    - apply orb_false_iff in Es as [Es%Z.ltb_ge _]. exists (Ok tt), c. split; [done|]. split; [done|]. left. done. }
  mon. destruct Hr1 as [[-> Hp1]|[-> Ha']].
  2: { rewrite (proj2 (Z.leb_gt _ _)) by lia. unfold zsub. rewrite zskip_ge by lia. unfold ztake. rewrite take_nil, app_nil_r. by eexists _, _. }
  destruct Hc1 as [Hi1 (pre & post & Hp)]. pose proof (runs_left_le _ _ _ _ Hp).
  destruct (skip_loop_ok q a (S (S (length q))) Hq Hz Ha c1 pre post) as (r2 & c2 & -> & Hc2 & Hr2); [done|done|done|lia|lia|]. mon.
  destruct (Z.leb_spec a (zlen (expand_runs q))) as [Hal|Hal].
  - destruct Hr2 as [-> Hp2]. destruct Hc2 as [Hi2 (pre2 & post2 & Hc2)]. pose proof (runs_left_le _ _ _ _ Hc2).
    destruct (read_loop_ok q b (S (S (length q))) Hq Hz Hb c2 pre2 post2 vs) as (r3 & c3 & -> & Hc3 & Hr3); [done|done|lia|lia|lia|].
    rewrite Hp2. exists r3, c3. split; [done|]. split; [done|]. destruct (b <=? _); [apply Hr3|done].
  - subst r2. rewrite (proj2 (Z.leb_gt _ _)) by lia. unfold zsub. rewrite zskip_ge by lia. unfold ztake. rewrite take_nil, app_nil_r.
    by eexists _, _.
Qed.

Lemma version_cursor_witness :
  exists r c', extend_range default [mkRun (Range_ (0 ..< 3)) 4; mkRun (Range_ (3 ..< 5)) 9] (2 ..< 8) [1] = Ok (r, c', [1; 4; 9; 9]) /\ r = Err Internal.
Proof.
  destruct (version_cursor [mkRun (Range_ (0 ..< 3)) 4; mkRun (Range_ (3 ..< 5)) 9] default 2 8 [1]) as [_ (r & c' & E & _ & Er)].
  - split; [repeat constructor; uok; vm_compute; done|vm_compute; done].
  - vm_compute. done.
  - apply default_inv.
  - uok; lia.
  - uok; lia.
  - exists r, c'. split; [exact E|exact Er].
Defined.
