(* ===== verification/VersionMeta.v ===== *)
(** * Row version metadata of a fragment

    The second half of [lance-table/src/rowids/version.rs]: version sequences as
    bytes in a fragment's metadata, and the functions that give new and updated
    fragments their metadata.  The message codec is [prost]'s, an interface with
    its documented laws as in [Prost]; the theorems show that what is written is
    read back, that bytes from a manifest cannot produce an ill-formed sequence,
    that writing never meets the encoding that has no wire form, and that a
    refresh sets exactly the updated rows. *)

From Stdlib Require Import ZArith Lia.
From stdpp Require Import base option list numbers sorting sets gmap.
From S2P Require Import Prelude Lists Bits Bitmap EncodedArray HoleRuns Segment SegmentBuild Sequence Rechunk Prost Serde Version.

(** ** The codec *)

(** [pb::RowDatasetVersionRun] and [pb::RowDatasetVersionSequence] *)
Record pb_run := mkPbRun { pb_span : option pb_U64Segment; pb_version : Z }.
Definition pb_versions : Type := list pb_run.

Definition pb_run_ok (n : Z) (r : pb_run) : Prop :=
  match pb_span r with Some s => pb_segment_ok n s | None => True end /\ u64_ok (pb_version r).

Class VersionProst := {
  (** [pb::RowDatasetVersionSequence::decode] and [encode_to_vec] *)
  decode_versions : list Z -> option pb_versions;
  encode_versions : pb_versions -> list Z
}.

Class VersionProstLaws `{VersionProst} : Prop := {
  (** A decoded message has values of its types, taken from the input. *)
  decode_versions_typed b l : Forall u8_ok b -> decode_versions b = Some l -> Forall (pb_run_ok (zlen b)) l;
  (** A message that was written is read back. *)
  decode_encode_versions l : Forall (pb_run_ok VEC64_MAX) l -> decode_versions (encode_versions l) = Some l
}.

(** ** Model *)

Inductive RowDatasetVersionMeta := Inline (data : list Z) | Column.

Inductive LastUpdatedAtVersionSequence := InlineLastUpdatedAtVersions (data : list Z) | ColumnLastUpdatedAtVersions.
Inductive CreatedAtVersionSequence := InlineCreatedAtVersions (data : list Z) | ColumnCreatedAtVersions.

Definition last_updated_at_version_meta_to_pb (meta : option RowDatasetVersionMeta) : option LastUpdatedAtVersionSequence :=
  option_map (fun m => match m with
    | Inline data => InlineLastUpdatedAtVersions data
    | Column => ColumnLastUpdatedAtVersions
    end) meta.

Definition created_at_version_meta_to_pb (meta : option RowDatasetVersionMeta) : option CreatedAtVersionSequence :=
  option_map (fun m => match m with
    | Inline data => InlineCreatedAtVersions data
    | Column => ColumnCreatedAtVersions
    end) meta.

Definition try_from_last_updated (value : LastUpdatedAtVersionSequence) : res RowDatasetVersionMeta :=
  match value with
  | InlineLastUpdatedAtVersions data => Ok (Inline data)
  | ColumnLastUpdatedAtVersions => Ok Column
  end.

Definition try_from_created (value : CreatedAtVersionSequence) : res RowDatasetVersionMeta :=
  match value with
  | InlineCreatedAtVersions data => Ok (Inline data)
  | ColumnCreatedAtVersions => Ok Column
  end.

(** [RowIdMeta]: the digest that [InlineRowIds] memoises is not part of its value. *)
Inductive RowIdMeta := InlineIds (data : list Z) | ColumnIds.

(** The fields of [Fragment] that this code reads and writes. *)
Record Fragment := mkFragment {
  id : Z;
  physical_rows : option Z;
  row_id_meta : option RowIdMeta;
  last_updated_at_version_meta : option RowDatasetVersionMeta;
  created_at_version_meta : option RowDatasetVersionMeta
}.

Definition with_last_updated (f : Fragment) (m : RowDatasetVersionMeta) : Fragment :=
  mkFragment (id f) (physical_rows f) (row_id_meta f) (Some m) (created_at_version_meta f).

Record LoadedRowLineage := mkLineage {
  row_ids : option RowIdSequence;
  created_at : option RowDatasetVersionSequence;
  last_updated_at : option RowDatasetVersionSequence
}.
Definition SpilledRowLineage : Type := gmap Z LoadedRowLineage.

(** The run loop of a partial refresh. *)
Fixpoint compress_loop (start curr_ver : Z) (l : list (Z * Z)) : list RowDatasetVersionRun * Z * Z :=
  match l with
  | [] => ([], start, curr_ver)
  | (idx, ver) :: l =>
      if negb (ver =? curr_ver) then
        let '(runs, st, cur) := compress_loop idx ver l in
        (mkRun (Range_ (start ..< idx)) curr_ver :: runs, st, cur)
      else compress_loop start curr_ver l
  end.

Definition compress (base_versions : list Z) : RowDatasetVersionSequence :=
  match base_versions with
  | [] => []
  | v :: _ =>
      let '(runs, start, curr_ver) := compress_loop 0 v (tail (enumerate base_versions)) in
      runs ++ [mkRun (Range_ (start ..< zlen base_versions)) curr_ver]
  end.

(** [for &pos in updated_offsets] *)
Fixpoint apply_updates (updated_offsets : list Z) (current_version : Z) (base_versions : list Z) : res (list Z) :=
  match updated_offsets with
  | [] => Ok base_versions
  | pos :: rest =>
      base_versions ← (if pos <? zlen base_versions then idx_set base_versions pos current_version else Ok base_versions);
      apply_updates rest current_version base_versions
  end.

(** [Vec::resize] *)
Definition resize (l : list Z) (n v : Z) : list Z := ztake n l ++ replicate (Z.to_nat (n - zlen l)) v.

(** [versions().take(n)] *)
Fixpoint take_versions (n : nat) (runs : RowDatasetVersionSequence) (it : VersionsIter) : res (list Z) :=
  match n with
  | O => Ok []
  | S n =>
      '(v, it) ← next runs it;
      match v with
      | None => Ok []
      | Some v => vs ← take_versions n runs it; Ok (v :: vs)
      end
  end.

Section Codec.
Context `{Prost} `{VersionProst}.

Definition write_run (run : RowDatasetVersionRun) : res pb_run :=
  span ← segment_to_pb (span run); Ok (mkPbRun (Some span) (version run)).

Definition write_dataset_versions (sequence : RowDatasetVersionSequence) : res (list Z) :=
  runs ← map_res write_run sequence; Ok (encode_versions runs).

Definition read_run (run : pb_run) : res RowDatasetVersionRun :=
  positions ← ok_or (pb_span run) Internal;
  segment ← try_from_segment positions;
  Ok (mkRun segment (pb_version run)).

Definition read_dataset_versions (data : list Z) : res RowDatasetVersionSequence :=
  runs ← ok_or (decode_versions data) Internal;
  map_res read_run runs.

Definition from_sequence (sequence : RowDatasetVersionSequence) : res RowDatasetVersionMeta :=
  bytes ← write_dataset_versions sequence; Ok (Inline bytes).

Definition load_sequence (m : RowDatasetVersionMeta) : res RowDatasetVersionSequence :=
  match m with
  | Inline data => read_dataset_versions data
  | Column => Err NotSupported
  end.

Definition build_version_meta (fragment : Fragment) (current_version : Z) : res (option RowDatasetVersionMeta) :=
  match physical_rows fragment with
  | Some physical_rows =>
      if physical_rows >? 0 then
        match row_id_meta fragment with
        | None => Panic
        | Some _ => m ← unwrap_res (from_sequence (from_uniform_row_count physical_rows current_version)); Ok (Some m)
        end
      else Ok None
  | None => Ok None
  end.

(** The row count of a fragment from its metadata; [column] is what a spilled row-id sequence gives. *)
Definition fragment_row_count (fragment : Fragment) (column : res Z) : res Z :=
  match physical_rows fragment with
  | Some pr => Ok pr
  | None =>
      match row_id_meta fragment with
      | Some (InlineIds data) => sequence ← unwrap_res (read_row_ids data); Sequence.len sequence
      | Some ColumnIds => column
      | None => Ok 0
      end
  end.

Definition refresh_full (fragment : Fragment) (current_version : Z) : res Fragment :=
  row_count ← fragment_row_count fragment (Ok 0);
  if row_count >? 0 then
    m ← from_sequence (from_uniform_row_count row_count current_version);
    Ok (with_last_updated fragment m)
  else Ok fragment.

(** The sequence the updates are applied to, if the fragment has one that can be read. *)
Definition base_sequence (fragment : Fragment) (spilled : SpilledRowLineage) : res (option RowDatasetVersionSequence) :=
  match last_updated_at_version_meta fragment with
  | None => Ok None
  | Some Column =>
      loaded ← ok_or (spilled !! id fragment ≫= last_updated_at) NotSupported; Ok (Some loaded)
  | Some m =>
      match load_sequence m with Ok q => Ok (Some q) | Err _ => Ok None | Panic => Panic end
  end.

Definition refresh_partial (fragment : Fragment) (updated_offsets : list Z) (current_version prev_version : Z)
    (spilled : SpilledRowLineage) : res Fragment :=
  row_count ← fragment_row_count fragment (Err NotSupported);
  if row_count >? 0 then
    _ ← with_capacity row_count;
    base ← base_sequence fragment spilled;
    base_versions ← (match base with
      | Some q => it ← iter_new q; vs ← take_versions (Z.to_nat row_count) q it; Ok (resize vs row_count prev_version)
      | None => Ok (resize [] row_count prev_version)
      end);
    base_versions ← apply_updates updated_offsets current_version base_versions;
    m ← from_sequence (compress base_versions);
    Ok (with_last_updated fragment m)
  else Ok fragment.

End Codec.

(** ** A codec *)

(** The canonical encoding, over the one of [Prost]. *)
Module WireVersions.
Import Wire.

Definition run_body (r : pb_run) : list Z :=
  match pb_span r with Some s => message 1 (segment s) | None => [] end ++ scalar 2 (pb_version r).
Definition runs (l : pb_versions) : list Z := concat (map (fun r => message 1 (run_body r)) l).

Definition get_run (b : list Z) : option pb_run :=
  '(m, b) ← get_message 1 b;
  sp ← (match m with Some x => s ← get_segment x; Some (Some s) | None => Some None end);
  v ← done (get_scalar 2 b);
  Some (mkPbRun sp v).

Fixpoint get_runs (fuel : nat) (b : list Z) : option pb_versions :=
  match fuel, b with
  | _, [] => Some []
  | S fuel, _ =>
      '(m, rest) ← get_message 1 b;
      m ← m;
      r ← get_run m;
      l ← get_runs fuel rest;
      Some (r :: l)
  | O, _ => None
  end.

Lemma segment_length s : pb_segment_ok VEC64_MAX s -> zlen (segment s) <= 140 + VEC64_MAX.
Proof.
  intros Hs. destruct s as [s|]; [|change (zlen (segment None)) with 0; lia]. pose proof (segment_body_length VEC64_MAX s Hs ltac:(lia)).
  pose proof (message_length (segment_tag s) (segment_body s)). cbn [segment]. lia.
Qed.

Lemma run_body_length r : pb_run_ok VEC64_MAX r -> zlen (run_body r) <= U64_MAX.
Proof.
  intros [Hs _]. unfold run_body. rewrite zlen_app. pose proof (scalar_length 2 (pb_version r)). destruct (pb_span r) as [s|].
  - pose proof (segment_length s Hs). pose proof (message_length 1 (segment s)). lia.
  - rewrite zlen_nil. lia.
Qed.

Lemma get_run_body r : pb_run_ok VEC64_MAX r -> get_run (run_body r) = Some r.
Proof.
  intros [Hs Hv]. unfold get_run, run_body. destruct r as [sp v]. cbn [pb_span pb_version] in *.
  assert (done (get_scalar 2 (scalar 2 v)) = Some v) as Hd.
  { rewrite <- (app_nil_r (scalar 2 v)), get_scalar_scalar by (lia || done). done. }
  destruct sp as [s|].
  - pose proof (segment_length s Hs). rewrite get_message_message by lia. cbn [mbind option_bind].
    rewrite (get_segment_segment VEC64_MAX) by (lia || done). cbn [mbind option_bind]. by rewrite Hd.
  - cbn [app]. rewrite get_message_other; [cbn [mbind option_bind]; by rewrite Hd|].
    rewrite <- (app_nil_r (scalar 2 v)). apply other_scalar; [lia|lia|done].
Qed.

Lemma get_runs_runs l fuel : Forall (pb_run_ok VEC64_MAX) l -> (length l <= fuel)%nat -> get_runs fuel (runs l) = Some l.
Proof.
  intros Hl. revert fuel. induction Hl as [|r l Hr _ IH]; intros fuel Hf; [by destruct fuel|]. destruct fuel as [|fuel]; [simpl in Hf; lia|].
  unfold runs. cbn [map concat]. fold (runs l). pose proof (message_nonempty 1 (run_body r) ltac:(lia)) as Hne.
  destruct (message 1 (run_body r) ++ runs l) as [|x b] eqn:E; [by apply app_eq_nil in E as [? _]|]. cbn [get_runs]. rewrite <- E.
  rewrite get_message_message by (lia || by apply run_body_length). cbn [mbind option_bind]. rewrite get_run_body by done.
  cbn [mbind option_bind]. rewrite IH by (simpl in Hf; lia). done.
Qed.

Lemma runs_length l : (length l <= length (runs l))%nat.
Proof.
  induction l as [|r l IH]; [simpl; lia|]. unfold runs in *. cbn [map concat]. rewrite length_app.
  pose proof (message_nonempty 1 (run_body r) ltac:(lia)). destruct (message 1 (run_body r)); [done|]. simpl. lia.
Qed.

Lemma get_run_typed b r : Forall u8_ok b -> get_run b = Some r -> pb_run_ok (zlen b) r.
Proof.
  intros Hb. unfold get_run. destruct (get_message 1 b) as [[m rest]|] eqn:Em; [|done]. cbn [mbind option_bind].
  apply get_message_typed in Em as [[p ->] Hm]; [|done].
  destruct (match m with Some x => _ | None => _ end) as [sp|] eqn:Es; [|done]. cbn [mbind option_bind].
  destruct (get_scalar 2 rest) as [[v rest']|] eqn:Ev; [|done]. apply get_scalar_typed in Ev as [Hv _].
  destruct rest'; [|done]. cbn [done mbind option_bind]. intros [= <-]. split; [|done]. cbn [pb_span].
  destruct m as [x|]; [|injection Es as <-; done]. destruct (get_segment x) as [s|] eqn:Ex; [|done]. injection Es as <-.
  destruct Hm as [Hx Hl]. eapply pb_segment_ok_le; [by eapply get_segment_typed|done].
Qed.

Lemma pb_run_ok_le n m r : pb_run_ok n r -> n <= m -> pb_run_ok m r.
Proof. intros [Hs Hv] Hn. split; [|done]. destruct (pb_span r); [by eapply pb_segment_ok_le|done]. Qed.

Lemma get_runs_typed fuel b l : Forall u8_ok b -> get_runs fuel b = Some l -> Forall (pb_run_ok (zlen b)) l.
Proof.
  revert b l. induction fuel as [|fuel IH]; intros [|x b] l Hb; cbn [get_runs]; [intros [= <-]; constructor|done|intros [= <-]; constructor|].
  destruct (get_message 1 (x :: b)) as [[m rest]|] eqn:Em; [|done]. apply get_message_typed in Em as [Hs Hm]; [|done].
  destruct (suffix_ok _ _ Hs Hb) as [Hr Hl]. destruct m as [m|]; [|done]. cbn [mbind option_bind].
  destruct (get_run m) as [r|] eqn:Er; [|done]. cbn [mbind option_bind].
  destruct (get_runs fuel rest) as [l'|] eqn:El; [|done]. cbn [mbind option_bind]. intros [= <-]. destruct Hm as [Hm1 Hm2].
  constructor; [eapply pb_run_ok_le; [exact (get_run_typed _ _ Hm1 Er)|done]|].
  eapply Forall_impl; [exact (IH _ _ Hr El)|]. intros. by eapply pb_run_ok_le.
Qed.
End WireVersions.

Definition WireVersionProst : VersionProst := {|
  decode_versions := fun b => WireVersions.get_runs (length b) b;
  encode_versions := WireVersions.runs
|}.

Lemma WireVersionProst_laws : @VersionProstLaws WireVersionProst.
Proof.
  split.
  - intros b l. apply WireVersions.get_runs_typed.
  - intros l Hl. apply WireVersions.get_runs_runs; [done|]. apply WireVersions.runs_length.
Qed.

(** ** Writing and reading *)

(** Every span has a wire form. *)
Definition writable (q : RowDatasetVersionSequence) : Prop := Forall (fun r => not_runs (span r)) q.

(** Every span fits a message. *)
Definition fits_wire (q : RowDatasetVersionSequence) : Prop := Forall (fun r => fits (span r)) q.

Lemma not_runs_to_pb s : not_runs s -> exists pb, segment_to_pb s = Ok pb.
Proof. destruct s; [| | |done| |]; intros _; by eexists. Qed.

Lemma from_stats_not_runs st l s : from_stats_and_sequence st l = Ok s -> not_runs s.
Proof.
  unfold from_stats_and_sequence. intros H. repeat case_match; inv_ok H; simplify_eq; done.
Qed.

Lemma mask_not_runs s ps s' : not_runs s -> SegmentBuild.mask s ps = Ok s' -> not_runs s'.
Proof.
  intros Hs H. unfold SegmentBuild.mask in H. destruct ps as [|p ps]; [by injection H as <-|].
  apply bind_Ok in H as (n & _ & H). case_match; [by injection H as <-|]. inv_ok H. by eapply from_stats_not_runs.
Qed.

Lemma filter_res_sub {A} (f : A -> res bool) l l' : filter_res f l = Ok l' -> forall x, x ∈ l' -> x ∈ l.
Proof.
  revert l'. induction l as [|y l IH]; intros l'; cbn [filter_res]; [by intros [= <-]|].
  destruct (f y) as [b| |]; cbn [mbind res_bind]; try done. destruct (filter_res f l) as [r| |]; cbn [mbind res_bind]; try done.
  intros [= <-] x Hx. rewrite elem_of_cons. destruct b; [apply elem_of_cons in Hx as [->|Hx]; [by left|]|]; right; by eapply IH.
Qed.

Lemma mask_writable q ps q' : writable q -> Version.mask q ps = Ok q' -> writable q'.
Proof.
  intros Hq Hm. unfold Version.mask in Hm. destruct (mask_loop 0 0 ps q) as [runs| |] eqn:El; try done. cbn [mbind res_bind] in Hm.
  enough (writable runs) as Hr.
  { apply Forall_forall. intros r Hin. pose proof (filter_res_sub _ _ _ Hm r Hin). unfold writable in Hr. rewrite Forall_forall in Hr. auto. }
  clear Hm. revert El. generalize 0 at 1 as o. generalize 0 as k. revert ps runs.
  induction Hq as [|r q Hr _ IH]; intros ps runs k o; cbn [mask_loop]; [intros [= <-]; constructor|].
  destruct (Segment.len (span r)) as [n| |]; cbn [mbind res_bind]; try done.
  destruct (take_positions _ _ ps) as [local ps']. intros El.
  destruct (match local with [] => Ok (span r) | _ => SegmentBuild.mask (span r) local end) as [s'| |] eqn:Es; try done.
  cbn [mbind res_bind] in El. destruct (mask_loop _ _ ps' q) as [rest| |] eqn:Er; try done. injection El as <-.
  constructor; [|by eapply IH]. cbn [span]. destruct local; [by injection Es as <-|by eapply mask_not_runs].
Qed.

Lemma map_res_read_write q : Forall run_ok q -> fits_wire q -> writable q ->
  exists pbs, map_res write_run q = Ok pbs /\ Forall (pb_run_ok VEC64_MAX) pbs /\ map_res read_run pbs = Ok q.
Proof.
  intros Hq. induction Hq as [|[s v] q [Hs Hv] _ IH]; intros Hf Hw; [by exists []|].
  inversion Hf as [|? ? Hf1 Hf2]; inversion Hw as [|? ? Hw1 Hw2]; subst. destruct (IH Hf2 Hw2) as (pbs & E & Hp & Er). cbn [span version] in *.
  destruct (segment_to_pb_ok s Hs Hf1 Hw1) as (pb & Epb & Hpb & Ht & _). 
  assert (write_run (mkRun s v) = Ok (mkPbRun (Some (Some pb)) v)) as E1 by (unfold write_run; cbn [span version]; by rewrite Epb).
  assert (read_run (mkPbRun (Some (Some pb)) v) = Ok (mkRun s v)) as E2 by (unfold read_run; cbn [pb_span pb_version ok_or]; mon; by rewrite Ht).
  cbn [map_res]. rewrite E1. mon. rewrite E. mon. eexists. split; [done|]. split; [by constructor|].
  cbn [map_res]. rewrite E2. mon. by rewrite Er.
Qed.

Lemma write_read `{VersionProstLaws} q : Forall run_ok q -> fits_wire q -> writable q ->
  exists bytes, write_dataset_versions q = Ok bytes /\ read_dataset_versions bytes = Ok q.
Proof.
  intros Hq Hf Hw. destruct (map_res_read_write q Hq Hf Hw) as (pbs & E & Hp & Er). unfold write_dataset_versions, read_dataset_versions.
  rewrite E. mon. eexists. split; [done|]. rewrite decode_encode_versions by done. cbn [ok_or]. mon. done.
Qed.

Lemma try_from_not_runs pb s : try_from_segment pb = Ok s -> not_runs s.
Proof.
  unfold try_from_segment. intros H. destruct pb as [[| | | |]|]; [..|done]; inv_ok H; repeat case_match; inv_ok H; repeat case_match; by simplify_eq.
Qed.

Lemma read_safe `{VersionProstLaws} data : Forall u8_ok data -> zlen data <= VEC64_MAX ->
  (exists e, read_dataset_versions data = Err e) \/
  exists q, read_dataset_versions data = Ok q /\ Forall run_ok q /\ writable q.
Proof.
  intros Hd Hl. unfold read_dataset_versions. destruct (decode_versions data) as [pbs|] eqn:E; cbn [ok_or]; mon; [|left; by eexists].
  apply decode_versions_typed in E; [|done]. clear - E Hl. induction E as [|[sp v] pbs [Hs Hv] _ IH]; [right; exists []; repeat split; constructor|].
  cbn [map_res]. cbn [pb_span pb_version] in *.
  assert (read_run (mkPbRun sp v) = match sp with Some s => seg ← try_from_segment s; Ok (mkRun seg v) | None => Err Internal end) as -> by (by destruct sp).
  destruct sp as [s|]; mon; [|left; by eexists].
  destruct (try_from_segment_safe _ s Hl Hs) as [->|(seg & Es & Hseg)]; mon; [left; by eexists|]. rewrite Es. mon.
  destruct IH as [[e ->]|(q & -> & Hq & Hw)]; mon; [left; by eexists|]. right. eexists. split; [done|]. split; [by constructor|].
  constructor; [|done]. cbn [span]. by eapply try_from_not_runs.
Qed.

(** ** Refreshing *)

Lemma compress_loop_runs l : forall a b st, 0 <= b -> b + zlen (a :: l) <= U64_MAX ->
  exists runs st' last, versions_runs st (map (fun p => (b + fst p, snd p)) (enumerate (windows2 (a :: l)))) = (runs, st') /\
    list.last (a :: l) = Some last /\
    compress_loop st a (map (fun p => (b + 1 + fst p, snd p)) (enumerate l)) = (runs, st', last).
Proof.
  induction l as [|a' l IH]; intros a b st Hb Hl.
  { eexists _, _, _. done. }
  rewrite zlen_cons in Hl. pose proof (zlen_nonneg (a' :: l)).
  change (windows2 (a :: a' :: l)) with ((a, a') :: windows2 (a' :: l)). rewrite !enumerate_cons. cbn [map fst snd versions_runs compress_loop].
  rewrite !map_map. cbn [fst snd]. rewrite list.last_cons_cons.
  rewrite (map_ext _ (fun p => (b + 1 + fst p, snd p))) by (intros; f_equal; lia).
  rewrite (map_ext (fun x => (b + 1 + (1 + x.1), x.2)) (fun p => (b + 1 + 1 + fst p, snd p))) by (intros; f_equal; lia).
  rewrite !Z.add_0_r. unwrap. rewrite (Z.eqb_sym a' a). destruct (Z.eqb_spec a a') as [->|Hne]; cbn [negb].
  - destruct (IH a' (b + 1) st) as (runs & st' & la & E & El & Ec); [lia|lia|]. exists runs, st', la. done.
  - destruct (IH a' (b + 1) (b + 1)) as (runs & st' & la & -> & El & ->); [lia|lia|]. eexists _, _, _. done.
Qed.

Lemma compress_from_versions l : zlen l <= U64_MAX -> compress l = from_versions l.
Proof.
  intros Hl. destruct l as [|a l]; [done|]. destruct (compress_loop_runs l a 0 0) as (runs & st & la & E1 & El & E2); [lia|lia|].
  unfold compress, from_versions. rewrite enumerate_cons. cbn [tail].
  rewrite (map_ext _ (fun p => p)), map_id in E1 by (by intros []). rewrite E1, El.
  rewrite (map_ext _ (fun p => (0 + 1 + fst p, snd p))) by (intros; f_equal; lia). by rewrite E2.
Qed.

Lemma compress_writable l : zlen l <= U64_MAX -> Forall u64_ok l ->
  Forall run_ok (compress l) /\ fits_wire (compress l) /\ writable (compress l) /\ versions (compress l) = Ok l.
Proof.
  intros Hl Hu. rewrite compress_from_versions by done. destruct (from_versions_ok l Hu Hl) as (Hr & Hn & _ & He).
  split; [done|]. assert (Forall (fun r => exists a b, span r = Range_ (a ..< b)) (from_versions l)) as Hrange by apply from_versions_ranges.
  split; [|split].
  - eapply Forall_impl; [exact Hrange|]. intros r (a & b & E). simpl. by rewrite E.
  - eapply Forall_impl; [exact Hrange|]. intros r (a & b & E). simpl. by rewrite E.
  - rewrite versions_ok, He; [done|done|]. destruct (from_versions l); [done|by inversion Hn].
Qed.

(** The list with [v] at the given positions. *)
Definition updated (offsets : list Z) (v : Z) (l : list Z) : list Z :=
  map (fun p => if existsb (Z.eqb (fst p)) offsets then v else snd p) (enumerate l).

Lemma get_opt_enumerate {A} (l : list A) i : get_opt (enumerate l) i = option_map (pair i) (get_opt l i).
Proof.
  destruct (get_opt l i) as [x|] eqn:E; cbn [option_map].
  - apply get_opt_Some in E as Hi. unfold get_opt in *. rewrite (proj2 (Z.leb_le 0 i)) in * by lia. apply lookup_zip_Some.
    split; [apply lookup_seqZ; lia|done].
  - apply get_opt_None. apply get_opt_None in E. unfold enumerate, zlen in *. rewrite length_zip, length_seqZ. lia.
Qed.

Lemma get_opt_updated offsets v l i : get_opt (updated offsets v l) i = option_map (fun x => if existsb (Z.eqb i) offsets then v else x) (get_opt l i).
Proof. unfold updated. rewrite get_opt_map, get_opt_enumerate. by destruct (get_opt l i). Qed.

Lemma zlen_updated offsets v l : zlen (updated offsets v l) = zlen l.
Proof. unfold updated, enumerate, zlen. rewrite length_map, length_zip, length_seqZ. lia. Qed.

Lemma apply_updates_ok offsets v l : Forall u64_ok offsets -> apply_updates offsets v l = Ok (updated offsets v l).
Proof.
  intros Ho. revert l. induction Ho as [|p offsets Hp _ IH]; intros l; cbn [apply_updates].
  - f_equal. unfold updated. cbn [existsb]. symmetry. apply map_snd_enumerate.
  - uok. destruct (Z.ltb_spec p (zlen l)) as [Hlt|Hge].
    + rewrite idx_set_ok by lia. mon. rewrite IH. f_equal. apply get_opt_ext.
      { rewrite !zlen_updated. unfold zlen. by rewrite length_insert. }
      intros i _. rewrite !get_opt_updated, get_opt_insert by lia. cbn [existsb]. destruct (Z.eqb_spec i p) as [->|]; cbn [orb]; [|done].
      destruct (get_opt_lt l p) as [x ->]; [lia|]. cbn [option_map]. by destruct (existsb _ _).
    + mon. rewrite IH. f_equal. apply get_opt_ext; [by rewrite !zlen_updated|]. intros i Hi. rewrite zlen_updated in Hi.
      rewrite !get_opt_updated. cbn [existsb]. by rewrite (proj2 (Z.eqb_neq i p)) by lia.
Qed.

Lemma take_versions_collect n : forall fuel runs it l, collect fuel runs it = Ok l -> take_versions n runs it = Ok (take n l).
Proof.
  induction n as [|n IH]; intros fuel runs it l E; [done|]. destruct fuel as [|fuel]; [done|]. cbn [collect take_versions] in *.
  apply bind_Ok in E as ([v it'] & -> & E). mon. destruct v as [v|]; [|by injection E as <-].
  apply bind_Ok in E as (vs & E & [= <-]). rewrite (IH _ _ _ _ E). done.
Qed.

Lemma take_versions_ok q n : Forall run_ok q -> no_empty_run (tail q) ->
  (it ← iter_new q; take_versions n q it) = Ok (take n (expand_runs q)).
Proof.
  intros Hq Hn. pose proof (versions_ok q Hq Hn) as Hv. unfold versions in Hv. apply bind_Ok in Hv as (it & -> & Hv). mon.
  by eapply take_versions_collect.
Qed.

Lemma resize_take l n v : 0 <= n -> resize (ztake n l) n v = resize l n v.
Proof.
  intros. unfold resize, ztake, zlen. rewrite take_take, length_take, Nat.min_id. do 2 f_equal. lia.
Qed.

Lemma zlen_resize l n v : 0 <= n -> zlen (resize l n v) = n.
Proof. intros. unfold resize, ztake, zlen. rewrite length_app, length_take, length_replicate. lia. Qed.

Lemma expand_runs_u64 q : Forall run_ok q -> Forall u64_ok (expand_runs q).
Proof.
  induction 1 as [|r q [_ Hv] _ IH]; [constructor|]. rewrite expand_runs_cons. apply Forall_app. split; [|done]. by apply Forall_replicate.
Qed.

Lemma updated_u64 offsets v l : u64_ok v -> Forall u64_ok l -> Forall u64_ok (updated offsets v l).
Proof.
  intros Hv Hl. apply Forall_map, Forall_forall. intros [i x] Hin%enumerate_lookup. cbn [fst snd]. destruct (existsb _ _); [done|].
  by eapply Forall_get_opt.
Qed.

Lemma resize_u64 l n v : u64_ok v -> Forall u64_ok l -> Forall u64_ok (resize l n v).
Proof. intros. apply Forall_app. split; [by apply Forall_take|by apply Forall_replicate]. Qed.

Lemma uniform_ok n v : 0 < n <= U64_MAX -> u64_ok v -> let q := from_uniform_row_count n v in
  Forall run_ok q /\ fits_wire q /\ writable q /\ versions q = Ok (replicate (Z.to_nat n) v).
Proof.
  intros Hn Hv q. unfold q, from_uniform_row_count. rewrite (proj2 (Z.eqb_neq _ _)) by lia.
  destruct (range_run_ok 0 n v) as [Hr Hne]; [lia|lia|done|]. assert (Forall run_ok [mkRun (Range_ (0 ..< n)) v]) as Hq by (by constructor).
  split; [done|]. split; [by constructor|]. split; [by constructor|]. rewrite versions_ok; [|done|constructor].
  rewrite expand_runs_cons, run_versions_range, app_nil_r by lia. by rewrite Z.sub_0_r.
Qed.

Lemma from_sequence_ok `{VersionProstLaws} q : Forall run_ok q -> fits_wire q -> writable q ->
  exists m, from_sequence q = Ok m /\ load_sequence m = Ok q.
Proof.
  intros. unfold from_sequence. destruct (write_read q) as (b & -> & Hr); [done..|]. mon. by eexists.
Qed.

(** ** Properties *)

(** The version sequence put in a fragment's metadata is the one loaded
    from it, also after the metadata went through its protobuf form; a sequence
    spilled to a data file cannot be loaded this way. *)
Theorem version_meta_roundtrip `{VersionProstLaws} q : Forall run_ok q -> fits_wire q -> writable q ->
  exists m, from_sequence q = Ok m /\ load_sequence m = Ok q /\
    option_map try_from_last_updated (last_updated_at_version_meta_to_pb (Some m)) = Some (Ok m) /\
    option_map try_from_created (created_at_version_meta_to_pb (Some m)) = Some (Ok m) /\
    load_sequence Column = Err NotSupported.
Proof.
  intros Hq Hf Hw. destruct (from_sequence_ok q Hq Hf Hw) as (m & E & El). exists m. split; [done|]. split; [done|]. by destruct m.
Qed.

Lemma version_meta_roundtrip_witness : exists m,
  @from_sequence WireVersionProst [mkRun (Range_ (0 ..< 3)) 4; mkRun (SortedArray (U16 500 [1; 3])) 9] = Ok m /\
  @load_sequence WireVersionProst m = Ok [mkRun (Range_ (0 ..< 3)) 4; mkRun (SortedArray (U16 500 [1; 3])) 9].
Proof.
  destruct (@version_meta_roundtrip WireVersionProst WireVersionProst_laws [mkRun (Range_ (0 ..< 3)) 4; mkRun (SortedArray (U16 500 [1; 3])) 9])
    as (m & H1 & H2 & _).
  - constructor; [split; [vm_compute; done|uok; vm_compute; done]|]. constructor; [split; [|uok; vm_compute; done]|constructor].
    split; [split; [split; [uok; lia|repeat constructor; uok; lia]|vm_compute; done]|repeat constructor; lia].
  - constructor; [done|]. constructor; [vm_compute; done|constructor].
  - by repeat constructor.
  - exists m. split; [exact H1|exact H2].
Defined.

(** Reading version bytes from a manifest returns an error or a sequence
    whose spans are all well formed; sequences that were read, built from a list
    of versions or masked never hold the run encoding that has no protobuf form,
    so writing them does not panic. *)
Theorem version_bytes_safe `{VersionProstLaws} data l ps : Forall u8_ok data -> zlen data <= VEC64_MAX ->
  ((exists e, read_dataset_versions data = Err e) \/
   exists q, read_dataset_versions data = Ok q /\ Forall run_ok q /\ writable q) /\
  writable (from_versions l) /\
  (forall q q', writable q -> Version.mask q ps = Ok q' -> writable q') /\
  (forall q, writable q -> exists bytes, write_dataset_versions q = Ok bytes).
Proof.
  intros Hd Hl. split; [by apply read_safe|]. split; [|split; [intros q q'; apply mask_writable|]].
  - eapply Forall_impl; [apply from_versions_ranges|]. intros r (a & b & E). simpl. by rewrite E.
  - intros q Hw. unfold write_dataset_versions. enough (exists pbs, map_res write_run q = Ok pbs) as [pbs ->] by (by eexists).
    induction Hw as [|r q Hr _ [pbs IH]]; [by exists []|]. destruct (not_runs_to_pb _ Hr) as [pb Epb].
    cbn [map_res]. rewrite IH. unfold write_run. rewrite Epb. by eexists.
Qed.

Lemma version_bytes_safe_witness :
  (exists q, @read_dataset_versions WireVersionProst [10; 8; 10; 4; 10; 2; 16; 3; 16; 7] = Ok q /\ Forall run_ok q /\ writable q) /\
  @read_dataset_versions WireVersionProst [10; 2; 16; 7] = Err Internal.
Proof.
  destruct (@version_bytes_safe WireVersionProst WireVersionProst_laws [10; 8; 10; 4; 10; 2; 16; 3; 16; 7] [] []) as [[[e E]|Hq] _].
  - repeat constructor; uok; lia.
  - vm_compute. done.
  - exfalso. vm_compute in E. discriminate E.
  - split; [exact Hq|vm_compute; reflexivity].
Defined.

(** A new fragment, and one all of whose rows were rewritten, get
    metadata that loads as the current version for every physical row; the
    other fields stay as they are.  A new fragment without rows gets none, and
    one with rows but without row ids is a panic. *)
Theorem uniform_version_meta `{Prost} `{VersionProstLaws} f n v : physical_rows f = Some n -> 0 <= n <= U64_MAX -> u64_ok v ->
  (0 < n -> exists m q, load_sequence m = Ok q /\ versions q = Ok (replicate (Z.to_nat n) v) /\
     refresh_full f v = Ok (with_last_updated f m) /\
     build_version_meta f v = match row_id_meta f with Some _ => Ok (Some m) | None => Panic end) /\
  (n = 0 -> refresh_full f v = Ok f /\ build_version_meta f v = Ok None).
Proof.
  intros Hf Hn Hv. unfold refresh_full, build_version_meta, fragment_row_count. rewrite Hf. mon. rewrite Z.gtb_ltb. split.
  - intros Hp. rewrite (proj2 (Z.ltb_lt _ _)) by done. destruct (uniform_ok n v) as (Hr & Hfit & Hw & Hvs); [lia|done|].
    destruct (from_sequence_ok _ Hr Hfit Hw) as (m & -> & Hl). mon. exists m, (from_uniform_row_count n v). by destruct (row_id_meta f).
  - intros ->. done.
Qed.

Lemma uniform_version_meta_witness : exists m q,
  @load_sequence WireVersionProst m = Ok q /\ versions q = Ok [7; 7; 7] /\
  @build_version_meta WireVersionProst (mkFragment 1 (Some 3) (Some ColumnIds) None None) 7 = Ok (Some m).
Proof.
  destruct (@uniform_version_meta WireProst WireVersionProst WireVersionProst_laws (mkFragment 1 (Some 3) (Some ColumnIds) None None) 3 7)
    as [H _]; [done|lia|uok; lia|].
  destruct (H ltac:(lia)) as (m & q & H1 & H2 & _ & H3). exists m, q. split; [exact H1|]. split; [exact H2|exact H3].
Defined.

(** The number of rows of a fragment, from its own count or its row ids. *)
Definition rows_of `{Prost} (f : Fragment) (n : Z) : Prop :=
  match physical_rows f, row_id_meta f with
  | Some pr, _ => n = pr
  | None, Some (InlineIds data) => exists ids, read_row_ids data = Ok ids /\ Sequence.wf ids /\ n = zlen (Sequence.elems ids)
  | None, Some ColumnIds => False
  | None, None => n = 0
  end.

Lemma rows_of_count `{Prost} f n column : rows_of f n -> fragment_row_count f column = Ok n.
Proof.
  unfold rows_of, fragment_row_count. destruct (physical_rows f); [by intros ->|]. destruct (row_id_meta f) as [[data|]|]; [|done|by intros ->].
  intros (ids & -> & Hw & ->). mon. by apply seq_len_ok.
Qed.

Lemma compress_nonempty l : zlen l <= U64_MAX -> Forall u64_ok l -> no_empty_run (compress l).
Proof. intros Hl Hu. rewrite compress_from_versions by done. by destruct (from_versions_ok l Hu Hl) as (_ & Hn & _). Qed.

(** The refresh, given the sequence it starts from. *)
Lemma refresh_from `{Prost} `{VersionProstLaws} f offsets cur prev spilled n base : Forall u64_ok offsets -> u64_ok cur -> u64_ok prev -> rows_of f n -> 0 < n <= VEC64_MAX ->
  base_sequence f spilled = Ok base -> match base with Some q => Forall run_ok q /\ no_empty_run (tail q) | None => True end ->
  exists m q, refresh_partial f offsets cur prev spilled = Ok (with_last_updated f m) /\ load_sequence m = Ok q /\ Forall run_ok q /\ no_empty_run q /\
    versions q = Ok (updated offsets cur (resize (match base with Some q => expand_runs q | None => [] end) n prev)).
Proof.
  intros Ho Hc Hp Hn Hmax Eb Hb. unfold refresh_partial. rewrite (rows_of_count f n) by done. mon. rewrite Z.gtb_ltb, (proj2 (Z.ltb_lt 0 n)) by lia. unfold with_capacity.
  rewrite Z.gtb_ltb, (proj2 (Z.ltb_ge VEC64_MAX n)) by lia. mon. rewrite Eb. mon. set (l := match base with Some q => expand_runs q | None => [] end).
  assert (Forall u64_ok l) as Hl by (unfold l; destruct base; [by apply expand_runs_u64, Hb|constructor]).
  assert ((match base with
    | Some q => it ← iter_new q; vs ← take_versions (Z.to_nat n) q it; Ok (resize vs n prev)
    | None => Ok (resize [] n prev) end) = Ok (resize l n prev)) as ->.
  { unfold l. destruct base as [q|]; [|done]. destruct Hb as [Hq Hne]. pose proof (take_versions_ok q (Z.to_nat n) Hq Hne) as Ht.
    apply bind_Ok in Ht as (it & -> & Ht). mon. rewrite Ht. mon. f_equal. apply resize_take. lia. }
  mon. rewrite apply_updates_ok by done. mon. set (out := updated offsets cur (resize l n prev)).
  assert (Hlen : zlen out <= U64_MAX) by (unfold out; rewrite zlen_updated, zlen_resize by lia; lia). assert (Hu : Forall u64_ok out) by (by apply updated_u64, resize_u64).
  destruct (compress_writable out Hlen Hu) as (Hr & Hf & Hw & Hv). destruct (from_sequence_ok _ Hr Hf Hw) as (m & -> & Hm). mon.
  exists m, (compress out). split_and!; try done. by apply compress_nonempty.
Qed.

(** C40: a partial refresh of a fragment with [n] rows sets the updated offsets,
    those in bounds, to the current version and keeps the version every other
    row had: the one in the inline metadata, or the spilled one that was loaded
    ahead.  Rows without a recorded version - past the end of the sequence, or
    without metadata, or behind metadata that does not decode - get the previous
    dataset version.  Spilled versions that were not loaded and row ids outside
    the manifest are an error, and a fragment without rows is left alone.  The
    recorded sequence must have no empty run behind its first, which its iterator
    would misread ([versions_iteration]); the refreshed one has none, so that it
    can be refreshed again. *)
Theorem refresh_partial_spec `{Prost} `{VersionProstLaws} f offsets cur prev spilled : Forall u64_ok offsets -> u64_ok cur -> u64_ok prev ->
  let out := refresh_partial f offsets cur prev spilled in
  (physical_rows f = None -> row_id_meta f = Some ColumnIds -> out = Err NotSupported) /\
  (forall n, rows_of f n -> n <= 0 -> out = Ok f) /\
  (forall n, rows_of f n -> 0 < n <= VEC64_MAX ->
     let gives l := exists m q, out = Ok (with_last_updated f m) /\ load_sequence m = Ok q /\ Forall run_ok q /\ no_empty_run q /\
       versions q = Ok (updated offsets cur (resize l n prev)) in
     match last_updated_at_version_meta f with
     | None => gives []
     | Some Column =>
         match spilled !! id f ≫= last_updated_at with
         | None => out = Err NotSupported
         | Some q => Forall run_ok q -> no_empty_run (tail q) -> gives (expand_runs q)
         end
     | Some (Inline data) =>
         (forall q, read_dataset_versions data = Ok q -> Forall run_ok q -> no_empty_run (tail q) -> gives (expand_runs q)) /\
         (forall e, read_dataset_versions data = Err e -> gives [])
     end).
Proof.
  intros Ho Hc Hp. cbv zeta. split; [|split].
  - intros E1 E2. unfold refresh_partial, fragment_row_count. by rewrite E1, E2.
  - intros n Hn Hz. unfold refresh_partial. rewrite (rows_of_count f n) by done. mon. by rewrite Z.gtb_ltb, (proj2 (Z.ltb_ge 0 n)) by lia.
  - intros n Hn Hr. pose proof (refresh_from f offsets cur prev spilled n) as Hfrom. unfold base_sequence in Hfrom. destruct (last_updated_at_version_meta f) as [[data|]|] eqn:Em.
    + cbn [load_sequence] in Hfrom. split; [intros q E Hq Hne; rewrite E in Hfrom; by apply (Hfrom (Some q))|intros e E; rewrite E in Hfrom; by apply (Hfrom None)].
    + destruct (spilled !! id f ≫= last_updated_at) as [q|] eqn:Es; [intros Hq Hne; by apply (Hfrom (Some q))|].
      unfold refresh_partial. rewrite (rows_of_count f n) by done. mon. rewrite Z.gtb_ltb, (proj2 (Z.ltb_lt 0 n)) by lia. unfold with_capacity.
      rewrite Z.gtb_ltb, (proj2 (Z.ltb_ge VEC64_MAX n)) by lia. mon. unfold base_sequence. by rewrite Em, Es.
    + by apply (Hfrom None).
Qed.

(** Four rows with inline versions for the first three. *)
Lemma refresh_partial_spec_witness : let f := mkFragment 5 (Some 4) None (Some (Inline [10; 8; 10; 4; 10; 2; 16; 3; 16; 7])) None in
  exists m q, @refresh_partial WireProst WireVersionProst f [1; 9] 8 2 ∅ = Ok (with_last_updated f m) /\
  @load_sequence WireVersionProst m = Ok q /\ versions q = Ok [7; 8; 7; 2].
Proof.
  intros f. destruct (@refresh_partial_spec WireProst WireVersionProst WireVersionProst_laws f [1; 9] 8 2 ∅) as (_ & _ & H);
    [repeat constructor; uok; lia|uok; lia|uok; lia|].
  destruct (proj1 (H 4 eq_refl ltac:(lia)) [mkRun (Range_ (0 ..< 3)) 7]) as (m & q & H1 & H2 & _ & _ & H3).
  - vm_compute. reflexivity.
  - repeat constructor; uok; vm_compute; done.
  - constructor.
  - exists m, q. split; [exact H1|]. split; [exact H2|exact H3].
Defined.
