(* ===== verification/Itertools.v ===== *)
(** * The iterator adaptors of [itertools]

    The selection code merges and groups sorted iterators with two adaptors
    of the [itertools] crate, which is not part of the repository.  Their
    documented behaviour is a type class; the instance is a direct
    implementation on lists. *)

From Stdlib Require Import ZArith Lia.
From stdpp Require Import base option list numbers sorting.
From S2P Require Import Prelude Lists.

Inductive EitherOrBoth (A B : Type) := LeftOnly (a : A) | RightOnly (b : B) | Both (a : A) (b : B).
Arguments LeftOnly {A B} a.
Arguments RightOnly {A B} b.
Arguments Both {A B} a b.

Class Itertools := {
  (** The items up to the first that fails the test, and those left in the iterator. *)
  peeking_take_while {A : Type} : (A -> bool) -> list A -> list A * list A;
  merge_join_by {A B : Type} : (A -> B -> comparison) -> list A -> list B -> list (EitherOrBoth A B)
}.

Class ItertoolsLaws (IT : Itertools) : Prop := {
  peeking_take_while_spec {A : Type} (f : A -> bool) l a b : peeking_take_while f l = (a, b) ->
    l = a ++ b /\ Forall (fun x => f x = true) a /\ match b with [] => True | x :: _ => f x = false end;
  (** On iterators sorted by a key the join pairs the items of equal key and keeps the others on their side. *)
  merge_join_by_spec {A B : Type} (ka : A -> Z) (kb : B -> Z) l r : ssorted (map ka l) -> ssorted (map kb r) ->
    forall e, e ∈ merge_join_by (fun a b => ka a ?= kb b) l r <->
      match e with
      | Both a b => a ∈ l /\ b ∈ r /\ ka a = kb b
      | LeftOnly a => a ∈ l /\ ka a ∉ map kb r
      | RightOnly b => b ∈ r /\ kb b ∉ map ka l
      end
}.

(** ** An instance *)

Module ListItertools.

Fixpoint take_while {A} (f : A -> bool) (l : list A) : list A * list A :=
  match l with
  | [] => ([], [])
  | x :: l' => if f x then let '(a, b) := take_while f l' in (x :: a, b) else ([], l)
  end.

Definition is_eq (c : comparison) : bool := match c with Eq => true | _ => false end.

(** The pairs and the items of the left side in its order, then the items of the right side without a partner. *)
Definition join {A B} (cmp : A -> B -> comparison) (l : list A) (r : list B) : list (EitherOrBoth A B) :=
  map (fun a => match List.find (fun b => is_eq (cmp a b)) r with Some b => Both a b | None => LeftOnly a end) l ++
  map RightOnly (List.filter (fun b => negb (existsb (fun a => is_eq (cmp a b)) l)) r).

Lemma take_while_spec {A} (f : A -> bool) l a b : take_while f l = (a, b) ->
  l = a ++ b /\ Forall (fun x => f x = true) a /\ match b with [] => True | x :: _ => f x = false end.
Proof.
  revert a b. induction l as [|x l IH]; intros a b; cbn [take_while]; [by intros [= <- <-]|].
  destruct (f x) eqn:E; [|by intros [= <- <-]]. destruct (take_while f l) as [a' b']. intros [= <- <-].
  destruct (IH a' b' eq_refl) as (-> & Ha & Hb). split; [done|]. split; [by constructor|done].
Qed.

Lemma is_eq_spec x y : is_eq (x ?= y) = true <-> x = y.
Proof. by destruct (Z.compare_spec x y); cbn; split; intros; try done; lia. Qed.

(** In a list sorted by key, the item found for a key is the only one with it. *)
Lemma find_key {B} (kb : B -> Z) (k : Z) r : ssorted (map kb r) -> forall b,
  List.find (fun b => is_eq (k ?= kb b)) r = Some b <-> b ∈ r /\ k = kb b.
Proof.
  intros Hs b. split; [intros [Hin%list_elem_of_In Hk%is_eq_spec]%List.find_some; done|]. intros [Hin ->].
  destruct (List.find _ r) as [b'|] eqn:E.
  - apply List.find_some in E as [Hin'%list_elem_of_In Hk%is_eq_spec]. f_equal.
    apply list_elem_of_lookup in Hin as [i Hi], Hin' as [j Hj]. assert (i = j) as ->; [|congruence].
    apply (NoDup_lookup (map kb r) i j (kb b)); [by apply ssorted_NoDup| |]; (rewrite list_lookup_fmap, ?Hi, ?Hj; cbn; congruence).
  - apply list_elem_of_In in Hin. eapply List.find_none in E; [|exact Hin]. cbn in E. by rewrite (proj2 (is_eq_spec _ _)) in E.
Qed.

Lemma find_key_None {B} (kb : B -> Z) (k : Z) r : List.find (fun b => is_eq (k ?= kb b)) r = None <-> k ∉ map kb r.
Proof.
  split.
  - intros E (b & -> & Hb%list_elem_of_In)%list_elem_of_fmap. eapply List.find_none in E; [|exact Hb]. cbn in E. by rewrite (proj2 (is_eq_spec _ _)) in E.
  - intros Hk. destruct (List.find _ r) as [b|] eqn:E; [|done]. apply List.find_some in E as [Hin%list_elem_of_In Hb%is_eq_spec]. destruct Hk.
    rewrite Hb. by apply (list_elem_of_fmap_2 kb).
Qed.

Lemma join_spec {A B} (ka : A -> Z) (kb : B -> Z) l r : ssorted (map ka l) -> ssorted (map kb r) ->
  forall e, e ∈ join (fun a b => ka a ?= kb b) l r <->
    match e with
    | Both a b => a ∈ l /\ b ∈ r /\ ka a = kb b
    | LeftOnly a => a ∈ l /\ ka a ∉ map kb r
    | RightOnly b => b ∈ r /\ kb b ∉ map ka l
    end.
Proof.
  intros Hl Hr e. unfold join. rewrite elem_of_app, !list_elem_of_fmap. destruct e as [a|b|a b].
  - split; [intros [(x & E & Hx)|(x & E & _)]; [|done]|intros [Ha Hk]; left; exists a].
    + destruct (List.find _ r) eqn:Ef; [done|]. injection E as ->. by rewrite find_key_None in Ef.
    + by rewrite (proj2 (find_key_None kb (ka a) r) Hk).
  - split; [intros [(x & E & Hx)|(x & E & Hx)]; [by destruct (List.find _ r)|]|intros [Hb Hk]; right; exists b].
    + injection E as ->. apply elem_of_filterb in Hx as [Hx Hn]. split; [done|]. intros (a & Ha & Hin)%list_elem_of_fmap.
      apply negb_true_iff, not_true_iff_false in Hn. apply Hn, existsb_exists. exists a. split; [by apply list_elem_of_In|]. by apply is_eq_spec.
    + split; [done|]. apply elem_of_filterb. split; [done|]. apply negb_true_iff, not_true_iff_false.
      intros (a & Ha%list_elem_of_In & He%is_eq_spec)%existsb_exists. destruct Hk. rewrite <- He. by apply (list_elem_of_fmap_2 ka).
  - split; [intros [(x & E & Hx)|(x & E & _)]; [|done]|intros (Ha & Hb & Hk); left; exists a].
    + destruct (List.find _ r) as [y|] eqn:Ef; [|done]. injection E as -> ->. apply (find_key kb) in Ef as [Hy Hk]; [|done]. done.
    + by rewrite (proj2 (find_key kb (ka a) r Hr b)).
Qed.

End ListItertools.

Definition ItertoolsLists : Itertools := {|
  peeking_take_while := @ListItertools.take_while;
  merge_join_by := @ListItertools.join
|}.

Lemma ItertoolsLists_laws : ItertoolsLaws ItertoolsLists.
Proof. split; [apply @ListItertools.take_while_spec|apply @ListItertools.join_spec]. Qed.
