(* ===== verification/Roaring.v ===== *)
(** * The roaring bitmap interface

    Deletion vectors and selection masks keep sets of [u32] offsets in
    [RoaringBitmap]s of the [roaring] crate, which is not part of the
    repository.  This file states the operations the code calls and their
    documented behaviour as a type class, in terms of membership and of the
    increasing list of members, and gives an instance (finite and co-finite sets)
    that satisfies them. *)

From Stdlib Require Import ZArith Lia.
From stdpp Require Import base option list numbers sorting sets gmap.
From S2P Require Import Prelude Lists Bits.

(** The number of [u32] values. *)
Definition U32_COUNT : Z := 4294967296.

Definition u32b (v : Z) : bool := (0 <=? v) && (v <=? U32_MAX).

Lemma u32b_spec v : u32b v = true <-> u32_ok v.
Proof. unfold u32b. rewrite andb_true_iff, !Z.leb_le. uok. lia. Qed.

(** Distinct values below [n] are all of them when there are [n]. *)
Lemma all_values_len l n : 0 <= n -> NoDup l -> Forall (fun v => 0 <= v < n) l ->
  zlen l = n <-> forall v, 0 <= v < n -> v ∈ l.
Proof.
  intros Hn Hl Hr. assert (zlen (seqZ 0 n) = n) as Hc by (unfold zlen; rewrite length_seqZ; lia).
  assert (l ⊆+ seqZ 0 n) as Hsub.
  { apply NoDup_submseteq; [done|]. intros v Hv. rewrite Forall_forall in Hr. apply elem_of_seqZ. by apply Hr. }
  split.
  - intros Hz v Hv. rewrite (submseteq_length_Permutation _ _ Hsub) by (unfold zlen in *; lia). apply elem_of_seqZ. lia.
  - intros Ha. rewrite <- Hc at 1. unfold zlen. f_equal. apply Nat.le_antisymm; [by apply submseteq_length|].
    apply submseteq_length, NoDup_submseteq; [apply NoDup_seqZ|]. intros v Hv%elem_of_seqZ. apply Ha. lia.
Qed.

Lemma values_len_le l n : 0 <= n -> NoDup l -> Forall (fun v => 0 <= v < n) l -> zlen l <= n.
Proof.
  intros Hn Hl Hr. assert (zlen (seqZ 0 n) = n) as Hc by (unfold zlen; rewrite length_seqZ; lia).
  rewrite <- Hc. unfold zlen. apply Nat2Z.inj_le, submseteq_length, NoDup_submseteq; [done|]. intros v Hv.
  rewrite Forall_forall in Hr. apply elem_of_seqZ. by apply Hr.
Qed.

(** ** The interface *)

Class Roaring := {
  bitmap : Type;
  bm_new : bitmap;
  bm_full : bitmap;
  bm_contains : bitmap -> Z -> bool;
  (** [iter], from the least member. *)
  bm_iter : bitmap -> list Z;
  (** [insert] and [remove] also return whether the set changed. *)
  bm_insert : bitmap -> Z -> bitmap * bool;
  bm_remove : bitmap -> Z -> bitmap * bool;
  (** [insert_range(lo..=hi)] returns how many members are new. *)
  bm_insert_range : bitmap -> Z -> Z -> bitmap * Z;
  bm_len : bitmap -> Z;
  bm_is_empty : bitmap -> bool;
  bm_is_full : bitmap -> bool;
  (** [|=], [&=], [-=] and [^] *)
  bm_or : bitmap -> bitmap -> bitmap;
  bm_and : bitmap -> bitmap -> bitmap;
  bm_sub : bitmap -> bitmap -> bitmap;
  bm_xor : bitmap -> bitmap -> bitmap;
  (** [MultiOps::union] *)
  bm_union : list bitmap -> bitmap;
  bm_is_subset : bitmap -> bitmap -> bool;
  bm_is_disjoint : bitmap -> bitmap -> bool;
  bm_union_len : bitmap -> bitmap -> Z;
  bm_range_cardinality : bitmap -> Range -> Z;
  bm_contains_range : bitmap -> Range -> bool;
  (** [==] *)
  bm_eq : bitmap -> bitmap -> bool;
  (** [Iter::next_range] until the end: inclusive ranges. *)
  bm_ranges : bitmap -> list (Z * Z);
  bm_from_sorted_iter : list Z -> option bitmap;
  (** [FromIterator] and [Extend], in any order. *)
  bm_from_iter : list Z -> bitmap;
  bm_extend : bitmap -> list Z -> bitmap;
  (** [range(start..end)] *)
  bm_range : bitmap -> Range -> list Z;
  bm_optimize : bitmap -> bitmap;
  bm_serialized_size : bitmap -> Z;
  bm_serialize : bitmap -> list Z;
  bm_deserialize : list Z -> option bitmap
}.

(** The members of consecutive inclusive ranges. *)
Definition expand_ranges (rs : list (Z * Z)) : list Z := flat_map (fun r => range_list (fst r ..< snd r + 1)) rs.

Class RoaringLaws (RB : Roaring) : Prop := {
  bm_contains_u32 b v : bm_contains b v = true -> u32_ok v;
  bm_iter_sorted b : ssorted (bm_iter b);
  bm_iter_elem b v : v ∈ bm_iter b <-> bm_contains b v = true;
  bm_contains_new v : bm_contains bm_new v = false;
  bm_contains_full v : u32_ok v -> bm_contains bm_full v = true;
  bm_contains_insert b v w : u32_ok v -> bm_contains (fst (bm_insert b v)) w = (w =? v) || bm_contains b w;
  bm_insert_changed b v : u32_ok v -> snd (bm_insert b v) = negb (bm_contains b v);
  bm_contains_remove b v w : u32_ok v -> bm_contains (fst (bm_remove b v)) w = negb (w =? v) && bm_contains b w;
  bm_remove_changed b v : u32_ok v -> snd (bm_remove b v) = bm_contains b v;
  bm_contains_insert_range b lo hi w : u32_ok lo -> u32_ok hi ->
    bm_contains (fst (bm_insert_range b lo hi)) w = ((lo <=? w) && (w <=? hi)) || bm_contains b w;
  bm_insert_range_count b lo hi : u32_ok lo -> u32_ok hi ->
    snd (bm_insert_range b lo hi) = zlen (List.filter (fun v => negb (bm_contains b v)) (range_list (lo ..< hi + 1)));
  bm_len_iter b : bm_len b = zlen (bm_iter b);
  bm_is_empty_iff b : bm_is_empty b = true <-> forall v, bm_contains b v = false;
  bm_is_full_iff b : bm_is_full b = true <-> forall v, u32_ok v -> bm_contains b v = true;
  bm_contains_or a b v : bm_contains (bm_or a b) v = bm_contains a v || bm_contains b v;
  bm_contains_and a b v : bm_contains (bm_and a b) v = bm_contains a v && bm_contains b v;
  bm_contains_sub a b v : bm_contains (bm_sub a b) v = bm_contains a v && negb (bm_contains b v);
  bm_contains_xor a b v : bm_contains (bm_xor a b) v = xorb (bm_contains a v) (bm_contains b v);
  bm_contains_union l v : bm_contains (bm_union l) v = existsb (fun b => bm_contains b v) l;
  bm_is_subset_iff a b : bm_is_subset a b = true <-> forall v, bm_contains a v = true -> bm_contains b v = true;
  bm_is_disjoint_iff a b : bm_is_disjoint a b = true <-> forall v, bm_contains a v = true -> bm_contains b v = false;
  bm_union_len_or a b : bm_union_len a b = zlen (bm_iter (bm_or a b));
  bm_range_cardinality_iter b r : bm_range_cardinality b r = zlen (List.filter (range_contains r) (bm_iter b));
  bm_contains_range_iff b r : bm_contains_range b r = true <-> forall v, range_contains r v = true -> bm_contains b v = true;
  bm_eq_iff a b : bm_eq a b = true <-> forall v, bm_contains a v = bm_contains b v;
  bm_ranges_expand b : expand_ranges (bm_ranges b) = bm_iter b /\ Forall (fun r => fst r <= snd r) (bm_ranges b);
  bm_from_sorted_iter_ok l : ssorted l -> Forall u32_ok l -> exists b, bm_from_sorted_iter l = Some b /\ bm_iter b = l;
  bm_from_sorted_iter_err l : Forall u32_ok l -> ~ ssorted l -> bm_from_sorted_iter l = None;
  bm_contains_from_iter l v : Forall u32_ok l -> bm_contains (bm_from_iter l) v = bool_decide (v ∈ l);
  bm_contains_extend b l v : Forall u32_ok l -> bm_contains (bm_extend b l) v = bm_contains b v || bool_decide (v ∈ l);
  bm_range_iter b r : bm_range b r = List.filter (range_contains r) (bm_iter b);
  bm_contains_optimize b v : bm_contains (bm_optimize b) v = bm_contains b v;
  bm_serialized_size_ok b : bm_serialized_size b = zlen (bm_serialize b) /\ 0 < zlen (bm_serialize b);
  bm_serialize_bytes b : Forall u8_ok (bm_serialize b);
  bm_deserialize_serialize b : exists b', bm_deserialize (bm_serialize b) = Some b' /\
    forall v, bm_contains b' v = bm_contains b v
}.

Create Rewrite HintDb roaring.
#[export] Hint Rewrite @bm_contains_new @bm_contains_or @bm_contains_and @bm_contains_sub @bm_contains_xor @bm_contains_union
  @bm_contains_optimize using typeclasses eauto : roaring.

(** ** Derived facts *)

Section Facts.
Context {RB : Roaring} {RL : RoaringLaws RB}.

Lemma bm_iter_u32 b : Forall u32_ok (bm_iter b).
Proof. apply Forall_forall. intros v Hv%bm_iter_elem. by eapply bm_contains_u32. Qed.

Lemma bm_contains_out b v : ~ u32_ok v -> bm_contains b v = false.
Proof. intros Hv. destruct (bm_contains b v) eqn:E; [|done]. by apply bm_contains_u32 in E. Qed.

Lemma bm_iter_ext a b : (forall v, bm_contains a v = bm_contains b v) -> bm_iter a = bm_iter b.
Proof. intros He. apply ssorted_ext; [apply bm_iter_sorted..|]. intros v. by rewrite !bm_iter_elem, He. Qed.

Lemma bm_is_empty_iter b : bm_is_empty b = true <-> bm_iter b = [].
Proof.
  rewrite bm_is_empty_iff. split.
  - intros He. destruct (bm_iter b) as [|v l] eqn:E; [done|]. assert (v ∈ bm_iter b) as Hv by (rewrite E; left).
    apply bm_iter_elem in Hv. congruence.
  - intros E v. apply not_true_iff_false. rewrite <- bm_iter_elem, E. apply not_elem_of_nil.
Qed.

Lemma bm_is_empty_false b : bm_is_empty b = false <-> exists v, bm_contains b v = true.
Proof.
  rewrite <- not_true_iff_false, bm_is_empty_iter. split.
  - intros Hn. destruct (bm_iter b) as [|v l] eqn:E; [done|]. exists v. apply bm_iter_elem. rewrite E. left.
  - intros [v Hv%bm_iter_elem] E. rewrite E in Hv. by apply elem_of_nil in Hv.
Qed.

Lemma bm_is_disjoint_and a b : bm_is_disjoint a b = bm_is_empty (bm_and a b).
Proof.
  apply Bool.eq_true_iff_eq. rewrite bm_is_disjoint_iff, bm_is_empty_iff. split; intros H v; specialize (H v); rewrite bm_contains_and in *.
  - destruct (bm_contains a v); [by apply H|done].
  - intros Ha. by rewrite Ha in H.
Qed.

Lemma bm_is_subset_sub a b : bm_is_subset a b = bm_is_empty (bm_sub a b).
Proof.
  apply Bool.eq_true_iff_eq. rewrite bm_is_subset_iff, bm_is_empty_iff. split; intros H v; specialize (H v); rewrite bm_contains_sub in *.
  - destruct (bm_contains a v); [by rewrite H|done].
  - intros Ha. rewrite Ha in H. by apply negb_false_iff in H.
Qed.

Lemma bm_len_nonneg b : 0 <= bm_len b.
Proof. rewrite bm_len_iter. apply zlen_nonneg. Qed.

Lemma bm_len_le b : zlen (bm_iter b) <= U32_COUNT.
Proof.
  apply values_len_le; [unfold U32_COUNT; lia|apply ssorted_NoDup, bm_iter_sorted|].
  eapply Forall_impl; [apply bm_iter_u32|]. intros v Hv. unfold U32_COUNT. uok. lia.
Qed.

(** A bitmap has every value when it has as many members as there are. *)
Lemma bm_full_len b : zlen (bm_iter b) = U32_COUNT <-> forall v, u32_ok v -> bm_contains b v = true.
Proof.
  rewrite (all_values_len (bm_iter b) U32_COUNT); [|unfold U32_COUNT; lia|apply ssorted_NoDup, bm_iter_sorted|].
  - split; intros Ha v Hv; apply bm_iter_elem, Ha; unfold U32_COUNT in *; uok; lia.
  - eapply Forall_impl; [apply bm_iter_u32|]. intros v Hv. unfold U32_COUNT. uok. lia.
Qed.

Lemma bm_contains_of_iter b l v : bm_iter b = l -> bm_contains b v = bool_decide (v ∈ l).
Proof.
  intros <-. destruct (bm_contains b v) eqn:E; symmetry; [by apply bool_decide_true, bm_iter_elem|].
  apply bool_decide_false. rewrite bm_iter_elem. congruence.
Qed.

End Facts.

(** ** An instance *)

(** Finite sets of offsets and their complements. *)
Module Cofinite.

Record cofinite := mkCofinite { members : gset Z; complement : bool }.

Definition mem (b : cofinite) (v : Z) : bool := u32b v && xorb (complement b) (bool_decide (v ∈ members b)).

(** The values of [seqZ 0 n] are only listed for a complement. *)
Definition iter (b : cofinite) : list Z :=
  if complement b then List.filter (mem b) (seqZ 0 U32_COUNT)
  else sort_unstable (List.filter (mem b) (elements (members b))).

Definition not_ (b : cofinite) : cofinite := mkCofinite (members b) (negb (complement b)).
Definition or_ (a b : cofinite) : cofinite :=
  match complement a, complement b with
  | false, false => mkCofinite (members a ∪ members b) false
  | false, true => mkCofinite (members b ∖ members a) true
  | true, false => mkCofinite (members a ∖ members b) true
  | true, true => mkCofinite (members a ∩ members b) true
  end.
Definition and_ (a b : cofinite) : cofinite := not_ (or_ (not_ a) (not_ b)).
Definition sub_ (a b : cofinite) : cofinite := and_ a (not_ b).
Definition of_list (l : list Z) : cofinite := mkCofinite (list_to_set l) false.
Definition empty_ : cofinite := mkCofinite ∅ false.

Definition new_count (b : cofinite) (lo hi : Z) : Z := zlen (List.filter (fun v => negb (mem b v)) (range_list (lo ..< hi + 1))).

Definition is_nil {A} (l : list A) : bool := match l with [] => true | _ => false end.

(** A cookie, then the members in little-endian order. *)
Definition serialize (b : cofinite) : list Z := 59 :: 48 :: flat_map (to_le_bytes 4) (iter b).
Fixpoint decode (l : list Z) : list Z :=
  match l with
  | b0 :: b1 :: b2 :: b3 :: rest => from_le_bytes [b0; b1; b2; b3] :: decode rest
  | _ => []
  end.
Definition deserialize (l : list Z) : option cofinite :=
  match l with 59 :: 48 :: body => Some (of_list (decode body)) | _ => None end.

Lemma mem_u32 b v : mem b v = true -> u32_ok v.
Proof. unfold mem. intros [Hu _]%andb_true_iff. by apply u32b_spec. Qed.

Lemma mem_not b v : mem (not_ b) v = u32b v && negb (mem b v).
Proof. unfold mem, not_. simpl. by destruct (u32b v), (complement b), (bool_decide _). Qed.

Lemma mem_or a b v : mem (or_ a b) v = mem a v || mem b v.
Proof.
  unfold mem, or_. destruct (u32b v); [|by destruct (complement a), (complement b)].
  destruct (complement a), (complement b); cbn [members complement andb xorb];
    destruct (bool_decide (v ∈ members a)) eqn:Ea, (bool_decide (v ∈ members b)) eqn:Eb;
    (apply bool_decide_eq_true in Ea || apply bool_decide_eq_false in Ea);
    (apply bool_decide_eq_true in Eb || apply bool_decide_eq_false in Eb);
    first [rewrite bool_decide_true by set_solver|rewrite bool_decide_false by set_solver]; done.
Qed.

Lemma mem_and a b v : mem (and_ a b) v = mem a v && mem b v.
Proof.
  unfold and_. rewrite mem_not, mem_or, !mem_not. destruct (u32b v) eqn:Eu; [by destruct (mem a v), (mem b v)|].
  unfold mem. by rewrite Eu.
Qed.

Lemma mem_sub a b v : mem (sub_ a b) v = mem a v && negb (mem b v).
Proof.
  unfold sub_. rewrite mem_and, mem_not. destruct (u32b v) eqn:Eu; [done|]. unfold mem. by rewrite Eu.
Qed.

Lemma mem_of_list l v : Forall u32_ok l -> mem (of_list l) v = bool_decide (v ∈ l).
Proof.
  intros Hl. unfold mem, of_list. simpl. rewrite (bool_decide_ext (v ∈ list_to_set l) (v ∈ l)) by apply elem_of_list_to_set.
  destruct (bool_decide (v ∈ l)) eqn:E; [|by destruct (u32b v)]. apply bool_decide_eq_true in E.
  rewrite Forall_forall in Hl. by rewrite (proj2 (u32b_spec v)) by auto.
Qed.

Lemma iter_spec b : ssorted (iter b) /\ forall v, v ∈ iter b <-> mem b v = true.
Proof.
  unfold iter. destruct (complement b) eqn:Ec.
  - split; [apply ssorted_filter, ssorted_seqZ|]. intros v. rewrite elem_of_filterb, elem_of_seqZ. split; [tauto|].
    intros Hm. split; [|done]. apply mem_u32 in Hm. uok. unfold U32_COUNT. lia.
  - split.
    + apply sort_unstable_ssorted. apply NoDup_filterb, NoDup_elements.
    + intros v. unfold sort_unstable. rewrite sort_by_key_perm, elem_of_filterb, elem_of_elements. split; [tauto|].
      intros Hm. split; [|done]. unfold mem in Hm. rewrite Ec in Hm. apply andb_true_iff in Hm as [_ Hm]. by apply bool_decide_eq_true in Hm.
Qed.

Lemma decode_ok l : Forall u32_ok l -> decode (flat_map (to_le_bytes 4) l) = l.
Proof.
  induction 1 as [|v l Hv _ IH]; [done|]. cbn [flat_map]. pose proof (from_to_le_bytes 4 v) as Hf.
  remember (to_le_bytes 4 v) as bs eqn:E. pose proof (to_le_bytes_length 4 v) as Hl. rewrite <- E in Hl.
  destruct bs as [|b0 [|b1 [|b2 [|b3 [|]]]]]; try done. cbn [app decode]. rewrite Hf, IH; [done|]. uok. change (256 ^ Z.of_nat 4) with 4294967296. lia.
Qed.

Lemma iter_elem b v : v ∈ iter b <-> mem b v = true.
Proof. apply iter_spec. Qed.

Lemma iter_sorted b : ssorted (iter b).
Proof. apply iter_spec. Qed.

Lemma mem_single v w : u32_ok v -> mem (of_list [v]) w = (w =? v).
Proof.
  intros Hv. rewrite mem_of_list by (by constructor). destruct (Z.eqb_spec w v) as [->|].
  - apply bool_decide_true. left.
  - apply bool_decide_false. by rewrite list_elem_of_singleton.
Qed.

Lemma mem_range lo hi w : u32_ok lo -> u32_ok hi -> mem (of_list (range_list (lo ..< hi + 1))) w = (lo <=? w) && (w <=? hi).
Proof.
  intros Hl Hh. rewrite mem_of_list.
  - destruct ((lo <=? w) && (w <=? hi)) eqn:E; [apply bool_decide_true|apply bool_decide_false]; rewrite elem_of_range_list; simpl.
    + apply andb_true_iff in E. rewrite !Z.leb_le in E. lia.
    + apply andb_false_iff in E. rewrite !Z.leb_gt in E. lia.
  - apply Forall_forall. intros x Hx%elem_of_range_list. simpl in Hx. uok. lia.
Qed.

Lemma iter_nil b : iter b = [] <-> forall v, mem b v = false.
Proof.
  split.
  - intros E v. apply not_true_iff_false. rewrite <- iter_elem, E. apply not_elem_of_nil.
  - intros Ha. destruct (iter b) as [|v l] eqn:E; [done|]. assert (v ∈ iter b) as Hv by (rewrite E; left).
    apply iter_elem in Hv. by rewrite Ha in Hv.
Qed.

Lemma iter_eq a b : iter a = iter b <-> forall v, mem a v = mem b v.
Proof.
  split.
  - intros E v. destruct (mem a v) eqn:Ea, (mem b v) eqn:Eb; try done.
    + apply iter_elem in Ea. rewrite E, iter_elem in Ea. congruence.
    + apply iter_elem in Eb. rewrite <- E, iter_elem in Eb. congruence.
  - intros He. apply ssorted_ext; [apply iter_sorted..|]. intros v. by rewrite !iter_elem, He.
Qed.

Lemma iter_of_list l : ssorted l -> Forall u32_ok l -> iter (of_list l) = l.
Proof.
  intros Hs Hl. apply ssorted_ext; [apply iter_sorted|done|]. intros v. rewrite iter_elem, mem_of_list by done. apply bool_decide_eq_true.
Qed.

Lemma iter_u32 b : Forall u32_ok (iter b).
Proof. apply Forall_forall. intros v Hv%iter_elem. by eapply mem_u32. Qed.

Lemma forallb_iter b (f : Z -> bool) : forallb f (iter b) = true <-> forall v, mem b v = true -> f v = true.
Proof.
  rewrite forallb_forall. split; intros Hf v Hv; apply Hf.
  - apply list_elem_of_In. by apply iter_elem.
  - apply iter_elem. by apply list_elem_of_In.
Qed.

Lemma deserialize_serialize b : exists b', deserialize (serialize b) = Some b' /\ forall v, mem b' v = mem b v.
Proof.
  exists (of_list (iter b)). unfold serialize. cbn [deserialize]. rewrite decode_ok by apply iter_u32. split; [done|].
  intros v. rewrite mem_of_list by apply iter_u32. destruct (mem b v) eqn:E; [by apply bool_decide_true, iter_elem|].
  apply bool_decide_false. rewrite iter_elem. congruence.
Qed.

Lemma serialize_u8 b : Forall u8_ok (serialize b).
Proof.
  constructor; [uok; lia|]. constructor; [uok; lia|]. induction (iter b) as [|v l IH]; simpl; [constructor|].
  apply (Forall_app u8_ok (to_le_bytes 4 v)). split; [apply to_le_bytes_u8|done].
Qed.

Lemma full_len b : zlen (iter b) = U32_COUNT <-> forall v, u32_ok v -> mem b v = true.
Proof.
  rewrite (all_values_len (iter b) U32_COUNT); [|unfold U32_COUNT; lia|apply ssorted_NoDup, iter_sorted|].
  - split; intros Ha v Hv; apply iter_elem, Ha; unfold U32_COUNT in *; uok; lia.
  - eapply Forall_impl; [apply iter_u32|]. intros v Hv. unfold U32_COUNT. uok. lia.
Qed.

Lemma expand_singles l : expand_ranges (map (fun v => (v, v)) l) = l.
Proof.
  induction l as [|v l IH]; [done|]. cbn [map]. unfold expand_ranges in *. cbn [flat_map fst snd]. rewrite IH.
  unfold range_list. simpl. by replace (v + 1 - v) with 1 by lia.
Qed.

End Cofinite.

Definition CofiniteRoaring : Roaring := {|
  bitmap := Cofinite.cofinite;
  bm_new := Cofinite.empty_;
  bm_full := Cofinite.not_ Cofinite.empty_;
  bm_contains := Cofinite.mem;
  bm_iter := Cofinite.iter;
  bm_insert b v := (Cofinite.or_ b (Cofinite.of_list [v]), negb (Cofinite.mem b v));
  bm_remove b v := (Cofinite.sub_ b (Cofinite.of_list [v]), Cofinite.mem b v);
  bm_insert_range b lo hi := (Cofinite.or_ b (Cofinite.of_list (range_list (lo ..< hi + 1))), Cofinite.new_count b lo hi);
  bm_len b := zlen (Cofinite.iter b);
  bm_is_empty b := Cofinite.is_nil (Cofinite.iter b);
  bm_is_full b := zlen (Cofinite.iter b) =? U32_COUNT;
  bm_or := Cofinite.or_;
  bm_and := Cofinite.and_;
  bm_sub := Cofinite.sub_;
  bm_xor a b := Cofinite.or_ (Cofinite.sub_ a b) (Cofinite.sub_ b a);
  bm_union l := foldr Cofinite.or_ Cofinite.empty_ l;
  bm_is_subset a b := forallb (Cofinite.mem b) (Cofinite.iter a);
  bm_is_disjoint a b := forallb (fun v => negb (Cofinite.mem b v)) (Cofinite.iter a);
  bm_union_len a b := zlen (Cofinite.iter (Cofinite.or_ a b));
  bm_range_cardinality b r := zlen (List.filter (range_contains r) (Cofinite.iter b));
  bm_contains_range b r := forallb (Cofinite.mem b) (range_list r);
  bm_eq a b := bool_decide (Cofinite.iter a = Cofinite.iter b);
  bm_ranges b := map (fun v => (v, v)) (Cofinite.iter b);
  bm_from_sorted_iter l := if sortedb l then Some (Cofinite.of_list l) else None;
  bm_from_iter := Cofinite.of_list;
  bm_extend b l := Cofinite.or_ b (Cofinite.of_list l);
  bm_range b r := List.filter (range_contains r) (Cofinite.iter b);
  bm_optimize b := b;
  bm_serialized_size b := zlen (Cofinite.serialize b);
  bm_serialize := Cofinite.serialize;
  bm_deserialize := Cofinite.deserialize
|}.

Lemma CofiniteRoaring_laws : RoaringLaws CofiniteRoaring.
Proof.
  split; cbn [bitmap bm_new bm_full bm_contains bm_iter bm_insert bm_remove bm_insert_range bm_len bm_is_empty bm_is_full bm_or bm_and
    bm_sub bm_xor bm_union bm_is_subset bm_is_disjoint bm_union_len bm_range_cardinality bm_contains_range bm_eq bm_ranges
    bm_from_sorted_iter bm_from_iter bm_extend bm_range bm_optimize bm_serialized_size bm_serialize bm_deserialize CofiniteRoaring fst snd]; try done.
  - apply Cofinite.mem_u32.
  - apply Cofinite.iter_sorted.
  - apply Cofinite.iter_elem.
  - intros v. unfold Cofinite.mem. simpl. by rewrite andb_false_r.
  - intros v Hv. unfold Cofinite.mem. simpl. by rewrite (proj2 (u32b_spec v)).
  - intros b v w Hv. rewrite Cofinite.mem_or, Cofinite.mem_single by done. apply orb_comm.
  - intros b v w Hv. rewrite Cofinite.mem_sub, Cofinite.mem_single by done. apply andb_comm.
  - intros b lo hi w Hl Hh. rewrite Cofinite.mem_or, Cofinite.mem_range by done. apply orb_comm.
  - intros b. rewrite <- Cofinite.iter_nil. by destruct (Cofinite.iter b).
  - intros b. rewrite Z.eqb_eq. apply Cofinite.full_len.
  - apply Cofinite.mem_or.
  - apply Cofinite.mem_and.
  - apply Cofinite.mem_sub.
  - intros a b v. rewrite Cofinite.mem_or, !Cofinite.mem_sub. by destruct (Cofinite.mem a v), (Cofinite.mem b v).
  - intros l v. induction l as [|b l IH]; simpl; [unfold Cofinite.mem; simpl; by rewrite andb_false_r|]. by rewrite Cofinite.mem_or, IH.
  - intros a b. apply Cofinite.forallb_iter.
  - intros a b. rewrite Cofinite.forallb_iter. split; intros Hf v Hv; specialize (Hf v Hv); [by apply negb_true_iff|by apply negb_true_iff].
  - intros b r. rewrite forallb_forall. split.
    + intros Hf v Hv. apply Hf, list_elem_of_In, elem_of_range_list. by apply range_contains_spec.
    + intros Hf v Hv%list_elem_of_In%elem_of_range_list. apply Hf. by apply range_contains_spec.
  - intros a b. rewrite bool_decide_eq_true. apply Cofinite.iter_eq.
  - intros b. split; [apply Cofinite.expand_singles|]. apply Forall_map, Forall_forall. intros v _. simpl. lia.
  - intros l Hs Hl. rewrite (proj2 (sortedb_spec l)) by done. eexists. split; [done|]. by apply Cofinite.iter_of_list.
  - intros l Hl Hn. destruct (sortedb l) eqn:E; [|done]. by apply sortedb_spec in E.
  - intros l v Hl. by apply Cofinite.mem_of_list.
  - intros b l v Hl. by rewrite Cofinite.mem_or, Cofinite.mem_of_list.
  - apply Cofinite.serialize_u8.
  - apply Cofinite.deserialize_serialize.
Qed.
