(* ===== verification/TreeMap.v ===== *)
(** * Sets of row addresses

    [RowAddrTreeMap] of [lance-select/src/mask.rs]: a map from fragment ids to
    either the whole fragment or a bitmap of offsets.  A [BTreeMap] is a finite
    map that iterates in the order of its keys.  The specification of a set is
    its membership test; the theorems show that the set operations, which work
    fragment by fragment and special-case whole fragments, are the set
    operations on rows. *)

From Stdlib Require Import ZArith Lia.
From stdpp Require Import base option list numbers sorting sets gmap.
From S2P Require Import Prelude Lists Bits RowAddress Itertools Roaring.

(** ** [BTreeMap] *)

(** [iter()]: in the order of the keys. *)
Definition btree_iter {V} (m : gmap Z V) : list (Z * V) := sort_by_key fst (map_to_list m).

Lemma btree_iter_elem {V} (m : gmap Z V) k v : (k, v) ∈ btree_iter m <-> m !! k = Some v.
Proof. unfold btree_iter. rewrite sort_by_key_perm. apply elem_of_map_to_list. Qed.

Lemma btree_iter_NoDup {V} (m : gmap Z V) : NoDup (map fst (btree_iter m)).
Proof.
  unfold btree_iter. rewrite (Permutation_map fst (sort_by_key_perm fst (map_to_list m))). apply NoDup_fst_map_to_list.
Qed.

Lemma btree_iter_sorted {V} (m : gmap Z V) : ssorted (map fst (btree_iter m)).
Proof.
  pose proof (btree_iter_NoDup m) as Hn. pose proof (sort_by_key_sorted fst (map_to_list m)) as Hs. unfold btree_iter in *.
  induction Hs as [|x l _ IH Hx]; [constructor|]. cbn [map] in *. apply NoDup_cons in Hn as [Hni Hn]. constructor; [by apply IH|].
  apply Forall_map, Forall_forall. intros y Hy. rewrite Forall_forall in Hx. specialize (Hx y Hy). simpl in *.
  assert (fst y <> fst x); [|lia]. intros E. apply Hni. rewrite <- E. by apply list_elem_of_fmap_2.
Qed.

Lemma btree_iter_empty {V} : btree_iter (∅ : gmap Z V) = [].
Proof. unfold btree_iter. by rewrite map_to_list_empty. Qed.

Lemma zlen_btree_iter {V} (m : gmap Z V) : zlen (btree_iter m) = Z.of_nat (size m).
Proof. unfold btree_iter, zlen. rewrite (Permutation_length (sort_by_key_perm fst _)). by rewrite length_map_to_list. Qed.

Lemma find_btree_iter {V} (m : gmap Z V) k : List.find (fun p => fst p =? k) (btree_iter m) = pair k <$> m !! k.
Proof.
  destruct (List.find _ _) as [[k' v]|] eqn:E.
  - apply List.find_some in E as [Hin%list_elem_of_In Hk%Z.eqb_eq]. cbn in Hk. subst k'. apply btree_iter_elem in Hin. by rewrite Hin.
  - destruct (m !! k) as [v|] eqn:Em; [|done]. apply btree_iter_elem, list_elem_of_In in Em. eapply List.find_none in E; [|done].
    cbn in E. by rewrite Z.eqb_refl in E.
Qed.

(** A loop over a map that updates another one key by key. *)
Lemma foldl_pointwise {V W} (step : gmap Z V -> Z * W -> gmap Z V) (f : W -> option V -> option V) (m : gmap Z V) (r : gmap Z W) k :
  (forall m k w, step m (k, w) !! k = f w (m !! k)) ->
  (forall m k w k', k <> k' -> step m (k, w) !! k' = m !! k') ->
  foldl step m (btree_iter r) !! k = match r !! k with Some w => f w (m !! k) | None => m !! k end.
Proof.
  intros Hat Hne. pose proof (btree_iter_NoDup r) as Hn.
  assert (forall l m, NoDup (map fst l) -> foldl step m l !! k =
    match List.find (fun p => fst p =? k) l with Some p => f (snd p) (m !! k) | None => m !! k end) as Hl.
  { clear - Hat Hne. induction l as [|[k' w] l IH]; intros m Hn; [done|]. cbn [foldl List.find map fst] in *.
    apply NoDup_cons in Hn as [Hni Hn]. rewrite IH by done. destruct (Z.eqb_spec k' k) as [->|Hk]; [|by rewrite Hne by done].
    destruct (List.find _ l) as [[k2 w2]|] eqn:Ef; [|by rewrite Hat]. apply List.find_some in Ef as [Hin Heq].
    simpl in Heq. apply Z.eqb_eq in Heq as ->. exfalso. apply Hni. apply list_elem_of_In in Hin.
    by apply (list_elem_of_fmap_2 fst _ (k, w2)). }
  rewrite Hl, find_btree_iter by done. by destruct (r !! k).
Qed.

(** ** Model *)

Inductive RowAddrSelection {RB : Roaring} := Full | Partial (rows : bitmap).

(** The [inner] map of the struct. *)
Abbreviation RowAddrTreeMap := (gmap Z RowAddrSelection).

Section Model.
Context {RB : Roaring}.

(** [(row >> 32) as u32] and [row as u32] *)
Definition upper (row : Z) : Z := wrap32 (Z.shiftr row 32).
Definition lower (row : Z) : Z := wrap32 row.

Definition selection_union_all (selections : list RowAddrSelection) : RowAddrSelection :=
  let is_full := existsb (fun s => match s with Full => true | Partial _ => false end) selections in
  let res := Partial (bm_union (omap (fun s => match s with Full => None | Partial b => Some b end) selections)) in
  if is_full then Full else res.

Definition is_empty (m : RowAddrTreeMap) : bool := bool_decide (m = ∅).

(** The [try_fold] of [len]: a full fragment has no known size. *)
Fixpoint sum_lens (acc : Z) (l : list (Z * RowAddrSelection)) : option Z :=
  match l with
  | [] => Some acc
  | (_, Full) :: _ => None
  | (_, Partial indices) :: l => sum_lens (bm_len indices +w acc) l
  end.

Definition len (m : RowAddrTreeMap) : option Z := sum_lens 0 (btree_iter m).

Definition remove (m : RowAddrTreeMap) (row : Z) : RowAddrTreeMap * bool :=
  match m !! upper row with
  | None => (m, false)
  | Some Full =>
      let '(set, _) := bm_remove bm_full (lower row) in
      (<[upper row := Partial set]> m, true)
  | Some (Partial lower_set) =>
      let '(lower_set, removed) := bm_remove lower_set (lower row) in
      (if bm_is_empty lower_set then delete (upper row) m else <[upper row := Partial lower_set]> m, removed)
  end.

Definition contains (m : RowAddrTreeMap) (row : Z) : bool :=
  match m !! upper row with
  | None => false
  | Some Full => true
  | Some (Partial fragment_set) => bm_contains fragment_set (lower row)
  end.

(** [entry(fragment).or_insert_with(..).push(selection)] *)
Definition push_selection (m : gmap Z (list RowAddrSelection)) (p : Z * RowAddrSelection) : gmap Z (list RowAddrSelection) :=
  <[fst p := default [] (m !! fst p) ++ [snd p]]> m.

Definition union_all (other : list RowAddrTreeMap) : RowAddrTreeMap :=
  selection_union_all <$> foldl (fun m map => foldl push_selection m (btree_iter map)) ∅ other.

Fixpoint from_sorted_loop {IT : Itertools} (fuel : nat) (rows : list Z) (inner : RowAddrTreeMap) : res RowAddrTreeMap :=
  match fuel, rows with
  | _, [] => Ok inner
  | O, _ => Panic
  | S fuel, row_id :: _ =>
      let fragment_id := upper row_id in
      let '(group, rest) := peeking_take_while (fun row_id => upper row_id =? fragment_id) rows in
      match bm_from_sorted_iter (map lower group) with
      | None => Err Internal
      | Some bitmap => from_sorted_loop fuel rest (<[fragment_id := Partial bitmap]> inner)
      end
  end.

Definition from_sorted_iter {IT : Itertools} (rows : list Z) : res RowAddrTreeMap := from_sorted_loop (length rows) rows ∅.

Definition new : RowAddrTreeMap := ∅.

Definition partial_addrs (p : Z * RowAddrSelection) : option (list Z) :=
  match snd p with
  | Full => None
  | Partial bitmap => Some (map (new_from_parts (fst p)) (bm_iter bitmap))
  end.

Definition row_addrs (m : RowAddrTreeMap) : option (list Z) :=
  let inner_iters := omap partial_addrs (btree_iter m) in
  if negb (zlen inner_iters =? Z.of_nat (size m)) then None else Some (concat inner_iters).

Definition insert_row (m : RowAddrTreeMap) (value : Z) : RowAddrTreeMap * bool :=
  let fragment := upper value in
  let row_addr := lower value in
  match m !! fragment with
  | None => (<[fragment := Partial (fst (bm_insert bm_new row_addr))]> m, true)
  | Some Full => (m, false)
  | Some (Partial set) =>
      let '(set, inserted) := bm_insert set row_addr in (<[fragment := Partial set]> m, inserted)
  end.

Inductive Bound := Included (v : Z) | Excluded (v : Z) | Unbounded.

Definition start_parts (b : Bound) : Z * Z :=
  match b with
  | Included start => (upper start, lower start)
  | Excluded start => let start := saturating_add start 1 in (upper start, lower start)
  | Unbounded => (0, 0)
  end.

Definition end_parts (b : Bound) : Z * Z :=
  match b with
  | Included e => (upper e, lower e)
  | Excluded e => let e := saturating_sub e 1 in (upper e, lower e)
  | Unbounded => (U32_MAX, U32_MAX)
  end.

(** One round of the loop: the rows [start..=e] of a fragment. *)
Definition insert_range_fragment (m : RowAddrTreeMap) (fragment start e count : Z) : RowAddrTreeMap * Z :=
  match m !! fragment with
  | None =>
      let '(set, n) := bm_insert_range bm_new start e in
      (<[fragment := Partial set]> m, count +w n)
  | Some Full => (m, count)
  | Some (Partial set) =>
      let '(set, n) := bm_insert_range set start e in
      (<[fragment := Partial set]> m, count +w n)
  end.

(** [while start_high <= end_high]; [start_high] is a [u32]. *)
Fixpoint insert_range_loop (fuel : nat) (m : RowAddrTreeMap) (start_high start_low end_high end_low count : Z)
    : res (RowAddrTreeMap * Z) :=
  match fuel with
  | O => Panic
  | S fuel =>
      if start_high <=? end_high then
        let e := if start_high =? end_high then end_low else U32_MAX in
        let '(m, count) := insert_range_fragment m start_high start_low e count in
        insert_range_loop fuel m (start_high +d 1) 0 end_high end_low count
      else Ok (m, count)
  end.

Definition insert_range (fuel : nat) (m : RowAddrTreeMap) (s e : Bound) : res (RowAddrTreeMap * Z) :=
  let '(start_high, start_low) := start_parts s in
  let '(end_high, end_low) := end_parts e in
  insert_range_loop fuel m start_high start_low end_high end_low 0.

(** [FromIterator<u64>] and [Extend<u64>] share their loop. *)
Definition extend_row (m : RowAddrTreeMap) (row_addr : Z) : RowAddrTreeMap :=
  match m !! upper row_addr with
  | None => <[upper row_addr := Partial (fst (bm_insert bm_new (lower row_addr)))]> m
  | Some Full => m
  | Some (Partial set) => <[upper row_addr := Partial (fst (bm_insert set (lower row_addr)))]> m
  end.

Definition extend_rows (m : RowAddrTreeMap) (rows : list Z) : RowAddrTreeMap := foldl extend_row m rows.

Definition from_iter (rows : list Z) : RowAddrTreeMap := extend_rows ∅ rows.

(** The inner loop of [from_sorted_runs] over one run. *)
Definition bucket_add (buckets : gmap Z (list Z * bool)) (fragment first : Z) (segment : list Z) : gmap Z (list Z * bool) :=
  let '(offsets, sorted) := default ([], true) (buckets !! fragment) in
  let sorted := if sorted && match list.last offsets with Some last => last >? lower first | None => false end then false else sorted in
  <[fragment := (offsets ++ map lower segment, sorted)]> buckets.

Fixpoint bucket_run (fuel : nat) (rest : list Z) (buckets : gmap Z (list Z * bool)) : res (gmap Z (list Z * bool)) :=
  match fuel, rest with
  | _, [] => Ok buckets
  | O, _ => Panic
  | S fuel, first :: _ =>
      let fragment := upper first in
      let e := default (zlen rest) (iter_position (fun addr => negb (upper addr =? fragment)) rest) in
      bucket_run fuel (zskip e rest) (bucket_add buckets fragment first (ztake e rest))
  end.

Fixpoint bucket_runs (runs : list (list Z)) (buckets : gmap Z (list Z * bool)) : res (gmap Z (list Z * bool)) :=
  match runs with
  | [] => Ok buckets
  | run :: runs => buckets ← bucket_run (length run) run buckets; bucket_runs runs buckets
  end.

Definition bucket_selection (p : Z * (list Z * bool)) : res (Z * RowAddrSelection) :=
  let '(fragment, (offsets, sorted)) := p in
  let offsets := if negb sorted then sort_unstable offsets else offsets in
  bitmap ← unwrap_opt (bm_from_sorted_iter (dedup offsets));
  Ok (fragment, Partial bitmap).

Definition from_sorted_runs (runs : list (list Z)) : res RowAddrTreeMap :=
  buckets ← bucket_runs runs ∅;
  entries ← map_res bucket_selection (btree_iter buckets);
  Ok (list_to_map entries).

Definition insert_bitmap (m : RowAddrTreeMap) (fragment : Z) (bitmap : bitmap) : RowAddrTreeMap := <[fragment := Partial bitmap]> m.
Definition insert_fragment (m : RowAddrTreeMap) (fragment_id : Z) : RowAddrTreeMap := <[fragment_id := Full]> m.

Definition get_fragment_bitmap (m : RowAddrTreeMap) (fragment_id : Z) : option bitmap :=
  match m !! fragment_id with
  | None => None
  | Some Full => None
  | Some (Partial set) => Some set
  end.

Definition retain_fragments (m : RowAddrTreeMap) (frag_ids : list Z) : RowAddrTreeMap :=
  filter (fun p => fst p ∈ (list_to_set frag_ids : gset Z)) m.

Definition optimize (m : RowAddrTreeMap) : RowAddrTreeMap :=
  (fun s => match s with Partial bitmap => Partial (bm_optimize bitmap) | Full => Full end) <$> m.

Definition serialized_size (m : RowAddrTreeMap) : Z :=
  foldl (fun size p => let size := size + 8 in match snd p with Partial set => size + bm_serialized_size set | Full => size end)
    4 (btree_iter m).

(** [write_u32::<LittleEndian>] *)
Definition write_u32 (v : Z) : list Z := to_le_bytes 4 (wrap32 v).

Definition serialize_entry (p : Z * RowAddrSelection) : list Z :=
  write_u32 (fst p) ++
  match snd p with
  | Partial set => write_u32 (bm_serialized_size set) ++ bm_serialize set
  | Full => write_u32 0
  end.

Definition serialize_into (m : RowAddrTreeMap) : list Z :=
  write_u32 (Z.of_nat (size m)) ++ flat_map serialize_entry (btree_iter m).

(** [read_u32::<LittleEndian>] *)
Definition read_u32 (reader : list Z) : res (Z * list Z) :=
  if zlen reader <? 4 then Err IO else Ok (from_le_bytes (ztake 4 reader), zskip 4 reader).

Fixpoint deserialize_loop (num_entries : nat) (reader : list Z) (inner : RowAddrTreeMap) : res RowAddrTreeMap :=
  match num_entries with
  | O => Ok inner
  | S n =>
      '(fragment, reader) ← read_u32 reader;
      '(bitmap_size, reader) ← read_u32 reader;
      if bitmap_size =? 0 then deserialize_loop n reader (<[fragment := Full]> inner)
      else
        let buffer := ztake bitmap_size reader in
        if negb (zlen buffer =? bitmap_size) then Err InvalidInput else
        set ← ok_or (bm_deserialize buffer) IO;
        deserialize_loop n (zskip bitmap_size reader) (<[fragment := Partial set]> inner)
  end.

Definition deserialize_from (reader : list Z) : res RowAddrTreeMap :=
  '(num_entries, reader) ← read_u32 reader;
  deserialize_loop (Z.to_nat num_entries) reader ∅.

Definition addrs_of_entry (p : Z * RowAddrSelection) : res (list Z) :=
  match snd p with
  | Full => Panic
  | Partial bitmap => Ok (map (fun val => Z.lor (wrap64 (Z.shiftl (fst p) 32)) val) (bm_iter bitmap))
  end.

Definition into_addr_iter (m : RowAddrTreeMap) : res (list Z) :=
  l ← map_res addrs_of_entry (btree_iter m); Ok (concat l).

Definition runs_of_entry (p : Z * RowAddrSelection) : res (list (Z * (Z * Z))) :=
  match snd p with
  | Full => Panic
  | Partial bitmap => Ok (map (pair (fst p)) (bm_ranges bitmap))
  end.

Definition iter_runs (m : RowAddrTreeMap) : res (list (Z * (Z * Z))) :=
  l ← map_res runs_of_entry (btree_iter m); Ok (concat l).

(** [BitOrAssign<Self>] *)
Definition or_owned_step (m : RowAddrTreeMap) (p : Z * RowAddrSelection) : RowAddrTreeMap :=
  let '(fragment, rhs_set) := p in
  match m !! fragment, rhs_set with
  | None, rhs_set => <[fragment := rhs_set]> m
  | Some Full, _ => m
  | Some (Partial _), Full => <[fragment := Full]> m
  | Some (Partial lhs_bitmap), Partial rhs_bitmap => <[fragment := Partial (bm_or lhs_bitmap rhs_bitmap)]> m
  end.

Definition bitor_owned (m rhs : RowAddrTreeMap) : RowAddrTreeMap := foldl or_owned_step m (btree_iter rhs).

(** [BitOrAssign<&Self>] *)
Definition or_step (m : RowAddrTreeMap) (p : Z * RowAddrSelection) : RowAddrTreeMap :=
  let '(fragment, rhs_set) := p in
  match m !! fragment with
  | Some Full => m
  | Some (Partial lhs_bitmap) =>
      match rhs_set with
      | Full => <[fragment := Full]> m
      | Partial rhs_set => <[fragment := Partial (bm_or lhs_bitmap rhs_set)]> m
      end
  | None => <[fragment := rhs_set]> m
  end.

Definition bitor (m rhs : RowAddrTreeMap) : RowAddrTreeMap := foldl or_step m (btree_iter rhs).

(** [Extend<Self>] *)
Definition extend_step (m : RowAddrTreeMap) (p : Z * RowAddrSelection) : RowAddrTreeMap :=
  let '(fragment, set) := p in
  match m !! fragment with
  | None => <[fragment := set]> m
  | Some Full => m
  | Some (Partial lhs_set) =>
      match set with
      | Full => <[fragment := Full]> m
      | Partial rhs_set => <[fragment := Partial (bm_or lhs_set rhs_set)]> m
      end
  end.

Definition extend_maps (m : RowAddrTreeMap) (others : list RowAddrTreeMap) : RowAddrTreeMap :=
  foldl (fun m other => foldl extend_step m (btree_iter other)) m others.

Definition and_selection (rhs : RowAddrTreeMap) (fragment : Z) (lhs_set : RowAddrSelection) : RowAddrSelection :=
  match lhs_set, rhs !! fragment with
  | _, None => lhs_set
  | _, Some Full => lhs_set
  | Partial lhs_set, Some (Partial rhs_set) => Partial (bm_and lhs_set rhs_set)
  | Full, Some (Partial rhs_set) => Partial rhs_set
  end.

Definition keep_nonempty (s : RowAddrSelection) : bool :=
  match s with Partial set => negb (bm_is_empty set) | Full => true end.

Definition bitand (m rhs : RowAddrTreeMap) : RowAddrTreeMap :=
  let m := filter (fun p => is_Some (rhs !! fst p)) m in
  let m := map_imap (fun fragment lhs_set => Some (and_selection rhs fragment lhs_set)) m in
  filter (fun p => keep_nonempty (snd p) = true) m.

Definition sub_step (m : RowAddrTreeMap) (p : Z * RowAddrSelection) : RowAddrTreeMap :=
  let '(fragment, rhs_set) := p in
  match m !! fragment with
  | None => m
  | Some Full =>
      match rhs_set with
      | Full => delete fragment m
      | Partial rhs_set => <[fragment := Partial (bm_sub bm_full rhs_set)]> m
      end
  | Some (Partial lhs_set) =>
      match rhs_set with
      | Full => delete fragment m
      | Partial rhs_set =>
          let lhs_set := bm_sub lhs_set rhs_set in
          if bm_is_empty lhs_set then delete fragment m else <[fragment := Partial lhs_set]> m
      end
  end.

Definition sub (m rhs : RowAddrTreeMap) : RowAddrTreeMap := foldl sub_step m (btree_iter rhs).

(** [From<Range<u64>>] and [From<RangeInclusive<u64>>] *)
Definition from_range (fuel : nat) (r : Range) : res RowAddrTreeMap :=
  '(m, _) ← insert_range fuel new (Included (start r)) (Excluded (end_ r)); Ok m.
Definition from_range_inclusive (fuel : nat) (s e : Z) : res RowAddrTreeMap :=
  '(m, _) ← insert_range fuel new (Included s) (Included e); Ok m.

Definition bitmap_to_ranges (b : bitmap) : list Range := map (fun r => fst r ..< snd r + 1) (bm_ranges b).

(** [insert_range(start..end)] of the bitmap: the empty range inserts nothing. *)
Definition bm_insert_half_open (b : bitmap) (s e : Z) : bitmap := if s <? e then fst (bm_insert_range b s (e - 1)) else b.

Definition ranges_to_bitmap (ranges : list Range) (sorted : bool) : res bitmap :=
  match ranges with
  | [] => Ok bm_new
  | _ =>
      let bulk := Ok (foldl (fun bm r => bm_insert_half_open bm (wrap32 (start r)) (wrap32 (end_ r))) bm_new ranges) in
      if sorted then
        let sample_size := Z.min (zlen ranges) 10 in
        let avg_len := wrap64 (foldr (fun r acc => (end_ r -w start r) + acc) 0 (ztake sample_size ranges)) / sample_size in
        if avg_len <=? 6 then
          unwrap_opt (bm_from_sorted_iter (flat_map (fun r => range_list (wrap32 (start r) ..< wrap32 (end_ r))) ranges))
        else bulk
      else bulk
  end.

End Model.
