(* ===== verification/TreeMapAlgebra.v ===== *)
(** * Set algebra of row address sets

    The operations of [RowAddrTreeMap] are the operations on sets of rows:
    membership of the result is the Boolean combination of the memberships
    of the arguments.  Sets that store no empty bitmap ([wf]) are empty
    exactly when [is_empty] says so, and their size, their addresses and their
    membership test agree. *)

From Stdlib Require Import ZArith Lia.
From stdpp Require Import base option list numbers sorting sets gmap.
From S2P Require Import Prelude Lists Bits RowAddress Roaring TreeMap.

Section Algebra.
Context {RB : Roaring} {RL : RoaringLaws RB}.

Lemma lower_ok row : u32_ok (lower row).
Proof. apply wrap32_ok. Qed.

Lemma upper_ok row : u32_ok (upper row).
Proof. apply wrap32_ok. Qed.

#[local] Hint Resolve lower_ok upper_ok : core.

(** A row is known by its two halves. *)
Lemma upper_lower_eq a b : u64_ok a -> u64_ok b -> upper a = upper b -> lower a = lower b -> a = b.
Proof.
  intros Ha Hb Hu Hl. rewrite <- (parts_of_address a), <- (parts_of_address b) by done.
  unfold upper, lower in *. unfold fragment_id, row_offset. by rewrite Hu, Hl.
Qed.

Lemma row_of_parts k v : u32_ok k -> u32_ok v -> exists row, u64_ok row /\ upper row = k /\ lower row = v /\ row = new_from_parts k v.
Proof.
  intros Hk Hv. exists (new_from_parts k v). split; [|split; [by apply fragment_id_parts|split; [by apply row_offset_parts|done]]].
  rewrite new_from_parts_eq by done. uok. lia.
Qed.

(** Membership of an offset in the entry of a fragment. *)
Definition sel_has (s : option RowAddrSelection) (v : Z) : bool :=
  match s with
  | None => false
  | Some Full => true
  | Some (Partial b) => bm_contains b v
  end.

Lemma contains_sel m row : contains m row = sel_has (m !! upper row) (lower row).
Proof. done. Qed.

(** Two sets are equivalent when they have the same rows. *)
#[export] Instance treemap_equiv : Equiv RowAddrTreeMap := fun a b => forall row, contains a row = contains b row.

#[export] Instance treemap_equivalence : Equivalence treemap_equiv.
Proof. split; [by intros m row|by intros a b H row; rewrite H|by intros a b c H1 H2 row; rewrite H1, H2]. Qed.

(** ** Union *)

Definition sel_or (rhs : RowAddrSelection) (lhs : option RowAddrSelection) : option RowAddrSelection :=
  Some match lhs, rhs with
  | None, _ => rhs
  | Some Full, _ => Full
  | Some (Partial _), Full => Full
  | Some (Partial a), Partial b => Partial (bm_or a b)
  end.

Lemma sel_has_or w s v : sel_has (sel_or w s) v = sel_has s v || sel_has (Some w) v.
Proof. destruct s as [[|a]|], w as [|b]; cbn; autorewrite with roaring; rewrite ?orb_true_r; done. Qed.

Ltac pointwise :=
  intros; cbv beta iota; repeat (case_match; simplify_eq);
  rewrite ?lookup_insert_eq, ?lookup_delete_eq; rewrite ?lookup_insert_ne, ?lookup_delete_ne by done;
  congruence.

Lemma bitor_lookup m r k : bitor m r !! k = match r !! k with Some w => sel_or w (m !! k) | None => m !! k end.
Proof. apply (foldl_pointwise or_step sel_or); unfold or_step, sel_or; pointwise. Qed.

Lemma bitor_owned_lookup m r k : bitor_owned m r !! k = match r !! k with Some w => sel_or w (m !! k) | None => m !! k end.
Proof. apply (foldl_pointwise or_owned_step sel_or); unfold or_owned_step, sel_or; pointwise. Qed.

Lemma extend_lookup m r k : foldl extend_step m (btree_iter r) !! k = match r !! k with Some w => sel_or w (m !! k) | None => m !! k end.
Proof. apply (foldl_pointwise extend_step sel_or); unfold extend_step, sel_or; pointwise. Qed.

Lemma contains_bitor m r row : contains (bitor m r) row = contains m row || contains r row.
Proof. rewrite !contains_sel, bitor_lookup. destruct (r !! upper row) as [w|]; [apply sel_has_or|by rewrite orb_false_r]. Qed.

(** The owned and the borrowed [|=] and [extend] build the same map. *)
Lemma bitor_owned_eq m r : bitor_owned m r = bitor m r.
Proof. apply map_eq. intros k. by rewrite bitor_owned_lookup, bitor_lookup. Qed.

Lemma contains_bitor_owned m r row : contains (bitor_owned m r) row = contains m row || contains r row.
Proof. rewrite <- contains_bitor. done. Qed.

Lemma extend_maps_eq m l : extend_maps m l = foldl bitor m l.
Proof.
  unfold extend_maps. revert m. induction l as [|r l IH]; intros m; [done|]. cbn [foldl]. apply IH.
Qed.

Lemma contains_extend_maps l m row : contains (extend_maps m l) row = contains m row || existsb (fun r => contains r row) l.
Proof.
  rewrite extend_maps_eq. revert m. induction l as [|r l IH]; intros m; cbn [foldl existsb]; [by rewrite orb_false_r|].
  by rewrite IH, contains_bitor, orb_assoc.
Qed.

(** ** Intersection and difference *)

Lemma sel_has_keep s v : keep_nonempty s = false -> sel_has (Some s) v = false.
Proof. destruct s as [|b]; [done|]. cbn. intros Hb%negb_false_iff. by apply bm_is_empty_iff. Qed.

(** Dropping the entries with an empty bitmap drops no row. *)
Lemma sel_has_filter s v : sel_has (guard (keep_nonempty s = true) ≫= fun _ => Some s) v = sel_has (Some s) v.
Proof. case_guard as Hs; [done|]. cbn [mbind option_bind]. symmetry. apply sel_has_keep. by apply not_true_is_false. Qed.

Lemma bitand_lookup m r k : bitand m r !! k =
  match m !! k, r !! k with
  | Some s, Some _ => guard (keep_nonempty (and_selection r k s) = true) ≫= fun _ => Some (and_selection r k s)
  | _, _ => None
  end.
Proof.
  unfold bitand. rewrite map_lookup_filter, map_lookup_imap, map_lookup_filter. cbn [fst snd].
  destruct (m !! k) as [s|]; [|done]. cbn [mbind option_bind]. case_guard as Hr; cbn [mbind option_bind fst snd] in *.
  - destruct Hr as [w ->]. done.
  - by destruct (r !! k) as [w|]; [destruct Hr; eauto|].
Qed.

Lemma contains_bitand m r row : contains (bitand m r) row = contains m row && contains r row.
Proof.
  rewrite !contains_sel, bitand_lookup. destruct (m !! upper row) as [s|] eqn:Em; [|done].
  destruct (r !! upper row) as [w|] eqn:Er; [|by rewrite andb_false_r]. rewrite sel_has_filter. unfold and_selection. rewrite Er.
  destruct s as [|a], w as [|b]; cbn; autorewrite with roaring; rewrite ?andb_true_r; done.
Qed.

Definition sel_sub (rhs : RowAddrSelection) (lhs : option RowAddrSelection) : option RowAddrSelection :=
  match lhs, rhs with
  | None, _ => None
  | Some _, Full => None
  | Some Full, Partial b => Some (Partial (bm_sub bm_full b))
  | Some (Partial a), Partial b => if bm_is_empty (bm_sub a b) then None else Some (Partial (bm_sub a b))
  end.

Lemma sub_lookup m r k : sub m r !! k = match r !! k with Some w => sel_sub w (m !! k) | None => m !! k end.
Proof. apply (foldl_pointwise sub_step sel_sub); unfold sub_step, sel_sub; pointwise. Qed.

Lemma sel_has_sub w s v : u32_ok v -> sel_has (sel_sub w s) v = sel_has s v && negb (sel_has (Some w) v).
Proof.
  intros Hv. destruct s as [[|a]|], w as [|b]; cbn; autorewrite with roaring; rewrite ?andb_false_r; try done.
  - by rewrite bm_contains_full.
  - destruct (bm_is_empty (bm_sub a b)) eqn:E; cbn; [|by autorewrite with roaring].
    rewrite bm_is_empty_iff in E. specialize (E v). by autorewrite with roaring in E.
Qed.

Lemma contains_sub m r row : contains (sub m r) row = contains m row && negb (contains r row).
Proof. rewrite !contains_sel, sub_lookup. destruct (r !! upper row) as [w|]; [by apply sel_has_sub|by rewrite andb_true_r]. Qed.

(** The operations respect the equivalence. *)
#[export] Instance bitor_proper : Proper ((≡) ==> (≡) ==> (≡)) bitor.
Proof. intros a a' Ha b b' Hb row. by rewrite !contains_bitor, Ha, Hb. Qed.

#[export] Instance bitand_proper : Proper ((≡) ==> (≡) ==> (≡)) bitand.
Proof. intros a a' Ha b b' Hb row. by rewrite !contains_bitand, Ha, Hb. Qed.

#[export] Instance sub_proper : Proper ((≡) ==> (≡) ==> (≡)) sub.
Proof. intros a a' Ha b b' Hb row. by rewrite !contains_sub, Ha, Hb. Qed.

(** ** Single rows *)

Lemma contains_insert m k s row : contains (<[k := s]> m) row = if upper row =? k then sel_has (Some s) (lower row) else contains m row.
Proof. rewrite !contains_sel. destruct (Z.eqb_spec (upper row) k) as [->|]; [by rewrite lookup_insert_eq|by rewrite lookup_insert_ne]. Qed.

Lemma contains_delete (m : RowAddrTreeMap) k row : contains (delete k m) row = negb (upper row =? k) && contains m row.
Proof. rewrite !contains_sel. destruct (Z.eqb_spec (upper row) k) as [->|]; [by rewrite lookup_delete_eq|by rewrite lookup_delete_ne]. Qed.

(** The row is the one the halves name. *)
Definition same_row (a b : Z) : bool := (upper a =? upper b) && (lower a =? lower b).

Lemma same_row_eq a b : u64_ok a -> u64_ok b -> same_row a b = (a =? b).
Proof.
  intros Ha Hb. unfold same_row. destruct (Z.eqb_spec a b) as [->|Hn]; [by rewrite !Z.eqb_refl|].
  destruct (Z.eqb_spec (upper a) (upper b)), (Z.eqb_spec (lower a) (lower b)); try done. destruct Hn. by apply upper_lower_eq.
Qed.

Lemma contains_insert_row m value row :
  contains (fst (insert_row m value)) row = same_row row value || contains m row /\ snd (insert_row m value) = negb (contains m value).
Proof.
  unfold insert_row, same_row. rewrite !(contains_sel m). destruct (m !! upper value) as [[|b]|] eqn:E.
  - split; [|done]. cbn [fst]. rewrite contains_sel. destruct (Z.eqb_spec (upper row) (upper value)) as [Hu|]; [|done].
    by rewrite Hu, E, orb_true_r.
  - pose proof (bm_insert_changed b (lower value) (lower_ok value)) as Hc.
    pose proof (bm_contains_insert b (lower value) (lower row) (lower_ok value)) as Hi.
    destruct (bm_insert b (lower value)) as [b' ins]. cbn [fst snd] in *. split; [|done]. rewrite contains_insert.
    destruct (Z.eqb_spec (upper row) (upper value)) as [Hu|]; [|done]. cbn. by rewrite Hi, Hu, E.
  - split; [|done]. cbn [fst]. rewrite contains_insert. destruct (Z.eqb_spec (upper row) (upper value)) as [Hu|]; [|done].
    cbn. rewrite Hu, E, bm_contains_insert by done. by autorewrite with roaring.
Qed.

Lemma contains_remove m value row :
  contains (fst (remove m value)) row = negb (same_row row value) && contains m row /\ snd (remove m value) = contains m value.
Proof.
  unfold remove, same_row. rewrite !(contains_sel m). destruct (m !! upper value) as [[|b]|] eqn:E.
  - pose proof (bm_contains_remove bm_full (lower value) (lower row) (lower_ok value)) as Hr.
    destruct (bm_remove bm_full (lower value)) as [b' x]. cbn [fst snd] in *. split; [|done]. rewrite contains_insert.
    destruct (Z.eqb_spec (upper row) (upper value)) as [Hu|]; [|done]. cbn. by rewrite Hr, bm_contains_full, Hu, E.
  - pose proof (bm_contains_remove b (lower value) (lower row) (lower_ok value)) as Hr.
    pose proof (bm_remove_changed b (lower value) (lower_ok value)) as Hc.
    destruct (bm_remove b (lower value)) as [b' x]. cbn [fst snd] in *. split; [|done].
    destruct (bm_is_empty b') eqn:Eb; [rewrite contains_delete|rewrite contains_insert];
      (destruct (Z.eqb_spec (upper row) (upper value)) as [Hu|]; [|done]); cbn; rewrite Hu, E; cbn; rewrite <- Hr; [|done].
    rewrite bm_is_empty_iff in Eb. by rewrite Eb.
  - split; [|done]. cbn [fst]. rewrite contains_sel. destruct (Z.eqb_spec (upper row) (upper value)) as [Hu|]; [|done].
    by rewrite Hu, E, andb_false_r.
Qed.

Lemma extend_row_insert m row : extend_row m row = fst (insert_row m row).
Proof.
  unfold extend_row, insert_row. destruct (m !! upper row) as [[|b]|]; [done| |done]. by destruct (bm_insert b (lower row)).
Qed.

Lemma contains_extend_rows rows m row : contains (extend_rows m rows) row = existsb (same_row row) rows || contains m row.
Proof.
  unfold extend_rows. revert m. induction rows as [|r rows IH]; intros m; [done|]. cbn [foldl existsb].
  rewrite IH, extend_row_insert, (proj1 (contains_insert_row m r row)). by destruct (existsb _ _), (same_row row r).
Qed.

Lemma contains_empty row : contains ∅ row = false.
Proof. rewrite contains_sel. by rewrite lookup_empty. Qed.

Lemma contains_new row : contains new row = false.
Proof. apply contains_empty. Qed.

Lemma existsb_same_row row rows : u64_ok row -> Forall u64_ok rows -> existsb (same_row row) rows = bool_decide (row ∈ rows).
Proof.
  intros Hr. induction 1 as [|x rows Hx _ IH]; [done|]. cbn [existsb]. rewrite IH, same_row_eq by done.
  destruct (Z.eqb_spec row x) as [->|Hn]; cbn; [symmetry; apply bool_decide_true; left|].
  apply bool_decide_ext. rewrite elem_of_cons. naive_solver.
Qed.

Lemma contains_from_iter rows row : u64_ok row -> Forall u64_ok rows -> contains (from_iter rows) row = bool_decide (row ∈ rows).
Proof. intros Hr Hl. unfold from_iter. rewrite contains_extend_rows, contains_empty, orb_false_r. by apply existsb_same_row. Qed.

(** ** Whole fragments and unions of many sets *)

Lemma contains_insert_fragment m k row : contains (insert_fragment m k) row = (upper row =? k) || contains m row.
Proof. unfold insert_fragment. rewrite contains_insert. by destruct (_ =? _). Qed.

Lemma contains_retain m ids row : contains (retain_fragments m ids) row = bool_decide (upper row ∈ ids) && contains m row.
Proof.
  unfold retain_fragments. rewrite !contains_sel, map_lookup_filter. destruct (m !! upper row) as [s|]; [|by rewrite andb_false_r].
  cbn [mbind option_bind fst]. case_guard as Hg; pose proof Hg as Hi; rewrite elem_of_list_to_set in Hi;
    [by rewrite bool_decide_true by done|by rewrite bool_decide_false by done].
Qed.

Lemma contains_optimize m row : contains (optimize m) row = contains m row.
Proof. unfold optimize. rewrite !contains_sel, lookup_fmap. destruct (m !! upper row) as [[|b]|]; cbn; by autorewrite with roaring. Qed.

Lemma push_lookup m r k : foldl push_selection m (btree_iter r) !! k =
  match r !! k with Some w => Some (default [] (m !! k) ++ [w]) | None => m !! k end.
Proof.
  apply (foldl_pointwise push_selection (fun w o => Some (default [] o ++ [w]))); intros; unfold push_selection; cbn [fst snd];
    [by rewrite lookup_insert_eq|by rewrite lookup_insert_ne].
Qed.

Lemma push_all_lookup l m k : default [] (foldl (fun m map => foldl push_selection m (btree_iter map)) m l !! k) =
  default [] (m !! k) ++ omap (fun r => r !! k) l.
Proof.
  revert m. induction l as [|r l IH]; intros m; [by rewrite app_nil_r|]. cbn [foldl]. rewrite IH, push_lookup.
  cbn [omap list_omap]. destruct (r !! k) as [w|]; [|done]. cbn [from_option id]. by rewrite <- app_assoc.
Qed.

Lemma sel_has_union_all l v : sel_has (Some (selection_union_all l)) v = existsb (fun s => sel_has (Some s) v) l.
Proof.
  unfold selection_union_all. destruct (existsb _ l) eqn:Ef.
  - apply existsb_exists in Ef as ([|b] & Hin & Hs); [|done]. cbn. symmetry. apply existsb_exists. by exists Full.
  - cbn [sel_has]. autorewrite with roaring. induction l as [|[|b] l IH]; [done|done|]. cbn [existsb orb] in *.
    change (omap _ (Partial b :: l)) with (b :: omap (fun s => match s with Full => None | Partial b => Some b end) l).
    cbn [existsb]. by rewrite IH.
Qed.

Lemma contains_union_all l row : contains (union_all l) row = existsb (fun r => contains r row) l.
Proof.
  unfold union_all. rewrite contains_sel, lookup_fmap.
  pose proof (push_all_lookup l ∅ (upper row)) as Hp. rewrite lookup_empty in Hp. cbn [from_option id app] in Hp.
  transitivity (existsb (fun s => sel_has (Some s) (lower row)) (omap (fun r => r !! upper row) l)).
  - rewrite <- Hp. destruct (foldl _ _ _ !! upper row) as [ss|]; [apply sel_has_union_all|done].
  - clear Hp. induction l as [|r l IH]; [done|]. cbn [omap list_omap existsb]. rewrite contains_sel, <- IH.
    by destruct (r !! upper row).
Qed.

(** ** Sets without empty bitmaps *)

Definition wf (m : RowAddrTreeMap) : Prop := map_Forall (fun k s => u32_ok k /\ keep_nonempty s = true) m.

Lemma wf_insert m k s : wf m -> u32_ok k -> keep_nonempty s = true -> wf (<[k := s]> m).
Proof. intros Hm Hk Hs. by apply map_Forall_insert_2. Qed.

Lemma wf_lookup (m : RowAddrTreeMap) : wf m <-> forall k s, m !! k = Some s -> u32_ok k /\ keep_nonempty s = true.
Proof. done. Qed.

Lemma keep_member b v : bm_contains b v = true -> keep_nonempty (Partial b) = true.
Proof. intros Hv. cbn. rewrite (proj2 (bm_is_empty_false b)) by eauto. done. Qed.

Lemma keep_has s : keep_nonempty s = true -> exists v, u32_ok v /\ sel_has (Some s) v = true.
Proof.
  destruct s as [|b]; cbn; [intros _; exists 0; split; [uok; lia|done]|].
  intros [v Hv]%negb_true_iff%bm_is_empty_false. exists v. split; [by eapply bm_contains_u32|done].
Qed.

Lemma has_keep s v : sel_has (Some s) v = true -> keep_nonempty s = true.
Proof. destruct s; [done|]. apply keep_member. Qed.

(** The sets the operations build, from the empty one. *)
Inductive built : RowAddrTreeMap -> Prop :=
| built_new : built new
| built_insert m v : built m -> built (fst (insert_row m v))
| built_remove m v : built m -> built (fst (remove m v))
| built_extend m rows : built m -> built (extend_rows m rows)
| built_fragment m k : built m -> u32_ok k -> built (insert_fragment m k)
| built_bitmap m k b : built m -> u32_ok k -> bm_is_empty b = false -> built (insert_bitmap m k b)
| built_or a b : built a -> built b -> built (bitor a b)
| built_and a b : built a -> built b -> built (bitand a b)
| built_sub a b : built a -> built b ->
    (forall k s, a !! k = Some Full -> b !! k = Some (Partial s) -> bm_is_full s = false) -> built (sub a b)
| built_union l : (forall m, m ∈ l -> built m) -> built (union_all l)
| built_retain m ids : built m -> built (retain_fragments m ids)
| built_optimize m : built m -> built (optimize m).

Lemma wf_lookup_step (m m' : RowAddrTreeMap) : wf m ->
  (forall k s, m' !! k = Some s -> m !! k = Some s \/ u32_ok k /\ keep_nonempty s = true) -> wf m'.
Proof. intros Hm Hs k s Hk. destruct (Hs k s Hk) as [Hi|Hi]; [by apply Hm|done]. Qed.

Lemma wf_insert_row m v : wf m -> wf (fst (insert_row m v)).
Proof.
  intros Hm. unfold insert_row. destruct (m !! upper v) as [[|b]|] eqn:E; cbn [fst]; [done| |].
  - pose proof (bm_contains_insert b (lower v) (lower v) (lower_ok v)) as Hi. destruct (bm_insert b (lower v)) as [b' i].
    cbn [fst] in *. apply wf_insert; [done..|]. apply (keep_member _ (lower v)). by rewrite Hi, Z.eqb_refl.
  - apply wf_insert; [done..|]. apply (keep_member _ (lower v)). by rewrite bm_contains_insert, Z.eqb_refl by done.
Qed.

Lemma wf_extend_rows rows m : wf m -> wf (extend_rows m rows).
Proof.
  unfold extend_rows. revert m. induction rows as [|r rows IH]; intros m Hm; [done|]. cbn [foldl]. apply IH.
  rewrite extend_row_insert. by apply wf_insert_row.
Qed.

Lemma wf_delete (m : RowAddrTreeMap) k : wf m -> wf (delete k m).
Proof. intros Hm k' s Hk. apply lookup_delete_Some in Hk as [_ Hk]. by apply Hm. Qed.

Lemma wf_remove m v : wf m -> wf (fst (remove m v)).
Proof.
  intros Hm. unfold remove. destruct (m !! upper v) as [[|b]|] eqn:E; [| |done].
  - assert (exists w, u32_ok w /\ w <> lower v) as (w & Hw & Hne).
    { destruct (Z.eq_dec (lower v) 0) as [->|]; [exists 1|exists 0]; uok; lia. }
    pose proof (bm_contains_remove bm_full (lower v) w (lower_ok v)) as Hr.
    destruct (bm_remove bm_full (lower v)) as [b' i]. cbn [fst] in *. apply wf_insert; [done..|]. apply (keep_member _ w).
    rewrite Hr, bm_contains_full by done. by apply Z.eqb_neq in Hne as ->.
  - destruct (bm_remove b (lower v)) as [b' i]. cbn [fst]. destruct (bm_is_empty b') eqn:Eb; [by apply wf_delete|].
    apply wf_insert; [done..|]. cbn. by rewrite Eb.
Qed.

Lemma wf_bitor a b : wf a -> wf b -> wf (bitor a b).
Proof.
  intros Ha Hb. apply (wf_lookup_step a); [done|]. intros k s. rewrite bitor_lookup. destruct (b !! k) as [w|] eqn:Eb; [|by left].
  intros Hs. right. destruct (Hb _ _ Eb) as [Hk Hw]. split; [done|]. destruct (keep_has w Hw) as (v & _ & Hv).
  apply (has_keep s v). by rewrite <- Hs, sel_has_or, Hv, orb_true_r.
Qed.

Lemma wf_bitand a b : wf a -> wf (bitand a b).
Proof.
  intros Ha k s. rewrite bitand_lookup. destruct (a !! k) as [x|] eqn:Ea; [|done]. destruct (b !! k); [|done].
  case_guard as Hg; [|done]. cbn. intros [= <-]. split; [by eapply Ha|done].
Qed.

Lemma wf_sub a b : wf a -> (forall k s, a !! k = Some Full -> b !! k = Some (Partial s) -> bm_is_full s = false) -> wf (sub a b).
Proof.
  intros Ha Hf. apply (wf_lookup_step a); [done|]. intros k s. rewrite sub_lookup.
  destruct (b !! k) as [w|] eqn:Eb; [|by left]. destruct (a !! k) as [x|] eqn:Ea; [|done]. destruct (Ha _ _ Ea) as [Hk _].
  intros Hs. right. split; [done|]. destruct x as [|x], w as [|w]; cbn in Hs; simplify_eq.
  - specialize (Hf k w Ea Eb). cbn. apply negb_true_iff, not_true_is_false. rewrite bm_is_empty_iff. intros He.
    apply not_true_iff_false in Hf. apply Hf, bm_is_full_iff. intros v Hv. specialize (He v).
    autorewrite with roaring in He. rewrite bm_contains_full in He by done. by apply negb_false_iff in He.
  - destruct (bm_is_empty (bm_sub x w)) eqn:E; simplify_eq. cbn. by rewrite E.
Qed.

Lemma wf_union_all l : (forall m, m ∈ l -> wf m) -> wf (union_all l).
Proof.
  intros Hl k s. unfold union_all. rewrite lookup_fmap. pose proof (push_all_lookup l ∅ k) as Hp. rewrite lookup_empty in Hp.
  cbn [from_option id app] in Hp. destruct (foldl _ _ _ !! k) as [ss|] eqn:Ef; [|done]. cbn [from_option id] in Hp. intros [= <-].
  assert (ss <> []) as Hne.
  { revert Ef. clear. assert (forall m, (forall ss, m !! k = Some ss -> ss <> []) -> foldl (fun m map => foldl push_selection m (btree_iter map)) m l !! k = Some ss -> ss <> []) as H.
    { induction l as [|r l IH]; intros m Hm; [apply Hm|]. cbn [foldl]. apply IH. intros ss'. rewrite push_lookup.
      destruct (r !! k); [|apply Hm]. intros [= <-]. by destruct (default [] (m !! k)). }
    apply H. intros ? ?. by rewrite lookup_empty in *. }
  destruct ss as [|w ss]; [done|]. assert (w ∈ omap (fun r : RowAddrTreeMap => r !! k) l) as Hw by (rewrite <- Hp; left).
  apply list_elem_of_omap in Hw as (r & Hr & Hw). destruct (Hl r Hr k w Hw) as [Hk Hk2]. split; [done|].
  destruct (keep_has w Hk2) as (v & _ & Hv). apply (has_keep _ v). rewrite sel_has_union_all. cbn [existsb]. by rewrite Hv.
Qed.

Lemma wf_optimize m : wf m -> wf (optimize m).
Proof.
  intros Hm k s. unfold optimize. rewrite lookup_fmap. destruct (m !! k) as [x|] eqn:E; [|done]. intros [= <-].
  destruct (Hm _ _ E) as [Hk Hx]. split; [done|]. destruct x as [|b]; [done|].
  destruct (keep_has _ Hx) as (v & _ & Hv). apply (keep_member _ v). by autorewrite with roaring.
Qed.

Lemma wf_retain m ids : wf m -> wf (retain_fragments m ids).
Proof. intros Hm k s Hk. apply map_lookup_filter_Some in Hk as [Hk _]. by apply Hm. Qed.

Lemma built_wf m : built m -> wf m.
Proof.
  induction 1.
  - apply map_Forall_empty.
  - by apply wf_insert_row.
  - by apply wf_remove.
  - by apply wf_extend_rows.
  - by apply wf_insert.
  - apply wf_insert; [done..|]. cbn. by apply negb_true_iff.
  - by apply wf_bitor.
  - by apply wf_bitand.
  - by apply wf_sub.
  - by apply wf_union_all.
  - by apply wf_retain.
  - by apply wf_optimize.
Qed.

Lemma wf_is_empty m : wf m -> is_empty m = true <-> forall row, u64_ok row -> contains m row = false.
Proof.
  intros Hm. unfold is_empty. rewrite bool_decide_eq_true. split; [intros -> row _; apply contains_empty|].
  intros Ha. apply map_empty. intros k. destruct (m !! k) as [s|] eqn:E; [|done]. destruct (Hm _ _ E) as [Hk Hs].
  destruct (keep_has s Hs) as (v & Hv & Hc). destruct (row_of_parts k v Hk Hv) as (row & Hr & Hu & Hl & _).
  specialize (Ha row Hr). rewrite contains_sel, Hu, Hl, E in Ha. congruence.
Qed.

(** ** The rows as a list *)

Definition entry_addrs (p : Z * RowAddrSelection) : list Z :=
  match snd p with Full => [] | Partial b => map (new_from_parts (fst p)) (bm_iter b) end.

Definition is_partial (s : RowAddrSelection) : bool := match s with Full => false | Partial _ => true end.

(** No fragment is selected as a whole. *)
Definition all_partial (m : RowAddrTreeMap) : bool := forallb (fun p => is_partial (snd p)) (btree_iter m).

Definition addrs (m : RowAddrTreeMap) : list Z := flat_map entry_addrs (btree_iter m).

Lemma elem_of_entry p a : u32_ok (fst p) -> a ∈ entry_addrs p <->
  is_partial (snd p) = true /\ u64_ok a /\ upper a = fst p /\ sel_has (Some (snd p)) (lower a) = true.
Proof.
  destruct p as [k [|b]]; cbn; intros Hk; [rewrite elem_of_nil; naive_solver|]. rewrite list_elem_of_fmap. split.
  - intros (v & -> & Hv%bm_iter_elem). pose proof (bm_contains_u32 _ _ Hv) as Hu.
    destruct (row_of_parts k v Hk Hu) as (row & Hr & Hk' & Hv' & ->). by rewrite Hk', Hv'.
  - intros (_ & Ha & <- & Hv%bm_iter_elem). exists (lower a). split; [|done]. symmetry. by apply parts_of_address.
Qed.

Lemma entry_sorted p : u32_ok (fst p) -> ssorted (entry_addrs p).
Proof.
  destruct p as [k [|b]]; cbn; intros Hk; [constructor|]. pose proof (bm_iter_sorted b) as Hs. pose proof (bm_iter_u32 b) as Hu.
  induction Hs as [|x l _ IH Hx]; [constructor|]. apply Forall_cons in Hu as [Hxu Hu]. cbn [map]. constructor; [by apply IH|].
  apply Forall_map, Forall_forall. intros y Hy. rewrite Forall_forall in Hx, Hu. specialize (Hx y Hy). specialize (Hu y Hy).
  rewrite !new_from_parts_eq by done. lia.
Qed.

Lemma addr_upper_lt a b : u64_ok a -> u64_ok b -> upper a < upper b -> a < b.
Proof.
  intros Ha Hb Hlt. rewrite <- (parts_of_address a), <- (parts_of_address b) by done. rewrite !new_from_parts_eq by auto with lance.
  pose proof (row_offset_ok a). pose proof (row_offset_ok b). change (fragment_id a) with (upper a). change (fragment_id b) with (upper b).
  uok. lia.
Qed.

Lemma flat_entries_sorted l : ssorted (map fst l) -> Forall (fun p => u32_ok (fst p)) l -> ssorted (flat_map entry_addrs l).
Proof.
  induction l as [|p l IH]; intros Hs Hk; [constructor|]. cbn [map flat_map] in *. apply ssorted_cons_inv in Hs as [Hs Hp].
  apply Forall_cons in Hk as [Hpk Hk]. apply ssorted_app. split; [by apply entry_sorted|]. split; [by apply IH|].
  intros a b Ha Hb. apply elem_of_entry in Ha as (_ & Ha & Hau & _); [|done].
  apply list_elem_of_In, in_flat_map in Hb as (q & Hq%list_elem_of_In & Hb%list_elem_of_In).
  rewrite Forall_forall in Hk. rewrite Forall_forall in Hp. apply elem_of_entry in Hb as (_ & Hb & Hbu & _); [|by apply Hk].
  apply addr_upper_lt; [done..|]. rewrite Hau, Hbu. apply Hp. by apply list_elem_of_fmap_2.
Qed.

Lemma wf_keys m : wf m -> Forall (fun p => u32_ok (fst p)) (btree_iter m).
Proof. intros Hm. apply Forall_forall. intros [k s] Hp%btree_iter_elem. by apply (Hm k s). Qed.

Lemma all_partial_lookup m k : all_partial m = true -> m !! k <> Some Full.
Proof.
  unfold all_partial. rewrite forallb_forall. intros Ha Hk. apply btree_iter_elem, list_elem_of_In, Ha in Hk. done.
Qed.

Lemma addrs_rows m : Forall (fun p => u32_ok (fst p)) (btree_iter m) -> all_partial m = true ->
  ssorted (addrs m) /\ Forall u64_ok (addrs m) /\ forall row, u64_ok row -> row ∈ addrs m <-> contains m row = true.
Proof.
  intros Hm Hp. pose proof Hm as Hk. rewrite Forall_forall in Hk.
  assert (forall a, a ∈ addrs m <-> u64_ok a /\ contains m a = true) as Ha.
  { intros a. unfold addrs. rewrite list_elem_of_In, in_flat_map. split.
    - intros ([k s] & Hq%list_elem_of_In & Ha%list_elem_of_In). apply elem_of_entry in Ha as (_ & Ha & Hau & Hs); [|by apply (Hk (k, s))].
      apply btree_iter_elem in Hq. cbn in Hau, Hs. split; [done|]. rewrite contains_sel, Hau, Hq. done.
    - rewrite contains_sel. intros [Ha Hs]. destruct (m !! upper a) as [s|] eqn:E; [|done]. exists (upper a, s).
      split; [by apply list_elem_of_In, btree_iter_elem|]. apply list_elem_of_In, elem_of_entry; [apply upper_ok|]. cbn.
      split; [|done]. destruct s; [|done]. by destruct (all_partial_lookup m (upper a)). }
  split; [apply flat_entries_sorted; [apply btree_iter_sorted|done]|]. split; [apply Forall_forall; intros a Hin; by apply Ha|].
  intros row Hr. rewrite Ha. tauto.
Qed.

Lemma addrs_spec m : wf m -> all_partial m = true ->
  ssorted (addrs m) /\ Forall u64_ok (addrs m) /\ forall row, u64_ok row -> row ∈ addrs m <-> contains m row = true.
Proof. intros Hm. apply addrs_rows. by apply wf_keys. Qed.

Lemma omap_partial_addrs l : zlen (omap partial_addrs l) <= zlen l /\
  (zlen (omap partial_addrs l) = zlen l <-> forallb (fun p => is_partial (snd p)) l = true) /\
  concat (omap partial_addrs l) = flat_map entry_addrs l.
Proof.
  induction l as [|[k [|b]] l (IH1 & IH2 & IH3)]; [by split; [|split]|..].
  - change (omap partial_addrs ((k, Full) :: l)) with (omap partial_addrs l). cbn [forallb is_partial snd andb flat_map entry_addrs app].
    rewrite zlen_cons. split; [lia|]. split; [|done]. split; [lia|done].
  - change (omap partial_addrs ((k, Partial b) :: l)) with (map (new_from_parts k) (bm_iter b) :: omap partial_addrs l).
    cbn [forallb is_partial snd andb flat_map entry_addrs concat fst]. rewrite !zlen_cons, IH3. split; [lia|]. split; [|done].
    rewrite <- IH2. lia.
Qed.

Lemma row_addrs_eq m : row_addrs m = if all_partial m then Some (addrs m) else None.
Proof.
  unfold row_addrs. destruct (omap_partial_addrs (btree_iter m)) as (_ & Hz & Hc). rewrite <- zlen_btree_iter, Hc. unfold all_partial.
  destruct (Z.eqb_spec (zlen (omap partial_addrs (btree_iter m))) (zlen (btree_iter m))) as [E|E]; cbn [negb].
  - by rewrite (proj1 Hz E).
  - destruct (forallb _ _); [|done]. by destruct E, Hz; auto.
Qed.

Lemma sum_lens_eq l acc : 0 <= acc <= U64_MAX -> sum_lens acc l =
  if forallb (fun p => is_partial (snd p)) l then Some (wrap64 (acc + zlen (flat_map entry_addrs l))) else None.
Proof.
  revert acc. induction l as [|[k [|b]] l IH]; intros acc Ha; cbn [sum_lens forallb flat_map is_partial snd entry_addrs fst andb]; [|done|].
  - change (zlen []) with 0. rewrite Z.add_0_r, wrap64_small by (uok; lia). done.
  - rewrite IH by apply wrap64_ok. destruct (forallb _ l); [|done]. f_equal. rewrite zlen_app, zlen_map, bm_len_iter.
    unfold wrap64. rewrite Zplus_mod_idemp_l. f_equal. lia.
Qed.

Lemma len_eq m : len m = if all_partial m then Some (wrap64 (zlen (addrs m))) else None.
Proof. unfold len. rewrite sum_lens_eq by lia. done. Qed.

Lemma into_addr_iter_eq m : into_addr_iter m = if all_partial m then Ok (addrs m) else Panic.
Proof.
  unfold into_addr_iter, all_partial, addrs. induction (btree_iter m) as [|[k [|b]] l IH]; [done|done|].
  cbn [map_res addrs_of_entry snd fst forallb is_partial andb flat_map entry_addrs]. mon.
  destruct (map_res addrs_of_entry l) as [ls| |], (forallb _ l); cbn in IH; inversion IH; done.
Qed.

(** A set of fewer than 2^32 fragments has fewer than 2^64 rows. *)
Lemma zlen_addrs m : Z.of_nat (size m) <= U32_MAX -> zlen (addrs m) <= U64_MAX.
Proof.
  rewrite <- zlen_btree_iter. unfold addrs. intros Hs.
  assert (forall l, zlen (flat_map entry_addrs l) <= zlen l * U32_COUNT) as H; [|specialize (H (btree_iter m)); unfold U32_COUNT in H; lia].
  unfold U32_COUNT. induction l as [|[k s] l IH]; [done|]. cbn [flat_map]. rewrite zlen_app, zlen_cons. destruct s as [|b]; cbn [entry_addrs snd fst].
  - change (zlen []) with 0. lia.
  - rewrite zlen_map. pose proof (bm_len_le b) as Hb. unfold U32_COUNT in Hb. lia.
Qed.

(** ** Theorems *)

(** C3: the operators of [RowAddrTreeMap] are the set operations on rows: a row is in the union, the intersection, the difference,
    the union of many sets or the extension by rows exactly when the corresponding combination of memberships holds, with
    whole fragments and partial ones mixed in any way. *)
Theorem treemap_set_algebra (a b : RowAddrTreeMap) (l : list RowAddrTreeMap) (rows : list Z) (row : Z) :
  u64_ok row -> Forall u64_ok rows ->
  contains (bitor a b) row = contains a row || contains b row /\
  contains (bitor_owned a b) row = contains a row || contains b row /\
  contains (bitand a b) row = contains a row && contains b row /\
  contains (sub a b) row = contains a row && negb (contains b row) /\
  contains (union_all l) row = existsb (fun r => contains r row) l /\
  contains (extend_maps a l) row = contains a row || existsb (fun r => contains r row) l /\
  contains (extend_rows a rows) row = bool_decide (row ∈ rows) || contains a row.
Proof.
  intros Hr Hrows. rewrite <- (existsb_same_row row rows) by done.
  auto 10 using contains_bitor, contains_bitor_owned, contains_bitand, contains_sub, contains_union_all, contains_extend_maps, contains_extend_rows.
Qed.

(** Inserting, removing and selecting a whole fragment change the membership of exactly the rows concerned, and [insert] and
    [remove] report whether the set changed. *)
Theorem treemap_updates (m : RowAddrTreeMap) (value fragment row : Z) :
  u64_ok value -> u64_ok row ->
  contains (fst (insert_row m value)) row = (row =? value) || contains m row /\
  snd (insert_row m value) = negb (contains m value) /\
  contains (fst (remove m value)) row = negb (row =? value) && contains m row /\
  snd (remove m value) = contains m value /\
  contains (insert_fragment m fragment) row = (upper row =? fragment) || contains m row.
Proof.
  intros Hv Hr. pose proof (contains_insert_row m value row) as [Hi Hib]. pose proof (contains_remove m value row) as [Hd Hdb].
  rewrite same_row_eq in Hi, Hd by done. rewrite contains_insert_fragment. done.
Qed.

(** A set built by the operations stores no empty bitmap, so it has no entry exactly when it has no row: [is_empty] is exact. *)
Theorem treemap_is_empty (m : RowAddrTreeMap) : built m ->
  map_Forall (fun _ s => keep_nonempty s = true) m /\
  (is_empty m = true <-> forall row, u64_ok row -> contains m row = false).
Proof.
  intros Hb%built_wf. split; [|by apply wf_is_empty]. intros k s Hk. by destruct (Hb k s Hk).
Qed.

(** The row count, the list of addresses and the membership test agree.  With no whole fragment selected, [row_addrs] and
    [into_addr_iter] list each row once in increasing order and [len] is their number; with one selected, [row_addrs]
    and [len] are unknown and [into_addr_iter] panics. *)
Theorem treemap_rows (m : RowAddrTreeMap) : built m ->
  (exists l, row_addrs m = Some l /\ into_addr_iter m = Ok l /\ len m = Some (wrap64 (zlen l)) /\ ssorted l /\
     forall row, u64_ok row -> row ∈ l <-> contains m row = true) \/
  (exists k, m !! k = Some Full) /\ row_addrs m = None /\ into_addr_iter m = Panic /\ len m = None.
Proof.
  intros Hb%built_wf. rewrite row_addrs_eq, into_addr_iter_eq, len_eq. destruct (all_partial m) eqn:Ep.
  - left. destruct (addrs_spec m Hb Ep) as (Hs & _ & He). by exists (addrs m).
  - right. split; [|done]. apply forallb_false in Ep as ([k s] & Hk%btree_iter_elem & Hs). exists k. by destruct s.
Qed.

End Algebra.

(** ** Examples *)

Module TreeMapExamples.

#[local] Existing Instances CofiniteRoaring CofiniteRoaring_laws.

(** Rows of fragments 0 and 1, and all of fragment 2. *)
Definition some_rows : RowAddrTreeMap := from_iter [1; 5; 4294967300].
Definition mixed : RowAddrTreeMap := insert_fragment some_rows 2.

Lemma some_rows_built : built some_rows.
Proof. apply built_extend, built_new. Defined.

Lemma mixed_built : built mixed.
Proof. apply built_fragment; [apply some_rows_built|uok; lia]. Defined.

Lemma treemap_set_algebra_witness :
  contains (bitand mixed some_rows) 5 = true /\ contains (sub mixed some_rows) 8589934595 = true /\
  contains (union_all [some_rows; mixed]) 8589934595 = true.
Proof.
  assert (u64_ok 5 /\ u64_ok 8589934595) as [H5 H8] by (uok; lia).
  destruct (treemap_set_algebra mixed some_rows [some_rows; mixed] [9] 5) as (_ & _ & Ha & _); [done|repeat constructor; uok; lia|].
  destruct (treemap_set_algebra mixed some_rows [some_rows; mixed] [9] 8589934595) as (_ & _ & _ & Hs & Hu & _);
    [done|repeat constructor; uok; lia|].
  rewrite Ha, Hs, Hu. vm_compute. done.
Defined.

Lemma treemap_updates_witness :
  contains (fst (insert_row mixed 9)) 9 = true /\ snd (insert_row mixed 5) = false /\
  contains (fst (remove mixed 8589934595)) 8589934595 = false /\ snd (remove mixed 8589934595) = true.
Proof.
  assert (u64_ok 5 /\ u64_ok 9 /\ u64_ok 8589934595) as (H5 & H9 & H8) by (uok; lia).
  destruct (treemap_updates mixed 9 2 9 H9 H9) as (Hi & _).
  destruct (treemap_updates mixed 5 2 5 H5 H5) as (_ & Hb & _).
  destruct (treemap_updates mixed 8589934595 2 8589934595 H8 H8) as (_ & _ & Hr & Hrb & _).
  rewrite Hi, Hb, Hr, Hrb. vm_compute. done.
Defined.

Lemma treemap_is_empty_witness : is_empty (fst (remove (from_iter [7]) 7)) = true.
Proof.
  apply (treemap_is_empty (fst (remove (from_iter [7]) 7))); [apply built_remove, built_extend, built_new|].
  intros row Hr. assert (u64_ok 7) as H7 by (uok; lia). rewrite (proj1 (contains_remove _ _ _)), same_row_eq by done.
  rewrite contains_from_iter by (done || by repeat constructor). destruct (Z.eqb_spec row 7) as [->|Hn]; [done|].
  apply bool_decide_false. by rewrite list_elem_of_singleton.
Defined.

Lemma treemap_rows_witness : len some_rows = Some 3 /\ into_addr_iter mixed = Panic.
Proof.
  destruct (treemap_rows some_rows some_rows_built) as [(l & Hl & _ & Hn & _)|((k & Hk) & Hl & _)]; [|by vm_compute in Hl].
  destruct (treemap_rows mixed mixed_built) as [(l' & Hl' & _)|(_ & _ & Hp & _)]; [by vm_compute in Hl'|].
  split; [|done]. rewrite Hn. vm_compute in Hl. injection Hl as <-. done.
Defined.

(** Taking every row of a whole fragment away one bitmap at a time leaves an entry with an empty bitmap: the set has no rows, but
    [is_empty] is false. *)
Lemma sub_full_leaves_entry :
  let m := sub (insert_fragment new 2) (insert_bitmap new 2 bm_full) in
  is_empty m = false /\ forall row, contains m row = false.
Proof.
  split; [vm_compute; done|]. intros row. rewrite contains_sub. unfold insert_bitmap, insert_fragment. rewrite !contains_insert.
  destruct (upper row =? 2); [|done]. cbn [sel_has]. by rewrite bm_contains_full by apply lower_ok.
Qed.

End TreeMapExamples.
