(* ===== verification/TreeMapBuild.v ===== *)
(** * Building row address sets from sorted rows and ranges

    [from_sorted_iter], [from_sorted_runs] and [insert_range] of
    [RowAddrTreeMap] fill a fragment at a time.  On sorted input the result
    has exactly the rows given; the inputs on which a fragment group is out
    of order are rejected; ranges add exactly their rows when they end below the
    last fragment. *)

From Stdlib Require Import ZArith Lia.
From stdpp Require Import base option list numbers sorting sets gmap.
From S2P Require Import Prelude Lists Bits RowAddress Itertools Roaring TreeMap TreeMapAlgebra.

(** ** Groups of one fragment *)

(** The rows of a sorted list after its first group lie in later fragments. *)
Lemma upper_mono a b : u64_ok a -> u64_ok b -> a <= b -> upper a <= upper b.
Proof. intros Ha Hb Hle. destruct (Z.le_gt_cases (upper a) (upper b)); [done|]. apply addr_upper_lt in H; [lia|done..]. Qed.

Lemma lower_mono a b : u64_ok a -> u64_ok b -> upper a = upper b -> a < b <-> lower a < lower b.
Proof.
  intros Ha Hb Hu. rewrite <- (parts_of_address a) at 1 by done. rewrite <- (parts_of_address b) at 1 by done.
  rewrite !new_from_parts_eq by auto with lance. change (fragment_id a) with (upper a). change (fragment_id b) with (upper b).
  change (row_offset a) with (lower a). change (row_offset b) with (lower b). lia.
Qed.

(** A group: rows of one fragment, followed by rows of later ones. *)
Record group (fragment : Z) (g rest : list Z) : Prop := {
  group_upper : Forall (fun r => upper r = fragment) g;
  group_later : Forall (fun r => fragment < upper r) rest
}.

(** The longest prefix of rows of the fragment of the first. *)
Definition first_group (row : Z) (l g rest : list Z) : Prop :=
  row :: l = g ++ rest /\ Forall (fun r => (upper r =? upper row) = true) g /\ match rest with [] => True | x :: _ => (upper x =? upper row) = false end.

Lemma take_group row l g rest : StronglySorted Z.le (row :: l) -> Forall u64_ok (row :: l) ->
  first_group row l g rest -> row :: l = g ++ rest /\ g <> [] /\ group (upper row) g rest.
Proof.
  intros Hs Hu (He & Hg & Hr). split; [done|].
  assert (g <> []) as Hne.
  { intros ->. cbn [app] in He. subst rest. by rewrite Z.eqb_refl in Hr. }
  split; [done|]. split; [eapply Forall_impl; [exact Hg|]; intros r Hr'; by apply Z.eqb_eq in Hr'|].
  destruct rest as [|y rest]; [constructor|]. apply Z.eqb_neq in Hr.
  assert (Forall (Z.le row) (y :: rest)) as Hge.
  { destruct g as [|x g]; [done|]. injection He as <- ->. apply StronglySorted_inv in Hs as [_ Hs]. by apply Forall_app in Hs as [_ Hs]. }
  rewrite He in Hu. apply Forall_app in Hu as [Hug Hu].
  assert (u64_ok row) as Hrow by (destruct g; [done|]; injection He as <- ->; by inversion Hug).
  rewrite He in Hs. apply StronglySorted_app_1_r in Hs. apply StronglySorted_inv in Hs as [_ Hy].
  apply Forall_cons in Hu as [Huy Hu]. apply Forall_cons in Hge as [Hgy _]. pose proof (upper_mono row y Hrow Huy Hgy) as Hle.
  constructor; [lia|]. rewrite Forall_forall in Hy, Hu |- *. intros z Hz. specialize (Hy z Hz). pose proof (upper_mono y z Huy (Hu z Hz) Hy). lia.
Qed.

Lemma elem_of_lowers g fragment row : u64_ok row -> Forall u64_ok g -> Forall (fun r => upper r = fragment) g -> upper row = fragment ->
  lower row ∈ map lower g <-> row ∈ g.
Proof.
  intros Hr Hg Hu He. rewrite list_elem_of_fmap. rewrite Forall_forall in Hg, Hu. split; [|by eauto].
  intros (r & Hl & Hin). rewrite (upper_lower_eq row r); [done|done|by apply Hg|by rewrite He, (Hu r)|done].
Qed.

Lemma lowers_sorted g fragment : StronglySorted Z.le g -> Forall u64_ok g -> Forall (fun r => upper r = fragment) g ->
  StronglySorted Z.le (map lower g).
Proof.
  induction 1 as [|x l Hl IH Hx]; intros Hu Hf; [constructor|]. apply Forall_cons in Hu as [Hux Hu]. apply Forall_cons in Hf as [Hfx Hf].
  cbn [map]. constructor; [by apply IH|]. apply Forall_map. rewrite !Forall_forall in *. intros y Hy. specialize (Hx y Hy).
  destruct (Z.eq_dec x y) as [->|]; [lia|]. pose proof (lower_mono x y Hux (Hu y Hy)) as Hm. rewrite Hfx, (Hf y Hy) in Hm. lia.
Qed.

Lemma lowers_ssorted g fragment : ssorted g -> Forall u64_ok g -> Forall (fun r => upper r = fragment) g -> ssorted (map lower g).
Proof.
  induction 1 as [|x l Hl IH Hx]; intros Hu Hf; [constructor|]. apply Forall_cons in Hu as [Hux Hu]. apply Forall_cons in Hf as [Hfx Hf].
  cbn [map]. constructor; [by apply IH|]. apply Forall_map. rewrite !Forall_forall in *. intros y Hy. specialize (Hx y Hy).
  pose proof (lower_mono x y Hux (Hu y Hy)) as Hm. rewrite Hfx, (Hf y Hy) in Hm. by apply Hm.
Qed.

Lemma lowers_u32 g : Forall u32_ok (map lower g).
Proof. apply Forall_map, Forall_forall. intros; apply lower_ok. Qed.

(** ** [from_sorted_iter] *)

Section Build.
Context {IT : Itertools} {IL : ItertoolsLaws IT} {RB : Roaring} {RL : RoaringLaws RB}.

(** A bitmap with the offsets of a group holds the rows of the group. *)
Lemma contains_group (inner : RowAddrTreeMap) fragment g b row : u64_ok row -> Forall u64_ok g -> Forall (fun r => upper r = fragment) g ->
  inner !! fragment = None -> (forall v, bm_contains b v = bool_decide (v ∈ map lower g)) ->
  contains (<[fragment := Partial b]> inner) row = bool_decide (row ∈ g) || contains inner row.
Proof.
  intros Hr Hg Hu Hi Hb. rewrite contains_insert. destruct (Z.eqb_spec (upper row) fragment) as [He|Hne].
  - cbn [sel_has]. rewrite Hb, (contains_sel inner), He, Hi, orb_false_r. apply bool_decide_ext. by eapply elem_of_lowers.
  - rewrite bool_decide_false; [done|]. intros Hin. rewrite Forall_forall in Hu. by apply Hne, Hu.
Qed.

Lemma bool_decide_app (row : Z) g rest : bool_decide (row ∈ g ++ rest) = bool_decide (row ∈ rest) || bool_decide (row ∈ g).
Proof. rewrite <- bool_decide_or. apply bool_decide_ext. rewrite elem_of_app. tauto. Qed.

Lemma partial_nonempty b l : l <> [] -> (forall v, bm_contains b v = bool_decide (v ∈ l)) -> keep_nonempty (Partial b) = true.
Proof. intros Hl Hb. destruct l as [|v l]; [done|]. apply (keep_member _ v). rewrite Hb. apply bool_decide_true. left. Qed.

Lemma from_sorted_loop_ok fuel rows inner : (length rows <= fuel)%nat -> ssorted rows -> Forall u64_ok rows -> wf inner ->
  Forall (fun row => inner !! upper row = None) rows ->
  exists m, from_sorted_loop fuel rows inner = Ok m /\ wf m /\
    forall row, u64_ok row -> contains m row = bool_decide (row ∈ rows) || contains inner row.
Proof.
  revert rows inner. induction fuel as [|fuel IH]; intros rows inner Hf Hs Hu Hw Hn; (destruct rows as [|row rows]; [by exists inner|]); [cbn in Hf; lia|].
  cbn [from_sorted_loop]. destruct (peeking_take_while _ _) as [g rest] eqn:Et. apply peeking_take_while_spec in Et.
  destruct (take_group row rows g rest (ssorted_le _ Hs) Hu Et) as (He & Hne & [Hgu Hgl]). rewrite He in Hs, Hu |- *.
  apply ssorted_app in Hs as (Hsg & Hsr & _). apply Forall_app in Hu as [Hug Hur].
  destruct (bm_from_sorted_iter_ok (map lower g)) as (b & -> & Hb); [by eapply lowers_ssorted|apply lowers_u32|].
  assert (inner !! upper row = None) as Hin by (by apply Forall_inv in Hn).
  assert (forall v, bm_contains b v = bool_decide (v ∈ map lower g)) as Hbm by (intros v; by apply bm_contains_of_iter).
  destruct (IH rest (<[upper row := Partial b]> inner)) as (m & Hm & Hwm & Hc); [| |done|..].
  - assert (length (row :: rows) = length (g ++ rest)) as Hlen by (by rewrite He). rewrite length_app in Hlen. cbn in Hlen, Hf.
    destruct g; [done|]. cbn in Hlen. lia.
  - done.
  - apply wf_insert; [done|apply upper_ok|]. eapply partial_nonempty; [|exact Hbm]. by destruct g.
  - rewrite He in Hn. apply Forall_app in Hn as [_ Hn]. rewrite Forall_forall in Hn, Hgl |- *. intros r Hr.
    rewrite lookup_insert_ne; [by apply Hn|]. specialize (Hgl r Hr). lia.
  - exists m. split; [done|]. split; [done|]. intros r Hr. rewrite Hc by done.
    rewrite (contains_group inner (upper row) g b r), bool_decide_app, orb_assoc by done. done.
Qed.

Lemma from_sorted_iter_ok rows : ssorted rows -> Forall u64_ok rows ->
  exists m, from_sorted_iter rows = Ok m /\ wf m /\ forall row, u64_ok row -> contains m row = bool_decide (row ∈ rows).
Proof.
  intros Hs Hu. destruct (from_sorted_loop_ok (length rows) rows ∅) as (m & Hm & Hw & Hc); [done..|apply map_Forall_empty| |].
  - apply Forall_forall. intros r _. apply lookup_empty.
  - exists m. split; [done|]. split; [done|]. intros r Hr. rewrite Hc by done. by rewrite contains_empty, orb_false_r.
Qed.

(** Neighbours of one fragment are in increasing order. *)
Definition pair_ok (p : Z * Z) : bool := negb (upper (fst p) =? upper (snd p)) || (lower (fst p) <? lower (snd p)).
Definition groups_ok (rows : list Z) : bool := forallb pair_ok (windows2 rows).

Lemma groups_ok_cons x y l : groups_ok (x :: y :: l) = pair_ok (x, y) && groups_ok (y :: l).
Proof. done. Qed.

Lemma sortedb_cons x y l : sortedb (x :: y :: l) = (x <? y) && sortedb (y :: l).
Proof. done. Qed.

Lemma groups_ok_split fragment g rest : Forall (fun r => upper r = fragment) g ->
  match rest with [] => True | x :: _ => (upper x =? fragment) = false end ->
  groups_ok (g ++ rest) = sortedb (map lower g) && groups_ok rest.
Proof.
  intros Hg Hr. induction g as [|x g IH]; [done|]. apply Forall_cons in Hg as [Hx Hg]. specialize (IH Hg).
  destruct g as [|y g].
  - destruct rest as [|y rest]; [done|]. cbn [app]. rewrite groups_ok_cons. unfold pair_ok at 1. cbn [fst snd]. rewrite Hx, Z.eqb_sym, Hr. done.
  - cbn [app map] in *. rewrite groups_ok_cons, sortedb_cons, IH. unfold pair_ok. cbn [fst snd]. apply Forall_cons in Hg as [Hy _].
    rewrite Hx, Hy, Z.eqb_refl. cbn [negb orb]. by rewrite andb_assoc.
Qed.

Lemma from_sorted_loop_result fuel rows inner : (length rows <= fuel)%nat ->
  if groups_ok rows then exists m, from_sorted_loop fuel rows inner = Ok m else from_sorted_loop fuel rows inner = Err Internal.
Proof.
  revert rows inner. induction fuel as [|fuel IH]; intros rows inner Hf; (destruct rows as [|row rows]; [by exists inner|]); [cbn in Hf; lia|].
  cbn [from_sorted_loop]. destruct (peeking_take_while _ _) as [g rest] eqn:Et. apply peeking_take_while_spec in Et as (He & Hg & Hr).
  assert (g <> []) as Hne. { intros ->. cbn [app] in He. subst rest. by rewrite Z.eqb_refl in Hr. }
  rewrite He. rewrite (groups_ok_split (upper row)); [|eapply Forall_impl; [exact Hg|]; intros r Hx; by apply Z.eqb_eq in Hx|done].
  destruct (sortedb (map lower g)) eqn:Es; cbn [andb].
  - apply sortedb_spec in Es. destruct (bm_from_sorted_iter_ok (map lower g)) as (b & -> & _); [done|apply lowers_u32|]. apply IH.
    assert (length (row :: rows) = length (g ++ rest)) as Hlen by (by rewrite He). rewrite length_app in Hlen. cbn in Hlen, Hf.
    destruct g; [done|]. cbn in Hlen. lia.
  - rewrite bm_from_sorted_iter_err; [done|apply lowers_u32|]. rewrite <- sortedb_spec. by rewrite Es.
Qed.

(** ** [from_sorted_runs] *)

Lemma split_at_position (f : Z -> bool) l :
  let e := default (zlen l) (iter_position (fun x => negb (f x)) l) in
  l = ztake e l ++ zskip e l /\ Forall (fun x => f x = true) (ztake e l) /\ match zskip e l with [] => True | x :: _ => f x = false end.
Proof.
  assert (exists n : nat, default (zlen l) (iter_position (fun x => negb (f x)) l) = Z.of_nat n /\
    Forall (fun x => f x = true) (take n l) /\ match drop n l with [] => True | x :: _ => f x = false end) as (n & -> & Ht).
  { induction l as [|x l (n & Hn & Hf & IH)]; [exists 0%nat; by split; [|split; [constructor|]]|]. cbn [iter_position].
    destruct (f x) eqn:E; cbn [negb]; [|exists 0%nat; by split; [|split; [constructor|]]].
    exists (S n). split; [destruct (iter_position _ l); cbn in *; unfold zlen in *; cbn in *; lia|]. split; [by constructor|done]. }
  cbv zeta. unfold ztake, zskip. rewrite Nat2Z.id, take_drop. done.
Qed.

Definition bucket_ok (p : list Z * bool) : Prop :=
  fst p <> [] /\ Forall u32_ok (fst p) /\ (snd p = true -> StronglySorted Z.le (fst p)).

Definition buckets_ok (bs : gmap Z (list Z * bool)) : Prop := map_Forall (fun k p => u32_ok k /\ bucket_ok p) bs.

Definition bucket_has (bs : gmap Z (list Z * bool)) (row : Z) : bool :=
  match bs !! upper row with None => false | Some (offsets, _) => bool_decide (lower row ∈ offsets) end.

(** A segment keeps the bucket in order unless the flag is cleared. *)
Lemma sorted_extend offsets first (segment : list Z) :
  StronglySorted Z.le offsets -> StronglySorted Z.le (first :: segment) ->
  match list.last offsets with Some last => last >? first | None => false end = false -> StronglySorted Z.le (offsets ++ first :: segment).
Proof.
  intros Ho Hs Hl. apply StronglySorted_app_2; [|done..]. intros x y Hx Hy.
  assert (first <= y) by (apply StronglySorted_inv in Hs as [_ Hs]; rewrite Forall_forall in Hs; apply elem_of_cons in Hy as [->|Hy]; [lia|auto]).
  destruct (list.last offsets) as [z|] eqn:El; [|by apply last_None in El as ->; apply elem_of_nil in Hx].
  rewrite Z.gtb_ltb in Hl. apply Z.ltb_ge in Hl. apply last_split in El. rewrite El in Ho, Hx.
  apply elem_of_app in Hx as [Hx|Hx%list_elem_of_singleton]; [|lia].
  pose proof (StronglySorted_app_1_elem_of _ _ _ x z Ho Hx ltac:(left)). lia.
Qed.

Lemma bucket_add_ok bs first segment : buckets_ok bs -> StronglySorted Z.le (first :: segment) -> Forall u64_ok (first :: segment) ->
  Forall (fun r => upper r = upper first) (first :: segment) ->
  let bs' := bucket_add bs (upper first) first (first :: segment) in
  buckets_ok bs' /\ forall row, u64_ok row -> bucket_has bs' row = bool_decide (row ∈ first :: segment) || bucket_has bs row.
Proof.
  intros Hb Hs Hu Hf. unfold bucket_add. destruct (default ([], true) (bs !! upper first)) as [offsets sorted] eqn:Ed.
  assert (Forall u32_ok offsets /\ (sorted = true -> StronglySorted Z.le offsets)) as [Hou Hos].
  { destruct (bs !! upper first) as [p|] eqn:E; cbn in Ed; subst.
    - destruct (Hb _ _ E) as (_ & _ & H1 & H2). done.
    - injection Ed as <- <-. split; [constructor|intros _; constructor]. }
  pose proof (lowers_sorted _ _ Hs Hu Hf) as Hsl. split.
  - apply map_Forall_insert_2; [|done]. split; [apply upper_ok|]. split; [by destruct offsets|]. cbn [fst snd]. split.
    + apply Forall_app. split; [done|]. apply lowers_u32.
    + destruct sorted; cbn [andb]; [|done]. destruct (list.last offsets) as [z|] eqn:El; cbn; intros Hz.
      * destruct (z >? lower first) eqn:Ez; [done|]. apply sorted_extend; [by apply Hos|done|]. by rewrite El.
      * apply sorted_extend; [by apply Hos|done|]. by rewrite El.
  - intros row Hr. unfold bucket_has. destruct (Z.eq_dec (upper row) (upper first)) as [He|Hne].
    + rewrite He, lookup_insert_eq. rewrite <- (bool_decide_ext _ _ (elem_of_lowers _ _ row Hr Hu Hf He)).
      assert (match bs !! upper first with None => false | Some (o, _) => bool_decide (lower row ∈ o) end = bool_decide (lower row ∈ offsets)) as ->.
      { destruct (bs !! upper first) as [[o x]|]; cbn in Ed; by injection Ed as <- <-. }
      rewrite <- bool_decide_or. apply bool_decide_ext. rewrite elem_of_app. tauto.
    + rewrite lookup_insert_ne by done. rewrite (bool_decide_false (row ∈ _)); [done|]. intros Hin. rewrite Forall_forall in Hf. by apply Hne, Hf.
Qed.

Lemma bucket_run_ok fuel run bs : (length run <= fuel)%nat -> buckets_ok bs -> StronglySorted Z.le run -> Forall u64_ok run ->
  exists bs', bucket_run fuel run bs = Ok bs' /\ buckets_ok bs' /\
    forall row, u64_ok row -> bucket_has bs' row = bool_decide (row ∈ run) || bucket_has bs row.
Proof.
  revert run bs. induction fuel as [|fuel IH]; intros run bs Hf Hb Hs Hu; (destruct run as [|row rows]; [by exists bs|]); [cbn in Hf; lia|].
  cbn [bucket_run]. pose proof (split_at_position (fun r => upper r =? upper row) (row :: rows)) as Ht. cbv zeta in Ht.
  remember (default _ _) as e eqn:Ee. clear Ee.
  destruct (take_group row rows _ _ Hs Hu Ht) as (He & Hne & [Hgu _]).
  remember (ztake e (row :: rows)) as g eqn:Eg. remember (zskip e (row :: rows)) as rest eqn:Er. clear Eg Er Ht e.
  destruct g as [|x g]; [done|]. injection He as <- ->. rewrite app_comm_cons in Hs, Hu |- *.
  apply Forall_app in Hu as [Hug Hur].
  destruct (bucket_add_ok bs row g Hb (StronglySorted_app_1_l _ _ _ Hs) Hug Hgu) as [Hb' Hh].
  destruct (IH rest _ ltac:(cbn in Hf; rewrite length_app in Hf; lia) Hb' (StronglySorted_app_1_r _ _ _ Hs) Hur) as (bs' & Hbs & Hok & Hc).
  exists bs'. split; [done|]. split; [done|]. intros r Hr. by rewrite Hc, Hh, bool_decide_app, orb_assoc.
Qed.

Lemma bucket_runs_ok runs bs : buckets_ok bs -> Forall (StronglySorted Z.le) runs -> Forall (Forall u64_ok) runs ->
  exists bs', bucket_runs runs bs = Ok bs' /\ buckets_ok bs' /\
    forall row, u64_ok row -> bucket_has bs' row = bool_decide (row ∈ concat runs) || bucket_has bs row.
Proof.
  intros Hb Hs Hu. revert bs Hb. induction runs as [|run runs IH]; intros bs Hb; [by exists bs|].
  apply Forall_cons in Hs as [Hs Hss]. apply Forall_cons in Hu as [Hu Huu]. cbn [bucket_runs].
  destruct (bucket_run_ok (length run) run bs) as (bs1 & -> & Hb1 & Hh1); [done..|]. mon.
  destruct (IH Hss Huu bs1 Hb1) as (bs2 & -> & Hb2 & Hh2). exists bs2. split; [done|]. split; [done|].
  intros row Hr. cbn [concat]. by rewrite Hh2, Hh1, bool_decide_app, orb_assoc.
Qed.

Lemma bucket_selection_ok k p : bucket_ok p -> exists b, bucket_selection (k, p) = Ok (k, Partial b) /\
  forall v, bm_contains b v = bool_decide (v ∈ fst p).
Proof.
  destruct p as [offsets sorted]. intros (_ & Hu & Hs). cbn [fst snd] in *. unfold bucket_selection.
  set (l := if negb sorted then sort_unstable offsets else offsets).
  assert (StronglySorted Z.le l /\ forall v, v ∈ l <-> v ∈ offsets) as [Hsl Hel].
  { subst l. destruct sorted; cbn [negb]; [by split; [apply Hs|]|]. split; [apply sort_unstable_le|]. intros v. by rewrite sort_unstable_perm. }
  destruct (bm_from_sorted_iter_ok (dedup l)) as (b & -> & Hb).
  - by apply dedup_sorted.
  - apply Forall_forall. intros v Hv. rewrite dedup_elem, Hel in Hv. rewrite Forall_forall in Hu. by apply Hu.
  - exists b. split; [done|]. intros v. rewrite (bm_contains_of_iter b _ v Hb). apply bool_decide_ext. by rewrite dedup_elem, Hel.
Qed.

(** Building an entry per key gives a map with those entries. *)
Lemma map_res_entries {V W} (f : Z * V -> res (Z * W)) (R : V -> W -> Prop) (bs : gmap Z V) :
  (forall k v, bs !! k = Some v -> exists w, f (k, v) = Ok (k, w) /\ R v w) ->
  exists es, map_res f (btree_iter bs) = Ok es /\
    forall k, match bs !! k with
              | Some v => exists w, (list_to_map es : gmap Z W) !! k = Some w /\ R v w
              | None => (list_to_map es : gmap Z W) !! k = None
              end.
Proof.
  intros Hf. assert (forall p, p ∈ btree_iter bs -> exists w, f p = Ok (fst p, w) /\ R (snd p) w) as Hf'.
  { intros [k v] Hp%btree_iter_elem. by apply Hf. }
  assert (exists es, map_res f (btree_iter bs) = Ok es /\ Forall2 (fun p e => fst e = fst p /\ R (snd p) (snd e)) (btree_iter bs) es) as (es & He & H2).
  { induction (btree_iter bs) as [|p l IH]; [by exists []|]. destruct (Hf' p) as (w & Hw & HR); [left|].
    destruct IH as (es & He & H2); [intros q Hq; apply Hf'; by right|]. exists ((fst p, w) :: es). cbn [map_res]. rewrite Hw. mon. rewrite He. mon.
    split; [done|]. by constructor. }
  assert (map fst es = map fst (btree_iter bs)) as Hfst. { clear - H2. induction H2 as [|p e l es [Hk _] _ IH]; [done|]. cbn. by rewrite Hk, IH. }
  assert (NoDup es.*1) as Hnd by (change es.*1 with (map fst es); rewrite Hfst; apply btree_iter_NoDup).
  exists es. split; [done|]. intros k. destruct (bs !! k) as [v|] eqn:Ek.
  - apply btree_iter_elem, list_elem_of_lookup in Ek as [i Hi]. destruct (Forall2_lookup_l _ _ _ _ _ H2 Hi) as ([k' w] & Hw & Hk & HR).
    cbn in Hk, HR. subst k'. exists w. split; [|done]. apply elem_of_list_to_map_1; [done|]. by eapply list_elem_of_lookup_2.
  - apply not_elem_of_list_to_map_1. change es.*1 with (map fst es). rewrite Hfst. intros ([k' v] & -> & Hv)%list_elem_of_fmap.
    apply btree_iter_elem in Hv. cbn in Ek. congruence.
Qed.

Lemma from_sorted_runs_ok runs : Forall (StronglySorted Z.le) runs -> Forall (Forall u64_ok) runs ->
  exists m, from_sorted_runs runs = Ok m /\ wf m /\ forall row, u64_ok row -> contains m row = bool_decide (row ∈ concat runs).
Proof.
  intros Hs Hu. unfold from_sorted_runs. destruct (bucket_runs_ok runs ∅) as (bs & -> & Hb & Hh); [apply map_Forall_empty|done..|]. mon.
  destruct (map_res_entries bucket_selection
    (fun p w => exists b, w = Partial b /\ forall v, bm_contains b v = bool_decide (v ∈ fst p)) bs) as (es & -> & He).
  { intros k p Hk. destruct (bucket_selection_ok k p) as (b & Hbs & Hc); [by apply (Hb k p)|]. eauto. }
  mon. exists (list_to_map es). split; [done|]. split.
  - intros k s Hk. specialize (He k). destruct (bs !! k) as [p|] eqn:Ep; [|congruence]. destruct He as (w & Hw & b & -> & Hc).
    destruct (Hb _ _ Ep) as (Hku & Hne & _). rewrite Hk in Hw. injection Hw as ->. split; [done|]. by eapply partial_nonempty.
  - intros row Hr. specialize (Hh row Hr). unfold bucket_has in Hh at 2. rewrite lookup_empty, orb_false_r in Hh. rewrite <- Hh. unfold bucket_has.
    rewrite contains_sel. specialize (He (upper row)). destruct (bs !! upper row) as [[o x]|]; [|by rewrite He].
    destruct He as (w & -> & b & -> & Hc). cbn [sel_has]. by rewrite Hc.
Qed.

(** ** [insert_range] *)

(** The address of the row at an offset. *)
Definition addr (fragment offset : Z) : Z := fragment * 4294967296 + offset.

Lemma addr_parts k v : u32_ok k -> u32_ok v -> upper (addr k v) = k /\ lower (addr k v) = v /\ u64_ok (addr k v).
Proof.
  intros Hk Hv. unfold addr. rewrite <- new_from_parts_eq by done. destruct (row_of_parts k v Hk Hv) as (r & Hr & Hu & Hl & ->). done.
Qed.

Lemma addr_eq row : u64_ok row -> row = addr (upper row) (lower row).
Proof.
  intros Hr. unfold addr. rewrite <- new_from_parts_eq by (apply upper_ok || apply lower_ok). symmetry. by apply parts_of_address.
Qed.

(** The rows not yet in the set. *)
Definition new_rows (m : RowAddrTreeMap) (s e : Z) : Z := zlen (List.filter (fun r => negb (contains m r)) (range_list (s ..< e))).

Lemma range_list_offset k a b : range_list (k + a ..< k + b) = map (Z.add k) (range_list (a ..< b)).
Proof.
  unfold range_list. cbn [start end_]. replace (k + b - (k + a)) with (b - a) by lia. rewrite <- fmap_add_seqZ. done.
Qed.

Lemma new_rows_fragment m k a b : u32_ok k -> u32_ok a -> u32_ok b ->
  new_rows m (addr k a) (addr k b + 1) = zlen (List.filter (fun v => negb (sel_has (m !! k) v)) (range_list (a ..< b + 1))).
Proof.
  intros Hk Ha Hb. unfold new_rows, addr. replace (k * 4294967296 + b + 1) with (k * 4294967296 + (b + 1)) by lia.
  rewrite range_list_offset, filter_map_length. f_equal. apply filter_ext_Forall, Forall_forall.
  intros v Hv%elem_of_range_list. cbn in Hv. destruct (addr_parts k v) as (Hu & Hl & _); [done|uok; lia|].
  unfold addr in *. by rewrite contains_sel, Hu, Hl.
Qed.

Lemma in_fragment_range k a b row : u32_ok k -> u32_ok a -> u32_ok b -> u64_ok row ->
  ((addr k a <=? row) && (row <=? addr k b)) = (upper row =? k) && ((a <=? lower row) && (lower row <=? b)).
Proof.
  intros Hk Ha Hb Hr. rewrite (addr_eq row Hr) at 1 2. pose proof (upper_ok row) as Hu. pose proof (lower_ok row) as Hl. uok. unfold addr.
  destruct (Z.eqb_spec (upper row) k) as [->|Hn]; cbn [andb].
  - f_equal; apply Bool.eq_true_iff_eq; rewrite !Z.leb_le; lia.
  - apply andb_false_iff. rewrite !Z.leb_gt. lia.
Qed.

Lemma insert_range_fragment_ok m k a b count : u32_ok k -> u32_ok a -> u32_ok b -> u64_ok count ->
  let '(m', count') := insert_range_fragment m k a b count in
  count' = wrap64 (count + new_rows m (addr k a) (addr k b + 1)) /\
  forall row, u64_ok row -> contains m' row = ((addr k a <=? row) && (row <=? addr k b)) || contains m row.
Proof.
  intros Hk Ha Hb Hc. rewrite new_rows_fragment by done.
  assert (forall s, m !! k = s -> s <> Some Full ->
    let '(set, n) := bm_insert_range (match s with Some (Partial set) => set | _ => bm_new end) a b in
    count +w n = wrap64 (count + zlen (List.filter (fun v => negb (sel_has s v)) (range_list (a ..< b + 1)))) /\
    forall row, u64_ok row -> contains (<[k := Partial set]> m) row = ((addr k a <=? row) && (row <=? addr k b)) || contains m row) as Hp.
  { intros s Hs Hf. set (b0 := match s with Some (Partial set) => set | _ => bm_new end).
    assert (forall v, sel_has s v = bm_contains b0 v) as Hb0.
    { intros v. subst b0. destruct s as [[|x]|]; cbn; [done|done|by autorewrite with roaring]. }
    pose proof (bm_insert_range_count b0 a b Ha Hb) as Hn. pose proof (fun w => bm_contains_insert_range b0 a b w Ha Hb) as Hi.
    destruct (bm_insert_range b0 a b) as [set n]. cbn [fst snd] in *. split.
    - subst n. do 3 f_equal. apply List.filter_ext. intros v. by rewrite Hb0.
    - intros row Hr. rewrite contains_insert, in_fragment_range by done. destruct (Z.eqb_spec (upper row) k) as [He|]; [|done].
      cbn [sel_has andb]. by rewrite Hi, (contains_sel m), He, Hs, Hb0. }
  unfold insert_range_fragment. destruct (m !! k) as [[|set]|] eqn:Em.
  - split.
    + rewrite filter_none; [|by apply Forall_forall]. change (zlen []) with 0. by rewrite Z.add_0_r, wrap64_small.
    + intros row Hr. rewrite in_fragment_range by done. destruct (Z.eqb_spec (upper row) k) as [He|]; [|done].
      rewrite contains_sel, He, Em. by rewrite orb_true_r.
  - specialize (Hp _ eq_refl ltac:(done)). cbv beta iota in Hp. by destruct (bm_insert_range set a b).
  - specialize (Hp _ eq_refl ltac:(done)). cbv beta iota in Hp. by destruct (bm_insert_range bm_new a b).
Qed.

Lemma new_rows_ext m m' s e : (forall r, s <= r < e -> contains m r = contains m' r) -> new_rows m s e = new_rows m' s e.
Proof.
  intros He. unfold new_rows. f_equal. apply filter_ext_Forall, Forall_forall. intros r Hr%elem_of_range_list. cbn in Hr. by rewrite He.
Qed.

Lemma new_rows_app m a b c : a <= b -> b <= c -> new_rows m a c = new_rows m a b + new_rows m b c.
Proof. intros Hab Hbc. unfold new_rows. rewrite (range_list_app a b c), List.filter_app, zlen_app by done. done. Qed.

Lemma new_rows_nil m a b : b <= a -> new_rows m a b = 0.
Proof. intros Hab. unfold new_rows. by rewrite range_list_nil. Qed.

Lemma insert_range_loop_ok fuel m sh sl eh el count :
  1 <= Z.of_nat fuel -> eh - sh + 2 <= Z.of_nat fuel -> u32_ok sh -> u32_ok sl -> 0 <= eh < U32_MAX -> u32_ok el -> u64_ok count ->
  exists m', insert_range_loop fuel m sh sl eh el count = Ok (m', wrap64 (count + new_rows m (addr sh sl) (addr eh el + 1))) /\
    forall row, u64_ok row -> contains m' row = ((addr sh sl <=? row) && (row <=? addr eh el)) || contains m row.
Proof.
  revert m sh sl count. induction fuel as [|fuel IH]; intros m sh sl count Hf1 Hf Hsh Hsl Heh Hel Hc; [lia|]. cbn [insert_range_loop].
  assert (u32_ok eh) as Heh' by (uok; lia). destruct (Z.leb_spec sh eh) as [Hle|Hgt].
  2:{ exists m. rewrite new_rows_nil by (unfold addr; uok; lia). rewrite Z.add_0_r, wrap64_small by done. split; [done|].
      intros row Hr. destruct (Z.leb_spec (addr sh sl) row), (Z.leb_spec row (addr eh el)); try done. unfold addr in *. uok. lia. }
  set (e := if sh =? eh then el else U32_MAX).
  assert (u32_ok e) as He by (subst e; destruct (sh =? eh); uok; lia).
  pose proof (insert_range_fragment_ok m sh sl e count Hsh Hsl He Hc) as Hfr. destruct (insert_range_fragment m sh sl e count) as [m1 c1].
  destruct Hfr as [-> Hc1]. rewrite wrap32_small by (uok; lia).
  destruct (IH m1 (sh + 1) 0 (wrap64 (count + new_rows m (addr sh sl) (addr sh e + 1)))) as (m' & -> & Hc'); [lia|lia|uok; lia|uok; lia|done|done|apply wrap64_ok|].
  exists m'. split.
  - do 2 f_equal. unfold wrap64. rewrite Zplus_mod_idemp_l. f_equal. rewrite <- Z.add_assoc. f_equal.
    subst e. destruct (Z.eqb_spec sh eh) as [->|Hne].
    + rewrite (new_rows_nil m1); [lia|]. unfold addr. uok. lia.
    + rewrite (new_rows_app m (addr sh sl) (addr sh U32_MAX + 1) (addr eh el + 1)) by (unfold addr; uok; lia). f_equal.
      replace (addr (sh + 1) 0) with (addr sh U32_MAX + 1) by (unfold addr; lia). symmetry. apply new_rows_ext. intros r Hr.
      rewrite Hc1 by (unfold addr in *; uok; lia). destruct (Z.leb_spec r (addr sh U32_MAX)); [lia|]. by rewrite andb_false_r.
  - intros row Hr. rewrite Hc', Hc1 by done. rewrite orb_assoc. f_equal. apply Bool.eq_true_iff_eq.
    rewrite orb_true_iff, !andb_true_iff, !Z.leb_le. subst e. unfold addr in *. destruct (Z.eqb_spec sh eh) as [->|Hne]; uok; lia.
Qed.

(** The first and the last row of a range. *)
Definition first_row_of (b : Bound) : Z := match b with Included s => s | Excluded s => s + 1 | Unbounded => 0 end.
Definition last_row_of (b : Bound) : Z := match b with Included e => e | Excluded e => e - 1 | Unbounded => U64_MAX end.

Definition bound_ok (b : Bound) : Prop := match b with Included v | Excluded v => u64_ok v | Unbounded => True end.

Lemma start_parts_eq b : u64_ok (first_row_of b) -> bound_ok b -> start_parts b = (upper (first_row_of b), lower (first_row_of b)).
Proof. destruct b as [s|s|]; cbn; intros Hs Hb; [done| |done]. unfold saturating_add. by rewrite Z.min_l by (uok; lia). Qed.

Lemma end_parts_eq b : u64_ok (last_row_of b) -> bound_ok b -> end_parts b = (upper (last_row_of b), lower (last_row_of b)).
Proof. destruct b as [e|e|]; cbn; intros He Hb; [done| |done]. unfold saturating_sub. by rewrite Z.max_l by (uok; lia). Qed.

Lemma insert_range_ok m s e fuel :
  bound_ok s -> bound_ok e -> u64_ok (first_row_of s) -> u64_ok (last_row_of e) -> upper (last_row_of e) < U32_MAX ->
  upper (last_row_of e) - upper (first_row_of s) + 2 <= Z.of_nat fuel -> (1 <= fuel)%nat ->
  exists m', insert_range fuel m s e = Ok (m', wrap64 (new_rows m (first_row_of s) (last_row_of e + 1))) /\
    forall row, u64_ok row -> contains m' row = ((first_row_of s <=? row) && (row <=? last_row_of e)) || contains m row.
Proof.
  intros Hs He Hfs Hle Hu Hf Hf1. unfold insert_range. rewrite start_parts_eq, end_parts_eq by done.
  pose proof (insert_range_loop_ok fuel m (upper (first_row_of s)) (lower (first_row_of s)) (upper (last_row_of e)) (lower (last_row_of e)) 0) as Hok.
  rewrite <- (addr_eq _ Hfs), <- (addr_eq _ Hle) in Hok.
  apply Hok; [lia|done|apply upper_ok|apply lower_ok| |apply lower_ok|uok; lia]. split; [apply upper_ok|done].
Qed.

(** ** Theorems *)

(** [from_sorted_iter] on strictly increasing addresses returns the set of those addresses, and on any input it fails exactly when
    two neighbours of one fragment are out of order. *)
Theorem treemap_from_sorted_iter (rows : list Z) : Forall u64_ok rows ->
  (ssorted rows -> exists m, from_sorted_iter rows = Ok m /\ wf m /\ forall row, u64_ok row -> contains m row = bool_decide (row ∈ rows)) /\
  (groups_ok rows = true -> exists m, from_sorted_iter rows = Ok m) /\
  (groups_ok rows = false -> from_sorted_iter rows = Err Internal).
Proof.
  intros Hu. pose proof (from_sorted_loop_result (length rows) rows ∅ ltac:(lia)) as Hr.
  split; [intros Hs; by apply from_sorted_iter_ok|]. by destruct (groups_ok rows).
Qed.

(** [from_sorted_runs] never panics on runs that are each in ascending order, however they interleave and repeat, and the
    result has exactly the addresses of the runs. *)
Theorem treemap_from_sorted_runs (runs : list (list Z)) :
  Forall (StronglySorted Z.le) runs -> Forall (Forall u64_ok) runs ->
  exists m, from_sorted_runs runs = Ok m /\ wf m /\ forall row, u64_ok row -> contains m row = bool_decide (row ∈ concat runs).
Proof. apply from_sorted_runs_ok. Qed.

(** A range that ends below the last fragment is inserted in as many rounds as it touches fragments: the set gains exactly the
    rows of the range, and the count returned is the number of rows that are new. *)
Theorem treemap_insert_range (m : RowAddrTreeMap) (s e : Bound) (fuel : nat) :
  bound_ok s -> bound_ok e -> u64_ok (first_row_of s) -> u64_ok (last_row_of e) -> upper (last_row_of e) < U32_MAX ->
  upper (last_row_of e) - upper (first_row_of s) + 2 <= Z.of_nat fuel -> (1 <= fuel)%nat ->
  exists m', insert_range fuel m s e = Ok (m', wrap64 (new_rows m (first_row_of s) (last_row_of e + 1))) /\
    forall row, u64_ok row -> contains m' row = ((first_row_of s <=? row) && (row <=? last_row_of e)) || contains m row.
Proof. apply insert_range_ok. Qed.

(** A range that reaches the last fragment is never inserted: the fragment counter of the loop wraps around to zero and the
    loop has no end, whatever its number of rounds. *)
Theorem treemap_insert_range_diverges (m : RowAddrTreeMap) (s e : Bound) (fuel : nat) :
  fst (end_parts e) = U32_MAX -> u32_ok (fst (start_parts s)) -> forall r, insert_range fuel m s e <> Ok r.
Proof.
  intros He Hs r. unfold insert_range. destruct (start_parts s) as [sh sl], (end_parts e) as [eh el]. cbn [fst] in *. subst eh.
  generalize dependent sh. generalize sl m 0. induction fuel as [|fuel IH]; intros sl' m' c sh Hsh; [done|]. cbn [insert_range_loop].
  rewrite (proj2 (Z.leb_le sh U32_MAX)) by (uok; lia). destruct (insert_range_fragment _ _ _ _ _). apply IH, wrap32_ok.
Qed.

End Build.

(** ** Examples *)

Module TreeMapBuildExamples.

#[local] Existing Instances ItertoolsLists ItertoolsLists_laws CofiniteRoaring CofiniteRoaring_laws.

Lemma treemap_from_sorted_iter_witness :
  (exists m, from_sorted_iter [3; 7; 4294967299] = Ok m /\ contains m 7 = true /\ contains m 8 = false) /\
  from_sorted_iter [7; 7] = Err Internal.
Proof.
  assert (Forall u64_ok [3; 7; 4294967299] /\ Forall u64_ok [7; 7]) as [H1 H2] by (split; repeat constructor; uok; lia).
  split; [|by apply (treemap_from_sorted_iter [7; 7] H2)].
  destruct (treemap_from_sorted_iter [3; 7; 4294967299] H1) as (Hs & _).
  destruct Hs as (m & Hm & _ & Hc); [repeat constructor; lia|]. exists m. split; [done|]. rewrite !Hc by (uok; lia). vm_compute. done.
Defined.

Lemma treemap_from_sorted_runs_witness :
  exists m, from_sorted_runs [[4; 9; 4294967296]; [2; 4]; [4294967300]] = Ok m /\ contains m 2 = true /\ contains m 5 = false.
Proof.
  destruct (treemap_from_sorted_runs [[4; 9; 4294967296]; [2; 4]; [4294967300]]) as (m & Hm & _ & Hc);
    [repeat constructor; lia|repeat constructor; uok; lia|].
  exists m. split; [done|]. rewrite !Hc by (uok; lia). vm_compute. done.
Defined.

Lemma treemap_insert_range_witness :
  exists m, insert_range 3 (from_iter [4294967290]) (Included 4294967290) (Excluded 4294967300) = Ok (m, 9) /\
    contains m 4294967296 = true /\ contains m 4294967300 = false.
Proof.
  destruct (treemap_insert_range (from_iter [4294967290]) (Included 4294967290) (Excluded 4294967300) 3) as (m & Hm & Hc);
    cbn [bound_ok first_row_of last_row_of]; [uok; lia..|vm_compute; done|vm_compute; done|lia|].
  exists m. split; [rewrite Hm; do 2 f_equal; vm_compute; done|]. rewrite !Hc by (uok; lia). vm_compute. done.
Defined.

Lemma treemap_insert_range_diverges_witness : insert_range 1000 new (Included 18446744069414584320) Unbounded <> Ok (new, 0).
Proof. apply treemap_insert_range_diverges; [done|vm_compute; done]. Defined.

(** The empty range [0..0] selects row 0: its last row saturates at 0. *)
Lemma empty_range_selects_row_zero : match from_range 2 (0 ..< 0) with Ok m => contains m 0 | _ => false end = true.
Proof. vm_compute. done. Qed.

(** Any other empty range leaves an entry without rows behind. *)
Lemma empty_range_leaves_entry : 
  match from_range 2 (5 ..< 5) with Ok m => negb (is_empty m) && bool_decide (len m = Some 0) | _ => false end = true.
Proof. vm_compute. done. Qed.

(** Addresses whose fragments are not contiguous are accepted although they are not sorted, and the later group of a fragment
    replaces the earlier one. *)
Lemma from_sorted_iter_loses_rows :
  match from_sorted_iter [4294967296; 0; 4294967297] with
  | Ok m => negb (contains m 4294967296) && contains m 4294967297
  | _ => false
  end = true.
Proof. vm_compute. done. Qed.

End TreeMapBuildExamples.
