(* ===== verification/TreeMapCodec.v ===== *)
(** * Serialized row address sets, and bitmaps as ranges

    The byte format of [RowAddrTreeMap] ([serialize_into],
    [deserialize_from]) and the conversions between bitmaps and lists of ranges
    of [lance-select/src/mask.rs]. *)

From Stdlib Require Import ZArith Lia.
From stdpp Require Import base option list numbers sorting sets gmap.
From S2P Require Import Prelude Lists Bits RowAddress Roaring TreeMap TreeMapAlgebra TreeMapBuild.

Section Codec.
Context {RB : Roaring} {RL : RoaringLaws RB}.

(** ** Words *)

Lemma zlen_write_u32 v : zlen (write_u32 v) = 4.
Proof. unfold write_u32, zlen. by rewrite to_le_bytes_length. Qed.

Lemma read_write_u32 v rest : u32_ok v -> read_u32 (write_u32 v ++ rest) = Ok (v, rest).
Proof.
  intros Hv. unfold read_u32. pose proof (zlen_nonneg rest). rewrite zlen_app, zlen_write_u32.
  rewrite (proj2 (Z.ltb_ge (4 + zlen rest) 4)) by lia.
  rewrite ztake_split, zskip_split by (rewrite zlen_write_u32; lia). rewrite zlen_write_u32, Z.sub_diag. cbn [ztake zskip take drop Z.to_nat].
  rewrite app_nil_r. unfold write_u32. rewrite wrap32_small, from_to_le_bytes by (done || uok; cbn; lia). done.
Qed.

Lemma read_u32_short l : zlen l < 4 -> read_u32 l = Err IO.
Proof. intros Hl. unfold read_u32. by rewrite (proj2 (Z.ltb_lt _ _)). Qed.

(** ** Entries *)

Definition sel_size (s : RowAddrSelection) : Z := match s with Full => 0 | Partial b => bm_serialized_size b end.
Definition sel_body (s : RowAddrSelection) : list Z := match s with Full => [] | Partial b => bm_serialize b end.

Lemma serialize_entry_eq p : serialize_entry p = write_u32 (fst p) ++ write_u32 (sel_size (snd p)) ++ sel_body (snd p).
Proof. unfold serialize_entry. by destruct (snd p). Qed.

Lemma sel_size_body s : sel_size s = zlen (sel_body s) /\ (sel_size s = 0 <-> s = Full).
Proof. destruct s as [|b]; cbn; [done|]. destruct (bm_serialized_size_ok b). split; [done|]. split; [lia|done]. Qed.

Lemma zlen_entry p : zlen (serialize_entry p) = 8 + sel_size (snd p).
Proof. rewrite serialize_entry_eq, !zlen_app, !zlen_write_u32. rewrite (proj1 (sel_size_body _)). lia. Qed.

(** Two selections with the same rows. *)
Definition same_sel (s t : RowAddrSelection) : Prop :=
  match s, t with
  | Full, Full => True
  | Partial a, Partial b => forall v, bm_contains a v = bm_contains b v
  | _, _ => False
  end.

Definition entry_fits (p : Z * RowAddrSelection) : Prop := u32_ok (fst p) /\ sel_size (snd p) <= U32_MAX.

(** Reading the two words of an entry. *)
Lemma deserialize_step n p rest inner : entry_fits p ->
  deserialize_loop (S n) (serialize_entry p ++ rest) inner =
  if sel_size (snd p) =? 0 then deserialize_loop n (sel_body (snd p) ++ rest) (<[fst p := Full]> inner)
  else
    let buffer := ztake (sel_size (snd p)) (sel_body (snd p) ++ rest) in
    if negb (zlen buffer =? sel_size (snd p)) then Err InvalidInput else
    set ← ok_or (bm_deserialize buffer) IO;
    deserialize_loop n (zskip (sel_size (snd p)) (sel_body (snd p) ++ rest)) (<[fst p := Partial set]> inner).
Proof.
  intros [Hk Hs]. cbn [deserialize_loop]. rewrite serialize_entry_eq, <- !app_assoc, read_write_u32 by done. mon.
  rewrite read_write_u32; [done|]. destruct (sel_size_body (snd p)) as [-> _] in Hs |- *. pose proof (zlen_nonneg (sel_body (snd p))). uok. lia.
Qed.

Lemma deserialize_entry n p rest inner : entry_fits p ->
  exists s, same_sel (snd p) s /\ deserialize_loop (S n) (serialize_entry p ++ rest) inner = deserialize_loop n rest (<[fst p := s]> inner).
Proof.
  intros Hp. rewrite deserialize_step by done. destruct (sel_size_body (snd p)) as [Hz Hf]. destruct p as [k s]. cbn [fst snd] in *.
  destruct (Z.eqb_spec (sel_size s) 0) as [E|E].
  - apply Hf in E as ->. by exists Full.
  - destruct s as [|b]; [by destruct E|]. cbn [sel_body] in *. cbv zeta. rewrite Hz, ztake_split, zskip_split, Z.sub_diag by lia.
    cbn [ztake zskip take drop Z.to_nat]. rewrite app_nil_r, Z.eqb_refl. cbn [negb].
    destruct (bm_deserialize_serialize b) as (b' & -> & Hb). exists (Partial b'). split; [intros v; by rewrite Hb|done].
Qed.

Lemma deserialize_entries l rest inner : Forall entry_fits l -> NoDup (map fst l) ->
  exists m, deserialize_loop (length l) (flat_map serialize_entry l ++ rest) inner = Ok m /\
    forall k, match List.find (fun p => fst p =? k) l with
              | Some p => exists s, m !! k = Some s /\ same_sel (snd p) s
              | None => m !! k = inner !! k
              end.
Proof.
  revert inner. induction l as [|p l IH]; intros inner Hf Hn; [by exists inner|]. apply Forall_cons in Hf as [Hp Hf].
  cbn [map] in Hn. apply NoDup_cons in Hn as [Hni Hn]. cbn [flat_map length]. rewrite <- app_assoc.
  destruct (deserialize_entry (length l) p (flat_map serialize_entry l ++ rest) inner Hp) as (s & Hs & ->).
  destruct (IH (<[fst p := s]> inner) Hf Hn) as (m & Hm & Hk). exists m. split; [done|]. intros k. specialize (Hk k). cbn [List.find].
  destruct (Z.eqb_spec (fst p) k) as [<-|Hne].
  - destruct (List.find _ l) as [q|] eqn:E.
    + apply List.find_some in E as [Hin%list_elem_of_In Hq%Z.eqb_eq]. destruct Hni. rewrite <- Hq. by apply list_elem_of_fmap_2.
    + exists s. by rewrite Hk, lookup_insert_eq.
  - destruct (List.find _ l); [done|]. by rewrite Hk, lookup_insert_ne.
Qed.

(** ** Truncated input *)

Definition fails {A} (r : res A) : Prop := exists e, r = Err e.

Lemma zlen_ztake {A} (l : list A) n : 0 <= n <= zlen l -> zlen (ztake n l) = n.
Proof. intros Hn. unfold zlen, ztake in *. rewrite length_take. lia. Qed.

Lemma zlen_ztake_le {A} (l : list A) n : zlen (ztake n l) <= Z.max 0 n.
Proof. unfold zlen, ztake. rewrite length_take. lia. Qed.

Lemma ztake_prefix {A} (a b : list A) n : 0 <= n < zlen (a ++ b) ->
  (n < zlen a /\ ztake n (a ++ b) = ztake n a) \/ (zlen a <= n /\ 0 <= n - zlen a < zlen b /\ ztake n (a ++ b) = a ++ ztake (n - zlen a) b).
Proof.
  rewrite zlen_app. intros Hn. destruct (Z.lt_ge_cases n (zlen a)); [left|right].
  - split; [done|]. apply ztake_app_l. lia.
  - split; [done|]. split; [lia|]. by apply ztake_split.
Qed.

Lemma truncated_entry c p n inner : entry_fits p -> 0 <= n < zlen (serialize_entry p) -> fails (deserialize_loop (S c) (ztake n (serialize_entry p)) inner).
Proof.
  intros [Hk Hs] Hn. pose proof (sel_size_body (snd p)) as [Hz _]. pose proof (zlen_nonneg (sel_body (snd p))) as H0. rewrite serialize_entry_eq in *.
  cbn [deserialize_loop]. destruct (ztake_prefix _ _ _ Hn) as [[Hlt ->]|(Hge & Hn' & ->)].
  { rewrite zlen_write_u32 in Hlt. rewrite read_u32_short by (rewrite zlen_ztake; rewrite ?zlen_write_u32; lia). by exists IO. }
  rewrite read_write_u32 by done. mon. destruct (ztake_prefix _ _ _ Hn') as [[Hlt ->]|(Hge' & Hn'' & ->)].
  { rewrite !zlen_write_u32 in *. rewrite read_u32_short by (rewrite zlen_ztake; rewrite ?zlen_write_u32; lia). by exists IO. }
  rewrite read_write_u32 by (uok; lia). mon. rewrite !zlen_write_u32 in *.
  destruct (Z.eqb_spec (sel_size (snd p)) 0) as [E|E]; [lia|]. set (body := ztake _ (sel_body _)).
  assert (zlen body < sel_size (snd p)) as Hb by (subst body; pose proof (zlen_ztake_le (sel_body (snd p)) (n - 4 - 4)); lia).
  rewrite ztake_ge by lia. rewrite (proj2 (Z.eqb_neq _ _)) by lia. by exists InvalidInput.
Qed.

Lemma truncated_entries l n inner : Forall entry_fits l -> 0 <= n < zlen (flat_map serialize_entry l) ->
  fails (deserialize_loop (length l) (ztake n (flat_map serialize_entry l)) inner).
Proof.
  intros Hf. revert n inner. induction Hf as [|p l Hp _ IH]; intros n inner Hn; [unfold zlen in Hn; cbn in Hn; lia|]. cbn [flat_map length] in *.
  destruct (ztake_prefix _ _ _ Hn) as [[Hlt ->]|(Hge & Hn' & ->)]; [apply truncated_entry; [done|lia]|].
  destruct (deserialize_entry (length l) p (ztake (n - zlen (serialize_entry p)) (flat_map serialize_entry l)) inner Hp) as (s & _ & ->). by apply IH.
Qed.

Lemma deserialize_no_panic n reader inner : deserialize_loop n reader inner <> Panic.
Proof.
  revert reader inner. induction n as [|n IH]; intros reader inner; [done|]. cbn [deserialize_loop]. unfold read_u32.
  destruct (zlen reader <? 4); [done|]. mon. destruct (zlen (zskip 4 reader) <? 4); [done|]. mon.
  destruct (_ =? 0); [apply IH|]. cbv zeta. destruct (negb _); [done|]. destruct (bm_deserialize _); [apply IH|done].
Qed.

Lemma serialized_size_eq m : serialized_size m = zlen (serialize_into m).
Proof.
  unfold serialized_size, serialize_into. rewrite zlen_app, zlen_write_u32.
  assert (forall l acc, foldl (fun size p => let size := size + 8 in match snd p with Partial set => size + bm_serialized_size set | Full => size end)
    acc l = acc + zlen (flat_map serialize_entry l)) as H; [|by rewrite H].
  induction l as [|p l IH]; intros acc; cbn [foldl flat_map]; [by rewrite Z.add_0_r|]. rewrite IH, zlen_app, zlen_entry.
  destruct (snd p); cbn [sel_size]; lia.
Qed.

(** What a reader makes of a serialized set. *)
Lemma read_back m rest : Forall entry_fits (btree_iter m) -> Z.of_nat (size m) <= U32_MAX ->
  exists m', deserialize_from (serialize_into m ++ rest) = Ok m' /\ (forall row, contains m' row = contains m row) /\
    forall k, m' !! k = Some Full <-> m !! k = Some Full.
Proof.
  intros Hf Hs. unfold deserialize_from, serialize_into. rewrite <- app_assoc, read_write_u32 by (uok; lia). mon.
  destruct (deserialize_entries (btree_iter m) rest ∅ Hf (btree_iter_NoDup m)) as (m' & Hm & Hk).
  exists m'. rewrite Nat2Z.id. pose proof (zlen_btree_iter m) as Hz. unfold zlen in Hz. replace (size m) with (length (btree_iter m)) by lia.
  split; [done|]. assert (forall k, match m !! k with Some s => exists s', m' !! k = Some s' /\ same_sel s s' | None => m' !! k = None end) as Hk'.
  { intros k. specialize (Hk k). rewrite find_btree_iter in Hk. destruct (m !! k); [done|]. by rewrite lookup_empty in Hk. }
  split; [intros row; rewrite !contains_sel; specialize (Hk' (upper row))|intros k; specialize (Hk' k)].
  - destruct (m !! upper row) as [s|]; [|by rewrite Hk']. destruct Hk' as (s' & -> & Hs'). destruct s, s'; try done. symmetry. apply Hs'.
  - destruct (m !! k) as [s|]; [|by rewrite Hk']. destruct Hk' as (s' & -> & Hs'). destruct s, s'; try done.
Qed.

(** ** Bitmaps and ranges *)

Definition bitmap_range_ok (r : Range) : Prop := 0 <= start r <= end_ r /\ end_ r <= U32_MAX.

Definition in_ranges (ranges : list Range) (v : Z) : bool := existsb (fun r => range_contains r v) ranges.

Lemma elem_of_ranges ranges v : v ∈ flat_map range_list ranges <-> in_ranges ranges v = true.
Proof.
  unfold in_ranges. rewrite list_elem_of_In, in_flat_map, existsb_exists.
  split; intros (r & Hin & Hr); exists r; (split; [done|]); [apply range_contains_spec; by apply elem_of_range_list, list_elem_of_In|].
  apply list_elem_of_In, elem_of_range_list. by apply range_contains_spec.
Qed.

Lemma bm_contains_half_open b s e v : u32_ok s -> u32_ok e -> bm_contains (bm_insert_half_open b s e) v = range_contains (s ..< e) v || bm_contains b v.
Proof.
  intros Hs He. unfold bm_insert_half_open, range_contains. cbn [start end_]. destruct (Z.ltb_spec s e) as [Hlt|Hge].
  - rewrite bm_contains_insert_range by (uok; lia). f_equal. f_equal. apply Bool.eq_true_iff_eq. rewrite Z.leb_le, Z.ltb_lt. lia.
  - destruct (Z.leb_spec s v), (Z.ltb_spec v e); try done. lia.
Qed.

Lemma bulk_contains ranges b v : Forall bitmap_range_ok ranges ->
  bm_contains (foldl (fun bm r => bm_insert_half_open bm (wrap32 (start r)) (wrap32 (end_ r))) b ranges) v = in_ranges ranges v || bm_contains b v.
Proof.
  intros Hr. revert b. induction Hr as [|r ranges [H1 H2] _ IH]; intros b; [done|]. cbn [foldl]. rewrite IH.
  rewrite !wrap32_small, bm_contains_half_open by (uok; lia). unfold in_ranges. cbn [existsb]. replace (start r ..< end_ r) with r by (by destruct r).
  by destruct (range_contains r v), (existsb _ ranges).
Qed.

Lemma ranges_to_bitmap_ok ranges sorted : Forall bitmap_range_ok ranges -> (sorted = true -> ssorted (flat_map range_list ranges)) ->
  exists b, ranges_to_bitmap ranges sorted = Ok b /\ forall v, bm_contains b v = in_ranges ranges v.
Proof.
  intros Hr Hs. destruct ranges as [|r0 ranges']; [exists bm_new; split; [done|]; intros v; by autorewrite with roaring|].
  unfold ranges_to_bitmap. remember (r0 :: ranges') as ranges eqn:E. clear E r0 ranges'.
  assert (exists b, (Ok (foldl (fun bm r => bm_insert_half_open bm (wrap32 (start r)) (wrap32 (end_ r))) bm_new ranges) : res bitmap) = Ok b /\
    forall v, bm_contains b v = in_ranges ranges v) as Hbulk.
  { eexists. split; [done|]. intros v. rewrite bulk_contains by done. autorewrite with roaring. apply orb_false_r. }
  destruct sorted; [|done]. cbv zeta. destruct (_ <=? 6); [|done]. specialize (Hs eq_refl).
  assert (flat_map (fun r => range_list (wrap32 (start r) ..< wrap32 (end_ r))) ranges = flat_map range_list ranges) as ->.
  { clear - Hr. induction Hr as [|r l [H1 H2] _ IH]; [done|]. cbn [flat_map]. rewrite IH, !wrap32_small by (uok; lia). by destruct r. }
  destruct (bm_from_sorted_iter_ok (flat_map range_list ranges)) as (b & -> & Hb); [done| |].
  - apply Forall_forall. intros v Hv%elem_of_ranges. unfold in_ranges in Hv. apply existsb_exists in Hv as (r & Hin%list_elem_of_In & Hv).
    apply range_contains_spec in Hv. rewrite Forall_forall in Hr. destruct (Hr r Hin). uok. lia.
  - exists b. split; [done|]. intros v. rewrite (bm_contains_of_iter b _ v Hb). destruct (in_ranges ranges v) eqn:E.
    + apply bool_decide_true. by apply elem_of_ranges.
    + apply bool_decide_false. rewrite elem_of_ranges. by rewrite E.
Qed.

Lemma bitmap_to_ranges_list b : flat_map range_list (bitmap_to_ranges b) = bm_iter b.
Proof.
  rewrite <- (proj1 (bm_ranges_expand b)). unfold bitmap_to_ranges, expand_ranges. induction (bm_ranges b) as [|r l IH]; [done|].
  cbn [map flat_map]. by rewrite IH.
Qed.

Lemma bitmap_to_ranges_ok b : bm_contains b U32_MAX = false -> Forall bitmap_range_ok (bitmap_to_ranges b).
Proof.
  intros Hm. unfold bitmap_to_ranges. apply Forall_map. pose proof (bm_ranges_expand b) as [He Hf]. rewrite Forall_forall in Hf |- *.
  intros r Hin. specialize (Hf r Hin). assert (forall v, fst r <= v <= snd r -> bm_contains b v = true) as Hc.
  { intros v Hv. apply bm_iter_elem. rewrite <- He. unfold expand_ranges. apply list_elem_of_In, in_flat_map. exists r.
    split; [by apply list_elem_of_In|]. apply list_elem_of_In, elem_of_range_list. cbn. lia. }
  pose proof (bm_contains_u32 _ _ (Hc (fst r) ltac:(lia))). pose proof (bm_contains_u32 _ _ (Hc (snd r) ltac:(lia))).
  split; cbn [start end_]; [uok; lia|]. destruct (Z.eq_dec (snd r) U32_MAX) as [E|]; [|uok; lia]. rewrite <- E, Hc in Hm by lia. done.
Qed.

(** ** Theorems *)

(** C39: a set whose fragments, entry count and bitmap sizes fit in the [u32] fields of the format is read back with the same rows and the
    same whole fragments, whatever follows it in the buffer, and [serialized_size] is the exact number of bytes written. *)
Theorem treemap_serialize_roundtrip (m : RowAddrTreeMap) (rest : list Z) :
  Forall entry_fits (btree_iter m) -> Z.of_nat (size m) <= U32_MAX ->
  serialized_size m = zlen (serialize_into m) /\
  exists m', deserialize_from (serialize_into m ++ rest) = Ok m' /\ (forall row, contains m' row = contains m row) /\
    forall k, m' !! k = Some Full <-> m !! k = Some Full.
Proof.
  intros Hf Hs. split; [apply serialized_size_eq|by apply read_back].
Qed.

(** [deserialize_from] never panics, and every proper prefix of a serialized set is rejected. *)
Theorem treemap_deserialize_truncated (m : RowAddrTreeMap) (n : Z) (reader : list Z) :
  Forall entry_fits (btree_iter m) -> Z.of_nat (size m) <= U32_MAX -> 0 <= n < serialized_size m ->
  fails (deserialize_from (ztake n (serialize_into m))) /\ deserialize_from reader <> Panic.
Proof.
  intros Hf Hs Hn. rewrite serialized_size_eq in Hn. split.
  - unfold serialize_into in *. unfold deserialize_from. destruct (ztake_prefix _ _ _ Hn) as [[Hlt ->]|(Hge & Hn' & ->)].
    + rewrite zlen_write_u32 in Hlt. rewrite read_u32_short by (rewrite zlen_ztake; rewrite ?zlen_write_u32; lia). by exists IO.
    + rewrite read_write_u32 by (uok; lia). mon. rewrite Nat2Z.id. pose proof (zlen_btree_iter m) as Hz. unfold zlen in Hz.
      replace (size m) with (length (btree_iter m)) by lia. by apply truncated_entries.
  - unfold deserialize_from, read_u32. destruct (zlen reader <? 4); [done|]. mon. apply deserialize_no_panic.
Qed.

(** For sorted, disjoint ranges of offsets both ways of [ranges_to_bitmap], value by value and by bulk insertion, build the
    bitmap of exactly the offsets in the ranges; unsorted ranges are inserted in bulk with the same result. *)
Theorem ranges_to_bitmap_members (ranges : list Range) (sorted : bool) :
  Forall bitmap_range_ok ranges -> (sorted = true -> ssorted (flat_map range_list ranges)) ->
  exists b, ranges_to_bitmap ranges sorted = Ok b /\ forall v, bm_contains b v = existsb (fun r => range_contains r v) ranges.
Proof. apply ranges_to_bitmap_ok. Qed.

(** A bitmap without the offset [u32::MAX] survives the conversion to ranges and back. *)
Theorem bitmap_ranges_roundtrip (b : bitmap) (sorted : bool) : bm_contains b U32_MAX = false ->
  exists b', ranges_to_bitmap (bitmap_to_ranges b) sorted = Ok b' /\ forall v, bm_contains b' v = bm_contains b v.
Proof.
  intros Hm. destruct (ranges_to_bitmap_ok (bitmap_to_ranges b) sorted) as (b' & Hb & Hc); [by apply bitmap_to_ranges_ok| |].
  - intros _. rewrite bitmap_to_ranges_list. apply bm_iter_sorted.
  - exists b'. split; [done|]. intros v. rewrite Hc. apply Bool.eq_true_iff_eq. by rewrite <- elem_of_ranges, bitmap_to_ranges_list, bm_iter_elem.
Qed.

End Codec.

(** ** Examples *)

Module TreeMapCodecExamples.

#[local] Existing Instances CofiniteRoaring CofiniteRoaring_laws.

Definition stored : RowAddrTreeMap := insert_fragment (from_iter [1; 5; 4294967300]) 2.

Lemma fits_check l : forallb (fun p => u32b (fst p) && (sel_size (snd p) <=? U32_MAX)) l = true -> Forall entry_fits l.
Proof.
  rewrite forallb_forall. intros Hl. apply Forall_forall. intros p Hp%list_elem_of_In%Hl. apply andb_true_iff in Hp as [Hk Hs].
  split; [by apply u32b_spec|by apply Z.leb_le].
Defined.

Lemma stored_fits : Forall entry_fits (btree_iter stored) /\ Z.of_nat (size stored) <= U32_MAX.
Proof. split; [apply fits_check; vm_compute; done|vm_compute; done]. Defined.

Lemma treemap_serialize_roundtrip_witness :
  exists m', deserialize_from (serialize_into stored ++ [1; 2; 3]) = Ok m' /\ contains m' 5 = true /\ contains m' 6 = false /\
    m' !! 2 = Some Full.
Proof.
  destruct (treemap_serialize_roundtrip stored [1; 2; 3] (proj1 stored_fits) (proj2 stored_fits)) as (_ & m' & Hm & Hc & Hf).
  exists m'. split; [done|]. rewrite !Hc. split; [vm_compute; done|]. split; [vm_compute; done|]. apply Hf.
  unfold stored, insert_fragment. apply lookup_insert_eq.
Defined.

Lemma treemap_deserialize_truncated_witness : fails (deserialize_from (ztake 13 (serialize_into stored))).
Proof.
  destruct (treemap_deserialize_truncated stored 13 [] (proj1 stored_fits) (proj2 stored_fits)) as [Hf _]; [vm_compute; done|done].
Defined.

Lemma ranges_to_bitmap_members_witness :
  exists b, ranges_to_bitmap [2 ..< 5; 8 ..< 30] true = Ok b /\ bm_contains b 4 = true /\ bm_contains b 5 = false.
Proof.
  destruct (ranges_to_bitmap_members [2 ..< 5; 8 ..< 30] true) as (b & Hb & Hc);
    [repeat constructor; cbn; lia|intros _; apply sortedb_spec; vm_compute; done|].
  exists b. split; [done|]. rewrite !Hc. vm_compute. done.
Defined.

Definition some_offsets : @bitmap CofiniteRoaring := Cofinite.of_list [3; 4; 9].

Lemma bitmap_ranges_roundtrip_witness :
  exists b, ranges_to_bitmap (bitmap_to_ranges some_offsets) true = Ok b /\ bm_contains b 4 = true /\ bm_contains b 5 = false.
Proof.
  destruct (bitmap_ranges_roundtrip some_offsets true) as (b & Hb & Hc); [vm_compute; done|].
  exists b. split; [done|]. rewrite !Hc. vm_compute. done.
Defined.

(** The offset [u32::MAX] is lost: the end of its range, 2^32, is 0 as a [u32]. *)
Lemma last_offset_lost :
  let b : @bitmap CofiniteRoaring := Cofinite.of_list [7; 4294967295] in
  bm_contains b U32_MAX = true /\
  match ranges_to_bitmap (bitmap_to_ranges b) true with Ok b' => bm_contains b' 7 && negb (bm_contains b' U32_MAX) | _ => false end = true.
Proof. split; vm_compute; done. Qed.

End TreeMapCodecExamples.
