(* ===== verification/RowMask.v ===== *)
(** * Row masks

    [RowAddrMask] of [lance-select/src/mask.rs]: an allow list or a block list
    of row addresses.  The theorems show that the operators on masks are the
    Boolean operators on [selected], that the pruning tests never rule out a
    selected row, and that masks survive serialization. *)

From Stdlib Require Import ZArith Lia.
From stdpp Require Import base option list numbers sorting sets gmap.
From S2P Require Import Prelude Lists Bits RowAddress Roaring TreeMap TreeMapAlgebra TreeMapBuild TreeMapCodec.

(** ** Binary arrays *)

Definition I32_MAX : Z := 2147483647.

(** [arrow_array::BinaryArray], with the constructors and accessors the masks use: offsets from lengths ([OffsetBuffer::from_lengths]),
    the values and a validity buffer. *)
Class Arrow := {
  binary_array : Type;
  ba_try_new : list Z -> list Z -> list bool -> res binary_array;
  ba_is_null : binary_array -> Z -> bool;
  ba_value : binary_array -> Z -> list Z
}.

(** Item [i] of an array built from lengths is the slice of the values after the earlier items. *)
Definition sum_to (lengths : list Z) (i : Z) : Z := foldr Z.add 0 (ztake i lengths).

Class ArrowLaws (AR : Arrow) : Prop := {
  ba_try_new_ok lengths values validity :
    Forall (Z.le 0) lengths -> foldr Z.add 0 lengths = zlen values -> zlen values <= I32_MAX -> zlen validity = zlen lengths ->
    exists a, ba_try_new lengths values validity = Ok a /\
      (forall i v, get_opt validity i = Some v -> ba_is_null a i = negb v) /\
      (forall i n, get_opt lengths i = Some n -> ba_value a i = ztake n (zskip (sum_to lengths i) values))
}.

(** ** Model *)

Inductive RowAddrMask {RB : Roaring} := AllowList (allow_list : RowAddrTreeMap) | BlockList (block_list : RowAddrTreeMap).

Section MaskModel.
Context {RB : Roaring}.

Definition mask_default : RowAddrMask := BlockList TreeMap.new.
Definition all_rows : RowAddrMask := mask_default.
Definition allow_nothing : RowAddrMask := AllowList TreeMap.new.
Definition from_allowed (allow_list : RowAddrTreeMap) : RowAddrMask := AllowList allow_list.
Definition from_block (block_list : RowAddrTreeMap) : RowAddrMask := BlockList block_list.

Definition block_list (m : RowAddrMask) : option RowAddrTreeMap := match m with BlockList b => Some b | _ => None end.
Definition allow_list (m : RowAddrMask) : option RowAddrTreeMap := match m with AllowList a => Some a | _ => None end.

Definition selected (m : RowAddrMask) (row_id : Z) : bool :=
  match m with
  | AllowList allow_list => contains allow_list row_id
  | BlockList block_list => negb (contains block_list row_id)
  end.

Definition is_select_all (m : RowAddrMask) : bool := match m with BlockList b => is_empty b | _ => false end.

Definition selects_all (m : RowAddrMask) (rows : RowAddrTreeMap) : bool :=
  match m with
  | AllowList allow_list => is_empty (sub rows allow_list)
  | BlockList block_list => is_empty (bitand rows block_list)
  end.

Definition selected_indices (m : RowAddrMask) (row_ids : list Z) : list Z :=
  omap (fun p => if selected m (snd p) then Some (fst p) else None) (enumerate row_ids).

Definition also_block (m : RowAddrMask) (block_list : RowAddrTreeMap) : RowAddrMask :=
  match m with
  | AllowList allow_list => AllowList (sub allow_list block_list)
  | BlockList existing => BlockList (bitor_owned existing block_list)
  end.

(** The [decode] of [from_serialized_parts]. *)
Definition decode (bytes : list Z) : res RowAddrTreeMap :=
  match deserialize_from bytes with Ok m => Ok m | Err _ => Err InvalidInput | Panic => Panic end.

(** [map(f).transpose()] *)
Definition transpose {A B} (f : A -> res B) (o : option A) : res (option B) :=
  match o with Some a => b ← f a; Ok (Some b) | None => Ok None end.

Definition from_serialized_parts (allow block : option (list Z)) : res (option RowAddrMask) :=
  allow ← transpose decode allow;
  block ← transpose decode block;
  Ok match allow, block with
     | Some allow, Some block => Some (also_block (from_allowed allow) block)
     | Some allow, None => Some (from_allowed allow)
     | None, Some block => Some (from_block block)
     | None, None => None
     end.

Definition intersect (m other : RowAddrMask) : RowAddrMask :=
  match m, other with
  | AllowList a, AllowList b => AllowList (bitand a b)
  | AllowList a, BlockList b => also_block (AllowList a) b
  | BlockList a, AllowList b => also_block (AllowList b) a
  | BlockList a, BlockList b => BlockList (bitor_owned a b)
  end.

Definition may_select_fragments (m : RowAddrMask) (fragments : bitmap) : bool :=
  match m with
  | AllowList allow =>
      existsb (fun fragment =>
        match allow !! fragment with
        | None => false
        | Some Full => true
        | Some (Partial rows) => negb (bm_is_empty rows)
        end) (bm_iter fragments)
  | BlockList block =>
      existsb (fun fragment => negb match block !! fragment with Some Full => true | _ => false end) (bm_iter fragments)
  end.

Definition may_select_any (m : RowAddrMask) (rows : RowAddrTreeMap) : bool :=
  match m with
  | AllowList allow =>
      existsb (fun '(fragment, selection) =>
        match allow !! fragment, selection with
        | None, _ => false
        | Some Full, Full => true
        | Some Full, Partial rows | Some (Partial rows), Full => negb (bm_is_empty rows)
        | Some (Partial allowed), Partial rows => negb (bm_is_disjoint allowed rows)
        end) (btree_iter rows)
  | BlockList block =>
      existsb (fun '(fragment, selection) =>
        match block !! fragment, selection with
        | None, Full => true
        | None, Partial rows => negb (bm_is_empty rows)
        | Some Full, _ => false
        | Some (Partial _), Full => true
        | Some (Partial blocked), Partial rows => negb (bm_is_subset rows blocked)
        end) (btree_iter rows)
  end.

Definition also_allow (m : RowAddrMask) (allow_list : RowAddrTreeMap) : RowAddrMask :=
  match m with
  | AllowList existing => AllowList (bitor_owned existing allow_list)
  | BlockList block_list => BlockList (sub block_list allow_list)
  end.

Definition max_len (m : RowAddrMask) : option Z :=
  match m with
  | AllowList selection => len selection
  | BlockList _ => None
  end.

Definition iter_addrs (m : RowAddrMask) : option (list Z) :=
  match m with
  | AllowList allow_list => match row_addrs allow_list with Some allow_iter => Some allow_iter | None => None end
  | BlockList _ => None
  end.

Definition mask_not (m : RowAddrMask) : RowAddrMask :=
  match m with
  | AllowList allow_list => BlockList allow_list
  | BlockList block_list => AllowList block_list
  end.

Definition mask_and (m rhs : RowAddrMask) : RowAddrMask :=
  match m, rhs with
  | AllowList a, AllowList b => AllowList (bitand a b)
  | AllowList allow, BlockList block | BlockList block, AllowList allow => AllowList (sub allow block)
  | BlockList a, BlockList b => BlockList (bitor_owned a b)
  end.

Definition mask_or (m rhs : RowAddrMask) : RowAddrMask :=
  match m, rhs with
  | AllowList a, AllowList b => AllowList (bitor_owned a b)
  | AllowList allow, BlockList block | BlockList block, AllowList allow => BlockList (sub block allow)
  | BlockList a, BlockList b => BlockList (bitand a b)
  end.

(** [RowAddrTreeMap::mask] *)
Definition apply_mask (rows : RowAddrTreeMap) (m : RowAddrMask) : RowAddrTreeMap :=
  match m with
  | AllowList allow_list => bitand rows allow_list
  | BlockList block_list => sub rows block_list
  end.

(** *** Arrow *)

Context {AR : Arrow}.

(** [serialize_into(&mut buf[at..])]: a slice that is too short is an error. *)
Definition write_at (buf : list Z) (at_ : Z) (bytes : list Z) : res (list Z) :=
  if zlen buf - at_ <? zlen bytes then Err IO else Ok (ztake at_ buf ++ bytes ++ zskip (at_ + zlen bytes) buf).

Definition into_arrow (m : RowAddrMask) : res binary_array :=
  let '(block_list, allow_list) := match m with AllowList allow_list => (None, Some allow_list) | BlockList block_list => (Some block_list, None) end in
  let block_list_length := default 0 (option_map serialized_size block_list) in
  let allow_list_length := default 0 (option_map serialized_size allow_list) in
  let lengths := [block_list_length; allow_list_length] in
  let value_bytes := replicate (Z.to_nat (block_list_length +w allow_list_length)) 0 in
  '(value_bytes, v0) ←
    match block_list with
    | Some block_list => value_bytes ← write_at value_bytes 0 (serialize_into block_list); Ok (value_bytes, true)
    | None => Ok (value_bytes, false)
    end;
  '(value_bytes, v1) ←
    match allow_list with
    | Some allow_list => value_bytes ← write_at value_bytes block_list_length (serialize_into allow_list); Ok (value_bytes, true)
    | None => Ok (value_bytes, false)
    end;
  ba_try_new lengths value_bytes [v0; v1].

Definition from_arrow (array : binary_array) : res RowAddrMask :=
  block_list ← (if ba_is_null array 0 then Ok None else m ← deserialize_from (ba_value array 0); Ok (Some m));
  allow_list ← (if ba_is_null array 1 then Ok None else m ← deserialize_from (ba_value array 1); Ok (Some m));
  Ok match block_list, allow_list with
     | Some bl, None => BlockList bl
     | None, Some al => AllowList al
     | Some block, Some allow => also_block (AllowList allow) block
     | None, None => all_rows
     end.

End MaskModel.

(** ** Selection *)

Section MaskFacts.
Context {RB : Roaring} {RL : RoaringLaws RB}.

Create Rewrite HintDb mask.
#[local] Hint Rewrite @contains_bitor_owned @contains_bitor @contains_bitand @contains_sub negb_involutive negb_orb negb_andb
  using typeclasses eauto : mask.

Ltac mask_bool := repeat match goal with |- context [contains ?m ?row] => destruct (contains m row) end; try done.

Lemma selected_not m row : selected (mask_not m) row = negb (selected m row).
Proof. destruct m; cbn; by rewrite ?negb_involutive. Qed.

Lemma selected_and a b row : selected (mask_and a b) row = selected a row && selected b row.
Proof. destruct a, b; cbn; autorewrite with mask; mask_bool. Qed.

Lemma selected_or a b row : selected (mask_or a b) row = selected a row || selected b row.
Proof. destruct a, b; cbn; autorewrite with mask; mask_bool. Qed.

Lemma selected_intersect a b row : selected (intersect a b) row = selected a row && selected b row.
Proof. destruct a, b; cbn; autorewrite with mask; mask_bool. Qed.

Lemma selected_also_block m b row : selected (also_block m b) row = selected m row && negb (contains b row).
Proof. destruct m; cbn; autorewrite with mask; mask_bool. Qed.

Lemma selected_also_allow m a row : selected (also_allow m a) row = selected m row || contains a row.
Proof. destruct m; cbn; autorewrite with mask; mask_bool. Qed.

Lemma contains_apply_mask rows m row : contains (apply_mask rows m) row = contains rows row && selected m row.
Proof. destruct m; cbn; by autorewrite with mask. Qed.

(** ** Emptiness tests *)

Lemma is_empty_rows (m : RowAddrTreeMap) row : is_empty m = true -> contains m row = false.
Proof. unfold is_empty. rewrite bool_decide_eq_true. intros ->. apply contains_empty. Qed.

(** No whole fragment of [a] meets a bitmap of [b] that lists every offset. *)
Definition no_listed_fragment (a b : RowAddrTreeMap) : Prop :=
  forall k s, a !! k = Some Full -> b !! k = Some (Partial s) -> bm_is_full s = false.

Lemma selects_all_sound m rows row : selects_all m rows = true -> contains rows row = true -> selected m row = true.
Proof.
  destruct m as [a|b]; cbn; intros He Hr; apply (is_empty_rows _ row) in He; autorewrite with mask in He; rewrite Hr in He; cbn in He;
    [by apply negb_false_iff in He|by rewrite He].
Qed.

Lemma selects_all_complete m rows : wf rows -> (forall a, m = AllowList a -> no_listed_fragment rows a) ->
  (forall row, u64_ok row -> contains rows row = true -> selected m row = true) -> selects_all m rows = true.
Proof.
  intros Hw Hn Ha. destruct m as [a|b]; cbn in *.
  - apply wf_is_empty; [apply wf_sub; [done|by apply Hn]|]. intros row Hr. autorewrite with mask. specialize (Ha row Hr).
    destruct (contains rows row); [|done]. by rewrite Ha.
  - apply wf_is_empty; [by apply wf_bitand|]. intros row Hr. autorewrite with mask. specialize (Ha row Hr).
    destruct (contains rows row); [|done]. apply negb_true_iff. by apply Ha.
Qed.

(** ** Pruning *)

Lemma existsb_false {A} (f : A -> bool) l x : existsb f l = false -> x ∈ l -> f x = false.
Proof.
  intros Hf Hx. destruct (f x) eqn:E; [|done]. rewrite <- Hf. symmetry. apply existsb_exists. exists x. split; [by apply list_elem_of_In|done].
Qed.

Lemma may_select_fragments_sound m fragments row : may_select_fragments m fragments = false ->
  bm_contains fragments (upper row) = true -> selected m row = false.
Proof.
  intros Hm Hf%bm_iter_elem. destruct m as [a|b]; cbn [may_select_fragments] in Hm; eapply existsb_false in Hm; try exact Hf; cbn beta in Hm;
    cbn [selected]; rewrite contains_sel.
  - destruct (a !! upper row) as [[|rows]|]; [done| |done]. apply negb_false_iff in Hm. by apply bm_is_empty_iff.
  - by destruct (b !! upper row) as [[|rows]|].
Qed.

Lemma may_select_fragments_exact a fragments : wf a -> may_select_fragments (AllowList a) fragments = true ->
  exists row, u64_ok row /\ bm_contains fragments (upper row) = true /\ selected (AllowList a) row = true.
Proof.
  intros Hw (k & Hk%list_elem_of_In%bm_iter_elem & Ha)%existsb_exists. destruct (a !! k) as [s|] eqn:E; [|done].
  destruct (Hw _ _ E) as [Hku Hs]. destruct (keep_has s Hs) as (v & Hv & Hc). destruct (row_of_parts k v Hku Hv) as (row & Hr & Hu & Hl & _).
  exists row. split; [done|]. rewrite Hu. split; [done|]. cbn [selected]. by rewrite contains_sel, Hu, Hl, E.
Qed.

Lemma may_select_any_sound m rows row : may_select_any m rows = false -> contains rows row = true -> selected m row = false.
Proof.
  intros Hm. rewrite contains_sel. destruct (rows !! upper row) as [s|] eqn:E; [|done]. intros Hs.
  apply btree_iter_elem in E. destruct m as [a|b]; cbn [may_select_any] in Hm; eapply existsb_false in Hm; try exact E; cbn beta iota in Hm;
    cbn [selected]; rewrite contains_sel.
  - destruct (a !! upper row) as [[|x]|], s as [|y]; cbn in *; try done; apply negb_false_iff in Hm.
    + rewrite bm_is_empty_iff in Hm. congruence.
    + by apply bm_is_empty_iff.
    + rewrite bm_is_disjoint_iff in Hm. destruct (bm_contains x (lower row)) eqn:Ex; [|done]. apply Hm in Ex. congruence.
  - destruct (b !! upper row) as [[|x]|], s as [|y]; cbn in *; try done; apply negb_false_iff in Hm.
    + rewrite bm_is_subset_iff in Hm. by rewrite Hm.
    + rewrite bm_is_empty_iff in Hm. congruence.
Qed.

(** The test is exact except for a whole fragment against a partial block. *)
Lemma may_select_any_exact m rows : wf rows ->
  (forall b k s, m = BlockList b -> rows !! k = Some Full -> b !! k <> Some (Partial s)) ->
  may_select_any m rows = true -> exists row, u64_ok row /\ contains rows row = true /\ selected m row = true.
Proof.
  intros Hw Hn Hm.
  assert (forall k s v, rows !! k = Some s -> u32_ok v -> sel_has (Some s) v = true ->
    match m with AllowList a => sel_has (a !! k) v | BlockList b => negb (sel_has (b !! k) v) end = true ->
    exists row, u64_ok row /\ contains rows row = true /\ selected m row = true) as Hrow.
  { intros k s v E Hv Hs Hsel. destruct (Hw _ _ E) as [Hk _]. destruct (row_of_parts k v Hk Hv) as (row & Hr & Hu & Hl & _). exists row.
    split; [done|]. rewrite contains_sel, Hu, Hl, E. split; [done|]. destruct m; cbn [selected]; by rewrite contains_sel, Hu, Hl. }
  assert (forall x v, bm_contains x v = true -> u32_ok v) as Hu by (intros; by eapply bm_contains_u32).
  assert (u32_ok 0) as H0 by (uok; lia).
  destruct m as [a|b]; apply existsb_exists in Hm as ([k s] & E%list_elem_of_In%btree_iter_elem & Hm).
  - destruct (a !! k) as [[|x]|] eqn:Ea, s as [|y]; try done.
    + apply (Hrow k Full 0); [done..|by rewrite Ea].
    + apply negb_true_iff, bm_is_empty_false in Hm as [v Hv]. apply (Hrow k _ v E); [by eauto|done|by rewrite Ea].
    + apply negb_true_iff, bm_is_empty_false in Hm as [v Hv]. apply (Hrow k _ v E); [by eauto|done|by rewrite Ea].
    + apply negb_true_iff in Hm. rewrite bm_is_disjoint_and in Hm.
      apply bm_is_empty_false in Hm as [v Hv]. autorewrite with roaring in Hv. apply andb_true_iff in Hv as [Hx Hy].
      apply (Hrow k _ v E); [by eauto|done|by rewrite Ea].
  - destruct (b !! k) as [[|x]|] eqn:Eb, s as [|y]; try done.
    + by destruct (Hn b k x eq_refl E).
    + apply negb_true_iff in Hm. rewrite bm_is_subset_sub in Hm.
      apply bm_is_empty_false in Hm as [v Hv]. autorewrite with roaring in Hv. apply andb_true_iff in Hv as [Hy Hx].
      apply (Hrow k _ v E); [by eauto|done|by rewrite Eb].
    + apply (Hrow k Full 0); [done..|by rewrite Eb].
    + apply negb_true_iff, bm_is_empty_false in Hm as [v Hv]. apply (Hrow k _ v E); [by eauto|done|by rewrite Eb].
Qed.

(** ** Listing *)

Lemma selected_indices_spec m ids : ssorted (selected_indices m ids) /\
  forall i, i ∈ selected_indices m ids <-> exists r, get_opt ids i = Some r /\ selected m r = true.
Proof.
  unfold selected_indices. split.
  - unfold enumerate. assert (forall n, ssorted (omap (fun p => if selected m (snd p) then Some (fst p) else None) (zip (seqZ n (zlen ids)) ids)) /\
      Forall (Z.le n) (omap (fun p => if selected m (snd p) then Some (fst p) else None) (zip (seqZ n (zlen ids)) ids))) as H; [|apply (H 0)].
    induction ids as [|r ids IH]; intros n; [by split; constructor|]. rewrite zlen_cons, seqZ_cons by (pose proof (zlen_nonneg ids); lia).
    replace (Z.pred (1 + zlen ids)) with (zlen ids) by lia. cbn [zip zip_with omap list_omap snd fst]. destruct (IH (Z.succ n)) as [Hs Hf].
    destruct (selected m r).
    + split; [constructor; [done|]|constructor; [lia|]]; (eapply Forall_impl; [exact Hf|]; intros; lia).
    + split; [done|]. eapply Forall_impl; [exact Hf|]. intros; lia.
  - intros i. rewrite list_elem_of_omap. split.
    + intros ([j r] & Hj%enumerate_lookup & Hs). cbn in Hs. destruct (selected m r) eqn:E; [|done]. injection Hs as <-. by exists r.
    + intros (r & Hr%enumerate_lookup & Hs). exists (i, r). split; [done|]. cbn. by rewrite Hs.
Qed.

(** ** Serialized forms *)

Definition fits (m : RowAddrTreeMap) : Prop := Forall entry_fits (btree_iter m) /\ Z.of_nat (size m) <= U32_MAX.

Lemma decode_treemap m : fits m -> exists m', decode (serialize_into m) = Ok m' /\ forall row, contains m' row = contains m row.
Proof.
  intros [Hf Hs]. destruct (read_back m [] Hf Hs) as (m' & Hm & Hc & _). rewrite app_nil_r in Hm. exists m'. unfold decode. by rewrite Hm.
Qed.

Lemma decode_error bytes : (exists m, decode bytes = Ok m) \/ decode bytes = Err InvalidInput.
Proof.
  unfold decode. destruct (deserialize_from bytes) as [m| |] eqn:E; [left; by exists m|by right|].
  exfalso. revert E. unfold deserialize_from, read_u32. destruct (zlen bytes <? 4); [done|]. mon. apply deserialize_no_panic.
Qed.

(** ** Theorems *)

(** The operators on masks are the Boolean operators on the rows they select, for any mix of allow and block lists: negation,
    conjunction (also as [intersect]), disjunction, blocking more rows, allowing more rows; applying a mask to a set keeps
    the selected rows. *)
Theorem mask_algebra (a b : RowAddrMask) (rows : RowAddrTreeMap) (row : Z) :
  selected (mask_not a) row = negb (selected a row) /\
  selected (mask_and a b) row = selected a row && selected b row /\
  selected (intersect a b) row = selected a row && selected b row /\
  selected (mask_or a b) row = selected a row || selected b row /\
  selected (also_block a rows) row = selected a row && negb (contains rows row) /\
  selected (also_allow a rows) row = selected a row || contains rows row /\
  contains (apply_mask rows a) row = contains rows row && selected a row.
Proof.
  auto 10 using selected_not, selected_and, selected_intersect, selected_or, selected_also_block, selected_also_allow, contains_apply_mask.
Qed.

(** The pruning tests are safe: when [may_select_fragments] or [may_select_any] says no, no row of the fragments or of the
    set is selected.  They are exact, a yes means that some row is selected, for allow lists, and for block lists unless a
    partial block meets a whole fragment. *)
Theorem mask_pruning (m : RowAddrMask) (fragments : bitmap) (rows : RowAddrTreeMap) : built rows ->
  (may_select_fragments m fragments = false -> forall row, bm_contains fragments (upper row) = true -> selected m row = false) /\
  (may_select_any m rows = false -> forall row, contains rows row = true -> selected m row = false) /\
  (may_select_any m rows = true ->
   (forall b k s, m = BlockList b -> rows !! k = Some Full -> b !! k <> Some (Partial s)) ->
   exists row, u64_ok row /\ contains rows row = true /\ selected m row = true).
Proof.
  intros Hw%built_wf. split; [|split].
  - intros Hm row Hf. by eapply may_select_fragments_sound.
  - intros Hm row Hr. by eapply may_select_any_sound.
  - intros Hm Hn. by apply may_select_any_exact.
Qed.

(** [selects_all] holds only when every row of the set is selected, and it holds whenever they all are, unless a whole
    fragment of the set meets an allow list that names each of its offsets. *)
Theorem mask_selects_all (m : RowAddrMask) (rows : RowAddrTreeMap) : built rows ->
  (selects_all m rows = true -> forall row, contains rows row = true -> selected m row = true) /\
  ((forall a, m = AllowList a -> no_listed_fragment rows a) ->
   (forall row, u64_ok row -> contains rows row = true -> selected m row = true) -> selects_all m rows = true) /\
  (is_select_all m = true -> forall row, selected m row = true).
Proof.
  intros Hw%built_wf. split; [intros Hs row; by apply selects_all_sound|]. split; [intros Hn Ha; by apply selects_all_complete|].
  destruct m as [a|b]; [done|]. intros He row. cbn in *. by rewrite (is_empty_rows b row He).
Qed.

(** [max_len] bounds the selection: no duplicate-free list of selected rows is longer, and [iter_addrs] reaches it, listing the
    selected rows in increasing order; [selected_indices] lists in order exactly the positions of selected rows. *)
Theorem mask_max_len (m : RowAddrMask) (n : Z) (ids : list Z) :
  (forall a, allow_list m = Some a -> built a /\ Z.of_nat (size a) <= U32_MAX) -> max_len m = Some n ->
  (forall l, NoDup l -> Forall (fun row => u64_ok row /\ selected m row = true) l -> zlen l <= n) /\
  (exists l, iter_addrs m = Some l /\ zlen l = n /\ ssorted l /\ forall row, u64_ok row -> row ∈ l <-> selected m row = true) /\
  ssorted (selected_indices m ids) /\
  (forall i, i ∈ selected_indices m ids <-> exists r, get_opt ids i = Some r /\ selected m r = true).
Proof.
  intros Ha Hn. destruct m as [a|b]; [|done]. destruct (Ha a eq_refl) as [Hw%built_wf Hs]. cbn [max_len iter_addrs selected] in *.
  rewrite len_eq in Hn. rewrite row_addrs_eq. destruct (all_partial a) eqn:Ep; [|done]. injection Hn as <-.
  destruct (addrs_spec a Hw Ep) as (Hsort & Hu & He). pose proof (zlen_addrs a Hs) as Hl. rewrite wrap64_small by (pose proof (zlen_nonneg (addrs a)); uok; lia).
  split; [|split; [by exists (addrs a)|apply selected_indices_spec]].
  intros l Hnd Hsel. unfold zlen. apply Nat2Z.inj_le, submseteq_length, NoDup_submseteq; [done|]. intros row Hr.
  rewrite Forall_forall in Hsel. destruct (Hsel row Hr) as [Hru Hrs]. by apply He.
Qed.

(** [from_serialized_parts] decodes the two payloads into the mask that selects the allowed rows and not the blocked ones, is
    [None] without payloads, and otherwise fails with an invalid-input error; it never panics. *)
Theorem mask_from_serialized_parts (a b : RowAddrTreeMap) (allow block : option (list Z)) : fits a -> fits b ->
  (exists m, from_serialized_parts (Some (serialize_into a)) (Some (serialize_into b)) = Ok (Some m) /\
     forall row, selected m row = contains a row && negb (contains b row)) /\
  (exists m, from_serialized_parts (Some (serialize_into a)) None = Ok (Some m) /\ forall row, selected m row = contains a row) /\
  (exists m, from_serialized_parts None (Some (serialize_into b)) = Ok (Some m) /\ forall row, selected m row = negb (contains b row)) /\
  from_serialized_parts None None = Ok None /\
  ((exists m, from_serialized_parts allow block = Ok m) \/ from_serialized_parts allow block = Err InvalidInput).
Proof.
  intros Ha Hb. destruct (decode_treemap a Ha) as (a' & Ea & Ha'). destruct (decode_treemap b Hb) as (b' & Eb & Hb').
  unfold from_serialized_parts, transpose. rewrite Ea, Eb. mon. split; [|split; [|split; [|split; [done|]]]].
  - eexists. split; [done|]. intros row. by rewrite selected_also_block, Hb', <- Ha'.
  - eexists. split; [done|]. intros row. cbn. by rewrite Ha'.
  - eexists. split; [done|]. intros row. cbn. by rewrite Hb'.
  - destruct allow as [x|]; [destruct (decode_error x) as [[mx ->]| ->]; [|by right]|];
      (destruct block as [y|]; [destruct (decode_error y) as [[my ->]| ->]; [|by right]|]); left; mon; eauto.
Qed.

End MaskFacts.

(** ** Arrow round trip *)

Section MaskArrow.
Context {RB : Roaring} {RL : RoaringLaws RB} {AR : Arrow} {AL : ArrowLaws AR}.

Lemma write_at_exact buf bytes : zlen buf = zlen bytes -> write_at buf 0 bytes = Ok bytes.
Proof.
  intros Hl. unfold write_at. rewrite Z.sub_0_r, (proj2 (Z.ltb_ge _ _)), Z.add_0_l, zskip_ge by lia. by rewrite app_nil_r.
Qed.

(** The sets of a mask fit the serialized format and the offsets of a binary array. *)
Definition mask_fits (m : RowAddrMask) : Prop :=
  forall s, allow_list m = Some s \/ block_list m = Some s -> fits s /\ serialized_size s <= I32_MAX.

Lemma arrow_roundtrip m : mask_fits m ->
  exists lengths values validity array m', into_arrow m = Ok array /\ ba_try_new lengths values validity = Ok array /\ zlen lengths = 2 /\
    ba_is_null array 0 && ba_is_null array 1 = false /\ from_arrow array = Ok m' /\ (forall row, selected m' row = selected m row) /\
    (is_Some (allow_list m') <-> is_Some (allow_list m)).
Proof.
  intros Hm. set (s := match m with AllowList a => a | BlockList b => b end).
  destruct (Hm s) as [[Hf Hs] Hi]; [subst s; destruct m; auto|]. destruct (read_back s [] Hf Hs) as (s' & Hs' & Hc & _). rewrite app_nil_r in Hs'.
  pose proof (serialized_size_eq s) as Hz. pose proof (zlen_nonneg (serialize_into s)) as H0. unfold I32_MAX in Hi.
  assert (zlen (replicate (Z.to_nat (serialized_size s)) 0) = zlen (serialize_into s)) as Hr by (rewrite zlen_replicate; lia).
  destruct m as [a|b]; subst s; unfold into_arrow; cbn [option_map from_option id];
    rewrite ?Z.add_0_l, ?Z.add_0_r, wrap64_small by (uok; lia); mon; rewrite (write_at_exact _ _ Hr); mon.
  - destruct (ba_try_new_ok [0; serialized_size a] (serialize_into a) [false; true]) as (array & Ha & Hn & Hv);
      [apply Forall_cons; split; [lia|apply Forall_cons; split; [lia|apply Forall_nil_2]]|cbn [foldr]; lia|unfold I32_MAX; lia|done|].
    exists [0; serialized_size a], (serialize_into a), [false; true], array, (AllowList s'). do 3 (split; [done|]). unfold from_arrow.
    rewrite (Hn 0 false), (Hn 1 true) by done. mon. split; [done|].
    rewrite (Hv 1 (serialized_size a)) by done. change (zskip (sum_to [0; serialized_size a] 1) (serialize_into a)) with (serialize_into a).
    rewrite ztake_ge by lia. rewrite Hs'. mon. split; [done|]. split; [intros row; cbn; by rewrite Hc|cbn; by split; eauto].
  - destruct (ba_try_new_ok [serialized_size b; 0] (serialize_into b) [true; false]) as (array & Ha & Hn & Hv);
      [apply Forall_cons; split; [lia|apply Forall_cons; split; [lia|apply Forall_nil_2]]|cbn [foldr]; lia|unfold I32_MAX; lia|done|].
    exists [serialized_size b; 0], (serialize_into b), [true; false], array, (BlockList s'). do 3 (split; [done|]). unfold from_arrow.
    rewrite (Hn 0 true), (Hn 1 false) by done. mon. split; [done|].
    rewrite (Hv 0 (serialized_size b)) by done. change (zskip (sum_to [serialized_size b; 0] 0) (serialize_into b)) with (serialize_into b).
    rewrite ztake_ge by lia. rewrite Hs'. mon. split; [done|]. split; [intros row; cbn; by rewrite Hc|cbn; by split; intros []].
Qed.

(** A mask whose sets fit the format and the 32-bit offsets of a binary array is read back from Arrow as a mask of the same kind
    with the same selection. *)
Theorem mask_arrow_roundtrip (m : RowAddrMask) : mask_fits m ->
  exists array m', into_arrow m = Ok array /\ from_arrow array = Ok m' /\ (forall row, selected m' row = selected m row) /\
    (is_Some (allow_list m') <-> is_Some (allow_list m)).
Proof.
  intros Hm. destruct (arrow_roundtrip m Hm) as (_ & _ & _ & array & m' & Ha & _ & _ & _ & Hf & Hs & Hk). by exists array, m'.
Qed.

End MaskArrow.

(** ** Examples *)

Module RowMaskExamples.

#[local] Existing Instances CofiniteRoaring CofiniteRoaring_laws.

(** A binary array as its lengths, values and validity. *)
Definition ListArrow : Arrow := {|
  binary_array := list Z * list Z * list bool;
  ba_try_new lengths values validity := Ok (lengths, values, validity);
  ba_is_null a i := negb (default false (get_opt (snd a) i));
  ba_value a i := ztake (default 0 (get_opt (fst (fst a)) i)) (zskip (sum_to (fst (fst a)) i) (snd (fst a)))
|}.

Lemma ListArrow_laws : ArrowLaws ListArrow.
Proof.
  constructor. intros lengths values validity _ _ _ _. exists (lengths, values, validity). split; [done|].
  split; intros i x Hx; cbn; by rewrite Hx.
Defined.

Definition allowed : RowAddrTreeMap := insert_fragment (from_iter [1; 5; 4294967300]) 2.
Definition few : RowAddrTreeMap := from_iter [5; 6].

Lemma few_built : built few.
Proof. apply built_extend, built_new. Defined.

Lemma fits_check_all m : forallb (fun p => u32b (fst p) && (sel_size (snd p) <=? U32_MAX)) (btree_iter m) = true -> Z.of_nat (size m) <= U32_MAX -> fits m.
Proof.
  rewrite forallb_forall. intros Hl Hs. split; [|done]. apply Forall_forall. intros p Hp%list_elem_of_In%Hl. apply andb_true_iff in Hp as [Hk Hz].
  split; [by apply u32b_spec|by apply Z.leb_le].
Defined.

Lemma allowed_fits : fits allowed.
Proof. apply fits_check_all; vm_compute; done. Defined.

Lemma few_fits : fits few.
Proof. apply fits_check_all; vm_compute; done. Defined.

Lemma mask_algebra_witness :
  selected (mask_and (AllowList allowed) (BlockList few)) 1 = true /\ selected (mask_or (AllowList allowed) (BlockList few)) 6 = false.
Proof.
  destruct (mask_algebra (AllowList allowed) (BlockList few) few 1) as (_ & Ha & _).
  destruct (mask_algebra (AllowList allowed) (BlockList few) few 6) as (_ & _ & _ & Ho & _). rewrite Ha, Ho. vm_compute. done.
Defined.

Lemma mask_pruning_witness : selected (AllowList (from_iter [8])) 6 = false.
Proof.
  destruct (mask_pruning (AllowList (from_iter [8])) bm_new few few_built) as (_ & Hs & _). apply Hs; vm_compute; done.
Defined.

Lemma mask_selects_all_witness : selected (BlockList (from_iter [8])) 6 = true.
Proof.
  destruct (mask_selects_all (BlockList (from_iter [8])) few few_built) as (Hs & _). apply Hs; vm_compute; done.
Defined.

Lemma mask_max_len_witness : exists l, iter_addrs (AllowList few) = Some l /\ zlen l = 2.
Proof.
  destruct (mask_max_len (AllowList few) 2 [5]) as (_ & (l & Hl & Hn & _) & _); [|vm_compute; done|by exists l].
  intros a [= <-]. split; [apply few_built|vm_compute; done].
Defined.

Lemma mask_from_serialized_parts_witness :
  exists m, from_serialized_parts (Some (serialize_into allowed)) (Some (serialize_into few)) = Ok (Some m) /\ selected m 1 = true /\ selected m 5 = false.
Proof.
  destruct (mask_from_serialized_parts allowed few None None allowed_fits few_fits) as ((m & Hm & Hs) & _).
  exists m. split; [done|]. rewrite !Hs. vm_compute. done.
Defined.

Lemma mask_arrow_roundtrip_witness : exists array m', into_arrow (AR := ListArrow) (BlockList few) = Ok array /\
  from_arrow (AR := ListArrow) array = Ok m' /\ selected m' 5 = false.
Proof.
  destruct (mask_arrow_roundtrip (AR := ListArrow) (AL := ListArrow_laws) (BlockList few)) as (array & m' & Ha & Hm & Hs & _).
  - intros s [[=]|[= <-]]. split; [apply few_fits|vm_compute; done].
  - exists array, m'. split; [done|]. split; [done|]. rewrite Hs. vm_compute. done.
Defined.

End RowMaskExamples.
