(* ===== verification/RowIdMask.v ===== *)
(** * Sets and masks of stable row ids

    The [RowSetOps] trait of [lance-select/src/mask.rs] as a type class with
    its laws, its two implementations ([RowAddrTreeMap] and [RowIdSet], a
    64-bit roaring treemap), and [RowIdMask], the mask over stable row ids. *)

From Stdlib Require Import ZArith Lia.
From stdpp Require Import base option list numbers sorting sets gmap.
From S2P Require Import Prelude Lists Bits RowAddress Itertools Roaring TreeMap TreeMapAlgebra TreeMapBuild.

(** ** The trait *)

Class RowSetOps (S : Type) := {
  rs_is_empty : S -> bool;
  rs_len : S -> option Z;
  rs_remove : S -> Z -> S * bool;
  rs_contains : S -> Z -> bool;
  rs_union_all : list S -> S;
  rs_from_sorted_iter : list Z -> res S
}.

(** What an implementation promises: sets of unique rows.  The size and emptiness are those of sets in the invariant [rs_ok]. *)
Class RowSetLaws (S : Type) {OPS : RowSetOps S} := {
  rs_ok : S -> Prop;
  rs_remove_ok s row : rs_ok s -> rs_ok (fst (rs_remove s row));
  rs_contains_remove s value row : u64_ok value -> u64_ok row ->
    rs_contains (fst (rs_remove s value)) row = negb (row =? value) && rs_contains s row /\
    snd (rs_remove s value) = rs_contains s value;
  rs_union_all_ok l : Forall rs_ok l -> rs_ok (rs_union_all l);
  rs_contains_union_all l row : u64_ok row -> rs_contains (rs_union_all l) row = existsb (fun s => rs_contains s row) l;
  rs_from_sorted_iter_ok rows : ssorted rows -> Forall u64_ok rows ->
    exists s, rs_from_sorted_iter rows = Ok s /\ rs_ok s /\ forall row, u64_ok row -> rs_contains s row = bool_decide (row ∈ rows);
  rs_is_empty_iff s : rs_ok s -> rs_is_empty s = true <-> forall row, u64_ok row -> rs_contains s row = false;
  rs_len_rows s n : rs_ok s -> rs_len s = Some n ->
    exists rows, ssorted rows /\ Forall u64_ok rows /\ n = wrap64 (zlen rows) /\ forall row, u64_ok row -> row ∈ rows <-> rs_contains s row = true
}.

(** ** Row addresses *)

#[export] Instance RowAddrTreeMap_ops {IT : Itertools} {RB : Roaring} : RowSetOps RowAddrTreeMap := {|
  rs_is_empty := TreeMap.is_empty;
  rs_len := TreeMap.len;
  rs_remove := TreeMap.remove;
  rs_contains := TreeMap.contains;
  rs_union_all := TreeMap.union_all;
  rs_from_sorted_iter := TreeMap.from_sorted_iter
|}.

#[export] Instance RowAddrTreeMap_laws {IT : Itertools} {IL : ItertoolsLaws IT} {RB : Roaring} {RL : RoaringLaws RB} : RowSetLaws RowAddrTreeMap.
Proof.
  refine {| rs_ok := wf |}; cbn.
  - intros s row. apply wf_remove.
  - intros s value row Hv Hr. rewrite <- (same_row_eq row value) by done. apply contains_remove.
  - intros l Hl. apply wf_union_all. by apply Forall_forall.
  - intros l row _. apply contains_union_all.
  - apply from_sorted_iter_ok.
  - apply wf_is_empty.
  - intros s n Hw. rewrite len_eq. destruct (all_partial s) eqn:Ep; [|done]. intros [= <-]. exists (addrs s).
    destruct (addrs_spec s Hw Ep) as (Hs & Hu & He). done.
Qed.

(** ** Row ids *)

(** [roaring::RoaringTreemap]: sets of [u64] values. *)
Class Treemap := {
  treemap : Type;
  tm_new : treemap;
  tm_contains : treemap -> Z -> bool;
  tm_insert : treemap -> Z -> treemap * bool;
  tm_remove : treemap -> Z -> treemap * bool;
  tm_or : treemap -> treemap -> treemap;
  tm_sub : treemap -> treemap -> treemap;
  tm_len : treemap -> Z;
  tm_is_empty : treemap -> bool;
  tm_iter : treemap -> list Z
}.

Class TreemapLaws (TM : Treemap) : Prop := {
  tm_contains_u64 t v : tm_contains t v = true -> u64_ok v;
  tm_contains_new v : tm_contains tm_new v = false;
  tm_contains_insert t v w : u64_ok v -> tm_contains (fst (tm_insert t v)) w = (w =? v) || tm_contains t w;
  tm_contains_remove t v w : u64_ok v -> tm_contains (fst (tm_remove t v)) w = negb (w =? v) && tm_contains t w;
  tm_remove_changed t v : u64_ok v -> snd (tm_remove t v) = tm_contains t v;
  tm_contains_or a b v : tm_contains (tm_or a b) v = tm_contains a v || tm_contains b v;
  tm_contains_sub a b v : tm_contains (tm_sub a b) v = tm_contains a v && negb (tm_contains b v);
  tm_iter_sorted t : ssorted (tm_iter t);
  tm_iter_elem t v : v ∈ tm_iter t <-> tm_contains t v = true;
  tm_len_iter t : tm_len t = wrap64 (zlen (tm_iter t));
  tm_is_empty_iff t : tm_is_empty t = true <-> forall v, tm_contains t v = false
}.

(** [RowIdSet { inner: RoaringTreemap }] *)
Record RowIdSet {TM : Treemap} := mkRowIdSet { inner : treemap }.
Arguments mkRowIdSet {TM} inner.

Section RowIdModel.
Context {TM : Treemap}.

Definition ids_new : RowIdSet := mkRowIdSet tm_new.
Definition ids_iter (s : RowIdSet) : list Z := tm_iter (inner s).
Definition union (s other : RowIdSet) : RowIdSet := mkRowIdSet (tm_or (inner s) (inner other)).
Definition difference (s other : RowIdSet) : RowIdSet := mkRowIdSet (tm_sub (inner s) (inner other)).

Definition ids_is_empty (s : RowIdSet) : bool := tm_is_empty (inner s).
Definition ids_len (s : RowIdSet) : option Z := Some (tm_len (inner s)).
Definition ids_remove (s : RowIdSet) (row : Z) : RowIdSet * bool :=
  let '(inner, removed) := tm_remove (inner s) row in (mkRowIdSet inner, removed).
Definition ids_contains (s : RowIdSet) (row : Z) : bool := tm_contains (inner s) row.

Definition ids_union_all (other : list RowIdSet) : RowIdSet :=
  let result := match other with first :: _ => first | [] => ids_new end in
  foldl (fun result set => mkRowIdSet (tm_or (inner result) (inner set))) result other.

Fixpoint ids_from_sorted_loop (inner : treemap) (last : option Z) (iter : list Z) : res RowIdSet :=
  match iter with
  | [] => Ok (mkRowIdSet inner)
  | value :: iter =>
      if match last with Some prev => value <? prev | None => false end then Err Internal
      else ids_from_sorted_loop (fst (tm_insert inner value)) (Some value) iter
  end.

Definition ids_from_sorted_iter (iter : list Z) : res RowIdSet := ids_from_sorted_loop tm_new None iter.

#[export] Instance RowIdSet_ops : RowSetOps RowIdSet := {|
  rs_is_empty := ids_is_empty;
  rs_len := ids_len;
  rs_remove := ids_remove;
  rs_contains := ids_contains;
  rs_union_all := ids_union_all;
  rs_from_sorted_iter := ids_from_sorted_iter
|}.

(** *** [RowIdMask] *)

Inductive RowIdMask := IdAllowList (allow_list : RowIdSet) | IdBlockList (block_list : RowIdSet).

Definition id_default : RowIdMask := IdBlockList ids_new.
Definition id_all_rows : RowIdMask := id_default.
Definition id_allow_nothing : RowIdMask := IdAllowList ids_new.
Definition id_from_allowed (allow_list : RowIdSet) : RowIdMask := IdAllowList allow_list.
Definition id_from_block (block_list : RowIdSet) : RowIdMask := IdBlockList block_list.

Definition id_selected (m : RowIdMask) (row_id : Z) : bool :=
  match m with
  | IdAllowList allow_list => ids_contains allow_list row_id
  | IdBlockList block_list => negb (ids_contains block_list row_id)
  end.

Definition id_selected_indices (m : RowIdMask) (row_ids : list Z) : list Z :=
  omap (fun p => if id_selected m (snd p) then Some (fst p) else None) (enumerate row_ids).

Definition id_also_block (m : RowIdMask) (block_list : RowIdSet) : RowIdMask :=
  match m with
  | IdAllowList allow_list => IdAllowList (difference allow_list block_list)
  | IdBlockList existing => IdBlockList (union existing block_list)
  end.

Definition id_also_allow (m : RowIdMask) (allow_list : RowIdSet) : RowIdMask :=
  match m with
  | IdAllowList existing => IdAllowList (union existing allow_list)
  | IdBlockList block_list => IdBlockList (difference block_list allow_list)
  end.

Definition id_max_len (m : RowIdMask) : option Z :=
  match m with
  | IdAllowList selection => ids_len selection
  | IdBlockList _ => None
  end.

Definition iter_ids (m : RowIdMask) : option (list Z) :=
  match m with
  | IdAllowList allow_list => Some (ids_iter allow_list)
  | IdBlockList _ => None
  end.

End RowIdModel.

(** ** Facts *)

Section RowIdFacts.
Context {TM : Treemap} {TL : TreemapLaws TM}.

Lemma ids_union_all_contains l row : ids_contains (ids_union_all l) row = existsb (fun s => ids_contains s row) l.
Proof.
  unfold ids_union_all. assert (forall l s, ids_contains (foldl (fun result set => mkRowIdSet (tm_or (inner result) (inner set))) s l) row =
    ids_contains s row || existsb (fun s => ids_contains s row) l) as Hf.
  { clear l. induction l as [|x l IH]; intros s; cbn [foldl existsb]; [by rewrite orb_false_r|]. rewrite IH. unfold ids_contains at 1. cbn [inner].
    rewrite tm_contains_or. by rewrite orb_assoc. }
  rewrite Hf. destruct l as [|x l]; [cbn; unfold ids_contains, ids_new; cbn; by rewrite tm_contains_new|]. cbn [existsb].
  by destruct (ids_contains x row).
Qed.

(** Ascending input, with repetitions, gives the set of its values; the first descent is an error. *)
Definition ascends (last : option Z) (l : list Z) : bool :=
  forallb (fun p => fst p <=? snd p) (windows2 (match last with Some x => x :: l | None => l end)).

Lemma ascends_cons last x l : ascends last (x :: l) = match last with Some y => y <=? x | None => true end && ascends (Some x) l.
Proof. by destruct last. Qed.

Lemma ids_from_sorted_loop_ok l t last : Forall u64_ok l ->
  if ascends last l then exists s, ids_from_sorted_loop t last l = Ok s /\ forall row, ids_contains s row = bool_decide (row ∈ l) || tm_contains t row
  else ids_from_sorted_loop t last l = Err Internal.
Proof.
  intros Hu. revert t last. induction Hu as [|x l Hx _ IH]; intros t last.
  - destruct last as [y|]; exists (mkRowIdSet t); done.
  - rewrite ascends_cons. cbn [ids_from_sorted_loop]. specialize (IH (fst (tm_insert t x)) (Some x)).
    assert (match last with Some prev => x <? prev | None => false end = negb match last with Some y => y <=? x | None => true end) as ->.
    { destruct last as [y|]; [|done]. by rewrite Z.ltb_antisym. }
    destruct (match last with Some y => y <=? x | None => true end); cbn [andb negb]; [|done].
    destruct (ascends (Some x) l); [|done]. destruct IH as (s & Hs & Hc). exists s. split; [done|]. intros row. rewrite Hc, tm_contains_insert by done.
    rewrite orb_assoc. f_equal. destruct (Z.eqb_spec row x) as [->|Hn]; [rewrite orb_true_r; symmetry; apply bool_decide_true; left|].
    rewrite orb_false_r. apply bool_decide_ext. rewrite elem_of_cons. naive_solver.
Qed.

Lemma ascends_ssorted l : ssorted l -> ascends None l = true.
Proof.
  unfold ascends. induction l as [|x [|y l] IH]; intros Hs; [done..|]. change (windows2 (x :: y :: l)) with ((x, y) :: windows2 (y :: l)).
  cbn [forallb fst snd]. apply ssorted_cons_inv in Hs as [Hs Hx]. rewrite IH by done. apply Forall_inv in Hx. by rewrite (proj2 (Z.leb_le _ _)) by lia.
Qed.

Lemma ids_from_sorted_iter_ok rows : Forall u64_ok rows ->
  if ascends None rows then exists s, ids_from_sorted_iter rows = Ok s /\ forall row, ids_contains s row = bool_decide (row ∈ rows)
  else ids_from_sorted_iter rows = Err Internal.
Proof.
  intros Hu. pose proof (ids_from_sorted_loop_ok rows tm_new None Hu) as H. destruct (ascends None rows); [|done].
  destruct H as (s & Hs & Hc). exists s. split; [done|]. intros row. by rewrite Hc, tm_contains_new, orb_false_r.
Qed.

#[export] Instance RowIdSet_laws : RowSetLaws RowIdSet.
Proof.
  refine {| rs_ok := fun _ => True |}; cbn; try done.
  - intros s value row Hv Hr. unfold ids_remove, ids_contains. pose proof (tm_contains_remove (inner s) value row Hv) as Hc.
    pose proof (tm_remove_changed (inner s) value Hv) as Hb. by destruct (tm_remove (inner s) value).
  - intros l row _. apply ids_union_all_contains.
  - intros rows Hs Hu. pose proof (ids_from_sorted_iter_ok rows Hu) as H. rewrite ascends_ssorted in H by done.
    destruct H as (s & Hk & Hc). exists s. done.
  - intros s _. unfold ids_is_empty, ids_contains. rewrite tm_is_empty_iff. split; intros H row; [done|].
    destruct (tm_contains (inner s) row) eqn:E; [|done]. rewrite <- E. apply H. by eapply tm_contains_u64.
  - intros s n _ [= <-]. exists (tm_iter (inner s)). split; [apply tm_iter_sorted|]. split; [|split; [apply tm_len_iter|intros row _; apply tm_iter_elem]].
    apply Forall_forall. intros v Hv%tm_iter_elem. by eapply tm_contains_u64.
Qed.

End RowIdFacts.

(** ** Theorems *)

(** Both implementations of [RowSetOps], row address sets and row id sets, keep its contract.  A set built from increasing rows
    has exactly those rows; removing one takes out that row alone and reports whether it was there; the size, when it is
    known, and the emptiness test are those of the remaining rows. *)
Theorem row_set_contract {S : Type} {OPS : RowSetOps S} {L : RowSetLaws S} (rows : list Z) (v : Z) :
  ssorted rows -> Forall u64_ok rows -> u64_ok v ->
  exists s, rs_from_sorted_iter rows = Ok s /\
    (forall row, u64_ok row -> rs_contains (fst (rs_remove s v)) row = bool_decide (row ∈ rows) && negb (row =? v)) /\
    snd (rs_remove s v) = bool_decide (v ∈ rows) /\
    (forall n, rs_len (fst (rs_remove s v)) = Some n -> n = wrap64 (zlen (List.filter (fun r => negb (r =? v)) rows))) /\
    (rs_is_empty (fst (rs_remove s v)) = true <-> List.filter (fun r => negb (r =? v)) rows = []).
Proof.
  intros Hs Hu Hv. destruct (rs_from_sorted_iter_ok rows Hs Hu) as (s & Hk & Hok & Hc). exists s. split; [done|].
  assert (forall row, u64_ok row -> rs_contains (fst (rs_remove s v)) row = bool_decide (row ∈ rows) && negb (row =? v)) as Hr.
  { intros row Hrow. rewrite (proj1 (rs_contains_remove s v row Hv Hrow)), Hc by done. apply andb_comm. }
  split; [done|]. split; [rewrite (proj2 (rs_contains_remove s v v Hv Hv)); by apply Hc|].
  pose proof (rs_remove_ok s v Hok) as Hok'. rewrite Forall_forall in Hu. split.
  - intros n Hn. destruct (rs_len_rows _ n Hok' Hn) as (l & Hl & Hlu & -> & He). do 2 f_equal. apply ssorted_ext; [done|by apply ssorted_filter|].
    rewrite Forall_forall in Hlu. intros x. rewrite elem_of_filterb. split.
    + intros Hx. pose proof (proj1 (He x (Hlu x Hx)) Hx) as Hcx. rewrite Hr in Hcx by auto. apply andb_true_iff in Hcx as [Hcx ?].
      by apply bool_decide_eq_true in Hcx.
    + intros [Hx Hxv]. apply He; [by auto|]. rewrite Hr, Hxv by auto. by rewrite bool_decide_true.
  - rewrite (rs_is_empty_iff _ Hok'). split.
    + intros Ha. destruct (List.filter _ rows) as [|x l] eqn:E; [done|]. assert (x ∈ List.filter (fun r => negb (r =? v)) rows) as Hx by (rewrite E; left).
      apply elem_of_filterb in Hx as [Hx Hxv]. specialize (Ha x (Hu x Hx)). rewrite Hr, Hxv, bool_decide_true in Ha by auto. done.
    + intros E row Hrow. rewrite Hr by done. destruct (negb (row =? v)) eqn:Ev; [|apply andb_false_r]. rewrite andb_true_r. apply bool_decide_false.
      intros Hx. assert (row ∈ List.filter (fun r => negb (r =? v)) rows) as Hin by (by apply elem_of_filterb). rewrite E in Hin. by apply elem_of_nil in Hin.
Qed.

(** A row id mask selects the rows of its allow list, or all but those of its block list; blocking and allowing more ids are the
    Boolean operations on the selection, [iter_ids] lists the selected ids of an allow list in order, and building a set
    from ids that descend is an error while repeated ids are accepted. *)
Theorem id_mask_algebra {TM : Treemap} {TL : TreemapLaws TM} (m : RowIdMask) (s : RowIdSet) (rows : list Z) (row : Z) :
  Forall u64_ok rows ->
  id_selected (id_also_block m s) row = id_selected m row && negb (ids_contains s row) /\
  id_selected (id_also_allow m s) row = id_selected m row || ids_contains s row /\
  id_selected id_all_rows row = true /\ id_selected id_allow_nothing row = false /\
  (forall l, iter_ids m = Some l -> ssorted l /\ (row ∈ l <-> id_selected m row = true) /\ id_max_len m = Some (wrap64 (zlen l))) /\
  (if ascends None rows then exists t, ids_from_sorted_iter rows = Ok t /\ ids_contains t row = bool_decide (row ∈ rows)
   else ids_from_sorted_iter rows = Err Internal).
Proof.
  intros Hu. split; [|split; [|split; [|split; [|split]]]].
  - destruct m as [a|b]; cbn; unfold ids_contains; cbn; rewrite ?tm_contains_sub, ?tm_contains_or, ?negb_orb; done.
  - destruct m as [a|b]; cbn; unfold ids_contains; cbn; rewrite ?tm_contains_sub, ?tm_contains_or; [done|]. by rewrite negb_andb, negb_involutive.
  - cbn. unfold ids_contains, ids_new. cbn. by rewrite tm_contains_new.
  - cbn. unfold ids_contains, ids_new. cbn. by rewrite tm_contains_new.
  - intros l Hl. destruct m as [a|b]; [|done]. injection Hl as <-. split; [apply tm_iter_sorted|]. split; [apply tm_iter_elem|].
    cbn. unfold ids_len, ids_iter. by rewrite tm_len_iter.
  - pose proof (ids_from_sorted_iter_ok rows Hu) as H. destruct (ascends None rows); [|done]. destruct H as (t & Ht & Hc). by exists t.
Qed.

(** ** Examples *)

Module RowIdExamples.

(** Sets of ids as finite sets. *)
Definition GsetTreemap : Treemap := {|
  treemap := gset Z;
  tm_new := ∅;
  tm_contains t v := (0 <=? v) && (v <=? U64_MAX) && bool_decide (v ∈ t);
  tm_insert t v := ({[v]} ∪ t, negb ((0 <=? v) && (v <=? U64_MAX) && bool_decide (v ∈ t)));
  tm_remove t v := (t ∖ {[v]}, (0 <=? v) && (v <=? U64_MAX) && bool_decide (v ∈ t));
  tm_or a b := a ∪ b;
  tm_sub a b := a ∖ b;
  tm_len t := wrap64 (zlen (sort_unstable (List.filter (fun v => (0 <=? v) && (v <=? U64_MAX)) (elements t))));
  tm_is_empty t := forallb (fun v => negb ((0 <=? v) && (v <=? U64_MAX))) (elements t);
  tm_iter t := sort_unstable (List.filter (fun v => (0 <=? v) && (v <=? U64_MAX)) (elements t))
|}.

Lemma GsetTreemap_laws : TreemapLaws GsetTreemap.
Proof.
  assert (forall v, (0 <=? v) && (v <=? U64_MAX) = true <-> u64_ok v) as Hb by (intros v; rewrite andb_true_iff, !Z.leb_le; uok; lia).
  constructor; cbn.
  - intros t v [Hv _]%andb_true_iff. by apply Hb.
  - intros v. rewrite (bool_decide_false (v ∈ ∅)) by set_solver. apply andb_false_r.
  - intros t v w Hv. destruct (Z.eqb_spec w v) as [->|Hn].
    + rewrite bool_decide_true by set_solver. by rewrite (proj2 (Hb v)).
    + cbn. f_equal. apply bool_decide_ext. set_solver.
  - intros t v w Hv. destruct (Z.eqb_spec w v) as [->|Hn].
    + rewrite bool_decide_false by set_solver. apply andb_false_r.
    + cbn. f_equal. apply bool_decide_ext. set_solver.
  - done.
  - intros a b v. destruct (_ && (v <=? _)); [|done]. cbn. rewrite <- bool_decide_or. apply bool_decide_ext. set_solver.
  - intros a b v. destruct (_ && (v <=? _)); [|done]. cbn. rewrite <- bool_decide_not, <- bool_decide_and. apply bool_decide_ext. set_solver.
  - intros t. apply sort_unstable_ssorted, NoDup_filterb, NoDup_elements.
  - intros t v. rewrite sort_unstable_perm, elem_of_filterb, elem_of_elements.
    destruct (bool_decide_reflect (v ∈ t)); rewrite ?andb_true_r, ?andb_false_r; naive_solver.
  - done.
  - intros t. rewrite forallb_forall. split.
    + intros Ha v. destruct (bool_decide_reflect (v ∈ t)) as [Hv|]; [|apply andb_false_r]. rewrite andb_true_r. apply negb_true_iff, Ha.
      by apply list_elem_of_In, elem_of_elements.
    + intros Ha v Hv%list_elem_of_In%elem_of_elements. specialize (Ha v). rewrite bool_decide_true, andb_true_r in Ha by done. by rewrite Ha.
Defined.

#[local] Existing Instances GsetTreemap GsetTreemap_laws.

Lemma row_set_contract_witness : exists s : RowIdSet, rs_from_sorted_iter [3; 7; 4294967299] = Ok s /\
  rs_contains (fst (rs_remove s 7)) 7 = false /\ snd (rs_remove s 7) = true.
Proof.
  destruct (row_set_contract (S := RowIdSet) [3; 7; 4294967299] 7) as (s & Hs & Hc & Hb & _); [repeat constructor; lia|repeat constructor; uok; lia|uok; lia|].
  exists s. split; [done|]. rewrite Hc, Hb by (uok; lia). vm_compute. done.
Defined.

Lemma id_mask_algebra_witness : ids_from_sorted_iter [5; 4] = Err Internal /\
  id_selected (id_also_block (IdAllowList (union ids_new ids_new)) ids_new) 4 = false.
Proof.
  destruct (id_mask_algebra (IdAllowList (union ids_new ids_new)) ids_new [5; 4] 4) as (Hb & _ & _ & _ & _ & He); [repeat constructor; uok; lia|].
  split; [exact He|]. rewrite Hb. vm_compute. done.
Defined.

End RowIdExamples.
