(* ===== verification/NullableMask.v ===== *)
(** * Masks with nulls

    [lance-select/src/mask/nullable.rs]: sets and masks whose rows can also
    be null, the value of a filter on a null column.  A row is true, false or
    null; the theorems show that the operators are those of SQL's
    three-valued logic on every row, although a null row may be stored inside or
    outside the selected set, and that equality of sets is equality of the values of all
    rows. *)

From Stdlib Require Import ZArith Lia.
From stdpp Require Import base option list numbers sorting sets gmap.
From S2P Require Import Prelude Lists Bits RowAddress Itertools Roaring TreeMap TreeMapAlgebra TreeMapBuild TreeMapCodec RowMask.

(** ** Model *)

Record NullableRowAddrSet {RB : Roaring} := mkNullable { n_selected : RowAddrTreeMap; n_nulls : RowAddrTreeMap }.
Arguments mkNullable {RB} n_selected n_nulls.

Section NullableModel.
Context {RB : Roaring}.

Definition nullable_new (selected nulls : RowAddrTreeMap) : NullableRowAddrSet := mkNullable selected nulls.
Definition with_nulls (s : NullableRowAddrSet) (nulls : RowAddrTreeMap) : NullableRowAddrSet := mkNullable (n_selected s) nulls.
Definition nullable_empty : NullableRowAddrSet := mkNullable TreeMap.new TreeMap.new.

Definition true_rows (s : NullableRowAddrSet) : RowAddrTreeMap := sub (n_selected s) (n_nulls s).
Definition nullable_len (s : NullableRowAddrSet) : option Z := len (true_rows s).
Definition nullable_is_empty (s : NullableRowAddrSet) : bool := is_empty (n_selected s).
Definition nullable_selected (s : NullableRowAddrSet) (row_id : Z) : bool :=
  contains (n_selected s) row_id && negb (contains (n_nulls s) row_id).
Definition null_rows (s : NullableRowAddrSet) : RowAddrTreeMap := n_nulls s.
Definition selected_rows (s : NullableRowAddrSet) : RowAddrTreeMap := n_selected s.
Definition into_parts (s : NullableRowAddrSet) : RowAddrTreeMap * RowAddrTreeMap := (n_selected s, n_nulls s).

Definition nullable_union_all (selections : list NullableRowAddrSet) : NullableRowAddrSet :=
  let selected := union_all (map n_selected selections) in
  let nulls := union_all (map n_nulls selections) in
  let any_true := foldl bitor_owned TreeMap.new (map (fun s => sub (n_selected s) (n_nulls s)) selections) in
  let nulls := sub nulls any_true in
  mkNullable selected nulls.

(** *** Equality *)

(** The derived [PartialEq] of [RowAddrSelection] and [RowAddrTreeMap]. *)
Definition selection_eq (a b : RowAddrSelection) : bool :=
  match a, b with
  | Full, Full => true
  | Partial a, Partial b => bm_eq a b
  | _, _ => false
  end.

Fixpoint entries_eq (a b : list (Z * RowAddrSelection)) : bool :=
  match a, b with
  | [], [] => true
  | (k, s) :: a, (k', s') :: b => (k =? k') && selection_eq s s' && entries_eq a b
  | _, _ => false
  end.

Definition treemap_eq (a b : RowAddrTreeMap) : bool := entries_eq (btree_iter a) (btree_iter b).

Definition selections_equal_except_nulls (lhs rhs nulls : option RowAddrSelection) : bool :=
  if match nulls with Some Full => true | _ => false end then true else
  let nulls := match nulls with Some (Partial nulls) => Some nulls | _ => None end in
  match lhs, rhs with
  | Some Full, Some Full | None, None => true
  | Some (Partial lhs), Some (Partial rhs) =>
      match nulls with
      | Some nulls => bm_is_subset (bm_xor lhs rhs) nulls
      | None => bm_eq lhs rhs
      end
  | Some (Partial rows), None | None, Some (Partial rows) =>
      match nulls with None => bm_is_empty rows | Some nulls => bm_is_subset rows nulls end
  | Some Full, Some (Partial rows) | Some (Partial rows), Some Full =>
      match nulls with None => bm_is_full rows | Some nulls => bm_union_len rows nulls =? U32_MAX + 1 end
  | Some Full, None | None, Some Full =>
      match nulls with Some nulls => bm_is_full nulls | None => false end
  end.

Definition maps_equal_except_nulls {IT : Itertools} (lhs rhs : RowAddrTreeMap) (nulls : option RowAddrTreeMap) : bool :=
  forallb (fun entry =>
    let '(fragment, lhs, rhs) :=
      match entry with
      | Both (fragment, lhs) (_, rhs) => (fragment, Some lhs, Some rhs)
      | LeftOnly (fragment, lhs) => (fragment, Some lhs, None)
      | RightOnly (fragment, rhs) => (fragment, None, Some rhs)
      end in
    selections_equal_except_nulls lhs rhs (match nulls with Some nulls => nulls !! fragment | None => None end))
    (merge_join_by (fun l r : Z * RowAddrSelection => fst l ?= fst r) (btree_iter lhs) (btree_iter rhs)).

Definition nullable_eq {IT : Itertools} (a b : NullableRowAddrSet) : bool :=
  if negb (treemap_eq (n_nulls a) (n_nulls b)) && negb (maps_equal_except_nulls (n_nulls a) (n_nulls b) None) then false
  else maps_equal_except_nulls (n_selected a) (n_selected b) (Some (n_nulls a)).

(** *** [&=] and [|=] *)

Definition nullable_and (s rhs : NullableRowAddrSet) : NullableRowAddrSet :=
  let nulls :=
    if is_empty (n_nulls s) && is_empty (n_nulls rhs) then TreeMap.new
    else bitor_owned (bitor_owned (bitand (n_nulls s) (n_nulls rhs)) (bitand (n_nulls s) (n_selected rhs))) (bitand (n_nulls rhs) (n_selected s)) in
  mkNullable (bitand (n_selected s) (n_selected rhs)) nulls.

Definition nullable_or (s rhs : NullableRowAddrSet) : NullableRowAddrSet :=
  let nulls :=
    if is_empty (n_nulls s) && is_empty (n_nulls rhs) then TreeMap.new
    else
      let true_rows := bitor_owned (sub (n_selected s) (n_nulls s)) (sub (n_selected rhs) (n_nulls rhs)) in
      sub (bitor (n_nulls s) (n_nulls rhs)) true_rows in
  mkNullable (bitor (n_selected s) (n_selected rhs)) nulls.

(** *** [NullableRowAddrMask] *)

Inductive NullableRowAddrMask := NAllowList (set : NullableRowAddrSet) | NBlockList (set : NullableRowAddrSet).

Definition n_allow_nothing : NullableRowAddrMask := NAllowList nullable_empty.
Definition n_all_rows : NullableRowAddrMask := NBlockList nullable_empty.

Definition n_mask_selected (m : NullableRowAddrMask) (row_id : Z) : bool :=
  match m with
  | NAllowList (mkNullable selected nulls) => contains selected row_id && negb (contains nulls row_id)
  | NBlockList (mkNullable selected nulls) => negb (contains selected row_id) && negb (contains nulls row_id)
  end.

Definition drop_nulls (m : NullableRowAddrMask) : RowAddrMask :=
  match m with
  | NAllowList (mkNullable selected nulls) => AllowList (sub selected nulls)
  | NBlockList (mkNullable selected nulls) => BlockList (bitor_owned selected nulls)
  end.

Definition n_mask_not (m : NullableRowAddrMask) : NullableRowAddrMask :=
  match m with
  | NAllowList set => NBlockList set
  | NBlockList set => NAllowList set
  end.

Definition n_mask_and (m rhs : NullableRowAddrMask) : NullableRowAddrMask :=
  match m, rhs with
  | NAllowList a, NAllowList b =>
      let nulls :=
        if is_empty (n_nulls a) && is_empty (n_nulls b) then TreeMap.new
        else bitor_owned (bitor_owned (bitand (n_nulls a) (n_nulls b)) (bitand (n_nulls a) (n_selected b))) (bitand (n_nulls b) (n_selected a)) in
      let selected := bitand (n_selected a) (n_selected b) in
      NAllowList (mkNullable selected nulls)
  | NAllowList allow, NBlockList block | NBlockList block, NAllowList allow =>
      let nulls :=
        if is_empty (n_nulls allow) && is_empty (n_nulls block) then TreeMap.new
        else bitor_owned (bitor_owned (bitand (n_nulls allow) (n_nulls block)) (sub (n_nulls allow) (n_selected block)))
               (bitand (n_nulls block) (n_selected allow)) in
      let selected := sub (n_selected allow) (n_selected block) in
      NAllowList (mkNullable selected nulls)
  | NBlockList a, NBlockList b =>
      let nulls :=
        if is_empty (n_nulls a) && is_empty (n_nulls b) then TreeMap.new
        else bitor_owned (bitor_owned (bitand (n_nulls a) (n_nulls b)) (sub (n_nulls a) (n_selected b))) (sub (n_nulls b) (n_selected a)) in
      let selected := bitor_owned (n_selected a) (n_selected b) in
      NBlockList (mkNullable selected nulls)
  end.

Definition n_mask_or (m rhs : NullableRowAddrMask) : NullableRowAddrMask :=
  match m, rhs with
  | NAllowList a, NAllowList b =>
      let nulls :=
        if is_empty (n_nulls a) && is_empty (n_nulls b) then TreeMap.new
        else
          let true_rows := bitor_owned (sub (n_selected a) (n_nulls a)) (sub (n_selected b) (n_nulls b)) in
          sub (bitor_owned (n_nulls a) (n_nulls b)) true_rows in
      let selected := bitor (bitor_owned (n_selected a) (n_selected b)) nulls in
      NAllowList (mkNullable selected nulls)
  | NAllowList allow, NBlockList block | NBlockList block, NAllowList allow =>
      let allow_true := sub (n_selected allow) (n_nulls allow) in
      let block_false := sub (n_selected block) (n_nulls block) in
      let nulls :=
        if is_empty (n_nulls allow) && is_empty (n_nulls block) then TreeMap.new
        else bitor_owned (bitand (n_nulls allow) block_false) (sub (n_nulls block) allow_true) in
      let selected := bitor (sub block_false allow_true) nulls in
      NBlockList (mkNullable selected nulls)
  | NBlockList a, NBlockList b =>
      let a_false := sub (n_selected a) (n_nulls a) in
      let b_false := sub (n_selected b) (n_nulls b) in
      let nulls :=
        if is_empty (n_nulls a) && is_empty (n_nulls b) then TreeMap.new
        else bitor_owned (bitor_owned (bitand (n_nulls a) b_false) (bitand (n_nulls b) a_false)) (bitand (n_nulls a) (n_nulls b)) in
      let selected := bitor (bitand a_false b_false) nulls in
      NBlockList (mkNullable selected nulls)
  end.

(** The derived [PartialEq]. *)
Definition n_mask_eq {IT : Itertools} (a b : NullableRowAddrMask) : bool :=
  match a, b with
  | NAllowList a, NAllowList b => nullable_eq a b
  | NBlockList a, NBlockList b => nullable_eq a b
  | _, _ => false
  end.

End NullableModel.

(** ** Three-valued logic *)

Inductive tri := TTrue | TFalse | TNull.

Definition tnot (a : tri) : tri := match a with TTrue => TFalse | TFalse => TTrue | TNull => TNull end.
Definition tand (a b : tri) : tri :=
  match a, b with
  | TFalse, _ | _, TFalse => TFalse
  | TTrue, TTrue => TTrue
  | _, _ => TNull
  end.
Definition tor (a b : tri) : tri := tnot (tand (tnot a) (tnot b)).

Section NullableFacts.
Context {RB : Roaring} {RL : RoaringLaws RB}.

(** The value of a row in a set, and in a mask. *)
Definition set_value (s : NullableRowAddrSet) (row : Z) : tri :=
  if contains (n_nulls s) row then TNull else if contains (n_selected s) row then TTrue else TFalse.

Definition mask_value (m : NullableRowAddrMask) (row : Z) : tri :=
  match m with NAllowList s => set_value s row | NBlockList s => tnot (set_value s row) end.

Create Rewrite HintDb rows.
#[local] Hint Rewrite @contains_bitor_owned @contains_bitor @contains_bitand @contains_sub @contains_empty using typeclasses eauto : rows.

(** The fast path: without nulls on either side there are none in the result. *)
Lemma contains_fast_path a b m row : (contains a row = false -> contains b row = false -> contains m row = false) ->
  contains (if is_empty a && is_empty b then TreeMap.new else m) row = contains m row.
Proof.
  intros Hm. destruct (is_empty a) eqn:Ea, (is_empty b) eqn:Eb; cbn [andb]; try done. rewrite Hm by (by apply is_empty_rows). apply contains_empty.
Qed.

Ltac rows_bool := repeat match goal with |- context [contains ?m ?row] => destruct (contains m row) end; done.

Ltac no_nulls := let Ha := fresh in let Hb := fresh in intros Ha Hb; autorewrite with rows; rewrite Ha, Hb; rows_bool.

(** Case analysis on the rows of the two sets. *)
Ltac kleene :=
  unfold mask_value, set_value; cbn [n_selected n_nulls]; autorewrite with rows; rewrite ?contains_fast_path by no_nulls; autorewrite with rows; rows_bool.

Lemma set_value_and a b row : set_value (nullable_and a b) row = tand (set_value a row) (set_value b row).
Proof. unfold nullable_and. kleene. Qed.

Lemma set_value_or a b row : set_value (nullable_or a b) row = tor (set_value a row) (set_value b row).
Proof. unfold nullable_or. kleene. Qed.

Lemma mask_value_not m row : mask_value (n_mask_not m) row = tnot (mask_value m row).
Proof. destruct m; cbn; by destruct (set_value _ row). Qed.

Lemma mask_value_and a b row : mask_value (n_mask_and a b) row = tand (mask_value a row) (mask_value b row).
Proof. destruct a as [a|a], b as [b|b]; cbn [n_mask_and]; kleene. Qed.

Lemma mask_value_or a b row : mask_value (n_mask_or a b) row = tor (mask_value a row) (mask_value b row).
Proof. destruct a as [a|a], b as [b|b]; cbn [n_mask_or]; kleene. Qed.

(** ** Union of many sets, and two-valued views *)

Lemma existsb_map {A B} (f : B -> bool) (g : A -> B) l : existsb f (map g l) = existsb (fun x => f (g x)) l.
Proof. induction l as [|x l IH]; cbn; [done|by rewrite IH]. Qed.

Lemma existsb_ext {A} (f g : A -> bool) l : (forall x, f x = g x) -> existsb f l = existsb g l.
Proof. intros He. induction l as [|x l IH]; cbn; [done|by rewrite He, IH]. Qed.

Lemma contains_foldl_bitor l m row : contains (foldl bitor_owned m l) row = contains m row || existsb (fun r => contains r row) l.
Proof.
  revert m. induction l as [|r l IH]; intros m; cbn [foldl existsb]; [by rewrite orb_false_r|]. by rewrite IH, contains_bitor_owned, orb_assoc.
Qed.

Lemma fold_tor l row : foldr tor TFalse (map (fun s => set_value s row) l) =
  if existsb (fun s => contains (n_selected s) row && negb (contains (n_nulls s) row)) l then TTrue
  else if existsb (fun s => contains (n_nulls s) row) l then TNull else TFalse.
Proof.
  induction l as [|s l IH]; [done|]. cbn [map foldr existsb]. rewrite IH. unfold set_value.
  destruct (contains (n_selected s) row), (contains (n_nulls s) row), (existsb _ l), (existsb _ l); done.
Qed.

Lemma set_value_union_all l row : set_value (nullable_union_all l) row = foldr tor TFalse (map (fun s => set_value s row) l).
Proof.
  rewrite fold_tor. unfold set_value, nullable_union_all. cbn [n_selected n_nulls]. rewrite contains_sub, !contains_union_all, contains_foldl_bitor.
  rewrite !existsb_map, contains_new. cbn [orb].
  rewrite (existsb_ext (fun s => contains (sub (n_selected s) (n_nulls s)) row) (fun s => contains (n_selected s) row && negb (contains (n_nulls s) row)))
    by (intros; apply contains_sub).
  destruct (existsb (fun s => contains (n_selected s) row && _) l) eqn:Et; cbn [negb].
  - rewrite andb_false_r. apply existsb_exists in Et as (s & Hin & [Hs _]%andb_true_iff).
    assert (existsb (fun s => contains (n_selected s) row) l = true) as ->; [|done]. apply existsb_exists. by exists s.
  - rewrite andb_true_r. destruct (existsb (fun s => contains (n_nulls s) row) l) eqn:En; [done|].
    destruct (existsb (fun s => contains (n_selected s) row) l) eqn:Es; [|done]. apply existsb_exists in Es as (s & Hin%list_elem_of_In & Hs).
    apply (existsb_false _ _ s) in Et; [|done]. apply (existsb_false _ _ s) in En; [|done]. cbn in Et, En. by rewrite Hs, En in Et.
Qed.

Definition is_true (t : tri) : bool := match t with TTrue => true | _ => false end.

Lemma nullable_selected_value s row : nullable_selected s row = is_true (set_value s row).
Proof. unfold nullable_selected, set_value. rows_bool. Qed.

Lemma n_mask_selected_value m row : n_mask_selected m row = is_true (mask_value m row).
Proof. destruct m as [[a b]|[a b]]; cbn; unfold set_value; cbn; rows_bool. Qed.

Lemma selected_drop_nulls m row : selected (drop_nulls m) row = is_true (mask_value m row).
Proof. destruct m as [[a b]|[a b]]; cbn; unfold set_value; cbn; autorewrite with rows; rows_bool. Qed.

(** ** Equality of fragments *)

(** The tests on bitmaps as statements on offsets. *)
Lemma by_offsets (P : Z -> Prop) : (forall v, ~ u32_ok v -> P v) -> (forall v, P v) <-> (forall v, u32_ok v -> P v).
Proof. intros Hn. split; [auto|]. intros H v. destruct (decide (0 <= v <= U32_MAX)) as [Hv|Hv]; [by apply H|by apply Hn]. Qed.

Lemma subset_offsets a b : bm_is_subset a b = true <-> forall v, u32_ok v -> implb (bm_contains a v) (bm_contains b v) = true.
Proof.
  rewrite bm_is_subset_iff, by_offsets by (intros v Hv; by rewrite (bm_contains_out a v Hv)). split; intros H v Hv; specialize (H v Hv);
    destruct (bm_contains a v), (bm_contains b v); naive_solver.
Qed.

Lemma empty_offsets a : bm_is_empty a = true <-> forall v, u32_ok v -> negb (bm_contains a v) = true.
Proof.
  rewrite bm_is_empty_iff, by_offsets by (intros v Hv; apply (bm_contains_out a v Hv)). split; intros H v Hv; specialize (H v Hv);
    destruct (bm_contains a v); done.
Qed.

Lemma eq_offsets a b : bm_eq a b = true <-> forall v, u32_ok v -> eqb (bm_contains a v) (bm_contains b v) = true.
Proof.
  rewrite bm_eq_iff, by_offsets by (intros v Hv; by rewrite (bm_contains_out a v Hv), (bm_contains_out b v Hv)).
  split; intros H v Hv; specialize (H v Hv); [rewrite H; apply eqb_reflx|by apply eqb_prop].
Qed.

Lemma union_full_offsets a b : (bm_union_len a b =? U32_MAX + 1) = true <-> forall v, u32_ok v -> bm_contains a v || bm_contains b v = true.
Proof.
  rewrite Z.eqb_eq, bm_union_len_or. change (U32_MAX + 1) with U32_COUNT. rewrite bm_full_len. split; intros H v Hv; specialize (H v Hv); by rewrite bm_contains_or in *.
Qed.

(** Away from the nulls the two entries have the same offsets. *)
Definition sel_agree (l r n : option RowAddrSelection) : Prop :=
  forall v, u32_ok v -> sel_has n v || eqb (sel_has l v) (sel_has r v) = true.

Lemma offsets_iff (f g : Z -> bool) : (forall v, f v = g v) -> (forall v, u32_ok v -> f v = true) <-> (forall v, u32_ok v -> g v = true).
Proof. intros He. split; intros H v Hv; [rewrite <- He|rewrite He]; by apply H. Qed.

Lemma selections_equal_spec l r n : selections_equal_except_nulls l r n = true <-> sel_agree l r n.
Proof.
  unfold sel_agree. destruct n as [[|n]|], l as [[|a]|], r as [[|b]|]; cbn;
    rewrite ?union_full_offsets, ?bm_is_full_iff, ?subset_offsets, ?empty_offsets, ?eq_offsets.
  all: first
    [apply offsets_iff; intros v; rewrite ?bm_contains_xor;
       repeat match goal with |- context [bm_contains ?x v] => destruct (bm_contains x v) end; done
    |split; [intros _ v _; repeat match goal with |- context [bm_contains ?x v] => destruct (bm_contains x v) end; done|done]
    |split; [done|intros H; exact (H 0 ltac:(uok; lia))]].
Qed.

(** ** Equality of maps *)

Lemma entry_cases {IT : Itertools} {IL : ItertoolsLaws IT} (l r : RowAddrTreeMap) (f : EitherOrBoth (Z * RowAddrSelection) (Z * RowAddrSelection) -> bool)
    (g : Z -> option RowAddrSelection -> option RowAddrSelection -> bool) :
  (forall k a b, f (Both (k, a) (k, b)) = g k (Some a) (Some b)) -> (forall k a, f (LeftOnly (k, a)) = g k (Some a) None) ->
  (forall k b, f (RightOnly (k, b)) = g k None (Some b)) -> (forall k, g k None None = true) ->
  forallb f (merge_join_by (fun l r : Z * RowAddrSelection => fst l ?= fst r) (btree_iter l) (btree_iter r)) = true <->
  forall k, g k (l !! k) (r !! k) = true.
Proof.
  intros Hb Hl Hr Hn. rewrite forallb_forall.
  assert (forall e, In e (merge_join_by (fun l r : Z * RowAddrSelection => fst l ?= fst r) (btree_iter l) (btree_iter r)) <->
    match e with
    | Both (k, a) (k', b) => l !! k = Some a /\ r !! k' = Some b /\ k = k'
    | LeftOnly (k, a) => l !! k = Some a /\ r !! k = None
    | RightOnly (k, b) => r !! k = Some b /\ l !! k = None
    end) as Hin.
  { assert (forall (m : RowAddrTreeMap) k, k ∉ map fst (btree_iter m) <-> m !! k = None) as Hk.
    { intros m k. rewrite list_elem_of_fmap. split.
      - intros Hx. destruct (m !! k) as [s|] eqn:E; [|done]. destruct Hx. exists (k, s). split; [done|]. by apply btree_iter_elem.
      - intros E ([k' s] & -> & Hs%btree_iter_elem). cbn in E. congruence. }
    intros e. rewrite <- list_elem_of_In.
    rewrite (merge_join_by_spec (IT := IT) fst fst _ _ (btree_iter_sorted l) (btree_iter_sorted r) e).
    destruct e as [[k a]|[k b]|[k a] [k' b]]; cbn [fst]; by rewrite ?btree_iter_elem, ?Hk. }
  split.
  - intros Ha k. destruct (l !! k) as [a|] eqn:El, (r !! k) as [b|] eqn:Er.
    + rewrite <- Hb. apply Ha, Hin. done.
    + rewrite <- Hl. apply Ha, Hin. done.
    + rewrite <- Hr. apply Ha, Hin. done.
    + apply Hn.
  - intros Ha e He%Hin. destruct e as [[k a]|[k b]|[k a] [k' b]].
    + destruct He as [E1 E2]. rewrite Hl, <- E1, <- E2. apply Ha.
    + destruct He as [E1 E2]. rewrite Hr, <- E1, <- E2. apply Ha.
    + destruct He as (E1 & E2 & <-). rewrite Hb, <- E1, <- E2. apply Ha.
Qed.

Lemma maps_equal_spec {IT : Itertools} {IL : ItertoolsLaws IT} l r n : maps_equal_except_nulls l r n = true <->
  forall k, sel_agree (l !! k) (r !! k) (match n with Some n => n !! k | None => None end).
Proof.
  unfold maps_equal_except_nulls.
  rewrite (entry_cases l r _ (fun k a b => selections_equal_except_nulls a b (match n with Some n => n !! k | None => None end))); [|done..|].
  - split; intros H k; by apply selections_equal_spec.
  - intros k. by destruct (match n with Some n => n !! k | None => None end) as [[]|].
Qed.

Lemma entries_eq_contains a b k v : entries_eq a b = true ->
  sel_has (snd <$> List.find (fun p => fst p =? k) a) v = sel_has (snd <$> List.find (fun p => fst p =? k) b) v.
Proof.
  revert b. induction a as [|[ka sa] a IH]; intros [|[kb sb] b]; cbn [entries_eq]; try done.
  intros [[Hk%Z.eqb_eq Hs]%andb_true_iff He]%andb_true_iff. subst kb. cbn [List.find fst]. destruct (ka =? k); [|by apply IH]. cbn.
  destruct sa as [|x], sb as [|y]; cbn in *; try done. by apply bm_eq_iff.
Qed.

Lemma treemap_eq_contains a b row : treemap_eq a b = true -> contains a row = contains b row.
Proof.
  intros He. rewrite !contains_sel. pose proof (entries_eq_contains _ _ (upper row) (lower row) He) as H. rewrite !find_btree_iter in H.
  destruct (a !! upper row), (b !! upper row); done.
Qed.

(** The keys are [u32] values. *)
Definition keys_ok (m : RowAddrTreeMap) : Prop := map_Forall (fun k _ => u32_ok k) m.

(** Agreement of every fragment is agreement of every row. *)
Lemma agree_rows l r n : keys_ok l -> keys_ok r ->
  (forall k, sel_agree (l !! k) (r !! k) (match n with Some n => n !! k | None => None end)) <->
  (forall row, u64_ok row -> match n with Some n => contains n row | None => false end || eqb (contains l row) (contains r row) = true).
Proof.
  intros Hl Hr. split.
  - intros H row Hrow. specialize (H (upper row) (lower row) (lower_ok row)). rewrite !contains_sel. destruct n as [n|]; done.
  - intros H k v Hv. destruct (decide (0 <= k <= U32_MAX)) as [Hk|Hk].
    + destruct (row_of_parts k v Hk Hv) as (row & Hrow & <- & <- & _). specialize (H row Hrow). rewrite !contains_sel in H. destruct n as [n|]; done.
    + destruct (l !! k) as [s|] eqn:El; [by destruct Hk; apply (Hl _ _ El)|]. destruct (r !! k) as [s|] eqn:Er; [by destruct Hk; apply (Hr _ _ Er)|].
      cbn. by rewrite orb_true_r.
Qed.

Definition set_keys_ok (s : NullableRowAddrSet) : Prop := keys_ok (n_selected s) /\ keys_ok (n_nulls s).

Lemma nullable_eq_spec {IT : Itertools} {IL : ItertoolsLaws IT} a b : set_keys_ok a -> set_keys_ok b ->
  nullable_eq a b = true <-> forall row, u64_ok row -> set_value a row = set_value b row.
Proof.
  intros [Ha Han] [Hb Hbn]. unfold nullable_eq.
  assert (negb (treemap_eq (n_nulls a) (n_nulls b)) && negb (maps_equal_except_nulls (n_nulls a) (n_nulls b) None) = false <->
    forall row, u64_ok row -> contains (n_nulls a) row = contains (n_nulls b) row) as Hn.
  { rewrite <- negb_orb, negb_false_iff, orb_true_iff, maps_equal_spec, (agree_rows _ _ None Han Hbn). split.
    - intros [He|He] row Hrow; [by apply treemap_eq_contains|]. apply eqb_prop. by apply (He row).
    - intros He. right. intros row Hrow. cbn. rewrite He by done. apply eqb_reflx. }
  destruct (_ && _) eqn:E.
  - split; [done|]. intros Hv. exfalso. enough (true = false) by done. apply Hn. intros row Hrow. specialize (Hv row Hrow). unfold set_value in Hv.
    destruct (contains (n_nulls a) row), (contains (n_nulls b) row), (contains (n_selected a) row), (contains (n_selected b) row); done.
  - rewrite maps_equal_spec, (agree_rows _ _ (Some (n_nulls a)) Ha Hb). pose proof (proj1 Hn eq_refl) as Hnulls.
    split; intros H row Hrow; specialize (H row Hrow); specialize (Hnulls row Hrow); unfold set_value in *; rewrite <- Hnulls in *;
      destruct (contains (n_nulls a) row), (contains (n_selected a) row), (contains (n_selected b) row); done.
Qed.

(** ** Theorems *)

(** C4: the operators on nullable masks are SQL's three-valued operators on the value of every row, for all mixes of allow and block lists
    and wherever null rows are stored; the same holds of the operators on nullable sets and of the union of many sets. *)
Theorem nullable_kleene (a b : NullableRowAddrMask) (s t : NullableRowAddrSet) (l : list NullableRowAddrSet) (row : Z) :
  mask_value (n_mask_not a) row = tnot (mask_value a row) /\
  mask_value (n_mask_and a b) row = tand (mask_value a row) (mask_value b row) /\
  mask_value (n_mask_or a b) row = tor (mask_value a row) (mask_value b row) /\
  set_value (nullable_and s t) row = tand (set_value s row) (set_value t row) /\
  set_value (nullable_or s t) row = tor (set_value s row) (set_value t row) /\
  set_value (nullable_union_all l) row = foldr tor TFalse (map (fun s => set_value s row) l).
Proof. auto 10 using mask_value_not, mask_value_and, mask_value_or, set_value_and, set_value_or, set_value_union_all. Qed.

(** [selected] and the mask left by [drop_nulls] select exactly the rows whose value is true, and [true_rows] holds them. *)
Theorem nullable_selected_true (m : NullableRowAddrMask) (s : NullableRowAddrSet) (row : Z) :
  n_mask_selected m row = is_true (mask_value m row) /\
  selected (drop_nulls m) row = is_true (mask_value m row) /\
  nullable_selected s row = is_true (set_value s row) /\
  contains (true_rows s) row = is_true (set_value s row).
Proof.
  split; [apply n_mask_selected_value|]. split; [apply selected_drop_nulls|]. split; [apply nullable_selected_value|].
  unfold true_rows. rewrite contains_sub. apply nullable_selected_value.
Qed.

(** Equality of nullable sets is semantic: two sets compare equal exactly when every row has the same value in both, whether the
    rows are stored as whole fragments or as bitmaps and whether null rows are also stored as selected. *)
Theorem nullable_eq_semantic {IT : Itertools} {IL : ItertoolsLaws IT} (a b : NullableRowAddrSet) : set_keys_ok a -> set_keys_ok b ->
  nullable_eq a b = true <-> forall row, u64_ok row -> set_value a row = set_value b row.
Proof. apply nullable_eq_spec. Qed.

End NullableFacts.

(** ** Examples *)

Module NullableExamples.

#[local] Existing Instances ItertoolsLists ItertoolsLists_laws CofiniteRoaring CofiniteRoaring_laws.

Definition set_a : NullableRowAddrSet := mkNullable (from_iter [1; 2]) (from_iter [3]).
(** The same values: the null row 3 is also stored as selected. *)
Definition set_a' : NullableRowAddrSet := mkNullable (from_iter [1; 2; 3]) (from_iter [3]).
Definition set_b : NullableRowAddrSet := mkNullable (from_iter [2; 3]) (from_iter [4]).

Lemma nullable_kleene_witness :
  mask_value (n_mask_and (NAllowList set_a) (NBlockList set_b)) 3 = TFalse /\ mask_value (n_mask_or (NAllowList set_a) (NBlockList set_b)) 4 = TNull /\
  set_value (nullable_union_all [set_a; set_b]) 3 = TTrue.
Proof.
  destruct (nullable_kleene (NAllowList set_a) (NBlockList set_b) set_a set_b [set_a; set_b] 3) as (_ & Ha & _ & _ & _ & Hu).
  destruct (nullable_kleene (NAllowList set_a) (NBlockList set_b) set_a set_b [set_a; set_b] 4) as (_ & _ & Ho & _).
  rewrite Ha, Ho, Hu. vm_compute. done.
Defined.

Lemma nullable_selected_true_witness : selected (drop_nulls (NBlockList set_b)) 4 = false /\ contains (true_rows set_a') 3 = false.
Proof.
  destruct (nullable_selected_true (NBlockList set_b) set_a' 4) as (_ & Hd & _).
  destruct (nullable_selected_true (NBlockList set_b) set_a' 3) as (_ & _ & _ & Ht). rewrite Hd, Ht. vm_compute. done.
Defined.

Lemma from_iter_keys_ok rows : keys_ok (from_iter rows).
Proof.
  assert (wf (from_iter rows)) as Hw by (apply wf_extend_rows, map_Forall_empty). intros k s Hk. by apply (Hw k s).
Defined.

Lemma nullable_eq_semantic_witness : set_value set_a 3 = set_value set_a' 3.
Proof.
  assert (nullable_eq set_a set_a' = true) as He by (vm_compute; done).
  apply (nullable_eq_semantic set_a set_a'); [by split; apply from_iter_keys_ok|by split; apply from_iter_keys_ok|exact He|uok; lia].
Defined.

End NullableExamples.
