(* ===== verification/IndexResult.v ===== *)
(** * Index search results

    [lance-select/src/result.rs]: the interval [lower, upper] of masks that a
    scalar index returns, before and after nulls are dropped, its Boolean
    algebra, and its record-batch serialization.  The theorems show that the
    algebra keeps a sound interval around the true answer, that the exact flag
    implies equal bounds, and that the serialized forms decode to the same
    interval or, in the legacy format, to a wider one. *)

From Stdlib Require Import ZArith Lia.
From stdpp Require Import base option list numbers sorting sets gmap strings.
From S2P Require Import Prelude Lists Bits RowAddress Itertools Roaring TreeMap TreeMapAlgebra TreeMapBuild TreeMapCodec RowMask NullableMask.

(** ** Record batches *)

Inductive column {AR : Arrow} := BinaryColumn (a : binary_array) | UInt32Column (values : list Z).

(** [BinaryBuilder] and [RecordBatch] of the [arrow] crates. *)
Class ArrowBatch {AR : Arrow} := {
  ba_len : binary_array -> Z;
  (** [append_value] or [append_null] per item, then [finish]. *)
  ba_build : list (option (list Z)) -> res binary_array;
  record_batch : Type;
  rb_try_new : list string -> list column -> res record_batch;
  rb_num_rows : record_batch -> Z;
  rb_num_columns : record_batch -> Z;
  (** [schema().field(i).name()] and [column(i)] *)
  rb_field_name : record_batch -> Z -> res string;
  rb_column : record_batch -> Z -> res column
}.

Definition item_len (o : option (list Z)) : Z := match o with Some l => zlen l | None => 0 end.

Class ArrowBatchLaws {AR : Arrow} (AB : ArrowBatch) : Prop := {
  ba_try_new_len lengths values validity a : ba_try_new lengths values validity = Ok a -> ba_len a = zlen lengths;
  ba_build_ok items : foldr Z.add 0 (map item_len items) <= I32_MAX ->
    exists a, ba_build items = Ok a /\ ba_len a = zlen items /\
      forall i o, get_opt items i = Some o -> ba_is_null a i = match o with Some _ => false | None => true end /\
        (forall l, o = Some l -> ba_value a i = l);
  rb_try_new_ok names cols n : zlen names = zlen cols ->
    Forall (fun c => match c with BinaryColumn a => ba_len a = n | UInt32Column l => zlen l = n end) cols ->
    exists b, rb_try_new names cols = Ok b /\ rb_num_columns b = zlen cols /\ (cols <> [] -> rb_num_rows b = n) /\
      (forall i s, get_opt names i = Some s -> rb_field_name b i = Ok s) /\
      (forall i c, get_opt cols i = Some c -> rb_column b i = Ok c)
}.

(** ** Results with nulls *)

Record NullableIndexExprResult {RB : Roaring} := mkNResult { nr_lower : NullableRowAddrMask; nr_upper : NullableRowAddrMask; nr_exact : bool }.
Arguments mkNResult {RB} nr_lower nr_upper nr_exact.

Record IndexExprResult {RB : Roaring} := mkResult { r_lower : RowAddrMask; r_upper : RowAddrMask; r_exact : bool }.
Arguments mkResult {RB} r_lower r_upper r_exact.

Section ResultModel.
Context {RB : Roaring}.

Definition n_exact (mask : NullableRowAddrMask) : NullableIndexExprResult := mkNResult mask mask true.
Definition n_at_most (mask : NullableRowAddrMask) : NullableIndexExprResult := mkNResult n_allow_nothing mask false.
Definition n_at_least (mask : NullableRowAddrMask) : NullableIndexExprResult := mkNResult mask n_all_rows false.
Definition n_result_new {IT : Itertools} (lower upper : NullableRowAddrMask) : NullableIndexExprResult :=
  if n_mask_eq lower upper then n_exact lower else mkNResult lower upper false.
Definition n_is_exact (r : NullableIndexExprResult) : bool := nr_exact r.

(** The transformation is applied to the upper bound only when the result is not exact. *)
Definition try_map {IT : Itertools} (r : NullableIndexExprResult) (transform : NullableRowAddrMask -> res NullableRowAddrMask)
    : res NullableIndexExprResult :=
  lower ← transform (nr_lower r);
  if nr_exact r then Ok (n_exact lower)
  else upper ← transform (nr_upper r); Ok (n_result_new lower upper).

Definition n_is_at_most (r : NullableIndexExprResult) : bool := match nr_lower r with NAllowList set => nullable_is_empty set | _ => false end.
Definition n_is_at_least (r : NullableIndexExprResult) : bool := match nr_upper r with NBlockList set => nullable_is_empty set | _ => false end.

Definition result_drop_nulls (r : NullableIndexExprResult) : IndexExprResult :=
  mkResult (drop_nulls (nr_lower r)) (drop_nulls (nr_upper r)) (nr_exact r).

Definition n_result_not (r : NullableIndexExprResult) : NullableIndexExprResult :=
  mkNResult (n_mask_not (nr_upper r)) (n_mask_not (nr_lower r)) (nr_exact r).
Definition n_result_and (r rhs : NullableIndexExprResult) : NullableIndexExprResult :=
  mkNResult (n_mask_and (nr_lower r) (nr_lower rhs)) (n_mask_and (nr_upper r) (nr_upper rhs)) (nr_exact r && nr_exact rhs).
Definition n_result_or (r rhs : NullableIndexExprResult) : NullableIndexExprResult :=
  mkNResult (n_mask_or (nr_lower r) (nr_lower rhs)) (n_mask_or (nr_upper r) (nr_upper rhs)) (nr_exact r && nr_exact rhs).

(** ** Results without nulls *)

Definition exact (mask : RowAddrMask) : IndexExprResult := mkResult mask mask true.
Definition at_most (mask : RowAddrMask) : IndexExprResult := mkResult allow_nothing mask false.
Definition at_least (mask : RowAddrMask) : IndexExprResult := mkResult mask all_rows false.
Definition result_new (lower upper : RowAddrMask) : IndexExprResult := mkResult lower upper false.
Definition is_exact (r : IndexExprResult) : bool := r_exact r.
Definition is_at_most (r : IndexExprResult) : bool := match r_lower r with AllowList set => is_empty set | _ => false end.
Definition is_at_least (r : IndexExprResult) : bool := match r_upper r with BlockList set => is_empty set | _ => false end.

Definition result_not (r : IndexExprResult) : IndexExprResult := mkResult (mask_not (r_upper r)) (mask_not (r_lower r)) (r_exact r).
Definition result_and (r rhs : IndexExprResult) : IndexExprResult :=
  mkResult (mask_and (r_lower r) (r_lower rhs)) (mask_and (r_upper r) (r_upper rhs)) (r_exact r && r_exact rhs).
Definition result_or (r rhs : IndexExprResult) : IndexExprResult :=
  mkResult (mask_or (r_lower r) (r_lower rhs)) (mask_or (r_upper r) (r_upper rhs)) (r_exact r && r_exact rhs).

(** ** Serialization *)

Context {AR : Arrow} {AB : ArrowBatch}.

Inductive IndexExprResultWireFormat := ThreeVariant | TwoMask.

(** The field names of [schema()]. *)
Definition schema (f : IndexExprResultWireFormat) : list string :=
  match f with
  | ThreeVariant => ["result"; "discriminant"; "fragments_covered"]
  | TwoMask => ["lower"; "upper"; "fragments_covered"]
  end%string.

Definition frags_column (fragments_covered : bitmap) : res binary_array := ba_build [Some (bm_serialize fragments_covered); None].

Definition serialize_standard (r : IndexExprResult) (fragments_covered : bitmap) : res record_batch :=
  lower_arr ← into_arrow (r_lower r);
  upper_arr ← (if is_exact r then ba_build [None; None] else into_arrow (r_upper r));
  frags ← frags_column fragments_covered;
  rb_try_new (schema TwoMask) [BinaryColumn lower_arr; BinaryColumn upper_arr; BinaryColumn frags].

(** The mask and the discriminant of the legacy format. *)
Definition three_variant (r : IndexExprResult) : RowAddrMask * Z :=
  if is_exact r then (r_lower r, 0)
  else if is_at_most r then (r_upper r, 1)
  else if is_at_least r then (r_lower r, 2)
  else (r_upper r, 1).

Definition serialize_three_variant (r : IndexExprResult) (fragments_covered : bitmap) : res record_batch :=
  let '(mask, discriminant) := three_variant r in
  mask_arr ← into_arrow mask;
  frags ← frags_column fragments_covered;
  rb_try_new (schema ThreeVariant) [BinaryColumn mask_arr; UInt32Column [discriminant; discriminant]; BinaryColumn frags].

Definition serialize (r : IndexExprResult) (fragments_covered : bitmap) (format : IndexExprResultWireFormat) : res record_batch :=
  match format with
  | ThreeVariant => serialize_three_variant r fragments_covered
  | TwoMask => serialize_standard r fragments_covered
  end.

(** [as_binary] and [as_primitive::<UInt32Type>] panic on a column of another type. *)
Definition as_binary (c : column) : res binary_array := match c with BinaryColumn a => Ok a | _ => Panic end.
Definition as_uint32 (c : column) : res (list Z) := match c with UInt32Column l => Ok l | _ => Panic end.

Definition deserialize (batch : record_batch) : res (IndexExprResult * bitmap) :=
  if negb (rb_num_rows batch =? 2) then Err InvalidInput else
  if negb (rb_num_columns batch =? 3) then Err InvalidInput else
  first_col_name ← rb_field_name batch 0;
  index_result ←
    (if bool_decide (first_col_name = "lower"%string) then
       c0 ← rb_column batch 0; a0 ← as_binary c0;
       lower ← from_arrow a0;
       c1 ← rb_column batch 1; upper_col ← as_binary c1;
       if ba_is_null upper_col 0 && ba_is_null upper_col 1 then Ok (exact lower)
       else upper ← from_arrow upper_col; Ok (mkResult lower upper false)
     else if bool_decide (first_col_name = "result"%string) then
       c0 ← rb_column batch 0; a0 ← as_binary c0;
       row_addr_mask ← from_arrow a0;
       c1 ← rb_column batch 1; values ← as_uint32 c1;
       match_type ← idx values 0;
       if match_type =? 0 then Ok (exact row_addr_mask)
       else if match_type =? 1 then Ok (at_most row_addr_mask)
       else if match_type =? 2 then Ok (at_least row_addr_mask)
       else Err Internal
     else Err Internal);
  c2 ← rb_column batch 2; frags_col ← as_binary c2;
  fragments ← ok_or (bm_deserialize (ba_value frags_col 0)) IO;
  Ok (index_result, fragments).

End ResultModel.

(** ** Sound intervals *)

(** The truth order: false, null, true. *)
Definition rank (t : tri) : Z := match t with TFalse => 0 | TNull => 1 | TTrue => 2 end.
Definition tle (a b : tri) : Prop := rank a <= rank b.

Lemma tle_not a b : tle a b -> tle (tnot b) (tnot a).
Proof. by destruct a, b. Qed.

Lemma tle_and a b c d : tle a b -> tle c d -> tle (tand a c) (tand b d).
Proof. by destruct a, b, c, d. Qed.

Lemma tle_or a b c d : tle a b -> tle c d -> tle (tor a c) (tor b d).
Proof. by destruct a, b, c, d. Qed.

Lemma tle_antisym a b : tle a b -> tle b a -> a = b.
Proof. by destruct a, b. Qed.

Section ResultFacts.
Context {RB : Roaring} {RL : RoaringLaws RB}.

(** The interval lies around the value of every row, and an exact one is that value. *)
Definition sound (r : NullableIndexExprResult) (truth : Z -> tri) : Prop := forall row, u64_ok row ->
  tle (mask_value (nr_lower r) row) (truth row) /\ tle (truth row) (mask_value (nr_upper r) row) /\
  (nr_exact r = true -> mask_value (nr_lower r) row = mask_value (nr_upper r) row).

Lemma sound_exact m truth : (forall row, u64_ok row -> mask_value m row = truth row) -> sound (n_exact m) truth.
Proof. intros H row Hr. cbn. rewrite H by done. unfold tle. split; [lia|]. split; [lia|done]. Qed.

Lemma mask_value_nothing row : mask_value n_allow_nothing row = TFalse.
Proof. unfold mask_value, set_value. cbn. by rewrite contains_new. Qed.

Lemma mask_value_all row : mask_value n_all_rows row = TTrue.
Proof. unfold mask_value, set_value. cbn. by rewrite contains_new. Qed.

Lemma sound_at_most m truth : (forall row, u64_ok row -> tle (truth row) (mask_value m row)) -> sound (n_at_most m) truth.
Proof. intros H row Hr. cbn [nr_lower nr_upper nr_exact n_at_most]. rewrite mask_value_nothing. split; [by destruct (truth row)|]. by split; [apply H|]. Qed.

Lemma sound_at_least m truth : (forall row, u64_ok row -> tle (mask_value m row) (truth row)) -> sound (n_at_least m) truth.
Proof. intros H row Hr. cbn [nr_lower nr_upper nr_exact n_at_least]. rewrite mask_value_all. split; [by apply H|]. split; [by destruct (truth row)|done]. Qed.

Definition mask_keys_ok (m : NullableRowAddrMask) : Prop := match m with NAllowList s | NBlockList s => set_keys_ok s end.

Lemma n_mask_eq_value {IT : Itertools} {IL : ItertoolsLaws IT} a b : mask_keys_ok a -> mask_keys_ok b -> n_mask_eq a b = true ->
  forall row, u64_ok row -> mask_value a row = mask_value b row.
Proof.
  destruct a as [a|a], b as [b|b]; cbn; try done; intros Ha Hb He row Hr; [|f_equal]; by apply (proj1 (nullable_eq_spec a b Ha Hb) He).
Qed.

Lemma sound_new {IT : Itertools} {IL : ItertoolsLaws IT} l u truth : mask_keys_ok l -> mask_keys_ok u ->
  (forall row, u64_ok row -> tle (mask_value l row) (truth row) /\ tle (truth row) (mask_value u row)) -> sound (n_result_new l u) truth.
Proof.
  intros Hl Hu H. unfold n_result_new. destruct (n_mask_eq l u) eqn:E.
  - apply sound_exact. intros row Hr. destruct (H row Hr) as [H1 H2]. rewrite <- (n_mask_eq_value l u) in H2 by done. by apply tle_antisym.
  - intros row Hr. cbn. destruct (H row Hr). done.
Qed.

Lemma sound_not r t : sound r t -> sound (n_result_not r) (fun row => tnot (t row)).
Proof.
  intros H row Hr. destruct (H row Hr) as (H1 & H2 & H3). cbn [n_result_not nr_lower nr_upper nr_exact]. rewrite !mask_value_not.
  split; [by apply tle_not|]. split; [by apply tle_not|]. intros He. by rewrite H3.
Qed.

Lemma sound_and r s t u : sound r t -> sound s u -> sound (n_result_and r s) (fun row => tand (t row) (u row)).
Proof.
  intros H G row Hr. destruct (H row Hr) as (H1 & H2 & H3), (G row Hr) as (G1 & G2 & G3). cbn [n_result_and nr_lower nr_upper nr_exact].
  rewrite !mask_value_and. split; [by apply tle_and|]. split; [by apply tle_and|]. intros [He1 He2]%andb_true_iff. by rewrite H3, G3.
Qed.

Lemma sound_or r s t u : sound r t -> sound s u -> sound (n_result_or r s) (fun row => tor (t row) (u row)).
Proof.
  intros H G row Hr. destruct (H row Hr) as (H1 & H2 & H3), (G row Hr) as (G1 & G2 & G3). cbn [n_result_or nr_lower nr_upper nr_exact].
  rewrite !mask_value_or. split; [by apply tle_or|]. split; [by apply tle_or|]. intros [He1 He2]%andb_true_iff. by rewrite H3, G3.
Qed.

(** ** Expressions *)

(** A filter over index searches, each with its result and the value it has on every row. *)
Inductive expr :=
| Search (r : NullableIndexExprResult) (truth : Z -> tri)
| ENot (e : expr)
| EAnd (e1 e2 : expr)
| EOr (e1 e2 : expr).

Fixpoint eval (e : expr) : NullableIndexExprResult :=
  match e with
  | Search r _ => r
  | ENot e => n_result_not (eval e)
  | EAnd e1 e2 => n_result_and (eval e1) (eval e2)
  | EOr e1 e2 => n_result_or (eval e1) (eval e2)
  end.

Fixpoint truth (e : expr) (row : Z) : tri :=
  match e with
  | Search _ t => t row
  | ENot e => tnot (truth e row)
  | EAnd e1 e2 => tand (truth e1 row) (truth e2 row)
  | EOr e1 e2 => tor (truth e1 row) (truth e2 row)
  end.

Fixpoint searches_sound (e : expr) : Prop :=
  match e with
  | Search r t => sound r t
  | ENot e => searches_sound e
  | EAnd e1 e2 | EOr e1 e2 => searches_sound e1 /\ searches_sound e2
  end.

Lemma eval_sound e : searches_sound e -> sound (eval e) (truth e).
Proof.
  induction e as [r t|e IH|e1 IH1 e2 IH2|e1 IH1 e2 IH2]; cbn [searches_sound].
  - done.
  - intros H. by apply (sound_not (eval e) (truth e)), IH.
  - intros [H1 H2]. by apply (sound_and (eval e1) (eval e2) (truth e1) (truth e2)); auto.
  - intros [H1 H2]. by apply (sound_or (eval e1) (eval e2) (truth e1) (truth e2)); auto.
Qed.

(** After the nulls are dropped: the selected rows of a sound interval. *)
Definition answers (r : IndexExprResult) (answer : Z -> bool) : Prop := forall row, u64_ok row ->
  (selected (r_lower r) row = true -> answer row = true) /\ (answer row = true -> selected (r_upper r) row = true) /\
  (r_exact r = true -> selected (r_lower r) row = selected (r_upper r) row).

Lemma drop_nulls_answers r t : sound r t -> answers (result_drop_nulls r) (fun row => is_true (t row)).
Proof.
  intros H row Hr. destruct (H row Hr) as (H1 & H2 & H3). cbn [result_drop_nulls r_lower r_upper r_exact]. rewrite !selected_drop_nulls.
  split; [|split].
  - destruct (mask_value (nr_lower r) row), (t row); done.
  - destruct (mask_value (nr_upper r) row), (t row); done.
  - intros He. by rewrite H3.
Qed.

Lemma answers_not r a : answers r a -> answers (result_not r) (fun row => negb (a row)).
Proof.
  intros H row Hr. destruct (H row Hr) as (H1 & H2 & H3). cbn [result_not r_lower r_upper r_exact]. rewrite !selected_not.
  split; [|split]; [destruct (selected (r_upper r) row), (a row); naive_solver|destruct (selected (r_lower r) row), (a row); naive_solver|].
  intros He. by rewrite H3.
Qed.

Lemma answers_and r s a b : answers r a -> answers s b -> answers (result_and r s) (fun row => a row && b row).
Proof.
  intros H G row Hr. destruct (H row Hr) as (H1 & H2 & H3), (G row Hr) as (G1 & G2 & G3). cbn [result_and r_lower r_upper r_exact].
  rewrite !selected_and, !andb_true_iff. split; [naive_solver|]. split; [naive_solver|]. intros [? ?]. by rewrite H3, G3.
Qed.

Lemma answers_or r s a b : answers r a -> answers s b -> answers (result_or r s) (fun row => a row || b row).
Proof.
  intros H G row Hr. destruct (H row Hr) as (H1 & H2 & H3), (G row Hr) as (G1 & G2 & G3). cbn [result_or r_lower r_upper r_exact].
  rewrite !selected_or, !orb_true_iff, !andb_true_iff. split; [naive_solver|]. split; [naive_solver|]. intros [? ?]. by rewrite H3, G3.
Qed.

End ResultFacts.

(** ** Serialized results *)

Section ResultCodec.
Context {RB : Roaring} {RL : RoaringLaws RB} {AR : Arrow} {AL : ArrowLaws AR} {AB : ArrowBatch} {ABL : ArrowBatchLaws AB}.

Definition result_fits (r : IndexExprResult) (fragments : bitmap) : Prop :=
  mask_fits (r_lower r) /\ mask_fits (r_upper r) /\ zlen (bm_serialize fragments) <= I32_MAX.

Lemma frags_column_ok fragments : zlen (bm_serialize fragments) <= I32_MAX ->
  exists a, frags_column fragments = Ok a /\ ba_len a = 2 /\ ba_value a 0 = bm_serialize fragments.
Proof.
  intros Hz. destruct (ba_build_ok [Some (bm_serialize fragments); None]) as (a & Ha & Hl & Hi); [cbn [map foldr item_len]; lia|].
  exists a. split; [done|]. split; [done|]. by apply (Hi 0 (Some (bm_serialize fragments))).
Qed.

(** A batch of three columns of two rows, read back column by column. *)
Lemma batch_ok names c0 c1 c2 : zlen names = 3 ->
  Forall (fun c => match c with BinaryColumn a => ba_len a = 2 | UInt32Column l => zlen l = 2 end) [c0; c1; c2] ->
  exists b, rb_try_new names [c0; c1; c2] = Ok b /\ rb_num_rows b = 2 /\ rb_num_columns b = 3 /\
    (forall i s, get_opt names i = Some s -> rb_field_name b i = Ok s) /\
    rb_column b 0 = Ok c0 /\ rb_column b 1 = Ok c1 /\ rb_column b 2 = Ok c2.
Proof.
  intros Hn Hc. destruct (rb_try_new_ok names [c0; c1; c2] 2) as (b & Hb & Hcols & Hrows & Hf & Hcol); [done|done|].
  exists b. split; [done|]. split; [by apply Hrows|]. split; [done|]. split; [done|]. by repeat split; apply Hcol.
Qed.

Lemma serialize_standard_ok r fragments : result_fits r fragments ->
  exists b r' f, serialize_standard r fragments = Ok b /\ deserialize b = Ok (r', f) /\ (forall v, bm_contains f v = bm_contains fragments v) /\
    r_exact r' = r_exact r /\ forall row, selected (r_lower r') row = selected (r_lower r) row /\
      selected (r_upper r') row = selected (if r_exact r then r_lower r else r_upper r) row.
Proof.
  intros (Hl & Hu & Hf). unfold serialize_standard, is_exact.
  destruct (arrow_roundtrip _ Hl) as (l1 & v1 & n1 & la & lm & -> & Hla & Hz1 & _ & Hlf & Hls & _). mon.
  destruct (arrow_roundtrip _ Hu) as (l2 & v2 & n2 & ua & um & Hui & Hua & Hz2 & Hnull & Huf & Hus & _).
  destruct (frags_column_ok fragments Hf) as (fa & Hfa & Hfl & Hfv). destruct (bm_deserialize_serialize fragments) as (f & Hd & Hfc).
  apply ba_try_new_len in Hla, Hua. rewrite Hz1 in Hla. rewrite Hz2 in Hua.
  assert (exists u r', (if r_exact r then ba_build [None; None] else into_arrow (r_upper r)) = Ok u /\ ba_len u = 2 /\
    (if ba_is_null u 0 && ba_is_null u 1 then Ok (exact lm) else upper ← from_arrow u; Ok (mkResult lm upper false)) = Ok r' /\
    r_exact r' = r_exact r /\ forall row, selected (r_lower r') row = selected (r_lower r) row /\
      selected (r_upper r') row = selected (if r_exact r then r_lower r else r_upper r) row) as (u & r' & -> & Hul & Hr' & Hex & Hsel).
  { destruct (r_exact r).
    - destruct (ba_build_ok [None; None]) as (u & Hb & Hlen & Hi); [done|]. exists u, (exact lm). split; [done|]. split; [done|].
      rewrite (proj1 (Hi 0 None eq_refl)), (proj1 (Hi 1 None eq_refl)). split; [done|]. split; [done|]. intros row. cbn. by rewrite Hls.
    - exists ua, (mkResult lm um false). split; [done|]. split; [done|]. rewrite Hnull, Huf. split; [done|]. split; [done|].
      intros row. cbn. by rewrite Hls, Hus. }
  mon. rewrite Hfa. mon.
  destruct (batch_ok (schema TwoMask) (BinaryColumn la) (BinaryColumn u) (BinaryColumn fa)) as (b & Hb & Hrows & Hcols & Hname & H0 & H1 & H2);
    [done|by repeat constructor|].
  exists b, r', f. split; [done|]. split; [|done]. unfold deserialize. rewrite Hrows, Hcols, (Hname 0 "lower"%string), H0, H1, H2 by done. cbn [negb Z.eqb].
  mon. cbn [as_binary Pos.eqb]. mon. rewrite bool_decide_true by done. rewrite Hlf. mon. rewrite Hr'. mon. by rewrite Hfv, Hd.
Qed.

(** The interval of the legacy format contains the original one. *)
Lemma three_variant_wider r m t r' : three_variant r = (m, t) -> (r_exact r = true -> forall row, u64_ok row -> selected (r_lower r) row = selected (r_upper r) row) ->
  (if t =? 0 then r' = exact m else if t =? 1 then r' = at_most m else r' = at_least m) ->
  r_exact r' = r_exact r /\ forall row, u64_ok row ->
    (selected (r_lower r') row = true -> selected (r_lower r) row = true) /\ (selected (r_upper r) row = true -> selected (r_upper r') row = true).
Proof.
  unfold three_variant, is_exact. intros Ht Hex Hr. destruct (r_exact r) eqn:Ee.
  { injection Ht as <- <-. cbn in Hr. subst r'. split; [done|]. intros row Hrow. cbn. rewrite Hex by done. done. }
  destruct (is_at_most r) eqn:Em; [|destruct (is_at_least r) eqn:El]; injection Ht as <- <-; cbn in Hr; subst r'; (split; [done|]); intros row Hrow; cbn;
    rewrite ?contains_new; split; done.
Qed.

Lemma three_variant_fits r m t fragments : result_fits r fragments -> three_variant r = (m, t) -> mask_fits m /\ (t = 0 \/ t = 1 \/ t = 2).
Proof.
  intros (Hl & Hu & _). unfold three_variant. destruct (is_exact r); [|destruct (is_at_most r); [|destruct (is_at_least r)]];
    intros [= <- <-]; split; auto.
Qed.

Lemma serialize_three_variant_ok r fragments : result_fits r fragments ->
  (r_exact r = true -> forall row, u64_ok row -> selected (r_lower r) row = selected (r_upper r) row) ->
  exists b r' f, serialize_three_variant r fragments = Ok b /\ deserialize b = Ok (r', f) /\ (forall v, bm_contains f v = bm_contains fragments v) /\
    r_exact r' = r_exact r /\ forall row, u64_ok row ->
    (selected (r_lower r') row = true -> selected (r_lower r) row = true) /\ (selected (r_upper r) row = true -> selected (r_upper r') row = true).
Proof.
  intros Hfits Hex. unfold serialize_three_variant. destruct (three_variant r) as [m t] eqn:Et.
  destruct (three_variant_fits r m t fragments Hfits Et) as [Hm Ht]. destruct Hfits as (_ & _ & Hf).
  destruct (arrow_roundtrip _ Hm) as (l1 & v1 & n1 & ma & mm & -> & Hma & Hz & _ & Hmf & Hms & _). mon.
  destruct (frags_column_ok fragments Hf) as (fa & Hfa & Hfl & Hfv). rewrite Hfa. mon. destruct (bm_deserialize_serialize fragments) as (f & Hd & Hfc).
  apply ba_try_new_len in Hma. rewrite Hz in Hma.
  destruct (batch_ok (schema ThreeVariant) (BinaryColumn ma) (UInt32Column [t; t]) (BinaryColumn fa)) as (b & Hb & Hrows & Hcols & Hname & H0 & H1 & H2);
    [done|by repeat constructor|].
  set (r' := if t =? 0 then exact mm else if t =? 1 then at_most mm else at_least mm).
  exists b, r', f. split; [done|]. split; [|split; [done|]].
  - unfold deserialize. rewrite Hrows, Hcols, (Hname 0 "result"%string), H0, H1, H2 by done. cbn [negb Z.eqb].
    mon. cbn [as_binary as_uint32 Pos.eqb]. rewrite bool_decide_false, bool_decide_true by done. mon. rewrite Hmf. mon. change (idx [t; t] 0) with (Ok t). mon.
    subst r'. destruct Ht as [->|[->| ->]]; cbn [Z.eqb Pos.eqb]; mon; by rewrite Hfv, Hd.
  - destruct (three_variant_wider r m t (if t =? 0 then exact m else if t =? 1 then at_most m else at_least m) Et Hex) as [He Hw].
    { destruct Ht as [->|[->| ->]]; done. }
    assert (r_exact r' = r_exact (if t =? 0 then exact m else if t =? 1 then at_most m else at_least m) /\
      forall row, selected (r_lower r') row = selected (r_lower (if t =? 0 then exact m else if t =? 1 then at_most m else at_least m)) row /\
        selected (r_upper r') row = selected (r_upper (if t =? 0 then exact m else if t =? 1 then at_most m else at_least m)) row) as [Hre Hrs].
    { subst r'. destruct Ht as [->|[->| ->]]; cbn; (split; [done|]); intros row; by rewrite ?Hms. }
    rewrite Hre. split; [done|]. intros row Hrow. rewrite (proj1 (Hrs row)), (proj2 (Hrs row)). by apply Hw.
Qed.

End ResultCodec.

(** ** Theorems *)

(** C5: evaluating a filter over sound index searches gives a sound interval: on every row the lower mask is at most, and the upper mask
    at least, the three-valued value of the filter, with equality when the result says it is exact.  After [drop_nulls]
    every row of the lower mask answers the filter and every answer is in the upper mask. *)
Theorem index_expr_sound {RB : Roaring} {RL : RoaringLaws RB} (e : expr) : searches_sound e ->
  sound (eval e) (truth e) /\
  forall row, u64_ok row ->
    (selected (r_lower (result_drop_nulls (eval e))) row = true -> truth e row = TTrue) /\
    (truth e row = TTrue -> selected (r_upper (result_drop_nulls (eval e))) row = true) /\
    (n_is_exact (eval e) = true -> selected (r_lower (result_drop_nulls (eval e))) row = is_true (truth e row)).
Proof.
  intros He%eval_sound. split; [done|]. intros row Hr. destruct (drop_nulls_answers _ _ He row Hr) as (H1 & H2 & H3). cbn [r_exact result_drop_nulls] in H3.
  split; [|split].
  - intros Hs. specialize (H1 Hs). by destruct (truth e row).
  - intros Ht. apply H2. by rewrite Ht.
  - intros Hx. specialize (H3 Hx). cbn [result_drop_nulls r_lower r_upper] in *. rewrite H3 in *.
    destruct (selected (drop_nulls (nr_upper (eval e))) row) eqn:Es; [by rewrite H1|].
    destruct (is_true (truth e row)); [by specialize (H2 eq_refl)|done].
Qed.

(** [try_map] with a transformation that reads each row through a map of rows transports a sound interval along that map and keeps an
    exact result exact; a failing transformation fails the whole result. *)
Theorem index_result_try_map {IT : Itertools} {IL : ItertoolsLaws IT} {RB : Roaring} {RL : RoaringLaws RB}
    (r : NullableIndexExprResult) (t : Z -> tri) (f : NullableRowAddrMask -> res NullableRowAddrMask) (g : Z -> Z) (err : Error) :
  sound r t -> (forall row, u64_ok row -> u64_ok (g row)) ->
  (forall m m', m = nr_lower r \/ m = nr_upper r -> f m = Ok m' -> mask_keys_ok m' /\ forall row, u64_ok row -> mask_value m' row = mask_value m (g row)) ->
  (forall r', try_map r f = Ok r' -> sound r' (fun row => t (g row)) /\ (nr_exact r = true -> nr_exact r' = true)) /\
  (f (nr_lower r) = Err err -> try_map r f = Err err).
Proof.
  intros Hs Hg Hf. split.
  - intros r' Hr'. unfold try_map in Hr'. destruct (f (nr_lower r)) as [l| |] eqn:El; [|done|done]. destruct (Hf _ _ (or_introl eq_refl) El) as [Hlk Hl].
    cbn in Hr'. destruct (nr_exact r) eqn:Ex.
    + injection Hr' as <-. split; [|done]. apply sound_exact. intros row Hrow. rewrite Hl by done.
      destruct (Hs (g row) (Hg row Hrow)) as (H1 & H2 & H3). apply tle_antisym; [done|]. by rewrite H3.
    + destruct (f (nr_upper r)) as [u| |] eqn:Eu; [|done|done]. destruct (Hf _ _ (or_intror eq_refl) Eu) as [Huk Hu]. injection Hr' as <-. split; [|done].
      apply sound_new; [done|done|]. intros row Hrow. rewrite Hl, Hu by done. destruct (Hs (g row) (Hg row Hrow)) as (H1 & H2 & _). done.
  - intros He. unfold try_map. by rewrite He.
Qed.

(** A serialized result is read back: the two-mask format restores both masks, the exact flag and the fragments covered, and the legacy
    three-variant format restores an interval that contains the original one, so every answer stays inside it. *)
Theorem index_result_roundtrip {RB : Roaring} {RL : RoaringLaws RB} {AR : Arrow} {AL : ArrowLaws AR} {AB : ArrowBatch} {ABL : ArrowBatchLaws AB}
    (r : IndexExprResult) (fragments : bitmap) :
  result_fits r fragments -> (r_exact r = true -> forall row, selected (r_lower r) row = selected (r_upper r) row) ->
  (exists b r' f, serialize r fragments TwoMask = Ok b /\ deserialize b = Ok (r', f) /\ (forall v, bm_contains f v = bm_contains fragments v) /\
    r_exact r' = r_exact r /\ forall row, selected (r_lower r') row = selected (r_lower r) row /\ selected (r_upper r') row = selected (r_upper r) row) /\
  (exists b r' f, serialize r fragments ThreeVariant = Ok b /\ deserialize b = Ok (r', f) /\ (forall v, bm_contains f v = bm_contains fragments v) /\
    r_exact r' = r_exact r /\ forall row, u64_ok row ->
    (selected (r_lower r') row = true -> selected (r_lower r) row = true) /\ (selected (r_upper r) row = true -> selected (r_upper r') row = true)).
Proof.
  intros Hf Hex. split.
  - destruct (serialize_standard_ok r fragments Hf) as (b & r' & f & Hb & Hd & Hc & He & Hs). exists b, r', f. split; [done|]. split; [done|].
    split; [done|]. split; [done|]. intros row. destruct (Hs row) as [H1 H2]. split; [done|]. rewrite H2. destruct (r_exact r); [by apply Hex|done].
  - apply serialize_three_variant_ok; [done|]. intros He row _. by apply Hex.
Qed.

(** ** Examples *)

Module IndexResultExamples.

#[local] Existing Instances ItertoolsLists ItertoolsLists_laws CofiniteRoaring CofiniteRoaring_laws RowMaskExamples.ListArrow RowMaskExamples.ListArrow_laws.

(** Batches as their names and columns. *)
Definition array_len (a : list Z * list Z * list bool) : Z := zlen (fst (fst a)).
Definition col_len (c : column) : Z := match c with BinaryColumn a => array_len a | UInt32Column l => zlen l end.

Definition ListBatch : ArrowBatch := {|
  ba_len := array_len;
  ba_build items := Ok (map item_len items, flat_map (default []) items, map (fun o => match o with Some _ => true | None => false end) items);
  record_batch := list string * list column;
  rb_try_new names cols := Ok (names, cols);
  rb_num_rows b := match snd b with c :: _ => col_len c | [] => 0 end;
  rb_num_columns b := zlen (snd b);
  rb_field_name b i := unwrap_opt (get_opt (fst b) i);
  rb_column b i := unwrap_opt (get_opt (snd b) i)
|}.

Lemma sum_take (items : list (option (list Z))) (pre post : list (option (list Z))) : items = pre ++ post ->
  sum_to (map item_len items) (zlen pre) = zlen (flat_map (default []) pre).
Proof.
  intros ->. unfold sum_to. rewrite map_app, ztake_split, zlen_map, Z.sub_diag by (rewrite zlen_map; lia).
  change (ztake 0 (map item_len post)) with (@nil Z). rewrite app_nil_r. induction pre as [|o pre IH]; [done|]. cbn [map foldr flat_map].
  rewrite IH, zlen_app. by destruct o.
Qed.

Lemma ListBatch_laws : ArrowBatchLaws ListBatch.
Proof.
  split.
  - intros lengths values validity a [= <-]. done.
  - intros items _. eexists. split; [done|]. split; [apply zlen_map|]. intros i o Hi. cbn. rewrite get_opt_map, Hi. split; [by destruct o|].
    intros l ->. rewrite get_opt_map, Hi. cbn. destruct (get_opt_split _ _ _ Hi) as (pre & post & -> & <-). rewrite (sum_take _ pre (Some l :: post)) by done.
    rewrite flat_map_app. cbn [flat_map from_option id]. unfold default. cbn [from_option id].
    rewrite zskip_split, Z.sub_diag by lia. change (zskip 0 ?l) with l. rewrite ztake_app_l, ztake_ge by (cbn; lia). done.
  - intros names cols n Hn Hc. eexists. split; [done|]. split; [done|]. split; [|split].
    + intros Hne. destruct cols as [|c cols]; [done|]. apply Forall_inv in Hc. by destruct c.
    + intros i s Hs. cbn. by rewrite Hs.
    + intros i c Hi. cbn. by rewrite Hi.
Qed.

#[local] Existing Instances ListBatch ListBatch_laws.

Definition rows_12 : NullableRowAddrMask := NAllowList (mkNullable (from_iter [1; 2]) (from_iter [3])).
Definition some_of_2_4 : NullableRowAddrMask := NAllowList (mkNullable (from_iter [2; 4]) TreeMap.new).

(** An exact search, and one that knows candidates only and whose filter holds of row 2. *)
Definition filter_example : expr :=
  EAnd (Search (n_exact rows_12) (mask_value rows_12))
       (ENot (Search (n_at_most some_of_2_4) (fun row => if row =? 2 then TTrue else TFalse))).

Lemma filter_searches_sound : searches_sound filter_example.
Proof.
  split; [by apply sound_exact|]. apply sound_at_most. intros row Hr. destruct (Z.eqb_spec row 2) as [->|]; [vm_compute; done|].
  by destruct (mask_value some_of_2_4 row).
Defined.

Lemma index_expr_sound_witness :
  selected (r_upper (result_drop_nulls (eval filter_example))) 1 = true /\ truth filter_example 1 = TTrue.
Proof.
  assert (truth filter_example 1 = TTrue) as Ht by (vm_compute; done). split; [|done].
  destruct (index_expr_sound filter_example filter_searches_sound) as [_ Hs]. destruct (Hs 1) as (_ & Hu & _); [uok; lia|]. by apply Hu.
Defined.

Lemma index_result_try_map_witness : exists r', try_map (n_exact rows_12) Ok = Ok r' /\ nr_exact r' = true.
Proof.
  assert (mask_keys_ok rows_12) as Hk by (split; apply NullableExamples.from_iter_keys_ok).
  exists (n_exact rows_12). split; [done|].
  apply (index_result_try_map (n_exact rows_12) (mask_value rows_12) Ok (fun row => row) Internal); [by apply sound_exact|done| |done|done].
  intros m m' Hm [= <-]. by destruct Hm as [-> | ->].
Defined.

Definition interval : IndexExprResult := mkResult (AllowList RowMaskExamples.few) (BlockList (from_iter [9])) false.

Lemma interval_fits : result_fits interval (Cofinite.of_list [0; 1]).
Proof.
  assert (mask_fits (AllowList RowMaskExamples.few)) as H1.
  { intros s [[= <-]|[=]]. split; [apply RowMaskExamples.few_fits|vm_compute; done]. }
  assert (mask_fits (BlockList (from_iter [9]))) as H2.
  { intros s [[=]|[= <-]]. split; [apply RowMaskExamples.fits_check_all; vm_compute; done|vm_compute; done]. }
  split; [done|]. split; [done|]. vm_compute. done.
Defined.

Lemma index_result_roundtrip_witness :
  exists b r' f, serialize interval (Cofinite.of_list [0; 1]) TwoMask = Ok b /\ deserialize b = Ok (r', f) /\ selected (r_upper r') 9 = false.
Proof.
  destruct (index_result_roundtrip interval (Cofinite.of_list [0; 1]) interval_fits) as [(b & r' & f & Hb & Hd & _ & _ & Hs) _]; [done|].
  exists b, r', f. split; [done|]. split; [done|]. rewrite (proj2 (Hs 9)). vm_compute. done.
Defined.

(** An upper mask that only promises that the rows outside it are false or null, as the documentation of the field says, does not
    survive negation: the lower mask of the negation would guarantee a null row. *)
Lemma weak_upper_bound_not_negated :
  let truth row := if row =? 7 then TNull else TFalse in
  let r := n_at_most some_of_2_4 in
  (forall row, truth row = TTrue -> mask_value (nr_upper r) row = TTrue) /\
  mask_value (nr_lower (n_result_not r)) 7 = TTrue /\ tnot (truth 7) = TNull.
Proof. split; [intros row; by destruct (row =? 7)|]. vm_compute. done. Qed.

End IndexResultExamples.
