(* ===== verification/Deletion.v ===== *)
(** * Deletion vectors

    [lance-core/src/utils/deletion.rs]: the deleted row offsets of a fragment,
    kept as nothing, a hash set or a bitmap; the keep mask of a batch; and
    [OffsetMapper], the stateful search for the row at an offset that does not
    count deleted rows. *)

From Stdlib Require Import ZArith Lia.
From stdpp Require Import base option list numbers sorting sets gmap.
From S2P Require Import Prelude Lists Bits Itertools Roaring.

(** ** Boolean buffers *)

(** [arrow_buffer::BooleanBufferBuilder] as the keep mask uses it: [append_n(n, true)] on a new builder, [set_bit], [finish]. *)
Class BooleanBuffers := {
  bool_builder : Type;
  bb_all_true : Z -> bool_builder;
  bb_set_bit : bool_builder -> Z -> bool -> bool_builder;
  bb_finish : bool_builder -> list bool
}.

Class BooleanBuffersLaws (BB : BooleanBuffers) : Prop := {
  bb_finish_all_true n : 0 <= n -> bb_finish (bb_all_true n) = replicate (Z.to_nat n) true;
  bb_finish_set_bit b i v : 0 <= i < zlen (bb_finish b) -> bb_finish (bb_set_bit b i v) = <[Z.to_nat i := v]> (bb_finish b)
}.

(** ** Model *)

Definition BITMAP_THRESDHOLD : Z := 5000.

(** [HashSet<u32>] is a finite set; its iteration order is not specified, [elements] is one of them. *)
Inductive DeletionVector {RB : Roaring} := NoDeletions | DSet (set : gset Z) | DBitmap (bm : bitmap).

Section DeletionModel.
Context {RB : Roaring}.

Definition dv_len (dv : DeletionVector) : Z :=
  match dv with
  | NoDeletions => 0
  | DSet set => Z.of_nat (size set)
  | DBitmap bm => bm_len bm
  end.

Definition dv_is_empty (dv : DeletionVector) : bool := dv_len dv =? 0.

Definition dv_contains (dv : DeletionVector) (i : Z) : bool :=
  match dv with
  | NoDeletions => false
  | DSet set => bool_decide (i ∈ set)
  | DBitmap bm => bm_contains bm i
  end.

Definition contains_range (dv : DeletionVector) (range : Range) : bool :=
  match dv with
  | NoDeletions => range_is_empty range
  | DSet set => forallb (fun i => bool_decide (i ∈ set)) (range_list range)
  | DBitmap bm => bm_contains_range bm range
  end.

Definition range_cardinality (dv : DeletionVector) (range : Range) : Z :=
  match dv with
  | NoDeletions => 0
  | DSet set => zlen (List.filter (range_contains range) (elements set))
  | DBitmap bm => bm_range_cardinality bm range
  end.

Definition dv_iter (dv : DeletionVector) : list Z :=
  match dv with
  | NoDeletions => []
  | DSet set => elements set
  | DBitmap bm => bm_iter bm
  end.

Definition into_sorted_iter (dv : DeletionVector) : list Z :=
  match dv with
  | NoDeletions => []
  | DSet set => sort_unstable (elements set)
  | DBitmap bm => bm_iter bm
  end.

Definition to_sorted_iter (dv : DeletionVector) : list Z :=
  match dv with
  | NoDeletions => []
  | DSet _ => into_sorted_iter dv
  | DBitmap bm => bm_iter bm
  end.

(** *** Keep masks *)

Context {BB : BooleanBuffers}.

Record KeepMaskBuilder := mkKeep { num_rows : Z; builder : option bool_builder }.

Definition keep_new (num_rows : Z) : KeepMaskBuilder := mkKeep num_rows None.
Definition keep_delete (k : KeepMaskBuilder) (position : Z) : KeepMaskBuilder :=
  let b := match builder k with Some b => b | None => bb_all_true (num_rows k) end in
  mkKeep (num_rows k) (Some (bb_set_bit b position false)).
Definition keep_finish (k : KeepMaskBuilder) : option (list bool) := option_map bb_finish (builder k).

(** Deleted offsets of each range, at their positions in the batch: the loop over ranges of two of the branches. *)
Fixpoint delete_ranges (deleted_in : Range -> list Z) (mask : KeepMaskBuilder) (base : Z) (ranges : list Range) : KeepMaskBuilder :=
  match ranges with
  | [] => mask
  | range :: ranges =>
      let mask := foldl (fun mask deleted => keep_delete mask (base +d deleted -d start range)) mask (deleted_in range) in
      delete_ranges deleted_in mask (base +d (end_ range -d start range)) ranges
  end.

(** The loop that asks about every row. *)
Definition probe_step (set : gset Z) (acc : KeepMaskBuilder * Z) (offset : Z) : KeepMaskBuilder * Z :=
  let '(mask, position) := acc in (if bool_decide (offset ∈ set) then keep_delete mask position else mask, position +d 1).

Fixpoint probe_ranges (set : gset Z) (mask : KeepMaskBuilder) (position : Z) (ranges : list Range) : KeepMaskBuilder :=
  match ranges with
  | [] => mask
  | range :: ranges =>
      let '(mask, position) := foldl (probe_step set) (mask, position) (range_list range) in
      probe_ranges set mask position ranges
  end.

Definition build_keep_mask (dv : DeletionVector) (ranges : list Range) (num_rows : Z) : option (list bool) :=
  let mask := keep_new num_rows in
  let mask :=
    match dv with
    | NoDeletions => mask
    | DBitmap bm => delete_ranges (bm_range bm) mask 0 ranges
    | DSet set =>
        if Z.min (Z.of_nat (size set) * zlen ranges) U64_MAX <=? num_rows
        then delete_ranges (fun range => List.filter (range_contains range) (elements set)) mask 0 ranges
        else probe_ranges set mask 0 ranges
    end in
  keep_finish mask.

Definition build_predicate (dv : DeletionVector) (row_addrs : list Z) : option (list bool) :=
  match dv with
  | DBitmap bm => Some (map (fun id => negb (bm_contains bm (wrap32 id))) row_addrs)
  | DSet set => Some (map (fun id => negb (bool_decide (wrap32 id ∈ set))) row_addrs)
  | NoDeletions => None
  end.

(** *** [OffsetMapper] *)

Record OffsetMapper := mkMapper { om_dv : DeletionVector; om_left : Z; last_diff : Z }.

Definition mapper_new (dv : DeletionVector) : OffsetMapper := mkMapper dv 0 0.

(** The search loop; it returns the row and the new [left]. *)
Fixpoint map_offset_loop (fuel : nat) (dv : DeletionVector) (offset left_ right mid : Z) : res (Z * Z) :=
  match fuel with
  | O => Panic
  | S fuel =>
      let deleted_in_range := wrap32 (range_cardinality dv (0 ..< mid +d 1)) in
      let search_left := map_offset_loop fuel dv offset left_ mid (left_ +d (mid -d left_) / 2) in
      match mid ?= offset +d deleted_in_range with
      | Eq => if negb (dv_contains dv mid) then Ok (mid, left_) else search_left
      | Lt =>
          if left_ =? mid +d 1 then Panic else
          let left_ := mid +d 1 in
          map_offset_loop fuel dv offset left_ right (left_ +d (right -d left_) / 2)
      | Gt => search_left
      end
  end.

Definition map_offset (fuel : nat) (m : OffsetMapper) (offset : Z) : res (Z * OffsetMapper) :=
  let mid := offset +d last_diff m in
  let right := offset +d wrap32 (dv_len (om_dv m)) in
  '(mid, left_) ← map_offset_loop fuel (om_dv m) offset (om_left m) right mid;
  Ok (mid, mkMapper (om_dv m) left_ (mid -d offset)).

(** *** Conversions *)

(** [From<&DeletionVector> for RoaringBitmap] *)
Definition to_bitmap (dv : DeletionVector) : bitmap :=
  match dv with
  | DBitmap bm => bm
  | DSet set => bm_from_iter (elements set)
  | NoDeletions => bm_new
  end.

(** [PartialEq] *)
Definition dv_eq (a b : DeletionVector) : bool :=
  match a, b with
  | NoDeletions, NoDeletions => true
  | DSet set1, DSet set2 => bool_decide (set1 = set2)
  | DBitmap bm1, DBitmap bm2 => bm_eq bm1 bm2
  | DSet set, DBitmap bm | DBitmap bm, DSet set => bm_eq (bm_from_iter (elements set)) bm
  | _, _ => false
  end.

(** [Extend<u32>] over an iterator with its [size_hint]. *)
Definition dv_extend (dv : DeletionVector) (iter : list Z) (size_hint : Z * option Z) : DeletionVector :=
  let set_or_bitmap (set : gset Z) :=
    if Z.of_nat (size set) >? BITMAP_THRESDHOLD then DBitmap (bm_from_iter (elements set)) else DSet set in
  match dv with
  | NoDeletions =>
      let '(lower, upper) := size_hint in
      if match upper with Some u => u =? 0 | None => false end then NoDeletions
      else if lower >=? BITMAP_THRESDHOLD then DBitmap (bm_from_iter iter)
      else if match upper with Some u => u <? BITMAP_THRESDHOLD | None => false end then DSet (list_to_set iter)
      else set_or_bitmap (list_to_set iter)
  | DSet set => set_or_bitmap (set ∪ list_to_set iter)
  | DBitmap bm => DBitmap (bm_extend bm iter)
  end.

(** [IntoIterator] *)
Definition dv_into_iter (dv : DeletionVector) : list Z :=
  match dv with
  | NoDeletions => []
  | DSet set => sort_unstable (elements set)
  | DBitmap bm => bm_iter bm
  end.

(** [FromIterator<u32>] *)
Definition dv_from_iter (iter : list Z) (size_hint : Z * option Z) : DeletionVector := dv_extend NoDeletions iter size_hint.

(** [From<RoaringBitmap>] *)
Definition dv_from_bitmap (bm : bitmap) : DeletionVector := if bm_is_empty bm then NoDeletions else DBitmap bm.

End DeletionModel.

(** ** The set of deleted offsets *)

Section DeletionFacts.
Context {RB : Roaring} {RL : RoaringLaws RB}.

(** The offsets of a set are [u32] values. *)
Definition dv_ok (dv : DeletionVector) : Prop := match dv with DSet set => set_Forall u32_ok set | _ => True end.

Lemma dv_iter_elem dv v : v ∈ dv_iter dv <-> dv_contains dv v = true.
Proof.
  destruct dv as [|set|bm]; cbn; [split; [by intros ?%elem_of_nil|done]| |apply bm_iter_elem].
  by rewrite elem_of_elements, bool_decide_eq_true.
Qed.

Lemma dv_iter_NoDup dv : NoDup (dv_iter dv).
Proof. destruct dv as [|set|bm]; cbn; [constructor|apply NoDup_elements|apply ssorted_NoDup, bm_iter_sorted]. Qed.

Lemma dv_contains_u32 dv v : dv_ok dv -> dv_contains dv v = true -> u32_ok v.
Proof. destruct dv as [|set|bm]; cbn; [done| |by intros _; apply bm_contains_u32]. rewrite bool_decide_eq_true. auto. Qed.

Lemma dv_iter_u32 dv : dv_ok dv -> Forall u32_ok (dv_iter dv).
Proof. intros Hok. apply Forall_forall. intros v Hv%dv_iter_elem. by eapply dv_contains_u32. Qed.

Lemma dv_len_iter dv : dv_len dv = zlen (dv_iter dv).
Proof. by destruct dv as [|set|bm]; cbn; [| |apply bm_len_iter]. Qed.

Lemma sorted_iter_eq dv : to_sorted_iter dv = into_sorted_iter dv /\ dv_into_iter dv = into_sorted_iter dv.
Proof. by destruct dv. Qed.

Lemma into_sorted_iter_spec dv : ssorted (into_sorted_iter dv) /\ forall v, v ∈ into_sorted_iter dv <-> dv_contains dv v = true.
Proof.
  destruct dv as [|set|bm]; cbn.
  - split; [constructor|]. intros v. split; [by intros ?%elem_of_nil|done].
  - split; [apply sort_unstable_ssorted, NoDup_elements|]. intros v. by rewrite sort_unstable_perm, elem_of_elements, bool_decide_eq_true.
  - split; [apply bm_iter_sorted|apply bm_iter_elem].
Qed.

(** Two duplicate-free lists with the same members have the same length. *)
Lemma NoDup_same_length {A} (l1 l2 : list A) : NoDup l1 -> NoDup l2 -> (forall x, x ∈ l1 <-> x ∈ l2) -> zlen l1 = zlen l2.
Proof. intros H1 H2 He. unfold zlen. f_equal. apply Permutation_length, NoDup_Permutation; done. Qed.

Lemma range_cardinality_filter dv r : range_cardinality dv r = zlen (List.filter (range_contains r) (dv_iter dv)).
Proof. destruct dv as [|set|bm]; cbn; [done|done|apply bm_range_cardinality_iter]. Qed.

(** The number of deleted offsets of a range, counted along the range. *)
Lemma range_cardinality_range dv r : range_cardinality dv r = zlen (List.filter (dv_contains dv) (range_list r)).
Proof.
  rewrite range_cardinality_filter. apply NoDup_same_length; [apply NoDup_filterb, dv_iter_NoDup|apply NoDup_filterb, ssorted_NoDup, ssorted_range_list|].
  intros v. rewrite !elem_of_filterb, dv_iter_elem, range_contains_spec, elem_of_range_list. tauto.
Qed.

Lemma contains_range_spec dv r : contains_range dv r = true <-> forall v, range_contains r v = true -> dv_contains dv v = true.
Proof.
  destruct dv as [|set|bm]; cbn; [|rewrite forallb_forall|apply bm_contains_range_iff].
  - unfold range_is_empty. rewrite negb_true_iff, Z.ltb_ge. split.
    + intros He v Hv%range_contains_spec. lia.
    + intros Ha. destruct (Z.le_gt_cases (end_ r) (start r)); [done|]. specialize (Ha (start r)). rewrite range_contains_spec in Ha.
      by specialize (Ha ltac:(lia)).
  - split; intros Ha v Hv.
    + apply Ha, list_elem_of_In, elem_of_range_list. by apply range_contains_spec.
    + apply Ha, range_contains_spec, elem_of_range_list. by apply list_elem_of_In.
Qed.

(** ** Live rows *)

(** The number of live rows before an offset. *)
Definition live_before (dv : DeletionVector) (m : Z) : Z := zlen (List.filter (fun v => negb (dv_contains dv v)) (range_list (0 ..< m))).

Lemma filter_negb_length {A} (f : A -> bool) l : zlen (List.filter (fun x => negb (f x)) l) = zlen l - zlen (List.filter f l).
Proof. induction l as [|x l IH]; [done|]. cbn [List.filter]. rewrite zlen_cons. destruct (f x); cbn [negb]; rewrite ?zlen_cons; lia. Qed.

Lemma live_before_deleted dv m : 0 <= m -> range_cardinality dv (0 ..< m) = m - live_before dv m.
Proof.
  intros Hm. rewrite range_cardinality_range. unfold live_before. rewrite filter_negb_length, zlen_range_list by (cbn; lia). cbn. lia.
Qed.

Lemma live_before_succ dv m : 0 <= m -> live_before dv (m + 1) = live_before dv m + (if dv_contains dv m then 0 else 1).
Proof.
  intros Hm. unfold live_before. rewrite range_list_snoc, List.filter_app, zlen_app by lia. cbn [List.filter]. by destruct (dv_contains dv m).
Qed.

Lemma live_before_mono dv a b : 0 <= a <= b -> live_before dv a <= live_before dv b <= live_before dv a + (b - a).
Proof.
  intros Hab. unfold live_before. rewrite (range_list_app 0 a b), List.filter_app, zlen_app by lia.
  set (l := List.filter _ (range_list (a ..< b))). pose proof (zlen_nonneg l). enough (zlen l <= b - a) by lia.
  subst l. rewrite filter_negb_length, zlen_range_list by (cbn; lia). cbn [start end_]. pose proof (zlen_nonneg (List.filter (dv_contains dv) (range_list (a ..< b)))). lia.
Qed.

(** The live row with [offset] live rows before it. *)
Definition live_row (dv : DeletionVector) (offset a : Z) : Prop := 0 <= a /\ dv_contains dv a = false /\ live_before dv a = offset.

Lemma cardinality_le_len dv r : range_cardinality dv r <= dv_len dv.
Proof.
  rewrite range_cardinality_filter, dv_len_iter. induction (dv_iter dv) as [|x l IH]; [done|]. cbn [List.filter].
  destruct (range_contains r x); rewrite ?zlen_cons; lia.
Qed.

(** It exists, no further than the number of deletions past the offset. *)
Lemma live_row_exists dv offset : 0 <= offset -> exists a, live_row dv offset a /\ a <= offset + dv_len dv.
Proof.
  intros Ho. pose proof (dv_len_iter dv) as Hl. pose proof (zlen_nonneg (dv_iter dv)) as H0.
  assert (forall n : nat, live_before dv (Z.of_nat n) > offset -> exists a, live_row dv offset a /\ a < Z.of_nat n) as Hex.
  { induction n as [|n IH]; intros Hn; [change (live_before dv (Z.of_nat 0)) with 0 in Hn; lia|].
    rewrite Nat2Z.inj_succ, <- Z.add_1_r in Hn. rewrite live_before_succ in Hn by lia.
    destruct (Z.le_gt_cases (live_before dv (Z.of_nat n)) offset) as [Hle|Hgt].
    - exists (Z.of_nat n). split; [|lia]. split; [lia|]. destruct (dv_contains dv (Z.of_nat n)); [lia|]. split; [done|lia].
    - destruct IH as (a & Ha & Hlt); [lia|]. exists a. split; [done|lia]. }
  destruct (Hex (Z.to_nat (offset + dv_len dv + 1))) as (a & Ha & Hlt); [|exists a; split; [done|lia]].
  rewrite Z2Nat.id by lia. pose proof (live_before_deleted dv (offset + dv_len dv + 1) ltac:(lia)).
  pose proof (cardinality_le_len dv (0 ..< offset + dv_len dv + 1)). lia.
Qed.

Lemma live_row_deleted dv offset a : live_row dv offset a -> a = offset + range_cardinality dv (0 ..< a).
Proof. intros (Ha & _ & Hl). rewrite live_before_deleted by done. lia. Qed.

Lemma live_row_mono dv o1 o2 a1 a2 : live_row dv o1 a1 -> live_row dv o2 a2 -> o1 <= o2 -> a1 + (o2 - o1) <= a2.
Proof.
  intros (H1 & N1 & L1) (H2 & N2 & L2) Ho. destruct (Z.le_gt_cases a1 a2) as [Hle|Hgt].
  - pose proof (live_before_mono dv a1 a2 ltac:(lia)). lia.
  - pose proof (live_before_mono dv (a2 + 1) a1 ltac:(lia)) as Hm. rewrite live_before_succ, N2 in Hm by lia. lia.
Qed.

(** ** The search *)

(** Where the live row lies, from the comparison of a guess. *)
Lemma search_cases dv offset a mid : live_row dv offset a -> 0 <= mid ->
  match mid ?= offset + range_cardinality dv (0 ..< mid + 1) with
  | Eq => if dv_contains dv mid then a < mid else a = mid
  | Lt => mid < a
  | Gt => a < mid
  end.
Proof.
  intros (Ha & Hn & Hl) Hm. rewrite live_before_deleted by lia. pose proof (live_before_succ dv mid Hm) as Hs.
  pose proof (live_before_succ dv a Ha) as Hsa. rewrite Hn in Hsa.
  assert (a <= mid -> live_before dv (a + 1) <= live_before dv (mid + 1)) as H1 by (intros; apply live_before_mono; lia).
  assert (mid <= a -> live_before dv mid <= live_before dv a) as H2 by (intros; apply live_before_mono; lia).
  assert (a < mid -> live_before dv (a + 1) <= live_before dv mid) as H3 by (intros; apply live_before_mono; lia).
  assert (mid < a -> live_before dv (mid + 1) <= live_before dv a) as H4 by (intros; apply live_before_mono; lia).
  destruct (Z.compare_spec mid (offset + (mid + 1 - live_before dv (mid + 1)))) as [E|E|E].
  - destruct (dv_contains dv mid); destruct (Z.lt_trichotomy a mid) as [?|[?|?]]; lia.
  - destruct (Z.lt_ge_cases mid a); [done|]. lia.
  - destruct (dv_contains dv mid); destruct (Z.lt_ge_cases a mid); try done; lia.
Qed.

Lemma map_offset_loop_ok fuel dv offset a lo right mid :
  live_row dv offset a -> u32_ok offset -> 0 <= lo <= a -> a <= right -> lo <= mid <= right -> right < U32_MAX ->
  offset + dv_len dv <= U32_MAX -> 2 * (right - lo) + (if mid =? right then 2 else 1) <= Z.of_nat fuel ->
  exists lo', map_offset_loop fuel dv offset lo right mid = Ok (a, lo') /\ 0 <= lo' <= a.
Proof.
  revert lo right mid. induction fuel as [|fuel IH]; intros lo right mid Ha Ho Hlo Har Hmid Hr Hlen Hf; [destruct (mid =? right); lia|].
  cbn [map_offset_loop]. rewrite (wrap32_small (mid + 1)) by (uok; lia).
  pose proof (cardinality_le_len dv (0 ..< mid + 1)) as Hc.
  assert (0 <= range_cardinality dv (0 ..< mid + 1)) as Hc0 by (rewrite range_cardinality_range; apply zlen_nonneg).
  rewrite (wrap32_small (range_cardinality dv (0 ..< mid + 1))), (wrap32_small (offset + _)) by (uok; lia).
  assert (a < mid -> exists lo', map_offset_loop fuel dv offset lo mid (lo +d (mid -d lo) / 2) = Ok (a, lo') /\ 0 <= lo' <= a) as Hleft.
  { intros Hlt. pose proof (Z.div_pos (mid - lo) 2 ltac:(lia) ltac:(lia)). pose proof (Z.div_lt (mid - lo) 2 ltac:(lia) ltac:(lia)).
    rewrite (wrap32_small (mid - lo)), (wrap32_small (lo + (mid - lo) / 2)) by (uok; lia).
    apply IH; [done|done|lia|lia|lia|lia|done|]. destruct (Z.eqb_spec (lo + (mid - lo) / 2) mid), (Z.eqb_spec mid right); lia. }
  pose proof (search_cases dv offset a mid Ha ltac:(lia)) as Hs. destruct (mid ?= _).
  - destruct (dv_contains dv mid); cbn [negb]; [by apply Hleft|]. subst a. by exists lo.
  - rewrite (proj2 (Z.eqb_neq lo (mid + 1))) by lia.
    pose proof (Z.div_pos (right - (mid + 1)) 2 ltac:(lia) ltac:(lia)). pose proof (Z.div_le_upper_bound (right - (mid + 1)) 2 (right - (mid + 1)) ltac:(lia) ltac:(lia)).
    rewrite (wrap32_small (right - (mid + 1))), (wrap32_small (mid + 1 + _)) by (uok; lia).
    destruct (IH (mid + 1) right (mid + 1 + (right - (mid + 1)) / 2)) as (lo' & Hl & Hb); [done|done|lia|lia|lia|lia|done| |by exists lo'].
    destruct (Z.eqb_spec mid right), (Z.eqb_spec (mid + 1 + (right - (mid + 1)) / 2) right); lia.
  - by apply Hleft.
Qed.

(** ** Mapping a sequence of offsets *)

(** One mapper for many offsets. *)
Fixpoint map_offsets (fuel : nat) (m : OffsetMapper) (offsets : list Z) : res (list Z) :=
  match offsets with
  | [] => Ok []
  | o :: offsets => '(a, m) ← map_offset fuel m o; l ← map_offsets fuel m offsets; Ok (a :: l)
  end.

(** A state from which every offset from [o] on can be mapped. *)
Definition mapper_ok (m : OffsetMapper) (o : Z) : Prop :=
  0 <= om_left m /\ 0 <= last_diff m <= dv_len (om_dv m) /\
  forall o' a', o <= o' -> live_row (om_dv m) o' a' -> om_left m <= a' /\ om_left m <= o' + last_diff m.

Lemma mapper_new_ok dv : mapper_ok (mapper_new dv) 0.
Proof.
  split; [cbn; lia|]. split; [cbn; rewrite dv_len_iter; pose proof (zlen_nonneg (dv_iter dv)); lia|]. intros o' a' Ho (Ha & _). cbn. lia.
Qed.

Lemma map_offset_ok fuel m o : mapper_ok m o -> 0 <= o -> o + dv_len (om_dv m) < U32_MAX -> 2 * (o + dv_len (om_dv m)) + 2 <= Z.of_nat fuel ->
  exists a m', map_offset fuel m o = Ok (a, m') /\ live_row (om_dv m) o a /\ om_dv m' = om_dv m /\ mapper_ok m' o.
Proof.
  intros (Hl & Hd & Hok) Ho Hlen Hf. destruct (live_row_exists (om_dv m) o Ho) as (a & Ha & Hle). destruct (Hok o a ltac:(lia) Ha) as [H1 H2].
  pose proof (dv_len_iter (om_dv m)) as Hz. pose proof (zlen_nonneg (dv_iter (om_dv m))) as H0.
  unfold map_offset. rewrite (wrap32_small (dv_len _)), !(wrap32_small (o + _)) by (uok; lia).
  destruct (map_offset_loop_ok fuel (om_dv m) o a (om_left m) (o + dv_len (om_dv m)) (o + last_diff m)) as (lo & -> & Hlo);
    [done|uok; lia|lia|lia|lia|lia|lia|destruct (_ =? _); lia|]. mon.
  pose proof (live_row_deleted _ _ _ Ha) as Had. pose proof (cardinality_le_len (om_dv m) (0 ..< a)) as Hc.
  assert (0 <= range_cardinality (om_dv m) (0 ..< a)) as Hc0 by (rewrite range_cardinality_range; apply zlen_nonneg).
  rewrite wrap32_small by (uok; lia). exists a, (mkMapper (om_dv m) lo (a - o)). split; [done|]. split; [done|]. split; [done|].
  split; [cbn; lia|]. split; [cbn; lia|]. intros o' a' Ho' Ha'. cbn in *. pose proof (live_row_mono _ _ _ _ _ Ha Ha' Ho'). lia.
Qed.

Lemma map_offsets_ok fuel m o offsets : mapper_ok m o -> 0 <= o -> StronglySorted Z.le (o :: offsets) ->
  Forall (fun o => o + dv_len (om_dv m) < U32_MAX /\ 2 * (o + dv_len (om_dv m)) + 2 <= Z.of_nat fuel) offsets ->
  exists l, map_offsets fuel m offsets = Ok l /\ Forall2 (live_row (om_dv m)) offsets l.
Proof.
  revert m o. induction offsets as [|x offsets IH]; intros m o Hm Ho Hs Hf; [by exists []|].
  apply StronglySorted_inv in Hs as [Hs Hx]. apply Forall_inv in Hx. apply Forall_cons in Hf as [[Hlt Hfu] Hf]. cbn [map_offsets].
  assert (mapper_ok m x) as Hmx. { destruct Hm as (H1 & H2 & H3). split; [done|]. split; [done|]. intros o' a' Ho' Ha'. apply H3; [lia|done]. }
  destruct (map_offset_ok fuel m x Hmx ltac:(lia) Hlt Hfu) as (a & m' & -> & Ha & Hdv & Hm'). mon.
  destruct (IH m' x Hm' ltac:(lia) Hs) as (l & -> & Hl); [by rewrite Hdv|]. mon. rewrite Hdv in Hl. exists (a :: l). split; [done|]. by constructor.
Qed.

(** ** Keep masks *)

Context {BB : BooleanBuffers} {BL : BooleanBuffersLaws BB}.

Lemma get_opt_eq {A} (l1 l2 : list A) : (forall i, get_opt l1 i = get_opt l2 i) -> l1 = l2.
Proof. intros He. apply list_eq. intros i. by rewrite <- !get_opt_nat. Qed.

Lemma get_opt_mask (f : Z -> bool) n i : 0 <= n ->
  get_opt (map f (range_list (0 ..< n))) i = if (0 <=? i) && (i <? n) then Some (f i) else None.
Proof.
  intros Hn. rewrite get_opt_map. unfold range_list. cbn [start end_]. destruct ((0 <=? i) && (i <? n)) eqn:E.
  - apply andb_true_iff in E as [E1%Z.leb_le E2%Z.ltb_lt]. by rewrite get_opt_seqZ by lia.
  - assert (get_opt (seqZ 0 (n - 0)) i = None) as ->; [|done]. apply get_opt_None. rewrite zlen_seqZ by lia.
    apply andb_false_iff in E as [E%Z.leb_gt|E%Z.ltb_ge]; lia.
Qed.

(** The buffer after deleting a list of positions. *)
Lemma keep_deletes ps n : 0 <= n -> Forall (fun p => 0 <= p < n) ps ->
  let k := foldl keep_delete (keep_new n) ps in
  num_rows k = n /\
  keep_finish k = match ps with [] => None | _ => Some (map (fun i => negb (bool_decide (i ∈ ps))) (range_list (0 ..< n))) end.
Proof.
  intros Hn Hps. cbv zeta. induction ps as [|p ps IH] using rev_ind; [done|]. apply Forall_app in Hps as [Hps Hp]. apply Forall_inv in Hp.
  destruct (IH Hps) as [Hk Hf]. rewrite foldl_app. cbn [foldl]. set (k := foldl keep_delete (keep_new n) ps) in *. split; [done|].
  unfold keep_finish in *. cbn [keep_delete builder option_map].
  assert (bb_finish (match builder k with Some b => b | None => bb_all_true (num_rows k) end) = map (fun i => negb (bool_decide (i ∈ ps))) (range_list (0 ..< n))) as Hb.
  { destruct (builder k) as [b|]; cbn in Hf.
    - destruct ps; [done|]. by injection Hf as ->.
    - destruct ps; [|done]. rewrite Hk, bb_finish_all_true by done. apply get_opt_eq. intros i. rewrite get_opt_replicate, get_opt_mask, Z2Nat.id by done.
      destruct (_ && _); [|done]. by rewrite bool_decide_false by apply not_elem_of_nil. }
  assert (0 <= p < zlen (map (fun i => negb (bool_decide (i ∈ ps))) (range_list (0 ..< n)))) as Hpl by (rewrite zlen_map, zlen_range_list; cbn; lia).
  rewrite bb_finish_set_bit by (by rewrite Hb). rewrite Hb. destruct (ps ++ [p]) as [|x l] eqn:E; [by destruct ps|]. rewrite <- E. f_equal.
  apply get_opt_eq. intros i. rewrite get_opt_insert, !get_opt_mask by done. destruct (Z.eqb_spec i p) as [->|Hne].
  - rewrite (proj2 (Z.leb_le 0 p)), (proj2 (Z.ltb_lt p n)) by lia. cbn. rewrite bool_decide_true by set_solver. done.
  - destruct (_ && _); [|done]. do 2 f_equal. apply bool_decide_ext. set_solver.
Qed.

(** The positions in the batch of the deleted rows of the ranges. *)
Fixpoint positions (deleted_in : Range -> list Z) (base : Z) (ranges : list Range) : list Z :=
  match ranges with
  | [] => []
  | r :: ranges => map (fun d => base + (d - start r)) (deleted_in r) ++ positions deleted_in (base + (end_ r - start r)) ranges
  end.

Definition batch_range_ok (r : Range) : Prop := 0 <= start r <= end_ r /\ end_ r <= U32_MAX.

Lemma rows_nonneg (ranges : list Range) : 0 <= zlen (flat_map range_list ranges).
Proof. apply zlen_nonneg. Qed.

(** A source of deleted offsets gives the deleted offsets of the range. *)
Definition finds_deleted (dv : DeletionVector) (deleted_in : Range -> list Z) : Prop :=
  forall r d, d ∈ deleted_in r <-> range_contains r d = true /\ dv_contains dv d = true.

Lemma positions_spec dv deleted_in ranges base i : finds_deleted dv deleted_in -> Forall batch_range_ok ranges ->
  i ∈ positions deleted_in base ranges <-> exists o, get_opt (flat_map range_list ranges) (i - base) = Some o /\ dv_contains dv o = true.
Proof.
  intros Hd Hr. revert base. induction Hr as [|r ranges [Hr1 Hr2] _ IH]; intros base; cbn [positions flat_map].
  - split; [by intros ?%elem_of_nil|]. intros (o & Ho%get_opt_Some & _). change (zlen (@nil Z)) with 0 in Ho. lia.
  - rewrite elem_of_app, IH, list_elem_of_fmap, get_opt_app, zlen_range_list by lia. split.
    + intros [(d & -> & [Hd1%range_contains_spec Hd2]%Hd)|(o & Ho & Hc)].
      * exists d. split; [|done]. rewrite (proj2 (Z.ltb_lt _ _)) by lia. unfold range_list. rewrite get_opt_seqZ by lia. f_equal. lia.
      * exists o. split; [|done]. pose proof (get_opt_Some _ _ _ Ho) as Hlt. rewrite (proj2 (Z.ltb_ge _ _)) by lia. rewrite <- Ho. f_equal. lia.
    + intros (o & Ho & Hc). destruct (Z.ltb_spec (i - base) (end_ r - start r)) as [Hlt|Hge].
      * left. pose proof (get_opt_Some _ _ _ Ho) as Hb. rewrite zlen_range_list in Hb by lia. unfold range_list in Ho. rewrite get_opt_seqZ in Ho by lia.
        injection Ho as <-. exists (start r + (i - base)). split; [lia|]. apply Hd. split; [|done]. apply range_contains_spec. lia.
      * right. exists o. split; [|done]. rewrite <- Ho. f_equal. lia.
Qed.

Lemma wrap32_sub x y : wrap32 (wrap32 x - y) = wrap32 (x - y).
Proof. unfold wrap32. by rewrite Zminus_mod_idemp_l. Qed.

Lemma delete_ranges_eq dv deleted_in ranges base mask : finds_deleted dv deleted_in -> Forall batch_range_ok ranges ->
  0 <= base -> base + zlen (flat_map range_list ranges) <= U32_MAX ->
  delete_ranges deleted_in mask base ranges = foldl keep_delete mask (positions deleted_in base ranges).
Proof.
  intros Hd Hr. revert base mask. induction Hr as [|r ranges [Hr1 Hr2] _ IH]; intros base mask Hb Hl; [done|].
  cbn [delete_ranges positions flat_map] in *. rewrite zlen_app, zlen_range_list in Hl by lia. pose proof (rows_nonneg ranges) as H0.
  rewrite (wrap32_small (end_ r - start r)), (wrap32_small (base + _)) by (uok; lia). rewrite IH by lia. rewrite foldl_app. f_equal.
  assert (Forall (fun d => start r <= d < end_ r) (deleted_in r)) as Hin by (apply Forall_forall; intros d [Hx _]%Hd; by apply range_contains_spec).
  clear - Hin Hb Hl H0 Hr1 Hr2. revert mask. induction Hin as [|d l Hd _ IHl]; intros mask; [done|]. cbn [foldl map]. rewrite wrap32_sub.
  rewrite wrap32_small by (uok; lia). replace (base + d - start r) with (base + (d - start r)) by lia. apply IHl.
Qed.

Lemma probe_range set (n : nat) s position mask : 0 <= position -> position + Z.of_nat n <= U32_MAX ->
  foldl (probe_step set) (mask, position) (range_list (s ..< s + Z.of_nat n)) =
  (foldl keep_delete mask (map (fun d => position + (d - s)) (List.filter (fun i => bool_decide (i ∈ set)) (range_list (s ..< s + Z.of_nat n)))),
   position + Z.of_nat n).
Proof.
  revert s position mask. induction n as [|n IH]; intros s position mask Hp Hl.
  - rewrite range_list_nil by lia. cbn. by rewrite Z.add_0_r.
  - rewrite range_list_cons by lia. replace (s + Z.of_nat (S n)) with (s + 1 + Z.of_nat n) by lia. cbn [foldl List.filter probe_step].
    rewrite (wrap32_small (position + 1)), IH by (uok; lia).
    rewrite (map_ext (fun d => position + 1 + (d - (s + 1))) (fun d => position + (d - s))) by (intros; lia).
    destruct (bool_decide (s ∈ set)); cbn [map foldl]; f_equal; try lia. replace (position + (s - s)) with position by lia. done.
Qed.

Lemma probe_ranges_eq set ranges position mask : Forall batch_range_ok ranges -> 0 <= position ->
  position + zlen (flat_map range_list ranges) <= U32_MAX ->
  probe_ranges set mask position ranges =
    foldl keep_delete mask (positions (fun r => List.filter (fun i => bool_decide (i ∈ set)) (range_list r)) position ranges).
Proof.
  intros Hr. revert position mask. induction Hr as [|r ranges [Hr1 Hr2] _ IH]; intros position mask Hp Hl; [done|].
  cbn [probe_ranges positions flat_map] in *. rewrite zlen_app, zlen_range_list in Hl by lia. pose proof (rows_nonneg ranges) as H0.
  pose proof (probe_range set (Z.to_nat (end_ r - start r)) (start r) position mask Hp ltac:(lia)) as Hs. rewrite Z2Nat.id in Hs by lia.
  replace (start r ..< start r + (end_ r - start r)) with r in Hs by (destruct r; cbn; f_equal; lia).
  rewrite Hs. rewrite IH, foldl_app by lia. done.
Qed.

Lemma build_keep_mask_ok dv ranges n : Forall batch_range_ok ranges -> zlen (flat_map range_list ranges) = n -> n <= U32_MAX ->
  build_keep_mask dv ranges n =
    (let rows := flat_map range_list ranges in
     if existsb (dv_contains dv) rows then Some (map (fun o => negb (dv_contains dv o)) rows) else None).
Proof.
  intros Hr Hn Hu. pose proof (rows_nonneg ranges) as H0.
  assert (forall deleted_in, finds_deleted dv deleted_in -> keep_finish (foldl keep_delete (keep_new n) (positions deleted_in 0 ranges)) =
    (let rows := flat_map range_list ranges in
     if existsb (dv_contains dv) rows then Some (map (fun o => negb (dv_contains dv o)) rows) else None)) as Hmain.
  { intros deleted_in Hd. cbv zeta. set (rows := flat_map range_list ranges) in *. set (ps := positions deleted_in 0 ranges).
    assert (forall i, i ∈ ps <-> exists o, get_opt rows i = Some o /\ dv_contains dv o = true) as Hps.
    { intros i. subst ps. rewrite (positions_spec dv deleted_in ranges 0 i Hd Hr). by rewrite Z.sub_0_r. }
    destruct (keep_deletes ps n ltac:(lia)) as [_ ->].
    { apply Forall_forall. intros i (o & Ho%get_opt_Some & _)%Hps. lia. }
    destruct (existsb (dv_contains dv) rows) eqn:Ee.
    - apply existsb_exists in Ee as (o & Ho%list_elem_of_In & Hc). apply elem_of_get_opt in Ho as [i Hi].
      destruct ps as [|p ps'] eqn:Eps; [exfalso; eapply not_elem_of_nil, Hps; eauto|]. rewrite <- Eps in *. f_equal.
      apply get_opt_eq. intros j. rewrite get_opt_mask, get_opt_map by lia. destruct ((0 <=? j) && (j <? n)) eqn:Ej.
      + apply andb_true_iff in Ej as [E1%Z.leb_le E2%Z.ltb_lt]. destruct (get_opt_lt rows j ltac:(lia)) as [x Hx]. rewrite Hx. cbn. do 2 f_equal.
        destruct (dv_contains dv x) eqn:Ex; [apply bool_decide_true, Hps; eauto|]. apply bool_decide_false. intros (y & Hy & Hcy)%Hps. congruence.
      + rewrite (proj2 (get_opt_None rows j)); [done|]. apply andb_false_iff in Ej as [E%Z.leb_gt|E%Z.ltb_ge]; lia.
    - destruct ps as [|p ps'] eqn:Eps; [done|]. exfalso. destruct (proj1 (Hps p) ltac:(left)) as (o & Ho & Hc).
      apply not_true_iff_false in Ee. apply Ee, existsb_exists. exists o. split; [|done]. apply list_elem_of_In, elem_of_get_opt. eauto. }
  unfold build_keep_mask. destruct dv as [|set|bm].
  - etransitivity; [|apply (Hmain (fun _ => [])); intros r d; rewrite elem_of_nil; cbn; naive_solver].
    assert (forall base, positions (fun _ => []) base ranges = []) as ->; [|done]. clear. induction ranges as [|r l IH]; intros base; [done|]. apply IH.
  - assert (finds_deleted (DSet set) (fun range => List.filter (range_contains range) (elements set))) as Hd.
    { intros r d. rewrite elem_of_filterb, elem_of_elements. cbn. rewrite bool_decide_eq_true. tauto. }
    assert (finds_deleted (DSet set) (fun r => List.filter (fun i => bool_decide (i ∈ set)) (range_list r))) as Hp.
    { intros r d. rewrite elem_of_filterb, elem_of_range_list, range_contains_spec. done. }
    destruct (_ <=? n); [rewrite (delete_ranges_eq (DSet set)) by (done || lia); by apply Hmain|].
    rewrite probe_ranges_eq by (done || lia). by apply Hmain.
  - assert (finds_deleted (DBitmap bm) (bm_range bm)) as Hd.
    { intros r d. rewrite bm_range_iter, elem_of_filterb, bm_iter_elem. cbn. tauto. }
    rewrite (delete_ranges_eq (DBitmap bm)) by (done || lia). by apply Hmain.
Qed.

(** ** Extending *)

Lemma list_to_set_u32 l : Forall u32_ok l -> set_Forall u32_ok (list_to_set l : gset Z).
Proof. intros Hl v Hv%elem_of_list_to_set. rewrite Forall_forall in Hl. by apply Hl. Qed.

Lemma elements_u32 (set : gset Z) : set_Forall u32_ok set -> Forall u32_ok (elements set).
Proof. intros Hs. apply Forall_forall. intros v Hv%elem_of_elements. by apply Hs. Qed.

Lemma bitmap_of_set (set : gset Z) v : set_Forall u32_ok set -> bm_contains (bm_from_iter (elements set)) v = bool_decide (v ∈ set).
Proof. intros Hs. rewrite bm_contains_from_iter by (by apply elements_u32). apply bool_decide_ext. by rewrite elem_of_elements. Qed.

Definition hint_ok (iter : list Z) (hint : Z * option Z) : Prop :=
  fst hint <= zlen iter /\ match snd hint with Some u => zlen iter <= u | None => True end.

(** Sets kept as sets are small. *)
Definition dv_small (dv : DeletionVector) : Prop := match dv with DSet set => Z.of_nat (size set) <= BITMAP_THRESDHOLD | _ => True end.

Lemma set_or_bitmap_ok (set : gset Z) v : set_Forall u32_ok set ->
  let dv := if Z.of_nat (size set) >? BITMAP_THRESDHOLD then DBitmap (bm_from_iter (elements set)) else DSet set in
  dv_contains dv v = bool_decide (v ∈ set) /\ dv_ok dv /\ dv_small dv.
Proof.
  intros Hs. cbv zeta. rewrite Z.gtb_ltb. destruct (Z.ltb_spec BITMAP_THRESDHOLD (Z.of_nat (size set))); cbn; [|done].
  split; [by apply bitmap_of_set|done].
Qed.

Lemma dv_extend_ok dv iter hint v : dv_ok dv -> dv_small dv -> Forall u32_ok iter -> hint_ok iter hint ->
  dv_contains (dv_extend dv iter hint) v = dv_contains dv v || bool_decide (v ∈ iter) /\
  dv_ok (dv_extend dv iter hint) /\ dv_small (dv_extend dv iter hint).
Proof.
  intros Hok Hsm Hu [Hlo Hhi]. unfold dv_extend. destruct dv as [|set|bm].
  - destruct hint as [lower upper]. cbn [fst snd] in *.
    assert (bool_decide (v ∈ (list_to_set iter : gset Z)) = bool_decide (v ∈ iter)) as He by (apply bool_decide_ext; apply elem_of_list_to_set).
    destruct (match upper with Some u => u =? 0 | None => false end) eqn:E0.
    { destruct upper as [u|]; [|done]. apply Z.eqb_eq in E0 as ->. destruct iter as [|x l]; [|rewrite zlen_cons in Hhi; pose proof (zlen_nonneg l); lia]. done. }
    destruct (_ >=? _); [cbn; rewrite bm_contains_from_iter by done; done|].
    destruct (match upper with Some u => u <? BITMAP_THRESDHOLD | None => false end) eqn:Eu.
    + cbn. rewrite He. split; [done|]. split; [by apply list_to_set_u32|]. destruct upper as [u|]; [|done]. apply Z.ltb_lt in Eu.
      assert ((size (list_to_set iter : gset Z) <= length iter)%nat) as Hsz; [|unfold zlen in Hhi; lia].
      apply submseteq_length, NoDup_submseteq; [apply NoDup_elements|]. intros x Hx. by apply elem_of_elements, elem_of_list_to_set in Hx.
    + destruct (set_or_bitmap_ok (list_to_set iter) v (list_to_set_u32 iter Hu)) as (Hc & H2 & H3). cbn in Hc. rewrite Hc, He. done.
  - cbn in Hok. assert (set_Forall u32_ok (set ∪ list_to_set iter)) as Hs by (apply set_Forall_union; [done|by apply list_to_set_u32]).
    destruct (set_or_bitmap_ok (set ∪ list_to_set iter) v Hs) as (Hc & H2 & H3). cbn in Hc. rewrite Hc. split; [|done]. cbn.
    rewrite <- bool_decide_or. apply bool_decide_ext. set_solver.
  - cbn. by rewrite bm_contains_extend.
Qed.

Lemma to_bitmap_contains dv v : dv_ok dv -> bm_contains (to_bitmap dv) v = dv_contains dv v.
Proof. destruct dv as [|set|bm]; cbn; intros Hok; [apply bm_contains_new|by apply bitmap_of_set|done]. Qed.

Lemma dv_eq_contains a b : dv_ok a -> dv_ok b -> dv_eq a b = true -> forall v, dv_contains a v = dv_contains b v.
Proof.
  destruct a as [|s|x], b as [|t|y]; cbn; intros Ha Hb; try done.
  - rewrite bool_decide_eq_true. by intros ->.
  - rewrite bm_eq_iff. intros He v. by rewrite <- He, bitmap_of_set.
  - rewrite bm_eq_iff. intros He v. by rewrite <- He, bitmap_of_set.
  - by rewrite bm_eq_iff.
Qed.

Lemma dv_eq_complete a b : dv_ok a -> dv_ok b -> (a = NoDeletions <-> b = NoDeletions) -> (forall v, dv_contains a v = dv_contains b v) -> dv_eq a b = true.
Proof.
  destruct a as [|s|x], b as [|t|y]; cbn; intros Ha Hb Hn He; try done; try (by destruct Hn as [H1 H2]; (discriminate H1 || discriminate H2); done).
  - apply bool_decide_eq_true, set_eq. intros v. specialize (He v). by destruct (bool_decide_reflect (v ∈ s)), (bool_decide_reflect (v ∈ t)).
  - apply bm_eq_iff. intros v. by rewrite bitmap_of_set.
  - apply bm_eq_iff. intros v. by rewrite bitmap_of_set.
  - by apply bm_eq_iff.
Qed.

(** ** Theorems *)

(** Every view of a deletion vector, as nothing, as a set or as a bitmap, is a view of the same set of offsets: the sorted iterators list
    it in order, the length, range count and range test count it, and the conversion to a bitmap keeps it. *)
Theorem deletion_views (dv : DeletionVector) (r : Range) (v : Z) : dv_ok dv ->
  ssorted (into_sorted_iter dv) /\ (v ∈ into_sorted_iter dv <-> dv_contains dv v = true) /\
  to_sorted_iter dv = into_sorted_iter dv /\ dv_into_iter dv = into_sorted_iter dv /\
  dv_len dv = zlen (into_sorted_iter dv) /\
  range_cardinality dv r = zlen (List.filter (dv_contains dv) (range_list r)) /\
  (contains_range dv r = true <-> forall w, start r <= w < end_ r -> dv_contains dv w = true) /\
  bm_contains (to_bitmap dv) v = dv_contains dv v.
Proof.
  intros Hok. destruct (into_sorted_iter_spec dv) as [Hs He]. destruct (sorted_iter_eq dv) as [E1 E2].
  split; [done|]. split; [apply He|]. split; [done|]. split; [done|]. split.
  { rewrite dv_len_iter. apply NoDup_same_length; [apply dv_iter_NoDup|by apply ssorted_NoDup|]. intros w. by rewrite dv_iter_elem, He. }
  split; [apply range_cardinality_range|]. split; [|by apply to_bitmap_contains]. rewrite contains_range_spec.
  split; intros H w Hw; apply H; by apply range_contains_spec.
Qed.

(** Extending a deletion vector adds exactly the given offsets, whatever its representation and whatever the iterator's size hint promises,
    and keeps the invariant that hash sets stay below the threshold; equality is equality of offsets, once
    both or neither are the empty representation. *)
Theorem deletion_extend (dv : DeletionVector) (iter : list Z) (hint : Z * option Z) (v : Z) (other : DeletionVector) :
  dv_ok dv -> dv_small dv -> dv_ok other -> Forall u32_ok iter -> hint_ok iter hint ->
  dv_contains (dv_extend dv iter hint) v = dv_contains dv v || bool_decide (v ∈ iter) /\
  dv_ok (dv_extend dv iter hint) /\ dv_small (dv_extend dv iter hint) /\
  (dv_eq dv other = true -> forall w, dv_contains dv w = dv_contains other w) /\
  ((dv = NoDeletions <-> other = NoDeletions) -> (forall w, dv_contains dv w = dv_contains other w) -> dv_eq dv other = true).
Proof.
  intros Hok Hsm Hoo Hu Hh. destruct (dv_extend_ok dv iter hint v Hok Hsm Hu Hh) as (H1 & H2 & H3).
  split; [done|]. split; [done|]. split; [done|]. split; [by apply dv_eq_contains|by apply dv_eq_complete].
Qed.

(** C9: [OffsetMapper] maps every offset of a non-decreasing sequence to the live row with that many live rows before it; the state kept
    from one call to the next never makes a later search miss its row, trip its assertion or run forever. *)
Theorem offset_mapper (dv : DeletionVector) (offsets : list Z) (fuel : nat) :
  StronglySorted Z.le offsets -> Forall (fun o => 0 <= o /\ o + dv_len dv < U32_MAX /\ 2 * (o + dv_len dv) + 2 <= Z.of_nat fuel) offsets ->
  exists rows, map_offsets fuel (mapper_new dv) offsets = Ok rows /\
    Forall2 (fun o a => dv_contains dv a = false /\ zlen (List.filter (fun w => negb (dv_contains dv w)) (range_list (0 ..< a))) = o) offsets rows.
Proof.
  intros Hs Hf. destruct (map_offsets_ok fuel (mapper_new dv) 0 offsets) as (l & Hl & H2); [apply mapper_new_ok|lia| | |].
  - constructor; [done|]. eapply Forall_impl; [exact Hf|]. intros o [Ho _]. done.
  - eapply Forall_impl; [exact Hf|]. intros o (_ & H). done.
  - exists l. split; [done|]. eapply Forall2_impl; [exact H2|]. intros o a (_ & Hc & Hb). done.
Qed.

(** [build_keep_mask] clears exactly the bits of the deleted rows of the batch, by whichever of its three loops, and is [None] exactly
    when no row of the batch is deleted. *)
Theorem keep_mask (dv : DeletionVector) (ranges : list Range) (n : Z) :
  Forall batch_range_ok ranges -> zlen (flat_map range_list ranges) = n -> n <= U32_MAX ->
  build_keep_mask dv ranges n =
    (let rows := flat_map range_list ranges in
     if existsb (dv_contains dv) rows then Some (map (fun o => negb (dv_contains dv o)) rows) else None).
Proof. apply build_keep_mask_ok. Qed.

End DeletionFacts.

(** ** Examples *)

Module DeletionExamples.

#[local] Existing Instances CofiniteRoaring CofiniteRoaring_laws.

Definition ListBooleans : BooleanBuffers := {|
  bool_builder := list bool;
  bb_all_true n := replicate (Z.to_nat n) true;
  bb_set_bit b i v := <[Z.to_nat i := v]> b;
  bb_finish b := b
|}.

Lemma ListBooleans_laws : BooleanBuffersLaws ListBooleans.
Proof. by split. Defined.

#[local] Existing Instances ListBooleans ListBooleans_laws.

Definition deleted_012 : DeletionVector := DSet {[0; 1; 2]}.

Lemma deleted_012_ok : dv_ok deleted_012.
Proof. intros v. rewrite !elem_of_union, !elem_of_singleton. intros [[->| ->]| ->]; uok; lia. Defined.

Lemma deletion_views_witness : bm_contains (to_bitmap deleted_012) 1 = true /\ to_sorted_iter deleted_012 = into_sorted_iter deleted_012.
Proof.
  destruct (deletion_views deleted_012 (0 ..< 5) 1 deleted_012_ok) as (_ & _ & Hs & _ & _ & _ & _ & Hb). split; [rewrite Hb; vm_compute; done|done].
Defined.

Lemma deletion_extend_witness : dv_contains (dv_extend deleted_012 [7; 8] (2, Some 2)) 7 = true.
Proof.
  destruct (deletion_extend deleted_012 [7; 8] (2, Some 2) 7 NoDeletions) as [Hc _];
    [apply deleted_012_ok|vm_compute; done|done|repeat constructor; uok; lia|split; vm_compute; done|]. rewrite Hc. vm_compute. done.
Defined.

Lemma offset_mapper_witness : exists rows, map_offsets 100 (mapper_new deleted_012) [0; 1; 5] = Ok rows /\ zlen rows = 3.
Proof.
  destruct (offset_mapper deleted_012 [0; 1; 5] 100) as (rows & Hm & H2).
  - repeat constructor; lia.
  - assert (dv_len deleted_012 = 3) as Hl by (vm_compute; done). rewrite Hl. repeat constructor; lia.
  - exists rows. split; [done|]. unfold zlen. rewrite <- (Forall2_length _ _ _ H2). done.
Defined.

Lemma keep_mask_witness : build_keep_mask deleted_012 [1 ..< 4; 10 ..< 11] 4 = Some [false; false; true; true].
Proof.
  rewrite (keep_mask deleted_012 [1 ..< 4; 10 ..< 11] 4); [vm_compute; done|repeat constructor; cbn; lia|done|lia].
Defined.

(** A vector extended with an empty iterator of unknown length is an empty set, and not equal to no deletions. *)
Lemma empty_set_differs : dv_eq (dv_extend NoDeletions [] (0, None)) NoDeletions = false.
Proof. vm_compute. done. Qed.

End DeletionExamples.
