(* ===== verification/SequenceMap.v ===== *)
(** * The tree map of a row-id sequence

    [lance-table/src/rowids.rs]: the conversion of a [RowIdSequence] to the
    [RowAddrTreeMap] of its ids.  The first part is about tree maps built from
    ranges, without whole fragments: inserting a range, removing rows and
    applying a mask keep such maps, and their address iterator lists the rows in
    increasing order. *)

From Stdlib Require Import ZArith Lia.
From stdpp Require Import base option list numbers sorting sets gmap.
From S2P Require Import Prelude Lists Bits RowAddress Bitmap EncodedArray HoleRuns Segment Sequence Itertools Roaring TreeMap TreeMapAlgebra TreeMapBuild RowMask.

(** ** Model *)

Section SequenceMapModel.
Context {RB : Roaring}.

(** [insert_range(s..e)] of a half-open range; [fuel] bounds the fragments it touches. *)
Definition insert_half_open (fuel : nat) (m : RowAddrTreeMap) (r : Range) : res RowAddrTreeMap :=
  '(m, _) ← insert_range fuel m (Included (start r)) (Excluded (end_ r)); Ok m.

(** [for hole in holes.iter()]: the rows removed, and [offset] less one for each row that was there. *)
Fixpoint remove_holes (m : RowAddrTreeMap) (offset : Z) (holes : list Z) : RowAddrTreeMap * Z :=
  match holes with
  | [] => (m, offset)
  | hole :: holes =>
      let '(m, removed) := remove m hole in
      remove_holes m (if removed : bool then offset -w 1 else offset) holes
  end.

(** [for (i, val) in range.clone().enumerate()]: the values whose bit is not set are removed, and counted in the same way. *)
Fixpoint remove_unset (bitmap : Bitmap) (m : RowAddrTreeMap) (offset : Z) (l : list (Z * Z)) : res (RowAddrTreeMap * Z) :=
  match l with
  | [] => Ok (m, offset)
  | (i, val) :: l =>
      bit ← Bitmap.get bitmap i;
      if bit : bool then remove_unset bitmap m offset l
      else
        let '(m, removed) := remove m val in
        remove_unset bitmap m (if removed : bool then offset -w 1 else offset) l
  end.

(** [for present in runs.present_ranges()] *)
Fixpoint insert_present (fuel : nat) (m : RowAddrTreeMap) (base : Z) (present : list Range) : res RowAddrTreeMap :=
  match present with
  | [] => Ok m
  | r :: present =>
      m ← insert_half_open fuel m (base +w start r ..< base +w end_ r);
      insert_present fuel m base present
  end.

Fixpoint insert_values (m : RowAddrTreeMap) (values : list Z) : RowAddrTreeMap :=
  match values with [] => m | val :: values => insert_values (fst (insert_row m val)) values end.

(** The rows of one segment, as the conversion collects them. *)
Definition segment_map (fuel : nat) (s : U64Segment) : res RowAddrTreeMap :=
  match s with
  | Range_ range => insert_half_open fuel TreeMap.new range
  | RangeWithBitmap range bitmap =>
      seg ← insert_half_open fuel TreeMap.new range;
      '(seg, _) ← remove_unset bitmap seg 0 (enumerate (range_list range));
      Ok seg
  | RangeWithHoles range holes =>
      seg ← insert_half_open fuel TreeMap.new range;
      Ok (fst (remove_holes seg 0 (EncodedArray.iter holes)))
  | Ranges range runs =>
      present ← HoleRuns.present_ranges runs;
      insert_present fuel TreeMap.new (start range) present
  | SortedArray array | Array array => Ok (insert_values TreeMap.new (EncodedArray.iter array))
  end.

Fixpoint union_segments (fuel : nat) (tree_map : RowAddrTreeMap) (q : RowIdSequence) : res RowAddrTreeMap :=
  match q with
  | [] => Ok tree_map
  | s :: q =>
      seg ← segment_map fuel s;
      union_segments fuel (bitor_owned tree_map seg) q
  end.

(** [From<&RowIdSequence> for RowAddrTreeMap] *)
Definition from_sequence (fuel : nat) (q : RowIdSequence) : res RowAddrTreeMap := union_segments fuel TreeMap.new q.

End SequenceMapModel.

(** ** Maps without whole fragments *)

Section Plain.
Context {RB : Roaring} {RL : RoaringLaws RB}.

Definition plain (m : RowAddrTreeMap) : Prop := map_Forall (fun k s => u32_ok k /\ is_partial s = true) m.

Lemma plain_new : plain TreeMap.new.
Proof. apply map_Forall_empty. Qed.

Lemma plain_insert m k b : plain m -> u32_ok k -> plain (<[k := Partial b]> m).
Proof. intros Hm Hk. by apply map_Forall_insert_2. Qed.

Lemma plain_remove m v : plain m -> plain (fst (remove m v)).
Proof.
  intros Hm. unfold remove. pose proof (upper_ok v). destruct (m !! upper v) as [[|b]|].
  - destruct (bm_remove _ _). by apply plain_insert.
  - destruct (bm_remove _ _) as [b' x]. cbn [fst]. case_match; [by apply map_Forall_delete|by apply plain_insert].
  - done.
Qed.

Lemma plain_insert_row m v : plain m -> plain (fst (insert_row m v)).
Proof.
  intros Hm. unfold insert_row. pose proof (upper_ok v). destruct (m !! upper v) as [[|b]|]; [done| |by apply plain_insert].
  destruct (bm_insert _ _). by apply plain_insert.
Qed.

Lemma plain_insert_loop fuel m sh sl eh el c r : plain m -> u32_ok sh -> insert_range_loop fuel m sh sl eh el c = Ok r -> plain (fst r).
Proof.
  revert m sh sl c. induction fuel as [|fuel IH]; intros m sh sl c Hm Hsh; [done|]. cbn [insert_range_loop].
  destruct (sh <=? eh); [|by intros [= <-]]. unfold insert_range_fragment.
  destruct (m !! sh) as [[|b]|]; repeat case_match; simplify_eq; apply IH; try apply wrap32_ok; try done; by apply plain_insert.
Qed.

Lemma plain_apply_mask m mask : plain m -> plain (apply_mask m mask).
Proof.
  intros Hm k s. destruct mask as [a|b]; cbn [apply_mask].
  - rewrite bitand_lookup. destruct (m !! k) as [w|] eqn:E; [|done]. destruct (a !! k) as [x|] eqn:Ea; [|done]. case_guard; [|done].
    intros [= <-]. destruct (Hm _ _ E) as [Hk Hp]. split; [done|]. unfold and_selection. rewrite Ea. by destruct w, x.
  - rewrite sub_lookup. destruct (b !! k) as [x|] eqn:Eb; [|apply Hm]. destruct (m !! k) as [w|] eqn:E; [|done].
    destruct (Hm _ _ E) as [Hk Hp]. destruct w as [|w], x; cbn; try done. case_match; [done|]. by intros [= <-].
Qed.

Lemma plain_addrs m : plain m -> into_addr_iter m = Ok (addrs m) /\ ssorted (addrs m) /\ Forall u64_ok (addrs m) /\
  forall row, u64_ok row -> row ∈ addrs m <-> contains m row = true.
Proof.
  intros Hm. assert (all_partial m = true) as Hp.
  { apply forallb_forall. intros [k s] Hin%list_elem_of_In%btree_iter_elem. by apply (Hm k s). }
  rewrite into_addr_iter_eq, Hp. split; [done|]. apply addrs_rows; [|done]. apply Forall_forall. intros [k s] Hin%btree_iter_elem.
  by apply (Hm k s).
Qed.

(** The addresses of a map with the rows of an increasing list, under a mask. *)
Lemma masked_addrs m l mask : plain m -> ssorted l -> Forall u64_ok l ->
  (forall row, u64_ok row -> contains m row = bool_decide (row ∈ l)) ->
  into_addr_iter (apply_mask m mask) = Ok (List.filter (selected mask) l).
Proof.
  intros Hm Hl Hu Hc. destruct (plain_addrs _ (plain_apply_mask m mask Hm)) as (-> & Hs & Hau & He). f_equal. rewrite Forall_forall in Hu, Hau.
  apply ssorted_ext; [done|by apply ssorted_filter|]. intros x. rewrite elem_of_filterb. split.
  - intros Hx. specialize (Hau x Hx). apply He in Hx; [|done]. rewrite contains_apply_mask, Hc in Hx by done. apply andb_true_iff in Hx as [Hx ?].
    by apply bool_decide_eq_true in Hx.
  - intros [Hx Hs']. apply He; [by apply Hu|]. rewrite contains_apply_mask, Hc, bool_decide_true by auto. done.
Qed.

(** ** Ranges *)

(** A range the insertion loop handles: it is not [0..0] and it ends before the last fragment. *)
Definition range_fits (fuel : nat) (r : Range) : Prop :=
  0 < end_ r /\ upper (end_ r - 1) < U32_MAX /\ upper (end_ r - 1) - upper (start r) + 2 <= Z.of_nat fuel.

Lemma upper_div v : u64_ok v -> upper v = v / 4294967296.
Proof.
  intros Hv. unfold upper. rewrite Z.shiftr_div_pow2 by lia. change (2 ^ 32) with 4294967296. apply wrap32_small. uok.
  pose proof (Z.div_pos v 4294967296). pose proof (Z.div_lt_upper_bound v 4294967296 4294967296). lia.
Qed.

Lemma insert_half_open_ok fuel m r : range_ok r -> range_fits fuel r ->
  exists m', insert_half_open fuel m r = Ok m' /\ (plain m -> plain m') /\
    forall row, u64_ok row -> contains m' row = range_contains r row || contains m row.
Proof.
  intros (? & ? & ?) (He & Hu & Hf). destruct r as [s e]. cbn [start end_] in *.
  destruct (insert_range_ok m (Included s) (Excluded e) fuel) as (m' & Hm & Hc); cbn [bound_ok first_row_of last_row_of] in *; [uok; lia..|done|done| |].
  { rewrite !upper_div in Hf by (uok; lia). pose proof (Z.div_le_mono (s - 1) (e - 1) 4294967296).
    replace (s - 1) with (s + (-1)) in * by lia. Z.to_euclidean_division_equations. lia. }
  exists m'. unfold insert_half_open. cbn [start end_]. rewrite Hm. mon. split; [done|]. split.
  - intros Hp. unfold insert_range in Hm. destruct (start_parts (Included s)) as [sh sl] eqn:Es, (end_parts _) as [eh el].
    apply plain_insert_loop in Hm; [done|done|]. cbn in Es. injection Es as <- _. apply upper_ok.
  - intros row Hr. rewrite Hc by done. f_equal. unfold range_contains. cbn [start end_]. f_equal. apply Bool.eq_true_iff_eq.
    rewrite Z.leb_le, Z.ltb_lt. lia.
Qed.

Lemma range_map_ok fuel r : range_ok r -> range_fits fuel r ->
  exists m, insert_half_open fuel TreeMap.new r = Ok m /\ plain m /\
    forall row, u64_ok row -> contains m row = bool_decide (row ∈ range_list r).
Proof.
  intros Hr Hf. destruct (insert_half_open_ok fuel TreeMap.new r Hr Hf) as (m & Hm & Hp & Hc). exists m. split; [done|].
  split; [apply Hp, plain_new|]. intros row Hrow. rewrite Hc by done. rewrite contains_new, orb_false_r. apply Bool.eq_true_iff_eq.
  by rewrite range_contains_spec, bool_decide_eq_true, elem_of_range_list.
Qed.

End Plain.

(** ** The rows of a segment *)

Section SegmentRows.
Context {RB : Roaring} {RL : RoaringLaws RB}.

Lemma remove_holes_ok m offset holes : plain m -> NoDup holes -> Forall u64_ok holes ->
  (forall h, h ∈ holes -> contains m h = true) -> 0 <= offset <= U64_MAX -> zlen holes <= offset ->
  plain (fst (remove_holes m offset holes)) /\ snd (remove_holes m offset holes) = offset - zlen holes /\
  forall row, u64_ok row -> contains (fst (remove_holes m offset holes)) row = contains m row && not_in holes row.
Proof.
  revert m offset. induction holes as [|h holes IH]; intros m offset Hm Hn Hu Hin Ho Hl.
  - split; [done|]. split; [change (zlen (@nil Z)) with 0; cbn [remove_holes snd]; lia|]. intros row _. cbn [remove_holes fst]. by rewrite andb_true_r.
  - apply NoDup_cons in Hn as [Hh Hn]. apply Forall_cons in Hu as [Hhu Hu]. rewrite zlen_cons in *. cbn [remove_holes].
    pose proof (plain_remove m h Hm) as Hp. pose proof (fun row => contains_remove m h row) as Hc. destruct (remove m h) as [m' b]. cbn [fst snd] in *.
    pose proof (zlen_nonneg holes). rewrite (proj2 (Hc 0)), (Hin h) by left. destruct (IH m' (offset -w 1)) as (H1 & H2 & H3); try done.
    + intros h' Hh'. rewrite (proj1 (Hc h')), (Hin h') by by right. rewrite andb_true_r, same_row_eq; [|by rewrite Forall_forall in Hu; apply Hu|done].
      destruct (Z.eqb_spec h' h) as [->|]; done.
    + unwrap. lia.
    + unwrap. lia.
    + split; [done|]. split; [rewrite H2; unwrap; lia|]. intros row Hr. rewrite H3, (proj1 (Hc row)), same_row_eq by done.
      unfold not_in. destruct (Z.eqb_spec row h) as [->|Hne]; cbn [negb andb].
      * rewrite (bool_decide_true (h ∈ h :: holes)) by left. cbn. by rewrite andb_false_r.
      * f_equal. f_equal. apply bool_decide_ext. rewrite elem_of_cons. tauto.
Qed.

Lemma remove_holes_fst m o o' holes : fst (remove_holes m o holes) = fst (remove_holes m o' holes).
Proof. revert m o o'. induction holes as [|h holes IH]; intros m o o'; [done|]. cbn [remove_holes]. destruct (remove m h). apply IH. Qed.

(** The loop over the bitmap removes the values whose bit is not set. *)
Lemma remove_unset_ok bitmap m offset l : Bitmap.wf bitmap -> Forall (fun p => 0 <= fst p < Bitmap.len bitmap) l ->
  remove_unset bitmap m offset l =
  Ok (remove_holes m offset (map snd (List.filter (fun p => negb (Bitmap.bitat (Bitmap.data bitmap) (fst p))) l))).
Proof.
  intros Hb Hl. revert m offset. induction Hl as [|[i v] l Hi _ IH]; intros m offset; [done|]. cbn [remove_unset List.filter fst] in *.
  rewrite Bitmap.get_wf by done. mon. destruct (Bitmap.bitat _ i); cbn [negb]; [apply IH|]. cbn [map snd remove_holes]. destruct (remove m v). apply IH.
Qed.

Lemma enumerate_range r : enumerate (range_list r) = map (fun v => (v - start r, v)) (range_list r).
Proof.
  destruct r as [s e]. unfold enumerate, range_list. cbn [start end_]. apply list_eq. intros i. rewrite list_lookup_fmap.
  destruct (decide (Z.of_nat i < e - s)) as [Hi|Hi].
  - rewrite (lookup_seqZ_lt s (e - s) i) by lia. cbn. apply lookup_zip_with_Some. exists (Z.of_nat i), (s + Z.of_nat i).
    split; [f_equal; lia|]. split; [|apply lookup_seqZ_lt; lia].
    unfold zlen. rewrite length_seqZ. rewrite lookup_seqZ_lt by lia. done.
  - rewrite (lookup_seqZ_ge s) by lia. cbn. apply lookup_ge_None. rewrite length_zip_with, !length_seqZ. unfold zlen. rewrite length_seqZ. lia.
Qed.

Definition unset (r : Range) (bitmap : Bitmap) : list Z :=
  List.filter (fun v => negb (Bitmap.bitat (Bitmap.data bitmap) (v - start r))) (range_list r).

Lemma remove_unset_range bitmap m offset r : Bitmap.wf bitmap -> Bitmap.len bitmap = end_ r - start r ->
  remove_unset bitmap m offset (enumerate (range_list r)) = Ok (remove_holes m offset (unset r bitmap)).
Proof.
  intros Hb Hl. rewrite enumerate_range, remove_unset_ok; [|done|].
  - do 2 f_equal. rewrite Bitmap.filter_map_comm, map_map. cbn [snd fst]. rewrite map_id. done.
  - apply Forall_map, Forall_forall. intros v Hv%elem_of_range_list. cbn [fst]. lia.
Qed.

Lemma range_fits_sub fuel r s e : range_ok r -> range_fits fuel r -> start r <= s -> s < e -> e <= end_ r -> range_fits fuel (s ..< e).
Proof.
  intros (? & ? & ?) (He & Hu & Hf) Hs Hse Hee. unfold range_fits. cbn [start end_]. rewrite !upper_div in * by (uok; lia).
  pose proof (Z.div_le_mono (e - 1) (end_ r - 1) 4294967296). pose proof (Z.div_le_mono (start r) s 4294967296). lia.
Qed.

Lemma insert_present_ok fuel m r sp present : range_ok r -> range_fits fuel r -> sp = end_ r - start r ->
  Forall (fun p => 0 <= start p < end_ p /\ end_ p <= sp) present -> plain m ->
  exists m', insert_present fuel m (start r) present = Ok m' /\ plain m' /\
    forall row, u64_ok row -> contains m' row = bool_decide (row - start r ∈ flat_map range_list present) || contains m row.
Proof.
  intros Hr Hf -> Hp. pose proof Hr as (? & ? & ?). revert m. induction Hp as [|p present Hp _ IH]; intros m Hm; [by exists m|].
  cbn [insert_present flat_map]. unwrap.
  destruct (insert_half_open_ok fuel m (start r + start p ..< start r + end_ p)) as (m1 & -> & Hp1 & Hc1);
    [unfold range_ok; cbn [start end_]; lia|apply (range_fits_sub fuel r); [done|done|lia..]|]. mon.
  destruct (IH m1) as (m2 & -> & Hp2 & Hc2); [auto|]. exists m2. split; [done|]. split; [done|].
  intros row Hrow. rewrite Hc2, Hc1 by done. rewrite orb_assoc. f_equal. apply Bool.eq_true_iff_eq.
  rewrite orb_true_iff, range_contains_spec, !bool_decide_eq_true, elem_of_app, elem_of_range_list. cbn [start end_]. intuition lia.
Qed.

Lemma insert_values_ok values m : plain m -> Forall u64_ok values -> plain (insert_values m values) /\
  forall row, u64_ok row -> contains (insert_values m values) row = bool_decide (row ∈ values) || contains m row.
Proof.
  intros Hm Hv. revert m Hm. induction Hv as [|v values Hv _ IH]; intros m Hm; [done|]. cbn [insert_values].
  destruct (IH (fst (insert_row m v))) as [Hp Hc]; [by apply plain_insert_row|]. split; [done|]. intros row Hr.
  rewrite Hc, (proj1 (contains_insert_row m v row)), same_row_eq, orb_assoc by done. f_equal. apply Bool.eq_true_iff_eq.
  rewrite orb_true_iff, !bool_decide_eq_true, Z.eqb_eq, elem_of_cons. tauto.
Qed.

(** The segments whose ranges the insertion loop handles. *)
Definition segment_fits (fuel : nat) (s : U64Segment) : Prop :=
  match s with
  | Range_ r | RangeWithHoles r _ | RangeWithBitmap r _ | Ranges r _ => range_fits fuel r
  | SortedArray _ | Array _ => True
  end.

(** Removing some values of a range leaves the others, and [offset] accounts for them. *)
Lemma range_without fuel r holes : range_ok r -> range_fits fuel r -> ssorted holes -> Forall (fun h => start r <= h < end_ r) holes ->
  exists m, insert_half_open fuel TreeMap.new r = Ok m /\
    (forall offset, plain (fst (remove_holes m offset holes)) /\ forall row, u64_ok row ->
      contains (fst (remove_holes m offset holes)) row = bool_decide (row ∈ List.filter (not_in holes) (range_list r))) /\
    (forall offset, zlen holes <= offset <= U64_MAX -> snd (remove_holes m offset holes) = offset - zlen holes).
Proof.
  intros Hr Hf Hs Hh. pose proof Hr as (? & ? & ?). destruct (range_map_ok fuel r Hr Hf) as (m & Hm & Hp & Hc). exists m. split; [done|].
  pose proof (zlen_nonneg holes) as Hz.
  assert (forall offset, zlen holes <= offset <= U64_MAX -> plain (fst (remove_holes m offset holes)) /\
    snd (remove_holes m offset holes) = offset - zlen holes /\
    forall row, u64_ok row -> contains (fst (remove_holes m offset holes)) row = contains m row && not_in holes row) as Hok.
  { intros offset Ho. apply remove_holes_ok; [done|by apply ssorted_NoDup| | |lia|lia].
    - eapply Forall_impl; [exact Hh|]. intros x Hx. cbn in Hx. uok. lia.
    - intros h Hin. rewrite Forall_forall in Hh. specialize (Hh h Hin). rewrite Hc by (uok; lia). apply bool_decide_true. by apply elem_of_range_list. }
  assert (zlen holes <= U64_MAX) as Hmax.
  { pose proof (values_len_le (map (Z.add (- start r)) holes) (end_ r - start r)) as Hv. rewrite zlen_map in Hv. transitivity (end_ r - start r); [|lia].
    apply Hv; [lia| |].
    - apply NoDup_fmap_2; [intros a b; lia|by apply ssorted_NoDup].
    - apply Forall_map. eapply Forall_impl; [exact Hh|]. cbn. lia. }
  split; [|intros; by apply Hok]. intros offset. rewrite (remove_holes_fst m offset (zlen holes)).
  destruct (Hok (zlen holes)) as (Hq1 & _ & Hq2); [lia|]. split; [done|]. intros row Hrow. rewrite Hq2, Hc by done. apply Bool.eq_true_iff_eq.
  by rewrite andb_true_iff, !bool_decide_eq_true, elem_of_filterb.
Qed.

Lemma unset_ok r b : range_ok r -> ssorted (unset r b) /\ Forall (fun h => start r <= h < end_ r) (unset r b) /\
  List.filter (not_in (unset r b)) (range_list r) = Segment.elems (RangeWithBitmap r b).
Proof.
  intros Hr. split; [apply ssorted_filter, ssorted_range_list|]. split; [apply Forall_forall; intros h [Hh%elem_of_range_list _]%elem_of_filterb; done|].
  cbn [Segment.elems]. apply filter_ext_Forall, Forall_forall. intros v Hv. unfold not_in, unset.
  destruct (Bitmap.bitat _ _) eqn:E.
  - rewrite bool_decide_false; [done|]. rewrite elem_of_filterb, E. by intros [_ ?].
  - rewrite bool_decide_true; [done|]. by rewrite elem_of_filterb, E.
Qed.

Lemma segment_map_ok fuel s : Segment.wf s -> segment_fits fuel s ->
  exists m, segment_map fuel s = Ok m /\ forall row, u64_ok row -> contains m row = bool_decide (row ∈ Segment.elems s).
Proof.
  intros Hwf Hf. destruct s as [r|r h|r b|r rs|a|a]; cbn [segment_map segment_fits] in *.
  - destruct (range_map_ok fuel r Hwf Hf) as (m & Hm & _ & Hc). eauto.
  - destruct Hwf as (Hr & Hh & Hs & Hb). destruct (range_without fuel r _ Hr Hf Hs Hb) as (m & -> & Hc & _). mon.
    rewrite EncodedArray.iter_elems by done. eexists. split; [done|]. apply Hc.
  - destruct Hwf as (Hr & Hb & Hl). destruct (unset_ok r b Hr) as (Hs & Hu & He).
    destruct (range_without fuel r _ Hr Hf Hs Hu) as (m & -> & Hc & _). mon. rewrite remove_unset_range by done. mon.
    specialize (Hc 0) as [_ Hc]. destruct (remove_holes m 0 _) as [m' o]. exists m'. split; [done|]. rewrite <- He. apply Hc.
  - destruct Hwf as (Hr & Hrs & Hsp). destruct (HoleRuns.present_ranges_ok rs Hrs) as (l & -> & Hl & Hb). mon.
    destruct (insert_present_ok fuel TreeMap.new r (HoleRuns.span rs) l Hr Hf Hsp Hb plain_new) as (m & -> & _ & Hc). exists m. split; [done|].
    intros row Hrow. rewrite Hc, contains_new, orb_false_r, Hl by done. apply bool_decide_ext. cbn [Segment.elems]. rewrite list_elem_of_fmap. split.
    + intros Hin. exists (row - start r). split; [lia|done].
    + intros (v & -> & Hv). by replace (start r + v - start r) with v by lia.
  - destruct Hwf as [Ha _]. destruct (insert_values_ok (EncodedArray.iter a) TreeMap.new plain_new) as [_ Hc];
      rewrite EncodedArray.iter_elems in * by done; [by apply EncodedArray.elems_ok|]. eexists. split; [done|]. intros row Hr.
    by rewrite Hc, contains_new, orb_false_r.
  - destruct (insert_values_ok (EncodedArray.iter a) TreeMap.new plain_new) as [_ Hc];
      rewrite EncodedArray.iter_elems in * by done; [by apply EncodedArray.elems_ok|]. eexists. split; [done|]. intros row Hr.
    by rewrite Hc, contains_new, orb_false_r.
Qed.

Lemma union_segments_ok fuel t q : Forall Segment.wf q -> Forall (segment_fits fuel) q ->
  exists m, union_segments fuel t q = Ok m /\
    forall row, u64_ok row -> contains m row = contains t row || bool_decide (row ∈ Sequence.elems q).
Proof.
  intros Hwf Hf. revert t Hf. induction Hwf as [|s q Hs _ IH]; intros t Hf.
  - exists t. split; [done|]. intros row _. cbn. by rewrite orb_false_r.
  - apply Forall_cons in Hf as [Hfs Hf]. cbn [union_segments]. destruct (segment_map_ok fuel s Hs Hfs) as (seg & -> & Hc). mon.
    destruct (IH (bitor_owned t seg) Hf) as (m & -> & Hm). exists m. split; [done|]. intros row Hr.
    rewrite Hm, contains_bitor_owned, Hc by done. rewrite <- orb_assoc. f_equal. apply Bool.eq_true_iff_eq.
    rewrite orb_true_iff, !bool_decide_eq_true. unfold Sequence.elems. cbn [map concat]. by rewrite elem_of_app.
Qed.

(** ** Theorems *)

(** The tree map of a row-id sequence holds exactly the ids of the sequence, whatever the encodings of its segments: ranges are
    inserted fragment by fragment and holes, unset bits and gaps are left out. *)
Theorem sequence_to_tree_map (fuel : nat) (q : RowIdSequence) : Forall Segment.wf q -> Forall (segment_fits fuel) q ->
  exists m, from_sequence fuel q = Ok m /\ forall row, u64_ok row -> contains m row = bool_decide (row ∈ Sequence.elems q).
Proof.
  intros Hwf Hf. destruct (union_segments_ok fuel TreeMap.new q Hwf Hf) as (m & Hm & Hc). exists m. split; [done|].
  intros row Hr. by rewrite Hc, contains_new.
Qed.

End SegmentRows.

(** ** Examples *)

Module SequenceMapExamples.

#[local] Existing Instances CofiniteRoaring CofiniteRoaring_laws.

Lemma sequence_to_tree_map_witness : exists m,
  from_sequence 3 [Range_ (4294967290 ..< 4294967300); RangeWithHoles (5 ..< 9) (U16 0 [6; 7]); Array (U64 [90; 20])] = Ok m /\
  contains m 4294967296 = true /\ contains m 6 = false /\ contains m 20 = true.
Proof.
  destruct (sequence_to_tree_map 3 [Range_ (4294967290 ..< 4294967300); RangeWithHoles (5 ..< 9) (U16 0 [6; 7]); Array (U64 [90; 20])])
    as (m & Hm & Hc).
  - constructor; [|constructor; [|constructor; [|constructor]]].
    + split; [|split]; cbn; lia.
    + split; [split; [|split]; cbn; lia|]. split; [split; [split; [uok; lia|repeat constructor; uok; cbn; lia]|vm_compute; done]|].
      split; [repeat constructor; lia|]. cbn. repeat constructor; lia.
    + split; [repeat constructor; uok; lia|]. vm_compute. done.
  - repeat constructor; vm_compute; done.
  - exists m. split; [done|]. rewrite !Hc by (uok; lia). vm_compute. done.
Defined.

(** A sequence with the empty range [0..0] has no ids, its tree map has row 0. *)
Lemma empty_range_has_row_zero :
  match from_sequence 2 [Range_ (0 ..< 0)] with Ok m => contains m 0 | _ => false end = true /\ Sequence.elems [Range_ (0 ..< 0)] = [].
Proof. vm_compute. done. Qed.

End SequenceMapExamples.
