(* ===== verification/RowIdIndex.v ===== *)
(** * The row-id index: model

    [lance-table/src/rowids/index.rs]: the index from stable row ids to row
    addresses over the fragments of a dataset.  Two representations answer the
    same lookups.  The probe representation keeps the segments of every fragment
    with small lookup structures, cuts them into pieces, and searches an implicit
    max-end heap over the pieces.  The merged representation decomposes every
    segment into chunks of row ids and addresses, merges the chunks whose ranges
    overlap and keeps them in a range map ([rangemap], an interface here).  This
    file is the model and the specification; [RowIdLookup], [RowIdProbe],
    [RowIdMerged] and [RowIdBatch] prove the two representations correct. *)

From Stdlib Require Import ZArith Lia.
From stdpp Require Import base option list numbers sorting sets gmap.
From S2P Require Import Prelude Lists Bits RowAddress Bitmap EncodedArray HoleRuns Segment SegmentBuild Sequence Itertools Roaring Deletion.

(** ** Range maps *)

(** [rangemap::RangeInclusiveMap] as the index uses it. *)
Class RangeMaps (V : Type) := {
  range_map : Type;
  (** [FromIterator] *)
  rm_from_iter : list (RangeInclusive * V) -> range_map;
  rm_get : range_map -> Z -> option V;
  (** [iter]: the ranges in order with their values. *)
  rm_iter : range_map -> list (RangeInclusive * V)
}.

(** No key is in two of the ranges, and none is reversed. *)
Fixpoint disjoint_ranges {V} (l : list (RangeInclusive * V)) : Prop :=
  match l with
  | [] => True
  | p :: l => fst (fst p) <= snd (fst p) /\
      Forall (fun q => snd (fst p) < fst (fst q) \/ snd (fst q) < fst (fst p)) l /\ disjoint_ranges l
  end.

Fixpoint ascending_ranges {V} (l : list (RangeInclusive * V)) : Prop :=
  match l with
  | [] => True
  | p :: l => fst (fst p) <= snd (fst p) /\ Forall (fun q => snd (fst p) < fst (fst q)) l /\ ascending_ranges l
  end.

(** The value of the range that contains a key. *)
Definition find_range {V} (l : list (RangeInclusive * V)) (k : Z) : option V := snd <$> List.find (fun p => incl_contains (fst p) k) l.

Class RangeMapsLaws {V : Type} (RM : RangeMaps V) : Prop := {
  rm_get_from_iter l k : disjoint_ranges l -> rm_get (rm_from_iter l) k = find_range l k;
  rm_get_iter m k : rm_get m k = find_range (rm_iter m) k;
  rm_iter_ascending m : ascending_ranges (rm_iter m)
}.

(** ** Model: segments and fragments *)

Definition MAX_PROBE_DEPTH : Z := 64.
Definition MERGE_ROWS_BUDGET : Z := 1048576.
Definition PROBE_GAP : Z := 65536.
Definition RANK_BLOCK_BYTES : Z := 256.

Inductive SegmentLookup :=
| Native
| Positions (positions : list (Z * Z))
| BitmapRank (rank : list Z).

Record SegmentEntry := mkEntry { seq_idx : Z; se_range : RangeInclusive; start_offset : Z; lookup : SegmentLookup }.

(** [SegmentEntry::position] *)
Definition entry_position (e : SegmentEntry) (sequence : RowIdSequence) (row_id : Z) : res (option Z) :=
  segment ← idx sequence (seq_idx e);
  match lookup e with
  | Native => Segment.position segment row_id
  | Positions positions =>
      match binary_search_by (fun p => fst p ?= row_id) positions with
      | inl found => p ← idx positions found; Ok (Some (snd p))
      | inr _ => Ok None
      end
  | BitmapRank rank =>
      match segment with
      | RangeWithBitmap range bitmap =>
          if negb (range_contains range row_id) then Ok None else
          let offset := row_id -w start range in
          bit ← Bitmap.get bitmap offset;
          if negb bit then Ok None else
          let block_start := offset / (RANK_BLOCK_BYTES * 8) * (RANK_BLOCK_BYTES * 8) in
          r ← idx rank (offset / (RANK_BLOCK_BYTES * 8));
          ones ← Bitmap.slice_count_ones (Bitmap.slice bitmap block_start (offset -w block_start));
          Ok (Some (r +w ones))
      | _ => Ok None
      end
  end.

(** [slice::chunks]: the last chunk may be shorter. *)
Definition chunks {A} (n : nat) (l : list A) : list (list A) :=
  let '(full, tail) := as_chunks n l in full ++ match tail with [] => [] | _ => [tail] end.

Definition build_bitmap_rank (bitmap : Bitmap) : list Z * Z :=
  foldl (fun acc block => (fst acc ++ [wrap32 (snd acc)], snd acc +w count_ones_bytes block)) ([], 0)
    (chunks (Z.to_nat RANK_BLOCK_BYTES) (Bitmap.data bitmap)).

(** [sort_unstable] of pairs: by the first component, then by the second. *)
Definition sort_pairs (l : list (Z * Z)) : list (Z * Z) := sort_by_key fst (sort_by_key snd l).

(** [dedup_by_key(|(row_id, _)| *row_id)] *)
Fixpoint dedup_keys (l : list (Z * Z)) : list (Z * Z) :=
  match l with
  | [] => []
  | p :: l => p :: match dedup_keys l with
                   | q :: l' => if fst p =? fst q then l' else q :: l'
                   | [] => []
                   end
  end.

Definition build_lookup (segment : U64Segment) : res (SegmentLookup * Z) :=
  match segment with
  | Array _ =>
      ids ← Segment.iter segment;
      let positions := map (fun p => (snd p, wrap32 (fst p))) (enumerate ids) in
      n ← Segment.len segment;
      Ok (Positions (dedup_keys (sort_pairs positions)), n)
  | RangeWithBitmap _ bitmap => let '(rank, ones) := build_bitmap_rank bitmap in Ok (BitmapRank rank, ones)
  | _ => n ← Segment.len segment; Ok (Native, n)
  end.

Section FragmentsModel.
Context {RB : Roaring}.

Record FragmentRowIdIndex := mkSource { fragment_id : Z; row_id_sequence : RowIdSequence; deletion_vector : DeletionVector }.

Record FragmentEntry := mkFragment {
  fe_fragment_id : Z; fe_sequence : RowIdSequence; fe_deletion_vector : DeletionVector;
  segments : list SegmentEntry; merge_rows : Z }.

(** The loop of [FragmentEntry::new]. *)
Fixpoint entry_loop (deleted : bool) (l : list (Z * U64Segment)) (segs : list SegmentEntry) (start_offset merge_rows : Z)
    : res (list SegmentEntry * Z) :=
  match l with
  | [] => Ok (segs, merge_rows)
  | (seq_idx, segment) :: l =>
      '(lookup, len) ← build_lookup segment;
      let merge_rows := if deleted || negb (match segment with Range_ _ => true | _ => false end) then merge_rows +w len else merge_rows in
      let segs :=
        if 0 <? len then
          match Segment.range segment with
          | Some range => segs ++ [mkEntry seq_idx range start_offset lookup]
          | None => segs
          end
        else segs in
      entry_loop deleted l segs (start_offset +d wrap32 len) merge_rows
  end.

Definition fragment_entry (source : FragmentRowIdIndex) : res (option FragmentEntry) :=
  let deleted := negb (dv_is_empty (deletion_vector source)) in
  '(segs, merge_rows) ← entry_loop deleted (enumerate (row_id_sequence source)) [] 0 0;
  match segs with
  | [] => Ok None
  | _ => Ok (Some (mkFragment (fragment_id source) (row_id_sequence source) (deletion_vector source) segs merge_rows))
  end.

Definition resolve_segment (f : FragmentEntry) (segment row_id : Z) : res (option RowAddress) :=
  entry ← idx (segments f) segment;
  if negb (incl_contains (se_range entry) row_id) then Ok None else
  p ← entry_position entry (fe_sequence f) row_id;
  match p with
  | None => Ok None
  | Some position =>
      let row_offset := start_offset entry +d wrap32 position in
      if dv_contains (fe_deletion_vector f) row_offset then Ok None
      else Ok (Some (new_from_parts (fe_fragment_id f) row_offset))
  end.

End FragmentsModel.

(** ** Model: probing *)

Record ProbeEntry := mkProbe { pe_fragment : Z; pe_segment : Z; pe_start : Z; pe_end : Z }.

(** The closure [push] of [probe_spans]. *)
Definition push_span (spans : list (Z * Z)) (s e : Z) : list (Z * Z) :=
  match list.last spans with
  | Some (first, last_end) => if s -w last_end <=? PROBE_GAP then removelast spans ++ [(first, e)] else spans ++ [(s, e)]
  | None => spans ++ [(s, e)]
  end.

Definition has_gap (p : Z * Z) : bool := PROBE_GAP <? snd p -w fst p.

(** The walk over a block that has a gap: the start of the open span and the spans so far. *)
Definition walk_gaps (base : Z) (acc : Z * list (Z * Z)) (p : Z * Z) : Z * list (Z * Z) :=
  let '(s, spans) := acc in
  if has_gap p then (base +w snd p, spans ++ [(s, base +w fst p)]) else (s, spans).

(** [while at + 1 < offsets.len()] *)
Fixpoint gap_blocks (fuel : nat) (base : Z) (offsets : list Z) (at_ s : Z) (spans : list (Z * Z)) : res (Z * list (Z * Z)) :=
  if at_ +w 1 <? zlen offsets then
    match fuel with
    | O => Panic
    | S fuel =>
        let e := Z.min (at_ +w 256) (zlen offsets -w 1) in
        block ← idx_range offsets at_ e;
        next ← idx_range offsets (at_ +w 1) (e +w 1);
        let pairs := zip block next in
        let '(s, spans) := if foldl (fun found p => found || has_gap p) false pairs then foldl (walk_gaps base) (s, spans) pairs else (s, spans) in
        gap_blocks fuel base offsets e s spans
    end
  else Ok (s, spans).

Definition sorted_gap_spans (base : Z) (offsets : list Z) (spans : list (Z * Z)) : res (list (Z * Z)) :=
  match offsets with
  | [] => Ok spans
  | first :: _ =>
      '(s, spans) ← gap_blocks (length offsets) base offsets 0 (base +w first) spans;
      last ← idx offsets (zlen offsets -w 1);
      Ok (spans ++ [(s, base +w last)])
  end.

Definition probe_spans (segment : U64Segment) (range : RangeInclusive) : res (list (Z * Z)) :=
  match segment with
  | Ranges r runs =>
      present ← HoleRuns.present_ranges runs;
      Ok (foldl (fun spans run => push_span spans (start r +w start run) ((start r +w end_ run) -w 1)) [] present)
  | SortedArray (U32 base offsets) => sorted_gap_spans base offsets []
  | SortedArray (U64 values) => sorted_gap_spans 0 values []
  | _ => Ok [(fst range, snd range)]
  end.

(** [build_end_tree]: the leaves, then every inner node from its children. *)
Definition next_power_of_two (n : Z) : Z := 2 ^ Z.log2_up n.

Definition set_leaf (leaves : Z) (tree : list Z) (p : Z * ProbeEntry) : res (list Z) := idx_set tree (leaves + fst p) (pe_end (snd p)).
Definition set_node (tree : list Z) (node : Z) : res (list Z) :=
  l ← idx tree (2 * node);
  r ← idx tree (2 * node + 1);
  idx_set tree node (Z.max l r).

Definition build_end_tree (probes : list ProbeEntry) : res (list Z) :=
  match probes with
  | [] => Ok []
  | _ =>
      let leaves := next_power_of_two (zlen probes) in
      tree ← fold_res (set_leaf leaves) (replicate (Z.to_nat (2 * leaves)) 0) (enumerate probes);
      fold_res set_node tree (rev (range_list (1 ..< leaves)))
  end.

(** [while closed < ends.len() && ends[closed] < probe.start] over the ends not closed yet. *)
Fixpoint close_ends (ends : list Z) (closed s : Z) : list Z * Z :=
  match ends with
  | e :: ends' => if e <? s then close_ends ends' (closed +w 1) s else (ends, closed)
  | [] => ([], closed)
  end.

Fixpoint overlap_loop (probes : list (Z * ProbeEntry)) (ends : list Z) (closed depth : Z) : Z :=
  match probes with
  | [] => depth
  | (opened, probe) :: probes =>
      let '(ends, closed) := close_ends ends closed (pe_start probe) in
      overlap_loop probes ends closed (Z.max depth ((opened +w 1) -w closed))
  end.

Definition max_overlap_depth (probes : list ProbeEntry) : Z :=
  overlap_loop (enumerate probes) (sort_unstable (map pe_end probes)) 0 0.

(** Slots and nodes of the tree index a vector, so their arithmetic stays far below 2^64 and does not wrap around.
    The next subtree to the right: up while the node is a right child, then over to the sibling; [None] from the last one. *)
Fixpoint next_subtree (fuel : nat) (node lo width : Z) : res (option (Z * Z * Z)) :=
  match fuel with
  | O => Panic
  | S fuel =>
      if Z.odd node then
        if node =? 1 then Ok None else next_subtree fuel (node / 2) (lo - width) (width * 2)
      else Ok (Some (node + 1, lo + width, width))
  end.

Section ProbeModel.
Context {RB : Roaring}.

Definition segment_probes (fragment : Z) (f : FragmentEntry) (p : Z * SegmentEntry) : res (list ProbeEntry) :=
  let '(segment, seg) := p in
  s ← idx (fe_sequence f) (seq_idx seg);
  spans ← probe_spans s (se_range seg);
  Ok (map (fun span => mkProbe (wrap32 fragment) (wrap32 segment) (fst span) (snd span)) spans).

Definition fragment_probes (p : Z * FragmentEntry) : res (list ProbeEntry) :=
  ls ← map_res (segment_probes (fst p) (snd p)) (enumerate (segments (snd p)));
  Ok (concat ls).

Definition probe_entries (fragments : list FragmentEntry) : res (list ProbeEntry) :=
  ls ← map_res fragment_probes (enumerate fragments);
  Ok (sort_by_key pe_start (concat ls)).

Definition probing_beats_merging (fragments : list FragmentEntry) (probes : list ProbeEntry) : bool :=
  let merge_rows := sum64 (map merge_rows fragments) in
  (MERGE_ROWS_BUDGET <? merge_rows) && (max_overlap_depth probes <=? MAX_PROBE_DEPTH).

(** What the index keeps for probing. *)
Record ProbeIndex := mkProbeIndex { fragments : list FragmentEntry; probes : list ProbeEntry; end_tree : list Z }.

(** The candidate at a leaf, if there is one at its slot. *)
Definition leaf_candidate (index : ProbeIndex) (lo row_id : Z) : res (option RowAddress) :=
  match get_opt (probes index) lo with
  | Some probe => f ← idx (fragments index) (pe_fragment probe); resolve_segment f (pe_segment probe) row_id
  | None => Ok None
  end.

(** The loop of [probe], depth first without a stack. *)
Fixpoint probe_loop (fuel : nat) (index : ProbeIndex) (row_id upper node lo width : Z) (found : option RowAddress)
    : res (option RowAddress) :=
  match fuel with
  | O => Panic
  | S fuel =>
      if upper <=? lo then Ok found else
      e ← idx (end_tree index) node;
      let advance found :=
        next ← next_subtree (S (Z.to_nat (Z.log2 node))) node lo width;
        match next with
        | None => Ok found
        | Some (node, lo, width) => probe_loop fuel index row_id upper node lo width found
        end in
      if row_id <=? e then
        if 1 <? width then probe_loop fuel index row_id upper (node * 2) lo (width / 2) found
        else
          candidate ← leaf_candidate index lo row_id;
          match candidate, found with
          | Some _, Some _ => Err Internal
          | Some address, None => advance (Some address)
          | None, _ => advance found
          end
      else advance found
  end.

(** Rounds enough for every node of a tree with this many leaves. *)
Definition probe_fuel (leaves : Z) : nat := Z.to_nat ((leaves + 1) * (Z.log2 leaves + 2)).

Definition probe (index : ProbeIndex) (row_id : Z) : res (option RowAddress) :=
  if zlen (probes index) =? 0 then Ok None else
  let upper := partition_point (fun probe => pe_start probe <=? row_id) (probes index) in
  if upper =? 0 then Ok None else
  let leaves := zlen (end_tree index) / 2 in
  probe_loop (probe_fuel leaves) index row_id upper 1 0 leaves None.

(** The first half of [RowIdIndex::new]. *)
Definition probing (fragment_indices : list FragmentRowIdIndex) : res ProbeIndex :=
  fragments ← filter_map_res fragment_entry fragment_indices;
  probes ← probe_entries fragments;
  end_tree ← build_end_tree probes;
  Ok (mkProbeIndex fragments probes end_tree).

End ProbeModel.

(** ** Model: merging *)

Definition IndexChunk : Type := RangeInclusive * (U64Segment * U64Segment).

Definition build_chunk_from_pairs (pairs : list (Z * Z)) : res (option IndexChunk) :=
  match pairs with
  | [] => Ok None
  | _ =>
      let pairs := sort_by_key fst pairs in
      row_id_segment ← SegmentBuild.from_iter (map fst pairs);
      address_segment ← SegmentBuild.from_iter (map snd pairs);
      Ok (coverage ← Segment.range row_id_segment; Some (coverage, (row_id_segment, address_segment)))
  end.

Definition decompose_segment_no_deletions (segment : U64Segment) (start_address : Z) : res (option IndexChunk) :=
  empty ← Segment.is_empty segment;
  let pairs :=
    if empty : bool then Ok None else
    ids ← Segment.iter segment;
    build_chunk_from_pairs (map (fun p => (snd p, start_address +w fst p)) (enumerate ids)) in
  match segment with
  | Range_ range =>
      if negb (range_is_empty range) then
        let len := end_ range -w start range in
        Ok (Some ((start range, end_ range -w 1), (Range_ range, Range_ (start_address ..< start_address +w len))))
      else pairs
  | Ranges _ _ =>
      if negb empty then
        n ← Segment.len segment;
        Ok (coverage ← Segment.range segment; Some (coverage, (segment, Range_ (start_address ..< start_address +w n))))
      else pairs
  | _ => pairs
  end.

Inductive RawIndexChunk :=
| NonOverlapping (chunk : IndexChunk)
| Overlapping (range : RangeInclusive) (chunks : list IndexChunk).

Definition range_end (c : RawIndexChunk) : Z :=
  match c with NonOverlapping (range, _) => snd range | Overlapping range _ => snd range end.

(** The loop of [prep_index_chunks]; [chunks] is the rest of the vector in the order it is popped. *)
Fixpoint prep_loop (chunks : list IndexChunk) (output : list RawIndexChunk) (current_range : RangeInclusive)
    (current_overlap : list IndexChunk) : res (list RawIndexChunk * RangeInclusive * list IndexChunk) :=
  match chunks with
  | [] => Ok (output, current_range, current_overlap)
  | chunk :: chunks =>
      match current_overlap with
      | [] =>
          last ← unwrap_opt (list.last output);
          if fst (fst chunk) <=? range_end last then
            match last with
            | NonOverlapping first =>
                let range_end := Z.max (snd (fst chunk)) (snd (fst first)) in
                prep_loop chunks (removelast output) (fst (fst first), range_end) [first; chunk]
            | Overlapping _ _ => Panic
            end
          else prep_loop chunks (output ++ [NonOverlapping chunk]) current_range []
      | _ =>
          if fst (fst chunk) <=? snd current_range then
            let range_end := Z.max (snd (fst chunk)) (snd current_range) in
            prep_loop chunks output (fst current_range, range_end) (current_overlap ++ [chunk])
          else
            prep_loop chunks (output ++ [Overlapping current_range current_overlap; NonOverlapping chunk]) (0, 0) []
      end
  end.

Definition prep_index_chunks (chunks : list IndexChunk) : res (list RawIndexChunk) :=
  match rev (sort_by_key (fun c => U64_MAX - fst (fst c)) chunks) with
  | [] => Ok []
  | first_chunk :: chunks =>
      '(output, current_range, current_overlap) ← prep_loop chunks [NonOverlapping first_chunk] (0, 0) [];
      Ok (match current_overlap with [] => output | _ => output ++ [Overlapping current_range current_overlap] end)
  end.

(** [row_ids.iter().zip(row_addrs.iter())] *)
Definition chunk_pairs (c : IndexChunk) : res (list (Z * Z)) :=
  ids ← Segment.iter (fst (snd c));
  row_addrs ← Segment.iter (snd (snd c));
  Ok (zip ids row_addrs).

Definition merge_overlapping_chunks (overlapping_chunks : list IndexChunk) : res IndexChunk :=
  ls ← map_res chunk_pairs overlapping_chunks;
  let values := sort_by_key fst (concat ls) in
  if existsb (fun w => fst (fst w) =? fst (snd w)) (windows2 values) then Err Internal else
  row_id_segment ← SegmentBuild.from_iter (map fst values);
  address_segment ← SegmentBuild.from_iter (map snd values);
  range ← unwrap_opt (Segment.range row_id_segment);
  Ok (range, (row_id_segment, address_segment)).

Definition finish_chunk (c : RawIndexChunk) : res IndexChunk :=
  match c with NonOverlapping chunk => Ok chunk | Overlapping _ chunks => merge_overlapping_chunks chunks end.

Section MergedModel.
Context {RB : Roaring} {RM : RangeMaps (U64Segment * U64Segment)}.

Definition live_pair (dv : DeletionVector) (start_address current_offset : Z) (p : Z * Z) : option (Z * Z) :=
  let '(i, row_id) := p in
  let row_offset := current_offset +d wrap32 i in
  if negb (dv_contains dv row_offset) then Some (row_id, start_address +w i) else None.

Definition decompose_segment_with_deletions (segment : U64Segment) (start_address current_offset : Z) (dv : DeletionVector)
    : res (option IndexChunk) :=
  ids ← Segment.iter segment;
  build_chunk_from_pairs (omap (live_pair dv start_address current_offset) (enumerate ids)).

(** The [filter_map] of [decompose_sequence], with its captured variables. *)
Fixpoint decompose_loop (no_deletions : bool) (dv : DeletionVector) (q : RowIdSequence) (start_address current_offset : Z)
    : res (list IndexChunk) :=
  match q with
  | [] => Ok []
  | segment :: q =>
      segment_len ← Segment.len segment;
      result ← (if no_deletions then decompose_segment_no_deletions segment start_address
                else decompose_segment_with_deletions segment start_address current_offset dv);
      rest ← decompose_loop no_deletions dv q (start_address +w segment_len) (current_offset +d wrap32 segment_len);
      Ok (match result with Some c => c :: rest | None => rest end)
  end.

Definition decompose_sequence (frag_index : FragmentRowIdIndex) : res (list IndexChunk) :=
  let no_deletions := dv_is_empty (deletion_vector frag_index) in
  decompose_loop no_deletions (deletion_vector frag_index) (row_id_sequence frag_index) (first_row (fragment_id frag_index)) 0.

Definition build_merged (fragments : list FragmentEntry) : res range_map :=
  let sources := map (fun entry => mkSource (fe_fragment_id entry) (fe_sequence entry) (fe_deletion_vector entry)) fragments in
  ls ← map_res decompose_sequence sources;
  raw ← prep_index_chunks (concat ls);
  final_chunks ← map_res finish_chunk raw;
  Ok (rm_from_iter final_chunks).

Definition merged_get (merged : range_map) (row_id : Z) : res (option RowAddress) :=
  match rm_get merged row_id with
  | None => Ok None
  | Some (row_id_segment, address_segment) =>
      pos ← Segment.position row_id_segment row_id;
      match pos with
      | None => Ok None
      | Some pos => Segment.get address_segment pos
      end
  end.

(** ** Model: the index *)

Record RowIdIndex := mkIndex { probe_index : ProbeIndex; merged : option range_map }.

Definition new (fragment_indices : list FragmentRowIdIndex) : res RowIdIndex :=
  index ← probing fragment_indices;
  if negb (probing_beats_merging (fragments index) (probes index)) then
    merged ← build_merged (fragments index);
    Ok (mkIndex index (Some merged))
  else Ok (mkIndex index None).

Definition get (index : RowIdIndex) (row_id : Z) : res (option RowAddress) :=
  match merged index with
  | Some merged => merged_get merged row_id
  | None => probe (probe_index index) row_id
  end.

End MergedModel.

(** ** Specification *)

Section Specification.
Context {RB : Roaring}.

(** The address of the first occurrence of an id in a segment at [offset] of a fragment, unless that row is deleted. *)
Definition segment_address (k : Z) (dv : DeletionVector) (offset : Z) (s : U64Segment) (row_id : Z) : option RowAddress :=
  match index_of row_id (Segment.elems s) with
  | Some p => if dv_contains dv (offset + p) then None else Some (new_from_parts k (offset + p))
  | None => None
  end.

Fixpoint sequence_addresses (k : Z) (dv : DeletionVector) (offset : Z) (q : RowIdSequence) (row_id : Z) : list RowAddress :=
  match q with
  | [] => []
  | s :: q => option_list (segment_address k dv offset s row_id) ++ sequence_addresses k dv (offset + zlen (Segment.elems s)) q row_id
  end.

(** All live addresses of an id. *)
Definition live_addresses (sources : list FragmentRowIdIndex) (row_id : Z) : list RowAddress :=
  flat_map (fun f => sequence_addresses (fragment_id f) (deletion_vector f) 0 (row_id_sequence f) row_id) sources.

(** What a lookup owes: the address, nothing, or the report of a corrupt index. *)
Definition lookup_result (l : list RowAddress) : res (option RowAddress) :=
  match l with [] => Ok None | [a] => Ok (Some a) | _ => Err Internal end.

(** Fragments with well-formed sequences whose number of rows is a [u32]. *)
Definition source_ok (f : FragmentRowIdIndex) : Prop :=
  u32_ok (fragment_id f) /\ Forall Segment.wf (row_id_sequence f) /\ zlen (Sequence.elems (row_id_sequence f)) <= U32_MAX.

End Specification.
