(* ===== verification/RowIdLookup.v ===== *)
(** * The row-id index: positions within a segment

    The lookup structures of [lance-table/src/rowids/index.rs]: sorted positions
    for an unsorted array, a rank directory for a bitmap, the encoding's own
    search otherwise.  Each finds the first position of a row id in its segment,
    and a fragment entry resolves an id to its live address. *)

From Stdlib Require Import ZArith Lia.
From stdpp Require Import base option list numbers sorting sets gmap.
From S2P Require Import Prelude Lists Bits RowAddress Bitmap EncodedArray HoleRuns Segment SegmentBuild Sequence Itertools Roaring Deletion RowIdIndex.

(** ** Sorted positions *)

Definition lex (a b : Z * Z) : Prop := fst a < fst b \/ (fst a = fst b /\ snd a < snd b).

Lemma insert_lex x l : StronglySorted lex l -> Forall (fun y => snd x < snd y) l -> StronglySorted lex (insert_by_key fst x l).
Proof.
  induction 1 as [|y l Hl IH Hy]; intros Hs; cbn [insert_by_key]; [repeat constructor|]. apply Forall_cons in Hs as [Hxy Hs].
  destruct (Z.leb_spec (fst x) (fst y)) as [Hle|Hlt].
  - assert (lex x y) as Hl' by (unfold lex; lia). constructor; [by constructor|]. constructor; [done|]. eapply Forall_impl; [exact Hy|].
    unfold lex in *. intros z Hz. lia.
  - constructor; [by apply IH|]. rewrite insert_by_key_perm. constructor; [left; lia|done].
Qed.

(** A stable sort by key of a list in order of its second components. *)
Lemma sort_lex l : StronglySorted (fun a b => snd a < snd b) l -> StronglySorted lex (sort_by_key fst l).
Proof.
  induction 1 as [|x l Hl IH Hx]; [constructor|]. cbn [sort_by_key foldr]. apply insert_lex; [done|].
  by rewrite (sort_by_key_perm fst l).
Qed.

(** Deduplication of a sorted list keeps the least position of every key. *)
Lemma dedup_keys_ok l : StronglySorted lex l -> ssorted (map fst (dedup_keys l)) /\
  forall v p, (v, p) ∈ dedup_keys l <-> (v, p) ∈ l /\ forall p', (v, p') ∈ l -> p <= p'.
Proof.
  induction 1 as [|[w o] l Hl [IH1 IH2] Hw].
  { split; [constructor|]. intros v p. rewrite !elem_of_nil. tauto. }
  rewrite Forall_forall in Hw.
  assert (forall v p, (v, p) ∈ l -> w < v \/ (w = v /\ o < p)) as Hlex by (intros v p Hin; apply (Hw _ Hin)).
  assert (forall v p, (v, p) ∈ (w, o) :: l /\ (forall p', (v, p') ∈ (w, o) :: l -> p <= p') <->
    (v = w /\ p = o) \/ (v <> w /\ (v, p) ∈ dedup_keys l)) as Hspec.
  { intros v p. rewrite IH2. split.
    - intros [Hin Hmin]. apply elem_of_cons in Hin as [[= -> ->]|Hin]; [by left|].
      pose proof (Hlex v p Hin) as Hx. destruct (decide (v = w)) as [->|Hne].
      + exfalso. specialize (Hmin o ltac:(left)). lia.
      + right. split; [done|]. split; [done|]. intros p' Hp'. apply Hmin. by right.
    - intros [[-> ->]|(Hne & Hin & Hmin)].
      + split; [left|]. intros p' [[= ->]|Hp']%elem_of_cons; [lia|]. pose proof (Hlex _ _ Hp'). lia.
      + split; [by right|]. intros p' [[= ? ?]|Hp']%elem_of_cons; [done|]. by apply Hmin. }
  assert (dedup_keys ((w, o) :: l) = (w, o) :: List.filter (fun q => negb (fst q =? w)) (dedup_keys l)) as Hd.
  { cbn [dedup_keys]. f_equal. destruct (dedup_keys l) as [|[v p] l'] eqn:E; [done|]. cbn [map fst] in IH1.
    apply ssorted_cons_inv in IH1 as [IH1 Hgt]. rewrite Forall_forall in Hgt. cbn [List.filter fst].
    assert (w <= v) as Hwv by (assert ((v, p) ∈ l) as Hin by (apply (IH2 v p); left); pose proof (Hlex v p Hin); lia).
    assert (List.filter (fun q => negb (fst q =? w)) l' = l') as Hf.
    { apply filter_all, Forall_forall. intros q Hq. apply negb_true_iff, Z.eqb_neq.
      specialize (Hgt (fst q) (list_elem_of_fmap_2 fst l' q Hq)). lia. }
    rewrite Hf, (Z.eqb_sym v w). by destruct (w =? v). }
  rewrite Hd. split.
  - cbn [map fst]. constructor.
    + rewrite <- (Bitmap.filter_map_comm (fun k => negb (k =? w)) fst). by apply ssorted_filter.
    + apply Forall_map, Forall_forall. intros [v p] [Hin Hne%negb_true_iff%Z.eqb_neq]%elem_of_filterb. cbn [fst] in *.
      apply IH2 in Hin as [Hin _]. pose proof (Hlex v p Hin). lia.
  - intros v p. rewrite Hspec, elem_of_cons, elem_of_filterb. cbn [fst]. rewrite negb_true_iff, Z.eqb_neq.
    split; [intros [[= -> ->]|[? ?]]; auto|]. intros [[-> ->]|[? ?]]; auto.
Qed.

Lemma bsearch_loop_map {A B} (g : A -> B) cmp fuel l base size :
  bsearch_loop fuel (fun x => cmp (g x)) l base size = bsearch_loop fuel cmp (map g l) base size.
Proof.
  revert base size. induction fuel as [|fuel IH]; intros base size; [done|]. cbn [bsearch_loop]. rewrite list_lookup_fmap.
  destruct (size <=? 1)%nat; [done|]. rewrite IH. by destruct (l !! _).
Qed.

Lemma binary_search_by_map {A B} (g : A -> B) cmp l : binary_search_by (fun x => cmp (g x)) l = binary_search_by cmp (map g l).
Proof.
  destruct l as [|x l]; [done|]. remember (x :: l) as l' eqn:E. assert (exists y m, map g l' = y :: m) as (y & m & Hm) by (subst; eauto).
  unfold binary_search_by. rewrite Hm. rewrite E at 1. rewrite <- Hm, (bsearch_loop_map g cmp), length_map, list_lookup_fmap. by destruct (l' !! _).
Qed.

(** The value found for a key in a list of pairs with increasing keys. *)
Lemma search_pairs (l : list (Z * Z)) v : ssorted (map fst l) ->
  match binary_search_by (fun p => fst p ?= v) l with
  | inl i => exists p, get_opt l i = Some (v, p)
  | inr _ => forall p, (v, p) ∉ l
  end.
Proof.
  intros Hs. rewrite (binary_search_by_map fst (fun x => x ?= v)). change (binary_search_by (fun x => x ?= v) (map fst l)) with (Lists.binary_search (map fst l) v).
  pose proof (binary_search_found (map fst l) v) as Hf. pose proof (binary_search_is_ok (map fst l) v Hs) as Hok.
  destruct (Lists.binary_search _ v) as [i|i].
  - specialize (Hf i Hs). destruct Hf as [Hf _]. specialize (Hf eq_refl). rewrite get_opt_map in Hf.
    destruct (get_opt l i) as [[w p]|]; [|done]. injection Hf as ->. eauto.
  - intros p Hin. destruct Hok as [_ Hok]. destruct Hok as [j Hj]; [|done]. by apply (list_elem_of_fmap_2 fst _ (v, p)).
Qed.

Lemma swapped_positions (l : list Z) : zlen l <= U32_MAX ->
  map (fun p => (snd p, wrap32 (fst p))) (enumerate l) = map (fun p => (snd p, fst p)) (enumerate l).
Proof.
  intros Hl. apply map_ext_in. intros [i v] Hin%list_elem_of_In%enumerate_lookup%get_opt_Some. cbn [fst snd]. by unwrap.
Qed.

(** The first position of a value, by the pairs of an enumeration. *)
Lemma index_of_first (l : list Z) v p : index_of v l = Some p <-> get_opt l p = Some v /\ forall p', get_opt l p' = Some v -> p <= p'.
Proof.
  unfold index_of. rewrite iter_position_Some. split.
  - intros [(x & Hx & Hv%Z.eqb_eq) Hlt]. subst x. split; [done|]. intros p' Hp'. destruct (Z.le_gt_cases p p') as [|Hgt]; [done|].
    specialize (Hlt p' v ltac:(lia) Hp'). by rewrite Z.eqb_refl in Hlt.
  - intros [Hx Hmin]. split; [exists v; split; [done|by apply Z.eqb_refl]|]. intros j y Hj Hy. apply Z.eqb_neq. intros ->. specialize (Hmin j Hy). lia.
Qed.

Lemma enumerate_by_position {A} (l : list A) : StronglySorted (fun a b => fst a < fst b) (enumerate l).
Proof.
  unfold enumerate. generalize 0. induction l as [|x l IH]; intros k; [constructor|]. rewrite zlen_cons. pose proof (zlen_nonneg l).
  rewrite seqZ_cons by lia. replace (Z.pred (1 + zlen l)) with (zlen l) by lia. cbn [zip zip_with]. constructor; [apply IH|].
  apply Forall_forall. intros [j y] Hin. apply elem_of_zip_l, elem_of_seqZ in Hin. cbn. lia.
Qed.

Lemma sorted_positions (l : list Z) : zlen l <= U32_MAX ->
  let positions := dedup_keys (sort_pairs (map (fun p => (snd p, wrap32 (fst p))) (enumerate l))) in
  ssorted (map fst positions) /\ forall v p, (v, p) ∈ positions <-> index_of v l = Some p.
Proof.
  intros Hl positions. subst positions. rewrite swapped_positions by done. set (ps := map (fun p => (snd p, fst p)) (enumerate l)).
  assert (StronglySorted (fun a b => snd a < snd b) ps) as Hps.
  { unfold ps. pose proof (enumerate_by_position l) as He. induction He as [|x xs _ IH Hx]; [constructor|]. cbn [map]. constructor; [done|].
    apply Forall_map. eapply Forall_impl; [exact Hx|]. done. }
  assert (sort_pairs ps ≡ₚ ps) as Hperm by (unfold sort_pairs; by rewrite !sort_by_key_perm).
  assert (StronglySorted lex (sort_pairs ps)) as Hsp.
  { unfold sort_pairs. rewrite (sort_by_key_id snd).
    - by apply sort_lex.
    - clear - Hps. induction Hps as [|x xs _ IH Hx]; [constructor|]. constructor; [done|]. eapply Forall_impl; [exact Hx|]. cbn. lia. }
  destruct (dedup_keys_ok _ Hsp) as [H1 H2]. split; [done|]. intros v p. rewrite H2, index_of_first.
  assert (forall q, (v, q) ∈ sort_pairs ps <-> get_opt l q = Some v) as Hin.
  { intros q. rewrite Hperm. unfold ps. rewrite list_elem_of_fmap. rewrite <- enumerate_lookup. split.
    - intros ([i w] & [= -> ->] & Hi). done.
    - intros Hi. by exists (q, v). }
  rewrite Hin. split; intros [Ha Hb]; (split; [done|]); intros q Hq; apply Hb; by apply Hin.
Qed.

(** ** Rank directories *)

(** Blocks of 256 bytes, the last one possibly shorter. *)
Fixpoint chunked (cs : list (list Z)) : Prop :=
  match cs with [] => True | c :: cs' => zlen c <= 256 /\ (cs' = [] \/ zlen c = 256) /\ chunked cs' end.

Lemma chunked_app full tail : Forall (fun c => zlen c = 256) full -> zlen tail <= 256 -> chunked (full ++ match tail with [] => [] | _ => [tail] end).
Proof.
  intros Hf Ht. induction Hf as [|c full Hc _ IH]; cbn [app chunked]; [|by split; [lia|split; [right|]]].
  destruct tail; [done|]. split; [done|]. by split; [left|].
Qed.

Lemma chunks_ok d : concat (chunks 256 d) = d /\ chunked (chunks 256 d) /\ zlen d <= 256 * zlen (chunks 256 d).
Proof.
  unfold chunks. pose proof (as_chunks_spec 256 d ltac:(lia)) as Hs. destruct (as_chunks 256 d) as [full tail]. destruct Hs as (Hd & Hf & Ht).
  assert (chunked (full ++ match tail with [] => [] | _ => [tail] end)) as Hc.
  { apply chunked_app; [|unfold zlen; lia]. eapply Forall_impl; [exact Hf|]. intros c Hc. unfold zlen. cbn in Hc. lia. }
  assert (concat (full ++ match tail with [] => [] | _ => [tail] end) = d) as He.
  { rewrite concat_app, Hd. f_equal. destruct tail; [done|]. cbn. by rewrite app_nil_r. }
  split; [done|]. split; [done|]. rewrite <- He at 1. clear - Hc. induction (full ++ _) as [|c cs IH]; [done|]. destruct Hc as (H1 & _ & H2).
  cbn [concat]. rewrite zlen_app, zlen_cons. specialize (IH H2). lia.
Qed.

Definition rank_step (acc : list Z * Z) (block : list Z) : list Z * Z := (fst acc ++ [wrap32 (snd acc)], snd acc +w count_ones_bytes block).

Lemma rank_fold d pre cs rank m : d = pre ++ concat cs -> zlen pre = 256 * m -> chunked cs -> Forall u8_ok d -> 8 * zlen d <= U64_MAX ->
  foldl rank_step (rank, Bitmap.ones_in d 0 (8 * zlen pre)) cs =
  (rank ++ map (fun k => wrap32 (Bitmap.ones_in d 0 (2048 * k))) (seqZ m (zlen cs)), Bitmap.ones_in d 0 (8 * zlen d)).
Proof.
  intros Hd Hp Hc Hu Hl. revert pre rank m Hd Hp. induction cs as [|c cs IH]; intros pre rank m Hd Hp.
  - cbn. rewrite app_nil_r in Hd. subst pre. by rewrite app_nil_r.
  - destruct Hc as (Hc1 & Hc2 & Hc). specialize (IH Hc). cbn [foldl concat] in *. unfold rank_step at 2. cbn [fst snd].
    assert (zlen d = zlen pre + (zlen c + zlen (concat cs))) as Hz by (rewrite Hd, !zlen_app; done).
    pose proof (zlen_nonneg pre). pose proof (zlen_nonneg c). pose proof (zlen_nonneg (concat cs)).
    assert (count_ones_bytes c = Bitmap.ones_in d (8 * zlen pre) (8 * (zlen pre + zlen c))) as ->.
    { rewrite Bitmap.count_ones_bytes_spec; [|by rewrite Hd, !Forall_app in Hu; tauto|lia].
      pose proof (Bitmap.ones_in_sub d (zlen pre) (zlen pre + zlen c) ltac:(lia) ltac:(lia) ltac:(lia)) as Hs. cbn zeta in Hs. rewrite <- Hs.
      replace (take (Z.to_nat (zlen pre + zlen c - zlen pre)) (drop (Z.to_nat (zlen pre)) d)) with c; [done|].
      rewrite Hd. unfold zlen. rewrite drop_app_length' by lia. by rewrite take_app_length' by lia. }
    pose proof (Bitmap.ones_in_bound d 0 (8 * (zlen pre + zlen c))) as Hb.
    pose proof (Bitmap.ones_in_app d 0 (8 * zlen pre) (8 * (zlen pre + zlen c)) ltac:(lia) ltac:(lia)) as Ha. rewrite <- Ha. unwrap.
    assert (zlen (pre ++ c) = zlen pre + zlen c) as Hpc by apply zlen_app. pose proof (zlen_nonneg cs). rewrite zlen_cons, seqZ_cons by lia.
    replace (Z.pred (1 + zlen cs)) with (zlen cs) by lia. cbn [map]. rewrite <- (Z.add_1_r m). replace (2048 * m) with (8 * zlen pre) by lia.
    destruct Hc2 as [->|Hc2].
    + cbn [foldl]. rewrite Hz. change (zlen (concat [])) with 0. by rewrite Z.add_0_r.
    + rewrite <- Hpc, (IH (pre ++ c) _ (m + 1)); [|by rewrite <- app_assoc|lia]. by rewrite <- app_assoc.
Qed.

(** The directory holds the set bits before each block; the total is the length of the segment. *)
Lemma build_bitmap_rank_ok b : Bitmap.wf b -> Bitmap.ones_in (Bitmap.data b) 0 (Bitmap.len b) <= U32_MAX ->
  exists rank, build_bitmap_rank b = (rank, Bitmap.ones_in (Bitmap.data b) 0 (Bitmap.len b)) /\
    forall o, 0 <= o < Bitmap.len b -> get_opt rank (o / 2048) = Some (Bitmap.ones_in (Bitmap.data b) 0 (o / 2048 * 2048)).
Proof.
  intros Hb Hm. pose proof (Bitmap.wf_data_len b Hb) as Hd. destruct Hb as [Hl Hu _ Hpad]. destruct (chunks_ok (Bitmap.data b)) as (Hc & Hch & Hlen).
  pose proof (rank_fold (Bitmap.data b) [] (chunks 256 (Bitmap.data b)) [] 0) as Hf. rewrite Bitmap.ones_in_nil in Hf by (change (zlen (@nil Z)) with 0; lia).
  unfold build_bitmap_rank. change (Z.to_nat RANK_BLOCK_BYTES) with 256%nat. fold rank_step.
  eexists. rewrite Hf; [|by rewrite Hc|done|done|done|lia]. cbn [app]. split.
  - f_equal. rewrite (Bitmap.ones_in_app _ 0 (Bitmap.len b) (8 * zlen (Bitmap.data b))) by lia.
    rewrite (Bitmap.ones_in_false _ (Bitmap.len b)); [lia|]. intros i Hi. apply Hpad. lia.
  - intros o Ho. pose proof (Z.div_mod o 2048). pose proof (Z.mod_pos_bound o 2048). assert (0 <= o / 2048) by (apply Z.div_pos; lia).
    rewrite get_opt_map, get_opt_seqZ by lia. cbn [fmap option_fmap option_map]. rewrite Z.add_0_l. f_equal. rewrite Z.mul_comm.
    apply wrap32_small. pose proof (Bitmap.ones_in_bound (Bitmap.data b) 0 (o / 2048 * 2048)).
    pose proof (Bitmap.ones_in_app (Bitmap.data b) 0 (o / 2048 * 2048) (Bitmap.len b) ltac:(lia) ltac:(lia)).
    pose proof (Bitmap.ones_in_bound (Bitmap.data b) (o / 2048 * 2048) (Bitmap.len b)). uok. lia.
Qed.

(** ** Segment entries *)

Lemma bitmap_index_of r b v : Segment.wf (RangeWithBitmap r b) -> start r <= v < end_ r ->
  index_of v (Segment.elems (RangeWithBitmap r b)) =
  if Bitmap.bitat (Bitmap.data b) (v - start r) then Some (Bitmap.ones_in (Bitmap.data b) 0 (v - start r)) else None.
Proof.
  intros Hwf Hv. destruct (index_of v _) as [i|] eqn:E.
  - apply index_of_Some in E; [|by apply ssorted_NoDup, elems_ssorted]. rewrite (bitmap_index r b i v Hwf E).
    assert (v ∈ Segment.elems (RangeWithBitmap r b)) as Hin by (apply elem_of_get_opt; eauto). cbn in Hin. apply elem_of_filterb in Hin as [_ ->]. done.
  - apply index_of_None in E. cbn in E. rewrite elem_of_filterb, elem_of_range_list in E. destruct (Bitmap.bitat _ _); [|done]. by destruct E.
Qed.

(** An entry describes a non-empty segment [s] of the sequence at an offset. *)
Definition entry_ok (q : RowIdSequence) (e : SegmentEntry) (p : U64Segment * Z) : Prop :=
  get_opt q (seq_idx e) = Some (fst p) /\ Segment.wf (fst p) /\ Segment.elems (fst p) <> [] /\
  build_lookup (fst p) = Ok (lookup e, zlen (Segment.elems (fst p))) /\ Segment.range (fst p) = Some (se_range e) /\ start_offset e = snd p.

Lemma build_lookup_ok s : Segment.wf s -> zlen (Segment.elems s) <= U32_MAX -> exists l, build_lookup s = Ok (l, zlen (Segment.elems s)).
Proof.
  intros Hwf Hl. destruct s as [r|r h|r b|r rs|a|a]; cbn [build_lookup];
    try (rewrite seg_len_ok by done; by eexists).
  - pose proof Hwf as (_ & Hb & _). rewrite zlen_bitmap in * by done. destruct (build_bitmap_rank_ok b Hb Hl) as (rank & -> & _). by eexists.
Qed.

Lemma entry_position_ok q e p v : entry_ok q e p -> zlen (Segment.elems (fst p)) <= U32_MAX -> u64_ok v ->
  entry_position e q v = Ok (index_of v (Segment.elems (fst p))).
Proof.
  destruct p as [s o]. unfold entry_ok. cbn [fst snd]. intros (Hq & Hwf & _ & Hb & _) Hl Hv. unfold entry_position. rewrite (idx_ok _ _ _ Hq). mon. destruct s as [r|r h|r b|r rs|a|a]; cbn [build_lookup] in Hb;
    try (rewrite seg_len_ok, bind_ok in Hb by done; assert (lookup e = Native) as -> by congruence; by apply seg_position_ok).
  - pose proof Hwf as ((? & ? & ?) & Hbm & Hlen). rewrite zlen_bitmap in * by done. destruct (build_bitmap_rank_ok b Hbm Hl) as (rank & E & Hr). rewrite E in Hb. assert (lookup e = BitmapRank rank) as -> by congruence.
    destruct (range_contains r v) eqn:Hc; cbn [negb].
    2:{ f_equal. symmetry. apply index_of_None. cbn. rewrite elem_of_filterb, elem_of_range_list, <- range_contains_spec, Hc. by intros [? _]. }
    apply range_contains_spec in Hc. rewrite bitmap_index_of by done. unwrap. rewrite Bitmap.get_wf by (done || lia). mon.
    destruct (Bitmap.bitat (Bitmap.data b) (v - start r)); cbn [negb]; [|done]. change (RANK_BLOCK_BYTES * 8) with 2048.
    set (o' := v - start r) in *. pose proof (Z.div_mod o' 2048). pose proof (Z.mod_pos_bound o' 2048). assert (0 <= o' / 2048) by (apply Z.div_pos; lia).
    rewrite (idx_ok _ _ _ (Hr o' ltac:(lia))). mon. pose proof (Bitmap.wf_data_len b Hbm). pose proof (Bitmap.wf_len b Hbm).
    unwrap. rewrite Bitmap.slice_count_ones_ok by (apply Hbm || lia). mon. replace (o' / 2048 * 2048 + (o' - o' / 2048 * 2048)) with o' by lia.
    pose proof (Bitmap.ones_in_app (Bitmap.data b) 0 (o' / 2048 * 2048) o' ltac:(lia) ltac:(lia)) as Ha. rewrite <- Ha.
    pose proof (Bitmap.ones_in_bound (Bitmap.data b) 0 o'). by unwrap.
  - rewrite seg_iter_ok, seg_len_ok in Hb by done. rewrite !bind_ok in Hb. injection Hb as <-. destruct (sorted_positions (Segment.elems (Array a)) Hl) as [Hs Hin]. cbn zeta in Hs, Hin.
    set (ps := dedup_keys _) in *. pose proof (search_pairs ps v Hs) as Hf. destruct (binary_search_by _ ps) as [i|i].
    + destruct Hf as [p Hp]. rewrite (idx_ok _ _ _ Hp). mon. f_equal. symmetry. apply Hin. apply elem_of_get_opt. eauto.
    + f_equal. destruct (index_of v _) as [p|] eqn:E; [|done]. by apply Hin, Hf in E.
Qed.

(** ** Fragment entries *)

(** The non-empty segments of a sequence with the offsets of their first rows. *)
Fixpoint placed (o : Z) (q : RowIdSequence) : list (U64Segment * Z) :=
  match q with
  | [] => []
  | s :: q => (if 0 <? zlen (Segment.elems s) then [(s, o)] else []) ++ placed (o + zlen (Segment.elems s)) q
  end.

Lemma placed_bounds o q p : p ∈ placed o q -> o <= snd p /\ snd p + zlen (Segment.elems (fst p)) <= o + zlen (Sequence.elems q).
Proof.
  revert o. induction q as [|s q IH]; intros o; cbn [placed]; [by rewrite elem_of_nil|]. rewrite Sequence.elems_cons, zlen_app.
  pose proof (zlen_nonneg (Segment.elems s)). pose proof (zlen_nonneg (Sequence.elems q)). intros [Hp|Hp]%elem_of_app.
  - destruct (0 <? _); [|by rewrite elem_of_nil in Hp]. apply list_elem_of_singleton in Hp as ->. cbn. lia.
  - destruct (IH _ Hp). lia.
Qed.

Lemma zlen_placed o q : zlen (placed o q) <= zlen (Sequence.elems q).
Proof.
  revert o. induction q as [|s q IH]; intros o; [done|]. cbn [placed]. rewrite Sequence.elems_cons, !zlen_app. specialize (IH (o + zlen (Segment.elems s))).
  destruct (Z.ltb_spec 0 (zlen (Segment.elems s))); rewrite ?zlen_cons, zlen_nil; pose proof (zlen_nonneg (Segment.elems s)); lia.
Qed.

Lemma entry_loop_ok deleted q pre suf segs o mr : q = pre ++ suf -> Forall Segment.wf suf -> 0 <= o -> o + zlen (Sequence.elems suf) <= U32_MAX ->
  exists es mr', entry_loop deleted (zip (seqZ (zlen pre) (zlen suf)) suf) segs o mr = Ok (segs ++ es, mr') /\ Forall2 (entry_ok q) es (placed o suf).
Proof.
  intros Hq Hwf. revert pre segs o mr Hq. induction Hwf as [|s suf Hs _ IH]; intros pre segs o mr Hq Ho Hm.
  - exists [], mr. cbn. by rewrite app_nil_r.
  - rewrite Sequence.elems_cons, zlen_app in Hm. pose proof (zlen_nonneg (Segment.elems s)). pose proof (zlen_nonneg (Sequence.elems suf)). pose proof (zlen_nonneg suf).
    rewrite zlen_cons, seqZ_cons by lia. replace (Z.pred (1 + zlen suf)) with (zlen suf) by lia. cbn [zip zip_with entry_loop placed].
    destruct (build_lookup_ok s Hs ltac:(lia)) as [l Hl]. rewrite Hl. mon. unwrap.
    specialize (IH (pre ++ [s])). rewrite <- app_assoc in IH. replace (zlen (pre ++ [s])) with (Z.succ (zlen pre)) in IH by (rewrite zlen_app, zlen_cons, zlen_nil; lia).
    set (mr1 := if _ || _ then _ else _). destruct (Z.ltb_spec 0 (zlen (Segment.elems s))) as [Hpos|Hpos].
    + pose proof (range_bounds s Hs) as Hb. destruct (Segment.range s) as [r|] eqn:Er; [|apply (f_equal zlen) in Hb; rewrite zlen_nil in Hb; lia].
      destruct (IH (segs ++ [mkEntry (zlen pre) r o l]) (o + zlen (Segment.elems s)) mr1) as (es & mr' & -> & Hes); [done|lia|lia|].
      exists (mkEntry (zlen pre) r o l :: es), mr'. rewrite <- app_assoc. split; [done|]. constructor; [|done].
      split; [cbn; by rewrite Hq, HoleRuns.get_opt_app_head|]. split; [done|]. split; [|done]. cbn. intros E. apply (f_equal zlen) in E. rewrite zlen_nil in E. lia.
    + destruct (IH segs (o + zlen (Segment.elems s)) mr1) as (es & mr' & -> & Hes); [done|lia|lia|]. by exists es, mr'.
Qed.

Section Fragments.
Context {RB : Roaring}.

(** An entry for a fragment that has row ids. *)
Definition fragment_ok (f : FragmentEntry) (src : FragmentRowIdIndex) : Prop :=
  fe_fragment_id f = fragment_id src /\ fe_sequence f = row_id_sequence src /\ fe_deletion_vector f = deletion_vector src /\
  Forall2 (entry_ok (row_id_sequence src)) (segments f) (placed 0 (row_id_sequence src)).

Lemma fragment_entry_ok src : source_ok src -> exists o, fragment_entry src = Ok o /\
  match o with Some f => fragment_ok f src | None => placed 0 (row_id_sequence src) = [] end.
Proof.
  intros (_ & Hwf & Hl). unfold fragment_entry, enumerate.
  destruct (entry_loop_ok (negb (dv_is_empty (deletion_vector src))) (row_id_sequence src) [] (row_id_sequence src) [] 0 0) as (es & mr & E & Hes);
    [done|done|lia|lia|]. change (zlen (@nil U64Segment)) with 0 in E. rewrite E. mon. cbn [app].
  destruct es as [|e es]; [|eexists; by split]. exists None. split; [done|]. by apply Forall2_nil_inv_l in Hes.
Qed.

Lemma sequence_addresses_placed k dv o q v :
  sequence_addresses k dv o q v = flat_map (fun p => option_list (segment_address k dv (snd p) (fst p) v)) (placed o q).
Proof.
  revert o. induction q as [|s q IH]; intros o; [done|]. cbn [sequence_addresses placed]. rewrite flat_map_app, IH. f_equal.
  destruct (Z.ltb_spec 0 (zlen (Segment.elems s))) as [Hp|Hp]; [cbn; by rewrite app_nil_r|]. unfold segment_address.
  destruct (Segment.elems s) as [|x l]; [done|]. rewrite zlen_cons in Hp. pose proof (zlen_nonneg l). lia.
Qed.

(** The entries the index keeps: fragments without row ids add no address. *)
Lemma fragment_entries_ok sources : Forall source_ok sources -> exists fs kept,
  filter_map_res fragment_entry sources = Ok fs /\ Forall2 fragment_ok fs kept /\ kept `sublist_of` sources /\
  forall v, live_addresses kept v = live_addresses sources v.
Proof.
  induction 1 as [|src sources Hs _ (fs & kept & E & Hf & Hk & Hv)].
  { exists [], []. done. }
  cbn [filter_map_res]. destruct (fragment_entry_ok src Hs) as (o & -> & Ho). rewrite E. mon. destruct o as [f|].
  - exists (f :: fs), (src :: kept). split; [done|]. split; [by constructor|]. split; [by constructor|]. intros v. unfold live_addresses in *. cbn [flat_map]. by rewrite Hv.
  - exists fs, kept. split; [done|]. split; [done|]. split; [by apply sublist_cons|]. intros v. unfold live_addresses in *. cbn [flat_map].
    by rewrite sequence_addresses_placed, Ho, Hv.
Qed.

Lemma resolve_segment_ok f src i p v : fragment_ok f src -> source_ok src -> u64_ok v -> get_opt (placed 0 (row_id_sequence src)) i = Some p ->
  resolve_segment f i v = Ok (segment_address (fragment_id src) (deletion_vector src) (snd p) (fst p) v).
Proof.
  intros (Hid & Hq & Hdv & Hes) (_ & _ & Hl) Hv Hi. unfold resolve_segment.
  destruct (Forall2_get_opt_r _ _ _ _ _ Hes Hi) as (e & He & Hok). rewrite (idx_ok _ _ _ He). mon.
  assert (p ∈ placed 0 (row_id_sequence src)) as Hin by (apply elem_of_get_opt; eauto). apply placed_bounds in Hin as [Hp1 Hp2].
  pose proof Hok as (_ & Hwf & _ & _ & Hr & Ho). unfold segment_address. pose proof (zlen_nonneg (Segment.elems (fst p))).
  destruct (incl_contains (se_range e) v) eqn:Hc; cbn [negb].
  - rewrite Hq, (entry_position_ok _ _ p) by (done || lia). mon. destruct (index_of v (Segment.elems (fst p))) as [j|] eqn:E; [|done].
    assert (0 <= j < zlen (Segment.elems (fst p))) as Hj.
    { unfold index_of in E. apply iter_position_Some in E as [(x & Hx & _) _]. by apply get_opt_Some in Hx. }
    rewrite Ho, Hdv, Hid. unwrap. by destruct (dv_contains _ _).
  - assert (index_of v (Segment.elems (fst p)) = None) as ->; [|done]. apply index_of_None. intros Hin.
    pose proof (range_bounds (fst p) Hwf) as Hb. rewrite Hr in Hb. destruct (se_range e) as [lo hi]. destruct Hb as [Hb _].
    rewrite Forall_forall in Hb. specialize (Hb v Hin). unfold incl_contains in Hc. cbn in Hc. apply andb_false_iff in Hc. rewrite !Z.leb_gt in Hc. lia.
Qed.

End Fragments.
