(* ===== verification/RowIdProbe.v ===== *)
(** * The row-id index: probing

    The probe representation of [lance-table/src/rowids/index.rs]: the pieces a
    segment is cut into cover each of its ids once, the implicit heap bounds the
    ends below every node, and the stackless descent visits exactly the pieces
    that span an id.  [probe] therefore returns the live address of an id, or
    reports an id that is live twice. *)

From Stdlib Require Import ZArith Lia.
From stdpp Require Import base option list numbers sorting sets gmap.
From S2P Require Import Prelude Lists Bits RowAddress Bitmap EncodedArray HoleRuns Segment SegmentBuild Sequence Itertools Roaring Deletion RowIdIndex RowIdLookup.

(** ** The heap of ends *)

(** A node with [2^j] slots from [lo] on below it. *)
Definition covers_slots (leaves node j lo : Z) : Prop := 1 <= node /\ 0 <= j /\ 0 <= lo /\ node * 2 ^ j = leaves + lo.

Definition leaf_ends (leaves : Z) (ps : list ProbeEntry) (tree : list Z) : Prop :=
  forall slot p, get_opt ps slot = Some p -> get_opt tree (leaves + slot) = Some (pe_end p).

(** Inner nodes from [k] on are not below their children. *)
Definition heap_from (k leaves : Z) (tree : list Z) : Prop :=
  forall node child c e, k <= node < leaves -> child = 2 * node \/ child = 2 * node + 1 ->
    get_opt tree child = Some c -> get_opt tree node = Some e -> c <= e.

Lemma set_leaves_ok leaves pre suf tree : 0 <= leaves -> zlen tree = 2 * leaves -> zlen (pre ++ suf) <= leaves -> leaf_ends leaves pre tree ->
  exists tree', fold_res (set_leaf leaves) tree (zip (seqZ (zlen pre) (zlen suf)) suf) = Ok tree' /\ zlen tree' = 2 * leaves /\ leaf_ends leaves (pre ++ suf) tree'.
Proof.
  intros Hl. revert pre tree. induction suf as [|p suf IH]; intros pre tree Hz Hn Hle.
  - exists tree. rewrite app_nil_r. done.
  - rewrite zlen_app, zlen_cons in Hn. pose proof (zlen_nonneg pre). pose proof (zlen_nonneg suf). rewrite zlen_cons, seqZ_cons by lia.
    replace (Z.pred (1 + zlen suf)) with (zlen suf) by lia. cbn [zip zip_with fold_res]. change (set_leaf leaves tree (zlen pre, p)) with (idx_set tree (leaves + zlen pre) (pe_end p)).
    rewrite idx_set_ok by lia. mon. specialize (IH (pre ++ [p])). rewrite <- app_assoc in IH. cbn [app] in IH.
    replace (zlen (pre ++ [p])) with (Z.succ (zlen pre)) in IH by (rewrite zlen_app, zlen_cons, zlen_nil; lia). apply IH.
    + unfold zlen in *. rewrite length_insert. lia.
    + rewrite zlen_app, zlen_cons. lia.
    + intros slot q Hq. apply get_opt_Some in Hq as Hr. rewrite zlen_app, zlen_cons in Hr. change (zlen (@nil ProbeEntry)) with 0 in Hr. rewrite get_opt_insert by lia. rewrite get_opt_app in Hq.
      destruct (Z.ltb_spec slot (zlen pre)) as [Hs|Hs].
      * rewrite (proj2 (Z.eqb_neq (leaves + slot) (leaves + zlen pre))) by lia. by apply Hle.
      * assert (slot = zlen pre) as -> by lia. rewrite Z.sub_diag in Hq. injection Hq as <-. by rewrite Z.eqb_refl.
Qed.

Lemma set_nodes_ok leaves ps tree k : 0 <= k <= leaves - 1 -> zlen tree = 2 * leaves -> leaf_ends leaves ps tree -> heap_from (k + 1) leaves tree ->
  exists tree', fold_res set_node tree (rev (range_list (1 ..< k + 1))) = Ok tree' /\ zlen tree' = 2 * leaves /\
    leaf_ends leaves ps tree' /\ heap_from 1 leaves tree'.
Proof.
  intros Hk. remember (Z.to_nat k) as n eqn:En. revert k tree Hk En. induction n as [|n IH]; intros k tree Hk En Hz Hle Hh.
  - assert (k = 0) as -> by lia. rewrite range_list_nil by lia. exists tree. done.
  - rewrite (range_list_app 1 k (k + 1)), rev_app_distr by lia. rewrite (range_list_cons k), (range_list_nil (k + 1)) by lia. cbn [rev app fold_res].
    change (set_node tree k) with (l ← idx tree (2 * k); r ← idx tree (2 * k + 1); idx_set tree k (Z.max l r)). destruct (get_opt_lt tree (2 * k) ltac:(lia)) as [l Hl]. destruct (get_opt_lt tree (2 * k + 1) ltac:(lia)) as [r Hr].
    rewrite (idx_ok _ _ _ Hl), (idx_ok _ _ _ Hr). mon. rewrite idx_set_ok by lia. mon.
    replace (1 ..< k) with (1 ..< k - 1 + 1) by (f_equal; lia). apply IH; [lia|lia|unfold zlen in *; rewrite length_insert; lia|..].
    + intros slot p Hp. apply get_opt_Some in Hp as Hs. rewrite get_opt_insert by lia. rewrite (proj2 (Z.eqb_neq (leaves + slot) k)) by lia. by apply Hle.
    + intros node child c e Hn Hc. rewrite !get_opt_insert by lia. rewrite (proj2 (Z.eqb_neq child k)) by lia.
      destruct (Z.eqb_spec node k) as [->|Hne]; [|apply Hh; lia]. intros Hcc [= <-]. destruct Hc as [-> | ->]; simplify_eq; lia.
Qed.

(** The end of every piece below a node is at most its entry. *)
Lemma heap_bound leaves ps tree j : 0 <= j -> zlen tree = 2 * leaves -> leaf_ends leaves ps tree -> heap_from 1 leaves tree ->
  forall node lo slot p e, covers_slots leaves node j lo -> lo + 2 ^ j <= leaves -> lo <= slot < lo + 2 ^ j ->
    get_opt ps slot = Some p -> get_opt tree node = Some e -> pe_end p <= e.
Proof.
  intros Hj Hz Hle Hh. revert Hj. apply (natlike_ind (fun j => forall node lo slot p e, covers_slots leaves node j lo -> lo + 2 ^ j <= leaves ->
    lo <= slot < lo + 2 ^ j -> get_opt ps slot = Some p -> get_opt tree node = Some e -> pe_end p <= e)).
  - intros node lo slot p e (Hn & _ & Hlo & He) Hl Hs Hp Ht. assert (slot = lo) as -> by lia. pose proof (Hle lo p Hp) as Hp'.
    replace (leaves + lo) with node in Hp' by lia. simplify_eq. lia.
  - intros j' Hj IH node lo slot p e (Hn & _ & Hlo & He) Hl Hs Hp Ht. rewrite Z.pow_succ_r in * by lia.
    assert (node < leaves) by nia. set (w := 2 ^ j') in *.
    destruct (decide (slot < lo + w)) as [Hlt|Hge].
    + destruct (get_opt_lt tree (2 * node) ltac:(lia)) as [c Hc]. pose proof (Hh node (2 * node) c e ltac:(lia) ltac:(lia) Hc Ht).
      pose proof (IH (2 * node) lo slot p c) as Hi. assert (pe_end p <= c); [|lia]. apply Hi; try done; unfold covers_slots; lia.
    + destruct (get_opt_lt tree (2 * node + 1) ltac:(lia)) as [c Hc]. pose proof (Hh node (2 * node + 1) c e ltac:(lia) ltac:(lia) Hc Ht).
      pose proof (IH (2 * node + 1) (lo + w) slot p c) as Hi. assert (pe_end p <= c); [|lia]. apply Hi; try done; unfold covers_slots; lia.
Qed.

Lemma next_power_ok n : 1 <= n -> n <= next_power_of_two n /\ 0 <= Z.log2_up n.
Proof.
  intros Hn. unfold next_power_of_two. pose proof (Z.log2_up_nonneg n). split; [|done]. destruct (decide (n = 1)) as [->|]; [done|].
  pose proof (Z.log2_log2_up_spec n). lia.
Qed.

Lemma build_end_tree_ok ps : ps <> [] -> exists tree h, build_end_tree ps = Ok tree /\ 0 <= h /\ zlen tree = 2 * 2 ^ h /\ zlen ps <= 2 ^ h /\
  leaf_ends (2 ^ h) ps tree /\ heap_from 1 (2 ^ h) tree.
Proof.
  intros Hne. assert (1 <= zlen ps) as Hlen by (destruct ps; [done|]; rewrite zlen_cons; pose proof (zlen_nonneg ps); lia).
  destruct (next_power_ok (zlen ps) Hlen) as [Hp Hh]. unfold next_power_of_two in Hp. set (h := Z.log2_up (zlen ps)) in *.
  unfold build_end_tree. destruct ps as [|p ps]; [done|]. unfold next_power_of_two. fold h. unfold enumerate.
  destruct (set_leaves_ok (2 ^ h) [] (p :: ps) (replicate (Z.to_nat (2 * 2 ^ h)) 0)) as (t1 & E1 & Hz1 & Hl1); [lia| |done|..].
  { rewrite zlen_replicate by lia. done. }
  { intros slot q Hq. apply get_opt_Some in Hq. change (zlen (@nil ProbeEntry)) with 0 in Hq. lia. }
  change (zlen (@nil ProbeEntry)) with 0 in E1. rewrite E1. mon. cbn [app] in Hl1.
  destruct (set_nodes_ok (2 ^ h) (p :: ps) t1 (2 ^ h - 1)) as (t2 & E2 & Hz2 & Hl2 & Hh2); [lia|done|done| |].
  { intros node child c e Hn. lia. }
  replace (2 ^ h - 1 + 1) with (2 ^ h) in E2 by lia. rewrite E2. exists t2, h. done.
Qed.

(** ** The descent *)

(** A node lies on the level of its width. *)
Lemma level_of h node j lo : 0 <= h -> covers_slots (2 ^ h) node j lo -> lo + 2 ^ j <= 2 ^ h -> j <= h /\ lo = (node - 2 ^ (h - j)) * 2 ^ j /\ node < 2 * 2 ^ (h - j).
Proof.
  intros Hh (Hn & Hj & Hlo & He) Hl. assert (j <= h) as Hjh.
  { apply Z.nlt_ge. intros Hlt. assert (2 ^ h * 2 <= 2 ^ j); [|nia]. rewrite Z.mul_comm, <- Z.pow_succ_r by lia. apply Z.pow_le_mono_r; lia. }
  assert (2 ^ h = 2 ^ (h - j) * 2 ^ j) as Hp by (rewrite <- Z.pow_add_r by lia; f_equal; lia). split; [done|]. rewrite Z.mul_sub_distr_r. split; [lia|].
  pose proof (Z.pow_pos_nonneg 2 j ltac:(lia) Hj). apply Z.nle_gt. intros Hc.
  assert (2 * 2 ^ (h - j) * 2 ^ j <= node * 2 ^ j) by (apply Z.mul_le_mono_nonneg_r; lia). lia.
Qed.

Lemma next_subtree_ok h fuel node j lo : 0 <= h -> covers_slots (2 ^ h) node j lo -> lo + 2 ^ j <= 2 ^ h -> (Z.to_nat (Z.log2 node) < fuel)%nat ->
  (next_subtree fuel node lo (2 ^ j) = Ok None /\ lo + 2 ^ j = 2 ^ h) \/
  (exists node' j', next_subtree fuel node lo (2 ^ j) = Ok (Some (node', lo + 2 ^ j, 2 ^ j')) /\
    covers_slots (2 ^ h) node' j' (lo + 2 ^ j) /\ lo + 2 ^ j + 2 ^ j' <= 2 ^ h /\ j' <= h).
Proof.
  intros Hh. revert node j lo. induction fuel as [|fuel IH]; intros node j lo Hc Hl Hf; [lia|]. pose proof Hc as (Hn & Hj & Hlo & He).
  destruct (level_of h node j lo Hh Hc Hl) as (Hjh & Elo & Hlt). cbn [next_subtree]. pose proof (Z.pow_pos_nonneg 2 j ltac:(lia) Hj).
  pose proof (Z.pow_pos_nonneg 2 (h - j) ltac:(lia) ltac:(lia)). destruct (Z.odd node) eqn:Ho.
  - apply Z.odd_spec in Ho as [m ->]. destruct (Z.eqb_spec (2 * m + 1) 1) as [E1|Hne].
    + left. split; [done|]. assert (m = 0) as -> by lia. lia.
    + assert (j < h) as Hlt'. { destruct (decide (j = h)) as [->|]; [|lia]. rewrite Z.sub_diag in Hlt. lia. }
      assert (2 ^ (h - j) = 2 * 2 ^ (h - (j + 1))) as E2 by (rewrite <- Z.pow_succ_r by lia; f_equal; lia).
      assert (0 <= 2 * m + 1 - 2 ^ (h - j)) by (apply (Z.mul_nonneg_cancel_r _ (2 ^ j)); lia).
      assert (1 * 2 ^ j <= lo) as Hle by (rewrite Elo; apply Z.mul_le_mono_nonneg_r; lia). replace ((2 * m + 1) / 2) with m by (rewrite Z.add_comm, Z.mul_comm, Z.div_add by lia; done).
      assert (2 ^ j * 2 = 2 ^ (j + 1)) as Ep by (rewrite Z.pow_add_r by lia; lia). rewrite Ep.
      destruct (IH m (j + 1) (lo - 2 ^ j)) as [[Hq1 Hq2]|(node' & j' & Hq1 & Hq2 & Hq3 & Hq4)].
      * unfold covers_slots. rewrite <- Ep. lia.
      * rewrite <- Ep. lia.
      * assert (Z.log2 (2 * m + 1) = Z.succ (Z.log2 m)) as Hlog by (apply Z.log2_succ_double; lia). pose proof (Z.log2_nonneg m). lia.
      * left. split; [done|]. lia.
      * right. exists node', j'. replace (lo - 2 ^ j + 2 ^ (j + 1)) with (lo + 2 ^ j) in * by lia. done.
  - right. exists (node + 1), j. split; [done|]. assert (Z.even node = true) as [m ->]%Z.even_spec by (rewrite <- Z.negb_odd, Ho; done).
    split; [unfold covers_slots; nia|]. split; [|done].
    assert (2 ^ h = 2 ^ (h - j) * 2 ^ j) as Hp by (rewrite <- Z.pow_add_r by lia; f_equal; lia).
    destruct (decide (j = h)) as [->|Hne]; [rewrite Z.sub_diag in *; lia|].
    assert (2 ^ (h - j) = 2 * 2 ^ (h - (j + 1))) as E2 by (rewrite <- Z.pow_succ_r by lia; f_equal; lia). nia.
Qed.

Section Descent.
Context {RB : Roaring} (index : ProbeIndex) (v h : Z) (cand : ProbeEntry -> list RowAddress).
Context (Hh : 0 <= h) (Htree : zlen (end_tree index) = 2 * 2 ^ h) (Hlen : zlen (probes index) <= 2 ^ h)
  (Hends : leaf_ends (2 ^ h) (probes index) (end_tree index)) (Hheap : heap_from 1 (2 ^ h) (end_tree index)).
(** The candidate of a piece that spans the id. *)
Context (Hleaf : forall slot p, get_opt (probes index) slot = Some p -> pe_start p <= v <= pe_end p ->
  exists o, leaf_candidate index slot v = Ok o /\ option_list o = cand p).
Context (Hout : forall p, p ∈ probes index -> pe_end p < v -> cand p = []).

(** The candidates from a slot up to another one. *)
Definition candidates (lo upper : Z) : list RowAddress := flat_map cand (zsub (probes index) lo upper).

Lemma candidates_app a b c : 0 <= a <= b -> b <= c -> c <= zlen (probes index) -> candidates a c = candidates a b ++ candidates b c.
Proof using. clear. intros Ha Hb Hc. unfold candidates. rewrite <- flat_map_app. f_equal. apply zsub_app; lia. Qed.

Lemma candidates_none a b : (forall slot p, a <= slot < b -> get_opt (probes index) slot = Some p -> pe_end p < v) -> 0 <= a ->
  candidates a b = [].
Proof.
  intros Hb Ha. unfold candidates. assert (Forall (fun p => cand p = []) (zsub (probes index) a b)) as Hf.
  { apply Forall_forall. intros p (i & Hi & Hp)%elem_of_zsub; [|done]. apply Hout; [apply elem_of_get_opt; eauto|]. by apply (Hb i). }
  induction Hf as [|p l Hp _ IH]; [done|]. cbn. by rewrite Hp.
Qed.

Lemma candidates_all b : 0 <= b <= zlen (probes index) -> (forall slot p, b <= slot -> get_opt (probes index) slot = Some p -> cand p = []) ->
  flat_map cand (probes index) = candidates 0 b.
Proof using.
  clear Hh Htree Hlen Hends Hheap Hleaf Hout. intros Hb Hge. transitivity (candidates 0 (zlen (probes index))); [unfold candidates, zsub, ztake, zskip; rewrite drop_0, take_ge by (unfold zlen; lia); done|].
  rewrite (candidates_app 0 b) by lia. unfold candidates at 2.
  assert (Forall (fun p => cand p = []) (zsub (probes index) b (zlen (probes index)))) as Hf.
  { apply Forall_forall. intros p (i & Hi & Hp)%elem_of_zsub; [|lia]. apply (Hge i); [lia|done]. }
  assert (flat_map cand (zsub (probes index) b (zlen (probes index))) = []) as ->; [|apply app_nil_r].
  induction Hf as [|p l Hp _ IH]; [done|]. cbn. by rewrite Hp.
Qed.

Context (upper : Z) (Hupper : 0 <= upper <= zlen (probes index))
  (Hstart : forall slot p, slot < upper -> get_opt (probes index) slot = Some p -> pe_start p <= v).

Lemma probe_loop_ok fuel node j lo found : covers_slots (2 ^ h) node j lo -> lo + 2 ^ j <= 2 ^ h ->
  (2 ^ h - lo) * (h + 2) + j + 1 <= Z.of_nat fuel ->
  probe_loop fuel index v upper node lo (2 ^ j) found = lookup_result (option_list found ++ candidates lo upper).
Proof.
  revert node j lo found. induction fuel as [|fuel IH]; intros node j lo found Hc Hl Hf.
  { exfalso. destruct Hc as (_ & ? & ? & _). pose proof (Z.pow_pos_nonneg 2 j). nia. }
  pose proof Hc as (Hn & Hj & Hlo & He). destruct (level_of h node j lo Hh Hc Hl) as (Hjh & _ & _).
  pose proof (Z.pow_pos_nonneg 2 j ltac:(lia) Hj) as Hw. cbn [probe_loop].
  destruct (Z.leb_spec upper lo) as [Hu|Hu].
  { unfold candidates. rewrite zsub_nil by done. cbn. destruct found; done. }
  assert (node < 2 * 2 ^ h) as Hnode by nia. destruct (get_opt_lt (end_tree index) node ltac:(lia)) as [e Ht]. rewrite (idx_ok _ _ _ Ht). mon.
  (** moving on leaves the slots from [lo + 2^j] *)
  assert (forall fd, (next ← next_subtree (S (Z.to_nat (Z.log2 node))) node lo (2 ^ j);
    match next with None => Ok fd | Some (node, lo, width) => probe_loop fuel index v upper node lo width fd end) =
    lookup_result (option_list fd ++ candidates (lo + 2 ^ j) upper)) as Hadv.
  { intros fd. destruct (next_subtree_ok h (S (Z.to_nat (Z.log2 node))) node j lo Hh Hc Hl ltac:(lia)) as [[-> Hend]|(node' & j' & -> & Hc' & Hl' & Hj')]; mon.
    - unfold candidates. rewrite zsub_nil by lia. cbn. by destruct fd.
    - apply IH; [done|done|]. nia. }
  destruct (Z.leb_spec v e) as [Hve|Hve].
  - destruct (Z.ltb_spec 1 (2 ^ j)) as [H1|H1].
    + assert (1 <= j) as Hj1 by (destruct (decide (j = 0)) as [->|]; [cbn in H1; lia|lia]).
      assert (2 ^ j = 2 * 2 ^ (j - 1)) as Ep by (rewrite <- Z.pow_succ_r by lia; f_equal; lia).
      rewrite Ep. replace (2 * 2 ^ (j - 1) / 2) with (2 ^ (j - 1)) by (rewrite Z.mul_comm, Z.div_mul by lia; done).
      apply IH; [unfold covers_slots; nia|lia|lia].
    + assert (2 ^ j = 1) as E1 by lia. rewrite E1 in *. destruct (get_opt_lt (probes index) lo ltac:(lia)) as [p Hp].
      assert (pe_end p = e) as Hpe by (pose proof (Hends lo p Hp) as Hq; replace (2 ^ h + lo) with node in Hq by lia; congruence).
      destruct (Hleaf lo p Hp) as (o & -> & Ho); [split; [by apply (Hstart lo)|lia]|]. mon.
      rewrite (candidates_app lo (lo + 1) upper) by lia.
      assert (candidates lo (lo + 1) = option_list o) as ->.
      { unfold candidates. rewrite Ho. replace (zsub (probes index) lo (lo + 1)) with [p]; [cbn; by rewrite app_nil_r|]. symmetry. by apply zsub_single. }
      destruct o as [a|]; [destruct found as [b|]|]; cbn [option_list app].
      * done.
      * rewrite Hadv. done.
      * rewrite Hadv. done.
  - rewrite Hadv. f_equal. f_equal. destruct (decide (lo + 2 ^ j <= upper)) as [Hle|Hgt].
    + rewrite (candidates_app lo (lo + 2 ^ j) upper) by lia. rewrite (candidates_none lo); [done| |done].
      intros slot p Hs Hp. pose proof (heap_bound (2 ^ h) (probes index) (end_tree index) j Hj Htree Hends Hheap node lo slot p e Hc Hl Hs Hp Ht). lia.
    + rewrite (candidates_none lo upper); [|intros slot p Hs Hp|done].
      * unfold candidates. by rewrite zsub_nil by lia.
      * pose proof (heap_bound (2 ^ h) (probes index) (end_tree index) j Hj Htree Hends Hheap node lo slot p e Hc Hl ltac:(lia) Hp Ht). lia.
Qed.

End Descent.

(** ** Pieces of a segment *)

Definition in_span (v : Z) (sp : Z * Z) : bool := (fst sp <=? v) && (v <=? snd sp).

(** Spans in increasing order, none reversed. *)
Definition ascending (spans : list (Z * Z)) : Prop :=
  StronglySorted (fun a b => snd a < fst b) spans /\ Forall (fun sp => fst sp <= snd sp) spans.

Definition spanned (spans : list (Z * Z)) (v : Z) : Prop := exists sp, sp ∈ spans /\ fst sp <= v <= snd sp.

Lemma in_span_spec v sp : in_span v sp = true <-> fst sp <= v <= snd sp.
Proof. unfold in_span. rewrite andb_true_iff, !Z.leb_le. lia. Qed.

(** A value in one of the spans picks exactly that one. *)
Lemma spanned_once {A} spans v (x : list A) : ascending spans -> spanned spans v -> flat_map (fun sp => if in_span v sp then x else []) spans = x.
Proof.
  intros [Hs Hf] (sp & Hin & Hv). induction Hs as [|a l Hl IH Ha]; [by apply elem_of_nil in Hin|]. apply Forall_cons in Hf as [Hfa Hf].
  rewrite Forall_forall in Ha. cbn [flat_map]. destruct (in_span v a) eqn:E.
  - apply in_span_spec in E. assert (flat_map (fun sp => if in_span v sp then x else []) l = []) as ->; [|apply app_nil_r].
    assert (Forall (fun b => in_span v b = false) l) as Hno.
    { apply Forall_forall. intros b Hb. specialize (Ha b Hb). apply not_true_is_false. rewrite in_span_spec. cbn in Ha. lia. }
    clear - Hno. induction Hno as [|b l Hb _ IH]; [done|]. cbn. by rewrite Hb.
  - cbn [app]. apply IH; [done|]. apply elem_of_cons in Hin as [->|Hin]; [|done]. rewrite (proj2 (in_span_spec v a)) in E by done. done.
Qed.

Lemma ascending_snoc l s e : ascending l -> Forall (fun sp => snd sp < s) l -> s <= e -> ascending (l ++ [(s, e)]).
Proof.
  intros [Hs Hf] Hl He. split; [|apply Forall_app; split; [done|by constructor]]. apply StronglySorted_app_2; [|done|repeat constructor].
  intros a b Ha Hb%list_elem_of_singleton. subst b. rewrite Forall_forall in Hl. by apply Hl.
Qed.

(** Extending the last span. *)
Lemma ascending_extend l s e e' : ascending (l ++ [(s, e)]) -> e <= e' -> ascending (l ++ [(s, e')]).
Proof.
  intros [Hs Hf] He. apply Forall_app in Hf as [Hf Hse]. rewrite Forall_singleton in Hse. cbn in Hse. apply ascending_snoc; [|..|lia].
  - split; [by eapply StronglySorted_app_1_l|done].
  - apply Forall_forall. intros a Ha. by apply (StronglySorted_app_1_elem_of _ _ _ a (s, e) Hs); [|apply list_elem_of_singleton].
Qed.

Definition last_below (spans : list (Z * Z)) (s : Z) : Prop := Forall (fun sp => snd sp < s) spans.

Lemma push_span_ok spans s e : ascending spans -> last_below spans s -> Forall (fun sp => 0 <= snd sp) spans -> 0 <= s <= e -> e <= U64_MAX ->
  ascending (push_span spans s e) /\ last_below (push_span spans s e) (e + 1) /\ Forall (fun sp => 0 <= snd sp) (push_span spans s e) /\
  (forall v, spanned spans v \/ s <= v <= e -> spanned (push_span spans s e) v).
Proof.
  intros Ha Hb Hp Hs He. unfold push_span. assert (last_below spans (e + 1)) as Hbe by (eapply Forall_impl; [exact Hb|]; cbn; lia).
  assert (Hsnoc : ascending (spans ++ [(s, e)]) /\ last_below (spans ++ [(s, e)]) (e + 1) /\ Forall (fun sp => 0 <= snd sp) (spans ++ [(s, e)]) /\
    (forall v, spanned spans v \/ s <= v <= e -> spanned (spans ++ [(s, e)]) v)).
  { split; [apply ascending_snoc; [done|done|lia]|]. split; [apply Forall_app; split; [done|constructor; [cbn; lia|done]]|].
    split; [apply Forall_app; split; [done|constructor; [cbn; lia|done]]|]. intros v [(sp & Hin & Hv)|Hv]; [exists sp|exists (s, e)]; rewrite elem_of_app.
    - auto.
    - split; [right; by apply list_elem_of_singleton|done]. }
  destruct (list.last spans) as [[first last_end]|] eqn:El; [|done]. destruct (_ <=? PROBE_GAP) eqn:Eg; [|done].
  apply last_split in El. set (pre := removelast spans) in *. rewrite El in *. clear El.
  assert (last_end < s) as Hlt by (apply Forall_app in Hb as [_ Hb]; rewrite Forall_singleton in Hb; done).
  split; [apply (ascending_extend _ _ last_end); [done|lia]|]. apply Forall_app in Hbe as [Hbe _]. apply Forall_app in Hp as [Hp _].
  split; [apply Forall_app; split; [done|constructor; [cbn; lia|done]]|]. split; [apply Forall_app; split; [done|constructor; [cbn; lia|done]]|].
  destruct Ha as [_ Ha]. apply Forall_app in Ha as [_ Ha]. rewrite Forall_singleton in Ha. cbn in Ha.
  intros v Hv. unfold spanned. setoid_rewrite elem_of_app. destruct Hv as [(sp & [Hin|Hin]%elem_of_app & Hv)|Hv].
  - exists sp. auto.
  - apply list_elem_of_singleton in Hin as ->. cbn in Hv. exists (first, e). split; [right; by apply list_elem_of_singleton|cbn; lia].
  - exists (first, e). split; [right; by apply list_elem_of_singleton|]. cbn.
    assert (first <= s) by lia. lia.
Qed.

Lemma push_run_spans_ok base rs spans : ssorted (flat_map range_list rs) -> Forall (fun r => start r < end_ r) rs -> 0 <= base ->
  Forall (fun r => 0 <= start r /\ base + end_ r <= U64_MAX) rs -> ascending spans -> Forall (fun sp => 0 <= snd sp) spans ->
  (forall v, v ∈ flat_map range_list rs -> last_below spans (base + v)) ->
  let out := foldl (fun spans run => push_span spans (base +w start run) ((base +w end_ run) -w 1)) spans rs in
  ascending out /\ forall v, spanned spans v \/ v - base ∈ flat_map range_list rs -> spanned out v.
Proof.
  intros Hs Hne Hb. revert spans Hs. induction Hne as [|r rs Hr _ IH]; intros spans Hs Hbd Ha Hp Hl.
  - cbn. split; [done|]. intros v [?|Hv]; [done|by apply elem_of_nil in Hv].
  - apply Forall_cons in Hbd as [[Hr0 Hre] Hbd]. cbn [flat_map] in *. apply ssorted_app in Hs as (_ & Hs & Hlt). cbn [foldl]. unwrap.
    assert (Hfirst : forall v, start r <= v < end_ r -> v ∈ range_list r) by (intros; by apply elem_of_range_list).
    destruct (push_span_ok spans (base + start r) (base + end_ r - 1)) as (H1 & H2 & H3 & H4); [done| |done|lia|lia|].
    { apply Hl, elem_of_app. left. apply Hfirst. lia. }
    destruct (IH (push_span spans (base + start r) (base + end_ r - 1))) as [H5 H6]; [done|done|done|done| |].
    { intros v Hv. specialize (Hlt (end_ r - 1) v ltac:(apply Hfirst; lia) Hv). eapply Forall_impl; [exact H2|]. cbn. lia. }
    split; [done|]. intros v [Hv|Hv]; apply H6; [left; apply H4; by left|]. apply elem_of_app in Hv as [Hv%elem_of_range_list|Hv]; [|by right].
    left. apply H4. right. lia.
Qed.

(** The walk over neighbouring values closes a span at each gap. *)
Lemma walk_gaps_ok base x l s spans : ssorted (x :: l) -> Forall (fun y => 0 <= base /\ 0 <= y /\ base + y <= U64_MAX) (x :: l) ->
  ascending spans -> last_below spans s -> s <= base + x ->
  let '(s', spans') := foldl (walk_gaps base) (s, spans) (windows2 (x :: l)) in
  let out := spans' ++ [(s', base + List.last (x :: l) 0)] in
  ascending out /\ (forall sp, sp ∈ spans -> sp ∈ out) /\ (forall v, s <= v <= base + x -> spanned out v) /\ forall y, y ∈ l -> spanned out (base + y).
Proof.
  revert x s spans. induction l as [|y l IH]; intros x s spans Hs Hb Ha Hl Hx.
  - cbn. split; [by apply ascending_snoc|]. split; [intros sp Hsp; rewrite elem_of_app; by left|].
    split; [|intros y Hy; by apply elem_of_nil in Hy]. intros v Hv. exists (s, base + x). rewrite elem_of_app.
    split; [right; by apply list_elem_of_singleton|done].
  - apply ssorted_cons_inv in Hs as [Hs Hxy]. apply Forall_cons in Hxy as [Hxy _]. apply Forall_cons in Hb as [(Hb0 & Hx0 & Hxm) Hb].
    pose proof Hb as Hb'. apply Forall_cons in Hb' as [(_ & Hy0 & Hym) _].
    change (windows2 (x :: y :: l)) with ((x, y) :: windows2 (y :: l)). cbn [foldl walk_gaps]. unfold has_gap. cbn [fst snd]. unwrap.
    change (List.last (x :: y :: l) 0) with (List.last (y :: l) 0). destruct (PROBE_GAP <? y - x) eqn:Eg.
    + specialize (IH y (base + y) (spans ++ [(s, base + x)]) Hs Hb). destruct (foldl _ _ _) as [s' spans']. destruct IH as (H1 & H2 & H3 & H4).
      * by apply ascending_snoc.
      * apply Forall_app. split; [eapply Forall_impl; [exact Hl|]; cbn; lia|constructor; [cbn; lia|done]].
      * lia.
      * split; [done|]. split; [intros sp Hsp; apply H2; rewrite elem_of_app; by left|]. split.
        -- intros v Hv. exists (s, base + x). split; [|done]. apply H2. rewrite elem_of_app. right. by apply list_elem_of_singleton.
        -- intros z [->|Hz]%elem_of_cons; [apply H3; lia|by apply H4].
    + specialize (IH y s spans Hs Hb Ha Hl ltac:(lia)). destruct (foldl _ _ _) as [s' spans']. destruct IH as (H1 & H2 & H3 & H4).
      split; [done|]. split; [done|]. split; [intros v Hv; apply H3; lia|]. intros z [->|Hz]%elem_of_cons; [apply H3; lia|by apply H4].
Qed.

Lemma no_gap_walk base s spans pairs : foldl (fun found p => found || has_gap p) false pairs = false -> foldl (walk_gaps base) (s, spans) pairs = (s, spans).
Proof.
  assert (forall b ps, foldl (fun found p => found || has_gap p) b ps = b || existsb has_gap ps) as He.
  { intros b ps. revert b. induction ps as [|p ps IH]; intros b; cbn; [by rewrite orb_false_r|]. by rewrite IH, orb_assoc. }
  rewrite He. cbn [orb]. induction pairs as [|p pairs IH]; [done|]. cbn [existsb foldl walk_gaps]. destruct (has_gap p); [done|]. done.
Qed.

(** The pairs of a block are the neighbouring values at its positions. *)
Lemma block_pairs {A} (l : list A) a e : 0 <= a <= e -> zip (zsub l a e) (zsub l (a + 1) (e + 1)) = zsub (windows2 l) a e.
Proof.
  intros Ha. rewrite windows2_zip. unfold zsub, ztake, zskip. replace (e + 1 - (a + 1)) with (e - a) by lia.
  rewrite <- zip_with_take, zip_with_drop. do 2 f_equal. replace (Z.to_nat (a + 1)) with (S (Z.to_nat a)) by lia. destruct l; [|done]. by destruct (Z.to_nat a).
Qed.

(** The blocks cut the walk over all neighbouring values. *)
Lemma gap_blocks_ok fuel base l a s spans : zlen l <= ISIZE_MAX -> 0 <= a <= zlen l - 1 -> zlen l - a <= Z.of_nat fuel ->
  gap_blocks fuel base l a s spans = Ok (foldl (walk_gaps base) (s, spans) (zsub (windows2 l) a (zlen l - 1))).
Proof.
  intros Hl. revert a s spans. induction fuel as [|fuel IH]; intros a s spans Ha Hf; [lia|]. cbn [gap_blocks]. unwrap.
  destruct (Z.ltb_spec (a + 1) (zlen l)) as [Hlt|Hge]; [|by rewrite zsub_nil by lia]. set (e := Z.min _ _). assert (a < e <= zlen l - 1) as He by lia.
  rewrite !idx_range_zsub by lia. mon. rewrite block_pairs by lia.
  rewrite (zsub_app (windows2 l) a e (zlen l - 1)), foldl_app by lia.
  destruct (foldl (fun found p => found || has_gap p) false (zsub (windows2 l) a e)) eqn:Eg.
  - destruct (foldl (walk_gaps base) (s, spans) (zsub (windows2 l) a e)) as [s' spans']. apply IH; lia.
  - rewrite no_gap_walk by done. apply IH; lia.
Qed.

Lemma zsub_all {A} (l : list A) n : zlen l <= n -> zsub l 0 n = l.
Proof. intros Hn. unfold zsub, ztake, zskip, zlen in *. rewrite drop_0. apply take_ge. lia. Qed.

Lemma last_get_opt x l : get_opt (x :: l) (zlen (x :: l) - 1) = Some (List.last (x :: l) 0).
Proof.
  revert x. induction l as [|y l IH]; intros x; [done|]. change (List.last (x :: y :: l) 0) with (List.last (y :: l) 0). rewrite <- IH.
  rewrite (zlen_cons x), get_opt_cons. pose proof (zlen_nonneg l). rewrite zlen_cons. rewrite (proj2 (Z.eqb_neq _ _)) by lia. f_equal. lia.
Qed.

Lemma sorted_gap_spans_ok base l : l <> [] -> ssorted l -> zlen l <= ISIZE_MAX -> Forall (fun y => 0 <= base /\ 0 <= y /\ base + y <= U64_MAX) l ->
  exists spans, sorted_gap_spans base l [] = Ok spans /\ ascending spans /\ forall y, y ∈ l -> spanned spans (base + y).
Proof.
  intros Hne Hs Hl Hb. destruct l as [|x l]; [done|]. pose proof Hb as Hbx. apply Forall_cons in Hbx as [(? & ? & ?) _]. pose proof (zlen_nonneg l).
  unfold sorted_gap_spans. rewrite gap_blocks_ok; [|done|rewrite zlen_cons; lia|unfold zlen; lia]. mon. unwrap.
  rewrite zsub_all by (rewrite zlen_windows2, zlen_cons by done; lia). rewrite zlen_cons in Hl.
  pose proof (walk_gaps_ok base x l (base + x) [] Hs Hb) as Hw. destruct (foldl _ _ _) as [s' spans']. unwrap.
  assert (base + List.last (x :: l) 0 <= U64_MAX /\ 0 <= base + List.last (x :: l) 0) as [Hlast1 Hlast2].
  { pose proof (Forall_get_opt _ _ _ _ Hb (last_get_opt x l)) as Hq. cbn beta in Hq. lia. }
  replace (wrap64 (zlen (x :: l) - 1)) with (zlen (x :: l) - 1) by (rewrite zlen_cons; unwrap; lia).
  rewrite (idx_ok _ _ _ (last_get_opt x l)). mon. unwrap. eexists. split; [done|]. destruct Hw as (Hw1 & _ & Hw3 & Hw4).
  - split; constructor.
  - constructor.
  - lia.
  - split; [done|]. intros y [->|Hy]%elem_of_cons; [apply Hw3; lia|by apply Hw4].
Qed.

(** Every id of a segment is in one of its pieces. *)
Lemma probe_spans_ok s r : Segment.wf s -> Segment.elems s <> [] -> Segment.range s = Some r ->
  exists spans, probe_spans s r = Ok spans /\ ascending spans /\ forall v, v ∈ Segment.elems s -> spanned spans v.
Proof.
  intros Hwf Hne Hr. assert (exists spans, Ok [(fst r, snd r)] = Ok spans /\ ascending spans /\ forall v, v ∈ Segment.elems s -> spanned spans v) as Hone.
  { eexists. split; [done|]. pose proof (range_bounds s Hwf) as Hb. rewrite Hr in Hb. destruct r as [lo hi]. destruct Hb as [Hb _]. rewrite Forall_forall in Hb.
    assert (exists v, v ∈ Segment.elems s) as [v Hv] by (destruct (Segment.elems s) as [|v l]; [done|]; exists v; left). pose proof (Hb v Hv).
    split; [split; [repeat constructor|constructor; [cbn; lia|constructor]]|].
    intros w Hw. exists (lo, hi). split; [by apply list_elem_of_singleton|]. by apply Hb. }
  destruct s as [r'|r' h|r' b|r' rs|a|a]; cbn [probe_spans]; try done.
  - destruct Hwf as ((? & ? & ?) & Hrs & Hsp). destruct (HoleRuns.present_ranges_ok rs Hrs) as (l & -> & Hl & Hb). mon. eexists. split; [done|].
    pose proof (HoleRuns.present_ssorted rs Hrs) as Hs. rewrite <- Hl in Hs.
    destruct (push_run_spans_ok (start r') l [] Hs) as [H3 H4].
    + eapply Forall_impl; [exact Hb|]. cbn. lia.
    + done.
    + eapply Forall_impl; [exact Hb|]. cbn. lia.
    + split; constructor.
    + constructor.
    + intros v _. constructor.
    + split; [done|]. intros v Hv. cbn [Segment.elems] in Hv. apply list_elem_of_fmap in Hv as (p & -> & Hp). apply H4. right. rewrite Hl.
      by replace (start r' + p - start r') with p by lia.
  - destruct Hwf as [Ha Hs]. destruct a as [base o|base o|vs]; [done|..].
    + destruct Ha as [[Hbase Ho] Hz]. cbn [Segment.elems EncodedArray.elems] in *. rewrite zlen_map in Hz. apply EncodedArray.ssorted_map_add in Hs.
      destruct (sorted_gap_spans_ok base o) as (spans & H1 & H2 & H3); [by intros ->|done|done| |].
      { eapply Forall_impl; [exact Ho|]. uok. cbn. lia. }
      exists spans. split; [done|]. split; [done|]. intros v Hv. apply list_elem_of_fmap in Hv as (y & -> & Hy). by apply H3.
    + destruct Ha as [Hvs Hz]. cbn [Segment.elems EncodedArray.elems] in *. destruct (sorted_gap_spans_ok 0 vs) as (spans & H1 & H2 & H3); [done|done|done| |].
      { eapply Forall_impl; [exact Hvs|]. uok. cbn. lia. }
      exists spans. split; [done|]. split; [done|]. intros v Hv. by apply (H3 v).
Qed.

(** ** The pieces of the index *)

Lemma map_res_Forall2 {A B} (f : A -> res B) (R : A -> B -> Prop) l : Forall (fun x => exists y, f x = Ok y /\ R x y) l ->
  exists ys, map_res f l = Ok ys /\ Forall2 R l ys.
Proof.
  induction 1 as [|x l (y & Hy & HR) _ (ys & Hys & IH)]; [by exists []|]. exists (y :: ys). cbn. rewrite Hy, Hys. split; [done|by constructor].
Qed.

Lemma flat_map_Forall2 {A B C} (f : A -> list C) (g : B -> list C) (R : A -> B -> Prop) l1 l2 :
  Forall2 R l1 l2 -> (forall x y, R x y -> f x = g y) -> flat_map f l1 = flat_map g l2.
Proof. intros H Hfg. induction H as [|x y l1 l2 Hxy _ IH]; [done|]. cbn. by rewrite (Hfg x y Hxy), IH. Qed.

Lemma flat_map_concat {A B} (f : A -> list B) ls : flat_map f (concat ls) = flat_map (flat_map f) ls.
Proof. induction ls as [|l ls IH]; [done|]. cbn. by rewrite flat_map_app, IH. Qed.

Lemma flat_map_map_fun {A B C} (f : B -> list C) (g : A -> B) l : flat_map (fun x => f (g x)) l = flat_map f (map g l).
Proof. induction l as [|x l IH]; [done|]. cbn. by rewrite IH. Qed.

Lemma enumerate_index {A} (l : list A) n k x : enumerate l !! n = Some (k, x) -> k = Z.of_nat n.
Proof. unfold enumerate. intros (i & y & [= -> ->] & Hi & _)%lookup_zip_with_Some. by apply lookup_seqZ in Hi as [-> _]. Qed.

Section Pieces.
Context {RB : Roaring} (fs : list FragmentEntry) (kept : list FragmentRowIdIndex).
Context (Hfs : Forall2 fragment_ok fs kept) (Hkept : Forall source_ok kept) (Hn : zlen kept <= U32_MAX).

(** The live address a piece contributes for an id, when it spans it. *)
Definition piece_address (v : Z) (p : ProbeEntry) : list RowAddress :=
  match get_opt kept (pe_fragment p) with
  | Some src =>
      match get_opt (placed 0 (row_id_sequence src)) (pe_segment p) with
      | Some (s, o) => if in_span v (pe_start p, pe_end p) then option_list (segment_address (fragment_id src) (deletion_vector src) o s v) else []
      | None => []
      end
  | None => []
  end.

Definition piece_ok (p : ProbeEntry) : Prop := pe_start p <= pe_end p /\
  exists src q, get_opt kept (pe_fragment p) = Some src /\ get_opt (placed 0 (row_id_sequence src)) (pe_segment p) = Some q.

Lemma fragment_probes_ok i f src : get_opt fs i = Some f -> get_opt kept i = Some src -> fragment_ok f src -> source_ok src ->
  exists ps, fragment_probes (i, f) = Ok ps /\ Forall piece_ok ps /\
    forall v, flat_map (piece_address v) ps = sequence_addresses (fragment_id src) (deletion_vector src) 0 (row_id_sequence src) v.
Proof.
  intros Hi Hk (Hid & Hq & Hdv & Hes) (_ & _ & Hl). unfold fragment_probes. cbn [fst snd]. pose proof (zlen_placed 0 (row_id_sequence src)) as Hpl.
  apply get_opt_Some in Hk as Hki. pose proof (Forall2_length _ _ _ Hes) as Hlen.
  destruct (map_res_Forall2 (segment_probes i f) (fun p ps => Forall piece_ok ps /\ forall s o, get_opt (placed 0 (row_id_sequence src)) (fst p) = Some (s, o) ->
    forall v, flat_map (piece_address v) ps = option_list (segment_address (fragment_id src) (deletion_vector src) o s v)) (enumerate (segments f))) as (pss & Hp & Hf2).
  { apply Forall_forall. intros [j e] He%enumerate_lookup. destruct (Forall2_get_opt_l _ _ _ _ _ Hes He) as ([s o] & Hj & Hok).
    pose proof Hok as (Hsq & Hwf & Hne & _ & Hr & _). cbn [fst snd] in *. apply get_opt_Some in He as Hje.
    destruct (probe_spans_ok s (se_range e) Hwf Hne Hr) as (spans & Hsp & Hasc & Hcov). unfold segment_probes. rewrite Hq, (idx_ok _ _ _ Hsq). mon. rewrite Hsp. mon.
    assert (zlen (segments f) <= U32_MAX) as Hsl by (unfold zlen in *; lia). unwrap. eexists. split; [done|]. split.
    - apply Forall_map. eapply Forall_impl; [exact (proj2 Hasc)|]. intros sp Hle. split; [done|]. exists src, (s, o). done.
    - cbn [fst]. rewrite Hj. intros s' o' [= <- <-] v. rewrite <- flat_map_map_fun. unfold piece_address. cbn [pe_fragment pe_segment pe_start pe_end]. rewrite Hk, Hj.
      destruct (segment_address _ _ o s v) as [a|] eqn:Ea; cbn [option_list].
      + etransitivity; [|apply (spanned_once spans v [a] Hasc)]; [apply flat_map_ext; by intros []|]. apply Hcov. unfold segment_address in Ea.
        destruct (index_of v (Segment.elems s)) as [k|] eqn:Ek; [|done]. apply index_of_first in Ek as [Ek _]. apply elem_of_get_opt. eauto.
      + clear. induction spans as [|sp spans IH]; [done|]. cbn [flat_map]. rewrite IH. by destruct (in_span _ _). }
  rewrite Hp. mon. eexists. split; [done|]. split.
  - apply Forall_concat. clear - Hf2. induction Hf2 as [|x y l1 l2 [H _] _ IH]; constructor; done.
  - intros v. rewrite flat_map_concat, sequence_addresses_placed. rewrite <- (flat_map_enumerate _ (placed 0 (row_id_sequence src))).
    assert (Forall2 (fun p ps => forall s o, snd p = (s, o) -> flat_map (piece_address v) ps = option_list (segment_address (fragment_id src) (deletion_vector src) o s v))
      (enumerate (placed 0 (row_id_sequence src))) pss) as Hf3.
    { apply Forall2_same_length_lookup. split.
      - unfold enumerate. rewrite <- (Forall2_length _ _ _ Hf2). unfold enumerate. rewrite !length_zip_with, !length_seqZ. unfold zlen. lia.
      - intros n [k [s o]] ps Hx Hy s' o'. cbn [snd]. intros Hso. injection Hso as <- <-. destruct (Forall2_lookup_r _ _ _ _ _ Hf2 Hy) as ([k' e'] & He' & _ & H). apply (H s o). cbn [fst].
        apply list_elem_of_lookup_2 in Hx as Hx'. apply enumerate_lookup in Hx'.
        apply enumerate_index in Hx as ->. by apply enumerate_index in He' as ->. }
    symmetry. eapply flat_map_Forall2; [exact Hf3|]. intros [k [s o]] ps H. cbn [snd fst]. symmetry. by apply H.
Qed.

Lemma probe_entries_ok : exists ps, probe_entries fs = Ok (sort_by_key pe_start ps) /\ Forall piece_ok ps /\
  forall v, flat_map (piece_address v) ps = live_addresses kept v.
Proof.
  unfold probe_entries. destruct (map_res_Forall2 fragment_probes (fun p ps => Forall piece_ok ps /\ forall src, get_opt kept (fst p) = Some src ->
    forall v, flat_map (piece_address v) ps = sequence_addresses (fragment_id src) (deletion_vector src) 0 (row_id_sequence src) v) (enumerate fs)) as (pss & Hp & Hf2).
  { apply Forall_forall. intros [i f] Hi%enumerate_lookup. destruct (Forall2_get_opt_l _ _ _ _ _ Hfs Hi) as (src & Hk & Hok).
    destruct (fragment_probes_ok i f src Hi Hk Hok) as (ps & Hps & Hall & Hv); [by eapply Forall_get_opt|]. exists ps. split; [done|]. split; [done|].
    cbn [fst]. intros src' Hk'. by simplify_eq. }
  rewrite Hp. mon. eexists. split; [done|]. split.
  - apply Forall_concat. clear - Hf2. induction Hf2 as [|x y l1 l2 [H _] _ IH]; constructor; done.
  - intros v. rewrite flat_map_concat. unfold live_addresses. rewrite <- (flat_map_enumerate _ kept). symmetry.
    eapply (flat_map_Forall2 _ _ (fun p ps => flat_map (piece_address v) ps = _)); [|intros p ps H; symmetry; exact H].
    apply Forall2_same_length_lookup. split.
    + rewrite <- (Forall2_length _ _ _ Hf2). unfold enumerate. rewrite !length_zip_with, !length_seqZ. pose proof (Forall2_length _ _ _ Hfs). unfold zlen. lia.
    + intros n [k src] ps Hx Hy. destruct (Forall2_lookup_r _ _ _ _ _ Hf2 Hy) as ([k' f] & He' & _ & H). cbn [snd fst] in *.
      apply list_elem_of_lookup_2 in Hx as Hx'. apply enumerate_lookup in Hx'. apply H. apply enumerate_index in Hx as ->. by apply enumerate_index in He' as ->.
Qed.

Lemma leaf_candidate_ok ps tree slot p v : Forall piece_ok ps -> u64_ok v -> get_opt ps slot = Some p -> pe_start p <= v <= pe_end p ->
  exists o, leaf_candidate (mkProbeIndex fs ps tree) slot v = Ok o /\ option_list o = piece_address v p.
Proof.
  intros Hps Hv Hs Hr. unfold leaf_candidate. cbn [probes fragments]. rewrite Hs. pose proof (Forall_get_opt _ _ _ _ Hps Hs) as (_ & src & [s o] & Hsrc & Hq).
  destruct (Forall2_get_opt_r _ _ _ _ _ Hfs Hsrc) as (f & Hf & Hok). rewrite (idx_ok _ _ _ Hf). mon.
  rewrite (resolve_segment_ok f src (pe_segment p) (s, o) v Hok) by (done || by eapply Forall_get_opt). eexists. split; [done|].
  unfold piece_address. rewrite Hsrc, Hq. by rewrite (proj2 (in_span_spec v _)).
Qed.

Lemma piece_outside v p : pe_end p < v \/ v < pe_start p -> piece_address v p = [].
Proof.
  intros Hv. unfold piece_address. destruct (get_opt kept _); [|done]. destruct (get_opt _ _) as [[s o]|]; [|done].
  destruct (in_span v _) eqn:E; [|done]. apply in_span_spec in E. cbn in E. lia.
Qed.

End Pieces.

(** ** Probing *)

Lemma lookup_result_perm l l' : l ≡ₚ l' -> lookup_result l = lookup_result l'.
Proof.
  intros H. pose proof (Permutation_length H) as Hl. destruct l as [|a [|b l]], l' as [|a' [|b' l']]; cbn in Hl; try done; try lia.
  apply Permutation_singleton_r in H. by injection H as <-.
Qed.

Section Probing.
Context {RB : Roaring}.

(** What the index over the fragments [kept] promises to its lookups. *)
Record probe_index_ok (index : ProbeIndex) (kept : list FragmentRowIdIndex) : Prop := {
  pi_fragments : Forall2 fragment_ok (fragments index) kept;
  pi_sources : Forall source_ok kept;
  pi_pieces : Forall (piece_ok kept) (probes index);
  pi_addresses v : flat_map (piece_address kept v) (probes index) ≡ₚ live_addresses kept v;
  pi_sorted : StronglySorted (fun a b => pe_start a <= pe_start b) (probes index);
  pi_tree : probes index <> [] -> exists h, 0 <= h /\ zlen (end_tree index) = 2 * 2 ^ h /\ zlen (probes index) <= 2 ^ h /\
    leaf_ends (2 ^ h) (probes index) (end_tree index) /\ heap_from 1 (2 ^ h) (end_tree index)
}.

Lemma probing_ok sources : Forall source_ok sources -> zlen sources <= U32_MAX ->
  exists index kept, probing sources = Ok index /\ probe_index_ok index kept /\ kept `sublist_of` sources /\
    (forall v, live_addresses kept v = live_addresses sources v).
Proof.
  intros Hs Hn. destruct (fragment_entries_ok sources Hs) as (fs & kept & E & Hfs & Hsub & Hlive).
  assert (Forall source_ok kept) as Hkept by (by eapply Forall_sublist_of).
  assert (zlen kept <= U32_MAX) as Hnk by (apply sublist_length in Hsub; unfold zlen in *; lia).
  destruct (probe_entries_ok fs kept Hfs Hkept) as (ps0 & Eps & Hps0 & Haddr); [done|]. unfold probing. rewrite E. mon. rewrite Eps. mon.
  pose proof (sort_by_key_perm pe_start ps0) as Hperm. pose proof (sort_by_key_sorted pe_start ps0) as Hsort. set (ps := sort_by_key pe_start ps0) in *. clearbody ps.
  assert (exists tree, build_end_tree ps = Ok tree /\ (ps <> [] -> exists h, 0 <= h /\ zlen tree = 2 * 2 ^ h /\ zlen ps <= 2 ^ h /\ leaf_ends (2 ^ h) ps tree /\ heap_from 1 (2 ^ h) tree)) as (tree & -> & Ht).
  { destruct ps as [|p ps]; [by exists []|]. destruct (build_end_tree_ok (p :: ps)) as (tree & h & Et & H); [done|]. exists tree. split; [done|]. intros _. by exists h. }
  mon. eexists _, kept. split; [done|]. split; [|done]. split; cbn [fragments probes end_tree]; [done|done|by rewrite Hperm| |done|done].
  intros v. by rewrite Hperm, Haddr.
Qed.

Lemma probe_ok index kept v : probe_index_ok index kept -> u64_ok v -> probe index v = lookup_result (live_addresses kept v).
Proof.
  intros Hok Hv. destruct index as [fs ps tree]. destruct Hok as [Hfs Hkept Hps Haddr Hsort Htree]. cbn [fragments probes end_tree] in *.
  rewrite <- (lookup_result_perm _ _ (Haddr v)). unfold probe. cbn [probes end_tree]. destruct (Z.eqb_spec (zlen ps) 0) as [E0|Hne].
  { destruct ps as [|p ps]; [done|]. rewrite zlen_cons in E0. pose proof (zlen_nonneg ps). lia. }
  destruct Htree as (h & Hh & Hz & Hl & Hends & Hheap); [by intros ->|].
  destruct (partition_point_spec (fun p => pe_start p <=? v) ps) as (Hu & Hlt & Hge).
  { intros i j x y Hij Hx Hy Hp%Z.leb_le. apply Z.leb_le. pose proof (sorted_lookup _ _ _ _ _ _ Hsort Hx Hy Hij) as Hle. cbn in Hle. lia. }
  set (upper := partition_point _ ps) in *.
  assert (flat_map (piece_address kept v) ps = candidates (mkProbeIndex fs ps tree) (piece_address kept v) 0 upper) as ->.
  { apply (candidates_all (mkProbeIndex fs ps tree)); [done|]. cbn [probes]. intros slot p Hsl Hp. apply piece_outside. right.
    specialize (Hge slot p Hsl Hp). by apply Z.leb_gt in Hge. }
  destruct (Z.eqb_spec upper 0) as [->|Hu0]; [unfold candidates; by rewrite zsub_nil|].
  replace (zlen tree / 2) with (2 ^ h) by (rewrite Hz, Z.mul_comm, Z.div_mul by lia; done).
  rewrite (probe_loop_ok (mkProbeIndex fs ps tree) v h (piece_address kept v)); cbn [probes end_tree]; try done.
  - intros slot p Hp Hr. by apply (leaf_candidate_ok fs kept Hfs Hkept).
  - intros p _ Hp. apply piece_outside. by left.
  - intros slot p Hsl Hp. apply Z.leb_le. by apply (Hlt slot p).
  - unfold covers_slots. lia.
  - unfold probe_fuel. rewrite Z.log2_pow2 by done. nia.
Qed.

(** C17: the probe representation of the row-id index can be built from any
    fragments, and a probe for a row id returns the address of the live row with
    that id, nothing when there is none, and an error when the id is live in
    several rows; the descent of the tree ends within its fuel and never reads
    outside an array. *)
Theorem probe_finds_live sources : Forall source_ok sources -> zlen sources <= U32_MAX -> exists index, probing sources = Ok index /\
  forall v, u64_ok v -> probe index v = lookup_result (live_addresses sources v).
Proof.
  intros Hs Hn. destruct (probing_ok sources Hs Hn) as (index & kept & E & Hok & _ & Hlive). exists index. split; [done|]. intros v Hv.
  rewrite <- Hlive. by apply probe_ok.
Qed.

End Probing.

(** ** Examples *)

Module RowIdProbeExamples.

#[local] Existing Instances CofiniteRoaring CofiniteRoaring_laws.

(** Two fragments whose ids interleave; id 20 is deleted in the first one. *)
Definition interleaved : list FragmentRowIdIndex :=
  [mkSource 3 [Range_ (10 ..< 13); Array (U64 [50; 20; 40])] (DSet {[4]}); mkSource 9 [Array (U64 [80; 20; 60])] NoDeletions].

Lemma interleaved_ok : Forall source_ok interleaved.
Proof.
  assert (forall l, Forall u64_ok l -> zlen l <= 10 -> Segment.wf (Array (U64 l))) as Ha.
  { intros l Hl Hz. cbn. split; [done|]. cbn. lia. }
  constructor; [|constructor; [|constructor]]; (split; [cbn; uok; lia|split; [|vm_compute; done]]).
  - constructor; [unfold Segment.wf, range_ok; cbn; lia|]. constructor; [|constructor]. apply Ha; [repeat constructor; uok; lia|vm_compute; done].
  - constructor; [|constructor]. apply Ha; [repeat constructor; uok; lia|vm_compute; done].
Qed.

Lemma probe_finds_live_witness : exists index, probing interleaved = Ok index /\ probe index 20 = Ok (Some (new_from_parts 9 1)) /\ probe index 13 = Ok None.
Proof.
  destruct (probe_finds_live interleaved interleaved_ok) as (index & E & H); [vm_compute; done|]. exists index. split; [done|].
  rewrite !H by (uok; lia). vm_compute. done.
Defined.

End RowIdProbeExamples.
