(* ===== verification/RowIdMerged.v ===== *)
(** * The row-id index: the merged representation

    Correctness of the second half of [RowIdIndex::new] in
    [lance-table/src/rowids/index.rs]: every segment is decomposed into a chunk
    of live row ids and their addresses, [prep_index_chunks] groups the chunks
    whose ranges overlap, a group is merged into one chunk unless an id is live
    twice, and the resulting chunks have disjoint ranges, so that a lookup in the
    range map finds the chunk of an id.  The last part joins the two
    representations: whichever one [new] chooses, [get] answers what the live
    rows of the fragments say. *)

From Stdlib Require Import ZArith Lia.
From stdpp Require Import base option list numbers sorting sets gmap.
From S2P Require Import Prelude Lists Bits RowAddress Bitmap EncodedArray HoleRuns Segment SegmentBuild Sequence Itertools Roaring Deletion RowIdIndex RowIdLookup RowIdProbe.

(** ** Chunks *)

Definition chunk_rows (c : IndexChunk) : list (Z * Z) := zip (Segment.elems (fst (snd c))) (Segment.elems (snd (snd c))).

Definition lo_of (c : IndexChunk) : Z := fst (fst c).
Definition hi_of (c : IndexChunk) : Z := snd (fst c).

(** A chunk pairs the ids of one segment with the addresses of another; its
    range bounds the ids. *)
Definition chunk_ok (c : IndexChunk) : Prop :=
  Segment.wf (fst (snd c)) /\ Segment.wf (snd (snd c)) /\ zlen (Segment.elems (fst (snd c))) = zlen (Segment.elems (snd (snd c))) /\
  Segment.elems (fst (snd c)) <> [] /\ lo_of c <= hi_of c /\ Forall (fun v => lo_of c <= v <= hi_of c) (Segment.elems (fst (snd c))) /\ NoDup (Segment.elems (fst (snd c))).

Lemma map_fst_zip {A B} (l : list A) (k : list B) : zlen l = zlen k -> map fst (zip l k) = l.
Proof. unfold zlen. revert k. induction l as [|x l IH]; intros [|y k] H; cbn in *; try lia; [done|]. by rewrite IH by lia. Qed.

Lemma map_snd_zip {A B} (l : list A) (k : list B) : zlen l = zlen k -> map snd (zip l k) = k.
Proof. unfold zlen. revert k. induction l as [|x l IH]; intros [|y k] H; cbn in *; try lia; [done|]. by rewrite IH by lia. Qed.

Lemma zip_fst_snd {A B} (l : list (A * B)) : zip (map fst l) (map snd l) = l.
Proof. induction l as [|[x y] l IH]; cbn; [done|]. by rewrite IH. Qed.

(** The bounds of a segment built from ascending values are the first and the last of them. *)
Lemma from_iter_range vs s lo hi : Forall u64_ok vs -> zlen vs <= VEC64_MAX -> ssorted vs -> head vs = Some lo -> list.last vs = Some hi ->
  SegmentBuild.from_iter vs = Ok s -> Segment.range s = Some (lo, hi).
Proof.
  intros Hu Hl Hs Hlo Hhi E. destruct (stats_exact vs Hu Hl (ssorted_NoDup _ Hs)) as [Hc Hst].
  destruct (compute_stats_ok vs Hu Hl) as [_ _ _ Hsort]. assert (sorted (compute_stats vs) = true) as Es by (apply Hsort; by apply ssorted_le).
  destruct (Hst Es) as [_ Hends]. destruct Hends as [H1 H2]; [by intros ->|]. assert (st_min (compute_stats vs) = lo /\ st_max (compute_stats vs) = hi) as [Emin Emax] by (split; congruence).
  assert (u64_ok lo /\ u64_ok hi /\ lo <= hi) as (Hlo' & Hhi' & Hle).
  { pose proof (seq_lo_hi _ _ _ Hs Hlo Hhi). rewrite Forall_forall in Hu. split; [by apply Hu, head_Some_elem_of|]. split; [by apply Hu, last_Some_elem_of|lia]. }
  assert (Segment.range (SortedArray (EncodedArray.from_iter vs)) = Some (lo, hi)) as Harr.
  { destruct (EncodedArray.from_vec_wf vs Hu) as (Hw & He & _); [lia|]. cbn [Segment.range]. change (EncodedArray.from_iter vs) with (EncodedArray.from_vec vs).
    rewrite EncodedArray.first_elems, EncodedArray.last_elems, He, Hlo, Hhi by done. done. }
  assert (hi + 1 <= U64_MAX -> forall f, (forall r, Segment.range (f r) = if negb (range_is_empty r) then Some (start r, end_ r -w 1) else None) ->
    Segment.range (f (lo ..< hi + 1)) = Some (lo, hi)) as Hr.
  { intros Hm f Hf. rewrite Hf. unfold range_is_empty. cbn [start end_]. rewrite (proj2 (Z.ltb_lt _ _)) by lia. cbn. unwrap. by rewrite Z.add_simpl_r. }
  unfold SegmentBuild.from_iter, from_stats_and_sequence in E. rewrite Es, Hc, Emin, Emax in E.
  destruct (Z.eqb_spec (zlen vs) 0) as [E0|_]; [destruct vs; [done|rewrite zlen_cons in E0; pose proof (zlen_nonneg vs); lia]|].
  unfold checked_add in E. destruct (Z.leb_spec (hi + 1) U64_MAX) as [Hm|Hm]; [|by simplify_eq].
  destruct (n_holes _ =? 0); [injection E as <-; by apply (Hr Hm Range_)|]. destruct (sorted_sequence_sizes _) as [[s0 s1] s2].
  destruct (_ =? s0); [injection E as <-; by apply (Hr Hm (fun r => RangeWithHoles r _))|]. destruct (_ =? s1); [|by simplify_eq].
  inv_ok E. injection E as <-. by apply (Hr Hm (fun r => RangeWithBitmap r _)).
Qed.

(** Rows that can become a chunk. *)
Definition rows_ok (rows : list (Z * Z)) : Prop :=
  Forall u64_ok (map fst rows) /\ Forall u64_ok (map snd rows) /\ NoDup (map snd rows) /\ zlen rows <= VEC64_MAX.

Lemma rows_ok_perm rows rows' : rows ≡ₚ rows' -> rows_ok rows -> rows_ok rows'.
Proof.
  intros Hp (H1 & H2 & H3 & H4). unfold rows_ok, zlen in *. rewrite <- (Permutation_length Hp), <- (Permutation_map fst Hp), <- (Permutation_map snd Hp). done.
Qed.

Lemma sorted_keys (rows : list (Z * Z)) : StronglySorted (fun a b => fst a <= fst b) rows -> NoDup (map fst rows) -> ssorted (map fst rows).
Proof.
  intros Hs Hnd. apply ssorted_of_le; [|done]. clear Hnd. induction Hs as [|x l _ IH Hx]; cbn; constructor; [done|].
  apply Forall_map. done.
Qed.

(** Encoding sorted rows as a chunk. *)
Lemma chunk_of_rows rows : rows_ok rows -> NoDup (map fst rows) -> StronglySorted (fun a b => fst a <= fst b) rows -> rows <> [] ->
  exists ids addrs lo hi, SegmentBuild.from_iter (map fst rows) = Ok ids /\ SegmentBuild.from_iter (map snd rows) = Ok addrs /\
    Segment.range ids = Some (lo, hi) /\ chunk_ok ((lo, hi), (ids, addrs)) /\ chunk_rows ((lo, hi), (ids, addrs)) = rows /\
    lo ∈ map fst rows /\ hi ∈ map fst rows.
Proof.
  intros (H1 & H2 & H3 & H4) Hnd Hs Hne. pose proof (sorted_keys rows Hs Hnd) as Hss. assert (zlen (map fst rows) <= VEC64_MAX) as H5 by (by rewrite zlen_map).
  assert (zlen (map snd rows) <= VEC64_MAX) as H6 by (by rewrite zlen_map).
  destruct (from_slice_ok (map fst rows)) as (ids & E1 & Hw1 & He1); [done..|].
  destruct (from_slice_ok (map snd rows)) as (addrs & E2 & Hw2 & He2); [done..|]. unfold from_slice in *.
  destruct (head (map fst rows)) as [lo|] eqn:Hlo; [|by destruct rows]. destruct (list.last (map fst rows)) as [hi|] eqn:Hhi; [|by apply last_None in Hhi; destruct rows].
  exists ids, addrs, lo, hi. assert (Segment.range ids = Some (lo, hi)) as Hr by (apply (from_iter_range (map fst rows)); done).
  pose proof (range_bounds ids Hw1) as Hb. rewrite Hr, He1 in Hb. destruct Hb as [Hb Hhi']. apply head_Some_elem_of in Hlo as Hlo'. apply last_Some_elem_of in Hhi as Hhi''.
  do 3 (split; [done|]). unfold chunk_ok, chunk_rows, lo_of, hi_of. cbn [fst snd]. rewrite He1, He2, zip_fst_snd, !zlen_map. rewrite !Forall_forall in *.
  specialize (Hb hi Hhi'') as Hle. split; [|done]. do 3 (split; [done|]). split; [by destruct rows|]. split; [lia|]. done.
Qed.

Lemma build_chunk_ok rows : rows_ok rows -> NoDup (map fst rows) -> exists oc, build_chunk_from_pairs rows = Ok oc /\
  match oc with None => rows = [] | Some c => chunk_ok c /\ chunk_rows c ≡ₚ rows end.
Proof.
  intros Hr Hnd. unfold build_chunk_from_pairs. destruct rows as [|x rows]; [by exists None|]. set (l := x :: rows) in *.
  pose proof (sort_by_key_perm fst l) as Hp.
  destruct (chunk_of_rows (sort_by_key fst l)) as (ids & addrs & lo & hi & -> & E2 & Er & Hc & Hrows & _);
    [by eapply rows_ok_perm|by rewrite Hp|apply sort_by_key_sorted| |].
  { intros E. rewrite E in Hp. by apply Permutation_nil_l in Hp. }
  mon. rewrite E2. mon. rewrite Er. exists (Some ((lo, hi), (ids, addrs))). split; [done|]. split; [exact Hc|]. by rewrite Hrows.
Qed.

(** ** Live rows *)

Section Merged.
Context {RB : Roaring} {RL : RoaringLaws RB}.

(** The live rows of a segment at [offset] of a fragment: ids with their addresses. *)
Definition segment_rows (k : Z) (dv : DeletionVector) (offset : Z) (s : U64Segment) : list (Z * Z) :=
  omap (fun p => if dv_contains dv (offset + fst p) then None else Some (snd p, new_from_parts k (offset + fst p))) (enumerate (Segment.elems s)).

Fixpoint sequence_rows (k : Z) (dv : DeletionVector) (offset : Z) (q : RowIdSequence) : list (Z * Z) :=
  match q with
  | [] => []
  | s :: q => segment_rows k dv offset s ++ sequence_rows k dv (offset + zlen (Segment.elems s)) q
  end.

Definition source_rows (f : FragmentRowIdIndex) : list (Z * Z) := sequence_rows (fragment_id f) (deletion_vector f) 0 (row_id_sequence f).

Definition live_rows (sources : list FragmentRowIdIndex) : list (Z * Z) := flat_map source_rows sources.

Lemma segment_rows_elem k dv o s v a : (v, a) ∈ segment_rows k dv o s <->
  exists p, get_opt (Segment.elems s) p = Some v /\ dv_contains dv (o + p) = false /\ a = new_from_parts k (o + p).
Proof.
  unfold segment_rows. rewrite list_elem_of_omap. split.
  - intros ([p x] & Hp%enumerate_lookup & E). cbn in E. exists p. destruct (dv_contains dv (o + p)) eqn:Ed; [done|]. by injection E as -> ->.
  - intros (p & Hp & Hd & ->). exists (p, v). split; [by apply enumerate_lookup|]. cbn. by rewrite Hd.
Qed.

Lemma omap_sorted {A B} (R : relation A) (R' : relation B) (f : A -> option B) l : StronglySorted R l ->
  (forall x y a b, x ∈ l -> y ∈ l -> R x y -> f x = Some a -> f y = Some b -> R' a b) -> StronglySorted R' (omap f l).
Proof.
  induction 1 as [|x l Hl IH Hx]; intros Hf; [constructor|]. cbn. assert (StronglySorted R' (omap f l)) as Hs.
  { apply IH. intros y z a b Hy Hz. apply Hf; by right. }
  destruct (f x) as [a|] eqn:E; [|done]. constructor; [done|]. apply Forall_forall. intros b (y & Hy & Ey)%list_elem_of_omap.
  rewrite Forall_forall in Hx. eapply (Hf x y); [by left|by right|by apply Hx|done..].
Qed.

Lemma zlen_segment_rows k dv o s : zlen (segment_rows k dv o s) <= zlen (Segment.elems s).
Proof. etransitivity; [apply zlen_omap_le|]. unfold enumerate, zlen. rewrite length_zip_with. lia. Qed.

(** Row offsets of a segment are [u32] values, so its addresses ascend. *)
Lemma segment_rows_addresses k dv o s : u32_ok k -> 0 <= o -> o + zlen (Segment.elems s) <= U32_MAX ->
  ssorted (map snd (segment_rows k dv o s)) /\
  Forall (fun a => new_from_parts k o <= a < new_from_parts k o + zlen (Segment.elems s)) (map snd (segment_rows k dv o s)).
Proof.
  intros Hk Ho Hl. assert (forall p v, get_opt (Segment.elems s) p = Some v -> new_from_parts k (o + p) = new_from_parts k o + p) as Ha.
  { intros p v Hp%get_opt_Some. rewrite !new_from_parts_eq by (uok; lia). lia. }
  split.
  - assert (StronglySorted (fun a b => snd a < snd b) (segment_rows k dv o s)) as Hs.
    { eapply omap_sorted; [apply enumerate_by_position|]. intros [p x] [p' y] a b Hx%enumerate_lookup Hy%enumerate_lookup Hlt. cbn in *.
      destruct (dv_contains dv _), (dv_contains dv _); try done. intros [= <-] [= <-]. cbn. rewrite (Ha p x), (Ha p' y) by done. lia. }
    clear - Hs. induction Hs as [|x l _ IH Hx]; cbn; constructor; [done|]. by apply Forall_map.
  - apply Forall_map, Forall_forall. intros [v a] (p & Hp & _ & ->)%segment_rows_elem. cbn. rewrite (Ha p v) by done. apply get_opt_Some in Hp. lia.
Qed.

Lemma segment_rows_ids k dv o s : map fst (segment_rows k dv o s) `sublist_of` Segment.elems s.
Proof.
  unfold segment_rows. rewrite <- (map_snd_zip (seqZ 0 (zlen (Segment.elems s))) (Segment.elems s)) at 2 by (unfold zlen; rewrite length_seqZ; lia).
  change (zip _ _) with (enumerate (Segment.elems s)). induction (enumerate (Segment.elems s)) as [|[p x] l IH]; [done|]. cbn.
  destruct (dv_contains dv _); cbn; [by apply sublist_cons|by apply sublist_skip].
Qed.

Lemma sublist_NoDup {A} (l1 l2 : list A) : l1 `sublist_of` l2 -> NoDup l2 -> NoDup l1.
Proof.
  induction 1 as [|x l1 l2 H IH|x l1 l2 H IH]; intros Hnd; [done| |]; apply NoDup_cons in Hnd as [Hx Hnd]; [|by apply IH].
  constructor; [|by apply IH]. intros Hin. apply Hx. by eapply elem_of_sublist.
Qed.

(** A segment whose rows make a chunk. *)
Definition segment_fits (k o : Z) (s : U64Segment) : Prop :=
  u32_ok k /\ Segment.wf s /\ NoDup (Segment.elems s) /\ 0 <= o /\ o + zlen (Segment.elems s) <= U32_MAX.

Lemma segment_rows_ok k dv o s : segment_fits k o s -> rows_ok (segment_rows k dv o s) /\ NoDup (map fst (segment_rows k dv o s)).
Proof.
  intros (Hk & Hwf & Hnd & Ho & Hl). pose proof (segment_rows_ids k dv o s) as Hsub. pose proof (zlen_segment_rows k dv o s).
  destruct (segment_rows_addresses k dv o s) as [Ha Hb]; [done..|]. split; [|by eapply sublist_NoDup]. unfold rows_ok.
  split; [apply Forall_forall; intros v Hv; apply (elem_of_sublist _ _ _ Hv) in Hsub; pose proof (Segment.seg_elems_u64 s Hwf) as Hu; rewrite Forall_forall in Hu; auto|].
  split; [|split; [by apply ssorted_NoDup|lia]]. eapply Forall_impl; [exact Hb|]. cbn. intros a Hr. rewrite new_from_parts_eq in Hr by (uok; pose proof (zlen_nonneg (Segment.elems s)); lia). uok. lia.
Qed.

(** ** Decomposition into chunks *)

Lemma no_deletions_contains dv v : dv_is_empty dv = true -> dv_contains dv v = false.
Proof.
  intros H%Z.eqb_eq. rewrite dv_len_iter in H. destruct (dv_contains dv v) eqn:E; [|done]. apply dv_iter_elem in E.
  destruct (dv_iter dv) as [|x l]; [by apply elem_of_nil in E|]. rewrite zlen_cons in H. pose proof (zlen_nonneg l). lia.
Qed.

Lemma enumerate_zip_range (l : list Z) a : map (fun p => (snd p, a + fst p)) (enumerate l) = zip l (range_list (a ..< a + zlen l)).
Proof.
  unfold enumerate. enough (forall k, map (fun p => (snd p, a + fst p)) (zip (seqZ k (zlen l)) l) = zip l (range_list (a + k ..< a + k + zlen l))) as H
    by (specialize (H 0); by rewrite Z.add_0_r in H).
  induction l as [|x l IH]; intros k; [done|]. rewrite zlen_cons. pose proof (zlen_nonneg l).
  rewrite seqZ_cons, range_list_cons by lia. replace (Z.pred (1 + zlen l)) with (zlen l) by lia. cbn [zip zip_with map fst snd]. f_equal.
  rewrite IH. replace (a + Z.succ k) with (a + k + 1) by lia. by replace (a + k + 1 + zlen l) with (a + k + (1 + zlen l)) by lia.
Qed.

Lemma segment_rows_all k dv o s : segment_fits k o s -> dv_is_empty dv = true ->
  segment_rows k dv o s = zip (Segment.elems s) (range_list (new_from_parts k o ..< new_from_parts k o + zlen (Segment.elems s))) /\
  segment_rows k dv o s = map (fun p => (snd p, new_from_parts k o +w fst p)) (enumerate (Segment.elems s)).
Proof.
  intros (Hk & _ & _ & Ho & Hl) Hdv. assert (segment_rows k dv o s = map (fun p => (snd p, new_from_parts k o +w fst p)) (enumerate (Segment.elems s)) /\
    map (fun p => (snd p, new_from_parts k o +w fst p)) (enumerate (Segment.elems s)) = map (fun p => (snd p, new_from_parts k o + fst p)) (enumerate (Segment.elems s))) as [E1 E2].
  { unfold segment_rows. assert (Forall (fun p : Z * Z => 0 <= fst p < zlen (Segment.elems s)) (enumerate (Segment.elems s))) as Hf.
    { apply Forall_forall. intros [p x] Hp%enumerate_lookup. by apply get_opt_Some in Hp. }
    induction Hf as [|[p x] l Hp _ [IH1 IH2]]; [done|]. cbn [fst] in Hp. cbn [omap list_omap map fst snd]. rewrite no_deletions_contains by done. rewrite IH1, IH2.
    rewrite !new_from_parts_eq by (uok; lia). unwrap. split; [f_equal; f_equal; lia|done]. }
  split; [|done]. by rewrite E1, E2, enumerate_zip_range.
Qed.

(** A segment that keeps its ids and numbers its addresses consecutively. *)
Lemma consecutive_chunk k dv o s lo hi : segment_fits k o s -> dv_is_empty dv = true -> Segment.range s = Some (lo, hi) -> Segment.elems s <> [] ->
  let c := ((lo, hi), (s, Range_ (new_from_parts k o ..< new_from_parts k o +w zlen (Segment.elems s)))) in
  chunk_ok c /\ chunk_rows c ≡ₚ segment_rows k dv o s.
Proof.
  intros Hfit Hdv Hr Hne c. destruct (segment_rows_all k dv o s Hfit Hdv) as [Erows _]. destruct Hfit as (Hk & Hwf & Hnd & Ho & Hl).
  pose proof (range_bounds s Hwf) as Hb. rewrite Hr in Hb. destruct Hb as [Hb Hhi]. pose proof (zlen_nonneg (Segment.elems s)).
  assert (0 <= new_from_parts k o /\ new_from_parts k o + zlen (Segment.elems s) <= U64_MAX) as [Hsa Hsb] by (rewrite new_from_parts_eq by (uok; lia); uok; lia).
  unfold chunk_ok, chunk_rows, c. cbn [fst snd Segment.elems lo_of hi_of]. rewrite (wrap64_small (_ + _)) by (uok; lia).
  destruct (Segment.elems s) as [|x l] eqn:E; [done|]. rewrite <- E in *. rewrite Erows. split; [|done].
  split; [done|]. split; [unfold Segment.wf, range_ok; cbn [start end_]; lia|]. rewrite zlen_range_list by (cbn; lia). cbn [start end_]. split; [lia|].
  assert (lo <= x <= hi) as Hx by (rewrite Forall_forall in Hb; apply Hb; rewrite E; by left). split; [done|]. split; [lia|]. done.
Qed.

(** What the decomposition of a segment gives. *)
Definition chunk_of (rows : list (Z * Z)) (oc : option IndexChunk) : Prop :=
  match oc with None => rows = [] | Some c => chunk_ok c /\ chunk_rows c ≡ₚ rows end.

Lemma decompose_all_ok k dv o s : segment_fits k o s -> dv_is_empty dv = true ->
  exists oc, decompose_segment_no_deletions s (new_from_parts k o) = Ok oc /\ chunk_of (segment_rows k dv o s) oc.
Proof.
  intros Hfit Hdv. pose proof Hfit as (Hk & Hwf & Hnd & Ho & Hl). unfold decompose_segment_no_deletions, Segment.is_empty. rewrite seg_len_ok by done. mon.
  assert (exists oc, (if zlen (Segment.elems s) =? 0 then Ok None else ids ← Segment.iter s;
    build_chunk_from_pairs (map (fun p => (snd p, new_from_parts k o +w fst p)) (enumerate ids))) = Ok oc /\ chunk_of (segment_rows k dv o s) oc) as Hpairs.
  { destruct (Z.eqb_spec (zlen (Segment.elems s)) 0) as [E|E].
    - exists None. split; [done|]. cbn. unfold segment_rows. destruct (Segment.elems s) as [|x l]; [done|]. rewrite zlen_cons in E. pose proof (zlen_nonneg l). lia.
    - rewrite seg_iter_ok by done. mon. destruct (segment_rows_all k dv o s Hfit Hdv) as [_ <-].
      destruct (segment_rows_ok k dv o s Hfit) as [Hr Hnd']. by apply build_chunk_ok. }
  assert (forall lo hi, Segment.range s = Some (lo, hi) -> Segment.elems s <> [] ->
    chunk_of (segment_rows k dv o s) (Some ((lo, hi), (s, Range_ (new_from_parts k o ..< new_from_parts k o +w zlen (Segment.elems s)))))) as Hcons
    by (intros; by apply consecutive_chunk).
  destruct s as [r|r h|r b|r rs|a|a]; try exact Hpairs.
  - unfold range_is_empty. destruct (Z.ltb_spec (start r) (end_ r)) as [Hlt|Hge]; cbn [negb]; [|exact Hpairs]. eexists. split; [done|].
    destruct Hwf as (? & ? & ?). unwrap. cbn [Segment.elems Segment.range] in Hcons. rewrite zlen_range_list in Hcons by lia. apply Hcons.
    + unfold range_is_empty. rewrite (proj2 (Z.ltb_lt _ _)) by lia. cbn. by unwrap.
    + destruct r as [a b]. cbn [start end_] in *. by rewrite range_list_cons by lia.
  - destruct (Z.eqb_spec (zlen (Segment.elems (Ranges r rs))) 0) as [E|E]; cbn [negb]; [exact Hpairs|]. eexists. split; [done|].
    pose proof (range_bounds (Ranges r rs) Hwf) as Hb. destruct (Segment.range (Ranges r rs)) as [[lo hi]|].
    + by apply (Hcons lo hi); [|intros E'; rewrite E' in E].
    + by rewrite Hb in E.
Qed.

Lemma decompose_live_ok k dv o s : segment_fits k o s -> exists oc,
  decompose_segment_with_deletions s (new_from_parts k o) o dv = Ok oc /\ chunk_of (segment_rows k dv o s) oc.
Proof.
  intros Hfit. pose proof Hfit as (Hk & Hwf & Hnd & Ho & Hl). unfold decompose_segment_with_deletions. rewrite seg_iter_ok by done. mon.
  assert (omap (live_pair dv (new_from_parts k o) o) (enumerate (Segment.elems s)) = segment_rows k dv o s) as ->.
  { unfold segment_rows. assert (Forall (fun p : Z * Z => 0 <= fst p < zlen (Segment.elems s)) (enumerate (Segment.elems s))) as Hf.
    { apply Forall_forall. intros [p x] Hp%enumerate_lookup. by apply get_opt_Some in Hp. }
    induction Hf as [|[p x] l Hp _ IH]; [done|]. cbn [fst] in Hp. cbn [omap list_omap]. rewrite IH. unfold live_pair. cbn [fst snd].
    rewrite !new_from_parts_eq by (uok; lia). unwrap. rewrite Z.add_assoc. by destruct (dv_contains dv (o + p)). }
  destruct (segment_rows_ok k dv o s Hfit) as [Hr Hnd']. by apply build_chunk_ok.
Qed.

(** The segments of a sequence, laid out from [o]. *)
Fixpoint sequence_fits (k o : Z) (q : RowIdSequence) : Prop :=
  match q with [] => True | s :: q => segment_fits k o s /\ sequence_fits k (o + zlen (Segment.elems s)) q end.

Lemma decompose_loop_ok k dv o q : u32_ok k -> 0 <= o -> sequence_fits k o q -> exists cs,
  decompose_loop (dv_is_empty dv) dv q (new_from_parts k o) o = Ok cs /\ Forall chunk_ok cs /\ flat_map chunk_rows cs ≡ₚ sequence_rows k dv o q.
Proof.
  intros Hk. revert o. induction q as [|s q IH]; intros o Ho Hq; [by exists []|]. destruct Hq as [Hs Hq]. pose proof Hs as (_ & Hwf & _ & _ & Hl).
  cbn [decompose_loop sequence_rows]. rewrite seg_len_ok by done. mon. pose proof (zlen_nonneg (Segment.elems s)).
  assert (exists oc, (if dv_is_empty dv then decompose_segment_no_deletions s (new_from_parts k o)
    else decompose_segment_with_deletions s (new_from_parts k o) o dv) = Ok oc /\ chunk_of (segment_rows k dv o s) oc) as (oc & -> & Hoc).
  { destruct (dv_is_empty dv) eqn:E; [by apply decompose_all_ok|by apply decompose_live_ok]. }
  mon. destruct (IH (o + zlen (Segment.elems s))) as (cs & E & Hcs & Hrows); [lia|done|]. rewrite !new_from_parts_eq in * by (uok; lia). unwrap.
  rewrite <- Z.add_assoc, E. mon. destruct oc as [c|]; eexists; (split; [done|]).
  - destruct Hoc as [Hc Hr]. split; [by constructor|]. cbn [flat_map]. by rewrite Hr, Hrows.
  - cbn in Hoc. by rewrite Hoc.
Qed.

End Merged.

(** ** Grouping chunks *)

Definition members (r : RawIndexChunk) : list IndexChunk := match r with NonOverlapping c => [c] | Overlapping _ cs => cs end.

Definition raw_range (r : RawIndexChunk) : RangeInclusive := match r with NonOverlapping c => fst c | Overlapping range _ => range end.

(** A group is not empty and its range covers its members. *)
Definition raw_ok (r : RawIndexChunk) : Prop :=
  members r <> [] /\ Forall (fun c => fst (raw_range r) <= lo_of c /\ hi_of c <= snd (raw_range r)) (members r).

Definition separated (l : list RawIndexChunk) : Prop := StronglySorted (fun a b => snd (raw_range a) < fst (raw_range b)) l.

Lemma separated_snoc l r d : separated (l ++ [r]) -> fst (raw_range r) <= fst (raw_range d) ->
  (snd (raw_range r) < fst (raw_range d) -> separated (l ++ [r; d])) /\
  (fst (raw_range r) = fst (raw_range d) -> separated (l ++ [d])).
Proof.
  unfold separated. intros Hs Hle. pose proof (StronglySorted_app_1_l _ _ _ Hs) as Hl.
  assert (forall x, x ∈ l -> snd (raw_range x) < fst (raw_range r)) as Hx by (intros x Hx; apply (StronglySorted_app_1_elem_of _ _ _ x r Hs); [done|by left]).
  split; intros H.
  - apply StronglySorted_app_2; [|done|by repeat constructor]. intros x y Hx' Hy. specialize (Hx x Hx').
    rewrite !elem_of_cons, elem_of_nil in Hy. destruct Hy as [->|[->|[]]]; [done|lia].
  - apply StronglySorted_app_2; [|done|by repeat constructor]. intros x y Hx' ->%list_elem_of_singleton. specialize (Hx x Hx'). lia.
Qed.

(** The vectors of the loop when the last group is [r] and the ones before it are [l]. *)
Definition grouped (l : list RawIndexChunk) (r : RawIndexChunk) : list RawIndexChunk := match r with NonOverlapping _ => l ++ [r] | Overlapping _ _ => l end.
Definition pending (r : RawIndexChunk) : list IndexChunk := match r with NonOverlapping _ => [] | Overlapping _ cs => cs end.

Definition groups_of (out : list RawIndexChunk * RangeInclusive * list IndexChunk) : list RawIndexChunk :=
  let '(output, range, overlap) := out in match overlap with [] => output | _ => output ++ [Overlapping range overlap] end.

Lemma prep_loop_ok chunks l r cr : StronglySorted (fun a b => lo_of a <= lo_of b) chunks -> Forall (fun c => fst (raw_range r) <= lo_of c) chunks ->
  Forall raw_ok (l ++ [r]) -> separated (l ++ [r]) -> (match r with NonOverlapping _ => True | Overlapping range _ => cr = range end) ->
  exists out, prep_loop chunks (grouped l r) cr (pending r) = Ok out /\
    Forall raw_ok (groups_of out) /\ separated (groups_of out) /\ flat_map members (groups_of out) = flat_map members (l ++ [r]) ++ chunks.
Proof.
  revert l r cr. induction chunks as [|d chunks IH]; intros l r cr Hs Hlo Hok Hsep Hcr.
  - eexists. split; [done|]. rewrite app_nil_r. assert (groups_of (grouped l r, cr, pending r) = l ++ [r]) as ->; [|done].
    apply Forall_app in Hok as [_ [[Hne _] _]%Forall_cons]. destruct r as [c|range [|c cs]]; cbn; [done|done|]. by subst cr.
  - apply StronglySorted_cons in Hs as [Hd Hs]. apply Forall_cons in Hlo as [Hdlo Hlo]. pose proof Hok as [Hl [[Hne Hr] _]%Forall_cons]%Forall_app.
    pose proof (separated_snoc l r) as Hsn.
    assert (forall range', range' = (fst (raw_range r), Z.max (hi_of d) (snd (raw_range r))) -> exists out, prep_loop chunks l range' (members r ++ [d]) = Ok out /\
      Forall raw_ok (groups_of out) /\ separated (groups_of out) /\ flat_map members (groups_of out) = flat_map members (l ++ [r]) ++ d :: chunks) as Hjoin.
    { intros range' ->. set (r' := Overlapping (fst (raw_range r), Z.max (hi_of d) (snd (raw_range r))) (members r ++ [d])).
      destruct (IH l r' (raw_range r')) as (out & E & H1 & H2 & H3); [done|done| |by apply (Hsn r')|done|].
      - apply Forall_app. split; [done|]. constructor; [|done]. split; [by destruct (members r)|]. cbn. apply Forall_app. split.
        + eapply Forall_impl; [exact Hr|]. cbn. lia.
        + constructor; [|done]. lia.
      - exists out. split; [done|]. split; [done|]. split; [done|]. rewrite H3, !flat_map_app. cbn. by rewrite !app_nil_r, <- !app_assoc. }
    assert (forall cr', snd (raw_range r) < lo_of d -> exists out, prep_loop chunks (l ++ [r; NonOverlapping d]) cr' [] = Ok out /\
      Forall raw_ok (groups_of out) /\ separated (groups_of out) /\ flat_map members (groups_of out) = flat_map members (l ++ [r]) ++ d :: chunks) as Hnew.
    { intros cr' Hlt. destruct (IH (l ++ [r]) (NonOverlapping d) cr') as (out & E & H1 & H2 & H3); [done|done| | |done|].
      - apply Forall_app. split; [done|]. constructor; [|done]. split; [done|]. constructor; [|done]. unfold lo_of, hi_of. cbn. lia.
      - rewrite <- app_assoc. by apply (Hsn (NonOverlapping d)).
      - cbn [grouped pending] in E. rewrite <- app_assoc in E. exists out. split; [done|]. split; [done|]. split; [done|]. rewrite H3, flat_map_app. cbn. by rewrite <- app_assoc. }
    destruct r as [c|range cs]; cbn [grouped pending prep_loop members raw_range] in *.
    + rewrite last_snoc. mon. cbn [range_end]. change (fst (fst d)) with (lo_of d). destruct c as [crange csegs]. cbn [fst] in *.
      destruct (Z.leb_spec (lo_of d) (snd crange)) as [Hle|Hgt]; [rewrite removelast_last; by apply Hjoin|].
      rewrite <- app_assoc. by apply Hnew.
    + subst cr. destruct cs as [|c cs]; [done|]. change (fst (fst d)) with (lo_of d).
      destruct (Z.leb_spec (lo_of d) (snd range)) as [Hle|Hgt]; [by apply Hjoin|by apply Hnew].
Qed.

Lemma rev_sorted {A} (R : relation A) l : StronglySorted R l -> StronglySorted (flip R) (rev l).
Proof.
  induction 1 as [|x l _ IH Hx]; [constructor|]. cbn. apply StronglySorted_app_2; [|done|by repeat constructor].
  intros y z Hy ->%list_elem_of_singleton. rewrite <- (Permutation_rev l) in Hy. rewrite Forall_forall in Hx. by apply Hx.
Qed.

(** The groups keep every chunk; their ranges ascend without overlapping. *)
Lemma prep_index_chunks_ok chunks : exists raws, prep_index_chunks chunks = Ok raws /\
  Forall raw_ok raws /\ separated raws /\ flat_map members raws ≡ₚ chunks.
Proof.
  unfold prep_index_chunks. match goal with |- context [rev ?x] => set (l := x) end. assert (rev l ≡ₚ chunks) as Hp by (rewrite <- Permutation_rev; apply sort_by_key_perm).
  assert (StronglySorted (flip (fun a b : IndexChunk => U64_MAX - fst (fst a) <= U64_MAX - fst (fst b))) (rev l)) as Hs by (apply rev_sorted, sort_by_key_sorted).
  destruct (rev l) as [|c cs]; clear l.
  { exists []. split; [done|]. split; [done|]. split; [constructor|done]. }
  apply StronglySorted_cons in Hs as [Hc Hs]. destruct (prep_loop_ok cs [] (NonOverlapping c) (0, 0)) as ([[out cr] co] & E & H1 & H2 & H3).
  - clear - Hs. induction Hs as [|x l _ IH Hx]; constructor; [done|]. eapply Forall_impl; [exact Hx|]. unfold flip, lo_of. cbn. intros; lia.
  - eapply Forall_impl; [exact Hc|]. unfold flip, lo_of. cbn. intros; lia.
  - constructor; [|done]. split; [done|]. constructor; [|done]. unfold lo_of, hi_of. cbn. lia.
  - repeat constructor.
  - done.
  - cbn [grouped pending app] in E. rewrite E. mon. eexists. split; [done|]. change (match co with [] => out | _ => _ end) with (groups_of (out, cr, co)).
    by rewrite H3, <- Hp.
Qed.

(** ** Merging a group *)

Lemma windows_distinct (l : list (Z * Z)) : StronglySorted (fun a b => fst a <= fst b) l ->
  existsb (fun w => fst (fst w) =? fst (snd w)) (windows2 l) = false <-> NoDup (map fst l).
Proof.
  induction 1 as [|x l Hl IH Hx]; [split; [constructor|done]|]. destruct l as [|y l]; [split; [intros _; apply NoDup_singleton|done]|].
  change (windows2 (x :: y :: l)) with ((x, y) :: windows2 (y :: l)). cbn [existsb map fst snd]. rewrite orb_false_iff, IH, NoDup_cons, Z.eqb_neq.
  apply Forall_cons in Hx as [Hxy Hx]. apply StronglySorted_cons in Hl as [Hy _]. split.
  - intros [Hne Hnd]. split; [|done]. intros [Hin|Hin]%elem_of_cons; [done|]. apply list_elem_of_fmap in Hin as (z & Hz & Hin). rewrite Forall_forall in Hy.
    specialize (Hy z Hin). lia.
  - intros [Hin Hnd]. split; [|done]. intros E. apply Hin. rewrite E. by left.
Qed.

Lemma chunk_pairs_ok c : chunk_ok c -> chunk_pairs c = Ok (chunk_rows c).
Proof. intros (H1 & H2 & _). unfold chunk_pairs. rewrite !seg_iter_ok by done. done. Qed.

Lemma chunk_rows_ids c : chunk_ok c -> map fst (chunk_rows c) = Segment.elems (fst (snd c)).
Proof. intros (_ & _ & Hl & _). by apply map_fst_zip. Qed.

Lemma merge_chunks_ok cs : Forall chunk_ok cs -> cs <> [] -> rows_ok (flat_map chunk_rows cs) ->
  (NoDup (map fst (flat_map chunk_rows cs)) -> exists c, merge_overlapping_chunks cs = Ok c /\ chunk_ok c /\ chunk_rows c ≡ₚ flat_map chunk_rows cs /\
     lo_of c ∈ map fst (flat_map chunk_rows cs) /\ hi_of c ∈ map fst (flat_map chunk_rows cs)) /\
  (~ NoDup (map fst (flat_map chunk_rows cs)) -> merge_overlapping_chunks cs = Err Internal).
Proof.
  intros Hcs Hne Hr. unfold merge_overlapping_chunks. rewrite (map_res_ok chunk_pairs chunk_rows) by (eapply Forall_impl; [exact Hcs|]; apply chunk_pairs_ok). mon.
  rewrite <- List.flat_map_concat_map. set (rows := flat_map chunk_rows cs) in *. pose proof (sort_by_key_perm fst rows) as Hp.
  pose proof (sort_by_key_sorted fst rows) as Hs. pose proof (windows_distinct _ Hs) as Hw.
  assert (NoDup (map fst (sort_by_key fst rows)) <-> NoDup (map fst rows)) as Hd by (by rewrite Hp). rewrite Hd in Hw. split; intros Hnd.
  - rewrite (proj2 Hw Hnd). destruct (chunk_of_rows (sort_by_key fst rows)) as (ids & addrs & lo & hi & E1 & E2 & Er & Hc & Hrows & Hlo & Hhi);
      [by eapply rows_ok_perm|by rewrite Hp|done| |].
    { intros E. rewrite E in Hp. apply Permutation_nil_l in Hp. destruct cs as [|c cs]; [done|]. apply Forall_cons in Hcs as [Hc _].
      pose proof (chunk_rows_ids c Hc) as Hi. destruct Hc as (_ & _ & _ & Hn & _). cbn in Hp. destruct (chunk_rows c); [by rewrite <- Hi in Hn|done]. }
    rewrite E1. mon. rewrite E2. mon. rewrite Er. mon. exists ((lo, hi), (ids, addrs)). split; [done|]. split; [exact Hc|]. rewrite Hrows. rewrite Hp in Hlo, Hhi. done.
  - destruct (existsb _ _) eqn:E; [done|]. by destruct Hnd; apply Hw.
Qed.

Definition group_rows (r : RawIndexChunk) : list (Z * Z) := flat_map chunk_rows (members r).

Definition in_range (r : RangeInclusive) (c : IndexChunk) : Prop := fst r <= lo_of c /\ hi_of c <= snd r.

Lemma group_ids r v : raw_ok r -> Forall chunk_ok (members r) -> v ∈ map fst (group_rows r) -> fst (raw_range r) <= v <= snd (raw_range r).
Proof.
  intros [_ Hr] Hc Hv. unfold group_rows in Hv. apply list_elem_of_fmap in Hv as ([v' a] & -> & Hv). apply list_elem_of_In, in_flat_map in Hv as (c & Hin & Hv).
  apply list_elem_of_In in Hin, Hv. rewrite Forall_forall in Hr, Hc. specialize (Hr c Hin). specialize (Hc c Hin). cbn [fst].
  apply (list_elem_of_fmap_2 fst) in Hv. change (fst <$> chunk_rows c) with (map fst (chunk_rows c)) in Hv. rewrite chunk_rows_ids in Hv by done.
  destruct Hc as (_ & _ & _ & _ & _ & Hb & _). rewrite Forall_forall in Hb. specialize (Hb v' Hv). cbn in *. lia.
Qed.

Lemma finish_group r : raw_ok r -> Forall chunk_ok (members r) -> rows_ok (group_rows r) ->
  (exists c, finish_chunk r = Ok c /\ chunk_ok c /\ chunk_rows c ≡ₚ group_rows r /\ in_range (raw_range r) c /\ NoDup (map fst (group_rows r))) \/
  (finish_chunk r = Err Internal /\ ~ NoDup (map fst (group_rows r))).
Proof.
  intros Hr Hc Hrows. destruct r as [c|range cs].
  - left. exists c. pose proof Hr as [_ [Hin _]%Forall_cons]. apply Forall_cons in Hc as [Hc _]. unfold group_rows. cbn [members flat_map]. rewrite app_nil_r.
    do 4 (split; [done|]). rewrite chunk_rows_ids by done. by destruct Hc as (_ & _ & _ & _ & _ & _ & Hnd).
  - destruct (merge_chunks_ok cs Hc (proj1 Hr) Hrows) as [Hok Herr]. destruct (decide (NoDup (map fst (group_rows (Overlapping range cs))))) as [Hnd|Hnd]; [left|right].
    + destruct (Hok Hnd) as (c & E & Hc' & Hp & Hlo & Hhi). exists c. do 3 (split; [done|]). split; [|done].
      pose proof (group_ids _ _ Hr Hc Hlo). pose proof (group_ids _ _ Hr Hc Hhi). unfold in_range. lia.
    + split; [by apply Herr|done].
Qed.

Lemma rows_ok_app l1 l2 : rows_ok (l1 ++ l2) -> rows_ok l1 /\ rows_ok l2.
Proof.
  unfold rows_ok. rewrite !map_app, !Forall_app, NoDup_app, zlen_app. pose proof (zlen_nonneg l1). pose proof (zlen_nonneg l2). intros (? & ? & ? & ?). intuition lia.
Qed.

Lemma finish_chunks raws : Forall raw_ok raws -> separated raws -> Forall (fun r => Forall chunk_ok (members r)) raws -> rows_ok (flat_map group_rows raws) ->
  (exists finals, map_res finish_chunk raws = Ok finals /\ Forall chunk_ok finals /\ flat_map chunk_rows finals ≡ₚ flat_map group_rows raws /\
     Forall2 (fun r c => in_range (raw_range r) c) raws finals /\ NoDup (map fst (flat_map group_rows raws))) \/
  (map_res finish_chunk raws = Err Internal /\ ~ NoDup (map fst (flat_map group_rows raws))).
Proof.
  intros Hr Hs Hc. induction Hs as [|r raws Hs IH Hsep]; intros Hrows; [left; exists []; repeat split; constructor|].
  apply Forall_cons in Hr as [Hr Hraws]. apply Forall_cons in Hc as [Hc Hcs]. cbn [flat_map] in *. apply rows_ok_app in Hrows as [Hrows1 Hrows2]. rewrite map_app.
  cbn [map_res]. destruct (finish_group r Hr Hc Hrows1) as [(c & E & Hc' & Hp & Hin & Hnd)|[E Hnd]]; rewrite E; mon; [|right; split; [done|]; by intros [? _]%NoDup_app].
  destruct (IH Hraws Hcs Hrows2) as [(finals & E2 & Hf & Hp2 & Hin2 & Hnd2)|[E2 Hnd2]]; rewrite E2; mon; [|right; split; [done|]; by intros (_ & _ & ?)%NoDup_app].
  left. exists (c :: finals). split; [done|]. split; [by constructor|]. split; [cbn; by rewrite Hp, Hp2|]. split; [by constructor|].
  apply NoDup_app. split; [done|]. split; [|done]. intros v Hv1 Hv2. apply (group_ids r v Hr Hc) in Hv1.
  apply list_elem_of_fmap in Hv2 as (p & -> & Hv2). apply list_elem_of_In, in_flat_map in Hv2 as (r' & Hr' & Hv2). apply list_elem_of_In in Hr', Hv2.
  rewrite Forall_forall in Hsep, Hraws, Hcs. specialize (Hsep r' Hr'). apply (list_elem_of_fmap_2 fst) in Hv2.
  apply (group_ids r') in Hv2; [lia|by apply Hraws|by apply Hcs].
Qed.

(** ** Lookups in the merged map *)

Definition with_id (v : Z) (p : Z * Z) : bool := fst p =? v.

(** The addresses of an id among rows. *)
Definition row_addresses (v : Z) (rows : list (Z * Z)) : list Z := map snd (List.filter (with_id v) rows).

Lemma row_addresses_app v l1 l2 : row_addresses v (l1 ++ l2) = row_addresses v l1 ++ row_addresses v l2.
Proof. unfold row_addresses. by rewrite List.filter_app, map_app. Qed.

Lemma row_addresses_perm v l1 l2 : l1 ≡ₚ l2 -> row_addresses v l1 ≡ₚ row_addresses v l2.
Proof.
  intros H. unfold row_addresses. apply Permutation_map. induction H as [|x l1 l2 _ IH|x y l|l1 l2 l3 _ IH1 _ IH2]; cbn; [done| | |by etransitivity].
  - destruct (with_id v x); [by constructor|done].
  - destruct (with_id v x), (with_id v y); try done. apply Permutation_swap.
Qed.

Lemma row_addresses_cons v x a rows : row_addresses v ((x, a) :: rows) = if x =? v then a :: row_addresses v rows else row_addresses v rows.
Proof. unfold row_addresses. cbn [List.filter]. unfold with_id at 1. cbn [fst]. by destruct (x =? v). Qed.

Lemma row_addresses_none v rows : v ∉ map fst rows -> row_addresses v rows = [].
Proof.
  induction rows as [|[x a] rows IH]; [done|]. cbn [map fst]. intros [Hx Hv]%not_elem_of_cons. rewrite row_addresses_cons, (proj2 (Z.eqb_neq x v)) by done. by apply IH.
Qed.

(** With distinct ids there is at most one address. *)
Lemma row_addresses_once v rows : NoDup (map fst rows) -> lookup_result (row_addresses v rows) = Ok (head (row_addresses v rows)).
Proof.
  induction rows as [|[x a] rows IH]; [done|]. cbn [map fst]. intros [Hx Hnd]%NoDup_cons. rewrite row_addresses_cons.
  destruct (Z.eqb_spec x v) as [->|Hne]; [|by apply IH]. by rewrite row_addresses_none.
Qed.

Lemma row_addresses_twice rows : ~ NoDup (map fst rows) -> exists v, v ∈ map fst rows /\ lookup_result (row_addresses v rows) = Err Internal.
Proof.
  induction rows as [|[x a] rows IH]; cbn [map fst]; intros Hnd; [by destruct Hnd; constructor|]. destruct (decide (x ∈ map fst rows)) as [Hx|Hx].
  - exists x. split; [by left|]. rewrite row_addresses_cons, Z.eqb_refl. destruct (row_addresses x rows) as [|b l] eqn:E; [|done]. exfalso.
    apply list_elem_of_fmap in Hx as ([x' b] & -> & Hin). assert (b ∈ row_addresses x' rows) as Hb; [|cbn in E; rewrite E in Hb; by apply elem_of_nil in Hb].
    unfold row_addresses. apply (list_elem_of_fmap_2 snd _ (x', b)), elem_of_filterb. split; [done|]. apply Z.eqb_refl.
  - destruct IH as (v & Hv & Hr); [intros Hnd'; apply Hnd; by constructor|]. exists v. split; [by right|]. rewrite row_addresses_cons.
    destruct (Z.eqb_spec x v) as [->|Hne]; done.
Qed.

Lemma row_addresses_zip v (ids addrs : list Z) : zlen ids = zlen addrs -> NoDup ids ->
  row_addresses v (zip ids addrs) = match index_of v ids with Some p => option_list (get_opt addrs p) | None => [] end.
Proof.
  intros Hl Hnd. destruct (index_of v ids) as [p|] eqn:E; [|apply row_addresses_none; rewrite map_fst_zip by done; by apply index_of_None].
  apply index_of_Some in E as Hp; [|done]. clear E. revert p addrs Hl Hp. induction ids as [|x ids IH]; intros p addrs Hl Hp; [by apply get_opt_Some in Hp; change (zlen (@nil Z)) with 0 in Hp; lia|].
  destruct addrs as [|a addrs]; [rewrite zlen_cons in Hl; change (zlen (@nil Z)) with 0 in Hl; pose proof (zlen_nonneg ids); lia|].
  apply NoDup_cons in Hnd as [Hx Hnd]. rewrite !zlen_cons in Hl. cbn [zip zip_with]. rewrite row_addresses_cons, get_opt_cons. rewrite get_opt_cons in Hp.
  destruct (Z.eqb_spec p 0) as [->|Hp0].
  - injection Hp as ->. rewrite Z.eqb_refl, row_addresses_none; [done|]. by rewrite map_fst_zip by lia.
  - assert (v ∈ ids) as Hin by (apply elem_of_get_opt; eauto). rewrite (proj2 (Z.eqb_neq x v)) by (by intros ->). apply IH; [done|lia|done].
Qed.

Section Lookup.
Context {RB : Roaring} {RL : RoaringLaws RB} {RM : RangeMaps (U64Segment * U64Segment)} {RML : RangeMapsLaws RM}.

(** Chunks whose ranges ascend without overlapping. *)
Definition chunks_ascending (cs : list IndexChunk) : Prop := StronglySorted (fun a b => hi_of a < lo_of b) cs.

Lemma finals_ascending raws finals : separated raws -> Forall2 (fun r c => in_range (raw_range r) c) raws finals -> chunks_ascending finals.
Proof.
  intros Hs Hf. induction Hf as [|r c raws finals Hc Hf IH]; [constructor|]. apply StronglySorted_cons in Hs as [Hr Hs]. constructor; [by apply IH|].
  apply Forall_forall. intros d Hd. apply list_elem_of_lookup in Hd as [i Hd]. destruct (Forall2_lookup_r _ _ _ _ _ Hf Hd) as (r' & Hr' & Hin).
  rewrite Forall_forall in Hr. specialize (Hr r' (list_elem_of_lookup_2 _ _ _ Hr')). unfold in_range in *. cbn in Hr. lia.
Qed.

Lemma ascending_disjoint cs : chunks_ascending cs -> Forall chunk_ok cs -> disjoint_ranges cs.
Proof.
  induction 1 as [|c cs _ IH Hc]; [done|]. intros [Hok Hcs]%Forall_cons. cbn. destruct Hok as (_ & _ & _ & _ & Hle & _). split; [done|]. split; [|by apply IH].
  eapply Forall_impl; [exact Hc|]. intros d Hd. left. exact Hd.
Qed.

Lemma outside_chunk v c : chunk_ok c -> v < lo_of c \/ hi_of c < v -> row_addresses v (chunk_rows c) = [].
Proof.
  intros Hc Hv. apply row_addresses_none. rewrite chunk_rows_ids by done. intros Hin. destruct Hc as (_ & _ & _ & _ & _ & Hb & _).
  rewrite Forall_forall in Hb. specialize (Hb v Hin). cbn in Hb. lia.
Qed.

Lemma chunk_lookup v c : chunk_ok c -> u64_ok v ->
  (pos ← Segment.position (fst (snd c)) v; match pos with None => Ok None | Some pos => Segment.get (snd (snd c)) pos end) = Ok (head (row_addresses v (chunk_rows c))).
Proof.
  intros (H1 & H2 & Hl & _ & _ & _ & Hnd) Hv. rewrite seg_position_ok by done. mon. unfold chunk_rows. rewrite row_addresses_zip by done.
  destruct (index_of v (Segment.elems (fst (snd c)))) as [p|] eqn:E; [|done]. apply index_of_Some, get_opt_Some in E; [|done].
  rewrite seg_get_ok; [by destruct (get_opt _ p)|done|]. pose proof (zlen_elems_le _ H1). uok. lia.
Qed.

Lemma merged_get_ok cs v : chunks_ascending cs -> Forall chunk_ok cs -> u64_ok v ->
  merged_get (rm_from_iter cs) v = Ok (head (row_addresses v (flat_map chunk_rows cs))).
Proof.
  intros Hs Hc Hv. unfold merged_get. rewrite rm_get_from_iter by (by apply ascending_disjoint). unfold find_range.
  induction Hs as [|c cs Hs IH Hlt]; [done|]. apply Forall_cons in Hc as [Hok Hc]. specialize (IH Hc). cbn [List.find flat_map]. rewrite row_addresses_app.
  destruct (incl_contains (fst c) v) eqn:E.
  - cbn. pose proof (chunk_lookup v c Hok Hv) as Hl. destruct c as [rg [ids addrs]]. cbn [fst snd] in *. rewrite Hl. do 2 f_equal.
    assert (row_addresses v (flat_map chunk_rows cs) = []) as ->; [|by rewrite app_nil_r]. clear IH Hl. induction Hlt as [|d cs Hd _ IH]; [done|].
    apply Forall_cons in Hc as [Hokd Hc]. apply StronglySorted_cons in Hs as [_ Hs]. cbn [flat_map]. rewrite row_addresses_app, outside_chunk, IH; [done|done..|].
    left. unfold incl_contains in E. apply andb_true_iff in E as [_ E%Z.leb_le]. unfold hi_of in Hd. cbn in Hd. lia.
  - rewrite outside_chunk; [exact IH|done|]. unfold incl_contains in E. apply andb_false_iff in E. rewrite !Z.leb_gt in E. exact E.
Qed.

(** ** Live rows and live addresses *)

Lemma row_addresses_in v a rows : NoDup (map fst rows) -> (v, a) ∈ rows -> row_addresses v rows = [a].
Proof.
  induction rows as [|[x b] rows IH]; [by intros _ ?%elem_of_nil|]. cbn [map fst]. intros [Hx Hnd]%NoDup_cons Hin. rewrite row_addresses_cons.
  apply elem_of_cons in Hin as [[= -> ->]|Hin]; [by rewrite Z.eqb_refl, row_addresses_none|].
  rewrite (proj2 (Z.eqb_neq x v)); [by apply IH|]. intros ->. apply Hx. by apply (list_elem_of_fmap_2 fst _ (v, a)).
Qed.

Lemma segment_addresses k dv o s v : NoDup (Segment.elems s) -> option_list (segment_address k dv o s v) = row_addresses v (segment_rows k dv o s).
Proof.
  intros Hnd. assert (NoDup (map fst (segment_rows k dv o s))) as Hnd' by (eapply sublist_NoDup; [apply segment_rows_ids|done]).
  assert (forall p, index_of v (Segment.elems s) = Some p -> forall p', get_opt (Segment.elems s) p' = Some v -> p' = p) as Huniq.
  { intros p Hp p' Hp'. apply index_of_Some in Hp; [|done]. exact (get_opt_inj _ _ _ _ Hnd Hp' Hp). }
  unfold segment_address. destruct (index_of v (Segment.elems s)) as [p|] eqn:E.
  - destruct (dv_contains dv (o + p)) eqn:Ed.
    + symmetry. apply row_addresses_none. intros ([v' a] & -> & Hin)%list_elem_of_fmap. apply segment_rows_elem in Hin as (p' & Hp' & Hd & _).
      cbn in Huniq. rewrite (Huniq p eq_refl p' Hp') in Hd. congruence.
    + symmetry. apply row_addresses_in; [done|]. apply segment_rows_elem. exists p. split; [apply (index_of_Some _ _ _ Hnd), E|done].
  - symmetry. apply row_addresses_none. intros ([v' a] & -> & Hin)%list_elem_of_fmap. apply segment_rows_elem in Hin as (p' & Hp' & _).
    apply index_of_None in E. apply E. apply elem_of_get_opt. eauto.
Qed.

(** Fragments whose segments hold no id twice. *)
Definition distinct_ids (f : FragmentRowIdIndex) : Prop := Forall (fun s => NoDup (Segment.elems s)) (row_id_sequence f).

Lemma sequence_addresses_rows k dv o q v : Forall (fun s => NoDup (Segment.elems s)) q -> sequence_addresses k dv o q v = row_addresses v (sequence_rows k dv o q).
Proof.
  intros Hq. revert o. induction Hq as [|s q Hs _ IH]; intros o; [done|]. cbn [sequence_addresses sequence_rows]. rewrite row_addresses_app, IH. f_equal.
  by apply segment_addresses.
Qed.

Lemma live_addresses_rows sources v : Forall distinct_ids sources -> live_addresses sources v = row_addresses v (live_rows sources).
Proof.
  unfold live_addresses, live_rows. induction 1 as [|f sources Hf _ IH]; [done|]. cbn [flat_map]. rewrite row_addresses_app, IH. f_equal.
  by apply sequence_addresses_rows.
Qed.

Lemma source_fits k o q : u32_ok k -> 0 <= o -> Forall Segment.wf q -> Forall (fun s => NoDup (Segment.elems s)) q -> o + zlen (Sequence.elems q) <= U32_MAX -> sequence_fits k o q.
Proof.
  intros Hk Ho Hwf Hnd. revert o Ho. induction Hwf as [|s q Hs Hq IH]; intros o Ho Hl; [done|]. apply Forall_cons in Hnd as [Hd Hnd].
  rewrite Sequence.elems_cons, zlen_app in Hl. pose proof (zlen_nonneg (Segment.elems s)). pose proof (zlen_nonneg (Sequence.elems q)).
  split; [|apply IH; [done|lia|lia]]. do 4 (split; [done|]). lia.
Qed.

Lemma sequence_rows_addresses k dv o q : u32_ok k -> 0 <= o -> o + zlen (Sequence.elems q) <= U32_MAX ->
  ssorted (map snd (sequence_rows k dv o q)) /\ Forall (fun a => new_from_parts k o <= a < new_from_parts k o + zlen (Sequence.elems q)) (map snd (sequence_rows k dv o q)).
Proof.
  intros Hk. revert o. induction q as [|s q IH]; intros o Ho Hl; [split; constructor|]. rewrite Sequence.elems_cons, zlen_app in *. cbn [sequence_rows]. rewrite map_app.
  pose proof (zlen_nonneg (Segment.elems s)). pose proof (zlen_nonneg (Sequence.elems q)).
  destruct (segment_rows_addresses k dv o s) as [Hs Hb]; [done|lia|lia|]. destruct (IH (o + zlen (Segment.elems s))) as [Hq Hc]; [lia|lia|].
  rewrite !new_from_parts_eq in * by (uok; lia). split; [apply ssorted_app; split; [done|]; split; [done|]|apply Forall_app; split].
  - intros x y Hx Hy. rewrite Forall_forall in Hb, Hc. specialize (Hb x Hx). specialize (Hc y Hy). cbn in *. lia.
  - eapply Forall_impl; [exact Hb|]. cbn. lia.
  - eapply Forall_impl; [exact Hc|]. cbn. lia.
Qed.

(** ** The index *)

(** Fragments an index can be built from: their rows fit in memory. *)
Definition sources_ok (sources : list FragmentRowIdIndex) : Prop :=
  Forall source_ok sources /\ Forall distinct_ids sources /\ NoDup (map fragment_id sources) /\
  zlen (flat_map (fun f => Sequence.elems (row_id_sequence f)) sources) <= VEC64_MAX.

Lemma source_rows_ok f : source_ok f -> distinct_ids f -> sequence_fits (fragment_id f) 0 (row_id_sequence f) /\
  ssorted (map snd (source_rows f)) /\ Forall (fun a => u64_ok a /\ RowAddress.fragment_id a = fragment_id f) (map snd (source_rows f)).
Proof.
  intros (Hk & Hwf & Hl) Hd. split; [apply source_fits; done || lia|]. destruct (sequence_rows_addresses (fragment_id f) (deletion_vector f) 0 (row_id_sequence f)) as [Hs Hb]; [done|lia|lia|].
  split; [done|]. eapply Forall_impl; [exact Hb|]. cbn. intros a Ha. rewrite new_from_parts_eq in Ha by (uok; lia).
  replace a with (new_from_parts (fragment_id f) (a - fragment_id f * 4294967296)) by (rewrite new_from_parts_eq by (uok; lia); lia).
  rewrite fragment_id_parts by (uok; lia). split; [|done]. rewrite new_from_parts_eq by (uok; lia). uok. lia.
Qed.

Lemma sequence_rows_ids k dv o q : map fst (sequence_rows k dv o q) `sublist_of` Sequence.elems q.
Proof.
  revert o. induction q as [|s q IH]; intros o; [done|]. cbn [sequence_rows]. rewrite map_app, Sequence.elems_cons. by apply sublist_app; [apply segment_rows_ids|].
Qed.

Lemma zlen_live_rows sources : zlen (live_rows sources) <= zlen (flat_map (fun f => Sequence.elems (row_id_sequence f)) sources).
Proof.
  unfold live_rows. induction sources as [|f sources IH]; [done|]. cbn [flat_map]. rewrite !zlen_app. enough (zlen (source_rows f) <= zlen (Sequence.elems (row_id_sequence f))) by lia.
  rewrite <- (zlen_map fst). unfold zlen. pose proof (sublist_length _ _ (sequence_rows_ids (fragment_id f) (deletion_vector f) 0 (row_id_sequence f))). unfold source_rows. lia.
Qed.

Lemma live_rows_ok sources : sources_ok sources -> rows_ok (live_rows sources).
Proof.
  intros (Hs & Hd & Hf & Hl). pose proof (zlen_live_rows sources) as Hz. unfold live_rows, rows_ok in *. split; [|split; [|split; [|lia]]]; clear Hz Hl.
  - clear Hd Hf. induction Hs as [|f sources Hf Hs IH]; [constructor|]. cbn [flat_map]. rewrite map_app. apply Forall_app. split; [|done].
    destruct Hf as (_ & Hwf & _). apply Forall_forall. intros v Hv. pose proof (sequence_rows_ids (fragment_id f) (deletion_vector f) 0 (row_id_sequence f)) as Hsub.
    apply (elem_of_sublist _ _ _ Hv) in Hsub. pose proof (seq_elems_u64 _ Hwf) as Hu. rewrite Forall_forall in Hu. auto.
  - clear Hf. induction Hs as [|f sources Hf Hs IH]; [constructor|]. apply Forall_cons in Hd as [Hdf Hd]. cbn [flat_map]. rewrite map_app. apply Forall_app. split; [|by apply IH].
    destruct (source_rows_ok f Hf Hdf) as (_ & _ & Ha). eapply Forall_impl; [exact Ha|]. by intros a [? _].
  - induction Hs as [|f sources Hf0 Hs IH]; [constructor|]. apply Forall_cons in Hd as [Hdf Hd]. cbn [map] in Hf. apply NoDup_cons in Hf as [Hnew Hf].
    cbn [flat_map]. rewrite map_app. destruct (source_rows_ok f Hf0 Hdf) as (_ & Hsort & Ha). apply NoDup_app. split; [by apply ssorted_NoDup|]. split; [|by apply IH].
    intros a Ha1 Ha2. rewrite Forall_forall in Ha. destruct (Ha a Ha1) as [_ E1]. apply list_elem_of_fmap in Ha2 as (p & -> & Hp).
    apply list_elem_of_In, in_flat_map in Hp as (g & Hg & Hp). apply list_elem_of_In in Hg, Hp. rewrite Forall_forall in Hs, Hd.
    destruct (source_rows_ok g (Hs g Hg) (Hd g Hg)) as (_ & _ & Hb). rewrite Forall_forall in Hb. apply (list_elem_of_fmap_2 snd) in Hp. destruct (Hb _ Hp) as [_ E2].
    apply Hnew. rewrite <- E1, E2. by apply (list_elem_of_fmap_2 fragment_id).
Qed.

(** Building the merged map reports an id that is live twice and only then fails. *)
Lemma build_merged_ok fs kept : Forall2 fragment_ok fs kept -> sources_ok kept ->
  (exists m, build_merged fs = Ok m /\ NoDup (map fst (live_rows kept)) /\
     forall v, u64_ok v -> merged_get m v = Ok (head (row_addresses v (live_rows kept))) ) \/
  (build_merged fs = Err Internal /\ ~ NoDup (map fst (live_rows kept))).
Proof.
  intros Hfs Hk. pose proof (live_rows_ok kept Hk) as Hrows. destruct Hk as (Hs & Hd & _ & _). unfold build_merged.
  assert (map (fun entry => mkSource (fe_fragment_id entry) (fe_sequence entry) (fe_deletion_vector entry)) fs = kept) as ->.
  { clear - Hfs. induction Hfs as [|f src fs kept (H1 & H2 & H3 & _) _ IH]; [done|]. cbn [map]. rewrite IH, H1, H2, H3. by destruct src. }
  assert (exists css, map_res decompose_sequence kept = Ok css /\ Forall chunk_ok (concat css) /\ flat_map chunk_rows (concat css) ≡ₚ live_rows kept) as (css & -> & Hcs & Hp).
  { clear Hrows Hfs. induction Hs as [|f kept Hf Hs IH]; [by exists []|]. apply Forall_cons in Hd as [Hdf Hd]. destruct (IH Hd) as (css & E & Hcs & Hp).
    destruct (source_rows_ok f Hf Hdf) as (Hfit & _). destruct (decompose_loop_ok (fragment_id f) (deletion_vector f) 0 (row_id_sequence f)) as (cs & E1 & Hc1 & Hp1); [apply Hf|lia|done|].
    exists (cs :: css). cbn [map_res]. change (decompose_sequence f) with (decompose_loop (dv_is_empty (deletion_vector f)) (deletion_vector f) (row_id_sequence f) (new_from_parts (fragment_id f) 0) 0).
    rewrite E1. mon. rewrite E. mon. split; [done|]. cbn [concat].
    split; [by apply Forall_app|]. rewrite flat_map_app, Hp1, Hp. done. }
  mon. destruct (prep_index_chunks_ok (concat css)) as (raws & -> & Hraw & Hsep & Hmem). mon.
  assert (flat_map group_rows raws ≡ₚ live_rows kept) as Hg.
  { rewrite <- Hp, <- Hmem. unfold group_rows. clear. induction raws as [|r raws IH]; [done|]. cbn. by rewrite flat_map_app, IH. }
  assert (Forall (fun r => Forall chunk_ok (members r)) raws) as Hm.
  { rewrite <- Hmem in Hcs. clear - Hcs. induction raws as [|r raws IH]; [constructor|]. cbn in Hcs. apply Forall_app in Hcs as [? ?]. constructor; [done|by apply IH]. }
  assert (NoDup (map fst (flat_map group_rows raws)) <-> NoDup (map fst (live_rows kept))) as Hnd by (by rewrite Hg).
  destruct (finish_chunks raws Hraw Hsep Hm) as [(finals & -> & Hf & Hpf & Hin & Hn)|[-> Hn]]; [by eapply rows_ok_perm|..]; mon.
  - left. eexists. split; [done|]. split; [by apply Hnd|]. intros v Hv. rewrite merged_get_ok by (done || by eapply finals_ascending).
    pose proof (row_addresses_perm v _ _ (Permutation_trans Hpf Hg)) as Hpa. apply lookup_result_perm in Hpa as El.
    rewrite !row_addresses_once in El by (by apply Hnd || by rewrite Hpf). by injection El as ->.
  - right. split; [done|]. by rewrite <- Hnd.
Qed.

Lemma sublist_map {A B} (f : A -> B) l1 l2 : l1 `sublist_of` l2 -> map f l1 `sublist_of` map f l2.
Proof. induction 1; cbn; by constructor. Qed.

Lemma sublist_flat_len {A B} (f : A -> list B) l1 l2 : l1 `sublist_of` l2 -> zlen (flat_map f l1) <= zlen (flat_map f l2).
Proof. induction 1 as [|x l1 l2 _ IH|x l1 l2 _ IH]; cbn; [done|rewrite !zlen_app; lia|]. rewrite zlen_app. pose proof (zlen_nonneg (f x)). lia. Qed.

(** What [new] gives: an index over the fragments with row ids, in one of its two representations, or the report of an id that is live twice. *)
Lemma new_ok sources : sources_ok sources -> zlen sources <= U32_MAX ->
  (exists index kept, new sources = Ok index /\ probe_index_ok (probe_index index) kept /\
     (forall v, live_addresses kept v = live_addresses sources v) /\
     forall v m, merged index = Some m -> u64_ok v ->
       merged_get m v = lookup_result (live_addresses sources v) /\ merged_get m v = Ok (head (live_addresses sources v))) \/
  (new sources = Err Internal /\ exists v, u64_ok v /\ lookup_result (live_addresses sources v) = Err Internal).
Proof.
  intros (Hs & Hd & Hf & Hl) Hn. destruct (probing_ok sources Hs Hn) as (index & kept & E & Hok & Hsub & Hlive). unfold new. rewrite E. mon.
  assert (sources_ok kept) as Hk.
  { split; [by apply (pi_sources _ _ Hok)|]. split; [by eapply Forall_sublist_of|].
    split; [eapply sublist_NoDup; [by apply sublist_map|done]|]. etransitivity; [by apply sublist_flat_len|done]. }
  destruct (probing_beats_merging _ _); cbn [negb].
  { left. exists (mkIndex index None), kept. split; [done|]. split; [done|]. split; [done|]. intros v m Hm. done. }
  destruct (build_merged_ok _ _ (pi_fragments _ _ Hok) Hk) as [(m & -> & Hnd & Hget)|[-> Hnd]]; mon.
  - left. exists (mkIndex index (Some m)), kept. split; [done|]. split; [done|]. split; [done|]. intros v m' [= <-] Hv. rewrite Hget by done.
    rewrite <- Hlive, live_addresses_rows by apply Hk. by rewrite row_addresses_once.
  - right. split; [done|]. destruct (row_addresses_twice _ Hnd) as (v & Hv & Ev). exists v. split.
    + destruct (live_rows_ok kept Hk) as [Hu _]. rewrite Forall_forall in Hu. auto.
    + by rewrite <- Hlive, live_addresses_rows by apply Hk.
Qed.

(** C6: building the row-id index over fragments whose segments hold no id
    twice ends in an index that answers every lookup with the live address of
    the id, whether it keeps the probe tree or the merged map, or in an error,
    and then some id is indeed live in two rows; the merged map never hides one
    of two live rows. *)
Theorem row_id_index_lookup sources : sources_ok sources -> zlen sources <= U32_MAX ->
  (exists index, new sources = Ok index /\ forall v, u64_ok v -> get index v = lookup_result (live_addresses sources v)) \/
  (new sources = Err Internal /\ exists v, u64_ok v /\ lookup_result (live_addresses sources v) = Err Internal).
Proof.
  intros Hs Hn. destruct (new_ok sources Hs Hn) as [(index & kept & E & Hok & Hlive & Hm)|H]; [left|by right]. exists index. split; [done|]. intros v Hv.
  unfold get. destruct (merged index) as [m|] eqn:Em; [by apply Hm|]. rewrite <- Hlive. by apply probe_ok.
Qed.

End Lookup.

(** ** A range map *)

(** A list of ranges is a range map: what does not fit after the ranges kept so far is left out. *)
Module ListRangeMaps.
Section ListRangeMaps.
Context {V : Type}.

Fixpoint keep_ascending (last : option Z) (l : list (RangeInclusive * V)) : list (RangeInclusive * V) :=
  match l with
  | [] => []
  | c :: l =>
      if (fst (fst c) <=? snd (fst c)) && match last with Some e => e <? fst (fst c) | None => true end
      then c :: keep_ascending (Some (snd (fst c))) l else keep_ascending last l
  end.

Definition normalise (l : list (RangeInclusive * V)) : list (RangeInclusive * V) := keep_ascending None (sort_by_key (fun c => fst (fst c)) l).

Lemma keep_ascending_ok last l : ascending_ranges (keep_ascending last l) /\ Forall (fun c => match last with Some e => e < fst (fst c) | None => True end) (keep_ascending last l).
Proof.
  revert last. induction l as [|c l IH]; intros last; [done|]. cbn [keep_ascending]. destruct (Z.leb_spec (fst (fst c)) (snd (fst c))) as [H1|H1]; cbn [andb]; [|apply IH].
  destruct (match last with Some e => e <? fst (fst c) | None => true end) eqn:E; [|apply IH]. destruct (IH (Some (snd (fst c)))) as [Ha Hf]. split; [done|].
  assert (match last with Some e => e < fst (fst c) | None => True end) as Hl by (destruct last; [by apply Z.ltb_lt|done]). constructor; [done|].
  eapply Forall_impl; [exact Hf|]. intros d Hd. cbn in Hd. destruct last; [|done]. cbn in Hl. eapply Z.lt_trans; [exact Hl|]. eapply Z.le_lt_trans; [exact H1|exact Hd].
Qed.

Lemma disjoint_perm (l l' : list (RangeInclusive * V)) : l ≡ₚ l' -> disjoint_ranges l -> disjoint_ranges l'.
Proof.
  induction 1 as [|x l l' Hp IH|x y l|l1 l2 l3 _ IH1 _ IH2]; [done| | |auto].
  - cbn. intros (H1 & H2 & H3). split; [done|]. split; [by rewrite <- Hp|auto].
  - cbn. intros (H1 & [H2 H3]%Forall_cons & H4 & H5 & H6). split; [done|]. split; [constructor; [tauto|done]|done].
Qed.

Lemma disjoint_nonreversed (l : list (RangeInclusive * V)) c : disjoint_ranges l -> c ∈ l -> fst (fst c) <= snd (fst c).
Proof. induction l as [|d l IH]; [by intros _ ?%elem_of_nil|]. cbn. intros (H1 & _ & H3) [->|Hin]%elem_of_cons; [done|by apply IH]. Qed.

Lemma keep_sorted last l : StronglySorted (fun a b => fst (fst a) <= fst (fst b)) l -> disjoint_ranges l ->
  Forall (fun c => match last with Some e => e < fst (fst c) | None => True end) l -> keep_ascending last l = l.
Proof.
  intros Hs. revert last. induction Hs as [|c l _ IH Hc]; intros last Hd Hf; [done|]. cbn in Hd. destruct Hd as (H1 & H2 & H3). apply Forall_cons in Hf as [Hl Hf].
  assert (keep_ascending (Some (snd (fst c))) l = l) as Hnext.
  { apply IH; [done|]. rewrite Forall_forall in *. intros d Hd. specialize (H2 d Hd). specialize (Hc d Hd). cbn in Hc. destruct H2 as [H2|H2]; [exact H2|].
    pose proof (disjoint_nonreversed l d H3 Hd) as Hr. unfold RangeInclusive in *. lia. }
  cbn [keep_ascending]. rewrite (proj2 (Z.leb_le _ _)) by done. destruct last as [e|]; [rewrite (proj2 (Z.ltb_lt _ _)) by exact Hl|]; cbn [andb]; f_equal; exact Hnext.
Qed.

Lemma find_disjoint (l : list (RangeInclusive * V)) k v : disjoint_ranges l -> find_range l k = Some v <-> exists c, c ∈ l /\ incl_contains (fst c) k = true /\ snd c = v.
Proof.
  unfold find_range. induction l as [|d l IH]; [intros _; split; [done|by intros (c & ?%elem_of_nil & _)]|]. cbn. intros (H1 & H2 & H3). specialize (IH H3).
  destruct (incl_contains (fst d) k) eqn:E; cbn.
  - split; [intros [= <-]; exists d; split; [by left|done]|]. intros (c & [->|Hin]%elem_of_cons & Hc & <-); [done|]. exfalso. rewrite Forall_forall in H2. specialize (H2 c Hin).
    unfold incl_contains in E, Hc. apply andb_true_iff in E as [E1%Z.leb_le E2%Z.leb_le]. apply andb_true_iff in Hc as [Hc1%Z.leb_le Hc2%Z.leb_le]. unfold RangeInclusive in *. destruct H2; lia.
  - rewrite IH. split; intros (c & Hin & Hc & Hv); exists c; [split; [by right|done]|]. apply elem_of_cons in Hin as [->|Hin]; [congruence|done].
Qed.

Definition ListRangeMaps : RangeMaps V := {|
  range_map := list (RangeInclusive * V);
  rm_from_iter l := l;
  rm_get m k := find_range (normalise m) k;
  rm_iter := normalise
|}.

Lemma ListRangeMaps_laws : RangeMapsLaws ListRangeMaps.
Proof.
  split; cbn [ListRangeMaps rm_from_iter rm_get rm_iter]; [|done|intros m; apply keep_ascending_ok].
  intros l k Hd. pose proof (sort_by_key_perm (fun c : RangeInclusive * V => fst (fst c)) l) as Hp. unfold normalise.
  pose proof (disjoint_perm _ _ (symmetry Hp) Hd) as Hd'.
  rewrite keep_sorted; [|apply sort_by_key_sorted|done|by apply Forall_forall]. apply option_eq. intros v. rewrite !find_disjoint by done. by setoid_rewrite Hp.
Defined.

End ListRangeMaps.
End ListRangeMaps.

(** ** Examples *)

Module RowIdMergedExamples.

#[local] Existing Instances CofiniteRoaring CofiniteRoaring_laws ListRangeMaps.ListRangeMaps.
Import RowIdProbeExamples.

Lemma interleaved_sources : sources_ok interleaved.
Proof.
  split; [apply interleaved_ok|]. split; [|split; [|vm_compute; done]].
  - constructor; [constructor; [|constructor; [|constructor]]|constructor; [constructor; [|constructor]|constructor]];
      apply (bool_decide_unpack (NoDup _)); vm_compute; done.
  - apply (bool_decide_unpack (NoDup _)). vm_compute. done.
Qed.

Lemma row_id_index_lookup_witness : exists index, new interleaved = Ok index /\ get index 20 = Ok (Some (new_from_parts 9 1)) /\ get index 40 = Ok (Some (new_from_parts 3 5)).
Proof.
  assert (match new interleaved with Err _ => False | _ => True end) as Hok by (vm_compute; done).
  destruct (@row_id_index_lookup _ _ _ ListRangeMaps.ListRangeMaps_laws interleaved interleaved_sources) as [(index & E & H)|[E _]]; [vm_compute; discriminate| |rewrite E in Hok; destruct Hok].
  exists index. split; [exact E|]. rewrite !H by (uok; lia). split; vm_compute; reflexivity.
Defined.

(** An id that is live in two fragments. *)
Definition conflicting : list FragmentRowIdIndex := [mkSource 1 [Array (U64 [8; 2])] NoDeletions; mkSource 2 [Array (U64 [7; 2])] NoDeletions].

Lemma conflicting_reported : match new conflicting with Err Internal => True | _ => False end /\ lookup_result (live_addresses conflicting 2) = Err Internal.
Proof. vm_compute. done. Qed.

(** An id repeated in one segment, with its first copy deleted: the merged map has the second copy, a probe has nothing. *)
Definition repeated : list FragmentRowIdIndex := [mkSource 1 [Array (U64 [8; 8])] (DSet {[0]})].

Lemma repeated_id_differs :
  match new repeated with Ok index => get index 8 | _ => Panic end = Ok (Some (new_from_parts 1 1)) /\
  match probing repeated with Ok index => probe index 8 | _ => Panic end = Ok None.
Proof. vm_compute. done. Qed.

End RowIdMergedExamples.
