(* ===== verification/RowIdBatch.v ===== *)
(** * The row-id index: batched lookups

    [lance-table/src/rowids/index/batch.rs] and [RowIdIndex::get_many] of
    [lance-table/src/rowids/index.rs]: the queries are sorted by id; the merged
    representation walks the chunks of the map once, the probe representation
    descends the tree of pieces with the queries that can be below a node, and in
    an unsorted segment advances [LANES] independent binary searches together.
    The theorem is that a batch answers every query as [get] answers it alone,
    in the order of the input, and reports a corrupt index when one of them does. *)

From Stdlib Require Import ZArith Lia.
From stdpp Require Import base option list numbers sorting sets gmap.
From S2P Require Import Prelude Lists Bits RowAddress Bitmap EncodedArray HoleRuns Segment SegmentBuild Sequence Itertools Roaring Deletion RowIdIndex RowIdLookup RowIdProbe RowIdMerged.

(** ** Model *)

Definition LANES : Z := 32.

(** The closure [store] over the output. *)
Definition store (out : list (option RowAddress)) (ordinal : Z) (address : RowAddress) : res (list (option RowAddress)) :=
  o ← idx out ordinal;
  match o with
  | Some _ => Err Internal
  | None => idx_set out ordinal (Some address)
  end.

(** The [while size > 1] loop over the lanes of a chunk. *)
Fixpoint lanes_loop (fuel : nat) (positions : list (Z * Z)) (chunk : list (Z * Z)) (bases : list Z) (size : Z) : res (list Z) :=
  match fuel with
  | O => Panic
  | S fuel =>
      if 1 <? size then
        let half := size / 2 in
        let mids := map (fun base => base +w half) bases in
        keys ← map_res (fun mid => p ← idx positions mid; Ok (fst p)) mids;
        let bases := zip_with (fun km bq => if fst km <=? fst (snd bq) then snd km else fst bq) (zip keys mids) (zip bases chunk) in
        lanes_loop fuel positions chunk bases (size - half)
      else Ok bases
  end.

Section Batch.
Context {S : Type} (emit : S -> Z -> Z -> Z -> res S).

Definition search_lanes (positions : list (Z * Z)) (s : S) (chunk : list (Z * Z)) : res S :=
  bases ← lanes_loop (Datatypes.S (Z.to_nat (zlen positions))) positions chunk (replicate (Z.to_nat LANES) 0) (zlen positions);
  fold_res (fun s bq => p ← idx positions (fst bq);
    if fst p =? fst (snd bq) then emit s (fst (snd bq)) (snd (snd bq)) (snd p) else Ok s) s (zip bases chunk).

Definition search_one (positions : list (Z * Z)) (s : S) (q : Z * Z) : res S :=
  match binary_search_by (fun p => fst p ?= fst q) positions with
  | inl found => p ← idx positions found; emit s (fst q) (snd q) (snd p)
  | inr _ => Ok s
  end.

Definition search_positions (positions queries : list (Z * Z)) (s : S) : res S :=
  match positions with
  | [] => Ok s
  | _ =>
      let '(chunks, remainder) := as_chunks (Z.to_nat LANES) queries in
      s ← fold_res (search_lanes positions) s chunks;
      fold_res (search_one positions) s remainder
  end.

End Batch.

Section BatchModel.
Context {RB : Roaring} {RM : RangeMaps (U64Segment * U64Segment)}.

(** The part of [probe_batch_node] at a leaf. *)
Definition probe_leaf (index : ProbeIndex) (probe : ProbeEntry) (queries : list (Z * Z)) (out : list (option RowAddress))
    : res (list (option RowAddress)) :=
  fragment ← idx (fragments index) (pe_fragment probe);
  entry ← idx (segments fragment) (pe_segment probe);
  match lookup entry with
  | Positions positions =>
      search_positions (fun out _ ordinal position =>
        let offset := start_offset entry +d position in
        if negb (dv_contains (fe_deletion_vector fragment) offset)
        then store out ordinal (new_from_parts (fe_fragment_id fragment) offset) else Ok out) positions queries out
  | _ =>
      fold_res (fun out q => o ← resolve_segment fragment (pe_segment probe) (fst q);
        match o with Some address => store out (snd q) address | None => Ok out end) out queries
  end.

Fixpoint probe_batch_node (fuel : nat) (index : ProbeIndex) (node lo width : Z) (queries : list (Z * Z)) (out : list (option RowAddress))
    : res (list (option RowAddress)) :=
  match fuel with
  | O => Panic
  | S fuel =>
      match get_opt (probes index) lo with
      | None => Ok out
      | Some probe =>
          let first := partition_point (fun q => fst q <? pe_start probe) queries in
          e ← idx (end_tree index) node;
          let last := partition_point (fun q => fst q <=? e) queries in
          queries ← idx_range queries first last;
          match queries with
          | [] => Ok out
          | _ =>
              if 1 <? width then
                out ← probe_batch_node fuel index (node * 2) lo (width / 2) queries out;
                probe_batch_node fuel index (node * 2 + 1) (lo + width / 2) (width / 2) queries out
              else probe_leaf index probe queries out
          end
      end
  end.

Definition probe_many (index : ProbeIndex) (queries : list (Z * Z)) (out : list (option RowAddress)) : res (list (option RowAddress)) :=
  let width := zlen (end_tree index) / 2 in
  probe_batch_node (S (Z.to_nat (Z.log2 width))) index 1 0 width queries out.

(** Advance past chunks that end before the id. *)
Fixpoint skip_chunks {V} (id : Z) (chunks : list (RangeInclusive * V)) : list (RangeInclusive * V) :=
  match chunks with
  | c :: rest => if snd (fst c) <? id then skip_chunks id rest else chunks
  | [] => []
  end.

(** The walk of [get_many] over the chunks of the merged map. *)
Fixpoint merged_walk (chunks : list (RangeInclusive * (U64Segment * U64Segment))) (sorted : list (Z * Z)) (out : list (option RowAddress))
    : res (list (option RowAddress)) :=
  match sorted with
  | [] => Ok out
  | (id, orig_idx) :: sorted =>
      match skip_chunks id chunks with
      | [] => Ok out
      | ((range, (row_id_seg, addr_seg)) :: _) as chunks =>
          if id <? fst range then merged_walk chunks sorted out else
          pos ← Segment.position row_id_seg id;
          addr ← match pos with Some pos => Segment.get addr_seg pos | None => Ok None end;
          out ← match addr with Some addr => idx_set out orig_idx (Some addr) | None => Ok out end;
          merged_walk chunks sorted out
      end
  end.

Definition get_many (index : RowIdIndex) (row_ids : list Z) : res (list (option RowAddress)) :=
  let n := zlen row_ids in
  let out := replicate (Z.to_nat n) None in
  if n =? 0 then Ok out else
  let sorted := sort_by_key fst (zip row_ids (range_list (0 ..< n))) in
  match merged index with
  | None =>
      if n <? LANES then
        fold_res (fun out q => a ← probe (probe_index index) (fst q); idx_set out (snd q) a) out sorted
      else probe_many (probe_index index) sorted out
  | Some merged => merged_walk (rm_iter merged) sorted out
  end.

End BatchModel.

(** ** Searching the positions of a segment *)

Definition find_pair (id : Z) (l : list (Z * Z)) : option Z := snd <$> List.find (fun p => fst p =? id) l.

Lemma find_pair_in id p l : NoDup (map fst l) -> find_pair id l = Some p <-> (id, p) ∈ l.
Proof.
  intros Hnd. unfold find_pair. induction l as [|[x y] l IH]; [split; [done|by intros ?%elem_of_nil]|]. cbn [map fst] in Hnd. apply NoDup_cons in Hnd as [Hx Hnd].
  cbn [List.find fst]. rewrite elem_of_cons. destruct (Z.eqb_spec x id) as [->|Hne].
  - cbn. split; [intros [= ->]; by left|]. intros [[= ->]|Hin]; [done|]. destruct Hx. by apply (list_elem_of_fmap_2 fst _ (id, p)).
  - rewrite IH by done. split; [by right|]. intros [[= ? ?]|Hin]; done.
Qed.

Lemma find_pair_at id i p l : ssorted (map fst l) -> get_opt l i = Some (id, p) -> find_pair id l = Some p.
Proof. intros Hs Hi. apply find_pair_in; [by apply ssorted_NoDup|]. apply elem_of_get_opt. eauto. Qed.

(** One lane of the interleaved searches. *)
Fixpoint lane (fuel : nat) (positions : list (Z * Z)) (id base size : Z) : Z :=
  match fuel with
  | O => base
  | S fuel =>
      if 1 <? size then
        let half := size / 2 in
        let key := match get_opt positions (base + half) with Some p => fst p | None => 0 end in
        lane fuel positions id (if key <=? id then base + half else base) (size - half)
      else base
  end.

Lemma lanes_loop_ok fuel positions chunk bases size : zlen positions <= ISIZE_MAX -> length bases = length chunk ->
  1 <= size <= Z.of_nat fuel -> Forall (fun b => 0 <= b /\ b + size <= zlen positions) bases ->
  lanes_loop fuel positions chunk bases size = Ok (zip_with (fun b q => lane fuel positions (fst q) b size) bases chunk).
Proof.
  intros Hn. revert bases size. induction fuel as [|fuel IH]; intros bases size Hlen Hf Hb; [lia|]. cbn [lanes_loop].
  destruct (Z.ltb_spec 1 size) as [H1|H1].
  2:{ assert (forall id b, lane (S fuel) positions id b size = b) as Hstop by (intros; cbn [lane]; by rewrite (proj2 (Z.ltb_ge 1 size)) by lia).
      f_equal. clear - Hlen Hstop. revert chunk Hlen. induction bases as [|b bases IHb]; intros [|q chunk] Hl; try done. cbn [zip_with]. rewrite Hstop.
      f_equal. apply IHb. cbn in Hl. lia. }
  pose proof (Z.div_lt size 2 ltac:(lia) ltac:(lia)). pose proof (Z.div_pos size 2 ltac:(lia) ltac:(lia)). pose proof (Z_div_mod_eq_full size 2) as Hdm. pose proof (Z.mod_pos_bound size 2 ltac:(lia)).
  set (half := size / 2) in *. set (key := fun b => match get_opt positions (b + half) with Some p => fst p | None => 0 end).
  rewrite (map_res_ok _ (fun mid => key (mid - half))).
  2:{ apply Forall_map. eapply Forall_impl; [exact Hb|]. intros b [Hb1 Hb2]. cbn. unwrap. unfold key. replace (b + half - half + half) with (b + half) by lia.
      destruct (get_opt positions (b + half)) as [p|] eqn:E; [by rewrite (idx_ok _ _ _ E)|]. apply get_opt_None in E. lia. }
  mon. assert (zip_with (fun km bq => if fst km <=? fst (snd bq) then snd km else fst bq) (zip (map (fun mid => key (mid - half)) (map (fun base => base +w half) bases)) (map (fun base => base +w half) bases)) (zip bases chunk)
    = zip_with (fun b q => if key b <=? fst q then b + half else b) bases chunk) as ->.
  { clear IH Hf. revert chunk Hlen. induction Hb as [|b bases [Hb1 Hb2] _ IHb]; intros [|q chunk] Hl; try done. cbn [map zip zip_with fst snd]. unwrap.
    replace (b + half - half) with b by lia. f_equal. apply IHb. cbn in Hl. lia. }
  rewrite IH; [|by rewrite length_zip_with; lia|lia|].
  - assert (forall id b, lane (S fuel) positions id b size = lane fuel positions id (if key b <=? id then b + half else b) (size - half)) as Hstep
      by (intros; cbn [lane]; by rewrite (proj2 (Z.ltb_lt 1 size)) by lia).
    f_equal. clear - Hlen Hstep. revert chunk Hlen. induction bases as [|b bases IHb]; intros [|q chunk] Hl; try done. cbn [zip_with]. rewrite Hstep.
    f_equal. apply IHb. cbn in Hl. lia.
  - clear - Hb Hlen Hdm H0 H2. revert chunk Hlen. induction Hb as [|b bases [Hb1 Hb2] _ IHb]; intros [|q chunk] Hl; try constructor.
    + destruct (_ <=? _); lia.
    + apply IHb. cbn in Hl. lia.
Qed.

Lemma key_order (l : list (Z * Z)) i j p q : ssorted (map fst l) -> get_opt l i = Some p -> get_opt l j = Some q -> i < j -> fst p < fst q.
Proof.
  intros Hs Hp Hq Hij. pose proof (ssorted_get_opt_gap (map fst l) i j (fst p) (fst q) Hs) as H. rewrite !get_opt_map, Hp, Hq in H. specialize (H eq_refl eq_refl). lia.
Qed.

Lemma lane_ok fuel positions id base size : ssorted (map fst positions) -> 1 <= size <= Z.of_nat fuel -> 0 <= base -> base + size <= zlen positions ->
  (base = 0 \/ forall p, get_opt positions base = Some p -> fst p <= id) -> (forall j p, base + size <= j -> get_opt positions j = Some p -> id < fst p) ->
  let r := lane fuel positions id base size in
  0 <= r < zlen positions /\ (r = 0 \/ forall p, get_opt positions r = Some p -> fst p <= id) /\ (forall j p, r < j -> get_opt positions j = Some p -> id < fst p).
Proof.
  intros Hs. revert base size. induction fuel as [|fuel IH]; intros base size Hf Hb Hn Hlo Hhi; [lia|]. cbn [lane]. cbv zeta.
  destruct (Z.ltb_spec 1 size) as [H1|H1]; [|split; [lia|]; split; [done|]; intros j p Hj; apply Hhi; lia].
  pose proof (Z_div_mod_eq_full size 2) as Hdm. pose proof (Z.mod_pos_bound size 2 ltac:(lia)). assert (1 <= size / 2 < size) as Hh by lia. set (half := size / 2) in *.
  destruct (get_opt positions (base + half)) as [[key pos]|] eqn:E; [|apply get_opt_None in E; lia]. cbn [fst]. destruct (Z.leb_spec key id) as [Hle|Hgt].
  - apply IH; [lia|lia|lia| |intros j p Hj; apply Hhi; lia]. right. intros p Hp. rewrite E in Hp. by injection Hp as <-.
  - apply IH; [lia|lia|lia|done|]. intros j [k p] Hj Hp. cbn [fst]. destruct (Z.eq_dec j (base + half)) as [->|Hne]; [rewrite E in Hp; by injection Hp as <- _|].
    pose proof (key_order positions (base + half) j _ _ Hs E Hp ltac:(lia)) as Hk. cbn in Hk. lia.
Qed.

Section SearchFacts.
Context {S : Type} (emit : S -> Z -> Z -> Z -> res S) (positions : list (Z * Z)) (Hs : ssorted (map fst positions)) (Hn : zlen positions <= ISIZE_MAX) (Hne : positions <> []).

(** What one query does. *)
Definition search_step (s : S) (q : Z * Z) : res S :=
  match find_pair (fst q) positions with Some p => emit s (fst q) (snd q) p | None => Ok s end.

Lemma search_one_ok s q : search_one emit positions s q = search_step s q.
Proof.
  unfold search_one, search_step. pose proof (search_pairs positions (fst q) Hs) as Hf. destruct (binary_search_by _ positions) as [i|i].
  - destruct Hf as [p Hp]. rewrite (idx_ok _ _ _ Hp). mon. by rewrite (find_pair_at _ _ _ _ Hs Hp).
  - destruct (find_pair (fst q) positions) as [p|] eqn:E; [|done]. apply find_pair_in in E; [|by apply ssorted_NoDup]. by apply Hf in E.
Qed.

Lemma search_lanes_ok s chunk : length chunk = Z.to_nat LANES -> search_lanes emit positions s chunk = fold_res search_step s chunk.
Proof.
  intros Hl. unfold search_lanes. assert (1 <= zlen positions) as Hpos by (destruct positions as [|x l]; [done|]; rewrite zlen_cons; pose proof (zlen_nonneg l); lia).
  rewrite lanes_loop_ok; [|done|by rewrite length_replicate|lia|by apply Forall_replicate; lia]. mon.
  rewrite <- Hl. clear Hl. revert s. induction chunk as [|q chunk IH]; intros s; [done|]. cbn [length replicate zip_with zip fold_res fst snd].
  destruct (lane_ok (Datatypes.S (Z.to_nat (zlen positions))) positions (fst q) 0 (zlen positions)) as (Hr & Hlo & Hhi); [done|lia|lia|lia|by left| |].
  { intros j p Hj Hp. apply get_opt_Some in Hp. lia. }
  set (r := lane _ _ _ _ _) in *. destruct (get_opt positions r) as [[key pos]|] eqn:E; [|apply get_opt_None in E; lia]. rewrite (idx_ok _ _ _ E). mon. cbn [fst snd].
  assert ((if key =? fst q then emit s (fst q) (snd q) pos else Ok s) = search_step s q) as ->; [|by destruct (search_step s q); mon].
  unfold search_step. destruct (Z.eqb_spec key (fst q)) as [->|Hk]; [by rewrite (find_pair_at _ _ _ _ Hs E)|].
  destruct (find_pair (fst q) positions) as [p|] eqn:Ef; [|done]. exfalso. apply find_pair_in in Ef; [|by apply ssorted_NoDup]. apply elem_of_get_opt in Ef as [j Hj].
  destruct (Z.lt_trichotomy j r) as [Hjr|[->|Hjr]]; [|congruence|specialize (Hhi j _ Hjr Hj); cbn in Hhi; lia].
  destruct Hlo as [->|Hlo]; [apply get_opt_Some in Hj; lia|]. specialize (Hlo _ eq_refl). cbn in Hlo.
  pose proof (key_order positions j r _ _ Hs Hj E Hjr) as Ho. cbn in Ho. lia.
Qed.

Lemma search_positions_ok queries s : search_positions emit positions queries s = fold_res search_step s queries.
Proof.
  assert (search_positions emit positions queries s = let '(chunks, remainder) := as_chunks (Z.to_nat LANES) queries in
    s ← fold_res (search_lanes emit positions) s chunks; fold_res (search_one emit positions) s remainder) as -> by (clear - Hne; by destruct positions).
  pose proof (as_chunks_spec (Z.to_nat LANES) queries ltac:(vm_compute; lia)) as Hc.
  destruct (as_chunks _ queries) as [chunks tail]. destruct Hc as (-> & Hc & _). rewrite fold_res_app.
  assert (forall s, fold_res (search_lanes emit positions) s chunks = fold_res search_step s (concat chunks)) as ->.
  { clear s. induction Hc as [|c cs Hl _ IH]; intros s; [done|]. cbn [fold_res concat]. rewrite search_lanes_ok, fold_res_app by done. destruct (fold_res search_step s c); mon; [apply IH|done..]. }
  destruct (fold_res search_step s (concat chunks)) as [s'| |]; mon; [|done..]. revert s'. induction tail as [|q tail IH]; intros s'; [done|]. cbn [fold_res].
  rewrite search_one_ok. destruct (search_step s' q); mon; [apply IH|done..].
Qed.

End SearchFacts.

(** ** Storing answers *)

Definition store_all (out : list (option RowAddress)) (em : list (Z * RowAddress)) : res (list (option RowAddress)) :=
  fold_res (fun out e => store out (fst e) (snd e)) out em.

(** The answer of a query from what was stored and what is still to come. *)
Definition answer (out : list (option RowAddress)) (em : list (Z * RowAddress)) (i : Z) : res (option RowAddress) :=
  lookup_result (match get_opt out i with Some o => option_list o | None => [] end ++ row_addresses i em).

Lemma store_ok out k a o : get_opt out k = Some o ->
  store out k a = match o with Some _ => Err Internal | None => Ok (<[Z.to_nat k := Some a]> out) end.
Proof. intros Ho. unfold store. rewrite (idx_ok _ _ _ Ho). mon. destruct o; [done|]. apply idx_set_ok. by apply get_opt_Some in Ho. Qed.

(** Answers stored one by one: the table of all answers, or the report of a query with two. *)
Lemma store_all_ok out em : Forall (fun e => 0 <= fst e < zlen out) em ->
  (exists out', store_all out em = Ok out' /\ zlen out' = zlen out /\ forall i o, get_opt out' i = Some o -> answer out em i = Ok o) \/
  (store_all out em = Err Internal /\ exists i, 0 <= i < zlen out /\ answer out em i = Err Internal).
Proof.
  intros Hem. revert out Hem. induction em as [|[k a] em IH]; intros out Hem.
  { left. exists out. split; [done|]. split; [done|]. intros i o Ho. unfold answer. rewrite Ho, app_nil_r. by destruct o. }
  apply Forall_cons in Hem as [Hk Hem]. cbn [fst] in Hk. unfold store_all. cbn [fold_res fst snd].
  destruct (get_opt out k) as [o|] eqn:Eo; [|apply get_opt_None in Eo; lia]. rewrite (store_ok _ _ _ _ Eo). destruct o as [b|]; mon.
  { right. split; [done|]. exists k. split; [done|]. unfold answer. rewrite Eo, row_addresses_cons, Z.eqb_refl. done. }
  fold (store_all (<[Z.to_nat k:=Some a]> out) em).
  assert (zlen (<[Z.to_nat k:=Some a]> out) = zlen out) as Hz by (unfold zlen; by rewrite length_insert).
  assert (forall i, answer (<[Z.to_nat k:=Some a]> out) em i = answer out ((k, a) :: em) i) as Ha.
  { intros i. unfold answer. rewrite row_addresses_cons. destruct (Z.eqb_spec k i) as [<-|Hne].
    - rewrite get_opt_insert, Z.eqb_refl, Eo by done. done.
    - by rewrite get_opt_insert, (proj2 (Z.eqb_neq i k)) by lia. }
  destruct (IH (<[Z.to_nat k:=Some a]> out)) as [(out' & E & Hl & Hall)|(E & i & Hi & Herr)]; [by rewrite Hz| |].
  - left. exists out'. split; [done|]. split; [lia|]. intros i o Ho. rewrite <- Ha. by apply Hall.
  - right. split; [done|]. exists i. rewrite Hz in Hi. split; [done|]. by rewrite <- Ha.
Qed.

(** ** The descent with a batch *)

Section BatchFacts.
Context {RB : Roaring} {RL : RoaringLaws RB} (index : ProbeIndex) (kept : list FragmentRowIdIndex) (Hok : probe_index_ok index kept).

(** What the queries find in the pieces, in the order in which it is stored. *)
Definition emissions (queries : list (Z * Z)) (ps : list ProbeEntry) : list (Z * RowAddress) :=
  flat_map (fun p => flat_map (fun q => map (pair (snd q)) (piece_address kept (fst q) p)) queries) ps.

Lemma emissions_app queries ps1 ps2 : emissions queries (ps1 ++ ps2) = emissions queries ps1 ++ emissions queries ps2.
Proof. apply flat_map_app. Qed.

Lemma positions_ok q e p ps : entry_ok q e p -> lookup e = Positions ps -> zlen (Segment.elems (fst p)) <= U32_MAX ->
  ssorted (map fst ps) /\ zlen ps <= ISIZE_MAX /\ ps <> [] /\ forall v, find_pair v ps = index_of v (Segment.elems (fst p)).
Proof.
  destruct p as [s o]. cbn [fst]. intros (_ & Hwf & Hne & Hb & _) He Hl. cbn [fst] in *. destruct s as [r|r h|r b|r rs|a|a]; cbn [build_lookup] in Hb;
    try (rewrite seg_len_ok, bind_ok in Hb by done; congruence).
  - pose proof Hwf as (_ & Hbm & _). rewrite zlen_bitmap in * by done. destruct (build_bitmap_rank_ok b Hbm Hl) as (rank & E & _). rewrite E in Hb. congruence.
  - rewrite seg_iter_ok, seg_len_ok in Hb by done. rewrite !bind_ok in Hb. injection Hb as Hlk. destruct (sorted_positions (Segment.elems (Array a)) Hl) as [Hs Hin]. cbn zeta in Hs, Hin.
    rewrite He in Hlk. injection Hlk as <-. set (ps := dedup_keys _) in *. clearbody ps. set (l := Segment.elems (Array a)) in *. assert (NoDup (map fst ps)) as Hnd by (by apply ssorted_NoDup).
    assert (forall v, find_pair v ps = index_of v l) as Hfind.
    { intros v. destruct (index_of v l) as [p|] eqn:Ev; [by apply find_pair_in, Hin|]. destruct (find_pair v ps) as [p|] eqn:Ef; [|done].
      apply find_pair_in, Hin in Ef; [congruence|done]. }
    split; [done|]. split; [|split; [|done]].
    + assert (length (map fst ps) <= length l)%nat as Hlen; [|rewrite length_map in Hlen; unfold zlen in *; lia]. apply submseteq_length, NoDup_submseteq; [done|].
      intros v ([v' p] & -> & Hp)%list_elem_of_fmap. apply Hin, index_of_first in Hp as [Hp _]. apply elem_of_get_opt. eauto.
    + intros ->. destruct l as [|x l]; [done|]. assert (index_of x (x :: l) = Some 0) as Ex.
      { apply index_of_first. split; [done|]. intros p' Hp'. apply get_opt_Some in Hp'. lia. }
      by apply Hin, elem_of_nil in Ex.
Qed.

Lemma probe_leaf_ok slot p queries out : get_opt (probes index) slot = Some p -> Forall (fun q => u64_ok (fst q) /\ pe_start p <= fst q <= pe_end p) queries ->
  probe_leaf index p queries out = store_all out (emissions queries [p]).
Proof using Hok.
  intros Hp Hq. pose proof (pi_fragments _ _ Hok) as Hfs. pose proof (pi_sources _ _ Hok) as Hsrc. pose proof (pi_pieces _ _ Hok) as Hps. pose proof (Forall_get_opt _ _ _ _ Hps Hp) as (_ & src & [s o] & Hk & Hseg).
  destruct (Forall2_get_opt_r _ _ _ _ _ Hfs Hk) as (f & Hf & Hfok). pose proof (Forall_get_opt _ _ _ _ Hsrc Hk) as Hsok.
  pose proof Hfok as (Hid & Hfq & Hdv & Hes). destruct (Forall2_get_opt_r _ _ _ _ _ Hes Hseg) as (e & He & Hentry).
  assert ((s, o) ∈ placed 0 (row_id_sequence src)) as Hin by (apply elem_of_get_opt; eauto). apply placed_bounds in Hin as [Ho1 Ho2]. cbn [fst snd] in Ho1, Ho2.
  pose proof Hsok as (Hk32 & _ & Hl). pose proof (zlen_nonneg (Segment.elems s)).
  set (act := fun (out : list (option RowAddress)) (q : Z * Z) => match segment_address (fragment_id src) (deletion_vector src) o s (fst q) with Some a => store out (snd q) a | None => Ok out end).
  assert (forall out q, act out q = match segment_address (fragment_id src) (deletion_vector src) o s (fst q) with Some a => store out (snd q) a | None => Ok out end) as Hact by done.
  clearbody act. assert (forall out, fold_res act out queries = store_all out (emissions queries [p])) as <-.
  { unfold emissions. cbn [flat_map]. rewrite app_nil_r. clear out. induction Hq as [|q queries [_ Hq] _ IH]; intros out; [done|]. cbn [fold_res flat_map].
    assert (piece_address kept (fst q) p = option_list (segment_address (fragment_id src) (deletion_vector src) o s (fst q))) as ->.
    { unfold piece_address. rewrite Hk, Hseg. by rewrite (proj2 (in_span_spec (fst q) (pe_start p, pe_end p))). }
    rewrite Hact. unfold store_all in *. destruct (segment_address _ _ _ _ _) as [a|]; [|apply IH].
    change (map (pair (snd q)) (option_list (Some a))) with [(snd q, a)]. cbn [app fold_res fst snd]. destruct (store out (snd q) a); mon; [apply IH|done..]. }
  unfold probe_leaf. rewrite (idx_ok _ _ _ Hf). mon. rewrite (idx_ok _ _ _ He). mon.
  assert (fold_res (fun out q => o ← resolve_segment f (pe_segment p) (fst q); match o with Some address => store out (snd q) address | None => Ok out end) out queries = fold_res act out queries) as Hfold.
  { apply fold_res_ext. eapply Forall_impl; [exact Hq|]. intros q [Hu _] out'. by rewrite Hact, (resolve_segment_ok f src (pe_segment p) (s, o) (fst q) Hfok Hsok Hu Hseg). }
  destruct (lookup e) as [|positions|rank] eqn:El; [exact Hfold| |exact Hfold]. clear Hfold.
  destruct (positions_ok _ _ _ positions Hentry El) as (Hps1 & Hps2 & Hps3 & Hps4); [cbn [fst]; lia|]. rewrite search_positions_ok by done. apply fold_res_ext.
  eapply Forall_impl; [exact Hq|]. intros q [Hu _] out'. unfold search_step. rewrite Hps4, Hact. cbn [fst]. unfold segment_address.
  destruct (index_of (fst q) (Segment.elems s)) as [j|] eqn:Ej; [|done]. apply index_of_first in Ej as [Ej _]. apply get_opt_Some in Ej.
  pose proof Hentry as (_ & _ & _ & _ & _ & Hst). cbn [snd] in Hst. rewrite Hst, Hdv, Hid. unwrap. by destruct (dv_contains _ _).
Qed.

Lemma emissions_queries_app q1 q2 ps : Forall (fun q => Forall (fun p => piece_address kept (fst q) p = []) ps) q1 -> emissions (q1 ++ q2) ps = emissions q2 ps /\ emissions (q2 ++ q1) ps = emissions q2 ps.
Proof.
  intros Hq. unfold emissions. assert (forall p, p ∈ ps -> flat_map (fun q => map (pair (snd q)) (piece_address kept (fst q) p)) q1 = []) as Hnil.
  { intros p Hp. induction Hq as [|q q1 Hq _ IH]; [done|]. cbn [flat_map]. rewrite Forall_forall in Hq. by rewrite (Hq p Hp), IH. }
  induction ps as [|p ps IH]; [done|]. cbn [flat_map]. rewrite !flat_map_app, (Hnil p) by (by left). rewrite app_nil_r. cbn [app].
  destruct IH as [-> ->]; [|intros p' Hp'; apply Hnil; by right|done]. eapply Forall_impl; [exact Hq|]. by intros q [_ ?]%Forall_cons.
Qed.

(** The queries below a node: those that are not before its first piece nor after its last end. *)
Lemma restrict_queries queries (a e : Z) : StronglySorted (fun x y => fst x <= fst y) queries -> a <= e ->
  let first := partition_point (fun q => fst q <? a) queries in let last := partition_point (fun q => fst q <=? e) queries in
  exists q1 sub q2, idx_range queries first last = Ok sub /\ queries = q1 ++ sub ++ q2 /\
    Forall (fun q : Z * Z => fst q < a) q1 /\ Forall (fun q : Z * Z => a <= fst q <= e) sub /\ Forall (fun q : Z * Z => e < fst q) q2.
Proof.
  intros Hs Hae first last.
  destruct (partition_point_spec (fun q : Z * Z => fst q <? a) queries) as (Hf1 & Hf2 & Hf3).
  { intros i j x y Hij Hx Hy Hp%Z.ltb_lt. apply Z.ltb_lt. pose proof (sorted_lookup _ _ _ _ _ _ Hs Hx Hy Hij) as Hle. cbn in Hle. lia. }
  destruct (partition_point_spec (fun q : Z * Z => fst q <=? e) queries) as (Hl1 & Hl2 & Hl3).
  { intros i j x y Hij Hx Hy Hp%Z.leb_le. apply Z.leb_le. pose proof (sorted_lookup _ _ _ _ _ _ Hs Hx Hy Hij) as Hle. cbn in Hle. lia. }
  fold first in Hf1, Hf2, Hf3. fold last in Hl1, Hl2, Hl3.
  assert (first <= last) as Hfl.
  { destruct (Z.le_gt_cases first last) as [|Hgt]; [done|]. destruct (get_opt queries last) as [q|] eqn:E; [|apply get_opt_None in E; lia].
    specialize (Hf2 last q Hgt E). specialize (Hl3 last q ltac:(lia) E). apply Z.ltb_lt in Hf2. apply Z.leb_gt in Hl3. lia. }
  exists (zsub queries 0 first), (zsub queries first last), (zsub queries last (zlen queries)). split; [apply idx_range_zsub; lia|].
  split; [rewrite <- !zsub_app, zsub_all by lia; done|].
  assert (forall b c (P : Z * Z -> Prop), 0 <= b <= c -> c <= zlen queries -> (forall i q, b <= i < c -> get_opt queries i = Some q -> P q) -> Forall P (zsub queries b c)) as Hsub.
  { intros b c P Hb Hc HP. apply Forall_forall. intros q (i & Hi & Hq)%elem_of_zsub; [|lia]. by apply (HP i). }
  split; [|split]; apply Hsub; try lia; intros i q Hi Hq.
  - specialize (Hf2 i q ltac:(lia) Hq). by apply Z.ltb_lt in Hf2.
  - specialize (Hf3 i q ltac:(lia) Hq). specialize (Hl2 i q ltac:(lia) Hq). apply Z.ltb_ge in Hf3. apply Z.leb_le in Hl2. lia.
  - specialize (Hl3 i q ltac:(lia) Hq). by apply Z.leb_gt in Hl3.
Qed.

Lemma batch_node_ok h fuel node j lo queries out : 0 <= h -> zlen (end_tree index) = 2 * 2 ^ h -> zlen (probes index) <= 2 ^ h ->
  leaf_ends (2 ^ h) (probes index) (end_tree index) -> heap_from 1 (2 ^ h) (end_tree index) ->
  covers_slots (2 ^ h) node j lo -> lo + 2 ^ j <= 2 ^ h -> j < Z.of_nat fuel ->
  StronglySorted (fun x y => fst x <= fst y) queries -> Forall (fun q => u64_ok (fst q)) queries ->
  probe_batch_node fuel index node lo (2 ^ j) queries out = store_all out (emissions queries (zsub (probes index) lo (lo + 2 ^ j))).
Proof using Hok.
  intros Hh Hz Hl Hends Hheap. revert node j lo queries out. induction fuel as [|fuel IH]; intros node j lo queries out Hc Hlo Hf Hs Hu; [destruct Hc; lia|].
  pose proof Hc as (Hn & Hj & Hlo0 & Hcov). pose proof (Z.pow_pos_nonneg 2 j ltac:(lia) Hj). cbn [probe_batch_node].
  destruct (get_opt (probes index) lo) as [p|] eqn:Ep.
  2:{ apply get_opt_None in Ep. assert (zsub (probes index) lo (lo + 2 ^ j) = []) as ->; [|done]. unfold zsub, zskip, ztake. rewrite drop_ge by (unfold zlen in *; lia). by rewrite take_nil. }
  destruct (get_opt (end_tree index) node) as [e|] eqn:Ee; [|apply get_opt_None in Ee; nia]. rewrite (idx_ok _ _ _ Ee). mon.
  pose proof (Forall_get_opt _ _ _ _ (pi_pieces _ _ Hok) Ep) as [Hse _].
  pose proof (heap_bound (2 ^ h) (probes index) (end_tree index) j Hj Hz Hends Hheap node lo) as Hbound.
  assert (pe_end p <= e) as Hpe by (apply (Hbound lo p e Hc Hlo ltac:(lia) Ep Ee)).
  destruct (restrict_queries queries (pe_start p) e Hs ltac:(lia)) as (q1 & sub & q2 & Er & Eq & Hq1 & Hsub & Hq2). rewrite Er. mon.
  assert (forall slot p', lo <= slot < lo + 2 ^ j -> get_opt (probes index) slot = Some p' -> pe_start p <= pe_start p' /\ pe_end p' <= e) as Hslots.
  { intros slot p' Hr Hp'. split; [|by apply (Hbound slot p' e Hc Hlo Hr)]. destruct (Z.eq_dec slot lo) as [->|Hne]; [rewrite Ep in Hp'; injection Hp' as <-; lia|].
    apply (sorted_get_opt _ _ _ _ _ _ (pi_sorted _ _ Hok) Ep Hp'). lia. }
  assert (Forall (fun q => Forall (fun p' => piece_address kept (fst q) p' = []) (zsub (probes index) lo (lo + 2 ^ j))) (q1 ++ q2)) as Hout.
  { apply Forall_app. split; eapply Forall_impl; [exact Hq1| |exact Hq2|]; intros q Hq; apply Forall_forall; intros p' Hp'; cbn in Hq; apply elem_of_zsub in Hp' as (slot & Hr & Hp'); try lia;
      destruct (Hslots slot p' Hr Hp'); apply piece_outside; lia. }
  apply Forall_app in Hout as [Hout1 Hout2]. rewrite Eq. rewrite (proj1 (emissions_queries_app q1 _ _ Hout1)), (proj2 (emissions_queries_app q2 _ _ Hout2)).
  assert (StronglySorted (fun x y : Z * Z => fst x <= fst y) sub /\ Forall (fun q => u64_ok (fst q)) sub) as [Hs' Hu'].
  { rewrite Eq in Hs, Hu. apply StronglySorted_app_1_r, StronglySorted_app_1_l in Hs. rewrite !Forall_app in Hu. by destruct Hu as (_ & ? & _). }
  destruct sub as [|q0 sub0] eqn:Esub; [unfold emissions; clear; by induction (zsub _ _ _)|]. rewrite <- Esub in *. clear Esub.
  destruct (Z.eq_dec j 0) as [->|Hj0].
  - change (2 ^ 0) with 1 in *. cbn [Z.ltb Z.compare]. rewrite (zsub_single _ _ _ Ep). apply (probe_leaf_ok lo); [done|].
    replace node with (2 ^ h + lo) in Ee by lia. rewrite (Hends lo p Ep) in Ee. injection Ee as <-. rewrite Forall_forall in *. auto.
  - assert (2 ^ j = 2 * 2 ^ (j - 1)) as Ej by (rewrite <- Z.pow_succ_r by lia; f_equal; lia). pose proof (Z.pow_pos_nonneg 2 (j - 1) ltac:(lia) ltac:(lia)).
    rewrite (proj2 (Z.ltb_lt 1 (2 ^ j))) by lia. replace (2 ^ j / 2) with (2 ^ (j - 1)) by (rewrite Ej, Z.mul_comm, Z.div_mul; lia).
    rewrite (IH (node * 2) (j - 1) lo); [|split; [lia|]; split; [lia|]; split; [lia|]; rewrite <- Z.mul_assoc, <- Ej; lia|lia|lia|done|done].
    rewrite (zsub_app (probes index) lo (lo + 2 ^ (j - 1)) (lo + 2 ^ j)) by lia. rewrite emissions_app. unfold store_all. rewrite fold_res_app.
    destruct (fold_res _ out _) as [out'| |]; mon; [|done..]. rewrite (IH (node * 2 + 1) (j - 1) (lo + 2 ^ (j - 1)));
      [|split; [lia|]; split; [lia|]; split; [lia|]; rewrite Z.mul_add_distr_r, <- Z.mul_assoc, <- Ej; lia|lia|lia|done|done].
    unfold store_all. by replace (lo + 2 ^ (j - 1) + 2 ^ (j - 1)) with (lo + 2 ^ j) by lia.
Qed.

End BatchFacts.

(** ** The queries in sorted order *)

Definition sorted_queries (row_ids : list Z) : list (Z * Z) := sort_by_key fst (zip row_ids (range_list (0 ..< zlen row_ids))).

Lemma sorted_queries_elem row_ids id i : (id, i) ∈ sorted_queries row_ids <-> get_opt row_ids i = Some id.
Proof.
  unfold sorted_queries. rewrite sort_by_key_perm. pose proof (enumerate_zip_range row_ids 0) as E. rewrite Z.add_0_l in E. rewrite <- E, list_elem_of_fmap. split.
  - intros ([j x] & [= -> ->] & H%enumerate_lookup). done.
  - intros H%enumerate_lookup. by exists (i, id).
Qed.

Lemma sorted_queries_ok row_ids : Forall u64_ok row_ids ->
  StronglySorted (fun x y => fst x <= fst y) (sorted_queries row_ids) /\ NoDup (map snd (sorted_queries row_ids)) /\ Forall (fun q => u64_ok (fst q)) (sorted_queries row_ids) /\
  Forall (fun q => 0 <= snd q < zlen row_ids) (sorted_queries row_ids).
Proof.
  intros Hu. split; [apply sort_by_key_sorted|]. split; [|split].
  - unfold sorted_queries. rewrite sort_by_key_perm, map_snd_zip; [apply ssorted_NoDup, ssorted_range_list|]. pose proof (zlen_nonneg row_ids). rewrite zlen_range_list; cbn; lia.
  - apply Forall_forall. intros [id i] Hq%sorted_queries_elem. by eapply Forall_get_opt.
  - apply Forall_forall. intros [id i] Hq%sorted_queries_elem. by apply get_opt_Some in Hq.
Qed.

(** ** Tables of answers *)

(** The errors of a lookup are reports of a corrupt index. *)
Definition only_internal {A} (r : res A) : Prop := (exists a, r = Ok a) \/ r = Err Internal.

Lemma map_res_internal {A B} (f : A -> res B) l : Forall (fun x => only_internal (f x)) l -> Exists (fun x => f x = Err Internal) l -> map_res f l = Err Internal.
Proof.
  intros Hall. induction 1 as [x l Hx|x l Hex IH]; cbn [map_res]; [by rewrite Hx|]. apply Forall_cons in Hall as [[[y ->]| ->] Hall]; [|done]. mon. by rewrite (IH Hall).
Qed.

(** Queries answered one at a time, each answer written to its place. *)
Lemma fill_ok (f : Z -> res (option RowAddress)) queries out : Forall (fun q => only_internal (f (fst q)) /\ 0 <= snd q < zlen out) queries -> NoDup (map snd queries) ->
  let r := fold_res (fun out q => a ← f (fst q); idx_set out (snd q) a) out queries in
  (exists out', r = Ok out' /\ zlen out' = zlen out /\ (forall q, q ∈ queries -> exists a, get_opt out' (snd q) = Some a /\ f (fst q) = Ok a) /\
     forall i, i ∉ map snd queries -> get_opt out' i = get_opt out i) \/
  (r = Err Internal /\ exists q, q ∈ queries /\ f (fst q) = Err Internal).
Proof.
  intros Hq. revert out Hq. induction queries as [|q queries IH]; intros out Hq Hnd.
  { left. exists out. do 2 (split; [done|]). split; [by intros q ?%elem_of_nil|done]. }
  apply Forall_cons in Hq as [[Hf Hr] Hq]. cbn [map] in Hnd. apply NoDup_cons in Hnd as [Hnew Hnd]. cbn [fold_res]. destruct Hf as [[a Ha]|Herr].
  2:{ right. rewrite Herr. split; [done|]. exists q. split; [by left|done]. }
  rewrite Ha. mon. rewrite idx_set_ok by done. mon. set (out1 := <[_ := a]> out). assert (zlen out1 = zlen out) as Hz by (unfold out1, zlen; by rewrite length_insert).
  destruct (IH out1) as [(out' & E & Hz' & Hall & Hrest)|(E & q' & Hq' & Herr)]; [by rewrite Hz|done| |].
  - left. exists out'. split; [done|]. split; [lia|]. split.
    + intros q' [->|Hin]%elem_of_cons; [|by apply Hall]. exists a. split; [|done]. rewrite Hrest by done. unfold out1. by rewrite get_opt_insert, Z.eqb_refl by done.
    + intros i [Hi Hin]%not_elem_of_cons. rewrite Hrest by done. unfold out1. by rewrite get_opt_insert, (proj2 (Z.eqb_neq i (snd q))) by done.
  - right. split; [done|]. exists q'. split; [by right|done].
Qed.

(** ** The walk over the merged map *)

Definition chunk_get (found : option (U64Segment * U64Segment)) (id : Z) : res (option RowAddress) :=
  match found with
  | None => Ok None
  | Some (row_id_segment, address_segment) =>
      pos ← Segment.position row_id_segment id;
      match pos with None => Ok None | Some pos => Segment.get address_segment pos end
  end.

Lemma find_skip {V} id id' (chunks : list (RangeInclusive * V)) : id <= id' -> find_range (skip_chunks id chunks) id' = find_range chunks id'.
Proof.
  intros Hid. induction chunks as [|c chunks IH]; [done|]. cbn [skip_chunks]. destruct (Z.ltb_spec (snd (fst c)) id) as [Hlt|]; [|done]. rewrite IH.
  unfold find_range. cbn [List.find]. assert (incl_contains (fst c) id' = false) as ->; [|done]. unfold incl_contains. apply andb_false_iff. rewrite !Z.leb_gt. lia.
Qed.

Lemma skip_ascending {V} id (chunks : list (RangeInclusive * V)) : ascending_ranges chunks -> ascending_ranges (skip_chunks id chunks).
Proof. induction chunks as [|c chunks IH]; [done|]. intros H. cbn [skip_chunks]. destruct (_ <? _); [|done]. apply IH. by destruct H as (_ & _ & ?). Qed.

Lemma skip_head {V} id (chunks : list (RangeInclusive * V)) c rest : skip_chunks id chunks = c :: rest -> id <= snd (fst c).
Proof.
  induction chunks as [|d chunks IH]; [done|]. cbn [skip_chunks]. destruct (Z.ltb_spec (snd (fst d)) id) as [Hlt|Hge]; [done|]. intros [= -> ->]. lia.
Qed.

Lemma find_head {V} id (c : RangeInclusive * V) rest : ascending_ranges (c :: rest) -> id <= snd (fst c) ->
  find_range (c :: rest) id = if id <? fst (fst c) then None else Some (snd c).
Proof.
  intros (_ & Hlt & _) Hid. unfold find_range. cbn [List.find]. destruct (Z.ltb_spec id (fst (fst c))) as [H|H].
  - assert (forall d : RangeInclusive * V, id < fst (fst d) -> incl_contains (fst d) id = false) as Hout by (intros d Hd; unfold incl_contains; by rewrite (proj2 (Z.leb_gt _ _))).
    rewrite Hout by done. induction Hlt as [|d rest Hd _ IH]; [done|]. cbn [List.find]. rewrite Hout by (exact (Z.le_lt_trans _ _ _ Hid Hd)). exact IH.
  - assert (incl_contains (fst c) id = true) as ->; [|done]. unfold incl_contains. by rewrite !(proj2 (Z.leb_le _ _)) by done.
Qed.

Section Walk.
Context {RB : Roaring} {RL : RoaringLaws RB} {RM : RangeMaps (U64Segment * U64Segment)} {RML : RangeMapsLaws RM}.

Lemma merged_walk_ok (ans : Z -> option RowAddress) queries chunks out : ascending_ranges chunks -> StronglySorted (fun x y => fst x <= fst y) queries ->
  NoDup (map snd queries) -> Forall (fun q => get_opt out (snd q) = Some None /\ chunk_get (find_range chunks (fst q)) (fst q) = Ok (ans (fst q))) queries ->
  exists out', merged_walk chunks queries out = Ok out' /\ zlen out' = zlen out /\ (forall q, q ∈ queries -> get_opt out' (snd q) = Some (ans (fst q))) /\
    forall i, i ∉ map snd queries -> get_opt out' i = get_opt out i.
Proof.
  revert chunks out. induction queries as [|[id k] queries IH]; intros chunks out Hasc Hs Hnd Hq.
  { exists out. do 2 (split; [done|]). split; [by intros q ?%elem_of_nil|done]. }
  apply StronglySorted_cons in Hs as [Hle Hs]. cbn [map snd] in Hnd. apply NoDup_cons in Hnd as [Hnew Hnd]. apply Forall_cons in Hq as [[Hk Hid] Hq]. cbn [fst snd] in *.
  apply get_opt_Some in Hk as Hr. cbn [merged_walk]. destruct (skip_chunks id chunks) as [|[range [ids addrs]] rest] eqn:E.
  { exists out. do 2 (split; [done|]). split; [|done]. assert (forall id', id <= id' -> find_range chunks id' = None) as Hnone.
    { intros id' H'. by rewrite <- (find_skip id id' chunks H'), E. }
    intros q [->|Hin]%elem_of_cons; cbn [fst snd]; [rewrite Hnone in Hid by lia; cbn in Hid; injection Hid as <-; done|].
    rewrite Forall_forall in Hq, Hle. destruct (Hq q Hin) as [Ho Ha]. specialize (Hle q Hin). cbn in Hle. rewrite Hnone in Ha by done. cbn in Ha. by injection Ha as <-. }
  pose proof (skip_ascending id chunks Hasc) as Hasc'. rewrite E in Hasc'. pose proof (skip_head id chunks _ _ E) as Hend.
  rewrite <- (find_skip id id chunks), E, find_head in Hid by (done || lia). cbn [fst snd] in Hid.
  assert (forall out1, zlen out1 = zlen out -> (forall i, i <> k -> get_opt out1 i = get_opt out i) -> get_opt out1 k = Some (ans id) ->
    exists out', merged_walk ((range, (ids, addrs)) :: rest) queries out1 = Ok out' /\ zlen out' = zlen out /\ (forall q, q ∈ (id, k) :: queries -> get_opt out' (snd q) = Some (ans (fst q))) /\
      forall i, i ∉ k :: map snd queries -> get_opt out' i = get_opt out i) as Hnext.
  { intros out1 Hz Hother Hk1. destruct (IH ((range, (ids, addrs)) :: rest) out1) as (out' & E' & Hz' & Hin' & Hout'); [done..| |].
    - rewrite Forall_forall in *. intros q Hin. destruct (Hq q Hin) as [Ho Ha]. specialize (Hle q Hin). cbn in Hle. rewrite <- E, find_skip by done. split; [|done].
      rewrite Hother; [done|]. intros Eq. apply Hnew. rewrite <- Eq. by apply (list_elem_of_fmap_2 snd).
    - exists out'. split; [done|]. split; [lia|]. split.
      + intros q [->|Hin]%elem_of_cons; cbn [fst snd]; [by rewrite Hout'|by apply Hin'].
      + intros i [Hi Hin]%not_elem_of_cons. rewrite Hout' by done. by apply Hother. }
  destruct (Z.ltb_spec id (fst range)) as [Hlt|Hge].
  - apply Hnext; [done|done|]. cbn in Hid. injection Hid as <-. done.
  - assert (exists out1, match ans id with Some addr => idx_set out k (Some addr) | None => Ok out end = Ok out1 /\ zlen out1 = zlen out /\
      (forall i, i <> k -> get_opt out1 i = get_opt out i) /\ get_opt out1 k = Some (ans id)) as (out1 & Eset & Hz & Hother & Hk1).
    { destruct (ans id) as [a|]; [|by exists out]. exists (<[Z.to_nat k := Some a]> out). rewrite idx_set_ok by done. split; [done|]. split; [unfold zlen; by rewrite length_insert|].
      split; [intros i Hi; by rewrite get_opt_insert, (proj2 (Z.eqb_neq i k)) by done|by rewrite get_opt_insert, Z.eqb_refl by done]. }
    cbn [chunk_get] in Hid. destruct (Segment.position ids id) as [[pos|]| |]; cbn [mbind res_bind] in Hid; mon; try done.
    + rewrite Hid. mon. rewrite Eset. mon. by apply Hnext.
    + injection Hid as Hid. rewrite <- Hid in Eset. injection Eset as <-. by apply Hnext.
Qed.

End Walk.

(** ** Batches *)

Lemma row_addresses_map i j l : row_addresses i (map (pair j) l) = if j =? i then l else [].
Proof.
  induction l as [|a l IH]; [by destruct (j =? i)|]. cbn [map]. rewrite row_addresses_cons, IH. by destruct (j =? i).
Qed.

Section Batches.
Context {RB : Roaring} {RL : RoaringLaws RB} {RM : RangeMaps (U64Segment * U64Segment)} {RML : RangeMapsLaws RM}.

Lemma emissions_of_query kept queries ps id i : NoDup (map snd queries) -> (id, i) ∈ queries ->
  row_addresses i (emissions kept queries ps) = flat_map (piece_address kept id) ps.
Proof.
  intros Hnd Hin. unfold emissions. induction ps as [|p ps IH]; [done|]. cbn [flat_map]. rewrite row_addresses_app, IH. f_equal. clear IH.
  induction queries as [|[id' j] queries IH]; [by apply elem_of_nil in Hin|]. cbn [flat_map fst snd]. rewrite row_addresses_app, row_addresses_map.
  cbn [map snd] in Hnd. apply NoDup_cons in Hnd as [Hnew Hnd]. apply elem_of_cons in Hin as [[= <- <-]|Hin].
  - rewrite Z.eqb_refl. assert (row_addresses i (flat_map (fun q => map (pair (snd q)) (piece_address kept (fst q) p)) queries) = []) as ->; [|by rewrite app_nil_r].
    clear - Hnew. induction queries as [|q queries IH]; [done|]. cbn [map] in Hnew. apply not_elem_of_cons in Hnew as [Hq Hnew]. cbn [flat_map].
    rewrite row_addresses_app, row_addresses_map, (proj2 (Z.eqb_neq (snd q) i)) by done. by apply IH.
  - rewrite (proj2 (Z.eqb_neq j i)); [by apply IH|]. intros ->. apply Hnew. by apply (list_elem_of_fmap_2 snd _ (id, i)).
Qed.

Lemma emissions_places kept queries ps n : Forall (fun q => 0 <= snd q < n) queries -> Forall (fun e => 0 <= fst e < n) (emissions kept queries ps).
Proof.
  intros Hq. apply Forall_forall. intros e He. unfold emissions in He. apply list_elem_of_In, in_flat_map in He as (p & _ & He). apply in_flat_map in He as (q & Hin & He).
  apply in_map_iff in He as (a & <- & _). apply list_elem_of_In in Hin. rewrite Forall_forall in Hq. by apply Hq.
Qed.

Lemma lookup_internal l : only_internal (lookup_result l).
Proof. destruct l as [|a [|b l]]; [left; by eexists..|by right]. Qed.

Lemma probe_many_ok index kept row_ids : probe_index_ok index kept -> Forall u64_ok row_ids ->
  probe_many index (sorted_queries row_ids) (replicate (Z.to_nat (zlen row_ids)) None) = map_res (probe index) row_ids.
Proof.
  intros Hok Hu. destruct (sorted_queries_ok row_ids Hu) as (Hs & Hnd & Hqu & Hplace). pose proof (zlen_nonneg row_ids) as Hn. set (out := replicate _ None).
  assert (zlen out = zlen row_ids) as Hz by (unfold out; rewrite zlen_replicate; lia).
  assert (probe_many index (sorted_queries row_ids) out = store_all out (emissions kept (sorted_queries row_ids) (probes index))) as ->.
  { unfold probe_many. destruct (probes index) as [|p ps] eqn:Ep; [cbn [probe_batch_node]; by rewrite Ep|]. destruct (pi_tree _ _ Hok) as (h & Hh & Htz & Hl & He & Hheap); [by rewrite Ep|].
    replace (zlen (end_tree index) / 2) with (2 ^ h) by (rewrite Htz, Z.mul_comm, Z.div_mul by lia; done). rewrite Z.log2_pow2 by done.
    rewrite (batch_node_ok index kept Hok h) by (done || (unfold covers_slots; lia) || lia). by rewrite Z.add_0_l, zsub_all, Ep by done. }
  assert (forall i id, get_opt row_ids i = Some id -> answer out (emissions kept (sorted_queries row_ids) (probes index)) i = probe index id) as Hans.
  { intros i id Hi. unfold answer. rewrite (emissions_of_query _ _ _ id) by (done || by apply sorted_queries_elem). apply get_opt_Some in Hi as Hr.
    unfold out. rewrite get_opt_replicate, (proj2 (Z.leb_le 0 i)), (proj2 (Z.ltb_lt i _)) by lia. cbn [andb option_list app].
    rewrite (probe_ok index kept) by (done || by eapply Forall_get_opt). apply lookup_result_perm, (pi_addresses _ _ Hok). }
  destruct (store_all_ok out (emissions kept (sorted_queries row_ids) (probes index))) as [(out' & -> & Hz' & Hall)|(-> & i & Hi & Herr)]; [by apply emissions_places; rewrite Hz| |].
  - symmetry. apply HoleRuns.map_res_get_opt; [lia|]. intros i id Hi. apply get_opt_Some in Hi as Hr. destruct (get_opt out' i) as [o|] eqn:Eo; [|apply get_opt_None in Eo; lia].
    exists o. split; [|done]. rewrite <- (Hans i id Hi). by apply Hall.
  - symmetry. apply map_res_internal.
    + apply Forall_forall. intros id Hid. rewrite (probe_ok index kept) by (done || (rewrite Forall_forall in Hu; auto)). apply lookup_internal.
    + destruct (get_opt row_ids i) as [id|] eqn:Ei; [|apply get_opt_None in Ei; lia]. apply Exists_exists. exists id. split; [apply elem_of_get_opt; eauto|]. by rewrite <- (Hans i id Ei).
Qed.

Lemma fill_table (f : Z -> res (option RowAddress)) row_ids : Forall (fun id => only_internal (f id)) row_ids -> Forall u64_ok row_ids ->
  fold_res (fun out q => a ← f (fst q); idx_set out (snd q) a) (replicate (Z.to_nat (zlen row_ids)) None) (sorted_queries row_ids) = map_res f row_ids.
Proof.
  intros Hf Hu. destruct (sorted_queries_ok row_ids Hu) as (_ & Hnd & _ & Hplace). pose proof (zlen_nonneg row_ids) as Hn. set (out := replicate _ None).
  assert (zlen out = zlen row_ids) as Hz by (unfold out; rewrite zlen_replicate; lia).
  destruct (fill_ok f (sorted_queries row_ids) out) as [(out' & -> & Hz' & Hall & _)|(-> & [id i] & Hq & Herr)]; [|done| |].
  - rewrite Hz. apply Forall_and. split; [|done]. apply Forall_forall. intros [id i] Hq%sorted_queries_elem. cbn [fst]. by eapply (Forall_get_opt (fun id => only_internal (f id))).
  - symmetry. apply HoleRuns.map_res_get_opt; [lia|]. intros i id Hi. destruct (Hall (id, i)) as (a & Ha & Hfa); [by apply sorted_queries_elem|]. eauto.
  - symmetry. apply map_res_internal; [done|]. apply sorted_queries_elem in Hq. apply Exists_exists. exists id. split; [apply elem_of_get_opt; eauto|done].
Qed.

Lemma merged_many_ok m (ans : Z -> option RowAddress) row_ids : Forall (fun id => merged_get m id = Ok (ans id)) row_ids -> Forall u64_ok row_ids ->
  merged_walk (rm_iter m) (sorted_queries row_ids) (replicate (Z.to_nat (zlen row_ids)) None) = map_res (merged_get m) row_ids.
Proof.
  intros Hm Hu. destruct (sorted_queries_ok row_ids Hu) as (Hs & Hnd & _ & Hplace). pose proof (zlen_nonneg row_ids) as Hn. set (out := replicate _ None).
  assert (zlen out = zlen row_ids) as Hz by (unfold out; rewrite zlen_replicate; lia).
  destruct (merged_walk_ok ans (sorted_queries row_ids) (rm_iter m) out) as (out' & -> & Hz' & Hall & _); [apply rm_iter_ascending|done|done| |].
  - apply Forall_forall. intros [id i] Hq. cbn [fst snd]. rewrite Forall_forall in Hplace. specialize (Hplace _ Hq). cbn in Hplace. split.
    + unfold out. by rewrite get_opt_replicate, (proj2 (Z.leb_le 0 i)), (proj2 (Z.ltb_lt i _)) by lia.
    + rewrite <- rm_get_iter. apply sorted_queries_elem in Hq. by apply (Forall_get_opt _ _ _ _ Hm Hq).
  - symmetry. apply HoleRuns.map_res_get_opt; [lia|]. intros i id Hi. exists (ans id). split; [by apply (Forall_get_opt _ _ _ _ Hm Hi)|].
    by apply (Hall (id, i)), sorted_queries_elem.
Qed.

(** C15: a batch lookup answers every row id as a lookup of that id alone, in
    the order of the input and with its duplicates, whichever representation
    the index has and however many ids are asked for; when an id is live in two
    rows it reports the corrupt index as the single lookup does. *)
Theorem get_many_each sources index row_ids : sources_ok sources -> zlen sources <= U32_MAX -> new sources = Ok index -> Forall u64_ok row_ids ->
  get_many index row_ids = map_res (get index) row_ids.
Proof.
  intros Hsrc Hn Hnew Hu. destruct (new_ok sources Hsrc Hn) as [(index' & kept & E & Hok & Hlive & Hm)|[E _]]; [|congruence]. rewrite Hnew in E. injection E as <-.
  unfold get_many. destruct (Z.eqb_spec (zlen row_ids) 0) as [E0|_].
  { destruct row_ids as [|x l]; [done|]. rewrite zlen_cons in E0. pose proof (zlen_nonneg l). lia. }
  fold (sorted_queries row_ids). unfold get. destruct (merged index) as [m|].
  - apply (merged_many_ok m (fun id => head (live_addresses sources id))); [|done]. eapply Forall_impl; [exact Hu|]. intros id Hid. by apply (Hm id m).
  - destruct (_ <? LANES); [|by eapply probe_many_ok]. apply fill_table; [|done]. eapply Forall_impl; [exact Hu|]. intros id Hid. cbn beta.
    rewrite (probe_ok (probe_index index) kept) by done. apply lookup_internal.
Qed.

End Batches.

(** ** Examples *)

Module RowIdBatchExamples.

#[local] Existing Instances CofiniteRoaring CofiniteRoaring_laws ListRangeMaps.ListRangeMaps.
Import RowIdProbeExamples RowIdMergedExamples.

Lemma get_many_each_witness : exists index, new interleaved = Ok index /\ get_many index [20; 11; 99; 20] = map_res (get index) [20; 11; 99; 20].
Proof.
  assert (match new interleaved with Ok _ => True | _ => False end) as Hok by (vm_compute; done). destruct (new interleaved) as [index| |] eqn:E; [|destruct Hok..].
  exists index. split; [reflexivity|]. apply (@get_many_each _ _ _ ListRangeMaps.ListRangeMaps_laws interleaved index); [apply interleaved_sources|vm_compute; discriminate|exact E|].
  repeat constructor; uok; lia.
Defined.

(** A batch of the size at which the searches of a segment run side by side. *)
Lemma interleaved_batch : match probing interleaved with
  | Ok index => probe_many index (sorted_queries (replicate 33 20 ++ [11; 40])) (replicate 35 None)
  | _ => Panic
  end = Ok (replicate 33 (Some (new_from_parts 9 1)) ++ [Some (new_from_parts 3 1); Some (new_from_parts 3 5)]).
Proof. vm_compute. done. Qed.

End RowIdBatchExamples.
