(* ===== verification/RankedOffsets.v ===== *)
(** * Ranked row offsets

    [RankedOffsets] and [DenseRankedOffsets] of
    [lance-core/src/utils/row_addr_remap.rs]: the rewritten row offsets of an old
    fragment, kept as a roaring bitmap, a sorted vector or a bit set with the
    number of members before every word, whichever is smaller.  All three answer
    the same question: whether an offset is a member and how many members come
    before it. *)

From Stdlib Require Import ZArith Lia.
From stdpp Require Import base option list numbers sorting sets gmap.
From S2P Require Import Prelude Lists Bits Bitmap Itertools Roaring Deletion.

(** ** Rank and maximum of a bitmap *)

(** [RoaringBitmap::rank] and [RoaringBitmap::max]. *)
Class RoaringRanks (RB : Roaring) := {
  bm_rank : bitmap -> Z -> Z;
  bm_max : bitmap -> option Z
}.

Class RoaringRanksLaws {RB : Roaring} (RR : RoaringRanks RB) : Prop := {
  bm_rank_iter b v : bm_rank b v = zlen (List.filter (fun x => x <=? v) (bm_iter b));
  bm_max_iter b : bm_max b = list.last (bm_iter b)
}.

(** ** Model *)

Definition ROARING_SIZE_ADVANTAGE_FOR_RANK : Z := 4.

Record DenseRankedOffsets := mkDense { words : list Z; rank_before_word : list Z }.

Inductive RankedOffsets {RB : Roaring} := RRoaring (offsets : bitmap) | RSparse (offsets : list Z) | RDense (offsets : DenseRankedOffsets).

Section RankedModel.
Context {RB : Roaring} {RR : RoaringRanks RB}.

Definition set_offset (words : list Z) (offset : Z) : res (list Z) :=
  let word_idx := offset / 64 in
  match get_opt words word_idx with
  | None => Err InvalidInput
  | Some word => idx_set words word_idx (Z.lor word (Z.shiftl 1 (offset mod 64)))
  end.

Fixpoint ranks_before (words : list Z) (rewritten_rows_before : Z) : res (list Z) :=
  match words with
  | [] => Ok []
  | word :: words =>
      if rewritten_rows_before <=? U32_MAX then
        rest ← ranks_before words (rewritten_rows_before +w count_ones_w 64 word);
        Ok (rewritten_rows_before :: rest)
      else Err InvalidInput
  end.

Definition dense_try_new (offsets : bitmap) (word_count : Z) : res DenseRankedOffsets :=
  words ← fold_res set_offset (replicate (Z.to_nat word_count) 0) (bm_iter offsets);
  rank_before_word ← ranks_before words 0;
  Ok (mkDense words rank_before_word).

Definition dense_rank (d : DenseRankedOffsets) (offset : Z) : res (option Z) :=
  let word_idx := offset / 64 in
  match get_opt (words d) word_idx with
  | None => Ok None
  | Some word =>
      let bit := Z.shiftl 1 (offset mod 64) in
      if Z.land word bit =? 0 then Ok None else
      before ← idx (rank_before_word d) word_idx;
      Ok (Some (before +w count_ones_w 64 (Z.land word (bit - 1))))
  end.

Definition ranked_try_new (offsets : bitmap) (physical_rows : option Z) : res RankedOffsets :=
  let universe_rows := match physical_rows with
    | Some rows => rows
    | None => match bm_max offsets with Some offset => offset + 1 | None => 0 end
    end in
  let word_count := div_ceil universe_rows 64 in
  sparse_bytes ← ok_or (checked_mul (bm_len offsets) 4) InvalidInput;
  dense_bytes ← ok_or (checked_mul word_count 12) InvalidInput;
  let rank_friendly_bytes := Z.min sparse_bytes dense_bytes in
  if match checked_mul (bm_serialized_size offsets) ROARING_SIZE_ADVANTAGE_FOR_RANK with
     | Some roaring_bytes => roaring_bytes <? rank_friendly_bytes
     | None => false
     end then Ok (RRoaring offsets)
  else if sparse_bytes <=? dense_bytes then Ok (RSparse (bm_iter offsets))
  else d ← dense_try_new offsets word_count; Ok (RDense d).

Definition rank_if_present (r : RankedOffsets) (offset : Z) : res (option Z) :=
  match r with
  | RRoaring offsets => Ok (if bm_contains offsets offset then Some (bm_rank offsets offset -w 1) else None)
  | RSparse offsets => Ok (match Lists.binary_search offsets offset with inl rank => Some rank | inr _ => None end)
  | RDense d => dense_rank d offset
  end.

Definition ranked_is_empty (r : RankedOffsets) : bool :=
  match r with
  | RRoaring offsets => bm_is_empty offsets
  | RSparse offsets => match offsets with [] => true | _ => false end
  | RDense d => match words d with [] => true | _ => false end
  end.

End RankedModel.

(** ** Ranks *)

Section RankedFacts.
Context {RB : Roaring} {RL : RoaringLaws RB} {RR : RoaringRanks RB} {RRL : RoaringRanksLaws RR}.

(** The rank of a member: how many members come before it. *)
Definition rank_of (b : bitmap) (offset : Z) : option Z :=
  if bm_contains b offset then Some (zlen (List.filter (fun x => x <? offset) (bm_iter b))) else None.

(** The same count over the offsets themselves. *)
Definition members_in (b : bitmap) (lo hi : Z) : Z := zlen (List.filter (bm_contains b) (range_list (lo ..< hi))).

Lemma members_below b v : 0 <= v -> zlen (List.filter (fun x => x <? v) (bm_iter b)) = members_in b 0 v.
Proof.
  intros Hv. unfold members_in. apply NoDup_same_length.
  - apply ssorted_NoDup, ssorted_filter, bm_iter_sorted.
  - apply ssorted_NoDup, ssorted_filter, ssorted_range_list.
  - intros x. rewrite !elem_of_filterb, elem_of_range_list, bm_iter_elem, Z.ltb_lt. cbn. split; [|tauto].
    intros [Hx Hlt]. apply bm_contains_u32 in Hx as Hu. uok. split; [lia|done].
Qed.

Lemma members_in_app b lo mid hi : lo <= mid -> mid <= hi -> members_in b lo hi = members_in b lo mid + members_in b mid hi.
Proof. intros H1 H2. unfold members_in. by rewrite (range_list_app lo mid hi), List.filter_app, zlen_app by done. Qed.

Lemma members_in_bound b lo hi : lo <= hi -> 0 <= members_in b lo hi <= hi - lo.
Proof.
  intros H. unfold members_in. split; [apply zlen_nonneg|].
  pose proof (zlen_range_list (lo ..< hi) H) as E. cbn in E. rewrite <- E. unfold zlen. pose proof (List.filter_length_le (bm_contains b) (range_list (lo ..< hi))). lia.
Qed.

(** *** The bit set *)

(** The bit of an offset. *)
Definition bit_at (words : list Z) (v : Z) : bool :=
  match get_opt words (v / 64) with Some word => Z.testbit word (v mod 64) | None => false end.

Lemma set_offset_ok ws o : 0 <= o -> o / 64 < zlen ws ->
  exists ws', set_offset ws o = Ok ws' /\ zlen ws' = zlen ws /\
    forall v, 0 <= v -> bit_at ws' v = (v =? o) || bit_at ws v.
Proof.
  intros Ho Hw. unfold set_offset. pose proof (Z.div_pos o 64 Ho ltac:(lia)).
  destruct (get_opt ws (o / 64)) as [w|] eqn:Ew; [|apply get_opt_None in Ew; lia].
  rewrite idx_set_ok by lia. eexists. split; [done|]. split; [unfold zlen; by rewrite length_insert|].
  intros v Hv. unfold bit_at. pose proof (Z.div_pos v 64 Hv ltac:(lia)). rewrite get_opt_insert by lia.
  pose proof (Z.mod_pos_bound v 64). pose proof (Z.mod_pos_bound o 64).
  destruct (Z.eqb_spec (v / 64) (o / 64)) as [E|E].
  - rewrite E, Ew, Z.lor_spec, Z.shiftl_1_l, Z.pow2_bits_eqb, orb_comm by lia. f_equal.
    pose proof (Z.div_mod v 64). pose proof (Z.div_mod o 64). apply eq_true_iff_eq. rewrite !Z.eqb_eq. lia.
  - destruct (Z.eqb_spec v o) as [->|]; done.
Qed.

Lemma set_offset_err ws o : 0 <= o -> zlen ws <= o / 64 -> set_offset ws o = Err InvalidInput.
Proof. intros Ho Hw. unfold set_offset. by rewrite (proj2 (get_opt_None ws (o / 64))) by lia. Qed.

Lemma set_offsets_ok os ws : Forall (fun o => 0 <= o /\ o / 64 < zlen ws) os ->
  exists ws', fold_res set_offset ws os = Ok ws' /\ zlen ws' = zlen ws /\
    forall v, 0 <= v -> bit_at ws' v = bool_decide (v ∈ os) || bit_at ws v.
Proof.
  revert ws. induction os as [|o os IH]; intros ws Hos; [by exists ws|].
  inversion Hos as [|?? [H1 H2] H3]; subst. destruct (set_offset_ok ws o H1 H2) as (w1 & E1 & L1 & B1).
  destruct (IH w1) as (w2 & E2 & L2 & B2); [by rewrite L1|].
  exists w2. cbn [fold_res]. rewrite E1. mon. split; [done|]. split; [lia|].
  intros v Hv. rewrite B2, B1, orb_assoc by done. f_equal.
  apply eq_true_iff_eq. rewrite orb_true_iff, !bool_decide_eq_true, Z.eqb_eq, elem_of_cons. tauto.
Qed.

Lemma bit_at_zero n v : bit_at (replicate n 0) v = false.
Proof. unfold bit_at. rewrite get_opt_replicate. destruct (_ && _); [apply Z.bits_0|done]. Qed.

(** *** The rank table *)

(** Words that hold the members of the bitmap, the first word covering the
    offsets from [64 * k]. *)
Definition words_hold (b : bitmap) (k : Z) (ws : list Z) : Prop :=
  forall i word, get_opt ws i = Some word -> forall j, 0 <= j < 64 -> Z.testbit word j = bm_contains b (64 * (k + i) + j).

Lemma word_members b word base n : 0 <= n -> (forall j, 0 <= j < n -> Z.testbit word j = bm_contains b (base + j)) ->
  count_ones_w n word = members_in b base (base + n).
Proof.
  intros Hn H. unfold count_ones_w, bits_of, members_in.
  rewrite (map_ext_Forall _ (fun j => bm_contains b (base + j))).
  - rewrite <- (map_map (fun j => base + j) (bm_contains b)), ones_map. do 2 f_equal.
    unfold range_list. cbn [start end_]. change (map (fun j => base + j) (seqZ 0 n)) with (Z.add base <$> seqZ 0 n).
    rewrite fmap_add_seqZ. f_equal; lia.
  - apply Forall_forall. intros j Hj%elem_of_seqZ. apply H. lia.
Qed.

Lemma ranks_before_ok b ws k : 0 <= k -> 64 * (k + zlen ws) <= 4294967296 -> words_hold b k ws ->
  exists l, ranks_before ws (members_in b 0 (64 * k)) = Ok l /\ zlen l = zlen ws /\
    forall i, 0 <= i < zlen ws -> get_opt l i = Some (members_in b 0 (64 * (k + i))).
Proof.
  revert k. induction ws as [|w ws IH]; intros k Hk Hb Hh.
  - exists []. split; [done|]. split; [done|]. intros i Hi. change (zlen (@nil Z)) with 0 in Hi. lia.
  - rewrite zlen_cons in *. pose proof (zlen_nonneg ws). pose proof (members_in_bound b 0 (64 * k) ltac:(lia)).
    cbn [ranks_before]. rewrite (proj2 (Z.leb_le _ _)) by lia.
    rewrite (word_members b w (64 * k) 64), <- members_in_app by
      (first [lia|intros j Hj; rewrite (Hh 0 w eq_refl j Hj); f_equal; lia]).
    pose proof (members_in_bound b 0 (64 * k + 64) ltac:(lia)). unwrap.
    replace (64 * k + 64) with (64 * (k + 1)) by lia.
    destruct (IH (k + 1)) as (l & E & L & G); [lia|lia| |].
    { intros i x Hx j Hj. pose proof (get_opt_Some _ _ _ Hx). rewrite (Hh (i + 1) x); [f_equal; lia| |done].
      rewrite get_opt_cons. destruct (Z.eqb_spec (i + 1) 0); [lia|]. rewrite <- Hx. f_equal. lia. }
    rewrite E. mon. eexists. split; [done|]. rewrite zlen_cons, L. split; [done|].
    intros i Hi. rewrite get_opt_cons. destruct (Z.eqb_spec i 0) as [->|]; [by rewrite Z.add_0_r|].
    rewrite G by lia. do 2 f_equal. lia.
Qed.

Lemma count_ones_low w n k : 0 <= k <= n -> count_ones_w n (Z.land w (Z.shiftl 1 k - 1)) = count_ones_w k w.
Proof.
  intros Hk. unfold count_ones_w, bits_of. rewrite Z.shiftl_1_l, Z.sub_1_r, <- Z.ones_equiv.
  replace n with (k + (n - k)) by lia. rewrite seqZ_app, map_app, ones_app, Z.add_0_l by lia.
  rewrite (ones_false (map _ (seqZ k (n - k)))), Z.add_0_r.
  - f_equal. apply map_ext_Forall, Forall_forall. intros j Hj%elem_of_seqZ.
    by rewrite Z.land_spec, Z.ones_spec_low, andb_true_r by lia.
  - apply Forall_forall. intros x (j & -> & Hj)%list_elem_of_fmap. apply elem_of_seqZ in Hj.
    by rewrite Z.land_spec, Z.ones_spec_high, andb_false_r by lia.
Qed.

Lemma dense_rank_ok b ws l v : u32_ok v -> words_hold b 0 ws -> (forall v, bm_contains b v = true -> v < 64 * zlen ws) ->
  (forall i, 0 <= i < zlen ws -> get_opt l i = Some (members_in b 0 (64 * i))) ->
  dense_rank (mkDense ws l) v = Ok (rank_of b v).
Proof.
  intros Hv Hh Hm Hl. unfold dense_rank, rank_of. cbn [words rank_before_word]. uok.
  pose proof (Z.mod_pos_bound v 64 ltac:(lia)). pose proof (Z.div_mod v 64 ltac:(lia)).
  pose proof (Z.div_pos v 64 ltac:(lia) ltac:(lia)).
  destruct (get_opt ws (v / 64)) as [w|] eqn:Ew.
  - pose proof (get_opt_Some _ _ _ Ew). pose proof (Hh _ _ Ew (v mod 64) ltac:(lia)) as Hb.
    rewrite Z.add_0_l in Hb. replace (64 * (v / 64) + v mod 64) with v in Hb by lia.
    rewrite <- testbit_land_pow2 in Hb by lia. rewrite <- Hb. destruct (Z.land w (Z.shiftl 1 (v mod 64)) =? 0); [done|].
    cbn [negb]. unfold idx. rewrite Hl by lia. mon. rewrite count_ones_low by lia.
    rewrite (word_members b w (64 * (v / 64))), <- members_in_app, members_below by
      (first [lia|intros j Hj; rewrite (Hh _ _ Ew j) by lia; f_equal; lia]).
    replace (64 * (v / 64) + v mod 64) with v by lia.
    pose proof (members_in_bound b 0 v ltac:(lia)). by unwrap.
  - apply get_opt_None in Ew. destruct (bm_contains b v) eqn:Ec; [|done]. apply Hm in Ec.
    assert (v / 64 < zlen ws) by (apply Z.div_lt_upper_bound; lia). lia.
Qed.

Lemma dense_try_new_ok b n : 0 <= n -> 64 * n <= 4294967296 -> (forall v, bm_contains b v = true -> v < 64 * n) ->
  exists d, dense_try_new b n = Ok d /\ zlen (words d) = n /\ forall v, u32_ok v -> dense_rank d v = Ok (rank_of b v).
Proof.
  intros Hn Hb Hm. unfold dense_try_new.
  destruct (set_offsets_ok (bm_iter b) (replicate (Z.to_nat n) 0)) as (ws & E & L & B).
  { apply Forall_forall. intros o Ho. apply bm_iter_elem in Ho. apply bm_contains_u32 in Ho as Hu. uok.
    unfold zlen. rewrite length_replicate, Z2Nat.id by lia. split; [lia|]. apply Z.div_lt_upper_bound; [lia|]. by apply Hm. }
  assert (Ln : zlen ws = n) by (rewrite L; unfold zlen; rewrite length_replicate; lia).
  assert (Hh : words_hold b 0 ws).
  { intros i w Hw j Hj. pose proof (get_opt_Some _ _ _ Hw). specialize (B (64 * i + j) ltac:(lia)).
    unfold bit_at in B at 1. replace ((64 * i + j) / 64) with i in B by (apply (Z.div_unique_pos _ _ _ j); lia).
    replace ((64 * i + j) mod 64) with j in B by (apply (Z.mod_unique_pos _ _ i); lia).
    rewrite Hw, bit_at_zero, orb_false_r in B. rewrite B, Z.add_0_l.
    apply eq_true_iff_eq. by rewrite bool_decide_eq_true, bm_iter_elem. }
  destruct (ranks_before_ok b ws 0 ltac:(lia) ltac:(lia) Hh) as (l & El & Ll & Gl).
  rewrite E. mon. change (64 * 0) with 0 in El. replace (members_in b 0 0) with 0 in El by done. rewrite El. mon.
  eexists. split; [done|]. split; [done|]. intros v Hv. apply dense_rank_ok; [done|done|by rewrite Ln|].
  intros i Hi. rewrite Gl by lia. do 2 f_equal.
Qed.

Lemma set_offsets_err os ws : Forall (fun o => 0 <= o) os -> Exists (fun o => zlen ws <= o / 64) os ->
  fold_res set_offset ws os = Err InvalidInput.
Proof.
  revert ws. induction os as [|o os IH]; intros ws Ho He; [inversion He|]. inversion Ho; subst. cbn [fold_res].
  destruct (Z_lt_le_dec (o / 64) (zlen ws)) as [Hlt|Hge]; [|by rewrite set_offset_err].
  destruct (set_offset_ok ws o) as (w & -> & L & _); [done..|]. mon. apply IH; [done|].
  inversion He; subst; [lia|]. by rewrite L.
Qed.

Lemma bm_iter_nonneg b : Forall (fun o => 0 <= o) (bm_iter b).
Proof. apply Forall_forall. intros o Ho%bm_iter_elem%bm_contains_u32. uok. lia. Qed.

Lemma dense_try_new_err b n v : 0 <= n -> bm_contains b v = true -> 64 * n <= v -> dense_try_new b n = Err InvalidInput.
Proof.
  intros Hn Hv Hb. unfold dense_try_new. rewrite set_offsets_err; [done|apply bm_iter_nonneg|].
  apply Exists_exists. exists v. split; [by apply bm_iter_elem|].
  unfold zlen. rewrite length_replicate, Z2Nat.id by done. apply Z.div_le_lower_bound; lia.
Qed.

(** *** The three representations *)

Definition universe (b : bitmap) (physical_rows : option Z) : Z :=
  match physical_rows with
  | Some rows => rows
  | None => match bm_max b with Some offset => offset + 1 | None => 0 end
  end.

Lemma universe_bound b p : (forall rows, p = Some rows -> u32_ok rows) -> 0 <= universe b p <= 4294967296.
Proof.
  intros Hp. unfold universe. destruct p as [rows|].
  - specialize (Hp rows eq_refl). uok. lia.
  - rewrite bm_max_iter. destruct (list.last (bm_iter b)) as [o|] eqn:E; [|lia].
    apply last_Some_elem_of, bm_iter_elem, bm_contains_u32 in E. uok. lia.
Qed.

Lemma div_ceil_spec a : a <= 64 * div_ceil a 64 < a + 64.
Proof. unfold div_ceil. pose proof (Z.div_mod (a + 64 - 1) 64). pose proof (Z.mod_pos_bound (a + 64 - 1) 64). lia. Qed.

Lemma bm_len_bound b : 0 <= bm_len b <= 4294967296.
Proof.
  rewrite bm_len_iter. split; [apply zlen_nonneg|].
  pose proof (zlen_range_list (0 ..< 4294967296)) as E. cbn [start end_] in E. rewrite <- (Z.sub_0_r 4294967296), <- E by lia.
  unfold zlen. apply inj_le, NoDup_incl_length; [rewrite <- NoDup_ListNoDup; apply ssorted_NoDup, bm_iter_sorted|].
  intros v Hv%list_elem_of_In%bm_iter_elem%bm_contains_u32. apply list_elem_of_In, elem_of_range_list. cbn. uok. lia.
Qed.

(** The representation chosen ranks every offset as the bitmap does, and is
    empty when the bitmap is. *)
Definition ranks_as (b : bitmap) (r : RankedOffsets) : Prop :=
  (forall v, u32_ok v -> rank_if_present r v = Ok (rank_of b v)) /\ ranked_is_empty r = bm_is_empty b.

Lemma ranks_roaring b : ranks_as b (RRoaring b).
Proof.
  split; [|done]. intros v Hv. cbn [rank_if_present]. unfold rank_of. destruct (bm_contains b v) eqn:E; [|done].
  rewrite bm_rank_iter. do 2 f_equal.
  assert (Hz : zlen (List.filter (fun x => x <=? v) (bm_iter b)) = zlen (List.filter (fun x => x <? v) (bm_iter b)) + 1).
  { rewrite <- (filter_ext (fun x => x <? v + 1)) by (intros x; apply eq_true_iff_eq; rewrite Z.ltb_lt, Z.leb_le; lia).
    uok. rewrite !members_below by lia. rewrite (members_in_app b 0 v (v + 1)) by lia. f_equal.
    unfold members_in. rewrite range_list_cons, range_list_nil by lia. cbn [List.filter]. by rewrite E. }
  rewrite Hz. pose proof (zlen_nonneg (List.filter (fun x => x <? v) (bm_iter b))).
  pose proof (bm_len_bound b) as Hl. rewrite bm_len_iter in Hl.
  pose proof (List.filter_length_le (fun x => x <? v) (bm_iter b)). unfold zlen in *. unwrap. lia.
Qed.

Lemma bm_is_empty_nil b : bm_is_empty b = match bm_iter b with [] => true | _ => false end.
Proof.
  apply eq_true_iff_eq. rewrite bm_is_empty_iff. split.
  - intros H. destruct (bm_iter b) as [|x l] eqn:E; [done|]. specialize (H x).
    rewrite (proj1 (bm_iter_elem b x)) in H; [done|]. rewrite E. apply list_elem_of_here.
  - intros H v. destruct (bm_contains b v) eqn:E; [|done]. apply bm_iter_elem in E. destruct (bm_iter b); [|done].
    by apply not_elem_of_nil in E.
Qed.

Lemma ranks_sparse b : ranks_as b (RSparse (bm_iter b)).
Proof.
  split; [|cbn; by rewrite bm_is_empty_nil]. intros v Hv. cbn [rank_if_present]. f_equal. unfold rank_of.
  pose proof (bm_iter_sorted b) as Hs. destruct (bm_contains b v) eqn:E.
  - apply bm_iter_elem in E. by rewrite (proj2 (binary_search_found _ _ _ Hs) (get_opt_rank _ _ Hs E)).
  - destruct (binary_search (bm_iter b) v) as [i|i] eqn:Eb; [|done].
    assert (v ∈ bm_iter b) as Hv' by (apply binary_search_is_ok; eauto). apply bm_iter_elem in Hv'. congruence.
Qed.

Lemma ranks_dense b n d : 0 <= n -> dense_try_new b n = Ok d -> 64 * n <= 4294967296 -> 12 * n < 4 * bm_len b -> ranks_as b (RDense d).
Proof.
  intros Hn E Hb Hl.
  destruct (decide (Exists (fun v => 64 * n <= v) (bm_iter b))) as [(v & Hv & Hge)%Exists_exists|Hno].
  { apply bm_iter_elem in Hv. by rewrite (dense_try_new_err b n v) in E. }
  destruct (dense_try_new_ok b n) as (d' & E' & Ld & R); [done..| |].
  { intros v Hv. apply bm_iter_elem in Hv. destruct (Z_lt_le_dec v (64 * n)); [done|]. exfalso. apply Hno, Exists_exists. eauto. }
  rewrite E in E'. injection E' as <-. split; [done|]. cbn [ranked_is_empty]. rewrite bm_is_empty_nil.
  rewrite bm_len_iter in Hl. destruct (bm_iter b) as [|x l] eqn:Ei.
  { change (zlen (@nil Z)) with 0 in Hl. lia. }
  destruct (words d) eqn:Ew; [|done]. change (zlen (@nil Z)) with 0 in Ld. subst n.
  destruct (Hno). apply Exists_cons_hd. pose proof (bm_iter_nonneg b) as Hp. rewrite Ei in Hp. inversion Hp. lia.
Qed.

Lemma ranked_try_new_ok b p r : (forall rows, p = Some rows -> u32_ok rows) -> ranked_try_new b p = Ok r -> ranks_as b r.
Proof.
  intros Hp. unfold ranked_try_new. fold (universe b p). pose proof (universe_bound b p Hp) as Hu.
  pose proof (div_ceil_spec (universe b p)) as Hc. pose proof (bm_len_bound b).
  set (n := div_ceil (universe b p) 64) in *. clearbody n.
  rewrite (checked_mul_small (bm_len b) 4) by lia. cbn [ok_or]. mon. rewrite (checked_mul_small _ 12) by lia. cbn [ok_or]. mon.
  destruct (match checked_mul _ _ with Some _ => _ | None => _ end).
  - intros [= <-]. apply ranks_roaring.
  - destruct (Z.leb_spec (bm_len b * 4) (n * 12)) as [|Hlt].
    + intros [= <-]. apply ranks_sparse.
    + intros E. inv_ok E. injection E as <-. apply (ranks_dense b n); [lia|done|lia|lia].
Qed.

(** A representation exists as long as the offsets lie below the row count. *)
Lemma ranked_try_new_total b p : (forall rows, p = Some rows -> u32_ok rows) ->
  (forall v, bm_contains b v = true -> v < universe b p) -> exists r, ranked_try_new b p = Ok r.
Proof.
  intros Hp Hm. unfold ranked_try_new. fold (universe b p). pose proof (universe_bound b p Hp) as Hu.
  pose proof (div_ceil_spec (universe b p)) as Hc. pose proof (bm_len_bound b).
  destruct (dense_try_new_ok b (div_ceil (universe b p) 64)) as (d & E & _); [lia|lia|intros v Hv; specialize (Hm v Hv); lia|].
  rewrite E. rewrite (checked_mul_small (bm_len b) 4) by lia. cbn [ok_or]. mon. rewrite (checked_mul_small _ 12) by lia. cbn [ok_or]. mon.
  destruct (match checked_mul _ _ with Some _ => _ | None => _ end); [eauto|]. destruct (_ <=? _); eauto.
Qed.

End RankedFacts.
