(* ===== verification/Remap.v ===== *)
(** * Compaction remaps

    [CompactRemapStep], [GroupRemap] and [OldFragmentRemap] of
    [lance-core/src/utils/row_addr_remap.rs]: the map from the row addresses
    before a compaction to the addresses after it.  A rewrite group keeps the
    rewritten offsets of its old fragments, ranked, and where each of its new
    fragments starts among the rewritten rows; the address of a rewritten row is
    computed from its rank. *)

From Stdlib Require Import ZArith Lia.
From stdpp Require Import base option list numbers sorting sets gmap.
From S2P Require Import Prelude Lists Bits RowAddress Itertools Roaring RankedOffsets.

(** ** The parts of [RoaringTreemap] the remap reads *)

(** [bitmaps()] yields the bitmaps of the upper halves in ascending order;
    [len()] adds their lengths. *)
Class TreemapParts (RB : Roaring) := {
  addr_treemap : Type;
  at_bitmaps : addr_treemap -> list (Z * bitmap);
  at_len : addr_treemap -> Z
}.

Class TreemapPartsLaws {RB : Roaring} (TP : TreemapParts RB) : Prop := {
  at_keys_sorted t : ssorted (map fst (at_bitmaps t));
  at_keys_u32 t : Forall u32_ok (map fst (at_bitmaps t));
  at_len_sum t : at_len t = wrap64 (zsum (map (fun p => bm_len (snd p)) (at_bitmaps t)))
}.

(** ** Model *)

Record OldFragmentRemap {RB : Roaring} := mkOldFragmentRemap {
  group_idx : Z;
  rewritten_offsets : RankedOffsets;
  rewritten_rows_before : Z;
  physical_rows : option Z
}.

(** The fragment id, the rewritten rows before it and its row count. *)
Record GroupRemap := mkGroupRemap { new_frag_row_ranges : list (Z * Z * Z) }.

Record GroupInput {RB : Roaring} {TP : TreemapParts RB} := mkGroupInput {
  gi_rewritten_old_row_addrs : addr_treemap;
  gi_old_frag_ids : list Z;
  gi_new_frags : list (Z * Z)
}.

Record GroupInputWithLayout {RB : Roaring} {TP : TreemapParts RB} := mkGroupInputWithLayout {
  gl_rewritten_old_row_addrs : addr_treemap;
  gl_old_frags : list (Z * Z);
  gl_new_frags : list (Z * Z)
}.

Record CompactRemapStep {RB : Roaring} := mkCompactRemapStep {
  groups : list GroupRemap;
  frags : gmap Z OldFragmentRemap
}.

Arguments mkOldFragmentRemap {RB}.
Arguments mkGroupInput {RB TP}.
Arguments mkGroupInputWithLayout {RB TP}.
Arguments mkCompactRemapStep {RB}.

Section RemapModel.
Context {RB : Roaring} {RR : RoaringRanks RB} {TP : TreemapParts RB}.

(** The ranges of the new fragments that hold rows, and the total. *)
Fixpoint layout_new_frags (new_frags : list (Z * Z)) (rewritten_rows_before : Z) : list (Z * Z * Z) * Z :=
  match new_frags with
  | [] => ([], rewritten_rows_before)
  | (frag_id, physical_rows) :: new_frags =>
      if physical_rows =? 0 then layout_new_frags new_frags rewritten_rows_before else
      let '(ranges, total) := layout_new_frags new_frags (rewritten_rows_before +w physical_rows) in
      ((frag_id, rewritten_rows_before, physical_rows) :: ranges, total)
  end.

(** The loop over the old fragments; it returns the bitmaps no old fragment
    took. *)
Fixpoint layout_old_frags (group_idx : Z) (old_frags : list (Z * option Z)) (per_frag : gmap Z bitmap) (seen_frag_ids : gset Z)
    (rewritten_rows_before : Z) : res (list (Z * OldFragmentRemap) * gmap Z bitmap) :=
  match old_frags with
  | [] => Ok ([], per_frag)
  | (frag_id, physical_rows) :: old_frags =>
      if bool_decide (frag_id ∈ seen_frag_ids) then Err InvalidInput else
      let bitmap := default bm_new (per_frag !! frag_id) in
      if match physical_rows, bm_max bitmap with Some physical_rows, Some offset => physical_rows <=? offset | _, _ => false end
      then Err InvalidInput else
      let num_rewritten_rows := bm_len bitmap in
      rewritten_offsets ← ranked_try_new bitmap physical_rows;
      rest ← layout_old_frags group_idx old_frags (delete frag_id per_frag) ({[frag_id]} ∪ seen_frag_ids)
               (rewritten_rows_before +w num_rewritten_rows);
      Ok ((frag_id, mkOldFragmentRemap group_idx rewritten_offsets rewritten_rows_before physical_rows) :: fst rest, snd rest)
  end.

Definition new_with_old_frags (rewritten_old_row_addrs : addr_treemap) (old_frags : list (Z * option Z)) (new_frags : list (Z * Z))
    (group_idx : Z) : res (GroupRemap * list (Z * OldFragmentRemap)) :=
  let '(new_frag_row_ranges, total_new_rows) := layout_new_frags new_frags 0 in
  let per_frag := foldl (fun m p => <[fst p := snd p]> m) ∅ (at_bitmaps rewritten_old_row_addrs) in
  laid ← layout_old_frags group_idx old_frags per_frag ∅ 0;
  let '(frags, per_frag) := laid in
  if negb (bool_decide (per_frag = ∅)) then Err InvalidInput else
  let total_rewritten_old_rows := at_len rewritten_old_row_addrs in
  if negb (total_new_rows =? total_rewritten_old_rows) then Err InvalidInput else
  Ok (mkGroupRemap new_frag_row_ranges, frags).

Definition group_new (input : GroupInput) (group_idx : Z) : res (GroupRemap * list (Z * OldFragmentRemap)) :=
  new_with_old_frags (gi_rewritten_old_row_addrs input) (map (fun id => (id, None)) (gi_old_frag_ids input))
    (gi_new_frags input) group_idx.

Definition group_new_with_layout (input : GroupInputWithLayout) (group_idx : Z) : res (GroupRemap * list (Z * OldFragmentRemap)) :=
  new_with_old_frags (gl_rewritten_old_row_addrs input) (map (fun p => (fst p, Some (snd p))) (gl_old_frags input))
    (gl_new_frags input) group_idx.

Definition compute_new_addr (g : GroupRemap) (rewritten_row_index : Z) : res Z :=
  let i := match binary_search_by (fun r => snd (fst r) ?= rewritten_row_index) (new_frag_row_ranges g) with
    | inl i => i
    | inr i => i -w 1
    end in
  range ← idx (new_frag_row_ranges g) i;
  let '(frag_id, rewritten_rows_before, _) := range in
  let offset := wrap32 (rewritten_row_index -w rewritten_rows_before) in
  Ok (new_from_parts frag_id offset).

(** Adds the fragments of one group. *)
Definition insert_frags (frags : gmap Z OldFragmentRemap) (group_frags : list (Z * OldFragmentRemap)) : res (gmap Z OldFragmentRemap) :=
  fold_res (fun frags p =>
    match frags !! fst p with
    | Some _ => Err InvalidInput
    | None => Ok (<[fst p := snd p]> frags)
    end) frags group_frags.

(** The loop of [new] and [new_with_layout], which differ in how a group is
    built. *)
Definition add_group {I} (build : I -> Z -> res (GroupRemap * list (Z * OldFragmentRemap)))
    (acc : gmap Z OldFragmentRemap * list GroupRemap) (input : I) : res (gmap Z OldFragmentRemap * list GroupRemap) :=
  let '(frags, group_remaps) := acc in
  let gi := zlen group_remaps in
  built ← build input gi;
  frags ← insert_frags frags (snd built);
  Ok (frags, group_remaps ++ [fst built]).

Definition build_step {I} (build : I -> Z -> res (GroupRemap * list (Z * OldFragmentRemap))) (inputs : list I) : res CompactRemapStep :=
  built ← fold_res (add_group build) (∅, []) inputs;
  Ok (mkCompactRemapStep (snd built) (fst built)).

Definition step_new (inputs : list GroupInput) : res CompactRemapStep := build_step group_new inputs.
Definition step_new_with_layout (inputs : list GroupInputWithLayout) : res CompactRemapStep := build_step group_new_with_layout inputs.

Definition get_in (s : CompactRemapStep) (old_frag : OldFragmentRemap) (addr : Z) : res (option (option Z)) :=
  let offset := wrap32 addr in
  if match physical_rows old_frag with Some rows => rows <=? offset | None => false end then Ok None else
  rank ← rank_if_present (rewritten_offsets old_frag) offset;
  match rank with
  | None => Ok (Some None)
  | Some rewritten_rank =>
      let rewritten_row_index := rewritten_rows_before old_frag +w rewritten_rank in
      g ← idx (groups s) (group_idx old_frag);
      addr ← compute_new_addr g rewritten_row_index;
      Ok (Some (Some addr))
  end.

Definition compact_get (s : CompactRemapStep) (addr : Z) : res (option (option Z)) :=
  let frag := wrap32 (Z.shiftr addr 32) in
  match frags s !! frag with
  | None => Ok None
  | Some old_frag => get_in s old_frag addr
  end.

Definition compact_is_empty (s : CompactRemapStep) : bool := match groups s with [] => true | _ => false end.

Definition compact_fully_deleted_fragments (s : CompactRemapStep) : option bitmap :=
  if existsb (fun p => negb (ranked_is_empty (rewritten_offsets (snd p)))) (map_to_list (frags s)) then None
  else Some (bm_from_iter (map fst (map_to_list (frags s)))).

Definition compact_affected_fragments (s : CompactRemapStep) : bitmap := bm_from_iter (map fst (map_to_list (frags s))).

End RemapModel.

(** ** Sums over the fragments *)

Lemma zsum_perm l1 l2 : l1 ≡ₚ l2 -> zsum l1 = zsum l2.
Proof. induction 1; cbn [zsum foldr] in *; unfold zsum in *; lia. Qed.

Lemma zsum_incl (g : Z -> Z) l1 l2 : NoDup l1 -> (forall x, 0 <= g x) -> (forall x, x ∈ l1 -> x ∉ l2 -> g x = 0) ->
  zsum (map g l1) <= zsum (map g l2).
Proof.
  intros Hn Hg. revert l2. induction Hn as [|x l1 Hx Hn IH]; intros l2 H0.
  - cbn. clear -Hg. induction l2 as [|y l2 IH]; [done|]. cbn. fold (zsum (map g l2)). specialize (Hg y). change (zsum (map g [])) with 0 in IH. lia.
  - cbn [map zsum foldr]. fold (zsum (map g l1)). destruct (decide (x ∈ l2)) as [Hin|Hout].
    + apply elem_of_Permutation in Hin as [l2' Hp].
      assert (E : zsum (map g l2) = g x + zsum (map g l2')) by (by rewrite (zsum_perm _ (map g (x :: l2'))) by (by apply Permutation_map)).
      rewrite E. specialize (IH l2'). enough (zsum (map g l1) <= zsum (map g l2')) by lia. apply IH.
      intros y Hy Hy'. apply H0; [by apply list_elem_of_further|]. rewrite Hp. intros [->|]%elem_of_cons; done.
    + rewrite (H0 x (list_elem_of_here _ _) Hout). specialize (IH l2). rewrite Z.add_0_l. apply IH.
      intros y Hy. apply H0. by apply list_elem_of_further.
Qed.

(** ** The rows of a group *)

(** A group, with the row counts of its old fragments where they are known. *)
Record GroupSpec {RB : Roaring} {TP : TreemapParts RB} := mkGroupSpec {
  gs_addrs : addr_treemap;
  gs_old : list (Z * option Z);
  gs_new : list (Z * Z)
}.
Arguments mkGroupSpec {RB TP}.

(** The addresses of a fragment's rows. *)
Definition frag_addrs (frag_id : Z) (offsets : list Z) : list Z := map (new_from_parts frag_id) offsets.

(** The rows the new fragments hold, in the order they were written. *)
Definition new_rows (new_frags : list (Z * Z)) : list Z :=
  flat_map (fun p => frag_addrs (fst p) (range_list (0 ..< snd p))) new_frags.

Section RemapFacts.
Context {RB : Roaring} {RL : RoaringLaws RB} {RR : RoaringRanks RB} {RRL : RoaringRanksLaws RR}
  {TP : TreemapParts RB} {TPL : TreemapPartsLaws TP}.

(** The rewritten offsets of an old fragment. *)
Definition bitmap_of (t : addr_treemap) (frag_id : Z) : bitmap :=
  default bm_new ((list_to_map (at_bitmaps t) : gmap Z bitmap) !! frag_id).

(** The rewritten rows, in the order the old fragments were read. *)
Definition old_rows (t : addr_treemap) (old_frags : list (Z * option Z)) : list Z :=
  flat_map (fun p => frag_addrs (fst p) (bm_iter (bitmap_of t (fst p)))) old_frags.

(** *** The new fragments *)

Definition frags_ok (l : list (Z * Z)) : Prop := Forall (fun p => u32_ok (fst p) /\ u32_ok (snd p)) l.

Lemma zlen_frag_addrs f l : zlen (frag_addrs f l) = zlen l.
Proof. apply zlen_map. Qed.

Lemma zlen_new_rows nf : frags_ok nf -> zlen (new_rows nf) = zsum (map snd nf).
Proof.
  induction 1 as [|[f n] nf [Hf Hn] _ IH]; [done|]. cbn [new_rows flat_map map fst snd zsum foldr].
  fold (new_rows nf). fold (zsum (map snd nf)). cbn in Hn. uok.
  rewrite zlen_app, IH, zlen_frag_addrs, zlen_range_list by (cbn; lia). cbn. lia.
Qed.

Lemma zsum_rows_nonneg nf : frags_ok nf -> 0 <= zsum (map snd nf).
Proof. intros H. rewrite <- zlen_new_rows by done. apply zlen_nonneg. Qed.

Lemma layout_new_total nf b : frags_ok nf -> 0 <= b -> b + zsum (map snd nf) <= U64_MAX ->
  snd (layout_new_frags nf b) = b + zsum (map snd nf).
Proof.
  intros H. revert b. induction H as [|[f n] nf [Hf Hn] H IH]; intros b Hb Hs; [cbn; lia|].
  cbn [layout_new_frags map snd zsum foldr fst] in *. fold (zsum (map snd nf)) in *. pose proof (zsum_rows_nonneg nf H).
  uok. destruct (Z.eqb_spec n 0) as [->|Hn0]; [rewrite IH; lia|]. unwrap.
  specialize (IH (b + n) ltac:(lia) ltac:(lia)). destruct (layout_new_frags nf (b + n)) as [r t]. cbn in *. lia.
Qed.

(** Every entry of the ranges starts at or after [b]. *)
Lemma layout_new_ge nf b : frags_ok nf -> 0 <= b -> b + zsum (map snd nf) <= U64_MAX ->
  Forall (fun r => b <= snd (fst r) /\ 0 < snd r /\ snd (fst r) + snd r <= b + zsum (map snd nf)) (fst (layout_new_frags nf b)).
Proof.
  intros H. revert b. induction H as [|[f n] nf [Hf Hn] H IH]; intros b Hb Hs; [constructor|].
  cbn [layout_new_frags map snd zsum foldr fst] in *. fold (zsum (map snd nf)) in *. pose proof (zsum_rows_nonneg nf H).
  uok. destruct (Z.eqb_spec n 0) as [->|Hn0].
  - eapply Forall_impl; [apply IH; lia|]. intros r. cbn. lia.
  - unwrap. specialize (IH (b + n) ltac:(lia) ltac:(lia)). destruct (layout_new_frags nf (b + n)) as [r t].
    cbn [fst] in *. constructor; [cbn; lia|]. eapply Forall_impl; [exact IH|]. intros x. cbn. lia.
Qed.

(** The ranges are in order, do not overlap and each row lies in one of them. *)
Lemma layout_new_find nf b k : frags_ok nf -> 0 <= b -> b + zsum (map snd nf) <= U64_MAX -> b <= k < b + zsum (map snd nf) ->
  exists i f r n, get_opt (fst (layout_new_frags nf b)) i = Some (f, r, n) /\ r <= k < r + n /\ u32_ok n /\
    get_opt (new_rows nf) (k - b) = Some (new_from_parts f (k - r)) /\
    forall j x, get_opt (fst (layout_new_frags nf b)) j = Some x -> (j < i -> snd (fst x) < r) /\ (i < j -> k < snd (fst x)).
Proof.
  intros H. revert b. induction H as [|[f n] nf [Hf Hn] H IH]; intros b Hb Hs Hk; [cbn in Hk; lia|].
  cbn [layout_new_frags map snd zsum foldr fst new_rows flat_map] in *. fold (zsum (map snd nf)) in *. fold (new_rows nf).
  pose proof (zsum_rows_nonneg nf H). uok. destruct (Z.eqb_spec n 0) as [->|Hn0].
  { destruct (IH b ltac:(lia) ltac:(lia) ltac:(lia)) as (i & f' & r & m & R). exists i, f', r, m. exact R. }
  unwrap. pose proof (layout_new_ge nf (b + n) H ltac:(lia) ltac:(lia)) as Hge.
  specialize (IH (b + n) ltac:(lia) ltac:(lia)). destruct (layout_new_frags nf (b + n)) as [rs t]. cbn [fst] in *.
  assert (L : zlen (frag_addrs f (range_list (0 ..< n))) = n) by (rewrite zlen_frag_addrs, zlen_range_list; cbn; lia).
  destruct (Z_lt_le_dec k (b + n)) as [Hlt|Hle].
  - exists 0, f, b, n. split; [done|]. split; [lia|]. split; [lia|]. split.
    + rewrite get_opt_app, L. destruct (Z.ltb_spec (k - b) n); [|lia]. unfold frag_addrs.
      unfold range_list. cbn [start end_]. rewrite get_opt_map, get_opt_seqZ by lia. cbn. do 2 f_equal; lia.
    + intros j x Hx. rewrite get_opt_cons in Hx. destruct (Z.eqb_spec j 0) as [->|]; [lia|].
      pose proof (get_opt_Some _ _ _ Hx). apply (Forall_get_opt _ _ _ _ Hge) in Hx. lia.
  - destruct (IH ltac:(lia)) as (i & f' & r & m & G & Hr & Hm & Hrow & Hord). exists (i + 1), f', r, m.
    pose proof (get_opt_Some _ _ _ G). pose proof (Forall_get_opt _ _ _ _ Hge G) as Hgi. cbn in Hgi.
    split; [rewrite get_opt_cons; destruct (Z.eqb_spec (i + 1) 0); [lia|]; rewrite <- G; f_equal; lia|].
    split; [done|]. split; [done|]. split.
    + rewrite get_opt_app, L. destruct (Z.ltb_spec (k - b) n); [lia|]. rewrite <- Hrow. f_equal. lia.
    + intros j x Hx. rewrite get_opt_cons in Hx. destruct (Z.eqb_spec j 0) as [->|Hj].
      * injection Hx as <-. cbn. lia.
      * specialize (Hord _ _ Hx). split; intros; apply Hord; lia.
Qed.

Lemma layout_new_sorted nf b : frags_ok nf -> 0 <= b -> b + zsum (map snd nf) <= U64_MAX ->
  StronglySorted (fun x y => snd (fst x) < snd (fst y)) (fst (layout_new_frags nf b)).
Proof.
  intros H. revert b. induction H as [|[f n] nf [Hf Hn] H IH]; intros b Hb Hs; [constructor|].
  cbn [layout_new_frags map snd zsum foldr fst] in *. fold (zsum (map snd nf)) in *. pose proof (zsum_rows_nonneg nf H).
  uok. destruct (Z.eqb_spec n 0) as [->|Hn0]; [apply IH; lia|]. unwrap.
  pose proof (layout_new_ge nf (b + n) H ltac:(lia) ltac:(lia)) as Hge. specialize (IH (b + n) ltac:(lia) ltac:(lia)).
  destruct (layout_new_frags nf (b + n)) as [r t]. cbn [fst] in *. constructor; [done|].
  eapply Forall_impl; [exact Hge|]. intros x. cbn. lia.
Qed.

Lemma layout_new_len nf b : frags_ok nf -> zlen (fst (layout_new_frags nf b)) <= zsum (map snd nf).
Proof.
  intros H. revert b. induction H as [|[f n] nf [Hf Hn] H IH]; intros b; [done|].
  cbn [layout_new_frags map snd zsum foldr fst] in *. fold (zsum (map snd nf)) in *. uok.
  destruct (Z.eqb_spec n 0) as [->|Hn0]; [apply IH|]. specialize (IH (b +w n)).
  destruct (layout_new_frags nf (b +w n)) as [r t]. cbn [fst] in *. rewrite zlen_cons. lia.
Qed.

(** The address of the [k]-th rewritten row is the [k]-th new row. *)
Lemma compute_new_addr_ok nf k : frags_ok nf -> zsum (map snd nf) <= U64_MAX -> 0 <= k < zsum (map snd nf) ->
  exists a, compute_new_addr (mkGroupRemap (fst (layout_new_frags nf 0))) k = Ok a /\ get_opt (new_rows nf) k = Some a.
Proof.
  intros H Hs Hk. destruct (layout_new_find nf 0 k H ltac:(lia) ltac:(lia) ltac:(lia)) as (i & f & r & n & G & Hr & Hn & Hrow & Hord).
  pose proof (layout_new_ge nf 0 H ltac:(lia) ltac:(lia)) as Hge. pose proof (Forall_get_opt _ _ _ _ Hge G) as Hgi. cbn in Hgi.
  pose proof (layout_new_sorted nf 0 H ltac:(lia) ltac:(lia)) as Hso.
  unfold compute_new_addr. cbn [new_frag_row_ranges]. set (l := fst (layout_new_frags nf 0)) in *.
  pose proof (get_opt_Some _ _ _ G) as Hi.
  assert (Hc : cmp_sorted (fun x : Z * Z * Z => snd (fst x) ?= k) l).
  { intros p q x y Hpq Hx Hy. pose proof (sorted_lookup _ _ _ _ _ _ Hso Hx Hy Hpq) as Hlt. cbn in Hlt.
    split; [rewrite !Z.compare_lt_iff|rewrite !Z.compare_gt_iff]; lia. }
  pose proof (binary_search_by_spec _ _ Hc) as Hb.
  assert (E : match binary_search_by (fun x : Z * Z * Z => snd (fst x) ?= k) l with inl j => j | inr j => j -w 1 end = i).
  { destruct (binary_search_by _ l) as [j|j].
    - destruct Hb as (x & Hx & Heq%Z.compare_eq). destruct (Hord j x Hx) as [H1 H2]. destruct (Z.lt_trichotomy i j) as [H3|[?|H3]]; [specialize (H2 H3)| |specialize (H1 H3)]; lia.
    - destruct Hb as (Hj & Hlt & Hgt).
      assert (i < j) by (destruct (Z_lt_le_dec i j) as [|Hle]; [done|]; specialize (Hgt i _ Hle G); cbn in Hgt; apply Z.compare_gt_iff in Hgt; lia).
      pose proof (layout_new_len nf 0 H) as Hll. fold l in Hll. unwrap.
      destruct (get_opt l (j - 1)) as [x|] eqn:Ex; [|apply get_opt_None in Ex; lia].
      specialize (Hlt (j - 1) x ltac:(lia) Ex). change (snd (fst x) < k) in Hlt. destruct (Hord _ _ Ex) as [_ H2].
      destruct (Z_lt_le_dec i (j - 1)) as [H3|]; [specialize (H2 H3)|]; lia. }
  rewrite E. unfold idx. rewrite G. mon. uok. unwrap. eexists. split; [done|]. by rewrite Z.sub_0_r in Hrow.
Qed.

(** *** The old fragments *)

Lemma per_frag_map (l : list (Z * bitmap)) : NoDup (map fst l) ->
  foldl (fun m p => <[fst p := snd p]> m) (∅ : gmap Z bitmap) l = list_to_map l.
Proof.
  induction l as [|p l IH] using rev_ind; intros Hn; [done|]. rewrite foldl_snoc. rewrite map_app in Hn.
  apply NoDup_app in Hn as (Hn & Hd & _). rewrite IH by done. destruct p as [f b]. rewrite list_to_map_snoc; [done|].
  intros Hin. apply (Hd f); [done|]. cbn. apply list_elem_of_here.
Qed.

(** What the loop over the old fragments lays out: for each, its rewritten
    offsets ranked and the rows before it. *)
Fixpoint laid_out (gi : Z) (per : gmap Z bitmap) (before : Z) (old_frags : list (Z * option Z)) (laid : list (Z * OldFragmentRemap)) : Prop :=
  match old_frags, laid with
  | [], [] => True
  | (f, rows) :: old_frags, (f', r) :: laid =>
      let b := default bm_new (per !! f) in
      f' = f /\ group_idx r = gi /\ physical_rows r = rows /\ rewritten_rows_before r = before /\
      ranks_as b (rewritten_offsets r) /\ laid_out gi per (before + bm_len b) old_frags laid
  | _, _ => False
  end.

Definition offsets_in (b : bitmap) (rows : option Z) : Prop :=
  match rows with Some rows => forall v, bm_contains b v = true -> v < rows | None => True end.

Lemma bm_max_lt b rows : match bm_max b with Some o => rows <=? o | None => false end = false <-> forall v, bm_contains b v = true -> v < rows.
Proof.
  rewrite bm_max_iter. split.
  - intros H v Hv. apply bm_iter_elem in Hv. destruct (list.last (bm_iter b)) as [o|] eqn:E.
    + apply Z.leb_gt in H. apply last_split in E. rewrite E in Hv. pose proof (bm_iter_sorted b) as Hs. rewrite E in Hs.
      apply elem_of_app in Hv as [Hv|Hv%list_elem_of_singleton]; [|lia].
      apply ssorted_app in Hs as (_ & _ & Hs). specialize (Hs v o Hv (list_elem_of_here _ _)). lia.
    + apply last_None in E. rewrite E in Hv. by apply not_elem_of_nil in Hv.
  - intros H. destruct (list.last (bm_iter b)) as [o|] eqn:E; [|done].
    apply last_Some_elem_of, bm_iter_elem, H in E. apply Z.leb_gt. lia.
Qed.

Lemma offsets_in_check b rows :
  match rows, bm_max b with Some rows, Some offset => rows <=? offset | _, _ => false end = false <-> offsets_in b rows.
Proof. destruct rows as [rows|]; [apply bm_max_lt|done]. Qed.

Lemma ranked_of_checked b rows : (forall n, rows = Some n -> u32_ok n) -> offsets_in b rows ->
  exists r, ranked_try_new b rows = Ok r /\ ranks_as b r.
Proof.
  intros Hu Hin. destruct (ranked_try_new_total b rows Hu) as [r Hr].
  - unfold universe. destruct rows as [n|]; [exact Hin|]. intros v Hv. pose proof (proj2 (bm_max_lt b (v + 1))) as Hm.
    destruct (bm_max b) as [o|] eqn:E; [|].
    + rewrite bm_max_iter in E. apply last_split in E. pose proof (bm_iter_sorted b) as Hs. apply bm_iter_elem in Hv.
      rewrite E in Hs, Hv. apply ssorted_app in Hs as (_ & _ & Hs).
      apply elem_of_app in Hv as [Hv|Hv%list_elem_of_singleton]; [|lia]. specialize (Hs v o Hv (list_elem_of_here _ _)). lia.
    + rewrite bm_max_iter in E. apply last_None in E. apply bm_iter_elem in Hv. rewrite E in Hv. by apply not_elem_of_nil in Hv.
  - exists r. split; [done|]. by eapply ranked_try_new_ok.
Qed.

(** The old fragments a group accepts. *)
Definition old_ok (old_frags : list (Z * option Z)) : Prop :=
  Forall (fun p => u32_ok (fst p) /\ forall n, snd p = Some n -> u32_ok n) old_frags.
Definition old_valid (per : gmap Z bitmap) (old_frags : list (Z * option Z)) : Prop :=
  NoDup (map fst old_frags) /\ Forall (fun p => offsets_in (default bm_new (per !! fst p)) (snd p)) old_frags.

Definition old_count (per : gmap Z bitmap) (old_frags : list (Z * option Z)) : Z :=
  zsum (map (fun p => bm_len (default bm_new (per !! fst p))) old_frags).

Lemma old_count_nonneg per old : 0 <= old_count per old.
Proof.
  unfold old_count. induction old as [|p old IH]; [done|]. cbn [map zsum foldr]. fold (zsum (map (fun p => bm_len (default bm_new (per !! fst p))) old)).
  pose proof (bm_len_bound (default bm_new (per !! p.1))). lia.
Qed.

Lemma layout_old_ok gi full old per seen before : old_ok old -> (forall f, f ∉ seen -> per !! f = full !! f) ->
  NoDup (map fst old) -> (forall f, f ∈ map fst old -> f ∉ seen) -> Forall (fun p => offsets_in (default bm_new (full !! fst p)) (snd p)) old ->
  0 <= before -> before + old_count full old <= U64_MAX ->
  exists laid per', layout_old_frags gi old per seen before = Ok (laid, per') /\ laid_out gi full before old laid /\
    forall f, per' !! f = if bool_decide (f ∈ map fst old) then None else per !! f.
Proof.
  intros Hok. revert per seen before. induction Hok as [|[f rows] old [Hf Hr] Hok IH]; intros per seen before Hag Hnd Hdis Hin Hb Hc.
  { by exists [], per. }
  cbn [map fst snd] in *. inversion Hnd as [|?? Hnf Hnd']; subst. inversion Hin as [|?? Hif Hin']; subst. cbn [fst snd] in Hif.
  unfold old_count in Hc. cbn [map zsum foldr fst] in Hc. fold (zsum (map (fun p => bm_len (default bm_new (full !! fst p))) old)) in Hc.
  fold (old_count full old) in Hc. pose proof (old_count_nonneg full old) as Hn.
  assert (Hfs : f ∉ seen) by (apply Hdis, list_elem_of_here).
  cbn [layout_old_frags]. rewrite bool_decide_false by done. rewrite (Hag f Hfs).
  pose proof (bm_len_bound (default bm_new (full !! f))) as Hlb. set (b := default bm_new (full !! f)) in *.
  rewrite (proj2 (offsets_in_check b rows)) by done. destruct (ranked_of_checked b rows Hr Hif) as (r & -> & Hra). mon. unwrap.
  destruct (IH (delete f per) ({[f]} ∪ seen) (before + bm_len b)) as (laid & per' & E & L & P); [|done| |done|lia|lia|].
  { intros g Hg. rewrite lookup_delete_ne by set_solver. apply Hag. set_solver. }
  { intros g Hg Hs. apply elem_of_union in Hs as [->%elem_of_singleton|Hs]; [done|]. by apply (Hdis g); [apply list_elem_of_further|]. }
  rewrite E. mon. do 2 eexists. split; [done|]. cbn [fst snd]. split; [cbn [laid_out group_idx physical_rows rewritten_rows_before rewritten_offsets]; auto 10|].
  intros g. rewrite P. destruct (decide (g = f)) as [->|Hne].
  - rewrite bool_decide_true with (P := f ∈ f :: _) by apply list_elem_of_here. rewrite lookup_delete_eq. by destruct (bool_decide _).
  - rewrite lookup_delete_ne by done. rewrite (bool_decide_ext (g ∈ f :: map fst old) (g ∈ map fst old)); [done|].
    rewrite elem_of_cons. tauto.
Qed.

Lemma layout_old_valid gi full old per seen before out : old_ok old -> (forall f, f ∉ seen -> per !! f = full !! f) ->
  layout_old_frags gi old per seen before = Ok out ->
  old_valid full old /\ (forall f, f ∈ map fst old -> f ∉ seen).
Proof.
  intros Hok. revert per seen before out. induction Hok as [|[f rows] old [Hf Hr] Hok IH]; intros per seen before out Hag.
  { intros _. split; [split; constructor|]. by intros f Hf%not_elem_of_nil. }
  cbn [layout_old_frags map fst]. case_bool_decide as Hs; [done|]. rewrite (Hag f Hs). set (b := default bm_new (full !! f)).
  destruct (match rows with Some _ => _ | None => _ end) eqn:Ei; [done|]. apply offsets_in_check in Ei.
  destruct (ranked_of_checked b rows Hr Ei) as (r & -> & _). mon. intros E. inv_ok E.
  apply IH in E0 as [[Hnd Hin] Hdis]; [|intros g Hg; rewrite lookup_delete_ne by set_solver; apply Hag; set_solver].
  split; [split|].
  - constructor; [|done]. intros Hin'. specialize (Hdis f Hin'). set_solver.
  - by constructor.
  - intros g [->|Hg]%elem_of_cons; [done|]. specialize (Hdis g Hg). set_solver.
Qed.

Lemma layout_old_err gi old per seen before : old_ok old ->
  (exists out, layout_old_frags gi old per seen before = Ok out) \/ layout_old_frags gi old per seen before = Err InvalidInput.
Proof.
  intros Hok. revert per seen before. induction Hok as [|[f rows] old [Hf Hr] Hok IH]; intros per seen before; [left; by eexists|].
  cbn [layout_old_frags]. case_bool_decide; [by right|]. set (b := default bm_new (per !! f)).
  destruct (match rows with Some _ => _ | None => _ end) eqn:Ei; [by right|]. apply offsets_in_check in Ei.
  destruct (ranked_of_checked b rows Hr Ei) as (r & -> & _). mon.
  destruct (IH (delete f per) ({[f]} ∪ seen) (before +w bm_len b)) as [[out ->]| ->]; mon; [left; by eexists|by right].
Qed.

(** *** Counting the rewritten rows *)

Definition addr_count (t : addr_treemap) : Z := zsum (map (fun p => bm_len (snd p)) (at_bitmaps t)).

Lemma at_keys_nodup t : NoDup (map fst (at_bitmaps t)).
Proof. apply ssorted_NoDup, at_keys_sorted. Qed.

Lemma bitmap_of_elem t p : p ∈ at_bitmaps t -> bitmap_of t (fst p) = snd p.
Proof.
  intros Hp. unfold bitmap_of. destruct p as [f b]. rewrite (elem_of_list_to_map_1 _ f b); [done|apply at_keys_nodup|done].
Qed.

Lemma bitmap_of_absent t f : f ∉ map fst (at_bitmaps t) -> bitmap_of t f = bm_new.
Proof. intros Hf. unfold bitmap_of. by rewrite not_elem_of_list_to_map_1. Qed.

Lemma bm_len_new : bm_len bm_new = 0.
Proof.
  rewrite bm_len_iter. destruct (bm_iter bm_new) as [|x l] eqn:E; [done|].
  pose proof (bm_iter_elem bm_new x) as H. rewrite E, bm_contains_new in H. discriminate (proj1 H (list_elem_of_here _ _)).
Qed.

Lemma addr_count_keys t : addr_count t = zsum (map (fun f => bm_len (bitmap_of t f)) (map fst (at_bitmaps t))).
Proof.
  unfold addr_count. f_equal. rewrite map_map. apply map_ext_Forall, Forall_forall. intros p Hp. by rewrite bitmap_of_elem.
Qed.

Lemma old_count_ids t old : old_count (list_to_map (at_bitmaps t)) old = zsum (map (fun f => bm_len (bitmap_of t f)) (map fst old)).
Proof. unfold old_count. by rewrite map_map. Qed.

Lemma old_count_le t old : NoDup (map fst old) -> old_count (list_to_map (at_bitmaps t)) old <= addr_count t.
Proof.
  intros Hn. rewrite old_count_ids, addr_count_keys. apply zsum_incl; [done|intros f; apply bm_len_bound|].
  intros f _ Hf. by rewrite bitmap_of_absent, bm_len_new.
Qed.

Lemma old_count_all t old : NoDup (map fst old) -> (forall f, f ∈ map fst (at_bitmaps t) -> f ∈ map fst old) ->
  old_count (list_to_map (at_bitmaps t)) old = addr_count t.
Proof.
  intros Hn Hk. apply Z.le_antisymm; [by apply old_count_le|]. rewrite old_count_ids, addr_count_keys.
  apply zsum_incl; [apply at_keys_nodup|intros f; apply bm_len_bound|]. intros f Hf Hf'. by destruct Hf'; apply Hk.
Qed.

Lemma zlen_old_rows t old : zlen (old_rows t old) = old_count (list_to_map (at_bitmaps t)) old.
Proof.
  rewrite old_count_ids. induction old as [|[f rows] old IH]; [done|]. cbn [old_rows flat_map map fst zsum foldr].
  fold (old_rows t old). rewrite zlen_app, IH, zlen_frag_addrs, bm_len_iter. done.
Qed.

(** *** A group *)

Definition group_typed (g : GroupSpec) : Prop :=
  old_ok (gs_old g) /\ frags_ok (gs_new g) /\ zsum (map snd (gs_new g)) <= U64_MAX /\ addr_count (gs_addrs g) <= U64_MAX.

(** What a group has to satisfy: no old fragment twice, every rewritten row in
    its fragment, no row of another fragment, and as many rows as before. *)
Definition group_valid (g : GroupSpec) : Prop :=
  NoDup (map fst (gs_old g)) /\ Forall (fun p => offsets_in (bitmap_of (gs_addrs g) (fst p)) (snd p)) (gs_old g) /\
  (forall f, f ∈ map fst (at_bitmaps (gs_addrs g)) -> f ∈ map fst (gs_old g)) /\
  zlen (new_rows (gs_new g)) = zlen (old_rows (gs_addrs g) (gs_old g)).

Definition build_group (g : GroupSpec) (gi : Z) := new_with_old_frags (gs_addrs g) (gs_old g) (gs_new g) gi.

Lemma build_group_ok g gi : group_typed g -> group_valid g ->
  exists laid, build_group g gi = Ok (mkGroupRemap (fst (layout_new_frags (gs_new g) 0)), laid) /\
    laid_out gi (list_to_map (at_bitmaps (gs_addrs g))) 0 (gs_old g) laid.
Proof.
  intros (Ho & Hf & Hs & Hc) (Hnd & Hin & Hk & Hcount). unfold build_group, new_with_old_frags.
  rewrite per_frag_map by apply at_keys_nodup. set (per := list_to_map (at_bitmaps (gs_addrs g)) : gmap Z bitmap).
  pose proof (old_count_all _ _ Hnd Hk) as Hall. fold per in Hall.
  destruct (layout_old_ok gi per (gs_old g) per ∅ 0) as (laid & per' & E & L & P); [done|done|done|set_solver|done|lia|lia|].
  pose proof (layout_new_total (gs_new g) 0 Hf ltac:(lia) ltac:(lia)) as Ht.
  destruct (layout_new_frags (gs_new g) 0) as [ranges total]. cbn [fst snd] in *. rewrite E. mon.
  rewrite bool_decide_true; [cbn [negb]|].
  - rewrite at_len_sum. fold (addr_count (gs_addrs g)). pose proof (old_count_nonneg per (gs_old g)). unwrap.
    rewrite zlen_new_rows, zlen_old_rows in Hcount by done. fold per in Hcount.
    destruct (Z.eqb_spec total (addr_count (gs_addrs g))); [|lia]. eauto.
  - apply map_eq. intros f. rewrite P, lookup_empty. case_bool_decide as Hfo; [done|].
    apply not_elem_of_list_to_map_1. intros H. by apply Hfo, Hk.
Qed.

Lemma build_group_valid g gi out : group_typed g -> build_group g gi = Ok out -> group_valid g.
Proof.
  intros (Ho & Hf & Hs & Hc). unfold build_group, new_with_old_frags. rewrite per_frag_map by apply at_keys_nodup.
  set (per := list_to_map (at_bitmaps (gs_addrs g)) : gmap Z bitmap).
  pose proof (layout_new_total (gs_new g) 0 Hf ltac:(lia) ltac:(lia)) as Ht.
  destruct (layout_new_frags (gs_new g) 0) as [ranges total]. cbn [fst snd] in *. intros E. inv_ok E. destruct a as [laid per'].
  pose proof (layout_old_valid gi per _ per ∅ 0 _ Ho ltac:(done) E0) as [[Hnd Hin] _].
  pose proof (old_count_le (gs_addrs g) (gs_old g) Hnd) as Hle. fold per in Hle.
  destruct (layout_old_ok gi per (gs_old g) per ∅ 0) as (laid' & per'' & E' & _ & P); [done|done|done|set_solver|done|lia|lia|].
  rewrite E' in E0. injection E0 as <- <-.
  case_bool_decide as Hemp; cbn [negb] in E; [|done]. subst per''.
  assert (Hk : forall f, f ∈ map fst (at_bitmaps (gs_addrs g)) -> f ∈ map fst (gs_old g)).
  { intros f Hfk. specialize (P f). rewrite lookup_empty in P. case_bool_decide as Hfo; [done|].
    symmetry in P. by apply not_elem_of_list_to_map_2 in P. }
  split; [done|]. split; [done|]. split; [done|]. rewrite zlen_new_rows, zlen_old_rows by done.
  rewrite (old_count_all _ _ Hnd Hk). rewrite at_len_sum in E. fold (addr_count (gs_addrs g)) in E.
  pose proof (old_count_nonneg per (gs_old g)). unwrap_in E.
  destruct (Z.eqb_spec total (addr_count (gs_addrs g))); [lia|done].
Qed.

Lemma build_group_err g gi : group_typed g -> (exists out, build_group g gi = Ok out) \/ build_group g gi = Err InvalidInput.
Proof.
  intros Ht. unfold build_group, new_with_old_frags. destruct (layout_new_frags _ _) as [ranges total].
  destruct (layout_old_err gi (gs_old g) (foldl (fun m p => <[fst p := snd p]> m) ∅ (at_bitmaps (gs_addrs g))) ∅ 0) as [[[laid per] ->]| ->];
    [apply Ht| |by right]. mon. destruct (negb _); [by right|]. destruct (negb _); [by right|]. left. by eexists.
Qed.

(** *** The fragments of a step *)

(** The layout of one old fragment of group [i]. *)
Definition entry_ok (g : GroupSpec) (i f : Z) (r : OldFragmentRemap) : Prop :=
  exists pre rows post, gs_old g = pre ++ (f, rows) :: post /\ group_idx r = i /\ physical_rows r = rows /\
    rewritten_rows_before r = zlen (old_rows (gs_addrs g) pre) /\ ranks_as (bitmap_of (gs_addrs g) f) (rewritten_offsets r).

Lemma laid_out_fst gi per before old laid : laid_out gi per before old laid -> map fst laid = map fst old.
Proof.
  revert before laid. induction old as [|[f rows] old IH]; intros before [|[f' r] laid]; cbn [laid_out map fst]; try done.
  intros (-> & _ & _ & _ & _ & H). f_equal. by eapply IH.
Qed.

Lemma laid_out_entry t gi before old laid f r : laid_out gi (list_to_map (at_bitmaps t)) before old laid -> (f, r) ∈ laid ->
  exists pre rows post, old = pre ++ (f, rows) :: post /\ group_idx r = gi /\ physical_rows r = rows /\
    rewritten_rows_before r = before + zlen (old_rows t pre) /\ ranks_as (bitmap_of t f) (rewritten_offsets r).
Proof.
  revert before laid. induction old as [|[f0 rows] old IH]; intros before [|[f' r'] laid]; cbn [laid_out];
    [intros _ H; by apply not_elem_of_nil in H|done|done|].
  intros (-> & Hg & Hp & Hb & Hr & H) [[= -> ->]|Hin]%elem_of_cons.
  - exists [], rows, old. split; [done|]. split; [done|]. split; [done|]. split; [|done].
    rewrite Hb. change (zlen (old_rows t [])) with 0. lia.
  - destruct (IH _ _ H Hin) as (pre & rows' & post & -> & Hg' & Hp' & Hb' & Hr'). exists ((f0, rows) :: pre), rows', post.
    split; [done|]. split; [done|]. split; [done|]. split; [|done]. rewrite Hb'. cbn [old_rows flat_map fst].
    fold (old_rows t pre). rewrite zlen_app, zlen_frag_addrs, <- bm_len_iter. unfold bitmap_of. lia.
Qed.

Lemma insert_frags_ok laid m : NoDup (map fst laid) -> (forall f, f ∈ map fst laid -> m !! f = None) ->
  exists m', insert_frags m laid = Ok m' /\
    forall f r, m' !! f = Some r <-> (f, r) ∈ laid \/ m !! f = Some r.
Proof.
  revert m. induction laid as [|[f r] laid IH]; intros m Hn Hm.
  { exists m. split; [done|]. intros f r. split; [by right|]. intros [H|H]; [by apply not_elem_of_nil in H|done]. }
  cbn [map fst] in *. inversion Hn as [|?? Hf Hn']; subst. unfold insert_frags. cbn [fold_res fst snd].
  rewrite Hm by apply list_elem_of_here. mon. destruct (IH (<[f := r]> m) Hn') as (m' & E & P).
  { intros g Hg. rewrite lookup_insert_ne by (intros ->; done). apply Hm. by apply list_elem_of_further. }
  exists m'. split; [exact E|]. intros g q. rewrite P, elem_of_cons. destruct (decide (g = f)) as [->|Hne].
  - rewrite lookup_insert_eq, (Hm f (list_elem_of_here _ _)). split; [intros [H|[= <-]]; auto|intros [[[= ->]|H]|H]; auto; done].
  - rewrite lookup_insert_ne by done. split; [tauto|]. intros [[[= -> ->]|H]|H]; [done|auto..].
Qed.

Lemma insert_frags_valid laid m m' : insert_frags m laid = Ok m' -> NoDup (map fst laid) /\ forall f, f ∈ map fst laid -> m !! f = None.
Proof.
  revert m. induction laid as [|[f r] laid IH]; intros m.
  { intros _. split; [constructor|]. by intros f Hf%not_elem_of_nil. }
  unfold insert_frags. cbn [fold_res fst snd map]. destruct (m !! f) as [q|] eqn:Em; [done|]. mon. intros E. apply IH in E as [Hn Hm]. split.
  - constructor; [|done]. intros Hf. specialize (Hm f Hf). by rewrite lookup_insert_eq in Hm.
  - intros g [->|Hg]%elem_of_cons; [done|]. specialize (Hm g Hg). apply lookup_insert_None in Hm. tauto.
Qed.

Lemma insert_frags_err laid m : (exists m', insert_frags m laid = Ok m') \/ insert_frags m laid = Err InvalidInput.
Proof.
  revert m. induction laid as [|[f r] laid IH]; intros m; [left; by eexists|]. unfold insert_frags. cbn [fold_res fst snd].
  destruct (m !! f); [by right|]. mon. apply IH.
Qed.

(** *** Building a step *)

Definition group_ids (gs : list GroupSpec) : list Z := flat_map (fun g => map fst (gs_old g)) gs.
Definition steps_valid (gs : list GroupSpec) : Prop := Forall group_valid gs /\ NoDup (group_ids gs).
Definition new_group (g : GroupSpec) : GroupRemap := mkGroupRemap (fst (layout_new_frags (gs_new g) 0)).

(** What a built step holds. *)
Definition step_holds (gs : list GroupSpec) (s : CompactRemapStep) : Prop :=
  groups s = map new_group gs /\
  (forall f, is_Some (frags s !! f) <-> f ∈ group_ids gs) /\
  (forall f r, frags s !! f = Some r -> exists i g, get_opt gs i = Some g /\ entry_ok g i f r).

Lemma group_ids_snoc gs g : group_ids (gs ++ [g]) = group_ids gs ++ map fst (gs_old g).
Proof. unfold group_ids. rewrite flat_map_app. cbn [flat_map]. by rewrite app_nil_r. Qed.

Lemma add_groups_ok gs : Forall group_typed gs -> steps_valid gs ->
  exists m grs, fold_res (add_group build_group) (∅, []) gs = Ok (m, grs) /\ step_holds gs (mkCompactRemapStep grs m).
Proof.
  induction gs as [|g gs IH] using rev_ind; intros Ht [Hv Hn].
  { exists ∅, []. split; [done|]. split; [done|]. cbn [frags]. split.
    - intros f. rewrite lookup_empty. split; [by intros [? ?]|]. by intros H%not_elem_of_nil.
    - intros f r. by rewrite lookup_empty. }
  apply Forall_app in Ht as [Ht Htg], Hv as [Hv Hvg]. rewrite Forall_singleton in Htg, Hvg. rewrite group_ids_snoc in Hn.
  apply NoDup_app in Hn as (Hn & Hd & Hng). destruct (IH Ht (conj Hv Hn)) as (m & grs & E & Hgr & Hids & Hent). cbn [groups frags] in *.
  rewrite fold_res_app, E. cbn [mbind res_bind fold_res]. unfold add_group at 1.
  assert (Hlen : zlen grs = zlen gs) by (by rewrite Hgr, zlen_map).
  destruct (build_group_ok g (zlen grs) Htg Hvg) as (laid & -> & L). mon. cbn [fst snd]. pose proof (laid_out_fst _ _ _ _ _ L) as Lf.
  destruct (insert_frags_ok laid m) as (m' & -> & P).
  { by rewrite Lf. }
  { intros f Hf. rewrite Lf in Hf. destruct (m !! f) as [r|] eqn:Em; [|done]. destruct (Hd f); [apply Hids; eauto|done]. }
  mon. do 2 eexists. split; [done|]. split; [cbn [groups]; by rewrite map_app, Hgr|]. cbn [frags]. split.
  - intros f. rewrite group_ids_snoc, elem_of_app, <- Hids, <- Lf. split.
    + intros [r [Hr|Hr]%P]; [right; by apply (list_elem_of_fmap_2 fst) in Hr|left; eauto].
    + intros [[r Hr]|([f' r] & -> & Hr)%list_elem_of_fmap]; [exists r; apply P; auto|exists r; apply P; auto].
  - intros f r [Hr|Hr]%P.
    + exists (zlen gs), g. split; [rewrite get_opt_app, Z.ltb_irrefl, Z.sub_diag; done|].
      destruct (laid_out_entry _ _ _ _ _ _ _ L Hr) as (pre & rows & post & H1 & H2 & H3 & H4 & H5).
      exists pre, rows, post. split; [done|]. split; [lia|]. split; [done|]. split; [lia|done].
    + destruct (Hent f r Hr) as (i & g' & Hg' & He). exists i, g'. split; [|done]. pose proof (get_opt_Some _ _ _ Hg').
      rewrite get_opt_app. destruct (Z.ltb_spec i (zlen gs)); [done|lia].
Qed.

Lemma add_groups_valid gs m grs : Forall group_typed gs -> fold_res (add_group build_group) (∅, []) gs = Ok (m, grs) -> steps_valid gs.
Proof.
  revert m grs. induction gs as [|g gs IH] using rev_ind; intros m grs Ht E; [split; constructor|].
  apply Forall_app in Ht as [Ht Htg]. rewrite Forall_singleton in Htg. rewrite fold_res_app in E.
  apply bind_Ok in E as ([m0 grs0] & E0 & E). cbn [fold_res] in E.
  apply bind_Ok in E as (out & E1 & _). unfold add_group in E1. apply bind_Ok in E1 as (built & E & E1).
  apply bind_Ok in E1 as (m2 & E2 & _).
  destruct (IH m0 grs0 Ht E0) as [Hv Hn]. apply build_group_valid in E as Hg; [|done].
  destruct (build_group_ok g (zlen grs0) Htg Hg) as (laid & E' & L). rewrite E in E'. injection E' as ->. cbn [snd] in E2.
  apply insert_frags_valid in E2 as [Hnl Hd]. rewrite (laid_out_fst _ _ _ _ _ L) in Hnl, Hd.
  destruct (add_groups_ok gs Ht (conj Hv Hn)) as (m1 & grs1 & E1' & _ & Hids & _). rewrite E0 in E1'. injection E1' as <- <-.
  split; [by apply Forall_app; split; [|constructor]|]. rewrite group_ids_snoc. apply NoDup_app. split; [done|]. split; [|done].
  intros f Hf Hf'. apply Hids in Hf as [r Hr]. cbn [frags] in Hr. rewrite (Hd f Hf') in Hr. done.
Qed.

Lemma add_groups_err gs acc : Forall group_typed gs ->
  (exists out, fold_res (add_group build_group) acc gs = Ok out) \/ fold_res (add_group build_group) acc gs = Err InvalidInput.
Proof.
  intros H. revert acc. induction H as [|g gs Hg _ IH]; intros [m grs]; [left; by eexists|]. cbn [fold_res].
  assert (Ha : (exists out, add_group build_group (m, grs) g = Ok out) \/ add_group build_group (m, grs) g = Err InvalidInput).
  { unfold add_group. destruct (build_group_err g (zlen grs) Hg) as [[[gr laid] ->]| ->]; mon; [|by right]. cbn [fst snd].
    destruct (insert_frags_err laid m) as [[m' ->]| ->]; mon; [left; by eexists|by right]. }
  destruct Ha as [[out ->]| ->]; mon; [apply IH|by right].
Qed.

Lemma rank_of_bound b v k : rank_of b v = Some k -> 0 <= k < zlen (bm_iter b).
Proof.
  unfold rank_of. destruct (bm_contains b v) eqn:E; [|done]. intros [= <-]. apply bm_iter_elem in E.
  exact (get_opt_Some _ _ _ (get_opt_rank _ _ (bm_iter_sorted b) E)).
Qed.

(** A row's new address. *)
Lemma get_in_ok gs s i g f r off : step_holds gs s -> group_typed g -> group_valid g -> get_opt gs i = Some g -> entry_ok g i f r -> u32_ok f -> u32_ok off ->
  exists pre rows post, gs_old g = pre ++ (f, rows) :: post /\
  match rows with
  | Some n => n <= off -> get_in s r (new_from_parts f off) = Ok None
  | None => True
  end /\
  (match rows with Some n => off < n | None => True end ->
   match rank_of (bitmap_of (gs_addrs g) f) off with
   | None => get_in s r (new_from_parts f off) = Ok (Some None)
   | Some k => exists a, get_opt (new_rows (gs_new g)) (zlen (old_rows (gs_addrs g) pre) + k) = Some a /\
                 get_in s r (new_from_parts f off) = Ok (Some (Some a))
   end).
Proof.
  intros (Hgr & _ & _) (Ho & Hf & Hs & Hc) (Hnd & Hin & Hk & Hcount) Hg (pre & rows & post & Hold & Hgi & Hp & Hb & Hra) Hfu Hoff.
  exists pre, rows, post. split; [done|]. unfold get_in. change (wrap32 (new_from_parts f off)) with (row_offset (new_from_parts f off)).
  rewrite row_offset_parts, Hp by done. split.
  { destruct rows as [n|]; [|done]. intros Hn. by rewrite (proj2 (Z.leb_le _ _)). }
  intros Hlt. replace (match rows with Some n => n <=? off | None => false end) with false by (destruct rows as [n|]; [symmetry; by apply Z.leb_gt|done]).
  rewrite (proj1 Hra) by done. mon. destruct (rank_of _ off) as [k|] eqn:Er; [|done].
  pose proof (rank_of_bound _ _ _ Er) as Hkb.
  assert (Htot : zlen (old_rows (gs_addrs g) pre) + zlen (bm_iter (bitmap_of (gs_addrs g) f)) <= zlen (old_rows (gs_addrs g) (gs_old g))).
  { rewrite Hold. unfold old_rows. rewrite flat_map_app, zlen_app. cbn [flat_map fst]. rewrite zlen_app, zlen_frag_addrs.
    pose proof (zlen_nonneg (flat_map (fun p => frag_addrs (fst p) (bm_iter (bitmap_of (gs_addrs g) (fst p)))) post)). lia. }
  rewrite zlen_new_rows in Hcount by done. pose proof (zlen_nonneg (old_rows (gs_addrs g) pre)).
  rewrite Hb. unwrap. unfold idx. rewrite Hgi, Hgr, get_opt_map, Hg. mon.
  destruct (compute_new_addr_ok (gs_new g) (zlen (old_rows (gs_addrs g) pre) + k) Hf Hs ltac:(lia)) as (a & Ea & Ha).
  unfold new_group. exists a. split; [done|]. cbn. rewrite Ea. done.
Qed.

(** *** Finding a row's fragment *)

Lemma split_unique {A} (l pre pre' : list (Z * A)) f x x' post post' : NoDup (map fst l) ->
  l = pre ++ (f, x) :: post -> l = pre' ++ (f, x') :: post' -> pre = pre' /\ x = x'.
Proof.
  revert l pre'. induction pre as [|[g y] pre IH]; intros l [|[g' y'] pre'] Hn -> E; cbn [app] in E; cbn [app map fst] in Hn;
    inversion Hn as [|?? Hf Hn']; subst.
  - injection E as -> ->. done.
  - injection E as -> -> ->. destruct Hf. rewrite map_app. apply elem_of_app. right. apply list_elem_of_here.
  - injection E as -> -> <-. destruct Hf. rewrite map_app. apply elem_of_app. right. apply list_elem_of_here.
  - injection E as -> -> E. destruct (IH _ pre' Hn' eq_refl E) as [-> ->]. done.
Qed.

Lemma group_unique gs g g' f : NoDup (group_ids gs) -> g ∈ gs -> g' ∈ gs -> f ∈ map fst (gs_old g) -> f ∈ map fst (gs_old g') -> g = g'.
Proof.
  unfold group_ids. induction gs as [|g0 gs IH]; intros Hn; [by intros H%not_elem_of_nil|].
  cbn [flat_map] in Hn. apply NoDup_app in Hn as (_ & Hd & Hn).
  assert (Hin : forall h, h ∈ gs -> f ∈ map fst (gs_old h) -> f ∈ flat_map (fun g => map fst (gs_old g)) gs).
  { intros h Hh Hf. apply list_elem_of_In, in_flat_map. exists h. split; by apply list_elem_of_In. }
  intros [->|Hg]%elem_of_cons [->|Hg']%elem_of_cons Hf Hf'; [done| | |by apply IH].
  - destruct (Hd f Hf). by apply (Hin g').
  - destruct (Hd f Hf'). by apply (Hin g).
Qed.

Lemma step_entry gs s g f rows : step_holds gs s -> NoDup (group_ids gs) -> g ∈ gs -> (f, rows) ∈ gs_old g ->
  exists i r, frags s !! f = Some r /\ get_opt gs i = Some g /\ entry_ok g i f r.
Proof.
  intros (_ & Hids & Hent) Hn Hg Hf. pose proof (list_elem_of_fmap_2 fst _ _ Hf) as Hfid. cbn in Hfid.
  destruct (proj2 (Hids f)) as [r Hr].
  { apply list_elem_of_In, in_flat_map. exists g. split; by apply list_elem_of_In. }
  destruct (Hent f r Hr) as (i & g' & Hg' & He). exists i, r. split; [done|].
  assert (g' = g) as ->; [|done]. apply (group_unique gs g' g f); [done| |done| |done].
  - apply elem_of_get_opt. eauto.
  - destruct He as (pre & rows' & post & -> & _). rewrite map_app. apply elem_of_app. right. apply list_elem_of_here.
Qed.

Lemma old_rows_split t old k a : get_opt (old_rows t old) k = Some a ->
  exists pre f rows post off rk, old = pre ++ (f, rows) :: post /\ a = new_from_parts f off /\ u32_ok off /\
    rank_of (bitmap_of t f) off = Some rk /\ k = zlen (old_rows t pre) + rk.
Proof.
  revert k. induction old as [|[f rows] old IH]; intros k Hk.
  { apply get_opt_Some in Hk. change (zlen (old_rows t [])) with 0 in Hk. lia. }
  cbn [old_rows flat_map fst] in Hk. fold (old_rows t old) in Hk. rewrite get_opt_app, zlen_frag_addrs in Hk.
  destruct (Z.ltb_spec k (zlen (bm_iter (bitmap_of t f)))) as [Hlt|Hge].
  - unfold frag_addrs in Hk. rewrite get_opt_map in Hk. destruct (get_opt (bm_iter (bitmap_of t f)) k) as [off|] eqn:Ek; [|done].
    injection Hk as <-. assert (Hc : bm_contains (bitmap_of t f) off = true) by (apply bm_iter_elem, elem_of_get_opt; eauto).
    exists [], f, rows, old, off, k. split; [done|]. split; [done|]. split; [by eapply bm_contains_u32|]. split; [|done].
    unfold rank_of. rewrite Hc. f_equal. symmetry. apply ssorted_index; [apply bm_iter_sorted|done].
  - destruct (IH _ Hk) as (pre & f' & rows' & post & off & rk & -> & -> & Hu & Hr & Hk').
    exists ((f, rows) :: pre), f', rows', post, off, rk. split; [done|]. split; [done|]. split; [done|]. split; [done|].
    cbn [old_rows flat_map fst]. fold (old_rows t pre). rewrite zlen_app, zlen_frag_addrs. lia.
Qed.

Lemma compact_get_parts s f off : u32_ok f -> u32_ok off ->
  compact_get s (new_from_parts f off) = match frags s !! f with None => Ok None | Some r => get_in s r (new_from_parts f off) end.
Proof.
  intros Hf Ho. unfold compact_get. change (wrap32 (Z.shiftr (new_from_parts f off) 32)) with (fragment_id (new_from_parts f off)).
  by rewrite fragment_id_parts.
Qed.

Lemma old_ok_elem old f rows : old_ok old -> (f, rows) ∈ old -> u32_ok f.
Proof. intros H Hin. exact (proj1 (proj1 (Forall_forall _ _) H _ Hin)). Qed.

Section StepGet.
Context (gs : list GroupSpec) (s : CompactRemapStep) (Hty : Forall group_typed gs) (Hva : steps_valid gs) (Hst : step_holds gs s).

Lemma get_of g f rows off : g ∈ gs -> (f, rows) ∈ gs_old g -> u32_ok off ->
  exists pre post, gs_old g = pre ++ (f, rows) :: post /\
  match rows with
  | Some n => n <= off -> compact_get s (new_from_parts f off) = Ok None
  | None => True
  end /\
  (match rows with Some n => off < n | None => True end ->
   match rank_of (bitmap_of (gs_addrs g) f) off with
   | None => compact_get s (new_from_parts f off) = Ok (Some None)
   | Some k => exists a, get_opt (new_rows (gs_new g)) (zlen (old_rows (gs_addrs g) pre) + k) = Some a /\
                 compact_get s (new_from_parts f off) = Ok (Some (Some a))
   end).
Proof.
  intros Hg Hf Hoff. destruct (step_entry gs s g f rows Hst (proj2 Hva) Hg Hf) as (i & r & Hr & Hi & He).
  pose proof (proj1 (Forall_forall _ _) Hty g Hg) as Htg. pose proof (proj1 (Forall_forall _ _) (proj1 Hva) g Hg) as Hvg.
  pose proof (old_ok_elem _ _ _ (proj1 Htg) Hf) as Hfu. rewrite !compact_get_parts, Hr by done.
  destruct (get_in_ok gs s i g f r off Hst Htg Hvg Hi He Hfu Hoff) as (pre & rows' & post & Ho & R).
  apply list_elem_of_split in Hf as (pre' & post' & Ho').
  destruct (split_unique _ _ _ _ _ _ _ _ (proj1 Hvg) Ho Ho') as [-> ->]. exists pre', post. done.
Qed.

End StepGet.

(** ** The two constructors *)

Definition spec_of_input (i : GroupInput) : GroupSpec :=
  mkGroupSpec (gi_rewritten_old_row_addrs i) (map (fun id => (id, None)) (gi_old_frag_ids i)) (gi_new_frags i).
Definition spec_of_layout (i : GroupInputWithLayout) : GroupSpec :=
  mkGroupSpec (gl_rewritten_old_row_addrs i) (map (fun p => (fst p, Some (snd p))) (gl_old_frags i)) (gl_new_frags i).

(** The groups a step is built from, and the result. *)
Inductive built : list GroupSpec -> res CompactRemapStep -> Prop :=
| built_new inputs : built (map spec_of_input inputs) (step_new inputs)
| built_with_layout inputs : built (map spec_of_layout inputs) (step_new_with_layout inputs).

Lemma build_step_spec {I} (build : I -> Z -> res (GroupRemap * list (Z * OldFragmentRemap))) (spec : I -> GroupSpec) inputs :
  (forall i gi, build i gi = build_group (spec i) gi) -> build_step build inputs = build_step build_group (map spec inputs).
Proof.
  intros H. unfold build_step. f_equal. generalize (∅ : gmap Z OldFragmentRemap, [] : list GroupRemap).
  induction inputs as [|i inputs IH]; intros acc; [done|]. cbn [map fold_res].
  replace (add_group build acc i) with (add_group build_group acc (spec i)) by (destruct acc; unfold add_group; by rewrite H).
  destruct (add_group build_group acc (spec i)); [mon; apply IH|done..].
Qed.

Lemma built_step gs r : built gs r -> r = build_step build_group gs.
Proof. intros []; by apply build_step_spec. Qed.

Lemma built_holds gs s : Forall group_typed gs -> built gs (Ok s) -> steps_valid gs /\ step_holds gs s.
Proof.
  intros Ht Hb%built_step. unfold build_step in Hb. symmetry in Hb. apply bind_Ok in Hb as ([m grs] & E & [= <-]).
  pose proof (add_groups_valid gs m grs Ht E) as Hv. split; [done|].
  destruct (add_groups_ok gs Ht Hv) as (m' & grs' & E' & H). rewrite E in E'. by injection E' as <- <-.
Qed.

(** What a step does to the rows of its groups. *)
Definition moves_in_order (gs : list GroupSpec) (s : CompactRemapStep) : Prop :=
  (forall g, g ∈ gs ->
     zlen (old_rows (gs_addrs g) (gs_old g)) = zlen (new_rows (gs_new g)) /\
     (forall k a, get_opt (old_rows (gs_addrs g) (gs_old g)) k = Some a ->
        exists b, get_opt (new_rows (gs_new g)) k = Some b /\ compact_get s a = Ok (Some (Some b))) /\
     (forall f rows off, (f, rows) ∈ gs_old g -> u32_ok off ->
        match rows with
        | Some n => n <= off -> compact_get s (new_from_parts f off) = Ok None
        | None => True
        end /\
        (match rows with Some n => off < n | None => True end -> bm_contains (bitmap_of (gs_addrs g) f) off = false ->
         compact_get s (new_from_parts f off) = Ok (Some None)))) /\
  (forall a, fragment_id a ∉ group_ids gs -> compact_get s a = Ok None).

Lemma built_moves gs s : Forall group_typed gs -> built gs (Ok s) -> moves_in_order gs s.
Proof.
  intros Ht Hb. destruct (built_holds gs s Ht Hb) as [Hv Hs]. split.
  - intros g Hg. pose proof (proj1 (Forall_forall _ _) (proj1 Hv) g Hg) as (Hnd & Hin & _ & Hc). split; [done|]. split.
    + intros k a Hk. destruct (old_rows_split _ _ _ _ Hk) as (pre & f & rows & post & off & rk & Ho & -> & Hu & Hr & ->).
      assert (Hf : (f, rows) ∈ gs_old g) by (rewrite Ho; apply elem_of_app; right; apply list_elem_of_here).
      destruct (get_of gs s Ht Hv Hs g f rows off Hg Hf Hu) as (pre' & post' & Ho' & _ & H).
      destruct (split_unique _ _ _ _ _ _ _ _ Hnd Ho Ho') as [-> _]. rewrite Hr in H. apply H.
      apply (proj1 (Forall_forall _ _) Hin) in Hf. destruct rows as [n|]; [|done]. apply Hf. cbn.
      unfold rank_of in Hr. by destruct (bm_contains _ off).
    + intros f rows off Hf Hu. destruct (get_of gs s Ht Hv Hs g f rows off Hg Hf Hu) as (pre & post & _ & H1 & H2).
      split; [done|]. intros Hlt Hno. specialize (H2 Hlt). unfold rank_of in H2. by rewrite Hno in H2.
  - intros a Ha. unfold compact_get. fold (fragment_id a). destruct (frags s !! fragment_id a) eqn:E; [|done].
    destruct Ha. apply (proj1 (proj2 Hs)). eauto.
Qed.

(** C19: a compaction step built from rewrite groups moves the rows in order:
    the [k]-th rewritten old row of a group has the address of the group's
    [k]-th new row, and there are as many of both.  A row of a rewritten
    fragment that was not rewritten is deleted; an offset past the fragment's
    rows, or a fragment in no group, is not affected. *)
Theorem compact_remap gs s : Forall group_typed gs -> built gs (Ok s) -> moves_in_order gs s.
Proof. apply built_moves. Qed.

(** A step is built exactly from valid groups. *)
Lemma built_total gs r : Forall group_typed gs -> built gs r ->
  (steps_valid gs -> exists s, r = Ok s) /\ (~ steps_valid gs -> r = Err InvalidInput).
Proof.
  intros Ht Hb. apply built_step in Hb as ->. unfold build_step. split.
  - intros Hv. destruct (add_groups_ok gs Ht Hv) as (m & grs & -> & _). mon. by eexists.
  - intros Hv. destruct (add_groups_err gs (∅, []) Ht) as [[[m grs] E]|E]; [|by rewrite E].
    by apply add_groups_valid in E.
Qed.

(** C21: building a step fails with an invalid-input error, and never panics,
    exactly when some group lists an old fragment twice, has a rewritten row
    outside its fragment, or of a fragment it does not list, or writes another
    number of rows than it read, or when two groups share a fragment. *)
Theorem compact_remap_errors gs r : Forall group_typed gs -> built gs r ->
  (steps_valid gs -> exists s, r = Ok s) /\ (~ steps_valid gs -> r = Err InvalidInput).
Proof. apply built_total. Qed.

End RemapFacts.

(** ** Instances and examples *)

Module RemapExamples.

#[local] Existing Instance CofiniteRoaring.
#[local] Existing Instance CofiniteRoaring_laws.

(** Ranks and the maximum, read off the members. *)
Definition CofiniteRanks : RoaringRanks CofiniteRoaring := {|
  bm_rank b v := zlen (List.filter (fun x => x <=? v) (bm_iter b));
  bm_max b := list.last (bm_iter b)
|}.

#[local] Existing Instance CofiniteRanks.

#[local] Instance CofiniteRanks_laws : RoaringRanksLaws CofiniteRanks.
Proof. by split. Qed.

Definition keys_ok (t : list (Z * bitmap)) : bool := sortedb (map fst t) && forallb (fun p => (0 <=? fst p) && (fst p <=? U32_MAX)) t.

(** Addresses as an association list from upper halves to bitmaps. *)
Definition ListTreemap : TreemapParts CofiniteRoaring := {|
  addr_treemap := list (Z * bitmap);
  at_bitmaps t := if keys_ok t then t else [];
  at_len t := wrap64 (zsum (map (fun p => bm_len (snd p)) (if keys_ok t then t else [])))
|}.

#[local] Existing Instance ListTreemap.

#[local] Instance ListTreemap_laws : TreemapPartsLaws ListTreemap.
Proof.
  split; [intros t|intros t|done]; cbn [at_bitmaps ListTreemap]; destruct (keys_ok t) eqn:E; try constructor;
    apply andb_true_iff in E as [E1 E2].
  - by apply sortedb_spec.
  - apply Forall_map, Forall_forall. intros p Hp. apply list_elem_of_In in Hp. apply (proj1 (forallb_forall _ _) E2) in Hp.
    apply andb_true_iff in Hp as [H1%Z.leb_le H2%Z.leb_le]. change (u32_ok (fst p)). uok. lia.
Qed.

Definition bits (l : list Z) : bitmap := bm_from_iter l.

(** Fragment 5 was read before fragment 2; fragment 11 received no row. *)
Definition compaction : list GroupInputWithLayout :=
  [ mkGroupInputWithLayout ([(2, bits [0; 2]); (5, bits [1; 3])] : addr_treemap) [(5, 4); (2, 3)] [(10, 3); (11, 0); (12, 1)];
    mkGroupInputWithLayout ([] : addr_treemap) [(7, 2)] [] ].

Definition twice_listed : list GroupInput := [ mkGroupInput ([(2, bits [0])] : addr_treemap) [2; 2] [(10, 1)] ].

Definition lookups (addrs : list Z) : res (list (option (option Z))) :=
  s ← step_new_with_layout compaction; map_res (compact_get s) addrs.

Lemma compaction_lookups :
  lookups (map (fun p => new_from_parts (fst p) (snd p)) [(5, 1); (5, 3); (2, 0); (2, 2); (5, 0); (2, 3); (7, 1); (6, 0)]) =
  Ok [Some (Some (new_from_parts 10 0)); Some (Some (new_from_parts 10 1)); Some (Some (new_from_parts 10 2));
      Some (Some (new_from_parts 12 0)); Some None; None; Some None; None].
Proof. vm_compute. reflexivity. Qed.

Lemma compaction_typed : Forall group_typed (map spec_of_layout compaction).
Proof.
  constructor; [|constructor; [|constructor]]; (split; [|split; [|split; vm_compute; discriminate]]).
  all: unfold old_ok, frags_ok; cbn [map spec_of_layout gs_old gs_new gl_old_frags gl_new_frags compaction fst snd].
  all: repeat (constructor; [split; cbn [fst snd]; [uok; lia|first [intros n [= <-]|idtac]; uok; lia]|]); constructor.
Qed.

Lemma compact_remap_witness : exists s, step_new_with_layout compaction = Ok s /\
  compact_get s (new_from_parts 2 2) = Ok (Some (Some (new_from_parts 12 0))) /\ compact_get s (new_from_parts 6 0) = Ok None.
Proof.
  destruct (step_new_with_layout compaction) as [s| |] eqn:E;
    [|exfalso; assert (H : match step_new_with_layout compaction with Ok _ => true | _ => false end = true) by (vm_compute; reflexivity); rewrite E in H; discriminate..].
  exists s. split; [exact (eq_refl _)|].
  assert (B : built (map spec_of_layout compaction) (Ok s)) by (rewrite <- E; apply built_with_layout).
  destruct (compact_remap _ s compaction_typed B) as [H1 H2]. split.
  - destruct (H1 _ (list_elem_of_here _ _)) as (_ & Hk & _). destruct (Hk 3 (new_from_parts 2 2)) as (b & Hb & Hg); [vm_compute; reflexivity|].
    assert (Some b = Some (new_from_parts 12 0)) as [= ->]; [|exact Hg]. rewrite <- Hb. vm_compute. reflexivity.
  - apply H2. apply (bool_decide_unpack (fragment_id (new_from_parts 6 0) ∉ group_ids (map spec_of_layout compaction))). vm_compute. exact I.
Defined.

Lemma compact_remap_errors_witness : step_new twice_listed = Err InvalidInput.
Proof.
  apply (compact_remap_errors (map spec_of_input twice_listed)).
  - constructor; [|constructor]. split; [|split; [|split; vm_compute; discriminate]].
    all: unfold old_ok, frags_ok; cbn [map spec_of_input gs_old gs_new gi_old_frag_ids gi_new_frags twice_listed fst snd].
    all: repeat (constructor; [split; cbn [fst snd]; [uok; lia|first [intros n [=]|uok; lia]]|]); constructor.
  - apply built_new.
  - intros [_ H]. apply (bool_decide_pack (NoDup _)) in H. revert H. vm_compute. exact (fun f => f).
Defined.

End RemapExamples.
