(* ===== verification/RemapChain.v ===== *)
(** * Chains of remaps

    [RowAddrRemap], [CompactRowAddrRemap] and [RemapStep] of
    [lance-core/src/utils/row_addr_remap.rs]: remaps applied one after the
    other.  A long chain indexes its steps by the fragments they name, and a
    lookup then skips the steps that do not name the row's fragment. *)

From Stdlib Require Import ZArith Lia.
From stdpp Require Import base option list numbers sorting sets gmap.
From S2P Require Import Prelude Lists Bits RowAddress Itertools Roaring RankedOffsets Remap.

(** ** Hash maps *)

(** The iteration order of a [HashMap], which the standard library leaves
    open. *)
Class HashOrder := { hash_iter : forall V, gmap Z V -> list (Z * V) }.
Class HashOrderLaws (HO : HashOrder) : Prop := { hash_iter_perm V m : hash_iter V m ≡ₚ map_to_list m }.
Arguments hash_iter {_ V} m.

(** ** Model *)

(** The answer of a remap: [None] leaves the address, [Some None] deletes the
    row, [Some (Some a)] moves it. *)
Definition Lookup : Type := Z -> res (option (option Z)).

(** For each fragment id, the steps that name it. *)
Abbreviation FragmentSteps := (gmap Z (list Z)) (only parsing).

Inductive RemapStep {RB : Roaring} :=
| SCompact (compact : CompactRemapStep)
| SDirect (direct : gmap Z (option Z))
| SRemoveFragments (fragments : bitmap)
| SShared (mapping : RowAddrRemap)
with RowAddrRemap {RB : Roaring} :=
| ACompact (compact : CompactRowAddrRemap)
| ADirect (map : gmap Z (option Z))
with CompactRowAddrRemap {RB : Roaring} :=
| mkChain (steps : list RemapStep) (fragment_steps : option FragmentSteps).

Definition steps {RB : Roaring} (c : CompactRowAddrRemap) : list RemapStep := let 'mkChain steps _ := c in steps.
Definition fragment_steps {RB : Roaring} (c : CompactRowAddrRemap) : option FragmentSteps := let 'mkChain _ fragment_steps := c in fragment_steps.

Definition MIN_STEPS_TO_INDEX : Z := 32.
Definition WALK_WITHIN_STEPS : Z := 3.
Definition WALK_UNTIL_IDLE_STEPS : Z := 8.

(** *** Looking up an address *)

(** The lookups of the steps, in order. *)
Fixpoint get_by_step (steps : list Lookup) (current : Z) (was_affected : bool) : res (option (option Z)) :=
  match steps with
  | [] => Ok (if was_affected then Some (Some current) else None)
  | step :: steps =>
      o ← step current;
      match o with
      | None => get_by_step steps current was_affected
      | Some None => Ok (Some None)
      | Some (Some mapped) => get_by_step steps mapped true
      end
  end.

(** The walk of [get_by_fragment]; [None] when a step deletes the row. *)
Fixpoint walk (steps : list Lookup) (next_step idle current : Z) (was_affected : bool) : res (option (Z * Z * bool)) :=
  match steps with
  | [] => Ok (Some (next_step, current, was_affected))
  | remap :: steps =>
      let next_step := next_step +w 1 in
      o ← remap current;
      match o with
      | None =>
          let idle := idle +w 1 in
          if idle =? WALK_UNTIL_IDLE_STEPS then Ok (Some (next_step, current, was_affected))
          else walk steps next_step idle current was_affected
      | Some None => Ok None
      | Some (Some mapped) => walk steps next_step 0 mapped true
      end
  end.

(** The loop of [get_by_fragment].  Every round moves [next_step], so one more
    than the number of steps is enough [fuel]. *)
Fixpoint get_by_fragment (fuel : nat) (fragment_steps : FragmentSteps) (all : list Lookup) (current next_step : Z) (was_affected : bool) :
    res (option (option Z)) :=
  match fuel with
  | O => Panic
  | S fuel =>
      match fragment_steps !! wrap32 (Z.shiftr current 32) with
      | None => Ok (if was_affected then Some (Some current) else None)
      | Some steps =>
          let first := partition_point (fun step => step <? next_step) steps in
          match get_opt steps first with
          | None => Ok (if was_affected then Some (Some current) else None)
          | Some step =>
              if step -w next_step <=? WALK_WITHIN_STEPS then
                ahead ← idx_range all next_step (zlen all);
                walked ← walk ahead next_step 0 current was_affected;
                match walked with
                | None => Ok (Some None)
                | Some (next_step, current, was_affected) => get_by_fragment fuel fragment_steps all current next_step was_affected
                end
              else
                let next_step := step +w 1 in
                remap ← idx all step;
                o ← remap current;
                match o with
                | None => get_by_fragment fuel fragment_steps all current next_step was_affected
                | Some None => Ok (Some None)
                | Some (Some mapped) => get_by_fragment fuel fragment_steps all mapped next_step true
                end
          end
      end
  end.

Definition chain_lookup (steps : list Lookup) (fragment_steps : option FragmentSteps) (addr : Z) : res (option (option Z)) :=
  match fragment_steps with
  | Some fragment_steps => get_by_fragment (S (length steps)) fragment_steps steps addr 0 false
  | None => get_by_step steps addr false
  end.

Section ChainModel.
Context {RB : Roaring} {RR : RoaringRanks RB} {TP : TreemapParts RB} {HO : HashOrder}.

Fixpoint step_get (s : RemapStep) (addr : Z) {struct s} : res (option (option Z)) :=
  match s with
  | SCompact compact => compact_get compact addr
  | SDirect direct => Ok (direct !! addr)
  | SRemoveFragments fragments => Ok (if bm_contains fragments (fragment_id addr) then Some None else None)
  | SShared mapping => remap_get mapping addr
  end
with remap_get (m : RowAddrRemap) (addr : Z) {struct m} : res (option (option Z)) :=
  match m with
  | ACompact c => chain_get c addr
  | ADirect m => Ok (m !! addr)
  end
with chain_get (c : CompactRowAddrRemap) (addr : Z) {struct c} : res (option (option Z)) :=
  match c with mkChain steps fragment_steps => chain_lookup (map step_get steps) fragment_steps addr end.

(** *** Emptiness and fragments *)

Definition map_is_empty (m : gmap Z (option Z)) : bool := bool_decide (m = ∅).

Fixpoint step_is_empty (s : RemapStep) : bool :=
  match s with
  | SCompact compact => compact_is_empty compact
  | SDirect direct => map_is_empty direct
  | SRemoveFragments fragments => bm_is_empty fragments
  | SShared mapping => remap_is_empty mapping
  end
with remap_is_empty (m : RowAddrRemap) : bool :=
  match m with ACompact c => chain_is_empty c | ADirect m => map_is_empty m end
with chain_is_empty (c : CompactRowAddrRemap) : bool :=
  match c with mkChain steps _ => forallb step_is_empty steps end.

(** The fragments of the addresses of a map. *)
Definition direct_fragments (m : gmap Z (option Z)) : bitmap :=
  bm_from_iter (map (fun p => wrap32 (Z.shiftr (fst p) 32)) (hash_iter m)).

Fixpoint step_affected_fragments (s : RemapStep) : bitmap :=
  match s with
  | SCompact compact => compact_affected_fragments compact
  | SDirect direct => direct_fragments direct
  | SRemoveFragments fragments => fragments
  | SShared mapping => affected_fragments mapping
  end
with affected_fragments (m : RowAddrRemap) : bitmap :=
  match m with ACompact c => chain_affected_fragments c | ADirect m => direct_fragments m end
with chain_affected_fragments (c : CompactRowAddrRemap) : bitmap :=
  match c with mkChain steps _ => foldl bm_or bm_new (map step_affected_fragments steps) end.

(** [Iterator::try_fold] of the unions. *)
Fixpoint union_all (deleted : bitmap) (l : list (option bitmap)) : option bitmap :=
  match l with
  | [] => Some deleted
  | None :: _ => None
  | Some b :: l => union_all (bm_or deleted b) l
  end.

Fixpoint step_fully_deleted_fragments (s : RemapStep) : option bitmap :=
  match s with
  | SCompact compact => compact_fully_deleted_fragments compact
  | SDirect direct => if map_is_empty direct then Some bm_new else None
  | SRemoveFragments fragments => Some fragments
  | SShared mapping => fully_deleted_fragments mapping
  end
with fully_deleted_fragments (m : RowAddrRemap) : option bitmap :=
  match m with
  | ACompact c => chain_fully_deleted_fragments c
  | ADirect m => if map_is_empty m then Some bm_new else None
  end
with chain_fully_deleted_fragments (c : CompactRowAddrRemap) : option bitmap :=
  match c with mkChain steps _ => union_all bm_new (map step_fully_deleted_fragments steps) end.

(** *** Building a chain *)

(** The closure [add] of [FragmentSteps::new]. *)
Definition add_step (by_fragment : FragmentSteps) (frag_id step : Z) : FragmentSteps :=
  <[frag_id := default [] (by_fragment !! frag_id) ++ [step]]> by_fragment.

Definition named_fragments (s : RemapStep) : list Z :=
  match s with
  | SCompact compact => map fst (hash_iter (frags compact))
  | SDirect _ | SRemoveFragments _ | SShared _ => bm_iter (step_affected_fragments s)
  end.

Definition fragment_steps_new (steps : list RemapStep) : FragmentSteps :=
  foldl (fun by_fragment p => foldl (fun by_fragment frag_id => add_step by_fragment frag_id (fst p)) by_fragment (named_fragments (snd p)))
    ∅ (enumerate steps).

Definition from_steps (steps : list RemapStep) : CompactRowAddrRemap :=
  mkChain steps
    (if (MIN_STEPS_TO_INDEX <=? zlen steps) && (zlen steps <=? U32_MAX) then Some (fragment_steps_new steps) else None).

Definition chain_new (groups : list GroupInput) : res CompactRowAddrRemap :=
  step ← step_new groups; Ok (from_steps [SCompact step]).

Definition chain_new_with_layout (groups : list GroupInputWithLayout) : res CompactRowAddrRemap :=
  step ← step_new_with_layout groups; Ok (from_steps [SCompact step]).

Definition chain_with_removed_fragments (mapping : RowAddrRemap) (removed_fragments : bitmap) : CompactRowAddrRemap :=
  from_steps [SRemoveFragments removed_fragments; SShared mapping].

Definition chain_chained (remaps : list RowAddrRemap) : CompactRowAddrRemap :=
  from_steps (foldl (fun l remap =>
    match remap with
    | ACompact compact => l ++ steps compact
    | ADirect direct => l ++ [SDirect direct]
    end) [] remaps).

Definition remap_compact (groups : list GroupInput) : res RowAddrRemap := c ← chain_new groups; Ok (ACompact c).
Definition remap_compact_with_layout (groups : list GroupInputWithLayout) : res RowAddrRemap := c ← chain_new_with_layout groups; Ok (ACompact c).
Definition remap_direct (map : gmap Z (option Z)) : RowAddrRemap := ADirect map.
Definition with_removed_fragments (mapping : RowAddrRemap) (removed_fragments : bitmap) : RowAddrRemap :=
  ACompact (chain_with_removed_fragments mapping removed_fragments).
Definition remap_empty : RowAddrRemap := ADirect ∅.

Definition chained (remaps : list RowAddrRemap) : RowAddrRemap :=
  let remaps := List.filter (fun remap => negb (remap_is_empty remap)) remaps in
  match remaps with
  | [] => remap_empty
  | [remap] => remap
  | _ => ACompact (chain_chained remaps)
  end.

End ChainModel.

(** ** The indexed lookup *)

Lemma get_by_step_skip pre post current was : Forall (fun g => g current = Ok None) pre ->
  get_by_step (pre ++ post) current was = get_by_step post current was.
Proof. induction 1 as [|g pre Hg _ IH]; [done|]. cbn [app get_by_step]. by rewrite Hg. Qed.

(** A walk is a stretch of the step-by-step lookup. *)
Lemma walk_ok gs next idle current was : 0 <= next -> next + zlen gs <= U64_MAX ->
  get_by_step gs current was =
    (o ← walk gs next idle current was;
     match o with
     | None => Ok (Some None)
     | Some (next', current', was') => get_by_step (zskip (next' - next) gs) current' was'
     end) /\
  forall next' current' was', walk gs next idle current was = Ok (Some (next', current', was')) ->
    next <= next' <= next + zlen gs /\ (gs <> [] -> next < next').
Proof.
  revert next idle current was. induction gs as [|g gs IH]; intros next idle current was Hn Hb.
  { change (zlen (@nil Lookup)) with 0 in *. cbn [walk get_by_step]. mon. rewrite Z.sub_diag. split; [done|]. intros ??? [= <- <- <-]. split; [lia|done]. }
  rewrite zlen_cons in *. pose proof (zlen_nonneg gs). cbn [walk get_by_step]. unwrap.
  assert (Hskip : forall n', next + 1 <= n' -> zskip (n' - next) (g :: gs) = zskip (n' - (next + 1)) gs).
  { intros n' Hn'. unfold zskip. replace (Z.to_nat (n' - next)) with (S (Z.to_nat (n' - (next + 1)))) by lia. done. }
  assert (Hrec : forall idle' c w,
    get_by_step gs c w = (o ← walk gs (next + 1) idle' c w;
      match o with None => Ok (Some None) | Some (next', current', was') => get_by_step (zskip (next' - next) (g :: gs)) current' was' end) /\
    forall next' current' was', walk gs (next + 1) idle' c w = Ok (Some (next', current', was')) ->
      next <= next' <= next + (1 + zlen gs) /\ (g :: gs <> [] -> next < next')).
  { intros idle' c w. destruct (IH (next + 1) idle' c w ltac:(lia) ltac:(lia)) as [E P]. split.
    - rewrite E. destruct (walk gs (next + 1) idle' c w) as [[[[n' c'] w']|]| |]; [|done..]. mon.
      destruct (P n' c' w' eq_refl) as [? _]. by rewrite Hskip by lia.
    - intros n' c' w' Ew. destruct (P n' c' w' Ew) as [? _]. split; [lia|]. intros _. lia. }
  destruct (g current) as [[[mapped|]|]| |]; mon; [apply Hrec|split; [done|by intros]| |split; [done|by intros]..].
  destruct (_ =? WALK_UNTIL_IDLE_STEPS); [|apply Hrec]. mon. rewrite Hskip by lia. rewrite Z.sub_diag. split; [done|].
  intros ??? [= <- <- <-]. split; [lia|]. intros _. lia.
Qed.

Section Indexed.
(** [named i f]: step [i] names fragment [f]; it leaves the addresses of other
    fragments alone. *)
Context (all : list Lookup) (named : Z -> Z -> bool) (fs : FragmentSteps).
Hypothesis Hlen : zlen all <= U32_MAX.
Hypothesis Hnamed : forall i g a, get_opt all i = Some g -> named i (fragment_id a) = false -> g a = Ok None.
Hypothesis Hfs : forall f, default [] (fs !! f) = List.filter (fun i => named i f) (range_list (0 ..< zlen all)).

Lemma unnamed_skip current was lo hi : 0 <= lo <= hi -> hi <= zlen all ->
  (forall i, lo <= i < hi -> named i (fragment_id current) = false) ->
  get_by_step (zskip lo all) current was = get_by_step (zskip hi all) current was.
Proof.
  intros Hlo Hhi Hun. rewrite <- (take_drop (Z.to_nat (hi - lo)) (zskip lo all)). unfold zskip at 2. rewrite drop_drop.
  replace (Z.to_nat lo + Z.to_nat (hi - lo))%nat with (Z.to_nat hi) by lia.
  apply get_by_step_skip. apply Forall_lookup. intros k g Hg.
  apply lookup_take_Some in Hg as [Hg Hk]. unfold zskip in Hg. rewrite lookup_drop in Hg.
  apply (Hnamed (lo + Z.of_nat k)); [|apply Hun; lia]. unfold get_opt. rewrite (proj2 (Z.leb_le 0 _)) by lia.
  rewrite Z2Nat.inj_add, Nat2Z.id by lia. exact Hg.
Qed.

(** The next step that names the fragment of the current address. *)
Lemma next_named f next : 0 <= next <= zlen all ->
  match get_opt (default [] (fs !! f)) (partition_point (fun step => step <? next) (default [] (fs !! f))) with
  | None => forall i, next <= i < zlen all -> named i f = false
  | Some step => next <= step < zlen all /\ forall i, next <= i < step -> named i f = false
  end.
Proof.
  intros Hn. rewrite Hfs. set (l := List.filter _ _). assert (Hs : ssorted l) by apply ssorted_filter, ssorted_range_list.
  rewrite partition_point_lt by done.
  assert (G : get_opt l (zlen (List.filter (fun x => x <? next) l)) = get_opt (List.filter (fun x => negb (x <? next)) l) 0).
  { pose proof (ssorted_split l next Hs) as E. remember (List.filter (fun x => x <? next) l) as l1 eqn:E1.
    remember (List.filter (fun x => negb (x <? next)) l) as l2 eqn:E2. by rewrite E, get_opt_app, Z.ltb_irrefl, Z.sub_diag. }
  rewrite G.
  assert (Hin : forall i, i ∈ List.filter (fun x => negb (x <? next)) l <-> next <= i < zlen all /\ named i f = true).
  { intros i. unfold l. rewrite !elem_of_filterb, elem_of_range_list, negb_true_iff, Z.ltb_ge. cbn. split; [intros; split; [lia|tauto]|].
    intros [? ?]. split; [split; [lia|done]|lia]. }
  assert (Hs2 : ssorted (List.filter (fun x => negb (x <? next)) l)) by by apply ssorted_filter.
  destruct (List.filter (fun x => negb (x <? next)) l) as [|step rest].
  - change (get_opt (@nil Z) 0) with (@None Z). intros i Hi. destruct (named i f) eqn:E; [|done]. destruct (not_elem_of_nil i). by apply Hin.
  - change (get_opt (step :: rest) 0) with (Some step). destruct (proj1 (Hin step) (list_elem_of_here _ _)) as [Hst _]. split; [done|].
    intros i Hi. destruct (named i f) eqn:E; [|done]. assert (Hi' : i ∈ step :: rest) by (apply Hin; split; [lia|done]).
    inversion Hs2 as [|?? _ Hall]; subst. apply elem_of_cons in Hi' as [->|Hi']; [lia|].
    apply (proj1 (Forall_forall _ _) Hall) in Hi'. lia.
Qed.

Lemma get_by_fragment_ok fuel current next was : 0 <= next <= zlen all -> zlen all - next < Z.of_nat fuel ->
  get_by_fragment fuel fs all current next was = get_by_step (zskip next all) current was.
Proof.
  revert current next was. induction fuel as [|fuel IH]; intros current next was Hn Hf; [lia|]. cbn [get_by_fragment].
  fold (fragment_id current). pose proof (next_named (fragment_id current) next Hn) as Hnext.
  assert (Hend : zskip (zlen all) all = []) by (unfold zskip; apply drop_ge; unfold zlen; lia).
  destruct (fs !! fragment_id current) as [l|]; cbn [default] in Hnext.
  2:{ change (get_opt (@nil Z) _) with (@None Z) in Hnext. rewrite (unnamed_skip _ _ next (zlen all)), Hend by (first [lia|exact Hnext]). done. }
  change (id l) with l in Hnext.
  destruct (get_opt l _) as [step|].
  2:{ rewrite (unnamed_skip _ _ next (zlen all)), Hend by (first [lia|exact Hnext]). done. }
  destruct Hnext as [Hstep Hun]. unwrap. destruct (step - next <=? WALK_WITHIN_STEPS).
  - rewrite idx_range_zsub by lia. mon. replace (zsub all next (zlen all)) with (zskip next all) by (unfold zsub, ztake, zskip, zlen; symmetry; apply take_ge; rewrite length_drop; unfold zlen in *; lia).
    destruct (walk_ok (zskip next all) next 0 current was) as [E P]; [lia| |].
    { unfold zskip, zlen. rewrite length_drop. unfold zlen in *. lia. }
    rewrite E. destruct (walk _ next 0 current was) as [[[[n' c'] w']|]| |]; [|done..]. mon.
    destruct (P n' c' w' eq_refl) as [Hn' Hlt].
    assert (Hsk : zlen (zskip next all) = zlen all - next) by (unfold zskip, zlen in *; rewrite length_drop; lia).
    rewrite IH; [|lia|]. 
    + f_equal. unfold zskip. rewrite drop_drop. f_equal. lia.
    + destruct (zskip next all) eqn:Ez; [change (zlen (@nil Lookup)) with 0 in Hsk; lia|]. specialize (Hlt ltac:(done)). lia.
  - rewrite (unnamed_skip current was next step) by (first [lia|exact Hun]).
    destruct (get_opt all step) as [g|] eqn:Eg; [|apply get_opt_None in Eg; lia]. unfold idx. rewrite Eg. mon.
    assert (Hsk : zskip step all = g :: zskip (step + 1) all).
    { unfold zskip. replace (Z.to_nat (step + 1)) with (S (Z.to_nat step)) by lia. apply drop_S.
      unfold get_opt in Eg. by destruct (0 <=? step). }
    rewrite Hsk. cbn [get_by_step]. destruct (g current) as [[[mapped|]|]| |]; mon; [apply IH; lia|done|apply IH; lia|done..].
Qed.

End Indexed.

(** ** Remaps *)

Section ChainFacts.
Context {RB : Roaring} {RL : RoaringLaws RB} {RR : RoaringRanks RB} {RRL : RoaringRanksLaws RR}
  {TP : TreemapParts RB} {TPL : TreemapPartsLaws TP} {HO : HashOrder} {HOL : HashOrderLaws HO}.

(** *** Induction over nested chains *)

Section RemapInduction.
Context (P : RemapStep -> Prop) (Q : RowAddrRemap -> Prop) (R : CompactRowAddrRemap -> Prop).
Hypothesis HCompact : forall c, P (SCompact c).
Hypothesis HDirect : forall m, P (SDirect m).
Hypothesis HRemove : forall b, P (SRemoveFragments b).
Hypothesis HShared : forall m, Q m -> P (SShared m).
Hypothesis HChain : forall c, R c -> Q (ACompact c).
Hypothesis HMap : forall m, Q (ADirect m).
Hypothesis HSteps : forall l fs, Forall P l -> R (mkChain l fs).

Fixpoint step_rect' (s : RemapStep) : P s :=
  match s with
  | SCompact c => HCompact c
  | SDirect m => HDirect m
  | SRemoveFragments b => HRemove b
  | SShared m => HShared m (remap_rect' m)
  end
with remap_rect' (m : RowAddrRemap) : Q m :=
  match m with ACompact c => HChain c (chain_rect' c) | ADirect m => HMap m end
with chain_rect' (c : CompactRowAddrRemap) : R c :=
  match c with
  | mkChain l fs => HSteps l fs ((fix go l := match l return Forall P l with [] => Forall_nil_2 P | s :: l => Forall_cons_2 P s l (step_rect' s) (go l) end) l)
  end.

Lemma remap_induction : (forall s, P s) /\ (forall m, Q m) /\ (forall c, R c).
Proof. split; [exact step_rect'|]. split; [exact remap_rect'|exact chain_rect']. Qed.

End RemapInduction.

(** *** Well-formed remaps *)

Definition map_wf (m : gmap Z (option Z)) : Prop := forall a x, m !! a = Some x -> u64_ok a /\ forall b, x = Some b -> u64_ok b.

(** A remap whose steps come from the constructors: compaction steps built from
    groups, maps of addresses, and the index of the steps. *)
Fixpoint step_wf (s : RemapStep) : Prop :=
  match s with
  | SCompact c => exists gs, Forall group_typed gs /\ built gs (Ok c)
  | SDirect m => map_wf m
  | SRemoveFragments _ => True
  | SShared m => remap_wf m
  end
with remap_wf (m : RowAddrRemap) : Prop :=
  match m with ACompact c => chain_wf c | ADirect m => map_wf m end
with chain_wf (c : CompactRowAddrRemap) : Prop :=
  match c with mkChain l fs => foldr and True (map step_wf l) /\ mkChain l fs = from_steps l end.

Lemma all_steps_wf l : foldr and True (map step_wf l) <-> Forall step_wf l.
Proof. induction l as [|s l IH]; cbn [map foldr]; [split; [constructor|done]|]. rewrite Forall_cons. tauto. Qed.

(** *** The fragments a step names *)

Lemma hash_iter_keys {V} (m : gmap Z V) f : f ∈ map fst (hash_iter m) <-> is_Some (m !! f).
Proof.
  rewrite (hash_iter_perm V m). split.
  - intros ([f' x] & -> & H%elem_of_map_to_list)%list_elem_of_fmap. eauto.
  - intros [x Hx]. apply list_elem_of_fmap. exists (f, x). split; [done|]. by apply elem_of_map_to_list.
Qed.

Lemma named_nodup s : NoDup (named_fragments s).
Proof.
  destruct s as [c|m|b|m]; cbn [named_fragments]; [|apply ssorted_NoDup, bm_iter_sorted..].
  assert (Hp : map fst (hash_iter (frags c)) ≡ₚ map fst (map_to_list (frags c))) by (apply Permutation_map, hash_iter_perm).
  rewrite Hp. apply NoDup_fst_map_to_list.
Qed.

Lemma add_step_get m f i g : default [] (add_step m f i !! g) = default [] (m !! g) ++ (if decide (g = f) then [i] else []).
Proof.
  unfold add_step. destruct (decide (g = f)) as [->|Hne]; [by rewrite lookup_insert_eq|]. by rewrite lookup_insert_ne, app_nil_r by done.
Qed.

Lemma add_steps_get l m i g : NoDup l ->
  default [] (foldl (fun m f => add_step m f i) m l !! g) = default [] (m !! g) ++ (if decide (g ∈ l) then [i] else []).
Proof.
  intros Hn. revert m. induction Hn as [|f l Hf _ IH]; intros m; [by rewrite app_nil_r|]. cbn [foldl]. rewrite IH, add_step_get, <- app_assoc. f_equal.
  destruct (decide (g = f)) as [->|Hne].
  - rewrite decide_False by done. by rewrite decide_True by apply list_elem_of_here.
  - destruct (decide (g ∈ l)) as [H|H]; [by rewrite decide_True by (by apply list_elem_of_further)|].
    rewrite decide_False; [done|]. by intros [|]%elem_of_cons.
Qed.

(** Step [i] names fragment [f]. *)
Definition names (l : list RemapStep) (i f : Z) : bool :=
  match get_opt l i with Some s => bool_decide (f ∈ named_fragments s) | None => false end.

Lemma enumerate_snoc {A} (l : list A) x : enumerate (l ++ [x]) = enumerate l ++ [(zlen l, x)].
Proof.
  unfold enumerate. rewrite zlen_app. change (zlen [x]) with 1. rewrite seqZ_app by (first [apply zlen_nonneg|lia]).
  rewrite zip_with_app by (rewrite length_seqZ; unfold zlen; lia). done.
Qed.

Lemma fragment_steps_ok l f : default [] (fragment_steps_new l !! f) = List.filter (fun i => names l i f) (range_list (0 ..< zlen l)).
Proof.
  unfold fragment_steps_new. induction l as [|s l IH] using rev_ind; [done|].
  rewrite enumerate_snoc, foldl_snoc. cbn [fst snd]. rewrite add_steps_get by apply named_nodup. rewrite IH.
  rewrite zlen_app. change (zlen [s]) with 1. rewrite range_list_snoc, List.filter_app by apply zlen_nonneg. f_equal.
  - apply filter_ext_in. intros i Hi%list_elem_of_In%elem_of_range_list. cbn in Hi. unfold names. rewrite get_opt_app.
    destruct (Z.ltb_spec i (zlen l)); [done|lia].
  - cbn [List.filter]. unfold names. rewrite get_opt_app, Z.ltb_irrefl, Z.sub_diag. change (get_opt [s] 0) with (Some s).
    destruct (decide (f ∈ named_fragments s)) as [H|H]; [by rewrite bool_decide_true|by rewrite bool_decide_false].
Qed.

(** *** Lookups never fail *)

Lemma parts_u64 f o : u32_ok f -> u32_ok o -> u64_ok (new_from_parts f o).
Proof. intros Hf Ho. rewrite new_from_parts_eq by done. uok. lia. Qed.

Lemma new_rows_u64 nf k a : frags_ok nf -> get_opt (new_rows nf) k = Some a -> u64_ok a.
Proof.
  intros Hok Hk. assert (Ha : a ∈ new_rows nf) by (apply elem_of_get_opt; eauto).
  apply list_elem_of_In, in_flat_map in Ha as ([f n] & Hf & Ha). apply list_elem_of_In in Hf.
  apply (proj1 (Forall_forall _ _) Hok) in Hf as [Hfu Hnu]. cbn [fst snd] in *.
  apply list_elem_of_In, list_elem_of_fmap in Ha as (o & -> & Ho%elem_of_range_list). cbn in Ho. uok. apply parts_u64; uok; lia.
Qed.

Lemma ranked_nonempty b r o k : ranks_as b r -> rank_of b o = Some k -> ranked_is_empty r = false.
Proof.
  intros [_ ->] Hr. unfold rank_of in Hr. destruct (bm_contains b o) eqn:E; [|done].
  destruct (bm_is_empty b) eqn:Eb; [|done]. rewrite (proj1 (bm_is_empty_iff b) Eb o) in E. done.
Qed.

Lemma compact_get_total gs c a : Forall group_typed gs -> built gs (Ok c) ->
  match frags c !! fragment_id a with
  | None => compact_get c a = Ok None
  | Some r => exists o, compact_get c a = Ok o /\
      (forall b, o = Some (Some b) -> u64_ok b /\ ranked_is_empty (rewritten_offsets r) = false) /\
      (o = None -> exists n, physical_rows r = Some n /\ n <= row_offset a)
  end.
Proof.
  intros Ht Hb. destruct (built_holds gs c Ht Hb) as [Hv Hs]. unfold compact_get. fold (fragment_id a).
  destruct (frags c !! fragment_id a) as [r|] eqn:Er; [|done].
  destruct (proj2 (proj2 Hs) _ r Er) as (i & g & Hi & He). assert (Hg : g ∈ gs) by (apply elem_of_get_opt; eauto).
  pose proof (proj1 (Forall_forall _ _) Ht g Hg) as Htg. pose proof (proj1 (Forall_forall _ _) (proj1 Hv) g Hg) as Hvg.
  pose proof (get_in_ok gs c i g _ r (row_offset a) Hs Htg Hvg Hi He (fragment_id_ok a) (row_offset_ok a)) as (pre & rows & post & Ho & H1 & H2).
  assert (Ein : get_in c r (new_from_parts (fragment_id a) (row_offset a)) = get_in c r a).
  { unfold get_in. fold (row_offset a). fold (row_offset (new_from_parts (fragment_id a) (row_offset a))).
    by rewrite row_offset_parts by auto with lance. }
  rewrite Ein in H1, H2. destruct He as (pre' & rows' & post' & Ho' & _ & Hp & _ & Hra).
  destruct (split_unique _ _ _ _ _ _ _ _ (proj1 Hvg) Ho Ho') as [<- <-].
  assert (Hcase : (exists n, rows = Some n /\ n <= row_offset a) \/ match rows with Some n => row_offset a < n | None => True end).
  { destruct rows as [n|]; [|by right]. destruct (Z_lt_le_dec (row_offset a) n); [by right|left; eauto]. }
  destruct Hcase as [(n & -> & Hn)|Hin].
  - exists None. split; [by apply H1|]. split; [done|]. eauto.
  - specialize (H2 Hin). destruct (rank_of _ _) as [k|] eqn:Ek.
    + destruct H2 as (b & Hb' & ->). eexists. split; [done|]. split; [|done]. intros b' [= <-].
      split; [by eapply new_rows_u64; [apply Htg|]|by eapply ranked_nonempty].
    + eexists. by split.
Qed.

(** What a lookup does: it returns, moves to addresses only, and leaves the
    addresses of fragments the remap does not name. *)
Definition sound (get : Lookup) (named : Z -> Prop) : Prop :=
  forall a, exists o, get a = Ok o /\ (forall b, o = Some (Some b) -> u64_ok b) /\ (~ named (fragment_id a) -> o = None).

Lemma direct_sound m : map_wf m -> sound (fun a => Ok (m !! a)) (fun f => bm_contains (direct_fragments m) f = true).
Proof.
  intros Hm a. exists (m !! a). split; [done|]. split.
  - intros b Hb. exact (proj2 (Hm _ _ Hb) b eq_refl).
  - intros Hn. destruct (m !! a) as [x|] eqn:E; [|done]. destruct Hn. unfold direct_fragments.
    rewrite bm_contains_from_iter.
    + apply bool_decide_true. apply list_elem_of_fmap. exists (a, x). split; [done|]. rewrite (hash_iter_perm _ m). by apply elem_of_map_to_list.
    + apply Forall_map, Forall_forall. intros p _. apply wrap32_ok.
Qed.

Lemma get_by_step_sound gs (named : list (Z -> Prop)) current was : Forall2 sound gs named -> u64_ok current \/ was = false ->
  exists o, get_by_step gs current was = Ok o /\ (forall b, o = Some (Some b) -> u64_ok b) /\
    (~ Exists (fun P => P (fragment_id current)) named -> o = if was then Some (Some current) else None).
Proof.
  intros H. revert current was. induction H as [|g P gs named Hg _ IH]; intros current was Hc.
  { cbn [get_by_step]. eexists. split; [done|]. split; [|done]. destruct was; [|done]. intros b [= <-]. by destruct Hc. }
  cbn [get_by_step]. destruct (Hg current) as (o & -> & Hu & Hno). mon. destruct o as [[mapped|]|].
  - destruct (IH mapped true ltac:(left; auto)) as (o & E & Hb & _). exists o. split; [done|]. split; [done|].
    intros Hne. rewrite Exists_cons in Hne. specialize (Hno ltac:(tauto)). done.
  - eexists. split; [done|]. split; [done|]. intros Hne. rewrite Exists_cons in Hne. specialize (Hno ltac:(tauto)). done.
  - destruct (IH current was Hc) as (o & E & Hb & Hn). exists o. split; [done|]. split; [done|].
    intros Hne. rewrite Exists_cons in Hne. apply Hn. tauto.
Qed.

Lemma compact_keys_u32 gs c : Forall group_typed gs -> built gs (Ok c) -> Forall u32_ok (map fst (map_to_list (frags c))).
Proof.
  intros Ht Hb. destruct (built_holds gs c Ht Hb) as [_ Hs]. apply Forall_forall. intros f ([f' r] & -> & H%elem_of_map_to_list)%list_elem_of_fmap.
  destruct (proj2 (proj2 Hs) f' r H) as (i & g & Hi & pre & rows & post & Ho & _).
  assert (Hg : g ∈ gs) by (apply elem_of_get_opt; eauto). pose proof (proj1 (Forall_forall _ _) Ht g Hg) as [Hok _].
  cbn. eapply old_ok_elem; [exact Hok|]. rewrite Ho. apply elem_of_app. right. apply list_elem_of_here.
Qed.

Lemma map_to_list_keys {V} (m : gmap Z V) f : f ∈ map fst (map_to_list m) <-> is_Some (m !! f).
Proof.
  split.
  - intros ([f' x] & -> & H%elem_of_map_to_list)%list_elem_of_fmap. eauto.
  - intros [x Hx]. apply list_elem_of_fmap. exists (f, x). split; [done|]. by apply elem_of_map_to_list.
Qed.

Lemma foldl_or_contains l b v : bm_contains (foldl bm_or b l) v = bm_contains b v || existsb (fun x => bm_contains x v) l.
Proof.
  revert b. induction l as [|x l IH]; intros b; cbn [foldl existsb]; [by rewrite orb_false_r|].
  by rewrite IH, bm_contains_or, orb_assoc.
Qed.

(** Step [s] is sound for the fragments the index has it under, which are the
    fragments it reports as affected. *)
Definition step_sound (s : RemapStep) : Prop :=
  sound (step_get s) (fun f => f ∈ named_fragments s) /\
  forall f, f ∈ named_fragments s <-> bm_contains (step_affected_fragments s) f = true.

Lemma chain_get_steps l fs a : Forall step_sound l -> mkChain l fs = from_steps l -> chain_get (mkChain l fs) a = get_by_step (map step_get l) a false.
Proof.
  intros Hl [= Hfs]. change (chain_get (mkChain l fs) a) with (chain_lookup (map step_get l) fs a). unfold chain_lookup. rewrite Hfs. destruct ((_ <=? _) && _) eqn:E; [|done]. cbv beta iota.
  apply andb_true_iff in E as [_ Hle%Z.leb_le].
  rewrite (get_by_fragment_ok (map step_get l) (names l) (fragment_steps_new l)); [done| | | |split; [lia|apply zlen_nonneg]|unfold zlen, Lookup; lia].
  - by rewrite zlen_map.
  - intros i g x Hi Hn. rewrite get_opt_map in Hi. unfold names in Hn. destruct (get_opt l i) as [s|] eqn:Es; [|done]. injection Hi as <-.
    apply bool_decide_eq_false in Hn. destruct (proj1 (Forall_get_opt _ _ _ _ Hl Es) x) as (o & -> & _ & Ho). by rewrite Ho.
  - intros f. rewrite zlen_map. apply fragment_steps_ok.
Qed.

Lemma steps_sound_named l : Forall step_sound l -> Forall2 sound (map step_get l) (map (fun s f => f ∈ named_fragments s) l).
Proof. induction 1 as [|s l Hs _ IH]; cbn [map]; constructor; [apply Hs|done]. Qed.

Lemma chain_sound l fs : Forall step_sound l -> mkChain l fs = from_steps l ->
  sound (chain_get (mkChain l fs)) (fun f => bm_contains (chain_affected_fragments (mkChain l fs)) f = true).
Proof.
  intros Hl Hfs a. rewrite chain_get_steps by done.
  destruct (get_by_step_sound _ _ a false (steps_sound_named l Hl) (or_intror eq_refl)) as (o & E & Hb & Hn). exists o. split; [done|].
  split; [done|]. intros Hna. apply Hn. intros Hex. apply Hna.
  change (chain_affected_fragments (mkChain l fs)) with (foldl bm_or bm_new (map step_affected_fragments l)).
  rewrite foldl_or_contains, bm_contains_new. cbn [orb]. apply existsb_exists. apply Exists_exists in Hex as (P & HP & Hf).
  apply list_elem_of_fmap in HP as (s & -> & Hs). exists (step_affected_fragments s).
  split; [apply in_map; by apply list_elem_of_In|]. by apply (proj2 (proj1 (Forall_forall _ _) Hl s Hs)).
Qed.

Lemma sound_ext get P Q : (forall f, P f <-> Q f) -> sound get P -> sound get Q.
Proof. intros H Hs a. destruct (Hs a) as (o & E & Hb & Hn). exists o. split; [done|]. split; [done|]. intros HQ. apply Hn. by rewrite H. Qed.

Lemma remaps_sound : (forall s, step_wf s -> step_sound s) /\
  (forall m, remap_wf m -> sound (remap_get m) (fun f => bm_contains (affected_fragments m) f = true)) /\
  (forall c, chain_wf c -> sound (chain_get c) (fun f => bm_contains (chain_affected_fragments c) f = true) /\ Forall step_sound (steps c)).
Proof.
  apply remap_induction.
  - intros c (gs & Ht & Hb). split.
    + intros a. pose proof (compact_get_total gs c a Ht Hb) as H. cbn [step_get named_fragments].
      destruct (frags c !! fragment_id a) as [r|] eqn:Er.
      * destruct H as (o & -> & Hu & _). exists o. split; [done|]. split; [intros b Hb'; by apply Hu|]. intros Hn. destruct Hn. apply hash_iter_keys. eauto.
      * exists None. by split.
    + intros f. cbn [named_fragments step_affected_fragments]. unfold compact_affected_fragments.
      rewrite hash_iter_keys, bm_contains_from_iter, bool_decide_eq_true, map_to_list_keys by (by eapply compact_keys_u32). done.
  - intros m Hm. split; [|intros f; apply bm_iter_elem]. eapply sound_ext; [|by apply direct_sound]. intros f. symmetry. apply bm_iter_elem.
  - intros b _. split; [|intros f; apply bm_iter_elem]. intros a. cbn [step_get named_fragments step_affected_fragments].
    eexists. split; [done|]. rewrite bm_iter_elem. destruct (bm_contains b (fragment_id a)); split; [done|by intros []|done|done].
  - intros m IH Hm. split; [|intros f; apply bm_iter_elem]. eapply sound_ext; [|by apply IH]. intros f. symmetry. apply bm_iter_elem.
  - intros c IH Hc. by apply IH.
  - intros m Hm. by apply direct_sound.
  - intros l fs IH [Hl Hfs]. rewrite all_steps_wf in Hl.
    assert (Hs : Forall step_sound l) by (clear Hfs; induction IH; inversion Hl; subst; constructor; auto).
    split; [by apply chain_sound|done].
Qed.

(** ** Remaps in order *)

(** Each lookup is given the address the ones before it moved the row to. *)
Fixpoint in_order (gs : list Lookup) (a : Z) : res (option (option Z)) :=
  match gs with
  | [] => Ok None
  | g :: gs =>
      o ← g a;
      match o with
      | None => in_order gs a
      | Some None => Ok (Some None)
      | Some (Some b) => o ← in_order gs b; Ok (match o with None => Some (Some b) | _ => o end)
      end
  end.

Lemma get_by_step_in_order gs a was :
  get_by_step gs a was = (o ← in_order gs a; Ok (match o with None => if was then Some (Some a) else None | _ => o end)).
Proof.
  revert a was. induction gs as [|g gs IH]; intros a was; [done|]. cbn [get_by_step in_order].
  destruct (g a) as [[[b|]|]| |]; mon; [|done|apply IH|done..]. rewrite IH. by destruct (in_order gs b) as [[[c|]|]| |].
Qed.

Lemma in_order_app gs1 gs2 a : in_order (gs1 ++ gs2) a = in_order (in_order gs1 :: gs2) a.
Proof.
  revert a. induction gs1 as [|g gs1 IH]; intros a; [done|]. cbn [app in_order]. destruct (g a) as [[[b|]|]| |]; mon; [|done| |done..].
  - rewrite IH. cbn [in_order]. destruct (in_order gs1 b) as [[[c|]|]| |]; mon; [|done..]. by destruct (in_order gs2 c) as [[[d|]|]| |].
  - rewrite IH. done.
Qed.

Lemma in_order_single g a : in_order [g] a = g a.
Proof. cbn [in_order]. by destruct (g a) as [[[b|]|]| |]. Qed.

Lemma in_order_ext gs gs' a : Forall2 (fun g g' => forall a, g a = g' a) gs gs' -> in_order gs a = in_order gs' a.
Proof.
  intros H. revert a. induction H as [|g g' gs gs' Hg _ IH]; intros a; [done|]. cbn [in_order]. rewrite Hg.
  destruct (g' a) as [[[b|]|]| |]; mon; [by rewrite IH|done|apply IH|done..].
Qed.

(** The steps of a remap, which a longer chain takes over. *)
Definition flat (r : RowAddrRemap) : list RemapStep := match r with ACompact c => steps c | ADirect m => [SDirect m] end.

Lemma remap_get_flat r a : remap_wf r -> remap_get r a = in_order (map step_get (flat r)) a.
Proof.
  intros Hr. destruct r as [c|m]; [|symmetry; apply (in_order_single (step_get (SDirect m)))].
  destruct (proj2 (proj2 remaps_sound) c Hr) as [_ Hs]. destruct c as [l fs]. destruct Hr as [_ Hfs]. cbn [steps flat] in *.
  change (remap_get (ACompact (mkChain l fs)) a) with (chain_get (mkChain l fs) a). rewrite chain_get_steps by done.
  rewrite get_by_step_in_order. by destruct (in_order _ a) as [[[c|]|]| |].
Qed.

Lemma in_order_flat rs a : Forall remap_wf rs -> in_order (map step_get (flat_map flat rs)) a = in_order (map remap_get rs) a.
Proof.
  intros H. revert a. induction H as [|r rs Hr _ IH]; intros a; [done|]. cbn [flat_map map]. rewrite map_app, in_order_app.
  cbn [in_order]. rewrite <- remap_get_flat by done. destruct (remap_get r a) as [[[b|]|]| |]; mon; [by rewrite IH|done|apply IH|done..].
Qed.

Lemma chain_chained_flat rs : chain_chained rs = from_steps (flat_map flat rs).
Proof.
  unfold chain_chained. f_equal. enough (H : forall acc, foldl (fun l remap => match remap with ACompact compact => l ++ steps compact
    | ADirect direct => l ++ [SDirect direct] end) acc rs = acc ++ flat_map flat rs) by apply H.
  induction rs as [|r rs IH]; intros acc; cbn [foldl flat_map]; [by rewrite app_nil_r|]. rewrite IH, app_assoc. by destruct r.
Qed.

Lemma flat_wf r : remap_wf r -> Forall step_wf (flat r).
Proof. destruct r as [[l fs]|m]; [intros [H _]; by apply all_steps_wf|]. intros H. by constructor. Qed.

Lemma from_steps_wf l : Forall step_wf l -> remap_wf (ACompact (from_steps l)).
Proof. intros H. split; [by apply all_steps_wf|done]. Qed.

(** *** Empty remaps *)

Lemma remaps_empty : (forall s, step_wf s -> step_is_empty s = true -> forall a, step_get s a = Ok None) /\
  (forall m, remap_wf m -> remap_is_empty m = true -> forall a, remap_get m a = Ok None) /\
  (forall c, chain_wf c -> chain_is_empty c = true -> forall a, chain_get c a = Ok None).
Proof.
  assert (Hmap : forall m a, map_is_empty m = true -> m !! a = None) by (intros m a ->%bool_decide_eq_true; apply lookup_empty).
  apply remap_induction.
  - intros c (gs & Ht & Hb) He a. destruct (built_holds gs c Ht Hb) as [_ (Hg & Hids & _)]. cbn [step_is_empty] in He.
    unfold compact_is_empty in He. rewrite Hg in He. destruct gs as [|g gs]; [|done].
    cbn [step_get]. unfold compact_get. fold (fragment_id a). destruct (frags c !! fragment_id a) eqn:E; [|done].
    destruct (not_elem_of_nil (fragment_id a)). apply (Hids (fragment_id a)). eauto.
  - intros m _ He a. cbn [step_get]. by rewrite Hmap.
  - intros b _ He a. cbn [step_get step_is_empty] in *. by rewrite (proj1 (bm_is_empty_iff b) He).
  - intros m IH Hw He a. by apply IH.
  - intros c IH Hw He a. by apply IH.
  - intros m _ He a. cbn [remap_get]. by rewrite Hmap.
  - intros l fs IH Hw He a. pose proof (proj2 (proj2 (proj2 remaps_sound) _ Hw)) as Hs. destruct Hw as [Hl Hfs]. cbn [steps] in Hs.
    rewrite chain_get_steps by done. change (forallb step_is_empty l = true) in He. apply all_steps_wf in Hl.
    rewrite <- (app_nil_r (map step_get l)). rewrite get_by_step_skip; [done|].
    apply Forall_map, Forall_forall. intros s Hin. apply (proj1 (Forall_forall _ _) IH s Hin).
    + by apply (proj1 (Forall_forall _ _) Hl).
    + apply (proj1 (forallb_forall _ _) He). by apply list_elem_of_In.
Qed.

Lemma in_order_nonempty rs a : Forall remap_wf rs ->
  in_order (map remap_get (List.filter (fun r => negb (remap_is_empty r)) rs)) a = in_order (map remap_get rs) a.
Proof.
  intros H. revert a. induction H as [|r rs Hr _ IH]; intros a; [done|]. cbn [List.filter map]. destruct (remap_is_empty r) eqn:E; cbn [negb map in_order].
  - rewrite (proj1 (proj2 remaps_empty) r Hr E a). mon. apply IH.
  - destruct (remap_get r a) as [[[b|]|]| |]; mon; [by rewrite IH|done|apply IH|done..].
Qed.

Lemma in_order_total gs a : Forall (fun g => forall a, exists o, g a = Ok o) gs -> exists o, in_order gs a = Ok o.
Proof.
  intros H. revert a. induction H as [|g gs Hg _ IH]; intros a; [by eexists|]. cbn [in_order].
  destruct (Hg a) as [[[b|]|] ->]; mon; [destruct (IH b) as [o ->]; by eexists|by eexists|apply IH].
Qed.

Lemma remap_get_total r a : remap_wf r -> exists o, remap_get r a = Ok o.
Proof. intros Hr. destruct (proj1 (proj2 remaps_sound) r Hr a) as (o & E & _). eauto. Qed.

Lemma nonempty_wf rs : Forall remap_wf rs -> Forall remap_wf (List.filter (fun r => negb (remap_is_empty r)) rs).
Proof. intros H. apply Forall_forall. intros r [Hr _]%elem_of_filterb. by apply (proj1 (Forall_forall _ _) H). Qed.

Lemma chained_wf rs : Forall remap_wf rs -> remap_wf (chained rs).
Proof.
  intros H. unfold chained. assert (Hf : Forall remap_wf (List.filter (fun r => negb (remap_is_empty r)) rs)) by (by apply nonempty_wf).
  destruct (List.filter _ rs) as [|r [|r' l]]; [by intros ???|by inversion Hf|]. rewrite chain_chained_flat. apply from_steps_wf.
  apply Forall_forall. intros s Hs. apply list_elem_of_In, in_flat_map in Hs as (x & Hx & Hs).
  apply list_elem_of_In in Hx, Hs. exact (proj1 (Forall_forall _ _) (flat_wf x (proj1 (Forall_forall _ _) Hf x Hx)) s Hs).
Qed.

Lemma chained_get rs a : Forall remap_wf rs -> remap_get (chained rs) a = in_order (map remap_get rs) a.
Proof.
  intros H. rewrite <- in_order_nonempty by done. pose proof (chained_wf rs H) as Hw. unfold chained in *.
  assert (Hf : Forall remap_wf (List.filter (fun r => negb (remap_is_empty r)) rs)) by (by apply nonempty_wf).
  destruct (List.filter _ rs) as [|r [|r' l]]; [exact (f_equal Ok (lookup_empty a))|exact (eq_sym (in_order_single (remap_get r) a))|].
  rewrite chain_chained_flat in *. rewrite remap_get_flat by done. cbn [flat]. unfold from_steps. cbn [steps]. by apply in_order_flat.
Qed.

Lemma removed_get m b a : remap_wf m -> remap_wf (with_removed_fragments m b) /\
  remap_get (with_removed_fragments m b) a = if bm_contains b (fragment_id a) then Ok (Some None) else remap_get m a.
Proof.
  intros Hm. assert (Hw : remap_wf (with_removed_fragments m b)) by (apply from_steps_wf; repeat constructor; exact Hm). split; [done|].
  rewrite remap_get_flat by done. cbn [flat with_removed_fragments]. unfold chain_with_removed_fragments, from_steps. cbn [steps map in_order step_get].
  mon. destruct (bm_contains b (fragment_id a)); [done|]. fold remap_get. by destruct (remap_get m a) as [[[c|]|]| |].
Qed.

Lemma compact_wf r m : (exists gs, r = remap_compact gs /\ Forall group_typed (map spec_of_input gs)) \/
    (exists gs, r = remap_compact_with_layout gs /\ Forall group_typed (map spec_of_layout gs)) ->
  r = Ok m -> remap_wf m.
Proof.
  intros [(gs & -> & Ht)|(gs & -> & Ht)] E; unfold remap_compact, remap_compact_with_layout, chain_new, chain_new_with_layout in E;
    apply bind_Ok in E as (c & E & [= <-]); apply bind_Ok in E as (st & E & [= <-]); apply from_steps_wf; (constructor; [|constructor]);
    eexists; (split; [exact Ht|]); rewrite <- E; constructor.
Qed.

(** C10: looking an address up in a chain of remaps is looking it up in each in
    turn, the next given the address the one before moved the row to: a remap
    that does not know the address leaves it, a deletion ends the chain.  This
    holds for nested chains, for chains with empty remaps, and for long chains,
    whose lookup skips every step the index says does not name the row's
    fragment.  A view with removed fragments deletes their rows and answers as
    the remap otherwise.  No lookup panics. *)
Theorem chained_remaps rs m b a : Forall remap_wf rs -> remap_wf m ->
  (exists o, remap_get (chained rs) a = Ok o /\ in_order (map remap_get rs) a = Ok o) /\ remap_wf (chained rs) /\
  remap_get (with_removed_fragments m b) a = (if bm_contains b (fragment_id a) then Ok (Some None) else remap_get m a) /\
  remap_wf (with_removed_fragments m b).
Proof.
  intros Hrs Hm. destruct (removed_get m b a Hm) as [Hw Hg]. split; [|auto using chained_wf]. rewrite chained_get by done.
  destruct (in_order_total (map remap_get rs) a) as [o E]; [|by exists o].
  apply Forall_map. eapply Forall_impl; [exact Hrs|]. intros r Hr x. by apply remap_get_total.
Qed.

(** *** Affected and deleted fragments *)

(** The address lies past the rows the remap knows its fragment to have. *)
Fixpoint step_past (s : RemapStep) (a : Z) : bool :=
  match s with
  | SCompact c =>
      match frags c !! fragment_id a with
      | Some r => match physical_rows r with Some n => n <=? row_offset a | None => false end
      | None => false
      end
  | SDirect _ | SRemoveFragments _ => false
  | SShared m => remap_past m a
  end
with remap_past (m : RowAddrRemap) (a : Z) : bool :=
  match m with ACompact c => chain_past c a | ADirect _ => false end
with chain_past (c : CompactRowAddrRemap) (a : Z) : bool :=
  match c with mkChain l _ => existsb (fun s => step_past s a) l end.

(** No row survives in the fragments of [b]. *)
Definition deletes (get : Lookup) (past : Z -> bool) (b : bitmap) : Prop :=
  forall a, (forall x, get a <> Ok (Some (Some x))) /\ (bm_contains b (fragment_id a) = true -> past a = false -> get a = Ok (Some None)).

Lemma union_all_Some l b c : union_all b l = Some c -> exists bs, l = map Some bs /\
  forall v, bm_contains c v = bm_contains b v || existsb (fun x => bm_contains x v) bs.
Proof.
  revert b. induction l as [|[x|] l IH]; intros b; cbn [union_all]; [intros [= <-]; exists []; split; [done|]; intros v; by rewrite orb_false_r| |done].
  intros (bs & -> & H)%IH. exists (x :: bs). split; [done|]. intros v. cbn [existsb]. by rewrite H, bm_contains_or, orb_assoc.
Qed.

(** Steps that delete or leave, in a row. *)
Lemma get_by_step_deletes gs a : Forall (fun g => g a = Ok None \/ g a = Ok (Some None)) gs ->
  (get_by_step gs a false = Ok None /\ Forall (fun g => g a = Ok None) gs) \/ get_by_step gs a false = Ok (Some None).
Proof.
  induction 1 as [|g gs [Hg|Hg] _ IH]; [by left; split|..]; cbn [get_by_step]; rewrite Hg; mon; [|by right].
  destruct IH as [[E H]|E]; [left; split; [done|by constructor]|by right].
Qed.

Lemma direct_deletes m b past : (if map_is_empty m then Some bm_new else None) = Some b -> deletes (fun a => Ok (m !! a)) past b.
Proof.
  destruct (map_is_empty m) eqn:E; [|done]. intros [= <-] a. apply bool_decide_eq_true in E as ->. rewrite lookup_empty, bm_contains_new. by split.
Qed.

Lemma compact_deletes gs c b : Forall group_typed gs -> built gs (Ok c) -> compact_fully_deleted_fragments c = Some b ->
  deletes (compact_get c) (step_past (SCompact c)) b.
Proof.
  intros Ht Hb Hd a. unfold compact_fully_deleted_fragments in Hd. destruct (existsb _ _) eqn:Ex; [done|]. injection Hd as <-.
  pose proof (compact_get_total gs c a Ht Hb) as H. cbn [step_past].
  rewrite bm_contains_from_iter, bool_decide_eq_true, map_to_list_keys by (by eapply compact_keys_u32).
  destruct (frags c !! fragment_id a) as [r|] eqn:Er.
  - assert (Hemp : ranked_is_empty (rewritten_offsets r) = true).
    { apply not_true_iff_false in Ex. destruct (ranked_is_empty (rewritten_offsets r)) eqn:E; [done|]. destruct Ex. apply existsb_exists.
      exists (fragment_id a, r). split; [by apply list_elem_of_In, elem_of_map_to_list|]. cbn [snd]. by rewrite E. }
    destruct H as (o & -> & Hu & Hn). split.
    + intros x [= ->]. destruct (Hu x eq_refl) as [_ H]. congruence.
    + intros _ Hp. destruct o as [[x|]|]; [destruct (Hu x eq_refl); congruence|done|].
      destruct (Hn eq_refl) as (n & Hr & Hle). rewrite Hr in Hp. apply Z.leb_gt in Hp. lia.
  - rewrite H. split; [done|]. by intros [? ?].
Qed.

Lemma remaps_deleted : (forall s, step_wf s -> forall b, step_fully_deleted_fragments s = Some b -> deletes (step_get s) (step_past s) b) /\
  (forall m, remap_wf m -> forall b, fully_deleted_fragments m = Some b -> deletes (remap_get m) (remap_past m) b) /\
  (forall c, chain_wf c -> forall b, chain_fully_deleted_fragments c = Some b -> deletes (chain_get c) (chain_past c) b).
Proof.
  apply remap_induction.
  - intros c (gs & Ht & Hb) b Hd. by eapply compact_deletes.
  - intros m _ b Hd. by apply direct_deletes.
  - intros b' _ b [= <-] a. cbn [step_get]. destruct (bm_contains b' (fragment_id a)); by split.
  - intros m IH Hw b Hd. by apply IH.
  - intros c IH Hw b Hd. by apply IH.
  - intros m _ b Hd. by apply direct_deletes.
  - intros l fs IH Hw b Hd. pose proof (proj2 (proj2 (proj2 remaps_sound) _ Hw)) as Hs. destruct Hw as [Hl Hfs]. cbn [steps] in Hs.
    apply all_steps_wf in Hl. change (union_all bm_new (map step_fully_deleted_fragments l) = Some b) in Hd.
    apply union_all_Some in Hd as (bs & Hbs & Hb).
    assert (Hdel : Forall2 (fun s b => deletes (step_get s) (step_past s) b) l bs).
    { clear -IH Hl Hbs. revert bs Hbs. induction l as [|s l IHl]; intros [|b bs] E; cbn [map] in E; [constructor|done|done|].
      injection E as E1 E2. inversion IH; inversion Hl; subst. constructor; [auto|]. by apply IHl. }
    intros a. rewrite chain_get_steps by done. change (chain_past (mkChain l fs) a) with (existsb (fun s => step_past s a) l).
    destruct (get_by_step_deletes (map step_get l) a) as [[E Hnone]|E].
    + apply Forall_map, Forall_forall. intros s Hin. apply list_elem_of_lookup in Hin as [i Hi].
      destruct (Forall2_lookup_l _ _ _ _ _ Hdel Hi) as (b' & _ & Hd). destruct (proj1 (proj1 (Forall_lookup _ _) Hs i s Hi) a) as (o & Eo & _).
      destruct (Hd a) as [Hm _]. rewrite Eo in *. destruct o as [[x|]|]; [by destruct (Hm x)|auto..].
    + rewrite E. split; [done|]. rewrite Hb, bm_contains_new. cbn [orb]. intros (b' & Hin & Hc)%existsb_exists Hp. exfalso.
      apply list_elem_of_In, list_elem_of_lookup in Hin as [i Hi]. destruct (Forall2_lookup_r _ _ _ _ _ Hdel Hi) as (s & Hsi & Hd).
      destruct (Hd a) as [_ Hno]. rewrite Forall_map in Hnone. pose proof (proj1 (Forall_lookup _ _) Hnone i s Hsi) as Hn. cbn in Hn.
      rewrite Hno in Hn; [done|done|]. destruct (step_past s a) eqn:Ep; [|done].
      rewrite <- Hp. symmetry. apply existsb_exists. exists s. split; [|done]. apply list_elem_of_In, list_elem_of_lookup. eauto.
    + rewrite E. by split.
Qed.

(** An address a remap moves or deletes lies in a fragment it reports as
    affected.  When it reports fragments as fully deleted, it moves no row at
    all, and every row of those fragments is deleted, the addresses past the
    fragment's row count apart. *)
Theorem remap_fragments m : remap_wf m ->
  (forall a o, remap_get m a = Ok (Some o) -> bm_contains (affected_fragments m) (fragment_id a) = true) /\
  (forall b, fully_deleted_fragments m = Some b -> forall a,
     (forall x, remap_get m a <> Ok (Some (Some x))) /\
     (bm_contains b (fragment_id a) = true -> remap_past m a = false -> remap_get m a = Ok (Some None))).
Proof.
  intros Hm. split; [|intros b Hb; by apply remaps_deleted].
  intros a o E. destruct (proj1 (proj2 remaps_sound) m Hm a) as (o' & E' & _ & Hn). rewrite E in E'. injection E' as <-.
  destruct (bm_contains (affected_fragments m) (fragment_id a)) eqn:Ec; [done|]. specialize (Hn ltac:(by intros H)). done.
Qed.

End ChainFacts.

(** ** Examples *)

Module RemapChainExamples.
Import RemapExamples.

#[local] Existing Instance CofiniteRoaring.
#[local] Existing Instance CofiniteRoaring_laws.
#[local] Existing Instance CofiniteRanks.
#[local] Existing Instance CofiniteRanks_laws.
#[local] Existing Instance ListTreemap.
#[local] Existing Instance ListTreemap_laws.

Definition ListOrder : HashOrder := {| hash_iter V m := map_to_list m |}.
#[local] Existing Instance ListOrder.

#[local] Instance ListOrder_laws : HashOrderLaws ListOrder.
Proof. by split. Qed.

(** Forty remaps, each moving row 0 of a fragment to the next fragment. *)
Definition hop (f : Z) : RowAddrRemap := ADirect {[ new_from_parts f 0 := Some (new_from_parts (f + 1) 0) ]}.
Definition hops : list RowAddrRemap := map hop (seqZ 0 40).

Lemma hops_indexed : match chained hops with ACompact c => match fragment_steps c with Some _ => true | None => false end | _ => false end = true.
Proof. vm_compute. reflexivity. Qed.

Lemma hops_lookups :
  map (remap_get (chained hops)) [new_from_parts 0 0; new_from_parts 30 0; new_from_parts 40 0; new_from_parts 5 1] =
  [Ok (Some (Some (new_from_parts 40 0))); Ok (Some (Some (new_from_parts 40 0))); Ok None; Ok None].
Proof. vm_compute. reflexivity. Qed.

Lemma hop_wf f : 0 <= f <= 100 -> remap_wf (hop f).
Proof.
  intros Hf a x [<- <-]%lookup_singleton_Some. split; [apply parts_u64; uok; lia|]. intros b [= <-]. apply parts_u64; uok; lia.
Qed.

Lemma hops_wf : Forall remap_wf hops.
Proof. apply Forall_map, Forall_forall. intros f Hf%elem_of_seqZ. apply hop_wf. lia. Qed.

Lemma chained_remaps_witness :
  (exists o, remap_get (chained hops) (new_from_parts 3 0) = Ok o /\ in_order (map remap_get hops) (new_from_parts 3 0) = Ok o) /\
  remap_get (with_removed_fragments (hop 3) (bits [3])) (new_from_parts 3 0) = Ok (Some None).
Proof.
  destruct (chained_remaps hops (hop 3) (bits [3]) (new_from_parts 3 0) hops_wf (hop_wf 3 ltac:(lia))) as (H1 & _ & H2 & _).
  split; [exact H1|]. rewrite H2. vm_compute. reflexivity.
Defined.

Lemma remap_fragments_witness :
  bm_contains (affected_fragments (hop 3)) 3 = true /\
  remap_get (with_removed_fragments remap_empty (bits [4])) (new_from_parts 4 9) = Ok (Some None).
Proof.
  split.
  - apply (proj1 (remap_fragments (hop 3) (hop_wf 3 ltac:(lia))) (new_from_parts 3 0) (Some (new_from_parts 4 0))). vm_compute. reflexivity.
  - assert (Hw : remap_wf (with_removed_fragments remap_empty (bits [4]))).
    { apply (removed_get remap_empty (bits [4]) 0). intros a x H. rewrite lookup_empty in H. discriminate. }
    destruct (fully_deleted_fragments (with_removed_fragments remap_empty (bits [4]))) as [b|] eqn:E.
    + apply (proj2 (remap_fragments _ Hw) b E); [|vm_compute; reflexivity].
      assert (H : match fully_deleted_fragments (with_removed_fragments remap_empty (bits [4])) with
        | Some b => bm_contains b (fragment_id (new_from_parts 4 9)) | None => false end = true) by (vm_compute; reflexivity).
      rewrite E in H. exact H.
    + assert (H : match fully_deleted_fragments (with_removed_fragments remap_empty (bits [4])) with
        | Some b => true | None => false end = true) by (vm_compute; reflexivity). rewrite E in H. discriminate.
Defined.

End RemapChainExamples.
