(* ===== verification/RemapBatch.v ===== *)
(** * Batch remapping

    [remap_in_place] of [lance-core/src/utils/row_addr_remap.rs]: a remap applied
    to a vector of addresses.  A short chain applies its steps to every row; an
    indexed chain keeps, for each fragment, the positions of the rows in it, and
    lets every step visit only the fragments it names. *)

From Stdlib Require Import ZArith Lia.
From stdpp Require Import base option list numbers sorting sets gmap.
From S2P Require Import Prelude Lists Bits RowAddress Itertools Roaring Deletion RankedOffsets Remap RemapChain.

(** ** Model *)

Definition REMAP_BATCH_ROWS : Z := 65536.

(** The positions of the rows in each fragment. *)
Abbreviation RowsByFragment := (gmap Z (list Z)) (only parsing).

(** [slice::chunks_mut] *)
Fixpoint chunks_fuel {A} (fuel : nat) (n : Z) (l : list A) : list (list A) :=
  match fuel with
  | O => []
  | S fuel => match l with [] => [] | _ => ztake n l :: chunks_fuel fuel n (zskip n l) end
  end.
Definition chunks {A} (n : Z) (l : list A) : list (list A) := chunks_fuel (length l) n l.

(** One row: a deleted row stays, an address the remap does not know too. *)
Definition apply_row (get : Lookup) (row_addr : option Z) : res (option Z) :=
  match row_addr with
  | None => Ok None
  | Some addr => o ← get addr; Ok (match o with Some mapped => mapped | None => Some addr end)
  end.

(** The loops of [add_rows]: [list] is the vector of [frag_id], extended while
    the rows stay in the fragment. *)
Fixpoint add_run (rows_by_fragment : RowsByFragment) (frag_id : Z) (list : list Z) (rows : Datatypes.list (Z * Z)) : RowsByFragment :=
  match rows with
  | [] => <[frag_id := list]> rows_by_fragment
  | (position, next) :: rows =>
      if next =? frag_id then add_run rows_by_fragment frag_id (list ++ [position]) rows
      else
        let rows_by_fragment := <[frag_id := list]> rows_by_fragment in
        add_run rows_by_fragment next (default [] (rows_by_fragment !! next) ++ [position]) rows
  end.

Definition add_rows (rows_by_fragment : RowsByFragment) (row_addrs : list (option Z)) (positions : list Z) : res RowsByFragment :=
  rows ← filter_map_res (fun position =>
    row ← idx row_addrs position;
    Ok (match row with Some addr => Some (position, wrap32 (Z.shiftr addr 32)) | None => None end)) positions;
  Ok (match rows with
      | [] => rows_by_fragment
      | (position, frag_id) :: rows => add_run rows_by_fragment frag_id (default [] (rows_by_fragment !! frag_id) ++ [position]) rows
      end).

(** The positions kept, the rows and the positions moved.  Releasing spare
    capacity changes no value. *)
Fixpoint apply_step (positions : list Z) (row_addrs : list (option Z)) (moved : list Z) (get : Lookup) : res (list Z * list (option Z) * list Z) :=
  match positions with
  | [] => Ok ([], row_addrs, moved)
  | position :: positions =>
      row_addr ← idx row_addrs position;
      match row_addr with
      | None => apply_step positions row_addrs moved get
      | Some addr =>
          o ← get addr;
          match o with
          | None =>
              r ← apply_step positions row_addrs moved get;
              let '(kept, row_addrs, moved) := r in Ok (position :: kept, row_addrs, moved)
          | Some mapped =>
              row_addrs ← idx_set row_addrs position mapped;
              apply_step positions row_addrs (match mapped with Some _ => moved ++ [position] | None => moved end) get
          end
      end
  end.

(** The rows of one step: the map, the batch and the positions moved. *)
Definition BatchState : Type := RowsByFragment * list (option Z) * list Z.

(** One entry of the map under [get]; an emptied entry is removed. *)
Definition apply_entry (get : Lookup) (st : BatchState) (frag_id : Z) (rows : list Z) : res BatchState :=
  let '(rows_by_fragment, batch, moved) := st in
  r ← apply_step rows batch moved get;
  let '(rows, batch, moved) := r in
  Ok (match rows with [] => delete frag_id rows_by_fragment | _ => <[frag_id := rows]> rows_by_fragment end, batch, moved).

(** [batch[position] = None] for each position. *)
Definition clear_rows (batch : list (option Z)) (rows : list Z) : res (list (option Z)) :=
  fold_res (fun batch position => idx_set batch position None) batch rows.

Section BatchModel.
Context {RB : Roaring} {RR : RoaringRanks RB} {TP : TreemapParts RB} {HO : HashOrder}.

(** [rows_by_fragment.retain] with a step's lookup. *)
Definition retain_rows (get : Z -> option Lookup) (st : BatchState) : res BatchState :=
  fold_res (fun st p =>
    match get (fst p) with
    | Some get => apply_entry get st (fst p) (snd p)
    | None =>
        let '(rows_by_fragment, batch, moved) := st in
        Ok (match snd p with [] => delete (fst p) rows_by_fragment | _ => rows_by_fragment end, batch, moved)
    end) st (hash_iter (fst (fst st))).

Definition batch_step (s : RemapStep) (st : BatchState) : res BatchState :=
  let '(rows_by_fragment, batch, moved) := st in
  match s with
  | SCompact compact =>
      if Z.of_nat (size (frags compact)) <=? Z.of_nat (size rows_by_fragment) then
        fold_res (fun st p =>
          match fst (fst st) !! fst p with
          | Some rows => apply_entry (get_in compact (snd p)) st (fst p) rows
          | None => Ok st
          end) st (hash_iter (frags compact))
      else retain_rows (fun frag_id => get_in compact <$> frags compact !! frag_id) st
  | SDirect direct => retain_rows (fun _ => Some (fun addr => Ok (direct !! addr))) st
  | SRemoveFragments fragments =>
      if bm_len fragments <=? Z.of_nat (size rows_by_fragment) then
        fold_res (fun '(rows_by_fragment, batch, moved) frag_id =>
          match rows_by_fragment !! frag_id with
          | Some rows => batch ← clear_rows batch rows; Ok (delete frag_id rows_by_fragment, batch, moved)
          | None => Ok (rows_by_fragment, batch, moved)
          end) st (bm_iter fragments)
      else
        fold_res (fun '(rows_by_fragment, batch, moved) p =>
          if bm_contains fragments (fst p) then batch ← clear_rows batch (snd p); Ok (delete (fst p) rows_by_fragment, batch, moved)
          else Ok (rows_by_fragment, batch, moved)) st (hash_iter rows_by_fragment)
  | SShared mapping => retain_rows (fun _ => Some (remap_get mapping)) st
  end.

(** The steps on one batch; the rows moved join their new fragments after each. *)
Definition batch_steps (steps : list RemapStep) (batch : list (option Z)) : res (list (option Z)) :=
  rows_by_fragment ← add_rows ∅ batch (range_list (0 ..< zlen batch));
  r ← fold_res (fun '(rows_by_fragment, batch) s =>
    st ← batch_step s (rows_by_fragment, batch, []);
    let '(rows_by_fragment, batch, moved) := st in
    rows_by_fragment ← add_rows rows_by_fragment batch moved;
    Ok (rows_by_fragment, batch)) (rows_by_fragment, batch) steps;
  Ok (snd r).

Definition remap_in_place_by_fragment (steps : list RemapStep) (row_addrs : list (option Z)) : res (list (option Z)) :=
  batches ← map_res (batch_steps steps) (chunks REMAP_BATCH_ROWS row_addrs);
  Ok (concat batches).

Definition chain_remap_in_place (c : CompactRowAddrRemap) (row_addrs : list (option Z)) : res (list (option Z)) :=
  match fragment_steps c with
  | Some _ => remap_in_place_by_fragment (steps c) row_addrs
  | None => fold_res (fun row_addrs step => map_res (apply_row (step_get step)) row_addrs) row_addrs (steps c)
  end.

Definition remap_in_place (m : RowAddrRemap) (row_addrs : list (option Z)) : res (list (option Z)) :=
  match m with
  | ACompact compact => chain_remap_in_place compact row_addrs
  | ADirect _ => map_res (apply_row (remap_get m)) row_addrs
  end.

End BatchModel.

(** ** The positions of the rows *)

Definition in_frag (batch : list (option Z)) (f p : Z) : bool :=
  match get_opt batch p with Some (Some a) => fragment_id a =? f | _ => false end.

Lemma add_run_get rows m f l g :
  default [] (add_run m f l rows !! g) = (if g =? f then l else default [] (m !! g)) ++ map fst (List.filter (fun r => snd r =? g) rows).
Proof.
  revert m f l. induction rows as [|[p next] rows IH]; intros m f l; cbn [add_run List.filter map snd].
  - rewrite app_nil_r. destruct (Z.eqb_spec g f) as [->|Hne]; [by rewrite lookup_insert_eq|by rewrite lookup_insert_ne].
  - destruct (Z.eqb_spec next f) as [->|Hnf].
    + rewrite IH. destruct (Z.eqb_spec g f) as [->|Hne]; [by rewrite Z.eqb_refl, <- app_assoc|].
      destruct (Z.eqb_spec f g); [congruence|done].
    + rewrite IH. destruct (Z.eqb_spec g next) as [->|Hne].
      * rewrite Z.eqb_refl, <- app_assoc. destruct (Z.eqb_spec next f); [congruence|]. by rewrite lookup_insert_ne by done.
      * destruct (Z.eqb_spec next g); [congruence|]. destruct (Z.eqb_spec g f) as [->|]; [by rewrite lookup_insert_eq|by rewrite lookup_insert_ne].
Qed.

Definition row_of (batch : list (option Z)) (p : Z) : option (Z * Z) :=
  match get_opt batch p with Some (Some a) => Some (p, fragment_id a) | _ => None end.

Lemma row_of_filter batch ps g : map fst (List.filter (fun r => snd r =? g) (omap (row_of batch) ps)) = List.filter (in_frag batch g) ps.
Proof.
  induction ps as [|p ps IH]; [done|]. cbn. unfold row_of at 1, in_frag at 1. destruct (get_opt batch p) as [[a|]|]; cbn; [|done..].
  destruct (_ =? g); cbn; by rewrite IH.
Qed.

Lemma add_rows_ok m batch ps : Forall (fun p => 0 <= p < zlen batch) ps ->
  exists m', add_rows m batch ps = Ok m' /\ forall g, default [] (m' !! g) = default [] (m !! g) ++ List.filter (in_frag batch g) ps.
Proof.
  intros Hps. unfold add_rows. rewrite (filter_map_res_ok _ (row_of batch)).
  - mon. eexists. split; [done|]. intros g. rewrite <- row_of_filter. destruct (omap (row_of batch) ps) as [|[p f] rows]; [by rewrite app_nil_r|].
    rewrite add_run_get. cbn [List.filter snd]. destruct (Z.eqb_spec g f) as [->|Hne].
    + rewrite Z.eqb_refl, <- app_assoc. done.
    + destruct (Z.eqb_spec f g); [congruence|done].
  - eapply Forall_impl; [exact Hps|]. cbn. intros p Hp. unfold idx, row_of. destruct (get_opt batch p) as [[a|]|] eqn:E; [done|done|].
    apply get_opt_None in E. lia.
Qed.

(** The map holds exactly the rows of the batch, each under its fragment. *)
Definition tracks (m : RowsByFragment) (batch : list (option Z)) : Prop :=
  (forall f p, p ∈ default [] (m !! f) <-> in_frag batch f p = true) /\ (forall f, NoDup (default [] (m !! f))).

Lemma in_frag_bound batch f p : in_frag batch f p = true -> 0 <= p < zlen batch.
Proof. unfold in_frag. destruct (get_opt batch p) eqn:E; [|done]. intros _. by eapply get_opt_Some. Qed.

Lemma add_rows_all batch : exists m, add_rows ∅ batch (range_list (0 ..< zlen batch)) = Ok m /\ tracks m batch.
Proof.
  destruct (add_rows_ok ∅ batch (range_list (0 ..< zlen batch))) as (m & E & H).
  { apply Forall_forall. intros p Hp%elem_of_range_list. done. }
  exists m. split; [done|]. split.
  - intros f p. rewrite H, lookup_empty. cbn. rewrite elem_of_filterb, elem_of_range_list. cbn. split; [tauto|].
    intros Hp. split; [by eapply in_frag_bound|done].
  - intros f. rewrite H, lookup_empty. cbn. apply NoDup_filterb, ssorted_NoDup, ssorted_range_list.
Qed.

(** The entry [apply_entry] leaves. *)
Lemma set_entry_ne (m : RowsByFragment) f l g : g <> f -> match l with [] => delete f m | _ => <[f := l]> m end !! g = m !! g.
Proof. intros H. destruct l; [by apply lookup_delete_ne|by apply lookup_insert_ne]. Qed.

Lemma set_entry_eq (m : RowsByFragment) f l : default [] (match l with [] => delete f m | _ => <[f := l]> m end !! f) = l.
Proof. destruct l; [by rewrite lookup_delete_eq|by rewrite lookup_insert_eq]. Qed.

(** ** One step on a batch *)

Section OneStep.
(** The rows before the step, the map of their positions and the step's
    answers. *)
Context (orig : list (option Z)) (m0 : RowsByFragment) (F : Z -> option (option Z)).

Definition applied (row : option Z) : option Z :=
  match row with None => None | Some a => match F a with Some mapped => mapped | None => Some a end end.

(** A row when the fragments of [done] have been visited. *)
Definition visited (done : Z -> bool) (row : option Z) : option Z :=
  match row with Some a => if done (fragment_id a) then applied (Some a) else Some a | None => None end.

Definition kept (p : Z) : bool := match get_opt orig p with Some (Some a) => match F a with None => true | _ => false end | _ => false end.
Definition moves (p : Z) : bool := match get_opt orig p with Some (Some a) => match F a with Some (Some _) => true | _ => false end | _ => false end.

(** The step half way: the rows of the fragments visited have their new
    addresses, the ones it left are still tracked, the ones it moved are
    remembered. *)
Record halfway (done : Z -> bool) (m : RowsByFragment) (batch : list (option Z)) (moved : list Z) : Prop := {
  hw_batch : batch = map (visited done) orig;
  hw_rows f : default [] (m !! f) = if done f then List.filter kept (default [] (m0 !! f)) else default [] (m0 !! f);
  hw_map f : done f = false -> m !! f = m0 !! f;
  hw_moved p : p ∈ moved <-> moves p = true /\ exists a, get_opt orig p = Some (Some a) /\ done (fragment_id a) = true;
  hw_nodup : NoDup moved
}.

Hypothesis Htr : tracks m0 orig.

Lemma apply_step_ok ps batch moved get : NoDup ps -> zlen batch = zlen orig ->
  Forall (fun p => exists a, get_opt orig p = Some (Some a) /\ get_opt batch p = Some (Some a) /\ get a = Ok (F a)) ps ->
  exists batch', apply_step ps batch moved get = Ok (List.filter kept ps, batch', moved ++ List.filter moves ps) /\
    zlen batch' = zlen orig /\ forall q, get_opt batch' q = if bool_decide (q ∈ ps) then applied <$> get_opt orig q else get_opt batch q.
Proof.
  intros Hn. revert batch moved. induction Hn as [|p ps Hp Hn IH]; intros batch moved Hl Hps.
  { exists batch. rewrite app_nil_r. split; [done|]. split; [done|]. intros q. by rewrite bool_decide_false by apply not_elem_of_nil. }
  inversion Hps as [|?? (a & Ho & Hb & Hg) Hps']; subst. cbn [apply_step List.filter]. unfold idx. rewrite Hb. mon. rewrite Hg. mon.
  unfold kept at 1, moves at 1. rewrite Ho. pose proof (get_opt_Some _ _ _ Hb).
  assert (Hcase : forall batch1, zlen batch1 = zlen orig -> (forall q, q <> p -> get_opt batch1 q = get_opt batch q) ->
    get_opt batch1 p = applied <$> get_opt orig p -> forall mv, exists batch', apply_step ps batch1 mv get = Ok (List.filter kept ps, batch', mv ++ List.filter moves ps) /\
    zlen batch' = zlen orig /\ forall q, get_opt batch' q = if bool_decide (q ∈ p :: ps) then applied <$> get_opt orig q else get_opt batch q).
  { intros batch1 Hl1 Hne Heq mv. destruct (IH batch1 mv Hl1) as (b' & E & Hl' & G).
    { apply Forall_forall. intros q Hq. destruct (proj1 (Forall_forall _ _) Hps' q Hq) as (x & H1 & H2 & H3). exists x.
      split; [done|]. split; [|done]. rewrite Hne; [done|]. by intros ->. }
    exists b'. split; [done|]. split; [done|]. intros q. rewrite G. destruct (decide (q = p)) as [->|Hqp].
    - rewrite bool_decide_false by done. by rewrite bool_decide_true by apply list_elem_of_here.
    - rewrite (bool_decide_ext (q ∈ p :: ps) (q ∈ ps)) by (rewrite elem_of_cons; tauto). by rewrite Hne. }
  destruct (F a) as [mapped|] eqn:Ef.
  - rewrite idx_set_ok by lia. mon. set (b1 := <[Z.to_nat p := mapped]> batch).
    destruct (Hcase b1) with (mv := match mapped with Some _ => moved ++ [p] | None => moved end) as (b' & E & R).
    + unfold b1, zlen. by rewrite length_insert.
    + intros q Hq. unfold b1. rewrite get_opt_insert by lia. by destruct (Z.eqb_spec q p).
    + unfold b1. rewrite get_opt_insert, Z.eqb_refl, Ho by lia. cbn. by rewrite Ef.
    + exists b'. rewrite E. split; [|done]. destruct mapped; [by rewrite <- app_assoc|done].
  - destruct (Hcase batch Hl ltac:(done)) with (mv := moved) as (b' & E & R).
    + rewrite Ho, Hb. cbn. by rewrite Ef.
    + rewrite E. mon. by exists b'.
Qed.

Lemma clear_rows_ok ps batch : zlen batch = zlen orig -> Forall (fun p => 0 <= p < zlen orig) ps ->
  exists batch', clear_rows batch ps = Ok batch' /\ zlen batch' = zlen orig /\
    forall q, get_opt batch' q = if bool_decide (q ∈ ps) then Some None else get_opt batch q.
Proof.
  unfold clear_rows. intros Hl Hps. revert batch Hl. induction Hps as [|p ps Hp _ IH]; intros batch Hl.
  { exists batch. split; [done|]. split; [done|]. intros q. by rewrite bool_decide_false by apply not_elem_of_nil. }
  cbn [fold_res]. rewrite idx_set_ok by lia. mon. destruct (IH (<[Z.to_nat p := None]> batch)) as (b' & E & Hl' & G).
  { unfold zlen. by rewrite length_insert. }
  exists b'. split; [done|]. split; [done|]. intros q. rewrite G. rewrite get_opt_insert by lia. destruct (Z.eqb_spec q p) as [->|Hqp].
  - rewrite (bool_decide_true (p ∈ p :: ps)) by apply list_elem_of_here. by destruct (bool_decide _).
  - rewrite (bool_decide_ext (q ∈ p :: ps) (q ∈ ps)) by (rewrite elem_of_cons; tauto). done.
Qed.

(** Visiting one more fragment. *)
Definition with_frag (done : Z -> bool) (f : Z) : Z -> bool := fun g => (g =? f) || done g.

Lemma halfway_len done m batch moved : halfway done m batch moved -> zlen batch = zlen orig.
Proof. intros H. rewrite (hw_batch _ _ _ _ H). apply zlen_map. Qed.

(** The rows of a fragment not yet visited. *)
Lemma halfway_rows done m batch moved f p : halfway done m batch moved -> done f = false -> p ∈ default [] (m0 !! f) ->
  exists a, get_opt orig p = Some (Some a) /\ get_opt batch p = Some (Some a) /\ fragment_id a = f.
Proof.
  intros H Hf Hp. apply Htr in Hp. unfold in_frag in Hp. destruct (get_opt orig p) as [[a|]|] eqn:E; try done. apply Z.eqb_eq in Hp as <-.
  exists a. split; [done|]. split; [|done]. rewrite (hw_batch _ _ _ _ H), get_opt_map, E. cbn. by rewrite Hf.
Qed.

(** The batch after the rows of [f] got their new addresses. *)
Lemma visit_batch done m batch moved f batch' : halfway done m batch moved -> done f = false ->
  (forall q, get_opt batch' q = if bool_decide (q ∈ default [] (m0 !! f)) then applied <$> get_opt orig q else get_opt batch q) ->
  batch' = map (visited (with_frag done f)) orig.
Proof.
  intros H Hf G. apply get_opt_eq. intros q. rewrite G, get_opt_map. rewrite (hw_batch _ _ _ _ H), get_opt_map.
  case_bool_decide as Hq; apply Htr in Hq || rewrite (proj1 Htr) in Hq; unfold in_frag in Hq; destruct (get_opt orig q) as [[a|]|]; try done; cbn; unfold with_frag.
  - by rewrite Hq.
  - destruct (Z.eqb_spec (fragment_id a) f); [done|]. done.
Qed.

Lemma visit_done done m batch moved f m' batch' : halfway done m batch moved -> done f = false ->
  (forall g, g <> f -> m' !! g = m !! g) -> default [] (m' !! f) = List.filter kept (default [] (m0 !! f)) ->
  (forall q, get_opt batch' q = if bool_decide (q ∈ default [] (m0 !! f)) then applied <$> get_opt orig q else get_opt batch q) ->
  halfway (with_frag done f) m' batch' (moved ++ List.filter moves (default [] (m0 !! f))).
Proof.
  intros H Hf Hm Hmf Hb. split.
  - by eapply visit_batch.
  - intros g. unfold with_frag. destruct (Z.eqb_spec g f) as [->|Hne]; [done|]. cbn [orb]. rewrite Hm by done. apply (hw_rows _ _ _ _ H).
  - intros g. unfold with_frag. destruct (Z.eqb_spec g f) as [->|Hne]; [done|]. cbn [orb]. rewrite Hm by done. apply (hw_map _ _ _ _ H).
  - intros p. rewrite elem_of_app, (hw_moved _ _ _ _ H), elem_of_filterb, (proj1 Htr). unfold in_frag, with_frag. split.
    + intros [(Hmv & a & Ho & Hd)|(Hi & Hmv)]; (split; [done|]).
      * exists a. split; [done|]. by rewrite Hd, orb_true_r.
      * destruct (get_opt orig p) as [[a|]|]; try done. exists a. split; [done|]. by rewrite Hi.
    + intros (Hmv & a & Ho & Hd). rewrite Ho. destruct (fragment_id a =? f); [by right|left]. split; [done|]. eauto.
  - apply NoDup_app. split; [apply (hw_nodup _ _ _ _ H)|]. split; [|apply NoDup_filterb, Htr].
    intros p (_ & a & Ho & Hd)%(hw_moved _ _ _ _ H) [Hp _]%elem_of_filterb. apply Htr in Hp. unfold in_frag in Hp. rewrite Ho in Hp.
    apply Z.eqb_eq in Hp as <-. congruence.
Qed.

Lemma visit_frag done m batch moved f get rows : halfway done m batch moved -> done f = false -> m0 !! f = Some rows ->
  (forall a, fragment_id a = f -> get a = Ok (F a)) ->
  exists m' batch' moved', apply_entry get (m, batch, moved) f rows = Ok (m', batch', moved') /\ halfway (with_frag done f) m' batch' moved'.
Proof.
  intros H Hf Hr Hget. assert (Er : rows = default [] (m0 !! f)) by (by rewrite Hr).
  destruct (apply_step_ok rows batch moved get) as (batch' & E & Hl & G).
  - rewrite Er. apply Htr.
  - by eapply halfway_len.
  - apply Forall_forall. intros p Hp. rewrite Er in Hp. destruct (halfway_rows _ _ _ _ _ _ H Hf Hp) as (a & H1 & H2 & H3). exists a. auto.
  - unfold apply_entry. rewrite E. mon. do 3 eexists. split; [done|]. rewrite Er in G |- *. eapply visit_done; [exact H|done| | |exact G].
    + intros g Hg. by apply set_entry_ne.
    + apply set_entry_eq.
Qed.

Lemma visit_cleared done m batch moved f rows : halfway done m batch moved -> done f = false -> m0 !! f = Some rows ->
  (forall a, fragment_id a = f -> F a = Some None) ->
  exists batch', clear_rows batch rows = Ok batch' /\ halfway (with_frag done f) (delete f m) batch' moved.
Proof.
  intros H Hf Hr HF. assert (Er : rows = default [] (m0 !! f)) by (by rewrite Hr).
  destruct (clear_rows_ok rows batch) as (batch' & E & Hl & G).
  - by eapply halfway_len.
  - apply Forall_forall. intros p Hp. rewrite Er in Hp. apply Htr in Hp. by eapply in_frag_bound.
  - exists batch'. split; [done|].
    assert (Hrow : forall p, p ∈ rows -> exists a, get_opt orig p = Some (Some a) /\ F a = Some None).
    { intros p Hp. rewrite Er in Hp. destruct (halfway_rows _ _ _ _ _ _ H Hf Hp) as (a & H1 & _ & H3). eauto. }
    replace moved with (moved ++ List.filter moves (default [] (m0 !! f))).
    + eapply visit_done; [exact H|done|intros g Hg; by rewrite lookup_delete_ne| |].
      * rewrite lookup_delete_eq. cbn. symmetry. apply filter_none, Forall_forall. intros p Hp. rewrite <- Er in Hp.
        destruct (Hrow p Hp) as (a & Ho & Ha). unfold kept. by rewrite Ho, Ha.
      * intros q. rewrite <- Er, G. case_bool_decide as Hq; [|done]. destruct (Hrow q Hq) as (a & Ho & Ha). rewrite Ho. cbn. by rewrite Ha.
    + rewrite filter_none, app_nil_r; [done|]. apply Forall_forall. intros p Hp. rewrite <- Er in Hp.
      destruct (Hrow p Hp) as (a & Ho & Ha). unfold moves. by rewrite Ho, Ha.
Qed.

(** A fragment whose rows the step leaves alone, or that has none. *)
Lemma visit_skip done m batch moved f : halfway done m batch moved -> done f = false ->
  (forall p a, get_opt orig p = Some (Some a) -> fragment_id a = f -> F a = None) ->
  forall m', (forall g, g <> f -> m' !! g = m !! g) -> default [] (m' !! f) = default [] (m !! f) ->
  halfway (with_frag done f) m' batch moved.
Proof.
  intros H Hf HF m' Hm Hmf.
  assert (Hrow : forall p, p ∈ default [] (m0 !! f) -> exists a, get_opt orig p = Some (Some a) /\ F a = None).
  { intros p Hp. destruct (halfway_rows _ _ _ _ _ _ H Hf Hp) as (a & H1 & _ & H3). eauto. }
  replace moved with (moved ++ List.filter moves (default [] (m0 !! f))).
  - eapply visit_done; [exact H|done|done| |].
    + rewrite Hmf, (hw_map _ _ _ _ H f Hf). symmetry. apply filter_all, Forall_forall. intros p Hp.
      destruct (Hrow p Hp) as (a & Ho & Ha). unfold kept. by rewrite Ho, Ha.
    + intros q. case_bool_decide as Hq; [|done]. destruct (Hrow q Hq) as (a & Ho & Ha).
      destruct (halfway_rows _ _ _ _ _ _ H Hf Hq) as (a' & H1 & H2 & _). rewrite H2, Ho. cbn. rewrite Ha. congruence.
  - rewrite filter_none, app_nil_r; [done|]. apply Forall_forall. intros p Hp. destruct (Hrow p Hp) as (a & Ho & Ha). unfold moves. by rewrite Ho, Ha.
Qed.

Lemma halfway_start : halfway (fun _ => false) m0 orig [].
Proof.
  split; [|done|done| |constructor].
  - transitivity (map id orig); [symmetry; apply map_id|]. apply map_ext. intros [a|]; done.
  - intros p. split; [by intros H%not_elem_of_nil|]. by intros (_ & a & _ & H).
Qed.

(** The fragments left out have no row the step would change. *)
Lemma halfway_all done m batch moved : halfway done m batch moved ->
  (forall p a, get_opt orig p = Some (Some a) -> done (fragment_id a) = false -> F a = None) -> halfway (fun _ => true) m batch moved.
Proof.
  intros H HF. split; [| |done| |apply (hw_nodup _ _ _ _ H)].
  - rewrite (hw_batch _ _ _ _ H). apply map_ext_Forall, Forall_forall. intros [a|] Hr; [|done]. cbn. apply elem_of_get_opt in Hr as [p Hp].
    destruct (done (fragment_id a)) eqn:E; [done|]. by rewrite (HF p a Hp E).
  - intros f. rewrite (hw_rows _ _ _ _ H). destruct (done f) eqn:E; [done|]. symmetry. apply filter_all, Forall_forall. intros p Hp.
    apply Htr in Hp. unfold in_frag in Hp. unfold kept. destruct (get_opt orig p) as [[a|]|] eqn:Eo; try done.
    apply Z.eqb_eq in Hp as <-. by rewrite (HF p a Eo E).
  - intros p. rewrite (hw_moved _ _ _ _ H). split; intros (Hm & a & Ho & Hd); (split; [done|]); exists a; (split; [done|]); [done|].
    destruct (done (fragment_id a)) eqn:E; [done|]. unfold moves in Hm. by rewrite Ho, (HF p a Ho E) in Hm.
Qed.

(** The rows moved join their new fragments. *)
Lemma halfway_finish m batch moved : halfway (fun _ => true) m batch moved ->
  batch = map applied orig /\ exists m', add_rows m batch moved = Ok m' /\ tracks m' batch.
Proof.
  intros H. assert (Eb : batch = map applied orig) by (rewrite (hw_batch _ _ _ _ H); apply map_ext; intros [a|]; done). split; [done|].
  assert (Hmv : forall p, p ∈ moved <-> moves p = true).
  { intros p. rewrite (hw_moved _ _ _ _ H). split; [tauto|]. intros Hm. split; [done|]. unfold moves in Hm.
    destruct (get_opt orig p) as [[a|]|]; try done. eauto. }
  destruct (add_rows_ok m batch moved) as (m' & E & G).
  { apply Forall_forall. intros p Hp%Hmv. unfold moves in Hp. destruct (get_opt orig p) eqn:Eo; [|done]. rewrite Eb, zlen_map. by eapply get_opt_Some. }
  exists m'. split; [done|]. split.
  - intros f p. rewrite G, (hw_rows _ _ _ _ H), elem_of_app, !elem_of_filterb, Hmv, (proj1 Htr). rewrite Eb.
    unfold in_frag, kept, moves. rewrite get_opt_map. destruct (get_opt orig p) as [[a|]|]; cbn; [|by split; [intros [[? ?]|[? ?]]|]..].
    destruct (F a) as [[b|]|]; (split; [by intros [[? ?]|[? ?]]|intros Hp; first [done|by left|by right]]).
  - intros f. rewrite G, (hw_rows _ _ _ _ H). apply NoDup_app. split; [apply NoDup_filterb, Htr|]. split; [|apply NoDup_filterb, (hw_nodup _ _ _ _ H)].
    intros p [_ Hk]%elem_of_filterb [Hm%Hmv _]%elem_of_filterb. unfold kept in Hk. unfold moves in Hm.
    destruct (get_opt orig p) as [[a|]|]; try done. by destruct (F a) as [[b|]|].
Qed.

(** A loop that visits one fragment after the other. *)
Definition halfway_st (done : Z -> bool) (st : BatchState) : Prop := halfway done (fst (fst st)) (snd (fst st)) (snd st).

Lemma visit_loop {X} (key : X -> Z) (body : BatchState -> X -> res BatchState) l done st : NoDup (map key l) ->
  (forall x, x ∈ l -> done (key x) = false) -> halfway_st done st ->
  (forall x done st, x ∈ l -> done (key x) = false -> halfway_st done st -> exists st', body st x = Ok st' /\ halfway_st (with_frag done (key x)) st') ->
  exists st' done', fold_res body st l = Ok st' /\ halfway_st done' st' /\ forall f, done' f = done f || bool_decide (f ∈ map key l).
Proof.
  intros Hn Hd Hst Hbody. revert done st Hd Hst. induction l as [|x l IH]; intros done st Hd Hst.
  { exists st, done. split; [done|]. split; [done|]. intros f. by rewrite orb_false_r. }
  cbn [map] in Hn. inversion Hn as [|?? Hx Hn']; subst.
  destruct (Hbody x done st (list_elem_of_here _ _) (Hd x (list_elem_of_here _ _)) Hst) as (st1 & E1 & H1).
  destruct (IH Hn') with (done := with_frag done (key x)) (st := st1) as (st2 & d2 & E2 & H2 & D2); [|..|done|].
  - intros y d s Hy. apply Hbody. by apply list_elem_of_further.
  - intros y Hy. unfold with_frag. rewrite Hd by (by apply list_elem_of_further). destruct (Z.eqb_spec (key y) (key x)) as [Ek|]; [|done].
    destruct Hx. rewrite <- Ek. by apply (list_elem_of_fmap_2 key).
  - exists st2, d2. cbn [fold_res]. rewrite E1. mon. split; [done|]. split; [done|]. intros f. rewrite D2. unfold with_frag.
    cbn [map]. destruct (Z.eqb_spec f (key x)) as [->|Hne]; cbn [orb].
    + by rewrite bool_decide_true, orb_true_r by apply list_elem_of_here.
    + f_equal. apply bool_decide_ext. rewrite elem_of_cons. tauto.
Qed.

(** No row lies in a fragment without an entry. *)
Lemma no_entry p a : get_opt orig p = Some (Some a) -> m0 !! fragment_id a = None -> False.
Proof.
  intros Ho Hm. assert (Hp : in_frag orig (fragment_id a) p = true) by (unfold in_frag; by rewrite Ho, Z.eqb_refl).
  apply Htr in Hp. rewrite Hm in Hp. by apply not_elem_of_nil in Hp.
Qed.

End OneStep.

(** ** The steps of a chain *)

Section BatchFacts.
Context {RB : Roaring} {RL : RoaringLaws RB} {RR : RoaringRanks RB} {RRL : RoaringRanksLaws RR}
  {TP : TreemapParts RB} {TPL : TreemapPartsLaws TP} {HO : HashOrder} {HOL : HashOrderLaws HO}.

Section StepKinds.
Context (orig : list (option Z)) (m0 : RowsByFragment) (F : Z -> option (option Z)) (Htr : tracks m0 orig).

(** What every kind of step achieves. *)
Definition step_result (r : res BatchState) : Prop := exists st, r = Ok st /\ halfway_st orig m0 F (fun _ => true) st.

Lemma hash_iter_nodup {V} (m : gmap Z V) : NoDup (map fst (hash_iter m)).
Proof.
  assert (Hp : map fst (hash_iter m) ≡ₚ map fst (map_to_list m)) by (apply Permutation_map, hash_iter_perm).
  rewrite Hp. apply NoDup_fst_map_to_list.
Qed.

Lemma hash_iter_elem {V} (m : gmap Z V) p : p ∈ hash_iter m <-> m !! fst p = Some (snd p).
Proof. rewrite (hash_iter_perm V m). destruct p. apply elem_of_map_to_list. Qed.

Lemma visited_all {X} (key : X -> Z) (body : BatchState -> X -> res BatchState) l : NoDup (map key l) ->
  (forall x done st, x ∈ l -> done (key x) = false -> halfway_st orig m0 F done st ->
     exists st', body st x = Ok st' /\ halfway_st orig m0 F (with_frag done (key x)) st') ->
  (forall p a, get_opt orig p = Some (Some a) -> fragment_id a ∉ map key l -> F a = None) ->
  step_result (fold_res body (m0, orig, []) l).
Proof.
  intros Hn Hbody Hrest. pose proof (halfway_start orig m0 F) as Hs.
  destruct (visit_loop orig m0 F key body l (fun _ => false) (m0, orig, []) Hn ltac:(done) Hs Hbody) as (st & done & E & H & Hd).
  exists st. split; [done|]. eapply halfway_all; [done|exact H|]. intros p a Ho Hf. apply (Hrest p a Ho).
  rewrite Hd in Hf. by apply bool_decide_eq_false in Hf.
Qed.

Lemma retain_rows_ok get : (forall f g, get f = Some g -> forall a, fragment_id a = f -> g a = Ok (F a)) ->
  (forall f, get f = None -> forall a, fragment_id a = f -> F a = None) ->
  step_result (retain_rows get (m0, orig, [])).
Proof.
  intros Hg Hno. unfold retain_rows. apply (visited_all fst); [apply hash_iter_nodup| |].
  - intros [f rows] done [[m batch] moved] Hp Hd H. apply hash_iter_elem in Hp. cbn [fst snd] in *. destruct (get f) as [g|] eqn:Eg.
    + destruct (visit_frag orig m0 F Htr done m batch moved f g rows H Hd Hp (Hg f g Eg)) as (m' & b' & mv' & E & H').
      exists (m', b', mv'). by split.
    + eexists. split; [done|]. eapply (visit_skip orig m0 F Htr done m batch moved f H Hd); cbn [fst snd].
      * intros p a _. by apply Hno.
      * intros g Hne. destruct rows; [by apply lookup_delete_ne|done].
      * pose proof (hw_map _ _ _ _ _ _ _ H f Hd) as Hm. cbn [fst snd] in Hm. destruct rows; [|done]. by rewrite lookup_delete_eq, Hm, Hp.
  - intros p a Ho Hf. destruct (no_entry orig m0 Htr p a Ho). destruct (m0 !! fragment_id a) as [rows|] eqn:E; [|done].
    destruct Hf. apply (list_elem_of_fmap_2 fst (hash_iter m0) (fragment_id a, rows)). by apply hash_iter_elem.
Qed.

Lemma compact_visit c : (forall a, compact_get c a = Ok (F a)) ->
  step_result (fold_res (fun st p =>
    match fst (fst st) !! fst p with Some rows => apply_entry (get_in c (snd p)) st (fst p) rows | None => Ok st end) (m0, orig, []) (hash_iter (frags c))).
Proof.
  intros HF. apply (visited_all fst); [apply hash_iter_nodup| |].
  - intros [f r] done [[m batch] moved] Hp Hd H. apply hash_iter_elem in Hp. cbn [fst snd] in *.
    pose proof (hw_map _ _ _ _ _ _ _ H f Hd) as Hm. cbn [fst snd] in Hm. rewrite Hm. destruct (m0 !! f) as [rows|] eqn:Em.
    + destruct (visit_frag orig m0 F Htr done m batch moved f (get_in c r) rows H Hd Em) as (m' & b' & mv' & E & H'); [|exists (m', b', mv'); by split].
      intros a <-. rewrite <- HF. unfold compact_get. fold (fragment_id a). by rewrite Hp.
    + eexists. split; [done|]. apply (visit_skip orig m0 F Htr done m batch moved f H Hd); [|done|done].
      intros p a Ho <-. by destruct (no_entry orig m0 Htr p a Ho).
  - intros p a Ho Hf. assert (E : Ok (F a) = Ok None); [|by injection E].
    rewrite <- HF. unfold compact_get. fold (fragment_id a). destruct (frags c !! fragment_id a) as [r|] eqn:E; [|done].
    destruct Hf. apply (list_elem_of_fmap_2 fst (hash_iter (frags c)) (fragment_id a, r)). by apply hash_iter_elem.
Qed.

Lemma remove_visit_few b : (forall a, F a = if bm_contains b (fragment_id a) then Some None else None) ->
  step_result (fold_res (fun '(rows_by_fragment, batch, moved) frag_id =>
    match (rows_by_fragment : RowsByFragment) !! frag_id with
    | Some rows => batch ← clear_rows batch rows; Ok (delete frag_id rows_by_fragment, batch, moved)
    | None => Ok (rows_by_fragment, batch, moved)
    end) (m0, orig, []) (bm_iter b)).
Proof.
  intros HF. apply (visited_all id); [rewrite map_id; apply ssorted_NoDup, bm_iter_sorted| |].
  - intros f done [[m batch] moved] Hp%bm_iter_elem Hd H. unfold id in *. cbn [fst snd] in *.
    pose proof (hw_map _ _ _ _ _ _ _ H f Hd) as Hm. cbn [fst snd] in Hm. rewrite Hm. destruct (m0 !! f) as [rows|] eqn:Em.
    + destruct (visit_cleared orig m0 F Htr done m batch moved f rows H Hd Em) as (b' & E & H'); [intros a <-; by rewrite HF, Hp|].
      rewrite E. mon. eexists. by split.
    + eexists. split; [done|]. apply (visit_skip orig m0 F Htr done m batch moved f H Hd); [|done|done].
      intros p a Ho <-. by destruct (no_entry orig m0 Htr p a Ho).
  - intros p a Ho Hf. rewrite map_id, bm_iter_elem in Hf. rewrite HF. by destruct (bm_contains b (fragment_id a)).
Qed.

Lemma remove_visit_many b : (forall a, F a = if bm_contains b (fragment_id a) then Some None else None) ->
  step_result (fold_res (fun '(rows_by_fragment, batch, moved) p =>
    if bm_contains b (fst p) then batch ← clear_rows batch (snd p); Ok (delete (fst p) (rows_by_fragment : RowsByFragment), batch, moved)
    else Ok (rows_by_fragment, batch, moved)) (m0, orig, []) (hash_iter m0)).
Proof.
  intros HF. apply (visited_all fst); [apply hash_iter_nodup| |].
  - intros [f rows] done [[m batch] moved] Hp Hd H. apply hash_iter_elem in Hp. cbn [fst snd] in *. destruct (bm_contains b f) eqn:Eb.
    + destruct (visit_cleared orig m0 F Htr done m batch moved f rows H Hd Hp) as (b' & E & H'); [intros a <-; by rewrite HF, Eb|].
      rewrite E. mon. eexists. by split.
    + eexists. split; [done|]. apply (visit_skip orig m0 F Htr done m batch moved f H Hd); [|done|done].
      intros p a Ho <-. by rewrite HF, Eb.
  - intros p a Ho Hf. destruct (no_entry orig m0 Htr p a Ho). destruct (m0 !! fragment_id a) as [rows|] eqn:E; [|done].
    destruct Hf. apply (list_elem_of_fmap_2 fst (hash_iter m0) (fragment_id a, rows)). by apply hash_iter_elem.
Qed.

Lemma batch_step_ok s : (forall a, step_get s a = Ok (F a)) -> step_result (batch_step s (m0, orig, [])).
Proof.
  intros HF. destruct s as [c|d|b|m]; cbn [batch_step].
  - destruct (_ <=? _); [by apply compact_visit|]. apply retain_rows_ok.
    + intros f g Hg a <-. rewrite <- HF. cbn [step_get]. unfold compact_get. fold (fragment_id a). destruct (frags c !! fragment_id a); [|done].
      by injection Hg as <-.
    + intros f Hg a <-. assert (E : Ok (F a) = Ok None); [|by injection E].
      rewrite <- HF. cbn [step_get]. unfold compact_get. fold (fragment_id a). by destruct (frags c !! fragment_id a).
  - apply retain_rows_ok; [|done]. intros f g [= <-] a _. apply HF.
  - assert (HF' : forall a, F a = if bm_contains b (fragment_id a) then Some None else None) by (intros a; specialize (HF a); by injection HF).
    destruct (_ <=? _); [by apply remove_visit_few|by apply remove_visit_many].
  - apply retain_rows_ok; [|done]. intros f g [= <-] a _. apply HF.
Qed.

End StepKinds.

(** ** The whole batch *)

(** A lookup that always returns, as a function. *)
Definition answers (get : Lookup) (F : Z -> option (option Z)) : Prop := forall a, get a = Ok (F a).

Lemma sound_answers get P : sound get P -> answers get (fun a => match get a with Ok o => o | _ => None end).
Proof. intros H a. destruct (H a) as (o & -> & _). done. Qed.

Lemma apply_row_ok get F row : answers get F -> apply_row get row = Ok (applied F row).
Proof. intros H. destruct row as [a|]; [|done]. cbn [apply_row]. rewrite H. done. Qed.

Lemma apply_rows_ok get F rows : answers get F -> map_res (apply_row get) rows = Ok (map (applied F) rows).
Proof. intros H. apply map_res_ok, Forall_forall. intros row _. by apply apply_row_ok. Qed.

(** The steps one after the other on every row. *)
Lemma in_order_rows gs Fs rows : Forall2 answers gs Fs ->
  map_res (apply_row (in_order gs)) rows = Ok (foldl (fun rows F => map (applied F) rows) rows Fs).
Proof.
  intros H. revert rows. induction H as [|g F gs Fs Hg H IH]; intros rows.
  { cbn [foldl]. rewrite (map_res_ok _ (fun r => r)), map_id; [done|]. apply Forall_forall. intros [a|] _; done. }
  cbn [foldl]. rewrite <- IH. clear IH. induction rows as [|row rows IHr]; [done|]. cbn [map_res map]. rewrite IHr.
  assert (E : apply_row (in_order (g :: gs)) row = apply_row (in_order gs) (applied F row)); [|by rewrite E].
  destruct row as [a|]; [|done]. cbn [apply_row in_order applied]. rewrite Hg. mon.
  destruct (F a) as [[b|]|]; [|done|]; cbn [apply_row]; mon; [by destruct (in_order gs b) as [[[c|]|]| |]|done].
Qed.

Lemma steps_rows_ok l Fs rows : Forall2 (fun s F => answers (step_get s) F) l Fs ->
  fold_res (fun rows step => map_res (apply_row (step_get step)) rows) rows l = Ok (foldl (fun rows F => map (applied F) rows) rows Fs).
Proof.
  intros H. revert rows. induction H as [|s F l Fs Hs _ IH]; intros rows; [done|]. cbn [fold_res foldl].
  rewrite (apply_rows_ok _ F) by done. mon. apply IH.
Qed.

Lemma batch_steps_ok l Fs batch : Forall2 (fun s F => answers (step_get s) F) l Fs ->
  batch_steps l batch = Ok (foldl (fun rows F => map (applied F) rows) batch Fs).
Proof.
  intros H. unfold batch_steps. destruct (add_rows_all batch) as (m & -> & Htr). mon.
  enough (Hf : exists m', fold_res (fun '(rows_by_fragment, batch) s =>
    st ← batch_step s (rows_by_fragment, batch, []);
    let '(rows_by_fragment, batch, moved) := st in
    rows_by_fragment ← add_rows rows_by_fragment batch moved;
    Ok (rows_by_fragment, batch)) (m, batch) l = Ok (m', foldl (fun rows F => map (applied F) rows) batch Fs)).
  { destruct Hf as [m' ->]. done. }
  revert m batch Htr. induction H as [|s F l Fs Hs _ IH]; intros m batch Htr; [by exists m|]. cbn [fold_res foldl].
  destruct (batch_step_ok batch m F Htr s Hs) as ([[m1 b1] mv] & -> & Hh). mon. cbn [fst snd] in Hh.
  destruct (halfway_finish batch m F Htr m1 b1 mv Hh) as (-> & m2 & -> & Htr2). mon. by apply IH.
Qed.

Lemma chunks_fuel_concat {A} fuel n (l : list A) : 1 <= n -> (length l <= fuel)%nat -> concat (chunks_fuel fuel n l) = l.
Proof.
  intros Hn. revert l. induction fuel as [|fuel IH]; intros l Hl; [by destruct l; [|cbn in Hl; lia]|]. cbn [chunks_fuel].
  destruct l as [|x l]; [done|]. cbn [concat]. rewrite IH; [apply take_drop|]. unfold zskip. rewrite length_drop. cbn [length] in *. lia.
Qed.

Lemma map_concat_rows (Fs : list (Z -> option (option Z))) ls :
  concat (map (fun rows => foldl (fun rows F => map (applied F) rows) rows Fs) ls) = foldl (fun rows F => map (applied F) rows) (concat ls) Fs.
Proof.
  revert ls. induction Fs as [|F Fs IH]; intros ls; cbn [foldl]; [by rewrite map_id|]. rewrite concat_map, <- IH, map_map. done.
Qed.

Lemma steps_answers l : Forall step_sound l -> exists Fs, Forall2 (fun s F => answers (step_get s) F) l Fs.
Proof.
  induction 1 as [|s l Hs _ [Fs IH]]; [by exists []|]. eexists (_ :: Fs). constructor; [|exact IH]. eapply sound_answers, Hs.
Qed.

(** C20: remapping a vector in place gives every row the answer of its own
    lookup: a deleted row stays deleted, a row the remap does not know keeps
    its address.  The batched walk over an indexed chain, which lets a step
    visit only the fragments it names and files the moved rows under their new
    fragments, gives the same rows, in whatever order the hash maps are
    iterated. *)
Theorem remap_in_place_each m rows : remap_wf m ->
  exists out, remap_in_place m rows = Ok out /\ map_res (apply_row (remap_get m)) rows = Ok out.
Proof.
  intros Hm. destruct m as [c|d].
  - destruct (proj2 (proj2 remaps_sound) c Hm) as [_ Hs]. destruct (steps_answers _ Hs) as [Fs HF].
    exists (foldl (fun rows F => map (applied F) rows) rows Fs). split.
    + cbn [remap_in_place]. unfold chain_remap_in_place. destruct (fragment_steps c); [|by apply steps_rows_ok].
      unfold remap_in_place_by_fragment. rewrite (map_res_ok _ (fun batch => foldl (fun rows F => map (applied F) rows) batch Fs)).
      * mon. rewrite map_concat_rows. unfold chunks. by rewrite chunks_fuel_concat.
      * apply Forall_forall. intros batch _. by apply batch_steps_ok.
    + rewrite <- (in_order_rows (map step_get (steps c)) Fs).
      * induction rows as [|row rows IH]; [done|]. cbn [map_res]. rewrite IH.
        replace (apply_row (remap_get (ACompact c)) row) with (apply_row (in_order (map step_get (steps c))) row); [done|].
        destruct row as [a|]; [|done]. cbn [apply_row]. by rewrite remap_get_flat.
      * clear -HF. induction HF; constructor; done.
  - exists (map (applied (fun a => d !! a)) rows). split; by apply apply_rows_ok.
Qed.

End BatchFacts.

(** ** Examples *)

Module RemapBatchExamples.
Import RemapExamples RemapChainExamples.

#[local] Existing Instance CofiniteRoaring.
#[local] Existing Instance CofiniteRoaring_laws.
#[local] Existing Instance CofiniteRanks.
#[local] Existing Instance CofiniteRanks_laws.
#[local] Existing Instance ListTreemap.
#[local] Existing Instance ListTreemap_laws.
#[local] Existing Instance ListOrder.
#[local] Existing Instance ListOrder_laws.

Definition batch : list (option Z) := [Some (new_from_parts 0 0); None; Some (new_from_parts 5 1); Some (new_from_parts 39 0); Some (new_from_parts 7 0)].

Lemma hops_batch : remap_in_place (chained hops) batch =
  Ok [Some (new_from_parts 40 0); None; Some (new_from_parts 5 1); Some (new_from_parts 40 0); Some (new_from_parts 40 0)].
Proof. vm_compute. reflexivity. Qed.

Lemma remap_in_place_each_witness :
  exists out, remap_in_place (chained hops) batch = Ok out /\ map_res (apply_row (remap_get (chained hops))) batch = Ok out.
Proof. exact (remap_in_place_each (chained hops) batch (chained_wf hops hops_wf)). Defined.

End RemapBatchExamples.
