(* ===== verification/FragmentReuse.v ===== *)
(** * Readers of fragment rewrites

    [lance-core/src/utils/fragment_reuse.rs]: the read contract of one fragment
    rewrite ([MappingReader]) and the reader over a compaction remap
    ([OrderedCompactionMapping]). *)

From Stdlib Require Import ZArith Lia.
From stdpp Require Import base option list numbers sorting sets gmap.
From S2P Require Import Prelude Lists Bits RowAddress Itertools Roaring RankedOffsets Remap RemapChain.

(** ** Model *)

(** [trait MappingReader]: [None] is a deleted row. *)
Class MappingReader (R : Type) := {
  remap_row_id : R -> Z -> res (option Z);
  remap_row_ids : R -> list Z -> res (list (option Z))
}.

(** The trait's own [remap_row_ids]: one row after the other, up to the first
    error. *)
Definition default_remap_row_ids {R} (remap_row_id : R -> Z -> res (option Z)) (r : R) (row_ids : list Z) : res (list (option Z)) :=
  fold_res (fun mapped row_id => m ← remap_row_id r row_id; Ok (mapped ++ [m])) [] row_ids.

Record OrderedCompactionMapping {RB : Roaring} := mkOrderedCompactionMapping { remap : RowAddrRemap }.
Arguments mkOrderedCompactionMapping {RB}.

Section ReaderModel.
Context {RB : Roaring} {RR : RoaringRanks RB} {TP : TreemapParts RB} {HO : HashOrder}.

Definition map_row_id (r : OrderedCompactionMapping) (row_id : Z) : res (option Z) :=
  o ← remap_get (remap r) row_id; ok_or o InvalidInput.

(** [collect] into a [Result] stops at the first error. *)
Definition map_row_ids (r : OrderedCompactionMapping) (row_ids : list Z) : res (list (option Z)) := map_res (map_row_id r) row_ids.

#[export] Instance OrderedCompactionMapping_reader : MappingReader OrderedCompactionMapping := {|
  remap_row_id := map_row_id;
  remap_row_ids := map_row_ids
|}.

End ReaderModel.

(** ** The contract *)

Lemma default_is_map {R} (f : R -> Z -> res (option Z)) r ids : default_remap_row_ids f r ids = map_res (f r) ids.
Proof.
  unfold default_remap_row_ids. enough (H : forall acc, fold_res (fun mapped row_id => m ← f r row_id; Ok (mapped ++ [m])) acc ids =
    (l ← map_res (f r) ids; Ok (acc ++ l))) by (rewrite H; by destruct (map_res (f r) ids)).
  induction ids as [|id ids IH]; intros acc; cbn [fold_res map_res]; mon; [by rewrite app_nil_r|].
  destruct (f r id) as [m| |]; mon; [|done..]. rewrite IH. destruct (map_res (f r) ids); mon; [by rewrite <- app_assoc|done..].
Qed.

Section ReaderFacts.
Context {RB : Roaring} {RL : RoaringLaws RB} {RR : RoaringRanks RB} {RRL : RoaringRanksLaws RR}
  {TP : TreemapParts RB} {TPL : TreemapPartsLaws TP} {HO : HashOrder} {HOL : HashOrderLaws HO}.

Lemma single_step_get c a : remap_get (ACompact (from_steps [SCompact c])) a = compact_get c a.
Proof.
  change (get_by_step [compact_get c] a false = compact_get c a). cbn [get_by_step]. by destruct (compact_get c a) as [[[b|]|]| |].
Qed.

(** C31: the reader of a compaction answers every address: the [k]-th rewritten
    row of a group has the address of the group's [k]-th new row, any other row
    of an old fragment is deleted, and an address outside the old fragments or
    past their rows is an invalid-input error.  The reader's batch is the
    trait's row-by-row batch: one answer per row in the order of the rows, or
    the first error. *)
Theorem ordered_compaction_reader inputs m : Forall group_typed (map spec_of_layout inputs) -> remap_compact_with_layout inputs = Ok m ->
  let r := mkOrderedCompactionMapping m in
  (forall ids, remap_row_ids r ids = default_remap_row_ids remap_row_id r ids) /\
  (forall i, i ∈ inputs ->
     let g := spec_of_layout i in
     (forall k a, get_opt (old_rows (gs_addrs g) (gs_old g)) k = Some a ->
        exists b, get_opt (new_rows (gs_new g)) k = Some b /\ remap_row_id r a = Ok (Some b)) /\
     (forall f n off, (f, n) ∈ gl_old_frags i -> u32_ok off ->
        (n <= off -> remap_row_id r (new_from_parts f off) = Err InvalidInput) /\
        (off < n -> new_from_parts f off ∉ old_rows (gs_addrs g) (gs_old g) -> remap_row_id r (new_from_parts f off) = Ok None))) /\
  (forall a, fragment_id a ∉ group_ids (map spec_of_layout inputs) -> remap_row_id r a = Err InvalidInput).
Proof.
  intros Ht E r. unfold remap_compact_with_layout, chain_new_with_layout in E.
  apply bind_Ok in E as (c & E & [= <-]). apply bind_Ok in E as (st & E & [= <-]).
  assert (Hb : built (map spec_of_layout inputs) (Ok st)) by (rewrite <- E; constructor).
  assert (Hr : forall a, remap_row_id r a = (o ← compact_get st a; ok_or o InvalidInput)) by
    (intros a; change (remap_row_id r a) with (o ← remap_get (ACompact (from_steps [SCompact st])) a; ok_or o InvalidInput); by rewrite single_step_get).
  destruct (built_moves _ st Ht Hb) as [Hg Hout]. split; [intros ids; symmetry; apply default_is_map|]. split.
  - intros i Hi g. destruct (Hg g) as (_ & Hk & Hrest); [by apply (list_elem_of_fmap_2 spec_of_layout)|]. split.
    + intros k a Ha. destruct (Hk k a Ha) as (b & Hb' & Hc). exists b. split; [done|]. by rewrite Hr, Hc.
    + intros f n off Hf Hu. assert (Hf' : (f, Some n) ∈ gs_old g) by (apply list_elem_of_fmap; by exists (f, n)).
      destruct (Hrest f (Some n) off Hf' Hu) as [Hpast Hin]. rewrite Hr. split; [intros Hn; by rewrite Hpast|].
      intros Hn Hno. rewrite Hin; [done|done|]. destruct (bm_contains (bitmap_of (gs_addrs g) f) off) eqn:Ec; [|done].
      destruct Hno. apply list_elem_of_In, in_flat_map. exists (f, Some n). split; [by apply list_elem_of_In|].
      apply list_elem_of_In. apply (list_elem_of_fmap_2 (new_from_parts f)). by apply bm_iter_elem.
  - intros a Ha. by rewrite Hr, (Hout a Ha).
Qed.

End ReaderFacts.

(** ** Examples *)

Module FragmentReuseExamples.
Import RemapExamples RemapChainExamples.

#[local] Existing Instance CofiniteRoaring.
#[local] Existing Instance CofiniteRoaring_laws.
#[local] Existing Instance CofiniteRanks.
#[local] Existing Instance CofiniteRanks_laws.
#[local] Existing Instance ListTreemap.
#[local] Existing Instance ListTreemap_laws.
#[local] Existing Instance ListOrder.
#[local] Existing Instance ListOrder_laws.

Lemma ordered_compaction_reader_witness : exists m, remap_compact_with_layout compaction = Ok m /\
  remap_row_id (mkOrderedCompactionMapping m) (new_from_parts 2 3) = Err InvalidInput /\
  remap_row_id (mkOrderedCompactionMapping m) (new_from_parts 7 1) = Ok None.
Proof.
  destruct (remap_compact_with_layout compaction) as [m| |] eqn:E;
    [|exfalso; assert (H : match remap_compact_with_layout compaction with Ok _ => true | _ => false end = true) by (vm_compute; reflexivity);
      rewrite E in H; discriminate..].
  exists m. split; [exact eq_refl|].
  destruct (ordered_compaction_reader compaction m compaction_typed E) as (_ & Hg & _). split.
  - destruct (Hg _ (list_elem_of_here _ _)) as [_ H]. apply (H 2 3 3); [apply list_elem_of_further, list_elem_of_here|uok; lia|lia].
  - destruct (Hg _ (list_elem_of_further _ _ _ (list_elem_of_here _ _))) as [_ H].
    apply (H 7 2 1); [apply list_elem_of_here|uok; lia|lia|]. apply (bool_decide_unpack (_ ∉ _)). vm_compute. exact I.
Defined.

End FragmentReuseExamples.
