(* ===== verification/StablePartition.v ===== *)
(** * Stable partitions

    [lance-core/src/utils/stable_partition.rs]: the row mapping of a rewrite that
    distributes rows over several destinations and keeps their order in each.
    Every source row has the index of its destination as a label; its offset
    there is the number of earlier rows with the same label.  A matrix of
    cumulative counts per block of rows makes that number cheap to find. *)

From Stdlib Require Import ZArith Lia.
From stdpp Require Import base option list numbers sorting sets gmap.
From S2P Require Import Prelude Lists Bits Bitmap SegmentBuild Sequence Serde.

(** ** Model *)

Definition MAX_DESTINATIONS : Z := 65536.
Definition COUNTS_MAGIC : list Z := [76; 83; 80; 67].
Definition COUNTS_VERSION : Z := 1.
Definition COUNTS_HEADER_BYTES : Z := 28.
Definition REPR_DENSE : Z := 0.

Record CountsMatrix := mkCountsMatrix {
  num_destinations : Z;
  block_rows : Z;
  total_rows : Z;
  cumulative : list Z
}.

(** Integer division, which panics on zero. *)
Definition div_res (a b : Z) : res Z := if b =? 0 then Panic else Ok (a / b).

(** [iter().map(u64::from).sum()] *)
Definition sum_u64 (l : list Z) : Z := foldl (fun acc c => acc +w c) 0 l.

Definition num_blocks (c : CountsMatrix) : res Z := div_res (zlen (cumulative c)) (num_destinations c).

Definition block_of (c : CountsMatrix) (row : Z) : res Z := div_res row (block_rows c).

Definition block_range (c : CountsMatrix) (block : Z) : Range :=
  let start := wrap64 (block * block_rows c) in
  let end_ := Z.min (start +w block_rows c) (total_rows c) in
  start ..< end_.

Definition block_row (c : CountsMatrix) (block : Z) : res (list Z) :=
  let m := num_destinations c in
  idx_range (cumulative c) (wrap64 (block * m)) (wrap64 ((block +w 1) * m)).

Definition count_before (c : CountsMatrix) (block label : Z) : res Z :=
  if block =? 0 then Ok 0 else row ← block_row c (block - 1); idx row label.

Definition counters_at_block (c : CountsMatrix) (block : Z) : res (list Z) :=
  if block =? 0 then Ok (replicate (Z.to_nat (num_destinations c)) 0) else block_row c (block - 1).

Definition total (c : CountsMatrix) (label : Z) : res Z :=
  blocks ← num_blocks c;
  if blocks =? 0 then Ok 0 else row ← block_row c (blocks - 1); idx row label.

Definition total_live_rows (c : CountsMatrix) : res Z :=
  blocks ← num_blocks c;
  if blocks =? 0 then Ok 0 else row ← block_row c (blocks - 1); Ok (sum_u64 row).

Definition deleted_through (c : CountsMatrix) (block : Z) : res Z :=
  let rows_through := end_ (block_range c block) in
  row ← block_row c block;
  Ok (rows_through -w sum_u64 row).

(** The loop of [validate] over the blocks from [block] on. *)
Fixpoint validate_loop (c : CountsMatrix) (blocks : list Z) (prev_live : Z) : res unit :=
  match blocks with
  | [] => Ok tt
  | block :: blocks =>
      ok ← (if 0 <? block then
              prev ← block_row c (block - 1);
              cur ← block_row c block;
              Ok (negb (existsb (fun p => snd p <? fst p) (zip prev cur)))
            else Ok true);
      if negb ok then Err CorruptFile else
      row ← block_row c block;
      let live_through := sum_u64 row in
      let range := block_range c block in
      let block_len := end_ range -w start range in
      if block_len <? live_through -w prev_live then Err CorruptFile
      else validate_loop c blocks live_through
  end.

Definition validate (c : CountsMatrix) : res unit :=
  n ← num_blocks c; validate_loop c (range_list (0 ..< n)) 0.

(** *** The encoded form *)

Definition encode (c : CountsMatrix) : list Z :=
  COUNTS_MAGIC ++ to_le_bytes 4 COUNTS_VERSION ++ to_le_bytes 4 REPR_DENSE ++ to_le_bytes 4 (num_destinations c) ++
  to_le_bytes 4 (block_rows c) ++ to_le_bytes 8 (total_rows c) ++ flat_map (to_le_bytes 4) (cumulative c).

Definition check_shape (num_destinations block_rows : Z) : res unit :=
  if (num_destinations =? 0) || (MAX_DESTINATIONS <? num_destinations) then Err InvalidInput
  else if block_rows =? 0 then Err InvalidInput
  else Ok tt.

Definition decode (buf : list Z) : res CountsMatrix :=
  if zlen buf <? COUNTS_HEADER_BYTES then Err CorruptFile else
  let header := ztake COUNTS_HEADER_BYTES buf in
  if negb (bool_decide (zsub header 0 4 = COUNTS_MAGIC)) then Err CorruptFile else
  let version := from_le_bytes (zsub header 4 8) in
  if negb (version =? COUNTS_VERSION) then Err CorruptFile else
  let repr := from_le_bytes (zsub header 8 12) in
  if negb (repr =? REPR_DENSE) then Err CorruptFile else
  let num_destinations := from_le_bytes (zsub header 12 16) in
  let block_rows := from_le_bytes (zsub header 16 20) in
  let total_rows := from_le_bytes (zsub header 20 28) in
  _ ← check_shape num_destinations block_rows;
  let num_blocks := div_ceil total_rows block_rows in
  match checked_mul num_blocks num_destinations with
  | Some cells =>
      match checked_mul cells 4 with
      | Some bytes =>
          if bytes =? zlen buf - COUNTS_HEADER_BYTES then
            Ok (mkCountsMatrix num_destinations block_rows total_rows (map from_le_bytes (fst (as_chunks 4 (zskip COUNTS_HEADER_BYTES buf)))))
          else Err CorruptFile
      | None => Err CorruptFile
      end
  | None => Err CorruptFile
  end.

Definition check_label (c : CountsMatrix) (label : Z) : res unit :=
  if num_destinations c <=? label then Err InvalidInput else Ok tt.

(** *** Building the matrix *)

Record CountsMatrixBuilder := mkBuilder {
  b_num_destinations : Z;
  b_block_rows : Z;
  b_running : list Z;
  b_cumulative : list Z;
  b_total_rows : Z;
  b_rows_in_block : Z
}.

Definition builder_try_new (num_destinations block_rows : Z) : res CountsMatrixBuilder :=
  _ ← check_shape num_destinations block_rows;
  Ok (mkBuilder num_destinations block_rows (replicate (Z.to_nat num_destinations) 0) [] 0 0).

Definition push (b : CountsMatrixBuilder) (label : option Z) : res CountsMatrixBuilder :=
  running ← match label with
    | Some label =>
        if b_num_destinations b <=? label then Err InvalidInput else
        counter ← idx (b_running b) label;
        if counter + 1 <=? U32_MAX then idx_set (b_running b) label (counter + 1) else Err InvalidInput
    | None => Ok (b_running b)
    end;
  let total_rows := b_total_rows b +w 1 in
  let rows_in_block := b_rows_in_block b +d 1 in
  Ok (if rows_in_block =? b_block_rows b
      then mkBuilder (b_num_destinations b) (b_block_rows b) running (b_cumulative b ++ running) total_rows 0
      else mkBuilder (b_num_destinations b) (b_block_rows b) running (b_cumulative b) total_rows rows_in_block).

Definition finish (b : CountsMatrixBuilder) : CountsMatrix :=
  mkCountsMatrix (b_num_destinations b) (b_block_rows b) (b_total_rows b)
    (if 0 <? b_rows_in_block b then b_cumulative b ++ b_running b else b_cumulative b).

(** A builder fed one label after the other. *)
Definition build (num_destinations block_rows : Z) (labels : list (option Z)) : res CountsMatrix :=
  b ← builder_try_new num_destinations block_rows;
  b ← fold_res push b labels;
  Ok (finish b).

(** *** Translating rows *)

(** [arrow_buffer::NullBuffer] *)
Class NullBuffers := {
  null_buffer : Type;
  nb_len : null_buffer -> Z;
  nb_is_valid : null_buffer -> Z -> bool;
  nb_null_count : null_buffer -> Z
}.

Class NullBuffersLaws (NB : NullBuffers) : Prop := {
  nb_null_count_ok v : nb_null_count v = zlen (List.filter (fun i => negb (nb_is_valid v i)) (range_list (0 ..< nb_len v)))
}.

Section TranslateModel.
Context {NB : NullBuffers}.

Definition rank_label_prefix (values : list Z) (validity : option null_buffer) (upto label : Z) : res Z :=
  prefix ← idx_range values 0 upto;
  Ok (match validity with
      | Some validity =>
          if 0 <? nb_null_count validity
          then wrap32 (zlen (List.filter (fun p => (snd p =? label) && nb_is_valid validity (fst p)) (enumerate prefix)))
          else wrap32 (zlen (List.filter (fun value => value =? label) prefix))
      | None => wrap32 (zlen (List.filter (fun value => value =? label) prefix))
      end).

Definition translate_in_block (counts : CountsMatrix) (block : Z) (values : list Z) (validity : option null_buffer) (pos_in_block : Z) :
    res (option (Z * Z)) :=
  let range := block_range counts block in
  let block_len := end_ range -w start range in
  if negb (zlen values =? block_len) then Err InvalidInput else
  if block_len <=? pos_in_block then Err InvalidInput else
  if match validity with Some validity => negb (nb_is_valid validity pos_in_block) | None => false end then Ok None else
  label ← idx values pos_in_block;
  _ ← check_label counts label;
  before ← count_before counts block label;
  rank ← rank_label_prefix values validity pos_in_block label;
  Ok (Some (label, before +d rank)).

End TranslateModel.

(** [SweepTranslator { counters }] *)
Record SweepTranslator := mkSweep { counters : list Z }.

Definition sweep_new (counts : CountsMatrix) (start_block : Z) : res SweepTranslator :=
  blocks ← num_blocks counts;
  if Z.max blocks 1 <=? start_block then Err InvalidInput else
  counters ← counters_at_block counts start_block;
  Ok (mkSweep counters).

Definition advance (s : SweepTranslator) (label : option Z) : res (SweepTranslator * option (Z * Z)) :=
  match label with
  | None => Ok (s, None)
  | Some label =>
      match get_opt (counters s) label with
      | None => Err InvalidInput
      | Some offset =>
          counters ← idx_set (counters s) label (offset +d 1);
          Ok (mkSweep counters, Some (label, offset))
      end
  end.

(** The rows one after the other. *)
Fixpoint sweep (s : SweepTranslator) (labels : list (option Z)) : res (list (option (Z * Z))) :=
  match labels with
  | [] => Ok []
  | label :: labels => r ← advance s label; rest ← sweep (fst r) labels; Ok (snd r :: rest)
  end.

(** ** Counting labels *)

Definition label_is (d : Z) (label : option Z) : bool := match label with Some x => x =? d | None => false end.

(** The rows labelled [d]. *)
Definition count (d : Z) (labels : list (option Z)) : Z := zlen (List.filter (label_is d) labels).

Lemma count_app d l1 l2 : count d (l1 ++ l2) = count d l1 + count d l2.
Proof. unfold count. by rewrite List.filter_app, zlen_app. Qed.

Lemma count_single d label : count d [label] = if label_is d label then 1 else 0.
Proof. unfold count. cbn. by destruct (label_is d label). Qed.

Lemma count_nonneg d l : 0 <= count d l.
Proof. apply zlen_nonneg. Qed.

Lemma count_take d l n : count d (ztake n l) <= count d l.
Proof. rewrite <- (take_drop (Z.to_nat n) l) at 2. rewrite count_app. pose proof (count_nonneg d (drop (Z.to_nat n) l)). unfold ztake. lia. Qed.

Lemma count_le d l : count d l <= zlen l.
Proof. unfold count, zlen. pose proof (List.filter_length_le (label_is d) l). lia. Qed.

(** One row of the matrix. *)
Definition row_counts (m : Z) (labels : list (option Z)) : list Z := map (fun d => count d labels) (range_list (0 ..< m)).

Lemma zlen_row_counts m l : 0 <= m -> zlen (row_counts m l) = m.
Proof. intros Hm. unfold row_counts. rewrite zlen_map, zlen_range_list; cbn; lia. Qed.

Lemma get_row_counts m l d : 0 <= d < m -> get_opt (row_counts m l) d = Some (count d l).
Proof. intros Hd. unfold row_counts, range_list. cbn [start end_]. rewrite get_opt_map, get_opt_seqZ by lia. cbn. done. Qed.

Lemma row_counts_nil m : row_counts m [] = replicate (Z.to_nat m) 0.
Proof.
  apply list_eq. intros i. unfold row_counts. rewrite list_lookup_fmap. unfold range_list. cbn [start end_].
  destruct (decide (Z.of_nat i < m)) as [Hi|Hi].
  - rewrite (proj2 (lookup_seqZ 0 (m - 0) i (Z.of_nat i))) by lia. rewrite lookup_replicate_2 by lia. done.
  - rewrite lookup_seqZ_ge by lia. symmetry. apply lookup_replicate_None. lia.
Qed.

(** Counting one more label. *)
Lemma row_counts_snoc m l d : 0 <= d < m -> <[Z.to_nat d := count d l + 1]> (row_counts m l) = row_counts m (l ++ [Some d]).
Proof.
  intros Hd. apply list_eq. intros i. destruct (decide (i = Z.to_nat d)) as [->|Hne].
  - rewrite list_lookup_insert_eq by (pose proof (zlen_row_counts m l); unfold zlen in *; lia).
    symmetry. pose proof (get_row_counts m (l ++ [Some d]) d Hd) as H. unfold get_opt in H. rewrite (proj2 (Z.leb_le 0 d)) in H by lia.
    rewrite H, count_app, count_single. cbn. by rewrite Z.eqb_refl.
  - rewrite list_lookup_insert_ne by done. unfold row_counts. rewrite !list_lookup_fmap. unfold range_list. cbn [start end_].
    destruct (seqZ 0 (m - 0) !! i) as [x|] eqn:Ex; [|done]. cbn. f_equal. rewrite count_app, count_single. cbn.
    apply lookup_seqZ in Ex as [-> Hi]. destruct (Z.eqb_spec d (0 + Z.of_nat i)); [lia|lia].
Qed.

Lemma row_counts_deleted m l : row_counts m (l ++ [None]) = row_counts m l.
Proof. unfold row_counts. apply map_ext. intros d. rewrite count_app, count_single. cbn. lia. Qed.

(** ** The matrix of a list of labels *)

(** The rows up to the end of block [b]. *)
Definition through (B : Z) (labels : list (option Z)) (b : Z) : list (option Z) := ztake ((b + 1) * B) labels.

Definition cumulative_of (m B : Z) (labels : list (option Z)) : list Z :=
  flat_map (fun b => row_counts m (through B labels b)) (range_list (0 ..< div_ceil (zlen labels) B)).

Definition matrix_of (m B : Z) (labels : list (option Z)) : CountsMatrix := mkCountsMatrix m B (zlen labels) (cumulative_of m B labels).

(** Labels a builder accepts, and the matrix fits into memory. *)
Record partition_ok (m B : Z) (labels : list (option Z)) : Prop := {
  po_m : 1 <= m <= MAX_DESTINATIONS;
  po_B : 1 <= B <= U32_MAX;
  po_labels : Forall (fun l => forall d, l = Some d -> 0 <= d < m) labels;
  po_counts d : count d labels <= U32_MAX;
  po_rows : zlen labels <= ISIZE_MAX;
  po_memory : div_ceil (zlen labels) B * m <= ISIZE_MAX
}.

(** *** Building it *)

(** A builder after the labels [l]. *)
Definition builder_holds (m B : Z) (l : list (option Z)) (b : CountsMatrixBuilder) : Prop :=
  b = mkBuilder m B (row_counts m l) (flat_map (fun b => row_counts m (through B l b)) (range_list (0 ..< zlen l / B))) (zlen l) (zlen l mod B).

Lemma push_running m B l b label : 1 <= m -> builder_holds m B l b -> (forall d, label = Some d -> 0 <= d < m) ->
  (forall d, count d (l ++ [label]) <= U32_MAX) ->
  match label with
  | Some label =>
      if b_num_destinations b <=? label then Err InvalidInput else
      counter ← idx (b_running b) label;
      if counter + 1 <=? U32_MAX then idx_set (b_running b) label (counter + 1) else Err InvalidInput
  | None => Ok (b_running b)
  end = Ok (row_counts m (l ++ [label])).
Proof.
  intros Hm -> Hl Hc. cbn [b_num_destinations b_running]. destruct label as [d|]; [|by rewrite row_counts_deleted].
  specialize (Hl d eq_refl). destruct (Z.leb_spec m d); [lia|]. unfold idx. rewrite get_row_counts by lia. mon.
  specialize (Hc d). rewrite count_app, count_single in Hc. cbn in Hc. rewrite Z.eqb_refl in Hc.
  rewrite (proj2 (Z.leb_le _ _)) by lia. rewrite idx_set_ok by (rewrite zlen_row_counts; lia). by rewrite row_counts_snoc.
Qed.

Lemma through_snoc B l x b : 0 <= B -> 0 <= b -> (b + 1) * B <= zlen l -> through B (l ++ [x]) b = through B l b.
Proof. intros HB Hb H. unfold through. by apply ztake_app_l. Qed.

Lemma through_all B l b : zlen l <= (b + 1) * B -> through B l b = l.
Proof. intros H. unfold through. by apply ztake_ge. Qed.

Lemma push_holds m B l b label : 1 <= m -> 1 <= B <= U32_MAX -> builder_holds m B l b -> (forall d, label = Some d -> 0 <= d < m) ->
  (forall d, count d (l ++ [label]) <= U32_MAX) -> zlen l + 1 <= U64_MAX ->
  exists b', push b label = Ok b' /\ builder_holds m B (l ++ [label]) b'.
Proof.
  intros Hm HB Hb Hl Hc Hn. unfold push. rewrite (push_running m B l) by done. mon. rewrite Hb. cbn [b_total_rows b_rows_in_block b_block_rows b_num_destinations b_cumulative].
  pose proof (zlen_nonneg l). pose proof (Z.mod_pos_bound (zlen l) B ltac:(lia)). pose proof (Z.div_mod (zlen l) B ltac:(lia)).
  pose proof (Z.div_pos (zlen l) B ltac:(lia) ltac:(lia)). unwrap. eexists. split; [done|].
  unfold builder_holds. assert (Hsame : forall k, k <= zlen l / B -> flat_map (fun b => row_counts m (through B (l ++ [label]) b)) (range_list (0 ..< k)) =
    flat_map (fun b => row_counts m (through B l b)) (range_list (0 ..< k))).
  { intros k Hk. rewrite !List.flat_map_concat_map. f_equal. apply map_ext_in. intros i Hi%list_elem_of_In%elem_of_range_list. cbn in Hi. rewrite through_snoc; [done|lia|lia|nia]. }
  rewrite zlen_app. change (zlen [label]) with 1. destruct (Z.eqb_spec (zlen l mod B + 1) B) as [E|E].
  - assert (Ed : (zlen l + 1) / B = zlen l / B + 1) by (symmetry; apply (Z.div_unique_pos _ _ _ 0); nia).
    assert (Em : (zlen l + 1) mod B = 0) by (symmetry; apply (Z.mod_unique_pos _ _ (zlen l / B + 1)); nia).
    rewrite Ed, Em, range_list_snoc, flat_map_app, Hsame by lia. cbn [flat_map]. rewrite app_nil_r.
    rewrite through_all; [done|]. rewrite zlen_app. change (zlen [label]) with 1. nia.
  - assert (Ed : (zlen l + 1) / B = zlen l / B) by (symmetry; apply (Z.div_unique_pos _ _ _ (zlen l mod B + 1)); nia).
    assert (Em : (zlen l + 1) mod B = zlen l mod B + 1) by (symmetry; apply (Z.mod_unique_pos _ _ (zlen l / B)); nia).
    by rewrite Ed, Em, Hsame.
Qed.

Lemma div_ceil_mod n B : 1 <= B -> 0 <= n -> div_ceil n B = if 0 <? n mod B then n / B + 1 else n / B.
Proof.
  intros HB Hn. unfold div_ceil. pose proof (Z.div_mod n B ltac:(lia)). pose proof (Z.mod_pos_bound n B ltac:(lia)).
  destruct (Z.ltb_spec 0 (n mod B)); symmetry; [apply (Z.div_unique_pos _ _ _ (n mod B - 1)); nia|apply (Z.div_unique_pos _ _ _ (B - 1)); nia].
Qed.

Lemma finish_holds m B l b : 1 <= B -> builder_holds m B l b -> finish b = matrix_of m B l.
Proof.
  intros HB ->. unfold finish, matrix_of. cbn [b_num_destinations b_block_rows b_running b_cumulative b_total_rows b_rows_in_block]. f_equal.
  pose proof (zlen_nonneg l). unfold cumulative_of. rewrite div_ceil_mod by lia. pose proof (Z.div_mod (zlen l) B ltac:(lia)).
  pose proof (Z.mod_pos_bound (zlen l) B ltac:(lia)). pose proof (Z.div_pos (zlen l) B ltac:(lia) ltac:(lia)).
  destruct (0 <? zlen l mod B); [|done]. rewrite range_list_snoc, flat_map_app by lia. cbn [flat_map]. rewrite app_nil_r.
  rewrite through_all; [done|nia].
Qed.

Lemma count_prefix d l1 l2 : count d l1 <= count d (l1 ++ l2).
Proof. rewrite count_app. pose proof (count_nonneg d l2). lia. Qed.

Lemma fold_push_holds m B labels l b : 1 <= m -> 1 <= B <= U32_MAX -> builder_holds m B l b ->
  Forall (fun x => forall d, x = Some d -> 0 <= d < m) labels -> (forall d, count d (l ++ labels) <= U32_MAX) -> zlen (l ++ labels) <= U64_MAX ->
  exists b', fold_res push b labels = Ok b' /\ builder_holds m B (l ++ labels) b'.
Proof.
  intros Hm HB. revert l b. induction labels as [|x labels IH]; intros l b Hb Hl Hc Hn; [rewrite app_nil_r; by exists b|].
  inversion Hl as [|?? Hx Hl']; subst. assert (Ea : l ++ x :: labels = (l ++ [x]) ++ labels) by (by rewrite <- app_assoc).
  rewrite zlen_app, zlen_cons in Hn. pose proof (zlen_nonneg labels).
  destruct (push_holds m B l b x) as (b1 & E & Hb1); [done|done|done|done| |lia|].
  { intros d. specialize (Hc d). rewrite Ea in Hc. pose proof (count_prefix d (l ++ [x]) labels). lia. }
  cbn [fold_res]. rewrite E. mon. rewrite Ea in Hc |- *. apply IH; [done|done|done|]. rewrite !zlen_app. change (zlen [x]) with 1. lia.
Qed.

Lemma check_shape_ok m B : 1 <= m <= MAX_DESTINATIONS -> 1 <= B -> check_shape m B = Ok tt.
Proof.
  intros Hm HB. unfold check_shape. destruct (Z.eqb_spec m 0); [lia|]. destruct (Z.ltb_spec MAX_DESTINATIONS m); [lia|].
  cbn [orb]. destruct (Z.eqb_spec B 0); [lia|done].
Qed.

Lemma build_holds m B labels : partition_ok m B labels -> build m B labels = Ok (matrix_of m B labels).
Proof.
  intros H. destruct (po_m _ _ _ H), (po_B _ _ _ H). unfold build, builder_try_new. rewrite check_shape_ok by lia. mon.
  destruct (fold_push_holds m B labels [] (mkBuilder m B (replicate (Z.to_nat m) 0) [] 0 0)) as (b & -> & Hb);
    [lia|lia| |apply (po_labels _ _ _ H)|apply (po_counts _ _ _ H)|pose proof (po_rows _ _ _ H); cbn [app]; lia|].
  - unfold builder_holds. by rewrite row_counts_nil.
  - mon. by rewrite (finish_holds m B labels).
Qed.

(** *** Reading it *)

Lemma zlen_flat_rows m (f : Z -> list Z) a b : (forall i, a <= i < b -> zlen (f i) = m) -> a <= b ->
  zlen (flat_map f (range_list (a ..< b))) = (b - a) * m.
Proof.
  intros Hf Hab. remember (Z.to_nat (b - a)) as n eqn:En. revert a Hf Hab En. induction n as [|n IH]; intros a Hf Hab En.
  - rewrite range_list_nil by lia. replace (b - a) with 0 by lia. done.
  - rewrite range_list_cons by lia. cbn [flat_map]. rewrite zlen_app, Hf, IH by first [lia|intros; apply Hf; lia]. lia.
Qed.

Lemma flat_rows_sub m (f : Z -> list Z) n b : (forall i, 0 <= i < n -> zlen (f i) = m) -> 0 <= m -> 0 <= b < n ->
  zsub (flat_map f (range_list (0 ..< n))) (b * m) ((b + 1) * m) = f b.
Proof.
  intros Hf Hm Hb. rewrite (range_list_app 0 b n), (range_list_cons b n), flat_map_app by lia. cbn [flat_map].
  pose proof (zlen_flat_rows m f 0 b ltac:(intros; apply Hf; lia) ltac:(lia)) as L. rewrite Z.sub_0_r in L.
  unfold zsub. rewrite zskip_split by lia. rewrite L, Z.sub_diag. change (zskip 0 ?l) with l.
  rewrite ztake_app_l by (rewrite Hf; lia). apply ztake_ge. rewrite Hf by lia. lia.
Qed.

Section Reading.
Context (m B : Z) (labels : list (option Z)) (H : partition_ok m B labels).

Definition n_blocks : Z := div_ceil (zlen labels) B.

Lemma n_blocks_spec : 0 <= n_blocks /\ zlen labels <= n_blocks * B < zlen labels + B.
Proof.
  destruct (po_B _ _ _ H). pose proof (zlen_nonneg labels). unfold n_blocks, div_ceil.
  pose proof (Z.div_mod (zlen labels + B - 1) B ltac:(lia)). pose proof (Z.mod_pos_bound (zlen labels + B - 1) B ltac:(lia)).
  pose proof (Z.div_pos (zlen labels + B - 1) B ltac:(lia) ltac:(lia)). nia.
Qed.

Lemma zlen_cumulative : zlen (cumulative_of m B labels) = n_blocks * m.
Proof.
  destruct (po_m _ _ _ H). pose proof n_blocks_spec. unfold cumulative_of. fold n_blocks.
  rewrite (zlen_flat_rows m), Z.sub_0_r by (first [lia|intros; apply zlen_row_counts; lia]). done.
Qed.

Lemma num_blocks_ok : num_blocks (matrix_of m B labels) = Ok n_blocks.
Proof.
  destruct (po_m _ _ _ H). unfold num_blocks, div_res. cbn [cumulative num_destinations matrix_of]. rewrite zlen_cumulative.
  destruct (Z.eqb_spec m 0); [lia|]. f_equal. apply Z.div_mul. lia.
Qed.

Lemma block_row_ok b : 0 <= b < n_blocks -> block_row (matrix_of m B labels) b = Ok (row_counts m (through B labels b)).
Proof.
  intros Hb. destruct (po_m _ _ _ H). unfold block_row. cbn [num_destinations cumulative matrix_of]. pose proof zlen_cumulative as L.
  pose proof (po_memory _ _ _ H) as Hmem. fold n_blocks in Hmem.
  rewrite (wrap64_small (b * m)), (wrap64_small (b + 1)), (wrap64_small ((b + 1) * m)) by (uok; nia).
  rewrite idx_range_zsub by nia. f_equal. unfold cumulative_of. fold n_blocks.
  apply (flat_rows_sub m (fun b => row_counts m (through B labels b))); [|lia|done]. intros i _. apply zlen_row_counts. lia.
Qed.

Lemma block_range_ok b : 0 <= b < n_blocks -> block_range (matrix_of m B labels) b = b * B ..< Z.min ((b + 1) * B) (zlen labels).
Proof.
  intros Hb. destruct (po_B _ _ _ H). pose proof n_blocks_spec. pose proof (po_rows _ _ _ H). unfold block_range. cbn [block_rows total_rows matrix_of].
  rewrite (wrap64_small (b * B)), (wrap64_small (b * B + B)) by (uok; nia). f_equal. f_equal. lia.
Qed.

Lemma through_pred b : 0 < b -> through B labels (b - 1) = ztake (b * B) labels.
Proof. intros Hb. unfold through. do 2 f_equal. lia. Qed.

Lemma counters_ok b : 0 <= b < Z.max n_blocks 1 -> counters_at_block (matrix_of m B labels) b = Ok (row_counts m (ztake (b * B) labels)).
Proof.
  intros Hb. unfold counters_at_block. destruct (Z.eqb_spec b 0) as [->|]; [by rewrite row_counts_nil|].
  rewrite block_row_ok by lia. by rewrite through_pred by lia.
Qed.

Lemma count_before_ok b d : 0 <= b < n_blocks -> 0 <= d < m -> count_before (matrix_of m B labels) b d = Ok (count d (ztake (b * B) labels)).
Proof.
  intros Hb Hd. unfold count_before. destruct (Z.eqb_spec b 0) as [->|]; [done|].
  rewrite block_row_ok by lia. mon. unfold idx. rewrite get_row_counts, through_pred by lia. done.
Qed.

Lemma through_last : 0 < n_blocks -> through B labels (n_blocks - 1) = labels.
Proof. intros Hb. apply through_all. pose proof n_blocks_spec. lia. Qed.

Lemma no_blocks : n_blocks = 0 -> labels = [].
Proof. intros E. pose proof n_blocks_spec as [_ Hn]. destruct labels; [done|]. rewrite zlen_cons in Hn. pose proof (zlen_nonneg l). lia. Qed.

Lemma total_ok d : 0 <= d < m -> total (matrix_of m B labels) d = Ok (count d labels).
Proof.
  intros Hd. unfold total. rewrite num_blocks_ok. mon. pose proof n_blocks_spec. destruct (Z.eqb_spec n_blocks 0) as [E|E].
  - by rewrite (no_blocks E).
  - rewrite block_row_ok by lia. mon. unfold idx. by rewrite get_row_counts, through_last by lia.
Qed.

End Reading.

(** The live rows of a prefix, over all destinations. *)
Definition live (labels : list (option Z)) : Z := zlen (List.filter (fun l => match l with Some _ => true | None => false end) labels).

Lemma sum_row_counts m l : 0 <= m -> Forall (fun x => forall d, x = Some d -> 0 <= d < m) l -> zsum (row_counts m l) = live l.
Proof.
  intros Hm. induction l as [|x l IH] using rev_ind; intros Hl.
  - rewrite row_counts_nil. clear. induction (Z.to_nat m); [done|]. cbn [replicate zsum foldr]. done.
  - apply Forall_app in Hl as [Hl Hx]. rewrite Forall_singleton in Hx. unfold live. rewrite List.filter_app, zlen_app. fold (live l).
    destruct x as [d|]; [|rewrite row_counts_deleted, IH by done; apply eq_sym, Z.add_0_r]. specialize (Hx d eq_refl). rewrite <- row_counts_snoc by done.
    pose proof (get_row_counts m l d Hx) as G. unfold get_opt in G. rewrite (proj2 (Z.leb_le 0 d)) in G by lia.
    rewrite <- (IH Hl). change (zlen (List.filter _ [Some d])) with 1.
    rewrite <- (take_drop_middle (row_counts m l) (Z.to_nat d) (count d l) G) at 2.
    rewrite insert_take_drop by (apply lookup_lt_Some in G; done). rewrite !zsum_app. cbn [zsum foldr]. unfold zsum. lia.
Qed.

Lemma sum_u64_small l : Forall (fun x => 0 <= x) l -> zsum l <= U64_MAX -> sum_u64 l = zsum l.
Proof.
  intros Hp. unfold sum_u64. enough (G : forall acc, 0 <= acc -> acc + zsum l <= U64_MAX -> foldl (fun acc c => acc +w c) acc l = acc + zsum l) by (intros; rewrite G; lia).
  induction Hp as [|x l Hx Hp IH]; intros acc Ha Hs; [cbn; lia|]. cbn [foldl zsum foldr] in *. fold (zsum l) in *.
  assert (0 <= zsum l) by (clear -Hp; induction Hp; cbn; [done|unfold zsum in *; lia]). unwrap. rewrite IH by lia. lia.
Qed.

Lemma row_counts_nonneg m l : Forall (fun x => 0 <= x) (row_counts m l).
Proof. apply Forall_map, Forall_forall. intros d _. apply count_nonneg. Qed.

Lemma live_le l : live l <= zlen l.
Proof. unfold live, zlen. pose proof (List.filter_length_le (fun l : option Z => match l with Some _ => true | None => false end) l). lia. Qed.

Lemma sum_row m l : 0 <= m -> Forall (fun x => forall d, x = Some d -> 0 <= d < m) l -> zlen l <= U64_MAX -> sum_u64 (row_counts m l) = live l.
Proof. intros Hm Hl Hn. pose proof (live_le l). rewrite sum_u64_small; rewrite ?sum_row_counts; auto using row_counts_nonneg. lia. Qed.

(** ** Translating rows *)

(** The destination and offset of a row: the number of earlier rows with its
    label. *)
Definition destination (labels : list (option Z)) (row : Z) : option (option (Z * Z)) :=
  match get_opt labels row with
  | None => None
  | Some None => Some None
  | Some (Some d) => Some (Some (d, count d (ztake row labels)))
  end.

Section Translate.
Context {NB : NullBuffers} {NBL : NullBuffersLaws NB}.

Definition is_valid (validity : option null_buffer) (i : Z) : bool := match validity with Some v => nb_is_valid v i | None => true end.

(** The labels a decoded block stands for. *)
Definition labels_of (values : list Z) (validity : option null_buffer) : list (option Z) :=
  map (fun p => if is_valid validity (fst p) then Some (snd p) else None) (enumerate values).

Lemma zlen_labels_of values validity : zlen (labels_of values validity) = zlen values.
Proof. unfold labels_of. rewrite zlen_map. unfold enumerate, zlen. rewrite length_zip_with, length_seqZ. lia. Qed.

Lemma enumerate_ztake {A} (l : list A) n : ztake n (enumerate l) = enumerate (ztake n l).
Proof.
  rewrite <- (take_drop (Z.to_nat n) l) at 1. rewrite enumerate_app. unfold ztake.
  assert (L : length (enumerate (take (Z.to_nat n) l)) = length (take (Z.to_nat n) l)) by (unfold enumerate, zlen; rewrite length_zip_with, length_seqZ; lia).
  destruct (decide (Z.to_nat n <= length l)%nat) as [Hle|Hgt].
  - rewrite take_app_le by (rewrite L, length_take; lia). apply take_ge. rewrite L, length_take. lia.
  - rewrite drop_ge by lia. unfold enumerate at 2. cbn. rewrite app_nil_r. apply take_ge. rewrite L, length_take. lia.
Qed.

Lemma get_labels_of values validity i v : get_opt values i = Some v ->
  get_opt (labels_of values validity) i = Some (if is_valid validity i then Some v else None).
Proof.
  intros Hv. unfold labels_of. rewrite get_opt_map.
  assert (E : get_opt (enumerate values) i = Some (i, v)); [|by rewrite E].
  pose proof (get_opt_Some _ _ _ Hv). unfold get_opt in *. rewrite (proj2 (Z.leb_le 0 i)) in * by lia.
  apply lookup_zip_Some. split; [apply lookup_seqZ; unfold zlen in *; lia|done].
Qed.

Lemma rank_label_prefix_ok values validity upto label : 0 <= upto <= zlen values -> zlen values <= U32_MAX ->
  (forall v, validity = Some v -> nb_len v = zlen values) ->
  rank_label_prefix values validity upto label = Ok (count label (ztake upto (labels_of values validity))).
Proof.
  intros Hu Hn Hv. unfold rank_label_prefix. rewrite idx_range_zsub by lia. mon. f_equal.
  replace (zsub values 0 upto) with (ztake upto values) by (unfold zsub; rewrite Z.sub_0_r; done).
  assert (L : zlen (ztake upto values) <= U32_MAX) by (unfold ztake, zlen in *; rewrite length_take; lia).
  assert (Hcount : count label (ztake upto (labels_of values validity)) =
    zlen (List.filter (fun p => (snd p =? label) && is_valid validity (fst p)) (enumerate (ztake upto values)))).
  { rewrite <- enumerate_ztake. unfold count, labels_of, ztake. rewrite firstn_map, filter_map_comm, zlen_map. f_equal.
    apply List.filter_ext. intros [i v]. cbn. destruct (is_valid validity i); cbn; [by rewrite andb_true_r|by rewrite andb_false_r]. }
  assert (Hsmall : forall f : Z * Z -> bool, wrap32 (zlen (List.filter f (enumerate (ztake upto values)))) = zlen (List.filter f (enumerate (ztake upto values)))).
  { intros f. apply wrap32_small. split; [apply zlen_nonneg|]. pose proof (List.filter_length_le f (enumerate (ztake upto values))).
    assert (length (enumerate (ztake upto values)) = length (ztake upto values)) by (rewrite <- (map_snd_enumerate (ztake upto values)) at 2; by rewrite length_map).
    unfold zlen in *. lia. }
  assert (Hall : (forall i, 0 <= i < zlen values -> is_valid validity i = true) ->
    wrap32 (zlen (List.filter (fun value => value =? label) (ztake upto values))) = count label (ztake upto (labels_of values validity))).
  { intros Hal. rewrite Hcount. rewrite <- (map_snd_enumerate (ztake upto values)) at 1. rewrite filter_map_comm, zlen_map.
    rewrite (filter_ext_in _ (fun p => (snd p =? label) && is_valid validity (fst p))); [by apply Hsmall|].
    intros p Hp. apply list_elem_of_In in Hp. apply (proj1 (Forall_forall _ _) (enumerate_bounds _)) in Hp.
    rewrite Hal, andb_true_r; [done|]. unfold ztake, zlen in *. rewrite length_take in Hp. lia. }
  destruct validity as [v|]; [|by apply Hall]. destruct (Z.ltb_spec 0 (nb_null_count v)) as [Hpos|Hz].
  - rewrite Hcount. apply Hsmall.
  - apply Hall. intros i Hi. cbn [is_valid]. rewrite nb_null_count_ok in Hz. destruct (nb_is_valid v i) eqn:E; [done|].
    assert (Hin : i ∈ List.filter (fun i => negb (nb_is_valid v i)) (range_list (0 ..< nb_len v))).
    { apply elem_of_filterb. split; [apply elem_of_range_list; cbn; rewrite (Hv v eq_refl); lia|by rewrite E]. }
    apply elem_of_get_opt in Hin as [k Hk%get_opt_Some]. lia.
Qed.

Section Rows.
Context (m B : Z) (labels : list (option Z)) (H : partition_ok m B labels).

(** A decoded block holds the labels of its rows. *)
Definition block_holds (b : Z) (values : list Z) (validity : option null_buffer) : Prop :=
  labels_of values validity = zsub labels (b * B) (Z.min ((b + 1) * B) (zlen labels)) /\
  forall v, validity = Some v -> nb_len v = zlen values.

Lemma count_prefix_split d b pos : 0 <= b -> 0 <= pos -> b * B + pos <= zlen labels -> pos <= B ->
  count d (ztake (b * B) labels) + count d (ztake pos (zsub labels (b * B) (Z.min ((b + 1) * B) (zlen labels)))) = count d (ztake (b * B + pos) labels).
Proof.
  intros Hb Hp Hle HpB. destruct (po_B _ _ _ H). rewrite <- count_app. f_equal. unfold zsub, ztake, zskip. rewrite take_take.
  replace (Z.to_nat pos `min` Z.to_nat (Z.min ((b + 1) * B) (zlen labels) - b * B))%nat with (Z.to_nat pos) by nia.
  rewrite Z2Nat.inj_add by nia. symmetry. rewrite <- (take_drop (Z.to_nat (b * B)) labels) at 1.
  rewrite take_app_add' by (rewrite length_take; unfold zlen in *; nia). done.
Qed.

Lemma translate_ok b values validity pos : 0 <= b < n_blocks B labels -> block_holds b values validity -> 0 <= pos < zlen values ->
  destination labels (b * B + pos) = Some (match translate_in_block (matrix_of m B labels) b values validity pos with Ok o => o | _ => None end) /\
  exists o, translate_in_block (matrix_of m B labels) b values validity pos = Ok o.
Proof.
  intros Hb [Hl Hv] Hpos. destruct (po_B _ _ _ H), (po_m _ _ _ H). pose proof (n_blocks_spec m B labels H) as [_ Hn]. pose proof (po_rows _ _ _ H).
  pose proof (zlen_labels_of values validity) as L. rewrite Hl, zlen_zsub in L by nia.
  unfold translate_in_block. rewrite block_range_ok by done. cbn [start end_]. unwrap.
  destruct (Z.eqb_spec (zlen values) (Z.min ((b + 1) * B) (zlen labels) - b * B)); [cbn [negb]|lia].
  destruct (Z.leb_spec (Z.min ((b + 1) * B) (zlen labels) - b * B) pos); [lia|].
  destruct (get_opt values pos) as [v|] eqn:Ev; [|apply get_opt_None in Ev; lia].
  pose proof (get_labels_of values validity pos v Ev) as Hg. rewrite Hl, get_opt_zsub in Hg by lia.
  assert (Hiv : match validity with Some w => negb (nb_is_valid w pos) | None => false end = negb (is_valid validity pos)) by (by destruct validity).
  rewrite Hiv. unfold destination. rewrite Hg. destruct (is_valid validity pos) eqn:Ei; cbn [negb]; [|by split; [|eexists]].
  unfold idx. rewrite Ev. mon. assert (Hd : 0 <= v < m).
  { apply (proj1 (Forall_forall _ _) (po_labels _ _ _ H) (Some v)); [apply elem_of_get_opt; eauto|done]. }
  unfold check_label. cbn [num_destinations matrix_of]. destruct (Z.leb_spec m v); [lia|]. mon. rewrite count_before_ok by done. mon.
  rewrite rank_label_prefix_ok by (first [lia|exact Hv]). mon. rewrite Hl.
  pose proof (count_prefix_split v b pos ltac:(lia) ltac:(lia) ltac:(nia) ltac:(nia)) as Hc.
  pose proof (count_take v labels (b * B + pos)). pose proof (po_counts _ _ _ H v). pose proof (count_nonneg v (ztake (b * B + pos) labels)).
  rewrite Hc. unwrap. split; [done|by eexists].
Qed.

Lemma sweep_advance_ok l x rest : labels = l ++ x :: rest ->
  advance (mkSweep (row_counts m l)) x = Ok (mkSweep (row_counts m (l ++ [x])), match x with Some d => Some (d, count d l) | None => None end).
Proof.
  intros El. destruct (po_m _ _ _ H). unfold advance. cbn [counters]. destruct x as [d|]; [|by rewrite row_counts_deleted].
  assert (Hd : 0 <= d < m).
  { apply (proj1 (Forall_forall _ _) (po_labels _ _ _ H) (Some d)); [|done]. rewrite El. apply elem_of_app. right. apply list_elem_of_here. }
  rewrite get_row_counts by done. pose proof (po_counts _ _ _ H d) as Hc. rewrite El, count_app in Hc.
  assert (count d (Some d :: rest) = 1 + count d rest) by (change (Some d :: rest) with ([Some d] ++ rest); rewrite count_app, count_single; cbn; by rewrite Z.eqb_refl).
  pose proof (count_nonneg d rest). pose proof (count_nonneg d l). unwrap. rewrite idx_set_ok by (rewrite zlen_row_counts; lia). mon.
  by rewrite row_counts_snoc.
Qed.

Lemma sweep_ok l rest : labels = l ++ rest ->
  sweep (mkSweep (row_counts m l)) rest = Ok (omap (destination labels) (range_list (zlen l ..< zlen labels))).
Proof.
  revert l. induction rest as [|x rest IH]; intros l El.
  - rewrite app_nil_r in El. subst l. by rewrite range_list_nil by lia.
  - cbn [sweep]. rewrite (sweep_advance_ok l x rest El). mon. cbn [fst snd].
    assert (Hlen : zlen labels = zlen l + 1 + zlen rest) by (rewrite El, zlen_app, zlen_cons; lia). pose proof (zlen_nonneg rest). pose proof (zlen_nonneg l).
    rewrite IH by (by rewrite <- app_assoc). mon. rewrite (range_list_cons (zlen l)) by lia. rewrite zlen_app. change (zlen [x]) with 1.
    assert (Ed : destination labels (zlen l) = Some (match x with Some d => Some (d, count d l) | None => None end)).
    { unfold destination. rewrite El, get_opt_app, Z.ltb_irrefl, Z.sub_diag. change (get_opt (x :: rest) 0) with (Some x).
      rewrite ztake_app_l, (ztake_ge l) by lia. by destruct x. }
    cbn [omap list_omap]. by rewrite Ed.
Qed.

End Rows.

End Translate.

(** ** The mapping *)

(** Two live rows of one destination have different offsets. *)
Lemma destination_inj labels i j d k : destination labels i = Some (Some (d, k)) -> destination labels j = Some (Some (d, k)) -> i = j.
Proof.
  enough (Hlt : forall i j d k, destination labels i = Some (Some (d, k)) -> destination labels j = Some (Some (d, k)) -> ~ i < j).
  { intros Hi Hj. pose proof (Hlt _ _ _ _ Hi Hj). pose proof (Hlt _ _ _ _ Hj Hi). lia. }
  clear. intros i j d k Hi Hj Hij. unfold destination in *.
  destruct (get_opt labels i) as [[x|]|] eqn:Ei; [|done..]. injection Hi as -> Hk.
  destruct (get_opt labels j) as [[y|]|] eqn:Ej; [|done..]. injection Hj as -> Hk'.
  pose proof (get_opt_Some _ _ _ Ei). pose proof (get_opt_Some _ _ _ Ej).
  assert (E : ztake j labels = ztake (i + 1) labels ++ ztake (j - (i + 1)) (zskip (i + 1) labels)).
  { unfold ztake, zskip. rewrite <- (take_drop (Z.to_nat (i + 1)) labels) at 1.
    replace (Z.to_nat j) with (Z.to_nat (i + 1) + Z.to_nat (j - (i + 1)))%nat by lia. rewrite take_app_add'; [done|]. rewrite length_take. unfold zlen in *. lia. }
  assert (E1 : ztake (i + 1) labels = ztake i labels ++ [Some d]).
  { unfold ztake. replace (Z.to_nat (i + 1)) with (S (Z.to_nat i)) by lia. apply take_S_r. unfold get_opt in Ei. by destruct (0 <=? i). }
  rewrite E, E1, !count_app, count_single in Hk'. cbn in Hk'. rewrite Z.eqb_refl in Hk'.
  pose proof (count_nonneg d (ztake (j - (i + 1)) (zskip (i + 1) labels))). lia.
Qed.

(** Every offset below the destination's row count belongs to a row. *)
Lemma destination_onto labels d k : 0 <= k < count d labels -> exists i, destination labels i = Some (Some (d, k)).
Proof.
  induction labels as [|x labels IH] using rev_ind; intros Hk; [change (count d []) with 0 in Hk; lia|]. rewrite count_app, count_single in Hk.
  destruct (Z_lt_le_dec k (count d labels)) as [Hlt|Hge].
  - destruct IH as [i Hi]; [lia|]. exists i. unfold destination in *. destruct (get_opt labels i) as [y|] eqn:Ei; [|done].
    pose proof (get_opt_Some _ _ _ Ei). rewrite get_opt_app. destruct (Z.ltb_spec i (zlen labels)); [|lia]. rewrite Ei.
    by rewrite ztake_app_l by lia.
  - destruct (label_is d x) eqn:Ex; [|lia]. destruct x as [y|]; [|done]. apply Z.eqb_eq in Ex as ->. exists (zlen labels).
    unfold destination. rewrite get_opt_app, Z.ltb_irrefl, Z.sub_diag. change (get_opt [Some d] 0) with (Some (Some d)).
    rewrite ztake_app_l, ztake_ge by lia. do 3 f_equal. lia.
Qed.

Section Mapping.
Context {NB : NullBuffers} {NBL : NullBuffersLaws NB}.

(** C11: the matrix a builder collects from the labels of a rewrite answers
    where every row went: translating a row within its block, and sweeping over
    the rows from any block on, both give its label and the number of earlier
    rows with that label, or that the row was deleted.  These offsets number
    the rows of each destination without gaps or repetitions. *)
Theorem stable_partition_translate m B labels : partition_ok m B labels ->
  exists c, build m B labels = Ok c /\
  (forall b values validity pos, 0 <= b < n_blocks B labels -> block_holds B labels b values validity -> 0 <= pos < zlen values ->
     exists o, translate_in_block c b values validity pos = Ok o /\ destination labels (b * B + pos) = Some o) /\
  (forall b, 0 <= b < n_blocks B labels -> exists s, sweep_new c b = Ok s /\
     sweep s (zskip (b * B) labels) = Ok (omap (destination labels) (range_list (b * B ..< zlen labels)))) /\
  (forall d, 0 <= d < m -> total c d = Ok (count d labels) /\
     forall k, 0 <= k < count d labels <-> exists row, destination labels row = Some (Some (d, k))) /\
  (forall i j d k, destination labels i = Some (Some (d, k)) -> destination labels j = Some (Some (d, k)) -> i = j).
Proof.
  intros H. exists (matrix_of m B labels). split; [by apply build_holds|]. split; [|split; [|split]].
  - intros b values validity pos Hb Hv Hp. destruct (translate_ok m B labels H b values validity pos Hb Hv Hp) as [Hd [o Ho]].
    exists o. rewrite Ho in Hd. done.
  - intros b Hb. unfold sweep_new. rewrite num_blocks_ok by done. mon. destruct (Z.leb_spec (Z.max (n_blocks B labels) 1) b); [lia|].
    rewrite counters_ok by (first [done|lia]). mon. eexists. split; [done|]. destruct (po_B _ _ _ H). pose proof (n_blocks_spec m B labels H).
    assert (L : zlen (ztake (b * B) labels) = b * B) by (unfold ztake, zlen in *; rewrite length_take; nia).
    rewrite (sweep_ok m B labels H (ztake (b * B) labels)) by (symmetry; apply take_drop). by rewrite L.
  - intros d Hd. split; [by apply total_ok|]. intros k. split; [apply destination_onto|].
    intros [row Hr]. unfold destination in Hr. destruct (get_opt labels row) as [[x|]|] eqn:Er; [|done..]. injection Hr as -> <-.
    split; [apply count_nonneg|]. unfold get_opt in Er. destruct (Z.leb_spec 0 row); [|done].
    rewrite <- (take_drop_middle labels (Z.to_nat row) (Some d) Er) at 2. rewrite count_app. change (Some d :: ?l) with ([Some d] ++ l).
    rewrite count_app, count_single. cbn. rewrite Z.eqb_refl. pose proof (count_nonneg d (drop (S (Z.to_nat row)) labels)). unfold ztake. lia.
  - intros i j d k. apply destination_inj.
Qed.

End Mapping.

(** ** The encoded form *)

(** The fields at their widths, a legal shape, and the cells the shape asks
    for. *)
Record matrix_ok (c : CountsMatrix) : Prop := {
  mo_m : 1 <= num_destinations c <= MAX_DESTINATIONS;
  mo_B : 1 <= block_rows c <= U32_MAX;
  mo_total : 0 <= total_rows c <= U64_MAX;
  mo_cells : Forall u32_ok (cumulative c);
  mo_len : zlen (cumulative c) = div_ceil (total_rows c) (block_rows c) * num_destinations c;
  mo_memory : zlen (cumulative c) * 4 <= U64_MAX
}.

Lemma to_from_le_bytes l : Forall u8_ok l -> to_le_bytes (length l) (from_le_bytes l) = l.
Proof.
  induction 1 as [|b l Hb _ IH]; [done|]. cbn [length from_le_bytes to_le_bytes]. unfold u8_ok in Hb.
  replace (b + 256 * from_le_bytes l) with (b + from_le_bytes l * 256) by lia.
  rewrite Z.mod_add, Z.mod_small, Z.div_add, Z.div_small by lia. by rewrite Z.add_0_l, IH.
Qed.

Lemma le_bytes_from_chunks n l : (1 <= n)%nat -> Forall u8_ok l -> zlen l mod Z.of_nat n = 0 -> le_bytes n (from_le_chunks n l) = l.
Proof.
  intros Hn Hl Hd. unfold from_le_chunks, le_bytes. pose proof (as_chunks_spec n l Hn) as Hc.
  destruct (as_chunks n l) as [chunks tail]. destruct Hc as (E & Hc & Ht). cbn [fst].
  assert (Hz : tail = []).
  { assert (Hlen : length (concat chunks) = (length chunks * n)%nat).
    { clear -Hc. induction Hc as [|c cs H _ IH]; [done|]. cbn. rewrite length_app, IH, H. lia. }
    unfold zlen in Hd. rewrite E, length_app, Hlen, Nat2Z.inj_add, Nat2Z.inj_mul, Z.add_comm, Z.mod_add, Z.mod_small in Hd by lia.
    destruct tail; [done|cbn in Hd; lia]. }
  subst tail. rewrite app_nil_r in E. subst l. clear Hd Ht. induction Hc as [|c cs H _ IH]; [done|]. cbn [concat] in Hl. apply Forall_app in Hl as [H1 H2].
  cbn [map flat_map concat]. rewrite IH by done. by rewrite <- H, to_from_le_bytes.
Qed.

Definition header_of (c : CountsMatrix) : list Z :=
  COUNTS_MAGIC ++ to_le_bytes 4 COUNTS_VERSION ++ to_le_bytes 4 REPR_DENSE ++ to_le_bytes 4 (num_destinations c) ++
  to_le_bytes 4 (block_rows c) ++ to_le_bytes 8 (total_rows c).

Lemma encode_header c : encode c = header_of c ++ le_bytes 4 (cumulative c).
Proof. unfold encode, header_of, le_bytes. by rewrite <- !app_assoc. Qed.

Lemma zlen_header_of c : zlen (header_of c) = 28.
Proof. done. Qed.

(** A header is its fields one after the other. *)
Lemma header_fields (h : list Z) : zlen h = 28 ->
  h = zsub h 0 4 ++ zsub h 4 8 ++ zsub h 8 12 ++ zsub h 12 16 ++ zsub h 16 20 ++ zsub h 20 28.
Proof.
  intros Hl. rewrite <- !zsub_app by lia. unfold zsub, zskip. cbn. symmetry. apply ztake_ge. lia.
Qed.

Lemma field_bytes h a b : Forall u8_ok h -> 0 <= a <= b -> b <= zlen h ->
  to_le_bytes (Z.to_nat (b - a)) (from_le_bytes (zsub h a b)) = zsub h a b /\ 0 <= from_le_bytes (zsub h a b) < 256 ^ (b - a).
Proof.
  intros Hh Ha Hb. assert (Hs : Forall u8_ok (zsub h a b)) by (apply Forall_take, Forall_drop, Hh).
  pose proof (zlen_zsub h a b Ha Hb) as L. pose proof (from_le_bytes_bound _ Hs) as Hf. rewrite L in Hf. split; [|done].
  rewrite <- L. unfold zlen. rewrite Nat2Z.id. by apply to_from_le_bytes.
Qed.

Lemma Forall_from_chunks l : Forall u8_ok l -> Forall u32_ok (from_le_chunks 4 l).
Proof.
  intros Hl. unfold from_le_chunks. pose proof (as_chunks_spec 4 l ltac:(lia)) as Hc. destruct (as_chunks 4 l) as [chunks tail].
  destruct Hc as (E & Hc & _). cbn [fst]. rewrite E in Hl. apply Forall_app in Hl as [Hl _]. apply Forall_map. clear E. revert Hl.
  induction Hc as [|c cs H _ IH]; intros Hl; [constructor|]. cbn [concat] in Hl. apply Forall_app in Hl as [H1 H2]. constructor; [|by apply IH].
  pose proof (from_le_bytes_bound c H1) as Hb. unfold zlen in Hb. rewrite H in Hb. change (256 ^ Z.of_nat 4) with 4294967296 in Hb.
  unfold u32_ok. lia.
Qed.

(** What [decode] does with a buffer that has a header. *)
Lemma decode_split h p : zlen h = 28 ->
  let m := from_le_bytes (zsub h 12 16) in
  let B := from_le_bytes (zsub h 16 20) in
  let n := from_le_bytes (zsub h 20 28) in
  decode (h ++ p) =
    if bool_decide (zsub h 0 4 = COUNTS_MAGIC) && (from_le_bytes (zsub h 4 8) =? COUNTS_VERSION) && (from_le_bytes (zsub h 8 12) =? REPR_DENSE) then
      _ ← check_shape m B;
      if (div_ceil n B * m <=? U64_MAX) && (div_ceil n B * m * 4 <=? U64_MAX) && (div_ceil n B * m * 4 =? zlen p)
      then Ok (mkCountsMatrix m B n (from_le_chunks 4 p)) else Err CorruptFile
    else Err CorruptFile.
Proof.
  intros Hh m B n. unfold decode, COUNTS_HEADER_BYTES. rewrite zlen_app, Hh. pose proof (zlen_nonneg p).
  destruct (Z.ltb_spec (28 + zlen p) 28); [lia|]. rewrite ztake_app_l, ztake_ge, zskip_split by lia. rewrite Hh. change (zskip (28 - 28) p) with p.
  fold m B n. replace (28 + zlen p - 28) with (zlen p) by lia. unfold checked_mul, from_le_chunks.
  destruct (bool_decide _); [cbn [negb andb]|done]. destruct (_ =? COUNTS_VERSION); [cbn [negb andb]|done].
  destruct (_ =? REPR_DENSE); [cbn [negb andb]|done]. destruct (check_shape m B) as [[]| |]; [mon|done..].
  destruct (_ <=? U64_MAX); [cbn [andb]|done]. destruct (_ <=? U64_MAX); [cbn [andb]|done]. by destruct (_ =? zlen p).
Qed.

(** Whatever parses was encoded from a legal matrix. *)
Lemma decode_inv buf c : Forall u8_ok buf -> decode buf = Ok c -> encode c = buf /\ matrix_ok c.
Proof.
  intros Hb. destruct (Z_lt_le_dec (zlen buf) 28) as [Hs|Hs].
  { unfold decode, COUNTS_HEADER_BYTES. by rewrite (proj2 (Z.ltb_lt _ _) Hs). }
  assert (Hhl : zlen (ztake 28 buf) = 28) by (unfold ztake, zlen in *; rewrite length_take; lia).
  rewrite <- (take_drop (Z.to_nat 28) buf) in Hb |- *. change (take (Z.to_nat 28) buf) with (ztake 28 buf) in *. revert Hhl Hb.
  generalize (ztake 28 buf) (drop (Z.to_nat 28) buf). intros h p Hhl [Hh Hp]%Forall_app. rewrite decode_split by done.
  destruct (bool_decide_reflect (zsub h 0 4 = COUNTS_MAGIC)) as [Em|]; [cbn [andb]|done].
  destruct (Z.eqb_spec (from_le_bytes (zsub h 4 8)) COUNTS_VERSION) as [Ev|]; [cbn [andb]|done].
  destruct (Z.eqb_spec (from_le_bytes (zsub h 8 12)) REPR_DENSE) as [Er|]; [|done].
  destruct (field_bytes h 4 8) as [E1 _]; [done|lia|lia|]. destruct (field_bytes h 8 12) as [E2 _]; [done|lia|lia|].
  destruct (field_bytes h 12 16) as [E3 B3]; [done|lia|lia|]. destruct (field_bytes h 16 20) as [E4 B4]; [done|lia|lia|].
  destruct (field_bytes h 20 28) as [E5 B5]; [done|lia|lia|]. rewrite Ev in E1. rewrite Er in E2.
  pose proof (header_fields h Hhl) as Ehd. revert E3 E4 E5 B3 B4 B5 Ehd.
  generalize (from_le_bytes (zsub h 12 16)) (from_le_bytes (zsub h 16 20)) (from_le_bytes (zsub h 20 28)). intros m B n E3 E4 E5 B3 B4 B5 Ehd.
  unfold check_shape. destruct (Z.eqb_spec m 0); [done|]. destruct (Z.ltb_spec MAX_DESTINATIONS m); [done|]. cbn [orb]. destruct (Z.eqb_spec B 0); [done|]. mon.
  destruct (Z.leb_spec (div_ceil n B * m) U64_MAX); [cbn [andb]|done]. destruct (Z.leb_spec (div_ceil n B * m * 4) U64_MAX); [cbn [andb]|done].
  destruct (Z.eqb_spec (div_ceil n B * m * 4) (zlen p)) as [Hl|]; [|done]. intros [= <-].
  assert (Ep : le_bytes 4 (from_le_chunks 4 p) = p).
  { apply le_bytes_from_chunks; [lia|done|]. rewrite <- Hl. change (Z.of_nat 4) with 4. apply Z.mod_mul. lia. }
  pose proof (zlen_le_bytes 4 (from_le_chunks 4 p)) as L. rewrite Ep in L.
  split.
  - rewrite encode_header. unfold header_of. cbn [num_destinations block_rows total_rows cumulative]. rewrite Ep. f_equal.
    change 4%nat with (Z.to_nat (16 - 12)) at 3. change 4%nat with (Z.to_nat (20 - 16)) at 3. change 8%nat with (Z.to_nat (28 - 20)).
    rewrite E3, E4, E5, <- Em. change 4%nat with (Z.to_nat (8 - 4)) at 1. change 4%nat with (Z.to_nat (12 - 8)) at 1. rewrite E1, E2. by rewrite <- Ehd.
  - split; cbn [num_destinations block_rows total_rows cumulative]; try lia. by apply Forall_from_chunks.
Qed.

Lemma decode_encode c : matrix_ok c -> decode (encode c) = Ok c.
Proof.
  intros [Hm HB Ht Hc Hl Hmem]. rewrite encode_header, decode_split by done.
  change (zsub (header_of c) 0 4) with COUNTS_MAGIC. rewrite bool_decide_true by done.
  change (zsub (header_of c) 4 8) with (to_le_bytes 4 COUNTS_VERSION). change (zsub (header_of c) 8 12) with (to_le_bytes 4 REPR_DENSE).
  change (zsub (header_of c) 12 16) with (to_le_bytes 4 (num_destinations c)). change (zsub (header_of c) 16 20) with (to_le_bytes 4 (block_rows c)).
  change (zsub (header_of c) 20 28) with (to_le_bytes 8 (total_rows c)).
  unfold MAX_DESTINATIONS in Hm. rewrite !from_to_le_bytes by (try change (256 ^ Z.of_nat 4) with 4294967296; try change (256 ^ Z.of_nat 8) with 18446744073709551616; unfold COUNTS_VERSION, REPR_DENSE; lia).
  rewrite !Z.eqb_refl. cbn [andb]. rewrite check_shape_ok by (unfold MAX_DESTINATIONS; lia). mon. rewrite <- Hl.
  rewrite (proj2 (Z.leb_le (zlen (cumulative c)) U64_MAX)), (proj2 (Z.leb_le (zlen (cumulative c) * 4) U64_MAX)) by (pose proof (zlen_nonneg (cumulative c)); lia).
  rewrite zlen_le_bytes. rewrite (proj2 (Z.eqb_eq (zlen (cumulative c) * 4) (Z.of_nat 4 * zlen (cumulative c)))) by lia. cbn [andb].
  rewrite from_le_chunks_le_bytes; [by destruct c|lia|]. change (256 ^ Z.of_nat 4) with 4294967296. eapply Forall_impl; [exact Hc|]. unfold u32_ok. cbn. intros; lia.
Qed.

(** *** A built matrix is legal *)

Lemma live_app l1 l2 : live (l1 ++ l2) = live l1 + live l2.
Proof. unfold live. by rewrite List.filter_app, zlen_app. Qed.

Lemma row_counts_mono m l1 l2 : existsb (fun p => snd p <? fst p) (zip (row_counts m l1) (row_counts m (l1 ++ l2))) = false.
Proof.
  unfold row_counts. induction (range_list (0 ..< m)) as [|d ds IH]; [done|]. cbn [map zip_with existsb fst snd].
  rewrite count_app. pose proof (count_nonneg d l2). by destruct (Z.ltb_spec (count d l1 + count d l2) (count d l1)); [lia|].
Qed.

Section Built.
Context (m B : Z) (labels : list (option Z)) (H : partition_ok m B labels).

Lemma through_step b : 0 <= b -> through B labels b = ztake (b * B) labels ++ zsub labels (b * B) (Z.min ((b + 1) * B) (zlen labels)).
Proof.
  intros Hb. destruct (po_B _ _ _ H). unfold through, zsub, ztake, zskip.
  destruct (Z_lt_le_dec (zlen labels) (b * B)) as [Hlt|Hge].
  - rewrite (take_ge labels), (take_ge labels), drop_ge by (unfold zlen in *; nia). by rewrite take_nil, app_nil_r.
  - rewrite <- (take_drop (Z.to_nat (b * B)) labels) at 1.
    replace (Z.to_nat ((b + 1) * B)) with (length (take (Z.to_nat (b * B)) labels) + Z.to_nat B)%nat by (rewrite length_take; unfold zlen in *; nia).
    rewrite take_app_add. f_equal. destruct (Z_lt_le_dec (zlen labels) ((b + 1) * B)).
    + rewrite !take_ge; [done|rewrite length_drop; unfold zlen in *; nia..].
    + f_equal. nia.
Qed.

Lemma labels_prefix_ok n : Forall (fun x => forall d, x = Some d -> 0 <= d < m) (ztake n labels).
Proof. apply Forall_take, (po_labels _ _ _ H). Qed.

Lemma live_block b : 0 <= b < n_blocks B labels ->
  sum_u64 (row_counts m (through B labels b)) = live (through B labels b) /\
  0 <= live (through B labels b) - live (ztake (b * B) labels) <= Z.min ((b + 1) * B) (zlen labels) - b * B.
Proof.
  intros Hb. pose proof (po_rows _ _ _ H). destruct (po_m _ _ _ H), (po_B _ _ _ H). pose proof (n_blocks_spec m B labels H). split.
  - apply sum_row; [lia|apply labels_prefix_ok|]. unfold through, ztake, zlen in *. rewrite length_take. lia.
  - rewrite through_step, live_app by lia. pose proof (live_le (zsub labels (b * B) (Z.min ((b + 1) * B) (zlen labels)))) as L.
    rewrite zlen_zsub in L by nia. assert (Hn : 0 <= live (zsub labels (b * B) (Z.min ((b + 1) * B) (zlen labels)))) by apply zlen_nonneg. lia.
Qed.

Lemma validate_loop_ok b : 0 <= b <= n_blocks B labels ->
  validate_loop (matrix_of m B labels) (range_list (b ..< n_blocks B labels)) (live (ztake (b * B) labels)) = Ok tt.
Proof.
  intros Hb. remember (Z.to_nat (n_blocks B labels - b)) as k eqn:Ek. revert b Hb Ek. induction k as [|k IH]; intros b Hb Ek.
  - by rewrite range_list_nil by lia.
  - pose proof (po_rows _ _ _ H). destruct (po_B _ _ _ H). pose proof (n_blocks_spec m B labels H). rewrite range_list_cons by lia. cbn [validate_loop].
    assert (E : (if 0 <? b then prev ← block_row (matrix_of m B labels) (b - 1); cur ← block_row (matrix_of m B labels) b;
      Ok (negb (existsb (fun p => snd p <? fst p) (zip prev cur))) else Ok true) = Ok true).
    { destruct (Z.ltb_spec 0 b); [|done]. rewrite !block_row_ok by (first [done|lia]). mon. rewrite through_pred, through_step by lia. by rewrite row_counts_mono. }
    rewrite E. mon. cbn [negb]. rewrite block_row_ok by (first [done|lia]). mon. rewrite block_range_ok by (first [done|lia]). cbn [start end_].
    destruct (live_block b ltac:(lia)) as [-> Hl]. assert (0 <= live (ztake (b * B) labels)) by apply zlen_nonneg.
    pose proof (live_le (through B labels b)) as Hle. assert (zlen (through B labels b) <= zlen labels) by (unfold through, ztake, zlen; rewrite length_take; lia).
    unwrap. destruct (Z.ltb_spec (Z.min ((b + 1) * B) (zlen labels) - b * B) (live (through B labels b) - live (ztake (b * B) labels))); [lia|].
    apply IH; lia.
Qed.

Lemma validate_ok : validate (matrix_of m B labels) = Ok tt.
Proof. unfold validate. rewrite num_blocks_ok by done. mon. pose proof (n_blocks_spec m B labels H). apply (validate_loop_ok 0). lia. Qed.

Lemma matrix_of_ok : div_ceil (zlen labels) B * m * 4 <= ISIZE_MAX -> matrix_ok (matrix_of m B labels).
Proof.
  intros Hmem. destruct (po_m _ _ _ H), (po_B _ _ _ H). pose proof (po_rows _ _ _ H). pose proof (zlen_nonneg labels). pose proof (zlen_cumulative m B labels H) as L. unfold n_blocks in L.
  split; cbn [num_destinations block_rows total_rows cumulative matrix_of]; rewrite ?L; try lia.
  unfold cumulative_of. apply Forall_forall. intros x Hx. apply list_elem_of_In, in_flat_map in Hx as (b & _ & Hx). unfold row_counts in Hx. apply in_map_iff in Hx as (d & <- & _).
  unfold u32_ok. pose proof (count_take d labels ((b + 1) * B)). pose proof (po_counts _ _ _ H d). pose proof (count_nonneg d (through B labels b)).
  unfold through in *. lia.
Qed.

Lemma totals_ok : total_live_rows (matrix_of m B labels) = Ok (live labels) /\
  forall b, 0 <= b < n_blocks B labels -> deleted_through (matrix_of m B labels) b = Ok (zlen (through B labels b) - live (through B labels b)).
Proof.
  pose proof (po_rows _ _ _ H). destruct (po_m _ _ _ H), (po_B _ _ _ H). pose proof (n_blocks_spec m B labels H). split.
  - unfold total_live_rows. rewrite num_blocks_ok by done. mon. destruct (Z.eqb_spec (n_blocks B labels) 0) as [E|E]; [by rewrite (no_blocks m B labels H E)|].
    rewrite block_row_ok by (first [done|lia]). mon. rewrite (through_last m) by (first [done|lia]). rewrite sum_row; [done|lia|apply (po_labels _ _ _ H)|lia].
  - intros b Hb. unfold deleted_through. rewrite block_range_ok, block_row_ok by done. mon. cbn [end_]. destruct (live_block b Hb) as [-> Hl].
    assert (El : zlen (through B labels b) = Z.min ((b + 1) * B) (zlen labels)) by (unfold through, ztake, zlen; rewrite length_take; nia).
    pose proof (live_le (through B labels b)). assert (0 <= live (through B labels b)) by apply zlen_nonneg. unwrap. by rewrite El.
Qed.

End Built.

(** *** Labels a builder refuses *)

Definition labels_ok (m : Z) (l labels : list (option Z)) : Prop :=
  Forall (fun x => forall d, x = Some d -> 0 <= d < m) labels /\ forall d, count d (l ++ labels) <= U32_MAX.

Lemma push_refuses m B l b d : 1 <= m -> builder_holds m B l b -> 0 <= d -> (d < m -> U32_MAX <= count d l) -> push b (Some d) = Err InvalidInput.
Proof.
  intros Hm -> Hd Hbad. unfold push. cbn [b_num_destinations b_running]. destruct (Z.leb_spec m d); [done|]. unfold idx. rewrite get_row_counts by lia. mon.
  specialize (Hbad ltac:(lia)). by destruct (Z.leb_spec (count d l + 1) U32_MAX); [lia|].
Qed.

Lemma fold_push_refuses m B labels l b : 1 <= m -> 1 <= B <= U32_MAX -> builder_holds m B l b -> (forall d, count d l <= U32_MAX) ->
  Forall (fun x => forall d, x = Some d -> 0 <= d) labels -> zlen (l ++ labels) <= U64_MAX -> ~ labels_ok m l labels ->
  fold_res push b labels = Err InvalidInput.
Proof.
  intros Hm HB. revert l b. induction labels as [|x labels IH]; intros l b Hb Hc Hl Hn Hbad.
  { destruct Hbad. split; [constructor|]. intros d. by rewrite app_nil_r. }
  inversion Hl as [|?? Hx Hl']; subst. assert (Ea : l ++ x :: labels = (l ++ [x]) ++ labels) by (by rewrite <- app_assoc).
  pose proof Hn as Hn'. rewrite zlen_app, zlen_cons in Hn'. pose proof (zlen_nonneg labels). cbn [fold_res].
  assert (Hgo : (forall d, x = Some d -> 0 <= d < m) -> (forall d, count d (l ++ [x]) <= U32_MAX) ->
    mbind (fun b0 => fold_res push b0 labels) (push b x) = Err InvalidInput).
  { intros Hx' Hc'. destruct (push_holds m B l b x) as (b1 & E & Hb1); [done|done|done|done|done|lia|]. rewrite E. mon.
    apply (IH (l ++ [x])); [done|done|done|by rewrite <- Ea|]. intros [Hok1 Hok2]. apply Hbad. split; [by constructor|]. by rewrite Ea. }
  destruct x as [d|]; [|apply Hgo; [done|]; intros d; rewrite count_app, count_single; specialize (Hc d); cbn; lia].
  specialize (Hx d eq_refl). destruct (Z_lt_le_dec d m) as [Hd|Hd]; [destruct (Z_lt_le_dec (count d l) U32_MAX) as [Hlt|Hge]|].
  - apply Hgo; [intros ? [= <-]; lia|]. intros e. rewrite count_app, count_single. cbn. specialize (Hc e). destruct (Z.eqb_spec d e) as [->|]; lia.
  - by rewrite (push_refuses m B l b d) by done.
  - by rewrite (push_refuses m B l b d) by (first [done|lia]).
Qed.

Lemma build_refuses m B labels : 0 <= m -> 0 <= B <= U32_MAX -> Forall (fun x => forall d, x = Some d -> 0 <= d) labels ->
  zlen labels <= ISIZE_MAX -> div_ceil (zlen labels) B * m <= ISIZE_MAX -> ~ partition_ok m B labels -> build m B labels = Err InvalidInput.
Proof.
  intros Hm HB Hl Hn Hmem Hbad. unfold build, builder_try_new, check_shape. destruct (Z.eqb_spec m 0); [done|].
  destruct (Z.ltb_spec MAX_DESTINATIONS m); [done|]. cbn [orb]. destruct (Z.eqb_spec B 0); [done|]. mon.
  rewrite (fold_push_refuses m B labels []); [done|lia|lia| |intros d; change (count d []) with 0; lia|done|cbn [app]; lia|].
  - unfold builder_holds. by rewrite row_counts_nil.
  - intros [H1 H2]. apply Hbad. split; [lia|lia|done|done|done|done].
Qed.

(** Building the matrix of a rewrite either succeeds, with a matrix that
    passes [validate], holds all rows and tells the live and the deleted ones,
    or is refused as invalid input; it is refused exactly when the number of
    destinations or the block size is out of bounds, a label names no
    destination, or a destination gets more rows than an offset of 32 bits can
    address. *)
Theorem stable_partition_build m B labels : 0 <= m -> 0 <= B <= U32_MAX -> Forall (fun x => forall d, x = Some d -> 0 <= d) labels ->
  zlen labels <= ISIZE_MAX -> div_ceil (zlen labels) B * m <= ISIZE_MAX ->
  (partition_ok m B labels -> exists c, build m B labels = Ok c /\ validate c = Ok tt /\ total_rows c = zlen labels /\
     num_blocks c = Ok (n_blocks B labels) /\ total_live_rows c = Ok (live labels) /\
     forall b, 0 <= b < n_blocks B labels -> block_range c b = b * B ..< Z.min ((b + 1) * B) (zlen labels) /\
       deleted_through c b = Ok (zlen (through B labels b) - live (through B labels b))) /\
  (~ partition_ok m B labels -> build m B labels = Err InvalidInput).
Proof.
  intros Hm HB Hl Hn Hmem. split; [|by apply build_refuses]. intros H. exists (matrix_of m B labels). destruct (totals_ok m B labels H) as [Ht Hd].
  split; [by apply build_holds|]. split; [by apply validate_ok|]. split; [done|]. split; [by apply num_blocks_ok|]. split; [done|].
  intros b Hb. split; [by apply block_range_ok|by apply Hd].
Qed.

Lemma decode_bad_length c p : matrix_ok c -> zlen p <> zlen (le_bytes 4 (cumulative c)) -> decode (header_of c ++ p) = Err CorruptFile.
Proof.
  intros H Hp. pose proof (decode_encode c H) as E. rewrite encode_header, decode_split in E by done. rewrite decode_split by done.
  destruct (_ && _); [|done]. destruct (check_shape _ _) as [[]| |]; [|done..]. revert E. mon.
  destruct (_ <=? U64_MAX); [cbn [andb]|done]. destruct (_ <=? U64_MAX); [cbn [andb]|done].
  destruct (Z.eqb_spec (div_ceil (from_le_bytes (zsub (header_of c) 20 28)) (from_le_bytes (zsub (header_of c) 16 20)) * from_le_bytes (zsub (header_of c) 12 16) * 4) (zlen (le_bytes 4 (cumulative c)))) as [->|]; [|done].
  intros _. by destruct (Z.eqb_spec (zlen (le_bytes 4 (cumulative c))) (zlen p)).
Qed.

(** C32: encoding a counts matrix and decoding the bytes gives it back, and
    bytes that decode are the encoding of the matrix they decode to; an encoding
    that was cut short or has bytes appended is reported as a corrupt file. *)
Theorem counts_matrix_codec c : matrix_ok c ->
  decode (encode c) = Ok c /\
  (forall buf, Forall u8_ok buf -> decode buf = Ok c -> buf = encode c) /\
  (forall n, 0 <= n < zlen (encode c) -> decode (ztake n (encode c)) = Err CorruptFile) /\
  (forall p, p <> [] -> decode (encode c ++ p) = Err CorruptFile).
Proof.
  intros H. split; [by apply decode_encode|]. split; [intros buf Hb Hd; by destruct (decode_inv buf c Hb Hd)|]. rewrite encode_header. split.
  - intros n Hn. destruct (Z_lt_le_dec n 28) as [Hlt|Hge].
    + unfold decode, COUNTS_HEADER_BYTES. destruct (Z.ltb_spec (zlen (ztake n (header_of c ++ le_bytes 4 (cumulative c)))) 28) as [|Hl]; [done|].
      unfold ztake, zlen in Hl. rewrite length_take in Hl. lia.
    + rewrite ztake_split by done. apply decode_bad_length; [done|]. rewrite zlen_header_of in *. rewrite zlen_app, zlen_header_of in Hn.
      unfold ztake, zlen in *. rewrite length_take. lia.
  - intros p Hp. rewrite <- app_assoc. apply decode_bad_length; [done|]. rewrite zlen_app. destruct p; [done|]. rewrite zlen_cons. pose proof (zlen_nonneg p). lia.
Qed.

(** ** Examples *)

Module StablePartitionExamples.

(** Null buffers as lists of flags. *)
#[export] Instance ListNullBuffers : NullBuffers := {
  null_buffer := list bool;
  nb_len v := zlen v;
  nb_is_valid v i := default false (get_opt v i);
  nb_null_count v := zlen (List.filter (fun i => negb (default false (get_opt v i))) (range_list (0 ..< zlen v)))
}.

#[export] Instance ListNullBuffersLaws : NullBuffersLaws ListNullBuffers.
Proof. by split. Qed.

Definition rows : list (option Z) := [Some 1; Some 0; None; Some 1; Some 1; None; Some 0].

Lemma rows_ok : partition_ok 2 3 rows.
Proof.
  split; [by vm_compute; split| |..].
  - split; by vm_compute.
  - repeat (constructor; [intros d [= <-]; lia || done|]). constructor.
  - intros d. pose proof (count_le d rows). change (zlen rows) with 7 in *. lia.
  - by vm_compute.
  - by vm_compute.
Qed.

(** Rows 3 to 5 are the second block; row 4 is the third row of destination 1. *)
Lemma stable_partition_translate_witness : exists c, build 2 3 rows = Ok c /\
  (exists o, translate_in_block c 1 [1; 1; 9] (Some [true; true; false]) 1 = Ok o /\ destination rows (1 * 3 + 1) = Some o) /\
  (exists s, sweep_new c 1 = Ok s /\ sweep s [Some 1; Some 1; None; Some 0] = Ok [Some (1, 1); Some (1, 2); None; Some (0, 1)]).
Proof.
  destruct (stable_partition_translate 2 3 rows rows_ok) as (c & Hc & Ht & Hs & _). exists c. split; [exact Hc|]. split.
  - apply Ht; [by vm_compute; split|split; [by vm_compute|intros v [= <-]; by vm_compute]|by vm_compute; split].
  - exact (Hs 1 ltac:(by vm_compute; split)).
Defined.

Lemma stable_partition_build_witness : (exists c, build 2 3 rows = Ok c /\ validate c = Ok tt /\ deleted_through c 1 = Ok 2) /\
  build 1 3 rows = Err InvalidInput.
Proof.
  split.
  - destruct (proj1 (stable_partition_build 2 3 rows ltac:(lia) ltac:(lia) ltac:(repeat constructor; intros ? [= <-]; lia) ltac:(by vm_compute) ltac:(by vm_compute)) rows_ok)
      as (c & Hc & Hv & _ & _ & _ & Hd). exists c. split; [exact Hc|]. split; [exact Hv|]. apply (Hd 1). by vm_compute; split.
  - apply (stable_partition_build 1 3 rows ltac:(lia) ltac:(lia) ltac:(repeat constructor; intros ? [= <-]; lia) ltac:(by vm_compute) ltac:(by vm_compute)).
    intros H. pose proof (po_labels _ _ _ H) as Hl. inversion Hl as [|?? Hx _]; subst. specialize (Hx 1 eq_refl). lia.
Defined.

Definition counts : CountsMatrix := mkCountsMatrix 2 3 7 [1; 1; 1; 3; 2; 3].

Lemma counts_ok : matrix_ok counts.
Proof. split; [by vm_compute; split..| |by vm_compute|by vm_compute]. repeat (constructor; [by vm_compute; split|]). constructor. Qed.

Lemma counts_matrix_codec_witness : decode (encode counts) = Ok counts /\ decode (ztake 51 (encode counts)) = Err CorruptFile /\
  decode (encode counts ++ [0]) = Err CorruptFile.
Proof.
  destruct (counts_matrix_codec counts counts_ok) as (H1 & _ & H2 & H3). split; [exact H1|]. split; [|by apply H3].
  apply H2. by vm_compute; split.
Defined.

End StablePartitionExamples.
