(* ===== verification/Ledger.v ===== *)
(** * The fragment reuse history

    [lance-table/src/system_index/frag_reuse/ledger.rs]: decoding the history of
    fragment rewrites.  Every record is one transition from source fragments to
    destination fragments with the mapping of their rows; decoding checks the
    digests of the fragments, builds the row mapping of a compaction, and orders
    the transitions along the lineage of the fragments. *)

From Stdlib Require Import ZArith Lia Ascii.
From stdpp Require Import base option list numbers sorting sets gmap strings.
From S2P Require Import Prelude Lists Bits RowAddress Itertools Roaring Prost RankedOffsets Remap RemapChain.

(** ** Messages *)

(** [pb::FragmentDigest] *)
Record FragmentDigest := mkDigest {
  fd_id : Z;
  fd_physical_rows : Z;
  fd_num_deleted_rows : Z
}.

(** [pb::StablePartition] *)
Record StablePartitionRef := mkStablePartitionRef {
  sp_map_id : string;
  sp_map_size_bytes : Z;
  sp_base_id : option Z
}.

(** [transition::Mapping] *)
Inductive pb_Mapping :=
| PbOrderedCompaction (changed_row_addrs : list Z)
| PbStablePartition (partition : StablePartitionRef).

(** [pb::Transition] *)
Record pb_Transition := mkPbTransition {
  pt_sources : list FragmentDigest;
  pt_destinations : list FragmentDigest;
  pt_mapping : option pb_Mapping
}.

(** [pb::Group] and [pb::Version] *)
Record pb_Group := mkPbGroup {
  pg_changed_row_addrs : list Z;
  pg_old_fragments : list FragmentDigest;
  pg_new_fragments : list FragmentDigest
}.

Record pb_Version := mkPbVersion {
  pv_dataset_version : Z;
  pv_groups : list pb_Group
}.

(** [pb::ExternalFile] and [prost_types::Any] *)
Record ExternalFile := mkExternalFile { ef_path : string; ef_offset : Z; ef_size : Z }.
Record Any := mkAny { any_type_url : string; any_value : list Z }.

(** ** The crates the decoder calls *)

(** [prost]'s message decoders and [skip_field], [RoaringTreemap]'s reader (with
    the position of the cursor after it) and [range_cardinality], [blake3] of the
    encoded transition and [Uuid::parse_str]. *)
Class ReuseCodec (RB : Roaring) (TP : TreemapParts RB) := {
  skip_field : WireType -> Z -> list Z -> option (list Z);
  decode_version_msg : list Z -> option pb_Version;
  decode_transition_msg : list Z -> option pb_Transition;
  decode_external_msg : list Z -> option ExternalFile;
  encode_transition_msg : pb_Transition -> list Z;
  at_deserialize : list Z -> option (addr_treemap * Z);
  at_range_cardinality : addr_treemap -> Range -> Z;
  blake3_hash : list Z -> list Z;
  uuid_parses : string -> bool
}.

(** ** Model *)

(** [enum Mapping] *)
Inductive Mapping {RB : Roaring} :=
| OrderedCompaction (remap : RowAddrRemap)
| StablePartition (partition : StablePartitionRef).

Record Transition {RB : Roaring} := mkTransition {
  fingerprint : list Z;
  sources : list FragmentDigest;
  destinations : list FragmentDigest;
  mapping : Mapping;
  legacy_dataset_version : option Z
}.
Arguments mkTransition {RB}.

Record FragReuseLedger {RB : Roaring} := mkLedger {
  transitions : list Transition;
  consumers : gmap Z Z;
  producers : gmap Z Z;
  has_unsupported_transitions : bool
}.
Arguments mkLedger {RB}.

Definition ORDERED_COMPACTION_FIELD : Z := 3.
Definition STABLE_PARTITION_FIELD : Z := 4.

Definition validate_index_version (index_version : Z) : res unit :=
  if negb ((index_version =? 0) || (index_version =? 1)) then Err NotSupported else Ok tt.

(** *** Wire fields *)

Section FieldModel.
Context {RB : Roaring} {TP : TreemapParts RB} {P : Prost} {RC : ReuseCodec RB TP}.

(** The tag, the payload of a length-delimited field, and the rest. *)
Definition next_field (input : list Z) : res (Z * option (list Z) * list Z) :=
  '(tag, wire, input) ← ok_or (decode_key input) CorruptFile;
  if bool_decide (wire = LengthDelimited) then
    '(length, input) ← ok_or (decode_varint input) CorruptFile;
    if zlen input <? length then Err CorruptFile
    else Ok (tag, Some (ztake length input), zskip length input)
  else
    input ← ok_or (skip_field wire tag input) CorruptFile;
    Ok (tag, None, input).

Definition require_message (payload : option (list Z)) : res (list Z) := ok_or payload CorruptFile.

(** The part of a type url after the last slash, [rsplit('/').next()]. *)
Fixpoint after_last_slash (url last : string) : string :=
  match url with
  | EmptyString => last
  | String c url => after_last_slash url (if bool_decide (c = "/"%char) then url else last)
  end.

(** The loop of [content_field] over the fields of the details. *)
Fixpoint content_fields (fuel : nat) (wire : list Z) (content : option (Z * list Z)) : res (option (Z * list Z)) :=
  match fuel with
  | O => Panic
  | S fuel =>
      match wire with
      | [] => Ok content
      | _ =>
          '(tag, payload, wire) ← next_field wire;
          if (tag =? 1) || (tag =? 2) then
            payload ← require_message payload;
            match content with
            | Some _ => Err CorruptFile
            | None => content_fields fuel wire (Some (tag, payload))
            end
          else content_fields fuel wire content
      end
  end.

Definition content_field (details : Any) : res (Z * list Z) :=
  if negb (bool_decide (after_last_slash (any_type_url details) (any_type_url details) = "lance.table.FragmentReuseIndexDetails"%string))
  then Err CorruptFile else
  content ← content_fields (S (length (any_value details))) (any_value details) None;
  ok_or content CorruptFile.

(** The loop over the fields of a tagged transition: whether it has a mapping,
    and whether it has unknown fields. *)
Fixpoint scan_fields (fuel : nat) (fields : list Z) (has_mapping has_unknown_fields : bool) : res (bool * bool) :=
  match fuel with
  | O => Panic
  | S fuel =>
      match fields with
      | [] => Ok (has_mapping, has_unknown_fields)
      | _ =>
          '(tag, payload, fields) ← next_field fields;
          if (tag =? ORDERED_COMPACTION_FIELD) || (tag =? STABLE_PARTITION_FIELD) then
            _ ← require_message payload;
            if has_mapping then Err CorruptFile else scan_fields fuel fields true has_unknown_fields
          else if negb ((tag =? 1) || (tag =? 2)) then scan_fields fuel fields has_mapping true
          else scan_fields fuel fields has_mapping has_unknown_fields
      end
  end.

End FieldModel.

(** *** One transition *)

Section TransitionModel.
Context {RB : Roaring} {RR : RoaringRanks RB} {TP : TreemapParts RB} {HO : HashOrder} {RC : ReuseCodec RB TP}.

Definition validate_digest (is_destination : bool) (acc : bitmap * Z) (digest : FragmentDigest) : res (bitmap * Z) :=
  let '(ids, live_rows) := acc in
  if (TOMBSTONE_FRAG <=? fd_id digest) || (U32_MAX <? fd_physical_rows digest) || (fd_physical_rows digest <? fd_num_deleted_rows digest)
  then Err CorruptFile else
  let '(ids, inserted) := bm_insert ids (wrap32 (fd_id digest)) in
  if negb inserted then Err CorruptFile else
  if is_destination && negb (fd_num_deleted_rows digest =? 0) then Err CorruptFile else
  live_rows ← ok_or (checked_add live_rows (fd_physical_rows digest - fd_num_deleted_rows digest)) CorruptFile;
  Ok (ids, live_rows).

Definition validate_digests (digests : list FragmentDigest) (is_destination : bool) : res Z :=
  acc ← fold_res (validate_digest is_destination) (bm_new, 0) digests; Ok (snd acc).

(** [map_err(|e| corrupt(e.to_string()))] *)
Definition or_corrupt {A} (r : res A) : res A := match r with Err _ => Err CorruptFile | r => r end.

Definition layout (fragments : list FragmentDigest) : list (Z * Z) :=
  map (fun f => (wrap32 (fd_id f), wrap32 (fd_physical_rows f))) fragments.

(** The survivors of every source fragment agree with its digest. *)
Definition check_survivors (t : addr_treemap) (digests : list FragmentDigest) : res unit :=
  fold_res (fun _ source =>
    let survivors := at_range_cardinality t (address_range (wrap32 (fd_id source))) in
    if negb (survivors =? fd_physical_rows source -w fd_num_deleted_rows source) then Err CorruptFile else Ok tt) tt digests.

Definition decode_mapping (value : pb_Transition) : res Mapping :=
  match pt_mapping value with
  | Some (PbOrderedCompaction changed_row_addrs) =>
      '(t, position) ← ok_or (at_deserialize changed_row_addrs) CorruptFile;
      if negb (position =? zlen changed_row_addrs) then Err CorruptFile else
      _ ← check_survivors t (pt_sources value);
      remap ← or_corrupt (remap_compact_with_layout [mkGroupInputWithLayout t (layout (pt_sources value)) (layout (pt_destinations value))]);
      Ok (OrderedCompaction remap)
  | Some (PbStablePartition partition) =>
      if negb (uuid_parses (sp_map_id partition)) then Err CorruptFile else
      if sp_map_size_bytes partition =? 0 then Err CorruptFile else
      Ok (StablePartition partition)
  | None => Err CorruptFile
  end.

Definition decode_transition (value : pb_Transition) (legacy_dataset_version : option Z) : res Transition :=
  match pt_sources value with
  | [] => Err CorruptFile
  | _ =>
      source_rows ← validate_digests (pt_sources value) false;
      destination_rows ← validate_digests (pt_destinations value) true;
      if negb (source_rows =? destination_rows) then Err CorruptFile else
      let fingerprint := blake3_hash (encode_transition_msg value) in
      mapping ← decode_mapping value;
      Ok (mkTransition fingerprint (pt_sources value) (pt_destinations value) mapping legacy_dataset_version)
  end.

End TransitionModel.

(** *** Ordering the transitions *)

(** Wrap-around of [i32], the type of the incoming counts. *)
Definition wrap_i32 (x : Z) : Z := (x + 2147483648) mod 4294967296 - 2147483648.

Section OrderModel.
Context {RB : Roaring}.

Definition add_producer (index : Z) (producers : gmap Z (Z * Z)) (destination : FragmentDigest) : res (gmap Z (Z * Z)) :=
  match producers !! fd_id destination with
  | Some _ => Err CorruptFile
  | None => Ok (<[fd_id destination := (index, fd_physical_rows destination)]> producers)
  end.

Definition add_consumer (consumers : bitmap) (source : FragmentDigest) : res bitmap :=
  let '(consumers, inserted) := bm_insert consumers (wrap32 (fd_id source)) in
  if inserted then Ok consumers else Err CorruptFile.

Definition add_ends (acc : gmap Z (Z * Z) * bitmap) (it : Z * Transition) : res (gmap Z (Z * Z) * bitmap) :=
  producers ← fold_res (add_producer (fst it)) (fst acc) (destinations (snd it));
  consumers ← fold_res add_consumer (snd acc) (sources (snd it));
  Ok (producers, consumers).

Definition collect_ends (transitions : list Transition) : res (gmap Z (Z * Z) * bitmap) :=
  fold_res add_ends (∅, bm_new) (enumerate transitions).

(** The edge of a source that another transition produces. *)
Definition add_edge (producers : gmap Z (Z * Z)) (consumer : Z) (acc : list Z * list (list Z)) (source : FragmentDigest) :
    res (list Z * list (list Z)) :=
  let '(incoming, outgoing) := acc in
  match producers !! fd_id source with
  | Some (producer, physical_rows) =>
      if negb (fd_physical_rows source =? physical_rows) then Err CorruptFile else
      n ← idx incoming consumer;
      incoming ← idx_set incoming consumer (wrap_i32 (n + 1));
      out ← idx outgoing producer;
      outgoing ← idx_set outgoing producer (out ++ [consumer]);
      Ok (incoming, outgoing)
  | None => Ok acc
  end.

Definition add_edges (producers : gmap Z (Z * Z)) (acc : list Z * list (list Z)) (it : Z * Transition) : res (list Z * list (list Z)) :=
  fold_res (add_edge producers (fst it)) acc (sources (snd it)).

Definition collect_edges (producers : gmap Z (Z * Z)) (transitions : list Transition) : res (list Z * list (list Z)) :=
  fold_res (add_edges producers)
    (replicate (length transitions) 0, replicate (length transitions) []) (enumerate transitions).

(** One consumer of a transition that was placed. *)
Definition release (acc : list Z * list Z) (consumer : Z) : res (list Z * list Z) :=
  let '(incoming, ready) := acc in
  n ← idx incoming consumer;
  let n := wrap_i32 (n - 1) in
  incoming ← idx_set incoming consumer n;
  Ok (incoming, if n =? 0 then ready ++ [consumer] else ready).

(** The loop over the ready transitions; [fuel] bounds its rounds. *)
Fixpoint drain (fuel : nat) (outgoing : list (list Z)) (ready incoming : list Z) (slots : list (option Transition)) (ordered : list Transition) :
    res (list Transition) :=
  match fuel with
  | O => Panic
  | S fuel =>
      match ready with
      | [] => Ok ordered
      | index :: ready =>
          slot ← idx slots index;
          slots ← idx_set slots index None;
          transition ← ok_or slot CorruptFile;
          out ← idx outgoing index;
          '(incoming, ready) ← fold_res release (incoming, ready) out;
          drain fuel outgoing ready incoming slots (ordered ++ [transition])
      end
  end.

Definition order_lineage (transitions : list Transition) : res (list Transition) :=
  '(producers, _) ← collect_ends transitions;
  '(incoming, outgoing) ← collect_edges producers transitions;
  let ready := map fst (List.filter (fun p => snd p =? 0) (enumerate incoming)) in
  ordered ← drain (S (length transitions)) outgoing ready incoming (map Some transitions) [];
  if negb (zlen ordered =? zlen transitions) then Err CorruptFile else Ok ordered.

End OrderModel.

(** *** The ledger *)

Section LedgerModel.
Context {RB : Roaring} {RR : RoaringRanks RB} {TP : TreemapParts RB} {HO : HashOrder} {P : Prost} {RC : ReuseCodec RB TP}.

(** The transition a legacy compaction group stands for. *)
Definition lift_group (group : pb_Group) : pb_Transition :=
  mkPbTransition (pg_old_fragments group) (pg_new_fragments group) (Some (PbOrderedCompaction (pg_changed_row_addrs group))).

(** The loop over the records of the history. *)
Fixpoint read_records (fuel : nat) (index_version : Z) (remaining : list Z) (transitions : list Transition) (unsupported : bool) :
    res (list Transition * bool) :=
  match fuel with
  | O => Panic
  | S fuel =>
      match remaining with
      | [] => Ok (transitions, unsupported)
      | _ =>
          '(tag, payload, remaining) ← next_field remaining;
          if tag =? 1 then
            payload ← require_message payload;
            version ← ok_or (decode_version_msg payload) CorruptFile;
            decoded ← map_res (fun group => decode_transition (lift_group group) (Some (pv_dataset_version version))) (pv_groups version);
            read_records fuel index_version remaining (transitions ++ decoded) unsupported
          else if tag =? 2 then
            if index_version =? 0 then Err CorruptFile else
            raw ← require_message payload;
            '(has_mapping, has_unknown_fields) ← scan_fields (S (length raw)) raw false false;
            if has_unknown_fields : bool then read_records fuel index_version remaining transitions true
            else if negb has_mapping then Err CorruptFile
            else
              decoded ← ok_or (decode_transition_msg raw) CorruptFile;
              transition ← decode_transition decoded None;
              read_records fuel index_version remaining (transitions ++ [transition]) unsupported
          else read_records fuel index_version remaining transitions true
      end
  end.

(** [collect] into a [HashMap]: a later entry replaces an earlier one. *)
Definition position_map (ends : Transition -> list FragmentDigest) (transitions : list Transition) : gmap Z Z :=
  foldl (fun m kv => <[fst kv := snd kv]> m) ∅
    (flat_map (fun it => map (fun d => (wrap32 (fd_id d), fst it)) (ends (snd it))) (enumerate transitions)).

Definition decode_content (index_version : Z) (content : list Z) : res FragReuseLedger :=
  _ ← validate_index_version index_version;
  '(transitions, unsupported) ← read_records (S (length content)) index_version content [] false;
  transitions ← order_lineage transitions;
  Ok (mkLedger transitions (position_map sources transitions) (position_map destinations transitions) unsupported).

(** [read_external] returns the bytes of the external file's range. *)
Definition decode (read_external : ExternalFile -> res (list Z)) (index_version : Z) (details : Any) : res FragReuseLedger :=
  _ ← validate_index_version index_version;
  '(tag, content) ← content_field details;
  content ← (if tag =? 1 then Ok content else
    file ← ok_or (decode_external_msg content) CorruptFile;
    _ ← ok_or (checked_add (ef_offset file) (ef_size file)) CorruptFile;
    let expected := ef_size file in
    bytes ← read_external file;
    if negb (zlen bytes =? expected) then Err CorruptFile else Ok bytes);
  decode_content index_version content.

Definition decode_inline (index_version : Z) (details : Any) : res (option FragReuseLedger) :=
  _ ← validate_index_version index_version;
  '(tag, content) ← content_field details;
  if tag =? 1 then ledger ← decode_content index_version content; Ok (Some ledger) else Ok None.

Definition consumer (ledger : FragReuseLedger) (fragment_id : Z) : option Z := consumers ledger !! fragment_id.
Definition producer (ledger : FragReuseLedger) (fragment_id : Z) : option Z := producers ledger !! fragment_id.
Definition contains_fragment (ledger : FragReuseLedger) (fragment_id : Z) : bool :=
  bool_decide (is_Some (consumers ledger !! fragment_id)) || bool_decide (is_Some (producers ledger !! fragment_id)).

End LedgerModel.
