(* ===== verification/LedgerOrder.v ===== *)
(** * The order of the fragment lineage

    The transitions of a fragment reuse history in the order in which the rows
    went through them: [order_lineage] finds such an order whenever there is
    one, and reports a corrupt history otherwise. *)

From Stdlib Require Import ZArith Lia.
From stdpp Require Import base option list numbers sorting sets gmap.
From S2P Require Import Prelude Lists Bits RowAddress HoleRuns SegmentBuild Sequence Itertools Roaring Prost RankedOffsets Remap RemapChain Ledger.

(** ** Counting edges *)

Lemma wrap_i32_zero x : 0 <= x <= U32_MAX -> wrap_i32 x = 0 <-> x = 0.
Proof.
  intros Hx. unfold wrap_i32. destruct (Z_lt_le_dec x 2147483648).
  - rewrite Z.mod_small by lia. lia.
  - replace (x + 2147483648) with (x - 2147483648 + 1 * 4294967296) by lia. rewrite Z.mod_add, Z.mod_small by lia. lia.
Qed.

Lemma wrap_i32_add x k : wrap_i32 (wrap_i32 x + k) = wrap_i32 (x + k).
Proof.
  unfold wrap_i32. f_equal. replace ((x + 2147483648) mod 4294967296 - 2147483648 + k + 2147483648) with ((x + 2147483648) mod 4294967296 + k) by lia.
  rewrite Zplus_mod_idemp_l. f_equal. lia.
Qed.

(** How often [c] occurs. *)
Definition occ (c : Z) (l : list Z) : Z := zlen (List.filter (Z.eqb c) l).

Lemma occ_cons c x l : occ c (x :: l) = (if c =? x then 1 else 0) + occ c l.
Proof. unfold occ. cbn. destruct (c =? x); [rewrite zlen_cons; lia|lia]. Qed.

Lemma occ_app c l k : occ c (l ++ k) = occ c l + occ c k.
Proof. unfold occ. by rewrite List.filter_app, zlen_app. Qed.

Lemma occ_nonneg c l : 0 <= occ c l.
Proof. apply zlen_nonneg. Qed.

Lemma occ_zero c l : occ c l = 0 <-> c ∉ l.
Proof.
  induction l as [|x l IH]; [split; [intros _; apply not_elem_of_nil|done]|]. rewrite occ_cons, not_elem_of_cons. pose proof (occ_nonneg c l).
  destruct (Z.eqb_spec c x); [split; [lia|tauto]|]. rewrite Z.add_0_l. tauto.
Qed.

(** ** Releasing the consumers of a transition *)

(** The counts hold [f]. *)
Definition counts_hold (n : Z) (incoming : list Z) (f : Z -> Z) : Prop :=
  zlen incoming = n /\ forall c, 0 <= c < n -> get_opt incoming c = Some (wrap_i32 (f c)).

Lemma counts_set n incoming f c k : 0 <= c < n -> counts_hold n incoming f ->
  exists incoming', idx_set incoming c (wrap_i32 (wrap_i32 (f c) + k)) = Ok incoming' /\
    counts_hold n incoming' (fun d => if d =? c then f c + k else f d).
Proof.
  intros Hc [Hn Hf]. rewrite idx_set_ok by lia. eexists. split; [done|]. split; [unfold zlen in *; by rewrite length_insert|].
  intros d Hd. rewrite get_opt_insert by lia. destruct (Z.eqb_spec d c) as [->|]; [by rewrite wrap_i32_add|by apply Hf].
Qed.

Lemma release_fold n outs f incoming ready : (forall c, 0 <= f c) -> (forall c, f c + occ c outs <= U32_MAX) -> Forall (fun c => 0 <= c < n) outs ->
  counts_hold n incoming (fun c => f c + occ c outs) ->
  exists incoming' new, fold_res release (incoming, ready) outs = Ok (incoming', ready ++ new) /\ counts_hold n incoming' f /\
    NoDup new /\ forall c, c ∈ new <-> c ∈ outs /\ f c = 0.
Proof.
  intros Hf0. revert incoming ready. induction outs as [|x outs IH]; intros incoming ready Hmax Hr Hc.
  - exists incoming, []. rewrite app_nil_r. split; [done|]. split; [|split; [constructor|]].
    + destruct Hc as [Hn Hc]. split; [done|]. intros c Hcn. rewrite Hc by done. do 2 f_equal. change (occ c []) with 0. lia.
    + intros c. split; [by intros ?%not_elem_of_nil|]. by intros [?%not_elem_of_nil _].
  - inversion Hr as [|?? Hx Hr']; subst. cbn [fold_res]. unfold release at 2. unfold idx. rewrite (proj2 Hc x Hx). mon.
    destruct (counts_set n incoming _ x (-1) Hx Hc) as (inc1 & E & H1). cbn beta in E, H1. change (wrap_i32 (f x + occ x (x :: outs)) - 1) with (wrap_i32 (f x + occ x (x :: outs)) + -1).
    rewrite E. mon. rewrite wrap_i32_add, occ_cons, Z.eqb_refl. replace (f x + (1 + occ x outs) + -1) with (f x + occ x outs) by lia.
    pose proof (occ_nonneg x outs). pose proof (Hf0 x). pose proof (Hmax x) as Hmx. rewrite occ_cons, Z.eqb_refl in Hmx.
    assert (H2 : counts_hold n inc1 (fun c => f c + occ c outs)).
    { destruct H1 as [Hn H1]. split; [done|]. intros c Hcn. rewrite H1 by done. do 2 f_equal. rewrite !occ_cons, Z.eqb_refl. destruct (Z.eqb_spec c x) as [->|]; lia. }
    assert (Hmax' : forall c, f c + occ c outs <= U32_MAX) by (intros c; specialize (Hmax c); rewrite occ_cons in Hmax; destruct (c =? x); lia).
    destruct (Z.eqb_spec (wrap_i32 (f x + occ x outs)) 0) as [Hz|Hz].
    + rewrite wrap_i32_zero in Hz by lia. destruct (IH inc1 (ready ++ [x]) Hmax' Hr' H2) as (inc2 & new & E2 & Hc2 & Hnd & Hnew).
      exists inc2, (x :: new). rewrite E2, <- app_assoc. split; [done|]. split; [done|]. split.
      * constructor; [|done]. rewrite Hnew. intros [Hin _]. apply (proj2 (not_iff_compat (occ_zero x outs))); [|lia]. by intros ?.
      * intros c. rewrite !elem_of_cons, Hnew. split; [intros [->|[? ?]]; [split; [by left|lia]|tauto]|]. intros [[->|?] ?]; tauto.
    + rewrite wrap_i32_zero in Hz by lia. destruct (IH inc1 ready Hmax' Hr' H2) as (inc2 & new & E2 & Hc2 & Hnd & Hnew).
      exists inc2, new. split; [done|]. split; [done|]. split; [done|]. intros c. rewrite elem_of_cons, Hnew.
      split; [tauto|]. intros [[->|?] Hz']; [|tauto]. split; [|done]. destruct (decide (x ∈ outs)) as [|Hno]; [done|]. apply occ_zero in Hno. lia.
Qed.

(** ** Placing the transitions *)

(** The edges into [c] from transitions not yet placed. *)
Definition pending (E : list (Z * Z)) (placed : list Z) (c : Z) : Z :=
  zlen (List.filter (fun e => (snd e =? c) && negb (bool_decide (fst e ∈ placed))) E).

(** The consumers of [p], in the order of the edges. *)
Definition outs_of (E : list (Z * Z)) (p : Z) : list Z := map snd (List.filter (fun e => fst e =? p) E).

Lemma pending_nonneg E placed c : 0 <= pending E placed c.
Proof. apply zlen_nonneg. Qed.

Lemma pending_cons e E placed c : pending (e :: E) placed c = (if (snd e =? c) && negb (bool_decide (fst e ∈ placed)) then 1 else 0) + pending E placed c.
Proof. unfold pending. cbn [List.filter]. destruct (_ && _); [rewrite zlen_cons; lia|lia]. Qed.

Lemma pending_zero E placed c : pending E placed c = 0 <-> forall p, (p, c) ∈ E -> p ∈ placed.
Proof.
  induction E as [|[p d] E IH]; [split; [by intros _ p ?%not_elem_of_nil|done]|]. rewrite pending_cons. cbn [fst snd]. pose proof (pending_nonneg E placed c).
  destruct (Z.eqb_spec d c) as [->|Hne]; cbn [andb].
  - destruct (bool_decide_reflect (p ∈ placed)) as [Hp|Hp]; cbn [negb].
    + rewrite Z.add_0_l, IH. split; [intros Hall q [[= ->]|Hq]%elem_of_cons; auto|]. intros Hall q Hq. apply Hall. by right.
    + split; [lia|]. intros Hall. destruct Hp. apply Hall. left.
  - rewrite Z.add_0_l, IH. split; [intros Hall q [[= ? ?]|Hq]%elem_of_cons; [done|auto]|]. intros Hall q Hq. apply Hall. by right.
Qed.

(** Placing [x] takes its edges away. *)
Lemma pending_snoc E placed x c : x ∉ placed -> pending E placed c = pending E (placed ++ [x]) c + occ c (outs_of E x).
Proof.
  intros Hx. induction E as [|[p d] E IH]; [done|]. rewrite !pending_cons, IH. unfold outs_of. cbn [List.filter fst snd].
  assert (Hb : bool_decide (p ∈ placed ++ [x]) = bool_decide (p ∈ placed) || (p =? x)).
  { destruct (Z.eqb_spec p x) as [->|Hne].
    - rewrite orb_true_r. apply bool_decide_true. apply elem_of_app. right. by apply list_elem_of_singleton.
    - rewrite orb_false_r. apply bool_decide_ext. rewrite elem_of_app, list_elem_of_singleton. tauto. }
  rewrite Hb. destruct (Z.eqb_spec p x) as [->|Hne].
  - cbn [map snd]. rewrite occ_cons, orb_true_r. rewrite (bool_decide_false (x ∈ placed)) by done. cbn [negb]. rewrite (Z.eqb_sym c d).
    destruct (d =? c); cbn [andb]; lia.
  - rewrite orb_false_r. lia.
Qed.

Lemma pending_mono E placed c : pending E placed c <= pending E [] c.
Proof.
  induction E as [|e E IH]; [done|]. rewrite !pending_cons. rewrite (bool_decide_false (fst e ∈ [])) by apply not_elem_of_nil.
  destruct (snd e =? c); cbn [andb negb]; [|lia]. destruct (bool_decide (fst e ∈ placed)); cbn [negb]; lia.
Qed.

Lemma elem_of_outs E p c : c ∈ outs_of E p <-> (p, c) ∈ E.
Proof.
  unfold outs_of. rewrite list_elem_of_In, in_map_iff. setoid_rewrite filter_In. setoid_rewrite <- list_elem_of_In. split.
  - intros ([q d] & <- & Hin & Hq%Z.eqb_eq). cbn in *. by subst.
  - intros Hin. exists (p, c). cbn. by rewrite Z.eqb_refl.
Qed.

Lemma list_snoc_split {A} (k : list A) x l c r : k ++ [x] = l ++ c :: r -> (k = l /\ x = c /\ r = []) \/ exists r', r = r' ++ [x] /\ k = l ++ c :: r'.
Proof.
  destruct r as [|y r _] using rev_ind; intros Heq.
  - left. apply app_inj_tail in Heq as [-> ->]. done.
  - right. exists r. assert (Heq' : k ++ [x] = (l ++ c :: r) ++ [y]) by (by rewrite <- app_assoc). apply app_inj_tail in Heq' as [-> ->]. done.
Qed.

Section Placing.
Context {RB : Roaring}.
Context (ts : list Transition) (E : list (Z * Z)) (outgoing : list (list Z)).
Context (Hrange : Forall (fun e => 0 <= fst e < zlen ts /\ 0 <= snd e < zlen ts) E).
Context (Hout : forall p, 0 <= p < zlen ts -> get_opt outgoing p = Some (outs_of E p)).
Context (Hmax : forall c, pending E [] c <= U32_MAX).

(** The state of the loop after placing [placed]. *)
Record placing (placed ready incoming : list Z) (slots : list (option Transition)) (ordered : list Transition) : Prop := {
  pl_nodup : NoDup (placed ++ ready);
  pl_range : Forall (fun c => 0 <= c < zlen ts) (placed ++ ready);
  pl_counts : counts_hold (zlen ts) incoming (pending E placed);
  pl_len : zlen slots = zlen ts;
  pl_slots c : 0 <= c < zlen ts -> get_opt slots c = Some (if bool_decide (c ∈ placed) then None else get_opt ts c);
  pl_ordered : ordered = omap (get_opt ts) placed;
  pl_ready c : 0 <= c < zlen ts -> c ∈ placed ++ ready <-> pending E placed c = 0;
  pl_before l c r : placed = l ++ c :: r -> forall p, (p, c) ∈ E -> p ∈ l
}.


Lemma pending_fits placed c x : x ∉ placed -> pending E (placed ++ [x]) c + occ c (outs_of E x) <= U32_MAX.
Proof. intros Hx. rewrite <- pending_snoc by done. pose proof (pending_mono E placed c). specialize (Hmax c). lia. Qed.

Lemma outs_range p : Forall (fun c => 0 <= c < zlen ts) (outs_of E p).
Proof. apply Forall_forall. intros c Hc%elem_of_outs. exact (proj2 (proj1 (Forall_forall _ _) Hrange _ Hc)). Qed.

(** One round. *)
Lemma placing_step placed x ready incoming slots ordered : placing placed (x :: ready) incoming slots ordered ->
  exists t incoming' new, get_opt ts x = Some t /\ idx slots x = Ok (Some t) /\
    fold_res release (incoming, ready) (outs_of E x) = Ok (incoming', ready ++ new) /\
    placing (placed ++ [x]) (ready ++ new) incoming' (<[Z.to_nat x := None]> slots) (ordered ++ [t]).
Proof.
  intros [Hnd Hr Hc Hl Hs Ho Hrd Hb].
  assert (Hx : 0 <= x < zlen ts) by (apply (proj1 (Forall_forall _ _) Hr); apply elem_of_app; right; left).
  assert (Hxp : x ∉ placed) by (apply NoDup_app in Hnd as (_ & Hnd & _); intros Hin; apply (Hnd x Hin); left).
  destruct (get_opt ts x) as [t|] eqn:Et; [|apply get_opt_None in Et; lia].
  destruct (release_fold (zlen ts) (outs_of E x) (pending E (placed ++ [x])) incoming ready) as (inc' & new & Ef & Hc' & Hnew & Hin);
    [intros; apply pending_nonneg|intros; by apply pending_fits|apply outs_range| |].
  { destruct Hc as [Hn Hc]. split; [done|]. intros c Hcn. rewrite <- pending_snoc by done. by apply Hc. }
  exists t, inc', new. split; [done|]. split; [unfold idx; rewrite (Hs x Hx), bool_decide_false by done; by rewrite Et|]. split; [done|].
  assert (Hold : forall c, 0 <= c < zlen ts -> c ∈ new <-> (c ∉ placed ++ x :: ready) /\ pending E (placed ++ [x]) c = 0).
  { intros c Hcn. rewrite Hin. rewrite (Hrd c Hcn). rewrite (pending_snoc E placed x c Hxp). pose proof (pending_nonneg E (placed ++ [x]) c). pose proof (occ_nonneg c (outs_of E x)).
    destruct (decide (c ∈ outs_of E x)) as [Hi|Hi].
    - assert (occ c (outs_of E x) <> 0) by (rewrite occ_zero; tauto). split; intros [? ?]; split; (done || lia).
    - assert (occ c (outs_of E x) = 0) by (by apply occ_zero). split; intros [? ?]; [done|lia]. }
  assert (Hnr : forall c, c ∈ new -> 0 <= c < zlen ts) by (intros c [Hc1 _]%Hin; exact (proj1 (Forall_forall _ _) (outs_range x) c Hc1)).
  assert (Eapp : (placed ++ [x]) ++ ready ++ new = (placed ++ x :: ready) ++ new) by (by rewrite <- !app_assoc).
  split.
  - rewrite Eapp. apply NoDup_app. split; [done|]. split; [|done]. intros c Hc1 Hc2. apply (proj1 (Hold c (Hnr c Hc2))); done.
  - rewrite Eapp. apply Forall_app. split; [done|]. by apply Forall_forall.
  - done.
  - unfold zlen in *. by rewrite length_insert.
  - intros c Hcn. rewrite get_opt_insert by lia. destruct (Z.eqb_spec c x) as [->|Hne].
    + rewrite bool_decide_true; [done|]. apply elem_of_app. right. by apply list_elem_of_singleton.
    + rewrite Hs by done. rewrite (bool_decide_ext (c ∈ placed ++ [x]) (c ∈ placed)); [done|]. rewrite elem_of_app, list_elem_of_singleton. tauto.
  - rewrite Ho, omap_app. cbn. by rewrite Et.
  - intros c Hcn. rewrite Eapp, elem_of_app, (Hold c Hcn), (Hrd c Hcn), (pending_snoc E placed x c Hxp).
    pose proof (pending_nonneg E (placed ++ [x]) c). pose proof (occ_nonneg c (outs_of E x)). split; [intros [?|[_ ?]]; lia|].
    intros Hz. destruct (decide (pending E (placed ++ [x]) c + occ c (outs_of E x) = 0)); tauto.
  - intros l c r El p Hp. destruct (list_snoc_split placed x l c r El) as [(-> & -> & ->)|(r' & -> & Er)]; [|by apply (Hb l c r')].
    assert (Hz : pending E l c = 0) by (apply Hrd; [done|]; apply elem_of_app; right; left). by apply (proj1 (pending_zero E l c) Hz).
Qed.

Lemma placing_len placed ready incoming slots ordered : placing placed ready incoming slots ordered -> zlen placed + zlen ready <= zlen ts.
Proof.
  intros [Hnd Hr _ _ _ _ _ _]. rewrite <- zlen_app. apply values_len_le; [apply zlen_nonneg|done|done].
Qed.

Lemma drain_places fuel placed ready incoming slots ordered : placing placed ready incoming slots ordered ->
  (length ts < fuel + length placed)%nat ->
  exists placed' incoming' slots', drain fuel outgoing ready incoming slots ordered = Ok (omap (get_opt ts) placed') /\
    placing placed' [] incoming' slots' (omap (get_opt ts) placed').
Proof.
  revert placed ready incoming slots ordered. induction fuel as [|fuel IH]; intros placed ready incoming slots ordered Hp Hf.
  { pose proof (placing_len _ _ _ _ _ Hp). pose proof (zlen_nonneg ready). unfold zlen in *. lia. }
  destruct ready as [|x ready].
  - exists placed, incoming, slots. cbn [drain]. pose proof (pl_ordered _ _ _ _ _ Hp) as Ho. rewrite Ho in Hp |- *. done.
  - destruct (placing_step _ _ _ _ _ _ Hp) as (t & inc' & new & Et & Es & Ef & Hp'). cbn [drain].
    assert (Hx : 0 <= x < zlen ts) by (pose proof (get_opt_Some _ _ _ Et); lia).
    rewrite Es. mon. rewrite idx_set_ok by (rewrite (pl_len _ _ _ _ _ Hp); lia). mon. unfold idx. rewrite (Hout x Hx). mon. rewrite Ef. mon.
    apply (IH _ _ _ _ _ Hp'). rewrite length_app. cbn. lia.
Qed.

End Placing.

(** ** The ends of the transitions *)

Section Ends.
Context {RB : Roaring} {RL : RoaringLaws RB}.

Definition dest_ids (ts : list Transition) : list Z := flat_map (fun t => map fd_id (destinations t)) ts.
Definition source_ids (ts : list Transition) : list Z := flat_map (fun t => map fd_id (sources t)) ts.

(** The digests have fragment ids below the tombstone. *)
Definition digest_typed (d : FragmentDigest) : Prop := 0 <= fd_id d < TOMBSTONE_FRAG.
Definition transition_typed (t : Transition) : Prop := Forall digest_typed (sources t) /\ Forall digest_typed (destinations t).

(** The producers of the numbered transitions. *)
Definition produced (its : list (Z * Transition)) : list (Z * (Z * Z)) :=
  flat_map (fun it => map (fun d => (fd_id d, (fst it, fd_physical_rows d))) (destinations (snd it))) its.

Lemma produced_keys its : map fst (produced its) = dest_ids (map snd its).
Proof.
  unfold produced, dest_ids. induction its as [|it its IH]; [done|]. cbn [map flat_map]. rewrite map_app, IH, map_map. done.
Qed.

Lemma add_producers_spec i ds es : NoDup (map fst es) ->
  (NoDup (map fst es ++ map fd_id ds) /\
   fold_res (add_producer i) (list_to_map es) ds = Ok (list_to_map (es ++ map (fun d => (fd_id d, (i, fd_physical_rows d))) ds))) \/
  (~ NoDup (map fst es ++ map fd_id ds) /\ fold_res (add_producer i) (list_to_map es) ds = Err CorruptFile).
Proof.
  revert es. induction ds as [|d ds IH]; intros es Hes; [left; cbn; rewrite !app_nil_r; done|]. cbn [fold_res map]. unfold add_producer at 2 4.
  destruct (list_to_map es !! fd_id d) as [v|] eqn:El.
  - right. split; [|done]. apply elem_of_list_to_map_2 in El. intros (_ & Hno & _)%NoDup_app. apply (Hno (fd_id d)); [|left].
    apply list_elem_of_fmap. by exists (fd_id d, v).
  - mon. apply not_elem_of_list_to_map_2 in El. rewrite <- list_to_map_snoc by done.
    assert (Es : map fst (es ++ [(fd_id d, (i, fd_physical_rows d))]) = map fst es ++ [fd_id d]) by (by rewrite map_app).
    destruct (IH (es ++ [(fd_id d, (i, fd_physical_rows d))])) as [[Hnd E]|[Hnd E]]; rewrite ?Es in *.
    + apply NoDup_app. split; [done|]. split; [|apply NoDup_singleton]. intros x Hx ->%list_elem_of_singleton. done.
    + left. rewrite <- app_assoc in Hnd. split; [done|]. rewrite E, <- app_assoc. done.
    + right. rewrite <- app_assoc in Hnd. split; done.
Qed.

(** The bitmap holds the listed ids. *)
Definition holds_ids (b : bitmap) (l : list Z) : Prop := forall v, bm_contains b v = bool_decide (v ∈ l).

Lemma add_consumers_spec ss b l : Forall digest_typed ss -> holds_ids b l -> NoDup l ->
  (NoDup (l ++ map fd_id ss) /\ exists b', fold_res add_consumer b ss = Ok b' /\ holds_ids b' (l ++ map fd_id ss)) \/
  (~ NoDup (l ++ map fd_id ss) /\ fold_res add_consumer b ss = Err CorruptFile).
Proof.
  intros Hty. revert b l. induction Hty as [|s ss Hs Hty IH]; intros b l Hb Hl; [left; cbn; rewrite app_nil_r; eauto|]. cbn [fold_res map].
  assert (Hu : u32_ok (fd_id s)) by (unfold digest_typed, TOMBSTONE_FRAG in Hs; uok; lia).
  pose proof (bm_insert_changed b (fd_id s) Hu) as Hch. pose proof (fun w => bm_contains_insert b (fd_id s) w Hu) as Hin.
  assert (Ea : add_consumer b s = if negb (bool_decide (fd_id s ∈ l)) then Ok (fst (bm_insert b (fd_id s))) else Err CorruptFile).
  { rewrite <- Hb. unfold add_consumer. rewrite wrap32_small by done. destruct (bm_insert b (fd_id s)) as [b1 ins]. cbn [fst snd] in *. by subst ins. }
  rewrite Ea. clear Ea. revert Hin. generalize (fst (bm_insert b (fd_id s))) as b1. intros b1 Hin.
  destruct (bool_decide_reflect (fd_id s ∈ l)) as [Hm|Hm]; cbn [negb].
  - right. split; [|done]. intros (_ & Hno & _)%NoDup_app. apply (Hno (fd_id s)); [done|left].
  - mon. destruct (IH b1 (l ++ [fd_id s])) as [(Hnd & b' & E & Hb')|[Hnd E]].
    + intros v. rewrite Hin, Hb. destruct (Z.eqb_spec v (fd_id s)) as [->|Hne]; cbn [orb].
      * symmetry. apply bool_decide_true. apply elem_of_app. right. by apply list_elem_of_singleton.
      * apply bool_decide_ext. rewrite elem_of_app, list_elem_of_singleton. tauto.
    + apply NoDup_app. split; [done|]. split; [|apply NoDup_singleton]. intros x Hx ->%list_elem_of_singleton. done.
    + left. rewrite <- app_assoc in Hnd, Hb'. split; [done|]. by exists b'.
    + right. rewrite <- app_assoc in Hnd. done.
Qed.

Lemma collect_ends_loop its es b l : Forall (fun it => transition_typed (snd it)) its -> NoDup (map fst es) -> holds_ids b l -> NoDup l ->
  let ok := NoDup (map fst es ++ dest_ids (map snd its)) /\ NoDup (l ++ source_ids (map snd its)) in
  (ok /\ exists b', fold_res add_ends (list_to_map es, b) its = Ok (list_to_map (es ++ produced its), b')) \/
  (~ ok /\ fold_res add_ends (list_to_map es, b) its = Err CorruptFile).
Proof.
  intros Hty. revert es b l. induction Hty as [|[i t] its [Hts Htd] Hty IH]; intros es b l Hes Hb Hl ok.
  { left. unfold ok. cbn. rewrite !app_nil_r. eauto. }
  subst ok. cbn [fold_res map snd]. unfold add_ends at 2 4. cbn [fst snd] in *. unfold dest_ids, source_ids. cbn [flat_map]. rewrite !app_assoc.
  destruct (add_producers_spec i (destinations t) es Hes) as [[Hnd ->]|[Hnd ->]]; mon.
  - destruct (add_consumers_spec (sources t) b l Hts Hb Hl) as [(Hnl & b1 & -> & Hb1)|[Hnl ->]]; mon.
    + assert (Es : map fst (es ++ map (fun d => (fd_id d, (i, fd_physical_rows d))) (destinations t)) = map fst es ++ map fd_id (destinations t)) by (by rewrite map_app, map_map).
      destruct (IH (es ++ map (fun d => (fd_id d, (i, fd_physical_rows d))) (destinations t)) b1 (l ++ map fd_id (sources t))) as [[Hok [b' E]]|[Hok E]];
        [by rewrite Es|done|done|left|right]; rewrite Es in Hok; (split; [exact Hok|]).
      * exists b'. rewrite E. unfold produced. cbn [flat_map fst snd]. by rewrite app_assoc.
      * exact E.
    + right. split; [|done]. intros [_ Hno]. by apply NoDup_app in Hno as (Hno & _ & _).
  - right. split; [|done]. intros [Hno _]. by apply NoDup_app in Hno as (Hno & _ & _).
Qed.

Lemma collect_ends_spec ts : Forall transition_typed ts ->
  let ok := NoDup (dest_ids ts) /\ NoDup (source_ids ts) in
  (ok /\ exists b, collect_ends ts = Ok (list_to_map (produced (enumerate ts)), b)) \/ (~ ok /\ collect_ends ts = Err CorruptFile).
Proof.
  intros Hty. pose proof (map_snd_enumerate ts) as Es.
  pose proof (collect_ends_loop (enumerate ts) [] bm_new []) as H. cbn [map app] in H. rewrite Es in H. apply H; [|constructor| |constructor].
  - rewrite <- Es in Hty. rewrite Forall_map in Hty. exact Hty.
  - intros v. rewrite bm_contains_new. symmetry. apply bool_decide_false, not_elem_of_nil.
Qed.

End Ends.

(** ** The edges *)

Section Edges.
Context {RB : Roaring}.
Context (n : Z) (producers : gmap Z (Z * Z)) (Hprod : forall f p rows, producers !! f = Some (p, rows) -> 0 <= p < n).

Definition edge_of (c : Z) (s : FragmentDigest) : option (Z * Z) :=
  match producers !! fd_id s with Some (p, _) => Some (p, c) | None => None end.
Definition edges_of (its : list (Z * Transition)) : list (Z * Z) := flat_map (fun it => omap (edge_of (fst it)) (sources (snd it))) its.

(** A source has the rows its producer wrote. *)
Definition rows_agree (s : FragmentDigest) : Prop := forall p rows, producers !! fd_id s = Some (p, rows) -> fd_physical_rows s = rows.

Definition graph_holds (E : list (Z * Z)) (acc : list Z * list (list Z)) : Prop :=
  counts_hold n (fst acc) (pending E []) /\ zlen (snd acc) = n /\ forall p, 0 <= p < n -> get_opt (snd acc) p = Some (outs_of E p).

Lemma pending_app E1 E2 placed c : pending (E1 ++ E2) placed c = pending E1 placed c + pending E2 placed c.
Proof. unfold pending. by rewrite List.filter_app, zlen_app. Qed.

Lemma pending_one p c d : pending [(p, c)] [] d = if d =? c then 1 else 0.
Proof.
  rewrite pending_cons. cbn [fst snd]. rewrite (bool_decide_false (p ∈ [])) by apply not_elem_of_nil. rewrite (Z.eqb_sym c d).
  by destruct (d =? c).
Qed.

Lemma outs_app E1 E2 p : outs_of (E1 ++ E2) p = outs_of E1 p ++ outs_of E2 p.
Proof. unfold outs_of. by rewrite List.filter_app, map_app. Qed.

Lemma graph_add E acc p c : 0 <= p < n -> 0 <= c < n -> graph_holds E acc ->
  exists k inc out outs, idx (fst acc) c = Ok k /\ idx_set (fst acc) c (wrap_i32 (k + 1)) = Ok inc /\ idx (snd acc) p = Ok out /\
    idx_set (snd acc) p (out ++ [c]) = Ok outs /\ graph_holds (E ++ [(p, c)]) (inc, outs).
Proof.
  intros Hp Hc (Hi & Hl & Ho). destruct (counts_set n (fst acc) _ c 1 Hc Hi) as (inc & Ei & Hi').
  exists (wrap_i32 (pending E [] c)), inc, (outs_of E p), (<[Z.to_nat p := outs_of E p ++ [c]]> (snd acc)).
  unfold idx. rewrite (proj2 Hi c Hc), (Ho p Hp). split; [done|]. split; [done|]. split; [done|]. split; [apply idx_set_ok; lia|].
  split; [|split].
  - cbn [fst]. destruct Hi' as [Hn Hi']. split; [done|]. intros d Hd. rewrite Hi' by done. do 2 f_equal. rewrite pending_app, pending_one.
    destruct (Z.eqb_spec d c) as [->|]; lia.
  - cbn [snd]. unfold zlen in *. by rewrite length_insert.
  - intros q Hq. cbn [snd]. rewrite get_opt_insert by lia. rewrite outs_app. unfold outs_of at 3. cbn [List.filter fst]. rewrite (Z.eqb_sym p q).
    destruct (Z.eqb_spec q p) as [->|]; [done|]. cbn [map]. by rewrite app_nil_r, Ho.
Qed.

Lemma add_edge_fold c ss E acc : 0 <= c < n -> graph_holds E acc ->
  (Forall rows_agree ss /\ exists acc', fold_res (add_edge producers c) acc ss = Ok acc' /\ graph_holds (E ++ omap (edge_of c) ss) acc') \/
  (~ Forall rows_agree ss /\ fold_res (add_edge producers c) acc ss = Err CorruptFile).
Proof.
  intros Hc. revert E acc. induction ss as [|s ss IH]; intros E acc Hg.
  { left. cbn. rewrite app_nil_r. split; [constructor|by exists acc]. }
  cbn [fold_res]. assert (Hcons : rows_agree s -> Forall rows_agree (s :: ss) <-> Forall rows_agree ss) by (intros Hs; rewrite Forall_cons; tauto).
  destruct (producers !! fd_id s) as [[p rows]|] eqn:Ep.
  - destruct (Z.eq_dec (fd_physical_rows s) rows) as [Er|Er].
    + destruct (graph_add E acc p c (Hprod _ _ _ Ep) Hc Hg) as (k & inc & out & outs & E1 & E2 & E3 & E4 & Hg').
      assert (Ea : add_edge producers c acc s = Ok (inc, outs)).
      { destruct acc as [i o]. unfold add_edge. cbn [fst snd] in *. rewrite Ep, Er, Z.eqb_refl. cbn [negb]. rewrite E1. mon. rewrite E2. mon. rewrite E3. mon. by rewrite E4. }
      rewrite Ea. mon. rewrite Hcons by (intros p' r' E'; rewrite Ep in E'; by injection E' as <- <-).
      destruct (IH _ _ Hg') as [(Hr & acc' & E' & H')|[Hr E']]; [left|right; done]. split; [done|]. exists acc'. split; [done|].
      cbn [omap list_omap]. unfold edge_of at 1. rewrite Ep. by rewrite <- app_assoc in H'.
    + right. split; [intros Hf; inversion Hf as [|?? Hs _]; subst; exact (Er (Hs p rows Ep))|]. destruct acc as [i o]. unfold add_edge at 2. rewrite Ep.
      by destruct (Z.eqb_spec (fd_physical_rows s) rows).
  - assert (Ea : add_edge producers c acc s = Ok acc) by (destruct acc; unfold add_edge; by rewrite Ep). rewrite Ea. mon.
    rewrite Hcons by (intros p' r' E'; by rewrite Ep in E'). destruct (IH _ _ Hg) as [(Hr & acc' & E' & H')|[Hr E']]; [left|right; done].
    split; [done|]. exists acc'. split; [done|]. cbn [omap list_omap]. unfold edge_of at 1. by rewrite Ep.
Qed.

Lemma add_edges_fold its E acc : Forall (fun it => 0 <= fst it < n) its -> graph_holds E acc ->
  let ok := Forall (fun it => Forall rows_agree (sources (snd it))) its in
  (ok /\ exists acc', fold_res (add_edges producers) acc its = Ok acc' /\ graph_holds (E ++ edges_of its) acc') \/
  (~ ok /\ fold_res (add_edges producers) acc its = Err CorruptFile).
Proof.
  intros Hr. revert E acc. induction Hr as [|it its Hc Hr IH]; intros E acc Hg ok.
  { left. cbn. rewrite app_nil_r. split; [constructor|by exists acc]. }
  subst ok. cbn [fold_res]. unfold add_edges at 2 4. rewrite Forall_cons.
  destruct (add_edge_fold (fst it) (sources (snd it)) E acc Hc Hg) as [(Hok & acc' & -> & Hg')|[Hok ->]]; mon; [|right; split; [tauto|done]].
  destruct (IH _ _ Hg') as [(Hoks & acc'' & E' & Hg'')|[Hoks E']]; [left|right; split; [tauto|done]]. split; [done|]. exists acc''. split; [done|].
  unfold edges_of. cbn [flat_map]. by rewrite app_assoc.
Qed.

End Edges.

(** ** The order *)

Section Lineage.
Context {RB : Roaring} {RL : RoaringLaws RB}.

(** What makes a history consistent: a fragment has one producer and one
    consumer, which agree on its rows, and ranks of the fragments grow from the
    sources of a transition to its destinations. *)
Record lineage_ok (ts : list Transition) : Prop := {
  lo_producers : NoDup (dest_ids ts);
  lo_consumers : NoDup (source_ids ts);
  lo_rows t u d s : t ∈ ts -> u ∈ ts -> d ∈ destinations t -> s ∈ sources u -> fd_id d = fd_id s -> fd_physical_rows s = fd_physical_rows d;
  lo_acyclic : exists rank : Z -> nat, forall t s d, t ∈ ts -> s ∈ sources t -> d ∈ destinations t -> (rank (fd_id s) < rank (fd_id d))%nat
}.

(** Whoever produces a fragment comes before whoever consumes it. *)
Definition producers_first (o : list Transition) : Prop :=
  forall i j t u d s, get_opt o i = Some t -> get_opt o j = Some u -> d ∈ destinations t -> s ∈ sources u -> fd_id d = fd_id s -> i < j.

Section Graph.
Context (ts : list Transition) (Hty : Forall transition_typed ts) (Hd : NoDup (dest_ids ts)) (Hs : NoDup (source_ids ts)).

Definition producer_map : gmap Z (Z * Z) := list_to_map (produced (enumerate ts)).
Definition lineage_edges : list (Z * Z) := edges_of producer_map (enumerate ts).

Lemma producer_map_spec f p rows : producer_map !! f = Some (p, rows) <->
  exists t d, get_opt ts p = Some t /\ d ∈ destinations t /\ fd_id d = f /\ fd_physical_rows d = rows.
Proof.
  unfold producer_map. rewrite <- elem_of_list_to_map by (change (NoDup (map fst (produced (enumerate ts)))); by rewrite produced_keys, map_snd_enumerate).
  unfold produced. rewrite list_elem_of_In, in_flat_map. setoid_rewrite in_map_iff. setoid_rewrite <- list_elem_of_In. split.
  - intros ([i t] & Hi%enumerate_lookup & d & [= <- -> <-] & Hin). by exists t, d.
  - intros (t & d & Ht & Hin & <- & <-). exists (p, t). split; [by apply enumerate_lookup|]. by exists d.
Qed.

Lemma lineage_edge p c : (p, c) ∈ lineage_edges <->
  exists t u d s, get_opt ts p = Some t /\ get_opt ts c = Some u /\ d ∈ destinations t /\ s ∈ sources u /\ fd_id d = fd_id s.
Proof.
  unfold lineage_edges, edges_of. rewrite list_elem_of_In, in_flat_map. setoid_rewrite <- list_elem_of_In. split.
  - intros ([i u] & Hu%enumerate_lookup & (s & Hs' & Es)%list_elem_of_omap). cbn [fst snd] in *. unfold edge_of in Es.
    destruct (producer_map !! fd_id s) as [[q rows]|] eqn:Ep; [|done]. injection Es as <- <-.
    apply producer_map_spec in Ep as (t & d & Ht & Hin & Hid & _). by exists t, u, d, s.
  - intros (t & u & d & s & Ht & Hu & Hin & Hs' & Hid). exists (c, u). split; [by apply enumerate_lookup|]. apply list_elem_of_omap. exists s.
    split; [done|]. unfold edge_of. rewrite (proj2 (producer_map_spec (fd_id s) p (fd_physical_rows d))); [done|]. by exists t, d.
Qed.

Lemma zlen_edges its : zlen (edges_of producer_map its) <= zlen (source_ids (map snd its)).
Proof.
  induction its as [|it its IH]; [done|]. unfold edges_of, source_ids. cbn [flat_map map]. rewrite !zlen_app.
  assert (zlen (omap (edge_of producer_map (fst it)) (sources (snd it))) <= zlen (map fd_id (sources (snd it)))).
  { rewrite zlen_map. apply zlen_omap_le. }
  unfold edges_of, source_ids in IH. lia.
Qed.

Lemma edges_max c : pending lineage_edges [] c <= U32_MAX.
Proof.
  pose proof (zlen_edges (enumerate ts)) as Hl. rewrite map_snd_enumerate in Hl. fold lineage_edges in Hl.
  assert (zlen (source_ids ts) <= TOMBSTONE_FRAG).
  { apply values_len_le; [done|done|]. unfold source_ids. apply Forall_forall. intros x Hx. apply list_elem_of_In, in_flat_map in Hx as (t & Ht & Hx).
    apply in_map_iff in Hx as (d & <- & Hin). apply list_elem_of_In in Ht, Hin.
    exact (proj1 (Forall_forall _ _) (proj1 (proj1 (Forall_forall _ _) Hty t Ht)) d Hin). }
  assert (pending lineage_edges [] c <= zlen lineage_edges) by (unfold pending, zlen; apply Nat2Z.inj_le, List.filter_length_le).
  unfold TOMBSTONE_FRAG in *. lia.
Qed.

Lemma edges_range : Forall (fun e => 0 <= fst e < zlen ts /\ 0 <= snd e < zlen ts) lineage_edges.
Proof.
  apply Forall_forall. intros [p c] (t & u & d & s & Ht & Hu & _)%lineage_edge. apply get_opt_Some in Ht, Hu. cbn. lia.
Qed.

Lemma graph_start n : 0 <= n -> graph_holds n [] (replicate (Z.to_nat n) 0, replicate (Z.to_nat n) []).
Proof.
  intros Hn. assert (Hg : forall A (x : A) c, 0 <= c < n -> get_opt (replicate (Z.to_nat n) x) c = Some x).
  { intros A x c Hc. unfold get_opt. rewrite (proj2 (Z.leb_le 0 c)) by lia. apply lookup_replicate_2. lia. }
  unfold graph_holds, counts_hold, zlen. cbn [fst snd]. rewrite !length_replicate. split; [split; [lia|]|split; [lia|]].
  - intros c Hc. by rewrite Hg.
  - intros p Hp. by rewrite Hg.
Qed.

Lemma edges_collected :
  (Forall (fun it => Forall (rows_agree producer_map) (sources (snd it))) (enumerate ts) /\
   exists acc, collect_edges producer_map ts = Ok acc /\ graph_holds (zlen ts) lineage_edges acc) \/
  (~ Forall (fun it => Forall (rows_agree producer_map) (sources (snd it))) (enumerate ts) /\ collect_edges producer_map ts = Err CorruptFile).
Proof.
  unfold collect_edges. replace (length ts) with (Z.to_nat (zlen ts)) by (unfold zlen; lia). pose proof (zlen_nonneg ts).
  assert (Hp : forall f p rows, producer_map !! f = Some (p, rows) -> 0 <= p < zlen ts)
    by (intros f p rows (t & d & Ht%get_opt_Some & _)%producer_map_spec; lia).
  exact (add_edges_fold (zlen ts) producer_map Hp (enumerate ts) [] _ (enumerate_bounds ts) (graph_start (zlen ts) ltac:(lia))).
Qed.

Lemma placing_start acc : graph_holds (zlen ts) lineage_edges acc ->
  placing ts lineage_edges [] (map fst (List.filter (fun p => snd p =? 0) (enumerate (fst acc)))) (fst acc) (map Some ts) [].
Proof.
  intros (Hc & _ & _). pose proof Hc as [Hn Hg].
  assert (Hin : forall c, c ∈ map fst (List.filter (fun p => snd p =? 0) (enumerate (fst acc))) <-> get_opt (fst acc) c = Some 0).
  { intros c. rewrite list_elem_of_In, in_map_iff. setoid_rewrite filter_In. setoid_rewrite <- list_elem_of_In. split.
    - intros ([i x] & <- & Hi%enumerate_lookup & Hz%Z.eqb_eq). cbn in *. by subst.
    - intros Hz. exists (c, 0). split; [done|]. split; [by apply enumerate_lookup|done]. }
  split; cbn [app].
  - apply ssorted_NoDup, ssorted_enumerate_filter.
  - apply Forall_forall. intros c Hz%Hin%get_opt_Some. lia.
  - done.
  - by rewrite zlen_map.
  - intros c Hcn. rewrite get_opt_map, (bool_decide_false (c ∈ [])) by apply not_elem_of_nil. by destruct (get_opt ts c) eqn:Ec; [|apply get_opt_None in Ec; lia].
  - done.
  - intros c Hcn. rewrite Hin, Hg by done. pose proof (pending_nonneg lineage_edges [] c). pose proof (edges_max c). rewrite <- (wrap_i32_zero (pending lineage_edges [] c)) by lia.
    split; [by intros [= ->]|by intros ->].
  - intros l c r Hl. by destruct l.
Qed.

Definition rows_consistent : Prop := forall t u d s, t ∈ ts -> u ∈ ts -> d ∈ destinations t -> s ∈ sources u -> fd_id d = fd_id s -> fd_physical_rows s = fd_physical_rows d.

Lemma rows_agree_iff : Forall (fun it => Forall (rows_agree producer_map) (sources (snd it))) (enumerate ts) <-> rows_consistent.
Proof.
  rewrite Forall_forall. setoid_rewrite Forall_forall. split.
  - intros H t u d s Ht Hu Hdt Hsu Hid. apply elem_of_get_opt in Ht as [p Ht], Hu as [c Hu].
    apply (H (c, u) (proj2 (enumerate_lookup ts c u) Hu) s Hsu p (fd_physical_rows d)). apply producer_map_spec. by exists t, d.
  - intros H [c u] Hu%enumerate_lookup s Hsu p rows (t & d & Ht & Hdt & Hid & <-)%producer_map_spec. cbn [snd] in Hsu.
    apply (H t u d s); [apply elem_of_get_opt; eauto|apply elem_of_get_opt; eauto|done..].
Qed.

(** When the queue runs empty and the lineage has ranks, all are placed. *)
Lemma all_placed placed incoming slots ordered : placing ts lineage_edges placed [] incoming slots ordered ->
  (exists rank : Z -> nat, forall t s d, t ∈ ts -> s ∈ sources t -> d ∈ destinations t -> (rank (fd_id s) < rank (fd_id d))%nat) ->
  zlen placed = zlen ts.
Proof.
  intros Hp [rank Hrank]. pose proof (pl_nodup _ _ _ _ _ _ _ Hp) as Hnd. pose proof (pl_range _ _ _ _ _ _ _ Hp) as Hr. rewrite app_nil_r in Hnd, Hr.
  assert (Hk : forall k c u, get_opt ts c = Some u -> (forall s, s ∈ sources u -> (rank (fd_id s) < k)%nat) -> c ∈ placed).
  { induction k as [|k IH]; intros c u Hu Hs'; (assert (Hc : 0 <= c < zlen ts) by (apply get_opt_Some in Hu; lia));
      pose proof (pl_ready _ _ _ _ _ _ _ Hp c Hc) as Hrd; rewrite app_nil_r in Hrd; apply Hrd, pending_zero;
      intros p (t & u' & d & s & Ht & Hu' & Hdt & Hsu & Hid)%lineage_edge; rewrite Hu in Hu'; injection Hu' as <-; pose proof (Hs' s Hsu) as Hlt; [lia|].
    apply (IH p t Ht). intros s' Hs1. assert (Htin : t ∈ ts) by (apply elem_of_get_opt; eauto). pose proof (Hrank t s' d Htin Hs1 Hdt). rewrite Hid in *. lia. }
  assert (Hbound : forall u : Transition, exists k, forall s, s ∈ sources u -> (rank (fd_id s) < k)%nat).
  { intros u. exists (S (foldr max 0 (map (fun s => rank (fd_id s)) (sources u))))%nat. induction (sources u) as [|x l IH]; intros s Hs'; [by apply not_elem_of_nil in Hs'|].
    cbn. apply elem_of_cons in Hs' as [->|Hs']; [lia|]. specialize (IH s Hs'). lia. }
  apply (all_values_len placed (zlen ts)); [apply zlen_nonneg|done|done|]. intros c Hc. destruct (get_opt ts c) as [u|] eqn:Hu; [|apply get_opt_None in Hu; lia].
  destruct (Hbound u) as [k Hk']. by apply (Hk k c u).
Qed.

Lemma omap_get_all l : Forall (fun c => 0 <= c < zlen ts) l -> forall i, get_opt (omap (get_opt ts) l) i = c ← get_opt l i; get_opt ts c.
Proof.
  induction 1 as [|c l Hc Hl IH]; intros i; [unfold get_opt; by destruct (0 <=? i)|]. cbn [omap list_omap]. destruct (get_opt ts c) as [t|] eqn:Et; [|apply get_opt_None in Et; lia].
  rewrite !get_opt_cons. destruct (i =? 0); [by cbn; rewrite Et|]. apply IH.
Qed.
(** *** A full placement is an order *)

Fixpoint position (p : Z) (l : list Z) : nat := match l with [] => O | x :: l => if x =? p then O else S (position p l) end.

Lemma position_before p l r : p ∈ l -> (position p (l ++ r) < length l)%nat.
Proof.
  induction l as [|x l IH]; [by intros ?%not_elem_of_nil|]. intros [->|Hp]%elem_of_cons; cbn; [rewrite Z.eqb_refl; lia|].
  destruct (x =? p); [lia|]. specialize (IH Hp). lia.
Qed.

Lemma position_at c l r : c ∉ l -> position c (l ++ c :: r) = length l.
Proof.
  induction l as [|x l IH]; intros Hc; cbn; [by rewrite Z.eqb_refl|]. apply not_elem_of_cons in Hc as [Hne Hc].
  destruct (Z.eqb_spec x c); [done|]. by rewrite IH.
Qed.

Section Placed.
Context (placed incoming : list Z) (slots : list (option Transition)) (ordered : list Transition).
Context (Hp : placing ts lineage_edges placed [] incoming slots ordered) (Hall : zlen placed = zlen ts).

Lemma placed_nodup : NoDup placed /\ Forall (fun c => 0 <= c < zlen ts) placed.
Proof. pose proof (pl_nodup _ _ _ _ _ _ _ Hp). pose proof (pl_range _ _ _ _ _ _ _ Hp). by rewrite app_nil_r in *. Qed.

Lemma placed_perm : omap (get_opt ts) placed ≡ₚ ts.
Proof.
  destruct placed_nodup as [Hnd Hr]. assert (Hq : placed ≡ₚ seqZ 0 (zlen ts)).
  { apply submseteq_length_Permutation.
    - apply NoDup_submseteq; [done|]. intros c Hc. apply elem_of_seqZ. apply (proj1 (Forall_forall _ _) Hr) in Hc. lia.
    - rewrite length_seqZ. unfold zlen in *. lia. }
  by rewrite Hq, omap_get_opt.
Qed.

Lemma placed_before l c r p : placed = l ++ c :: r -> (p, c) ∈ lineage_edges -> p ∈ l.
Proof. intros E Hin. by apply (pl_before _ _ _ _ _ _ _ Hp l c r E p). Qed.

Lemma placed_first : producers_first (omap (get_opt ts) placed).
Proof.
  destruct placed_nodup as [Hnd Hr]. intros i j t u d s Hi Hj Hdt Hsu Hid. rewrite omap_get_all in Hi, Hj by done.
  destruct (get_opt placed i) as [p|] eqn:Ei; [|done]. destruct (get_opt placed j) as [c|] eqn:Ej; [|done]. cbn in Hi, Hj.
  assert (He : (p, c) ∈ lineage_edges) by (apply lineage_edge; by exists t, u, d, s).
  pose proof (get_opt_Some _ _ _ Ei). pose proof (get_opt_Some _ _ _ Ej). unfold get_opt in Ei, Ej.
  rewrite (proj2 (Z.leb_le 0 i)) in Ei by lia. rewrite (proj2 (Z.leb_le 0 j)) in Ej by lia.
  pose proof (take_drop_middle placed (Z.to_nat j) c Ej) as Es. symmetry in Es. pose proof (placed_before _ _ _ _ Es He) as Hin.
  apply list_elem_of_lookup in Hin as [k Hk]. apply lookup_take_Some in Hk as [Hk Hkl]. pose proof (NoDup_lookup placed _ _ _ Hnd Hk Ei). lia.
Qed.

(** The place of its producer ranks a fragment. *)
Definition place_rank (f : Z) : nat := match producer_map !! f with Some (p, _) => S (position p placed) | None => O end.

Lemma placed_ranks t s d : t ∈ ts -> s ∈ sources t -> d ∈ destinations t -> (place_rank (fd_id s) < place_rank (fd_id d))%nat.
Proof.
  intros [c Hc]%elem_of_get_opt Hst Hdt. destruct placed_nodup as [Hnd Hr]. unfold place_rank.
  rewrite (proj2 (producer_map_spec (fd_id d) c (fd_physical_rows d))) by (by exists t, d).
  destruct (producer_map !! fd_id s) as [[p rows]|] eqn:Ep; [|lia]. apply producer_map_spec in Ep as (t' & d' & Ht' & Hd' & Hid & _).
  assert (He : (p, c) ∈ lineage_edges) by (apply lineage_edge; by exists t', t, d', s).
  assert (Hin : c ∈ placed).
  { apply (proj1 (all_values_len placed (zlen ts) (zlen_nonneg ts) Hnd Hr) Hall). apply get_opt_Some in Hc. lia. }
  apply list_elem_of_split in Hin as (l & r & El). pose proof (placed_before l c r p El He) as Hpl.
  rewrite El in Hnd. apply NoDup_app in Hnd as (_ & Hno & _). rewrite El, (position_at c l r) by (intros Hcl; apply (Hno c Hcl); left).
  pose proof (position_before p l (c :: r) Hpl). lia.
Qed.

End Placed.

End Graph.

Lemma order_lineage_total ts : Forall transition_typed ts ->
  (lineage_ok ts /\ exists o, order_lineage ts = Ok o /\ o ≡ₚ ts /\ producers_first o) \/ (~ lineage_ok ts /\ order_lineage ts = Err CorruptFile).
Proof.
  intros Hty. unfold order_lineage. destruct (collect_ends_spec ts Hty) as [([Hd Hs] & b & ->)|[Hno ->]]; mon; [|right; split; [by intros []; apply Hno|done]].
  fold (producer_map ts). destruct (edges_collected ts Hd) as [(Hr & [incoming outgoing] & -> & Hg)|[Hr ->]]; mon; rewrite rows_agree_iff in Hr by done.
  - destruct (drain_places ts (lineage_edges ts) outgoing (edges_range ts Hd) (proj2 (proj2 Hg)) (edges_max ts Hty Hs) (S (length ts)) [] _ _ _ _
      (placing_start ts Hty Hs _ Hg)) as (placed & inc' & slots' & E & Hp); [cbn; lia|]. cbn [fst] in E. rewrite E. mon.
    destruct (placed_nodup ts placed _ _ _ Hp) as [Hnd Hrg].
    assert (Hlen : zlen (omap (get_opt ts) placed) = zlen placed).
    { clear -Hrg. induction Hrg as [|c l Hc Hl IH]; [done|]. cbn [omap list_omap]. destruct (get_opt ts c) eqn:Et; [|apply get_opt_None in Et; lia].
      rewrite !zlen_cons. f_equal. exact IH. }
    rewrite Hlen. destruct (Z.eqb_spec (zlen placed) (zlen ts)) as [Hall|Hall]; cbn [negb].
    + left. split.
      * split; [done|done|exact Hr|]. exists (place_rank ts placed). intros t s d. by apply (placed_ranks ts Hd placed _ _ _ Hp Hall).
      * eexists. split; [done|]. split; [by apply (placed_perm ts placed _ _ _ Hp)|by apply (placed_first ts Hd placed _ _ _ Hp)].
    + right. split; [|done]. intros [_ _ _ Hac]. apply Hall. by apply (all_placed ts Hd placed _ _ _ Hp).
  - right. split; [|done]. intros [_ _ H _]. by apply Hr.
Qed.

(** C22: ordering a history gives all its transitions, every producer of a
    fragment before the consumer, exactly when the history is consistent: no
    fragment is produced or consumed twice, producer and consumer agree on its
    rows, and the lineage has no cycle.  Any other history is a corrupt file. *)
Theorem order_lineage_sorts ts : Forall transition_typed ts ->
  (lineage_ok ts -> exists o, order_lineage ts = Ok o /\ o ≡ₚ ts /\ producers_first o) /\
  (~ lineage_ok ts -> order_lineage ts = Err CorruptFile).
Proof. intros Hty. destruct (order_lineage_total ts Hty) as [[Hl Ho]|[Hl Ho]]; split; intros H; done. Qed.

End Lineage.

(** ** Examples *)

Module LedgerOrderExamples.

#[local] Existing Instance CofiniteRoaring.
#[local] Existing Instance CofiniteRoaring_laws.

Definition digest (f rows : Z) : FragmentDigest := mkDigest f rows 0.

(** A transition between fragments of two rows. *)
Definition moved (from to : list Z) : Transition :=
  mkTransition [] (map (fun f => digest f 2) from) (map (fun f => digest f 2) to) (StablePartition (mkStablePartitionRef String.EmptyString 1 None)) None.

(** The last rewrite is recorded first. *)
Definition history : list Transition := [moved [6; 7] [8]; moved [5] [6; 9]; moved [1] [5]].

Lemma history_typed : Forall transition_typed history.
Proof. repeat (constructor; [split; repeat (constructor; [split; by vm_compute|]); constructor|]). constructor. Qed.

Lemma history_ok : lineage_ok history.
Proof.
  split.
  - apply (bool_decide_unpack (NoDup _)). by vm_compute.
  - apply (bool_decide_unpack (NoDup _)). by vm_compute.
  - intros t u d s Ht Hu Hd Hs _. assert (H : Forall (fun t => Forall (fun d => fd_physical_rows d = 2) (sources t ++ destinations t)) history) by (repeat constructor).
    pose proof (proj1 (Forall_forall _ _) H t Ht) as H1. pose proof (proj1 (Forall_forall _ _) H u Hu) as H2.
    rewrite (proj1 (Forall_forall _ _) H1 d), (proj1 (Forall_forall _ _) H2 s); [done|apply elem_of_app; by left|apply elem_of_app; by right].
  - exists Z.to_nat. intros t s d Ht Hs Hd.
    assert (H : forallb (fun t => forallb (fun s => forallb (fun d => fd_id s <? fd_id d) (destinations t)) (sources t)) history = true) by (by vm_compute).
    rewrite forallb_forall in H. specialize (H t (proj1 (list_elem_of_In _ _) Ht)). rewrite forallb_forall in H. specialize (H s (proj1 (list_elem_of_In _ _) Hs)).
    rewrite forallb_forall in H. specialize (H d (proj1 (list_elem_of_In _ _) Hd)). apply Z.ltb_lt in H.
    assert (Hp : 0 <= fd_id s) by (apply (proj1 (Forall_forall _ _) history_typed) in Ht as [Hts _]; by apply (proj1 (Forall_forall _ _) Hts)). lia.
Qed.

Lemma order_lineage_sorts_witness : (exists o, order_lineage history = Ok o /\ o ≡ₚ history /\ producers_first o) /\
  order_lineage (moved [8] [1] :: history) = Err CorruptFile.
Proof.
  split; [exact (proj1 (order_lineage_sorts history history_typed) history_ok)|].
  apply (order_lineage_sorts (moved [8] [1] :: history)).
  { constructor; [split; repeat (constructor; [split; by vm_compute|]); constructor|exact history_typed]. }
  intros [_ _ _ [rank Hr]]. unfold history in Hr.
  pose proof (Hr (moved [8] [1]) (digest 8 2) (digest 1 2) ltac:(left) ltac:(left) ltac:(left)).
  pose proof (Hr (moved [1] [5]) (digest 1 2) (digest 5 2) ltac:(right; right; right; left) ltac:(left) ltac:(left)).
  pose proof (Hr (moved [5] [6; 9]) (digest 5 2) (digest 6 2) ltac:(right; right; left) ltac:(left) ltac:(left)).
  pose proof (Hr (moved [6; 7] [8]) (digest 6 2) (digest 8 2) ltac:(right; left) ltac:(left) ltac:(left)). cbn in *. lia.
Defined.

End LedgerOrderExamples.
