(* ===== verification/LedgerDecode.v ===== *)
(** * Decoding the fragment reuse history

    Any bytes decode to a consistent history or are refused: the digests of
    every transition are valid and conserve the live rows, a compaction's mapping
    moves the surviving rows in order, and the lineage is ordered. *)

From Stdlib Require Import ZArith Lia.
From stdpp Require Import base option list numbers sorting sets gmap strings.
From S2P Require Import Prelude Lists Bits RowAddress HoleRuns SegmentBuild Sequence Itertools Roaring Prost RankedOffsets Remap RemapChain FragmentReuse Ledger LedgerOrder.

(** ** What the decoder relies on *)

(** The fields of a decoded digest are [u64]. *)
Definition digest_fields (d : FragmentDigest) : Prop := u64_ok (fd_id d) /\ u64_ok (fd_physical_rows d) /\ u64_ok (fd_num_deleted_rows d).
Definition digests_fields (ds : list FragmentDigest) : Prop := Forall digest_fields ds.

(** The members of a treemap, in ascending order. *)
Definition at_members {RB : Roaring} {TP : TreemapParts RB} (t : addr_treemap) : list Z :=
  flat_map (fun p => frag_addrs (fst p) (bm_iter (snd p))) (at_bitmaps t).

(** A field is skipped by dropping its bytes; a decoded message has values of
    its types, and its byte fields were in the input; the serialized form of a
    treemap has a four-byte header for each container of at most 65536 values;
    [range_cardinality] counts the members in the range. *)
Class ReuseCodecLaws {RB : Roaring} {TP : TreemapParts RB} (RC : ReuseCodec RB TP) : Prop := {
  skip_field_suffix w tag b rest : skip_field w tag b = Some rest -> exists p, b = p ++ rest;
  decode_version_typed b v : decode_version_msg b = Some v -> Forall (fun g => digests_fields (pg_old_fragments g) /\ digests_fields (pg_new_fragments g) /\
    zlen (pg_changed_row_addrs g) <= zlen b) (pv_groups v);
  decode_transition_typed b t : decode_transition_msg b = Some t -> digests_fields (pt_sources t) /\ digests_fields (pt_destinations t) /\
    forall bytes, pt_mapping t = Some (PbOrderedCompaction bytes) -> zlen bytes <= zlen b;
  at_deserialize_size b t position : at_deserialize b = Some (t, position) -> 4 * addr_count t <= 65536 * zlen b;
  at_range_cardinality_ok t r : at_range_cardinality t r = zlen (List.filter (fun a => (start r <=? a) && (a <? end_ r)) (at_members t))
}.

(** ** Digests *)

Definition live_rows (ds : list FragmentDigest) : Z := zsum (map (fun d => fd_physical_rows d - fd_num_deleted_rows d) ds).

(** A digest of a fragment of a row address, with at most its rows deleted, none
    of a new fragment. *)
Definition digest_ok (is_destination : bool) (d : FragmentDigest) : Prop :=
  0 <= fd_id d < TOMBSTONE_FRAG /\ 0 <= fd_num_deleted_rows d <= fd_physical_rows d /\ fd_physical_rows d <= U32_MAX /\
  (is_destination = true -> fd_num_deleted_rows d = 0).
Definition digests_ok (is_destination : bool) (ds : list FragmentDigest) : Prop :=
  Forall (digest_ok is_destination) ds /\ NoDup (map fd_id ds).

Lemma zsum_le_len l m : Forall (fun x => x <= m) l -> zsum l <= zlen l * m.
Proof. induction 1 as [|x l Hx _ IH]; [done|]. rewrite zlen_cons. cbn [zsum foldr]. unfold zsum in IH. lia. Qed.

(** The rows of one side fit into 64 bits. *)
Lemma live_rows_max is_destination ds : digests_ok is_destination ds -> 0 <= live_rows ds <= U64_MAX.
Proof.
  intros [Hd Hn]. split.
  - unfold live_rows. clear Hn. induction Hd as [|d ds (_ & ? & _) _ IH]; [done|]. cbn [map zsum foldr]. unfold zsum in IH. lia.
  - assert (zlen (map fd_id ds) <= TOMBSTONE_FRAG).
    { apply values_len_le; [done|done|]. apply Forall_map. eapply Forall_impl; [exact Hd|]. by intros d (? & _). }
    unfold live_rows. etransitivity; [apply (zsum_le_len _ U32_MAX)|rewrite zlen_map in *; unfold TOMBSTONE_FRAG in *; nia].
    apply Forall_map. eapply Forall_impl; [exact Hd|]. intros d (_ & ? & ? & _). cbn. lia.
Qed.

Section Digests.
Context {RB : Roaring} {RL : RoaringLaws RB}.

Lemma live_rows_snoc l d : live_rows (l ++ [d]) = live_rows l + (fd_physical_rows d - fd_num_deleted_rows d).
Proof. unfold live_rows. rewrite map_app, zsum_app. cbn. lia. Qed.

Lemma validate_digest_spec is_dest l b d : digest_fields d -> digests_ok is_dest l -> holds_ids b (map fd_id l) ->
  (digests_ok is_dest (l ++ [d]) /\ exists b', validate_digest is_dest (b, live_rows l) d = Ok (b', live_rows (l ++ [d])) /\ holds_ids b' (map fd_id (l ++ [d]))) \/
  (~ digests_ok is_dest (l ++ [d]) /\ validate_digest is_dest (b, live_rows l) d = Err CorruptFile).
Proof.
  intros (Hu1 & Hu2 & Hu3) Hl Hb. unfold validate_digest. uok.
  assert (Hdig : digests_ok is_dest (l ++ [d]) <-> digest_ok is_dest d /\ fd_id d ∉ map fd_id l).
  { unfold digests_ok. rewrite Forall_app, Forall_singleton, map_app. cbn [map]. destruct Hl as [Hl1 Hl2]. split.
    - intros [[_ ?] (_ & Hno & _)%NoDup_app]. split; [done|]. intros Hin. apply (Hno _ Hin). left.
    - intros [? Hno]. split; [done|]. apply NoDup_app. split; [done|]. split; [|apply NoDup_singleton]. by intros x Hx ->%list_elem_of_singleton. }
  destruct ((TOMBSTONE_FRAG <=? fd_id d) || (U32_MAX <? fd_physical_rows d) || (fd_physical_rows d <? fd_num_deleted_rows d)) eqn:Ebad.
  { right. split; [|done]. rewrite Hdig. intros [(? & ? & ? & _) _]. rewrite !orb_true_iff, Z.leb_le, !Z.ltb_lt in Ebad. lia. }
  rewrite !orb_false_iff, Z.leb_gt, !Z.ltb_ge in Ebad. assert (Hu : u32_ok (fd_id d)) by (unfold TOMBSTONE_FRAG in Ebad; uok; lia). rewrite wrap32_small by done.
  pose proof (bm_insert_changed b (fd_id d) Hu) as Hch. pose proof (fun w => bm_contains_insert b (fd_id d) w Hu) as Hin.
  destruct (bm_insert b (fd_id d)) as [b1 ins]. cbn [fst snd] in *. subst ins. rewrite (Hb (fd_id d)).
  destruct (bool_decide_reflect (fd_id d ∈ map fd_id l)) as [Hm|Hm]; cbn [negb]; [right; split; [rewrite Hdig; tauto|done]|].
  destruct (is_dest && negb (fd_num_deleted_rows d =? 0)) eqn:Edest.
  { right. split; [|done]. rewrite Hdig. intros [(_ & _ & _ & Hz) _]. apply andb_prop in Edest as [-> Edest]. rewrite Hz in Edest by done. done. }
  assert (Hd : digests_ok is_dest (l ++ [d])).
  { rewrite Hdig. split; [|done]. split; [lia|]. split; [lia|]. split; [lia|]. intros ->. cbn in Edest. apply negb_false_iff, Z.eqb_eq in Edest. done. }
  left. split; [done|]. exists b1. pose proof (live_rows_max _ _ Hd). rewrite live_rows_snoc in *. unfold checked_add. rewrite (proj2 (Z.leb_le _ _)) by lia. mon. split; [done|].
  intros v. rewrite Hin, Hb, map_app. cbn [map]. destruct (Z.eqb_spec v (fd_id d)) as [->|Hne]; cbn [orb].
  - symmetry. apply bool_decide_true, elem_of_app. right. by apply list_elem_of_singleton.
  - apply bool_decide_ext. rewrite elem_of_app, list_elem_of_singleton. tauto.
Qed.

Lemma validate_digests_total is_dest ds : digests_fields ds ->
  (digests_ok is_dest ds /\ validate_digests ds is_dest = Ok (live_rows ds)) \/ (~ digests_ok is_dest ds /\ validate_digests ds is_dest = Err CorruptFile).
Proof.
  intros Hf. unfold validate_digests.
  enough (G : forall l b, digests_ok is_dest l -> holds_ids b (map fd_id l) ->
    (digests_ok is_dest (l ++ ds) /\ exists b', fold_res (validate_digest is_dest) (b, live_rows l) ds = Ok (b', live_rows (l ++ ds))) \/
    (~ digests_ok is_dest (l ++ ds) /\ fold_res (validate_digest is_dest) (b, live_rows l) ds = Err CorruptFile)).
  { destruct (G [] bm_new) as [(H & b' & E)|[H E]]; [split; constructor| | |].
    - intros v. rewrite bm_contains_new. symmetry. apply bool_decide_false, not_elem_of_nil.
    - left. split; [done|]. change 0 with (live_rows []). by rewrite E.
    - right. split; [done|]. change 0 with (live_rows []). by rewrite E. }
  induction Hf as [|d ds Hd Hf IH]; intros l b Hl Hb; [left; rewrite app_nil_r; eauto|].
  assert (Ea : l ++ d :: ds = (l ++ [d]) ++ ds) by (by rewrite <- app_assoc). cbn [fold_res].
  destruct (validate_digest_spec is_dest l b d Hd Hl Hb) as [(Hl' & b' & E & Hb')|[Hl' E]]; rewrite E; mon.
  - rewrite Ea. by apply IH.
  - right. split; [|done]. rewrite Ea. intros [H1 H2]. apply Hl'. rewrite map_app in H2. apply NoDup_app in H2 as (H2 & _ & _). apply Forall_app in H1 as [H1 _]. done.
Qed.

End Digests.

(** ** The mapping of a transition *)

Section Transitions.
Context {RB : Roaring} {RL : RoaringLaws RB} {RR : RoaringRanks RB} {RRL : RoaringRanksLaws RR}
  {TP : TreemapParts RB} {TPL : TreemapPartsLaws TP} {HO : HashOrder} {HOL : HashOrderLaws HO} {RC : ReuseCodec RB TP} {RCL : ReuseCodecLaws RC}.

Lemma pick_bitmap f (l : list (Z * bitmap)) : NoDup (map fst l) ->
  zsum (map (fun p => if fst p =? f then bm_len (snd p) else 0) l) = bm_len (default bm_new ((list_to_map l : gmap Z bitmap) !! f)).
Proof.
  induction l as [|[k b] l IH]; intros Hn; [symmetry; apply bm_len_new|]. cbn [map fst snd] in *. inversion Hn as [|?? Hk Hn']; subst. cbn [list_to_map foldr uncurry].
  cbn [zsum foldr]. fold (zsum (map (fun p => if fst p =? f then bm_len (snd p) else 0) l)). change (foldr (fun p => <[p.1:=p.2]>) ∅ l) with (list_to_map l : gmap Z bitmap).
  destruct (Z.eqb_spec k f) as [->|Hne].
  - rewrite lookup_insert_eq. cbn [default]. rewrite IH by done. rewrite (not_elem_of_list_to_map_1 l f Hk). cbn [default]. rewrite bm_len_new. cbn. lia.
  - rewrite lookup_insert_ne by done. rewrite IH by done. lia.
Qed.

Lemma zlen_filter_flat_map {A B} (P : B -> bool) (g : A -> list B) l : zlen (List.filter P (flat_map g l)) = zsum (map (fun x => zlen (List.filter P (g x))) l).
Proof. induction l as [|x l IH]; [done|]. cbn [flat_map map zsum foldr]. rewrite List.filter_app, zlen_app, IH. done. Qed.

(** The members in a fragment's address range are its rows. *)
Lemma cardinality_of_fragment t f : 0 <= f < TOMBSTONE_FRAG -> at_range_cardinality t (address_range f) = bm_len (bitmap_of t f).
Proof.
  unfold TOMBSTONE_FRAG. intros Hf. rewrite at_range_cardinality_ok. unfold at_members. rewrite zlen_filter_flat_map. unfold bitmap_of. rewrite <- pick_bitmap by apply at_keys_nodup.
  f_equal. apply map_ext_in. intros [k b] Hin%list_elem_of_In. cbn [fst snd].
  assert (Hk : u32_ok k) by (apply (proj1 (Forall_forall _ _) (at_keys_u32 t)); by apply (list_elem_of_fmap_2 fst _ (k, b))).
  unfold address_range, first_row. cbn [start end_]. assert (Hfu : u32_ok f) by (uok; lia). assert (Hf1 : u32_ok (f + 1)) by (uok; lia). rewrite (wrap32_small (f + 1)) by done.
  rewrite !new_from_parts_eq by (done || uok; lia).
  assert (Hall : Forall (fun a => (f * 4294967296 + 0 <=? a) && (a <? (f + 1) * 4294967296 + 0) = (k =? f)) (frag_addrs k (bm_iter b))).
  { unfold frag_addrs. apply Forall_map, Forall_forall. intros v Hv%bm_iter_elem%bm_contains_u32. rewrite new_from_parts_eq by done. uok.
    destruct (Z.eqb_spec k f) as [->|]; [rewrite andb_true_iff, Z.leb_le, Z.ltb_lt; lia|]. rewrite andb_false_iff, Z.leb_gt, Z.ltb_ge. lia. }
  rewrite (filter_ext_in _ (fun _ => k =? f)) by (intros a Ha%list_elem_of_In; exact (proj1 (Forall_forall _ _) Hall a Ha)).
  rewrite bm_len_iter. unfold frag_addrs. destruct (k =? f).
  - rewrite <- (zlen_map (new_from_parts k) (bm_iter b)). f_equal. induction (map (new_from_parts k) (bm_iter b)); [done|]. cbn. by f_equal.
  - by induction (map (new_from_parts k) (bm_iter b)).
Qed.

Definition survivors_agree (t : addr_treemap) (ds : list FragmentDigest) : Prop :=
  Forall (fun s => bm_len (bitmap_of t (fd_id s)) = fd_physical_rows s - fd_num_deleted_rows s) ds.

Lemma check_survivors_spec t ds : Forall (digest_ok false) ds ->
  (survivors_agree t ds /\ check_survivors t ds = Ok tt) \/ (~ survivors_agree t ds /\ check_survivors t ds = Err CorruptFile).
Proof.
  induction 1 as [|d ds (Hid & Hdel & Hrows & _) Hd IH]; [left; split; [constructor|done]|]. unfold check_survivors, survivors_agree in *. cbn [fold_res]. rewrite Forall_cons.
  rewrite (wrap32_small (fd_id d)) by (unfold TOMBSTONE_FRAG in Hid; uok; lia). rewrite cardinality_of_fragment by done.
  rewrite wrap64_small by (uok; lia). destruct (Z.eqb_spec (bm_len (bitmap_of t (fd_id d))) (fd_physical_rows d - fd_num_deleted_rows d)); cbn [negb]; mon; [tauto|right; tauto].
Qed.

(** The group a compaction stands for. *)
Definition compaction_of (t : addr_treemap) (srcs dsts : list FragmentDigest) : GroupSpec :=
  spec_of_layout (mkGroupInputWithLayout t (layout srcs) (layout dsts)).

Lemma layout_frags ds is_dest : digests_ok is_dest ds -> frags_ok (layout ds) /\ map fst (layout ds) = map fd_id ds /\ map snd (layout ds) = map fd_physical_rows ds.
Proof.
  intros [Hd _]. unfold frags_ok, layout. rewrite !map_map. cbn [fst snd].
  assert (H : forall d, d ∈ ds -> u32_ok (fd_id d) /\ u32_ok (fd_physical_rows d)).
  { intros d Hin. apply (proj1 (Forall_forall _ _) Hd) in Hin as (? & ? & ? & _). unfold TOMBSTONE_FRAG in *. uok. lia. }
  split; [|split].
  - apply Forall_map, Forall_forall. intros d [H1 H2]%H. cbn [fst snd]. by rewrite !wrap32_small.
  - apply map_ext_in. intros d Hin%list_elem_of_In. apply wrap32_small. by apply H.
  - apply map_ext_in. intros d Hin%list_elem_of_In. apply wrap32_small. by apply H.
Qed.

Lemma compaction_of_typed t srcs dsts : digests_ok false srcs -> digests_ok true dsts -> addr_count t <= U64_MAX -> group_typed (compaction_of t srcs dsts).
Proof.
  intros Hs Hd Hc. destruct (layout_frags _ _ Hs) as (Fs & _ & _). destruct (layout_frags _ _ Hd) as (Fd & _ & Ed).
  split; [|split; [done|split; [|done]]].
  - unfold old_ok. cbn [gs_old compaction_of spec_of_layout gl_old_frags]. apply Forall_map. eapply Forall_impl; [exact Fs|]. intros [f n] [H1 H2]. cbn in *. split; [done|]. by intros ? [= <-].
  - cbn [gs_new compaction_of spec_of_layout gl_new_frags]. rewrite Ed. pose proof (live_rows_max _ _ Hd) as [_ H]. unfold live_rows in H.
    rewrite (map_ext_in (fun d => fd_physical_rows d - fd_num_deleted_rows d) fd_physical_rows) in H; [done|].
    intros d Hin%list_elem_of_In. destruct Hd as [Hd _]. apply (proj1 (Forall_forall _ _) Hd) in Hin as (_ & _ & _ & Hz). rewrite Hz by done. lia.
Qed.

(** What a valid mapping is. *)
Definition mapping_valid (srcs dsts : list FragmentDigest) (m : option pb_Mapping) : Prop :=
  match m with
  | Some (PbOrderedCompaction bytes) =>
      exists t, at_deserialize bytes = Some (t, zlen bytes) /\ survivors_agree t srcs /\ group_valid (compaction_of t srcs dsts)
  | Some (PbStablePartition p) => uuid_parses (sp_map_id p) = true /\ sp_map_size_bytes p <> 0
  | None => False
  end.

(** What a decoded mapping does to the rows of the transition. *)
Definition mapping_holds (srcs dsts : list FragmentDigest) (m : Mapping) : Prop :=
  match m with
  | OrderedCompaction remap => exists t step, survivors_agree t srcs /\ (forall a, remap_get remap a = compact_get step a) /\
      moves_in_order [compaction_of t srcs dsts] step
  | StablePartition p => uuid_parses (sp_map_id p) = true /\ sp_map_size_bytes p <> 0
  end.

Lemma compaction_remap t srcs dsts : digests_ok false srcs -> digests_ok true dsts -> addr_count t <= U64_MAX ->
  let r := remap_compact_with_layout [mkGroupInputWithLayout t (layout srcs) (layout dsts)] in
  (group_valid (compaction_of t srcs dsts) /\ exists remap step, r = Ok remap /\ (forall a, remap_get remap a = compact_get step a) /\
     moves_in_order [compaction_of t srcs dsts] step) \/
  (~ group_valid (compaction_of t srcs dsts) /\ r = Err InvalidInput).
Proof.
  intros Hs Hd Hc r. set (inputs := [mkGroupInputWithLayout t (layout srcs) (layout dsts)]). pose proof (built_with_layout inputs) as Hb.
  change (map spec_of_layout inputs) with [compaction_of t srcs dsts] in Hb.
  assert (Ht : Forall group_typed [compaction_of t srcs dsts]) by (constructor; [by apply compaction_of_typed|constructor]).
  destruct (built_total _ _ Ht Hb) as [Hok Herr].
  assert (Hv : group_valid (compaction_of t srcs dsts) <-> steps_valid [compaction_of t srcs dsts]).
  { unfold steps_valid. rewrite Forall_singleton. split; [|tauto]. intros H. split; [done|]. unfold group_ids. cbn [flat_map]. rewrite app_nil_r. apply H. }
  subst r. unfold remap_compact_with_layout, chain_new_with_layout. fold inputs. destruct (step_new_with_layout inputs) as [st|e|] eqn:E; mon.
  - left. split; [apply Hv; by apply (built_holds _ st Ht)|]. eexists _, st. split; [done|]. split; [apply single_step_get|by apply built_moves].
  - right. rewrite Hv. assert (Hno : ~ steps_valid [compaction_of t srcs dsts]) by (intros H; by destruct (Hok H)). split; [done|]. by specialize (Herr Hno) as [= ->].
  - right. assert (Hno : ~ steps_valid [compaction_of t srcs dsts]) by (intros H; by destruct (Hok H)). by specialize (Herr Hno).
Qed.

Lemma decode_mapping_total srcs dsts m : digests_ok false srcs -> digests_ok true dsts ->
  (forall bytes, m = Some (PbOrderedCompaction bytes) -> zlen bytes <= 2 ^ 48) ->
  (mapping_valid srcs dsts m /\ exists out, decode_mapping (mkPbTransition srcs dsts m) = Ok out /\ mapping_holds srcs dsts out) \/
  (~ mapping_valid srcs dsts m /\ decode_mapping (mkPbTransition srcs dsts m) = Err CorruptFile).
Proof.
  intros Hs Hd Hlen. unfold decode_mapping. cbn [pt_mapping pt_sources pt_destinations]. destruct m as [[bytes|p]|]; [| |right; split; [by intros []|done]].
  - specialize (Hlen bytes eq_refl). cbn [mapping_valid]. destruct (at_deserialize bytes) as [[t position]|] eqn:Et; cbn [ok_or]; mon;
      [|right; split; [by intros (? & ? & _)|done]].
    destruct (Z.eqb_spec position (zlen bytes)) as [->|Hne]; cbn [negb]; [|right; split; [intros (? & E0 & _); congruence|done]].
    assert (Hc : addr_count t <= U64_MAX) by (pose proof (at_deserialize_size _ _ _ Et); lia).
    destruct (check_survivors_spec t srcs (proj1 Hs)) as [[Hsv ->]|[Hsv ->]]; mon; [|right; split; [by intros (? & E0 & ? & _); injection E0 as <-|done]].
    destruct (compaction_remap t srcs dsts Hs Hd Hc) as [(Hv & remap & step & -> & Hg & Hm)|[Hv ->]]; cbn [or_corrupt]; mon.
    + left. split; [by exists t|]. eexists. split; [done|]. by exists t, step.
    + right. split; [by intros (? & E0 & _ & ?); injection E0 as <-|done].
  - cbn [mapping_valid]. destruct (uuid_parses (sp_map_id p)) eqn:Eu; cbn [negb]; [|right; split; [by intros [? _]|done]].
    destruct (Z.eqb_spec (sp_map_size_bytes p) 0) as [Ez|Ez]; [right; split; [by intros [_ ?]|done]|]. left. split; [done|]. eexists. split; [done|]. done.
Qed.

(** *** One transition *)

(** What the decoder accepts. *)
Definition value_valid (v : pb_Transition) : Prop :=
  pt_sources v <> [] /\ digests_ok false (pt_sources v) /\ digests_ok true (pt_destinations v) /\
  live_rows (pt_sources v) = live_rows (pt_destinations v) /\ mapping_valid (pt_sources v) (pt_destinations v) (pt_mapping v).

(** What a decoded transition satisfies. *)
Record transition_ok (t : Transition) : Prop := {
  to_sources : sources t <> [];
  to_source_digests : digests_ok false (sources t);
  to_destination_digests : digests_ok true (destinations t);
  to_rows : live_rows (sources t) = live_rows (destinations t);
  to_mapping : mapping_holds (sources t) (destinations t) (mapping t)
}.

Definition value_typed (v : pb_Transition) : Prop :=
  digests_fields (pt_sources v) /\ digests_fields (pt_destinations v) /\
  forall bytes, pt_mapping v = Some (PbOrderedCompaction bytes) -> zlen bytes <= 2 ^ 48.

Lemma decode_transition_total v legacy : value_typed v ->
  (value_valid v /\ exists t, decode_transition v legacy = Ok t /\ sources t = pt_sources v /\ destinations t = pt_destinations v /\
     legacy_dataset_version t = legacy /\ transition_ok t) \/
  (~ value_valid v /\ decode_transition v legacy = Err CorruptFile).
Proof.
  intros (Hs & Hd & Hb). destruct v as [srcs dsts m]. cbn [pt_sources pt_destinations pt_mapping] in *. unfold value_valid, decode_transition. cbn [pt_sources pt_destinations pt_mapping].
  destruct srcs as [|s0 srcs]; [right; split; [by intros [? _]|done]|]. set (ss := s0 :: srcs) in *.
  destruct (validate_digests_total false ss Hs) as [[Hs' ->]|[Hs' ->]]; mon; [|right; split; [tauto|done]].
  destruct (validate_digests_total true dsts Hd) as [[Hd' ->]|[Hd' ->]]; mon; [|right; split; [tauto|done]].
  destruct (Z.eqb_spec (live_rows ss) (live_rows dsts)) as [El|El]; cbn [negb]; [|right; split; [tauto|done]].
  destruct (decode_mapping_total ss dsts m Hs' Hd' Hb) as [(Hv & out & -> & Hm)|[Hv ->]]; mon; [left|right; split; [tauto|done]].
  split; [done|]. eexists. split; [done|]. split; [done|]. split; [done|]. split; [done|]. split; done.
Qed.

End Transitions.

(** ** Fields *)

Section Fields.
Context {RB : Roaring} {TP : TreemapParts RB} {P : Prost} {PL : ProstLaws} {RC : ReuseCodec RB TP} {RCL : ReuseCodecLaws RC}.

(** A field was read off the front of the input, or the input is corrupt. *)
Lemma next_field_total b :
  (exists tag payload rest, next_field b = Ok (tag, payload, rest) /\ (length rest < length b)%nat /\ forall m, payload = Some m -> zlen m <= zlen b) \/
  next_field b = Err CorruptFile.
Proof.
  unfold next_field. destruct (decode_key b) as [[[tag wire] b1]|] eqn:Ek; [|by right]. cbn [ok_or]. mon.
  apply decode_key_consumes in Ek as (p & Hp & ->). destruct p as [|x p]; [done|]. case_bool_decide.
  - destruct (decode_varint b1) as [[n b2]|] eqn:Ev; [|by right]. cbn [ok_or]. mon. apply decode_varint_consumes in Ev as (Hu & q & Hq & ->).
    destruct (Z.ltb_spec (zlen b2) n); [by right|]. left. eexists _, _, _. split; [done|]. unfold ztake, zskip, zlen in *. split.
    + rewrite length_drop. cbn. rewrite !length_app. lia.
    + intros m [= <-]. rewrite length_take. cbn. rewrite !length_app. lia.
  - destruct (skip_field wire tag b1) as [b2|] eqn:Es; [|by right]. cbn [ok_or]. mon. apply skip_field_suffix in Es as [q ->].
    left. eexists _, _, _. split; [done|]. split; [cbn; rewrite !length_app; lia|done].
Qed.

Lemma content_fields_total fuel b content n : (length b < fuel)%nat -> zlen b <= n -> (forall c, content = Some c -> zlen (snd c) <= n) ->
  (exists out, content_fields fuel b content = Ok out /\ forall c, out = Some c -> zlen (snd c) <= n) \/ content_fields fuel b content = Err CorruptFile.
Proof.
  revert b content. induction fuel as [|fuel IH]; intros b content Hf Hb Hc; [lia|]. cbn [content_fields]. destruct b as [|x b]; [left; eauto|].
  destruct (next_field_total (x :: b)) as [(tag & payload & rest & -> & Hlt & Hpay)| ->]; [mon|by right].
  assert (zlen rest <= n) by (unfold zlen in *; lia).
  destruct ((tag =? 1) || (tag =? 2)); [|apply IH; [lia|done|done]]. destruct payload as [m|]; cbn [require_message ok_or]; mon; [|by right].
  destruct content; [by right|]. apply IH; [lia|done|]. intros c [= <-]. cbn [snd]. specialize (Hpay m eq_refl). lia.
Qed.

Lemma content_field_total details :
  (exists out, content_field details = Ok out /\ zlen (snd out) <= zlen (any_value details)) \/ content_field details = Err CorruptFile.
Proof.
  unfold content_field. destruct (negb _); [by right|].
  destruct (content_fields_total (S (length (any_value details))) (any_value details) None (zlen (any_value details)) ltac:(lia) ltac:(lia) ltac:(done))
    as [([out|] & -> & Ho)| ->]; mon; cbn [ok_or]; eauto.
Qed.

Lemma scan_fields_total fuel b hm hu : (length b < fuel)%nat ->
  (exists out, scan_fields fuel b hm hu = Ok out) \/ scan_fields fuel b hm hu = Err CorruptFile.
Proof.
  revert b hm hu. induction fuel as [|fuel IH]; intros b hm hu Hf; [lia|]. cbn [scan_fields]. destruct b as [|x b]; [left; by eexists|].
  destruct (next_field_total (x :: b)) as [(tag & payload & rest & -> & Hlt & _)| ->]; [mon|by right].
  destruct ((tag =? ORDERED_COMPACTION_FIELD) || (tag =? STABLE_PARTITION_FIELD)).
  - destruct payload as [m|]; cbn [require_message ok_or]; mon; [|by right]. destruct hm; [by right|]. apply IH. lia.
  - destruct (negb _); apply IH; lia.
Qed.

End Fields.

(** ** The history *)

Section History.
Context {RB : Roaring} {RL : RoaringLaws RB} {RR : RoaringRanks RB} {RRL : RoaringRanksLaws RR}
  {TP : TreemapParts RB} {TPL : TreemapPartsLaws TP} {HO : HashOrder} {HOL : HashOrderLaws HO} {P : Prost} {PL : ProstLaws}
  {RC : ReuseCodec RB TP} {RCL : ReuseCodecLaws RC}.

Lemma decode_groups_total legacy gs : Forall (fun g => value_typed (lift_group g)) gs ->
  (exists ts, map_res (fun group => decode_transition (lift_group group) legacy) gs = Ok ts /\ Forall transition_ok ts) \/
  map_res (fun group => decode_transition (lift_group group) legacy) gs = Err CorruptFile.
Proof.
  induction 1 as [|g gs Hg _ IH]; [left; exists []; split; [done|constructor]|]. cbn [map_res].
  destruct (decode_transition_total (lift_group g) legacy Hg) as [(_ & t & -> & _ & _ & _ & Ht)|[_ ->]]; mon; [|by right].
  destruct IH as [(ts & -> & Hts)| ->]; mon; [left|by right]. exists (t :: ts). split; [done|by constructor].
Qed.

Lemma read_records_total fuel version b ts unsupported : (length b < fuel)%nat -> zlen b <= 2 ^ 48 -> Forall transition_ok ts ->
  (exists ts' u', read_records fuel version b ts unsupported = Ok (ts', u') /\ Forall transition_ok ts') \/
  read_records fuel version b ts unsupported = Err CorruptFile.
Proof.
  revert b ts unsupported. induction fuel as [|fuel IH]; intros b ts unsupported Hf Hlen Hts; [lia|]. cbn [read_records].
  destruct b as [|x b]; [left; by exists ts, unsupported|]. destruct (next_field_total (x :: b)) as [(tag & payload & rest & -> & Hlt & Hpay)| ->]; [mon|by right].
  assert (Hrest : zlen rest <= 2 ^ 48) by (unfold zlen in *; lia). destruct (tag =? 1); [|destruct (tag =? 2)].
  - destruct payload as [m|]; cbn [require_message ok_or]; mon; [|by right]. specialize (Hpay m eq_refl).
    destruct (decode_version_msg m) as [v|] eqn:Ev; cbn [ok_or]; mon; [|by right]. apply decode_version_typed in Ev.
    destruct (decode_groups_total (Some (pv_dataset_version v)) (pv_groups v)) as [(ts1 & -> & Hts1)| ->]; mon; [| |by right].
    + eapply Forall_impl; [exact Ev|]. intros g (H1 & H2 & H3). split; [done|]. split; [done|]. intros bytes [= <-]. lia.
    + apply IH; [lia|done|]. by apply Forall_app.
  - destruct (version =? 0); [by right|]. destruct payload as [m|]; cbn [require_message ok_or]; mon; [|by right]. specialize (Hpay m eq_refl).
    destruct (scan_fields_total (S (length m)) m false false ltac:(lia)) as [[[hm hu] ->]| ->]; mon; [|by right].
    destruct hu; [apply IH; [lia|done|done]|]. destruct hm; cbn [negb]; [|by right].
    destruct (decode_transition_msg m) as [v|] eqn:Ev; cbn [ok_or]; mon; [|by right]. apply decode_transition_typed in Ev as (H1 & H2 & H3).
    assert (Hv : value_typed v) by (split; [done|]; split; [done|]; intros bytes Hb; specialize (H3 bytes Hb); lia).
    destruct (decode_transition_total v None Hv) as [(_ & t & -> & _ & _ & _ & Ht)|[_ ->]]; mon; [|by right].
    apply IH; [lia|done|]. apply Forall_app. split; [done|]. by constructor.
  - apply IH; [lia|done|done].
Qed.

(** *** The positions of the fragments *)

Lemma foldl_insert_nodup {V} (l : list (Z * V)) (m : gmap Z V) k v : NoDup (map fst l) -> (forall k', k' ∈ map fst l -> m !! k' = None) ->
  foldl (fun m kv => <[fst kv := snd kv]> m) m l !! k = Some v <-> m !! k = Some v \/ (k, v) ∈ l.
Proof.
  revert m. induction l as [|[k0 v0] l IH]; intros m Hn Hm; cbn [foldl map fst snd] in *.
  { split; [tauto|]. by intros [?|?%not_elem_of_nil]. }
  inversion Hn as [|?? Hk0 Hn']; subst. rewrite IH; [|done|].
  - rewrite elem_of_cons. destruct (decide (k = k0)) as [->|Hne].
    + rewrite lookup_insert_eq, (Hm k0) by left. split; [intros [[= ->]|Hin]; [by right; left|by right; right]|]. intros [?|[[= ->]|?]]; [done|by left|by right].
    + rewrite lookup_insert_ne by done. split; [tauto|]. intros [?|[[= ? ?]|?]]; tauto.
  - intros k' Hk'. rewrite lookup_insert_ne by (intros ->; done). apply Hm. by right.
Qed.

Lemma position_keys (ends : Transition -> list FragmentDigest) ts : (forall t d, t ∈ ts -> d ∈ ends t -> digest_typed d) ->
  map fst (flat_map (fun it => map (fun d => (wrap32 (fd_id d), fst it)) (ends (snd it))) (enumerate ts)) = flat_map (fun t => map fd_id (ends t)) ts.
Proof.
  intros Hty. rewrite <- (map_snd_enumerate ts) in Hty. rewrite <- (flat_map_enumerate (fun t => map fd_id (ends t))).
  induction (enumerate ts) as [|[i t] its IH]; [done|]. cbn [flat_map fst snd map] in *. rewrite map_app, map_map. cbn [fst]. f_equal.
  - apply map_ext_in. intros d Hd%list_elem_of_In. pose proof (Hty t d ltac:(left) Hd) as Hd'. unfold digest_typed, TOMBSTONE_FRAG in Hd'.
    apply wrap32_small. uok. lia.
  - apply IH. intros t' d Ht'. apply Hty. by right.
Qed.

Lemma position_map_spec (ends : Transition -> list FragmentDigest) ts f p : NoDup (flat_map (fun t => map fd_id (ends t)) ts) ->
  (forall t d, t ∈ ts -> d ∈ ends t -> digest_typed d) ->
  position_map ends ts !! f = Some p <-> exists t d, get_opt ts p = Some t /\ d ∈ ends t /\ fd_id d = f.
Proof.
  intros Hn Hty. unfold position_map. set (l := flat_map _ (enumerate ts)).
  assert (Hin : forall k v, (k, v) ∈ l <-> exists t d, get_opt ts v = Some t /\ d ∈ ends t /\ fd_id d = k).
  { intros k v. unfold l. rewrite list_elem_of_In, in_flat_map. setoid_rewrite in_map_iff. setoid_rewrite <- list_elem_of_In. split.
    - intros ([i t] & Hi%enumerate_lookup & d & [= <- <-] & Hd). cbn [fst snd] in *. exists t, d. split; [done|]. split; [done|].
      pose proof (Hty t d ltac:(apply elem_of_get_opt; eauto) Hd) as Ht. unfold digest_typed, TOMBSTONE_FRAG in Ht. rewrite wrap32_small; [done|uok; lia].
    - intros (t & d & Ht & Hd & <-). exists (v, t). split; [by apply enumerate_lookup|]. exists d. split; [|done]. cbn [fst].
      pose proof (Hty t d ltac:(apply elem_of_get_opt; eauto) Hd) as Hd'. unfold digest_typed, TOMBSTONE_FRAG in Hd'. rewrite wrap32_small; [done|uok; lia]. }
  rewrite foldl_insert_nodup; [|unfold l; by rewrite position_keys|by intros; rewrite lookup_empty]. rewrite lookup_empty, Hin. split; [by intros [?|?]|by right].
Qed.

(** *** The decoded ledger *)

Record ledger_ok (l : FragReuseLedger) : Prop := {
  lg_transitions : Forall transition_ok (transitions l);
  lg_lineage : lineage_ok (transitions l);
  lg_order : producers_first (transitions l);
  lg_consumer f p : consumer l f = Some p <-> exists t s, get_opt (transitions l) p = Some t /\ s ∈ sources t /\ fd_id s = f;
  lg_producer f p : producer l f = Some p <-> exists t d, get_opt (transitions l) p = Some t /\ d ∈ destinations t /\ fd_id d = f
}.

Lemma transition_ok_typed t : transition_ok t -> transition_typed t.
Proof. intros [_ [H1 _] [H2 _] _ _]. split; [eapply Forall_impl; [exact H1|]|eapply Forall_impl; [exact H2|]]; by intros d (? & _). Qed.

Lemma lineage_ok_perm ts o : o ≡ₚ ts -> lineage_ok ts -> lineage_ok o.
Proof.
  intros Hp [H1 H2 H3 [rank H4]]. split.
  - unfold dest_ids. by rewrite (Permutation_flat_map _ Hp).
  - unfold source_ids. by rewrite (Permutation_flat_map _ Hp).
  - intros t u d s. rewrite !Hp. apply H3.
  - exists rank. intros t s d. rewrite Hp. apply H4.
Qed.

Lemma decode_content_total version content : zlen content <= 2 ^ 48 ->
  (version = 0 \/ version = 1) /\ ((exists l, decode_content version content = Ok l /\ ledger_ok l) \/ decode_content version content = Err CorruptFile) \/
  (~ (version = 0 \/ version = 1) /\ decode_content version content = Err NotSupported).
Proof.
  intros Hlen. unfold decode_content, validate_index_version. destruct ((version =? 0) || (version =? 1)) eqn:Ev; cbn [negb]; mon;
    [|right; rewrite orb_false_iff, !Z.eqb_neq in Ev; split; [lia|done]]. left. rewrite orb_true_iff, !Z.eqb_eq in Ev. split; [done|].
  destruct (read_records_total (S (length content)) version content [] false ltac:(lia) Hlen ltac:(constructor)) as [(ts & u & -> & Hts)| ->]; mon; [|by right].
  assert (Hty : Forall transition_typed ts) by (eapply Forall_impl; [exact Hts|]; apply transition_ok_typed).
  destruct (order_lineage_total ts Hty) as [(Hl & o & -> & Hp & Hf)|[_ ->]]; mon; [left|by right]. eexists. split; [done|].
  pose proof (lineage_ok_perm _ _ Hp Hl) as Hlo. assert (Hok : Forall transition_ok o) by (by rewrite Hp).
  assert (Hdig : forall t, t ∈ o -> transition_typed t) by (intros t Ht; apply transition_ok_typed; exact (proj1 (Forall_forall _ _) Hok t Ht)).
  split; [done|done|done| |]; intros f p; unfold consumer, producer; cbn [consumers producers transitions]; apply position_map_spec.
  - apply (lo_consumers _ Hlo).
  - intros t d Ht Hd. exact (proj1 (Forall_forall _ _) (proj1 (Hdig t Ht)) d Hd).
  - apply (lo_producers _ Hlo).
  - intros t d Ht Hd. exact (proj1 (Forall_forall _ _) (proj2 (Hdig t Ht)) d Hd).
Qed.

(** C7: decoding the details of a fragment reuse index never panics.  A version
    other than 0 and 1 is not supported; of a supported one, any bytes are a
    corrupt file or give a ledger whose transitions have valid digests and
    conserve the live rows, whose compactions move the surviving rows in order,
    whose lineage is consistent, with producers before consumers, and whose
    positions of consumers and producers are exact.  An inline history is read
    without the external file. *)
Theorem fri_decode read version details :
  zlen (any_value details) <= 2 ^ 48 -> (forall f bytes, read f = Ok bytes -> zlen bytes <= 2 ^ 48) -> (forall f, read f <> Panic) ->
  let supported := version = 0 \/ version = 1 in
  match decode_inline version details with
  | Ok (Some l) => supported /\ ledger_ok l /\ decode read version details = Ok l
  | Ok None => supported
  | Err e => (~ supported /\ e = NotSupported) \/ (supported /\ e = CorruptFile)
  | Panic => False
  end /\
  match decode read version details with
  | Ok l => supported /\ ledger_ok l
  | Err e => (~ supported /\ e = NotSupported) \/ (supported /\ (e = CorruptFile \/ exists f, read f = Err e))
  | Panic => False
  end.
Proof.
  intros Hlen Hread Hnp supported. unfold decode_inline, decode. destruct (validate_index_version version) as [[]|e|] eqn:Ev; mon.
  - assert (Hv : supported).
    { unfold validate_index_version in Ev. destruct ((version =? 0) || (version =? 1)) eqn:E; [|done]. rewrite orb_true_iff, !Z.eqb_eq in E. exact E. }
    destruct (content_field_total details) as [([tag content] & -> & Hc)| ->]; mon; [|split; right; (split; [done|]); [done|by left]]. cbn [snd] in Hc.
    destruct (tag =? 1); mon.
    + destruct (decode_content_total version content ltac:(lia)) as [[_ [(l & -> & Hl)| ->]]|[Hno _]]; mon; [done|split; right; (split; [done|]); [done|by left]|done].
    + split; [done|]. destruct (decode_external_msg content) as [file|]; cbn [ok_or]; mon; [|right; split; [done|by left]].
      destruct (checked_add (ef_offset file) (ef_size file)); cbn [ok_or]; mon; [|right; split; [done|by left]].
      destruct (read file) as [bytes|e|] eqn:Er; mon; [|right; split; [done|right; by exists file]|by apply (Hnp file)].
      destruct (negb _); mon; [right; split; [done|by left]|]. specialize (Hread _ _ Er).
      destruct (decode_content_total version bytes Hread) as [[_ [(l & -> & Hl)| ->]]|[Hno _]]; [done|right; split; [done|by left]|done].
  - unfold validate_index_version in Ev. destruct ((version =? 0) || (version =? 1)) eqn:E; [done|]. injection Ev as <-. rewrite orb_false_iff, !Z.eqb_neq in E.
    split; left; (split; [unfold supported; lia|done]).
  - unfold validate_index_version in Ev. by destruct (negb _).
Qed.

End History.

(** ** Examples *)

Module LedgerDecodeExamples.
Import RemapExamples RemapChainExamples.

#[local] Existing Instance CofiniteRoaring.
#[local] Existing Instance CofiniteRoaring_laws.
#[local] Existing Instance CofiniteRanks.
#[local] Existing Instance CofiniteRanks_laws.
#[local] Existing Instance ListTreemap.
#[local] Existing Instance ListTreemap_laws.
#[local] Existing Instance ListOrder.
#[local] Existing Instance ListOrder_laws.
#[local] Existing Instance WireProst.
#[local] Existing Instance WireProst_laws.

(** A small format: a digest is three varints, a transition a list of
    length-delimited fields, and a treemap the offsets of fragment 0. *)
Definition parse_digest (b : list Z) : option FragmentDigest :=
  '(i, b) ← Wire.get_varint b; '(r, b) ← Wire.get_varint b; '(d, _) ← Wire.get_varint b; Some (mkDigest i r d).

Definition add_field (f : Z) (payload : list Z) (t : pb_Transition) : option pb_Transition :=
  if f =? 1 then d ← parse_digest payload; Some (mkPbTransition (pt_sources t ++ [d]) (pt_destinations t) (pt_mapping t))
  else if f =? 2 then d ← parse_digest payload; Some (mkPbTransition (pt_sources t) (pt_destinations t ++ [d]) (pt_mapping t))
  else if f =? 3 then Some (mkPbTransition (pt_sources t) (pt_destinations t) (Some (PbOrderedCompaction payload)))
  else Some (mkPbTransition (pt_sources t) (pt_destinations t) (Some (PbStablePartition (mkStablePartitionRef String.EmptyString (zlen payload) None)))).

Fixpoint parse_fields (fuel : nat) (b : list Z) (t : pb_Transition) : option pb_Transition :=
  match fuel, b with
  | O, _ => None
  | S _, [] => Some t
  | S fuel, _ =>
      '(f, b) ← match Wire.get_key b with Some (f, LengthDelimited, b) => Some (f, b) | _ => None end;
      '(n, b) ← Wire.get_varint b;
      t ← add_field f (ztake n b) t;
      parse_fields fuel (zskip n b) t
  end.

Definition parse_transition (b : list Z) : option pb_Transition := parse_fields (S (length b)) b (mkPbTransition [] [] None).

Definition SmallCodec : ReuseCodec CofiniteRoaring ListTreemap := {|
  skip_field w tag b := match w with Varint => option_map snd (Wire.get_varint b) | _ => None end;
  decode_version_msg b := t ← parse_transition b;
    match pt_mapping t with Some (PbOrderedCompaction bytes) => Some (mkPbVersion 1 [mkPbGroup bytes (pt_sources t) (pt_destinations t)]) | _ => None end;
  decode_transition_msg := parse_transition;
  decode_external_msg b := Some (mkExternalFile String.EmptyString 0 (zlen b));
  encode_transition_msg t := [];
  at_deserialize b := Some ([(0, bm_from_iter (List.filter u32b b))], zlen b);
  at_range_cardinality t r := zlen (List.filter (fun a => (start r <=? a) && (a <? end_ r)) (at_members t));
  blake3_hash b := b;
  uuid_parses s := true
|}.

#[local] Existing Instance SmallCodec.

Definition typed_within (n : Z) (t : pb_Transition) : Prop := digests_fields (pt_sources t) /\ digests_fields (pt_destinations t) /\
  forall bytes, pt_mapping t = Some (PbOrderedCompaction bytes) -> zlen bytes <= n.

Lemma parse_digest_typed b d : parse_digest b = Some d -> digest_fields d.
Proof.
  unfold parse_digest. intros E. destruct (Wire.get_varint b) as [[i b1]|] eqn:E1; [|done]. cbn [mbind option_bind] in E.
  destruct (Wire.get_varint b1) as [[r b2]|] eqn:E2; [|done]. cbn [mbind option_bind] in E.
  destruct (Wire.get_varint b2) as [[x b3]|] eqn:E3; [|done]. injection E as <-.
  apply Wire.get_varint_consumes in E1 as [H1 _], E2 as [H2 _], E3 as [H3 _]. done.
Qed.

Lemma add_field_typed n f payload t t' : zlen payload <= n -> typed_within n t -> add_field f payload t = Some t' -> typed_within n t'.
Proof.
  intros Hp (H1 & H2 & H3) E. unfold add_field in E. destruct (f =? 1); [|destruct (f =? 2); [|destruct (f =? 3)]].
  - destruct (parse_digest payload) as [d|] eqn:Ed; [|done]. injection E as <-. apply parse_digest_typed in Ed. split; [|done]. apply Forall_app. split; [done|]. by constructor.
  - destruct (parse_digest payload) as [d|] eqn:Ed; [|done]. injection E as <-. apply parse_digest_typed in Ed. split; [done|]. split; [|done]. apply Forall_app. split; [done|]. by constructor.
  - injection E as <-. split; [done|]. split; [done|]. by intros bytes [= <-].
  - injection E as <-. split; [done|]. by split.
Qed.

Lemma parse_fields_typed fuel n b t t' : zlen b <= n -> typed_within n t -> parse_fields fuel b t = Some t' -> typed_within n t'.
Proof.
  revert b t. induction fuel as [|fuel IH]; intros b t Hb Ht E; [done|]. cbn [parse_fields] in E. destruct b as [|x b]; [by injection E as <-|].
  destruct (Wire.get_key (x :: b)) as [[[f []] b1]|] eqn:Ek; try done. cbn [mbind option_bind] in E.
  apply Wire.get_key_consumes in Ek as (p & _ & Ep). destruct (Wire.get_varint b1) as [[k b2]|] eqn:Ev; [|done]. cbn [mbind option_bind] in E.
  apply Wire.get_varint_consumes in Ev as (_ & q & _ & ->). destruct (add_field f (ztake k b2) t) as [t1|] eqn:Ea; [|done]. cbn [mbind option_bind] in E.
  rewrite Ep, !zlen_app in Hb. pose proof (zlen_nonneg p). pose proof (zlen_nonneg q). pose proof (zlen_nonneg b2).
  apply (IH (zskip k b2) t1); [|apply (add_field_typed n f (ztake k b2) t t1); [|done|done]|done]; unfold zskip, ztake, zlen in *; rewrite ?length_drop, ?length_take; lia.
Qed.

Lemma parse_transition_typed b t : parse_transition b = Some t -> typed_within (zlen b) t.
Proof. apply parse_fields_typed; [done|]. split; [constructor|]. split; [constructor|done]. Qed.

#[local] Instance SmallCodec_laws : ReuseCodecLaws SmallCodec.
Proof.
  split.
  - intros w tag b rest. cbn [skip_field SmallCodec]. destruct w; try done. destruct (Wire.get_varint b) as [[v b1]|] eqn:E; cbn; [|done]. intros [= <-].
    apply Wire.get_varint_consumes in E as (_ & p & _ & ->). by exists p.
  - intros b v. cbn [decode_version_msg SmallCodec]. destruct (parse_transition b) as [t|] eqn:E; cbn [mbind option_bind]; [|done]. destruct (pt_mapping t) as [[bytes|]|] eqn:Em; [|done..]. intros [= <-].
    apply parse_transition_typed in E as (H1 & H2 & H3). constructor; [|constructor]. split; [done|]. split; [done|]. by apply H3.
  - intros b t. apply parse_transition_typed.
  - intros b t position [= <- <-]. unfold addr_count. cbn [at_bitmaps ListTreemap]. change (keys_ok _) with true. cbn [map snd zsum foldr]. rewrite bm_len_iter.
    assert (Hf : Forall u32_ok (List.filter u32b b)) by (apply Forall_forall; intros v [_ Hv]%elem_of_filterb; by apply u32b_spec).
    assert (zlen (bm_iter (bm_from_iter (List.filter u32b b))) <= zlen (List.filter u32b b)).
    { unfold zlen. apply Nat2Z.inj_le, submseteq_length, NoDup_submseteq; [apply ssorted_NoDup, bm_iter_sorted|].
      intros v Hv%bm_iter_elem. rewrite bm_contains_from_iter in Hv by done. by apply bool_decide_eq_true in Hv. }
    assert (zlen (List.filter u32b b) <= zlen b) by (unfold zlen; apply Nat2Z.inj_le, List.filter_length_le). pose proof (zlen_nonneg b).
    change (Cofinite.of_list (List.filter u32b b)) with (bm_from_iter (List.filter u32b b)). lia.
  - done.
Qed.

(** Two fragments were merged by a compaction, the result was partitioned. *)
Definition digest_bytes (f : Z) (d : FragmentDigest) : list Z :=
  Wire.message f (Wire.varint (fd_id d) ++ Wire.varint (fd_physical_rows d) ++ Wire.varint (fd_num_deleted_rows d)).

Definition partition_bytes : list Z := digest_bytes 1 (mkDigest 7 2 0) ++ digest_bytes 2 (mkDigest 8 1 0) ++ digest_bytes 2 (mkDigest 9 1 0) ++ Wire.message 4 [1].
Definition compaction_bytes : list Z := digest_bytes 1 (mkDigest 0 3 1) ++ digest_bytes 2 (mkDigest 7 2 0) ++ Wire.message 3 [0; 2].

Definition records : list Z := Wire.message 2 partition_bytes ++ Wire.message 1 compaction_bytes.
Definition details : Any := mkAny "/lance.table.FragmentReuseIndexDetails"%string (Wire.message 1 records).
Definition no_file (f : ExternalFile) : res (list Z) := Err IO.

Lemma fri_decode_witness : exists l, decode_inline 1 details = Ok (Some l) /\ ledger_ok l /\ decode no_file 1 details = Ok l.
Proof.
  pose proof (fri_decode no_file 1 details ltac:(by vm_compute) ltac:(done) ltac:(done)) as [H _].
  assert (Hok : match decode_inline 1 details with Ok (Some _) => true | _ => false end = true) by (vm_compute; reflexivity).
  destruct (decode_inline 1 details) as [[l|]| |]; [|discriminate..]. exists l. split; [exact eq_refl|exact (proj2 H)].
Defined.

(** The ledger of these records. *)
Lemma records_ledger : exists l, decode_content 1 records = Ok l /\ ledger_ok l /\ has_unsupported_transitions l = false.
Proof.
  assert (Hok : match decode_content 1 records with Ok l => negb (has_unsupported_transitions l) | _ => false end = true) by (vm_compute; reflexivity).
  destruct (decode_content_total 1 records ltac:(by vm_compute)) as [[_ [(l & E & Hl)|E]]|[_ E]]; rewrite E in Hok; [|discriminate..].
  exists l. split; [exact E|]. split; [exact Hl|]. by apply negb_true_iff.
Qed.

End LedgerDecodeExamples.
