(* ===== verification/Lineage.v ===== *)
(** * The lineage of a tagged history

    [lance-table/src/system_index/frag_reuse/lineage.rs] and [metadata.rs]: the
    fragments a tagged fragment reuse entry records, and the walk from a fragment
    to all fragments its rows were moved into. *)

From Stdlib Require Import ZArith Lia.
From stdpp Require Import base option list numbers sorting sets gmap strings relations.
From S2P Require Import Prelude Lists Bits RowAddress HoleRuns SegmentBuild Sequence Itertools Roaring Prost RankedOffsets Remap RemapChain FragmentReuse Ledger LedgerOrder LedgerDecode.

(** ** Model *)

(** The fields of [IndexMetadata] that index maintenance reads. *)
Record IndexMetadata {RB : Roaring} := mkIndex {
  im_uuid : Z;
  im_fields : list Z;
  im_covering_fields : list Z;
  im_name : string;
  im_dataset_version : Z;
  im_fragment_bitmap : option bitmap;
  im_index_details : option Any;
  im_index_version : Z;
  im_created_at : option Z
}.
Arguments mkIndex {RB}.

Definition FRAG_REUSE_INDEX_NAME : string := "__lance_frag_reuse".

Definition is_tagged {RB : Roaring} (index : IndexMetadata) : bool :=
  bool_decide (im_name index = FRAG_REUSE_INDEX_NAME) && negb (im_index_version index =? 0).

Record TaggedLineage {RB : Roaring} := mkLineage {
  tl_fragments : option bitmap;
  tl_ledger : option FragReuseLedger
}.
Arguments mkLineage {RB}.

Section LineageModel.
Context {RB : Roaring}.

(** [TaggedLineage::new]: a history this build cannot interpret counts as
    none. *)
Definition lineage_new (entry : IndexMetadata) (ledger : option FragReuseLedger) : TaggedLineage :=
  mkLineage (im_fragment_bitmap entry)
    (match ledger with Some ledger => if negb (has_unsupported_transitions ledger) then Some ledger else None | None => None end).

Definition has_ledger (l : TaggedLineage) : bool := bool_decide (is_Some (tl_ledger l)).

Definition mentions (l : TaggedLineage) (fragment : Z) : option bool :=
  option_map (fun ledger => contains_fragment ledger fragment) (tl_ledger l).

Definition lineage_contains (l : TaggedLineage) (fragment : Z) : bool :=
  match tl_fragments l with Some fragments => bm_contains fragments fragment | None => true end.

(** [collect] of the destination ids into an [Option]. *)
Definition u32_ids (ds : list FragmentDigest) : option (list Z) := mapM (fun d => if fd_id d <=? U32_MAX then Some (fd_id d) else None) ds.

Definition immediate_destinations_of (l : TaggedLineage) (source : Z) : res (option (list Z)) :=
  match tl_ledger l with
  | None => Ok None
  | Some ledger =>
      match consumer ledger source with
      | None => Ok (Some [])
      | Some position => t ← idx (transitions ledger) position; Ok (u32_ids (destinations t))
      end
  end.

(** The inner loop: destinations seen for the first time are reached and
    pending. *)
Fixpoint reach (ds : list FragmentDigest) (seen : gset Z) (reached pending : list Z) : option (gset Z * list Z * list Z) :=
  match ds with
  | [] => Some (seen, reached, pending)
  | digest :: ds =>
      let destination := fd_id digest in
      if destination <=? U32_MAX then
        if bool_decide (destination ∈ seen) then reach ds seen reached pending
        else reach ds ({[destination]} ∪ seen) (reached ++ [destination]) (destination :: pending)
      else None
  end.

(** The stack [pending] has its top first; [fuel] bounds the fragments taken off
    it. *)
Fixpoint walk_lineage (fuel : nat) (ledger : FragReuseLedger) (seen : gset Z) (reached pending : list Z) : res (option (list Z)) :=
  match fuel with
  | O => Panic
  | S fuel =>
      match pending with
      | [] => Ok (Some reached)
      | fragment :: pending =>
          match consumer ledger fragment with
          | None => walk_lineage fuel ledger seen reached pending
          | Some position =>
              t ← idx (transitions ledger) position;
              match reach (destinations t) seen reached pending with
              | Some (seen, reached, pending) => walk_lineage fuel ledger seen reached pending
              | None => Ok None
              end
          end
      end
  end.

Definition destinations_of (l : TaggedLineage) (source : Z) : res (option (list Z)) :=
  match tl_ledger l with
  | None => Ok None
  | Some ledger => walk_lineage (S (S (length (dest_ids (transitions ledger))))) ledger ∅ [] [source]
  end.

End LineageModel.

Section FromIndices.
Context {RB : Roaring} {RR : RoaringRanks RB} {TP : TreemapParts RB} {HO : HashOrder} {P : Prost} {RC : ReuseCodec RB TP}.

Definition from_indices_with_ledger (indices : list IndexMetadata) (ledger : option FragReuseLedger) : res (option TaggedLineage) :=
  match List.find is_tagged indices with
  | None => Ok None
  | Some entry =>
      ledger ← match ledger with
        | Some ledger => Ok ledger
        | None =>
            details ← ok_or (im_index_details entry) InvalidInput;
            decoded ← decode_inline (im_index_version entry) details;
            ok_or decoded InvalidInput
        end;
      Ok (Some (lineage_new entry (Some ledger)))
  end.

End FromIndices.

(** ** Reaching fragments *)

(** Some transition consumes [f] and produces [g]. *)
Definition hop {RB : Roaring} (l : FragReuseLedger) (f g : Z) : Prop :=
  exists t s d, t ∈ transitions l /\ s ∈ sources t /\ d ∈ destinations t /\ fd_id s = f /\ fd_id d = g.

Section Walk.
Context {RB : Roaring} {RL : RoaringLaws RB} {RR : RoaringRanks RB} {RRL : RoaringRanksLaws RR}
  {TP : TreemapParts RB} {TPL : TreemapPartsLaws TP} {HO : HashOrder} {HOL : HashOrderLaws HO} {P : Prost} {PL : ProstLaws}
  {RC : ReuseCodec RB TP} {RCL : ReuseCodecLaws RC}.
Context (l : FragReuseLedger) (Hl : ledger_ok l).

Lemma destination_u32 t d : t ∈ transitions l -> d ∈ destinations t -> fd_id d <= U32_MAX /\ fd_id d ∈ dest_ids (transitions l).
Proof.
  intros Ht Hd. split.
  - pose proof (proj1 (Forall_forall _ _) (lg_transitions l Hl) t Ht) as Hok. destruct (to_destination_digests t Hok) as [Hds _].
    apply (proj1 (Forall_forall _ _) Hds) in Hd as (? & _). unfold TOMBSTONE_FRAG in *. lia.
  - unfold dest_ids. apply list_elem_of_In, in_flat_map. exists t. split; [by apply list_elem_of_In|]. apply in_map_iff. exists d. split; [done|by apply list_elem_of_In].
Qed.

(** One fragment's hops, through the transition that consumes it. *)
Lemma hop_consumer f g : hop l f g <-> exists p t d, consumer l f = Some p /\ get_opt (transitions l) p = Some t /\ d ∈ destinations t /\ fd_id d = g.
Proof.
  split.
  - intros (t & s & d & Ht & Hs & Hd & Hf & Hg). apply elem_of_get_opt in Ht as [p Hp]. exists p, t, d. split; [|done]. apply (lg_consumer l Hl). by exists t, s.
  - intros (p & t & d & Hc & Hp & Hd & Hg). apply (lg_consumer l Hl) in Hc as (t' & s & Hp' & Hs & Hf). rewrite Hp in Hp'. injection Hp' as <-.
    exists t, s, d. split; [|done]. apply elem_of_get_opt. eauto.
Qed.

(** The destinations of one transition. *)
Lemma reach_all ds seen reached pending : (forall d, d ∈ ds -> fd_id d <= U32_MAX) -> (forall x, x ∈ seen <-> x ∈ reached) -> NoDup reached ->
  exists new seen', reach ds seen reached pending = Some (seen', reached ++ new, reverse new ++ pending) /\
    (forall x, x ∈ seen' <-> x ∈ reached ++ new) /\ NoDup (reached ++ new) /\
    (forall x, x ∈ new -> x ∈ map fd_id ds) /\ (forall x, x ∈ map fd_id ds -> x ∈ reached ++ new).
Proof.
  revert seen reached pending. induction ds as [|d ds IH]; intros seen reached pending Hu Hs Hn.
  { exists [], seen. rewrite app_nil_r. split; [done|]. split; [done|]. split; [done|]. split; [done|]. by intros x ?%not_elem_of_nil. }
  cbn [reach]. rewrite (proj2 (Z.leb_le _ _)) by (apply Hu; left). assert (Hu' : forall d', d' ∈ ds -> fd_id d' <= U32_MAX) by (intros d' Hd'; apply Hu; by right).
  case_bool_decide as Hin.
  - destruct (IH seen reached pending Hu' Hs Hn) as (new & seen' & E & H1 & H2 & H3 & H4). exists new, seen'. split; [done|]. split; [done|]. split; [done|].
    cbn [map]. split; [intros x Hx; right; by apply H3|]. intros x [->|Hx]%elem_of_cons; [|by apply H4]. apply elem_of_app. left. by apply Hs.
  - destruct (IH ({[fd_id d]} ∪ seen) (reached ++ [fd_id d]) (fd_id d :: pending) Hu') as (new & seen' & E & H1 & H2 & H3 & H4).
    + intros x. rewrite elem_of_union, elem_of_singleton, elem_of_app, list_elem_of_singleton, Hs. tauto.
    + apply NoDup_app. split; [done|]. split; [|apply NoDup_singleton]. intros x Hx ->%list_elem_of_singleton. apply Hin. by apply Hs.
    + exists (fd_id d :: new), seen'. rewrite <- app_assoc in E, H1, H2, H4. cbn [app] in *. split.
      * rewrite E, reverse_cons, <- app_assoc. done.
      * split; [done|]. split; [done|]. cbn [map]. split; [intros x [->|Hx]%elem_of_cons; [left|right; by apply H3]|].
        intros x [->|Hx]%elem_of_cons; [|by apply H4]. apply elem_of_app. right. left.
Qed.

(** What holds whenever a fragment is taken off the stack. *)
Record walking (source : Z) (seen : gset Z) (reached pending : list Z) : Prop := {
  wk_seen x : x ∈ seen <-> x ∈ reached;
  wk_nodup : NoDup reached;
  wk_dest x : x ∈ reached -> x ∈ dest_ids (transitions l);
  wk_sound x : x ∈ reached -> tc (hop l) source x;
  wk_pending x : x ∈ pending -> x = source \/ x ∈ reached;
  wk_closed f g : f = source \/ f ∈ reached -> f ∉ pending -> hop l f g -> g ∈ reached
}.

Lemma walk_reaches source fuel seen reached pending : walking source seen reached pending ->
  (length pending + (length (dest_ids (transitions l)) - length reached) < fuel)%nat ->
  exists out, walk_lineage fuel l seen reached pending = Ok (Some out) /\ NoDup out /\ forall g, g ∈ out <-> tc (hop l) source g.
Proof.
  revert seen reached pending. induction fuel as [|fuel IH]; intros seen reached pending Hw Hf; [lia|]. destruct Hw as [Hs Hn Hd Hso Hp Hc]. cbn [walk_lineage].
  destruct pending as [|f pending].
  - exists reached. split; [done|]. split; [done|]. intros g. split; [apply Hso|]. intros Htc.
    assert (G : forall a b, tc (hop l) a b -> a = source \/ a ∈ reached -> b ∈ reached).
    { intros a b Hab. induction Hab as [a b Hab|a b c Hab Hbc IHt]; intros Ha; [apply (Hc a b Ha); [apply not_elem_of_nil|done]|].
      apply IHt. right. apply (Hc a b Ha); [apply not_elem_of_nil|done]. }
    apply (G source g Htc). by left.
  - destruct (consumer l f) as [p|] eqn:Ec.
    + destruct (proj1 (lg_consumer l Hl f p) Ec) as (t & s & Ht & Hst & Hid). unfold idx. rewrite Ht. mon.
      assert (Htin : t ∈ transitions l) by (apply elem_of_get_opt; eauto).
      assert (Hfg : forall g, hop l f g <-> g ∈ map fd_id (destinations t)).
      { intros g. rewrite hop_consumer. split.
        - intros (p' & t' & d & Hc' & Ht' & Hd' & <-). rewrite Ec in Hc'. injection Hc' as <-. rewrite Ht in Ht'. injection Ht' as <-. by apply list_elem_of_fmap_2.
        - intros (d & -> & Hd')%list_elem_of_fmap. by exists p, t, d. }
      destruct (reach_all (destinations t) seen reached pending) as (new & seen' & E & H1 & H2 & H3 & H4);
        [intros d Hd'; by apply (destination_u32 t d)|done|done|]. rewrite E.
      assert (Hnd : forall x, x ∈ new -> x ∈ dest_ids (transitions l)).
      { intros x Hx. apply H3 in Hx. apply list_elem_of_fmap in Hx as (d & -> & Hd'). by apply (destination_u32 t d). }
      assert (Hsf : f = source \/ tc (hop l) source f) by (destruct (Hp f ltac:(left)) as [->|Hr]; [by left|right; by apply Hso]).
      assert (Hall : forall x, x ∈ reached ++ new -> x ∈ dest_ids (transitions l)) by (intros x [?|?]%elem_of_app; auto).
      assert (Hlen : (length (reached ++ new) <= length (dest_ids (transitions l)))%nat) by (by apply submseteq_length, NoDup_submseteq).
      apply IH; [|rewrite !length_app, length_reverse in *; cbn in Hf; lia]. split; [done|done|done| | |].
      * intros x [Hx|Hx]%elem_of_app; [by apply Hso|]. apply H3, Hfg in Hx. destruct Hsf as [->|Hsf]; [by apply tc_once|]. eapply tc_r; [exact Hsf|done].
      * intros x [Hx|Hx]%elem_of_app; [right; apply elem_of_app; right; by apply elem_of_reverse|]. destruct (Hp x ltac:(by right)) as [?|?]; [by left|right; apply elem_of_app; by left].
      * intros a g Ha Hna Hag. rewrite elem_of_app, elem_of_reverse in Hna. destruct (decide (a = f)) as [->|Hne]; [apply H4; by apply Hfg|].
        apply elem_of_app. left. apply (Hc a g); [|rewrite not_elem_of_cons; tauto|done]. destruct Ha as [?|Ha]; [by left|]. apply elem_of_app in Ha. tauto.
    + apply IH; [|cbn in Hf; lia]. split; [done|done|done|done|intros x Hx; apply Hp; by right|].
      intros a g Ha Hna Hag. destruct (decide (a = f)) as [->|Hne]; [|apply (Hc a g Ha); [rewrite not_elem_of_cons; tauto|done]].
      apply hop_consumer in Hag as (p & t & d & Hc' & _). congruence.
Qed.

Lemma hop_acyclic f : ~ tc (hop l) f f.
Proof.
  destruct (lo_acyclic _ (lg_lineage l Hl)) as [rank Hr]. assert (G : forall a b, tc (hop l) a b -> (rank a < rank b)%nat).
  { intros a b Hab. induction Hab as [a b (t & s & d & Ht & Hs & Hd & <- & <-)|a b c (t & s & d & Ht & Hs & Hd & <- & <-) Hbc IH]; [by apply (Hr t)|].
    pose proof (Hr t s d Ht Hs Hd). lia. }
  intros H%G. lia.
Qed.

Lemma consumed_ids f : is_Some (consumers l !! f) <-> f ∈ source_ids (transitions l).
Proof.
  unfold source_ids. rewrite list_elem_of_In, in_flat_map. setoid_rewrite in_map_iff. setoid_rewrite <- list_elem_of_In. split.
  - intros [p (t & s & Ht & Hs & Hf)%(lg_consumer l Hl)]. exists t. split; [apply elem_of_get_opt; eauto|]. by exists s.
  - intros (t & Ht & s & Hf & Hs). apply elem_of_get_opt in Ht as [p Hp]. exists p. apply (lg_consumer l Hl). by exists t, s.
Qed.

Lemma produced_ids f : is_Some (producers l !! f) <-> f ∈ dest_ids (transitions l).
Proof.
  unfold dest_ids. rewrite list_elem_of_In, in_flat_map. setoid_rewrite in_map_iff. setoid_rewrite <- list_elem_of_In. split.
  - intros [p (t & s & Ht & Hs & Hf)%(lg_producer l Hl)]. exists t. split; [apply elem_of_get_opt; eauto|]. by exists s.
  - intros (t & Ht & s & Hf & Hs). apply elem_of_get_opt in Ht as [p Hp]. exists p. apply (lg_producer l Hl). by exists t, s.
Qed.

(** The walk from a fragment of a ledger. *)
Lemma destinations_walk lin source : tl_ledger lin = Some l ->
  exists out, destinations_of lin source = Ok (Some out) /\ NoDup out /\ forall g, g ∈ out <-> tc (hop l) source g.
Proof.
  intros E. unfold destinations_of. rewrite E. apply walk_reaches; [|cbn; lia].
  split; [set_solver|constructor|by intros x ?%not_elem_of_nil|by intros x ?%not_elem_of_nil|by intros x ->%list_elem_of_singleton; left|].
  intros f g [->|?%not_elem_of_nil] Hno; [|done]. destruct Hno. by apply list_elem_of_singleton.
Qed.

(** C23: the walk of the lineage from a fragment always ends.  It lists every
    fragment the rows were moved into, each once and never the fragment itself;
    one hop lists the destinations of the transition that consumed the
    fragment.  A history that is missing or not fully understood gives no
    answer. *)
Theorem lineage_destinations entry source :
  let lin := lineage_new entry (Some l) in
  (has_unsupported_transitions l = true -> destinations_of lin source = Ok None /\ immediate_destinations_of lin source = Ok None /\ mentions lin source = None) /\
  (has_unsupported_transitions l = false ->
     (exists out, destinations_of lin source = Ok (Some out) /\ NoDup out /\ (source ∉ out) /\ forall g, g ∈ out <-> tc (hop l) source g) /\
     (exists out, immediate_destinations_of lin source = Ok (Some out) /\ forall g, g ∈ out <-> hop l source g) /\
     exists b, mentions lin source = Some b /\ (b = true <-> source ∈ source_ids (transitions l) \/ source ∈ dest_ids (transitions l))).
Proof.
  intros lin. unfold lin, lineage_new. destruct (has_unsupported_transitions l); cbn [negb]; (split; [|try done]); [done|done|]. intros _. split; [|split].
  - destruct (destinations_walk (mkLineage (im_fragment_bitmap entry) (Some l)) source eq_refl) as (out & E & Hn & Hg).
    exists out. split; [done|]. split; [done|]. split; [|done]. rewrite Hg. apply hop_acyclic.
  - unfold immediate_destinations_of. cbn [tl_ledger]. destruct (consumer l source) as [p|] eqn:Ec.
    + destruct (proj1 (lg_consumer l Hl source p) Ec) as (t & s & Ht & Hst & Hid). unfold idx. rewrite Ht. mon.
      exists (map fd_id (destinations t)). split.
      * f_equal. assert (Htin : t ∈ transitions l) by (apply elem_of_get_opt; eauto). unfold u32_ids. apply mapM_Some. apply Forall2_fmap_r.
        apply Forall_Forall2_diag, Forall_forall. intros d Hd. by rewrite (proj2 (Z.leb_le _ _)) by (by apply (destination_u32 t d)).
      * intros g. rewrite hop_consumer. split; [intros (d & -> & Hd)%list_elem_of_fmap; by exists p, t, d|].
        intros (p' & t' & d & Hc' & Ht' & Hd' & <-). rewrite Ec in Hc'. injection Hc' as <-. rewrite Ht in Ht'. injection Ht' as <-. by apply list_elem_of_fmap_2.
    + exists []. split; [done|]. intros g. rewrite hop_consumer. split; [by intros ?%not_elem_of_nil|]. intros (p & t & d & Hc & _). congruence.
  - unfold mentions. cbn [tl_ledger option_map]. eexists. split; [done|]. unfold contains_fragment. rewrite orb_true_iff, !bool_decide_eq_true. rewrite <- consumed_ids, <- produced_ids. done.
Qed.

End Walk.

(** ** Examples *)

Module LineageExamples.
Import RemapExamples RemapChainExamples LedgerDecodeExamples.

#[local] Existing Instance CofiniteRoaring.
#[local] Existing Instance CofiniteRoaring_laws.
#[local] Existing Instance CofiniteRanks.
#[local] Existing Instance CofiniteRanks_laws.
#[local] Existing Instance ListTreemap.
#[local] Existing Instance ListTreemap_laws.
#[local] Existing Instance ListOrder.
#[local] Existing Instance ListOrder_laws.
#[local] Existing Instance WireProst.
#[local] Existing Instance WireProst_laws.
#[local] Existing Instance SmallCodec.
#[local] Existing Instance SmallCodec_laws.

Definition entry : IndexMetadata := mkIndex 1 [] [] FRAG_REUSE_INDEX_NAME 1 None None 1 None.

(** The rows of fragment 0 went to fragment 7 and from there to 8 and 9. *)
Lemma lineage_destinations_witness : exists l out, decode_content 1 records = Ok l /\ destinations_of (lineage_new entry (Some l)) 0 = Ok (Some out) /\
  NoDup out /\ (0 ∉ out) /\ forall g, g ∈ out <-> tc (Lineage.hop l) 0 g.
Proof.
  destruct records_ledger as (l & E & Hl & Hu). destruct (lineage_destinations l Hl entry 0) as [_ H]. destruct (H Hu) as [(out & Ho) _].
  exists l, out. split; [exact E|exact Ho].
Defined.

End LineageExamples.
