(* ===== verification/SchemaFields.v ===== *)
(** * Fields of a schema

    The walks over a schema's tree of fields that index maintenance uses:
    [Schema::field_by_id] and [field_ancestry_by_id]
    ([lance-core/src/datatypes/schema.rs], [field.rs]), [field_affects_index]
    ([lance-table/src/format/overlay/staleness.rs]) and [with_descendants]
    ([lance-table/src/transaction/index_maintenance.rs]). *)

From Stdlib Require Import ZArith Lia.
From stdpp Require Import base option list numbers sorting sets gmap.
From S2P Require Import Prelude Lists.

(** ** Model *)

Definition I32_MAX : Z := 2147483647.

(** *** The schema *)

(** [Field]: its id and its children. *)
Inductive Field := mkField (id : Z) (children : list Field).
Definition field_id (f : Field) : Z := let 'mkField id _ := f in id.
Definition children (f : Field) : list Field := let 'mkField _ children := f in children.

(** [Field::field_by_id]: the first nested child with the id, in pre-order. *)
Fixpoint nested_by_id (id : Z) (f : Field) : option Field :=
  let 'mkField _ children := f in
  (fix go (children : list Field) : option Field :=
     match children with
     | [] => None
     | child :: children =>
         if field_id child =? id then Some child else
         match nested_by_id id child with Some f => Some f | None => go children end
     end) children.

(** [Schema::field_by_id] *)
Definition field_by_id (schema : list Field) (id : Z) : option Field := nested_by_id id (mkField (-1) schema).

(** The fields of a tree. *)
Fixpoint tree_size (f : Field) : nat := let 'mkField _ children := f in S (list_sum (map tree_size children)).

(** The loop of [field_ancestry_by_id] over the paths to visit, the next one
    first; [fuel] bounds the fields visited. *)
Fixpoint visit_paths (fuel : nat) (id : Z) (to_visit : list (list Field)) : res (option (list Field)) :=
  match fuel with
  | O => Panic
  | S fuel =>
      match to_visit with
      | [] => Ok None
      | path :: to_visit =>
          match list.last path with
          | None => Panic
          | Some field =>
              if field_id field =? id then Ok (Some path)
              else visit_paths fuel id (reverse (map (fun child => path ++ [child]) (children field)) ++ to_visit)
          end
      end
  end.

Definition field_ancestry_by_id (schema : list Field) (id : Z) : res (option (list Field)) :=
  visit_paths (S (list_sum (map tree_size schema))) id (reverse (map (fun f => [f]) schema)).

(** [field_affects_index] *)
Definition in_ancestry (schema : list Field) (id ancestor : Z) : res bool :=
  ancestry ← field_ancestry_by_id schema id;
  Ok (match ancestry with Some path => existsb (fun f => field_id f =? ancestor) path | None => false end).

Fixpoint field_affects_index (schema : list Field) (field : Z) (indexed_field_ids : list Z) : res bool :=
  match indexed_field_ids with
  | [] => Ok false
  | indexed :: rest =>
      above ← in_ancestry schema field indexed;
      below ← in_ancestry schema indexed field;
      if (indexed =? field) || above || below then Ok true else field_affects_index schema field rest
  end.

(** The loop of [with_descendants] over the children, the next one first. *)
Fixpoint collect_children (fuel : nat) (pending : list Field) (expanded : list Z) : res (list Z) :=
  match fuel with
  | O => Panic
  | S fuel =>
      match pending with
      | [] => Ok expanded
      | child :: pending =>
          let expanded := if 0 <=? field_id child then expanded ++ [field_id child] else expanded in
          collect_children fuel (reverse (children child) ++ pending) expanded
      end
  end.

Definition with_descendants (schema : list Field) (fields : list Z) : res (list Z) :=
  expanded ← fold_res (fun expanded id =>
    let expanded := expanded ++ [id] in
    if I32_MAX <? id then Ok expanded else
    let pending := match field_by_id schema id with Some f => reverse (children f) | None => [] end in
    collect_children (S (list_sum (map tree_size pending))) pending expanded) [] fields;
  Ok (dedup (sort_unstable expanded)).

(** ** Fields of a schema *)

(** A field and everything nested in it. *)
Fixpoint fields_of (f : Field) : list Field := f :: (let 'mkField _ children := f in flat_map fields_of children).

(** The fields nested in [f]. *)
Definition nested (f : Field) : list Field := flat_map fields_of (children f).

Lemma fields_of_eq f : fields_of f = f :: nested f.
Proof. by destruct f. Qed.

Section FieldInduction.
Context (Q : Field -> Prop) (Hstep : forall id cs, Forall Q cs -> Q (mkField id cs)).

Fixpoint Field_ind' (f : Field) : Q f :=
  let 'mkField id cs := f in
  Hstep id cs ((fix go cs : Forall Q cs := match cs with [] => Forall_nil_2 _ | c :: cs => Forall_cons_2 _ _ _ (Field_ind' c) (go cs) end) cs).

End FieldInduction.

Lemma elem_of_flat {A B} (f : A -> list B) l x : x ∈ flat_map f l <-> exists y, y ∈ l /\ x ∈ f y.
Proof. rewrite list_elem_of_In, in_flat_map. by setoid_rewrite <- list_elem_of_In. Qed.

Lemma fields_of_trans f g h : g ∈ fields_of f -> h ∈ fields_of g -> h ∈ fields_of f.
Proof.
  revert g h. induction f as [id cs IH] using Field_ind'. intros g h Hg Hh. rewrite fields_of_eq in Hg |- *. apply elem_of_cons in Hg as [->|Hg]; [by rewrite fields_of_eq in Hh|].
  right. unfold nested in *. cbn [children] in *. apply elem_of_flat in Hg as (c & Hc & Hg). apply elem_of_flat. exists c. split; [done|].
  exact (proj1 (Forall_forall _ _) IH c Hc g h Hg Hh).
Qed.

Lemma find_app {A} (f : A -> bool) l k : List.find f (l ++ k) = match List.find f l with Some x => Some x | None => List.find f k end.
Proof. induction l as [|x l IH]; [done|]. cbn. by destruct (f x). Qed.

Lemma nested_by_id_find id f : nested_by_id id f = List.find (fun g => field_id g =? id) (nested f).
Proof.
  induction f as [fid cs IH] using Field_ind'. unfold nested. cbn [children]. induction IH as [|c cs Hc _ IHcs]; [done|]. cbn [flat_map]. rewrite fields_of_eq.
  cbn [nested_by_id app List.find]. destruct (field_id c =? id); [done|]. rewrite find_app, <- Hc. destruct (nested_by_id id c); [done|]. exact IHcs.
Qed.

Lemma tree_size_fields f : tree_size f = length (fields_of f).
Proof.
  induction f as [id cs IH] using Field_ind'. rewrite fields_of_eq. unfold nested. cbn [tree_size children length]. f_equal.
  induction IH as [|c cs Hc _ IHcs]; [done|]. cbn [map list_sum flat_map]. rewrite length_app, <- Hc, <- IHcs. done.
Qed.

Lemma tree_sizes fs : list_sum (map tree_size fs) = length (flat_map fields_of fs).
Proof. induction fs as [|f fs IH]; [done|]. cbn [map list_sum flat_map]. rewrite length_app, <- tree_size_fields. unfold list_sum in *. cbn. lia. Qed.

Lemma flat_map_reverse {A B} (f : A -> list B) l : flat_map f (reverse l) ≡ₚ flat_map f l.
Proof. apply Permutation_flat_map, reverse_Permutation. Qed.

(** *** Descendants *)

Lemma collect_children_ok fuel pending expanded : (length (flat_map fields_of pending) < fuel)%nat ->
  exists out, collect_children fuel pending expanded = Ok out /\
    forall x, x ∈ out <-> x ∈ expanded \/ (0 <= x /\ x ∈ map field_id (flat_map fields_of pending)).
Proof.
  revert pending expanded. induction fuel as [|fuel IH]; intros pending expanded Hf; [lia|]. cbn [collect_children]. destruct pending as [|c pending].
  { exists expanded. split; [done|]. intros x. split; [by left|]. by intros [?|[_ ?%not_elem_of_nil]]. }
  cbn [flat_map] in *. rewrite fields_of_eq in *. cbn [app length] in Hf. rewrite length_app in Hf.
  destruct (IH (reverse (children c) ++ pending) (if 0 <=? field_id c then expanded ++ [field_id c] else expanded)) as (out & E & Ho).
  { rewrite flat_map_app, length_app. rewrite (Permutation_length (flat_map_reverse fields_of (children c))). fold (nested c). lia. }
  exists out. split; [done|]. intros x. rewrite Ho, flat_map_app, map_app, elem_of_app. cbn [app map]. rewrite elem_of_cons, map_app, elem_of_app.
  rewrite (Permutation_map field_id (flat_map_reverse fields_of (children c))). fold (nested c).
  destruct (Z.leb_spec 0 (field_id c)); rewrite ?elem_of_app, ?list_elem_of_singleton; [intuition (subst; tauto)|]. split; [tauto|].
  intros [?|[? [->|?]]]; [tauto|lia|tauto].
Qed.

(** [a] is the id of a field that contains the one with id [x]. *)
Definition contains_field (schema : list Field) (a x : Z) : Prop :=
  exists f g, f ∈ flat_map fields_of schema /\ g ∈ nested f /\ field_id f = a /\ field_id g = x.

Definition ids_unique (schema : list Field) : Prop := NoDup (map field_id (flat_map fields_of schema)).

Lemma same_id schema f g : ids_unique schema -> f ∈ flat_map fields_of schema -> g ∈ flat_map fields_of schema -> field_id f = field_id g -> f = g.
Proof.
  intros Hu Hf Hg E. apply list_elem_of_lookup in Hf as [i Hi], Hg as [j Hj]. unfold ids_unique in Hu.
  assert (Hij : i = j).
  { apply (NoDup_lookup (map field_id (flat_map fields_of schema)) i j (field_id f) Hu); rewrite list_lookup_fmap; [by rewrite Hi|by rewrite Hj, E]. }
  subst j. rewrite Hi in Hj. by injection Hj.
Qed.

Lemma field_by_id_spec schema f : ids_unique schema -> f ∈ flat_map fields_of schema -> field_by_id schema (field_id f) = Some f.
Proof.
  intros Hu Hf. unfold field_by_id. rewrite nested_by_id_find. unfold nested. cbn [children].
  destruct (List.find (fun g => field_id g =? field_id f) (flat_map fields_of schema)) as [g|] eqn:E.
  - apply List.find_some in E as [Hg%list_elem_of_In Eid%Z.eqb_eq]. f_equal. by apply (same_id schema).
  - apply (List.find_none _ _) with (x := f) in E; [|by apply list_elem_of_In]. by rewrite Z.eqb_refl in E.
Qed.

Lemma with_descendants_ok schema fields : ids_unique schema -> Forall (fun f => 0 <= field_id f <= I32_MAX) (flat_map fields_of schema) ->
  exists out, with_descendants schema fields = Ok out /\ forall x, x ∈ out <-> x ∈ fields \/ exists a, a ∈ fields /\ contains_field schema a x.
Proof.
  intros Hu Hr. unfold with_descendants.
  enough (G : forall acc, exists out, fold_res (fun expanded id =>
    let expanded := expanded ++ [id] in
    if I32_MAX <? id then Ok expanded else
    let pending := match field_by_id schema id with Some f => reverse (children f) | None => [] end in
    collect_children (S (list_sum (map tree_size pending))) pending expanded) acc fields = Ok out /\
    forall x, x ∈ out <-> x ∈ acc \/ x ∈ fields \/ exists a, a ∈ fields /\ contains_field schema a x).
  { destruct (G []) as (out & E & Ho). cbn beta zeta in *. rewrite E. mon. eexists. split; [done|]. intros x. rewrite dedup_elem, sort_unstable_perm, Ho.
    split; [intros [?%not_elem_of_nil|?]; done|tauto]. }
  induction fields as [|a fields IH]; intros acc.
  { exists acc. split; [done|]. intros x. split; [tauto|]. intros [?|[?%not_elem_of_nil|(? & ?%not_elem_of_nil & _)]]; done. }
  cbn [fold_res]. cbn beta zeta.
  assert (Hnone : forall x, field_by_id schema a = None -> ~ contains_field schema a x).
  { intros x En (f & g & Hf & _ & <- & _). by rewrite field_by_id_spec in En. }
  assert (Hsome : forall f x, field_by_id schema a = Some f -> contains_field schema a x <-> x ∈ map field_id (nested f)).
  { intros f x E. assert (Hf : f ∈ flat_map fields_of schema /\ field_id f = a).
    { unfold field_by_id in E. rewrite nested_by_id_find in E. apply List.find_some in E as [Hf%list_elem_of_In Eid%Z.eqb_eq]. done. }
    destruct Hf as [Hf <-]. split.
    - intros (f' & g & Hf' & Hg & Eid & <-). rewrite (same_id schema f' f) in Hg by done. by apply list_elem_of_fmap_2.
    - intros (g & -> & Hg)%list_elem_of_fmap. by exists f, g. }
  assert (Hstep : exists mid, (if I32_MAX <? a then Ok (acc ++ [a]) else
      collect_children (S (list_sum (map tree_size match field_by_id schema a with Some f => reverse (children f) | None => [] end)))
        match field_by_id schema a with Some f => reverse (children f) | None => [] end (acc ++ [a])) = Ok mid /\
      forall x, x ∈ mid <-> x ∈ acc \/ x = a \/ contains_field schema a x).
  { destruct (Z.ltb_spec I32_MAX a) as [Hbig|Hsmall].
    - eexists. split; [done|]. intros x. rewrite elem_of_app, list_elem_of_singleton. split; [tauto|]. intros [?|[?|(f & g & Hf & _ & Ea & _)]]; [tauto|tauto|].
      apply (proj1 (Forall_forall _ _) Hr) in Hf. lia.
    - rewrite tree_sizes. destruct (collect_children_ok (S (length (flat_map fields_of match field_by_id schema a with Some f => reverse (children f) | None => [] end)))
        match field_by_id schema a with Some f => reverse (children f) | None => [] end (acc ++ [a]) ltac:(lia)) as (mid & E & Hm).
      exists mid. split; [done|]. intros x. rewrite Hm, elem_of_app, list_elem_of_singleton. destruct (field_by_id schema a) as [f|] eqn:Ef.
      + rewrite (Hsome f x eq_refl). rewrite (Permutation_map field_id (flat_map_reverse fields_of (children f))). fold (nested f).
        assert (Hpos : x ∈ map field_id (nested f) -> 0 <= x).
        { intros Hx. apply (Hsome f x eq_refl) in Hx as (f' & g & Hf' & Hg & _ & <-). apply elem_of_flat in Hf' as (r & Hrt & Hf').
          assert (Hgs : g ∈ flat_map fields_of schema) by (apply elem_of_flat; exists r; split; [done|]; apply (fields_of_trans r f' g Hf'); rewrite fields_of_eq; by right).
          apply (proj1 (Forall_forall _ _) Hr) in Hgs. lia. }
        tauto.
      + specialize (Hnone x eq_refl). cbn. split; [intros [[?|?]|[_ ?%not_elem_of_nil]]; tauto|tauto]. }
  destruct Hstep as (mid & -> & Hmid). mon. destruct (IH mid) as (out & E & Ho). exists out. split; [exact E|]. intros x. rewrite Ho, Hmid, elem_of_cons.
  split; [intros [[?|[?|?]]|[?|(b & ? & ?)]]; [tauto|tauto|right; right; exists a; split; [left|done]|tauto|right; right; exists b; split; [by right|done]]|].
  intros [?|[[?|?]|(b & [->|?]%elem_of_cons & ?)]]; [tauto|tauto|tauto|tauto|right; right; by exists b].
Qed.

(** *** Ancestors *)

(** A path from a root down to a field. *)
Fixpoint chain_in (fs : list Field) (path : list Field) : Prop :=
  match path with [] => True | f :: path => f ∈ fs /\ chain_in (children f) path end.

Lemma chain_snoc fs path f c : chain_in fs path -> list.last path = Some f -> c ∈ children f -> chain_in fs (path ++ [c]).
Proof.
  revert fs. induction path as [|x path IH]; intros fs Hp Hl Hc; [done|]. destruct Hp as [Hx Hp]. cbn [app chain_in]. split; [done|].
  destruct path as [|y path]; [injection Hl as ->; by split|]. by apply IH.
Qed.

(** Everything on a path contains its end. *)
Lemma chain_contains fs path g f : chain_in fs path -> list.last path = Some g -> f ∈ path -> f ∈ flat_map fields_of fs /\ g ∈ fields_of f.
Proof.
  revert fs f. induction path as [|x path IH]; intros fs f Hp Hl Hf; [done|]. destruct Hp as [Hx Hp]. apply elem_of_cons in Hf as [->|Hf].
  - split; [apply elem_of_flat; exists x; split; [done|]; rewrite fields_of_eq; left|]. destruct path as [|y path]; [injection Hl as ->; rewrite fields_of_eq; left|].
    destruct (IH (children x) y Hp Hl ltac:(left)) as [H1 H2]. rewrite fields_of_eq. right. unfold nested. apply elem_of_flat in H1 as (c & Hc & H1).
    apply elem_of_flat. exists c. split; [done|]. by apply (fields_of_trans c y g).
  - destruct path as [|y path]; [by apply not_elem_of_nil in Hf|]. destruct (IH (children x) f Hp Hl Hf) as [H1 H2]. split; [|done].
    apply elem_of_flat. exists x. split; [done|]. rewrite fields_of_eq. by right.
Qed.

Lemma ids_unique_part fs p q x : ids_unique fs -> p ∈ fs -> q ∈ fs -> x ∈ map field_id (fields_of p) -> x ∈ map field_id (fields_of q) -> p = q.
Proof.
  intros Hu Hp Hq. revert Hu Hp Hq. unfold ids_unique. induction fs as [|f fs IH]; intros Hu Hp Hq Hx Hx'; [by apply not_elem_of_nil in Hp|].
  cbn [flat_map] in Hu. rewrite map_app in Hu. apply NoDup_app in Hu as (_ & Hd & Hu).
  assert (Hin : forall r, r ∈ fs -> forall y, y ∈ map field_id (fields_of r) -> y ∈ map field_id (flat_map fields_of fs)).
  { intros r Hr y (g & -> & Hg)%list_elem_of_fmap. apply list_elem_of_fmap_2, elem_of_flat. by exists r. }
  apply elem_of_cons in Hp as [->|Hp], Hq as [->|Hq]; [done| | |by apply IH].
  - destruct (Hd x Hx). by apply (Hin q).
  - destruct (Hd x Hx'). by apply (Hin p).
Qed.

Lemma ids_unique_inner fs p : ids_unique fs -> p ∈ fs -> ids_unique (children p) /\ field_id p ∉ map field_id (nested p).
Proof.
  intros Hu (l & r & ->)%list_elem_of_split. unfold ids_unique in *. rewrite flat_map_app, map_app in Hu. apply NoDup_app in Hu as (_ & _ & Hu).
  cbn [flat_map] in Hu. rewrite map_app in Hu. apply NoDup_app in Hu as (Hu & _ & _). rewrite fields_of_eq in Hu. cbn [map] in Hu. inversion Hu; subst. done.
Qed.

(** With unique ids, whatever contains the end of a path is on it. *)
Lemma chain_complete fs path g f g' : ids_unique fs -> chain_in fs path -> list.last path = Some g ->
  f ∈ flat_map fields_of fs -> g' ∈ fields_of f -> field_id g' = field_id g -> f ∈ path.
Proof.
  revert fs. induction path as [|p path IH]; intros fs Hu Hp Hl Hf Hg E; [done|]. destruct Hp as [Hpf Hp].
  apply elem_of_flat in Hf as (q & Hq & Hf). assert (Hgq : g' ∈ fields_of q) by (by apply (fields_of_trans q f g')).
  assert (Hgp : g ∈ fields_of p) by (apply (chain_contains fs (p :: path) g p); [by split|done|left]).
  assert (p = q) as <- by (apply (ids_unique_part fs p q (field_id g) Hu Hpf Hq); [by apply list_elem_of_fmap_2|rewrite <- E; by apply list_elem_of_fmap_2]).
  rewrite fields_of_eq in Hf. apply elem_of_cons in Hf as [->|Hf]; [left|]. right. destruct (ids_unique_inner fs p Hu Hpf) as [Huc Hno].
  destruct path as [|y path].
  - injection Hl as ->. destruct Hno. rewrite <- E. apply list_elem_of_fmap_2. unfold nested in *. apply elem_of_flat in Hf as (c & Hc & Hf). apply elem_of_flat.
    exists c. split; [done|]. by apply (fields_of_trans c f g').
  - by apply (IH (children p)).
Qed.

Lemma visit_paths_ok fs fuel id to_visit lasts : Forall2 (fun path f => chain_in fs path /\ list.last path = Some f) to_visit lasts ->
  (length (flat_map fields_of lasts) < fuel)%nat ->
  (exists path g, visit_paths fuel id to_visit = Ok (Some path) /\ chain_in fs path /\ list.last path = Some g /\ field_id g = id) \/
  (visit_paths fuel id to_visit = Ok None /\ id ∉ map field_id (flat_map fields_of lasts)).
Proof.
  revert to_visit lasts. induction fuel as [|fuel IH]; intros to_visit lasts Hv Hf; [lia|]. cbn [visit_paths]. destruct Hv as [|path f to_visit lasts [Hc Hl] Hv].
  { right. split; [done|]. apply not_elem_of_nil. }
  rewrite Hl. destruct (Z.eqb_spec (field_id f) id) as [<-|Hne]; [left; by exists path, f|]. cbn [flat_map] in *. rewrite fields_of_eq in *. cbn [app length] in Hf. rewrite length_app in Hf.
  destruct (IH (reverse (map (fun child => path ++ [child]) (children f)) ++ to_visit) (reverse (children f) ++ lasts)) as [H|[E Hno]].
  - apply Forall2_app; [|done]. apply Forall2_reverse, Forall2_fmap_l, Forall_Forall2_diag, Forall_forall. intros c Hcf.
    split; [by apply (chain_snoc fs path f c)|]. apply last_snoc.
  - rewrite flat_map_app, length_app, (Permutation_length (flat_map_reverse fields_of (children f))). fold (nested f). lia.
  - by left.
  - right. split; [done|]. rewrite flat_map_app, map_app, not_elem_of_app, (Permutation_map field_id (flat_map_reverse fields_of (children f))) in Hno. fold (nested f) in Hno.
    cbn [app map]. rewrite map_app, not_elem_of_cons, not_elem_of_app. split; [by intros ->|done].
Qed.

(** An ancestor is the field itself or a field that contains it. *)
Lemma in_ancestry_ok schema id a : ids_unique schema -> exists b, in_ancestry schema id a = Ok b /\
  (b = true <-> contains_field schema a id \/ (a = id /\ id ∈ map field_id (flat_map fields_of schema))).
Proof.
  intros Hu. unfold in_ancestry, field_ancestry_by_id. rewrite tree_sizes.
  destruct (visit_paths_ok schema (S (length (flat_map fields_of schema))) id (reverse (map (fun f => [f]) schema)) (reverse schema)) as [(path & g & -> & Hc & Hl & Eg)|[-> Hno]].
  - apply Forall2_reverse, Forall2_fmap_l, Forall_Forall2_diag, Forall_forall. intros f Hf. by split; [split|].
  - rewrite (Permutation_length (flat_map_reverse fields_of schema)). lia.
  - mon. eexists. split; [done|]. rewrite existsb_exists. setoid_rewrite <- list_elem_of_In. split.
    + intros (f & Hf & <-%Z.eqb_eq). destruct (chain_contains schema path g f Hc Hl Hf) as [H1 H2]. rewrite fields_of_eq in H2. apply elem_of_cons in H2 as [->|H2].
      * right. split; [done|]. rewrite <- Eg. by apply list_elem_of_fmap_2.
      * left. by exists f, g.
    + intros [(f & h & Hf & Hh & <- & Eh)|[-> Hin]].
      * exists f. split; [|apply Z.eqb_refl]. apply (chain_complete schema path g f h Hu Hc Hl Hf); [rewrite fields_of_eq; by right|congruence].
      * exists g. split; [by apply last_Some_elem_of|]. by apply Z.eqb_eq.
  - mon. exists false. split; [done|]. split; [done|]. rewrite (Permutation_map field_id (flat_map_reverse fields_of schema)) in Hno.
    intros [(f & g & Hf & Hg & _ & <-)|[_ Hin]]; [|done]. destruct Hno. apply list_elem_of_fmap_2. apply elem_of_flat in Hf as (r & Hr & Hf). apply elem_of_flat.
    exists r. split; [done|]. apply (fields_of_trans r f g Hf). rewrite fields_of_eq. by right.
Qed.

Lemma field_affects_ok schema field indexed : ids_unique schema -> exists b, field_affects_index schema field indexed = Ok b /\
  (b = true <-> exists d, d ∈ indexed /\ (d = field \/ contains_field schema d field \/ contains_field schema field d)).
Proof.
  intros Hu. induction indexed as [|d indexed IH].
  { exists false. split; [done|]. split; [done|]. by intros (d & ?%not_elem_of_nil & _). }
  cbn [field_affects_index]. destruct (in_ancestry_ok schema field d Hu) as (above & -> & Ha). mon. destruct (in_ancestry_ok schema d field Hu) as (below & -> & Hb). mon.
  destruct ((d =? field) || above || below) eqn:E.
  - exists true. split; [done|]. split; [intros _|done]. exists d. split; [left|]. apply orb_true_iff in E as [E|E]; [apply orb_true_iff in E as [->%Z.eqb_eq|E]|]; [by left| |].
    + apply Ha in E as [?|[-> _]]; [right; by left|by left].
    + apply Hb in E as [?|[-> _]]; [right; by right|by left].
  - destruct IH as (b & -> & Hbi). exists b. split; [done|]. rewrite Hbi. apply orb_false_iff in E as [E E3]. apply orb_false_iff in E as [E1%Z.eqb_neq E2].
    split; [intros (d' & ? & ?); exists d'; split; [by right|done]|]. intros (d' & [->|Hd]%elem_of_cons & Hr); [|by exists d'].
    destruct Hr as [?|[?|?]]; [done| |]; [rewrite (proj2 Ha) in E2 by (by left)|rewrite (proj2 Hb) in E3 by (by left)]; done.
Qed.

Lemma child_size c cs : c ∈ cs -> (tree_size c <= list_sum (map tree_size cs))%nat.
Proof.
  induction cs as [|x cs IH]; [by intros ?%not_elem_of_nil|]. cbn. intros [->|Hc]%elem_of_cons; [lia|]. specialize (IH Hc). unfold list_sum in IH. lia.
Qed.

Lemma nested_size a b : b ∈ fields_of a -> (tree_size b <= tree_size a)%nat.
Proof.
  revert b. induction a as [id cs IH] using Field_ind'. intros b Hb. rewrite fields_of_eq in Hb. apply elem_of_cons in Hb as [->|Hb]; [done|].
  unfold nested in Hb. cbn [children] in Hb. apply elem_of_flat in Hb as (c & Hc & Hb). pose proof (proj1 (Forall_forall _ _) IH c Hc b Hb).
  pose proof (child_size c cs Hc). cbn [tree_size]. lia.
Qed.

(** No field is nested in itself. *)
Lemma self_nested f : f ∉ nested f.
Proof.
  intros (c & Hc & Hf)%elem_of_flat. pose proof (nested_size c f Hf). pose proof (child_size c _ Hc). destruct f as [id cs]. cbn [children tree_size] in *. lia.
Qed.
