(* ===== verification/IndexCoverage.v ===== *)
(** * Index coverage

    [lance-table/src/transaction/index_maintenance.rs]: which fragments an index
    still covers after columns were rewritten in place, or after compaction
    replaced fragments. *)

From Stdlib Require Import ZArith Lia.
From stdpp Require Import base option list numbers sorting sets gmap strings relations.
From S2P Require Import Prelude Lists Bits RowAddress HoleRuns SegmentBuild Sequence Itertools Roaring Prost RankedOffsets Remap RemapChain FragmentReuse Ledger LedgerOrder LedgerDecode Lineage SchemaFields.

(** ** Model *)

Definition MEM_WAL_INDEX_NAME : string := "__lance_mem_wal".

Section CoverageModel.
Context {RB : Roaring}.

Definition is_system_index (index : IndexMetadata) : bool :=
  bool_decide (im_name index = FRAG_REUSE_INDEX_NAME) || bool_decide (im_name index = MEM_WAL_INDEX_NAME).

Definition dependency_fields (index : IndexMetadata) : list Z :=
  if forallb (fun field => bool_decide (field ∈ im_fields index)) (im_covering_fields index) then im_fields index
  else foldl (fun fields field => if bool_decide (field ∈ fields) then fields else fields ++ [field]) (im_fields index) (im_covering_fields index).

(** Replacing the bitmap of an index. *)
Definition with_bitmap (index : IndexMetadata) (b : option bitmap) : IndexMetadata :=
  mkIndex (im_uuid index) (im_fields index) (im_covering_fields index) (im_name index) (im_dataset_version index) b (im_index_details index) (im_index_version index) (im_created_at index).

(** Whether the rows of a retired [source] may be in the [rewritten] fragment. *)
Definition source_hit (lineage : option TaggedLineage) (source rewritten : Z) : res bool :=
  destinations ← match lineage with Some lineage => destinations_of lineage source | None => Ok None end;
  Ok (match destinations with Some destinations => bool_decide (rewritten ∈ destinations) | None => true end).

(** One rewritten fragment. *)
Definition withdraw_rewrite (lineage : option TaggedLineage) (indexed : list Z) (b retired withdrawn : bitmap) (rewrite : Z * list Z) : res bitmap :=
  let '(fragment, fields) := rewrite in
  if negb (existsb (fun field => bool_decide (field ∈ indexed)) fields) then Ok withdrawn else
  if U32_MAX <? fragment then Ok withdrawn else
  let withdrawn := if bm_contains b fragment then fst (bm_insert withdrawn fragment) else withdrawn in
  fold_res (fun withdrawn source =>
    hit ← source_hit lineage source fragment;
    Ok (if hit : bool then fst (bm_insert withdrawn source) else withdrawn)) withdrawn (bm_iter retired).

(** Whether the reader would translate what is left of the bitmap. *)
Definition reader_translates (lineage : option TaggedLineage) (live b : bitmap) : bool :=
  negb (bm_is_subset b live) ||
  existsb (fun fragment => default true (match lineage with Some lineage => mentions lineage fragment | None => None end)) (bm_iter b).

(** One index: its new state, and whether its coverage was emptied. *)
Definition withdraw_index (lineage : option TaggedLineage) (live : bitmap) (rewrites : option (list (Z * list Z))) (index : IndexMetadata) :
    res (IndexMetadata * bool) :=
  if is_system_index index then Ok (index, false) else
  let indexed := List.filter (fun field => 0 <=? field) (dependency_fields index) in
  match im_fragment_bitmap index with
  | None => match rewrites with None => Ok (with_bitmap index (Some bm_new), true) | Some _ => Ok (index, false) end
  | Some b =>
      let retired := bm_sub b live in
      withdrawn ← match rewrites with
        | Some rewrites => fold_res (withdraw_rewrite lineage indexed b retired) bm_new rewrites
        | None => Ok retired
        end;
      if bm_is_empty withdrawn then Ok (index, false) else
      let b := bm_sub b withdrawn in
      let withdrew_retired := negb (bm_is_empty (bm_and withdrawn retired)) in
      let b := if withdrew_retired && negb (bm_is_empty b) && negb (reader_translates lineage live b) then bm_new else b in
      Ok (with_bitmap index (Some b), bm_is_empty b)
  end.

(** [retire_emptied_segments] *)
Definition has_serving_sibling (indices : list IndexMetadata) (uuid : Z) : bool :=
  match List.find (fun index => im_uuid index =? uuid) indices with
  | None => false
  | Some index =>
      existsb (fun sibling => bool_decide (im_name sibling = im_name index) && negb (im_uuid sibling =? uuid) &&
        match im_fragment_bitmap sibling with Some b => negb (bm_is_empty b) | None => true end) indices
  end.

Definition retire_emptied_segments (indices : list IndexMetadata) (emptied : list Z) : list IndexMetadata :=
  let removable := List.filter (has_serving_sibling indices) emptied in
  match removable with
  | [] => indices
  | _ => List.filter (fun index => negb (bool_decide (im_uuid index ∈ removable))) indices
  end.

Definition withdraw_coverage (indices : list IndexMetadata) (lineage : option TaggedLineage) (live : bitmap) (rewrites : option (list (Z * list Z))) :
    res (list IndexMetadata) :=
  outs ← map_res (withdraw_index lineage live rewrites) indices;
  Ok (retire_emptied_segments (map fst outs) (map (fun out => im_uuid (fst out)) (List.filter snd outs))).

Definition withdraw_rewritten_coverage indices lineage live rewrites := withdraw_coverage indices lineage live (Some rewrites).
Definition withdraw_unverified_retired_coverage indices lineage live := withdraw_coverage indices (Some lineage) live None.

(** [index_depends_on_any]: [any] with [i32::try_from]. *)
Fixpoint depends_on_any (schema : list Field) (dependency : list Z) (field_ids : list Z) : res bool :=
  match field_ids with
  | [] => Ok false
  | field :: field_ids =>
      hit ← (if field <=? I32_MAX then field_affects_index schema field dependency else Ok false);
      if hit : bool then Ok true else depends_on_any schema dependency field_ids
  end.

Definition index_depends_on_any (schema : list Field) (index : IndexMetadata) (field_ids : list Z) : res bool :=
  depends_on_any schema (dependency_fields index) field_ids.

Definition expand_rewritten_fields (schema : list Field) (rewrites : list (Z * list Z)) : res (list (Z * list Z)) :=
  map_res (fun rewrite => fields ← with_descendants schema (snd rewrite); Ok (fst rewrite, fields)) rewrites.

(** One rewritten fragment, without a tagged history. *)
Definition prune_rewrite (schema : list Field) (indices : list IndexMetadata) (rewrite : Z * list Z) : res (list IndexMetadata) :=
  let '(fragment, fields) := rewrite in
  if U32_MAX <? fragment then Ok indices else
  map_res (fun index =>
    hit ← index_depends_on_any schema index fields;
    Ok (match hit : bool, im_fragment_bitmap index with
        | true, Some b => with_bitmap index (Some (fst (bm_remove b fragment)))
        | _, _ => index
        end)) indices.

Definition withdraw_in_place_rewrites (indices : list IndexMetadata) (rewrites : list (Z * list Z)) (schema : list Field) (live : bitmap)
    (lineage : option TaggedLineage) : res (list IndexMetadata) :=
  match rewrites with
  | [] => Ok indices
  | _ =>
      match lineage with
      | Some lineage =>
          rewrites ← expand_rewritten_fields schema rewrites;
          withdraw_rewritten_coverage indices (Some lineage) live rewrites
      | None => fold_res (prune_rewrite schema) indices rewrites
      end
  end.

(** *** Compaction *)

(** A rewrite group: the ids of its old and its new fragments. *)
Record RewriteGroup := mkRewriteGroup { old_fragments : list Z; new_fragments : list Z }.

(** The body of the loop over the groups. *)
Definition recalculate_group (old new_bitmap : bitmap) (group : RewriteGroup) : res bitmap :=
  let any_in_index := existsb (fun frag => bm_contains old (wrap32 frag)) (old_fragments group) in
  let all_in_index := forallb (fun frag => bm_contains old (wrap32 frag)) (old_fragments group) in
  if any_in_index then
    if all_in_index then
      let new_bitmap := foldl (fun b frag => fst (bm_remove b (wrap32 frag))) new_bitmap (old_fragments group) in
      Ok (bm_extend new_bitmap (map wrap32 (new_fragments group)))
    else Err InvalidInput
  else Ok new_bitmap.

Definition recalculate_fragment_bitmap (old : bitmap) (groups : list RewriteGroup) : res bitmap :=
  fold_res (recalculate_group old) old groups.

Definition ordered_rewrite_groups (groups : list RewriteGroup) (reordered_sources : option bitmap) : res (list RewriteGroup) :=
  match reordered_sources with
  | None => Ok groups
  | Some sources =>
      fold_res (fun ordered group =>
        let covered := zlen (List.filter (fun frag => bm_contains sources (wrap32 frag)) (old_fragments group)) in
        if covered =? 0 then Ok (ordered ++ [group])
        else if negb (covered =? zlen (old_fragments group)) then Err InvalidInput
        else Ok ordered) [] groups
  end.

Definition prune_updated_fragment_ids_from_indices (indices : list IndexMetadata) (fragment_ids : bitmap) (fields_modified : list Z) : list IndexMetadata :=
  match fields_modified with
  | [] => indices
  | _ =>
      if bm_is_empty fragment_ids then indices else
      map (fun index =>
        if existsb (fun field => bool_decide (field ∈ fields_modified)) (dependency_fields index) then
          match im_fragment_bitmap index with Some b => with_bitmap index (Some (bm_sub b fragment_ids)) | None => index end
        else index) indices
  end.

End CoverageModel.

(** ** Withdrawing coverage *)

Section Withdraw.
Context {RB : Roaring} {RL : RoaringLaws RB} {RR : RoaringRanks RB} {RRL : RoaringRanksLaws RR}
  {TP : TreemapParts RB} {TPL : TreemapPartsLaws TP} {HO : HashOrder} {HOL : HashOrderLaws HO} {P : Prost} {PL : ProstLaws}
  {RC : ReuseCodec RB TP} {RCL : ReuseCodecLaws RC}.

(** The history of a lineage, if it can be walked. *)
Definition history_of (lineage : option TaggedLineage) : option FragReuseLedger := match lineage with Some lineage => tl_ledger lineage | None => None end.
Definition lineage_wf (lineage : option TaggedLineage) : Prop := forall l, history_of lineage = Some l -> ledger_ok l.

(** Rows of [source] may have been moved into [rewritten]. *)
Definition moved_into (lineage : option TaggedLineage) (source rewritten : Z) : Prop :=
  match history_of lineage with Some l => tc (hop l) source rewritten | None => True end.

Context (lineage : option TaggedLineage) (Hlin : lineage_wf lineage) (live : bitmap).

Lemma source_hit_ok source rewritten : exists b, source_hit lineage source rewritten = Ok b /\ (b = true <-> moved_into lineage source rewritten).
Proof.
  unfold source_hit, moved_into, lineage_wf in *. destruct lineage as [lin|]; cbn [history_of] in *; [|by exists true].
  destruct (tl_ledger lin) as [l|] eqn:E.
  - destruct (destinations_walk l (Hlin l eq_refl) lin source E) as (out & -> & _ & Hout). mon. eexists. split; [done|]. rewrite bool_decide_eq_true. apply Hout.
  - unfold destinations_of. rewrite E. mon. by exists true.
Qed.

(** The rewrite invalidates the index's coverage of [f]. *)
Definition stale_by (indexed : list Z) (b : bitmap) (rewrite : Z * list Z) (f : Z) : Prop :=
  bm_contains b f = true /\ fst rewrite <= U32_MAX /\ (exists x, x ∈ snd rewrite /\ x ∈ indexed) /\
  (f = fst rewrite \/ (bm_contains live f = false /\ moved_into lineage f (fst rewrite))).

Lemma withdraw_rewrite_ok indexed b w rewrite : exists w', withdraw_rewrite lineage indexed b (bm_sub b live) w rewrite = Ok w' /\
  forall v, bm_contains w' v = true <-> bm_contains w v = true \/ stale_by indexed b rewrite v.
Proof.
  destruct rewrite as [fr fields]. unfold withdraw_rewrite, stale_by. cbn [fst snd].
  destruct (existsb (fun field => bool_decide (field ∈ indexed)) fields) eqn:Ex; cbn [negb].
  2: { exists w. split; [done|]. intros v. split; [tauto|]. intros [?|(_ & _ & (x & Hx & Hi) & _)]; [done|]. exfalso.
    assert (existsb (fun field => bool_decide (field ∈ indexed)) fields = true); [|congruence]. apply existsb_exists. exists x. split; [by apply list_elem_of_In|by apply bool_decide_true]. }
  apply existsb_exists in Ex as (x & Hx%list_elem_of_In & Hi%bool_decide_eq_true). destruct (Z.ltb_spec U32_MAX fr).
  { exists w. split; [done|]. intros v. split; [tauto|]. intros [?|(_ & ? & _)]; [done|lia]. }
  assert (Hw0 : forall v, bm_contains (if bm_contains b fr then fst (bm_insert w fr) else w) v = true <-> bm_contains w v = true \/ (v = fr /\ bm_contains b fr = true)).
  { intros v. destruct (bm_contains b fr) eqn:Eb; [|split; [tauto|by intros [?|[_ ?]]]]. rewrite bm_contains_insert by (by apply bm_contains_u32 in Eb).
    rewrite orb_true_iff, Z.eqb_eq. tauto. }
  revert Hw0. generalize (if bm_contains b fr then fst (bm_insert w fr) else w) as w0. intros w0 Hw0.
  assert (Hsrc : Forall (fun s => bm_contains b s = true /\ bm_contains live s = false) (bm_iter (bm_sub b live))).
  { apply Forall_forall. intros s Hs%bm_iter_elem. rewrite bm_contains_sub, andb_true_iff, negb_true_iff in Hs. done. }
  assert (Hall : forall v, v ∈ bm_iter (bm_sub b live) <-> bm_contains b v = true /\ bm_contains live v = false).
  { intros v. rewrite bm_iter_elem, bm_contains_sub, andb_true_iff, negb_true_iff. done. }
  enough (G : forall l w0, Forall (fun s => bm_contains b s = true /\ bm_contains live s = false) l -> exists w', fold_res (fun withdrawn source =>
      hit ← source_hit lineage source fr; Ok (if hit : bool then fst (bm_insert withdrawn source) else withdrawn)) w0 l = Ok w' /\
      forall v, bm_contains w' v = true <-> bm_contains w0 v = true \/ (v ∈ l /\ moved_into lineage v fr)).
  { destruct (G _ w0 Hsrc) as (w' & E & Hw'). exists w'. split; [done|]. intros v. rewrite Hw', Hw0, Hall. split.
    - intros [[?|[-> ?]]|[[? ?] ?]]; [by left|right; split; [done|]; split; [done|]; split; [by exists x|by left]|right].
      split; [done|]. split; [done|]. split; [by exists x|by right].
    - intros [?|(? & _ & _ & [->|[? ?]])]; [by left; left|left; by right|by right]. }
  clear Hw0 Hsrc Hall w0. induction l as [|s l IH]; intros w0 Hl.
  { exists w0. split; [done|]. intros v. split; [tauto|]. by intros [?|[?%not_elem_of_nil _]]. }
  inversion Hl as [|?? [Hs _] Hl']; subst. cbn [fold_res]. destruct (source_hit_ok s fr) as (hit & -> & Hhit). mon.
  destruct (IH (if hit then fst (bm_insert w0 s) else w0) Hl') as (w' & E & Hw'). exists w'. split; [done|]. intros v. rewrite Hw', elem_of_cons.
  destruct hit.
  - rewrite bm_contains_insert by (by apply bm_contains_u32 in Hs). rewrite orb_true_iff, Z.eqb_eq. assert (moved_into lineage s fr) by (by apply Hhit). split; [|intros [?|[[->|?] ?]]; tauto].
    intros [[->|?]|[? ?]]; [right; split; [by left|done]|tauto|tauto].
  - split; [tauto|]. intros [?|[[->|?] Hm]]; [tauto| |tauto]. by apply Hhit in Hm.
Qed.

Definition stale (indexed : list Z) (b : bitmap) (rewrites : list (Z * list Z)) (f : Z) : Prop := exists r, r ∈ rewrites /\ stale_by indexed b r f.

Lemma withdraw_rewrites_ok indexed b rewrites : exists w, fold_res (withdraw_rewrite lineage indexed b (bm_sub b live)) bm_new rewrites = Ok w /\
  forall v, bm_contains w v = true <-> stale indexed b rewrites v.
Proof.
  enough (G : forall w0, exists w, fold_res (withdraw_rewrite lineage indexed b (bm_sub b live)) w0 rewrites = Ok w /\
    forall v, bm_contains w v = true <-> bm_contains w0 v = true \/ stale indexed b rewrites v).
  { destruct (G bm_new) as (w & E & Hw). exists w. split; [done|]. intros v. rewrite Hw, bm_contains_new. split; [by intros [?|?]|by right]. }
  unfold stale. induction rewrites as [|r rewrites IH]; intros w0.
  { exists w0. split; [done|]. intros v. split; [tauto|]. by intros [?|(? & ?%not_elem_of_nil & _)]. }
  cbn [fold_res]. destruct (withdraw_rewrite_ok indexed b w0 r) as (w1 & -> & H1). mon. destruct (IH w1) as (w & E & Hw). exists w. split; [done|].
  intros v. rewrite Hw, H1. split; [intros [[?|?]|(r' & ? & ?)]; [tauto|right; exists r; split; [left|done]|right; exists r'; split; [by right|done]]|].
  intros [?|(r' & [->|?]%elem_of_cons & ?)]; [tauto|tauto|right; by exists r'].
Qed.

(** The fragment is on the walkable history. *)
Definition mentioned (f : Z) : Prop := match history_of lineage with Some l => contains_fragment l f = true | None => True end.

Lemma reader_translates_iff b : reader_translates lineage live b = true <-> exists v, bm_contains b v = true /\ (bm_contains live v = false \/ mentioned v).
Proof.
  unfold reader_translates, mentioned. rewrite orb_true_iff, negb_true_iff, existsb_exists. setoid_rewrite <- list_elem_of_In. setoid_rewrite bm_iter_elem.
  assert (Hm : forall f, default true (match lineage with Some lineage => mentions lineage f | None => None end) = true <->
    match history_of lineage with Some l => contains_fragment l f = true | None => True end).
  { intros f. unfold history_of, mentions. destruct lineage as [lin|]; [|done]. by destruct (tl_ledger lin). }
  setoid_rewrite Hm. split.
  - intros [Hsub|(v & Hv & Hmv)]; [|exists v; tauto]. rewrite bm_is_subset_sub, bm_is_empty_false in Hsub. destruct Hsub as [v Hv].
    rewrite bm_contains_sub, andb_true_iff, negb_true_iff in Hv. exists v. tauto.
  - intros (v & Hv & [Hl|Hmv]); [left|right; by exists v]. rewrite bm_is_subset_sub. apply bm_is_empty_false. exists v. by rewrite bm_contains_sub, Hv, Hl.
Qed.

(** The fields by which an index depends on the data. *)
Definition indexed_fields (i : IndexMetadata) : list Z := List.filter (fun field => 0 <=? field) (dependency_fields i).

(** What is left of the coverage [b] after withdrawing [bad]. *)
Record coverage_left (bad : Z -> Prop) (b b' : bitmap) : Prop := {
  cl_sound v : bm_contains b' v = true -> bm_contains b v = true /\ ~ bad v;
  cl_translated r : bm_contains b r = true -> bad r -> bm_contains live r = false ->
    bm_is_empty b' = true \/ exists v, bm_contains b' v = true /\ (bm_contains live v = false \/ mentioned v);
  cl_kept : (forall v, bm_contains b v = true -> ~ bad v -> bm_contains b' v = true) \/
    (bm_is_empty b' = true /\ (exists r, bm_contains b r = true /\ bad r /\ bm_contains live r = false) /\
     forall v, bm_contains b v = true -> ~ bad v -> bm_contains live v = true /\ ~ mentioned v)
}.

Lemma withdraw_left b w bad : (forall v, bm_contains w v = true <-> bm_contains b v = true /\ bad v) -> bm_is_empty w = false ->
  let left := bm_sub b w in
  coverage_left bad b (if negb (bm_is_empty (bm_and w (bm_sub b live))) && negb (bm_is_empty left) && negb (reader_translates lineage live left) then bm_new else left).
Proof.
  intros Hw He left. assert (Hleft : forall v, bm_contains left v = true <-> bm_contains b v = true /\ ~ bad v).
  { intros v. unfold left. rewrite bm_contains_sub, andb_true_iff, negb_true_iff. split.
    - intros [Hb Hn]. split; [done|]. intros Hbad. assert (bm_contains w v = true) by (by apply Hw). congruence.
    - intros [Hb Hn]. split; [done|]. destruct (bm_contains w v) eqn:E; [|done]. apply Hw in E. tauto. }
  assert (Hret : bm_is_empty (bm_and w (bm_sub b live)) = false <-> exists r, bm_contains b r = true /\ bad r /\ bm_contains live r = false).
  { rewrite bm_is_empty_false. setoid_rewrite bm_contains_and. setoid_rewrite andb_true_iff. setoid_rewrite Hw. setoid_rewrite bm_contains_sub.
    setoid_rewrite andb_true_iff. setoid_rewrite negb_true_iff. split; intros [r ?]; exists r; tauto. }
  assert (Hnew : bm_is_empty bm_new = true) by (apply bm_is_empty_iff; intros; apply bm_contains_new).
  destruct (bm_is_empty (bm_and w (bm_sub b live))) eqn:Er; cbn [negb andb].
  { split; [apply Hleft| |left; intros v H1 H2; by apply Hleft]. intros r H1 H2 H3. exfalso. assert (true = false); [|done]. apply Hret. by exists r. }
  destruct (proj1 Hret eq_refl) as (r & Hr). destruct (bm_is_empty left) eqn:El; cbn [negb andb].
  { split; [apply Hleft|intros; by left|left; intros v H1 H2; by apply Hleft]. }
  destruct (reader_translates lineage live left) eqn:Et; cbn [negb].
  { apply reader_translates_iff in Et. split; [apply Hleft|intros; by right|left; intros v H1 H2; by apply Hleft]. }
  split; [intros v; by rewrite bm_contains_new|intros; by left|right]. split; [done|]. split; [by exists r|]. intros v H1 H2.
  assert (Hn : ~ (bm_contains live v = false \/ mentioned v)).
  { intros Ho. assert (true = reader_translates lineage live left); [|congruence]. symmetry. apply reader_translates_iff. exists v. split; [by apply Hleft|done]. }
  split; [|tauto]. destruct (bm_contains live v); [done|tauto].
Qed.

(** What one index becomes. *)
Definition index_left (bad : list Z -> bitmap -> Z -> Prop) (unknown : option bitmap) (i : IndexMetadata) (out : IndexMetadata * bool) : Prop :=
  (exists b', fst out = with_bitmap i b') /\ (is_system_index i = true -> out = (i, false)) /\
  (is_system_index i = false ->
    match im_fragment_bitmap i with
    | None => im_fragment_bitmap (fst out) = unknown
    | Some b => exists b', im_fragment_bitmap (fst out) = Some b' /\ coverage_left (bad (indexed_fields i) b) b b'
    end) /\
  (snd out = true -> exists b', im_fragment_bitmap (fst out) = Some b' /\ bm_is_empty b' = true).

Lemma with_same_bitmap i : with_bitmap i (im_fragment_bitmap i) = i.
Proof. by destruct i. Qed.

Lemma coverage_same bad b : (forall v, bm_contains b v = true -> ~ bad v) -> coverage_left bad b b.
Proof.
  intros H. split; [intros v Hv; split; [done|by apply H]| |left; by intros]. intros r Hr Hbad. by destruct (H r Hr).
Qed.

Lemma withdraw_index_ok rewrites i : exists out, withdraw_index lineage live (Some rewrites) i = Ok out /\
  index_left (fun indexed b => stale indexed b rewrites) None i out.
Proof.
  unfold withdraw_index, index_left. destruct (is_system_index i) eqn:Es.
  { exists (i, false). split; [done|]. split; [exists (im_fragment_bitmap i); by rewrite with_same_bitmap|]. by split. }
  destruct (im_fragment_bitmap i) as [b|] eqn:Eb.
  2: { exists (i, false). split; [done|]. split; [exists (im_fragment_bitmap i); by rewrite with_same_bitmap|]. by split. }
  fold (indexed_fields i). destruct (withdraw_rewrites_ok (indexed_fields i) b rewrites) as (w & -> & Hw). mon.
  destruct (bm_is_empty w) eqn:Ew.
  - exists (i, false). split; [done|]. split; [exists (im_fragment_bitmap i); by rewrite with_same_bitmap|]. split; [done|]. split; [|done]. intros _. exists b. split; [done|].
    apply coverage_same. intros v Hv Hst. apply Hw in Hst. rewrite bm_is_empty_iff in Ew. by rewrite Ew in Hst.
  - assert (Hw' : forall v, bm_contains w v = true <-> bm_contains b v = true /\ stale (indexed_fields i) b rewrites v).
    { intros v. rewrite Hw. split; [|tauto]. intros Hst. split; [|done]. by destruct Hst as (r & _ & ? & _). }
    pose proof (withdraw_left b w _ Hw' Ew) as Hl. cbn zeta in Hl. eexists. split; [done|]. cbn [fst snd]. split; [by eexists|]. split; [done|]. split; [|by eexists].
    intros _. eexists. split; [done|exact Hl].
Qed.

Lemma withdraw_unverified_ok i : exists out, withdraw_index lineage live None i = Ok out /\
  index_left (fun _ b v => bm_contains live v = false) (Some bm_new) i out.
Proof.
  assert (Hnew : bm_is_empty bm_new = true) by (apply bm_is_empty_iff; intros; apply bm_contains_new).
  unfold withdraw_index, index_left. destruct (is_system_index i) eqn:Es.
  { exists (i, false). split; [done|]. split; [exists (im_fragment_bitmap i); by rewrite with_same_bitmap|]. by split. }
  destruct (im_fragment_bitmap i) as [b|] eqn:Eb.
  2: { eexists. split; [done|]. cbn [fst snd]. split; [by eexists|]. split; [done|]. split; [done|]. intros _. by eexists. }
  mon. destruct (bm_is_empty (bm_sub b live)) eqn:Ew.
  - exists (i, false). split; [done|]. split; [exists (im_fragment_bitmap i); by rewrite with_same_bitmap|]. split; [done|]. split; [|done]. intros _. exists b. split; [done|].
    apply coverage_same. intros v Hv Hst. rewrite bm_is_empty_iff in Ew. specialize (Ew v). rewrite bm_contains_sub, Hv, Hst in Ew. done.
  - assert (Hw' : forall v, bm_contains (bm_sub b live) v = true <-> bm_contains b v = true /\ bm_contains live v = false).
    { intros v. by rewrite bm_contains_sub, andb_true_iff, negb_true_iff. }
    pose proof (withdraw_left b _ (fun v => bm_contains live v = false) Hw' Ew) as Hl. cbn zeta in Hl. eexists. split; [done|]. cbn [fst snd]. split; [by eexists|].
    split; [done|]. split; [|by eexists]. intros _. eexists. split; [done|exact Hl].
Qed.

(** *** Retiring emptied segments *)

Lemma retire_sub indices emptied i : i ∈ retire_emptied_segments indices emptied -> i ∈ indices.
Proof. unfold retire_emptied_segments. destruct (List.filter _ emptied); [done|]. by intros [? _]%elem_of_filterb. Qed.

Lemma find_by_uuid indices i : NoDup (map im_uuid indices) -> i ∈ indices -> List.find (fun j => im_uuid j =? im_uuid i) indices = Some i.
Proof.
  intros Hn Hi. induction indices as [|j indices IH]; [by apply not_elem_of_nil in Hi|]. cbn [map] in Hn. inversion Hn as [|?? Hj Hn']; subst. cbn [List.find].
  apply elem_of_cons in Hi as [->|Hi]; [by rewrite Z.eqb_refl|]. destruct (Z.eqb_spec (im_uuid j) (im_uuid i)) as [E|]; [|by apply IH].
  destruct Hj. rewrite E. by apply list_elem_of_fmap_2.
Qed.

(** A segment leaves only while another of its name still serves. *)
Lemma retire_keeps_names indices emptied i : NoDup (map im_uuid indices) ->
  (forall j, j ∈ indices -> im_uuid j ∈ emptied -> exists b, im_fragment_bitmap j = Some b /\ bm_is_empty b = true) ->
  i ∈ indices -> exists j, j ∈ retire_emptied_segments indices emptied /\ im_name j = im_name i.
Proof.
  intros Hn He Hi. unfold retire_emptied_segments. set (removable := List.filter (has_serving_sibling indices) emptied).
  assert (Hr : forall j, j ∈ indices -> im_uuid j ∈ removable -> exists k, k ∈ indices /\ im_name k = im_name j /\ im_uuid k ∉ removable).
  { intros j Hj Hin. unfold removable in Hin. apply elem_of_filterb in Hin as [_ Hs]. unfold has_serving_sibling in Hs. rewrite find_by_uuid in Hs by done.
    apply existsb_exists in Hs as (k & Hk%list_elem_of_In & Hs). rewrite !andb_true_iff, bool_decide_eq_true in Hs. destruct Hs as [[Hname _] Hserve].
    exists k. split; [done|]. split; [done|]. unfold removable. intros [Hke _]%elem_of_filterb. destruct (He k Hk Hke) as (b & Eb & Hb). by rewrite Eb, Hb in Hserve. }
  destruct removable as [|r rs] eqn:Erm; [by exists i|]. rewrite <- Erm in *. destruct (decide (im_uuid i ∈ removable)) as [Hin|Hno].
  - destruct (Hr i Hi Hin) as (k & Hk & Hname & Hkn). exists k. split; [|done]. apply elem_of_filterb. split; [done|]. by rewrite bool_decide_false.
  - exists i. split; [|done]. apply elem_of_filterb. split; [done|]. by rewrite bool_decide_false.
Qed.

Lemma map_res_left {A B} (f : A -> res B) (R : A -> B -> Prop) l : (forall x, exists y, f x = Ok y /\ R x y) -> exists ys, map_res f l = Ok ys /\ Forall2 R l ys.
Proof.
  intros H. induction l as [|x l (ys & E & Hys)]; [exists []; split; [done|constructor]|]. destruct (H x) as (y & Ey & Hy). cbn [map_res]. rewrite Ey. mon. rewrite E. mon.
  exists (y :: ys). split; [done|by constructor].
Qed.

(** What maintenance leaves of a list of indices. *)
Definition indices_left (bad : list Z -> bitmap -> Z -> Prop) (unknown : option bitmap) (indices out : list IndexMetadata) : Prop :=
  (forall i', i' ∈ out -> exists i, i ∈ indices /\ (exists b', i' = with_bitmap i b') /\ (is_system_index i = true -> i' = i) /\
    (is_system_index i = false ->
      match im_fragment_bitmap i with
      | None => im_fragment_bitmap i' = unknown
      | Some b => exists b', im_fragment_bitmap i' = Some b' /\ coverage_left (bad (indexed_fields i) b) b b'
      end)) /\
  (NoDup (map im_uuid indices) -> forall i, i ∈ indices -> exists i', i' ∈ out /\ im_name i' = im_name i).

Lemma withdraw_coverage_left bad unknown rewrites indices :
  (forall i, exists out, withdraw_index lineage live rewrites i = Ok out /\ index_left bad unknown i out) ->
  exists out, withdraw_coverage indices lineage live rewrites = Ok out /\ indices_left bad unknown indices out.
Proof.
  intros H. unfold withdraw_coverage. destruct (map_res_left _ _ indices H) as (outs & -> & Houts). mon. eexists. split; [done|].
  assert (Hsame : Forall2 (fun i o => im_uuid (fst o) = im_uuid i /\ im_name (fst o) = im_name i) indices outs).
  { eapply Forall2_impl; [exact Houts|]. by intros i o ((b' & ->) & _). }
  split.
  - intros i' Hi'%retire_sub. apply list_elem_of_fmap in Hi' as (o & -> & Ho). apply list_elem_of_lookup in Ho as [k Hk].
    destruct (Forall2_lookup_r _ _ _ _ _ Houts Hk) as (i & Hi & Hleft & Hsys & Hcov & _). exists i. split; [by apply list_elem_of_lookup; eauto|]. split; [done|].
    split; [intros Hs; by rewrite (Hsys Hs)|done].
  - intros Hn i Hi. apply list_elem_of_lookup in Hi as [k Hk]. destruct (Forall2_lookup_l _ _ _ _ _ Hsame Hk) as (o & Ho & _ & Hname).
    assert (Huu : map im_uuid (map fst outs) = map im_uuid indices).
    { clear -Hsame. induction Hsame as [|i0 o0 is0 os [Hu _] _ IH]; [done|]. cbn. by rewrite Hu, IH. }
    destruct (retire_keeps_names (map fst outs) (map (fun out => im_uuid (fst out)) (List.filter snd outs)) (fst o)) as (j & Hj & Ejn).
    + by rewrite Huu.
    + intros j Hj Hje. apply list_elem_of_fmap in Hj as (oj & -> & Hoj). apply list_elem_of_fmap in Hje as (ok & Eu & Hok). apply elem_of_filterb in Hok as [Hok Hflag].
      assert (oj = ok) as ->.
      { apply list_elem_of_lookup in Hoj as [a Ha], Hok as [b Hb]. assert (a = b) as <-; [|congruence].
        apply (NoDup_lookup (map im_uuid (map fst outs)) a b (im_uuid (fst oj))); [by rewrite Huu|rewrite !list_lookup_fmap, Ha; done|rewrite !list_lookup_fmap, Hb; cbn; by rewrite Eu]. }
      apply list_elem_of_lookup in Hok as [b Hb]. destruct (Forall2_lookup_r _ _ _ _ _ Houts Hb) as (i0 & _ & _ & _ & _ & Hem). by apply Hem.
    + apply list_elem_of_fmap_2. by apply list_elem_of_lookup; eauto.
    + exists j. split; [done|]. by rewrite Ejn.
Qed.

(** C8: after columns were rewritten in place on a table with a fragment reuse
    history, no index keeps coverage the rewrite made stale: neither a rewritten
    fragment, nor a retired fragment whose rows the history moved into one,
    while the other fragments stay covered.  When retired fragments were withdrawn, the rest is still translated
    by the reader, or it is withdrawn as well.  System indices and indices of
    unknown coverage stay as they are, and every index name keeps a segment. *)
Theorem withdraw_rewritten_safe indices rewrites :
  exists out, withdraw_rewritten_coverage indices lineage live rewrites = Ok out /\
    indices_left (fun indexed b => stale indexed b rewrites) None indices out.
Proof. apply withdraw_coverage_left, withdraw_index_ok. Qed.

End Withdraw.

(** ** Which rewrites concern an index *)

Section Dependency.
Context {RB : Roaring} {RL : RoaringLaws RB}.

Lemma depends_on_any_ok schema deps fields : ids_unique schema -> Forall (fun x => x <= I32_MAX) fields ->
  exists b, depends_on_any schema deps fields = Ok b /\
    (b = true <-> exists x d, x ∈ fields /\ d ∈ deps /\ (d = x \/ contains_field schema d x \/ contains_field schema x d)).
Proof.
  intros Hu Hf. induction Hf as [|x fields Hx _ (b & E & Hb)]; [exists false; split; [done|]; split; [done|]; by intros (x & d & ?%not_elem_of_nil & _)|].
  cbn [depends_on_any]. rewrite (proj2 (Z.leb_le _ _)) by done. destruct (field_affects_ok schema x deps Hu) as ([] & -> & Ha); mon.
  - exists true. split; [done|]. split; [intros _|done]. destruct (proj1 Ha eq_refl) as (d & Hd & Hr). exists x, d. split; [left|done].
  - exists b. split; [done|]. rewrite Hb. split; [intros (y & d & ? & ?); exists y, d; split; [by right|done]|].
    intros (y & d & [->|Hy]%elem_of_cons & Hd & Hr); [|by exists y, d]. by assert (false = true) by (apply Ha; by exists d).
Qed.

(** Without a field in common nothing is withdrawn. *)
Lemma withdraw_index_none lineage live rewrites i : Forall (fun r => forall x, x ∈ snd r -> x ∉ indexed_fields i) rewrites ->
  withdraw_index lineage live (Some rewrites) i = Ok (i, false).
Proof.
  intros Hno. unfold withdraw_index. destruct (is_system_index i); [done|]. destruct (im_fragment_bitmap i) as [b|]; [|done]. fold (indexed_fields i).
  assert (E : forall w, fold_res (withdraw_rewrite lineage (indexed_fields i) b (bm_sub b live)) w rewrites = Ok w).
  { induction Hno as [|[fr fields] rewrites Hr _ IH]; intros w; [done|]. cbn [fold_res]. unfold withdraw_rewrite at 2. cbn [snd] in Hr.
    destruct (existsb (fun field => bool_decide (field ∈ indexed_fields i)) fields) eqn:Ex; [|cbn [negb]; mon; apply IH].
    apply existsb_exists in Ex as (x & Hx%list_elem_of_In & Hi%bool_decide_eq_true). by destruct (Hr x Hx). }
  rewrite E. mon. replace (bm_is_empty bm_new) with true; [done|]. symmetry. apply bm_is_empty_iff. intros. apply bm_contains_new.
Qed.

(** An in-place rewrite of a field concerns an index on a field that
    contains it only on a table without a tagged history.  There the rewritten
    fragment leaves the index's coverage; with a tagged history the rewritten
    fields are expanded to what they contain, not to what contains them, and
    the index keeps the stale fragment. *)
Theorem tagged_rewrite_keeps_containers lineage live schema i b fr x d :
  ids_unique schema -> Forall (fun f => 0 <= field_id f <= I32_MAX) (flat_map fields_of schema) ->
  im_fragment_bitmap i = Some b -> bm_contains b fr = true -> dependency_fields i = [d] -> contains_field schema d x ->
  (exists b', withdraw_in_place_rewrites [i] [(fr, [x])] schema live None = Ok [with_bitmap i (Some b')] /\ bm_contains b' fr = false) /\
  withdraw_in_place_rewrites [i] [(fr, [x])] schema live (Some lineage) = Ok [i].
Proof.
  intros Hu Hr Hb Hc Hd Hcon. pose proof (bm_contains_u32 b fr Hc) as Hfr. destruct Hcon as (f & g & Hf & Hg & Ef & Eg).
  assert (Hgs : g ∈ flat_map fields_of schema).
  { apply elem_of_flat in Hf as (r & Hrt & Hf). apply elem_of_flat. exists r. split; [done|]. apply (fields_of_trans r f g Hf). rewrite fields_of_eq. by right. }
  assert (Hx : 0 <= x <= I32_MAX) by (rewrite <- Eg; exact (proj1 (Forall_forall _ _) Hr g Hgs)).
  assert (Hdr : 0 <= d <= I32_MAX) by (rewrite <- Ef; exact (proj1 (Forall_forall _ _) Hr f Hf)). split.
  - unfold withdraw_in_place_rewrites. cbn [fold_res]. unfold prune_rewrite. destruct (Z.ltb_spec U32_MAX fr) as [|_]; [uok; lia|]. cbn [map_res]. unfold index_depends_on_any.
    destruct (depends_on_any_ok schema (dependency_fields i) [x] Hu) as (hit & -> & Hh); [constructor; [lia|constructor]|]. mon.
    assert (hit = true) as ->. { apply Hh. exists x, d. rewrite Hd. split; [left|]. split; [left|]. right. left. by exists f, g. }
    rewrite Hb. mon. eexists. split; [done|]. rewrite bm_contains_remove by done. by rewrite Z.eqb_refl.
  - unfold withdraw_in_place_rewrites, expand_rewritten_fields. cbn [map_res fst snd].
    destruct (with_descendants_ok schema [x] Hu Hr) as (fields & -> & Hfields). mon. unfold withdraw_rewritten_coverage, withdraw_coverage. cbn [map_res].
    rewrite withdraw_index_none; [done|]. constructor; [|constructor]. cbn [snd]. intros y Hy. unfold indexed_fields. rewrite Hd. cbn [List.filter].
    rewrite (proj2 (Z.leb_le _ _)) by lia. rewrite list_elem_of_singleton. intros ->. apply Hfields in Hy as [Hy|(a & Ha & f' & g' & Hf' & Hg' & Ef' & Eg')].
    + apply list_elem_of_singleton in Hy as ->. assert (f = g) as <- by (apply (same_id schema); [done|done|done|congruence]). by apply (self_nested f).
    + apply list_elem_of_singleton in Ha as ->. assert (f' = g) as -> by (apply (same_id schema); [done|done|done|congruence]).
      assert (Hg's : g' ∈ flat_map fields_of schema).
      { apply elem_of_flat in Hf' as (r & Hrt & Hf'). apply elem_of_flat. exists r. split; [done|]. apply (fields_of_trans r g g' Hf'). rewrite fields_of_eq. by right. }
      assert (g' = f) as -> by (apply (same_id schema); [done|done|done|congruence]). apply (self_nested f). unfold nested in *. apply elem_of_flat in Hg as (c & Hc' & Hg).
      apply elem_of_flat. exists c. split; [done|]. apply (fields_of_trans c g f Hg). rewrite fields_of_eq. by right.
Qed.

End Dependency.

(** ** Coverage after compaction *)

Section Compaction.
Context {RB : Roaring} {RL : RoaringLaws RB}.

Definition in_index (old : bitmap) (f : Z) : bool := bm_contains old f.
Definition any_in (old : bitmap) (g : RewriteGroup) : bool := existsb (in_index old) (old_fragments g).
Definition all_in (old : bitmap) (g : RewriteGroup) : bool := forallb (in_index old) (old_fragments g).

(** The fragments of the groups the index covered. *)
Definition covered_old (old : bitmap) (gs : list RewriteGroup) : list Z := flat_map old_fragments (List.filter (any_in old) gs).
Definition covered_new (old : bitmap) (gs : list RewriteGroup) : list Z := flat_map new_fragments (List.filter (any_in old) gs).

Definition groups_typed (gs : list RewriteGroup) : Prop := Forall (fun g => Forall u32_ok (old_fragments g) /\ Forall u32_ok (new_fragments g)) gs.

Lemma remove_all_ok l b v : Forall u32_ok l ->
  bm_contains (foldl (fun b f => fst (bm_remove b (wrap32 f))) b l) v = true <-> bm_contains b v = true /\ v ∉ l.
Proof.
  intros Hl. revert b. induction Hl as [|x l Hx _ IH]; intros b; cbn [foldl]; [split; [intros ?; split; [done|apply not_elem_of_nil]|by intros [? _]]|].
  rewrite IH, wrap32_small, bm_contains_remove, andb_true_iff, negb_true_iff, Z.eqb_neq, not_elem_of_cons by done. tauto.
Qed.

Lemma map_wrap32 l : Forall u32_ok l -> map wrap32 l = l.
Proof. induction 1 as [|x l Hx _ IH]; [done|]. cbn. by rewrite wrap32_small, IH. Qed.

Lemma group_flags old g : Forall u32_ok (old_fragments g) ->
  existsb (fun frag => bm_contains old (wrap32 frag)) (old_fragments g) = any_in old g /\
  forallb (fun frag => bm_contains old (wrap32 frag)) (old_fragments g) = all_in old g.
Proof. unfold any_in, all_in, in_index. induction 1 as [|x l Hx _ [IH1 IH2]]; [done|]. cbn. by rewrite wrap32_small, IH1, IH2. Qed.

Lemma covered_cons (old : bitmap) (ends : RewriteGroup -> list Z) g gs :
  flat_map ends (List.filter (any_in old) (g :: gs)) = (if any_in old g then ends g else []) ++ flat_map ends (List.filter (any_in old) gs).
Proof. cbn [List.filter]. by destruct (any_in old g). Qed.

Definition whole_groups (old : bitmap) (gs : list RewriteGroup) : Prop := Forall (fun g => any_in old g = true -> all_in old g = true) gs.

Lemma recalculate_loop old gs b0 : groups_typed gs -> (forall f, f ∈ flat_map new_fragments gs -> f ∉ flat_map old_fragments gs) ->
  (whole_groups old gs /\ exists b, fold_res (recalculate_group old) b0 gs = Ok b /\
     forall v, bm_contains b v = true <-> (bm_contains b0 v = true /\ v ∉ covered_old old gs) \/ v ∈ covered_new old gs) \/
  (~ whole_groups old gs /\ fold_res (recalculate_group old) b0 gs = Err InvalidInput).
Proof.
  intros Hty. revert b0. induction Hty as [|g gs [Ho Hn] Hty IH]; intros b0 Hdis.
  { left. split; [constructor|]. exists b0. split; [done|]. intros v. unfold covered_old, covered_new. cbn. split; [intros ?; left; split; [done|apply not_elem_of_nil]|].
    by intros [[? _]|?%not_elem_of_nil]. }
  cbn [fold_res]. unfold recalculate_group at 2 4. destruct (group_flags old g Ho) as [-> ->]. unfold covered_old, covered_new, whole_groups in *. setoid_rewrite covered_cons.
  assert (Hdis' : forall f, f ∈ flat_map new_fragments gs -> f ∉ flat_map old_fragments gs).
  { intros f Hf Hf'. apply (Hdis f); cbn [flat_map]; apply elem_of_app; by right. }
  destruct (any_in old g) eqn:Ea; [destruct (all_in old g) eqn:El|]; mon.
  - rewrite map_wrap32 by done. destruct (IH (bm_extend (foldl (fun b frag => fst (bm_remove b (wrap32 frag))) b0 (old_fragments g)) (new_fragments g)) Hdis') as [(Hw & b & E & Hb)|[Hw E]].
    + left. split; [constructor; [by intros _|done]|]. exists b. split; [exact E|]. intros v. rewrite Hb, bm_contains_extend, orb_true_iff, bool_decide_eq_true, remove_all_ok, not_elem_of_app, elem_of_app by done.
      assert (Hng : v ∈ new_fragments g -> v ∉ flat_map old_fragments (List.filter (any_in old) gs)).
      { intros Hv Hv'. apply (Hdis v); cbn [flat_map]; apply elem_of_app; [by left|right]. apply elem_of_flat in Hv' as (h & [Hh _]%elem_of_filterb & Hv'). apply elem_of_flat. by exists h. }
      tauto.
    + right. split; [|exact E]. intros H. inversion H; subst. done.
  - right. split; [|done]. intros H. inversion H as [|?? Hg _]; subst. specialize (Hg Ea). congruence.
  - destruct (IH b0 Hdis') as [(Hw & b & E & Hb)|[Hw E]].
    + left. split; [constructor; [congruence|done]|]. exists b. split; [exact E|]. intros v. by rewrite Hb.
    + right. split; [|exact E]. intros H. inversion H; subst. done.
Qed.

(** The new coverage comes from the old one, less the old fragments of covered
    groups, and from the new fragments of these, also when ids are reused. *)
Lemma recalculate_upper old gs b0 b v : groups_typed gs -> fold_res (recalculate_group old) b0 gs = Ok b -> bm_contains b v = true ->
  (bm_contains b0 v = true /\ v ∉ covered_old old gs) \/ v ∈ covered_new old gs.
Proof.
  intros Hty. revert b0. induction Hty as [|g gs [Ho Hn] Hty IH]; intros b0.
  { intros [= ->] Hv. left. split; [done|apply not_elem_of_nil]. }
  cbn [fold_res]. unfold recalculate_group at 2. destruct (group_flags old g Ho) as [-> ->]. unfold covered_old, covered_new in *. setoid_rewrite covered_cons.
  destruct (any_in old g); [destruct (all_in old g)|]; mon; [|done|]; intros E Hv.
  - rewrite map_wrap32 in E by done. rewrite not_elem_of_app, elem_of_app. destruct (IH _ E Hv) as [[Hb Hno]|Hin]; [|by right; right].
    rewrite bm_contains_extend, orb_true_iff, bool_decide_eq_true, remove_all_ok in Hb by done. tauto.
  - rewrite not_elem_of_app, elem_of_app. pose proof (not_elem_of_nil v). destruct (IH _ E Hv) as [[Hb Hno]|Hin]; tauto.
Qed.

(** C29: after compaction, an index covers the new fragments of the groups it
    covered in place of their old ones, and everything else as before.  A group
    of which it covered only a part is refused as invalid input. *)
Theorem compaction_coverage old groups : groups_typed groups -> (forall f, f ∈ flat_map new_fragments groups -> f ∉ flat_map old_fragments groups) ->
  (whole_groups old groups -> exists b, recalculate_fragment_bitmap old groups = Ok b /\
     forall v, bm_contains b v = true <-> (bm_contains old v = true /\ v ∉ covered_old old groups) \/ v ∈ covered_new old groups) /\
  (~ whole_groups old groups -> recalculate_fragment_bitmap old groups = Err InvalidInput).
Proof. intros Hty Hdis. destruct (recalculate_loop old groups old Hty Hdis) as [[Hw Hb]|[Hw E]]; split; intros H; done. Qed.

End Compaction.

(** ** Examples *)

Module IndexCoverageExamples.
Import RemapExamples RemapChainExamples LedgerDecodeExamples LineageExamples.

#[local] Existing Instance CofiniteRoaring.
#[local] Existing Instance CofiniteRoaring_laws.
#[local] Existing Instance CofiniteRanks.
#[local] Existing Instance CofiniteRanks_laws.
#[local] Existing Instance ListTreemap.
#[local] Existing Instance ListTreemap_laws.
#[local] Existing Instance ListOrder.
#[local] Existing Instance ListOrder_laws.
#[local] Existing Instance WireProst.
#[local] Existing Instance WireProst_laws.
#[local] Existing Instance SmallCodec.
#[local] Existing Instance SmallCodec_laws.

Definition segment (uuid : Z) (frags : list Z) : IndexMetadata := mkIndex uuid [1] [] "id_idx"%string 1 (Some (bm_from_iter frags)) None 1 None.

(** Fragments 8 and 9 are live, one segment was built from fragment 0. *)
Lemma withdraw_rewritten_safe_witness : exists l out, decode_content 1 records = Ok l /\
  withdraw_rewritten_coverage [entry; segment 2 [0]; segment 3 [9]] (Some (lineage_new entry (Some l))) (bm_from_iter [8; 9]) [(8, [1])] = Ok out /\
  exists i, i ∈ out /\ im_name i = "id_idx"%string.
Proof.
  destruct records_ledger as (l & E & Hl & Hu). assert (Hw : lineage_wf (Some (lineage_new entry (Some l)))).
  { intros l' H. cbn in H. rewrite Hu in H. by injection H as <-. }
  destruct (withdraw_rewritten_safe _ Hw (bm_from_iter [8; 9]) [entry; segment 2 [0]; segment 3 [9]] [(8, [1])]) as (out & Ho & _ & Hn).
  exists l, out. split; [exact E|]. split; [exact Ho|]. apply (Hn ltac:(apply (bool_decide_unpack (NoDup _)); by vm_compute) (segment 2 [0])). right. left.
Defined.

(** An index on a struct with one rewritten field. *)
Definition struct_schema : list Field := [mkField 1 [mkField 2 []]].

Lemma tagged_rewrite_keeps_containers_witness :
  withdraw_in_place_rewrites [segment 2 [5]] [(5, [2])] struct_schema (bm_from_iter [5]) (Some (mkLineage None None)) = Ok [segment 2 [5]].
Proof.
  apply (tagged_rewrite_keeps_containers (mkLineage None None) (bm_from_iter [5]) struct_schema (segment 2 [5]) (bm_from_iter [5]) 5 2 1).
  - apply (bool_decide_unpack (NoDup _)). by vm_compute.
  - repeat (constructor; [by vm_compute; split|]). constructor.
  - exact eq_refl.
  - by vm_compute.
  - exact eq_refl.
  - exists (mkField 1 [mkField 2 []]), (mkField 2 []). split; [left|]. split; [left|]. by split.
Defined.

Lemma compaction_coverage_witness : (exists b, recalculate_fragment_bitmap (bm_from_iter [1; 2; 4]) [mkRewriteGroup [1; 2] [7]; mkRewriteGroup [3] [8]] = Ok b /\
    bm_contains b 7 = true) /\ recalculate_fragment_bitmap (bm_from_iter [1; 2; 4]) [mkRewriteGroup [4; 5] [7]] = Err InvalidInput.
Proof.
  split.
  - destruct (compaction_coverage (bm_from_iter [1; 2; 4]) [mkRewriteGroup [1; 2] [7]; mkRewriteGroup [3] [8]]) as [H _].
    + repeat constructor; uok; cbn; lia.
    + apply Forall_forall. apply (bool_decide_unpack (Forall _ _)). by vm_compute.
    + destruct H as (b & E & Hb); [repeat (constructor; [by vm_compute|]); constructor|]. exists b. split; [exact E|]. apply Hb. right. by left.
  - apply (compaction_coverage (bm_from_iter [1; 2; 4]) [mkRewriteGroup [4; 5] [7]]).
    + repeat constructor; uok; cbn; lia.
    + apply Forall_forall. apply (bool_decide_unpack (Forall _ _)). by vm_compute.
    + intros H. inversion H as [|?? Hg _]; subst. assert (Ht : true = true) by exact eq_refl. by specialize (Hg Ht).
Defined.

End IndexCoverageExamples.
