(* ===== verification/RewriteCommit.v ===== *)
(** * Committing a rewrite

    [handle_rewrite_fragments]
    ([lance-table/src/transaction/index_maintenance.rs]) with
    [fragments_with_ids] ([manifest_build.rs]): the fragment list of the table
    after a rewrite replaced some of its fragments.  The positions are looked up
    once and the list is assembled in one pass; the reference places the new
    fragments group by group. *)

From Stdlib Require Import ZArith Lia.
From stdpp Require Import base option list numbers sorting sets gmap strings.
From S2P Require Import Prelude Lists SegmentBuild Roaring Ledger Lineage SchemaFields IndexCoverage.

(** ** Model *)

Section FragmentsModel.
(** The fields of a fragment that this code only carries along. *)
Context {Rest : Type}.

Record Fragment := mkFragment { f_id : Z; f_clustering_id : option Z; f_rest : Rest }.

(** [RewriteGroup] with its fragments. *)
Record FragmentGroup := mkFragmentGroup { g_old : list Fragment; g_new : list Fragment }.

(** The fragments of [ChangedReferences]. *)
Record ChangedReferences := mkChanged { cr_fragments : list (Z * Z); cr_visits : Z }.

Definition changed_fragment (r : ChangedReferences) (fragment : Fragment) : ChangedReferences :=
  mkChanged (match f_clustering_id fragment with Some id => cr_fragments r ++ [(f_id fragment, id)] | None => cr_fragments r end) (cr_visits r +w 1).

(** [fragments_with_ids]: id 0 stands for a fragment without one. *)
Fixpoint fragments_with_ids (new_fragments : list Fragment) (fragment_id : Z) : list Fragment * Z :=
  match new_fragments with
  | [] => ([], fragment_id)
  | f :: new_fragments =>
      if f_id f =? 0 then
        let '(fs, next) := fragments_with_ids new_fragments (fragment_id +w 1) in
        (mkFragment fragment_id (f_clustering_id f) (f_rest f) :: fs, next)
      else
        let '(fs, next) := fragments_with_ids new_fragments fragment_id in
        (f :: fs, next)
  end.

Definition positions_of (fragments : list Fragment) : gmap Z Z :=
  foldl (fun m pf => <[f_id (snd pf) := fst pf]> m) ∅ (enumerate fragments).

(** [if removed[position] { return Err } removed[position] = true] *)
Definition mark_removed (removed : list bool) (position : Z) : res (list bool) :=
  r ← idx removed position;
  if r : bool then Err CommitConflict else idx_set removed position true.

Record Placement := mkPlacement {
  pl_removed : list bool;
  pl_replacements : gmap Z (list Fragment);
  pl_appended : list Fragment;
  pl_fragment_id : Z;
  pl_changed : ChangedReferences
}.

(** One comparison of [contiguous]; [all] stops at the first difference. *)
Definition check_step (final_fragments : list Fragment) (start : Z) (all : bool) (io : Z * Fragment) : res bool :=
  if all then f ← idx final_fragments (start +w fst io); Ok (f_id f =? f_id (snd io)) else Ok false.

(** The body of the loop over the groups. *)
Definition place_group (final_fragments : list Fragment) (positions : gmap Z Z) (p : Placement) (group : FragmentGroup) : res Placement :=
  first ← idx (g_old group) 0;
  start ← ok_or (positions !! f_id first) CommitConflict;
  contiguous ← (if start +w zlen (g_old group) <=? zlen final_fragments
    then fold_res (check_step final_fragments start) true (enumerate (g_old group))
    else Ok false);
  let '(new_fragments, fragment_id) := fragments_with_ids (g_new group) (pl_fragment_id p) in
  let changed := foldl changed_fragment (pl_changed p) new_fragments in
  if contiguous : bool then
    removed ← fold_res (fun removed io => mark_removed removed (start +w fst io)) (pl_removed p) (enumerate (g_old group));
    Ok (mkPlacement removed (<[start := new_fragments]> (pl_replacements p)) (pl_appended p) fragment_id changed)
  else
    removed ← fold_res (fun removed old_fragment => position ← ok_or (positions !! f_id old_fragment) CommitConflict; mark_removed removed position) (pl_removed p) (g_old group);
    Ok (mkPlacement removed (pl_replacements p) (pl_appended p ++ new_fragments) fragment_id changed).

(** The last loop, over the fragments and their flags. *)
Fixpoint assemble (position : Z) (fragments : list Fragment) (removed : list bool) (replacements : gmap Z (list Fragment)) : res (list Fragment) :=
  match fragments, removed with
  | [], _ => Ok []
  | fragment :: fragments, r :: removed =>
      rest ← assemble (position + 1) fragments removed (base.delete position replacements);
      Ok (default [] (replacements !! position) ++ (if r : bool then [] else [fragment]) ++ rest)
  | _ :: _, [] => Panic
  end.

Definition handle_rewrite_fragments (final_fragments : list Fragment) (groups : list FragmentGroup) (fragment_id : Z) (changed : ChangedReferences) :
    res (list Fragment * Z * ChangedReferences) :=
  let positions := positions_of final_fragments in
  let p := mkPlacement (replicate (length final_fragments) false) ∅ [] fragment_id changed in
  p ← fold_res (place_group final_fragments positions) p groups;
  rewritten ← assemble 0 final_fragments (pl_removed p) (pl_replacements p);
  Ok (rewritten ++ pl_appended p, pl_fragment_id p, pl_changed p).

End FragmentsModel.
Arguments Fragment : clear implicits.
Arguments FragmentGroup : clear implicits.
Arguments Placement : clear implicits.

(** ** The new fragment list *)

Lemma positions_foldl {Rest} (l : list (Z * Fragment Rest)) (m : gmap Z Z) x p : NoDup (map (fun pf => f_id (snd pf)) l) ->
  foldl (fun m pf => <[f_id (snd pf) := fst pf]> m) m l !! x = Some p <->
  (exists f, (p, f) ∈ l /\ f_id f = x) \/ ((x ∉ map (fun pf => f_id (snd pf)) l) /\ m !! x = Some p).
Proof.
  revert m. induction l as [|[q g] l IH]; intros m Hn; cbn [foldl map fst snd].
  - split; [intros H; right; split; [apply not_elem_of_nil|done]|]. intros [(f & Hf & _)|[_ H]]; [by apply not_elem_of_nil in Hf|done].
  - apply NoDup_cons in Hn as [Hg Hn]. cbn [snd] in Hg. rewrite IH by done. setoid_rewrite elem_of_cons. split.
    + intros [(f & Hf & Hx)|[Hx Hm]]; [left; exists f; tauto|]. apply lookup_insert_Some in Hm as [[<- <-]|[Hne Hm]]; [left; exists g; tauto|right]. split; [|done]. intros [->|?]; done.
    + intros [(f & [[= -> ->]|Hf] & Hx)|[Hx Hm]]; [right|left; by exists f|right].
      * subst x. split; [done|apply lookup_insert_eq].
      * split; [tauto|]. rewrite lookup_insert_ne; [done|]. intros E. apply Hx. by left.
Qed.

Section Fragments.
Context {Rest : Type} (final : list (Fragment Rest)) (Huniq : NoDup (map f_id final)) (Hlen : zlen final <= ISIZE_MAX).

Lemma positions_lookup x p : positions_of final !! x = Some p <-> exists f, get_opt final p = Some f /\ f_id f = x.
Proof.
  unfold positions_of. rewrite positions_foldl.
  - setoid_rewrite enumerate_lookup. split; [intros [H|[_ H]]; [done|by rewrite lookup_empty in H]|]. intros H. by left.
  - rewrite <- (map_map snd f_id), map_snd_enumerate. done.
Qed.

(** The flags of a set of removed ids. *)
Definition flags (ids : list Z) : list bool := map (fun f => bool_decide (f_id f ∈ ids)) final.

Lemma id_at_inj p q f g : get_opt final p = Some f -> get_opt final q = Some g -> f_id f = f_id g -> p = q.
Proof.
  intros Hp Hq E. apply (get_opt_inj (map f_id final) p q (f_id f) Huniq); rewrite get_opt_map; [by rewrite Hp|by rewrite Hq, E].
Qed.

Lemma mark_removed_ok ids p f : get_opt final p = Some f ->
  mark_removed (flags ids) p = if bool_decide (f_id f ∈ ids) then Err CommitConflict else Ok (flags (ids ++ [f_id f])).
Proof.
  intros Hp. unfold mark_removed. rewrite (idx_ok _ p (bool_decide (f_id f ∈ ids))) by (unfold flags; by rewrite get_opt_map, Hp). mon.
  case_bool_decide as Hin; [done|]. pose proof (get_opt_Some _ _ _ Hp) as Hb. rewrite idx_set_ok by (unfold flags, zlen in *; by rewrite length_map). f_equal.
  apply list_eq. intros i. rewrite <- !get_opt_nat, get_opt_insert by (unfold flags, zlen in *; by rewrite length_map). unfold flags. rewrite !get_opt_map.
  destruct (Z.eqb_spec (Z.of_nat i) p) as [->|Hne].
  - rewrite Hp. cbn. f_equal. symmetry. apply bool_decide_true, elem_of_app. right. left.
  - destruct (get_opt final (Z.of_nat i)) as [g|] eqn:Eg; [|done]. cbn. f_equal. apply bool_decide_ext. rewrite elem_of_app, list_elem_of_singleton.
    split; [tauto|]. intros [H|H]; [done|]. by destruct Hne; eapply id_at_inj.
Qed.

Definition ids_of (fs : list (Fragment Rest)) : list Z := map f_id fs.

Lemma in_final x : x ∈ ids_of final <-> exists p f, get_opt final p = Some f /\ f_id f = x.
Proof. unfold ids_of. rewrite list_elem_of_fmap. setoid_rewrite elem_of_get_opt. naive_solver. Qed.

(** Marking the old fragments of a group, found at [place]. *)
Lemma mark_all_ok {A} (place : A -> option Z) (id : A -> Z) l ids :
  Forall (fun x => match place x with Some p => exists f, get_opt final p = Some f /\ f_id f = id x | None => ~ (id x ∈ ids_of final) end) l -> NoDup ids ->
  let marked := fold_res (fun removed x => position ← ok_or (place x) CommitConflict; mark_removed removed position) (flags ids) l in
  let ok := NoDup (ids ++ map id l) /\ forall y, y ∈ map id l -> y ∈ ids_of final in
  (ok /\ marked = Ok (flags (ids ++ map id l))) \/ (~ ok /\ marked = Err CommitConflict).
Proof.
  cbv zeta. intros Hl. revert ids. induction Hl as [|x l Hx Hl IH]; intros ids Hn.
  { left. cbn. rewrite app_nil_r. split; [|done]. split; [done|]. intros y Hy. by apply not_elem_of_nil in Hy. }
  cbn [fold_res map]. destruct (place x) as [p|] eqn:Ep; cbn [ok_or]; mon.
  2: { right. split; [|done]. intros [_ H]. apply Hx, H. left. }
  destruct Hx as (f & Hp & Hx). rewrite (mark_removed_ok ids _ f Hp), Hx. assert (Hf : id x ∈ ids_of final) by (apply in_final; by exists p, f). case_bool_decide as Hin; mon.
  - right. split; [|done]. intros [Hd _]. rewrite NoDup_app in Hd. destruct Hd as (_ & H & _). apply (H _ Hin). left.
  - specialize (IH (ids ++ [id x])). rewrite <- app_assoc in IH. cbn [app] in IH. setoid_rewrite elem_of_cons. destruct IH as [[[H1 H2] H3]|[H1 H2]].
    + apply NoDup_app. split; [done|]. split; [|apply NoDup_singleton]. intros y Hy ->%list_elem_of_singleton. done.
    + left. split; [|done]. split; [done|]. intros y [->|Hy]; auto.
    + right. split; [|done]. intros [H3 H4]. apply H1. auto.
Qed.

(** *** The reference *)

(** The old fragments of the group stand at [p], in order. *)
Definition stands_at (g : FragmentGroup Rest) (p : Z) : bool := bool_decide (ids_of (g_old g) = ids_of (zsub final p (p + zlen (g_old g)))).

Definition contiguous (g : FragmentGroup Rest) : bool := existsb (stands_at g) (range_list (0 ..< zlen final)).

(** The groups with the ids their new fragments get. *)
Fixpoint assign (groups : list (FragmentGroup Rest)) (fragment_id : Z) : list (FragmentGroup Rest * list (Fragment Rest)) * Z :=
  match groups with
  | [] => ([], fragment_id)
  | g :: groups =>
      let '(new, fragment_id) := fragments_with_ids (g_new g) fragment_id in
      let '(rest, fragment_id) := assign groups fragment_id in
      ((g, new) :: rest, fragment_id)
  end.

(** The new fragments of a group take the place of the old ones, or follow at the
    end when those do not stand together. *)
Definition rewritten_list (assigned : list (FragmentGroup Rest * list (Fragment Rest))) (removed : list Z) : list (Fragment Rest) :=
  flat_map (fun pf => flat_map snd (List.filter (fun gn => stands_at (fst gn) (fst pf)) assigned) ++ (if bool_decide (f_id (snd pf) ∈ removed) then [] else [snd pf])) (enumerate final)
  ++ flat_map snd (List.filter (fun gn => negb (contiguous (fst gn))) assigned).

(** *** The loop *)

Lemma zsub_first {A} (l : list A) p n : 0 <= p -> 0 < n -> get_opt (zsub l p (p + n)) 0 = get_opt l p.
Proof. intros Hp Hn. rewrite get_opt_zsub by lia. by rewrite Z.add_0_r. Qed.

(** A group stands where its first old fragment is. *)
Lemma stands_first g p f : 0 <= p -> get_opt (g_old g) 0 = Some f -> stands_at g p = true -> exists h, get_opt final p = Some h /\ f_id h = f_id f.
Proof.
  intros Hp Hf Hs%bool_decide_eq_true. pose proof (get_opt_Some _ _ _ Hf) as Hl.
  assert (E : get_opt (ids_of (g_old g)) 0 = get_opt (ids_of (zsub final p (p + zlen (g_old g)))) 0) by congruence. unfold ids_of in E. rewrite !get_opt_map, Hf, zsub_first in E by lia.
  destruct (get_opt final p) as [h|]; [|done]. exists h. split; [done|]. cbn in E. congruence.
Qed.

Lemma contiguous_start g start f h : get_opt (g_old g) 0 = Some f -> get_opt final start = Some h -> f_id h = f_id f -> contiguous g = stands_at g start.
Proof.
  intros Hf Hh E. pose proof (get_opt_Some _ _ _ Hh) as Hs. apply eq_true_iff_eq. unfold contiguous. rewrite existsb_exists. split.
  - intros (p & Hp%list_elem_of_In & Hst). apply elem_of_range_list in Hp. cbn in Hp. destruct (stands_first g p f ltac:(lia) Hf Hst) as (h' & Hh' & E').
    by rewrite (id_at_inj start p h h' Hh Hh') by congruence.
  - intros Hst. exists start. split; [|done]. apply list_elem_of_In, elem_of_range_list. cbn. lia.
Qed.

Lemma check_steps start l b : 0 <= start -> Forall (fun io => 0 <= fst io /\ start + fst io < zlen final) l ->
  fold_res (check_step final start) b l = Ok (b && forallb (fun io => bool_decide (f_id <$> get_opt final (start + fst io) = Some (f_id (snd io)))) l).
Proof.
  intros Hs Hl. revert b. induction Hl as [|io l [H1 H2] Hl IH]; intros b; [cbn; by rewrite andb_true_r|]. cbn [fold_res forallb].
  assert (E : check_step final start b io = Ok (b && bool_decide (f_id <$> get_opt final (start + fst io) = Some (f_id (snd io))))).
  { unfold check_step. destruct b; [|done]. destruct (get_opt_lt final (start + fst io)) as [f Hf]; [lia|]. rewrite wrap64_small by (uok; lia). rewrite (idx_ok _ _ f Hf), Hf. mon. cbn [andb].
    f_equal. cbn. apply eq_true_iff_eq. rewrite Z.eqb_eq, bool_decide_eq_true. split; [by intros ->|congruence]. }
  rewrite E. mon. by rewrite IH, andb_assoc.
Qed.

Lemma check_contiguous g start h : get_opt final start = Some h -> zlen (g_old g) <= ISIZE_MAX ->
  (if start +w zlen (g_old g) <=? zlen final then fold_res (check_step final start) true (enumerate (g_old g)) else Ok false) = Ok (stands_at g start).
Proof.
  intros Hh Hg. pose proof (get_opt_Some _ _ _ Hh) as Hs. pose proof (zlen_nonneg (g_old g)) as Hn. rewrite wrap64_small by (uok; lia). unfold stands_at.
  destruct (Z.leb_spec (start + zlen (g_old g)) (zlen final)) as [Hle|Hgt].
  - rewrite check_steps; [|lia|]. 2: { apply Forall_forall. intros [i o] Hi%enumerate_lookup%get_opt_Some. cbn. lia. }
    f_equal. cbn [andb]. apply eq_true_iff_eq. rewrite bool_decide_eq_true, forallb_forall. split.
    + intros H. apply list_eq. intros i. rewrite <- !get_opt_nat. unfold ids_of. rewrite !get_opt_map. destruct (get_opt (g_old g) (Z.of_nat i)) as [o|] eqn:Eo.
      * pose proof (get_opt_Some _ _ _ Eo). rewrite get_opt_zsub by lia. specialize (H (Z.of_nat i, o)). rewrite bool_decide_eq_true in H. cbn [fst snd] in H. rewrite H; [done|]. by apply list_elem_of_In, enumerate_lookup.
      * apply get_opt_None in Eo. destruct (get_opt (zsub _ _ _) _) as [x|] eqn:Ex; [|done]. apply get_opt_Some in Ex. rewrite zlen_zsub in Ex by lia. lia.
    + intros E [i o] Hi%list_elem_of_In%enumerate_lookup. apply bool_decide_eq_true. cbn [fst snd]. pose proof (get_opt_Some _ _ _ Hi).
      assert (Ei : get_opt (ids_of (g_old g)) i = get_opt (ids_of (zsub final start (start + zlen (g_old g)))) i) by congruence. unfold ids_of in Ei.
      rewrite !get_opt_map, Hi, get_opt_zsub in Ei by lia. by rewrite <- Ei.
  - f_equal. symmetry. apply bool_decide_false. intros E. apply (f_equal zlen) in E. unfold ids_of in E. rewrite !zlen_map in E. unfold zsub, ztake, zskip in E. revert E. unfold zlen in *.
    rewrite length_take, length_drop. lia.
Qed.

Abbreviation Assigned := (list (FragmentGroup Rest * list (Fragment Rest))).

Definition old_ids (a : Assigned) : list Z := flat_map (fun gn => ids_of (g_old (fst gn))) a.

(** The state of the loop after the groups of [a]. *)
Record placed (a : Assigned) (p : Placement Rest) : Prop := {
  pd_removed : pl_removed p = flags (old_ids a);
  pd_replacements q : default [] (pl_replacements p !! q) = flat_map snd (List.filter (fun gn => stands_at (fst gn) q && (0 <=? q)) a);
  pd_appended : pl_appended p = flat_map snd (List.filter (fun gn => negb (contiguous (fst gn))) a);
  pd_distinct : NoDup (old_ids a)
}.

Definition group_ok (g : FragmentGroup Rest) : Prop := 0 < zlen (g_old g) <= ISIZE_MAX.

(** The old fragments of the next group exist and were not removed yet. *)
Definition fits (a : Assigned) (g : FragmentGroup Rest) : Prop := NoDup (old_ids a ++ ids_of (g_old g)) /\ forall x, x ∈ ids_of (g_old g) -> x ∈ ids_of final.

Lemma stands_positions g start : stands_at g start = true -> 0 <= start -> Forall (fun io => exists f, get_opt final (start + fst io) = Some f /\ f_id f = f_id (snd io)) (enumerate (g_old g)).
Proof.
  intros E%bool_decide_eq_true Hs. apply Forall_forall. intros [i o] Hi%enumerate_lookup. cbn [fst snd]. pose proof (get_opt_Some _ _ _ Hi).
  assert (Ei : get_opt (ids_of (g_old g)) i = get_opt (ids_of (zsub final start (start + zlen (g_old g)))) i) by congruence. unfold ids_of in Ei.
  rewrite !get_opt_map, Hi, get_opt_zsub in Ei by lia. destruct (get_opt final (start + i)) as [f|]; [|done]. exists f. split; [done|]. cbn in Ei. congruence.
Qed.

Lemma old_ids_snoc a g new : old_ids (a ++ [(g, new)]) = old_ids a ++ ids_of (g_old g).
Proof. unfold old_ids. rewrite flat_map_app. cbn. by rewrite app_nil_r. Qed.

(** No group before stands at a fragment that was not removed. *)
Lemma stands_removed a q h : Forall (fun gn => group_ok (fst gn)) a -> 0 <= q -> get_opt final q = Some h -> f_id h ∉ old_ids a -> List.filter (fun gn => stands_at (fst gn) q && (0 <=? q)) a = [].
Proof.
  intros Ha Hq Hh Hn. destruct (List.filter _ a) as [|[g new] l] eqn:E; [done|]. exfalso. apply Hn.
  assert (Hin : (g, new) ∈ List.filter (fun gn => stands_at (fst gn) q && (0 <=? q)) a) by (rewrite E; left). apply elem_of_filterb in Hin as [Hin [Hst _]%andb_true_iff].
  rewrite Forall_forall in Ha. pose proof (Ha _ Hin) as [Hg _]. cbn [fst] in *. destruct (get_opt_lt (g_old g) 0) as [f Hf]; [lia|].
  destruct (stands_first g q f Hq Hf Hst) as (h' & Hh' & Ef). rewrite Hh in Hh'. injection Hh' as <-. unfold old_ids. apply elem_of_flat. exists (g, new). split; [done|].
  cbn [fst]. rewrite Ef. apply list_elem_of_fmap. exists f. split; [done|]. apply elem_of_get_opt. by exists 0.
Qed.

Lemma place_group_ok a p g new fid : placed a p -> Forall (fun gn => group_ok (fst gn)) a -> group_ok g -> fragments_with_ids (g_new g) (pl_fragment_id p) = (new, fid) ->
  (fits a g /\ exists p', place_group final (positions_of final) p g = Ok p' /\ placed (a ++ [(g, new)]) p' /\ pl_fragment_id p' = fid /\ pl_changed p' = foldl changed_fragment (pl_changed p) new) \/
  (~ fits a g /\ place_group final (positions_of final) p g = Err CommitConflict).
Proof.
  intros [Hr Hrep Happ Hd] Ha [Hg Hgl] Hw. destruct (get_opt_lt (g_old g) 0) as [first Hf]; [lia|]. unfold place_group. rewrite (idx_ok _ _ _ Hf), Hw. mon.
  assert (Hfo : f_id first ∈ ids_of (g_old g)) by (apply list_elem_of_fmap; exists first; split; [done|]; apply elem_of_get_opt; by exists 0).
  destruct (positions_of final !! f_id first) as [start|] eqn:Ep; cbn [ok_or]; mon.
  2: { right. split; [|done]. intros [_ H]. specialize (H _ Hfo). apply in_final in H as (q & f & H). assert (positions_of final !! f_id first = Some q) by (apply positions_lookup; by exists f). congruence. }
  apply positions_lookup in Ep as (h & Hh & Eh). pose proof (get_opt_Some _ _ _ Hh) as Hs. rewrite (check_contiguous g start h Hh Hgl). mon. rewrite Hr.
  pose proof (contiguous_start g start first h Hf Hh Eh) as Hc. destruct (stands_at g start) eqn:Est.
  - destruct (mark_all_ok (fun io => Some (start +w fst io)) (fun io => f_id (snd io)) (enumerate (g_old g)) (old_ids a)) as [[Hok E]|[Hok E]]; [|exact Hd|..].
    { eapply Forall_impl; [exact (stands_positions g start Est ltac:(lia))|]. intros io (f & Hp & Ei). exists f. split; [|done]. pose proof (get_opt_Some _ _ _ Hp). by rewrite wrap64_small by (uok; lia). }
    all: cbn [ok_or] in E; cbn [mbind res_bind] in E; rewrite E; mon; rewrite <- (map_map snd f_id), map_snd_enumerate in Hok.
    2: { right. split; [exact Hok|done]. }
    left. split; [exact Hok|]. eexists. split; [done|]. split; [|done]. rewrite <- (map_map snd f_id), map_snd_enumerate. split; cbn [pl_removed pl_replacements pl_appended].
    + by rewrite old_ids_snoc.
    + intros q. rewrite List.filter_app, flat_map_app. cbn [List.filter fst]. destruct (decide (q = start)) as [->|Hne].
      * rewrite lookup_insert_eq, (stands_removed a start h Ha ltac:(lia) Hh), Est, (proj2 (Z.leb_le 0 start)) by (lia || (rewrite Eh; intros H; destruct Hok as [Hok _]; apply NoDup_app in Hok as (_ & H' & _); by apply (H' _ H))).
        cbn. by rewrite app_nil_r.
      * rewrite lookup_insert_ne by done. rewrite Hrep. replace (stands_at g q && (0 <=? q)) with false; [cbn; by rewrite app_nil_r|]. symmetry. apply not_true_iff_false. intros [Hq Hq0%Z.leb_le]%andb_true_iff.
        destruct (stands_first g q first Hq0 Hf Hq) as (h' & Hh' & Eh'). apply Hne. eapply id_at_inj; [done..|congruence].
    + rewrite List.filter_app, flat_map_app, Happ. cbn [List.filter fst]. rewrite Hc. cbn. by rewrite app_nil_r.
    + rewrite old_ids_snoc. apply Hok.
  - destruct (mark_all_ok (fun o => positions_of final !! f_id o) f_id (g_old g) (old_ids a)) as [[Hok E]|[Hok E]]; [|exact Hd|..].
    { apply Forall_forall. intros o _. destruct (positions_of final !! f_id o) as [q|] eqn:Eq; [by apply positions_lookup|]. rewrite in_final. intros (q & f & H).  assert (positions_of final !! f_id o = Some q) by (apply positions_lookup; by exists f). congruence. }
    all: rewrite E; mon.
    2: { right. split; [exact Hok|done]. }
    left. split; [exact Hok|]. eexists. split; [done|]. split; [|done]. split; cbn [pl_removed pl_replacements pl_appended].
    + by rewrite old_ids_snoc.
    + intros q. rewrite List.filter_app, flat_map_app, Hrep. cbn [List.filter fst]. replace (stands_at g q && (0 <=? q)) with false; [cbn; by rewrite app_nil_r|]. symmetry. apply not_true_iff_false. intros [Hq Hq0%Z.leb_le]%andb_true_iff.
      destruct (stands_first g q first Hq0 Hf Hq) as (h' & Hh' & Eh'). assert (q = start) as -> by (eapply id_at_inj; [done..|congruence]). congruence.
    + rewrite List.filter_app, flat_map_app, Happ. cbn [List.filter fst]. rewrite Hc. cbn. by rewrite app_nil_r.
    + rewrite old_ids_snoc. apply Hok.
Qed.

Definition removed_ids (groups : list (FragmentGroup Rest)) : list Z := flat_map (fun g => ids_of (g_old g)) groups.

(** All old fragments exist and are replaced once. *)
Definition all_fit (groups : list (FragmentGroup Rest)) : Prop := NoDup (removed_ids groups) /\ forall x, x ∈ removed_ids groups -> x ∈ ids_of final.

Lemma assign_old groups fid : old_ids (fst (assign groups fid)) = removed_ids groups.
Proof.
  revert fid. induction groups as [|g groups IH]; intros fid; [done|]. cbn [assign]. destruct (fragments_with_ids (g_new g) fid) as [new fid2]. specialize (IH fid2). destruct (assign groups fid2) as [rest fid3].
  unfold old_ids, removed_ids in *. cbn [fst flat_map] in *. by rewrite IH.
Qed.

Lemma place_groups_ok groups a p : placed a p -> Forall (fun gn => group_ok (fst gn)) a -> Forall group_ok groups ->
  let asg := assign groups (pl_fragment_id p) in
  let ok := NoDup (old_ids a ++ removed_ids groups) /\ forall x, x ∈ removed_ids groups -> x ∈ ids_of final in
  (ok /\ exists p', fold_res (place_group final (positions_of final)) p groups = Ok p' /\ placed (a ++ fst asg) p' /\ pl_fragment_id p' = snd asg /\
     pl_changed p' = foldl changed_fragment (pl_changed p) (flat_map snd (fst asg))) \/
  (~ ok /\ fold_res (place_group final (positions_of final)) p groups = Err CommitConflict).
Proof.
  cbv zeta. revert a p. induction groups as [|g groups IH]; intros a p Hp Ha Hg.
  { left. cbn. rewrite !app_nil_r. split; [split; [apply Hp|]; intros x Hx; by apply not_elem_of_nil in Hx|]. by exists p. }
  apply Forall_cons in Hg as [Hg Hgs]. cbn [assign fold_res removed_ids flat_map]. fold (removed_ids groups). destruct (fragments_with_ids (g_new g) (pl_fragment_id p)) as [new fid] eqn:Ew.
  destruct (place_group_ok a p g new fid Hp Ha Hg Ew) as [[[Hf1 Hf2] (p1 & E1 & Hp1 & Hid & Hch)]|[Hn E1]]; rewrite E1; mon.
  - specialize (IH (a ++ [(g, new)]) p1 Hp1). rewrite Hid, old_ids_snoc, <- !app_assoc in IH. destruct (assign groups fid) as [rest next] eqn:Ea. cbn [fst snd app flat_map] in *.
    destruct IH as [[[H1 H2] (p2 & E2 & H3 & H4 & H5)]|[H1 E2]]; [apply Forall_app; split; [done|by constructor]|done|left|right].
    + split; [split; [done|]; intros x [Hx|Hx]%elem_of_app; auto|]. exists p2. split; [done|]. split; [done|]. split; [done|]. by rewrite H5, Hch, foldl_app.
    + split; [|done]. intros [H3 H4]. apply H1. split; [done|]. intros x Hx. apply H4, elem_of_app. by right.
  - right. split; [|done]. intros [H1 H2]. apply Hn. rewrite app_assoc in H1. apply NoDup_app in H1 as [H1 _]. split; [done|]. intros x Hx. apply H2, elem_of_app. by left.
Qed.

Lemma assemble_ok pos fs (S : list Z) (repl : gmap Z (list (Fragment Rest))) : assemble pos fs (map (fun f => bool_decide (f_id f ∈ S)) fs) repl =
  Ok (flat_map (fun pf => default [] (repl !! fst pf) ++ (if bool_decide (f_id (snd pf) ∈ S) then [] else [snd pf])) (zip (seqZ pos (zlen fs)) fs)).
Proof.
  revert pos repl. induction fs as [|f fs IH]; intros pos repl; [done|]. cbn [assemble map]. rewrite IH. mon. rewrite zlen_cons, (seqZ_cons pos) by (pose proof (zlen_nonneg fs); lia).
  cbn [zip zip_with flat_map fst snd]. rewrite <- app_assoc. do 3 f_equal. replace (Z.pred (1 + zlen fs)) with (zlen fs) by lia. rewrite <- Z.add_1_r, !flat_map_concat_map. f_equal. apply map_ext_in.
  intros [q g] Hq%list_elem_of_In. cbn [fst snd]. rewrite lookup_delete_ne; [done|]. apply elem_of_zip_l, elem_of_seqZ in Hq. lia.
Qed.

Lemma flat_map_split {A B} (f g : A -> list B) l : flat_map (fun x => f x ++ g x) l ≡ₚ flat_map f l ++ flat_map g l.
Proof. induction l as [|x l IH]; [done|]. cbn. rewrite IH. solve_Permutation. Qed.

(** A group whose old fragments stand together has one place. *)
Lemma one_place g (new : list (Fragment Rest)) : group_ok g ->
  flat_map (fun p => if stands_at g p then new else []) (range_list (0 ..< zlen final)) = if contiguous g then new else [].
Proof.
  intros [Hg _]. destruct (get_opt_lt (g_old g) 0) as [f Hf]; [lia|].
  assert (Hone : forall ps, NoDup ps -> Forall (fun p => 0 <= p) ps -> flat_map (fun p => if stands_at g p then new else []) ps = if existsb (stands_at g) ps then new else []).
  { induction ps as [|p ps IH]; intros Hn Hp; [done|]. apply NoDup_cons in Hn as [Hni Hn]. apply Forall_cons in Hp as [Hp Hps]. cbn [flat_map existsb]. rewrite IH by done.
    destruct (stands_at g p) eqn:Ep; [|done]. cbn [orb]. replace (existsb (stands_at g) ps) with false; [apply app_nil_r|]. symmetry. apply not_true_iff_false. intros (q & Hq%list_elem_of_In & Eq)%existsb_exists.
    rewrite Forall_forall in Hps. destruct (stands_first g p f Hp Hf Ep) as (h & Hh & E), (stands_first g q f (Hps q Hq) Hf Eq) as (h' & Hh' & E').
    apply Hni. by rewrite (id_at_inj p q h h' Hh Hh') by congruence. }
  apply Hone; [apply ssorted_NoDup, ssorted_range_list|]. apply Forall_forall. intros p Hp%elem_of_range_list. cbn in Hp. lia.
Qed.

Lemma placed_news (a : Assigned) : Forall (fun gn => group_ok (fst gn)) a ->
  flat_map (fun p => flat_map snd (List.filter (fun gn => stands_at (fst gn) p) a)) (range_list (0 ..< zlen final)) ++ flat_map snd (List.filter (fun gn => negb (contiguous (fst gn))) a) ≡ₚ flat_map snd a.
Proof.
  induction 1 as [|[g new] a Hg Ha IH]; cbn [List.filter flat_map fst snd].
  { rewrite app_nil_r. by induction (range_list _). }
  assert (E : flat_map (fun p => flat_map snd (if stands_at g p then (g, new) :: List.filter (fun gn => stands_at (fst gn) p) a else List.filter (fun gn => stands_at (fst gn) p) a)) (range_list (0 ..< zlen final))
    ≡ₚ (if contiguous g then new else []) ++ flat_map (fun p => flat_map snd (List.filter (fun gn => stands_at (fst gn) p) a)) (range_list (0 ..< zlen final))).
  { rewrite <- (one_place g new Hg), <- flat_map_split. match goal with |- ?x ≡ₚ ?y => replace y with x; [done|] end. rewrite !flat_map_concat_map. f_equal. apply map_ext. intros p. by destruct (stands_at g p). }
  cbn [fst] in E. rewrite E. destruct (contiguous g); cbn [negb flat_map snd]; rewrite <- IH; [by rewrite <- app_assoc|]. cbn. solve_Permutation.
Qed.

Lemma flat_map_fst {A B} (f : Z -> list B) (l : list A) : flat_map (fun pf => f (fst pf)) (enumerate l) = flat_map f (range_list (0 ..< zlen l)).
Proof. rewrite !flat_map_concat_map, <- (map_map fst f), map_fst_enumerate. unfold range_list. cbn [start end_]. by rewrite Z.sub_0_r. Qed.

Lemma flat_map_snd {A B} (f : A -> list B) (l : list A) : flat_map (fun pf => f (snd pf)) (enumerate l) = flat_map f l.
Proof. by rewrite flat_map_concat_map, <- (map_map snd f), map_snd_enumerate, flat_map_concat_map. Qed.

(** Nothing is lost or listed twice. *)
Lemma rewritten_perm a removed : Forall (fun gn => group_ok (fst gn)) a ->
  rewritten_list a removed ≡ₚ List.filter (fun f => negb (bool_decide (f_id f ∈ removed))) final ++ flat_map snd a.
Proof.
  intros Ha. unfold rewritten_list. rewrite flat_map_split, <- (placed_news _ Ha).
  rewrite (flat_map_fst (fun p => flat_map snd (List.filter (fun gn => stands_at (fst gn) p) a))).
  match goal with |- context [flat_map ?g (enumerate final)] => assert (Eg : flat_map g (enumerate final) = flat_map (fun f => if bool_decide (f_id f ∈ removed) then [] else [f]) final) by exact (flat_map_snd (fun f : Fragment Rest => if bool_decide (f_id f ∈ removed) then [] else [f]) final); rewrite Eg end.
  assert (E : flat_map (fun f => if bool_decide (f_id f ∈ removed) then [] else [f]) final = List.filter (fun f => negb (bool_decide (f_id f ∈ removed))) final).
  { clear. induction final as [|f l IH]; [done|]. cbn. rewrite IH. by case_bool_decide. }
  rewrite E. solve_Permutation.
Qed.

Lemma assign_groups groups fragment_id : Forall group_ok groups -> Forall (fun gn => group_ok (fst gn)) (fst (assign groups fragment_id)).
Proof.
  intros Hg. revert fragment_id. induction Hg as [|g groups Hg _ IH]; intros fid; [constructor|]. cbn [assign]. destruct (fragments_with_ids (g_new g) fid) as [new fid2]. specialize (IH fid2).
  destruct (assign groups fid2). by constructor.
Qed.

Lemma handle_rewrite_ok groups fragment_id changed : Forall group_ok groups ->
  let assigned := fst (assign groups fragment_id) in
  (all_fit groups /\ handle_rewrite_fragments final groups fragment_id changed =
     Ok (rewritten_list assigned (removed_ids groups), snd (assign groups fragment_id), foldl changed_fragment changed (flat_map snd assigned))) \/
  (~ all_fit groups /\ handle_rewrite_fragments final groups fragment_id changed = Err CommitConflict).
Proof.
  intros Hg. cbv zeta. unfold handle_rewrite_fragments. set (p0 := mkPlacement _ _ _ _ _).
  assert (H0 : placed [] p0).
  { split; cbn; [|intros q; by rewrite lookup_empty|done|constructor]. unfold flags. clear. induction final as [|f l IH]; [done|]. cbn. by rewrite IH. }
  destruct (place_groups_ok groups [] p0 H0 ltac:(constructor) Hg) as [[Hok (p' & E & [Hr Hrep Happ _] & Hid & Hch)]|[Hno E]]; cbn [app old_ids flat_map] in *; rewrite E; mon; [left|by right].
  split; [exact Hok|]. rewrite Hr. unfold flags. rewrite assemble_ok. mon. rewrite Hid, Hch, Happ, assign_old. cbn [pl_fragment_id pl_changed p0].
  do 4 f_equal. unfold rewritten_list. f_equal. unfold enumerate. rewrite !flat_map_concat_map. f_equal. apply map_ext_in. intros [q f] Hq%list_elem_of_In. cbn [fst snd]. rewrite Hrep.
  apply elem_of_zip_l, elem_of_seqZ in Hq. rewrite (proj2 (Z.leb_le 0 q)) by lia. do 2 f_equal. apply List.filter_ext. intros gn. by rewrite andb_true_r.
Qed.

(** C24: committing a rewrite.  When every old fragment exists and is replaced
    once, the new fragments of a group whose old ones stand together take their
    place, the others follow at the end, and everything else stays: no fragment
    is lost or listed twice.  Otherwise the commit is refused as a conflict. *)
Theorem rewrite_fragments_placed groups fragment_id changed : Forall group_ok groups ->
  let assigned := fst (assign groups fragment_id) in
  (all_fit groups ->
     handle_rewrite_fragments final groups fragment_id changed =
       Ok (rewritten_list assigned (removed_ids groups), snd (assign groups fragment_id), foldl changed_fragment changed (flat_map snd assigned)) /\
     rewritten_list assigned (removed_ids groups) ≡ₚ List.filter (fun f => negb (bool_decide (f_id f ∈ removed_ids groups))) final ++ flat_map snd assigned) /\
  (~ all_fit groups -> handle_rewrite_fragments final groups fragment_id changed = Err CommitConflict).
Proof.
  intros Hg. cbv zeta. destruct (handle_rewrite_ok groups fragment_id changed Hg) as [[Hok E]|[Hno E]]; (split; [|done]); intros H; [|done].
  split; [exact E|]. by apply rewritten_perm, assign_groups.
Qed.

(** *** Coverage *)

Definition group_ids (g : FragmentGroup Rest) : RewriteGroup := mkRewriteGroup (ids_of (g_old g)) (ids_of (g_new g)).

(** Reserved ids are kept. *)
Lemma with_ids_reserved (fs : list (Fragment Rest)) fid : Forall (fun f => f_id f <> 0) fs -> fragments_with_ids fs fid = (fs, fid).
Proof. induction 1 as [|f fs Hf _ IH]; [done|]. cbn. destruct (Z.eqb_spec (f_id f) 0); [done|]. by rewrite IH. Qed.

Lemma assign_reserved groups fid : Forall (fun g => Forall (fun f => f_id f <> 0) (g_new g)) groups -> flat_map snd (fst (assign groups fid)) = flat_map g_new groups.
Proof.
  intros Hg. revert fid. induction Hg as [|g groups Hg _ IH]; intros fid; [done|]. cbn [assign]. rewrite with_ids_reserved by done. specialize (IH fid). destruct (assign groups fid). cbn in *. by rewrite IH.
Qed.

(** C25: when a rewrite with reserved ids is committed, every fragment that the
    recalculated coverage of an index names is one of the new list, unless the
    index named it before although the table did not have it: a stale name can
    survive a rewrite, none is made by it. *)
Theorem rewrite_coverage_live {RB : Roaring} {RL : RoaringLaws RB} groups fragment_id changed out next changed' b b' :
  Forall group_ok groups -> Forall (fun g => Forall (fun f => f_id f <> 0) (g_new g)) groups -> groups_typed (map group_ids groups) ->
  handle_rewrite_fragments final groups fragment_id changed = Ok (out, next, changed') -> recalculate_fragment_bitmap b (map group_ids groups) = Ok b' ->
  forall v, bm_contains b' v = true -> v ∈ ids_of out \/ (bm_contains b v = true /\ v ∉ ids_of final).
Proof.
  intros Hg Hres Hty E Eb v Hv. destruct (handle_rewrite_ok groups fragment_id changed Hg) as [[_ E']|[_ E']]; [|congruence]. rewrite E in E'. injection E' as -> _ _.
  assert (Hnew : flat_map new_fragments (map group_ids groups) = ids_of (flat_map g_new groups)) by (clear; induction groups; [done|]; cbn; unfold ids_of in *; rewrite map_app; congruence).
  assert (Hout : forall x, x ∈ ids_of (rewritten_list (fst (assign groups fragment_id)) (removed_ids groups)) <->
    x ∈ map f_id (List.filter (fun f => negb (bool_decide (f_id f ∈ removed_ids groups))) final) \/ x ∈ ids_of (flat_map g_new groups)).
  { intros x. unfold ids_of. rewrite rewritten_perm by (by apply assign_groups). by rewrite assign_reserved, map_app, elem_of_app by done. }
  rewrite Hout. destruct (recalculate_upper b (map group_ids groups) b b' v Hty Eb Hv) as [[Hb Hn]|Hn].
  - destruct (decide (v ∈ ids_of final)) as [Hf|Hf]; [left; left|by right]. apply list_elem_of_fmap in Hf as (f & -> & Hf). apply list_elem_of_fmap. exists f. split; [done|].
    apply elem_of_filterb. split; [done|]. apply negb_true_iff, bool_decide_false. intros Hr. apply Hn. unfold removed_ids in Hr. apply elem_of_flat in Hr as (g & Hin & Hgo).
    unfold covered_old. apply elem_of_flat. exists (group_ids g). split; [|done]. apply elem_of_filterb.
    split; [apply list_elem_of_fmap; by exists g|]. unfold any_in. apply existsb_exists. exists (f_id f). split; [by apply list_elem_of_In|done].
  - left. right. rewrite <- Hnew. unfold covered_new in Hn. apply elem_of_flat in Hn as (g & [Hg' _]%elem_of_filterb & Hn). apply elem_of_flat. by exists g.
Qed.

End Fragments.

(** ** Examples *)

Module RewriteCommitExamples.

#[local] Existing Instance CofiniteRoaring.
#[local] Existing Instance CofiniteRoaring_laws.

Definition frag (id : Z) : Fragment unit := mkFragment id None tt.

(** Fragments 2 and 3 stand together, 1 and 4 do not. *)
Definition table : list (Fragment unit) := map frag [1; 2; 3; 4; 5].
Definition rewrites : list (FragmentGroup unit) := [mkFragmentGroup (map frag [2; 3]) (map frag [7]); mkFragmentGroup (map frag [1; 4]) (map frag [0; 8])].

Lemma table_distinct : NoDup (map f_id table).
Proof. apply (bool_decide_unpack (NoDup _)). by vm_compute. Qed.

Lemma rewrites_ok : Forall group_ok rewrites.
Proof. repeat constructor; by vm_compute. Qed.

Lemma rewrite_fragments_placed_witness : exists out, handle_rewrite_fragments table rewrites 9 (mkChanged [] 0) = Ok (out, 10, mkChanged [] 3) /\ map f_id out = [7; 5; 9; 8].
Proof.
  destruct (rewrite_fragments_placed table table_distinct ltac:(by vm_compute) rewrites 9 (mkChanged [] 0) rewrites_ok) as [H _].
  destruct H as [E _]; [split; [apply (bool_decide_unpack (NoDup _)); by vm_compute|apply Forall_forall, (bool_decide_unpack (Forall _ _)); by vm_compute]|].
  eexists. split; [exact E|by vm_compute].
Defined.

Definition reserved : list (FragmentGroup unit) := [mkFragmentGroup (map frag [2; 3]) (map frag [7])].

(** The index still names fragment 6, which the table no longer has. *)
Lemma rewrite_coverage_live_witness : exists out b', handle_rewrite_fragments table reserved 9 (mkChanged [] 0) = Ok (out, 9, mkChanged [] 1) /\
  recalculate_fragment_bitmap (bm_from_iter [2; 3; 5; 6]) (map group_ids reserved) = Ok b' /\ bm_contains b' 6 = true /\
  (7 ∈ ids_of out \/ (bm_contains (bm_from_iter [2; 3; 5; 6]) 7 = true /\ 7 ∉ ids_of table)).
Proof.
  destruct (handle_rewrite_fragments table reserved 9 (mkChanged [] 0)) as [[[out next] changed']|?|] eqn:E; [|by vm_compute in E..].
  destruct (recalculate_fragment_bitmap (bm_from_iter [2; 3; 5; 6]) (map group_ids reserved)) as [b'|?|] eqn:Eb; [|by vm_compute in Eb..].
  exists out, b'. split; [vm_compute in E; injection E as <- <- <-; done|]. split; [done|]. split; [vm_compute in Eb; injection Eb as <-; by vm_compute|].
  apply (rewrite_coverage_live table table_distinct ltac:(by vm_compute) reserved 9 (mkChanged [] 0) out next changed' (bm_from_iter [2; 3; 5; 6]) b').
  - repeat constructor; by vm_compute.
  - repeat constructor; by vm_compute.
  - repeat constructor; by vm_compute.
  - exact E.
  - exact Eb.
  - vm_compute in Eb. injection Eb as <-. by vm_compute.
Defined.

End RewriteCommitExamples.
