(* ===== verification/RewriteIndices.v ===== *)
(** * Swapping rewritten index segments

    [handle_rewrite_indices] ([lance-table/src/transaction/index_maintenance.rs]):
    a compaction that remapped or merged index segments replaces their entries.
    The loop searches and rebuilds the list of indices once per new segment; the
    reference makes one pass over it.  The caller drops the list when the
    function fails, so an error carries none. *)

From Stdlib Require Import ZArith Lia.
From stdpp Require Import base option list numbers sorting sets gmap strings.
From S2P Require Import Prelude Lists SegmentBuild Roaring Ledger Lineage SchemaFields IndexCoverage.

(** ** Model *)

Record IndexFile := mkIndexFile { if_path : string; if_size_bytes : Z; if_file_metadata_size_bytes : option Z }.

#[export] Instance Any_eq_dec : EqDecision Any.
Proof. solve_decision. Defined.
#[export] Instance IndexFile_eq_dec : EqDecision IndexFile.
Proof. solve_decision. Defined.

Record RewrittenIndex := mkRewrittenIndex {
  old_id : Z;
  new_id : Z;
  new_index_details : Any;
  new_index_version : Z;
  new_index_files : option (list IndexFile)
}.

Section RewriteIndices.
Context {RB : Roaring}.

(** [IndexMetadata] with the fields that only this code changes. *)
Record IndexEntry := mkEntry {
  ie_meta : IndexMetadata;
  ie_base_id : option Z;
  ie_files : option (list IndexFile);
  ie_clustering_id : option Z;
  ie_metadata : gmap string string
}.
Definition ie_uuid (e : IndexEntry) : Z := im_uuid (ie_meta e).
Definition ie_name (e : IndexEntry) : string := im_name (ie_meta e).

(** The loop over [modified_indices]. *)
Fixpoint repeated_old (modified : gset Z) (rewritten_indices : list RewrittenIndex) : bool :=
  match rewritten_indices with
  | [] => false
  | r :: rewritten_indices => bool_decide (old_id r ∈ modified) || repeated_old ({[old_id r]} ∪ modified) rewritten_indices
  end.

Definition inconsistent (r replacement : RewrittenIndex) : bool :=
  negb (bool_decide (new_index_details replacement = new_index_details r)) || negb (new_index_version replacement =? new_index_version r)
  || negb (bool_decide (new_index_files replacement = new_index_files r)).

Definition different_shape (first_source source : IndexEntry) : bool :=
  negb (bool_decide (ie_name source = ie_name first_source)) || negb (bool_decide (im_fields (ie_meta source) = im_fields (ie_meta first_source)))
  || negb (bool_decide (im_covering_fields (ie_meta source) = im_covering_fields (ie_meta first_source))).

Definition union_coverage (sources : list IndexEntry) : res bitmap :=
  fold_res (fun old source => b ← ok_or (im_fragment_bitmap (ie_meta source)) InvalidInput; Ok (bm_or old b)) bm_new sources.

(** The entry that replaces the sources, the first of them given. *)
Definition replacement_entry (r : RewrittenIndex) (replacements : list RewrittenIndex) (first_source : IndexEntry) (sources : list IndexEntry) (groups : list RewriteGroup) : res IndexEntry :=
  old_fragment_bitmap ← union_coverage sources;
  fragment_bitmap ← recalculate_fragment_bitmap old_fragment_bitmap groups;
  let base_id := if existsb (fun replacement => negb (old_id replacement =? new_id replacement)) replacements then None else ie_base_id first_source in
  let merged := 1 <? zlen replacements in
  let m := ie_meta first_source in
  Ok (mkEntry
    (mkIndex (new_id r) (im_fields m) (im_covering_fields m) (im_name m)
       (foldl Z.min (im_dataset_version m) (map (fun source => im_dataset_version (ie_meta source)) sources)) (Some fragment_bitmap)
       (if merged then Some (new_index_details r) else im_index_details m) (if merged then wrap_i32 (new_index_version r) else im_index_version m) (im_created_at m))
    base_id (new_index_files r) (if merged then None else ie_clustering_id first_source) (if merged then ∅ else ie_metadata first_source)).

(** The body of the loop over the rewritten indices. *)
Definition replace_index (rewritten_indices : list RewrittenIndex) (groups : list RewriteGroup) (s : list IndexEntry * gset Z) (r : RewrittenIndex) : res (list IndexEntry * gset Z) :=
  let '(indices, handled_new_ids) := s in
  if bool_decide (new_id r ∈ handled_new_ids) then Ok s else
  let handled_new_ids := {[new_id r]} ∪ handled_new_ids in
  let replacements := List.filter (fun candidate => new_id candidate =? new_id r) rewritten_indices in
  if existsb (inconsistent r) replacements then Err InvalidInput else
  let old_ids : gset Z := list_to_set (map old_id replacements) in
  let source_indices := List.filter (fun pi => bool_decide (ie_uuid (snd pi) ∈ old_ids)) (enumerate indices) in
  match source_indices with
  | [] => Ok (indices, handled_new_ids)
  | (insert_at, first_source) :: _ =>
      if negb (zlen source_indices =? zlen replacements) then Err InvalidInput else
      if existsb (fun ps => different_shape first_source (snd ps)) source_indices then Err InvalidInput else
      replacement ← replacement_entry r replacements first_source (map snd source_indices) groups;
      let indices := List.filter (fun index => negb (bool_decide (ie_uuid index ∈ old_ids))) indices in
      let insert_at := Z.min insert_at (zlen indices) in
      Ok (ztake insert_at indices ++ [replacement] ++ zskip insert_at indices, handled_new_ids)
  end.

Definition handle_rewrite_indices (indices : list IndexEntry) (rewritten_indices : list RewrittenIndex) (groups : list RewriteGroup) : res (list IndexEntry) :=
  if repeated_old ∅ rewritten_indices then Err InvalidInput else
  s ← fold_res (replace_index rewritten_indices groups) (indices, ∅) rewritten_indices;
  Ok (fst s).

(** ** The reference *)

Definition replacements_of (rewritten : list RewrittenIndex) (n : Z) : list RewrittenIndex := List.filter (fun r => new_id r =? n) rewritten.

(** The new segment an entry is rewritten to. *)
Definition target (rewritten : list RewrittenIndex) (e : IndexEntry) : option Z := option_map new_id (List.find (fun r => old_id r =? ie_uuid e) rewritten).

Definition targets (rewritten : list RewrittenIndex) (n : Z) (e : IndexEntry) : bool := bool_decide (target rewritten e = Some n).

Definition sources_of (rewritten : list RewrittenIndex) (indices : list IndexEntry) (n : Z) : list IndexEntry := List.filter (targets rewritten n) indices.

(** The entry of a new segment; all its rewrites carry the same metadata. *)
Definition merge (rewritten : list RewrittenIndex) (indices : list IndexEntry) (groups : list RewriteGroup) (n : Z) : res IndexEntry :=
  match replacements_of rewritten n, sources_of rewritten indices n with
  | r :: rs, first :: sources => replacement_entry r (r :: rs) first (first :: sources) groups
  | _, _ => Err InvalidInput
  end.

(** Every first entry with a target among [ns] becomes the new one, later ones
    with the same target go. *)
Fixpoint swapped (to : IndexEntry -> option Z) (new : Z -> list IndexEntry) (ns : gset Z) (seen : gset Z) (l : list IndexEntry) : list IndexEntry :=
  match l with
  | [] => []
  | e :: l =>
      match to e with
      | Some n =>
          if decide (n ∈ ns) then
            if decide (n ∈ seen) then swapped to new ns seen l else new n ++ swapped to new ns ({[n]} ∪ seen) l
          else e :: swapped to new ns seen l
      | None => e :: swapped to new ns seen l
      end
  end.

(** The plan is sound for a new segment: its rewrites agree, and all of its
    sources are there, with one shape and known coverage, or none is. *)
Definition mergeable (rewritten : list RewrittenIndex) (indices : list IndexEntry) (groups : list RewriteGroup) (n : Z) : Prop :=
  (forall r r', r ∈ replacements_of rewritten n -> r' ∈ replacements_of rewritten n -> inconsistent r r' = false) /\
  (sources_of rewritten indices n = [] \/
   zlen (sources_of rewritten indices n) = zlen (replacements_of rewritten n) /\
   (forall e e', e ∈ sources_of rewritten indices n -> e' ∈ sources_of rewritten indices n -> different_shape e e' = false) /\
   exists e, merge rewritten indices groups n = Ok e).

(** No new segment is at once the source of another. *)
Definition no_chain (rewritten : list RewrittenIndex) : Prop := forall r r', r ∈ rewritten -> r' ∈ rewritten -> new_id r = old_id r' -> new_id r' = new_id r.

(** ** One replacement *)

Lemma repeated_old_spec modified l : repeated_old modified l = false <-> NoDup (map old_id l) /\ forall r, r ∈ l -> old_id r ∉ modified.
Proof.
  revert modified. induction l as [|r l IH]; intros modified; cbn.
  - split; [intros _; split; [constructor|]|done]. intros r Hr. by apply not_elem_of_nil in Hr.
  - rewrite orb_false_iff, bool_decide_eq_false, IH, NoDup_cons, list_elem_of_fmap. setoid_rewrite elem_of_cons. split.
    + intros (Hr & Hn & Hl). split; [split; [|done]|].
      * intros (r' & E & Hr'). apply (Hl r' Hr'). set_solver.
      * intros r' [->|Hr']; [done|]. specialize (Hl r' Hr'). set_solver.
    + intros ((Hr & Hn) & Hl). split; [apply Hl; by left|]. split; [done|]. intros r' Hr' [E|E]%elem_of_union; [|by apply (Hl r' (or_intror Hr'))].
      apply elem_of_singleton in E. apply Hr. by exists r'.
Qed.

Lemma find_unique (l : list RewrittenIndex) r u : NoDup (map old_id l) -> r ∈ l -> old_id r = u -> List.find (fun r => old_id r =? u) l = Some r.
Proof.
  intros Hn Hr <-. induction l as [|r' l IH]; [by apply not_elem_of_nil in Hr|]. cbn in *. apply NoDup_cons in Hn as [Hr' Hn].
  destruct (Z.eqb_spec (old_id r') (old_id r)) as [E|Hne].
  - apply elem_of_cons in Hr as [->|Hr]; [done|]. destruct Hr'. rewrite E. apply list_elem_of_fmap. by exists r.
  - apply elem_of_cons in Hr as [->|Hr]; [done|]. by apply IH.
Qed.

(** The set of old ids that the loop tests is the reference's target. *)
Lemma in_old_ids rewritten n e : NoDup (map old_id rewritten) ->
  bool_decide (ie_uuid e ∈ (list_to_set (map old_id (replacements_of rewritten n)) : gset Z)) = targets rewritten n e.
Proof.
  intros Hn. unfold targets. apply bool_decide_ext. rewrite elem_of_list_to_set, list_elem_of_fmap. unfold replacements_of, target. setoid_rewrite elem_of_filterb. split.
  - intros (r & E & Hr & Hnew%Z.eqb_eq). rewrite (find_unique rewritten r) by done. cbn. by rewrite Hnew.
  - intros H. destruct (List.find _ rewritten) as [r|] eqn:Ef; [|done]. injection H as H. apply List.find_some in Ef as [Hr%list_elem_of_In E%Z.eqb_eq].
    exists r. split; [done|]. split; [done|]. by apply Z.eqb_eq.
Qed.

(** The first element with a property and what is around it. *)
Lemma filter_first {A} (p : A -> bool) (l : list A) x xs : List.filter p l = x :: xs ->
  exists l1 l2, l = l1 ++ x :: l2 /\ List.filter p l1 = [] /\ p x = true /\ List.filter p l2 = xs.
Proof.
  induction l as [|y l IH]; [done|]. cbn. destruct (p y) eqn:Ey.
  - intros [= -> <-]. by exists [], l.
  - intros (l1 & l2 & -> & H1 & Hx & H2)%IH. exists (y :: l1), l2. cbn. by rewrite Ey.
Qed.

Lemma filter_negb_none {A} (p : A -> bool) (l : list A) : List.filter p l = [] -> List.filter (fun x => negb (p x)) l = l.
Proof. induction l as [|y l IH]; [done|]. cbn. destruct (p y); [done|]. intros H. cbn. by rewrite IH. Qed.

(** The first element with a property is replaced, the others go. *)
Fixpoint subst_first {A} (p : A -> bool) (new : list A) (l : list A) : list A :=
  match l with
  | [] => []
  | x :: l => if p x then new ++ List.filter (fun x => negb (p x)) l else x :: subst_first p new l
  end.

Lemma subst_first_split {A} (p : A -> bool) new l1 x l2 : List.filter p l1 = [] -> p x = true ->
  subst_first p new (l1 ++ x :: l2) = l1 ++ new ++ List.filter (fun x => negb (p x)) l2.
Proof. intros H1 Hx. induction l1 as [|y l1 IH]; cbn; [by rewrite Hx|]. cbn in H1. destruct (p y); [done|]. by rewrite IH. Qed.

Lemma filter_enumerate {A} (p : A -> bool) (l : list A) : map snd (List.filter (fun px => p (snd px)) (enumerate l)) = List.filter p l.
Proof. rewrite <- (map_snd_enumerate l) at 2. generalize (enumerate l). intros m. induction m as [|[q x] m IH]; [done|]. cbn. destruct (p x); cbn; by rewrite IH. Qed.

Lemma insert_at_first {A} (p : A -> bool) (l : list A) q x rest new : List.filter (fun px => p (snd px)) (enumerate l) = (q, x) :: rest ->
  let kept := List.filter (fun x => negb (p x)) l in
  ztake (Z.min q (zlen kept)) kept ++ [new] ++ zskip (Z.min q (zlen kept)) kept = subst_first p [new] l.
Proof.
  intros E. cbv zeta. destruct (filter_first _ _ _ _ E) as (m1 & m2 & El & H1 & Hx & _). cbn [snd] in Hx.
  assert (Es : l = map snd m1 ++ x :: map snd m2) by (rewrite <- (map_snd_enumerate l), El, map_app; done).
  assert (Hq : q = zlen (map snd m1)).
  { assert (Hq : map fst (enumerate l) !! length m1 = Some q) by (by rewrite El, map_app, lookup_app_r, length_map, Nat.sub_diag by (rewrite length_map; lia)).
    rewrite map_fst_enumerate in Hq. apply lookup_seqZ in Hq. unfold zlen. rewrite length_map. lia. }
  assert (Hn : List.filter p (map snd m1) = []).
  { clear -H1. induction m1 as [|[? y] m1 IH]; [done|]. cbn in *. destruct (p y); [done|]. by apply IH. }
  rewrite Es, subst_first_split, List.filter_app, (filter_negb_none _ _ Hn) by done. cbn [List.filter]. rewrite Hx. cbn [negb].
  rewrite Z.min_l by (unfold zlen in *; rewrite length_app; lia). rewrite Hq. unfold ztake, zskip, zlen. rewrite Nat2Z.id, take_app_length, drop_app_length. done.
Qed.

Lemma subst_first_app {A} (p : A -> bool) new l1 l2 : List.filter p l1 = [] -> subst_first p new (l1 ++ l2) = l1 ++ subst_first p new l2.
Proof. intros H1. induction l1 as [|y l1 IH]; [done|]. cbn in *. destruct (p y); [done|]. by rewrite IH. Qed.

Lemma subst_first_none {A} (p : A -> bool) new l : List.filter p l = [] -> subst_first p new l = l.
Proof. intros H. rewrite <- (app_nil_r l) at 1. rewrite subst_first_app by done. apply app_nil_r. Qed.

(** Swapping one more target, in the abstract: the new entries are no sources
    of other targets. *)
Section Swap.
Context (to : IndexEntry -> option Z) (new : Z -> list IndexEntry) (n : Z) (ns : gset Z) (Hns : n ∉ ns).
Let hits (e : IndexEntry) : bool := bool_decide (to e = Some n).
Context (Hnew : forall m, m <> n -> List.filter hits (new m) = []).

Lemma swap_sources seen l : List.filter hits (swapped to new ns seen l) = List.filter hits l.
Proof.
  revert seen. induction l as [|e l IH]; intros seen; [done|]. cbn. unfold hits at 2. destruct (to e) as [m|] eqn:Em.
  - destruct (decide (m ∈ ns)) as [Hm|Hm].
    + assert (m <> n) by congruence. rewrite bool_decide_false by congruence. destruct (decide (m ∈ seen)); [apply IH|]. by rewrite List.filter_app, Hnew, IH.
    + cbn. unfold hits at 1. rewrite Em. by rewrite IH.
  - cbn. unfold hits at 1. rewrite Em. by rewrite IH.
Qed.

Lemma swap_later seen l : List.filter (fun e => negb (hits e)) (swapped to new ns seen l) = swapped to new ({[n]} ∪ ns) ({[n]} ∪ seen) l.
Proof.
  revert seen. induction l as [|e l IH]; intros seen; [done|]. cbn. destruct (to e) as [m|] eqn:Em.
  - destruct (decide (m = n)) as [->|Hne].
    + rewrite decide_False, !decide_True by set_solver. cbn. unfold hits at 1. rewrite Em, bool_decide_true by done. apply IH.
    + destruct (decide (m ∈ ns)) as [Hm|Hm].
      * rewrite (decide_True (P := m ∈ {[n]} ∪ ns)) by set_solver. destruct (decide (m ∈ seen)).
        -- rewrite decide_True by set_solver. apply IH.
        -- rewrite decide_False by set_solver. rewrite List.filter_app, (filter_negb_none _ _ (Hnew m Hne)), IH. do 2 f_equal. set_solver.
      * rewrite (decide_False (P := m ∈ {[n]} ∪ ns)) by set_solver. cbn. unfold hits at 1. rewrite Em, bool_decide_false by congruence. cbn. by rewrite IH.
  - cbn. unfold hits at 1. rewrite Em. cbn. by rewrite IH.
Qed.

Lemma swap_first seen l : n ∉ seen -> subst_first hits (new n) (swapped to new ns seen l) = swapped to new ({[n]} ∪ ns) seen l.
Proof.
  revert seen. induction l as [|e l IH]; intros seen Hs; [done|]. cbn. destruct (to e) as [m|] eqn:Em.
  - destruct (decide (m = n)) as [->|Hne].
    + rewrite decide_False, decide_True, decide_False by set_solver. cbn. unfold hits at 1. rewrite Em, bool_decide_true by done. by rewrite swap_later.
    + destruct (decide (m ∈ ns)) as [Hm|Hm].
      * rewrite (decide_True (P := m ∈ {[n]} ∪ ns)) by set_solver. destruct (decide (m ∈ seen)); [by apply IH|].
        rewrite subst_first_app by (by apply Hnew). rewrite IH by set_solver. done.
      * rewrite (decide_False (P := m ∈ {[n]} ∪ ns)) by set_solver. cbn. unfold hits at 1. rewrite Em, bool_decide_false by congruence. by rewrite IH.
  - cbn. unfold hits at 1. rewrite Em. cbn. by rewrite IH.
Qed.

End Swap.

(** ** The loop *)

Lemma inconsistent_false r r' : inconsistent r r' = false <->
  new_index_details r' = new_index_details r /\ new_index_version r' = new_index_version r /\ new_index_files r' = new_index_files r.
Proof. unfold inconsistent. rewrite !orb_false_iff, !negb_false_iff, !bool_decide_eq_true, Z.eqb_eq. tauto. Qed.

Lemma different_shape_false e e' : different_shape e e' = false <->
  ie_name e' = ie_name e /\ im_fields (ie_meta e') = im_fields (ie_meta e) /\ im_covering_fields (ie_meta e') = im_covering_fields (ie_meta e).
Proof. unfold different_shape. rewrite !orb_false_iff, !negb_false_iff, !bool_decide_eq_true. tauto. Qed.

Lemma recalculate_result old groups b : (exists b', fold_res (recalculate_group old) b groups = Ok b') \/ fold_res (recalculate_group old) b groups = Err InvalidInput.
Proof.
  revert b. induction groups as [|g groups IH]; intros b; [left; by exists b|]. cbn [fold_res]. unfold recalculate_group at 2 4.
  destruct (existsb _ _); [destruct (forallb _ _)|]; mon; [apply IH|by right|apply IH].
Qed.

Lemma union_result sources b : let f := fun old source => c ← ok_or (im_fragment_bitmap (ie_meta source)) InvalidInput; Ok (bm_or old c) in
  (exists b', fold_res f b sources = Ok b') \/ fold_res f b sources = Err InvalidInput.
Proof.
  cbv zeta. revert b. induction sources as [|e sources IH]; intros b; [left; by exists b|]. cbn [fold_res]. destruct (im_fragment_bitmap (ie_meta e)); cbn [ok_or]; mon; [apply IH|by right].
Qed.

Lemma replacement_result r rs first sources groups :
  (exists e, replacement_entry r rs first sources groups = Ok e /\ ie_uuid e = new_id r) \/ replacement_entry r rs first sources groups = Err InvalidInput.
Proof.
  unfold replacement_entry, union_coverage, recalculate_fragment_bitmap. destruct (union_result sources bm_new) as [[b ->]| ->]; mon; [|by right].
  destruct (recalculate_result b groups b) as [[b' ->]| ->]; mon; [|by right]. left. by eexists.
Qed.

Lemma replacement_same r r' rs first sources groups : new_id r = new_id r' -> inconsistent r r' = false -> replacement_entry r rs first sources groups = replacement_entry r' rs first sources groups.
Proof. intros En (Ed & Ev & Ef)%inconsistent_false. unfold replacement_entry. by rewrite En, Ed, Ev, Ef. Qed.

Lemma elem_of_replacements rewritten n r : r ∈ replacements_of rewritten n <-> r ∈ rewritten /\ new_id r = n.
Proof. unfold replacements_of. by rewrite elem_of_filterb, Z.eqb_eq. Qed.

Section Loop.
Context (rewritten : list RewrittenIndex) (indices : list IndexEntry) (groups : list RewriteGroup).
Context (Hold : NoDup (map old_id rewritten)) (Hchain : no_chain rewritten).

Definition new_entry (n : Z) : list IndexEntry := match merge rewritten indices groups n with Ok e => [e] | _ => [] end.

Lemma merge_uuid n e : merge rewritten indices groups n = Ok e -> ie_uuid e = n /\ exists r, r ∈ rewritten /\ new_id r = n.
Proof.
  unfold merge. destruct (replacements_of rewritten n) as [|r rs] eqn:Er; [done|]. destruct (sources_of rewritten indices n) as [|first sources]; [done|]. intros E.
  assert (Hr : r ∈ replacements_of rewritten n) by (rewrite Er; left). apply elem_of_replacements in Hr as [Hr Hn]. destruct (replacement_result r (r :: rs) first (first :: sources) groups) as [(e' & E' & Hu)|E']; rewrite E in E'; [|done].
  injection E' as <-. split; [congruence|by exists r].
Qed.

Lemma merge_result n : (exists e, merge rewritten indices groups n = Ok e) \/ merge rewritten indices groups n = Err InvalidInput.
Proof.
  unfold merge. destruct (replacements_of rewritten n) as [|r rs]; [by right|]. destruct (sources_of rewritten indices n) as [|first sources]; [by right|].
  destruct (replacement_result r (r :: rs) first (first :: sources) groups) as [(e & -> & _)| ->]; [left; by exists e|by right].
Qed.

Lemma new_entry_other n m : m <> n -> List.filter (targets rewritten n) (new_entry m) = [].
Proof.
  intros Hne. unfold new_entry. destruct (merge rewritten indices groups m) as [e| |] eqn:E; [|done..]. apply merge_uuid in E as (Hu & r & Hr & Hm).
  cbn. unfold targets. rewrite bool_decide_false; [done|]. unfold target. destruct (List.find _ rewritten) as [r'|] eqn:Ef; [|done].
  apply List.find_some in Ef as [Hr'%list_elem_of_In E'%Z.eqb_eq]. intros [= H]. apply Hne. rewrite <- H, <- Hm. symmetry. apply Hchain; [done|done|congruence].
Qed.

(** The list after the new segments [ns] were handled. *)
Definition after (ns : gset Z) : list IndexEntry := swapped (target rewritten) new_entry ns ∅ indices.

Lemma after_sources n ns : n ∉ ns -> List.filter (targets rewritten n) (after ns) = sources_of rewritten indices n.
Proof. intros Hn. apply (swap_sources (target rewritten) new_entry n ns Hn). intros m. apply new_entry_other. Qed.

Lemma after_subst n ns : n ∉ ns -> subst_first (targets rewritten n) (new_entry n) (after ns) = after ({[n]} ∪ ns).
Proof. intros Hn. apply (swap_first (target rewritten) new_entry n ns Hn); [intros m; apply new_entry_other|set_solver]. Qed.

(** All rewrites of a segment agree when one agrees with all. *)
Lemma agree_all r : r ∈ replacements_of rewritten (new_id r) ->
  existsb (inconsistent r) (replacements_of rewritten (new_id r)) = false <->
  (forall r1 r2, r1 ∈ replacements_of rewritten (new_id r) -> r2 ∈ replacements_of rewritten (new_id r) -> inconsistent r1 r2 = false).
Proof.
  intros Hr. rewrite <- not_true_iff_false, existsb_exists. split.
  - intros H. assert (Hall : forall r', r' ∈ replacements_of rewritten (new_id r) -> inconsistent r r' = false).
    { intros r' Hr'. apply not_true_iff_false. intros E. apply H. exists r'. split; [by apply list_elem_of_In|done]. }
    intros r1 r2 H1%Hall H2%Hall. rewrite inconsistent_false in *. intuition congruence.
  - intros H (r' & Hr'%list_elem_of_In & E). rewrite (H r r' Hr Hr') in E. done.
Qed.

Lemma shape_all first rest : existsb (different_shape first) (first :: rest) = false <->
  (forall e e', e ∈ first :: rest -> e' ∈ first :: rest -> different_shape e e' = false).
Proof.
  rewrite <- not_true_iff_false, existsb_exists. split.
  - intros H. assert (Hall : forall e, e ∈ first :: rest -> different_shape first e = false).
    { intros e He. apply not_true_iff_false. intros E. apply H. exists e. split; [by apply list_elem_of_In|done]. }
    intros e e' H1%Hall H2%Hall. rewrite different_shape_false in *. intuition congruence.
  - intros H (e & He%list_elem_of_In & E). rewrite (H first e) in E; [done|left|done].
Qed.

Lemma merge_first r first rest : r ∈ replacements_of rewritten (new_id r) ->
  (forall r1 r2, r1 ∈ replacements_of rewritten (new_id r) -> r2 ∈ replacements_of rewritten (new_id r) -> inconsistent r1 r2 = false) ->
  sources_of rewritten indices (new_id r) = first :: rest ->
  merge rewritten indices groups (new_id r) = replacement_entry r (replacements_of rewritten (new_id r)) first (first :: rest) groups.
Proof.
  intros Hr Hag Es. unfold merge. rewrite Es. destruct (replacements_of rewritten (new_id r)) as [|r0 rs] eqn:Er; [by apply not_elem_of_nil in Hr|].
  assert (H0 : r0 ∈ replacements_of rewritten (new_id r)) by (rewrite Er; left). apply elem_of_replacements in H0 as [_ H0].
  apply replacement_same; [done|]. apply Hag; [left|done].
Qed.

Lemma replace_step_ok ns r : r ∈ rewritten -> new_id r ∉ ns ->
  (mergeable rewritten indices groups (new_id r) /\ replace_index rewritten groups (after ns, ns) r = Ok (after ({[new_id r]} ∪ ns), {[new_id r]} ∪ ns)) \/
  (~ mergeable rewritten indices groups (new_id r) /\ replace_index rewritten groups (after ns, ns) r = Err InvalidInput).
Proof.
  intros Hr Hn. assert (Hin : r ∈ replacements_of rewritten (new_id r)) by (by apply elem_of_replacements).
  unfold replace_index. rewrite bool_decide_false by done. fold (replacements_of rewritten (new_id r)). unfold mergeable. rewrite <- (agree_all r Hin).
  destruct (existsb (inconsistent r) _) eqn:Ei; [right; split; [by intros [? _]|done]|]. pose proof (proj1 (agree_all r Hin) Ei) as Hag.
  set (n := new_id r) in *. set (src := List.filter _ (enumerate (after ns))).
  assert (Esrc : src = List.filter (fun pi => targets rewritten n (snd pi)) (enumerate (after ns))) by (apply List.filter_ext; intros pi; by apply in_old_ids).
  assert (Emap : map snd src = sources_of rewritten indices n) by (rewrite Esrc, filter_enumerate; by apply after_sources).
  clearbody src. destruct src as [|[q first] rest] eqn:El.
  { cbn in Emap. left. split; [split; [done|by left]|]. rewrite <- (after_subst n ns Hn), subst_first_none; [done|]. rewrite after_sources by done. done. }
  assert (Ez : zlen ((q, first) :: rest) = zlen (sources_of rewritten indices n)) by (rewrite <- Emap; unfold zlen; by rewrite length_map).
  rewrite Ez. destruct (Z.eqb_spec (zlen (sources_of rewritten indices n)) (zlen (replacements_of rewritten n))) as [Hz|Hz]; cbn [negb].
  2: { right. split; [|done]. intros [_ [E|[E _]]]; [by rewrite <- Emap in E|done]. }
  assert (Esh : existsb (fun ps => different_shape first (snd ps)) ((q, first) :: rest) = existsb (different_shape first) (map snd ((q, first) :: rest))).
  { generalize ((q, first) :: rest). intros m. induction m as [|a m IH]; [done|]. cbn. by rewrite IH. }
  rewrite Esh, Emap. rewrite <- Emap. cbn [map snd]. rewrite <- shape_all.
  destruct (existsb (different_shape first) (first :: map snd rest)) eqn:Es.
  { right. split; [|done]. by intros [_ [E|(_ & E & _)]]. }
  cbn [map snd] in Emap. pose proof (merge_first r first (map snd rest) Hin Hag (eq_sym Emap)) as Ef. fold n in Ef. rewrite <- Ef.
  destruct (merge_result n) as [[e Em]|Em]; rewrite Em; mon.
  - left. split; [split; [done|]; right; rewrite <- Hz, <- Emap; split; [done|]; split; [done|by exists e]|]. do 2 f_equal.
    rewrite <- (after_subst n ns Hn). unfold new_entry. rewrite Em.
    rewrite (List.filter_ext _ (fun i => negb (targets rewritten n i))) by (intros i; f_equal; by apply in_old_ids).
    apply (insert_at_first (targets rewritten n) (after ns) q first rest e). done.
  - right. split; [|done]. by intros [_ [H|(_ & _ & ? & H)]].
Qed.

Lemma loop_ok l ns : (forall r, r ∈ l -> r ∈ rewritten) -> (forall n, n ∈ ns -> mergeable rewritten indices groups n) ->
  (Forall (fun r => mergeable rewritten indices groups (new_id r)) l /\
     exists ns', fold_res (replace_index rewritten groups) (after ns, ns) l = Ok (after ns', ns') /\ ns' = list_to_set (map new_id l) ∪ ns) \/
  (~ Forall (fun r => mergeable rewritten indices groups (new_id r)) l /\ fold_res (replace_index rewritten groups) (after ns, ns) l = Err InvalidInput).
Proof.
  revert ns. induction l as [|r l IH]; intros ns Hl Hns; [left; split; [constructor|]; exists ns; split; [done|set_solver]|]. cbn [fold_res].
  rewrite Forall_cons. assert (Hr : r ∈ rewritten) by (apply Hl; left). assert (Hl' : forall r, r ∈ l -> r ∈ rewritten) by (intros r' ?; apply Hl; by right).
  destruct (decide (new_id r ∈ ns)) as [Hin|Hin].
  - replace (replace_index rewritten groups (after ns, ns) r) with (Ok (after ns, ns)) by (unfold replace_index; by rewrite bool_decide_true). mon.
    destruct (IH ns Hl' Hns) as [(Hf & ns' & E & ->)|[Hf E]]; [left|right; split; [tauto|done]]. split; [by split; [apply Hns|]|]. eexists. split; [exact E|]. set_solver.
  - destruct (replace_step_ok ns r Hr Hin) as [[Hm ->]|[Hm ->]]; mon; [|right; split; [tauto|done]].
    destruct (IH ({[new_id r]} ∪ ns) Hl') as [(Hf & ns' & E & ->)|[Hf E]]; [set_solver|left|right; split; [tauto|done]]. split; [done|]. eexists. split; [exact E|]. set_solver.
Qed.

End Loop.

(** The plan of a compaction: no segment is rewritten twice and every new one
    can be made. *)
Definition plan_ok (rewritten : list RewrittenIndex) (indices : list IndexEntry) (groups : list RewriteGroup) : Prop :=
  NoDup (map old_id rewritten) /\ Forall (fun r => mergeable rewritten indices groups (new_id r)) rewritten.

Definition swapped_list (rewritten : list RewrittenIndex) (indices : list IndexEntry) (groups : list RewriteGroup) : list IndexEntry :=
  swapped (target rewritten) (new_entry rewritten indices groups) (list_to_set (map new_id rewritten)) ∅ indices.

Lemma swapped_nothing to new seen l : swapped to new ∅ seen l = l.
Proof. induction l as [|e l IH]; [done|]. cbn. rewrite IH. destruct (to e); [|done]. by rewrite decide_False by set_solver. Qed.

Lemma handle_indices_ok rewritten indices groups : no_chain rewritten ->
  (plan_ok rewritten indices groups /\ handle_rewrite_indices indices rewritten groups = Ok (swapped_list rewritten indices groups)) \/
  (~ plan_ok rewritten indices groups /\ handle_rewrite_indices indices rewritten groups = Err InvalidInput).
Proof.
  intros Hc. unfold handle_rewrite_indices, plan_ok. destruct (repeated_old ∅ rewritten) eqn:Er.
  { right. split; [|done]. intros [Hn _]. rewrite (proj2 (repeated_old_spec ∅ rewritten)) in Er; [done|]. split; [done|set_solver]. }
  apply repeated_old_spec in Er as [Hn _]. pose proof (swapped_nothing (target rewritten) (new_entry rewritten indices groups) ∅ indices) as E0. fold (after rewritten indices groups ∅) in E0.
  destruct (loop_ok rewritten indices groups Hn Hc rewritten ∅) as [(Hf & ns & E & ->)|[Hf E]]; [done|set_solver|rewrite E0 in E; rewrite E; mon..]; [left|right; tauto].
  split; [done|]. unfold after, swapped_list. by rewrite (right_id_L ∅ (∪)).
Qed.

(** C26: committing rewritten index segments.  When no segment is rewritten
    twice, all rewrites into a new segment agree, and its sources are all there
    with one shape and known coverage, or all gone, the new segment stands where
    its first source stood, the other sources go and every other entry keeps its
    place.  Any other plan is refused. *)
Theorem rewrite_indices_swapped rewritten indices groups : no_chain rewritten ->
  (plan_ok rewritten indices groups -> handle_rewrite_indices indices rewritten groups = Ok (swapped_list rewritten indices groups)) /\
  (~ plan_ok rewritten indices groups -> handle_rewrite_indices indices rewritten groups = Err InvalidInput).
Proof. intros Hc. destruct (handle_indices_ok rewritten indices groups Hc) as [[Hp E]|[Hp E]]; by split. Qed.

(** ** Coverage *)

Lemma elem_of_swapped to new ns seen l e' : e' ∈ swapped to new ns seen l <->
  (e' ∈ l /\ forall n, to e' = Some n -> n ∉ ns) \/ exists e n, e ∈ l /\ to e = Some n /\ n ∈ ns /\ (n ∉ seen) /\ e' ∈ new n.
Proof.
  revert seen. induction l as [|e l IH]; intros seen; cbn.
  { split; [by intros ?%not_elem_of_nil|]. intros [[H _]|(? & ? & H & _)]; by apply not_elem_of_nil in H. }
  destruct (to e) as [n|] eqn:En; [destruct (decide (n ∈ ns)) as [Hn|Hn]; [destruct (decide (n ∈ seen)) as [Hs|Hs]|]|].
  - rewrite IH. setoid_rewrite elem_of_cons. naive_solver.
  - rewrite elem_of_app, IH. setoid_rewrite elem_of_cons. setoid_rewrite not_elem_of_union. setoid_rewrite not_elem_of_singleton. split.
    + intros [H|[H|(e2 & m & H)]]; [right; exists e, n; tauto|tauto|right; exists e2, m; tauto].
    + intros [[[->|H] Hm]|(e2 & m & [->|He] & Em & Hm & Hs' & H)]; [by destruct (Hm n En)|tauto|left; congruence|].
      destruct (decide (m = n)) as [->|Hne]; [by left|]. right. right. by exists e2, m.
  - rewrite elem_of_cons, IH. setoid_rewrite elem_of_cons. naive_solver.
  - rewrite elem_of_cons, IH. setoid_rewrite elem_of_cons. naive_solver.
Qed.

Lemma min_le l x : foldl Z.min x l <= x /\ forall y, y ∈ l -> foldl Z.min x l <= y.
Proof.
  revert x. induction l as [|z l IH]; intros x; cbn; [split; [lia|by intros y ?%not_elem_of_nil]|]. destruct (IH (Z.min x z)) as [Hx Hl].
  split; [lia|]. intros y [->|H]%elem_of_cons; [lia|by apply Hl].
Qed.

Lemma union_coverage_ok {RL : RoaringLaws RB} sources b : union_coverage sources = Ok b ->
  forall v, bm_contains b v = true <-> exists e c, e ∈ sources /\ im_fragment_bitmap (ie_meta e) = Some c /\ bm_contains c v = true.
Proof.
  unfold union_coverage. intros E v. enough (H : bm_contains b v = true <-> bm_contains bm_new v = true \/ exists e c, e ∈ sources /\ im_fragment_bitmap (ie_meta e) = Some c /\ bm_contains c v = true).
  { rewrite H, bm_contains_new. naive_solver. }
  revert E. generalize (@bm_new RB). induction sources as [|e sources IH]; intros b0; cbn [fold_res].
  - intros [= ->]. split; [by left|]. intros [?|(? & ? & H & _)]; [done|by apply not_elem_of_nil in H].
  - destruct (im_fragment_bitmap (ie_meta e)) as [c|] eqn:Ec; cbn [ok_or]; mon; [|done]. intros H%IH. rewrite H, bm_contains_or, orb_true_iff. setoid_rewrite elem_of_cons. naive_solver.
Qed.

(** What a new segment keeps of its sources. *)
Lemma merge_keeps {RL : RoaringLaws RB} rewritten indices groups n e' : merge rewritten indices groups n = Ok e' ->
  (forall e1 e2, e1 ∈ sources_of rewritten indices n -> e2 ∈ sources_of rewritten indices n -> different_shape e1 e2 = false) ->
  (forall e, e ∈ sources_of rewritten indices n -> different_shape e e' = false /\ im_dataset_version (ie_meta e') <= im_dataset_version (ie_meta e)) /\
  exists old b', im_fragment_bitmap (ie_meta e') = Some b' /\ recalculate_fragment_bitmap old groups = Ok b' /\
    forall v, bm_contains old v = true <-> exists e b, e ∈ sources_of rewritten indices n /\ im_fragment_bitmap (ie_meta e) = Some b /\ bm_contains b v = true.
Proof.
  unfold merge. destruct (replacements_of rewritten n) as [|r rs]; [done|]. destruct (sources_of rewritten indices n) as [|first sources]; [done|].
  unfold replacement_entry. destruct (union_coverage (first :: sources)) as [old| |] eqn:Eu; mon; [|done..].
  destruct (recalculate_fragment_bitmap old groups) as [b'| |] eqn:Eb; mon; [|done..]. intros [= <-] Hsh. split.
  - intros e He. pose proof (Hsh e first He ltac:(left)) as Hs. split; [exact Hs|]. cbn [ie_meta im_dataset_version].
    apply (proj2 (min_le (map (fun source => im_dataset_version (ie_meta source)) (first :: sources)) (im_dataset_version (ie_meta first)))), list_elem_of_fmap. by exists e.
  - exists old, b'. split; [done|]. split; [done|]. by apply union_coverage_ok.
Qed.

Lemma target_new rewritten e n : target rewritten e = Some n -> n ∈ (list_to_set (map new_id rewritten) : gset Z) /\ exists r, r ∈ rewritten /\ new_id r = n.
Proof.
  unfold target. destruct (List.find _ rewritten) as [r|] eqn:Ef; [|done]. intros [= <-]. apply List.find_some in Ef as [Hr%list_elem_of_In _].
  split; [|by exists r]. apply elem_of_list_to_set, list_elem_of_fmap. by exists r.
Qed.

Lemma elem_of_sources rewritten indices n e : e ∈ sources_of rewritten indices n <-> e ∈ indices /\ target rewritten e = Some n.
Proof. unfold sources_of, targets. by rewrite elem_of_filterb, bool_decide_eq_true. Qed.

(** C27: no index is lost or invented when rewritten segments are committed.  An
    entry that is not rewritten stays as it is; a rewritten one has a successor
    with its name and fields that claims no later dataset version, and whose
    coverage is that of all its sources together, moved along the rewrite. *)
Theorem rewrite_indices_keep {RL : RoaringLaws RB} rewritten indices groups out : no_chain rewritten -> handle_rewrite_indices indices rewritten groups = Ok out ->
  (forall e, e ∈ indices ->
     match target rewritten e with
     | None => e ∈ out
     | Some n => exists e', e' ∈ out /\ ie_uuid e' = n /\ different_shape e e' = false /\ im_dataset_version (ie_meta e') <= im_dataset_version (ie_meta e) /\
         exists old b', im_fragment_bitmap (ie_meta e') = Some b' /\ recalculate_fragment_bitmap old groups = Ok b' /\
           forall v, bm_contains old v = true <-> exists e2 b, (e2 ∈ indices /\ target rewritten e2 = Some n) /\ im_fragment_bitmap (ie_meta e2) = Some b /\ bm_contains b v = true
     end) /\
  (forall e', e' ∈ out -> (e' ∈ indices /\ target rewritten e' = None) \/ exists r, r ∈ rewritten /\ ie_uuid e' = new_id r).
Proof.
  intros Hc E. destruct (handle_indices_ok rewritten indices groups Hc) as [[[_ Hp] E']|[_ E']]; rewrite E in E'; [|done]. injection E' as ->. unfold swapped_list. split.
  - intros e He. destruct (target rewritten e) as [n|] eqn:En; [|apply elem_of_swapped; left; naive_solver]. destruct (target_new _ _ _ En) as (Hn & r & Hr & <-).
    rewrite Forall_forall in Hp. destruct (Hp r Hr) as [_ [H|(_ & Hsh & e' & Em)]]; [exfalso; apply (not_elem_of_nil e); rewrite <- H; by apply elem_of_sources|].
    destruct (merge_keeps _ _ _ _ _ Em Hsh) as [Hk Hcov]. destruct (Hk e) as [Hs Hv]; [by apply elem_of_sources|]. setoid_rewrite elem_of_sources in Hcov. exists e'. split; [|split; [by apply merge_uuid in Em as [? _]|done]].
    apply elem_of_swapped. right. exists e, (new_id r). split_and!; [done|done|done|apply not_elem_of_empty|]. unfold new_entry. rewrite Em. left.
  - intros e' [[He Ht]|(e & n & _ & _ & _ & _ & He)]%elem_of_swapped.
    + left. split; [done|]. destruct (target rewritten e') as [n|] eqn:En; [|done]. by destruct (Ht n eq_refl), (target_new _ _ _ En).
    + right. unfold new_entry in He. destruct (merge rewritten indices groups n) as [e2| |] eqn:Em; [|by apply not_elem_of_nil in He..]. apply list_elem_of_singleton in He as ->.
      apply merge_uuid in Em as (-> & r & Hr & <-). by exists r.
Qed.

End RewriteIndices.

(** ** Examples *)

Module RewriteIndicesExamples.
#[local] Existing Instance CofiniteRoaring.
#[local] Existing Instance CofiniteRoaring_laws.

Definition entry_of (uuid : Z) (name : string) (version : Z) (frags : list Z) : IndexEntry :=
  mkEntry (mkIndex uuid [1] [] name version (Some (bm_from_iter frags)) None 1 None) (Some 5) None (Some 3) ∅.

(** Segments 1 and 3 are merged into 9, segment 2 is remapped to 8. *)
Definition segments : list IndexEntry := [entry_of 0 "a" 4 [1]; entry_of 1 "b" 7 [1; 2]; entry_of 2 "c" 5 [2]; entry_of 3 "b" 6 [4]].
Definition details : Any := mkAny "d" [].
Definition plan : list RewrittenIndex := [mkRewrittenIndex 1 9 details 2 None; mkRewrittenIndex 2 8 details 2 None; mkRewrittenIndex 3 9 details 2 None].
Definition moves : list RewriteGroup := [mkRewriteGroup [2] [7]].

Definition uuids_of (r : res (list IndexEntry)) : res (list Z) := l ← r; Ok (map ie_uuid l).

Lemma plan_uuids : uuids_of (handle_rewrite_indices segments plan moves) = Ok [0; 9; 8].
Proof. by vm_compute. Qed.

Lemma plan_no_chain : no_chain plan.
Proof.
  assert (H : Forall (fun r => Forall (fun r' => new_id r = old_id r' -> new_id r' = new_id r) plan) plan) by (repeat constructor; by intros ?).
  intros r r' Hr Hr'. rewrite Forall_forall in H. specialize (H r Hr). rewrite Forall_forall in H. by apply H.
Qed.

Lemma plan_is_ok : plan_ok plan segments moves.
Proof.
  destruct (handle_indices_ok plan segments moves plan_no_chain) as [[H _]|[_ E]]; [exact H|]. pose proof plan_uuids as H. by rewrite E in H.
Qed.

Lemma rewrite_indices_swapped_witness : exists out, handle_rewrite_indices segments plan moves = Ok out /\ map ie_uuid out = [0; 9; 8].
Proof.
  eexists. split; [apply (proj1 (rewrite_indices_swapped plan segments moves plan_no_chain)); exact plan_is_ok|by vm_compute].
Defined.

Lemma rewrite_indices_keep_witness : exists out e', handle_rewrite_indices segments plan moves = Ok out /\ e' ∈ out /\ ie_uuid e' = 9 /\ im_dataset_version (ie_meta e') <= 6.
Proof.
  pose proof plan_uuids as Hu. destruct (handle_rewrite_indices segments plan moves) as [out|?|] eqn:E; [clear Hu|done..].
  destruct (rewrite_indices_keep plan segments moves out plan_no_chain E) as [H _].
  destruct (H (entry_of 3 "b" 6 [4])) as (e' & He & Hu & _ & Hv & _); [by do 3 right; left|]. exists out, e'. by split_and!.
Defined.

(** Only one of two merged segments is left. *)
Lemma partial_merge_refused : uuids_of (handle_rewrite_indices [entry_of 1 "b" 7 [1; 2]] plan moves) = Err InvalidInput.
Proof. by vm_compute. Qed.

End RewriteIndicesExamples.
