(* ===== verification/IndexRetention.v ===== *)
(** * The indices a commit keeps

    [Transaction::retain_relevant_indices]
    ([lance-table/src/transaction/index_maintenance.rs]): the last step of index
    maintenance drops the indices on removed fields and the segments that cover
    nothing any more. *)

From Stdlib Require Import ZArith Lia.
From stdpp Require Import base option list numbers sorting sets gmap strings.
From S2P Require Import Prelude Lists Roaring Ledger Lineage SchemaFields IndexCoverage.

(** ** Model *)

(** [SchemaFieldIterPreOrder]: the fields on the stack, the next one first. *)
Fixpoint pre_order (fuel : nat) (field_stack : list Field) : res (list Field) :=
  match fuel with
  | O => Panic
  | S fuel =>
      match field_stack with
      | [] => Ok []
      | next_field :: field_stack => rest ← pre_order fuel (children next_field ++ field_stack); Ok (next_field :: rest)
      end
  end.

Definition fields_pre_order (schema : list Field) : res (list Field) := pre_order (S (list_sum (map tree_size schema))) schema.

Section RetentionModel.
Context {RB : Roaring}.

Definition effective_fragment_bitmap (index : IndexMetadata) (existing_fragments : bitmap) : option bitmap :=
  option_map (fun fragment_bitmap => bm_and fragment_bitmap existing_fragments) (im_fragment_bitmap index).

(** The segments of each name, in the order of the list. *)
Definition add_name (by_name : gmap string (list IndexMetadata)) (index : IndexMetadata) : gmap string (list IndexMetadata) :=
  if bool_decide (im_name index = FRAG_REUSE_INDEX_NAME) then by_name
  else <[im_name index := default [] (by_name !! im_name index) ++ [index]]> by_name.

(** The key [(created_at.is_none(), created_at, dataset_version)]; the times are
    only compared when both are present. *)
Definition by_creation (l : list IndexMetadata) : list IndexMetadata :=
  sort_by_key (fun i => match im_created_at i with None => 1 | Some _ => 0 end)
    (sort_by_key (fun i => default 0 (im_created_at i)) (sort_by_key im_dataset_version l)).

Definition covers_nothing (existing_fragments : bitmap) (index : IndexMetadata) : bool :=
  match effective_fragment_bitmap index existing_fragments with None => true | Some b => bm_is_empty b end.

(** The body of the loop over the names: the segments to keep. *)
Definition kept_of_name (tagged : bool) (existing_fragments : bitmap) (same_name_indices : list IndexMetadata) : list IndexMetadata :=
  if tagged then same_name_indices else
  let unknown_coverage := List.filter (fun i => match im_fragment_bitmap i with None => true | Some _ => false end) same_name_indices in
  let same_name_indices := List.filter (fun i => match im_fragment_bitmap i with None => false | Some _ => true end) same_name_indices in
  unknown_coverage ++
  (if 1 <? zlen same_name_indices then
     let empty_indices := List.filter (covers_nothing existing_fragments) same_name_indices in
     let non_empty_indices := List.filter (fun i => negb (covers_nothing existing_fragments i)) same_name_indices in
     match non_empty_indices with
     | [] => ztake 1 (by_creation empty_indices)
     | _ => non_empty_indices
     end
   else ztake 1 same_name_indices).

(** The names are visited in the order of a hash map; the uuids end up in a
    set. *)
Definition retain_relevant_indices (indices : list IndexMetadata) (schema : list Field) (fragments : list Z) : res (list IndexMetadata) :=
  fields ← fields_pre_order schema;
  let field_ids := map field_id fields in
  let indices := List.filter (fun i => forallb (fun field => bool_decide (field ∈ field_ids)) (dependency_fields i) || is_system_index i) indices in
  let indices_by_name := foldl add_name ∅ indices in
  let existing_fragments := bm_from_iter (map wrap32 fragments) in
  let tagged := existsb is_tagged indices in
  let uuids_to_keep := flat_map (fun same_name => map im_uuid (kept_of_name tagged existing_fragments (snd same_name))) (map_to_list indices_by_name) in
  Ok (List.filter (fun i => bool_decide (im_name i = FRAG_REUSE_INDEX_NAME) || bool_decide (im_uuid i ∈ uuids_to_keep)) indices).

End RetentionModel.

(** ** What is kept *)

Lemma pre_order_ok fuel stack : (length (flat_map fields_of stack) < fuel)%nat -> exists fs, pre_order fuel stack = Ok fs /\ fs ≡ₚ flat_map fields_of stack.
Proof.
  revert stack. induction fuel as [|fuel IH]; intros stack Hf; [lia|]. destruct stack as [|f stack]; [by exists []|].
  cbn [pre_order flat_map] in *. rewrite fields_of_eq in Hf |- *. unfold nested in *. cbn [app length] in Hf. rewrite length_app in Hf.
  destruct (IH (children f ++ stack)) as (fs & -> & Hp); [rewrite flat_map_app, length_app; lia|]. mon. exists (f :: fs). split; [done|].
  rewrite Hp, flat_map_app. done.
Qed.

Lemma fields_pre_order_ok schema : exists fs, fields_pre_order schema = Ok fs /\ fs ≡ₚ flat_map fields_of schema.
Proof. apply pre_order_ok. rewrite tree_sizes. lia. Qed.

Section Retention.
Context {RB : Roaring} {RL : RoaringLaws RB}.

(** The segments filed under a name are those of that name. *)
Lemma by_name_lookup indices m name : foldl add_name m indices !! name =
  let l := List.filter (fun i => bool_decide (im_name i = name) && negb (bool_decide (im_name i = FRAG_REUSE_INDEX_NAME))) indices in
  match l with [] => m !! name | _ => Some (default [] (m !! name) ++ l) end.
Proof.
  revert m. induction indices as [|i indices IH]; intros m; [done|]. cbn [foldl List.filter]. rewrite IH. unfold add_name. cbv zeta.
  destruct (bool_decide (im_name i = FRAG_REUSE_INDEX_NAME)) eqn:Ef; cbn [negb]; [by rewrite andb_false_r|]. rewrite andb_true_r.
  destruct (bool_decide_reflect (im_name i = name)) as [->|Hn].
  - rewrite lookup_insert_eq. destruct (List.filter _ indices); [done|]. cbn. by rewrite <- app_assoc.
  - by rewrite lookup_insert_ne by done.
Qed.

(** Earlier in creation: segments with a time first, then by time and version. *)
Definition created_before (a b : IndexMetadata) : Prop :=
  match im_created_at a, im_created_at b with
  | Some s, Some t => s < t \/ (s = t /\ im_dataset_version a <= im_dataset_version b)
  | Some _, None => True
  | None, Some _ => False
  | None, None => im_dataset_version a <= im_dataset_version b
  end.

Lemma by_creation_perm l : by_creation l ≡ₚ l.
Proof. unfold by_creation. by rewrite !sort_by_key_perm. Qed.

Lemma by_creation_sorted l : StronglySorted created_before (by_creation l).
Proof.
  assert (Himpl : forall (R S : IndexMetadata -> IndexMetadata -> Prop) k, (forall a b, R a b -> S a b) -> StronglySorted R k -> StronglySorted S k).
  { intros R S k HRS. induction 1 as [|x k Hk IH Hx]; constructor; [done|]. eapply Forall_impl; [exact Hx|]. intros y. apply HRS. }
  eapply Himpl; [|apply sort_by_key_stable, sort_by_key_stable, sort_by_key_sorted]. intros a b. cbn beta. unfold created_before.
  destruct (im_created_at a), (im_created_at b); cbn; lia.
Qed.

(** Some of the index's fragments are live. *)
Definition serves (fragments : list Z) (i : IndexMetadata) : Prop :=
  im_fragment_bitmap i = None \/ exists b f, im_fragment_bitmap i = Some b /\ f ∈ fragments /\ bm_contains b f = true.

Lemma covers_nothing_iff fragments i : Forall u32_ok fragments -> im_fragment_bitmap i <> None ->
  covers_nothing (bm_from_iter (map wrap32 fragments)) i = false <-> serves fragments i.
Proof.
  intros Hu Hb. unfold covers_nothing, effective_fragment_bitmap, serves. destruct (im_fragment_bitmap i) as [b|] eqn:E; [|done]. cbn [option_map]. rewrite map_wrap32 by done. split.
  - intros He. destruct (bm_iter (bm_and b (bm_from_iter fragments))) as [|f l] eqn:Ei.
    + apply not_true_iff_false in He. destruct He. apply bm_is_empty_iff. intros v. apply not_true_iff_false. intros Ev%bm_iter_elem. rewrite Ei in Ev. by apply not_elem_of_nil in Ev.
    + assert (Hf : f ∈ bm_iter (bm_and b (bm_from_iter fragments))) by (rewrite Ei; left). apply bm_iter_elem in Hf.
      rewrite bm_contains_and, bm_contains_from_iter, andb_true_iff, bool_decide_eq_true in Hf by done. destruct Hf as [Hc Hf]. right. by exists b, f.
  - intros [?|(b' & f & [= <-] & Hf & Hc)]; [done|]. apply not_true_iff_false. rewrite bm_is_empty_iff. intros Hv. specialize (Hv f).
    rewrite bm_contains_and, Hc, bm_contains_from_iter, bool_decide_true in Hv; done.
Qed.

Lemma elem_of_ztake {A} n (l : list A) x : x ∈ ztake n l -> x ∈ l.
Proof. unfold ztake. apply subseteq_take. Qed.

Lemma take_first (l : list IndexMetadata) : l <> [] -> exists x, x ∈ ztake 1 l /\ exists l', l = x :: l'.
Proof. destruct l as [|x l]; [done|]. intros _. exists x. split; [left|by exists l]. Qed.

Lemma kept_of_name_ok tagged fragments l i : Forall u32_ok fragments -> i ∈ l ->
  i ∈ kept_of_name tagged (bm_from_iter (map wrap32 fragments)) l \/
  (tagged = false /\ ~ serves fragments i /\ exists j, j ∈ kept_of_name tagged (bm_from_iter (map wrap32 fragments)) l /\ (serves fragments j \/ created_before j i)).
Proof.
  intros Hu Hi. unfold kept_of_name. destruct tagged; [by left|]. cbv zeta. set (known := List.filter (fun i => match im_fragment_bitmap i with None => false | Some _ => true end) l). set (E := bm_from_iter _).
  destruct (im_fragment_bitmap i) as [b|] eqn:Eb; [|left; apply elem_of_app; left; apply elem_of_filterb; by rewrite Eb].
  assert (Hk : i ∈ known) by (apply elem_of_filterb; by rewrite Eb). assert (Hkn : forall j, j ∈ known -> im_fragment_bitmap j <> None).
  { intros j (_ & Hj)%elem_of_filterb. by destruct (im_fragment_bitmap j). }
  destruct (Z.ltb_spec 1 (zlen known)) as [Hl|Hl].
  2: { left. apply elem_of_app. right. destruct known as [|x [|y k]]; [by apply not_elem_of_nil in Hk|exact Hk|]. rewrite !zlen_cons in Hl. pose proof (zlen_nonneg k). lia. }
  destruct (covers_nothing E i) eqn:Ec.
  - right. split; [done|]. split; [intros Hs; apply covers_nothing_iff in Hs; [|done|by apply Hkn]; unfold E in Ec; congruence|]. destruct (List.filter (fun j => negb (covers_nothing E j)) known) as [|j k] eqn:En.
    + assert (Hp := by_creation_perm (List.filter (covers_nothing E) known)). assert (Hin : i ∈ by_creation (List.filter (covers_nothing E) known)) by (rewrite Hp; by apply elem_of_filterb).
      pose proof (by_creation_sorted (List.filter (covers_nothing E) known)) as Hs. destruct (take_first (by_creation (List.filter (covers_nothing E) known))) as (x & Hx & l' & El).
      { intros H. rewrite H in Hin. by apply not_elem_of_nil in Hin. }
      exists x. split; [apply elem_of_app; by right|]. right. rewrite El in Hs, Hin. apply StronglySorted_inv in Hs as [_ Hs]. apply elem_of_cons in Hin as [->|Hin]; [|by rewrite Forall_forall in Hs; apply Hs].
      unfold created_before. destruct (im_created_at x); lia.
    + assert (Hj : j ∈ List.filter (fun j => negb (covers_nothing E j)) known) by (rewrite En; left). exists j. split; [apply elem_of_app; right; left|]. left.
      apply elem_of_filterb in Hj as [Hj Hc]. apply negb_true_iff in Hc. by apply covers_nothing_iff; [|apply Hkn|].
  - left. apply elem_of_app. right. assert (Hin : i ∈ List.filter (fun j => negb (covers_nothing E j)) known) by (apply elem_of_filterb; by rewrite Ec).
    destruct (List.filter (fun j => negb (covers_nothing E j)) known); [by apply not_elem_of_nil in Hin|done].
Qed.

Lemma kept_of_name_sub tagged existing l i : i ∈ kept_of_name tagged existing l -> i ∈ l.
Proof.
  unfold kept_of_name. destruct tagged; [done|]. cbv zeta. rewrite elem_of_app. intros [H|H]; [by apply elem_of_filterb in H as [H _]|].
  destruct (1 <? _).
  - destruct (List.filter (fun j => negb _) _) as [|j k] eqn:En.
    + apply elem_of_ztake in H. rewrite by_creation_perm in H. by apply elem_of_filterb in H as [[H _]%elem_of_filterb _].
    + rewrite <- En in H. by apply elem_of_filterb in H as [[H _]%elem_of_filterb _].
  - apply elem_of_ztake in H. by apply elem_of_filterb in H as [H _].
Qed.

(** The index can stay: a system index, or all its fields are in the schema. *)
Definition eligible (schema : list Field) (i : IndexMetadata) : Prop :=
  is_system_index i = true \/ forall field, field ∈ dependency_fields i -> exists f, f ∈ flat_map fields_of schema /\ field_id f = field.

Lemma eligible_iff schema fs i : fs ≡ₚ flat_map fields_of schema ->
  forallb (fun field => bool_decide (field ∈ map field_id fs)) (dependency_fields i) || is_system_index i = true <-> eligible schema i.
Proof.
  intros Hp. unfold eligible. rewrite orb_true_iff, forallb_forall. match goal with |- ?a \/ _ <-> _ \/ ?d => enough (a <-> d) by tauto end. split.
  - intros H field Hf%list_elem_of_In. specialize (H field Hf). apply bool_decide_eq_true, list_elem_of_fmap in H as (f & -> & Hfs). exists f. by rewrite <- Hp.
  - intros H field Hf%list_elem_of_In. destruct (H field Hf) as (f & Hfs & <-). apply bool_decide_eq_true, list_elem_of_fmap. exists f. by rewrite Hp.
Qed.

(** What is kept of a list of indices that may all stay. *)
Definition retained (fragments : list Z) (indices : list IndexMetadata) : list IndexMetadata :=
  let uuids := flat_map (fun same_name => map im_uuid (kept_of_name (existsb is_tagged indices) (bm_from_iter (map wrap32 fragments)) (snd same_name))) (map_to_list (foldl add_name ∅ indices)) in
  List.filter (fun i => bool_decide (im_name i = FRAG_REUSE_INDEX_NAME) || bool_decide (im_uuid i ∈ uuids)) indices.

Definition same_name (indices : list IndexMetadata) (i : IndexMetadata) : list IndexMetadata :=
  List.filter (fun j => bool_decide (im_name j = im_name i) && negb (bool_decide (im_name j = FRAG_REUSE_INDEX_NAME))) indices.

Lemma kept_retained fragments indices i j : i ∈ indices -> im_name i <> FRAG_REUSE_INDEX_NAME ->
  j ∈ kept_of_name (existsb is_tagged indices) (bm_from_iter (map wrap32 fragments)) (same_name indices i) -> j ∈ retained fragments indices /\ im_name j = im_name i.
Proof.
  intros Hi Hn Hj. pose proof (kept_of_name_sub _ _ _ _ Hj) as Hjs. apply elem_of_filterb in Hjs as [Hji Hjn]. apply andb_true_iff in Hjn as [Hjn%bool_decide_eq_true _].
  split; [|done]. apply elem_of_filterb. split; [done|]. apply orb_true_iff. right. apply bool_decide_eq_true, elem_of_flat. exists (im_name i, same_name indices i).
  split; [|apply list_elem_of_fmap; by exists j]. apply elem_of_map_to_list. rewrite by_name_lookup. cbv zeta. fold (same_name indices i). rewrite lookup_empty.
  destruct (same_name indices i) as [|k l] eqn:E; [|done]. apply kept_of_name_sub in Hj. by apply not_elem_of_nil in Hj.
Qed.

Lemma filterb_sublist {A} (f : A -> bool) l : List.filter f l `sublist_of` l.
Proof. induction l as [|x l IH]; [done|]. cbn. destruct (f x); by constructor. Qed.

(** C28: after a commit an index is listed exactly when it may stay, except that
    on a table without a tagged history a segment that covers no live fragment
    may go, if a segment of its name is kept that does, or that was created no
    later: no name and no coverage of a live fragment is lost, and nothing on a
    removed field is kept. *)
Theorem retain_relevant_safe indices schema fragments : Forall u32_ok fragments ->
  exists out, retain_relevant_indices indices schema fragments = Ok out /\ out `sublist_of` indices /\
    (forall i, i ∈ out -> eligible schema i) /\
    (forall i, i ∈ indices -> eligible schema i -> i ∈ out \/
       (existsb is_tagged indices = false /\ is_tagged i = false /\ ~ serves fragments i /\
        exists j, j ∈ out /\ im_name j = im_name i /\ (serves fragments j \/ created_before j i))).
Proof.
  intros Hu. unfold retain_relevant_indices. destruct (fields_pre_order_ok schema) as (fs & -> & Hp). mon. set (kept := List.filter (fun i => forallb _ (dependency_fields i) || is_system_index i) indices).
  assert (Hk : forall i, i ∈ kept <-> i ∈ indices /\ eligible schema i).
  { intros i. unfold kept. rewrite elem_of_filterb. by rewrite (eligible_iff schema fs i Hp). }
  assert (Htag : existsb is_tagged kept = existsb is_tagged indices).
  { apply eq_true_iff_eq. rewrite !existsb_exists. setoid_rewrite <- list_elem_of_In. setoid_rewrite Hk. split; [naive_solver|]. intros (i & Hi & Ht). exists i. split; [|done]. split; [done|].
    left. unfold is_tagged, is_system_index in *. apply andb_true_iff in Ht as [-> _]. done. }
  exists (retained fragments kept). split; [done|]. split; [|split].
  - transitivity kept; apply filterb_sublist.
  - intros i (Hi & _)%elem_of_filterb. by apply Hk.
  - intros i Hi He. assert (Hik : i ∈ kept) by (by apply Hk). destruct (decide (im_name i = FRAG_REUSE_INDEX_NAME)) as [Hn|Hn].
    { left. apply elem_of_filterb. split; [done|]. by rewrite bool_decide_true. }
    assert (Hs : i ∈ same_name kept i) by (apply elem_of_filterb; by rewrite bool_decide_true, bool_decide_false).
    destruct (kept_of_name_ok (existsb is_tagged kept) fragments (same_name kept i) i Hu Hs) as [H|(Ht & Hns & j & Hj & Hjs)]; [left; by apply (kept_retained _ _ i)|].
    right. rewrite <- Htag. split; [done|]. split; [unfold is_tagged; by rewrite bool_decide_false|]. split; [done|]. exists j. apply kept_retained in Hj as [Hj ?]; done.
Qed.

End Retention.

(** ** Examples *)

Module IndexRetentionExamples.
Import IndexCoverageExamples.

#[local] Existing Instance CofiniteRoaring.
#[local] Existing Instance CofiniteRoaring_laws.

(** The fragment of the first segment is gone, the second one still serves. *)
Lemma retain_relevant_safe_witness : exists out, retain_relevant_indices [segment 2 [0]; segment 3 [9]] [mkField 1 []] [8; 9] = Ok out /\ segment 3 [9] ∈ out.
Proof.
  destruct (retain_relevant_safe [segment 2 [0]; segment 3 [9]] [mkField 1 []] [8; 9]) as (out & E & _ & _ & H); [repeat constructor; uok; cbn; lia|].
  exists out. split; [exact E|]. destruct (H (segment 3 [9])) as [Hin|(_ & _ & Hs & _)]; [right; left| |exact Hin|].
  - right. intros field [->|[]%not_elem_of_nil]%elem_of_cons. exists (mkField 1 []). split; [left|done].
  - destruct Hs. right. exists (bm_from_iter [9]), 9. split; [done|]. split; [right; left|by vm_compute].
Defined.

(** The first segment is dropped indeed. *)
Lemma empty_segment_dropped : match retain_relevant_indices [segment 2 [0]; segment 3 [9]] [mkField 1 []] [8; 9] with Ok out => map im_uuid out = [3] | _ => False end.
Proof. by vm_compute. Qed.

End IndexRetentionExamples.
