(* ===== verification/FeatureFlags.v ===== *)
(** * Feature flags

    [lance-table/src/feature_flags.rs]: the two words of a manifest that say which
    features a reader and a writer of the table must understand, how a commit
    derives them from the manifest, and when a build opens a table. *)

From Stdlib Require Import ZArith Lia Btauto.
From stdpp Require Import base option list numbers gmap strings.
From S2P Require Import Prelude Lists Bits VersionMeta.

(** ** Model *)

Definition FLAG_DELETION_FILES : Z := Z.shiftl 1 0.
Definition FLAG_STABLE_ROW_IDS : Z := Z.shiftl 1 1.
Definition FLAG_USE_V2_FORMAT_DEPRECATED : Z := Z.shiftl 1 2.
Definition FLAG_TABLE_CONFIG : Z := Z.shiftl 1 3.
Definition FLAG_BASE_PATHS : Z := Z.shiftl 1 4.
Definition FLAG_DISABLE_TRANSACTION_FILE : Z := Z.shiftl 1 5.
Definition FLAG_UNSTABLE_DATA_OVERLAY_FILES : Z := Z.shiftl 1 6.
Definition FLAG_COVERED_INDEX_METADATA : Z := Z.shiftl 1 7.
Definition FLAG_MIXED_DATA_FILE_VERSIONS : Z := Z.shiftl 1 8.
Definition FLAG_FRAG_REUSE_WITH_STABLE_ROW_IDS : Z := Z.shiftl 1 9.
Definition FLAG_FRAGMENT_REUSE_INDEX : Z := Z.shiftl 1 10.
Definition FLAG_SPILLED_ROW_LINEAGE : Z := Z.shiftl 1 11.
Definition FLAG_FRAGMENT_TREE : Z := Z.shiftl 1 12.
Definition FLAG_INDEPENDENT_COVERING_FIELDS : Z := Z.shiftl 1 13.
Definition FLAG_MANAGED_BLOBS : Z := Z.shiftl 1 14.
Definition FLAG_NON_REUSABLE_FIELD_IDS : Z := Z.shiftl 1 15.
Definition FLAG_ZONE_WRITE_SEEDS : Z := Z.shiftl 1 16.
Definition FLAG_OBJECT_METADATA : Z := Z.shiftl 1 17.
Definition FLAG_ROW_ADDR_INDICES : Z := Z.shiftl 1 18.
Definition FLAG_INLINE_DELETIONS : Z := Z.shiftl 1 19.
Definition FLAG_UNKNOWN : Z := Z.shiftl 1 20.

Definition STICKY_PAIRED_FLAGS : Z :=
  Z.lor (Z.lor (Z.lor FLAG_MIXED_DATA_FILE_VERSIONS FLAG_FRAGMENT_REUSE_INDEX) FLAG_MANAGED_BLOBS) FLAG_ZONE_WRITE_SEEDS.

(** The parts of a fragment and of a manifest that the flags are derived from. *)
Record DeletionFile := mkDeletionFile { df_inline : option (list Z) }.
Definition is_inline (f : DeletionFile) : bool := match df_inline f with Some _ => true | None => false end.

Record FlaggedFragment := mkFlaggedFragment {
  ff_deletion_file : option DeletionFile;
  ff_row_id_meta : option RowIdMeta;
  ff_created_at_version_meta : option RowDatasetVersionMeta;
  ff_last_updated_at_version_meta : option RowDatasetVersionMeta;
  ff_overlays : list Z;
  ff_clustering_id : option Z;
  ff_metadata : gmap string string
}.

Definition has_spilled_row_lineage (f : FlaggedFragment) : bool :=
  match ff_row_id_meta f with Some ColumnIds => true | _ => false end
  || match ff_created_at_version_meta f with Some Column => true | _ => false end
  || match ff_last_updated_at_version_meta f with Some Column => true | _ => false end.

Record Manifest := mkManifest {
  m_fragments : list FlaggedFragment;
  reader_feature_flags : Z;
  writer_feature_flags : Z;
  max_allocated_field_id : option Z;
  m_config : gmap string string;
  m_base_paths : gmap Z string;
  m_clustering : list Z;
  m_max_clustering_id : Z
}.

Definition with_flags (m : Manifest) (reader writer : Z) : Manifest :=
  mkManifest (m_fragments m) reader writer (max_allocated_field_id m) (m_config m) (m_base_paths m) (m_clustering m) (m_max_clustering_id m).

Definition is_some {A} (o : option A) : bool := match o with Some _ => true | None => false end.

(** *** Validation *)

Definition bit_set (flags flag : Z) : bool := negb (Z.land flags flag =? 0).

Definition validate_paired_feature_flags (m : Manifest) : res () :=
  if bit_set (Z.lxor (reader_feature_flags m) (writer_feature_flags m)) FLAG_FRAGMENT_REUSE_INDEX then Err CorruptFile else
  fold_res (fun _ flag => if negb (Bool.eqb (bit_set (reader_feature_flags m) flag) (bit_set (writer_feature_flags m) flag)) then Err CorruptFile else Ok ())
    () [FLAG_MIXED_DATA_FILE_VERSIONS; FLAG_MANAGED_BLOBS; FLAG_ZONE_WRITE_SEEDS].

Definition validate_non_reusable_field_id_flags (m : Manifest) : res () :=
  let activated := is_some (max_allocated_field_id m) in
  let reader := bit_set (reader_feature_flags m) FLAG_NON_REUSABLE_FIELD_IDS in
  let writer := bit_set (writer_feature_flags m) FLAG_NON_REUSABLE_FIELD_IDS in
  if negb (Bool.eqb activated writer) then Err CorruptFile
  else if reader then Err CorruptFile
  else Ok ().

Definition validated_sticky_paired_flags (m : Manifest) : res Z :=
  _ ← validate_paired_feature_flags m; Ok (Z.land (reader_feature_flags m) STICKY_PAIRED_FLAGS).

(** *** Deriving the flags *)

(** [if condition { word |= flag }] *)
Definition add_flag (condition : bool) (word flag : Z) : Z := if condition then Z.lor word flag else word.

Definition has_object_metadata (m : Manifest) : bool :=
  negb (m_max_clustering_id m =? 0) || negb (bool_decide (m_clustering m = []))
  || existsb (fun f => is_some (ff_clustering_id f) || negb (bool_decide (ff_metadata f = ∅))) (m_fragments m).

Definition has_deletion_files (m : Manifest) : bool := existsb (fun f => is_some (ff_deletion_file f)) (m_fragments m).
Definition has_inline_deletions (m : Manifest) : bool := existsb (fun f => match ff_deletion_file f with Some d => is_inline d | None => false end) (m_fragments m).
Definition has_overlays (m : Manifest) : bool := existsb (fun f => negb (bool_decide (ff_overlays f = []))) (m_fragments m).
Definition has_config (m : Manifest) : bool := negb (bool_decide (m_config m = ∅)).
Definition has_base_paths (m : Manifest) : bool := negb (bool_decide (m_base_paths m = ∅)).

(** [apply_feature_flags]: the manifest is changed in place, also when the call
    fails after the reset. *)
Definition apply_feature_flags (m : Manifest) (enable_stable_row_id disable_transaction_file : bool) : Manifest * res () :=
  let covered_index_metadata := Z.land (Z.lor (reader_feature_flags m) (writer_feature_flags m)) FLAG_COVERED_INDEX_METADATA in
  let row_addr_indices := Z.land (writer_feature_flags m) FLAG_ROW_ADDR_INDICES in
  let object_metadata := Z.land (writer_feature_flags m) FLAG_OBJECT_METADATA in
  match validated_sticky_paired_flags m with
  | Panic => (m, Panic)
  | Err e => (m, Err e)
  | Ok sticky_paired_flags =>
      let non_reusable_field_ids := is_some (max_allocated_field_id m) in
      let m := with_flags m (reader_feature_flags m) (add_flag non_reusable_field_ids (writer_feature_flags m) FLAG_NON_REUSABLE_FIELD_IDS) in
      match validate_non_reusable_field_id_flags m with
      | Panic => (m, Panic)
      | Err e => (m, Err e)
      | Ok _ =>
          let reader := add_flag (has_deletion_files m) 0 FLAG_DELETION_FILES in
          let writer := add_flag (has_deletion_files m) 0 FLAG_DELETION_FILES in
          let reader := add_flag (has_inline_deletions m) reader FLAG_INLINE_DELETIONS in
          let writer := add_flag (has_inline_deletions m) writer FLAG_INLINE_DELETIONS in
          let has_row_ids := existsb (fun f => is_some (ff_row_id_meta f)) (m_fragments m) in
          if (has_row_ids || enable_stable_row_id) && negb (forallb (fun f => is_some (ff_row_id_meta f)) (m_fragments m)) then (with_flags m reader writer, Err InvalidInput) else
          let reader := add_flag (has_row_ids || enable_stable_row_id) reader FLAG_STABLE_ROW_IDS in
          let writer := add_flag (has_row_ids || enable_stable_row_id) writer FLAG_STABLE_ROW_IDS in
          let writer := add_flag (has_config m) writer FLAG_TABLE_CONFIG in
          let reader := add_flag (has_base_paths m) reader FLAG_BASE_PATHS in
          let writer := add_flag (has_base_paths m) writer FLAG_BASE_PATHS in
          let reader := add_flag (has_overlays m) reader FLAG_UNSTABLE_DATA_OVERLAY_FILES in
          let writer := add_flag (has_overlays m) writer FLAG_UNSTABLE_DATA_OVERLAY_FILES in
          let spilled := existsb has_spilled_row_lineage (m_fragments m) in
          let reader := add_flag spilled reader FLAG_SPILLED_ROW_LINEAGE in
          let writer := add_flag spilled writer FLAG_SPILLED_ROW_LINEAGE in
          let writer := add_flag disable_transaction_file writer FLAG_DISABLE_TRANSACTION_FILE in
          let writer := add_flag non_reusable_field_ids writer FLAG_NON_REUSABLE_FIELD_IDS in
          let writer := add_flag (has_object_metadata m) writer FLAG_OBJECT_METADATA in
          let writer := Z.lor writer object_metadata in
          let reader := Z.lor reader covered_index_metadata in
          let writer := Z.lor writer covered_index_metadata in
          let writer := Z.lor writer row_addr_indices in
          let reader := Z.lor reader sticky_paired_flags in
          let writer := Z.lor writer sticky_paired_flags in
          (with_flags m reader writer, Ok ())
      end
  end.

Definition inherit_sticky_feature_flags (destination source : Manifest) : res Manifest :=
  sticky_flags ← validated_sticky_paired_flags source;
  _ ← validate_non_reusable_field_id_flags source;
  Ok (with_flags destination (Z.lor (reader_feature_flags destination) sticky_flags)
    (Z.lor (writer_feature_flags destination) (Z.lor sticky_flags (Z.land (writer_feature_flags source) FLAG_NON_REUSABLE_FIELD_IDS)))).

(** *** Opening a table *)

(** [flags &= !flag] unless the feature is enabled. *)
Definition mark_supported (flags flag : Z) (feature_enabled : bool) : Z := if negb feature_enabled then Z.ldiff flags flag else flags.

Definition supported_flags_when (overlay_enabled frag_reuse_with_stable_row_ids_enabled : bool) : Z :=
  let supported := FLAG_UNKNOWN - 1 in
  let supported := mark_supported supported FLAG_UNSTABLE_DATA_OVERLAY_FILES overlay_enabled in
  let supported := mark_supported supported FLAG_FRAG_REUSE_WITH_STABLE_ROW_IDS frag_reuse_with_stable_row_ids_enabled in
  let supported := mark_supported supported FLAG_FRAGMENT_TREE false in
  let supported := mark_supported supported FLAG_INDEPENDENT_COVERING_FIELDS false in
  let supported := mark_supported supported FLAG_ZONE_WRITE_SEEDS true in
  mark_supported supported FLAG_OBJECT_METADATA true.

Section Build.
(** The features the running build has enabled, by its profile and the
    environment. *)
Variables (data_overlay_files_enabled frag_reuse_with_stable_row_ids_enabled : bool).

Definition supported_flags : Z := supported_flags_when data_overlay_files_enabled frag_reuse_with_stable_row_ids_enabled.
Definition can_read_dataset (reader_flags : Z) : bool := Z.ldiff reader_flags supported_flags =? 0.
Definition can_write_dataset (writer_flags : Z) : bool := Z.ldiff writer_flags supported_flags =? 0.

Definition ensure_can_read_manifest (m : Manifest) : res () :=
  _ ← validate_paired_feature_flags m;
  _ ← validate_non_reusable_field_id_flags m;
  if negb (can_read_dataset (reader_feature_flags m)) then Err NotSupported else Ok ().

Definition ensure_can_write_manifest (m : Manifest) : res () :=
  _ ← validate_paired_feature_flags m;
  _ ← validate_non_reusable_field_id_flags m;
  if negb (can_write_dataset (writer_feature_flags m)) then Err NotSupported else Ok ().

Definition validate_data_overlay_files (m : Manifest) : res () :=
  if data_overlay_files_enabled || forallb (fun f => bool_decide (ff_overlays f = [])) (m_fragments m) then Ok () else Err NotSupported.

End Build.

(** ** The words bit by bit *)

Lemma testbit_flag k n : 0 <= k -> 0 <= n -> Z.testbit (Z.shiftl 1 k) n = (n =? k).
Proof. intros Hk Hn. rewrite Z.shiftl_1_l, Z.pow2_bits_eqb by done. apply Z.eqb_sym. Qed.

Lemma bit_set_flag w k : 0 <= k -> bit_set w (Z.shiftl 1 k) = Z.testbit w k.
Proof. apply testbit_land_pow2. Qed.

Lemma testbit_add_flag c w k n : 0 <= k -> 0 <= n -> Z.testbit (add_flag c w (Z.shiftl 1 k)) n = Z.testbit w n || (c && (n =? k)).
Proof. intros Hk Hn. unfold add_flag. destruct c; cbn [andb]; [by rewrite Z.lor_spec, testbit_flag|by rewrite orb_false_r]. Qed.

Lemma testbit_carry w k n : 0 <= k -> 0 <= n -> Z.testbit (Z.land w (Z.shiftl 1 k)) n = Z.testbit w k && (n =? k).
Proof. intros Hk Hn. rewrite Z.land_spec, testbit_flag by done. destruct (Z.eqb_spec n k) as [->|]; [done|by rewrite !andb_false_r]. Qed.

(** The bits that stay once they are set. *)
Definition sticky_bit (n : Z) : bool := (n =? 8) || (n =? 10) || (n =? 14) || (n =? 16).

Lemma testbit_sticky n : 0 <= n -> Z.testbit STICKY_PAIRED_FLAGS n = sticky_bit n.
Proof.
  intros Hn. unfold STICKY_PAIRED_FLAGS, sticky_bit, FLAG_MIXED_DATA_FILE_VERSIONS, FLAG_FRAGMENT_REUSE_INDEX, FLAG_MANAGED_BLOBS, FLAG_ZONE_WRITE_SEEDS.
  by rewrite !Z.lor_spec, !testbit_flag by lia.
Qed.

(** Both words agree on the paired flags. *)
Definition paired (m : Manifest) : Prop := forall n, sticky_bit n = true -> Z.testbit (reader_feature_flags m) n = Z.testbit (writer_feature_flags m) n.

Lemma sticky_cases (Q : Z -> Prop) : (forall n, sticky_bit n = true -> Q n) <-> Q 8 /\ Q 10 /\ Q 14 /\ Q 16.
Proof.
  unfold sticky_bit. split; [intros H; split_and!; by apply H|]. intros (H1 & H2 & H3 & H4) n Hn. rewrite !orb_true_iff, !Z.eqb_eq in Hn. by destruct Hn as [[[-> | ->] | ->] | ->].
Qed.

Lemma validate_paired_iff m : (validate_paired_feature_flags m = Ok () /\ paired m) \/ (validate_paired_feature_flags m = Err CorruptFile /\ ~ paired m).
Proof.
  unfold paired. rewrite sticky_cases. unfold validate_paired_feature_flags, FLAG_MIXED_DATA_FILE_VERSIONS, FLAG_FRAGMENT_REUSE_INDEX, FLAG_MANAGED_BLOBS, FLAG_ZONE_WRITE_SEEDS.
  cbn [fold_res]. rewrite !bit_set_flag, Z.lxor_spec by lia.
  destruct (Z.testbit (reader_feature_flags m) 10), (Z.testbit (writer_feature_flags m) 10); cbn [xorb]; try (right; split; [done|]; intros (_ & ? & _); done).
  all: destruct (Z.testbit (reader_feature_flags m) 8), (Z.testbit (writer_feature_flags m) 8); cbn [negb Bool.eqb]; mon; try (right; split; [done|]; intros (? & _); done).
  all: destruct (Z.testbit (reader_feature_flags m) 14), (Z.testbit (writer_feature_flags m) 14); cbn [negb Bool.eqb]; mon; try (right; split; [done|]; intros (_ & _ & ? & _); done).
  all: destruct (Z.testbit (reader_feature_flags m) 16), (Z.testbit (writer_feature_flags m) 16); cbn [negb Bool.eqb]; mon; try (right; split; [done|]; intros (_ & _ & _ & ?); done).
  all: left; split; done.
Qed.

(** The high-water mark of field ids and its writer flag agree. *)
Definition field_ids_ok (m : Manifest) : Prop :=
  is_some (max_allocated_field_id m) = Z.testbit (writer_feature_flags m) 15 /\ Z.testbit (reader_feature_flags m) 15 = false.

Lemma validate_field_ids_iff m : (validate_non_reusable_field_id_flags m = Ok () /\ field_ids_ok m) \/ (validate_non_reusable_field_id_flags m = Err CorruptFile /\ ~ field_ids_ok m).
Proof.
  unfold validate_non_reusable_field_id_flags, field_ids_ok, FLAG_NON_REUSABLE_FIELD_IDS. cbv zeta. rewrite !bit_set_flag by lia.
  destruct (is_some _), (Z.testbit (writer_feature_flags m) 15), (Z.testbit (reader_feature_flags m) 15); cbn; tauto || (right; split; [done|]; by intros [? ?]).
Qed.

(** ** The flags of a commit *)

Definition row_ids_on (m : Manifest) (enable : bool) : bool := existsb (fun f => is_some (ff_row_id_meta f)) (m_fragments m) || enable.
Definition row_ids_ok (m : Manifest) (enable : bool) : bool := negb (row_ids_on m enable) || forallb (fun f => is_some (ff_row_id_meta f)) (m_fragments m).

(** The features both sides need, those only a writer needs. *)
Definition shared_bit (m : Manifest) (enable : bool) (n : Z) : bool :=
  (has_deletion_files m && (n =? 0)) || (row_ids_on m enable && (n =? 1)) || (has_base_paths m && (n =? 4)) || (has_overlays m && (n =? 6))
  || ((Z.testbit (reader_feature_flags m) 7 || Z.testbit (writer_feature_flags m) 7) && (n =? 7)) || (existsb has_spilled_row_lineage (m_fragments m) && (n =? 11))
  || (has_inline_deletions m && (n =? 19)) || (Z.testbit (reader_feature_flags m) n && sticky_bit n).

Definition writer_only_bit (m : Manifest) (disable : bool) (n : Z) : bool :=
  (has_config m && (n =? 3)) || (disable && (n =? 5)) || (is_some (max_allocated_field_id m) && (n =? 15))
  || ((has_object_metadata m || Z.testbit (writer_feature_flags m) 17) && (n =? 17)) || (Z.testbit (writer_feature_flags m) 18 && (n =? 18)).

Record flags_applied (m : Manifest) (enable disable : bool) (m' : Manifest) : Prop := {
  fa_same : m' = with_flags m (reader_feature_flags m') (writer_feature_flags m');
  fa_reader n : 0 <= n -> Z.testbit (reader_feature_flags m') n = shared_bit m enable n;
  fa_writer n : 0 <= n -> Z.testbit (writer_feature_flags m') n = shared_bit m enable n || writer_only_bit m disable n
}.

(** The writer flag for field ids may be missing, the reader flag may not be
    there, and without a high-water mark neither may be. *)
Definition field_ids_in (m : Manifest) : Prop := Z.testbit (reader_feature_flags m) 15 = false /\ (max_allocated_field_id m = None -> Z.testbit (writer_feature_flags m) 15 = false).

Lemma apply_ok m enable disable : paired m -> field_ids_in m -> row_ids_ok m enable = true ->
  exists m', apply_feature_flags m enable disable = (m', Ok ()) /\ flags_applied m enable disable m'.
Proof.
  intros Hp [Hf Hf'] Hr. unfold apply_feature_flags, validated_sticky_paired_flags. destruct (validate_paired_iff m) as [[-> _]|[_ ?]]; [|done]. mon. cbv zeta.
  set (m1 := with_flags m _ _). destruct (validate_field_ids_iff m1) as [[-> _]|[_ Hn]].
  2: { destruct Hn. split; [|exact Hf]. unfold m1. cbn [with_flags max_allocated_field_id writer_feature_flags]. unfold FLAG_NON_REUSABLE_FIELD_IDS. rewrite testbit_add_flag, Z.eqb_refl by lia.
    destruct (max_allocated_field_id m); [by rewrite orb_true_r|]. by rewrite (Hf' eq_refl). }
  unfold row_ids_ok, row_ids_on in *. change (m_fragments m1) with (m_fragments m).
  match goal with |- context [if ?c then _ else _] => replace c with false end.
  2: { symmetry. apply not_true_iff_false. intros [H1 H2]%andb_true_iff. rewrite H1 in Hr. cbn [negb orb] in Hr. by rewrite Hr in H2. }
  eexists. split; [done|]. split; [done|..]; intros n Hn; cbn [with_flags reader_feature_flags writer_feature_flags];
    unfold FLAG_DELETION_FILES, FLAG_STABLE_ROW_IDS, FLAG_TABLE_CONFIG, FLAG_BASE_PATHS, FLAG_DISABLE_TRANSACTION_FILE, FLAG_UNSTABLE_DATA_OVERLAY_FILES, FLAG_COVERED_INDEX_METADATA,
      FLAG_SPILLED_ROW_LINEAGE, FLAG_NON_REUSABLE_FIELD_IDS, FLAG_OBJECT_METADATA, FLAG_ROW_ADDR_INDICES, FLAG_INLINE_DELETIONS;
    rewrite ?Z.lor_spec, ?testbit_carry, ?Z.land_spec, ?testbit_sticky, ?Z.lor_spec by lia; repeat rewrite testbit_add_flag by lia; rewrite Z.bits_0; unfold shared_bit, writer_only_bit, row_ids_on.
  all: change (has_deletion_files m1) with (has_deletion_files m); change (has_inline_deletions m1) with (has_inline_deletions m); change (has_base_paths m1) with (has_base_paths m);
    change (has_overlays m1) with (has_overlays m); change (has_config m1) with (has_config m); change (has_object_metadata m1) with (has_object_metadata m); btauto.
Qed.

Lemma apply_err m enable disable : (~ paired m \/ ~ field_ids_in m -> snd (apply_feature_flags m enable disable) = Err CorruptFile) /\
  (paired m -> field_ids_in m -> row_ids_ok m enable = false -> snd (apply_feature_flags m enable disable) = Err InvalidInput).
Proof.
  unfold apply_feature_flags, validated_sticky_paired_flags. destruct (validate_paired_iff m) as [[-> Hp]|[-> Hp]]; mon; [|tauto]. cbv zeta. set (m1 := with_flags m _ _).
  assert (Hf : field_ids_ok m1 <-> field_ids_in m).
  { unfold field_ids_ok, field_ids_in, m1. cbn [with_flags max_allocated_field_id writer_feature_flags reader_feature_flags]. unfold FLAG_NON_REUSABLE_FIELD_IDS. rewrite testbit_add_flag, Z.eqb_refl, andb_true_r by lia.
    destruct (max_allocated_field_id m); cbn [is_some]; [rewrite orb_true_r|rewrite orb_false_r]; intuition congruence. }
  destruct (validate_field_ids_iff m1) as [[-> Hm]|[-> Hm]]; [|tauto]. split; [tauto|]. intros _ _ Hr. unfold row_ids_ok, row_ids_on in Hr. change (m_fragments m1) with (m_fragments m).
  apply orb_false_iff in Hr as [Hr1%negb_false_iff Hr2]. rewrite Hr1, Hr2. done.
Qed.

Lemma sticky_shared m enable n : sticky_bit n = true -> shared_bit m enable n = Z.testbit (reader_feature_flags m) n.
Proof. revert n. apply (sticky_cases (fun n => shared_bit m enable n = Z.testbit (reader_feature_flags m) n)). unfold shared_bit. split_and!; cbn [Z.eqb Pos.eqb sticky_bit orb]; rewrite ?andb_false_r, ?andb_true_r; done. Qed.

Lemma sticky_writer m disable n : sticky_bit n = true -> writer_only_bit m disable n = false.
Proof. revert n. apply (sticky_cases (fun n => writer_only_bit m disable n = false)). unfold writer_only_bit. split_and!; cbn [Z.eqb Pos.eqb]; by rewrite !andb_false_r. Qed.

Section Applied.
Context (m : Manifest) (enable disable : bool) (m' : Manifest) (Happ : flags_applied m enable disable m').

Lemma applied_paired : paired m'.
Proof. intros n Hn. assert (0 <= n) by (revert n Hn; apply sticky_cases; lia). rewrite (fa_reader _ _ _ _ Happ), (fa_writer _ _ _ _ Happ), sticky_writer by done. by rewrite orb_false_r. Qed.

Lemma applied_bits :
  Z.testbit (reader_feature_flags m') 15 = false /\ Z.testbit (writer_feature_flags m') 15 = is_some (max_allocated_field_id m) /\
  Z.testbit (reader_feature_flags m') 7 = (Z.testbit (reader_feature_flags m) 7 || Z.testbit (writer_feature_flags m) 7) /\
  Z.testbit (writer_feature_flags m') 7 = (Z.testbit (reader_feature_flags m) 7 || Z.testbit (writer_feature_flags m) 7) /\
  Z.testbit (writer_feature_flags m') 17 = (has_object_metadata m || Z.testbit (writer_feature_flags m) 17) /\
  Z.testbit (writer_feature_flags m') 18 = Z.testbit (writer_feature_flags m) 18.
Proof.
  split_and!; rewrite ?(fa_reader _ _ _ _ Happ), ?(fa_writer _ _ _ _ Happ) by lia; unfold shared_bit, writer_only_bit; cbn [Z.eqb Pos.eqb sticky_bit orb]; unfold sticky_bit; cbn [Z.eqb Pos.eqb orb];
    rewrite ?andb_false_r, ?andb_true_r, ?orb_false_r; done.
Qed.

Lemma applied_field_ids : field_ids_ok m'.
Proof. destruct applied_bits as (H1 & H2 & _). split; [|done]. rewrite H2. by rewrite (fa_same _ _ _ _ Happ). Qed.

Lemma applied_shared n : shared_bit m' enable n = shared_bit m enable n.
Proof.
  destruct applied_bits as (_ & _ & H1 & H2 & _). assert (Hs : Z.testbit (reader_feature_flags m') n && sticky_bit n = Z.testbit (reader_feature_flags m) n && sticky_bit n).
  { destruct (sticky_bit n) eqn:E; [|by rewrite !andb_false_r]. assert (0 <= n) by (revert n E; apply sticky_cases; lia). by rewrite (fa_reader _ _ _ _ Happ), (sticky_shared m) by done. }
  unfold shared_bit. rewrite Hs, H1, H2, orb_diag. pose proof (fa_same _ _ _ _ Happ) as E. unfold row_ids_on. rewrite E. done.
Qed.

Lemma applied_writer_only n : writer_only_bit m' disable n = writer_only_bit m disable n.
Proof.
  destruct applied_bits as (_ & _ & _ & _ & H1 & H2). unfold writer_only_bit. rewrite H1, H2. pose proof (fa_same _ _ _ _ Happ) as E.
  replace (has_object_metadata m') with (has_object_metadata m) by (by rewrite E). replace (has_config m') with (has_config m) by (by rewrite E).
  replace (max_allocated_field_id m') with (max_allocated_field_id m) by (by rewrite E). by rewrite orb_assoc, orb_diag.
Qed.

(** A second call changes nothing. *)
Lemma applied_again : row_ids_ok m enable = true -> apply_feature_flags m' enable disable = (m', Ok ()).
Proof.
  intros Hr. destruct (apply_ok m' enable disable) as (m2 & E2 & H2).
  - exact applied_paired.
  - destruct applied_field_ids as [H1 H2]. split; [done|]. intros E. by rewrite E in H1.
  - pose proof (fa_same _ _ _ _ Happ) as E. unfold row_ids_ok, row_ids_on in *. by rewrite E.
  - rewrite E2. f_equal. pose proof (fa_same _ _ _ _ H2) as E. rewrite E.
    assert (reader_feature_flags m2 = reader_feature_flags m') as ->.
    { apply Z.bits_inj'. intros n Hn. by rewrite (fa_reader _ _ _ _ H2), (fa_reader _ _ _ _ Happ), applied_shared by done. }
    assert (writer_feature_flags m2 = writer_feature_flags m') as ->.
    { apply Z.bits_inj'. intros n Hn. by rewrite (fa_writer _ _ _ _ H2), (fa_writer _ _ _ _ Happ), applied_shared, applied_writer_only by done. }
    by destruct m'.
Qed.

End Applied.

(** C13: deriving the flags of a manifest.  On consistent flags, and with row ids
    on all or no fragments, the words have exactly the bits of the features in
    use, those of the index section and the sticky ones; they are consistent
    again and a second call leaves them alone.  Flags that disagree are a corrupt
    file, mixed row ids invalid input. *)
Theorem feature_flags_derived m enable disable :
  (paired m -> field_ids_in m -> row_ids_ok m enable = true -> exists m', apply_feature_flags m enable disable = (m', Ok ()) /\ flags_applied m enable disable m' /\
     paired m' /\ field_ids_ok m' /\ apply_feature_flags m' enable disable = (m', Ok ())) /\
  (~ paired m \/ ~ field_ids_in m -> snd (apply_feature_flags m enable disable) = Err CorruptFile) /\
  (paired m -> field_ids_in m -> row_ids_ok m enable = false -> snd (apply_feature_flags m enable disable) = Err InvalidInput).
Proof.
  split; [|apply apply_err]. intros Hp Hf Hr. destruct (apply_ok m enable disable Hp Hf Hr) as (m' & E & H). exists m'. split; [done|]. split; [done|].
  split; [by eapply applied_paired|]. split; [by eapply applied_field_ids|by eapply applied_again].
Qed.

Lemma apply_inv m enable disable m' : apply_feature_flags m enable disable = (m', Ok ()) -> paired m /\ flags_applied m enable disable m'.
Proof.
  intros E. destruct (apply_err m enable disable) as [E1 E2]. rewrite E in E1, E2. cbn [snd] in *.
  assert (Hp : paired m) by (destruct (validate_paired_iff m) as [[_ ?]|[_ H]]; [done|by discriminate (E1 (or_introl H))]).
  assert (Hf : field_ids_in m).
  { unfold field_ids_in. destruct (Z.testbit (reader_feature_flags m) 15) eqn:Er; [exfalso; discriminate E1; right; intros [H _]; congruence|]. split; [done|]. intros Hn.
    destruct (Z.testbit (writer_feature_flags m) 15) eqn:Ew; [|done]. exfalso. discriminate E1. right. intros [_ H]. specialize (H Hn). congruence. }
  destruct (row_ids_ok m enable) eqn:Er; [|by discriminate (E2 Hp Hf eq_refl)]. destruct (apply_ok m enable disable Hp Hf Er) as (m2 & E3 & H). split; [done|]. rewrite E3 in E. by injection E as <-.
Qed.

(** ** Opening what was published *)

Section Opening.
Context (overlays frag_reuse : bool).

(** The bits the build understands. *)
Definition understood (n : Z) : bool :=
  (n <? 20) && (overlays || negb (n =? 6)) && (frag_reuse || negb (n =? 9)) && negb (n =? 12) && negb (n =? 13).

Lemma testbit_mark w k c n : 0 <= k -> 0 <= n -> Z.testbit (mark_supported w (Z.shiftl 1 k) c) n = Z.testbit w n && (c || negb (n =? k)).
Proof. intros Hk Hn. unfold mark_supported. destruct c; cbn [negb orb]; [by rewrite andb_true_r|]. by rewrite Z.ldiff_spec, testbit_flag. Qed.

Lemma testbit_supported n : 0 <= n -> Z.testbit (supported_flags overlays frag_reuse) n = understood n.
Proof.
  intros Hn. unfold supported_flags, supported_flags_when, understood, FLAG_UNSTABLE_DATA_OVERLAY_FILES, FLAG_FRAG_REUSE_WITH_STABLE_ROW_IDS, FLAG_FRAGMENT_TREE, FLAG_INDEPENDENT_COVERING_FIELDS,
    FLAG_ZONE_WRITE_SEEDS, FLAG_OBJECT_METADATA. rewrite !testbit_mark by lia. change (FLAG_UNKNOWN - 1) with (Z.ones 20). rewrite Z.testbit_ones by lia.
  destruct (Z.leb_spec 0 n); [|lia]. cbn [andb orb]. btauto.
Qed.

Lemma ldiff_zero a b : Z.ldiff a b = 0 <-> forall n, 0 <= n -> Z.testbit a n = true -> Z.testbit b n = true.
Proof.
  split.
  - intros E n Hn Ha. assert (Hb : Z.testbit (Z.ldiff a b) n = false) by (rewrite E; apply Z.bits_0). rewrite Z.ldiff_spec, Ha in Hb. by apply negb_false_iff.
  - intros H. apply Z.bits_inj'. intros n Hn. rewrite Z.ldiff_spec, Z.bits_0. destruct (Z.testbit a n) eqn:Ha; [|done]. by rewrite (H n Hn Ha).
Qed.

Lemma word_supported w : (Z.ldiff w (supported_flags overlays frag_reuse) =? 0) = true <-> forall n, 0 <= n -> Z.testbit w n = true -> understood n = true.
Proof. rewrite Z.eqb_eq, ldiff_zero. split; intros H n Hn Hw; [rewrite <- testbit_supported|rewrite testbit_supported]; auto. Qed.

(** The manifest is consistent and all its flags are understood. *)
Definition opens (m : Manifest) (word : Z) : Prop := paired m /\ field_ids_ok m /\ forall n, 0 <= n -> Z.testbit word n = true -> understood n = true.

Lemma ensure_iff m word : (_ ← validate_paired_feature_flags m; _ ← validate_non_reusable_field_id_flags m;
    if negb (Z.ldiff word (supported_flags overlays frag_reuse) =? 0) then Err NotSupported else Ok ()) = Ok () <-> opens m word.
Proof.
  unfold opens. rewrite <- word_supported. destruct (validate_paired_iff m) as [[-> Hp]|[-> Hp]]; mon; [|split; [done|tauto]].
  destruct (validate_field_ids_iff m) as [[-> Hf]|[-> Hf]]; mon; [|split; [done|tauto]]. destruct (_ =? 0); cbn [negb]; split; try done. by intros (_ & _ & ?).
Qed.

Lemma understood_shared m enable n : (has_overlays m = true -> overlays = true) -> shared_bit m enable n = true -> understood n = true.
Proof.
  intros Ho Hs. unfold shared_bit in Hs. rewrite !orb_true_iff, !andb_true_iff, !Z.eqb_eq in Hs. unfold understood.
  destruct Hs as [[[[[[[[_ ->]|[_ ->]]|[_ ->]]|[H ->]]|[_ ->]]|[_ ->]]|[_ ->]]|[_ Hn]]; cbn; rewrite ?orb_true_r; try done; [by rewrite Ho|].
  revert n Hn. apply sticky_cases. cbn. by rewrite !orb_true_r.
Qed.

Lemma understood_writer m disable n : writer_only_bit m disable n = true -> understood n = true.
Proof.
  intros Hs. unfold writer_only_bit in Hs. rewrite !orb_true_iff, !andb_true_iff, !Z.eqb_eq in Hs. unfold understood.
  destruct Hs as [[[[[_ ->]|[_ ->]]|[_ ->]]|[_ ->]]|[_ ->]]; cbn; by rewrite ?orb_true_r.
Qed.

(** The check before publishing. *)
Lemma overlay_check m : validate_data_overlay_files overlays m = Ok () -> has_overlays m = true -> overlays = true.
Proof.
  unfold validate_data_overlay_files, has_overlays. destruct overlays; [done|]. cbn [orb]. intros Ho (f & Hf & Hn)%existsb_exists. destruct (forallb _ (m_fragments m)) eqn:Ef; [|done].
  rewrite forallb_forall in Ef. specialize (Ef f Hf). cbn beta in Ef. by rewrite Ef in Hn.
Qed.

End Opening.

(** ** Examples *)

Module FeatureFlagsExamples.

(** A table with a deletion vector and a tagged history. *)
Definition table : Manifest :=
  mkManifest [mkFlaggedFragment (Some (mkDeletionFile None)) None None None [] None ∅] (Z.shiftl 1 10) (Z.shiftl 1 10) None ∅ ∅ [] 0.

Definition published : Manifest := fst (apply_feature_flags table false false).

Lemma feature_flags_derived_witness : exists m', apply_feature_flags table false false = (m', Ok ()) /\ paired m'.
Proof.
  destruct (feature_flags_derived table false false) as [H _].
  assert (Hp : paired table) by (unfold paired; apply (sticky_cases (fun n => Z.testbit (reader_feature_flags table) n = Z.testbit (writer_feature_flags table) n)); by vm_compute).
  destruct (H Hp) as (m' & E & _ & Hp' & _); [split; by vm_compute|by vm_compute|]. by exists m'.
Defined.

End FeatureFlagsExamples.
