(* ===== verification/WriteGate.v ===== *)
(** * The write gate of a tagged table

    [lance-table/src/system_index/frag_reuse/gate.rs] and the flag checks of
    [metadata.rs]: which operations a commit admits on a table with a tagged
    fragment reuse history. *)

From Stdlib Require Import ZArith Lia.
From stdpp Require Import base option list numbers sorting sets gmap strings.
From S2P Require Import Prelude Lists Roaring Ledger Lineage SchemaFields IndexCoverage RewriteIndices FeatureFlags.

(** ** Model *)

Section GateModel.
Context {RB : Roaring}.

(** [Operation]: the payloads the gate does not look at are left out. *)
Inductive Operation :=
  | Append
  | Delete
  | Overwrite
  | CreateIndex (new_indices removed_indices : list IndexMetadata)
  | Rewrite (groups : list RewriteGroup) (rewritten_indices : list RewrittenIndex) (frag_reuse_index : option IndexMetadata)
  | DataReplacement
  | DataOverlay
  | Merge
  | Restore
  | ReserveFragments
  | Update
  | Project
  | UpdateConfig
  | UpdateMemWalState
  | Clone
  | UpdateBases
  | Unknown.

Record TaggedRewriteAssembly := mkAssembly { ta_entry : IndexMetadata; ta_base_entry_version : option Z; ta_reordered_sources : bitmap }.

Inductive FragReuseUpdate := NoUpdate | RewriteUpdate (assembly : TaggedRewriteAssembly) | Trim.

Inductive Admission :=
  | Untagged
  | AppendsTransitions
  | RewritesUncoveredFragments
  | MovesNoRows
  | RestoresManifest
  | TrimsEntry
  | MaintainsUserIndices
  | MaintainsMemWalState.

Inductive BareRewriteRefusal := Covered (index : string) (overlap : bitmap) | UnknownCoverage (index : string).

(** [covered_bare_rewrite]: the first offending index. *)
Fixpoint covered_bare_rewrite (rewritten : bitmap) (indices : list IndexMetadata) : option BareRewriteRefusal :=
  match indices with
  | [] => None
  | index :: indices =>
      if bool_decide (im_name index = MEM_WAL_INDEX_NAME) then covered_bare_rewrite rewritten indices else
      match im_fragment_bitmap index with
      | Some b => if bm_is_disjoint b rewritten then covered_bare_rewrite rewritten indices else Some (Covered (im_name index) (bm_and b rewritten))
      | None => Some (UnknownCoverage (im_name index))
      end
  end.

Definition uses_tagged_fri (manifest : Manifest) (existing_fri_entry : option IndexMetadata) : bool :=
  negb (Z.land (reader_feature_flags manifest) FLAG_FRAGMENT_REUSE_INDEX =? 0) || match existing_fri_entry with Some entry => is_tagged entry | None => false end.

Definition validate_flags (manifest : Manifest) (indices : list IndexMetadata) : res () :=
  if existsb is_tagged indices && (Z.land (Z.land (reader_feature_flags manifest) (writer_feature_flags manifest)) FLAG_FRAGMENT_REUSE_INDEX =? 0) then Err CorruptFile else Ok ().

Definition is_fri (index : IndexMetadata) : bool := bool_decide (im_name index = FRAG_REUSE_INDEX_NAME).

(** Whether a [CreateIndex] is the trim of the current tagged entry; any other
    shape that touches a tagged entry is refused. *)
Definition check_trim (new_indices removed_indices current_indices : list IndexMetadata) (frag_reuse : FragReuseUpdate) : res bool :=
  let touches_fri := existsb is_fri (new_indices ++ removed_indices) in
  let tagged_involved := existsb is_tagged new_indices || existsb is_tagged removed_indices || (touches_fri && existsb is_tagged current_indices) in
  if tagged_involved then
    if negb (match frag_reuse with Trim => true | _ => false end) then Err InvalidInput else
    let removed_matches_current :=
      match removed_indices, List.find is_fri current_indices with
      | [removed], Some current => is_fri removed && (im_uuid removed =? im_uuid current)
      | _, _ => false
      end in
    let new_is_tagged_entry_or_empty := match new_indices with [] => true | [entry] => is_tagged entry | _ => false end in
    if negb removed_matches_current || negb new_is_tagged_entry_or_empty then Err InvalidInput else Ok true
  else Ok false.

(** A rewrite without an entry. *)
Definition classify_bare (groups : list RewriteGroup) (current_indices : list IndexMetadata) : res Admission :=
  let rewritten := bm_from_iter (List.filter (fun id => id <=? U32_MAX) (flat_map old_fragments groups)) in
  match covered_bare_rewrite rewritten current_indices with
  | None => Ok RewritesUncoveredFragments
  | Some (Covered _ _) => Err InvalidInput
  | Some (UnknownCoverage _) => Err InvalidInput
  end.

(** The last match, by variant. *)
Definition classify_variant (operation : Operation) : res Admission :=
  match operation with
  | Append | ReserveFragments | Delete | Update | UpdateConfig | Overwrite | Project | Merge | DataReplacement | UpdateBases => Ok MovesNoRows
  | Restore => Ok RestoresManifest
  | UpdateMemWalState => Ok MaintainsMemWalState
  | Rewrite _ _ _ | CreateIndex _ _ | DataOverlay | Clone | Unknown => Err NotSupported
  end.

Definition maintains_user_indices (operation : Operation) : bool :=
  match operation with CreateIndex new_indices removed_indices => forallb (fun i => negb (is_fri i)) (new_indices ++ removed_indices) | _ => false end.

Definition classify (operation : Operation) (current_manifest : option Manifest) (current_indices : list IndexMetadata) (frag_reuse : FragReuseUpdate)
    (migration_next_row_id : option Z) : res Admission :=
  let appends_transitions := match operation, frag_reuse with Rewrite _ _ _, RewriteUpdate _ => true | _, _ => false end in
  if match operation with Rewrite _ _ (Some entry) => is_tagged entry && negb appends_transitions | _ => false end then Err InvalidInput else
  trims_tagged_entry ← match operation with CreateIndex new_indices removed_indices => check_trim new_indices removed_indices current_indices frag_reuse | _ => Ok false end;
  let replaces_entry := match operation with Rewrite _ _ (Some _) => negb appends_transitions | _ => false end in
  if negb (existsb is_tagged current_indices) then
    if replaces_entry && match current_manifest with Some manifest => uses_tagged_fri manifest (List.find is_fri current_indices) | None => false end then Err InvalidInput
    else Ok Untagged
  else if appends_transitions then Ok AppendsTransitions
  else if trims_tagged_entry : bool then Ok TrimsEntry
  else if maintains_user_indices operation then Ok MaintainsUserIndices
  else
    let rest :=
      if match migration_next_row_id with Some _ => true | None => false end then Err NotSupported
      else if maintains_user_indices operation then Ok MaintainsUserIndices
      else classify_variant operation in
    match operation with
    | Rewrite ((_ :: _) as groups) [] None =>
        if forallb (fun i => (im_index_version i =? 0) || (im_index_version i =? 1)) (List.filter is_fri current_indices) then classify_bare groups current_indices else rest
    | _ => rest
    end.

End GateModel.

(** ** What the gate admits *)

Section Gate.
Context {RB : Roaring} {RL : RoaringLaws RB}.

(** No index but the MemWAL entry may cover a rewritten fragment, and all of
    them know what they cover. *)
Definition uncovered (groups : list RewriteGroup) (indices : list IndexMetadata) : Prop :=
  forall i, i ∈ indices -> im_name i <> MEM_WAL_INDEX_NAME ->
    exists b, im_fragment_bitmap i = Some b /\ forall f, f ∈ flat_map old_fragments groups -> bm_contains b f = false.

Definition known_versions (indices : list IndexMetadata) : Prop := forall i, i ∈ indices -> is_fri i = true -> im_index_version i = 0 \/ im_index_version i = 1.

(** Exactly the current entry is removed, and nothing but a tagged entry
    replaces it. *)
Definition trims (new removed current : list IndexMetadata) : Prop :=
  exists r c, removed = [r] /\ is_fri r = true /\ List.find is_fri current = Some c /\ im_uuid r = im_uuid c /\ (new = [] \/ exists e, new = [e] /\ is_tagged e = true).

Definition touches (new removed : list IndexMetadata) : Prop := exists i, i ∈ new ++ removed /\ is_fri i = true.

(** When an operation is admitted on a tagged table. *)
Definition admitted (op : Operation) (indices : list IndexMetadata) (update : FragReuseUpdate) (migration : option Z) (a : Admission) : Prop :=
  match op, a with
  | Rewrite groups rewritten entry, AppendsTransitions => exists assembly, update = RewriteUpdate assembly
  | Rewrite groups rewritten entry, RewritesUncoveredFragments =>
      (forall assembly, update <> RewriteUpdate assembly) /\ groups <> [] /\ rewritten = [] /\ entry = None /\ known_versions indices /\ uncovered groups indices
  | CreateIndex new removed, TrimsEntry => update = Trim /\ touches new removed /\ trims new removed indices
  | CreateIndex new removed, MaintainsUserIndices => ~ touches new removed
  | (Append | ReserveFragments | Delete | Update | UpdateConfig | Overwrite | Project | Merge | DataReplacement | UpdateBases), MovesNoRows => migration = None
  | Restore, RestoresManifest => migration = None
  | UpdateMemWalState, MaintainsMemWalState => migration = None
  | _, _ => False
  end.

Lemma covered_bare_iff rewritten indices : covered_bare_rewrite rewritten indices = None <->
  forall i, i ∈ indices -> im_name i <> MEM_WAL_INDEX_NAME -> exists b, im_fragment_bitmap i = Some b /\ bm_is_disjoint b rewritten = true.
Proof.
  induction indices as [|i indices IH]; [split; [intros _ i H; by apply not_elem_of_nil in H|done]|]. cbn [covered_bare_rewrite].
  setoid_rewrite elem_of_cons. case_bool_decide as Hn; [rewrite IH; naive_solver|].
  destruct (im_fragment_bitmap i) as [b|] eqn:Eb; [|split; [done|]; intros H; destruct (H i (or_introl eq_refl) Hn) as (? & ? & _); congruence].
  destruct (bm_is_disjoint b rewritten) eqn:Ed; [rewrite IH; naive_solver|]. split; [done|]. intros H. destruct (H i (or_introl eq_refl) Hn) as (? & ? & ?). congruence.
Qed.

Lemma classify_bare_iff groups indices : Forall (fun f => 0 <= f) (flat_map old_fragments groups) ->
  (classify_bare groups indices = Ok RewritesUncoveredFragments /\ uncovered groups indices) \/ (classify_bare groups indices = Err InvalidInput /\ ~ uncovered groups indices).
Proof.
  intros Hpos. unfold classify_bare. set (rewritten := bm_from_iter _).
  assert (Hc : forall v, bm_contains rewritten v = true <-> v ∈ flat_map old_fragments groups /\ v <= U32_MAX).
  { intros v. unfold rewritten. rewrite bm_contains_from_iter, bool_decide_eq_true, elem_of_filterb, Z.leb_le; [done|].
    apply Forall_forall. intros f (Hf & Hl%Z.leb_le)%elem_of_filterb. rewrite Forall_forall in Hpos. specialize (Hpos f Hf). cbn in Hpos. uok. lia. }
  assert (Hd : covered_bare_rewrite rewritten indices = None <-> uncovered groups indices).
  { rewrite covered_bare_iff. unfold uncovered. split; intros H i Hi Hn; destruct (H i Hi Hn) as (b & E & Hb); exists b; (split; [done|]).
    - rewrite bm_is_disjoint_iff in Hb. intros f Hf. destruct (bm_contains b f) eqn:Ef; [|done]. specialize (Hb f Ef). apply not_true_iff_false in Hb. destruct Hb. apply Hc. split; [done|].
      apply bm_contains_u32 in Ef. uok. lia.
    - apply bm_is_disjoint_iff. intros v Hv. apply not_true_iff_false. intros (Hf & _)%Hc. specialize (Hb v Hf). congruence. }
  destruct (covered_bare_rewrite rewritten indices) as [[]|]; [right; split; [done|]; intros [=]%Hd..|left]. split; [done|]. by apply Hd.
Qed.

Lemma touches_iff new removed : existsb is_fri (new ++ removed) = true <-> touches new removed.
Proof. rewrite existsb_exists. unfold touches. by setoid_rewrite <- list_elem_of_In. Qed.

Lemma user_indices_iff new removed : maintains_user_indices (CreateIndex new removed) = true <-> ~ touches new removed.
Proof.
  cbn [maintains_user_indices]. rewrite forallb_forall. setoid_rewrite <- list_elem_of_In. unfold touches. split.
  - intros H (i & Hi & Hf). specialize (H i Hi). by rewrite Hf in H.
  - intros H i Hi. apply negb_true_iff, not_true_iff_false. intros Hf. apply H. by exists i.
Qed.

Lemma tagged_fri (i : IndexMetadata) : is_tagged i = true -> is_fri i = true.
Proof. unfold is_tagged, is_fri. by intros [-> _]%andb_true_iff. Qed.

(** On a tagged table a [CreateIndex] is the trim, a refusal or does not touch
    the entry. *)
Lemma check_trim_tagged new removed current update : existsb is_tagged current = true ->
  (check_trim new removed current update = Ok true /\ update = Trim /\ touches new removed /\ trims new removed current) \/
  (check_trim new removed current update = Err InvalidInput /\ touches new removed /\ ~ (update = Trim /\ trims new removed current)) \/
  (check_trim new removed current update = Ok false /\ ~ touches new removed).
Proof.
  intros Ht. unfold check_trim. rewrite Ht, andb_true_r. cbv zeta. pose proof (touches_iff new removed) as Htf.
  assert (Hinv : existsb is_tagged new || existsb is_tagged removed || existsb is_fri (new ++ removed) = existsb is_fri (new ++ removed)).
  { apply eq_true_iff_eq. rewrite !orb_true_iff, !existsb_exists. setoid_rewrite in_app_iff. pose proof tagged_fri. naive_solver. }
  rewrite Hinv. destruct (existsb is_fri (new ++ removed)); [|right; right; split; [done|]; intros [=]%Htf].
  destruct update; cbn [negb]; [right; left; split; [done|]; split; [by apply Htf|]; by intros [[=] _]..|].
  match goal with |- context [negb ?a || negb ?b] => assert (Hs : a && b = true <-> trims new removed current) end.
  { rewrite andb_true_iff. unfold trims. split.
    - intros [H1 H2]. destruct removed as [|r [|]]; [done| |done]. destruct (List.find is_fri current) as [c|]; [|done]. apply andb_true_iff in H1 as [H1 Hu%Z.eqb_eq].
      exists r, c. do 4 (split; [done|]). destruct new as [|e [|]]; [by left|right; by exists e|done].
    - intros (r & c & -> & Hr & -> & Hu & Hn). split; [rewrite Hr, Hu; apply Z.eqb_refl|]. by destruct Hn as [-> |(e & -> & He)]. }
  rewrite <- negb_andb. match goal with |- context [negb ?a] => destruct a end; cbn [negb].
  - left. split; [done|]. split; [done|]. split; [by apply Htf|by apply Hs].
  - right. left. split; [done|]. split; [by apply Htf|]. by intros [_ [=]%Hs].
Qed.

(** The verdict of the gate and the admissions agree. *)
Definition verdict (out : res Admission) (adm : Admission -> Prop) : Prop :=
  (exists a, out = Ok a /\ forall a', adm a' <-> a' = a) \/ (exists e, out = Err e /\ (e = InvalidInput \/ e = NotSupported) /\ forall a', ~ adm a').

Lemma verdict_ok (a : Admission) (adm : Admission -> Prop) : (forall a', adm a' <-> a' = a) -> verdict (Ok a) adm.
Proof. intros H. left. by exists a. Qed.

Lemma verdict_err e (adm : Admission -> Prop) : e = InvalidInput \/ e = NotSupported -> (forall a', ~ adm a') -> verdict (Err e) adm.
Proof. intros He H. right. by exists e. Qed.

Lemma known_versions_iff indices : forallb (fun i => (im_index_version i =? 0) || (im_index_version i =? 1)) (List.filter is_fri indices) = true <-> known_versions indices.
Proof.
  rewrite forallb_forall. unfold known_versions. setoid_rewrite <- list_elem_of_In. setoid_rewrite elem_of_filterb. setoid_rewrite orb_true_iff. setoid_rewrite Z.eqb_eq. naive_solver.
Qed.

Lemma create_index_verdict manifest indices update migration new removed : existsb is_tagged indices = true ->
  verdict (classify (CreateIndex new removed) manifest indices update migration) (admitted (CreateIndex new removed) indices update migration).
Proof.
  intros Ht. unfold classify. rewrite Ht. cbn [negb]. cbv zeta. pose proof (user_indices_iff new removed) as Hu.
  destruct (check_trim_tagged new removed indices update Ht) as [(-> & Hup & Hto & Htr)|[(-> & Hto & Hn)|(-> & Hto)]]; mon.
  - apply verdict_ok. intros []; cbn; split; try done; tauto.
  - apply verdict_err; [by left|]. intros []; cbn; tauto.
  - rewrite (proj2 Hu Hto). apply verdict_ok. intros []; cbn; split; try done; tauto.
Qed.

Lemma rewrite_verdict manifest indices update migration groups rewritten entry : existsb is_tagged indices = true -> Forall (fun f => 0 <= f) (flat_map old_fragments groups) ->
  verdict (classify (Rewrite groups rewritten entry) manifest indices update migration) (admitted (Rewrite groups rewritten entry) indices update migration).
Proof.
  intros Ht Hpos. unfold classify. rewrite Ht. cbn [negb maintains_user_indices classify_variant]. cbv zeta.
  assert (Happ : (exists assembly, update = RewriteUpdate assembly) \/ (forall assembly, update <> RewriteUpdate assembly)) by (destruct update; [right; done|left; by eexists|right; done]).
  destruct Happ as [[assembly ->]|Hna].
  { assert (Hadm : verdict (Ok AppendsTransitions) (admitted (Rewrite groups rewritten entry) indices (RewriteUpdate assembly) migration)).
    { apply verdict_ok. intros []; cbn; split; try done; [intros _; by eexists|]. intros (H & _). by destruct (H assembly). }
    destruct entry; cbn [negb]; rewrite ?andb_false_r; mon; exact Hadm. }
  replace (match update with RewriteUpdate _ => true | _ => false end) with false by (destruct update as [|assembly|]; [done|by destruct (Hna assembly)|done]).
  assert (Hrest : forall o : option Z, ~ (groups <> [] /\ rewritten = [] /\ entry = None /\ known_versions indices) ->
    verdict (if match o with Some _ => true | None => false end then Err NotSupported else Err NotSupported) (admitted (Rewrite groups rewritten entry) indices update migration)).
  { intros o Hn. assert (Hv : verdict (Err NotSupported) (admitted (Rewrite groups rewritten entry) indices update migration)); [|by destruct o].
    apply verdict_err; [by right|]. intros []; cbn; [tauto|intros (assembly & E); by apply (Hna assembly)|tauto..]. }
  destruct entry as [entry|]; cbn [negb].
  { rewrite andb_true_r. destruct (is_tagged entry); mon; [|destruct groups, rewritten; apply (Hrest migration); by intros (_ & _ & [=] & _)].
    apply verdict_err; [by left|]. intros []; cbn; [tauto|intros (assembly & E); by apply (Hna assembly)|naive_solver..]. }
  mon. destruct groups as [|g groups]; [apply (Hrest migration); tauto|]. destruct rewritten; [|apply (Hrest migration); naive_solver].
  pose proof (known_versions_iff indices) as Hkv. destruct (forallb _ (List.filter is_fri indices)); [|apply (Hrest migration); intros (_ & _ & _ & H%Hkv); done].
  destruct (classify_bare_iff (g :: groups) indices Hpos) as [[-> Hunc]|[-> Hunc]].
  - apply verdict_ok. intros []; cbn; split; try done; [intros (assembly & E); by destruct (Hna assembly)|]. intros _. split; [done|]. split; [done|]. split; [done|]. split; [done|]. split; [by apply Hkv|done].
  - apply verdict_err; [by left|]. intros []; cbn; [tauto|intros (assembly & E); by apply (Hna assembly)|tauto..].
Qed.

(** The operations without an entry or index list of their own. *)
Lemma plain_verdict op manifest indices update migration : existsb is_tagged indices = true ->
  match op with CreateIndex _ _ | Rewrite _ _ _ => False | _ => True end -> verdict (classify op manifest indices update migration) (admitted op indices update migration).
Proof.
  intros Ht Hop. assert (E : classify op manifest indices update migration = match migration with Some _ => Err NotSupported | None => classify_variant op end).
  { unfold classify. rewrite Ht. destruct op; try done; by destruct migration. }
  rewrite E. destruct op, migration; try done; cbn [classify_variant].
  all: first [apply verdict_ok; intros a; destruct a; cbn; by split | apply verdict_err; [by right|]; intros [] H; cbn in H; done].
Qed.

Definition op_typed (op : Operation) : Prop := match op with Rewrite groups _ _ => Forall (fun f => 0 <= f) (flat_map old_fragments groups) | _ => True end.

(** An admitted bare rewrite leaves the coverage of every index alone. *)
Lemma uncovered_coverage groups indices i : groups_typed groups -> uncovered groups indices -> i ∈ indices -> im_name i <> MEM_WAL_INDEX_NAME ->
  exists b, im_fragment_bitmap i = Some b /\ recalculate_fragment_bitmap b groups = Ok b.
Proof.
  intros Hty Hunc Hi Hn. destruct (Hunc i Hi Hn) as (b & E & Hb). exists b. split; [done|]. unfold recalculate_fragment_bitmap. clear E Hi Hn Hunc. generalize b at 2 3 as out. revert Hb.
  induction Hty as [|g groups [Hg _] _ IH]; intros Hb out; [done|]. cbn [fold_res].
  assert (Eg : recalculate_group b out g = Ok out).
  { unfold recalculate_group. cbv zeta. destruct (existsb _ (old_fragments g)) eqn:Ex; [|done]. exfalso. apply existsb_exists in Ex as (f & Hf%list_elem_of_In & Hc).
    rewrite Forall_forall in Hg. rewrite wrap32_small in Hc by (by apply Hg). rewrite Hb in Hc; [done|]. cbn [flat_map]. apply elem_of_app. by left. }
  rewrite Eg. mon. apply IH. intros f Hf. apply Hb. cbn [flat_map]. apply elem_of_app. by right.
Qed.

Lemma untagged_bare op manifest indices update migration : existsb is_tagged indices = false -> classify op manifest indices update migration <> Ok RewritesUncoveredFragments.
Proof.
  intros Ht. unfold classify. rewrite Ht. cbn [negb]. cbv zeta. destruct (match op with Rewrite _ _ (Some entry) => _ | _ => _ end); [done|].
  match goal with |- (trims_tagged_entry ← ?x; _) <> _ => destruct x end; mon; [|done..]. by destruct (_ && _).
Qed.

Lemma sticky_flag m entry : Z.testbit (reader_feature_flags m) 10 = true -> uses_tagged_fri m entry = true.
Proof.
  intros Hb. unfold uses_tagged_fri. destruct (Z.eqb_spec (Z.land (reader_feature_flags m) FLAG_FRAGMENT_REUSE_INDEX) 0) as [E|]; [|done].
  assert (Z.testbit (Z.land (reader_feature_flags m) FLAG_FRAGMENT_REUSE_INDEX) 10 = true) as H by (by rewrite Z.land_spec, Hb). by rewrite E in H.
Qed.

(** A rewrite that brings an entry is assembled by the commit path. *)
Lemma sticky_rewrite groups rewritten entry m indices update migration a : op_typed (Rewrite groups rewritten (Some entry)) -> Z.testbit (reader_feature_flags m) 10 = true ->
  classify (Rewrite groups rewritten (Some entry)) (Some m) indices update migration = Ok a -> exists assembly, update = RewriteUpdate assembly.
Proof.
  intros Hty Hb Hc. destruct (existsb is_tagged indices) eqn:Ht.
  - destruct (rewrite_verdict (Some m) indices update migration groups rewritten (Some entry) Ht Hty) as [(a' & E & Ha)|(e & E & _)]; [|congruence].
    rewrite Hc in E. injection E as ->. specialize (proj2 (Ha a') eq_refl). destruct a'; cbn; naive_solver.
  - unfold classify in Hc. rewrite Ht, sticky_flag in Hc by done. destruct update as [|assembly|]; [|by exists assembly|]; cbn [negb andb] in Hc; cbv zeta in Hc; rewrite andb_true_r in Hc;
      destruct (is_tagged entry); mon; done.
Qed.

(** The operation carries the entry into the manifest. *)
Definition brings (op : Operation) (e : IndexMetadata) : Prop :=
  match op with Rewrite _ _ (Some entry) => e = entry | CreateIndex new _ => e ∈ new | _ => False end.

(** A tagged entry comes from the commit path: assembled onto the current entry,
    or a trim of it. *)
Definition from_commit_path (op : Operation) (indices : list IndexMetadata) (update : FragReuseUpdate) : Prop :=
  match op with
  | Rewrite _ _ _ => exists assembly, update = RewriteUpdate assembly
  | CreateIndex new removed => update = Trim /\ trims new removed indices
  | _ => False
  end.

Lemma check_trim_brings new removed current update e t : e ∈ new -> is_tagged e = true -> check_trim new removed current update = Ok t -> update = Trim /\ trims new removed current.
Proof.
  intros He Ht. assert (Hn : existsb is_tagged new = true) by (apply existsb_exists; exists e; by rewrite <- list_elem_of_In). unfold check_trim. rewrite Hn. cbn [orb]. cbv zeta.
  destruct update; cbn [negb]; [done..|]. unfold trims. destruct removed as [|r [|]]; [done| |done]. destruct (List.find is_fri current) as [c|]; [|done].
  destruct (is_fri r && (im_uuid r =? im_uuid c)) eqn:Er; [|done]. apply andb_true_iff in Er as [Hr Hu%Z.eqb_eq]. intros H. split; [done|]. exists r, c. do 4 (split; [done|]).
  destruct new as [|e' [|]]; [by left|right; exists e'; split; [done|]; by destruct (is_tagged e')|done].
Qed.

Lemma tagged_entry_path op manifest indices update migration e a : brings op e -> is_tagged e = true -> classify op manifest indices update migration = Ok a -> from_commit_path op indices update.
Proof.
  intros Hb Ht. unfold classify. destruct op as [| | |new removed|groups rewritten [entry|]| | | | | | | | | | | |]; try done; cbn [brings] in Hb; cbv zeta; cbn [from_commit_path].
  - destruct (check_trim new removed indices update) as [t|?|] eqn:Ec; mon; [intros _; by eapply check_trim_brings|done..].
  - subst e. rewrite Ht. destruct update; [done|by eexists|done].
Qed.


End Gate.

(** ** Examples *)

Module WriteGateExamples.
Import IndexCoverageExamples.

#[local] Existing Instance CofiniteRoaring.
#[local] Existing Instance CofiniteRoaring_laws.

(** A table whose history mentions fragments 0 and 5, with an index on 9. *)
Definition table : list IndexMetadata := [mkIndex 1 [] [] FRAG_REUSE_INDEX_NAME 1 (Some (bm_from_iter [0; 5])) None 1 None; segment 2 [9]].


Lemma bare_rewrite_cases :
  classify (Rewrite [mkRewriteGroup [7] [10]] [] None) None table NoUpdate None = Ok RewritesUncoveredFragments /\
  classify (Rewrite [mkRewriteGroup [7; 9] [10]] [] None) None table NoUpdate None = Err InvalidInput /\
  classify (Rewrite [] [] None) None table NoUpdate None = Err NotSupported.
Proof. split_and!; by vm_compute. Qed.

(** A trim derived against an entry that was replaced since is refused. *)
Lemma stale_trim_refused : let removed := mkIndex 4 [] [] FRAG_REUSE_INDEX_NAME 1 None None 1 None in
  classify (CreateIndex [] [removed]) None table Trim None = Err InvalidInput.
Proof. by vm_compute. Qed.

(** After the last tagged entry was trimmed away, an index creation brings an
    entry of the old form back although the flag makes the tagged form
    permanent; a rewrite with the same entry is refused. *)
Lemma drained_table_admits_untagged_entry : let entry := mkIndex 4 [] [] FRAG_REUSE_INDEX_NAME 1 None None 0 None in
  let drained := mkManifest [] (Z.shiftl 1 10) (Z.shiftl 1 10) None ∅ ∅ [] 0 in
  classify (CreateIndex [entry] []) (Some drained) [] NoUpdate None = Ok Untagged /\
  classify (Rewrite [mkRewriteGroup [7] [10]] [] (Some entry)) (Some drained) [] NoUpdate None = Err InvalidInput.
Proof. split; by vm_compute. Qed.

(** Changing the base paths of a tagged table is admitted. *)
Lemma update_bases_admitted : classify UpdateBases None table NoUpdate None = Ok MovesNoRows.
Proof. by vm_compute. Qed.

End WriteGateExamples.
