(* ===== verification/FlagCommit.v ===== *)
(** * The feature flags of a commit

    What happens to the two flag words of a manifest on the way from one version
    of a table to the next: the parts of [build_manifest] and
    [restore_old_manifest] ([lance-table/src/transaction/manifest_build.rs]) that
    touch them, the constructors of a manifest ([format/manifest.rs]), the flags
    derived from the list of indices ([feature_flags.rs],
    [lance/src/index/frag_reuse_with_stable_row_ids.rs]), those of write seeds
    ([lance/src/dataset/write/seeds.rs]), and [write_manifest_file]
    ([lance/src/dataset.rs]), through which every manifest is published and which
    resets and derives the words a second time.  What the other code of a commit
    leaves in the manifest - fragments, configuration, base paths, clustering -
    is an argument. *)

From Stdlib Require Import ZArith Lia Ascii Btauto.
From stdpp Require Import base option list numbers gmap strings relations.
From S2P Require Import Prelude Lists Roaring Ledger Lineage RewriteIndices FeatureFlags WriteGate.

(** ** Model *)

(** *** Strings *)

Fixpoint ends_with (s suffix : string) : bool :=
  bool_decide (s = suffix) || match s with EmptyString => false | String _ s => ends_with s suffix end.

(** [rsplit_once('/')], the part behind the separator. *)
Fixpoint rsplit_once (s : string) : option string :=
  match s with
  | EmptyString => None
  | String c s => match rsplit_once s with Some t => Some t | None => if bool_decide (c = "/"%char) then Some s else None end
  end.

Definition to_ascii_lowercase (c : Ascii.ascii) : Ascii.ascii :=
  let n := Ascii.nat_of_ascii c in if (65 <=? n)%nat && (n <=? 90)%nat then Ascii.ascii_of_nat (n + 32) else c.

Fixpoint eq_ignore_ascii_case (s t : string) : bool :=
  match s, t with
  | EmptyString, EmptyString => true
  | String c s, String d t => bool_decide (to_ascii_lowercase c = to_ascii_lowercase d) && eq_ignore_ascii_case s t
  | _, _ => false
  end.

Definition is_some_and {A} (o : option A) (p : A -> bool) : bool := match o with Some x => p x | None => false end.

(** *** Constructing a manifest *)

(** The parts of a manifest that other code of a commit sets. *)
Record Contents := mkContents {
  c_fragments : list FlaggedFragment;
  c_config : gmap string string;
  c_base_paths : gmap Z string;
  c_clustering : list Z;
  c_max_clustering_id : Z
}.

Definition with_contents (m : Manifest) (c : Contents) : Manifest :=
  mkManifest (c_fragments c) (reader_feature_flags m) (writer_feature_flags m) (max_allocated_field_id m) (c_config c) (c_base_paths c) (c_clustering c) (c_max_clustering_id c).

Definition STICKY_READER_FLAGS : Z := STICKY_PAIRED_FLAGS.
Definition STICKY_WRITER_FLAGS : Z := Z.lor STICKY_PAIRED_FLAGS FLAG_NON_REUSABLE_FIELD_IDS.

Definition manifest_new (fragments : list FlaggedFragment) (base_paths : gmap Z string) : Manifest := mkManifest fragments 0 0 None ∅ base_paths [] 0.

Definition new_from_previous (previous : Manifest) (fragments : list FlaggedFragment) : Manifest :=
  mkManifest fragments (Z.land (reader_feature_flags previous) STICKY_READER_FLAGS) (Z.land (writer_feature_flags previous) STICKY_WRITER_FLAGS)
    (max_allocated_field_id previous) (m_config previous) (m_base_paths previous) (m_clustering previous) (m_max_clustering_id previous).

(** [shallow_clone]; the files of the fragments get a base, which the flags do
    not depend on. *)
Definition shallow_clone (m : Manifest) (ref_path : string) (ref_base_id : Z) : Manifest :=
  mkManifest (m_fragments m)
    (Z.land (reader_feature_flags m) (Z.lor (Z.lor FLAG_COVERED_INDEX_METADATA STICKY_READER_FLAGS) FLAG_STABLE_ROW_IDS))
    (Z.land (writer_feature_flags m) (Z.lor (Z.lor FLAG_COVERED_INDEX_METADATA STICKY_WRITER_FLAGS) FLAG_STABLE_ROW_IDS))
    (max_allocated_field_id m) (m_config m) (<[ref_base_id := ref_path]> (m_base_paths m)) (m_clustering m) (m_max_clustering_id m).

Definition has_managed_blobs (m : Manifest) : bool := negb (Z.land (reader_feature_flags m) FLAG_MANAGED_BLOBS =? 0).

(** The deep clone of [commit_new_dataset], with the fragments its copies have. *)
Definition deep_clone (m : Manifest) (fragments : list FlaggedFragment) : Manifest :=
  mkManifest fragments (reader_feature_flags m) (writer_feature_flags m) (max_allocated_field_id m) (m_config m)
    (if negb (has_managed_blobs m) then ∅ else m_base_paths m) (m_clustering m) (m_max_clustering_id m).

Definition uses_stable_row_ids (m : Manifest) : bool := negb (Z.land (reader_feature_flags m) FLAG_STABLE_ROW_IDS =? 0).
Definition uses_non_reusable_field_ids (m : Manifest) : bool := is_some (max_allocated_field_id m).

Definition with_mark (m : Manifest) (mark : option Z) : Manifest :=
  mkManifest (m_fragments m) (reader_feature_flags m) (writer_feature_flags m) mark (m_config m) (m_base_paths m) (m_clustering m) (m_max_clustering_id m).

(** [max_referenced] is the highest field id of the schema and the files. *)
Definition activate_non_reusable_field_ids (max_referenced : Z) (m : Manifest) : Manifest :=
  match max_allocated_field_id m with None => with_mark m (Some max_referenced) | Some _ => m end.

Definition update_max_field_id (max_referenced : Z) (m : Manifest) : Manifest :=
  match max_allocated_field_id m with Some mark => with_mark m (Some (Z.max mark max_referenced)) | None => m end.

(** [word |= flag] on both words, or on the writer's. *)
Definition set_both (flag : Z) (m : Manifest) : Manifest := with_flags m (Z.lor (reader_feature_flags m) flag) (Z.lor (writer_feature_flags m) flag).
Definition set_writer (flag : Z) (m : Manifest) : Manifest := with_flags m (reader_feature_flags m) (Z.lor (writer_feature_flags m) flag).
(** [word &= !flag] *)
Definition clear_both (flag : Z) (m : Manifest) : Manifest := with_flags m (Z.ldiff (reader_feature_flags m) flag) (Z.ldiff (writer_feature_flags m) flag).
Definition clear_writer (flag : Z) (m : Manifest) : Manifest := with_flags m (reader_feature_flags m) (Z.ldiff (writer_feature_flags m) flag).

(** *** Flags of the index list *)

Section Indices.
Context {RB : Roaring}.

Definition is_btree_addr_domain (details : Any) (index_version : Z) : bool := ends_with (any_type_url details) "BTreeIndexDetails" && (1 <=? index_version).
Definition is_bitmap_addr_domain (details : Any) (index_version : Z) : bool := ends_with (any_type_url details) "BitmapIndexDetails" && (1 <=? index_version).
Definition is_label_list_addr_domain (details : Any) (index_version : Z) : bool := ends_with (any_type_url details) "LabelListIndexDetails" && (2 <=? index_version).

Definition index_details_are_row_addrs (details : Any) (index_version : Z) : bool :=
  let is_fm := is_some_and (rsplit_once (any_type_url details)) (fun name => eq_ignore_ascii_case name "lance.index.pb.FMIndexDetails") in
  let is_json_addr_domain := ends_with (any_type_url details) "JsonIndexDetails" && (1 <=? index_version) in
  ends_with (any_type_url details) "ZoneMapIndexDetails" || ends_with (any_type_url details) "BloomFilterIndexDetails" || is_fm
  || is_btree_addr_domain details index_version || is_bitmap_addr_domain details index_version || is_label_list_addr_domain details index_version || is_json_addr_domain.

Definition results_are_row_addrs (index : IndexEntry) : bool :=
  is_some_and (im_index_details (ie_meta index)) (fun details => index_details_are_row_addrs details (im_index_version (ie_meta index))).

Definition apply_row_addr_index_feature_flag (m : Manifest) (indices : list IndexEntry) : Manifest :=
  let m := clear_writer FLAG_ROW_ADDR_INDICES m in
  if uses_stable_row_ids m && existsb results_are_row_addrs indices then set_writer FLAG_ROW_ADDR_INDICES m else m.

Definition apply_index_object_metadata_flag (m : Manifest) (indices : list IndexEntry) : Manifest :=
  if existsb (fun index => is_some (ie_clustering_id index) || negb (bool_decide (ie_metadata index = ∅))) indices then set_writer FLAG_OBJECT_METADATA m else m.

Definition is_frag_reuse_index_entry (index : IndexEntry) : bool :=
  bool_decide (ie_name index = FRAG_REUSE_INDEX_NAME)
  && is_some_and (im_index_details (ie_meta index)) (fun details =>
       is_some_and (rsplit_once (any_type_url details)) (fun name => eq_ignore_ascii_case name "lance.table.FragmentReuseIndexDetails")).

Definition has_frag_reuse_with_stable_row_ids (m : Manifest) (indices : list IndexEntry) : bool := uses_stable_row_ids m && existsb is_frag_reuse_index_entry indices.

Definition apply_frag_reuse_with_stable_row_ids_flag (m : Manifest) (indices : list IndexEntry) : Manifest :=
  if has_frag_reuse_with_stable_row_ids m indices then set_both FLAG_FRAG_REUSE_WITH_STABLE_ROW_IDS m else clear_both FLAG_FRAG_REUSE_WITH_STABLE_ROW_IDS m.

(** [validate_frag_reuse_with_stable_row_ids_when].  Whether an index is
    compatible is up to the registry of index types, [incompatible]. *)
Definition validate_frag_reuse_with_stable_row_ids (incompatible : IndexEntry -> bool) (is_supported : bool) (m : Manifest) (indices : list IndexEntry) : res () :=
  if negb (has_frag_reuse_with_stable_row_ids m indices) then Ok () else
  if negb is_supported then Err NotSupported else
  match List.filter is_frag_reuse_index_entry indices with
  | [entry] => if negb (im_index_version (ie_meta entry) =? 0) then Err InvalidInput else if existsb incompatible indices then Err InvalidInput else Ok ()
  | _ => Err InvalidInput
  end.

End Indices.

(** *** File versions *)

Inductive ConcreteFileVersion := V1 | V2_0 | V2_1 | V2_2 | V2_3.
#[export] Instance ConcreteFileVersion_eq_dec : EqDecision ConcreteFileVersion.
Proof. solve_decision. Defined.

Inductive StorageContractMode := ReadMode | CommitMode | FinalizeMode.

(** A referenced file: its version, if it can be told, and the check of its
    column indices. *)
Record StoredFile := mkStoredFile { sf_version : res ConcreteFileVersion; sf_columns : res () }.

Record VersionScan := mkScan {
  saw_v1 : bool;
  saw_v2 : bool;
  first_file_version : option ConcreteFileVersion;
  first_mismatch : option (ConcreteFileVersion * ConcreteFileVersion);
  first_non_default : option ConcreteFileVersion
}.

(** The body of the loop over the files. *)
Definition scan_file (mixed_enabled : bool) (default_version : ConcreteFileVersion) (s : VersionScan) (file : StoredFile) : res VersionScan :=
  file_version ← sf_version file;
  let is_v1 := bool_decide (file_version = V1) in
  let '(first, mismatch) :=
    match first_file_version s with
    | None => (Some file_version, first_mismatch s)
    | Some first_version => (Some first_version, if bool_decide (first_version <> file_version) && negb (is_some (first_mismatch s)) then Some (first_version, file_version) else first_mismatch s)
    end in
  let non_default := if negb mixed_enabled && bool_decide (file_version <> default_version) && negb (is_some (first_non_default s)) then Some file_version else first_non_default s in
  _ ← sf_columns file;
  Ok (mkScan (saw_v1 s || is_v1) (saw_v2 s || negb is_v1) first mismatch non_default).

Definition mixed_enabled (m : Manifest) : bool :=
  negb (Z.land (reader_feature_flags m) FLAG_MIXED_DATA_FILE_VERSIONS =? 0) && negb (Z.land (writer_feature_flags m) FLAG_MIXED_DATA_FILE_VERSIONS =? 0).

(** The manifest and its default version, as the call leaves them. *)
Definition check_manifest_storage_contract (m : Manifest) (default_version : ConcreteFileVersion) (files : list StoredFile) (mode : StorageContractMode) : res (Manifest * ConcreteFileVersion) :=
  let mixed := mixed_enabled m in
  if mixed && bool_decide (default_version = V1) then Err InvalidInput else
  s ← fold_res (scan_file mixed default_version) (mkScan false false None None None) files;
  if match mode with ReadMode => bool_decide (default_version = V1) && negb mixed && saw_v1 s && saw_v2 s | _ => false end then Ok (m, default_version) else
  if bool_decide (default_version = V1) && is_some (first_mismatch s) then Err Internal else
  let upgraded := match first_file_version s with Some actual => if bool_decide (default_version = V1) && bool_decide (actual <> V1) then Some actual else None | None => None end in
  let effective_version := default default_version upgraded in
  let non_default := match upgraded with Some _ => None | None => first_non_default s end in
  let stored_default := match mode with FinalizeMode => effective_version | _ => default_version end in
  if saw_v1 s && saw_v2 s then Err InvalidInput else
  if mixed && saw_v1 s then Err InvalidInput else
  match non_default with
  | Some file_version =>
      if bool_decide (file_version = V1) || bool_decide (effective_version = V1) then Err InvalidInput else
      match mode with
      | ReadMode => Err InvalidInput
      | CommitMode => Ok (m, stored_default)
      | FinalizeMode => Ok (set_both FLAG_MIXED_DATA_FILE_VERSIONS m, stored_default)
      end
  | None => Ok (m, stored_default)
  end.

(** *** Building, restoring and publishing *)

Definition MANAGED_BLOBS_META_KEY : string := "lance.blob.managed".

Definition managed_blobs_enabled (metadata : gmap string string) : res bool :=
  match metadata !! MANAGED_BLOBS_META_KEY with
  | None => Ok false
  | Some value => if bool_decide (value = "false"%string) then Ok false else if bool_decide (value = "true"%string) then Ok true else Err InvalidInput
  end.

(** The fields of [ManifestWriteConfig] that concern the flags;
    [to_build_config] hands them on. *)
Record WriteConfig := mkWriteConfig {
  auto_set_feature_flags : bool;
  use_stable_row_ids : bool;
  disable_transaction_file : bool;
  activate_field_ids : bool;
  clustering_definitions : bool
}.

Definition applied (m : Manifest) (enable disable : bool) : res Manifest := let '(m, r) := apply_feature_flags m enable disable in _ ← r; Ok m.

Section Commit.
Context {RB : Roaring}.
(** What the running build has enabled, and the indices whose type the
    registry does not confirm. *)
Variables (data_overlay_files_enabled frag_reuse_enabled : bool) (incompatible : IndexEntry -> bool).

(** What the other code of [build_manifest] contributes: the fragments and the
    indices of the new version, the highest field id, the schema's metadata, the
    contents the operation leaves, whether it allocated a clustering id over
    files with unique field ids, and its own checks. *)
Record BuildInput := mkBuildInput {
  bi_fragments : list FlaggedFragment;
  bi_reference_paths : gmap Z string;
  bi_indices : list IndexEntry;
  bi_max_referenced : Z;
  bi_contents : Contents;
  bi_allocates_clustering : bool;
  bi_duplicate_field_id : bool;
  bi_schema_metadata : gmap string string;
  bi_checks : res ()
}.

(** The manifest of the new version before its flags are derived. *)
Definition start_manifest (config : WriteConfig) (current_manifest : option Manifest) (b : BuildInput) : Manifest :=
  let m := match current_manifest with
    | Some current => new_from_previous current (bi_fragments b)
    | None => manifest_new (bi_fragments b) (bi_reference_paths b)
    end in
  let already_active := is_some_and current_manifest uses_non_reusable_field_ids in
  if activate_field_ids config && negb already_active then set_writer FLAG_NON_REUSABLE_FIELD_IDS (activate_non_reusable_field_ids (bi_max_referenced b) m) else m.

Definition derive_flags (config : WriteConfig) (current_manifest : option Manifest) (final_indices : list IndexEntry) (m : Manifest) : res Manifest :=
  m ← (if auto_set_feature_flags config
       then applied m (use_stable_row_ids config || is_some_and current_manifest uses_stable_row_ids) (disable_transaction_file config)
       else Ok m);
  let m := if existsb (fun index => negb (bool_decide (im_covering_fields (ie_meta index) = []))) final_indices then set_both FLAG_COVERED_INDEX_METADATA m else m in
  let m := apply_row_addr_index_feature_flag m final_indices in
  match current_manifest with Some current => inherit_sticky_feature_flags m current | None => Ok m end.

Definition activate_field_identity_for_clustering (duplicate_file_field_id : bool) (max_referenced : Z) (m : Manifest) : res Manifest :=
  if uses_non_reusable_field_ids m then Ok m else
  if duplicate_file_field_id then Err InvalidInput else
  Ok (set_writer FLAG_NON_REUSABLE_FIELD_IDS (activate_non_reusable_field_ids max_referenced m)).

(** The end of [build_manifest]. *)
Definition finish_flags (final_indices : list IndexEntry) (schema_metadata : gmap string string) (m : Manifest) : res Manifest :=
  let m := if existsb (fun index => is_tagged (ie_meta index)) final_indices then set_both FLAG_FRAGMENT_REUSE_INDEX m else m in
  managed ← managed_blobs_enabled schema_metadata;
  let m := if managed : bool then set_both FLAG_MANAGED_BLOBS m else m in
  Ok (apply_index_object_metadata_flag m final_indices).

Definition build_manifest (config : WriteConfig) (current_manifest : option Manifest) (b : BuildInput) : res Manifest :=
  m ← derive_flags config current_manifest (bi_indices b) (start_manifest config current_manifest b);
  let m := with_contents (update_max_field_id (bi_max_referenced b) m) (bi_contents b) in
  m ← (if bi_allocates_clustering b then activate_field_identity_for_clustering (bi_duplicate_field_id b) (bi_max_referenced b) m else Ok m);
  m ← finish_flags (bi_indices b) (bi_schema_metadata b) m;
  _ ← bi_checks b;
  _ ← validate_non_reusable_field_id_flags m;
  Ok m.

(** [apply_seed_feature_flags] with the flags the seed writers of the indices
    require. *)
Definition required_seed_feature_flags (writers : list Z) : Z := foldl Z.lor 0 writers.
Definition apply_seed_feature_flags (m : Manifest) (indices : list IndexEntry) (writers : list Z) : Manifest :=
  match indices with [] => m | _ => set_both (required_seed_feature_flags writers) m end.

(** [restore_old_manifest]: the stored manifest and its indices, made the
    successor of the current one. *)
Definition restore_old_manifest (config : WriteConfig) (old : Manifest) (indices : list IndexEntry) (current_manifest : Manifest) : res Manifest :=
  if clustering_definitions config then Err InvalidInput else
  _ ← ensure_can_read_manifest data_overlay_files_enabled frag_reuse_enabled old;
  _ ← ensure_can_write_manifest data_overlay_files_enabled frag_reuse_enabled old;
  _ ← validate_flags old (map ie_meta indices);
  m ← match max_allocated_field_id current_manifest with
      | Some current_max =>
          restored_max ← ok_or (max_allocated_field_id old) InvalidInput;
          Ok (set_writer FLAG_NON_REUSABLE_FIELD_IDS (with_mark old (Some (Z.max restored_max current_max))))
      | None => Ok old
      end;
  let m := with_contents m (mkContents (m_fragments m) (m_config m) (m_base_paths m) (m_clustering m) (Z.max (m_max_clustering_id m) (m_max_clustering_id current_manifest))) in
  if uses_stable_row_ids current_manifest && negb (uses_stable_row_ids m) then Err InvalidInput else
  inherit_sticky_feature_flags m current_manifest.

(** What [write_manifest_file] finds besides the manifest. *)
Record WriteInput := mkWriteInput {
  wi_indices : option (list IndexEntry);
  wi_max_referenced : Z;
  wi_schema_checks : res ();
  wi_default_version : ConcreteFileVersion;
  wi_files : list StoredFile
}.

Definition write_manifest_file (config : WriteConfig) (w : WriteInput) (m : Manifest) : res Manifest :=
  let m := update_max_field_id (wi_max_referenced w) m in
  _ ← validate_paired_feature_flags m;
  _ ← match wi_indices w with Some indices => validate_flags m (map ie_meta indices) | None => Ok () end;
  _ ← wi_schema_checks w;
  let indices := default [] (wi_indices w) in
  m ← (if auto_set_feature_flags config then
         m ← applied m (use_stable_row_ids config || uses_stable_row_ids m) (disable_transaction_file config);
         Ok (apply_index_object_metadata_flag (apply_frag_reuse_with_stable_row_ids_flag m indices) indices)
       else Ok m);
  let m := match wi_indices w with Some indices => apply_row_addr_index_feature_flag m indices | None => m end in
  _ ← validate_frag_reuse_with_stable_row_ids incompatible frag_reuse_enabled m indices;
  _ ← validate_data_overlay_files data_overlay_files_enabled m;
  _ ← validate_non_reusable_field_id_flags m;
  '(m, _) ← check_manifest_storage_contract m (wi_default_version w) (wi_files w) FinalizeMode;
  Ok m.

(** An attempt of [commit_transaction]; [migrated] is what the migrations
    between the two calls leave. *)
Definition commit_build (config : WriteConfig) (current : Manifest) (b : BuildInput) (writers : list Z) (migrated : Contents) (w : WriteInput) : res Manifest :=
  m ← build_manifest config (Some current) b;
  write_manifest_file config w (with_contents (apply_seed_feature_flags m (bi_indices b) writers) migrated).

Definition commit_restore (config : WriteConfig) (current old : Manifest) (indices : list IndexEntry) (migrated : Contents) (w : WriteInput) : res Manifest :=
  m ← restore_old_manifest config old indices current;
  write_manifest_file config w (with_contents m migrated).

(** A table and its next version, or a clone of it. *)
Inductive commit (current next : Manifest) : Prop :=
  | next_build config b writers migrated w : commit_build config current b writers migrated w = Ok next -> commit current next
  | next_restore config old indices migrated w : commit_restore config current old indices migrated w = Ok next -> commit current next
  | next_shallow_clone config ref_path ref_base_id w : write_manifest_file config w (shallow_clone current ref_path ref_base_id) = Ok next -> commit current next
  | next_deep_clone config fragments w : write_manifest_file config w (deep_clone current fragments) = Ok next -> commit current next.

End Commit.

(** ** What each step keeps *)

(** Sticky bits of the reader word and the writer's bit for field ids stay. *)
Definition carries (m m' : Manifest) : Prop :=
  (forall n, sticky_bit n = true -> Z.testbit (reader_feature_flags m) n = true -> Z.testbit (reader_feature_flags m') n = true) /\
  (Z.testbit (writer_feature_flags m) 15 = true -> Z.testbit (writer_feature_flags m') 15 = true).

#[export] Instance carries_preorder : PreOrder carries.
Proof. split; [by intros m; split|]. intros a b c [H1 H2] [H3 H4]. split; auto. Qed.

Create HintDb flags.

Lemma sticky_nonneg n : sticky_bit n = true -> 0 <= n.
Proof. revert n. apply sticky_cases. lia. Qed.

(** A bit that no sticky flag uses. *)
Definition plain_bit (k : Z) : Prop := 0 <= k /\ sticky_bit k = false /\ k <> 15.

Lemma plain_ne k n : plain_bit k -> sticky_bit n = true -> (n =? k) = false.
Proof. intros (_ & Hk & _) Hn. apply Z.eqb_neq. intros ->. congruence. Qed.

Lemma set_both_carries flag m : carries m (set_both flag m).
Proof. split; [intros n _ H|intros H]; cbn [set_both with_flags reader_feature_flags writer_feature_flags]; by rewrite Z.lor_spec, H. Qed.

Lemma set_writer_carries flag m : carries m (set_writer flag m).
Proof. split; [done|intros H]; cbn [set_writer with_flags reader_feature_flags writer_feature_flags]; by rewrite Z.lor_spec, H. Qed.

Lemma testbit_cleared w k n : 0 <= k -> 0 <= n -> Z.testbit (Z.ldiff w (Z.shiftl 1 k)) n = Z.testbit w n && negb (n =? k).
Proof. intros Hk Hn. by rewrite Z.ldiff_spec, testbit_flag. Qed.

Lemma clear_both_carries k m : plain_bit k -> carries m (clear_both (Z.shiftl 1 k) m).
Proof.
  intros Hk. pose proof Hk as (H0 & _ & H15). split; [intros n Hn H|intros H]; cbn [clear_both with_flags reader_feature_flags writer_feature_flags].
  - rewrite testbit_cleared, H, (plain_ne k n) by (done || by apply sticky_nonneg). done.
  - rewrite testbit_cleared, H by lia. by destruct (Z.eqb_spec 15 k) as [E|]; [destruct H15|].
Qed.

Lemma clear_writer_carries k m : plain_bit k -> carries m (clear_writer (Z.shiftl 1 k) m).
Proof.
  intros Hk. pose proof Hk as (H0 & _ & H15). split; [done|intros H]; cbn [clear_writer with_flags reader_feature_flags writer_feature_flags].
  rewrite testbit_cleared, H by lia. by destruct (Z.eqb_spec 15 k) as [E|]; [destruct H15|].
Qed.

Lemma set_both_paired flag m : paired m -> paired (set_both flag m).
Proof. intros Hp n Hn. cbn [set_both with_flags reader_feature_flags writer_feature_flags]. by rewrite !Z.lor_spec, (Hp n Hn). Qed.

Lemma clear_both_paired flag m : paired m -> paired (clear_both flag m).
Proof. intros Hp n Hn. cbn [clear_both with_flags reader_feature_flags writer_feature_flags]. by rewrite !Z.ldiff_spec, (Hp n Hn). Qed.

Lemma set_writer_paired k m : plain_bit k -> paired m -> paired (set_writer (Z.shiftl 1 k) m).
Proof.
  intros Hk Hp n Hn. pose proof Hk as (H0 & _). cbn [set_writer with_flags reader_feature_flags writer_feature_flags].
  rewrite Z.lor_spec, testbit_flag, (plain_ne k n) by (done || by apply sticky_nonneg). by rewrite orb_false_r, (Hp n Hn).
Qed.

Lemma clear_writer_paired k m : plain_bit k -> paired m -> paired (clear_writer (Z.shiftl 1 k) m).
Proof.
  intros Hk Hp n Hn. pose proof Hk as (H0 & _). cbn [clear_writer with_flags reader_feature_flags writer_feature_flags].
  rewrite testbit_cleared, (plain_ne k n) by (done || by apply sticky_nonneg). by rewrite andb_true_r, (Hp n Hn).
Qed.

Lemma plain_9 : plain_bit 9.
Proof. by split_and!. Qed.
Lemma plain_17 : plain_bit 17.
Proof. by split_and!. Qed.
Lemma plain_18 : plain_bit 18.
Proof. by split_and!. Qed.

#[export] Hint Resolve set_both_carries set_writer_carries clear_both_carries clear_writer_carries set_both_paired clear_both_paired set_writer_paired clear_writer_paired plain_9 plain_17 plain_18 : flags.
#[export] Hint Extern 0 (carries ?m ?m) => reflexivity : flags.

Lemma update_max_words k m : reader_feature_flags (update_max_field_id k m) = reader_feature_flags m /\ writer_feature_flags (update_max_field_id k m) = writer_feature_flags m.
Proof. unfold update_max_field_id. by destruct (max_allocated_field_id m). Qed.

Lemma activate_words k m : reader_feature_flags (activate_non_reusable_field_ids k m) = reader_feature_flags m /\ writer_feature_flags (activate_non_reusable_field_ids k m) = writer_feature_flags m.
Proof. unfold activate_non_reusable_field_ids. by destruct (max_allocated_field_id m). Qed.

(** Only the words matter. *)
Lemma words_carry m m' : reader_feature_flags m' = reader_feature_flags m -> writer_feature_flags m' = writer_feature_flags m -> carries m m'.
Proof. intros Hr Hw. split; [intros n _|]; by rewrite ?Hr, ?Hw. Qed.

Lemma applied_inv m enable disable m' : applied m enable disable = Ok m' -> flags_applied m enable disable m' /\ carries m m'.
Proof.
  unfold applied. destruct (apply_feature_flags m enable disable) as [m1 r] eqn:E. destruct r as [[]|?|]; mon; [|done..]. intros [= ->].
  pose proof (apply_inv _ _ _ _ E) as [Hp Ha]. split; [done|]. split.
  - intros n Hn H. rewrite (fa_reader _ _ _ _ Ha), sticky_shared by (done || by apply sticky_nonneg). done.
  - intros H. destruct (applied_bits _ _ _ _ Ha) as (_ & -> & _). destruct (max_allocated_field_id m) eqn:Em; [done|].
    destruct (apply_err m enable disable) as [He _]. rewrite E in He. cbn [snd] in He. discriminate He. right. intros [_ Hf]. specialize (Hf Em). congruence.
Qed.

Lemma inherit_carries m current next : inherit_sticky_feature_flags m current = Ok next -> carries current next /\ carries m next.
Proof.
  unfold inherit_sticky_feature_flags, validated_sticky_paired_flags. destruct (validate_paired_feature_flags current) as [[]|?|]; mon; [|done..].
  destruct (validate_non_reusable_field_id_flags current) as [[]|?|]; mon; [|done..]. intros [= <-]. unfold FLAG_NON_REUSABLE_FIELD_IDS. split; split; cbn [with_flags reader_feature_flags writer_feature_flags].
  - intros n Hn H. rewrite Z.lor_spec, Z.land_spec, H, testbit_sticky, Hn by (by apply sticky_nonneg). apply orb_true_r.
  - intros H. rewrite !Z.lor_spec, testbit_carry, H by lia. by rewrite !orb_true_r.
  - intros n Hn H. by rewrite Z.lor_spec, H.
  - intros H. by rewrite !Z.lor_spec, H.
Qed.

(** ** Publishing *)

Section Publishing.
Context {RB : Roaring} (overlays frag_reuse : bool) (incompatible : IndexEntry -> bool).

Lemma object_flag_carries m indices : carries m (apply_index_object_metadata_flag m indices).
Proof. unfold apply_index_object_metadata_flag. destruct (existsb _ _); auto with flags. Qed.

Lemma object_flag_paired m indices : paired m -> paired (apply_index_object_metadata_flag m indices).
Proof. unfold apply_index_object_metadata_flag, FLAG_OBJECT_METADATA. destruct (existsb _ _); auto with flags. Qed.

Lemma reuse_flag_carries m indices : carries m (apply_frag_reuse_with_stable_row_ids_flag m indices).
Proof. unfold apply_frag_reuse_with_stable_row_ids_flag, FLAG_FRAG_REUSE_WITH_STABLE_ROW_IDS. destruct (has_frag_reuse_with_stable_row_ids m indices); auto with flags. Qed.

Lemma reuse_flag_paired m indices : paired m -> paired (apply_frag_reuse_with_stable_row_ids_flag m indices).
Proof. unfold apply_frag_reuse_with_stable_row_ids_flag. destruct (has_frag_reuse_with_stable_row_ids m indices); auto with flags. Qed.

Lemma row_addr_flag_carries m indices : carries m (apply_row_addr_index_feature_flag m indices).
Proof. unfold apply_row_addr_index_feature_flag, FLAG_ROW_ADDR_INDICES. cbv zeta. destruct (_ && _); [etransitivity; [by apply clear_writer_carries, plain_18|]|]; auto with flags. Qed.

Lemma row_addr_flag_paired m indices : paired m -> paired (apply_row_addr_index_feature_flag m indices).
Proof. unfold apply_row_addr_index_feature_flag, FLAG_ROW_ADDR_INDICES. cbv zeta. destruct (_ && _); auto with flags. Qed.

Lemma contract_result m v files mode m' v' : check_manifest_storage_contract m v files mode = Ok (m', v') -> m' = m \/ m' = set_both FLAG_MIXED_DATA_FILE_VERSIONS m.
Proof.
  unfold check_manifest_storage_contract. cbv zeta. destruct (_ && _); [done|]. destruct (fold_res _ _ files) as [s|?|]; mon; [|done..].
  repeat match goal with |- context [if ?c then _ else _] => destruct c | |- context [match ?c with _ => _ end] => destruct c end; try done; intros [= <- _]; tauto.
Qed.

(** The manifest between the derivation and the last check. *)
Lemma write_inv config w m next : write_manifest_file overlays frag_reuse incompatible config w m = Ok next ->
  exists m1 m2, paired m /\
    (if auto_set_feature_flags config then
       exists m0, applied (update_max_field_id (wi_max_referenced w) m) (use_stable_row_ids config || uses_stable_row_ids (update_max_field_id (wi_max_referenced w) m)) (disable_transaction_file config) = Ok m0 /\
         m1 = apply_index_object_metadata_flag (apply_frag_reuse_with_stable_row_ids_flag m0 (default [] (wi_indices w))) (default [] (wi_indices w))
     else m1 = update_max_field_id (wi_max_referenced w) m) /\
    m2 = match wi_indices w with Some indices => apply_row_addr_index_feature_flag m1 indices | None => m1 end /\
    validate_frag_reuse_with_stable_row_ids incompatible frag_reuse m2 (default [] (wi_indices w)) = Ok () /\ validate_data_overlay_files overlays m2 = Ok () /\
    field_ids_ok m2 /\ (next = m2 \/ next = set_both FLAG_MIXED_DATA_FILE_VERSIONS m2).
Proof.
  unfold write_manifest_file. set (mu := update_max_field_id (wi_max_referenced w) m). set (ix := default [] (wi_indices w)).
  assert (Hpu : paired mu -> paired m) by (intros Hp n Hn; specialize (Hp n Hn); unfold mu in Hp; by destruct (update_max_words (wi_max_referenced w) m) as [<- <-]).
  destruct (validate_paired_iff mu) as [[-> Hp]|[-> _]]; mon; [|done]. apply Hpu in Hp. clear Hpu.
  match goal with |- (_ ← ?x; _) = _ -> _ => destruct x as [[]|?|] end; mon; [|done..]. destruct (wi_schema_checks w) as [[]|?|]; mon; [|done..].
  match goal with |- (m ← ?x; _) = _ -> _ => destruct x as [m1|?|] eqn:E1 end; mon; [|done..]. cbv zeta.
  set (m2 := match wi_indices w with Some _ => _ | None => m1 end).
  destruct (validate_frag_reuse_with_stable_row_ids incompatible frag_reuse m2 ix) as [[]|?|] eqn:Ef; mon; [|done..].
  destruct (validate_data_overlay_files overlays m2) as [[]|?|] eqn:Eo; mon; [|done..]. destruct (validate_field_ids_iff m2) as [[-> Hf]|[-> _]]; mon; [|done].
  destruct (check_manifest_storage_contract m2 _ _ _) as [[m3 v]|?|] eqn:Ec; mon; [|done..]. intros [= <-]. apply contract_result in Ec.
  exists m1, m2. split_and!; try done. destruct (auto_set_feature_flags config); [|by injection E1].
  destruct (applied mu _ _) as [m0|?|] eqn:E0; mon; [|done..]. injection E1 as <-. by exists m0.
Qed.

Lemma write_keeps config w m next : write_manifest_file overlays frag_reuse incompatible config w m = Ok next -> carries m next /\ paired next /\ field_ids_ok next.
Proof.
  intros (m1 & m2 & Hp & H1 & H2 & _ & _ & Hf & Hn)%write_inv. destruct (update_max_words (wi_max_referenced w) m) as [Er Ew].
  assert (Hm1 : carries m m1 /\ paired m1).
  { destruct (auto_set_feature_flags config).
    - destruct H1 as (m0 & E0 & ->). apply applied_inv in E0 as [Ha Hc]. split; [|by eapply object_flag_paired, reuse_flag_paired, applied_paired].
      etransitivity; [by apply words_carry|]. etransitivity; [exact Hc|]. etransitivity; [apply reuse_flag_carries|apply object_flag_carries].
    - subst m1. split; [by apply words_carry|]. intros n Hn'. rewrite Er, Ew. by apply Hp. }
  assert (Hm2 : carries m m2 /\ paired m2).
  { destruct Hm1 as [Hc Hp1]. subst m2. destruct (wi_indices w); [|done]. split; [etransitivity; [exact Hc|apply row_addr_flag_carries]|by apply row_addr_flag_paired]. }
  destruct Hm2 as [Hc Hp2]. destruct Hn as [-> | ->]; [done|]. split; [etransitivity; [exact Hc|apply set_both_carries]|]. split; [by apply set_both_paired|].
  destruct Hf as [Hf1 Hf2]. split; cbn [set_both with_flags reader_feature_flags writer_feature_flags max_allocated_field_id]; unfold FLAG_MIXED_DATA_FILE_VERSIONS; rewrite Z.lor_spec, testbit_flag by lia; by rewrite orb_false_r.
Qed.

(** ** Committing *)

Lemma derive_carries config current indices m m' : derive_flags config (Some current) indices m = Ok m' -> carries current m'.
Proof.
  unfold derive_flags. match goal with |- (m ← ?x; _) = _ -> _ => destruct x as [m1|?|] end; mon; [|done..]. by intros [H _]%inherit_carries.
Qed.

Lemma finish_carries indices metadata m m' : finish_flags indices metadata m = Ok m' -> carries m m'.
Proof.
  unfold finish_flags. set (m1 := if existsb _ indices then _ else m). assert (H1 : carries m m1) by (unfold m1; destruct (existsb _ indices); auto with flags).
  destruct (managed_blobs_enabled metadata) as [managed|?|]; mon; [|done..]. intros [= <-]. etransitivity; [exact H1|]. etransitivity; [|apply object_flag_carries]. destruct managed; auto with flags.
Qed.

Lemma activate_carries dup k m m' : activate_field_identity_for_clustering dup k m = Ok m' -> carries m m'.
Proof.
  unfold activate_field_identity_for_clustering. destruct (uses_non_reusable_field_ids m); [by intros [= ->]|]. destruct dup; [done|]. intros [= <-].
  destruct (activate_words k m). etransitivity; [by apply words_carry|apply set_writer_carries].
Qed.

Lemma build_carries config current b m : build_manifest config (Some current) b = Ok m -> carries current m.
Proof.
  unfold build_manifest. destruct (derive_flags config (Some current) _ _) as [m1|?|] eqn:E1; mon; [|done..]. apply derive_carries in E1. cbv zeta.
  set (m2 := with_contents _ _). assert (H2 : carries m1 m2) by (destruct (update_max_words (bi_max_referenced b) m1); by apply words_carry).
  match goal with |- (m ← ?x; _) = _ -> _ => destruct x as [m3|?|] eqn:E3 end; mon; [|done..].
  assert (H3 : carries m2 m3) by (destruct (bi_allocates_clustering b); [by eapply activate_carries|by injection E3 as ->]).
  destruct (finish_flags _ _ m3) as [m4|?|] eqn:E4; mon; [|done..]. apply finish_carries in E4. destruct (bi_checks b) as [[]|?|]; mon; [|done..].
  destruct (validate_non_reusable_field_id_flags m4) as [[]|?|]; mon; [|done..]. intros [= <-]. do 3 (etransitivity; [eassumption|]). done.
Qed.

Lemma seeds_carry m indices writers : carries m (apply_seed_feature_flags m indices writers).
Proof. unfold apply_seed_feature_flags. destruct indices; auto with flags. Qed.

Lemma restore_carries config old indices current m : restore_old_manifest overlays frag_reuse config old indices current = Ok m -> carries current m.
Proof.
  unfold restore_old_manifest. destruct (clustering_definitions config); [done|].
  do 3 (match goal with |- (_ ← ?x; _) = _ -> _ => destruct x as [[]|?|] end; mon; [|done..]).
  match goal with |- (m ← ?x; _) = _ -> _ => destruct x as [m1|?|] end; mon; [|done..]. cbv zeta. destruct (_ && _); [done|]. by intros [H _]%inherit_carries.
Qed.

(** The masks of a shallow clone keep the sticky bits. *)
Lemma clone_carries m ref_path ref_base_id : carries m (shallow_clone m ref_path ref_base_id).
Proof.
  split; [intros n Hn H|intros H]; cbn [shallow_clone reader_feature_flags writer_feature_flags]; rewrite Z.land_spec, H, !Z.lor_spec; cbn [andb].
  - unfold STICKY_READER_FLAGS. rewrite testbit_sticky, Hn by (by apply sticky_nonneg). by rewrite orb_true_r.
  - done.
Qed.

Lemma commit_keeps current next : commit overlays frag_reuse incompatible current next -> carries current next /\ paired next /\ field_ids_ok next.
Proof.
  intros [config b writers migrated w E|config old indices migrated w E|config ref_path ref_base_id w E|config fragments w E].
  - unfold commit_build in E. destruct (build_manifest config (Some current) b) as [m|?|] eqn:Eb; mon; [|done..]. apply write_keeps in E as [Hc H]. split; [|done].
    etransitivity; [by eapply build_carries|]. etransitivity; [apply seeds_carry|exact Hc].
  - unfold commit_restore in E. destruct (restore_old_manifest overlays frag_reuse config old indices current) as [m|?|] eqn:Er; mon; [|done..]. apply write_keeps in E as [Hc H]. split; [|done].
    etransitivity; [by eapply restore_carries|exact Hc].
  - apply write_keeps in E as [Hc H]. split; [|done]. etransitivity; [apply clone_carries|exact Hc].
  - apply write_keeps in E as [Hc H]. split; [|done]. exact Hc.
Qed.

(** C14: sticky capabilities are permanent.  Over any number of commits - ordinary
    ones, restores of any stored version, shallow and deep clones, with or
    without automatic flags, and with whatever contents the operations leave - a
    paired capability that is set stays set in both words, and so does the
    writer's flag for field ids that are never reused; every published manifest
    has consistent words. *)
Theorem sticky_flags_stay current next : tc (commit overlays frag_reuse incompatible) current next -> paired next /\ field_ids_ok next /\
  (forall n, sticky_bit n = true -> Z.testbit (reader_feature_flags current) n = true ->
     Z.testbit (reader_feature_flags next) n = true /\ Z.testbit (writer_feature_flags next) n = true) /\
  (Z.testbit (writer_feature_flags current) 15 = true -> Z.testbit (writer_feature_flags next) 15 = true).
Proof.
  intros H. assert (Hk : carries current next /\ paired next /\ field_ids_ok next).
  { induction H as [x y H|x y z H _ [IH Hz]]; [by apply commit_keeps|]. split; [|done]. etransitivity; [by apply commit_keeps|exact IH]. }
  destruct Hk as ([Hc H15] & Hp & Hf). split; [done|]. split; [done|]. split; [|done]. intros n Hn Hr. rewrite <- (Hp n Hn). auto.
Qed.

(** ** Opening what was published *)

Lemma stable_bit m : uses_stable_row_ids m = Z.testbit (reader_feature_flags m) 1.
Proof. apply bit_set_flag. lia. Qed.

(** What the flags of the index list add. *)
Lemma reuse_flag_bits m indices : let m' := apply_frag_reuse_with_stable_row_ids_flag m indices in
  m_fragments m' = m_fragments m /\ uses_stable_row_ids m' = uses_stable_row_ids m /\
  forall n, 0 <= n -> (Z.testbit (reader_feature_flags m') n = true -> Z.testbit (reader_feature_flags m) n = true \/ (n = 9 /\ has_frag_reuse_with_stable_row_ids m indices = true)) /\
    (Z.testbit (writer_feature_flags m') n = true -> Z.testbit (writer_feature_flags m) n = true \/ (n = 9 /\ has_frag_reuse_with_stable_row_ids m indices = true)).
Proof.
  cbv zeta. unfold apply_frag_reuse_with_stable_row_ids_flag, FLAG_FRAG_REUSE_WITH_STABLE_ROW_IDS. rewrite !stable_bit. destruct (has_frag_reuse_with_stable_row_ids m indices);
    cbn [set_both clear_both with_flags m_fragments reader_feature_flags writer_feature_flags]; (split; [done|]).
  - split; [by rewrite Z.lor_spec, orb_false_r|]. intros n Hn. rewrite !Z.lor_spec, testbit_flag, !orb_true_iff, Z.eqb_eq by lia. tauto.
  - split; [by rewrite Z.ldiff_spec, andb_true_r|]. intros n Hn. rewrite !testbit_cleared, !andb_true_iff by lia. tauto.
Qed.

Lemma object_flag_bits m indices : let m' := apply_index_object_metadata_flag m indices in
  m_fragments m' = m_fragments m /\ reader_feature_flags m' = reader_feature_flags m /\
  forall n, 0 <= n -> Z.testbit (writer_feature_flags m') n = true -> Z.testbit (writer_feature_flags m) n = true \/ n = 17.
Proof.
  cbv zeta. unfold apply_index_object_metadata_flag, FLAG_OBJECT_METADATA. destruct (existsb _ _); [|split_and!; [done|done|tauto]].
  cbn [set_writer with_flags m_fragments reader_feature_flags writer_feature_flags]. split_and!; [done|done|]. intros n Hn. rewrite Z.lor_spec, testbit_flag, orb_true_iff, Z.eqb_eq by lia. tauto.
Qed.

Lemma row_addr_flag_bits m indices : let m' := apply_row_addr_index_feature_flag m indices in
  m_fragments m' = m_fragments m /\ reader_feature_flags m' = reader_feature_flags m /\
  forall n, 0 <= n -> Z.testbit (writer_feature_flags m') n = true -> Z.testbit (writer_feature_flags m) n = true \/ n = 18.
Proof.
  cbv zeta. unfold apply_row_addr_index_feature_flag, FLAG_ROW_ADDR_INDICES. cbv zeta. destruct (_ && _);
    cbn [clear_writer set_writer with_flags m_fragments reader_feature_flags writer_feature_flags]; (split_and!; [done|done|]); intros n Hn;
    rewrite ?Z.lor_spec, ?testbit_flag, ?testbit_cleared, ?orb_true_iff, ?andb_true_iff, ?Z.eqb_eq by lia; tauto.
Qed.

(** The flags of a manifest with derived words, after the index list and the
    file versions were considered. *)
Lemma published_bits config w m next : write_manifest_file overlays frag_reuse incompatible config w m = Ok next -> auto_set_feature_flags config = true ->
  forall n, 0 <= n -> Z.testbit (reader_feature_flags next) n = true \/ Z.testbit (writer_feature_flags next) n = true -> understood overlays frag_reuse n = true.
Proof.
  intros (m1 & m2 & _ & H1 & H2 & Ef & Eo & _ & Hn)%write_inv Hauto. rewrite Hauto in H1. destruct H1 as (m0 & E0 & E1). set (ix := default [] (wi_indices w)) in *.
  apply applied_inv in E0 as [Ha _]. set (mu := update_max_field_id _ m) in *. set (enable := use_stable_row_ids config || _) in *.
  destruct (reuse_flag_bits m0 ix) as (Hfr & Hst & Hbits). destruct (object_flag_bits (apply_frag_reuse_with_stable_row_ids_flag m0 ix) ix) as (Hfo & Hro & Hwo). rewrite <- E1 in Hfo, Hro, Hwo.
  assert (H12 : m_fragments m2 = m_fragments m1 /\ reader_feature_flags m2 = reader_feature_flags m1 /\
    forall n, 0 <= n -> Z.testbit (writer_feature_flags m2) n = true -> Z.testbit (writer_feature_flags m1) n = true \/ n = 18).
  { rewrite H2. destruct (wi_indices w); [apply row_addr_flag_bits|]. split_and!; [done|done|tauto]. }
  destruct H12 as (Hf2 & Hr2 & Hw2).
  assert (Hov : has_overlays mu = true -> overlays = true).
  { intros H. apply (overlay_check overlays m2 Eo). unfold has_overlays in *. rewrite Hf2, Hfo, Hfr. by rewrite (fa_same _ _ _ _ Ha). }
  assert (Hre : has_frag_reuse_with_stable_row_ids m0 ix = true -> frag_reuse = true).
  { intros H. unfold validate_frag_reuse_with_stable_row_ids in Ef. assert (E : has_frag_reuse_with_stable_row_ids m2 ix = true).
    { unfold has_frag_reuse_with_stable_row_ids in *. rewrite stable_bit, Hr2, Hro, <- stable_bit, Hst. done. }
    rewrite E in Ef. cbn [negb] in Ef. by destruct frag_reuse. }
  intros n H0 Hset. assert (Hcase : shared_bit mu enable n = true \/ writer_only_bit mu (disable_transaction_file config) n = true \/ (n = 9 /\ frag_reuse = true) \/ n = 8 \/ n = 17 \/ n = 18).
  { assert (H2c : Z.testbit (reader_feature_flags m2) n = true \/ Z.testbit (writer_feature_flags m2) n = true \/ n = 8).
    { destruct Hn as [-> | ->]; [tauto|]. cbn [set_both with_flags reader_feature_flags writer_feature_flags] in Hset. unfold FLAG_MIXED_DATA_FILE_VERSIONS in Hset.
      rewrite !Z.lor_spec, testbit_flag, !orb_true_iff, Z.eqb_eq in Hset by lia. tauto. }
    pose proof (fa_reader _ _ _ _ Ha n H0) as Hr0. pose proof (fa_writer _ _ _ _ Ha n H0) as Hw0. destruct (Hbits n H0) as [Hb1 Hb2]. rewrite Hr0 in Hb1. rewrite Hw0, orb_true_iff in Hb2.
    rewrite Hr2, Hro in H2c. specialize (Hw2 n H0). specialize (Hwo n H0). tauto. }
  destruct Hcase as [H|[H|[[-> H]|[->|[->| ->]]]]]; [by eapply understood_shared|by eapply understood_writer|rewrite H; unfold understood; cbn; by rewrite orb_true_r|..]; unfold understood; cbn; by rewrite !orb_true_r.
Qed.

(** C30: a build opens a table, for reading or writing, exactly when its words
    are consistent and it understands every bit that is set; and whatever
    manifest it publishes with automatic flags it can read and write again.  The
    bits a build understands are those below 20 but for the fragment tree and
    independent covering fields, overlays and reuse with stable row ids only
    where enabled; zone write seeds and object metadata are among them. *)
Theorem published_opens config w m next : write_manifest_file overlays frag_reuse incompatible config w m = Ok next -> auto_set_feature_flags config = true ->
  ensure_can_read_manifest overlays frag_reuse next = Ok () /\ ensure_can_write_manifest overlays frag_reuse next = Ok () /\
  (forall m, ensure_can_read_manifest overlays frag_reuse m = Ok () <-> opens overlays frag_reuse m (reader_feature_flags m)) /\
  (forall m, ensure_can_write_manifest overlays frag_reuse m = Ok () <-> opens overlays frag_reuse m (writer_feature_flags m)).
Proof.
  intros E Hauto. pose proof (published_bits _ _ _ _ E Hauto) as Hb. apply write_keeps in E as (_ & Hp & Hf).
  split; [apply ensure_iff; split_and!; try done; [apply Hf..|]; intros n H0 H; apply (Hb n H0); by left|].
  split; [apply ensure_iff; split_and!; try done; [apply Hf..|]; intros n H0 H; apply (Hb n H0); by right|]. split; intros k; apply ensure_iff.
Qed.

End Publishing.

(** ** Examples *)

Module FlagCommitExamples.
Import FeatureFlagsExamples.

#[local] Existing Instance CofiniteRoaring.

Definition config : WriteConfig := mkWriteConfig true false false false false.
Definition no_incompatible (index : IndexEntry) : bool := false.
Definition empty_contents : Contents := mkContents [] ∅ ∅ [] 0.
Definition write_input : WriteInput := mkWriteInput None 3 (Ok ()) V2_0 [mkStoredFile (Ok V2_0) (Ok ()); mkStoredFile (Ok V2_1) (Ok ())].
Definition build_input : BuildInput := mkBuildInput [] ∅ [] 3 empty_contents false false ∅ (Ok ()).

Definition get (r : res Manifest) : Manifest := match r with Ok m => m | _ => published end.

(** All rows of the table with a tagged history are deleted. *)
Definition second : Manifest := get (commit_build false false no_incompatible config published build_input [] empty_contents write_input).

(** A version from before the history is restored. *)
Definition before : Manifest := mkManifest [] 0 0 None ∅ ∅ [] 0.
Definition third : Manifest := get (commit_restore false false no_incompatible config second before [] empty_contents (mkWriteInput None 3 (Ok ()) V2_0 [])).

Lemma sticky_flags_stay_witness : Z.testbit (reader_feature_flags third) 10 = true /\ Z.testbit (writer_feature_flags third) 10 = true.
Proof.
  destruct (sticky_flags_stay false false no_incompatible published third) as (_ & _ & H & _).
  - apply tc_l with second; [|apply tc_once].
    + apply (next_build false false no_incompatible published second config build_input [] empty_contents write_input). by vm_compute.
    + apply (next_restore false false no_incompatible second third config before [] empty_contents (mkWriteInput None 3 (Ok ()) V2_0 [])). by vm_compute.
  - by apply H; vm_compute.
Defined.

(** Files of two versions are published under the flag for it. *)
Lemma mixed_versions_flagged : Z.testbit (reader_feature_flags published) 8 = false /\ Z.testbit (reader_feature_flags second) 8 = true.
Proof. split; by vm_compute. Qed.

Definition republished : Manifest := get (write_manifest_file false false no_incompatible config write_input published).

Lemma published_opens_witness : ensure_can_read_manifest false false republished = Ok () /\ ensure_can_write_manifest false false republished = Ok ().
Proof.
  destruct (published_opens false false no_incompatible config write_input published republished) as (H1 & H2 & _); [by vm_compute|done|]. split; [exact H1|exact H2].
Defined.

End FlagCommitExamples.
