(* ===== verification/Backoff.v ===== *)
(** * Backoff

    [lance-core/src/utils/backoff.rs]: the delays between retries, exponential
    with jitter ([Backoff]) or a random slot ([SlotBackoff]). *)

From Stdlib Require Import ZArith Lia.
From stdpp Require Import base option list numbers.
From S2P Require Import Prelude.

(** ** The random numbers *)

(** [random_range(lo..=hi)] of the [rand] crate, with the generator's state. *)
Class RandomRange := {
  generator : Type;
  random_range : generator -> Z -> Z -> Z * generator
}.

Class RandomRangeLaws (R : RandomRange) : Prop := {
  random_range_in g lo hi : lo <= hi -> lo <= fst (random_range g lo hi) <= hi
}.

(** ** Model *)

(** [u32::saturating_pow], [saturating_mul], [saturating_add],
    [saturating_add_signed]. *)
Definition saturating_pow32 (base exp : Z) : Z := Z.min (base ^ exp) U32_MAX.
Definition saturating_mul32 (a b : Z) : Z := Z.min (a * b) U32_MAX.
Definition saturating_add32 (a b : Z) : Z := Z.min (a + b) U32_MAX.
Definition saturating_add_signed32 (a b : Z) : Z := Z.max 0 (Z.min (a + b) U32_MAX).

(** [clamp] panics when the bounds are crossed. *)
Definition clamp (x min max : Z) : res Z := if max <? min then Panic else Ok (Z.max min (Z.min x max)).

Record Backoff := mkBackoff { b_base : Z; b_unit : Z; b_jitter : Z; b_min : Z; b_max : Z; b_attempt : Z }.

Definition default_backoff : Backoff := mkBackoff 2 50 50 0 5000 0.

Definition with_base (b : Backoff) (base : Z) : Backoff := mkBackoff base (b_unit b) (b_jitter b) (b_min b) (b_max b) (b_attempt b).
Definition with_unit (b : Backoff) (unit : Z) : Backoff := mkBackoff (b_base b) unit (b_jitter b) (b_min b) (b_max b) (b_attempt b).
Definition with_jitter (b : Backoff) (jitter : Z) : Backoff := mkBackoff (b_base b) (b_unit b) jitter (b_min b) (b_max b) (b_attempt b).
Definition with_min (b : Backoff) (min : Z) : Backoff := mkBackoff (b_base b) (b_unit b) (b_jitter b) min (b_max b) (b_attempt b).
Definition with_max (b : Backoff) (max : Z) : Backoff := mkBackoff (b_base b) (b_unit b) (b_jitter b) (b_min b) max (b_attempt b).
Definition reset (b : Backoff) : Backoff := mkBackoff (b_base b) (b_unit b) (b_jitter b) (b_min b) (b_max b) 0.

Definition MAX_SLOTS : Z := 128.

Record SlotBackoff := mkSlotBackoff { s_base : Z; s_unit : Z; s_starting_i : Z; s_attempt : Z }.

Definition default_slot_backoff : SlotBackoff := mkSlotBackoff 2 50 2 0.
Definition slot_with_unit (s : SlotBackoff) (unit : Z) : SlotBackoff := mkSlotBackoff (s_base s) unit (s_starting_i s) (s_attempt s).

Section BackoffModel.
Context {R : RandomRange}.

(** [next_backoff]: the delay in milliseconds.  The negated jitter wraps around
    for [i32::MIN], and an empty range panics. *)
Definition next_backoff (b : Backoff) (g : generator) : res (Z * Backoff * generator) :=
  let backoff := saturating_mul32 (saturating_pow32 (b_base b) (b_attempt b)) (b_unit b) in
  let low := if b_jitter b =? -2147483648 then -2147483648 else - b_jitter b in
  if b_jitter b <? low then Panic else
  let '(jitter, g) := random_range g low (b_jitter b) in
  backoff ← clamp (saturating_add_signed32 backoff jitter) (b_min b) (b_max b);
  Ok (backoff, mkBackoff (b_base b) (b_unit b) (b_jitter b) (b_min b) (b_max b) (b_attempt b +d 1), g).

Definition num_slots (s : SlotBackoff) : Z := Z.min (saturating_pow32 (s_base s) (saturating_add32 (s_attempt s) (s_starting_i s))) MAX_SLOTS.

(** [SlotBackoff::next_backoff]; the range [0..num_slots] is exclusive. *)
Definition next_slot_backoff (s : SlotBackoff) (g : generator) : res (Z * SlotBackoff * generator) :=
  if num_slots s <=? 0 then Panic else
  let '(slot_i, g) := random_range g 0 (num_slots s - 1) in
  Ok (wrap64 (slot_i * s_unit s), mkSlotBackoff (s_base s) (s_unit s) (s_starting_i s) (saturating_add32 (s_attempt s) 1), g).

(** The delays of several calls. *)
Fixpoint backoffs (n : nat) (b : Backoff) (g : generator) : res (list Z) :=
  match n with
  | O => Ok []
  | S n => r ← next_backoff b g; let '(delay, b, g) := r in rest ← backoffs n b g; Ok (delay :: rest)
  end.

Fixpoint slot_backoffs (n : nat) (s : SlotBackoff) (g : generator) : res (list Z) :=
  match n with
  | O => Ok []
  | S n => r ← next_slot_backoff s g; let '(delay, s, g) := r in rest ← slot_backoffs n s g; Ok (delay :: rest)
  end.

End BackoffModel.

(** ** Bounds *)

Record backoff_ok (b : Backoff) : Prop := {
  bo_base : 1 <= b_base b <= U32_MAX;
  bo_unit : 0 <= b_unit b <= U32_MAX;
  bo_jitter : 0 <= b_jitter b <= 2147483647;
  bo_bounds : 0 <= b_min b <= b_max b;
  bo_max : b_max b <= U32_MAX;
  bo_attempt : 0 <= b_attempt b <= U32_MAX
}.

(** The delay of an attempt without jitter, [base ^ attempt * unit]. *)
Definition exact_delay (b : Backoff) (attempt : Z) : Z := b_base b ^ attempt * b_unit b.

(** The delay differs by at most the jitter, and stays in the bounds. *)
Definition delay_ok (b : Backoff) (attempt delay : Z) : Prop :=
  b_min b <= delay <= b_max b /\
  Z.min (exact_delay b attempt) (b_max b) - b_jitter b <= delay /\
  (delay <= Z.max (b_min b) (exact_delay b attempt + b_jitter b)).

Section Bounds.
Context {R : RandomRange} {RL : RandomRangeLaws R}.

Lemma saturating_product base exp unit : 1 <= base -> 0 <= exp -> 0 <= unit ->
  saturating_mul32 (saturating_pow32 base exp) unit = Z.min (base ^ exp * unit) U32_MAX \/ (unit = 0 /\ saturating_mul32 (saturating_pow32 base exp) unit = 0).
Proof.
  intros Hb He Hu. unfold saturating_mul32, saturating_pow32. assert (0 < base ^ exp) by (apply Z.pow_pos_nonneg; lia).
  destruct (Z.eq_dec unit 0) as [->|]; [right; split; lia|left].
  destruct (Z_le_gt_dec (base ^ exp) U32_MAX); [rewrite (Z.min_l (base ^ exp)) by lia; done|]. rewrite (Z.min_r (base ^ exp)) by lia. nia.
Qed.

Lemma next_backoff_ok b g : backoff_ok b -> exists delay g', next_backoff b g = Ok (delay, mkBackoff (b_base b) (b_unit b) (b_jitter b) (b_min b) (b_max b) (b_attempt b +d 1), g') /\
  delay_ok b (b_attempt b) delay.
Proof.
  intros [Hba Hu Hj Hm Hx Ha]. unfold next_backoff, clamp. destruct (Z.eqb_spec (b_jitter b) (-2147483648)); [lia|]. destruct (Z.ltb_spec (b_jitter b) (- b_jitter b)); [lia|].
  pose proof (random_range_in g (- b_jitter b) (b_jitter b) ltac:(lia)) as Hr. destruct (random_range g (- b_jitter b) (b_jitter b)) as [j g']. cbn [fst] in Hr.
  destruct (Z.ltb_spec (b_max b) (b_min b)); [lia|]. mon. eexists _, g'. split; [done|]. unfold delay_ok, exact_delay, saturating_add_signed32.
  assert (0 < b_base b ^ b_attempt b) by (apply Z.pow_pos_nonneg; lia).
  destruct (saturating_product (b_base b) (b_attempt b) (b_unit b) ltac:(lia) ltac:(lia) ltac:(lia)) as [-> |[E ->]]; [|rewrite E]; lia.
Qed.

(** C33: all delays of a backoff lie between its minimum and its maximum, and the
    delay of the [k]-th attempt is off from [base ^ k * unit] by no more than the
    jitter, wherever the bounds allow it. *)
Theorem backoff_bounds b g n : backoff_ok b -> b_attempt b = 0 -> Z.of_nat n <= U32_MAX ->
  exists delays, backoffs n b g = Ok delays /\ zlen delays = Z.of_nat n /\ forall k delay, get_opt delays k = Some delay -> delay_ok b k delay.
Proof.
  intros Hb Ha Hn. enough (G : forall m b' g, backoff_ok b' -> b_attempt b' + Z.of_nat m <= U32_MAX ->
    (forall k d, delay_ok b' k d -> delay_ok b k d) ->
    exists delays, backoffs m b' g = Ok delays /\ zlen delays = Z.of_nat m /\ forall k delay, get_opt delays k = Some delay -> delay_ok b (b_attempt b' + k) delay).
  { destruct (G n b g Hb ltac:(lia) ltac:(done)) as (ds & E & Hl & Hd). exists ds. split; [done|]. split; [done|]. rewrite Ha in Hd. exact Hd. }
  induction m as [|m IH]; intros b' g' Hb' Hm Hsame.
  { exists []. split; [done|]. split; [done|]. intros k d Hk. apply get_opt_Some in Hk. change (zlen []) with 0 in Hk. lia. }
  cbn [backoffs]. destruct (next_backoff_ok b' g' Hb') as (d & g2 & -> & Hd). mon. pose proof Hb' as [Hba Hu Hj Hmm Hx Hat]. rewrite wrap32_small by (uok; lia).
  destruct (IH (mkBackoff (b_base b') (b_unit b') (b_jitter b') (b_min b') (b_max b') (b_attempt b' + 1)) g2) as (ds & -> & Hl & Hds); [split; cbn; lia|cbn; lia|done|]. mon.
  exists (d :: ds). split; [done|]. split; [rewrite zlen_cons; lia|]. intros k x Hk. rewrite get_opt_cons in Hk. destruct (Z.eqb_spec k 0) as [->|].
  - injection Hk as <-. rewrite Z.add_0_r. by apply Hsame.
  - specialize (Hds _ _ Hk). cbn [b_attempt] in Hds. by replace (b_attempt b' + k) with (b_attempt b' + 1 + (k - 1)) by lia.
Qed.

Record slot_ok (s : SlotBackoff) : Prop := {
  so_base : 1 <= s_base s <= U32_MAX;
  so_unit : 0 <= s_unit s <= U32_MAX;
  so_start : 0 <= s_starting_i s <= U32_MAX;
  so_attempt : 0 <= s_attempt s <= U32_MAX
}.

Lemma num_slots_bounds s : slot_ok s -> 1 <= num_slots s <= MAX_SLOTS.
Proof.
  intros [Hb _ Hs Ha]. unfold num_slots, saturating_pow32, saturating_add32, MAX_SLOTS.
  assert (0 < s_base s ^ Z.min (s_attempt s + s_starting_i s) U32_MAX) by (apply Z.pow_pos_nonneg; lia). lia.
Qed.

Lemma num_slots_at s attempt k : slot_ok s -> 0 <= attempt -> 0 <= k -> s_attempt s <= attempt + k -> num_slots s <= Z.min (s_base s ^ (attempt + k + s_starting_i s)) MAX_SLOTS.
Proof.
  intros [Hb _ Hs Ha] Hat Hk Hle. unfold num_slots, saturating_pow32, saturating_add32.
  assert (s_base s ^ Z.min (s_attempt s + s_starting_i s) U32_MAX <= s_base s ^ (attempt + k + s_starting_i s)) by (apply Z.pow_le_mono_r; lia). lia.
Qed.

(** A slot backoff waits for a whole number of units: in the [k]-th attempt
    less than [base ^ (k + starting_i)] of them and never more than 127, however
    many attempts were made; the product does not overflow and no call panics. *)
Theorem slot_backoff_bounds s g n : slot_ok s ->
  exists delays, slot_backoffs n s g = Ok delays /\ zlen delays = Z.of_nat n /\
    forall k delay, get_opt delays k = Some delay ->
      exists slot, delay = slot * s_unit s /\ 0 <= slot < Z.min (s_base s ^ (s_attempt s + k + s_starting_i s)) MAX_SLOTS.
Proof.
  intros Hs0. pose proof Hs0 as [_ _ _ Ha0]. enough (G : forall m j attempt g, 0 <= j -> 0 <= attempt <= U32_MAX -> attempt <= s_attempt s + j ->
    exists delays, slot_backoffs m (mkSlotBackoff (s_base s) (s_unit s) (s_starting_i s) attempt) g = Ok delays /\ zlen delays = Z.of_nat m /\
    forall k delay, get_opt delays k = Some delay ->
      exists slot, delay = slot * s_unit s /\ 0 <= slot < Z.min (s_base s ^ (s_attempt s + (j + k) + s_starting_i s)) MAX_SLOTS).
  { destruct s. exact (G n 0 _ g ltac:(lia) Ha0 ltac:(lia)). }
  clear g. induction m as [|m IH]; intros j attempt g Hj Ha Hle.
  { exists []. split; [done|]. split; [done|]. intros k d Hk. apply get_opt_Some in Hk. change (zlen []) with 0 in Hk. lia. }
  cbn [slot_backoffs]. unfold next_slot_backoff. set (s' := mkSlotBackoff _ _ _ _). assert (Hs : slot_ok s') by (destruct Hs0; split; cbn; lia).
  pose proof (num_slots_bounds s' Hs) as Hn. pose proof (num_slots_at s' (s_attempt s) j Hs ltac:(lia) Hj Hle) as Hm. destruct (Z.leb_spec (num_slots s') 0); [lia|].
  pose proof (random_range_in g 0 (num_slots s' - 1) ltac:(lia)) as Hr. destruct (random_range g 0 (num_slots s' - 1)) as [slot g2]. cbn [fst] in Hr. mon.
  subst s'. cbn [s_base s_unit s_starting_i s_attempt] in *. pose proof Hs0 as [Hb Hu Hst _]. unfold saturating_add32, MAX_SLOTS in *.
  destruct (IH (j + 1) (Z.min (attempt + 1) U32_MAX) g2) as (ds & -> & Hl & Hds); [lia..|]. mon.
  eexists. split; [done|]. split; [rewrite zlen_cons; lia|]. intros k d Hk. rewrite get_opt_cons in Hk. destruct (Z.eqb_spec k 0) as [->|].
  - injection Hk as <-. exists slot. rewrite (Z.add_0_r j). split; [apply wrap64_small; uok; nia|lia].
  - replace (j + k) with (j + 1 + (k - 1)) by lia. exact (Hds _ _ Hk).
Qed.

End Bounds.

(** ** Examples *)

Module BackoffExamples.

(** A generator that alternates between the ends of the range. *)
#[export] Instance Alternating : RandomRange := { generator := bool; random_range g lo hi := (if g then hi else lo, negb g) }.

#[export] Instance Alternating_laws : RandomRangeLaws Alternating.
Proof. split. intros [] lo hi H; cbn; lia. Qed.

Lemma backoff_bounds_witness : exists delays, backoffs 9 default_backoff true = Ok delays /\ zlen delays = 9 /\ forall k delay, get_opt delays k = Some delay -> delay_ok default_backoff k delay.
Proof. exact (backoff_bounds default_backoff true 9 ltac:(split; cbn; lia) eq_refl ltac:(by vm_compute)). Defined.

Lemma slot_backoff_bounds_witness : exists delays, slot_backoffs 9 default_slot_backoff true = Ok delays /\ zlen delays = 9 /\
  forall k delay, get_opt delays k = Some delay -> exists slot, delay = slot * 50 /\ 0 <= slot < Z.min (2 ^ (0 + k + 2)) MAX_SLOTS.
Proof. exact (slot_backoff_bounds default_slot_backoff true 9 ltac:(split; cbn; lia)). Defined.

End BackoffExamples.
